(* ===== verification/_CoqProject ===== *)
-Q . S2P
Prelude.v
ScVal.v
Storage.v
Host.v
Env.v
AuthTree.v
AccountAuth.v
Auth.v
Frame.v
TrackerThms.v
AuthThms.v
FrameThms.v
AccountThms.v
NonceThms.v
AuthProps.v
AuthRecord.v
AuthRecordThms.v
AuthReplay.v
FrameProps.v
Sim.v
Queue.v
QueueSpec.v
QueueProps.v
QueueThms.v
Escrow.v
EscrowSpec.v
EscrowThms.v
Identity.v
IdentitySpec.v
IdentityThms.v
Enrollment.v
EnrollmentSpec.v
EnrollmentThms.v
Factory.v
FactorySpec.v
FactoryThms.v
Budget.v
BudgetThms.v
Metering.v
Search.v
OrdMap.v
Vector.v
Fees.v
TokenData.v
TokenBalance.v
Token.v
TokenSpec.v
TokenCalls.v
TokenEffects.v
TokenThms.v
TokenProps.v
TokenInit.v
Access.v
Replay.v
E2e.v
E2eThms.v
E2eProps.v
E2eRecord.v
InvocationMeter.v
E2eDemo.v
Objects.v
Convert.v
LinMem.v
Dispatch.v
ObjCode.v
ObjThms.v
ObjEffects.v
ObjSafe.v
MemSafe.v
MemWrites.v
CodeSafe.v
ObjRefine.v
ObjProps.v
MemThms.v
ObjDemo.v
ConvertThms.v
Compare.v
CompareThms.v
Numbers.v
HostDemo.v
