(* ===== verification/Prelude.v ===== *)
(** * LineProof: contracts and ledger host

    LineProof sells places in a line.  Its core are five Soroban contracts in Rust,
    run by a copy of [soroban-env-host] that the repository carries with patches.
    This library models both and proves what a buyer, an operator and the network
    rely on.  Paths below are under [src/contracts/]; [P/] stands for
    [.patched/soroban-env-host/src/].

    ** Parts

    A transaction calls an entry point of a contract.  The host puts a frame on its
    stack, runs the entry point, which asks the host for ledger data, events,
    authorization or deployment, and keeps the effects or rolls all of them back.

    - [Prelude]: errors ([Result], the host's error types and codes, Rust's [panic!]
      as [EPanic]), machine integers as [Z] with saturating and checked operations,
      the state and error monad [M], and [returns], a partial triple for it: from an
      invariant, every outcome keeps the invariant and satisfies its postcondition.
    - [ScVal]: the values contracts pass and store, and [codec]s, one for each type
      with [#[contracttype]], which carry the round trip as a law.
    - [Storage]: P/storage.rs and P/ledger_info.rs.  The class [LedgerStore] is the
      interface of a ledger store; [Storage], the store behind a footprint, and the
      finite map [LedgerMap] implement it, and the liveness checks and TTL extensions
      are written once over the class.  [refines] ties the two instances.
    - [Host]: contract data, instance and code lifetime, contract creation, events
      and the frame of a transaction, of P/host.rs, P/host/data_helper.rs, P/host/lifecycle.rs,
      P/host/frame.rs and P/events/internal.rs.  An entry point is a [prog], a tree of
      host operations; [run] interprets it, [invoke] adds the frame with its rollback,
      and [run_refines] moves results from the map to the real store.
    - [Env], [Sim]: how contracts are proved.  [Env] gives each operation's
      effect on the contract's own data; [Sim] relates a program to a specification
      over a typed state, one rule for each operation, and closes over histories
      of transactions ([tx]) with other contracts' activity and ledger closes between
      them; it ends with a concrete network on which the witnesses evaluate.
    - [Queue], [Escrow], [Identity], [Enrollment], [Factory]: the five contracts,
      lineproof-queue, lineproof-escrow, lineproof-identity, lineproof-enrollment and
      lineproof-queue-factory, each its lib.rs: records for its structs, one program
      per entry point under the name of the source, and a dispatcher [exec].  Each
      has a [...Spec] file, the typed state and what every call does to it, with the
      proof that the program implements it; and a [...Thms] file, what then holds
      of all histories.  [QueueProps] has the queue's abstract machine.
    - [Budget], [BudgetThms]: P/budget.rs with its submodules.  Clients use the classes
      [AsBudget] (charge for some work) and [Metered] (charging keeps an invariant and
      fails only with listed errors).
    - [Metering]: P/host/declared_size.rs and P/host/metered_clone.rs; [CloneReturns] is
      what a metered copy promises.
    - [Search], [OrdMap], [Vector]: P/host/metered_vector.rs and P/host/metered_map.rs
      over any budget and any key comparison ([Comparator], [TotalOrder]).
    - [Fees]: P/fees.rs.
    - [AuthTree], [AccountAuth], [Auth]: who authorized what, of P/auth.rs,
      P/builtin_contracts/account_contract.rs, P/builtin_contracts/invoker_contract_auth.rs
      and parts of P/host/data_helper.rs and P/host/error.rs.  [AuthTree] has the trees an
      address signs, the walk to the node matched last, and snapshots; [AccountAuth] the
      signatures of an account; [Auth] the trackers, the nonces, and
      [AuthorizationManager] with all it does in enforcing mode.
    - [AuthRecord]: the manager in recording mode ([Recording]), which notes what addresses
      would have to sign.  [AuthRecordThms] follows a run of requests, grants and calls
      ([request], [perform]) while recording, [AuthReplay] runs it again in enforcing mode
      beside it, with the property and a run of two trees for one address that is refused.
    - [Frame]: P/host/frame.rs and [try_call] of P/host.rs: the stack of contexts with
      its rollback points, the checks before a call, and what becomes of its result.
    - [TrackerThms], [AuthThms], [FrameThms]: from the invariant of one tracker to that of
      the manager to every history of nested calls ([runs], an inductive relation);
      [AccountThms], [NonceThms], [AuthProps] and [FrameProps] have the properties.
      The contracts' own model ([Host]) does without this part: there a transaction is
      given the set of addresses that authorize it, and the contracts call no others.

    - [TokenData], [TokenBalance], [Token]: the built-in asset contract,
      P/builtin_contracts/stellar_asset_contract: its keys, values and metadata; balances
      of accounts, trust lines and contracts; allowances, events and one definition per
      entry point ([Sac]), with [Sac.invoke] for a call in its frame.  [TokenSpec] and
      [TokenCalls] say what each operation does to the ledger, [TokenEffects] gathers that
      into one relation per call, [TokenThms] follows it over histories, and [TokenProps]
      and [TokenInit] hold the properties.

    - [Access], [Replay], [E2e], [E2eThms], [E2eProps], [E2eRecord], [E2eDemo]: the entry
      points of the host, P/e2e_invoke.rs: encoded ledger entries in, encoded changes and
      events out, enforcing or recording.  [Access] has a relation on storages that every
      contract program keeps once the storage operations do ([Kept]), used for
      footprints and lifetimes; [Replay] that a program does behind its recorded
      footprint what it did while recording.  [E2e] has the definitions, [E2eThms] the
      changes applied to a ledger, [E2eProps] and [E2eRecord] the properties, [E2eDemo]
      a concrete encoding and contracts on which they are evaluated.
    - [InvocationMeter]: P/host/invocation_metering.rs, what an outermost invocation took, by
      the footprint and the storage before it, and the estimate of its fee; tied to what
      recording mode reports and to [Fees].

    - [Objects], [Dispatch], [ObjCode]: the values contracts hold by handles, P/host_object.rs
      and the functions on vectors, maps and bytes of P/host.rs; the crossing between code
      and host of P/vm/dispatch.rs, with absolute references on one side and references
      relative to a frame's table on the other; and running code, any deterministic program
      ([Code]), with calls of other contracts, P/vm.rs and P/host.rs.  [ObjThms] and
      [ObjEffects] say what each function does to the table of objects, [ObjSafe] has the
      interface [Discipline], what any run of code keeps, which [ObjProps] instantiates
      with the typing of objects and the isolation of contracts ([CodeSafe]: any code);
      [ObjRefine] relates the functions to lists and [ObjDemo] is a concrete host with two
      contracts.
    - [Convert]: P/host/conversion.rs between host objects and the values of the ledger;
      [ConvertThms] says what a host value denotes and has the properties.
    - [LinMem]: the linear memory of a frame's code, P/host/mem_helper.rs and the functions
      of P/host.rs on it.  [MemSafe] shows that they keep to every [Discipline], [MemWrites]
      where they write, [MemThms] what they compute, with the properties.
    - [Compare]: the comparison of host values, P/host/comparison.rs with [obj_cmp] of P/host.rs,
      and of ledger values; [CompareThms] has the order both follow ([scval_cmp]) and what
      the code outside the repository is taken to do, with the properties.
    - [Numbers]: the functions of P/host.rs on numbers, with the macros of P/host/num.rs; the
      arithmetic of 256-bit integers, said in [exact], and the properties.
    - [HostDemo]: memory, conversions, comparisons and numbers on the concrete host of
      [ObjDemo].

    ** What is shown

    For each contract: refinement (every entry point, run as a transaction, gives the
    result, state, events and error its specification says, on every branch); then
    invariants and safety over all histories.  Queue: first in first out, permanent
    positions, a status that only moves forward, capacity, drained queues, atomic
    batches, access control; these are of histories of one initialization ([queue_tx] has
    no second call of [initialize], which the code allows and which starts ids and index
    afresh).  Escrow: the books balance, a deposit is settled once.
    Identity: well-formed records, permanent revocation.  Enrollment: proofs bind,
    exact counts, the order of the waiting list, duplicates.  Factory: a consistent
    registry, a fixed administrator, approvals that are enforced (on the hashes given:
    [upgrade_queue] only records a version).

    For the host: a budget stops exactly at its limits and is not disturbed by shadow
    mode; copies fail exactly beyond the depth limit; ordered maps are finite maps,
    vectors are lists and bisection is logarithmic; fees are monotone and in range.

    For authorization: whatever contracts do, an account's authorizations are used as
    signed and no more often, within one transaction and (by nonces) over all; a failed
    call gives them back; an account's signers reach its threshold; trackers stay in
    step with the calls; what recording reports, once signed, covers the run that was
    recorded, with one tree per address.  For calls: three outcomes of a tried call, no contract
    re-entered across another.

    For the asset contract: holdings change by what a call says and end within the limits
    of their entries, the supply by what is issued; who may spend; allowances over a history and until when; the administrator;
    names that tell assets apart; balances of the right type and range.

    For invocations from outside: the changes reported, applied to the ledger, give what
    the program does to the ledger itself; rent follows from the ledger before and after;
    what recording, with authorization entries already signed, reports is what the enforcing
    invocation then does, and what metering measures is what recording reports, but for a
    part of the rent and while no counter overflows ([recording_small]).

    For host objects: code of any contracts that imports the modelled functions ([HostFn],
    [MemFn], calls) keeps objects and references well typed, up to 2^31 objects; a
    contract reaches only what it was given or has made since, and a callee only what its
    arguments lead to; references survive the crossing and cannot be forged; the functions
    on vectors and bytes are operations on lists.  Conversion to the ledger's values ends
    and undoes conversion from them.  The host writes to linear memory only where the
    arguments say; bytes and vectors written there are read back as they were.  Comparison of host values
    follows that of the ledger values they stand for, a total order.  Arithmetic on 256-bit
    integers is exact or an error, but for left shifts, which drop high bits; numbers are
    read back as they were made.

    Some theorems say that the code does less than it means to: [initialize] of the
    queue can be repeated by anyone, any account can release a deposit, one code can be
    deployed as a queue only once, a batch can be charged less than its parts, an
    authorization left behind by a failed call fails its caller too, and metering panics
    where an entry is removed and stored anew with a shorter life.

    ** Bounds and fuel

    Integers are unbounded [Z] with their width written at each operation; [in_u32] and
    the like are invariants, not types.  Addition and subtraction on machine integers
    panic on overflow, as the release profile of the repository has overflow checks on.
    Loops over a cursor ([Queue.advance_loop]) take their iteration bound from the
    source's own loop condition; bisection ([Search.search_loop]) is by well-founded
    recursion on the interval.  Lengths and positions inside vectors are [nat], limits
    on them ([u32], [usize]) written out.  Running code takes fuel, as the virtual machine
    does; the theorems hold for any amount.

    ** Parameters

    SHA-256 and the XDR encoding it is applied to ([External]), the encoders and decoders
    of ledger data ([Xdr]), the order in which maps of ledger keys are walked, the
    values that are not object references, the layout of values as words, the pieces of wide
    integers and arithmetic on them, which values are small numbers, the memory of wasmi, the comparison of vectors and pairs by their elements and
    of small values, the order of XDR addresses and errors, ceiling division of
    [num_integer], the hash of what is signed, the generator of recorded nonces, the check of an Ed25519 signature, the strkey of a key, the address derived
    from an asset, and the ledger snapshot behind a recording store are not part of the
    repository; what a called contract does is any computation that satisfies the rules
    of [runs].  They are arguments, with what their documentation says as named
    hypotheses where a theorem needs it.

    ** Not modelled

    The virtual machine (P/vm.rs and its submodules, a wrapper of wasmi) but for the calls
    across its boundary: contracts are modelled by their Rust source.  Cryptography (P/crypto): calls into curve and hash
    libraries.  The asset contract runs on a host with its
    instance storage as a map; reading and writing that map at the ends of a frame is
    left out, and the asset it is initialized with is given decoded.
    Of invocations, what they and their measuring charge and so the instructions a recording reports
    ([SorobanResources]), the recording of authorization, diagnostics, and loading the instance and
    code of the contract invoked: [contract_call] runs its program at once.
    Of contract creation, what a constructor does to the ledger ([x_constructor] is its result).
    Of authorization, the emulated authentication after recording, the metering, and a contract account's
    [__check_auth] that asks for authorization in its turn.  Instance storage of frames.
    Of the functions on host objects those on strings and serialization; of the imports of
    code ([Dispatch]) also those on storage, authorization, numbers and cryptography.  Error
    decoration and diagnostic events, which are not observable by a contract.  The
    repository's TypeScript (SDK, backend, web interface), which are clients of the
    contracts. *)
From stdpp Require Export strings gmap countable sorting prelude.

#[global] Open Scope Z_scope.

(** * Errors and results *)

(** The error kinds of the host ([xdr::ScErrorType], [xdr::ScErrorCode]). *)
Inductive ScErrorType :=
| TContract | TWasmVm | TContext | TStorage | TObject | TCrypto | TEvents
| TBudget | TValue | TAuth.

Inductive ScErrorCode :=
| ArithDomain | IndexBounds | InvalidInput | MissingValue | ExistingValue
| ExceededLimit | InvalidAction | InternalError | UnexpectedType
| UnexpectedSize.

#[export] Instance ScErrorType_eq_dec : EqDecision ScErrorType.
Proof. solve_decision. Defined.
#[export] Instance ScErrorCode_eq_dec : EqDecision ScErrorCode.
Proof. solve_decision. Defined.

(** What stops a call: a Rust [panic!] with its message, a host error with its
    type and code, or an error of a contract with the contract's own code. *)
Inductive Error :=
| EPanic (msg : string)
| EHost (ty : ScErrorType) (code : ScErrorCode)
| EContract (code : Z).

#[export] Instance Error_eq_dec : EqDecision Error.
Proof. solve_decision. Defined.

(** Rust's [Result<A, Error>]. *)
Inductive Result (A : Type) :=
| Ok (a : A)
| Err (e : Error).
Arguments Ok {A} a.
Arguments Err {A} e.

#[export] Instance Result_eq_dec `{EqDecision A} : EqDecision (Result A).
Proof. solve_decision. Defined.

#[export] Instance Result_mret : MRet Result := @Ok.
#[export] Instance Result_mbind : MBind Result := λ A B f r,
  match r with Ok a => f a | Err e => Err e end.
#[export] Instance Result_fmap : FMap Result := λ A B f r,
  match r with Ok a => Ok (f a) | Err e => Err e end.

(** [Option::ok_or]. *)
Definition ok_or {A} (o : option A) (e : Error) : Result A :=
  match o with Some a => Ok a | None => Err e end.

Definition is_ok {A} (r : Result A) : bool :=
  match r with Ok _ => true | Err _ => false end.

(** * Machine integers

    A [u32], [u64], [i64], [i128] or [usize] of the source is a [Z]; its bounds
    are written out by the operation that can leave them. *)

Definition u32_max : Z := 2 ^ 32 - 1.
Definition u64_max : Z := 2 ^ 64 - 1.
Definition i64_max : Z := 2 ^ 63 - 1.
Definition i64_min : Z := - 2 ^ 63.
Definition i128_max : Z := 2 ^ 127 - 1.
Definition i128_min : Z := - 2 ^ 127.
Definition usize_max : Z := 2 ^ 64 - 1.

Definition in_u32 (n : Z) : Prop := 0 <= n <= u32_max.
Definition in_u64 (n : Z) : Prop := 0 <= n <= u64_max.
Definition in_i64 (n : Z) : Prop := i64_min <= n <= i64_max.
Definition in_i128 (n : Z) : Prop := i128_min <= n <= i128_max.

(** [saturating_add], [saturating_sub] and [saturating_mul] clamp the
    mathematical result into the type's range. *)
Definition clamp (lo hi n : Z) : Z := Z.max lo (Z.min hi n).

Definition u32_saturating_add (a b : Z) : Z := clamp 0 u32_max (a + b).
Definition u32_saturating_sub (a b : Z) : Z := clamp 0 u32_max (a - b).
Definition u64_saturating_add (a b : Z) : Z := clamp 0 u64_max (a + b).
Definition u64_saturating_sub (a b : Z) : Z := clamp 0 u64_max (a - b).
Definition u64_saturating_mul (a b : Z) : Z := clamp 0 u64_max (a * b).
Definition i64_saturating_add (a b : Z) : Z := clamp i64_min i64_max (a + b).
Definition i64_saturating_sub (a b : Z) : Z := clamp i64_min i64_max (a - b).
Definition i64_saturating_mul (a b : Z) : Z := clamp i64_min i64_max (a * b).
Definition i128_saturating_mul (a b : Z) : Z := clamp i128_min i128_max (a * b).

(** [checked_add] and [checked_sub] on [u32]. *)
Definition u32_checked_add (a b : Z) : option Z :=
  if decide (a + b <= u32_max) then Some (a + b) else None.
Definition u32_checked_sub (a b : Z) : option Z :=
  if decide (b <= a) then Some (a - b) else None.

(** [checked_add] and [checked_sub] on the signed types, and their plain operators,
    which panic when the result is out of range. *)
Definition i64_checked_add (a b : Z) : option Z :=
  if decide (i64_min <= a + b <= i64_max) then Some (a + b) else None.
Definition i128_checked_add (a b : Z) : option Z :=
  if decide (i128_min <= a + b <= i128_max) then Some (a + b) else None.
Definition i128_checked_sub (a b : Z) : option Z :=
  if decide (i128_min <= a - b <= i128_max) then Some (a - b) else None.
Definition i64_or_panic (op : string) (n : Z) : Result Z :=
  if decide (i64_min <= n <= i64_max) then Ok n
  else Err (EPanic ("attempt to " ++ op ++ " with overflow")).

Lemma clamp_id lo hi n : lo <= n <= hi → clamp lo hi n = n.
Proof. unfold clamp. lia. Qed.

Lemma clamp_bounds lo hi n : lo <= hi → lo <= clamp lo hi n <= hi.
Proof. unfold clamp. lia. Qed.

Lemma clamp_mono lo hi a b : a <= b → clamp lo hi a <= clamp lo hi b.
Proof. unfold clamp. lia. Qed.

(** * Lists *)

(** [seqZ]-shaped windows of ids. *)
Lemma seqZ_snoc m n : 0 <= n → seqZ m (n + 1) = seqZ m n ++ [m + n].
Proof. intros. rewrite seqZ_app by lia. done. Qed.

Lemma filter_snoc {A} (P : A → Prop) `{∀ x, Decision (P x)} (l : list A) x :
  filter P (l ++ [x]) = filter P l ++ (if decide (P x) then [x] else []).
Proof. rewrite list.filter_app, list.filter_cons. by case_decide. Qed.

(** * Tactics *)

(** Takes apart [Ok]/[Err]/[Some]/pair equations and conjunctions. *)
Ltac inv_ok :=
  repeat match goal with
  | H : Ok _ = Ok _ |- _ => injection H as H; subst
  | H : Err _ = Err _ |- _ => injection H as H; subst
  | H : Ok _ = Err _ |- _ => discriminate H
  | H : Err _ = Ok _ |- _ => discriminate H
  | H : _ ∧ _ |- _ => destruct H
  | H : ∃ _, _ |- _ => destruct H
  | H : (_, _) = (_, _) |- _ => injection H as ? ?; subst
  end; simplify_eq.

(** Splits on the first [decide] or [match] of the goal and simplifies. *)
Ltac split_match := repeat (case_match; simplify_eq/=; try done).

(** * State with errors

    [M S A] is code that reads and writes a state [S] through [&mut self] and
    returns a [Result]: the state reached is kept on the error path too, as in
    the source, where a failed call leaves its writes behind for the frame to
    roll back. *)
Definition M (S A : Type) : Type := S → Result A * S.

Definition m_ret {S A} (a : A) : M S A := λ s, (Ok a, s).
Definition m_fail {S A} (e : Error) : M S A := λ s, (Err e, s).
Definition m_bind {S A B} (p : M S A) (f : A → M S B) : M S B := λ s,
  match p s with
  | (Ok a, s') => f a s'
  | (Err e, s') => (Err e, s')
  end.
Definition m_get {S} : M S S := λ s, (Ok s, s).
Definition m_modify {S} (f : S → S) : M S unit := λ s, (Ok tt, f s).
Definition m_lift {S A} (r : Result A) : M S A := λ s, (r, s).

(** Running code on one part of the state. *)
Definition m_zoom {S T A} (get : S → T) (put : T → S → S) (p : M T A) : M S A := λ s,
  let '(r, t) := p (get s) in (r, put t s).
Definition m_map_err {S A} (f : Error → Error) (p : M S A) : M S A := λ s,
  match p s with (Err e, s') => (Err (f e), s') | r => r end.

(** One action for each element of a list, as [for (x, p) in xs.iter_mut().zip(ps)]
    with [p(x)?] in its body. *)
Fixpoint m_zip {T} (ps : list (M T unit)) : M (list T) unit :=
  match ps with
  | [] => m_ret tt
  | p :: ps => λ xs,
      match xs with
      | [] => (Ok tt, [])
      | x :: xs =>
          match p x with
          | (Ok _, x') => let '(r, xs') := m_zip ps xs in (r, x' :: xs')
          | (Err e, x') => (Err e, x' :: xs)
          end
      end
  end.

Lemma m_zip_ok {T} (ps : list (M T unit)) xs ys :
  Forall3 (λ p x y, p x = (Ok tt, y)) ps xs ys → m_zip ps xs = (Ok tt, ys).
Proof. induction 1 as [|p x y ps xs ys Hp _ IH]; [done|]. simpl. by rewrite Hp, IH. Qed.

(** The first element for which [p] answers [true], with the elements before it
    changed as [p] changed them: [for x in xs.iter_mut() { if p(x)? { return true } }]. *)
Fixpoint m_first_aux {S T} (p : M (T * S) bool) (xs : list T) (s : S) :
    Result bool * (list T * S) :=
  match xs with
  | [] => (Ok false, ([], s))
  | x :: xs =>
      match p (x, s) with
      | (Ok false, (x', s')) =>
          let '(r, (xs', s'')) := m_first_aux p xs s' in (r, (x' :: xs', s''))
      | (r, (x', s')) => (r, (x' :: xs, s'))
      end
  end.
Definition m_first {S T} (p : M (T * S) bool) : M (list T * S) bool := λ '(xs, s),
  m_first_aux p xs s.

Declare Scope m_scope.
Delimit Scope m_scope with M.
Notation "'let*' x := p 'in' q" := (m_bind p (λ x, q))
  (at level 10, x name, p at level 100, q at level 200) : m_scope.
Notation "p ;;; q" := (m_bind p (λ _, q))
  (at level 100, q at level 200, right associativity) : m_scope.

Lemma m_bind_ret_l {S A B} (a : A) (f : A → M S B) s : m_bind (m_ret a) f s = f a s.
Proof. done. Qed.

Lemma m_bind_assoc {S A B C} (p : M S A) (f : A → M S B) (g : B → M S C) s :
  m_bind (m_bind p f) g s = m_bind p (λ a, m_bind (f a) g) s.
Proof. unfold m_bind. by destruct (p s) as [[] ]. Qed.

Lemma m_bind_inv {S A B} (p : M S A) (f : A → M S B) s r s' :
  m_bind p f s = (r, s') →
  (∃ a s1, p s = (Ok a, s1) ∧ f a s1 = (r, s')) ∨ (∃ e, p s = (Err e, s') ∧ r = Err e).
Proof. unfold m_bind. destruct (p s) as [[a|e] s1]; intros; simplify_eq; eauto 10. Qed.

(** [returns I p Q E]: started in a state of the invariant [I], [p] keeps it and
    ends with a value of [Q] or an error of [E]. *)
Definition returns {S A} (I : S → Prop) (p : M S A) (Q : A → Prop) (E : Error → Prop) : Prop :=
  ∀ s, I s → I (p s).2 ∧ match (p s).1 with Ok a => Q a | Err e => E e end.

Section returns.
Context {S : Type} (I : S → Prop) (E : Error → Prop).

Lemma returns_ret {A} (a : A) (Q : A → Prop) : Q a → returns I (m_ret a) Q E.
Proof. by intros Ha s Hs. Qed.
Lemma returns_fail {A} e (Q : A → Prop) : E e → returns I (m_fail e) Q E.
Proof. by intros He s Hs. Qed.
Lemma returns_bind {A B} (p : M S A) (f : A → M S B) (Q : A → Prop) (R : B → Prop) :
  returns I p Q E → (∀ a, Q a → returns I (f a) R E) → returns I (m_bind p f) R E.
Proof.
  intros Hp Hf s Hs. unfold m_bind. destruct (Hp s Hs) as [Hs' Hr].
  destruct (p s) as [[a|e] s']; [by apply Hf|done].
Qed.
Lemma returns_mono {A} (p : M S A) (Q R : A → Prop) :
  returns I p Q E → (∀ a, Q a → R a) → returns I p R E.
Proof. intros Hp HQ s Hs. destruct (Hp s Hs) as [? Hr]. split; [done|]. destruct (p s).1; auto. Qed.
End returns.

Lemma returns_weaken {S A} (I : S → Prop) (p : M S A) (Q R : A → Prop) (E F : Error → Prop) :
  returns I p Q E → (∀ a, Q a → R a) → (∀ e, E e → F e) → returns I p R F.
Proof.
  intros Hp HQ HE s Hs. destruct (Hp s Hs) as [? Hr]. split; [done|]. destruct (p s).1; auto.
Qed.

Lemma filter_ext_in {A} (P Q : A → Prop) `{∀ x, Decision (P x), ∀ x, Decision (Q x)} (l : list A) :
  (∀ x, x ∈ l → P x ↔ Q x) → filter P l = filter Q l.
Proof.
  induction l as [|x l IH]; intros Hpq; [done|]. rewrite !list.filter_cons.
  rewrite IH by (intros y Hy; apply Hpq; by right).
  specialize (Hpq x (list_elem_of_here x l)).
  destruct (decide (P x)), (decide (Q x)); tauto.
Qed.

Lemma filter_all {A} (P : A → Prop) `{∀ x, Decision (P x)} (l : list A) :
  (∀ x, x ∈ l → P x) → filter P l = l.
Proof.
  induction l as [|x l IH]; intros Hall; [done|].
  rewrite list.filter_cons, decide_True by (apply Hall; by left).
  f_equal. apply IH. intros y Hy. apply Hall. by right.
Qed.

Lemma StronglySorted_filter {A} (R : relation A) (P : A → Prop) `{∀ x, Decision (P x)} l :
  StronglySorted R l → StronglySorted R (filter P l).
Proof.
  induction 1 as [|x l _ IH Hx]; [constructor|]. rewrite list.filter_cons.
  case_decide; [|done]. constructor; [done|].
  rewrite Forall_forall in *. intros y [_ Hy]%list_elem_of_filter. by apply Hx.
Qed.

Lemma StronglySorted_seqZ m n : StronglySorted Z.lt (seqZ m n).
Proof.
  destruct (decide (0 <= n)) as [Hn|]; [|rewrite seqZ_nil by lia; constructor].
  revert m. pattern n. apply natlike_ind; [constructor| |done].
  intros k Hk IH m. rewrite seqZ_cons by lia. rewrite Z.pred_succ. constructor; [apply IH|].
  apply Forall_forall. intros i Hi%elem_of_seqZ. lia.
Qed.

Lemma NoDup_take_drop {A} (l : list A) n : NoDup l → NoDup (take n l) ∧ NoDup (drop n l).
Proof. intros Hl. rewrite <-(take_drop n l) in Hl. by apply NoDup_app in Hl as (? & _ & ?). Qed.

(** Losing exactly one element of a duplicate-free list. *)
Lemma length_filter_remove {A} (P Q : A → Prop) `{∀ x, Decision (P x), ∀ x, Decision (Q x)}
    (l : list A) x :
  NoDup l → x ∈ l → P x → ¬ Q x → (∀ y, y ≠ x → P y ↔ Q y) →
  length (filter P l) = S (length (filter Q l)).
Proof.
  induction l as [|y l IH]; intros Hnd Hin HP HQ Hext; [by apply elem_of_nil in Hin|].
  apply NoDup_cons in Hnd as [Hy Hnd]. rewrite !list.filter_cons.
  apply elem_of_cons in Hin as [->|Hin].
  - rewrite decide_True, decide_False by done. simpl. do 2 f_equal.
    apply filter_ext_in. intros z Hz. apply Hext. by intros ->.
  - assert (y ≠ x) as Hne by (by intros ->). specialize (Hext y Hne) as Hxy.
    specialize (IH Hnd Hin HP HQ Hext).
    destruct (decide (P y)), (decide (Q y)); try tauto; simpl; by rewrite IH.
Qed.

(** * Sums over maps *)
Section msum.
Context {K A : Type} `{Countable K}.
Implicit Types (f : K → A → Z) (m : gmap K A).

Definition msum f m : Z := map_fold (λ k x acc, f k x + acc) 0 m.

Lemma msum_empty f : msum f ∅ = 0.
Proof. done. Qed.

Lemma msum_insert f m k x : m !! k = None → msum f (<[k := x]> m) = f k x + msum f m.
Proof.
  intros Hk. unfold msum. rewrite map_fold_insert_L; [done| |done]. intros; lia.
Qed.

Lemma msum_update f m k x y :
  m !! k = Some x → msum f (<[k := y]> m) = msum f m - f k x + f k y.
Proof.
  intros Hk. rewrite <-(insert_delete_id m k x Hk) at 2.
  rewrite <-insert_delete_eq, !msum_insert by apply lookup_delete_eq. lia.
Qed.

Lemma msum_ext f g m : (∀ k x, m !! k = Some x → f k x = g k x) → msum f m = msum g m.
Proof.
  induction m as [|k x m Hk IH] using map_ind; intros Hfg; [done|].
  rewrite !msum_insert by done. rewrite (Hfg k x) by apply lookup_insert_eq. f_equal.
  apply IH. intros k' x' Hx. apply Hfg. rewrite lookup_insert_ne; [done|]. congruence.
Qed.

Lemma msum_nonneg f m : (∀ k x, m !! k = Some x → 0 <= f k x) → 0 <= msum f m.
Proof.
  induction m as [|k x m Hk IH] using map_ind; intros Hf; [done|].
  rewrite msum_insert by done. specialize (Hf k x (lookup_insert_eq m k x)) as Hx.
  assert (0 <= msum f m); [|lia]. apply IH. intros k' x' Hx'. apply Hf.
  rewrite lookup_insert_ne; [done|]. congruence.
Qed.

Lemma msum_ge f m k x :
  (∀ k x, m !! k = Some x → 0 <= f k x) → m !! k = Some x → f k x <= msum f m.
Proof.
  intros Hf Hk. rewrite <-(insert_delete_id m k x Hk), msum_insert by apply lookup_delete_eq.
  assert (0 <= msum f (delete k m)); [|lia]. apply msum_nonneg.
  intros k' x' [_ Hx]%lookup_delete_Some. by apply Hf.
Qed.
End msum.
