(* ===== verification/ScVal.v ===== *)
(** The values contracts keep and pass: addresses, [ScVal]s, and the codecs
    between the contracts' Rust types and [ScVal].

    A [#[contracttype]] struct is stored as a map from field names (in
    alphabetical order) to values, and a unit variant of an enum as a
    one-element vector holding the variant's name; the recorded ledgers under
    [contracts/*/test_snapshots/] show both.  [codec] packs the two directions
    with the round-trip law the contracts rely on when they read back what they
    wrote. *)
From S2P Require Import Prelude.

(** A 32-byte hash ([BytesN<32>], [xdr::Hash]), as a 256-bit number. *)
Abbreviation Hash := N (only parsing).

Inductive ScAddress :=
| Account (key : N)
| Contract (id : Hash).

#[export] Instance ScAddress_eq_dec : EqDecision ScAddress.
Proof. solve_decision. Defined.
#[export] Program Instance ScAddress_countable : Countable ScAddress :=
  inj_countable' (λ a, match a with Account k => inl k | Contract i => inr i end)
    (λ s, match s with inl k => Account k | inr i => Contract i end) _.
Next Obligation. by intros []. Qed.

Inductive ScVal :=
| ScVoid
| ScBool (b : bool)
| ScU32 (n : Z)
| ScU64 (n : Z)
| ScI128 (n : Z)
| ScSymbol (s : string)
| ScString (s : string)
| ScAddr (a : ScAddress)
| ScBytes (h : Hash)
| ScVec (l : list ScVal)
| ScMap (l : list (string * ScVal))
| ScLedgerKeyContractInstance
| ScLedgerKeyNonce (n : Z)
| ScContractInstance (wasm : option Hash).

(** ** Induction over the nested lists *)
Section ScVal_rect.
Context (P : ScVal → Prop).
Context (Hvoid : P ScVoid) (Hbool : ∀ b, P (ScBool b)).
Context (Hu32 : ∀ n, P (ScU32 n)) (Hu64 : ∀ n, P (ScU64 n)) (Hi128 : ∀ n, P (ScI128 n)).
Context (Hsym : ∀ s, P (ScSymbol s)) (Hstr : ∀ s, P (ScString s)).
Context (Haddr : ∀ a, P (ScAddr a)) (Hbytes : ∀ h, P (ScBytes h)).
Context (Hvec : ∀ l, Forall P l → P (ScVec l)).
Context (Hmap : ∀ l, Forall (λ kv, P kv.2) l → P (ScMap l)).
Context (Hinst : P ScLedgerKeyContractInstance) (Hnonce : ∀ n, P (ScLedgerKeyNonce n)).
Context (Hci : ∀ w, P (ScContractInstance w)).

Fixpoint ScVal_nested_ind (v : ScVal) : P v :=
  match v with
  | ScVoid => Hvoid
  | ScBool b => Hbool b
  | ScU32 n => Hu32 n
  | ScU64 n => Hu64 n
  | ScI128 n => Hi128 n
  | ScSymbol s => Hsym s
  | ScString s => Hstr s
  | ScAddr a => Haddr a
  | ScBytes h => Hbytes h
  | ScVec l => Hvec l
      ((fix go (l : list ScVal) : Forall P l :=
          match l with
          | [] => Forall_nil_2 P
          | x :: r => Forall_cons_2 P x r (ScVal_nested_ind x) (go r)
          end) l)
  | ScMap l => Hmap l
      ((fix go (l : list (string * ScVal)) : Forall (λ kv, P kv.2) l :=
          match l with
          | [] => Forall_nil_2 _
          | x :: r => Forall_cons_2 (λ kv, P kv.2) x r (ScVal_nested_ind x.2) (go r)
          end) l)
  | ScLedgerKeyContractInstance => Hinst
  | ScLedgerKeyNonce n => Hnonce n
  | ScContractInstance w => Hci w
  end.
End ScVal_rect.

(** ** Equality and encoding, through stdpp's generic trees *)
Abbreviation leaf := (bool + Z + string + ScAddress + Hash + option Hash)%type.

Fixpoint scval_to_tree (v : ScVal) : gen_tree leaf :=
  match v with
  | ScVoid => GenNode 0 []
  | ScBool b => GenLeaf (inl (inl (inl (inl (inl b)))))
  | ScU32 n => GenNode 1 [GenLeaf (inl (inl (inl (inl (inr n)))))]
  | ScU64 n => GenNode 2 [GenLeaf (inl (inl (inl (inl (inr n)))))]
  | ScI128 n => GenNode 3 [GenLeaf (inl (inl (inl (inl (inr n)))))]
  | ScSymbol s => GenLeaf (inl (inl (inl (inr s))))
  | ScString s => GenNode 4 [GenLeaf (inl (inl (inl (inr s))))]
  | ScAddr a => GenLeaf (inl (inl (inr a)))
  | ScBytes h => GenLeaf (inl (inr h))
  | ScVec l => GenNode 5 (scval_to_tree <$> l)
  | ScMap l => GenNode 6
      ((λ kv, GenNode 0 [GenLeaf (inl (inl (inl (inr kv.1)))); scval_to_tree kv.2]) <$> l)
  | ScLedgerKeyContractInstance => GenNode 7 []
  | ScLedgerKeyNonce n => GenNode 8 [GenLeaf (inl (inl (inl (inl (inr n)))))]
  | ScContractInstance w => GenLeaf (inr w)
  end.

Fixpoint tree_to_scval (t : gen_tree leaf) : ScVal :=
  match t with
  | GenNode 0 _ => ScVoid
  | GenLeaf (inl (inl (inl (inl (inl b))))) => ScBool b
  | GenNode 1 [GenLeaf (inl (inl (inl (inl (inr n)))))] => ScU32 n
  | GenNode 2 [GenLeaf (inl (inl (inl (inl (inr n)))))] => ScU64 n
  | GenNode 3 [GenLeaf (inl (inl (inl (inl (inr n)))))] => ScI128 n
  | GenLeaf (inl (inl (inl (inr s)))) => ScSymbol s
  | GenNode 4 [GenLeaf (inl (inl (inl (inr s))))] => ScString s
  | GenLeaf (inl (inl (inr a))) => ScAddr a
  | GenLeaf (inl (inr h)) => ScBytes h
  | GenNode 5 l => ScVec (tree_to_scval <$> l)
  | GenNode 6 l => ScMap
      ((λ kt, match kt with
              | GenNode 0 [GenLeaf (inl (inl (inl (inr s)))); t] => (s, tree_to_scval t)
              | _ => ("", ScVoid)
              end) <$> l)
  | GenNode 7 _ => ScLedgerKeyContractInstance
  | GenNode 8 [GenLeaf (inl (inl (inl (inl (inr n)))))] => ScLedgerKeyNonce n
  | GenLeaf (inr w) => ScContractInstance w
  | _ => ScVoid
  end.

Lemma scval_tree_roundtrip v : tree_to_scval (scval_to_tree v) = v.
Proof.
  induction v as [| | | | | | | | |l IH|l IH| | |] using ScVal_nested_ind; simpl; try done.
  - f_equal. rewrite <-list_fmap_compose. rewrite <-(list_fmap_id l) at 2.
    by apply Forall_fmap_ext.
  - f_equal. rewrite <-list_fmap_compose. rewrite <-(list_fmap_id l) at 2.
    apply Forall_fmap_ext. eapply Forall_impl; [exact IH|].
    intros [k w]; simpl. by intros ->.
Qed.

#[export] Instance ScVal_eq_dec : EqDecision ScVal.
Proof.
  refine (λ x y, cast_if (decide (scval_to_tree x = scval_to_tree y))).
  - abstract (by rewrite <-(scval_tree_roundtrip x), e, scval_tree_roundtrip).
  - abstract congruence.
Defined.
#[export] Instance ScVal_countable : Countable ScVal :=
  inj_countable' scval_to_tree tree_to_scval scval_tree_roundtrip.

(** * Codecs

    [IntoVal] and [TryFromVal] of one Rust type: [dec (enc x) = Some x] is the
    only law the contracts need. *)
Record codec (T : Type) := Codec {
  enc : T → ScVal;
  dec : ScVal → option T;
  dec_enc : ∀ x, dec (enc x) = Some x
}.
Arguments Codec {T} enc dec dec_enc.
Arguments enc {T} c x : rename.
Arguments dec {T} c v : rename.
Arguments dec_enc {T} c x : rename.

#[export] Instance enc_inj {T} (c : codec T) : Inj (=) (=) (enc c).
Proof. intros x y Heq. apply (inj Some). by rewrite <-!(dec_enc c), Heq. Qed.

Program Definition u32C : codec Z :=
  Codec ScU32 (λ v, match v with ScU32 n => Some n | _ => None end) _.
Program Definition u64C : codec Z :=
  Codec ScU64 (λ v, match v with ScU64 n => Some n | _ => None end) _.
Program Definition i128C : codec Z :=
  Codec ScI128 (λ v, match v with ScI128 n => Some n | _ => None end) _.
Program Definition boolC : codec bool :=
  Codec ScBool (λ v, match v with ScBool b => Some b | _ => None end) _.
Program Definition symbolC : codec string :=
  Codec ScSymbol (λ v, match v with ScSymbol s => Some s | _ => None end) _.
Program Definition addressC : codec ScAddress :=
  Codec ScAddr (λ v, match v with ScAddr a => Some a | _ => None end) _.
Program Definition bytesC : codec Hash :=
  Codec ScBytes (λ v, match v with ScBytes h => Some h | _ => None end) _.
Solve All Obligations with done.

(** [Option<u64>] and [Option<u32>]: [None] is the void value. *)
Definition option_u64C : codec (option Z).
Proof.
  refine (Codec (λ o, match o with Some n => ScU64 n | None => ScVoid end)
    (λ v, match v with ScU64 n => Some (Some n) | ScVoid => Some None | _ => None end) _).
  abstract by intros [].
Defined.
Definition option_u32C : codec (option Z).
Proof.
  refine (Codec (λ o, match o with Some n => ScU32 n | None => ScVoid end)
    (λ v, match v with ScU32 n => Some (Some n) | ScVoid => Some None | _ => None end) _).
  abstract by intros [].
Defined.

(** [Vec<T>]. *)
Definition vecC {T} (c : codec T) : codec (list T).
Proof.
  refine (Codec (λ l, ScVec (enc c <$> l))
    (λ v, match v with ScVec l => mapM (dec c) l | _ => None end) _).
  abstract (intros l; simpl; apply mapM_Some_2; apply Forall2_fmap_l;
    apply Forall_Forall2_diag; apply Forall_forall; intros x _; apply dec_enc).
Defined.

(** An enum whose variants carry nothing. *)
Definition enumC {T} (name : T → string) (of_name : string → option T)
    (Hname : ∀ x, of_name (name x) = Some x) : codec T :=
  Codec (λ x, ScVec [ScSymbol (name x)])
    (λ v, match v with ScVec [ScSymbol s] => of_name s | _ => None end) Hname.

(** A struct: the values of its fields, given their names in order. *)
Definition struct_fields (names : list string) (v : ScVal) : option (list ScVal) :=
  match v with
  | ScMap l => if decide (l.*1 = names) then Some l.*2 else None
  | _ => None
  end.

(** Solves the law of a struct codec written with [struct_fields]. *)
Ltac solve_struct_codec :=
  intros []; unfold struct_fields; cbn [fst snd fmap list_fmap];
  rewrite decide_True by done; cbn [mbind option_bind];
  repeat (rewrite dec_enc; cbn [mbind option_bind]); done.
