(* ===== verification/Storage.v ===== *)
(** The host's ledger storage: [host/storage.rs] and [ledger_info.rs] of the
    patched [soroban-env-host].

    [Storage] is the transactional store of the source, a map from ledger keys
    to entries behind a footprint; [LedgerMap] is what it promises, a plain
    finite map.  Both implement the interface [LedgerStore]; the operations the
    host builds on it (liveness check, TTL extension, put and delete) are
    written once against the interface, and the file ends with the proof that
    running them on a [Storage] or on the [LedgerMap] it represents gives the
    same results, unless the footprint denies an access. *)
From S2P Require Import Prelude ScVal.
#[local] Open Scope m_scope.

(** * Ledger keys and entries *)

Inductive ContractDataDurability := Temporary | Persistent.
#[export] Instance ContractDataDurability_eq_dec : EqDecision ContractDataDurability.
Proof. solve_decision. Defined.

(** The ledger entry kinds the storage refuses. *)
Inductive UnsupportedKind :=
| Offer | Data | ClaimableBalance | LiquidityPool | ConfigSetting | Ttl.
#[export] Instance UnsupportedKind_eq_dec : EqDecision UnsupportedKind.
Proof. solve_decision. Defined.

(** Assets; a code is a string of four or twelve bytes. *)
Inductive Asset :=
| Native
| CreditAlphanum4 (asset_code : string) (issuer : N)
| CreditAlphanum12 (asset_code : string) (issuer : N).
#[export] Instance Asset_eq_dec : EqDecision Asset.
Proof. solve_decision. Defined.
#[export] Program Instance Asset_countable : Countable Asset :=
  inj_countable'
    (λ a, match a with
          | Native => inl (inl tt)
          | CreditAlphanum4 c i => inl (inr (c, i))
          | CreditAlphanum12 c i => inr (c, i)
          end)
    (λ s, match s with
          | inl (inl _) => Native
          | inl (inr (c, i)) => CreditAlphanum4 c i
          | inr (c, i) => CreditAlphanum12 c i
          end) _.
Next Obligation. by intros []. Qed.

Inductive LedgerKey :=
| KAccount (account : N)
| KTrustline (account : N) (asset : Asset)
| KContractData (contract : ScAddress) (key : ScVal) (durability : ContractDataDurability)
| KContractCode (hash : Hash)
| KUnsupported (kind : UnsupportedKind).
#[export] Instance LedgerKey_eq_dec : EqDecision LedgerKey.
Proof. solve_decision. Defined.

Definition durability_bool (d : ContractDataDurability) : bool :=
  match d with Temporary => false | Persistent => true end.
Definition unsupported_nat (k : UnsupportedKind) : nat :=
  match k with
  | Offer => 0 | Data => 1 | ClaimableBalance => 2 | LiquidityPool => 3
  | ConfigSetting => 4 | Ttl => 5
  end.
#[export] Program Instance LedgerKey_countable : Countable LedgerKey :=
  inj_countable'
    (λ k, match k with
          | KAccount a => inl (inl (inl (inl a)))
          | KTrustline a b => inl (inl (inl (inr (a, b))))
          | KContractData c k d => inl (inl (inr (c, k, durability_bool d)))
          | KContractCode h => inl (inr h)
          | KUnsupported u => inr (unsupported_nat u)
          end)
    (λ s, match s with
          | inl (inl (inl (inl a))) => KAccount a
          | inl (inl (inl (inr (a, b)))) => KTrustline a b
          | inl (inl (inr (c, k, d))) =>
              KContractData c k (if d : bool then Persistent else Temporary)
          | inl (inr h) => KContractCode h
          | inr u => KUnsupported (nth u [Offer; Data; ClaimableBalance; LiquidityPool; ConfigSetting] Ttl)
          end) _.
Next Obligation. by intros [| | ? ? [] | | []]. Qed.

Record ContractDataEntry := mkContractDataEntry {
  cde_contract : ScAddress;
  cde_key : ScVal;
  cde_durability : ContractDataDurability;
  cde_val : ScVal
}.

(** A classic account: its [Thresholds], four bytes in the order of
    [ThresholdIndexes], and its additional signers. *)
Inductive SignerKey :=
| Ed25519 (key : N)
| OtherSigner (kind key : N).
#[export] Instance SignerKey_eq_dec : EqDecision SignerKey.
Proof. solve_decision. Defined.
Record Signer := mkSigner { signer_key : SignerKey; signer_weight : Z }.
Record Liabilities := mkLiabilities { buying : Z; selling : Z }.
(** [AccountEntryExtensionV1]; of its own extension the two counts
    [num_sponsored] and [num_sponsoring]. *)
Record AccountEntryExtensionV1 := mkAccountExt {
  account_liabilities : Liabilities;
  account_sponsorship : option (Z * Z)
}.
Record AccountEntry := mkAccountEntry {
  account_id : N;
  account_balance : Z;
  num_sub_entries : Z;
  account_flags : Z;
  thresholds : list Z;
  signers : list Signer;
  account_ext : option AccountEntryExtensionV1
}.

Record TrustLineEntry := mkTrustLine {
  tl_account : N;
  tl_asset : Asset;
  tl_balance : Z;
  tl_limit : Z;
  tl_flags : Z;
  tl_liabilities : option Liabilities
}.

Inductive LedgerEntry :=
| EAccount (account : AccountEntry)
| ETrustline (trustline : TrustLineEntry)
| EContractData (data : ContractDataEntry)
| EContractCode (hash : Hash)
| EUnsupported (kind : UnsupportedKind).

(** An entry and the ledger it lives until (contract data and code only). *)
Abbreviation EntryWithLiveUntil := (LedgerEntry * option Z)%type (only parsing).

(** * Ledger information *)

Record LedgerInfo := mkLedgerInfo {
  protocol_version : Z;
  sequence_number : Z;
  timestamp : Z;
  network_id : Hash;
  base_reserve : Z;
  min_temp_entry_ttl : Z;
  min_persistent_entry_ttl : Z;
  max_entry_ttl : Z
}.

Definition min_live_until_ledger_checked (li : LedgerInfo)
    (durability : ContractDataDurability) : option Z :=
  let min_live_until := match durability with
    | Temporary => min_temp_entry_ttl li
    | Persistent => min_persistent_entry_ttl li
    end in
  u32_checked_add (sequence_number li) (u32_saturating_sub min_live_until 1).

Definition max_live_until_ledger_checked (li : LedgerInfo) : option Z :=
  u32_checked_add (sequence_number li) (u32_saturating_sub (max_entry_ttl li) 1).

Definition get_min_live_until_ledger (li : LedgerInfo) (d : ContractDataDurability) : Result Z :=
  ok_or (min_live_until_ledger_checked li d) (EHost TContext InternalError).

Definition max_live_until_ledger (li : LedgerInfo) : Result Z :=
  ok_or (max_live_until_ledger_checked li) (EHost TContext InternalError).

Definition get_key_durability (key : LedgerKey) : option ContractDataDurability :=
  match key with
  | KContractData _ _ d => Some d
  | KContractCode _ => Some Persistent
  | _ => None
  end.

(** * Footprint *)

Inductive AccessType := ReadOnly | ReadWrite.
#[export] Instance AccessType_eq_dec : EqDecision AccessType.
Proof. solve_decision. Defined.

Module Footprint.

Definition record_access (fp : gmap LedgerKey AccessType) (key : LedgerKey)
    (ty : AccessType) : gmap LedgerKey AccessType :=
  match fp !! key with
  | Some existing =>
      match existing, ty with
      | ReadOnly, ReadOnly => fp
      | ReadOnly, ReadWrite => <[key := ty]> fp
      | ReadWrite, ReadOnly => fp
      | ReadWrite, ReadWrite => fp
      end
  | None => <[key := ty]> fp
  end.

Definition enforce_access (fp : gmap LedgerKey AccessType) (key : LedgerKey)
    (ty : AccessType) : Result unit :=
  match fp !! key with
  | Some existing =>
      match existing, ty with
      | ReadOnly, ReadOnly => Ok tt
      | ReadOnly, ReadWrite => Err (EHost TStorage ExceededLimit)
      | ReadWrite, ReadOnly => Ok tt
      | ReadWrite, ReadWrite => Ok tt
      end
  | None => Err (EHost TStorage ExceededLimit)
  end.

End Footprint.

(** * The storage *)

Inductive FootprintMode :=
| Recording (src : LedgerKey → Result (option EntryWithLiveUntil))
| Enforcing.

Record Storage := mkStorage {
  footprint : gmap LedgerKey AccessType;
  mode : FootprintMode;
  smap : gmap LedgerKey (option EntryWithLiveUntil)
}.

Definition set_footprint (fp : gmap LedgerKey AccessType) (s : Storage) : Storage :=
  mkStorage fp (mode s) (smap s).
Definition set_smap (m : gmap LedgerKey (option EntryWithLiveUntil)) (s : Storage) : Storage :=
  mkStorage (footprint s) (mode s) m.

Definition check_supported_ledger_entry_type (le : LedgerEntry) : Result unit :=
  match le with
  | EAccount _ | ETrustline _ | EContractData _ | EContractCode _ => Ok tt
  | EUnsupported _ => Err (EHost TStorage InternalError)
  end.

Definition check_supported_ledger_key_type (lk : LedgerKey) : Result unit :=
  match lk with
  | KAccount _ | KTrustline _ _ | KContractData _ _ _ | KContractCode _ => Ok tt
  | KUnsupported _ => Err (EHost TStorage InternalError)
  end.

Definition with_enforcing_footprint_and_map (fp : gmap LedgerKey AccessType)
    (m : gmap LedgerKey (option EntryWithLiveUntil)) : Storage :=
  mkStorage fp Enforcing m.

Definition with_recording_footprint
    (src : LedgerKey → Result (option EntryWithLiveUntil)) : Storage :=
  mkStorage ∅ (Recording src) ∅.

Definition prepare_read_only_access (key : LedgerKey) : M Storage unit :=
  let* s := m_get in
  match mode s with
  | Recording src =>
      m_modify (set_footprint (Footprint.record_access (footprint s) key ReadOnly)) ;;;
      match smap s !! key with
      | None =>
          let* value := m_lift (src key) in
          m_modify (set_smap (<[key := value]> (smap s)))
      | Some _ => m_ret tt
      end
  | Enforcing => m_lift (Footprint.enforce_access (footprint s) key ReadOnly)
  end.

Definition try_get_full (key : LedgerKey) : M Storage (option EntryWithLiveUntil) :=
  m_lift (check_supported_ledger_key_type key) ;;;
  prepare_read_only_access key ;;;
  let* s := m_get in
  match smap s !! key with
  | None => m_fail (EHost TStorage InternalError)
  | Some pair_option => m_ret pair_option
  end.

Definition put_opt (key : LedgerKey) (val : option EntryWithLiveUntil) : M Storage unit :=
  m_lift (check_supported_ledger_key_type key) ;;;
  match val with
  | Some le => m_lift (check_supported_ledger_entry_type le.1)
  | None => m_ret tt
  end ;;;
  let* s := m_get in
  match mode s with
  | Recording _ =>
      m_modify (set_footprint (Footprint.record_access (footprint s) key ReadWrite))
  | Enforcing => m_lift (Footprint.enforce_access (footprint s) key ReadWrite)
  end ;;;
  m_modify (λ s, set_smap (<[key := val]> (smap s)) s).

(** [Storage::get], [Storage::put], [Storage::del] and [Storage::has]. *)
Definition storage_get (key : LedgerKey) : M Storage LedgerEntry :=
  let* r := try_get_full key in
  m_lift (fst <$> ok_or r (EHost TStorage MissingValue)).

Definition storage_put (key : LedgerKey) (val : LedgerEntry)
    (live_until_ledger : option Z) : M Storage unit :=
  put_opt key (Some (val, live_until_ledger)).

Definition storage_del (key : LedgerKey) : M Storage unit := put_opt key None.

Definition storage_has (key : LedgerKey) : M Storage bool :=
  m_lift (check_supported_ledger_key_type key) ;;;
  prepare_read_only_access key ;;;
  let* s := m_get in
  match smap s !! key with
  | None => m_fail (EHost TStorage InternalError)
  | Some o => m_ret (bool_decide (is_Some o))
  end.

(** * The interface the host programs against

    [store_try_get] and [store_put_opt] are the two funnels of [Storage];
    [store_peek] and [store_insert] are its direct uses of the underlying map
    (the liveness check before a write, and the TTL update, which goes around
    the footprint). *)
Class LedgerStore (S : Type) := {
  store_try_get : LedgerKey → M S (option EntryWithLiveUntil);
  store_put_opt : LedgerKey → option EntryWithLiveUntil → M S unit;
  store_peek : LedgerKey → S → option (option EntryWithLiveUntil);
  store_insert : LedgerKey → EntryWithLiveUntil → S → S
}.

#[export] Instance Storage_store : LedgerStore Storage := {|
  store_try_get := try_get_full;
  store_put_opt := put_opt;
  store_peek key s := smap s !! key;
  store_insert key v s := set_smap (<[key := Some v]> (smap s)) s
|}.

(** The specification: a finite map of the existing entries. *)
Abbreviation LedgerMap := (gmap LedgerKey EntryWithLiveUntil) (only parsing).

Definition ledger_put_opt (key : LedgerKey) (val : option EntryWithLiveUntil) :
    M LedgerMap unit :=
  m_lift (check_supported_ledger_key_type key) ;;;
  match val with
  | Some le => m_lift (check_supported_ledger_entry_type le.1)
  | None => m_ret tt
  end ;;;
  m_modify (λ m, match val with Some v => <[key := v]> m | None => delete key m end).

#[export] Instance LedgerMap_store : LedgerStore LedgerMap := {|
  store_try_get key :=
    m_lift (check_supported_ledger_key_type key) ;;;
    let* m := m_get in m_ret (m !! key);
  store_put_opt := ledger_put_opt;
  store_peek key m := Some (m !! key);
  store_insert key v m := <[key := v]> m
|}.

(** * The operations over the interface *)
Section with_host.
Context {S : Type} `{LedgerStore S}.
Context (li : LedgerInfo).

(** [Host::check_if_entry_is_live], compiled in with the [testutils] feature
    the contract crates use: an archived persistent entry is an error, a dead
    temporary entry reads as absent. *)
Definition check_if_entry_is_live (key : LedgerKey)
    (entry_with_live_until : option EntryWithLiveUntil) : Result bool :=
  match entry_with_live_until with
  | Some (_, Some live_until_ledger) =>
      if decide (sequence_number li <= live_until_ledger) then Ok true
      else match get_key_durability key with
           | Some Temporary => Ok false
           | Some Persistent => Err (EHost TStorage InternalError)
           | None => Ok true
           end
  | _ => Ok true
  end.

Definition try_get_full_with_host (key : LedgerKey) : M S (option EntryWithLiveUntil) :=
  let* res := store_try_get key in
  let* live := m_lift (check_if_entry_is_live key res) in
  m_ret (if live then res else None).

Definition get_with_host (key : LedgerKey) : M S LedgerEntry :=
  let* r := try_get_full_with_host key in
  m_lift (fst <$> ok_or r (EHost TStorage MissingValue)).

Definition get_with_live_until_ledger (key : LedgerKey) : M S EntryWithLiveUntil :=
  let* r := try_get_full_with_host key in
  m_lift (ok_or r (EHost TStorage MissingValue)).

Definition put_opt_with_host (key : LedgerKey) (val : option EntryWithLiveUntil) : M S unit :=
  let* s := m_get in
  match store_peek key s with
  | Some entry_with_live_until =>
      let* _live := m_lift (check_if_entry_is_live key entry_with_live_until) in
      m_ret tt
  | None => m_ret tt
  end ;;;
  store_put_opt key val.

Definition put_with_host (key : LedgerKey) (val : LedgerEntry)
    (live_until_ledger : option Z) : M S unit :=
  put_opt_with_host key (Some (val, live_until_ledger)).

Definition del_with_host (key : LedgerKey) : M S unit := put_opt_with_host key None.

Definition has_with_host (key : LedgerKey) : M S bool :=
  let* r := try_get_full_with_host key in
  m_ret (bool_decide (is_Some r)).

(** The live-until ledger [extend_ttl] aims for: [extend_to] ledgers from now,
    clamped to the network's maximum for a persistent entry, an error beyond
    it for a temporary one. *)
Definition target_live_until (key : LedgerKey) (extend_to : Z) : Result Z :=
  match u32_checked_add (sequence_number li) extend_to with
  | None => Err (EHost TContext InternalError)
  | Some new_live_until =>
      match max_live_until_ledger li with
      | Err e => Err e
      | Ok max_live_until =>
          if decide (max_live_until < new_live_until) then
            match get_key_durability key with
            | Some Persistent => Ok max_live_until
            | Some Temporary => Err (EHost TStorage InvalidAction)
            | None => Err (EHost TStorage InternalError)
            end
          else Ok new_live_until
      end
  end.

Definition extend_ttl (key : LedgerKey) (threshold extend_to : Z) : M S unit :=
  m_lift (check_supported_ledger_key_type key) ;;;
  (if decide (extend_to < threshold) then m_fail (EHost TStorage InvalidInput)
   else m_ret tt) ;;;
  let* e := get_with_live_until_ledger key in
  let* old_live_until := m_lift (ok_or e.2 (EHost TStorage InternalError)) in
  (if decide (old_live_until < sequence_number li)
   then m_fail (EHost TStorage InternalError) else m_ret tt) ;;;
  let* new_live_until := m_lift (target_live_until key extend_to) in
  if decide (old_live_until < new_live_until ∧
             u32_saturating_sub old_live_until (sequence_number li) <= threshold)
  then m_modify (store_insert key (e.1, Some new_live_until))
  else m_ret tt.
End with_host.

(** * [Storage] implements [LedgerMap] *)
Create HintDb refines.

Section refinement.
Context (li : LedgerInfo).

Definition is_recording (s : Storage) : bool :=
  match mode s with Recording _ => true | Enforcing => false end.

(** What the storage knows of a key: its cached value, else the snapshot's. *)
Definition storage_view (s : Storage) (key : LedgerKey) : option EntryWithLiveUntil :=
  match smap s !! key with
  | Some o => o
  | None =>
      match mode s with
      | Recording src => match src key with Ok o => o | Err _ => None end
      | Enforcing => None
      end
  end.

(** The source's requirements on its inputs: an enforcing storage is populated
    with all the keys of its footprint, and a snapshot source answers every
    read, with live entries only. *)
Definition storage_wf (s : Storage) : Prop :=
  match mode s with
  | Recording src => ∀ k, smap s !! k = None →
      ∃ o, src k = Ok o ∧ check_if_entry_is_live li k o = Ok true
  | Enforcing => ∀ k, is_Some (footprint s !! k) → is_Some (smap s !! k)
  end.

Definition represents (s : Storage) (m : LedgerMap) : Prop :=
  storage_wf s ∧ ∀ k, storage_view s k = m !! k.

(** [p] on the storage gives what [q] gives on the map, or is denied by an
    enforced footprint. *)
Definition refines {A} (p : M Storage A) (q : M LedgerMap A) : Prop :=
  ∀ s m, represents s m →
    let '(r, s') := p s in
    let '(r', m') := q m in
    mode s' = mode s ∧
    ((r = r' ∧ represents s' m') ∨
     (is_recording s = false ∧ r = Err (EHost TStorage ExceededLimit))).

Lemma refines_ret {A} (a : A) : refines (m_ret a) (m_ret a).
Proof. intros s m Hr; simpl. auto. Qed.

Lemma refines_fail {A} e : refines (m_fail (A:=A) e) (m_fail e).
Proof. intros s m Hr; simpl. auto. Qed.

Lemma refines_lift {A} (r : Result A) : refines (m_lift r) (m_lift r).
Proof. intros s m Hr; simpl. auto. Qed.

Lemma refines_bind {A B} (p : M Storage A) q (f : A → M Storage B) g :
  refines p q → (∀ a, refines (f a) (g a)) → refines (m_bind p f) (m_bind q g).
Proof.
  intros Hp Hf s m Hr. unfold m_bind. specialize (Hp s m Hr).
  destruct (p s) as [[a|e] s1], (q m) as [[a'|e'] m1];
    destruct Hp as [Hmode [[? Hr']|[Hrec ?]]]; simplify_eq; eauto.
  - specialize (Hf a' s1 m1 Hr').
    destruct (f a' s1) as [r s2], (g a' m1) as [r' m2]. destruct Hf as [Hmode' Hf].
    unfold is_recording in *. rewrite Hmode in *. rewrite Hmode'. auto.
  - destruct (g a' m1). eauto.
Qed.

Lemma enforce_access_cases fp key ty :
  Footprint.enforce_access fp key ty = Ok tt ∧ is_Some (fp !! key) ∨
  Footprint.enforce_access fp key ty = Err (EHost TStorage ExceededLimit).
Proof. unfold Footprint.enforce_access. repeat case_match; eauto. Qed.

Lemma check_supported_cases key :
  check_supported_ledger_key_type key = Ok tt ∨
  check_supported_ledger_key_type key = Err (EHost TStorage InternalError).
Proof. destruct key; simpl; auto. Qed.

(** Reading through: the footprint and the cache change, the view does not. *)
Lemma prepare_read_only_access_spec s m key :
  represents s m →
  let '(r, s') := prepare_read_only_access key s in
  mode s' = mode s ∧
  ((r = Ok tt ∧ represents s' m ∧ smap s' !! key = Some (m !! key)) ∨
   (is_recording s = false ∧ r = Err (EHost TStorage ExceededLimit))).
Proof.
  intros [Hwf Hview]. unfold prepare_read_only_access, m_bind, m_get, m_modify, m_lift.
  destruct (mode s) as [src|] eqn:Hmode; simpl.
  - unfold storage_wf in Hwf. rewrite Hmode in Hwf.
    pose proof (Hview key) as Hk. unfold storage_view in Hk. rewrite Hmode in Hk.
    destruct (smap s !! key) as [o|] eqn:Hc; simpl.
    + split; [done|]. left. split_and!; [done| |by rewrite Hc, <-Hk].
      split; [unfold storage_wf; simpl; by rewrite Hmode|].
      intros k. rewrite <-Hview. unfold storage_view; simpl. by rewrite Hmode.
    + destruct (Hwf key Hc) as (o & Ho & _). rewrite Ho in *; simpl.
      split; [done|]. left. split_and!; [done| |by rewrite lookup_insert_eq, <-Hk].
      split.
      * unfold storage_wf; simpl. rewrite Hmode. intros k [Hn _]%lookup_insert_None. eauto.
      * intros k. rewrite <-Hview. unfold storage_view; simpl. rewrite Hmode.
        destruct (decide (key = k)) as [<-|Hne].
        { by rewrite lookup_insert_eq, Hc, Ho. }
        by rewrite lookup_insert_ne.
  - split; [done|]. unfold is_recording. rewrite Hmode.
    destruct (enforce_access_cases (footprint s) key ReadOnly) as [[-> Hfp]| ->]; [left|by right].
    assert (Hin := Hwf). unfold storage_wf in Hin. rewrite Hmode in Hin.
    destruct (Hin key Hfp) as [o Ho].
    split_and!; [done|done|]. rewrite Ho, <-Hview. unfold storage_view. by rewrite Ho.
Qed.

Lemma refines_try_get key : refines (try_get_full key) (store_try_get key).
Proof.
  intros s m Hr. unfold try_get_full; simpl. unfold m_bind, m_lift, m_get.
  destruct (check_supported_cases key) as [-> | ->]; [|by auto].
  pose proof (prepare_read_only_access_spec s m key Hr) as Hp.
  destruct (prepare_read_only_access key s) as [r s'].
  destruct Hp as [Hmode [(-> & Hr' & Hk)|[Hrec ->]]]; [|simpl; auto].
  rewrite Hk. simpl. auto.
Qed.

Lemma put_represents s s' m m' key val :
  represents s m → mode s' = mode s → smap s' = <[key := val]> (smap s) →
  (is_recording s = false → footprint s' = footprint s) →
  m' = (match val with Some v => <[key := v]> m | None => delete key m end) →
  represents s' m'.
Proof.
  intros [Hwf Hview] Hmode Hmap Hfp ->. unfold is_recording in Hfp. split.
  - unfold storage_wf in *. rewrite Hmode. destruct (mode s) as [src|].
    + intros k. rewrite Hmap. intros [? _]%lookup_insert_None. eauto.
    + intros k. rewrite Hfp, Hmap by done. intros Hk.
      apply lookup_insert_is_Some'. auto.
  - intros k. pose proof (Hview k) as Hk. unfold storage_view in *.
    rewrite Hmode, Hmap. destruct (decide (key = k)) as [<-|Hne].
    + rewrite lookup_insert_eq. destruct val; by simplify_map_eq.
    + rewrite lookup_insert_ne by done. destruct val; by simplify_map_eq.
Qed.

Lemma refines_put_opt key val : refines (put_opt key val) (store_put_opt key val).
Proof.
  intros s m Hr. simpl. unfold put_opt, ledger_put_opt, m_bind, m_lift, m_get, m_modify, m_ret.
  destruct (check_supported_cases key) as [-> | ->]; [|by auto].
  assert (Hty : ∀ le, check_supported_ledger_entry_type le = Ok tt ∨
    check_supported_ledger_entry_type le = Err (EHost TStorage InternalError))
    by (intros []; simpl; auto).
  destruct val as [le|]; [destruct (Hty le.1) as [-> | ->]; [|by auto]|];
  (destruct (mode s) as [src|] eqn:Hmode; simpl;
   [|destruct (enforce_access_cases (footprint s) key ReadWrite) as [[-> Hfp]| ->]; simpl;
     [|unfold is_recording; rewrite Hmode; auto]]);
  (split; [done|]; left; split; [done|];
   eapply put_represents; [exact Hr|done|reflexivity| |reflexivity]);
  unfold is_recording; by rewrite Hmode.
Qed.

(** A peek finds the represented value, or nothing where the check that
    follows it would pass anyway. *)
Lemma peek_live s m key :
  represents s m →
  match store_peek key s with
  | Some o => o = m !! key
  | None => check_if_entry_is_live li key (m !! key) = Ok true
  end.
Proof.
  intros [Hwf Hview]. rewrite <-(Hview key). unfold storage_view, storage_wf in *.
  simpl. destruct (smap s !! key) eqn:Hk; [done|]. destruct (mode s) as [src|]; [|done].
  destruct (Hwf key Hk) as (o & -> & Ho). done.
Qed.

Lemma refines_put_opt_with_host key val :
  refines (put_opt_with_host li key val) (put_opt_with_host li key val).
Proof.
  intros s m Hr. pose proof (refines_put_opt key val s m Hr) as Hput.
  pose proof (peek_live s m key Hr) as Hpeek.
  unfold put_opt_with_host, m_bind, m_lift, m_get, m_ret in *.
  change (store_peek key m) with (Some (m !! key)). cbn iota beta.
  destruct (store_peek key s) as [o|] eqn:Hp.
  - subst o. destruct (check_if_entry_is_live li key (m !! key)); [exact Hput|]. auto.
  - rewrite Hpeek. exact Hput.
Qed.

Lemma refines_try_get_full_with_host key :
  refines (try_get_full_with_host li key) (try_get_full_with_host li key).
Proof.
  apply refines_bind; [apply refines_try_get|]. intros res.
  apply refines_bind; [apply refines_lift|]. intros live. apply refines_ret.
Qed.

Lemma refines_insert key v :
  refines (m_modify (store_insert key v)) (m_modify (store_insert key v)).
Proof.
  intros s m Hr. simpl. split; [done|]. left. split; [done|].
  by eapply (put_represents s _ m _ key (Some v)).
Qed.

Hint Resolve refines_ret refines_fail refines_lift refines_bind refines_try_get
  refines_put_opt refines_put_opt_with_host refines_try_get_full_with_host
  refines_insert : refines.

Lemma refines_get_with_host key :
  refines (get_with_host li key) (get_with_host li key).
Proof. unfold get_with_host. eauto with refines. Qed.

Lemma refines_get_with_live_until_ledger key :
  refines (get_with_live_until_ledger li key) (get_with_live_until_ledger li key).
Proof. unfold get_with_live_until_ledger. eauto with refines. Qed.

Lemma refines_has_with_host key :
  refines (has_with_host li key) (has_with_host li key).
Proof. unfold has_with_host. eauto with refines. Qed.

Lemma refines_put_with_host key val lu :
  refines (put_with_host li key val lu) (put_with_host li key val lu).
Proof. apply refines_put_opt_with_host. Qed.

Lemma refines_del_with_host key :
  refines (del_with_host li key) (del_with_host li key).
Proof. apply refines_put_opt_with_host. Qed.

Lemma refines_extend_ttl key threshold extend_to :
  refines (extend_ttl li key threshold extend_to) (extend_ttl li key threshold extend_to).
Proof.
  unfold extend_ttl. apply refines_bind; [auto with refines|intros _].
  apply refines_bind; [case_decide; auto with refines|intros _].
  apply refines_bind; [apply refines_get_with_live_until_ledger|intros e].
  apply refines_bind; [auto with refines|intros old].
  apply refines_bind; [case_decide; auto with refines|intros _].
  apply refines_bind; [auto with refines|intros new].
  case_decide; auto with refines.
Qed.
End refinement.

#[export] Hint Resolve refines_ret refines_fail refines_lift refines_get_with_host
  refines_get_with_live_until_ledger refines_has_with_host refines_put_with_host
  refines_del_with_host refines_extend_ttl : refines.
