(* ===== verification/Host.v ===== *)
(** The host functions a contract reaches through [soroban_sdk::Env], and the
    invocation frame around a contract call: the parts of [host.rs],
    [host/data_helper.rs], [host/lifecycle.rs], [host/frame.rs] and
    [events/internal.rs] the contracts depend on.

    A contract entry point is a [prog]: a tree of host operations [op] with
    Rust's [panic!] as [Fail].  [run] interprets it over a [Host] whose storage
    is any [LedgerStore].  The contracts' proofs run it over [Env], the host
    whose storage is the plain [LedgerMap]; [run_refines] carries every result
    over to the host with the real [Storage]. *)
From S2P Require Import Prelude ScVal Storage.
#[local] Open Scope m_scope.

(** * Events *)

Record ContractEvent := mkContractEvent {
  ce_contract : Hash;
  ce_topics : list ScVal;
  ce_data : ScVal
}.
#[export] Instance ContractEvent_eq_dec : EqDecision ContractEvent.
Proof. solve_decision. Defined.

Inductive EventError := FromFailedCall | FromSuccessfulCall.
#[export] Instance EventError_eq_dec : EqDecision EventError.
Proof. solve_decision. Defined.

Abbreviation EventsBuffer := (list (ContractEvent * EventError)) (only parsing).

(** [InternalEventsBuffer::record], for contract events. *)
Definition record_event (e : ContractEvent) (buf : EventsBuffer) : EventsBuffer :=
  buf ++ [(e, FromSuccessfulCall)].

(** [InternalEventsBuffer::rollback]: everything from [events] on is marked as
    coming from a failed call. *)
Definition rollback_events (events : nat) (buf : EventsBuffer) : EventsBuffer :=
  take events buf ++ ((λ e, (e.1, FromFailedCall)) <$> drop events buf).

(** [InternalEventsBuffer::externalize] keeps only the status flag; these are
    the events an observer may rely on. *)
Definition emitted (buf : EventsBuffer) : list ContractEvent :=
  fst <$> filter (λ e, e.2 = FromSuccessfulCall) buf.

(** * The host *)

Record Host (S : Type) := mkHost {
  h_storage : S;
  h_ledger : LedgerInfo;
  h_contract : Hash;                (* the contract of the current frame *)
  h_auths : gset ScAddress;         (* who authorized the current invocation *)
  h_events : EventsBuffer
}.
Arguments mkHost {S}.
Arguments h_storage {S}.
Arguments h_ledger {S}.
Arguments h_contract {S}.
Arguments h_auths {S}.
Arguments h_events {S}.

Definition set_storage {S} (s : S) (h : Host S) : Host S :=
  mkHost s (h_ledger h) (h_contract h) (h_auths h) (h_events h).
Definition set_events {S} (ev : EventsBuffer) (h : Host S) : Host S :=
  mkHost (h_storage h) (h_ledger h) (h_contract h) (h_auths h) ev.

(** What the model takes from outside the repository: SHA-256 and the XDR
    serialization, the hash that derives a contract's address, and what the
    constructor of a deployed Wasm does. *)
Record External := mkExternal {
  x_to_xdr : ScVal → list Byte.byte;
  x_sha256 : list Byte.byte → Hash;
  x_contract_id : Hash → ScAddress → Hash → Hash;
  x_constructor : Hash → Hash → Result unit
}.

(** * Host functions over the contract's own data *)
Section data.
Context {S : Type} `{LedgerStore S}.
Context (li : LedgerInfo) (cid : Hash).

(** [Host::storage_key_from_val]. *)
Definition storage_key (k : ScVal) (durability : ContractDataDurability) : LedgerKey :=
  KContractData (Contract cid) k durability.

Definition contract_instance_ledger_key (contract_id : Hash) : LedgerKey :=
  KContractData (Contract contract_id) ScLedgerKeyContractInstance Persistent.

Definition contract_code_ledger_key (wasm_hash : Hash) : LedgerKey :=
  KContractCode wasm_hash.

Definition set_cde_val (v : ScVal) (e : ContractDataEntry) : ContractDataEntry :=
  mkContractDataEntry (cde_contract e) (cde_key e) (cde_durability e) v.

Definition put_contract_data (k v : ScVal) (durability : ContractDataDurability) : M S unit :=
  let key := storage_key k durability in
  let* has := has_with_host li key in
  if has : bool then
    let* current := get_with_live_until_ledger li key in
    match current.1 with
    | EContractData entry =>
        put_with_host li key (EContractData (set_cde_val v entry)) current.2
    | _ => m_fail (EHost TStorage InternalError)
    end
  else
    let* live_until := m_lift (get_min_live_until_ledger li durability) in
    put_with_host li key
      (EContractData (mkContractDataEntry (Contract cid) k durability v)) (Some live_until).

Definition has_contract_data (k : ScVal) (durability : ContractDataDurability) : M S bool :=
  has_with_host li (storage_key k durability).

Definition get_contract_data (k : ScVal) (durability : ContractDataDurability) : M S ScVal :=
  let* entry := get_with_host li (storage_key k durability) in
  match entry with
  | EContractData e => m_ret (cde_val e)
  | _ => m_fail (EHost TStorage InternalError)
  end.

Definition del_contract_data (k : ScVal) (durability : ContractDataDurability) : M S unit :=
  del_with_host li (storage_key k durability).

Definition extend_contract_data_ttl (k : ScVal) (durability : ContractDataDurability)
    (threshold extend_to : Z) : M S unit :=
  extend_ttl li (storage_key k durability) threshold extend_to.

(** The executable of a stored contract instance: a Wasm hash, or [None] for
    the built-in asset contract. *)
Definition retrieve_contract_instance (key : LedgerKey) : M S (option Hash) :=
  let* entry := get_with_host li key in
  match entry with
  | EContractData e =>
      match cde_val e with
      | ScContractInstance executable => m_ret executable
      | _ => m_fail (EHost TStorage InternalError)
      end
  | _ => m_fail (EHost TStorage InternalError)
  end.

Definition extend_contract_code_ttl_from_contract_id (instance_key : LedgerKey)
    (threshold extend_to : Z) : M S unit :=
  let* executable := retrieve_contract_instance instance_key in
  match executable with
  | Some wasm_hash =>
      extend_ttl li (contract_code_ledger_key wasm_hash) threshold extend_to
  | None => m_ret tt
  end.

Definition extend_current_contract_instance_and_code_ttl (threshold extend_to : Z) : M S unit :=
  let key := contract_instance_ledger_key cid in
  extend_ttl li key threshold extend_to ;;;
  extend_contract_code_ttl_from_contract_id key threshold extend_to.

Definition wasm_exists (wasm_hash : Hash) : M S bool :=
  has_with_host li (contract_code_ledger_key wasm_hash).

(** [store_contract_instance] as contract creation calls it: an executable is
    given and there is no instance storage to write. *)
Definition store_contract_instance (executable : option Hash) (contract_id : Hash)
    (key : LedgerKey) : M S unit :=
  let* has := has_with_host li key in
  if has : bool then
    let* current := get_with_live_until_ledger li key in
    match current.1 with
    | EContractData entry =>
        match cde_val entry with
        | ScContractInstance _ =>
            put_with_host li key
              (EContractData (set_cde_val (ScContractInstance executable) entry)) current.2
        | _ => m_fail (EHost TStorage InternalError)
        end
    | _ => m_fail (EHost TStorage InternalError)
    end
  else
    let* live_until := m_lift (get_min_live_until_ledger li Persistent) in
    put_with_host li key
      (EContractData (mkContractDataEntry (Contract contract_id) ScLedgerKeyContractInstance
         Persistent (ScContractInstance executable))) (Some live_until).

Definition create_contract_with_id (contract_id : Hash) (wasm_hash : Hash) : M S unit :=
  let key := contract_instance_ledger_key contract_id in
  let* exists_already := has_with_host li key in
  (if exists_already : bool then m_fail (EHost TStorage ExistingValue) else m_ret tt) ;;;
  let* code_exists := wasm_exists wasm_hash in
  (if negb code_exists then m_fail (EHost TStorage MissingValue) else m_ret tt) ;;;
  store_contract_instance (Some wasm_hash) contract_id key.

(** [create_contract] with the current contract as deployer: its own
    authorization is implied by the frame, so only the address derivation,
    the creation and the constructor remain. *)
Definition create_contract (X : External) (wasm_hash salt : Hash) : M S ScAddress :=
  let contract_id := x_contract_id X (network_id li) (Contract cid) salt in
  create_contract_with_id contract_id wasm_hash ;;;
  m_lift (x_constructor X contract_id wasm_hash) ;;;
  m_ret (Contract contract_id).
End data.

(** * Contract programs *)

(** The operations of [soroban_sdk::Env] the contracts use. *)
Inductive op : Type → Type :=
| OpHas (k : ScVal) : op bool                          (* storage().persistent().has *)
| OpGet (k : ScVal) : op (option ScVal)                (* storage().persistent().get *)
| OpSet (k v : ScVal) : op unit                        (* storage().persistent().set *)
| OpRemove (k : ScVal) : op unit                       (* storage().persistent().remove *)
| OpExtendTtl (k : ScVal) (threshold extend_to : Z) : op unit
| OpExtendInstance (threshold extend_to : Z) : op unit (* storage().instance().extend_ttl *)
| OpRequireAuth (a : ScAddress) : op unit              (* Address::require_auth *)
| OpPublish (topics : list ScVal) (data : ScVal) : op unit
| OpTimestamp : op Z                                   (* ledger().timestamp() *)
| OpCurrentContract : op Hash                          (* current_contract_address() *)
| OpHash (v : ScVal) : op Hash                         (* crypto().sha256(&v.to_xdr()) *)
| OpDeploy (salt wasm_hash : Hash) : op ScAddress.     (* deployer()...deploy(..) *)

Inductive prog (A : Type) : Type :=
| Ret (a : A)
| Fail (e : Error)
| Vis {R : Type} (o : op R) (k : R → prog A).
Arguments Ret {A} a.
Arguments Fail {A} e.
Arguments Vis {A R} o k.

Fixpoint prog_bind {A B} (p : prog A) (f : A → prog B) : prog B :=
  match p with
  | Ret a => f a
  | Fail e => Fail e
  | Vis o k => Vis o (λ r, prog_bind (k r) f)
  end.

#[export] Instance prog_mret : MRet prog := @Ret.
#[export] Instance prog_mbind : MBind prog := λ A B f p, prog_bind p f.
#[export] Instance prog_fmap : FMap prog := λ A B f p, prog_bind p (λ a, Ret (f a)).

(** [panic!("msg")], and [if b { panic!("msg") }]. *)
Definition panic {A} (msg : string) : prog A := Fail (EPanic msg).
Definition panic_if (b : bool) (msg : string) : prog unit :=
  if b then panic msg else Ret tt.

Definition trigger {R} (o : op R) : prog R := Vis o Ret.

Definition has (k : ScVal) : prog bool := trigger (OpHas k).
(** A stored value of another type makes [get] trap in the conversion. *)
Definition get {T} (c : codec T) (k : ScVal) : prog (option T) :=
  v ← trigger (OpGet k);
  match v with
  | None => Ret None
  | Some v =>
      match dec c v with
      | Some x => Ret (Some x)
      | None => Fail (EHost TWasmVm InvalidAction)
      end
  end.
Definition set {T} (c : codec T) (k : ScVal) (x : T) : prog unit := trigger (OpSet k (enc c x)).
Definition remove (k : ScVal) : prog unit := trigger (OpRemove k).
Definition extend_ttl_of (k : ScVal) (threshold extend_to : Z) : prog unit :=
  trigger (OpExtendTtl k threshold extend_to).
Definition extend_instance_ttl (threshold extend_to : Z) : prog unit :=
  trigger (OpExtendInstance threshold extend_to).
Definition require_auth (a : ScAddress) : prog unit := trigger (OpRequireAuth a).
Definition publish (topics : list ScVal) (data : ScVal) : prog unit :=
  trigger (OpPublish topics data).
Definition ledger_timestamp : prog Z := trigger OpTimestamp.
Definition current_contract : prog ScAddress := id ← trigger OpCurrentContract; Ret (Contract id).
Definition sha256_xdr (v : ScVal) : prog Hash := trigger (OpHash v).
Definition deploy (salt wasm_hash : Hash) : prog ScAddress := trigger (OpDeploy salt wasm_hash).

(** Every contract declares the same two constants, renews an entry with them
    after each write, and does so on most reads. *)
Definition TTL_THRESHOLD : Z := 10000.
Definition TTL_EXTEND_TO : Z := 6307200.

Definition extend (k : ScVal) : prog unit := extend_ttl_of k TTL_THRESHOLD TTL_EXTEND_TO.

(** [set] followed by [extend_ttl], as after every write of the source. *)
Definition store {T} (c : codec T) (k : ScVal) (x : T) : prog unit :=
  set c k x ;; extend k.

(** [get(..).unwrap_or(d)]. *)
Definition get_or {T} (c : codec T) (k : ScVal) (d : T) : prog T :=
  o ← get c k; Ret (default d o).

(** Arithmetic with [overflow-checks]: leaving the type's range panics. *)
Definition u32_add (a b : Z) : prog Z :=
  if decide (a + b <= u32_max) then Ret (a + b) else panic "attempt to add with overflow".
Definition u64_add (a b : Z) : prog Z :=
  if decide (a + b <= u64_max) then Ret (a + b) else panic "attempt to add with overflow".
Definition u64_mul (a b : Z) : prog Z :=
  if decide (a * b <= u64_max) then Ret (a * b) else panic "attempt to multiply with overflow".
Definition u32_sub (a b : Z) : prog Z :=
  if decide (b <= a) then Ret (a - b) else panic "attempt to subtract with overflow".
Definition i128_add (a b : Z) : prog Z :=
  if decide (i128_min <= a + b <= i128_max) then Ret (a + b)
  else panic "attempt to add with overflow".
Definition i128_sub (a b : Z) : prog Z :=
  if decide (i128_min <= a - b <= i128_max) then Ret (a - b)
  else panic "attempt to subtract with overflow".

(** * Interpretation *)
Section run.
Context {S : Type} `{LedgerStore S} (X : External).

Definition on_storage {A} (p : LedgerInfo → Hash → M S A) : M (Host S) A := λ h,
  let '(r, s) := p (h_ledger h) (h_contract h) (h_storage h) in (r, set_storage s h).

Definition handle {R} (o : op R) : M (Host S) R :=
  match o in op R return M (Host S) R with
  | OpHas k => on_storage (λ li cid, has_contract_data li cid k Persistent)
  | OpGet k => on_storage (λ li cid,
      let* b := has_contract_data li cid k Persistent in
      if b : bool then
        let* v := get_contract_data li cid k Persistent in m_ret (Some v)
      else m_ret None)
  | OpSet k v => on_storage (λ li cid, put_contract_data li cid k v Persistent)
  | OpRemove k => on_storage (λ li cid, del_contract_data li cid k Persistent)
  | OpExtendTtl k threshold extend_to =>
      on_storage (λ li cid, extend_contract_data_ttl li cid k Persistent threshold extend_to)
  | OpExtendInstance threshold extend_to =>
      on_storage (λ li cid, extend_current_contract_instance_and_code_ttl li cid threshold extend_to)
  | OpRequireAuth a => λ h,
      ((if decide (a ∈ h_auths h) then Ok tt else Err (EHost TAuth InvalidAction)), h)
  | OpPublish topics data => m_modify (λ h,
      set_events (record_event (mkContractEvent (h_contract h) topics data) (h_events h)) h)
  | OpTimestamp => λ h, (Ok (timestamp (h_ledger h)), h)
  | OpCurrentContract => λ h, (Ok (h_contract h), h)
  | OpHash v => m_ret (x_sha256 X (x_to_xdr X v))
  | OpDeploy salt wasm_hash => on_storage (λ li cid, create_contract li cid X wasm_hash salt)
  end.

Fixpoint run {A} (p : prog A) : M (Host S) A :=
  match p with
  | Ret a => m_ret a
  | Fail e => m_fail e
  | Vis o k => m_bind (handle o) (λ r, run (k r))
  end.

Lemma run_bind {A B} (p : prog A) (f : A → prog B) h :
  run (p ≫= f) h = m_bind (run p) (λ a, run (f a)) h.
Proof.
  revert h. induction p as [a|e|R o k IH]; intros h; [done|done|].
  simpl. unfold m_bind. destruct (handle o h) as [[r|e] h']; [apply IH|done].
Qed.
End run.

(** * The invocation frame *)

(** [RollbackPoint]: the storage map and the length of the events buffer.  The
    footprint is not part of it. *)
Class Rollback (S : Type) := { restore : S → S → S }.
#[export] Instance Storage_rollback : Rollback Storage :=
  {| restore saved s := set_smap (smap saved) s |}.
#[export] Instance LedgerMap_rollback : Rollback LedgerMap := {| restore saved _ := saved |}.

(** [with_frame]: push the context, run the call, pop the context, rolling back
    on error. *)
Definition with_frame {S A} `{Rollback S} (p : M (Host S) A) : M (Host S) A := λ h,
  match p h with
  | (Ok a, h') => (Ok a, h')
  | (Err e, h') =>
      (Err e, set_events (rollback_events (length (h_events h)) (h_events h'))
                (set_storage (restore (h_storage h) (h_storage h')) h'))
  end.

(** One top-level contract invocation, authorized by [auths]. *)
Definition invoke {S A} `{LedgerStore S, Rollback S} (X : External)
    (auths : gset ScAddress) (p : prog A) : M (Host S) A := λ h,
  with_frame (run X p)
    (mkHost (h_storage h) (h_ledger h) (h_contract h) auths (h_events h)).

(** Whatever a contract program does, it stays in its frame and only appends to
    the events buffer. *)
Section frame.
Context {S : Type} `{LedgerStore S} (X : External).

Definition in_frame (h h' : Host S) : Prop :=
  h_ledger h' = h_ledger h ∧ h_contract h' = h_contract h ∧ h_auths h' = h_auths h ∧
  ∃ new, h_events h' = h_events h ++ new.

#[export] Instance in_frame_preorder : PreOrder in_frame.
Proof.
  split.
  - intros h. split_and!; try done. exists []. by rewrite app_nil_r.
  - intros h1 h2 h3 (?&?&?&n1&Hn1) (?&?&?&n2&Hn2). split_and!; try congruence.
    exists (n1 ++ n2). by rewrite Hn2, Hn1, app_assoc.
Qed.

Lemma handle_in_frame {R} (o : op R) h : in_frame h (handle X o h).2.
Proof.
  assert (Hst : ∀ A (p : LedgerInfo → Hash → M S A), in_frame h (on_storage p h).2).
  { intros A p. unfold on_storage. destruct (p _ _ _) as [r s'].
    split_and!; try done. exists []. by rewrite app_nil_r. }
  destruct o; simpl; try (by apply Hst); try done.
  split_and!; try done. by eexists.
Qed.

Lemma run_in_frame {A} (p : prog A) h : in_frame h (run X p h).2.
Proof.
  revert h. induction p as [a|e|R o k IH]; intros h; simpl; try done.
  pose proof (handle_in_frame o h) as Ho. unfold m_bind.
  destruct (handle X o h) as [[r|e] h1]; [|done]. etrans; [exact Ho|apply IH].
Qed.
End frame.

Lemma emitted_app buf buf' : emitted (buf ++ buf') = emitted buf ++ emitted buf'.
Proof. unfold emitted. by rewrite list.filter_app, fmap_app. Qed.

Lemma emitted_failed (buf : EventsBuffer) :
  emitted ((λ e, (e.1, FromFailedCall)) <$> buf) = [].
Proof. unfold emitted. induction buf as [|[] buf IH]; [done|]. by simpl. Qed.

(** Rolling back hides exactly the events the failed call added. *)
Lemma emitted_rollback buf new :
  emitted (rollback_events (length buf) (buf ++ new)) = emitted buf.
Proof.
  unfold rollback_events. rewrite take_app_length, drop_app_length.
  by rewrite emitted_app, emitted_failed, app_nil_r.
Qed.

(** * The host with the real storage refines the host with the ledger map *)
Section refinement.
Context (X : External).

Definition host_represents (h : Host Storage) (e : Host LedgerMap) : Prop :=
  h_ledger h = h_ledger e ∧ h_contract h = h_contract e ∧ h_auths h = h_auths e ∧
  h_events h = h_events e ∧ represents (h_ledger h) (h_storage h) (h_storage e).

Ltac refine_op :=
  repeat first
    [ solve [auto with refines]
    | case_match
    | apply refines_bind; intros ].

Lemma refines_put_contract_data li cid k v d :
  refines li (put_contract_data li cid k v d) (put_contract_data li cid k v d).
Proof. unfold put_contract_data. refine_op. Qed.

Lemma refines_get_contract_data li cid k d :
  refines li (get_contract_data li cid k d) (get_contract_data li cid k d).
Proof. unfold get_contract_data. refine_op. Qed.

Lemma refines_retrieve li key :
  refines li (retrieve_contract_instance li key) (retrieve_contract_instance li key).
Proof. unfold retrieve_contract_instance. refine_op. Qed.

Lemma refines_store_instance li w cid key :
  refines li (store_contract_instance li w cid key) (store_contract_instance li w cid key).
Proof. unfold store_contract_instance. refine_op. Qed.

Hint Resolve refines_put_contract_data refines_get_contract_data refines_retrieve
  refines_store_instance : refines.

Lemma refines_extend_instance li cid a b :
  refines li (extend_current_contract_instance_and_code_ttl li cid a b)
    (extend_current_contract_instance_and_code_ttl li cid a b).
Proof.
  unfold extend_current_contract_instance_and_code_ttl,
    extend_contract_code_ttl_from_contract_id. refine_op.
Qed.

Lemma refines_create_contract li cid w salt :
  refines li (create_contract li cid X w salt) (create_contract li cid X w salt).
Proof.
  unfold create_contract, create_contract_with_id, wasm_exists. refine_op.
Qed.
Hint Resolve refines_extend_instance refines_create_contract : refines.

(** The outcomes of the same program on both hosts. *)
Definition outcome_refines {A} (h : Host Storage)
    (x : Result A * Host Storage) (y : Result A * Host LedgerMap) : Prop :=
  mode (h_storage x.2) = mode (h_storage h) ∧
  ((x.1 = y.1 ∧ host_represents x.2 y.2) ∨
   (is_recording (h_storage h) = false ∧ x.1 = Err (EHost TStorage ExceededLimit))).

Lemma on_storage_refines {A} (p : LedgerInfo → Hash → M Storage A)
    (q : LedgerInfo → Hash → M LedgerMap A) h e :
  (∀ li cid, refines li (p li cid) (q li cid)) → host_represents h e →
  outcome_refines h (on_storage p h) (on_storage q e).
Proof.
  intros Hpq (Hli & Hc & Ha & He & Hr). unfold on_storage.
  specialize (Hpq (h_ledger h) (h_contract h) _ _ Hr). rewrite <-Hli, <-Hc.
  destruct (p _ _ _) as [r s'], (q _ _ _) as [r' m'].
  destruct Hpq as [Hmode [[-> Hr']|Hd]]; split; try done; [left|right]; done.
Qed.

Lemma handle_refines {R} (o : op R) h e :
  host_represents h e → outcome_refines h (handle X o h) (handle X o e).
Proof.
  intros Hr. destruct o; simpl;
    try (apply on_storage_refines; [intros|exact Hr];
         unfold has_contract_data, del_contract_data, extend_contract_data_ttl;
         solve [refine_op]);
    destruct Hr as (Hli & Hc & Ha & He & Hr); split; try done; left; simpl;
    unfold host_represents; simpl; rewrite ?Hli, ?Hc, ?Ha, ?He in *; done.
Qed.

(** Whatever a contract does on the ledger map, it does on the real storage,
    unless an enforced footprint denies one of its accesses. *)
Lemma run_refines {A} (p : prog A) h e :
  host_represents h e → outcome_refines h (run X p h) (run X p e).
Proof.
  revert h e. induction p as [a|err|R o k IH]; intros h e Hr; simpl.
  - split; auto.
  - split; auto.
  - pose proof (handle_refines o h e Hr) as Ho. unfold m_bind.
    destruct (handle X o h) as [[r|er] h1], (handle X o e) as [[r'|er'] e1];
      destruct Ho as [Hmode [[Heq Hr1]|[Hrec Heq]]]; simpl in *; simplify_eq.
    + destruct (IH r' h1 e1 Hr1) as [Hm Hout]. split; [congruence|].
      unfold is_recording in *. by rewrite <-Hmode.
    + destruct (run X (k r') e1). split; [done|]. by right.
    + split; auto.
    + split; [done|]. by right.
Qed.
End refinement.
