(* ===== verification/Env.v ===== *)
(** Reasoning about contract programs over [Env], the host whose storage is the
    plain ledger map.

    The effect of every storage operation on the contract's own data is a
    function [Env → Env] ([set_data], [touch], [remove_data], [add_event]) with
    rewrite rules for what it changes and keeps, and [wp] computes what a program
    does from those effects.  Two predicates separate the side conditions:
    [env_wf] is structural and always holds, [env_live] says that nothing the
    contract can reach has been archived and the network's TTL settings do not
    overflow, and is needed only to exclude host errors. *)
From S2P Require Import Prelude ScVal Storage Host.

Abbreviation Env := (Host LedgerMap) (only parsing).

(** * The contract's own data *)

Definition dkey (e : Env) (k : ScVal) : LedgerKey := storage_key (h_contract e) k Persistent.

(** The value stored under [k], and the ledger its entry lives until. *)
Definition data (e : Env) (k : ScVal) : option ScVal :=
  match h_storage e !! dkey e k with
  | Some (EContractData d, _) => Some (cde_val d)
  | _ => None
  end.

Definition live_until (e : Env) (k : ScVal) : option Z :=
  h_storage e !! dkey e k ≫= snd.

Definition env_wf (e : Env) : Prop :=
  ∀ k v, h_storage e !! dkey e k = Some v → ∃ d lu, v = (EContractData d, Some lu).

Definition ledger_sane (li : LedgerInfo) : Prop :=
  0 <= sequence_number li ∧ sequence_number li + TTL_EXTEND_TO <= u32_max ∧
  0 <= max_entry_ttl li ∧ sequence_number li + max_entry_ttl li <= u32_max ∧
  0 <= min_persistent_entry_ttl li ∧
  sequence_number li + min_persistent_entry_ttl li <= u32_max.

(** The running contract's instance and code entries are there and live. *)
Definition instance_live (e : Env) : Prop :=
  ∃ d lu w, h_storage e !! dkey e ScLedgerKeyContractInstance = Some (EContractData d, Some lu) ∧
    cde_val d = ScContractInstance w ∧
    match w with
    | Some h => ∃ en lu', h_storage e !! KContractCode h = Some (en, Some lu') ∧
        sequence_number (h_ledger e) <= lu'
    | None => True
    end.

Definition env_live (e : Env) : Prop :=
  ledger_sane (h_ledger e) ∧ instance_live e ∧
  ∀ k en lu, h_storage e !! dkey e k = Some (en, Some lu) → sequence_number (h_ledger e) <= lu.

(** * Effects *)

Definition min_live_until (li : LedgerInfo) : Z :=
  sequence_number li + u32_saturating_sub (min_persistent_entry_ttl li) 1.

Definition put_entry (k v : ScVal) (e : Env) : EntryWithLiveUntil :=
  match h_storage e !! dkey e k with
  | Some (EContractData d, lu) => (EContractData (set_cde_val v d), lu)
  | _ => (EContractData (mkContractDataEntry (Contract (h_contract e)) k Persistent v),
          Some (min_live_until (h_ledger e)))
  end.

Definition set_data (k v : ScVal) (e : Env) : Env :=
  set_storage (<[dkey e k := put_entry k v e]> (h_storage e)) e.

Definition remove_data (k : ScVal) (e : Env) : Env :=
  set_storage (delete (dkey e k) (h_storage e)) e.

Definition touch_key (key : LedgerKey) (threshold extend_to : Z) (e : Env) : Env :=
  match h_storage e !! key with
  | Some (en, Some old) =>
      match target_live_until (h_ledger e) key extend_to with
      | Ok new =>
          if decide (old < new ∧ u32_saturating_sub old (sequence_number (h_ledger e)) <= threshold)
          then set_storage (<[key := (en, Some new)]> (h_storage e)) e
          else e
      | Err _ => e
      end
  | _ => e
  end.

Definition touch (k : ScVal) (threshold extend_to : Z) (e : Env) : Env :=
  touch_key (dkey e k) threshold extend_to e.

Definition touch_instance (threshold extend_to : Z) (e : Env) : Env :=
  let e1 := touch ScLedgerKeyContractInstance threshold extend_to e in
  match h_storage e !! dkey e ScLedgerKeyContractInstance with
  | Some (EContractData d, _) =>
      match cde_val d with
      | ScContractInstance (Some h) => touch_key (KContractCode h) threshold extend_to e1
      | _ => e1
      end
  | _ => e1
  end.

Definition add_event (topics : list ScVal) (d : ScVal) (e : Env) : Env :=
  set_events (record_event (mkContractEvent (h_contract e) topics d) (h_events e)) e.

(** Effects leave the frame alone: ledger, contract and authorizations. *)
Definition same_frame (e e' : Env) : Prop :=
  h_ledger e' = h_ledger e ∧ h_contract e' = h_contract e ∧ h_auths e' = h_auths e.

#[export] Instance same_frame_refl : Reflexive same_frame.
Proof. done. Qed.
#[export] Instance same_frame_trans : Transitive same_frame.
Proof. intros x y z (?&?&?) (?&?&?). repeat split; congruence. Qed.

Lemma touch_key_cases key th ext (e : Env) :
  touch_key key th ext e = e ∨
  ∃ en old new, h_storage e !! key = Some (en, Some old) ∧ old < new ∧
    target_live_until (h_ledger e) key ext = Ok new ∧
    touch_key key th ext e = set_storage (<[key := (en, Some new)]> (h_storage e)) e.
Proof.
  unfold touch_key. destruct (h_storage e !! key) as [[en [old|]]|] eqn:He; auto.
  destruct (target_live_until _ _ _) as [new|] eqn:Ht; auto. case_decide as Hd; auto.
  destruct Hd. right. eauto 10.
Qed.

(** The only change of any TTL operation: one entry lives longer. *)
Definition ttl_bump (e e' : Env) : Prop :=
  e' = e ∨ ∃ key en old new, h_storage e !! key = Some (en, Some old) ∧ old < new ∧
    e' = set_storage (<[key := (en, Some new)]> (h_storage e)) e.

Lemma touch_key_bump key th ext e : ttl_bump e (touch_key key th ext e).
Proof.
  destruct (touch_key_cases key th ext e) as [-> | (?&?&?&?&?&_& ->)]; [by left|right; eauto 10].
Qed.

(** Frame, events. *)
Create HintDb env.

Lemma set_data_frame k v e : same_frame e (set_data k v e).
Proof. done. Qed.
Lemma remove_data_frame k e : same_frame e (remove_data k e).
Proof. done. Qed.
Lemma add_event_frame t d e : same_frame e (add_event t d e).
Proof. done. Qed.
Lemma touch_key_frame key th ext e : same_frame e (touch_key key th ext e).
Proof. destruct (touch_key_cases key th ext e) as [-> | (?&?&?&?&?&?& ->)]; done. Qed.
Lemma touch_frame k th ext e : same_frame e (touch k th ext e).
Proof. apply touch_key_frame. Qed.
Lemma touch_instance_frame th ext e : same_frame e (touch_instance th ext e).
Proof.
  unfold touch_instance. pose proof (touch_frame ScLedgerKeyContractInstance th ext e).
  repeat case_match; try done. etrans; [done|apply touch_key_frame].
Qed.

Lemma touch_key_events key th ext e : h_events (touch_key key th ext e) = h_events e.
Proof. destruct (touch_key_cases key th ext e) as [-> | (?&?&?&?&?&?& ->)]; done. Qed.
Lemma touch_events k th ext e : h_events (touch k th ext e) = h_events e.
Proof. apply touch_key_events. Qed.
Lemma touch_instance_events th ext e : h_events (touch_instance th ext e) = h_events e.
Proof.
  unfold touch_instance. repeat case_match; by rewrite ?touch_key_events, ?touch_events.
Qed.
Lemma set_data_events k v e : h_events (set_data k v e) = h_events e.
Proof. done. Qed.
Lemma remove_data_events k e : h_events (remove_data k e) = h_events e.
Proof. done. Qed.
Lemma add_event_events t d e :
  h_events (add_event t d e) = h_events e ++ [(mkContractEvent (h_contract e) t d, FromSuccessfulCall)].
Proof. done. Qed.

(** Data. *)
Lemma dkey_inj e k k' : dkey e k = dkey e k' → k = k'.
Proof. unfold dkey, storage_key. congruence. Qed.
Lemma dkey_frame e e' k : same_frame e e' → dkey e' k = dkey e k.
Proof. intros (_&Hc&_). unfold dkey. by rewrite Hc. Qed.

Lemma data_set_data k v e k' :
  data (set_data k v e) k' = if decide (k = k') then Some v else data e k'.
Proof.
  unfold data, set_data. simpl. case_decide as Hk.
  - subst. unfold dkey at 1 2. simpl. rewrite lookup_insert_eq. unfold put_entry.
    by destruct (h_storage e !! dkey e k') as [[[] ?]|].
  - rewrite lookup_insert_ne; [done|]. by intros ?%(dkey_inj e k k').
Qed.

Lemma data_remove_data k e k' :
  data (remove_data k e) k' = if decide (k = k') then None else data e k'.
Proof.
  unfold data, remove_data. simpl. case_decide as Hk.
  - subst. unfold dkey at 1 2. simpl. by rewrite lookup_delete_eq.
  - rewrite lookup_delete_ne; [done|]. by intros ?%(dkey_inj e k k').
Qed.

Lemma data_bump e e' k' : ttl_bump e e' → data e' k' = data e k'.
Proof.
  intros [->|(key&en&old&new&He&_& ->)]; [done|].
  unfold data; simpl. change (dkey (set_storage _ e) k') with (dkey e k').
  destruct (decide (key = dkey e k')) as [->|]; [|by rewrite lookup_insert_ne].
  by rewrite lookup_insert_eq, He.
Qed.
Lemma data_touch_key key th ext e k' : data (touch_key key th ext e) k' = data e k'.
Proof. apply data_bump, touch_key_bump. Qed.
Lemma data_touch k th ext e k' : data (touch k th ext e) k' = data e k'.
Proof. apply data_touch_key. Qed.
Lemma data_touch_instance th ext e k' : data (touch_instance th ext e) k' = data e k'.
Proof. unfold touch_instance. repeat case_match; by rewrite ?data_touch_key, ?data_touch. Qed.
Lemma data_add_event t d e k' : data (add_event t d e) k' = data e k'.
Proof. done. Qed.

Create Rewrite HintDb env.
#[export] Hint Rewrite data_set_data data_remove_data data_touch data_touch_instance
  data_add_event : env.
#[export] Hint Rewrite touch_events touch_instance_events set_data_events remove_data_events
  add_event_events : env.

(** Well-formedness and liveness are kept. *)
Lemma env_wf_set_data k v e : env_wf e → env_wf (set_data k v e).
Proof.
  intros Hwf k' w. unfold set_data; simpl. change (dkey (set_storage _ e) k') with (dkey e k').
  intros [[Hk <-]|[_ Hw]]%lookup_insert_Some; [|by eapply Hwf].
  unfold put_entry. destruct (h_storage e !! dkey e k) as [w|] eqn:Hw; [|eauto].
  destruct (Hwf _ _ Hw) as (d & lu & ->). eauto.
Qed.

Lemma env_wf_remove_data k e : env_wf e → env_wf (remove_data k e).
Proof.
  intros Hwf k' w. simpl. change (dkey (remove_data k e)) with (dkey e).
  intros [_ Hw]%lookup_delete_Some. by eapply Hwf.
Qed.

Lemma env_wf_bump e e' : ttl_bump e e' → env_wf e → env_wf e'.
Proof.
  intros [->|(key&en&old&new&He&_& ->)] Hwf; [done|].
  intros k' w. simpl. change (dkey (set_storage _ e) k') with (dkey e k').
  intros [[-> <-]|[_ Hw]]%lookup_insert_Some; [|by eapply Hwf].
  destruct (Hwf _ _ He) as (d & lu & ?). simplify_eq. eauto.
Qed.
Lemma env_wf_touch_key key th ext e : env_wf e → env_wf (touch_key key th ext e).
Proof. apply env_wf_bump, touch_key_bump. Qed.
Lemma env_wf_touch k th ext e : env_wf e → env_wf (touch k th ext e).
Proof. apply env_wf_touch_key. Qed.
Lemma env_wf_touch_instance th ext e : env_wf e → env_wf (touch_instance th ext e).
Proof.
  intros. unfold touch_instance. repeat case_match; auto using env_wf_touch_key, env_wf_touch.
Qed.
Lemma env_wf_add_event t d e : env_wf e → env_wf (add_event t d e).
Proof. done. Qed.

Lemma min_live_until_ge li : ledger_sane li → sequence_number li <= min_live_until li.
Proof.
  intros (?&?&?&?&?&?). unfold min_live_until, u32_saturating_sub, clamp. lia.
Qed.

Lemma env_live_set_data k v e :
  k ≠ ScLedgerKeyContractInstance → env_live e → env_live (set_data k v e).
Proof.
  intros Hk (Hs & (d & lu & w & Hi & Hd & Hw) & Hl). split_and!; [done| |].
  - exists d, lu, w. split_and!; [|done|].
    + simpl. change (dkey (set_data k v e)) with (dkey e). rewrite lookup_insert_ne; [done|].
      by intros ?%(dkey_inj e).
    + destruct w as [h|]; [|done]. simpl. by rewrite lookup_insert_ne.
  - intros k' en lu'. simpl. change (dkey (set_data k v e)) with (dkey e).
    intros [[Hkk Hp]|[_ Hw']]%lookup_insert_Some; [|by eapply Hl].
    unfold put_entry in Hp. destruct (h_storage e !! dkey e k) as [[[] ?]|] eqn:He;
      simplify_eq; try (by apply min_live_until_ge). by eapply Hl.
Qed.

Lemma env_live_remove_data k e :
  k ≠ ScLedgerKeyContractInstance → env_live e → env_live (remove_data k e).
Proof.
  intros Hk (Hs & (d & lu & w & Hi & Hd & Hw) & Hl). split_and!; [done| |].
  - exists d, lu, w. split_and!; [|done|].
    + simpl. change (dkey (remove_data k e)) with (dkey e). rewrite lookup_delete_ne; [done|].
      by intros ?%(dkey_inj e).
    + destruct w as [h|]; [|done]. simpl. by rewrite lookup_delete_ne.
  - intros k' en lu'. simpl. change (dkey (remove_data k e)) with (dkey e).
    intros [_ Hw']%lookup_delete_Some. by eapply Hl.
Qed.

Lemma env_live_bump e e' : ttl_bump e e' → env_live e → env_live e'.
Proof.
  intros [->|(key&en&old&new&He&Hlt& ->)] Hlive; [done|]. destruct Hlive as (Hs & (d & lu & w & Hi & Hd & Hw) & Hl).
  assert (Hbump : ∀ key' en' lu', h_storage e !! key' = Some (en', Some lu') →
    ∃ lu'', <[key := (en, Some new)]> (h_storage e) !! key' = Some (en', Some lu'') ∧ lu' <= lu'').
  { intros key' en' lu' Hk'. destruct (decide (key = key')) as [<-|].
    - simplify_eq. eexists. rewrite lookup_insert_eq. split; [done|lia].
    - eexists. rewrite lookup_insert_ne by done. eauto with lia. }
  split_and!; [done| |].
  - destruct (Hbump _ _ _ Hi) as (lu2 & Hi2 & _). exists d, lu2, w. split_and!; [done|done|].
    destruct w as [h|]; [|done]. destruct Hw as (en' & lu' & Hc & Hle).
    destruct (Hbump _ _ _ Hc) as (lu3 & ? & ?). simpl. eauto with lia.
  - intros k' en' lu'. simpl. change (dkey (set_storage _ e)) with (dkey e).
    intros [[-> ?]|[_ Hw']]%lookup_insert_Some; [|by eapply Hl].
    simplify_eq. specialize (Hl _ _ _ He). simpl. lia.
Qed.
Lemma env_live_touch_key key th ext e : env_live e → env_live (touch_key key th ext e).
Proof. apply env_live_bump, touch_key_bump. Qed.
Lemma env_live_touch k th ext e : env_live e → env_live (touch k th ext e).
Proof. apply env_live_touch_key. Qed.
Lemma env_live_touch_instance th ext e : env_live e → env_live (touch_instance th ext e).
Proof.
  intros. unfold touch_instance. repeat case_match; auto using env_live_touch_key, env_live_touch.
Qed.
Lemma env_live_add_event t d e : env_live e → env_live (add_event t d e).
Proof. done. Qed.

#[export] Hint Resolve env_wf_set_data env_wf_remove_data env_wf_touch env_wf_touch_instance
  env_wf_add_event env_live_touch env_live_touch_instance env_live_add_event : env.
#[export] Hint Extern 1 (env_live (set_data _ _ _)) =>
  (apply env_live_set_data; [discriminate|]) : env.
#[export] Hint Extern 1 (env_live (remove_data _ _)) =>
  (apply env_live_remove_data; [discriminate|]) : env.

(** * What the host operations do *)
Section operations.
Context (X : External).

Definition archived (e : Env) (k : ScVal) : Prop :=
  ∃ en lu, h_storage e !! dkey e k = Some (en, Some lu) ∧ lu < sequence_number (h_ledger e).

Lemma archived_not_live e k : archived e k → ¬ env_live e.
Proof. intros (en & lu & He & Hlt) (_ & _ & Hl). specialize (Hl _ _ _ He). lia. Qed.

Lemma check_live_cases e k :
  check_if_entry_is_live (h_ledger e) (dkey e k) (h_storage e !! dkey e k) = Ok true ∨
  (archived e k ∧ check_if_entry_is_live (h_ledger e) (dkey e k) (h_storage e !! dkey e k)
                  = Err (EHost TStorage InternalError)).
Proof.
  unfold check_if_entry_is_live, archived.
  destruct (h_storage e !! dkey e k) as [[en [lu|]]|]; auto.
  case_decide; auto. right. split; [|done]. exists en, lu. split; [done|lia].
Qed.

Lemma try_get_cases e k :
  try_get_full_with_host (h_ledger e) (dkey e k) (h_storage e)
    = (Ok (h_storage e !! dkey e k), h_storage e) ∨
  (archived e k ∧ try_get_full_with_host (h_ledger e) (dkey e k) (h_storage e)
    = (Err (EHost TStorage InternalError), h_storage e)).
Proof.
  unfold try_get_full_with_host, m_bind; simpl. unfold m_bind, m_lift, m_get, m_ret; simpl.
  destruct (check_live_cases e k) as [-> | [? ->]]; auto.
Qed.

Lemma put_opt_cases e k val :
  match val with Some le => check_supported_ledger_entry_type le.1 = Ok tt | None => True end →
  put_opt_with_host (h_ledger e) (dkey e k) val (h_storage e)
    = (Ok tt, match val with
              | Some v => <[dkey e k := v]> (h_storage e)
              | None => delete (dkey e k) (h_storage e)
              end) ∨
  (archived e k ∧ put_opt_with_host (h_ledger e) (dkey e k) val (h_storage e)
    = (Err (EHost TStorage InternalError), h_storage e)).
Proof.
  intros Hty. unfold put_opt_with_host, m_bind, m_get, m_lift, m_ret; simpl.
  unfold m_bind, m_get, m_lift, m_ret, ledger_put_opt, m_bind, m_lift, m_modify; simpl.
  destruct (check_live_cases e k) as [-> | [? ->]]; [left|by right].
  destruct val as [le|]; [by rewrite Hty|done].
Qed.

Lemma min_live_cases li :
  get_min_live_until_ledger li Persistent = Ok (min_live_until li) ∨
  (¬ ledger_sane li ∧ ∃ x, get_min_live_until_ledger li Persistent = Err x).
Proof.
  unfold get_min_live_until_ledger, min_live_until_ledger_checked, u32_checked_add.
  case_decide as Hd; simpl; [by left|right]. split; [|eauto].
  intros (?&?&?&?&?&?). apply Hd. unfold u32_saturating_sub, clamp. lia.
Qed.

(** Every operation either has its described effect, or fails because the
    environment is not live. *)
Definition effect_or_dead {R} (o : op R) (e : Env) (r : R) (e' : Env) : Prop :=
  handle X o e = (Ok r, e') ∨ (¬ env_live e ∧ ∃ x e'', handle X o e = (Err x, e'')).

Ltac dead := right; split; [by eapply archived_not_live|eauto].

Lemma handle_has e k :
  env_wf e → effect_or_dead (OpHas k) e (bool_decide (is_Some (data e k))) e.
Proof.
  intros Hwf. unfold effect_or_dead; simpl. unfold on_storage, has_contract_data, has_with_host.
  fold (dkey e k). unfold m_bind.
  destruct (try_get_cases e k) as [-> | [Ha ->]]; [left|dead].
  simpl. destruct e; f_equal; f_equal. unfold data; simpl in *.
  destruct (_ !! _) as [w|] eqn:Hw; [|done]. by destruct (Hwf _ _ Hw) as (d & lu & ->).
Qed.

Lemma handle_get e k : env_wf e → effect_or_dead (OpGet k) e (data e k) e.
Proof.
  intros Hwf. unfold effect_or_dead; simpl.
  unfold on_storage, has_contract_data, has_with_host, get_contract_data, get_with_host.
  fold (dkey e k). unfold m_bind.
  destruct (try_get_cases e k) as [Hg | [Ha ->]]; [|dead]. rewrite Hg. simpl.
  destruct (h_storage e !! dkey e k) as [w|] eqn:Hw; simpl.
  - left. rewrite Hg. simpl. unfold m_lift. unfold data. rewrite Hw.
    destruct (Hwf _ _ Hw) as (d & lu & ->). by destruct e.
  - left. unfold data. rewrite Hw. by destruct e.
Qed.

Lemma handle_set e k v : env_wf e → effect_or_dead (OpSet k v) e tt (set_data k v e).
Proof.
  intros Hwf. unfold effect_or_dead; simpl.
  unfold on_storage, put_contract_data, has_with_host, get_with_live_until_ledger, put_with_host.
  fold (dkey e k). unfold m_bind.
  destruct (try_get_cases e k) as [Hg | [Ha ->]]; [|dead]. rewrite Hg. simpl.
  destruct (h_storage e !! dkey e k) as [w|] eqn:Hw; simpl.
  - rewrite Hg. simpl. destruct (Hwf _ _ Hw) as (d & lu & ->). simpl.
    edestruct (put_opt_cases e k) as [-> | [? ->]]; [done|left|dead].
    unfold set_data, put_entry. by rewrite Hw.
  - unfold m_lift. destruct (min_live_cases (h_ledger e)) as [-> | [Hs [x ->]]].
    + edestruct (put_opt_cases e k) as [-> | [? ->]]; [done|left|dead].
      unfold set_data, put_entry. by rewrite Hw.
    + right. split; [by intros [? _]|eauto].
Qed.

Lemma handle_remove e k : env_wf e → effect_or_dead (OpRemove k) e tt (remove_data k e).
Proof.
  intros Hwf. unfold effect_or_dead; simpl.
  unfold on_storage, del_contract_data, del_with_host. fold (dkey e k).
  destruct (put_opt_cases e k None) as [-> | [? ->]]; [done|by left|dead].
Qed.

Lemma target_cases li key ext :
  get_key_durability key = Some Persistent → ext <= TTL_EXTEND_TO →
  (∃ new, target_live_until li key ext = Ok new) ∨
  (¬ ledger_sane li ∧ ∃ x, target_live_until li key ext = Err x).
Proof.
  intros Hd Hext. unfold target_live_until, u32_checked_add.
  case_decide as H1; [|right; split; [intros (?&?&_); lia|eauto]].
  unfold max_live_until_ledger, max_live_until_ledger_checked, u32_checked_add.
  case_decide as H2; simpl.
  - rewrite Hd. case_decide; eauto.
  - right. split; [|eauto]. intros (?&?&?&?&_). apply H2.
    unfold u32_saturating_sub, clamp. lia.
Qed.

Lemma extend_ttl_cases (e : Env) key th ext en lu :
  check_supported_ledger_key_type key = Ok tt → get_key_durability key = Some Persistent →
  th <= ext → ext <= TTL_EXTEND_TO → h_storage e !! key = Some (en, Some lu) →
  extend_ttl (h_ledger e) key th ext (h_storage e)
    = (Ok tt, h_storage (touch_key key th ext e)) ∨
  ((lu < sequence_number (h_ledger e) ∨ ¬ ledger_sane (h_ledger e)) ∧
   ∃ x m, extend_ttl (h_ledger e) key th ext (h_storage e) = (Err x, m)).
Proof.
  intros Hsup Hdur Hth Hext Hk.
  unfold extend_ttl, get_with_live_until_ledger, try_get_full_with_host, m_bind; simpl.
  unfold m_bind, m_lift, m_get, m_ret, m_fail, m_modify; simpl. rewrite Hsup; simpl.
  rewrite decide_False by lia. rewrite Hk; simpl. rewrite Hdur.
  destruct (decide (sequence_number (h_ledger e) <= lu)); simpl; [|right; eauto with lia].
  rewrite decide_False by lia.
  destruct (target_cases (h_ledger e) key ext Hdur Hext) as [[new Hn]|[Hs [x Hn]]];
    rewrite Hn; [left|right; eauto].
  unfold touch_key. rewrite Hk, Hn. by case_decide.
Qed.

Lemma set_storage_touch_key key th ext (e : Env) :
  set_storage (h_storage (touch_key key th ext e)) e = touch_key key th ext e.
Proof.
  destruct (touch_key_cases key th ext e) as [-> | (?&?&?&?&?&?& ->)]; [by destruct e|done].
Qed.

Lemma set_storage_frame m key th ext (e : Env) :
  set_storage m (touch_key key th ext e) = set_storage m e.
Proof.
  by destruct (touch_key_cases key th ext e) as [-> | (?&?&?&?&?&?& ->)].
Qed.

Lemma handle_extend e k th ext :
  env_wf e → is_Some (data e k) → th <= ext → ext <= TTL_EXTEND_TO →
  effect_or_dead (OpExtendTtl k th ext) e tt (touch k th ext e).
Proof.
  intros Hwf [v Hv] Hth Hext. unfold effect_or_dead; simpl.
  unfold on_storage, extend_contract_data_ttl. fold (dkey e k).
  unfold data in Hv. destruct (h_storage e !! dkey e k) as [w|] eqn:Hw; [|done].
  destruct (Hwf _ _ Hw) as (d & lu & ->).
  destruct (extend_ttl_cases e (dkey e k) th ext (EContractData d) lu) as [-> | [Hd (x & m & ->)]];
    try done.
  - left. by rewrite set_storage_touch_key.
  - right. split; [|eauto]. intros (Hs & _ & Hl). specialize (Hl _ _ _ Hw).
    destruct Hd; [lia|done].
Qed.

Lemma handle_extend_instance e th ext :
  env_wf e → th <= ext → ext <= TTL_EXTEND_TO →
  env_live e →
  handle X (OpExtendInstance th ext) e = (Ok tt, touch_instance th ext e).
Proof.
  intros Hwf Hth Hext Hlive. pose proof Hlive as (Hs & (d & lu & w & Hi & Hd & Hw) & Hl).
  simpl. unfold on_storage, extend_current_contract_instance_and_code_ttl,
    extend_contract_code_ttl_from_contract_id, retrieve_contract_instance, get_with_host, m_bind,
    contract_code_ledger_key.
  set (k := ScLedgerKeyContractInstance).
  change (contract_instance_ledger_key (h_contract e)) with (dkey e k).
  destruct (extend_ttl_cases e (dkey e k) th ext _ _ eq_refl eq_refl Hth Hext Hi)
    as [-> | [[?|?] _]]; [|specialize (Hl _ _ _ Hi); lia|done].
  change (touch_key (dkey e k) th ext e) with (touch k th ext e).
  assert (Hl' := env_live_touch k th ext e Hlive).
  pose proof (touch_frame k th ext e) as (Hli & Hc & _).
  pose proof (try_get_cases (touch k th ext e) k) as Hg.
  rewrite Hli, (dkey_frame e) in Hg by apply touch_frame.
  destruct Hg as [-> | [Ha _]]; [|by apply archived_not_live in Ha].
  assert (∃ lu', h_storage (touch k th ext e) !! dkey e k = Some (EContractData d, Some lu'))
    as [lu' Hlk].
  { unfold touch. destruct (touch_key_cases (dkey e k) th ext e)
      as [-> | (en&old&new&He&_&_& ->)]; [by eauto|]. simpl.
    rewrite lookup_insert_eq. subst k. rewrite Hi in He. simplify_eq. eauto. }
  rewrite Hlk. simpl. rewrite Hd. simpl. unfold touch_instance. fold k.
  subst k. rewrite Hi, Hd.
  destruct w as [h|]; simpl; [|by unfold touch; rewrite set_storage_touch_key].
  destruct Hw as (en & lu1 & Hcode & Hle).
  set (e1 := touch ScLedgerKeyContractInstance th ext e) in *.
  assert (Hcode' : h_storage e1 !! KContractCode h = Some (en, Some lu1)).
  { subst e1. unfold touch. destruct (touch_key_cases (dkey e ScLedgerKeyContractInstance) th ext e)
      as [-> | (?&?&?&?&_&_& ->)]; [done|]. simpl. by rewrite lookup_insert_ne. }
  rewrite <-Hli.
  destruct (extend_ttl_cases e1 (KContractCode h) th ext _ _ eq_refl eq_refl Hth Hext Hcode')
    as [-> | [[?|?] _]]; [|rewrite Hli in *; lia|destruct Hl' as [? _]; done].
  f_equal. rewrite <-(set_storage_touch_key (KContractCode h) th ext e1).
  symmetry. apply set_storage_frame.
Qed.

Lemma try_get_state li key (m : gmap LedgerKey EntryWithLiveUntil) r m' :
  try_get_full_with_host li key m = (r, m') → m' = m ∧ ∀ v, r = Ok (Some v) → m !! key = Some v.
Proof.
  unfold try_get_full_with_host; simpl. unfold m_bind, m_lift, m_get, m_ret.
  destruct (check_supported_ledger_key_type key); [|by intros; simplify_eq].
  destruct (check_if_entry_is_live li key (m !! key)) as [[]|]; intros; simplify_eq; split; try done; by intros ? [= ->].
Qed.

Lemma get_live_state li key (m : gmap LedgerKey EntryWithLiveUntil) r m' :
  get_with_live_until_ledger li key m = (r, m') →
  m' = m ∧ ∀ v, r = Ok v → m !! key = Some v.
Proof.
  unfold get_with_live_until_ledger.
  intros [(o&m1&[-> H1]%try_get_state&H)|(e&[-> _]%try_get_state&->)]%m_bind_inv; [|done].
  unfold m_lift, ok_or in H. destruct o as [v|]; simplify_eq; split; try done.
  intros ? ?. simplify_eq. by apply H1.
Qed.

Lemma extend_ttl_shape li key th ext (m : gmap LedgerKey EntryWithLiveUntil) r m' :
  extend_ttl li key th ext m = (r, m') →
  m' = m ∨ ∃ en old new, m !! key = Some (en, Some old) ∧ old < new ∧
    m' = <[key := (en, Some new)]> m.
Proof.
  assert (Hlift : ∀ A (q : Result A) (m1 m2 : gmap LedgerKey EntryWithLiveUntil) a,
    m_lift q m1 = (a, m2) → m2 = m1) by (unfold m_lift; by intros; simplify_eq).
  unfold extend_ttl. intros H.
  apply m_bind_inv in H as [([]&m1&->%Hlift&H)|(?&->%Hlift&_)]; [|by left].
  apply m_bind_inv in H as [([]&m1&H1&H)|(?&H1&_)]; case_decide; inversion H1; subst; auto.
  apply m_bind_inv in H as [([en o]&m2&H2&H)|(?&H2&_)];
    apply get_live_state in H2 as [-> Hm2]; [|by left].
  apply m_bind_inv in H as [(old&m3&H3&H)|(?&->%Hlift&_)]; [|by left].
  pose proof (Hlift _ _ _ _ _ H3) as ->. unfold m_lift, ok_or in H3; simpl in H3.
  apply m_bind_inv in H as [([]&m4&H4&H)|(?&H4&_)]; case_decide; inversion H4; subst; auto.
  apply m_bind_inv in H as [(new&m5&->%Hlift&H)|(?&->%Hlift&_)]; [|by left].
  case_decide as Hd; [|inversion H; auto]. right.
  destruct o as [lu|]; simplify_eq. exists en, old, new.
  inversion H. split; [by apply Hm2|]. tauto.
Qed.

Lemma on_extend_bump li (key : LedgerKey) th ext (e : Env) r m' :
  extend_ttl li key th ext (h_storage e) = (r, m') → ttl_bump e (set_storage m' e).
Proof.
  intros [->|(en&old&new&?&?& ->)]%extend_ttl_shape; [left; by destruct e|right; eauto 10].
Qed.

(** Extending the instance only lengthens lifetimes, and fails only when the
    environment is not live. *)
Lemma handle_extend_instance_bump e th ext :
  env_wf e → th <= ext → ext <= TTL_EXTEND_TO →
  let '(r, e') := handle X (OpExtendInstance th ext) e in
  match r with
  | Ok _ => ∃ e1, ttl_bump e e1 ∧ ttl_bump e1 e'
  | Err _ => ¬ env_live e
  end.
Proof.
  intros Hwf Hth Hext.
  destruct (handle X (OpExtendInstance th ext) e) as [[[]|x] e'] eqn:Hh;
    [|by intros Hl; rewrite (handle_extend_instance e th ext) in Hh by done].
  simpl in Hh. unfold on_storage, extend_current_contract_instance_and_code_ttl,
    extend_contract_code_ttl_from_contract_id, retrieve_contract_instance, get_with_host, m_bind in Hh.
  destruct (extend_ttl _ _ th ext (h_storage e)) as [[[]|] m1] eqn:H1; [|done].
  exists (set_storage m1 e). split; [by eapply on_extend_bump|].
  destruct (try_get_full_with_host _ _ m1) as [[o|] m2] eqn:Hg; [|done].
  apply try_get_state in Hg as [-> _].
  unfold m_lift, m_ret in Hh.
  destruct o as [[[] ?]|]; simpl in Hh; try done.
  destruct (cde_val data0) as [| | | | | | | | | | | | |[h|]]; simpl in Hh; try done.
  - destruct (extend_ttl _ _ th ext m1) as [[[]|] m3] eqn:H3; [|done]. simplify_eq.
    by apply (on_extend_bump (h_ledger e) (contract_code_ledger_key h) th ext (set_storage m1 e) (Ok tt) m3).
  - simplify_eq. by left.
Qed.
End operations.

(** * Deployment

    A contract that deploys another writes the new contract's instance entry and
    nothing else, so its own data stay as they are. *)
Section deployment.
Context (X : External).

Abbreviation new_id e salt := (x_contract_id X (network_id (h_ledger e)) (Contract (h_contract e)) salt).

Lemma has_absent li key (m : gmap LedgerKey EntryWithLiveUntil) r m' :
  get_key_durability key = Some Persistent → has_with_host li key m = (r, m') →
  m' = m ∧ (r = Ok false → m !! key = None).
Proof.
  intros Hd. unfold has_with_host, try_get_full_with_host; simpl.
  unfold m_bind, m_lift, m_get, m_ret, check_if_entry_is_live. rewrite Hd.
  destruct (check_supported_ledger_key_type key); [|by intros; simplify_eq].
  destruct (m !! key) as [[en [lu|]]|] eqn:Hk; [case_decide| |]; intros; simplify_eq; done.
Qed.

Lemma put_instance_shape li id d lu (m : gmap LedgerKey EntryWithLiveUntil) m' :
  put_with_host li (contract_instance_ledger_key id) (EContractData d) lu m = (Ok tt, m') →
  m' = <[contract_instance_ledger_key id := (EContractData d, lu)]> m.
Proof.
  unfold put_with_host, put_opt_with_host, m_bind, m_get, m_lift, m_ret; simpl.
  unfold m_bind, m_get, m_lift, m_ret, ledger_put_opt, m_bind, m_lift, m_modify; simpl.
  destruct (check_if_entry_is_live _ _ _); intros; by simplify_eq.
Qed.

(** A successful deployment adds an instance entry that was not there. *)
Lemma handle_deploy_ok salt w e a e' :
  handle X (OpDeploy salt w) e = (Ok a, e') →
  let key := contract_instance_ledger_key (new_id e salt) in
  a = Contract (new_id e salt) ∧ h_storage e !! key = None ∧
  ∃ d lu, e' = set_storage (<[key := (EContractData d, Some lu)]> (h_storage e)) e.
Proof.
  intros Hh key. simpl in Hh. unfold on_storage, create_contract in Hh. fold key in Hh.
  set (id := new_id e salt) in *.
  destruct (m_bind _ _ (h_storage e)) as [r m] eqn:Hc; simplify_eq.
  apply m_bind_inv in Hc as [([]&m1&Hc&Hr)|(?&_&?)]; [|done].
  apply m_bind_inv in Hr as [([]&m2&Hx&Hr)|(?&_&?)]; [|done].
  unfold m_lift, m_ret in Hx, Hr. simplify_eq. split; [done|].
  unfold create_contract_with_id in Hc. fold key in Hc.
  apply m_bind_inv in Hc as [(b&m3&Hb&Hc)|(?&_&?)]; [|done].
  apply has_absent in Hb as [-> Habs]; [|done].
  apply m_bind_inv in Hc as [([]&m3&Hb&Hc)|(?&_&?)]; [|done].
  destruct b; [done|]. unfold m_ret in Hb. simplify_eq. specialize (Habs eq_refl).
  apply m_bind_inv in Hc as [(c&m3&Hw&Hc)|(?&_&?)]; [|done].
  apply has_absent in Hw as [-> _]; [|done].
  apply m_bind_inv in Hc as [([]&m3&Hb&Hc)|(?&_&?)]; [|done].
  destruct c; [|done]. simpl in Hb. unfold m_ret in Hb. simplify_eq.
  unfold store_contract_instance in Hc.
  apply m_bind_inv in Hc as [(b&m2&Hb&Hc)|(?&_&?)]; [|done].
  assert (Hf : b = false).
  { unfold has_with_host, try_get_full_with_host in Hb; simpl in Hb.
    unfold m_bind, m_lift, m_get, m_ret in Hb; simpl in Hb. fold key in Hb. rewrite Habs in Hb.
    simpl in Hb. by simplify_eq. }
  apply has_absent in Hb as [-> _]; [|done]. subst b.
  apply m_bind_inv in Hc as [(lu&m3&Hlu&Hc)|(?&_&?)]; [|done].
  unfold m_lift in Hlu. simplify_eq. apply put_instance_shape in Hc as ->. eauto.
Qed.
(** What the deployer keeps: its frame, its events and its own data. *)
Lemma handle_deploy_keeps salt w e a e' :
  handle X (OpDeploy salt w) e = (Ok a, e') →
  same_frame e e' ∧ h_events e' = h_events e ∧
  (∀ k, k ≠ ScLedgerKeyContractInstance → data e' k = data e k) ∧
  (env_wf e → env_wf e') ∧ (env_live e → env_live e').
Proof.
  intros (_ & Hnone & d & lu & ->)%handle_deploy_ok.
  set (key := contract_instance_ledger_key _) in *. split_and!; [done|done| | |].
  - intros k Hk. unfold data; simpl. rewrite lookup_insert_ne; [done|].
    unfold dkey, storage_key, contract_instance_ledger_key in *. subst key. congruence.
  - intros Hwf k v. simpl. intros [[_ <-]|[_ Hv]]%lookup_insert_Some; [by eauto|by eapply Hwf].
  - intros (Hs & (d0 & lu0 & w0 & Hi & Hd & Hw) & Hl).
    assert (Hne : ∀ k v, h_storage e !! dkey e k = Some v → key ≠ dkey e k) by congruence.
    split_and!; [done| |].
    + exists d0, lu0, w0. simpl. rewrite lookup_insert_ne by eauto. split_and!; [done|done|].
      destruct w0 as [h|]; [|done]. destruct Hw as (en & lu1 & Hc & Hle). exists en, lu1.
      by rewrite lookup_insert_ne.
    + intros k en lu1. simpl. change (dkey (set_storage _ e) k) with (dkey e k).
      destruct (decide (key = dkey e k)) as [Heq|Hk].
      * exfalso. unfold dkey, storage_key in Heq. subst key.
        unfold contract_instance_ledger_key in Heq. injection Heq as Hid Hk.
        subst k. unfold contract_instance_ledger_key in Hnone. rewrite Hid in Hnone.
        change (h_storage e !! dkey e ScLedgerKeyContractInstance = None) in Hnone. congruence.
      * rewrite lookup_insert_ne by done. apply Hl.
Qed.

(** The outcome of a deployment is decided by two entries, the instance at the new
    address and the code, and by the constructor. *)
Definition deploy_result (e : Env) (salt w : Hash) : Result ScAddress :=
  let key := contract_instance_ledger_key (new_id e salt) in
  let code := contract_code_ledger_key w in
  _ ← check_if_entry_is_live (h_ledger e) key (h_storage e !! key);
  if bool_decide (is_Some (h_storage e !! key)) then Err (EHost TStorage ExistingValue)
  else
    _ ← check_if_entry_is_live (h_ledger e) code (h_storage e !! code);
    if bool_decide (is_Some (h_storage e !! code)) then
      _ ← get_min_live_until_ledger (h_ledger e) Persistent;
      _ ← x_constructor X (new_id e salt) w;
      Ok (Contract (new_id e salt))
    else Err (EHost TStorage MissingValue).

Lemma has_persistent li key (m : gmap LedgerKey EntryWithLiveUntil) :
  get_key_durability key = Some Persistent → check_supported_ledger_key_type key = Ok tt →
  has_with_host li key m =
    ((λ _, bool_decide (is_Some (m !! key))) <$> check_if_entry_is_live li key (m !! key), m).
Proof.
  intros Hd Hs. unfold has_with_host, try_get_full_with_host; simpl.
  unfold m_bind, m_lift, m_get, m_ret, check_if_entry_is_live. rewrite Hs, Hd.
  destruct (m !! key) as [[en [lu|]]|] eqn:Hk; [case_decide| |]; done.
Qed.

Lemma handle_deploy_result salt w e : (handle X (OpDeploy salt w) e).1 = deploy_result e salt w.
Proof.
  simpl. unfold on_storage, create_contract, create_contract_with_id, store_contract_instance,
    wasm_exists, deploy_result.
  set (id := new_id e salt). set (key := contract_instance_ledger_key id).
  set (code := contract_code_ledger_key w). set (m := h_storage e). set (li := h_ledger e).
  unfold m_bind at 1 2. unfold m_bind at 1. rewrite (has_persistent li key m) by done.
  destruct (check_if_entry_is_live li key (m !! key)) as [[]|] eqn:Hl; simpl; try done;
    destruct (m !! key) eqn:Hk; simpl; try done.
  unfold m_bind at 1. unfold m_bind at 1. rewrite (has_persistent li code m) by done.
  destruct (check_if_entry_is_live li code (m !! code)) as [?|]; simpl; [|done].
  destruct (bool_decide (is_Some (m !! code))); simpl; [|done].
  unfold m_bind at 1, m_ret at 1. unfold m_bind at 1. rewrite (has_persistent li key m) by done.
  rewrite Hk, Hl. simpl. unfold m_bind, m_lift at 1.
  destruct (get_min_live_until_ledger li Persistent); simpl; [|done].
  unfold put_with_host, put_opt_with_host, m_bind, m_get, m_lift, m_ret; simpl.
  unfold m_bind, m_get, m_lift, m_ret, ledger_put_opt, m_bind, m_lift, m_modify; simpl.
  rewrite Hk, Hl. by destruct (x_constructor X id w).
Qed.

Lemma deploy_result_local salt w e e' :
  h_ledger e' = h_ledger e → h_contract e' = h_contract e →
  (∀ key, (∀ k, k ≠ ScLedgerKeyContractInstance → key ≠ dkey e k) →
    h_storage e' !! key = h_storage e !! key) →
  deploy_result e' salt w = deploy_result e salt w.
Proof.
  intros Hli Hc Hk. unfold deploy_result. rewrite Hli, Hc, !Hk; [done|done|].
  intros k Hne. unfold dkey, storage_key, contract_instance_ledger_key. congruence.
Qed.
End deployment.

(** ** Programs that only read and renew

    They leave every entry but the contract's own data as it was. *)
Section calm.
Context (X : External).

Definition calm_op {R} (o : op R) : Prop :=
  match o with
  | OpSet _ _ | OpRemove _ | OpDeploy _ _ | OpExtendInstance _ _ => False
  | OpExtendTtl k _ _ => k ≠ ScLedgerKeyContractInstance
  | _ => True
  end.

Inductive calm {A} : prog A → Prop :=
| calm_ret a : calm (Ret a)
| calm_fail x : calm (Fail x)
| calm_vis R (o : op R) k : calm_op o → (∀ r, calm (k r)) → calm (Vis o k).

Lemma calm_bind {A B} (p : prog A) (f : A → prog B) :
  calm p → (∀ a, calm (f a)) → calm (p ≫= f).
Proof. intros Hp Hf. induction Hp; simpl; [apply Hf|constructor|by constructor]. Qed.

Definition only_own (e e' : Env) : Prop :=
  h_ledger e' = h_ledger e ∧ h_contract e' = h_contract e ∧
  ∀ key, (∀ k, k ≠ ScLedgerKeyContractInstance → key ≠ dkey e k) →
    h_storage e' !! key = h_storage e !! key.

Lemma only_own_trans e1 e2 e3 : only_own e1 e2 → only_own e2 e3 → only_own e1 e3.
Proof.
  intros (?&Hc&H12) (?&?&H23). split_and!; [congruence|congruence|].
  intros key Hk. rewrite H23; [by apply H12|]. intros k. unfold dkey. rewrite Hc. apply Hk.
Qed.

Lemma run_calm {A} (p : prog A) e : calm p → only_own e (run X p e).2.
Proof.
  intros Hp. revert e. induction Hp as [a|x|R o k Ho Hk IH]; intros e; simpl; try done.
  assert (Hread : ∀ B (q : LedgerInfo → Hash → M LedgerMap B),
    (q (h_ledger e) (h_contract e) (h_storage e)).2 = h_storage e → only_own e (on_storage q e).2).
  { intros B q Hq. unfold on_storage. destruct (q _ _ _) as [r m]. simpl in *. by subst. }
  assert (only_own e (handle X o e).2) as He.
  { destruct o; simpl in Ho; try done; simpl; [apply Hread|apply Hread|].
    - unfold has_contract_data. by rewrite has_persistent.
    - unfold has_contract_data, m_bind at 1. rewrite has_persistent by done.
      destruct (check_if_entry_is_live _ _ _); simpl; [|done].
      case_bool_decide; [|done]. unfold get_contract_data, m_bind, m_ret, m_fail.
      destruct (get_with_host _ _ _) as [r m] eqn:Hg. unfold get_with_host in Hg.
      apply m_bind_inv in Hg as [(o&m1&[-> _]%try_get_state&Hg)|(?&[-> _]%try_get_state&->)];
        [|done]. unfold m_lift in Hg. simplify_eq. repeat case_match; by simplify_eq.
    - unfold on_storage, extend_contract_data_ttl. destruct (extend_ttl _ _ _ _ _) as [r m] eqn:Hx.
      apply extend_ttl_shape in Hx as [->|(en&old&new&_&_&->)]; [done|].
      split_and!; [done|done|]. intros key Hkey. simpl. rewrite lookup_insert_ne; [done|].
      intros <-. by apply (Hkey k0 Ho). }
  unfold m_bind. destruct (handle X o e) as [[r|x] e1]; simpl in *; [|done].
  eapply only_own_trans; [exact He|apply IH].
Qed.
End calm.

(** ** Entries of others

    Nothing a contract does removes an entry that is not its own data. *)
Section keeps.
Context (X : External).

Definition keeps (key : LedgerKey) {A} (p : M LedgerMap A) : Prop :=
  ∀ m, is_Some (m !! key) → is_Some ((p m).2 !! key).

Lemma keeps_ret key {A} (a : A) : keeps key (m_ret a).
Proof. by intros m. Qed.
Lemma keeps_fail key {A} x : keeps (A := A) key (m_fail x).
Proof. by intros m. Qed.
Lemma keeps_lift key {A} (r : Result A) : keeps key (m_lift r).
Proof. by intros m. Qed.
Lemma keeps_get key : keeps key m_get.
Proof. by intros m. Qed.
Lemma keeps_bind key {A B} (p : M LedgerMap A) (f : A → M LedgerMap B) :
  keeps key p → (∀ a, keeps key (f a)) → keeps key (m_bind p f).
Proof.
  intros Hp Hf m Hm. specialize (Hp m Hm). unfold m_bind.
  destruct (p m) as [[a|x] m1]; [by apply Hf|done].
Qed.
Lemma keeps_put key key' v : (v = None → key' ≠ key) → keeps key (ledger_put_opt key' v).
Proof.
  intros Hne. unfold ledger_put_opt. apply keeps_bind; [apply keeps_lift|intros ?].
  apply keeps_bind; [destruct v; [apply keeps_lift|apply keeps_ret]|intros ?].
  intros m Hm. unfold m_modify. cbn [snd]. destruct v as [v|].
  - destruct (decide (key' = key)) as [->|]; [by rewrite lookup_insert_eq|by rewrite lookup_insert_ne].
  - rewrite lookup_delete_ne by auto. done.
Qed.
Lemma keeps_extend_ttl key li key' th ext : keeps key (extend_ttl li key' th ext).
Proof.
  intros m Hm. destruct (extend_ttl li key' th ext m) as [r m'] eqn:Hx. simpl.
  apply extend_ttl_shape in Hx as [->|(en&old&new&_&_&->)]; [done|].
  destruct (decide (key' = key)) as [->|]; [by rewrite lookup_insert_eq|by rewrite lookup_insert_ne].
Qed.

Ltac keeps_step :=
  first [ apply keeps_ret | apply keeps_fail | apply keeps_lift | apply keeps_get
        | apply keeps_extend_ttl | apply keeps_put; intros; done
        | apply keeps_bind; [|intros ?] | case_match ].

Lemma keeps_try_get key li key' : keeps key (try_get_full_with_host li key').
Proof. unfold try_get_full_with_host; simpl. repeat keeps_step. Qed.

Lemma keeps_put_opt key li key' v :
  (v = None → key' ≠ key) → keeps key (put_opt_with_host li key' v).
Proof.
  intros Hne. unfold put_opt_with_host; simpl.
  repeat first [by apply keeps_put|keeps_step].
Qed.

Lemma keeps_handle key {R} (o : op R) (e : Env) :
  (∀ k, key ≠ dkey e k) → is_Some (h_storage e !! key) →
  is_Some (h_storage (handle X o e).2 !! key).
Proof.
  intros Hown. assert (∀ A (q : LedgerInfo → Hash → M LedgerMap A),
    keeps key (q (h_ledger e) (h_contract e)) → is_Some (h_storage e !! key) →
    is_Some (h_storage (on_storage q e).2 !! key)) as Hst.
  { intros A q Hq Hk. unfold on_storage. specialize (Hq _ Hk). by destruct (q _ _ _). }
  destruct o; simpl; try done; apply Hst;
    unfold has_contract_data, get_contract_data, put_contract_data, del_contract_data,
      del_with_host, put_with_host, get_with_host, has_with_host, get_with_live_until_ledger,
      extend_contract_data_ttl, extend_current_contract_instance_and_code_ttl,
      extend_contract_code_ttl_from_contract_id, retrieve_contract_instance, create_contract,
      create_contract_with_id, store_contract_instance, wasm_exists, has_with_host,
      get_with_live_until_ledger, put_with_host;
    repeat first [ apply keeps_try_get
                 | apply keeps_put_opt; first [done|intros _; apply not_eq_sym, Hown]
                 | keeps_step ].
Qed.

Lemma keeps_run key {A} (p : prog A) (e : Env) :
  (∀ k, key ≠ dkey e k) → is_Some (h_storage e !! key) →
  is_Some (h_storage (run X p e).2 !! key).
Proof.
  revert e. induction p as [a|x|R o k IH]; intros e Hown Hk; simpl; [done|done|].
  pose proof (handle_in_frame X o e) as (_ & Hc & _). pose proof (keeps_handle key o e Hown Hk) as Hk'.
  unfold m_bind. destruct (handle X o e) as [[r|x] e1]; simpl in *; [|done].
  apply IH; [|done]. intros k'. unfold dkey. rewrite Hc. apply Hown.
Qed.
End keeps.

(** * Weakest preconditions

    [wp p Q E e]: from [e], [p] ends in a result and environment satisfying [Q],
    or in an error satisfying [E]. *)
Section wp.
Context (X : External).

Definition wp {A} (p : prog A) (Q : A → Env → Prop) (E : Error → Prop) (e : Env) : Prop :=
  match run X p e with
  | (Ok a, e') => Q a e'
  | (Err x, _) => E x
  end.

Lemma wp_ret {A} (a : A) Q E e : Q a e → wp (Ret a) Q E e.
Proof. done. Qed.

Lemma wp_fail {A} x (Q : A → Env → Prop) (E : Error → Prop) e : E x → wp (Fail x) Q E e.
Proof. done. Qed.

Lemma wp_bind {A B} (p : prog A) (f : A → prog B) Q E e :
  wp p (λ a e', wp (f a) Q E e') E e → wp (p ≫= f) Q E e.
Proof.
  unfold wp. rewrite run_bind. unfold m_bind. by destruct (run X p e) as [[a|x] e'].
Qed.

Lemma wp_mono {A} (p : prog A) (Q Q' : A → Env → Prop) (E E' : Error → Prop) e :
  wp p Q E e → (∀ a e', Q a e' → Q' a e') → (∀ x, E x → E' x) → wp p Q' E' e.
Proof. unfold wp. destruct (run X p e) as [[a|x] e']; eauto. Qed.

Lemma wp_effect {R} (o : op R) e r e' Q (E : Error → Prop) :
  effect_or_dead X o e r e' → (¬ env_live e → ∀ x, E x) → Q r e' → wp (trigger o) Q E e.
Proof.
  unfold wp, trigger; simpl. unfold m_bind, m_ret.
  intros [-> | [Hd (x & e'' & ->)]] HE HQ; auto.
Qed.

Lemma wp_has k Q E e :
  env_wf e → (¬ env_live e → ∀ x, E x) →
  Q (bool_decide (is_Some (data e k))) e → wp (has k) Q E e.
Proof. intros. eapply wp_effect; eauto using handle_has. Qed.

Lemma wp_get {T} (c : codec T) k o (Q : option T → Env → Prop) E e :
  env_wf e → data e k = enc c <$> o → (¬ env_live e → ∀ x, E x) →
  Q o e → wp (get c k) Q E e.
Proof.
  intros Hwf Hd HE HQ. apply wp_bind. eapply wp_effect; [by apply handle_get|done|].
  rewrite Hd. destruct o as [x|]; simpl; [|done]. by rewrite dec_enc.
Qed.

Lemma wp_set {T} (c : codec T) k x Q E e :
  env_wf e → (¬ env_live e → ∀ x, E x) →
  Q tt (set_data k (enc c x) e) → wp (set c k x) Q E e.
Proof. intros. eapply wp_effect; eauto using handle_set. Qed.

Lemma wp_remove k Q E e :
  env_wf e → (¬ env_live e → ∀ x, E x) →
  Q tt (remove_data k e) → wp (remove k) Q E e.
Proof. intros. eapply wp_effect; eauto using handle_remove. Qed.

Lemma wp_extend k th ext Q E e :
  env_wf e → is_Some (data e k) → th <= ext → ext <= TTL_EXTEND_TO →
  (¬ env_live e → ∀ x, E x) → Q tt (touch k th ext e) → wp (extend_ttl_of k th ext) Q E e.
Proof. intros. eapply wp_effect; eauto using handle_extend. Qed.

(** What a TTL operation changes is visible to no other. *)
Lemma ttl_bump_same e e' :
  ttl_bump e e' → same_frame e e' ∧ h_events e' = h_events e ∧ ∀ k, data e' k = data e k.
Proof.
  intros Hb. split_and!; [| |intros; by apply data_bump];
    by destruct Hb as [->|(?&?&?&?&?&?& ->)].
Qed.

Lemma wp_extend_instance th ext (Q : unit → Env → Prop) E e :
  env_wf e → th <= ext → ext <= TTL_EXTEND_TO → (¬ env_live e → ∀ x, E x) →
  (∀ e', same_frame e e' → h_events e' = h_events e → (∀ k, data e' k = data e k) →
    env_wf e' → (env_live e → env_live e') → Q tt e') →
  wp (extend_instance_ttl th ext) Q E e.
Proof.
  intros Hwf Hth Hext HE HQ.
  pose proof (handle_extend_instance_bump X e th ext Hwf Hth Hext) as Hh.
  unfold wp, extend_instance_ttl, trigger, run, m_bind.
  destruct (handle X _ e) as [[[]|x] e'].
  - destruct Hh as (e1 & H1 & H2). simpl.
    destruct (ttl_bump_same _ _ H1) as (?&?&Hd1), (ttl_bump_same _ _ H2) as (?&?&Hd2).
    apply HQ; eauto using env_wf_bump, env_live_bump.
    + by etrans.
    + congruence.
    + intros k. by rewrite Hd2.
  - by apply HE.
Qed.

Lemma wp_assoc {A B C} (p : prog A) (f : A → prog B) (g : B → prog C) Q E e :
  wp (p ≫= λ a, f a ≫= g) Q E e → wp ((p ≫= f) ≫= g) Q E e.
Proof.
  unfold wp. rewrite !run_bind. unfold m_bind. rewrite run_bind. unfold m_bind.
  destruct (run X p e) as [[a|x] e']; [|done]. by rewrite run_bind.
Qed.

Lemma wp_auth a Q (E : Error → Prop) e :
  (a ∈ h_auths e → Q tt e) → (a ∉ h_auths e → E (EHost TAuth InvalidAction)) →
  wp (require_auth a) Q E e.
Proof.
  unfold wp, require_auth, trigger; simpl. unfold m_bind, m_ret.
  intros. case_decide; simpl; auto.
Qed.

Lemma wp_publish t d Q (E : Error → Prop) e : Q tt (add_event t d e) → wp (publish t d) Q E e.
Proof. done. Qed.

Lemma wp_timestamp Q (E : Error → Prop) e :
  Q (timestamp (h_ledger e)) e → wp ledger_timestamp Q E e.
Proof. done. Qed.

Lemma wp_current_contract Q (E : Error → Prop) e :
  Q (Contract (h_contract e)) e → wp current_contract Q E e.
Proof. done. Qed.

Lemma wp_sha256 v Q (E : Error → Prop) e :
  Q (x_sha256 X (x_to_xdr X v)) e → wp (sha256_xdr v) Q E e.
Proof. done. Qed.

Lemma wp_panic_if b msg Q (E : Error → Prop) e :
  (b = true → E (EPanic msg)) → (b = false → Q tt e) → wp (panic_if b msg) Q E e.
Proof. destruct b; intros HE HQ; [by apply HE|by apply HQ]. Qed.

Lemma wp_u32_add a b Q (E : Error → Prop) e :
  (a + b <= u32_max → Q (a + b) e) →
  (u32_max < a + b → E (EPanic "attempt to add with overflow")) → wp (u32_add a b) Q E e.
Proof. unfold u32_add. case_decide; intros HQ HE; [by apply HQ|apply HE; lia]. Qed.
End wp.
