(* ===== verification/AuthTree.v ===== *)
(** Authorization trees, [auth.rs]: what an address can authorize, the tree of
    invocations it signed, the walk to the node matched last, and snapshots of what
    can change in it.  Host objects are their contents, so two functions compare
    equal when their contents are; metering is left out. *)
From S2P Require Import Prelude ScVal Storage.
#[local] Open Scope m_scope.

(** * What can be authorized *)

Inductive ContractIdPreimage :=
| PreimageAddress (address : ScAddress) (salt : N)
| PreimageAsset (asset : Asset).
Inductive ContractExecutable := Wasm (hash : Hash) | StellarAsset.
Record CreateContractArgs := mkCreateArgs {
  v1_preimage : ContractIdPreimage;
  v1_executable : ContractExecutable
}.
Record CreateContractArgsV2 := mkCreateArgsV2 {
  contract_id_preimage : ContractIdPreimage;
  executable : ContractExecutable;
  constructor_args : list ScVal
}.

Record ContractFunction := mkContractFunction {
  cf_address : ScAddress;
  cf_name : string;
  cf_args : list ScVal
}.

Inductive AuthorizedFunction :=
| ContractFn (f : ContractFunction)
| CreateContractHostFn (args : CreateContractArgsV2).

#[export] Instance ContractIdPreimage_eq_dec : EqDecision ContractIdPreimage.
Proof. solve_decision. Defined.
#[export] Instance ContractExecutable_eq_dec : EqDecision ContractExecutable.
Proof. solve_decision. Defined.
#[export] Instance CreateContractArgsV2_eq_dec : EqDecision CreateContractArgsV2.
Proof. solve_decision. Defined.
#[export] Instance ContractFunction_eq_dec : EqDecision ContractFunction.
Proof. solve_decision. Defined.
#[export] Instance AuthorizedFunction_eq_dec : EqDecision AuthorizedFunction.
Proof. solve_decision. Defined.

(** The frames authorization knows about. *)
Record ContractInvocation := mkContractInvocation {
  ci_address : ScAddress;
  ci_name : string
}.
Inductive AuthStackFrame :=
| FrameContract (i : ContractInvocation)
| FrameCreateContract (args : CreateContractArgsV2).

Definition to_authorized_function (frame : AuthStackFrame) (args : list ScVal) : AuthorizedFunction :=
  match frame with
  | FrameContract i => ContractFn (mkContractFunction (ci_address i) (ci_name i) args)
  | FrameCreateContract a => CreateContractHostFn a
  end.

(** * Trees *)

(** [is_exhausted]: the invocation has been used; it authorizes nothing more. *)
Inductive AuthorizedInvocation :=
| mkInvocation (function : AuthorizedFunction) (sub_invocations : list AuthorizedInvocation)
    (is_exhausted : bool).

Definition function (i : AuthorizedInvocation) : AuthorizedFunction :=
  let '(mkInvocation f _ _) := i in f.
Definition sub_invocations (i : AuthorizedInvocation) : list AuthorizedInvocation :=
  let '(mkInvocation _ l _) := i in l.
Definition is_exhausted (i : AuthorizedInvocation) : bool :=
  let '(mkInvocation _ _ e) := i in e.
Definition set_sub_invocations (l : list AuthorizedInvocation) (i : AuthorizedInvocation) :=
  let '(mkInvocation f _ e) := i in mkInvocation f l e.
Definition set_exhausted (e : bool) (i : AuthorizedInvocation) :=
  let '(mkInvocation f l _) := i in mkInvocation f l e.

Definition invocation_new (f : AuthorizedFunction) (subs : list AuthorizedInvocation) :
    AuthorizedInvocation := mkInvocation f subs false.

(** Induction over the sub-invocations. *)
Section invocation_ind.
Context (P : AuthorizedInvocation → Prop).
Context (H : ∀ f subs e, Forall P subs → P (mkInvocation f subs e)).
Fixpoint invocation_nested_ind (i : AuthorizedInvocation) : P i :=
  let '(mkInvocation f subs e) := i in
  H f subs e ((fix go l : Forall P l :=
    match l with
    | [] => List.Forall_nil P
    | x :: l => List.Forall_cons P x l (invocation_nested_ind x) (go l)
    end) subs).
End invocation_ind.

(** * The signed form *)

Inductive SorobanAuthorizedFunction :=
| XContractFn (f : ContractFunction)
| XCreateContractHostFn (args : CreateContractArgs)
| XCreateContractV2HostFn (args : CreateContractArgsV2).

Inductive SorobanAuthorizedInvocation :=
| XInvocation (function : SorobanAuthorizedFunction)
    (sub_invocations : list SorobanAuthorizedInvocation).

Definition function_from_xdr (xdr_fn : SorobanAuthorizedFunction) : AuthorizedFunction :=
  match xdr_fn with
  | XContractFn f => ContractFn f
  | XCreateContractHostFn a => CreateContractHostFn (mkCreateArgsV2 (v1_preimage a) (v1_executable a) [])
  | XCreateContractV2HostFn a => CreateContractHostFn a
  end.

Definition function_to_xdr (f : AuthorizedFunction) : SorobanAuthorizedFunction :=
  match f with
  | ContractFn f => XContractFn f
  | CreateContractHostFn a => XCreateContractV2HostFn a
  end.

Fixpoint invocation_from_xdr (x : SorobanAuthorizedInvocation) : AuthorizedInvocation :=
  let '(XInvocation f subs) := x in
  mkInvocation (function_from_xdr f) (invocation_from_xdr <$> subs) false.

Fixpoint invocation_to_xdr (exhausted_sub_invocations_only : bool) (i : AuthorizedInvocation) :
    SorobanAuthorizedInvocation :=
  let '(mkInvocation f subs _) := i in
  XInvocation (function_to_xdr f)
    ((fix go l := match l with
      | [] => []
      | s :: l =>
          if is_exhausted s || negb exhausted_sub_invocations_only
          then invocation_to_xdr exhausted_sub_invocations_only s :: go l else go l
      end) subs).

(** * Walking to the node matched last *)

Inductive MatchState := Unmatched | RootMatch | SubMatch (index_in_parent : nat).
#[export] Instance MatchState_eq_dec : EqDecision MatchState.
Proof. solve_decision. Defined.

Definition is_matched (m : MatchState) : bool := bool_decide (m ≠ Unmatched).

(** [AuthorizedInvocation::last_authorized_invocation_mut]: [match_stack] is the
    stack from the frame after the one of this node on; the code working on the node
    it returns is [p]. *)
Fixpoint at_last_authorized_sub {A} (match_stack : list MatchState)
    (p : M AuthorizedInvocation A) : M AuthorizedInvocation A :=
  match match_stack with
  | [] => p
  | SubMatch i :: rest => λ inv,
      match sub_invocations inv !! i with
      | Some sub =>
          let '(r, sub') := at_last_authorized_sub rest p sub in
          (r, set_sub_invocations (<[i := sub']> (sub_invocations inv)) inv)
      | None => (Err (EHost TAuth InternalError), inv)
      end
  | RootMatch :: _ => m_fail (EHost TAuth InternalError)
  | Unmatched :: rest => at_last_authorized_sub rest p
  end.

(** [InvocationTracker::last_authorized_invocation_mut], the same from the root;
    [None] if the root is not matched by any frame of the stack. *)
Fixpoint at_last_authorized {A} (match_stack : list MatchState)
    (p : M AuthorizedInvocation A) : M AuthorizedInvocation (option A) :=
  match match_stack with
  | [] => m_ret None
  | RootMatch :: rest => let* a := at_last_authorized_sub rest p in m_ret (Some a)
  | SubMatch _ :: _ => m_fail (EHost TAuth InternalError)
  | Unmatched :: rest => at_last_authorized rest p
  end.

(** The loop of [maybe_extend_invocation_match]: the first unused sub-invocation of
    the function is used up. *)
Definition match_sub_invocation (f : AuthorizedFunction) : M AuthorizedInvocation MatchState := λ i,
  match list_find (λ s, is_exhausted s = false ∧ function s = f) (sub_invocations i) with
  | Some (index_in_parent, s) =>
      (Ok (SubMatch index_in_parent),
       set_sub_invocations (<[index_in_parent := set_exhausted true s]> (sub_invocations i)) i)
  | None => (Ok Unmatched, i)
  end.

(** * Snapshots *)

Inductive AuthorizedInvocationSnapshot :=
| mkInvocationSnapshot (is_exhausted : bool) (sub_invocations : list AuthorizedInvocationSnapshot).

Fixpoint invocation_snapshot (i : AuthorizedInvocation) : AuthorizedInvocationSnapshot :=
  let '(mkInvocation _ subs e) := i in
  mkInvocationSnapshot e (invocation_snapshot <$> subs).

Fixpoint invocation_rollback (snapshot : AuthorizedInvocationSnapshot) :
    M AuthorizedInvocation unit :=
  let '(mkInvocationSnapshot e snapshots) := snapshot in
  m_modify (set_exhausted e) ;;;
  let* i := m_get in
  if decide (length (sub_invocations i) = length snapshots) then
    m_zoom sub_invocations set_sub_invocations (m_zip (invocation_rollback <$> snapshots))
  else m_fail (EHost TAuth InternalError).
