(* ===== verification/AccountAuth.v ===== *)
(** Authentication of an address, [builtin_contracts/account_contract.rs]: a classic
    account by the weight of its signers, a contract account by its [__check_auth].
    Byte strings of fixed length are numbers; running a contract's [__check_auth] and
    checking an Ed25519 signature are parameters, as is the ledger store. *)
From S2P Require Import Prelude ScVal Storage AuthTree.
#[local] Open Scope m_scope.

Definition MAX_ACCOUNT_SIGNATURES : nat := 20.

(** The errors of built-in contracts, [builtin_contracts/contract_error.rs]; the source's
    [InternalError] is [ContractInternalError] here. *)
Inductive ContractError :=
| ContractInternalError
| OperationNotSupportedError
| AlreadyInitializedError
| UnauthorizedError
| AuthenticationError
| AccountMissingError
| AccountIsNotClassic
| NegativeAmountError
| AllowanceError
| BalanceError
| BalanceDeauthorizedError
| OverflowError
| TrustlineMissingError.

Definition contract_error_code (err : ContractError) : Z :=
  match err with
  | ContractInternalError => 1
  | OperationNotSupportedError => 2
  | AlreadyInitializedError => 3
  | UnauthorizedError => 4
  | AuthenticationError => 5
  | AccountMissingError => 6
  | AccountIsNotClassic => 7
  | NegativeAmountError => 8
  | AllowanceError => 9
  | BalanceError => 10
  | BalanceDeauthorizedError => 11
  | OverflowError => 12
  | TrustlineMissingError => 13
  end.

Coercion contract_error (err : ContractError) : Error := EContract (contract_error_code err).

Record AccountEd25519Signature := mkSignature { public_key : N; signature : N }.

(** Reading a signature from a value, a map with the fields of the struct. *)
Definition signature_of_val (v : ScVal) : option AccountEd25519Signature :=
  match v with
  | ScMap [(k1, ScBytes pk); (k2, ScBytes sg)] =>
      if decide (k1 = "public_key"%string ∧ k2 = "signature"%string)
      then Some (mkSignature pk sg) else None
  | _ => None
  end.

(** What a contract account is asked to authorize. *)
Inductive AuthorizationContext :=
| CtxContract (f : ContractFunction)
| CtxCreateContract (wasm_hash : Hash) (salt : N)
| CtxCreateContractWithCtor (wasm_hash : Hash) (salt : N) (constructor_args : list ScVal).

Definition from_authorized_fn (f : AuthorizedFunction) : Result AuthorizationContext :=
  match f with
  | ContractFn f => Ok (CtxContract f)
  | CreateContractHostFn args =>
      match executable args with
      | Wasm wasm_hash =>
          match contract_id_preimage args with
          | PreimageAddress _ salt =>
              if decide (constructor_args args = []) then Ok (CtxCreateContract wasm_hash salt)
              else Ok (CtxCreateContractWithCtor wasm_hash salt (constructor_args args))
          | PreimageAsset _ => Err (EHost TAuth InvalidInput)
          end
      | StellarAsset => Err (EHost TAuth InvalidInput)
      end
  end.

(** The contexts of a tree, parents first; [out] are the ones collected so far. *)
Fixpoint invocation_tree_to_auth_contexts (invocation : AuthorizedInvocation)
    (out : list AuthorizationContext) : Result (list AuthorizationContext) :=
  let '(mkInvocation f subs _) := invocation in
  match from_authorized_fn f with
  | Err e => Err e
  | Ok c =>
      (fix go l out :=
        match l with
        | [] => Ok out
        | s :: l =>
            match invocation_tree_to_auth_contexts s out with
            | Ok out => go l out
            | Err e => Err e
            end
        end) subs (out ++ [c])
  end.

(** [Host::get_signer_weight_from_account]; index 0 of the thresholds is the weight
    of the master key. *)
Definition get_signer_weight_from_account (target_signer : N) (account : AccountEntry) : Result Z :=
  if decide (account_id account = target_signer) then
    ok_or (thresholds account !! 0%nat) (EHost TValue InternalError)
  else
    match list_find (λ s, signer_key s = Ed25519 target_signer) (signers account) with
    | Some (_, s) => Ok (Z.min (signer_weight s) 255)
    | None => Ok 0
    end.

Section account.
Context {S : Type} `{LedgerStore S} (li : LedgerInfo).
Context (verify_sig_ed25519 : N → Hash → N → bool).
Context (call_check_auth : Hash → Hash → ScVal → list AuthorizationContext → M S unit).

Definition load_account (account_id : N) : M S AccountEntry :=
  let* e := get_with_host li (KAccount account_id) in
  match e with
  | EAccount ae => m_ret ae
  | _ => m_fail (EHost TStorage InternalError)
  end.

(** The loop over the signatures: [prev_pk] is the key before, [weight] the weight so
    far. *)
Fixpoint add_signatures (account : AccountEntry) (payload : Hash) (signatures : list ScVal)
    (prev_pk : option N) (weight : Z) : Result Z :=
  match signatures with
  | [] => Ok weight
  | v :: signatures =>
      match signature_of_val v with
      | None => Err (EHost TValue UnexpectedType)
      | Some sig =>
          if match prev_pk with Some prev => bool_decide (public_key sig <= prev)%N | None => false end
          then Err AuthenticationError
          else if negb (verify_sig_ed25519 (public_key sig) payload (signature sig))
          then Err (EHost TCrypto InvalidInput)
          else
            match get_signer_weight_from_account (public_key sig) account with
            | Err e => Err e
            | Ok signer_weight =>
                if decide (signer_weight = 0) then Err AuthenticationError
                else add_signatures account payload signatures (Some (public_key sig))
                       (u32_saturating_add weight signer_weight)
            end
      end
  end.

Definition check_account_authentication (account_id : N) (payload : Hash) (signature : ScVal) :
    M S unit :=
  match signature with
  | ScVec signatures =>
      if decide (MAX_ACCOUNT_SIGNATURES < length signatures)%nat then m_fail AuthenticationError
      else if decide (signatures = []) then m_fail AuthenticationError
      else
        let* account := load_account account_id in
        let* weight := m_lift (add_signatures account payload signatures None 0) in
        match thresholds account !! 2%nat with
        | None => m_fail (EHost TAuth InternalError)
        | Some threshold =>
            if decide (weight < threshold) then m_fail AuthenticationError else m_ret tt
        end
  | _ => m_fail (EHost TValue UnexpectedType)
  end.

Definition check_account_contract_auth (account_contract signature_payload : Hash)
    (signature : ScVal) (invocation : AuthorizedInvocation) : M S unit :=
  let* contexts := m_lift (invocation_tree_to_auth_contexts invocation []) in
  call_check_auth account_contract signature_payload signature contexts.
End account.
