(* ===== verification/Auth.v ===== *)
(** The authorization manager in enforcing mode: the trackers, the manager and the
    nonces of [auth.rs], [builtin_contracts/invoker_contract_auth.rs], and the host
    functions of [host.rs] and [host/lifecycle.rs] that ask for authorization.

    A tracker follows one signed tree; the manager has one for each entry of the
    transaction, and one for each authorization a running contract has given.  Code
    with [&mut self] is an [M] on its object; what also reads or writes the ledger
    runs on a pair with the store.  A contract account's [__check_auth] is a parameter
    that works on the ledger only: that it may ask for authorization itself, with its
    own tracker borrowed, is not followed, so no borrow ever fails here. *)
From S2P Require Import Prelude ScVal Storage AuthTree AccountAuth.
#[local] Open Scope m_scope.

(** * Matching a tree *)

Record InvocationTracker := mkTracker {
  root_authorized_invocation : AuthorizedInvocation;
  match_stack : list MatchState;
  root_exhausted_frame : option nat;
  is_fully_processed : bool
}.

Definition set_root (i : AuthorizedInvocation) (t : InvocationTracker) : InvocationTracker :=
  mkTracker i (match_stack t) (root_exhausted_frame t) (is_fully_processed t).
Definition set_match_stack (l : list MatchState) (t : InvocationTracker) : InvocationTracker :=
  mkTracker (root_authorized_invocation t) l (root_exhausted_frame t) (is_fully_processed t).
Definition set_root_exhausted_frame (o : option nat) (t : InvocationTracker) : InvocationTracker :=
  mkTracker (root_authorized_invocation t) (match_stack t) o (is_fully_processed t).
Definition set_fully_processed (b : bool) (t : InvocationTracker) : InvocationTracker :=
  mkTracker (root_authorized_invocation t) (match_stack t) (root_exhausted_frame t) b.

Definition tracker_new (i : AuthorizedInvocation) : InvocationTracker := mkTracker i [] None false.

Definition tracker_from_xdr (x : SorobanAuthorizedInvocation) : InvocationTracker :=
  mkTracker (invocation_from_xdr x) [] None false.

Definition tracker_push_frame (t : InvocationTracker) : InvocationTracker :=
  set_match_stack (match_stack t ++ [Unmatched]) t.

Definition tracker_pop_frame (t : InvocationTracker) : InvocationTracker :=
  let t := set_match_stack (removelast (match_stack t)) t in
  match root_exhausted_frame t with
  | Some k => if decide (length (match_stack t) <= k)%nat then set_fully_processed true t else t
  | None => t
  end.

Definition tracker_is_empty (t : InvocationTracker) : bool := bool_decide (match_stack t = []).

Definition tracker_is_active (t : InvocationTracker) : bool :=
  is_exhausted (root_authorized_invocation t) && negb (is_fully_processed t).

Definition current_frame_is_already_matched (t : InvocationTracker) : bool :=
  match last (match_stack t) with Some m => is_matched m | None => false end.

(** [match_stack.len() - 1] on [usize]. *)
Definition last_index (l : list MatchState) : Result nat :=
  match length l with O => Err (EPanic "attempt to subtract with overflow") | S n => Ok n end.

Definition set_last_match (m : MatchState) : M InvocationTracker unit :=
  let* t := m_get in
  match length (match_stack t) with
  | O => m_fail (EHost TAuth InternalError)
  | S n => m_modify (set_match_stack (<[n := m]> (match_stack t)))
  end.

Definition maybe_extend_invocation_match (f : AuthorizedFunction) (allow_matching_root : bool) :
    M InvocationTracker bool :=
  let* t := m_get in
  if current_frame_is_already_matched t then m_ret false
  else
    let* o := m_zoom root_authorized_invocation set_root
                (at_last_authorized (match_stack t) (match_sub_invocation f)) in
    let* new_match_state :=
      match o with
      | Some m => m_ret m
      | None =>
          let root := root_authorized_invocation t in
          if negb (is_exhausted root) && allow_matching_root && bool_decide (function root = f) then
            m_modify (set_root (set_exhausted true root)) ;;;
            let* n := m_lift (last_index (match_stack t)) in
            m_modify (set_root_exhausted_frame (Some n)) ;;;
            m_ret RootMatch
          else m_ret Unmatched
      end in
    if is_matched new_match_state then set_last_match new_match_state ;;; m_ret true
    else m_ret false.

Definition tracker_snapshot (t : InvocationTracker) : AuthorizedInvocationSnapshot :=
  invocation_snapshot (root_authorized_invocation t).

Definition tracker_rollback (snapshot : AuthorizedInvocationSnapshot) : M InvocationTracker unit :=
  m_zoom root_authorized_invocation set_root (invocation_rollback snapshot) ;;;
  let* t := m_get in
  if is_exhausted (root_authorized_invocation t) then m_ret tt
  else m_modify (λ t, set_fully_processed false (set_root_exhausted_frame None t)).

(** * Authorization a running contract gives *)

Record InvokerContractAuthorizationTracker := mkInvokerTracker {
  contract_address : ScAddress;
  invoker_tracker : InvocationTracker
}.
Definition set_invoker_tracker (t : InvocationTracker) (i : InvokerContractAuthorizationTracker) :=
  mkInvokerTracker (contract_address i) t.

Definition push_invoker (i : InvokerContractAuthorizationTracker) :=
  set_invoker_tracker (tracker_push_frame (invoker_tracker i)) i.
Definition pop_invoker (i : InvokerContractAuthorizationTracker) :=
  set_invoker_tracker (tracker_pop_frame (invoker_tracker i)) i.

Definition is_out_of_scope (i : InvokerContractAuthorizationTracker) : bool :=
  tracker_is_empty (invoker_tracker i).

(** The elements of the vector a contract passes to [authorize_as_curr_contract]. *)
Inductive InvokerContractAuthEntry :=
| EntryContract (context : ContractFunction) (sub_invocations : list InvokerContractAuthEntry)
| EntryCreateContract (executable : ContractExecutable) (salt : N)
| EntryCreateContractWithCtor (executable : ContractExecutable) (salt : N)
    (constructor_args : list ScVal).

Definition authorized_creation (invoker : ScAddress) (executable : ContractExecutable) (salt : N)
    (constructor_args : list ScVal) : Result AuthorizedInvocation :=
  match executable with
  | Wasm wasm_hash =>
      Ok (invocation_new (CreateContractHostFn
            (mkCreateArgsV2 (PreimageAddress invoker salt) (Wasm wasm_hash) constructor_args)) [])
  | StellarAsset => Err (EHost TAuth InternalError)
  end.

Fixpoint to_authorized_invocation (invoker : ScAddress) (entry : InvokerContractAuthEntry) :
    Result AuthorizedInvocation :=
  match entry with
  | EntryContract context entries =>
      match (fix go l : Result (list AuthorizedInvocation) := match l with
        | [] => Ok []
        | e :: l =>
            match to_authorized_invocation invoker e with
            | Err x => Err x
            | Ok i => match go l with Ok subs => Ok (i :: subs) | Err x => Err x end
            end
        end) entries with
      | Ok subs => Ok (invocation_new (ContractFn context) subs)
      | Err x => Err x
      end
  | EntryCreateContract executable salt => authorized_creation invoker executable salt []
  | EntryCreateContractWithCtor executable salt args =>
      authorized_creation invoker executable salt args
  end.

Definition new_with_curr_contract_as_invoker (curr_contract : Hash) (entry : InvokerContractAuthEntry) :
    Result InvokerContractAuthorizationTracker :=
  match to_authorized_invocation (Contract curr_contract) entry with
  | Ok i => Ok (mkInvokerTracker (Contract curr_contract) (tracker_new i))
  | Err e => Err e
  end.

(** * The trackers of signed entries *)

Record AccountAuthorizationTracker := mkAccountTracker {
  address : ScAddress;
  invocation_tracker : InvocationTracker;
  tracker_signature : ScVal;
  is_transaction_source_account : bool;
  verified : bool;
  nonce : option (Z * Z)
}.
Definition set_invocation_tracker (t : InvocationTracker) (a : AccountAuthorizationTracker) :=
  mkAccountTracker (address a) t (tracker_signature a) (is_transaction_source_account a)
    (verified a) (nonce a).
Definition set_verified (b : bool) (a : AccountAuthorizationTracker) :=
  mkAccountTracker (address a) (invocation_tracker a) (tracker_signature a)
    (is_transaction_source_account a) b (nonce a).

Definition push_account (a : AccountAuthorizationTracker) :=
  set_invocation_tracker (tracker_push_frame (invocation_tracker a)) a.
Definition pop_account (a : AccountAuthorizationTracker) :=
  set_invocation_tracker (tracker_pop_frame (invocation_tracker a)) a.

Inductive SorobanCredentials :=
| CredSourceAccount
| CredAddress (address : ScAddress) (nonce signature_expiration_ledger : Z) (signature : ScVal).
Record SorobanAuthorizationEntry := mkAuthEntry {
  credentials : SorobanCredentials;
  root_invocation : SorobanAuthorizedInvocation
}.

Definition from_authorization_entry (source_account : option ScAddress)
    (auth_entry : SorobanAuthorizationEntry) : Result AccountAuthorizationTracker :=
  let t := tracker_from_xdr (root_invocation auth_entry) in
  match credentials auth_entry with
  | CredSourceAccount =>
      match source_account with
      | Some a => Ok (mkAccountTracker a t ScVoid true false None)
      | None => Err (EHost TAuth InternalError)
      end
  | CredAddress a n live_until sig => Ok (mkAccountTracker a t sig false false (Some (n, live_until)))
  end.

Record AccountAuthorizationTrackerSnapshot := mkAccountSnapshot {
  invocation_tracker_root_snapshot : AuthorizedInvocationSnapshot;
  snapshot_verified : bool
}.
Definition account_snapshot (a : AccountAuthorizationTracker) : AccountAuthorizationTrackerSnapshot :=
  mkAccountSnapshot (tracker_snapshot (invocation_tracker a)) (verified a).
Definition account_rollback (s : AccountAuthorizationTrackerSnapshot) :
    M AccountAuthorizationTracker unit :=
  m_zoom invocation_tracker set_invocation_tracker
    (tracker_rollback (invocation_tracker_root_snapshot s)) ;;;
  m_modify (set_verified (snapshot_verified s)).

(** [HostError::is_recoverable].  A contract's own panic is a trap of the virtual
    machine, which is recoverable. *)
Definition is_recoverable (e : Error) : bool :=
  match e with
  | EHost TContract _ => true
  | EHost _ InternalError => false
  | EHost (TStorage | TBudget) ExceededLimit => false
  | _ => true
  end.

(** * Using a signed tree *)
Section auth.
Context {S : Type} `{LedgerStore S} (li : LedgerInfo).
Context (hash_payload : Hash → Z → Z → SorobanAuthorizedInvocation → Hash).
Context (verify_sig_ed25519 : N → Hash → N → bool).
Context (call_check_auth : Hash → Hash → ScVal → list AuthorizationContext → M S unit).

Definition nonce_key (a : ScAddress) (n : Z) : LedgerKey :=
  KContractData a (ScLedgerKeyNonce n) Temporary.

(** [Host::consume_nonce]. *)
Definition consume_nonce (a : ScAddress) (n live_until_ledger : Z) : M S unit :=
  let* min_live_until := m_lift (get_min_live_until_ledger li Temporary) in
  let live_until_ledger := Z.max live_until_ledger min_live_until in
  let* exists_already := has_with_host li (nonce_key a n) in
  if exists_already : bool then m_fail (EHost TAuth ExistingValue)
  else
    put_with_host li (nonce_key a n)
      (EContractData (mkContractDataEntry a (ScLedgerKeyNonce n) Temporary ScVoid))
      (Some live_until_ledger).

Definition verify_and_consume_nonce (t : AccountAuthorizationTracker) : M S unit :=
  if is_transaction_source_account t then m_ret tt
  else match nonce t with
  | Some (n, live_until_ledger) =>
      if decide (live_until_ledger < sequence_number li) then m_fail (EHost TAuth InvalidInput)
      else
        let* max_live_until := m_lift (max_live_until_ledger li) in
        if decide (max_live_until < live_until_ledger) then m_fail (EHost TAuth InvalidInput)
        else consume_nonce (address t) n live_until_ledger
  | None => m_fail (EHost TAuth InternalError)
  end.

(** What has to be signed: the network, the nonce, its expiration and the whole tree. *)
Definition get_signature_payload (t : AccountAuthorizationTracker) : Result Hash :=
  match nonce t with
  | Some (n, live_until_ledger) =>
      Ok (hash_payload (network_id li) n live_until_ledger
            (invocation_to_xdr false (root_authorized_invocation (invocation_tracker t))))
  | None => Err (EHost TAuth InternalError)
  end.

Definition authenticate (t : AccountAuthorizationTracker) : M S unit :=
  if is_transaction_source_account t then m_ret tt
  else
    let* payload := m_lift (get_signature_payload t) in
    match address t with
    | Account acc =>
        check_account_authentication li verify_sig_ed25519 acc payload (tracker_signature t)
    | Contract acc =>
        check_account_contract_auth call_check_auth acc payload (tracker_signature t)
          (root_authorized_invocation (invocation_tracker t))
    end.

Definition maybe_authorize_invocation (f : AuthorizedFunction) (allow_matching_root : bool) :
    M (AccountAuthorizationTracker * S) bool :=
  let* matched := m_zoom (λ ts, invocation_tracker ts.1)
      (λ t ts, (set_invocation_tracker t ts.1, ts.2))
      (maybe_extend_invocation_match f allow_matching_root) in
  if negb matched then m_ret false
  else
    let* ts := m_get in
    if verified ts.1 then m_ret true
    else
      m_zoom snd (λ s ts, (ts.1, s))
        (m_map_err (λ e, if is_recoverable e then EHost TAuth InvalidAction else e)
           (authenticate ts.1) ;;;
         verify_and_consume_nonce ts.1) ;;;
      m_modify (λ ts, (set_verified true ts.1, ts.2)) ;;;
      m_ret true.

(** * The manager *)

Record AuthorizationManager := mkManager {
  account_trackers : list AccountAuthorizationTracker;
  invoker_contract_trackers : list InvokerContractAuthorizationTracker;
  call_stack : list AuthStackFrame
}.
Definition set_account_trackers l (m : AuthorizationManager) :=
  mkManager l (invoker_contract_trackers m) (call_stack m).
Definition set_invoker_trackers l (m : AuthorizationManager) :=
  mkManager (account_trackers m) l (call_stack m).
Definition set_call_stack l (m : AuthorizationManager) :=
  mkManager (account_trackers m) (invoker_contract_trackers m) l.

Fixpoint m_collect {A B} (f : A → Result B) (l : list A) : Result (list B) :=
  match l with
  | [] => Ok []
  | x :: l => f x ≫= λ y, (λ ys, y :: ys) <$> m_collect f l
  end.

Definition new_enforcing (source_account : option ScAddress)
    (auth_entries : list SorobanAuthorizationEntry) : Result AuthorizationManager :=
  (λ ts, mkManager ts [] []) <$> m_collect (from_authorization_entry source_account) auth_entries.

Definition new_enforcing_without_authorizations : AuthorizationManager := mkManager [] [] [].

(** The current frame asked for [a]; a direct call counts as authorized by the caller,
    otherwise an authorization given further up may match. *)
Definition maybe_check_invoker_contract_auth (a : ScAddress) (f : AuthorizedFunction) :
    M AuthorizationManager bool :=
  let* m := m_get in
  let n := length (call_stack m) in
  if decide (n < 2)%nat then m_ret false
  else match call_stack m !! (n - 2)%nat with
  | None => m_fail (EHost TAuth InternalError)
  | Some invoker_frame =>
      if match invoker_frame with
         | FrameContract i => bool_decide (ci_address i = a)
         | FrameCreateContract _ => false
         end
      then m_ret true
      else
        m_zoom (λ m, (invoker_contract_trackers m, tt)) (λ ts m, set_invoker_trackers ts.1 m)
          (m_first (
            let* t := m_get in
            if bool_decide (contract_address t.1 = a) then
              m_zoom (λ t, invoker_tracker t.1) (λ i t, (set_invoker_tracker i t.1, t.2))
                (maybe_extend_invocation_match f true)
            else m_ret false))
  end.

Definition has_active_tracker (a : ScAddress) (m : AuthorizationManager) : bool :=
  existsb (λ t, bool_decide (address t = a) && tracker_is_active (invocation_tracker t)
                && negb (current_frame_is_already_matched (invocation_tracker t)))
    (account_trackers m).

Definition require_auth_enforcing (a : ScAddress) (f : AuthorizedFunction) :
    M (AuthorizationManager * S) unit :=
  let* ms := m_get in
  let allow_matching_root := negb (has_active_tracker a ms.1) in
  let* found := m_zoom (λ ms, (account_trackers ms.1, ms.2))
      (λ ts ms, (set_account_trackers ts.1 ms.1, ts.2))
      (m_first (
        let* t := m_get in
        if bool_decide (address t.1 = a) then maybe_authorize_invocation f allow_matching_root
        else m_ret false)) in
  if found : bool then m_ret tt else m_fail (EHost TAuth InvalidAction).

Definition require_auth_internal (a : ScAddress) (f : AuthorizedFunction) :
    M (AuthorizationManager * S) unit :=
  let* by_invoker := m_zoom fst (λ m ms, (m, ms.2)) (maybe_check_invoker_contract_auth a f) in
  if by_invoker : bool then m_ret tt else require_auth_enforcing a f.

Definition require_auth (a : ScAddress) (args : list ScVal) : M (AuthorizationManager * S) unit :=
  let* ms := m_get in
  match last (call_stack ms.1) with
  | None => m_fail (EHost TAuth InternalError)
  | Some frame => require_auth_internal a (to_authorized_function frame args)
  end.

Fixpoint add_invoker_contract_auth_with_curr_contract_as_invoker (curr_contract : Hash)
    (auth_entries : list InvokerContractAuthEntry) : M AuthorizationManager unit :=
  match auth_entries with
  | [] => m_ret tt
  | e :: auth_entries =>
      let* t := m_lift (new_with_curr_contract_as_invoker curr_contract e) in
      m_modify (λ m, set_invoker_trackers (invoker_contract_trackers m ++ [t]) m) ;;;
      add_invoker_contract_auth_with_curr_contract_as_invoker curr_contract auth_entries
  end.

(** * Frames *)

Record AuthorizationManagerSnapshot := mkManagerSnapshot {
  account_trackers_snapshot : list AccountAuthorizationTrackerSnapshot;
  invoker_contract_tracker_root_snapshots : list AuthorizedInvocationSnapshot
}.

Definition manager_snapshot (m : AuthorizationManager) : AuthorizationManagerSnapshot :=
  mkManagerSnapshot (account_snapshot <$> account_trackers m)
    (tracker_snapshot ∘ invoker_tracker <$> invoker_contract_trackers m).

Definition manager_rollback (s : AuthorizationManagerSnapshot) : M AuthorizationManager unit :=
  let* m := m_get in
  if decide (length (account_trackers m) = length (account_trackers_snapshot s)) then
    m_zoom account_trackers set_account_trackers
      (m_zip (account_rollback <$> account_trackers_snapshot s)) ;;;
    (if decide (length (invoker_contract_trackers m)
                = length (invoker_contract_tracker_root_snapshots s)) then
       m_zoom invoker_contract_trackers set_invoker_trackers
         (m_zip ((λ sn, m_zoom invoker_tracker set_invoker_tracker (tracker_rollback sn))
                   <$> invoker_contract_tracker_root_snapshots s))
     else m_fail (EHost TAuth InternalError))
  else m_fail (EHost TAuth InternalError).

Definition push_tracker_frame (m : AuthorizationManager) : AuthorizationManager :=
  mkManager (push_account <$> account_trackers m) (push_invoker <$> invoker_contract_trackers m)
    (call_stack m).

Definition push_auth_frame (frame : AuthStackFrame) (m : AuthorizationManager) :
    AuthorizationManager :=
  push_tracker_frame (set_call_stack (call_stack m ++ [frame]) m).

Definition push_create_contract_host_fn_frame (args : CreateContractArgsV2) :
    AuthorizationManager → AuthorizationManager := push_auth_frame (FrameCreateContract args).

(** [while let Some(last) = trackers.last() { if last.is_out_of_scope() { pop } else { break } }],
    on the reversed vector. *)
Fixpoint drop_out_of_scope (rev_trackers : list InvokerContractAuthorizationTracker) :=
  match rev_trackers with
  | [] => []
  | t :: rest => if is_out_of_scope t then drop_out_of_scope rest else rev_trackers
  end.

Definition manager_pop_frame (snapshot : option AuthorizationManagerSnapshot) :
    M AuthorizationManager unit :=
  match snapshot with Some s => manager_rollback s | None => m_ret tt end ;;;
  let* m := m_get in
  if decide (call_stack m = []) then m_ret tt
  else m_modify (λ m,
    mkManager (pop_account <$> account_trackers m)
      (rev (drop_out_of_scope (rev (pop_invoker <$> invoker_contract_trackers m))))
      (removelast (call_stack m))).
End auth.

Lemma m_collect_ok {A B} (f : A → Result B) l ys :
  m_collect f l = Ok ys → Forall2 (λ x y, f x = Ok y) l ys.
Proof.
  revert ys. induction l as [|x l IH]; intros ys; simpl; [by intros [= <-]|].
  unfold mbind, Result_mbind. destruct (f x) as [y|] eqn:Hx; [|done].
  destruct (m_collect f l) as [zs|] eqn:Hl; [|done]. intros [= <-]. constructor; auto.
Qed.
