(* ===== verification/Frame.v ===== *)
(** Contract invocation: the context stack with its rollback points, frames, and
    calls between contracts, [host/frame.rs], [try_call] of [host.rs] and the frame of
    a contract creation in [host/lifecycle.rs].

    What a contract's code does is a parameter, a computation on the [Machine]; the
    host adds the checks before it, the frame around it, and what becomes of its
    result.  Instance storage, the budget and diagnostics are left out. *)
From S2P Require Import Prelude ScVal Storage Host AuthTree AccountAuth Auth.
#[local] Open Scope m_scope.
#[local] Open Scope string_scope.

Inductive ContractReentryMode := Prohibited | SelfAllowed | Allowed.

Record CallParams := mkCallParams {
  reentry_mode : ContractReentryMode;
  internal_host_call : bool;
  treat_missing_function_as_noop : bool
}.
Definition default_external_call : CallParams := mkCallParams Prohibited false false.
Definition check_auth_call : CallParams := mkCallParams SelfAllowed true false.

(** Frames: a contract's, run by the virtual machine or built in, or that of a
    top-level host function. *)
Inductive Frame :=
| ContractFrame (id : Hash) (fn_name : string) (args : list ScVal)
| HostFunctionFrame.

Definition frame_contract_id (f : Frame) : option Hash :=
  match f with ContractFrame id _ _ => Some id | HostFunctionFrame => None end.

(** The values a contract returns: a value, or a value of the error type. *)
Inductive RetVal := VVal (v : ScVal) | VError (e : Error).

Definition RESERVED_CONTRACT_FN_PREFIX : string := "__".

Record Machine (S : Type) := mkMachine {
  context_stack : list Frame;
  storage : S;
  events : EventsBuffer;
  auth_manager : AuthorizationManager
}.
Arguments mkMachine {S}.
Arguments context_stack {S}.
Arguments storage {S}.
Arguments events {S}.
Arguments auth_manager {S}.

Definition set_context_stack {S} l (m : Machine S) : Machine S :=
  mkMachine l (storage m) (events m) (auth_manager m).
Definition put_auth {S} (ms : AuthorizationManager * S) (m : Machine S) : Machine S :=
  mkMachine (context_stack m) ms.2 (events m) ms.1.
Definition set_auth_manager {S} a (m : Machine S) : Machine S :=
  mkMachine (context_stack m) (storage m) (events m) a.

(** Running code of the authorization manager on the machine. *)
Definition on_auth {S A} (p : M (AuthorizationManager * S) A) : M (Machine S) A :=
  m_zoom (λ m, (auth_manager m, storage m)) put_auth p.
Definition on_manager {S A} (p : M AuthorizationManager A) : M (Machine S) A :=
  m_zoom auth_manager set_auth_manager p.

(** [AuthorizationManager::push_frame]: the frames of host functions are not on the
    manager's call stack. *)
Definition manager_push_frame (f : Frame) : M AuthorizationManager AuthorizationManagerSnapshot :=
  match f with
  | ContractFrame id fn_name _ =>
      m_modify (push_auth_frame (FrameContract (mkContractInvocation (Contract id) fn_name)))
  | HostFunctionFrame => m_ret tt
  end ;;;
  let* m := m_get in m_ret (manager_snapshot m).

Record RollbackPoint (S : Type) := mkRollbackPoint {
  rp_storage : S;
  rp_events : nat;
  rp_auth : AuthorizationManagerSnapshot
}.
Arguments mkRollbackPoint {S}.
Arguments rp_storage {S}.
Arguments rp_events {S}.
Arguments rp_auth {S}.

Section frames.
Context {S : Type} `{LedgerStore S, Rollback S}.
Context (DEFAULT_HOST_DEPTH_LIMIT : nat).

Definition push_context (f : Frame) : M (Machine S) (RollbackPoint S) :=
  let* auth := on_manager (manager_push_frame f) in
  let* m := m_get in
  m_modify (set_context_stack (context_stack m ++ [f])) ;;;
  m_ret (mkRollbackPoint (storage m) (length (events m)) auth).

Definition pop_context (orp : option (RollbackPoint S)) : M (Machine S) Frame :=
  let* m := m_get in
  m_modify (set_context_stack (removelast (context_stack m))) ;;;
  match orp with
  | Some rp => m_modify (λ m, mkMachine (context_stack m) (restore (rp_storage rp) (storage m))
                               (rollback_events (rp_events rp) (events m)) (auth_manager m))
  | None => m_ret tt
  end ;;;
  on_manager (manager_pop_frame (rp_auth <$> orp)) ;;;
  m_lift (ok_or (last (context_stack m)) (EHost TContext InternalError)).

(** A frame that ends with a value of the error type has failed; contracts may only
    signal errors of their own. *)
Definition frame_exit (r : Result RetVal) : Result RetVal :=
  match r with
  | Ok (VError (EContract _ as e)) | Ok (VError (EHost TContract _ as e)) => Err e
  | Ok (VError _) => Err (EHost TContext InvalidAction)
  | r => r
  end.

Definition with_frame (f : Frame) (p : M (Machine S) RetVal) : M (Machine S) RetVal :=
  let* m := m_get in
  let start_depth := length (context_stack m) in
  if decide (DEFAULT_HOST_DEPTH_LIMIT <= start_depth)%nat then m_fail (EHost TContext ExceededLimit)
  else
    let* rp := push_context f in
    let* res := λ m, let '(r, m') := p m in (Ok (frame_exit r), m') in
    match res with
    | Err _ => pop_context (Some rp)
    | Ok _ => pop_context None
    end ;;;
    let* m' := m_get in
    if decide (length (context_stack m') = start_depth) then m_lift res
    else m_fail (EHost TContext InternalError).

(** The distance of the last frame of [id] from the top of the stack. *)
Definition reentry_distance (id : Hash) (stack : list Frame) : option nat :=
  fst <$> list_find (λ c, c = id) (omap frame_contract_id (rev stack)).

Definition reentry_refused (mode : ContractReentryMode) (distance : option nat) : bool :=
  match mode, distance with
  | _, None | Allowed, _ | SelfAllowed, Some O => false
  | _, _ => true
  end.

(** [Host::call_n_internal] with [Host::call_contract_fn]; loading the contract's
    instance and code is [load], what the code does is [invoke]. *)
Definition call_n_internal {Code} (load : Hash → M (Machine S) Code)
    (invoke : Code → Hash → string → list ScVal → bool → M (Machine S) RetVal)
    (id : Hash) (func : string) (args : list ScVal) (call_params : CallParams) :
    M (Machine S) RetVal :=
  let* m := m_get in
  if negb (internal_host_call call_params) && String.prefix RESERVED_CONTRACT_FN_PREFIX func
  then m_fail (EHost TContext InvalidAction)
  else if reentry_refused (reentry_mode call_params) (reentry_distance id (context_stack m))
  then m_fail (EHost TContext InvalidAction)
  else
    let* code := load id in
    with_frame (ContractFrame id func args)
      (invoke code id func args (treat_missing_function_as_noop call_params)).

(** [try_call]: what the caller gets of a failed call. *)
Definition try_call_result (r : Result RetVal) : Result RetVal :=
  match r with
  | Ok rv => Ok rv
  | Err e =>
      if is_recoverable e then
        match e with
        | EContract _ | EHost TContract _ => Ok (VError e)
        | _ => Ok (VError (EHost TContext InvalidAction))
        end
      else Err e
  end.
Definition try_call (p : M (Machine S) RetVal) : M (Machine S) RetVal := λ m,
  let '(r, m') := p m in (try_call_result r, m').

(** [Host::create_contract_internal]: the creation, once authorized, is [create]. *)
Definition create_contract_internal {A} (li : LedgerInfo)
    (hash_payload : Hash → Z → Z → SorobanAuthorizedInvocation → Hash)
    (verify_sig_ed25519 : N → Hash → N → bool)
    (call_check_auth : Hash → Hash → ScVal → list AuthorizationContext → M S unit)
    (deployer : option ScAddress) (args : CreateContractArgsV2) (create : M (Machine S) A) :
    M (Machine S) A :=
  match deployer with
  | None => create
  | Some deployer_address =>
      on_manager (m_modify (push_create_contract_host_fn_frame args)) ;;;
      let* res := λ m,
        let '(r, m') :=
          (on_auth (require_auth li hash_payload verify_sig_ed25519 call_check_auth
                      deployer_address []) ;;; create) m in (Ok r, m') in
      on_manager (manager_pop_frame None) ;;;
      m_lift res
  end.
End frames.
