(* ===== verification/TrackerThms.v ===== *)
(** Signed trees and their trackers: trees are only ever used up, one node at a time and
    below a used parent; snapshots bring them back; a tracker follows the frames it was
    matched in. *)
From S2P Require Import Prelude ScVal Storage AuthTree AccountAuth Auth.
#[local] Open Scope m_scope.

(** * Trees only ever get used up *)

(** The functions of the used nodes, and of all nodes, parents first. *)
Fixpoint used_functions (i : AuthorizedInvocation) : list AuthorizedFunction :=
  let '(mkInvocation f subs e) := i in
  (if e then [f] else []) ++ concat (used_functions <$> subs).
Fixpoint all_functions (i : AuthorizedInvocation) : list AuthorizedFunction :=
  let '(mkInvocation f subs _) := i in f :: concat (all_functions <$> subs).

(** [tree_le i j]: [j] is [i] with more nodes used. *)
Inductive tree_le : AuthorizedInvocation → AuthorizedInvocation → Prop :=
| tree_le_node f subs subs' e e' :
    Forall2 tree_le subs subs' → (e = true → e' = true) →
    tree_le (mkInvocation f subs e) (mkInvocation f subs' e').

Lemma tree_le_refl i : tree_le i i.
Proof.
  induction i as [f subs e IH] using invocation_nested_ind. constructor; [|done].
  induction IH; constructor; auto.
Qed.

Lemma tree_le_trans i j k : tree_le i j → tree_le j k → tree_le i k.
Proof.
  revert j k. induction i as [f subs e IH] using invocation_nested_ind. intros j k Hij Hjk.
  inversion Hij as [? ? subs2 ? e2 Hs He]; subst. inversion Hjk as [? ? subs3 ? e3 Hs' He']; subst.
  constructor; [|auto]. clear Hij Hjk He He'. revert subs3 Hs'.
  induction Hs as [|x y l l2 Hxy _ IHl]; intros l3 H3; inversion_clear H3; constructor.
  - apply Forall_cons in IH as [IH _]. eauto.
  - apply Forall_cons in IH as [_ IH]. auto.
Qed.

#[export] Instance tree_le_preorder : PreOrder tree_le.
Proof. split; [exact tree_le_refl|exact tree_le_trans]. Qed.

(** Snapshots undo any use of the tree. *)
Lemma invocation_rollback_exact i j :
  tree_le i j → invocation_rollback (invocation_snapshot i) j = (Ok tt, i).
Proof.
  revert j. induction i as [f subs e IH] using invocation_nested_ind. intros j Hij.
  inversion Hij as [? ? subs2 ? e2 Hs _]; subst. simpl.
  unfold m_bind, m_modify, m_get; simpl. rewrite length_fmap.
  rewrite decide_True by (symmetry; by eapply Forall2_length).
  unfold m_zoom; simpl. rewrite (m_zip_ok _ _ subs); [done|].
  clear Hij. induction Hs as [|x y l l2 Hxy _ IHl]; [constructor|].
  apply Forall_cons in IH as [IHx IH]. rewrite !fmap_cons. constructor; auto.
Qed.

(** What is signed does not change. *)
Lemma invocation_to_xdr_static i j :
  tree_le i j → invocation_to_xdr false i = invocation_to_xdr false j.
Proof.
  revert j. induction i as [f subs e IH] using invocation_nested_ind. intros j Hij.
  inversion Hij as [? ? subs2 ? e2 Hs _]; subst. simpl. f_equal. clear Hij.
  induction Hs as [|x y l l2 Hxy _ IHl]; [done|].
  apply Forall_cons in IH as [IHx IH]. rewrite !orb_true_r. f_equal; auto.
Qed.

Lemma all_functions_static i j : tree_le i j → all_functions i = all_functions j.
Proof.
  revert j. induction i as [f subs e IH] using invocation_nested_ind. intros j Hij.
  inversion Hij as [? ? subs2 ? e2 Hs _]; subst. simpl. f_equal. clear Hij.
  induction Hs as [|x y l l2 Hxy _ IHl]; [done|].
  apply Forall_cons in IH as [IHx IH]. simpl. f_equal; auto.
Qed.

Lemma auth_contexts_static i j out :
  tree_le i j → invocation_tree_to_auth_contexts i out = invocation_tree_to_auth_contexts j out.
Proof.
  revert j out. induction i as [f subs e IH] using invocation_nested_ind. intros j out Hij.
  inversion Hij as [? ? subs2 ? e2 Hs _]; subst. simpl.
  destruct (from_authorized_fn f) as [c|]; [|done]. generalize (out ++ [c]) as o. clear Hij.
  induction Hs as [|x y l l2 Hxy _ IHl]; intros o; [done|].
  apply Forall_cons in IH as [IHx IH]. rewrite (IHx y) by done.
  destruct (invocation_tree_to_auth_contexts y o); [|done]. by apply IHl.
Qed.

Lemma used_functions_submseteq i : used_functions i ⊆+ all_functions i.
Proof.
  induction i as [f subs e IH] using invocation_nested_ind. simpl.
  assert (concat (used_functions <$> subs) ⊆+ concat (all_functions <$> subs)) as Hs.
  { induction IH as [|x l Hx _ IHl]; [done|]. simpl. by apply submseteq_app. }
  destruct e; simpl; [by apply submseteq_skip|by apply submseteq_cons].
Qed.

(** * The walk along the match stack *)

(** A used node's parent is used. *)
Inductive tree_closed : AuthorizedInvocation → Prop :=
| tree_closed_node f subs e :
    Forall tree_closed subs → (e = false → Forall (λ s, is_exhausted s = false) subs) →
    tree_closed (mkInvocation f subs e).

(** [sub_ok i ms]: from node [i] the stack [ms] leads along used nodes of the tree;
    [root_ok] is the same from above the root. *)
Fixpoint sub_ok (i : AuthorizedInvocation) (ms : list MatchState) : Prop :=
  match ms with
  | [] => True
  | Unmatched :: ms => sub_ok i ms
  | RootMatch :: _ => False
  | SubMatch k :: ms =>
      ∃ s, sub_invocations i !! k = Some s ∧ is_exhausted s = true ∧ sub_ok s ms
  end.
Fixpoint root_ok (i : AuthorizedInvocation) (ms : list MatchState) : Prop :=
  match ms with
  | [] => True
  | Unmatched :: ms => root_ok i ms
  | RootMatch :: ms => is_exhausted i = true ∧ sub_ok i ms
  | SubMatch _ :: _ => False
  end.

Lemma sub_ok_snoc i ms : sub_ok i (ms ++ [Unmatched]) ↔ sub_ok i ms.
Proof.
  revert i. induction ms as [|[| |k] ms IH]; intros i; simpl; [done|apply IH|done|].
  by setoid_rewrite IH.
Qed.
Lemma root_ok_snoc i ms : root_ok i (ms ++ [Unmatched]) ↔ root_ok i ms.
Proof.
  revert i. induction ms as [|[| |k] ms IH]; intros i; simpl; [done|apply IH| |done].
  by rewrite sub_ok_snoc.
Qed.
Lemma sub_ok_init i ms m : sub_ok i (ms ++ [m]) → sub_ok i ms.
Proof.
  revert i. induction ms as [|[| |k] ms IH]; intros i; simpl; [done|apply IH|done|].
  intros (s & ? & ? & ?). eauto.
Qed.
Lemma root_ok_init i ms m : root_ok i (ms ++ [m]) → root_ok i ms.
Proof.
  revert i. induction ms as [|[| |k] ms IH]; intros i; simpl; [done|apply IH| |done].
  intros [? ?%sub_ok_init]. done.
Qed.

Lemma at_sub_snoc {A} ms (p : M AuthorizedInvocation A) i :
  at_last_authorized_sub (ms ++ [Unmatched]) p i = at_last_authorized_sub ms p i.
Proof.
  revert i. induction ms as [|[| |k] ms IH]; intros i; simpl; [done|apply IH|done|].
  destruct (sub_invocations i !! k); [|done]. by rewrite IH.
Qed.
Lemma at_root_snoc {A} ms (p : M AuthorizedInvocation A) i :
  at_last_authorized (ms ++ [Unmatched]) p i = at_last_authorized ms p i.
Proof.
  revert i. induction ms as [|[| |k] ms IH]; intros i; simpl; [done|apply IH| |done].
  unfold m_bind. by rewrite at_sub_snoc.
Qed.

(** What using one more node for [f] does to a tree. *)
Record tree_used (f : AuthorizedFunction) (i i' : AuthorizedInvocation) : Prop := {
  tu_le : tree_le i i';
  tu_used : used_functions i' ≡ₚ f :: used_functions i;
  tu_closed : tree_closed i';
  tu_exhausted : is_exhausted i' = true
}.

Lemma concat_insert {A B} (g : A → list B) (l : list A) i x x' (h : list B) :
  l !! i = Some x → g x' ≡ₚ h ++ g x → concat (g <$> <[i := x']> l) ≡ₚ h ++ concat (g <$> l).
Proof.
  intros Hi Hg. assert (i < length l)%nat by by eapply lookup_lt_Some.
  rewrite insert_take_drop by done. rewrite <-(take_drop_middle l i x) at 3 by done.
  rewrite !fmap_app, !concat_app, !fmap_cons. simpl. rewrite Hg.
  by rewrite <-!app_assoc, Permutation_app_swap_app.
Qed.

Lemma tree_used_sub f i k s s' :
  tree_closed i → is_exhausted i = true → sub_invocations i !! k = Some s →
  tree_used f s s' → tree_used f i (set_sub_invocations (<[k := s']> (sub_invocations i)) i).
Proof.
  intros Hc He Hk [Hle Hu Hc' He']. destruct i as [g subs e]; simpl in *. subst e.
  inversion_clear Hc as [? ? ? Hsubs _]. split; simpl; [| | |done].
  - constructor; [|done]. rewrite <-(list_insert_id subs k s) at 1 by done.
    apply Forall2_insert; [|done]. by apply Forall_Forall2_diag, Forall_true, tree_le_refl.
  - rewrite (concat_insert used_functions subs k s s' [f]) by done. constructor.
  - constructor; [|done]. by apply Forall_insert.
Qed.

Lemma match_sub_spec f i :
  tree_closed i → is_exhausted i = true →
  match_sub_invocation f i = (Ok Unmatched, i) ∨
  ∃ k i' s, match_sub_invocation f i = (Ok (SubMatch k), i') ∧ tree_used f i i' ∧
    sub_invocations i' !! k = Some s ∧ is_exhausted s = true.
Proof.
  intros Hc He. unfold match_sub_invocation.
  destruct (list_find _ (sub_invocations i)) as [[k s]|] eqn:Hf; [|by left].
  apply list_find_Some in Hf as (Hk & (Hs & <-) & _). right.
  eexists k, _, (set_exhausted true s). split; [done|].
  assert (tree_closed s) as Hcs.
  { inversion Hc as [? ? ? Hall]; subst. by eapply Forall_lookup_1 in Hall. }
  split; [|split].
  - eapply tree_used_sub; [done..|]. destruct s as [g subs e]; simpl in *. subst e.
    inversion_clear Hcs as [? ? ? Hall _]. split; simpl; [|done| |done].
    + constructor; [by apply Forall_Forall2_diag, Forall_true, tree_le_refl|done].
    + by constructor.
  - destruct i as [g subs e]; simpl in *. apply list_lookup_insert_eq. by eapply lookup_lt_Some.
  - by destruct s.
Qed.

Lemma at_sub_spec f ms i :
  tree_closed i → is_exhausted i = true → sub_ok i ms →
  at_last_authorized_sub ms (match_sub_invocation f) i = (Ok Unmatched, i) ∨
  ∃ k i', at_last_authorized_sub ms (match_sub_invocation f) i = (Ok (SubMatch k), i') ∧
    tree_used f i i' ∧ sub_ok i' (ms ++ [SubMatch k]).
Proof.
  revert i. induction ms as [|[| |j] ms IH]; intros i Hc He Hok; simpl in *; [|by apply IH|done|].
  - destruct (match_sub_spec f i Hc He) as [->|(k & i' & s & -> & Hu & Hk & Hs)]; [by left|].
    right. eauto 10.
  - destruct Hok as (s & Hj & Hs & Hok). rewrite Hj.
    assert (tree_closed s) as Hcs.
    { inversion Hc as [? ? ? Hall]; subst. by eapply Forall_lookup_1 in Hall. }
    destruct (IH s Hcs Hs Hok) as [->|(k & s' & -> & Hu & Hok')]; [left|right].
    + rewrite list_insert_id by done. by destruct i.
    + eexists k, _. split; [done|]. split; [by eapply tree_used_sub|].
      exists s'. destruct i as [g subs e]; simpl in *.
      split; [apply list_lookup_insert_eq; by eapply lookup_lt_Some|].
      by destruct Hu.
Qed.

Lemma at_root_spec f ms i :
  tree_closed i → root_ok i ms →
  (at_last_authorized ms (match_sub_invocation f) i = (Ok None, i) ∧ Forall (.= Unmatched) ms) ∨
  (RootMatch ∈ ms ∧
   (at_last_authorized ms (match_sub_invocation f) i = (Ok (Some Unmatched), i) ∨
    ∃ k i', at_last_authorized ms (match_sub_invocation f) i = (Ok (Some (SubMatch k)), i') ∧
      tree_used f i i' ∧ root_ok i' (ms ++ [SubMatch k]))).
Proof.
  intros Hc. induction ms as [|[| |j] ms IH]; intros Hok; simpl in *; [by left| | |done].
  - destruct (IH Hok) as [[-> Hms]|[Hin [->|(k & i' & -> & Hu & Hok')]]].
    + left. by split; [|constructor].
    + right. split; [by right|]. by left.
    + right. split; [by right|]. right. eauto.
  - destruct Hok as [He Hok]. right. split; [by left|]. unfold m_bind.
    destruct (at_sub_spec f ms i Hc He Hok) as [->|(k & i' & -> & Hu & Hok')]; [by left|].
    right. eexists k, i'. split; [done|]. split; [done|]. split; [by destruct Hu|done].
Qed.

(** * Trackers *)

Record tracker_wf (t : InvocationTracker) : Prop := {
  tw_root : root_ok (root_authorized_invocation t) (match_stack t);
  tw_closed : tree_closed (root_authorized_invocation t);
  tw_unused : is_exhausted (root_authorized_invocation t) = false →
    root_exhausted_frame t = None ∧ is_fully_processed t = false;
  tw_used : is_exhausted (root_authorized_invocation t) = true →
    ∃ k, root_exhausted_frame t = Some k ∧
      if is_fully_processed t then Forall (.= Unmatched) (match_stack t)
      else match_stack t !! k = Some RootMatch
}.

(** What the code of one frame can do to a tracker: the frames below keep their
    matches, and a tracker that was in use keeps its place. *)
Record tracker_after (t t' : InvocationTracker) : Prop := {
  ta_le : tree_le (root_authorized_invocation t) (root_authorized_invocation t');
  ta_length : length (match_stack t) = length (match_stack t');
  ta_below : removelast (match_stack t) = removelast (match_stack t');
  ta_frame : is_exhausted (root_authorized_invocation t) = true →
    root_exhausted_frame t = root_exhausted_frame t' ∧ is_fully_processed t = is_fully_processed t'
}.

Lemma tree_le_exhausted i j : tree_le i j → is_exhausted i = true → is_exhausted j = true.
Proof. by intros []. Qed.

#[export] Instance tracker_after_preorder : PreOrder tracker_after.
Proof.
  split.
  - intros t. by split.
  - intros t1 t2 t3 [H1 H2 H3 H4] [K1 K2 K3 K4]. split; [by etrans..|].
    intros He. destruct (H4 He) as [-> ->]. apply K4. by eapply tree_le_exhausted.
Qed.

(** A frame used by [f]: its last entry was free and is now taken. *)
Record tracker_used (f : AuthorizedFunction) (t t' : InvocationTracker) : Prop := {
  tru_wf : tracker_wf t';
  tru_after : tracker_after t t';
  tru_tree : tree_used f (root_authorized_invocation t) (root_authorized_invocation t');
  tru_free : current_frame_is_already_matched t = false;
  tru_taken : current_frame_is_already_matched t' = true
}.

Lemma set_root_id t : set_root (root_authorized_invocation t) t = t.
Proof. by destruct t. Qed.

Lemma set_last_snoc {A} (l : list A) x y :
  <[length l := y]> (l ++ [x]) = l ++ [y].
Proof. by rewrite <-(Nat.add_0_r (length l)), insert_app_r. Qed.

Lemma all_unmatched_lookup ms k : Forall (.= Unmatched) ms → ms !! k ≠ Some RootMatch.
Proof. intros Hms Hk. eapply Forall_lookup_1 in Hms; [|done]. done. Qed.

Lemma all_unmatched_root_ok i ms m :
  Forall (.= Unmatched) ms → root_ok i [m] → root_ok i (ms ++ [m]).
Proof. induction 1 as [|x ms -> _ IH]; simpl; auto. Qed.

Lemma all_unmatched_not_in ms : Forall (.= Unmatched) ms → RootMatch ∉ ms.
Proof. rewrite Forall_forall. intros H Hin. by apply H in Hin. Qed.

(** Where the walk found the root matched, the tracker is in use. *)
Lemma active_in_stack root l fr fp :
  tracker_wf (mkTracker root (l ++ [Unmatched]) fr fp) → RootMatch ∈ l →
  is_exhausted root = true ∧ fp = false ∧ ∃ k, fr = Some k ∧ l !! k = Some RootMatch.
Proof.
  intros [Hr Hc Hun Hus] Hin; simpl in *. destruct (is_exhausted root) eqn:He.
  - destruct (Hus eq_refl) as (k & -> & Hk). destruct fp.
    + exfalso. apply Forall_app in Hk as [Hk _]. by apply (all_unmatched_not_in l).
    + split; [done|]. split; [done|]. exists k. split; [done|].
      apply lookup_app_Some in Hk as [?|[? Hk]]; [done|].
      apply list_lookup_singleton_Some in Hk as [? ?]. done.
  - exfalso. apply root_ok_snoc in Hr. clear -Hr Hin He.
    induction l as [|[| |j] l IH]; simpl in Hr; [set_solver| |by destruct Hr; congruence|done].
    apply elem_of_cons in Hin as [?|?]; [done|auto].
Qed.

Lemma current_frame_snoc root l m fr fp :
  current_frame_is_already_matched (mkTracker root (l ++ [m]) fr fp) = is_matched m.
Proof. unfold current_frame_is_already_matched. simpl. by rewrite last_snoc. Qed.

Lemma extend_sub_used f root root' l k fr fp :
  tracker_wf (mkTracker root (l ++ [Unmatched]) fr fp) → RootMatch ∈ l →
  tree_used f root root' → root_ok root' (l ++ [SubMatch k]) →
  tracker_used f (mkTracker root (l ++ [Unmatched]) fr fp)
                 (mkTracker root' (l ++ [SubMatch k]) fr fp).
Proof.
  intros Hwf Hin Hu Hok. destruct (active_in_stack _ _ _ _ Hwf Hin) as (He & -> & j & -> & Hj).
  split; [| |done|by rewrite current_frame_snoc|by rewrite current_frame_snoc].
  - split; simpl; [done|by destruct Hu| |].
    + intros He'. destruct Hu. congruence.
    + intros _. exists j. split; [done|]. by apply lookup_app_l_Some.
  - split; simpl; [by destruct Hu|by rewrite !length_app|by rewrite !removelast_last|done].
Qed.

Lemma extend_root_used f root l fr fp :
  tracker_wf (mkTracker root (l ++ [Unmatched]) fr fp) → Forall (.= Unmatched) l →
  is_exhausted root = false → function root = f →
  tracker_used f (mkTracker root (l ++ [Unmatched]) fr fp)
    (mkTracker (set_exhausted true root) (l ++ [RootMatch]) (Some (length l)) fp).
Proof.
  intros [Hr Hc Hun _] Hl He <-; simpl in *. destruct (Hun He) as [-> ->].
  destruct root as [g subs e]; simpl in *. subst e. inversion_clear Hc as [? ? ? Hsubs _].
  assert (tree_used g (mkInvocation g subs false) (mkInvocation g subs true)) as Hu.
  { split; simpl; [|done|by constructor|done].
    constructor; [|done]. by apply Forall_Forall2_diag, Forall_true, tree_le_refl. }
  split; [| |done|by rewrite current_frame_snoc|by rewrite current_frame_snoc].
  - split; simpl; [by apply all_unmatched_root_ok|by destruct Hu|done|].
    intros _. exists (length l). split; [done|]. by rewrite list_lookup_middle.
  - split; simpl; [by destruct Hu|by rewrite !length_app|by rewrite !removelast_last|done].
Qed.

(** [maybe_extend_invocation_match] with its matches resolved, in a frame of its own. *)
Lemma maybe_extend_unmatched f allow root l fr fp :
  maybe_extend_invocation_match f allow (mkTracker root (l ++ [Unmatched]) fr fp) =
  match at_last_authorized l (match_sub_invocation f) root with
  | (Ok None, root') =>
      if negb (is_exhausted root) && allow && bool_decide (function root = f) then
        (Ok true, mkTracker (set_exhausted true root) (l ++ [RootMatch]) (Some (length l)) fp)
      else (Ok false, mkTracker root' (l ++ [Unmatched]) fr fp)
  | (Ok (Some m), root') =>
      if is_matched m then (Ok true, mkTracker root' (l ++ [m]) fr fp)
      else (Ok false, mkTracker root' (l ++ [Unmatched]) fr fp)
  | (Err e, root') => (Err e, mkTracker root' (l ++ [Unmatched]) fr fp)
  end.
Proof.
  unfold maybe_extend_invocation_match, m_bind, m_get, m_zoom. rewrite current_frame_snoc. simpl.
  rewrite at_root_snoc. destruct (at_last_authorized _ _ root) as [[[m|]|e] root']; [| |done].
  - unfold m_ret at 1. destruct (is_matched m); [|done].
    unfold set_last_match, m_bind, m_get, m_modify; simpl.
    rewrite length_app, Nat.add_comm; simpl. by rewrite set_last_snoc.
  - destruct (negb _ && allow && bool_decide _); [|done].
    unfold set_last_match, m_bind, m_get, m_modify, m_lift, last_index; simpl.
    rewrite length_app, Nat.add_comm; simpl. rewrite length_app, Nat.add_comm; simpl.
    by rewrite set_last_snoc.
Qed.

(** A well-formed tracker in a frame: it either has nothing for [f] and stays as it is,
    or one more node of its tree is used for it.  It never fails. *)
Lemma maybe_extend_spec f allow t :
  tracker_wf t → match_stack t ≠ [] →
  maybe_extend_invocation_match f allow t = (Ok false, t) ∨
  ∃ t', maybe_extend_invocation_match f allow t = (Ok true, t') ∧ tracker_used f t t'.
Proof.
  intros Hwf Hne. destruct t as [root ms fr fp]; simpl in Hne.
  destruct ms as [|m l _] using rev_ind; [done|].
  destruct (is_matched m) eqn:Hm.
  { left. unfold maybe_extend_invocation_match, m_bind, m_get. by rewrite current_frame_snoc, Hm. }
  assert (m = Unmatched) as -> by by destruct m. clear Hm Hne.
  rewrite maybe_extend_unmatched. pose proof Hwf as [Hr Hc _ _]; simpl in Hr, Hc.
  apply (root_ok_snoc root l) in Hr.
  destruct (at_root_spec f l root Hc Hr) as [[-> Hl]|[Hin [->|(k & root' & -> & Hu & Hok)]]].
  - destruct (negb (is_exhausted root) && allow && bool_decide (function root = f)) eqn:Hg; [|by left].
    apply andb_true_iff in Hg as [[He _]%andb_true_iff Hf%bool_decide_eq_true].
    apply negb_true_iff in He. right. eexists. split; [done|by apply extend_root_used].
  - by left.
  - right. eexists. split; [done|by eapply extend_sub_used].
Qed.

(** ** Frames *)

Lemma tracker_push_wf t : tracker_wf t → tracker_wf (tracker_push_frame t).
Proof.
  intros [Hr Hc Hun Hus]. destruct t as [root ms fr fp]; simpl in *. split; simpl; [|done..|].
  - by apply root_ok_snoc.
  - intros He. destruct (Hus He) as (k & -> & Hk). exists k. split; [done|]. destruct fp.
    + apply Forall_app. by split; [|constructor].
    + by apply lookup_app_l_Some.
Qed.

Lemma root_ok_root_last i ms : root_ok i (ms ++ [RootMatch]) → Forall (.= Unmatched) ms.
Proof.
  assert (∀ i ms, ¬ sub_ok i (ms ++ [RootMatch])) as Hsub.
  { clear. intros i ms. revert i. induction ms as [|[| |k] ms IH]; intros i; simpl; [tauto|apply IH|tauto|].
    intros (s & _ & _ & Hs). by apply (IH s). }
  induction ms as [|[| |k] ms IH]; simpl; intros Hok; [done| | |done].
  - constructor; [done|]. by apply IH.
  - by destruct Hok as [_ ?%Hsub].
Qed.

Lemma tracker_pop_wf t : tracker_wf t → tracker_wf (tracker_pop_frame t).
Proof.
  intros [Hr Hc Hun Hus]. destruct t as [root ms fr fp]; unfold tracker_pop_frame; simpl in *.
  destruct ms as [|m l _] using rev_ind; [|rewrite removelast_last].
  - destruct fr as [k|]; [|by split]. destruct (decide _) as [_|Hk]; [|simpl in Hk; lia].
    split; simpl; [done..| |].
    + intros He. by destruct (Hun He).
    + intros _. by exists k.
  - apply root_ok_init in Hr as Hr'. destruct fr as [k|].
    + case_decide as Hk; split; simpl; [done..| | |done|done|done|]; intros He.
      * by destruct (Hun He).
      * exists k. split; [done|]. destruct (Hus He) as (j & [= <-] & Hj). destruct fp.
        { by apply Forall_app in Hj as [Hj _]. }
        apply lookup_app_Some in Hj as [Hj%lookup_lt_Some|[_ Hj]]; [lia|].
        apply list_lookup_singleton_Some in Hj as [_ ->]. by eapply root_ok_root_last.
      * exists k. split; [done|]. destruct (Hus He) as (j & [= <-] & Hj). destruct fp.
        { by apply Forall_app in Hj as [Hj _]. }
        apply lookup_app_Some in Hj as [Hj|[Hj _]]; [done|lia].
    + split; simpl; [done..|]. intros He. destruct (Hus He) as (j & [=] & _).
Qed.

(** A call leaves the caller's trackers with the stack they had. *)
Lemma tracker_pop_after t t' :
  tracker_wf t → tracker_after (tracker_push_frame t) t' →
  tracker_after t (tracker_pop_frame t') ∧ match_stack (tracker_pop_frame t') = match_stack t.
Proof.
  intros [_ _ _ Hus] [Hle Hlen Hbelow Hfr]. destruct t as [root ms fr fp], t' as [root' ms' fr' fp'].
  unfold tracker_pop_frame; simpl in *. rewrite removelast_last in Hbelow. subst ms.
  assert (∀ fp'', (is_exhausted root = true → fp = fp'') →
    tracker_after (mkTracker root (removelast ms') fr fp) (mkTracker root' (removelast ms') fr' fp'')) as Hafter.
  { intros fp'' Hfp. split; simpl; [done..|]. intros He. split; [by apply Hfr|by apply Hfp]. }
  destruct fr' as [k|]; [case_decide as Hk|]; (split; [apply Hafter|done]); intros He;
    destruct (Hfr He) as [-> ->]; try done.
  destruct (Hus He) as (j & [= ->] & Hj). destruct fp'; [done|].
  apply lookup_lt_Some in Hj. lia.
Qed.

(** Rolling back and popping the frame brings a tracker back exactly. *)
Lemma tracker_rollback_exact t t' :
  tracker_wf t → tracker_after (tracker_push_frame t) t' →
  ∃ t'', tracker_rollback (tracker_snapshot (tracker_push_frame t)) t' = (Ok tt, t'') ∧
    tracker_pop_frame t'' = t.
Proof.
  intros [_ _ Hun Hus] [Hle Hlen Hbelow Hfr]. destruct t as [root ms fr fp], t' as [root' ms' fr' fp'].
  unfold tracker_pop_frame, tracker_rollback, m_bind, m_zoom, m_get, m_modify, tracker_snapshot; simpl in *.
  rewrite removelast_last in Hbelow. rewrite invocation_rollback_exact by done. simpl.
  destruct (is_exhausted root) eqn:He.
  - eexists. split; [done|]. simpl. destruct (Hfr eq_refl) as [<- <-].
    destruct (Hus eq_refl) as (k & -> & Hk). rewrite <-Hbelow. case_decide as Hd; [|done].
    destruct fp; [done|]. apply lookup_lt_Some in Hk. lia.
  - eexists. split; [done|]. simpl. destruct (Hun eq_refl) as [-> ->]. by rewrite <-Hbelow.
Qed.

Lemma pop_root t :
  root_authorized_invocation (tracker_pop_frame t) = root_authorized_invocation t.
Proof. unfold tracker_pop_frame. simpl. destruct (root_exhausted_frame t); [|done]. by case_decide. Qed.
