(* ===== verification/AuthThms.v ===== *)
(** What the authorization manager guarantees, for any behavior of the contracts that
    run: an account's authorization is used at most once and only if it was signed, and
    a failed call gives back what it used. *)
From S2P Require Import Prelude ScVal Storage AuthTree AccountAuth Auth TrackerThms.
#[local] Open Scope m_scope.

Lemma length_removelast {A} (l : list A) : length (removelast l) = pred (length l).
Proof.
  destruct l as [|x l _] using rev_ind; [done|]. rewrite removelast_last, length_app; simpl. lia.
Qed.

Lemma m_first_aux_inv {S T} (p : M (T * S) bool) xs s r xs' s' :
  (∀ x s y, x ∈ xs → p (x, s) = (Ok false, y) → y = (x, s)) →
  m_first_aux p xs s = (r, (xs', s')) →
  (r = Ok false ∧ xs' = xs ∧ s' = s) ∨
  ∃ i x x', xs !! i = Some x ∧ xs' = <[i := x']> xs ∧ p (x, s) = (r, (x', s')) ∧ r ≠ Ok false.
Proof.
  intros Hp. revert s r xs' s'. induction xs as [|x xs IH]; intros s r xs' s' Hr; simpl in Hr.
  { simplify_eq. by left. }
  destruct (p (x, s)) as [r1 [x1 s1]] eqn:Hx.
  assert (r1 = Ok false ∨ r1 ≠ Ok false ∧ r = r1 ∧ xs' = x1 :: xs ∧ s' = s1) as [->|(Hne & -> & -> & ->)].
  { destruct r1 as [[]|]; [right|by left|right]; by simplify_eq. }
  - apply Hp in Hx as [= -> ->]; [|by left].
    destruct (m_first_aux p xs s) as [r2 [xs2 s2]] eqn:Hr2. simplify_eq.
    destruct (IH ltac:(intros; eapply Hp; [by right|done]) _ _ _ _ Hr2) as
      [(-> & -> & ->)|(i & y & y' & Hi & -> & Hy & Hne)]; [by left|].
    right. exists (Datatypes.S i), y, y'. done.
  - right. exists O, x, x1. done.
Qed.

Definition is_panic (r : Result bool) : Prop := ∃ msg, r = Err (EPanic msg).

(** A tracker whose stack is still empty matches nothing; asked to match its root it
    panics. *)
Lemma maybe_extend_empty f allow t :
  tracker_wf t → match_stack t = [] →
  maybe_extend_invocation_match f allow t = (Ok false, t) ∨
  is_panic (maybe_extend_invocation_match f allow t).1.
Proof.
  intros _ Hms. destruct t as [root ms fr fp]; simpl in Hms; subst ms.
  unfold maybe_extend_invocation_match, m_bind, m_get, m_zoom; simpl.
  destruct (negb _ && allow && bool_decide _); [right|left; done]. by eexists.
Qed.

(** * The trackers of signed entries *)
Section auth.
Context {S : Type} `{LedgerStore S} (li : LedgerInfo).
Context (hash_payload : Hash → Z → Z → SorobanAuthorizedInvocation → Hash).
Context (verify_sig_ed25519 : N → Hash → N → bool).
Context (call_check_auth : Hash → Hash → ScVal → list AuthorizationContext → M S unit).

#[local] Abbreviation authenticate := (authenticate li hash_payload verify_sig_ed25519 call_check_auth).
#[local] Abbreviation maybe_authorize_invocation :=
  (maybe_authorize_invocation li hash_payload verify_sig_ed25519 call_check_auth).
#[local] Abbreviation require_auth_internal :=
  (require_auth_internal li hash_payload verify_sig_ed25519 call_check_auth).
#[local] Abbreviation require_auth :=
  (require_auth li hash_payload verify_sig_ed25519 call_check_auth).

(** What one frame can do to an account's tracker. *)
Record account_after (a a' : AccountAuthorizationTracker) : Prop := {
  aa_address : address a = address a';
  aa_signature : tracker_signature a = tracker_signature a';
  aa_source : is_transaction_source_account a = is_transaction_source_account a';
  aa_nonce : nonce a = nonce a';
  aa_tracker : tracker_after (invocation_tracker a) (invocation_tracker a');
  aa_verified : verified a = true → verified a' = true
}.

#[export] Instance account_after_preorder : PreOrder account_after.
Proof.
  split.
  - intros a. by split.
  - intros a1 a2 a3 [H1 H2 H3 H4 H5 H6] [K1 K2 K3 K4 K5 K6].
    split; [by etrans..|by eauto].
Qed.

(** The entry is the source account's, or its signature was checked against what it
    authorizes and its nonce was taken. *)
Definition authentic (a : AccountAuthorizationTracker) : Prop :=
  is_transaction_source_account a = true ∨
  (∃ s, (authenticate a s).1 = Ok tt) ∧ ∃ s, (verify_and_consume_nonce li a s).1 = Ok tt.

(** [a'] is [a] with one more node used for [f], by a tracker that is verified now. *)
Record account_used (f : AuthorizedFunction) (s : S) (a a' : AccountAuthorizationTracker) (s' : S) :
  Prop := {
  au_after : account_after a a';
  au_tracker : tracker_used f (invocation_tracker a) (invocation_tracker a');
  au_verified : verified a' = true;
  au_ledger :
    if verified a then s' = s
    else ∃ s1, authenticate a' s = (Ok tt, s1) ∧
               verify_and_consume_nonce li a' s1 = (Ok tt, s')
}.

Lemma authenticate_verified b a : authenticate (set_verified b a) = authenticate a.
Proof. by destruct a. Qed.
Lemma consume_verified b a :
  verify_and_consume_nonce li (S := S) (set_verified b a) = verify_and_consume_nonce li a.
Proof. by destruct a. Qed.

Lemma maybe_authorize_spec f allow a s :
  tracker_wf (invocation_tracker a) → match_stack (invocation_tracker a) ≠ [] →
  maybe_authorize_invocation f allow (a, s) = (Ok false, (a, s)) ∨
  ∃ r a' s', maybe_authorize_invocation f allow (a, s) = (r, (a', s')) ∧
    account_after a a' ∧ tracker_wf (invocation_tracker a') ∧
    (r = Ok true ∧ account_used f s a a' s' ∨ ∃ e, r = Err e).
Proof.
  intros Hwf Hne. unfold Auth.maybe_authorize_invocation, m_bind, m_zoom, m_get, m_map_err, m_modify; simpl.
  destruct (maybe_extend_spec f allow _ Hwf Hne) as [->|(t' & -> & Hu)]; simpl.
  { left. by destruct a. }
  right. assert (account_after a (set_invocation_tracker t' a)) as Haft.
  { destruct a; split; simpl; try done. by destruct Hu. }
  destruct (verified a) eqn:Hv.
  - eexists _, _, _. split; [done|]. split; [done|]. split; [by destruct a, Hu|]. left. split; [done|].
    split; [done|by destruct a|by destruct a|by rewrite Hv].
  - change (set_invocation_tracker t' a, s).2 with s.
    destruct (authenticate (set_invocation_tracker t' a) s) as [[[]|e] s1] eqn:Ha; simpl.
    2: { eexists _, _, _. split; [done|]. split; [done|]. split; [by destruct a, Hu|]. right. by eexists. }
    destruct (verify_and_consume_nonce li (set_invocation_tracker t' a) s1) as [[[]|e] s2] eqn:Hn; simpl.
    2: { eexists _, _, _. split; [done|]. split; [done|]. split; [by destruct a, Hu|]. right. by eexists. }
    eexists _, _, _. split; [done|].
    assert (account_after a (set_verified true (set_invocation_tracker t' a))) as Haft'.
    { destruct Haft, a; split; simpl in *; done. }
    split; [done|]. split; [by destruct a, Hu|]. left. split; [done|].
    split; [done|by destruct a|by destruct a|].
    rewrite Hv. exists s1. by rewrite authenticate_verified, consume_verified.
Qed.

(** * The manager *)

Definition invoker_after (i i' : InvokerContractAuthorizationTracker) : Prop :=
  contract_address i = contract_address i' ∧ tracker_after (invoker_tracker i) (invoker_tracker i').

#[export] Instance invoker_after_preorder : PreOrder invoker_after.
Proof. split; [done|]. intros ??? [??] [??]. split; by etrans. Qed.

Definition stack_depth (i : InvokerContractAuthorizationTracker) : nat :=
  length (match_stack (invoker_tracker i)).

(** The authorizations that the next call does not end: all but those the running
    contract has just given. *)
Definition kept (m : AuthorizationManager) : list InvokerContractAuthorizationTracker :=
  filter (λ i, stack_depth i ≠ O) (invoker_contract_trackers m).

Definition contract_frame (f : AuthStackFrame) : Prop :=
  match f with FrameContract i => ∃ c, ci_address i = Contract c | FrameCreateContract _ => True end.

(** Account trackers move in step with the call stack; those of contracts are younger
    the further back they are. *)
Record manager_wf (m : AuthorizationManager) : Prop := {
  mw_accounts : Forall (λ a, tracker_wf (invocation_tracker a) ∧
    length (match_stack (invocation_tracker a)) = length (call_stack m)) (account_trackers m);
  mw_invokers : Forall (λ i, tracker_wf (invoker_tracker i) ∧ ∃ c, contract_address i = Contract c)
    (invoker_contract_trackers m);
  mw_depths : StronglySorted ge (stack_depth <$> invoker_contract_trackers m);
  mw_frames : Forall contract_frame (call_stack m)
}.

(** What the code of one frame can do to the manager. *)
Record manager_after (m m' : AuthorizationManager) : Prop := {
  ma_stack : call_stack m = call_stack m';
  ma_accounts : Forall2 account_after (account_trackers m) (account_trackers m');
  ma_kept : Forall2 invoker_after (kept m) (kept m')
}.

#[export] Instance manager_after_preorder : PreOrder manager_after.
Proof. split; [by split|]. intros ??? [???] [???]. split; by etrans. Qed.

Lemma Forall2_filter {A} (R : relation A) (P : A → Prop) `{∀ x, Decision (P x)} l l' :
  (∀ x y, R x y → P x ↔ P y) → Forall2 R l l' → Forall2 R (filter P l) (filter P l').
Proof.
  intros HP. induction 1 as [|x y l l' Hxy _ IH]; [done|]. rewrite !list.filter_cons.
  apply HP in Hxy as Hp. case_decide; case_decide; [by constructor|tauto..|done].
Qed.

Lemma invoker_after_depth i i' : invoker_after i i' → stack_depth i = stack_depth i'.
Proof. by intros [_ [_ ? _ _]]. Qed.

Lemma Forall2_insert_diag {A} (R : relation A) `{!Reflexive R} (l : list A) i x x' :
  l !! i = Some x → R x x' → Forall2 R l (<[i := x']> l).
Proof.
  intros Hi Hx. rewrite <-(list_insert_id l i x) at 1 by done.
  apply Forall2_insert; [|done]. by apply Forall_Forall2_diag, Forall_true.
Qed.

Lemma used_nonempty f t t' : tracker_used f t t' → match_stack t ≠ [].
Proof.
  intros [_ [_ Hl _ _] _ _ Ht] Hn. rewrite Hn in Hl. unfold current_frame_is_already_matched in Ht.
  by destruct (match_stack t').
Qed.

(** An authorization given by contract [a] is used for [f]. *)
Definition invoker_used (a : ScAddress) (f : AuthorizedFunction) (m m' : AuthorizationManager) : Prop :=
  ∃ i t t', invoker_contract_trackers m !! i = Some t ∧ contract_address t = a ∧
    tracker_used f (invoker_tracker t) t' ∧
    m' = set_invoker_trackers (<[i := set_invoker_tracker t' t]> (invoker_contract_trackers m)) m.

Definition direct_invoker (a : ScAddress) (m : AuthorizationManager) : Prop :=
  ∃ i, call_stack m !! (length (call_stack m) - 2)%nat = Some (FrameContract i) ∧ ci_address i = a.

Lemma maybe_check_invoker_spec a f m r m' :
  manager_wf m → maybe_check_invoker_contract_auth a f m = (r, m') → ¬ is_panic r →
  (r = Ok false ∧ m' = m) ∨ r = Ok true ∧ (m' = m ∧ direct_invoker a m ∨ invoker_used a f m m').
Proof.
  intros [_ Hinv _ _]. unfold maybe_check_invoker_contract_auth, m_bind, m_get.
  case_decide as Hlen; [by intros [= <- <-]; left|].
  destruct (lookup_lt_is_Some_2 (call_stack m) (length (call_stack m) - 2)) as [fr Hfr]; [lia|].
  rewrite Hfr. destruct (match fr with FrameContract _ => _ | _ => _ end) eqn:Hd.
  { intros [= <- <-] _. right. split; [done|]. left. split; [done|].
    destruct fr as [i|]; [|done]. exists i. split; [done|]. by apply bool_decide_eq_true in Hd. }
  unfold m_zoom at 1, m_first. simpl. intros Hr Hp.
  destruct (m_first_aux _ _ tt) as [r1 [ts1 []]] eqn:Hf. simplify_eq.
  apply m_first_aux_inv in Hf as [(-> & -> & _)|(i & t & t' & Hi & -> & Ht & Hne)].
  - left. split; [done|]. by destruct m.
  - rewrite Forall_lookup in Hinv. destruct (Hinv i t Hi) as [Hwf _]. simpl in Ht.
    case_bool_decide as Ha; [|by injection Ht as <- _].
    unfold m_zoom in Ht; simpl in Ht. right.
    destruct (decide (match_stack (invoker_tracker t) = [])) as [Hn|Hn].
    + destruct (maybe_extend_empty f true _ Hwf Hn) as [Hx|Hx]; destruct (maybe_extend_invocation_match _ _ _); simplify_eq/=.
    + destruct (maybe_extend_spec f true _ Hwf Hn) as [Hx|(t1 & Hx & Hu)]; rewrite Hx in Ht; simplify_eq.
      split; [done|]. right. by exists i, t, t1.
  - intros t [] y [j Hj]%list_elem_of_lookup. rewrite Forall_lookup in Hinv.
    destruct (Hinv j t Hj) as [Hwf _]. simpl.
    case_bool_decide; [|by intros [= <-]]. unfold m_zoom; simpl.
    destruct (decide (match_stack (invoker_tracker t) = [])) as [Hn|Hn].
    + destruct (maybe_extend_empty f true _ Hwf Hn) as [->|[msg Hx]]; [by destruct t; intros [= <-]|].
      by destruct (maybe_extend_invocation_match _ _ _); simplify_eq/=.
    + destruct (maybe_extend_spec f true _ Hwf Hn) as [->|(t1 & -> & Hu)]; [|done].
      by destruct t; intros [= <-].
Qed.

(** A tracker of [a]'s signed entries is used for [f]. *)
Definition signed_used (a : ScAddress) (f : AuthorizedFunction) (m : AuthorizationManager) (s : S)
    (m' : AuthorizationManager) (s' : S) : Prop :=
  ∃ i t t', account_trackers m !! i = Some t ∧ address t = a ∧ account_used f s t t' s' ∧
    m' = set_account_trackers (<[i := t']> (account_trackers m)) m.

Lemma account_in_frame m t :
  manager_wf m → call_stack m ≠ [] → t ∈ account_trackers m →
  tracker_wf (invocation_tracker t) ∧ match_stack (invocation_tracker t) ≠ [].
Proof.
  intros [Hacc _ _ _] Hne Ht. rewrite Forall_forall in Hacc. destruct (Hacc t Ht) as [Hwf Hlen].
  split; [done|]. intros Hms. rewrite Hms in Hlen. by destruct (call_stack m).
Qed.

Lemma require_auth_enforcing_spec a f m s r m' s' :
  manager_wf m → call_stack m ≠ [] →
  require_auth_enforcing li hash_payload verify_sig_ed25519 call_check_auth a f (m, s) = (r, (m', s')) →
  (r = Ok tt ∧ signed_used a f m s m' s') ∨
  ∃ e, r = Err e ∧ (m' = m ∧ s' = s ∨
    ∃ i t t', account_trackers m !! i = Some t ∧ account_after t t' ∧ tracker_wf (invocation_tracker t') ∧
      m' = set_account_trackers (<[i := t']> (account_trackers m)) m).
Proof.
  intros Hwf Hne. unfold require_auth_enforcing, m_bind, m_get, m_zoom at 1, m_first. simpl.
  destruct (m_first_aux _ _ _) as [r1 [ts1 s1]] eqn:Hf. intros Hr.
  apply m_first_aux_inv in Hf as [(-> & -> & ->)|(i & t & t' & Hi & -> & Ht & Hn)].
  - injection Hr as <- <- <-. right. eexists. split; [done|]. left. by destruct m.
  - destruct (account_in_frame m t Hwf Hne) as [Htwf Hms]; [by eapply list_elem_of_lookup_2|].
    simpl in Ht. case_bool_decide as Ha; [|by injection Ht as <-].
    destruct (maybe_authorize_spec f (negb (has_active_tracker a m)) t s Htwf Hms) as
      [Hx|(r2 & t2 & s2 & Hx & Haft & Hwf2 & [[-> Hu]|[e ->]])]; rewrite Hx in Ht; simplify_eq.
    + injection Hr as <- <- <-. left. split; [done|]. by exists i, t, t'.
    + right. eexists. split; [done|]. right. by exists i, t, t'.
  - intros t s2 y Ht. simpl. case_bool_decide; [|by intros [= <-]].
    destruct (account_in_frame m t Hwf Hne Ht) as [Htwf Hms].
    destruct (maybe_authorize_spec f (negb (has_active_tracker a m)) t s2 Htwf Hms) as
      [->|(r2 & t2 & s3 & -> & _ & _ & [[-> _]|[e ->]])]; [|done..]. by intros [= <-].
Qed.

(** Changing one tracker as a frame may keeps the manager well-formed. *)
Lemma change_account m i t t' :
  manager_wf m → account_trackers m !! i = Some t → account_after t t' →
  tracker_wf (invocation_tracker t') →
  let m' := set_account_trackers (<[i := t']> (account_trackers m)) m in
  manager_wf m' ∧ manager_after m m'.
Proof.
  intros [Hacc Hinv Hd Hfr] Hi Haft Hwf. split.
  - split; simpl; [|done..]. apply Forall_insert; [done|]. split; [done|].
    rewrite Forall_lookup in Hacc. destruct (Hacc i t Hi) as [_ <-].
    by destruct Haft as [_ _ _ _ [_ ? _ _] _].
  - split; simpl; [done| |done]. by eapply Forall2_insert_diag.
Qed.

Lemma change_invoker m i t t' :
  manager_wf m → invoker_contract_trackers m !! i = Some t →
  tracker_after (invoker_tracker t) t' → tracker_wf t' →
  let m' := set_invoker_trackers (<[i := set_invoker_tracker t' t]> (invoker_contract_trackers m)) m in
  manager_wf m' ∧ manager_after m m'.
Proof.
  intros [Hacc Hinv Hd Hfr] Hi Haft Hwf.
  assert (invoker_after t (set_invoker_tracker t' t)) as Hia by by destruct t.
  split.
  - split; simpl; [done| | |done].
    + apply Forall_insert; [done|]. rewrite Forall_lookup in Hinv. by destruct t, (Hinv i _ Hi).
    + rewrite list_fmap_insert, list_insert_id; [done|].
      rewrite list_lookup_fmap, Hi. simpl. f_equal. by apply invoker_after_depth.
  - split; simpl; [done|done|]. apply Forall2_filter.
    + intros x y ->%invoker_after_depth. done.
    + by eapply Forall2_insert_diag.
Qed.

(** [require_auth_internal] with its outcomes: granted by the direct caller, by an
    authorization a contract gave, by a signed entry; or refused. *)
Lemma require_auth_internal_spec a f m s r m' s' :
  manager_wf m → call_stack m ≠ [] →
  require_auth_internal a f (m, s) = (r, (m', s')) → (∀ msg, r ≠ Err (EPanic msg)) →
  manager_wf m' ∧ manager_after m m' ∧
  (r = Ok tt → (m', s') = (m, s) ∧ direct_invoker a m ∨ s' = s ∧ invoker_used a f m m' ∨
               signed_used a f m s m' s').
Proof.
  intros Hwf Hne. unfold Auth.require_auth_internal, m_bind, m_zoom. simpl.
  destruct (maybe_check_invoker_contract_auth a f m) as [r1 m1] eqn:Hc. intros Hr Hp.
  destruct (maybe_check_invoker_spec a f m r1 m1 Hwf Hc) as [[-> ->]|[-> [[-> Hd]|Hu]]].
  - intros [msg ->]. injection Hr as <- _ _. by apply (Hp msg).
  - apply require_auth_enforcing_spec in Hr as [[-> Hu]|(e & -> & [[-> ->]|(i & t & t' & Hi & Haft & Htwf & ->)])]; try done.
    + destruct Hu as (i & t & t' & Hi & <- & Hu & ->).
      destruct (change_account m i t t' Hwf Hi) as [??]; [by destruct Hu|by destruct Hu as [_ [] _ _]|].
      split; [done|]. split; [done|]. intros _. right. right. by exists i, t, t'.
    + by destruct (change_account m i t t' Hwf Hi Haft Htwf) as [??].
  - injection Hr as <- <- <-. split; [done|]. split; [done|]. by left.
  - injection Hr as <- <- <-. destruct Hu as (i & t & t' & Hi & <- & Hu & ->).
    destruct (change_invoker m i t t' Hwf Hi) as [??]; [by destruct Hu..|].
    split; [done|]. split; [done|]. right. left. split; [done|]. by exists i, t, t'.
Qed.

(** ** Frames *)

Lemma push_depth i : stack_depth (push_invoker i) = Datatypes.S (stack_depth i).
Proof. unfold stack_depth; simpl. by rewrite length_app, Nat.add_comm. Qed.
Lemma pop_stack t : match_stack (tracker_pop_frame t) = removelast (match_stack t).
Proof.
  unfold tracker_pop_frame. destruct t as [root ms fr fp]; simpl.
  destruct fr; [|done]. by case_decide.
Qed.
Lemma pop_depth i : stack_depth (pop_invoker i) = pred (stack_depth i).
Proof. unfold stack_depth; simpl. by rewrite pop_stack, length_removelast. Qed.

Lemma push_depths (l : list InvokerContractAuthorizationTracker) :
  stack_depth <$> (push_invoker <$> l) = Datatypes.S <$> (stack_depth <$> l).
Proof. rewrite <-!list_fmap_compose. apply list_fmap_ext. intros ? i _. apply push_depth. Qed.
Lemma pop_depths (l : list InvokerContractAuthorizationTracker) :
  stack_depth <$> (pop_invoker <$> l) = pred <$> (stack_depth <$> l).
Proof. rewrite <-!list_fmap_compose. apply list_fmap_ext. intros ? i _. apply pop_depth. Qed.

Lemma StronglySorted_map {A B} (R : relation A) (R' : relation B) (f : A → B) l :
  (∀ x y, R x y → R' (f x) (f y)) → StronglySorted R l → StronglySorted R' (f <$> l).
Proof.
  intros Hf. induction 1 as [|x l _ IH Hx]; simpl; constructor; [done|].
  rewrite Forall_fmap. eapply Forall_impl; [done|]. simpl. auto.
Qed.

Lemma StronglySorted_prefix {A} (R : relation A) l x :
  StronglySorted R (l ++ [x]) → StronglySorted R l ∧ Forall (λ y, R y x) l.
Proof.
  induction l as [|y l IH]; simpl; intros Hs; [by split; constructor|].
  apply StronglySorted_inv in Hs as [Hs Hy]. apply IH in Hs as [??].
  apply Forall_app in Hy as [Hy [Hyx _]%Forall_cons].
  split; [by apply SSorted_cons|by apply Forall_cons].
Qed.

(** Going out of scope: the loop at the end of [pop_frame] drops exactly the trackers
    with an empty stack. *)
Lemma drop_out_of_scope_spec l :
  StronglySorted ge (stack_depth <$> l) →
  rev (drop_out_of_scope (rev l)) = filter (λ i, stack_depth i ≠ O) l.
Proof.
  induction l as [|x l IH] using rev_ind; intros Hs; [done|].
  rewrite rev_app_distr, filter_snoc. simpl. rewrite fmap_app in Hs; simpl in Hs.
  apply StronglySorted_prefix in Hs as [Hs Hx].
  unfold is_out_of_scope, tracker_is_empty. case_bool_decide as Hms.
  - rewrite decide_False by (unfold stack_depth; rewrite Hms; auto).
    by rewrite app_nil_r, IH.
  - assert (stack_depth x ≠ O) as Hd by (unfold stack_depth; by destruct (match_stack _)).
    rewrite decide_True by done. simpl. rewrite rev_involutive. f_equal. symmetry.
    apply filter_all. intros y Hy. rewrite Forall_fmap, Forall_forall in Hx.
    specialize (Hx y Hy). simpl in Hx. lia.
Qed.

Definition popped (m : AuthorizationManager) : AuthorizationManager :=
  mkManager (pop_account <$> account_trackers m)
    (filter (λ i, stack_depth i ≠ O) (pop_invoker <$> invoker_contract_trackers m))
    (removelast (call_stack m)).

Lemma pop_depths_sorted l :
  StronglySorted ge (stack_depth <$> l) → StronglySorted ge (stack_depth <$> (pop_invoker <$> l)).
Proof.
  intros Hs. rewrite pop_depths. eapply StronglySorted_map; [|done]. lia.
Qed.

Lemma manager_pop_none m :
  manager_wf m → call_stack m ≠ [] → manager_pop_frame None m = (Ok tt, popped m).
Proof.
  intros [_ _ Hd _] Hne. unfold manager_pop_frame, m_bind, m_ret, m_get.
  rewrite decide_False by done. unfold m_modify, popped. do 2 f_equal.
  by rewrite drop_out_of_scope_spec by by apply pop_depths_sorted.
Qed.

Lemma push_wf fr m : manager_wf m → contract_frame fr → manager_wf (push_auth_frame fr m).
Proof.
  intros [Hacc Hinv Hd Hfr] Hf. split; simpl.
  - rewrite Forall_fmap. eapply Forall_impl; [done|]. simpl. intros a [Hwf Hlen].
    split; [by apply tracker_push_wf|]. by rewrite !length_app, Hlen.
  - rewrite Forall_fmap. eapply Forall_impl; [done|]. simpl. intros i [Hwf Hc].
    split; [by apply tracker_push_wf|done].
  - rewrite (push_depths (invoker_contract_trackers m)). eapply StronglySorted_map; [|done]. lia.
  - apply Forall_app. by split; [|constructor].
Qed.

Lemma filter_full_length {A} (P : A → Prop) `{∀ x, Decision (P x)} (l : list A) :
  length (filter P l) = length l → filter P l = l.
Proof.
  induction l as [|x l IH]; [done|]. rewrite list.filter_cons. case_decide; simpl.
  - intros [= ?]. f_equal. auto.
  - intros Hl. pose proof (length_filter P l). lia.
Qed.

Lemma filter_nested {A B} (P : B → Prop) (Q : A → Prop) `{∀ x, Decision (P x), ∀ x, Decision (Q x)}
    (f : A → B) (l : list A) :
  (∀ x, P (f x) → Q x) → filter P (f <$> filter Q l) = filter P (f <$> l).
Proof.
  intros HPQ. induction l as [|x l IH]; [done|]. rewrite list.filter_cons, fmap_cons, list.filter_cons.
  specialize (HPQ x). case_decide as HQ.
  - rewrite fmap_cons, list.filter_cons. by rewrite IH.
  - by rewrite decide_False by tauto.
Qed.

Lemma kept_push fr m : kept (push_auth_frame fr m) = push_invoker <$> invoker_contract_trackers m.
Proof.
  apply filter_all. intros i Hi. apply list_elem_of_fmap in Hi as (j & -> & _).
  by rewrite push_depth.
Qed.

Lemma Forall2_pushed {A B} (R : relation B) (Q : A → B → Prop) (push : A → B) (P : A → Prop) l l' :
  (∀ x y, P x → R (push x) y → Q x y) →
  Forall P l → Forall2 R (push <$> l) l' → Forall2 Q l l'.
Proof.
  intros HQ HP. revert l'. induction HP as [|x l Hx _ IH]; intros l' Hl; inversion Hl; subst;
    constructor; eauto.
Qed.

Lemma popped_wf m : manager_wf m → manager_wf (popped m).
Proof.
  intros [Hacc Hinv Hd Hfr]. split; simpl.
  - rewrite Forall_fmap. eapply Forall_impl; [done|]. simpl. intros a [Hwf Hlen].
    split; [by apply tracker_pop_wf|]. by rewrite pop_stack, !length_removelast, Hlen.
  - apply Forall_forall. intros i [_ Hi]%list_elem_of_filter.
    apply list_elem_of_fmap in Hi as (j & -> & Hj). rewrite Forall_forall in Hinv.
    destruct (Hinv j Hj) as [Hwf Hc]. split; [by apply tracker_pop_wf|done].
  - apply pop_depths_sorted in Hd. revert Hd. generalize (pop_invoker <$> invoker_contract_trackers m) as l.
    clear. intros l. induction l as [|x l IH]; [done|]. simpl. intros [Hs Hx]%StronglySorted_inv.
    rewrite list.filter_cons. case_decide; [|by apply IH]. simpl. constructor; [by apply IH|].
    apply Forall_forall. intros n Hn. apply list_elem_of_fmap in Hn as (j & -> & [_ Hj]%list_elem_of_filter).
    rewrite Forall_fmap, Forall_forall in Hx. by apply Hx.
  - destruct (call_stack m) as [|fr l _] using rev_ind; [done|].
    rewrite removelast_last. by apply Forall_app in Hfr as [? _].
Qed.

(** A call that ended well: the caller's trackers are where they were, with more used. *)
Lemma call_after fr m m2 :
  manager_wf m → manager_wf m2 → manager_after (push_auth_frame fr m) m2 →
  manager_pop_frame None m2 = (Ok tt, popped m2) ∧ manager_wf (popped m2) ∧ manager_after m (popped m2).
Proof.
  intros [Hacc Hinv _ _] Hwf2 [Hst Hacc2 Hkept].
  assert (call_stack m2 = call_stack m ++ [fr]) as Hst2 by done.
  split; [apply manager_pop_none; [done|rewrite Hst2; by destruct (call_stack m)]|].
  split; [by apply popped_wf|]. split; simpl.
  - by rewrite Hst2, removelast_last.
  - apply Forall2_fmap_r. eapply (Forall2_pushed account_after); [|exact Hacc|exact Hacc2].
    intros a a2 [Hwf _] [H1 H2 H3 H4 H5 H6].
    split; [done..| |done]. by apply tracker_pop_after.
  - rewrite kept_push in Hkept. unfold kept at 2. simpl.
    rewrite list_filter_filter_r by done.
    rewrite <-(filter_nested (λ i, stack_depth i ≠ O) (λ i, stack_depth i ≠ O))
      by (intros i; rewrite pop_depth; lia).
    apply Forall2_filter; [by intros ?? ->%invoker_after_depth|].
    apply Forall2_fmap_r. eapply (Forall2_pushed invoker_after); [|exact Hinv|exact Hkept].
    intros i j [Hwf _] [Hc Ha]. split; [done|]. by apply tracker_pop_after.
Qed.

Lemma m_zip_undo {A B} (snap : A → M B unit) (undo : B → A) l l2 :
  Forall2 (λ a b, ∃ b', snap a b = (Ok tt, b') ∧ undo b' = a) l l2 →
  ∃ l', m_zip (snap <$> l) l2 = (Ok tt, l') ∧ undo <$> l' = l.
Proof.
  induction 1 as [|a b l l2 (b' & Hb & Hu) _ (l' & Hl & Hul)]; [by exists []|].
  exists (b' :: l'). rewrite !fmap_cons. simpl. by rewrite Hb, Hl, Hu, Hul.
Qed.

Lemma account_rollback_exact a a2 :
  tracker_wf (invocation_tracker a) → account_after (push_account a) a2 →
  ∃ a', account_rollback (account_snapshot (push_account a)) a2 = (Ok tt, a') ∧ pop_account a' = a.
Proof.
  intros Hwf [H1 H2 H3 H4 H5 _]. destruct (tracker_rollback_exact _ _ Hwf H5) as (t & Ht & Hpop).
  unfold account_rollback, m_bind, m_zoom, m_modify, account_snapshot. simpl. rewrite Ht.
  eexists. split; [done|]. unfold pop_account. simpl. rewrite Hpop.
  destruct a, a2; simpl in *. by subst.
Qed.

Lemma invoker_rollback_exact i i2 :
  tracker_wf (invoker_tracker i) → invoker_after (push_invoker i) i2 →
  ∃ i', m_zoom invoker_tracker set_invoker_tracker
          (tracker_rollback (tracker_snapshot (invoker_tracker (push_invoker i)))) i2 = (Ok tt, i') ∧
    pop_invoker i' = i.
Proof.
  intros Hwf [H1 H2]. destruct (tracker_rollback_exact _ _ Hwf H2) as (t & Ht & Hpop).
  unfold m_zoom. simpl. rewrite Ht. eexists. split; [done|]. unfold pop_invoker. simpl. rewrite Hpop.
  destruct i, i2; simpl in *. by subst.
Qed.

(** Where no authorization given in the failed frame is left over. *)
Definition no_leftovers (m m2 : AuthorizationManager) : Prop :=
  length (invoker_contract_trackers m2) = length (invoker_contract_trackers m).

Lemma manager_rollback_exact fr m m2 :
  manager_wf m → manager_after (push_auth_frame fr m) m2 → no_leftovers m m2 →
  ∃ m3, manager_rollback (manager_snapshot (push_auth_frame fr m)) m2 = (Ok tt, m3) ∧
    pop_account <$> account_trackers m3 = account_trackers m ∧
    pop_invoker <$> invoker_contract_trackers m3 = invoker_contract_trackers m ∧
    call_stack m3 = call_stack m2.
Proof.
  intros [Hacc Hinv _ _] [_ Hacc2 Hkept] Hlen. rewrite kept_push in Hkept.
  assert (kept m2 = invoker_contract_trackers m2) as Hall.
  { apply filter_full_length. apply Forall2_length in Hkept. rewrite length_fmap in Hkept.
    unfold kept in Hkept. by rewrite <-Hkept. }
  rewrite Hall in Hkept.
  destruct (m_zip_undo (λ a, account_rollback (account_snapshot (push_account a))) pop_account
              (account_trackers m) (account_trackers m2)) as (acc & Hz & Hpop).
  { eapply (Forall2_pushed account_after); [|exact Hacc|exact Hacc2].
    intros a b [Hwf _]. by apply account_rollback_exact. }
  destruct (m_zip_undo (λ i, m_zoom invoker_tracker set_invoker_tracker
      (tracker_rollback (tracker_snapshot (invoker_tracker (push_invoker i))))) pop_invoker
      (invoker_contract_trackers m) (invoker_contract_trackers m2)) as (inv & Hzi & Hpopi).
  { eapply (Forall2_pushed invoker_after); [|exact Hinv|exact Hkept].
    intros i j [Hwf _]. by apply invoker_rollback_exact. }
  exists (mkManager acc inv (call_stack m2)). split; [|done].
  unfold manager_rollback, m_bind, m_get, m_zoom. simpl.
  apply Forall2_length in Hacc2 as Hl. simpl in Hl. rewrite length_fmap in Hl.
  rewrite !length_fmap, <-Hl, !decide_True by done.
  rewrite <-!list_fmap_compose. unfold compose in *. rewrite Hz. simpl.
  unfold m_zoom in Hzi. simpl in Hzi. by rewrite Hzi.
Qed.

Lemma manager_rollback_leftover fr m m2 :
  manager_wf m → manager_after (push_auth_frame fr m) m2 → ¬ no_leftovers m m2 →
  (manager_rollback (manager_snapshot (push_auth_frame fr m)) m2).1 = Err (EHost TAuth InternalError).
Proof.
  intros [Hacc _ _ _] [_ Hacc2 _] Hlen.
  destruct (m_zip_undo (λ a, account_rollback (account_snapshot (push_account a))) pop_account
              (account_trackers m) (account_trackers m2)) as (acc & Hz & Hpop).
  { eapply (Forall2_pushed account_after); [|exact Hacc|exact Hacc2].
    intros a b [Hwf _]. by apply account_rollback_exact. }
  unfold manager_rollback, m_bind, m_get, m_zoom. simpl.
  apply Forall2_length in Hacc2 as Hl. simpl in Hl. rewrite length_fmap in Hl.
  rewrite !length_fmap, <-Hl, decide_True, decide_False by done.
  rewrite <-!list_fmap_compose. unfold compose in *. by rewrite Hz.
Qed.

(** A call that failed: its use of signed entries and of authorizations is given back,
    exactly.  If it leaves an authorization it gave behind, the host gives up. *)
Lemma call_undone fr m m2 :
  manager_wf m → manager_after (push_auth_frame fr m) m2 →
  let pop := manager_pop_frame (Some (manager_snapshot (push_auth_frame fr m))) m2 in
  (no_leftovers m m2 → pop = (Ok tt, set_invoker_trackers (kept m) m)) ∧
  (¬ no_leftovers m m2 → pop.1 = Err (EHost TAuth InternalError)).
Proof.
  intros Hwf Haft. unfold manager_pop_frame, m_bind. split; intros Hlen.
  - destruct (manager_rollback_exact fr m m2 Hwf Haft Hlen) as (m3 & -> & Hacc & Hinv & Hst).
    destruct Haft as [Hst2 _ _], Hwf as [_ _ Hd _].
    assert (call_stack m2 = call_stack m ++ [fr]) as Hst' by done.
    unfold m_get. rewrite decide_False by (rewrite Hst, Hst'; by destruct (call_stack m)).
    unfold m_modify. rewrite Hacc, Hinv, Hst, Hst', removelast_last.
    by rewrite drop_out_of_scope_spec.
  - pose proof (manager_rollback_leftover fr m m2 Hwf Haft Hlen) as Hr.
    destruct (manager_rollback _ m2) as [r m3]. simpl in Hr. by subst r.
Qed.
End auth.

(** * Authorization a contract gives is unused *)
Section entry_ind.
Context (P : InvokerContractAuthEntry → Prop).
Context (Hc : ∀ f entries, Forall P entries → P (EntryContract f entries)).
Context (Hcreate : ∀ x salt, P (EntryCreateContract x salt)).
Context (Hctor : ∀ x salt args, P (EntryCreateContractWithCtor x salt args)).
Fixpoint entry_nested_ind (e : InvokerContractAuthEntry) : P e :=
  match e with
  | EntryContract f entries => Hc f entries ((fix go l : Forall P l :=
      match l with
      | [] => List.Forall_nil P
      | x :: l => List.Forall_cons P x l (entry_nested_ind x) (go l)
      end) entries)
  | EntryCreateContract x salt => Hcreate x salt
  | EntryCreateContractWithCtor x salt args => Hctor x salt args
  end.
End entry_ind.

Definition fresh_tree (i : AuthorizedInvocation) : Prop := tree_closed i ∧ is_exhausted i = false.

Lemma fresh_tree_new f subs : Forall fresh_tree subs → fresh_tree (invocation_new f subs).
Proof.
  intros Hs. split; [|done]. constructor.
  - eapply Forall_impl; [done|]. by intros ? [].
  - intros _. eapply Forall_impl; [done|]. by intros ? [].
Qed.

Lemma to_authorized_invocation_fresh invoker e i :
  to_authorized_invocation invoker e = Ok i → fresh_tree i.
Proof.
  revert i. induction e as [f entries IH|x salt|x salt args] using entry_nested_ind; intros i; simpl.
  - match goal with |- context [match ?g with Ok _ => _ | Err _ => _ end] =>
      destruct g as [subs|] eqn:Hg end; [|done].
    intros [= <-]. apply fresh_tree_new. revert subs Hg.
    induction IH as [|e l He _ IHl]; intros subs Hg; [by simplify_eq|].
    destruct (to_authorized_invocation invoker e) as [j|] eqn:Hj; [|done].
    match type of Hg with match ?g with _ => _ end = _ => destruct g as [js|] eqn:Hjs end; [|done].
    injection Hg as <-. constructor; auto.
  - unfold authorized_creation. destruct x; [|done]. intros [= <-]. by apply fresh_tree_new.
  - unfold authorized_creation. destruct x; [|done]. intros [= <-]. by apply fresh_tree_new.
Qed.

Lemma fresh_tracker_wf i : fresh_tree i → tracker_wf (tracker_new i).
Proof. intros [Hc Hx]. split; simpl; [done|done|done|congruence]. Qed.

Lemma add_invoker_after c entries m r m' :
  add_invoker_contract_auth_with_curr_contract_as_invoker c entries m = (r, m') →
  manager_wf m → manager_wf m' ∧ manager_after m m' ∧ account_trackers m' = account_trackers m.
Proof.
  revert m. induction entries as [|e entries IH]; intros m; simpl; [by intros [= _ <-]|].
  unfold m_bind, m_lift, m_modify, new_with_curr_contract_as_invoker.
  destruct (to_authorized_invocation (Contract c) e) as [i|err] eqn:He; [|by intros [= _ <-]].
  apply to_authorized_invocation_fresh, fresh_tracker_wf in He.
  intros Hr [Hacc Hinv Hd Hfr]. apply IH in Hr as (Hwf & Haft & Hsame).
  - split; [done|]. split; [|done]. etrans; [|done]. split; simpl; [done..|].
    unfold kept. simpl. rewrite filter_snoc, decide_False by (intros Hn; by apply Hn).
    by rewrite app_nil_r.
  - split; simpl; [done| | |done].
    + apply Forall_app. split; [done|]. apply Forall_singleton. split; [done|]. by exists c.
    + rewrite fmap_app. clear -Hd. induction (stack_depth <$> invoker_contract_trackers m) as [|n l IHl];
        simpl; [repeat constructor|].
      apply StronglySorted_inv in Hd as [Hd Hn]. constructor; [by apply IHl|].
      apply Forall_app. split; [done|]. apply Forall_singleton. cbv. lia.
Qed.
