(* ===== verification/FrameThms.v ===== *)
(** Whatever contracts do: the histories of nested calls, and what the authorization
    manager and the frames guarantee for all of them. *)
From S2P Require Import Prelude ScVal Storage Host AuthTree AccountAuth Auth Frame TrackerThms AuthThms.
#[local] Open Scope m_scope.

Section runs.
Context {S : Type} `{LedgerStore S, Rollback S} (li : LedgerInfo).
Context (hash_payload : Hash → Z → Z → SorobanAuthorizedInvocation → Hash).
Context (verify_sig_ed25519 : N → Hash → N → bool).
Context (call_check_auth : Hash → Hash → ScVal → list AuthorizationContext → M S unit).

#[local] Abbreviation require_auth := (require_auth li hash_payload verify_sig_ed25519 call_check_auth).
#[local] Abbreviation authenticate := (authenticate li hash_payload verify_sig_ed25519 call_check_auth).
#[local] Abbreviation authentic := (authentic li hash_payload verify_sig_ed25519 call_check_auth).

(** [runs ok m granted m']: code of the current frame takes the machine from [m] to
    [m'], and stops there, at will or, if [ok] is false, perhaps because a host function
    failed.  It may change the ledger, emit events, ask for authorization, authorize
    calls to come, call contracts (whose failure it may survive), and create them.
    [granted] are the authorizations it and the calls that ended well obtained. *)
Inductive runs : bool → Machine S → list (ScAddress * AuthorizedFunction) → Machine S → Prop :=
| run_stop ok m : runs ok m [] m
| run_ledger ok m s evs tr m' :
    runs ok (mkMachine (context_stack m) s (events m ++ evs) (auth_manager m)) tr m' →
    runs ok m tr m'
| run_require ok m a args fr m1 tr m' :
    last (call_stack (auth_manager m)) = Some fr →
    on_auth (require_auth a args) m = (Ok tt, m1) →
    runs ok m1 tr m' →
    runs ok m ((a, to_authorized_function fr args) :: tr) m'
| run_require_failed m a args e m1 :
    on_auth (require_auth a args) m = (Err e, m1) → (∀ msg, e ≠ EPanic msg) →
    runs false m [] m1
| run_authorize ok m c entries m1 tr m' :
    on_manager (add_invoker_contract_auth_with_curr_contract_as_invoker c entries) m = (Ok tt, m1) →
    runs ok m1 tr m' → runs ok m tr m'
| run_authorize_failed m c entries e m1 :
    on_manager (add_invoker_contract_auth_with_curr_contract_as_invoker c entries) m = (Err e, m1) →
    runs false m [] m1
| run_call ok m id fn args rp m1 tr1 m2 fr m3 tr2 m' :
    push_context (ContractFrame id fn args) m = (Ok rp, m1) →
    runs true m1 tr1 m2 → pop_context None m2 = (Ok fr, m3) → runs ok m3 tr2 m' →
    runs ok m (tr1 ++ tr2) m'
| run_call_failed ok m id fn args rp m1 tr1 m2 fr m3 tr2 m' :
    push_context (ContractFrame id fn args) m = (Ok rp, m1) →
    runs false m1 tr1 m2 → pop_context (Some rp) m2 = (Ok fr, m3) → runs ok m3 tr2 m' →
    runs ok m tr2 m'
| run_create ok m args m1 tr1 m2 m3 tr2 m' :
    on_manager (m_modify (push_create_contract_host_fn_frame args)) m = (Ok tt, m1) →
    runs true m1 tr1 m2 → on_manager (manager_pop_frame None) m2 = (Ok tt, m3) → runs ok m3 tr2 m' →
    runs ok m (tr1 ++ tr2) m'
| run_create_failed m args m1 tr1 m2 m3 :
    on_manager (m_modify (push_create_contract_host_fn_frame args)) m = (Ok tt, m1) →
    runs false m1 tr1 m2 → on_manager (manager_pop_frame None) m2 = (Ok tt, m3) →
    runs false m [] m3.

(** ** One step of the machine *)

Definition contract_auth_frame (id : Hash) (fn : string) : AuthStackFrame :=
  FrameContract (mkContractInvocation (Contract id) fn).

Lemma push_context_eq id fn args (m : Machine S) :
  push_context (ContractFrame id fn args) m =
  let a := push_auth_frame (contract_auth_frame id fn) (auth_manager m) in
  (Ok (mkRollbackPoint (storage m) (length (events m)) (manager_snapshot a)),
   mkMachine (context_stack m ++ [ContractFrame id fn args]) (storage m) (events m) a).
Proof. done. Qed.

Lemma pop_context_none (m m' : Machine S) fr :
  pop_context None m = (Ok fr, m') →
  ∃ a, manager_pop_frame None (auth_manager m) = (Ok tt, a) ∧
    m' = mkMachine (removelast (context_stack m)) (storage m) (events m) a.
Proof.
  unfold pop_context, m_bind, m_get, m_ret, m_modify, on_manager, m_zoom, m_lift. simpl.
  destruct (manager_pop_frame None (auth_manager m)) as [[[]|] a]; [|done].
  intros [= _ <-]. by exists a.
Qed.

Lemma pop_context_some (m m' : Machine S) rp fr :
  pop_context (Some rp) m = (Ok fr, m') →
  ∃ a, manager_pop_frame (Some (rp_auth rp)) (auth_manager m) = (Ok tt, a) ∧
    m' = mkMachine (removelast (context_stack m)) (restore (rp_storage rp) (storage m))
           (rollback_events (rp_events rp) (events m)) a.
Proof.
  unfold pop_context, m_bind, m_get, m_ret, m_modify, on_manager, m_zoom, m_lift. simpl.
  destruct (manager_pop_frame (Some (rp_auth rp)) (auth_manager m)) as [[[]|] a]; [|done].
  intros [= _ <-]. by exists a.
Qed.

Lemma on_manager_inv {A} (p : M AuthorizationManager A) (m : Machine S) r m' :
  on_manager p m = (r, m') → p (auth_manager m) = (r, auth_manager m') ∧
    context_stack m' = context_stack m ∧ storage m' = storage m ∧ events m' = events m.
Proof. unfold on_manager, m_zoom. destruct (p (auth_manager m)). by intros [= -> <-]. Qed.

Lemma require_auth_inv a args fr (m : Machine S) r m' :
  last (call_stack (auth_manager m)) = Some fr →
  on_auth (require_auth a args) m = (r, m') →
  require_auth_internal li hash_payload verify_sig_ed25519 call_check_auth a
    (to_authorized_function fr args) (auth_manager m, storage m) =
    (r, (auth_manager m', storage m')) ∧
  context_stack m' = context_stack m ∧ events m' = events m.
Proof.
  intros Hfr. unfold on_auth, m_zoom, Auth.require_auth, m_bind, m_get. simpl. rewrite Hfr.
  destruct (require_auth_internal _ _ _ _ _ _ _) as [r1 [am s]]. by intros [= -> <-].
Qed.


(** ** Every history keeps the managers in order *)

Lemma contract_frame_ok id fn : contract_frame (contract_auth_frame id fn).
Proof. by exists id. Qed.

(** What a machine keeps of a frame: the stack of contexts, the manager up to the use of
    authorizations, and the events before. *)
Definition machine_after (m m' : Machine S) : Prop :=
  context_stack m' = context_stack m ∧ manager_after (auth_manager m) (auth_manager m') ∧
  ∃ evs, events m' = events m ++ evs.

#[local] Instance machine_after_preorder : PreOrder machine_after.
Proof.
  split; [intros m; split; [done|split; [done|by exists []; rewrite app_nil_r]]|].
  intros m1 m2 m3 (Hc1 & Ha1 & e1 & He1) (Hc2 & Ha2 & e2 & He2).
  split; [congruence|]. split; [by etrans|]. exists (e1 ++ e2). by rewrite He2, He1, app_assoc.
Qed.

Lemma manager_after_kept a : manager_wf a →
  manager_wf (set_invoker_trackers (kept a) a) ∧ manager_after a (set_invoker_trackers (kept a) a).
Proof.
  intros [Hacc Hinv Hd Hfr]. split.
  - split; simpl; [done| | |done].
    + apply Forall_forall. intros i [_ Hi]%list_elem_of_filter. rewrite Forall_forall in Hinv. auto.
    + revert Hd. unfold kept. generalize (invoker_contract_trackers a) as l. clear. intros l.
      induction l as [|x l IH]; [done|]. simpl. intros [Hs Hx]%StronglySorted_inv.
      rewrite list.filter_cons. case_decide; [|by apply IH]. simpl. constructor; [by apply IH|].
      apply Forall_forall. intros n Hn. apply list_elem_of_fmap in Hn as (j & -> & [_ Hj]%list_elem_of_filter).
      rewrite Forall_fmap, Forall_forall in Hx. by apply Hx.
  - split; simpl; [done..|]. unfold kept. simpl. by rewrite list_filter_filter_r.
Qed.

(** Popping the frame of a failed call. *)
Lemma failed_call_manager fr (m m2 m3 : Machine S) rp fr' :
  manager_wf (auth_manager m) →
  rp_auth rp = manager_snapshot (push_auth_frame fr (auth_manager m)) →
  manager_after (push_auth_frame fr (auth_manager m)) (auth_manager m2) →
  pop_context (Some rp) m2 = (Ok fr', m3) →
  auth_manager m3 = set_invoker_trackers (kept (auth_manager m)) (auth_manager m).
Proof.
  intros Hwf Hrp Haft (a & Ha & ->)%pop_context_some. rewrite Hrp in Ha. simpl.
  destruct (call_undone fr _ _ Hwf Haft) as [Hok Hleft].
  destruct (decide (length (invoker_contract_trackers (auth_manager m2)) =
                    length (invoker_contract_trackers (auth_manager m)))) as [Hd|Hd].
  - rewrite (Hok Hd) in Ha. by injection Ha.
  - specialize (Hleft Hd). by rewrite Ha in Hleft.
Qed.

(** A call that ended well, a call that failed, and a creation, each from what is known
    of the code in the frame. *)
Lemma call_step id fn args (m m1 m2 m3 : Machine S) rp fr :
  push_context (ContractFrame id fn args) m = (Ok rp, m1) →
  (manager_wf (auth_manager m1) → manager_wf (auth_manager m2) ∧ machine_after m1 m2) →
  pop_context None m2 = (Ok fr, m3) → manager_wf (auth_manager m) →
  manager_wf (auth_manager m3) ∧ machine_after m m3 ∧
  auth_manager m3 = popped (auth_manager m2).
Proof.
  rewrite push_context_eq. intros Hpush IH Hpop Hwf. injection Hpush as <- <-.
  destruct IH as (Hwf2 & Hc & Ha & evs & He); [by apply push_wf, contract_frame_ok|]. simpl in *.
  apply pop_context_none in Hpop as (am & Hpop & ->).
  destruct (call_after _ _ _ Hwf Hwf2 Ha) as (Hpop' & Hwf3 & Ha3). rewrite Hpop' in Hpop.
  injection Hpop as <-. split; [done|]. split; [|done].
  split; [by simpl; rewrite Hc, removelast_last|]. split; [done|]. by exists evs.
Qed.

Lemma failed_call_step id fn args (m m1 m2 m3 : Machine S) rp fr :
  push_context (ContractFrame id fn args) m = (Ok rp, m1) →
  (manager_wf (auth_manager m1) → manager_wf (auth_manager m2) ∧ machine_after m1 m2) →
  pop_context (Some rp) m2 = (Ok fr, m3) → manager_wf (auth_manager m) →
  auth_manager m3 = set_invoker_trackers (kept (auth_manager m)) (auth_manager m) ∧
  context_stack m3 = context_stack m ∧ storage m3 = restore (storage m) (storage m2) ∧
  emitted (events m3) = emitted (events m) ∧ ∃ evs, events m3 = events m ++ evs.
Proof.
  rewrite push_context_eq. intros Hpush IH Hpop Hwf. injection Hpush as <- <-.
  destruct IH as (Hwf2 & Hc & Ha & evs & He); [by apply push_wf, contract_frame_ok|]. simpl in *.
  split; [by apply (failed_call_manager (contract_auth_frame id fn) m m2 m3 _ fr) in Hpop|].
  apply pop_context_some in Hpop as (am & _ & ->). simpl in *.
  split; [by rewrite Hc, removelast_last|]. split; [done|]. rewrite He.
  split; [by rewrite emitted_rollback|].
  eexists. unfold rollback_events. by rewrite take_app_length.
Qed.

Lemma create_step args (m m1 m2 m3 : Machine S) :
  on_manager (m_modify (push_create_contract_host_fn_frame args)) m = (Ok tt, m1) →
  (manager_wf (auth_manager m1) → manager_wf (auth_manager m2) ∧ machine_after m1 m2) →
  on_manager (manager_pop_frame None) m2 = (Ok tt, m3) → manager_wf (auth_manager m) →
  manager_wf (auth_manager m3) ∧ machine_after m m3 ∧
  auth_manager m3 = popped (auth_manager m2).
Proof.
  intros (Hpush & Hc1 & _ & He1)%on_manager_inv IH (Hpop & Hc3 & _ & He3)%on_manager_inv Hwf.
  injection Hpush as Hpush.
  destruct IH as (Hwf2 & Hc & Ha & evs & He); [by rewrite <-Hpush; apply push_wf|].
  rewrite <-Hpush in Ha. destruct (call_after _ _ _ Hwf Hwf2 Ha) as (Hpop' & Hwf3 & Ha3).
  rewrite Hpop' in Hpop. injection Hpop as Hpop. rewrite Hpop in Hwf3, Ha3.
  split; [done|]. split; [|done]. split; [congruence|]. split; [done|]. exists evs. congruence.
Qed.

Lemma last_not_nil {A} (l : list A) x : last l = Some x → l ≠ [].
Proof. by destruct l. Qed.

(** [require_auth], whether it succeeds or not, and [authorize_as_curr_contract]. *)
Lemma require_step a args (m m1 : Machine S) r :
  on_auth (require_auth a args) m = (r, m1) → (∀ msg, r ≠ Err (EPanic msg)) →
  manager_wf (auth_manager m) → manager_wf (auth_manager m1) ∧ machine_after m m1.
Proof.
  intros Hreq Hp Hwf. destruct (last (call_stack (auth_manager m))) as [fr|] eqn:Hfr.
  - destruct (require_auth_inv a args fr m _ m1 Hfr Hreq) as (Hr & Hc & He).
    apply require_auth_internal_spec in Hr as (Hwf1 & Haft & _); [|done|by eapply last_not_nil|done].
    split; [done|]. split; [done|]. split; [done|]. exists []. by rewrite app_nil_r.
  - revert Hreq. unfold on_auth, m_zoom, Auth.require_auth, m_bind, m_get. simpl. rewrite Hfr.
    intros [= _ <-]. by destruct m.
Qed.

Lemma authorize_step c entries (m m1 : Machine S) r :
  on_manager (add_invoker_contract_auth_with_curr_contract_as_invoker c entries) m = (r, m1) →
  manager_wf (auth_manager m) → manager_wf (auth_manager m1) ∧ machine_after m m1.
Proof.
  intros (Hadd & Hc & _ & He)%on_manager_inv Hwf.
  apply add_invoker_after in Hadd as (Hwf1 & Haft & _); [|done].
  split; [done|]. split; [done|]. split; [done|]. exists []. by rewrite app_nil_r.
Qed.

Lemma runs_after ok m tr m' :
  runs ok m tr m' → manager_wf (auth_manager m) →
  manager_wf (auth_manager m') ∧ machine_after m m'.
Proof.
  induction 1 as
    [ok m|ok m s evs tr m' _ IH|ok m a args fr m1 tr m' Hfr Hreq _ IH|m a args e m1 Hreq Hp
    |ok m c entries m1 tr m' Hadd _ IH|m c entries e m1 Hadd
    |ok m id fn args rp m1 tr1 m2 fr m3 tr2 m' Hpush _ IH1 Hpop _ IH2
    |ok m id fn args rp m1 tr1 m2 fr m3 tr2 m' Hpush _ IH1 Hpop _ IH2
    |ok m args m1 tr1 m2 m3 tr2 m' Hpush _ IH1 Hpop _ IH2|m args m1 tr1 m2 m3 Hpush _ IH1 Hpop];
    intros Hwf.
  - by split.
  - destruct (IH Hwf) as (Hwf' & Hc & Ha & evs' & He). simpl in *. split; [done|].
    split; [done|]. split; [done|]. exists (evs ++ evs'). by rewrite He, <-app_assoc.
  - destruct (require_step a args m m1 _ Hreq) as [Hwf1 Hm1]; [done..|].
    destruct (IH Hwf1). split; [done|by etrans].
  - apply (require_step a args m m1 _ Hreq); [intros msg [= ->]; by eapply Hp|done].
  - destruct (authorize_step c entries m m1 _ Hadd Hwf) as [Hwf1 Hm1].
    destruct (IH Hwf1). split; [done|by etrans].
  - by apply (authorize_step c entries m m1 _ Hadd).
  - destruct (call_step id fn args m m1 m2 m3 rp fr Hpush IH1 Hpop Hwf) as (Hwf3 & Hm3 & _).
    destruct (IH2 Hwf3). split; [done|by etrans].
  - destruct (failed_call_step id fn args m m1 m2 m3 rp fr Hpush IH1 Hpop Hwf) as
      (Ham & Hc & _ & _ & He).
    destruct (manager_after_kept _ Hwf) as [Hwfk Hak]. rewrite <-Ham in Hwfk, Hak.
    assert (machine_after m m3) as Hm3 by done.
    destruct (IH2 Hwfk). split; [done|by etrans].
  - destruct (create_step args m m1 m2 m3 Hpush IH1 Hpop Hwf) as (Hwf3 & Hm3 & _).
    destruct (IH2 Hwf3). split; [done|by etrans].
  - by destruct (create_step args m m1 m2 m3 Hpush IH1 Hpop Hwf) as (Hwf3 & Hm3 & _).
Qed.

(** ** What is used was signed *)

(** The functions used up so far in the entries of [a], and those granted to it. *)
Definition used_in (a : ScAddress) (t : AccountAuthorizationTracker) : list AuthorizedFunction :=
  if decide (address t = a) then used_functions (root_authorized_invocation (invocation_tracker t))
  else [].
Definition used_by (a : ScAddress) (m : AuthorizationManager) : list AuthorizedFunction :=
  concat (used_in a <$> account_trackers m).
Definition granted (a : ScAddress) (tr : list (ScAddress * AuthorizedFunction)) :
    list AuthorizedFunction := snd <$> filter (λ g, g.1 = a) tr.

Definition entry_verified (t : AccountAuthorizationTracker) : Prop :=
  (is_exhausted (root_authorized_invocation (invocation_tracker t)) = true → verified t = true) ∧
  (verified t = true → authentic t).

Lemma authenticate_static t t' s :
  account_after t t' → authenticate t s = authenticate t' s.
Proof.
  intros [Ha Hs Hsrc Hn [Hle _ _ _] _]. unfold Auth.authenticate, get_signature_payload.
  rewrite Ha, Hs, Hsrc, Hn, (invocation_to_xdr_static _ _ Hle).
  unfold check_account_contract_auth. by rewrite (auth_contexts_static _ _ [] Hle).
Qed.

Lemma authentic_static t t' : account_after t t' → authentic t → authentic t'.
Proof.
  intros Haft [Hsrc|[[s Hs] [s' Hs']]]; [left; by destruct Haft; congruence|right].
  split; [exists s; by rewrite <-(authenticate_static t t')|].
  exists s'. revert Hs'. destruct Haft as [Ha _ Hsrc Hn _ _].
  unfold verify_and_consume_nonce. by rewrite Ha, Hsrc, Hn.
Qed.

Lemma account_used_verified f s t t' s' :
  account_used li hash_payload verify_sig_ed25519 call_check_auth f s t t' s' →
  entry_verified t → entry_verified t'.
Proof.
  intros [Haft Hu Hv Hl] [_ Ha]. split; [done|]. intros _. destruct (verified t).
  - by eapply authentic_static, Ha.
  - destruct Hl as (s1 & Hs1 & Hs2). right.
    split; [exists s; by rewrite Hs1|exists s1; by rewrite Hs2].
Qed.

Lemma granted_app a tr1 tr2 : granted a (tr1 ++ tr2) = granted a tr1 ++ granted a tr2.
Proof. unfold granted. by rewrite filter_app, fmap_app. Qed.

(** What the entries of a manager have been used for. *)
Definition accounted (m m' : AuthorizationManager) (tr : list (ScAddress * AuthorizedFunction)) :
    Prop :=
  Forall entry_verified (account_trackers m) →
  Forall entry_verified (account_trackers m') ∧
  ∀ k, used_by (Account k) m' ≡ₚ granted (Account k) tr ++ used_by (Account k) m.

(** A granted authorization of an account is one node of its signed entries. *)
Lemma require_used a f m s m' s' :
  manager_wf m → call_stack m ≠ [] →
  require_auth_internal li hash_payload verify_sig_ed25519 call_check_auth a f (m, s) = (Ok tt, (m', s')) →
  accounted m m' [(a, f)].
Proof.
  intros Hwf Hne Hr Hver. pose proof Hwf as [Hacc Hinv Hd Hfr].
  apply require_auth_internal_spec in Hr as (_ & _ & Hg); [|done..].
  assert (∀ c k, granted (Account k) [(Contract c, f)] = []) as Hc.
  { intros c k. unfold granted. by rewrite list.filter_cons, decide_False. }
  destruct (Hg eq_refl) as [[[= -> ->] (i & Hi & <-)]|[[-> Hu]|Hu]].
  - split; [done|]. rewrite Forall_lookup in Hfr. destruct (Hfr _ _ Hi) as [c ->].
    intros k. by rewrite Hc.
  - destruct Hu as (i & t & t' & Hi & <- & Hu & ->). split; [done|].
    rewrite Forall_lookup in Hinv. destruct (Hinv _ _ Hi) as [_ [c ->]]. intros k. by rewrite Hc.
  - destruct Hu as (i & t & t' & Hi & <- & Hu & ->). simpl. split; [|intros k].
    + apply Forall_insert; [done|]. eapply account_used_verified; [done|].
      rewrite Forall_lookup in Hver. by apply (Hver i).
    + unfold used_by. simpl. apply concat_insert with (x := t); [done|]. unfold used_in, granted.
      destruct Hu as [[<- _ _ _ _ _] [_ _ [_ Hu _ _] _ _] _ _].
      rewrite list.filter_cons. simpl. by case_decide.
Qed.

Lemma used_popped a m : used_by a (popped m) = used_by a m.
Proof.
  unfold used_by, popped. simpl. f_equal. rewrite <-list_fmap_compose. apply list_fmap_ext.
  intros _ t _. unfold used_in, pop_account, compose. simpl. by rewrite pop_root.
Qed.
Lemma used_pushed a fr m : used_by a (push_auth_frame fr m) = used_by a m.
Proof.
  unfold used_by. simpl. f_equal. rewrite <-list_fmap_compose. by apply list_fmap_ext.
Qed.
Lemma verified_popped m :
  Forall entry_verified (account_trackers m) → Forall entry_verified (account_trackers (popped m)).
Proof.
  intros Hall. simpl. rewrite Forall_fmap. eapply Forall_impl; [exact Hall|]. intros t [Hu Ha].
  split; simpl; [by rewrite pop_root|]. intros Hv. destruct (Ha Hv) as [Hs|[[s Hs] Hn]]; [by left|right].
  split; [|done]. exists s. revert Hs. unfold Auth.authenticate, get_signature_payload. simpl.
  by rewrite pop_root.
Qed.
Lemma verified_pushed fr m :
  Forall entry_verified (account_trackers m) →
  Forall entry_verified (account_trackers (push_auth_frame fr m)).
Proof. intros Hall. simpl. rewrite Forall_fmap. eapply Forall_impl; [exact Hall|]. done. Qed.

Lemma accounted_app m1 m2 m3 tr1 tr2 :
  accounted m1 m2 tr1 → accounted m2 m3 tr2 → accounted m1 m3 (tr1 ++ tr2).
Proof.
  intros H1 H2 Hv. destruct (H1 Hv) as [Hv2 Hu1]. destruct (H2 Hv2) as [Hv3 Hu2].
  split; [done|]. intros k. rewrite Hu2, Hu1, granted_app. by rewrite app_assoc, (Permutation_app_comm (granted _ tr2)).
Qed.
Lemma accounted_same m m' : account_trackers m' = account_trackers m → accounted m m' [].
Proof. intros He Hv. unfold used_by. by rewrite He. Qed.
Lemma accounted_framed fr m m2 tr :
  accounted (push_auth_frame fr m) m2 tr → accounted m (popped m2) tr.
Proof.
  intros Ha Hv. destruct Ha as [Hv2 Hu]; [by apply verified_pushed|].
  split; [by apply verified_popped|]. intros k. by rewrite used_popped, Hu, used_pushed.
Qed.

Lemma runs_accounted ok m tr m' :
  runs ok m tr m' → ok = true → manager_wf (auth_manager m) →
  accounted (auth_manager m) (auth_manager m') tr.
Proof.
  induction 1 as
    [ok m|ok m s evs tr m' _ IH|ok m a args fr m1 tr m' Hfr Hreq _ IH|m a args e m1 Hreq Hp
    |ok m c entries m1 tr m' Hadd _ IH|m c entries e m1 Hadd
    |ok m id fn args rp m1 tr1 m2 fr m3 tr2 m' Hpush Hrun IH1 Hpop _ IH2
    |ok m id fn args rp m1 tr1 m2 fr m3 tr2 m' Hpush Hrun _ Hpop _ IH2
    |ok m args m1 tr1 m2 m3 tr2 m' Hpush Hrun IH1 Hpop _ IH2|m args m1 tr1 m2 m3 Hpush _ IH1 Hpop];
    intros Hok Hwf; try done.
  - by apply IH.
  - destruct (require_step a args m m1 _ Hreq) as [Hwf1 _]; [done..|].
    destruct (require_auth_inv a args fr m _ m1 Hfr Hreq) as (Hr & _ & _).
    apply (accounted_app _ (auth_manager m1) _ [(a, to_authorized_function fr args)]); [|by apply IH].
    eapply require_used; eauto using last_not_nil.
  - apply on_manager_inv in Hadd as (Hadd & _ & _ & _).
    apply add_invoker_after in Hadd as (Hwf1 & _ & Hsame); [|done].
    apply (accounted_app _ (auth_manager m1) _ []); [by apply accounted_same|by apply IH].
  - destruct (call_step id fn args m m1 m2 m3 rp fr Hpush (runs_after _ _ _ _ Hrun) Hpop Hwf) as (Hwf3 & _ & Ham).
    apply (accounted_app _ (auth_manager m3)); [|by apply IH2]. rewrite Ham.
    rewrite push_context_eq in Hpush. injection Hpush as <- <-.
    apply (accounted_framed (contract_auth_frame id fn)). apply IH1; [done|].
    by apply push_wf, contract_frame_ok.
  - destruct (failed_call_step id fn args m m1 m2 m3 rp fr Hpush (runs_after _ _ _ _ Hrun) Hpop Hwf) as (Ham & _).
    destruct (manager_after_kept _ Hwf) as [Hwfk _]. rewrite <-Ham in Hwfk.
    apply (accounted_app _ (auth_manager m3) _ []); [|by apply IH2].
    apply accounted_same. by rewrite Ham.
  - destruct (create_step args m m1 m2 m3 Hpush (runs_after _ _ _ _ Hrun) Hpop Hwf) as (Hwf3 & _ & Ham).
    apply (accounted_app _ (auth_manager m3)); [|by apply IH2]. rewrite Ham.
    apply on_manager_inv in Hpush as (Hpush & _). injection Hpush as Hpush. rewrite <-Hpush in IH1.
    apply (accounted_framed (FrameCreateContract args)). apply IH1; [done|]. by apply push_wf.
Qed.
End runs.
