(* ===== verification/AccountThms.v ===== *)
(** An account's authentication succeeds exactly if enough of its signers signed: the
    signatures are between one and twenty, by different keys in order, all valid and of
    signers of the account, and their weights reach the medium threshold. *)
From S2P Require Import Prelude ScVal Storage AuthTree AccountAuth.
#[local] Open Scope m_scope.

(** Field widths of an account entry. *)
Record account_wf (account : AccountEntry) : Prop := {
  aw_thresholds : length (thresholds account) = 4%nat ∧ Forall (λ n, 0 <= n <= 255) (thresholds account);
  aw_weights : Forall (λ s, in_u32 (signer_weight s)) (signers account)
}.

Lemma signer_weight_bounds pk account w :
  account_wf account → get_signer_weight_from_account pk account = Ok w → 0 <= w <= 255.
Proof.
  intros [[_ Ht] Hw]. unfold get_signer_weight_from_account. case_decide.
  - unfold ok_or. destruct (thresholds account !! 0%nat) eqn:Hl; [|done]. intros [= <-].
    by eapply Forall_lookup_1 in Ht.
  - destruct (list_find _ _) as [[i s]|] eqn:Hf; [|intros [= <-]; lia]. intros [= <-].
    apply list_find_Some in Hf as (Hl & _). eapply Forall_lookup_1 in Hw; [|done].
    unfold in_u32 in Hw. lia.
Qed.

Section account.
Context {S : Type} `{LedgerStore S} (li : LedgerInfo).
Context (verify_sig_ed25519 : N → Hash → N → bool).

(** [signed_by account payload vs keys ws]: the values [vs] are valid signatures by
    [keys], signers of the account with the weights [ws]. *)
Definition valid_signature (account : AccountEntry) (payload : Hash) (v : ScVal) (kw : N * Z) : Prop :=
  ∃ sig, signature_of_val v = Some sig ∧ public_key sig = kw.1 ∧
    verify_sig_ed25519 (public_key sig) payload (signature sig) = true ∧
    get_signer_weight_from_account (public_key sig) account = Ok kw.2 ∧ kw.2 ≠ 0.

Definition above (prev : option N) (k : N) : Prop :=
  match prev with Some p => (p < k)%N | None => True end.

Definition total (kws : list (N * Z)) : Z := foldr (λ kw n, kw.2 + n) 0 kws.

Lemma add_signatures_spec account payload vs prev weight r :
  account_wf account → 0 <= weight → weight + 255 * Z.of_nat (length vs) <= u32_max →
  add_signatures verify_sig_ed25519 account payload vs prev weight = Ok r ↔
  ∃ kws, Forall2 (valid_signature account payload) vs kws ∧
    Forall (above prev) (kws.*1) ∧ StronglySorted N.lt (kws.*1) ∧ r = weight + total kws.
Proof.
  intros Hwf. revert prev weight. induction vs as [|v vs IH]; intros prev weight Hw0 Hw;
    cbn [length] in Hw; simpl.
  { split.
    - intros [= <-]. exists []. simpl. split; [done|]. split; [done|]. split; [constructor|lia].
    - intros (kws & Hk & _ & _ & ->). inversion Hk; subst. simpl. f_equal. lia. }
  split.
  - destruct (signature_of_val v) as [sig|] eqn:Hsig; [|done].
    destruct (match prev with Some _ => _ | None => _ end) eqn:Hprev; [done|].
    destruct (verify_sig_ed25519 _ _ _) eqn:Hver; [|done]. simpl.
    destruct (get_signer_weight_from_account _ account) as [w|] eqn:Hgw; [|done].
    case_decide as Hz; [done|]. apply signer_weight_bounds in Hgw as Hb; [|done].
    assert (u32_saturating_add weight w = weight + w) as ->.
    { unfold u32_saturating_add. apply clamp_id. lia. }
    intros (kws & Hk & Hab & Hs & ->)%IH; [|lia..].
    exists ((public_key sig, w) :: kws). split; [by constructor; [exists sig|]|]. simpl.
    split; [|split; [by constructor|lia]].
    assert (above prev (public_key sig)) as Hp.
    { destruct prev; [|done]. apply bool_decide_eq_false in Hprev. simpl. lia. }
    constructor; [done|]. eapply Forall_impl; [exact Hab|]. intros k. destruct prev; simpl in *; [lia|done].
  - intros (kws & Hk & Hab & Hs & ->). inversion Hk as [|? [k w] ? kws' (sig & Hsig & Hkey & Hver & Hgw & Hz) Hk']; subst.
    simpl in *. subst k. rewrite Hsig, Hver, Hgw.
    apply Forall_cons in Hab as [Hp Hab]. apply StronglySorted_inv in Hs as [Hs Hall].
    assert (match prev with Some p => bool_decide (public_key sig <= p)%N | None => false end = false) as ->.
    { destruct prev; [|done]. apply bool_decide_eq_false. simpl in Hp. lia. }
    simpl. rewrite decide_False by done. apply signer_weight_bounds in Hgw as Hb; [|done].
    assert (u32_saturating_add weight w = weight + w) as ->.
    { unfold u32_saturating_add. apply clamp_id. lia. }
    apply IH; [lia..|]. exists kws'. split; [done|]. split; [done|]. split; [done|lia].
Qed.

(** C33: A classic account is authenticated exactly if between one and twenty signatures
    are given, by signers of the account in strictly increasing order of their keys, every
    one of them valid for the payload and of a weight other than zero, and the weights add
    up to at least the account's medium threshold; no other input makes it succeed. *)
Theorem account_signatures_suffice k payload sig s :
  (∀ account, (load_account li k s).1 = Ok account → account_wf account) →
  (check_account_authentication li verify_sig_ed25519 k payload sig s).1 = Ok tt ↔
  ∃ vs kws account medium, sig = ScVec vs ∧ (1 <= length vs <= 20)%nat ∧
    (load_account li k s).1 = Ok account ∧ thresholds account !! 2%nat = Some medium ∧
    Forall2 (valid_signature account payload) vs kws ∧ StronglySorted N.lt (kws.*1) ∧
    medium <= total kws.
Proof.
  intros Hload. split.
  - destruct sig as [| | | | | | | | |vs| | | |]; simpl; try done.
    case_decide as Hlen; [done|]. case_decide as Hnil; [done|]. unfold m_bind, m_lift.
    destruct (load_account li k s) as [[account|] s']; simpl in *; [|done].
    specialize (Hload account eq_refl).
    destruct (add_signatures _ _ _ _ _ _) as [w|] eqn:Hadd; [|done].
    apply add_signatures_spec in Hadd as (kws & Hk & _ & Hs & ->);
      [|done|lia|unfold MAX_ACCOUNT_SIGNATURES, u32_max in *; lia].
    destruct (thresholds account !! 2%nat) as [medium|] eqn:Hm; [|done].
    case_decide as Hw; [done|]. intros _. exists vs, kws, account, medium.
    split; [done|]. split; [destruct vs; [done|unfold MAX_ACCOUNT_SIGNATURES in *; simpl in *; lia]|].
    do 4 (split; [done|]). lia.
  - intros (vs & kws & account & medium & -> & Hlen & Hacc & Hm & Hk & Hs & Hw). simpl.
    rewrite decide_False by (unfold MAX_ACCOUNT_SIGNATURES; lia).
    rewrite decide_False by (intros ->; simpl in Hlen; lia). unfold m_bind, m_lift.
    destruct (load_account li k s) as [r s'] eqn:Hl; simpl in *. subst r.
    specialize (Hload account eq_refl).
    assert (add_signatures verify_sig_ed25519 account payload vs None 0 = Ok (total kws)) as ->.
    { apply add_signatures_spec; [done|lia|unfold u32_max; lia|]. exists kws.
      split; [done|]. split; [by apply Forall_true|]. done. }
    rewrite Hm. by rewrite decide_False by lia.
Qed.
End account.

(** Account 1 has its own key with weight 1, a second signer with weight 2, and asks for
    2: its own signature is not enough. *)
Definition demo_li : LedgerInfo := mkLedgerInfo 22 100 1000 7%N 10 16 4096 6312000.
Definition demo_account : AccountEntry :=
  mkAccountEntry 1%N 0 0 0 [1; 0; 2; 0] [mkSigner (Ed25519 4%N) 2] None.
Definition demo_ledger : LedgerMap := {[ KAccount 1%N := (EAccount demo_account, None) ]}.
Definition demo_sign (keys : list N) : ScVal :=
  ScVec ((λ k, ScMap [("public_key"%string, ScBytes k); ("signature"%string, ScBytes k)]) <$> keys).
Abbreviation demo_check keys :=
  (check_account_authentication demo_li (λ key _ sig, N.eqb key sig) 1%N 0%N (demo_sign keys) demo_ledger).1.

Lemma demo_ledger_wf account : (load_account demo_li 1%N demo_ledger).1 = Ok account → account_wf account.
Proof.
  assert ((load_account demo_li 1%N demo_ledger).1 = Ok demo_account) as -> by (vm_compute; reflexivity).
  intros Heq. assert (account = demo_account) as -> by congruence.
  split; [split; [done|]|]; repeat constructor; simpl; unfold u32_max; lia.
Qed.

Lemma account_signatures_suffice_witness :
  demo_check [4%N] = Ok tt ∧ demo_check [1%N; 4%N] = Ok tt ∧
  demo_check [1%N] = Err AuthenticationError ∧ demo_check [4%N; 1%N] = Err AuthenticationError ∧
  demo_check [4%N; 4%N] = Err AuthenticationError ∧ demo_check [7%N] = Err AuthenticationError ∧
  ∃ vs kws account medium, demo_sign [1%N; 4%N] = ScVec vs ∧ (1 <= length vs <= 20)%nat ∧
    (load_account demo_li 1%N demo_ledger).1 = Ok account ∧ thresholds account !! 2%nat = Some medium ∧
    Forall2 (valid_signature (λ key _ sig, N.eqb key sig) account 0%N) vs kws ∧
    StronglySorted N.lt (kws.*1) ∧ medium <= total kws.
Proof.
  do 6 (split; [vm_compute; reflexivity|]).
  apply (account_signatures_suffice demo_li (λ key _ sig, N.eqb key sig) 1%N 0%N _ demo_ledger demo_ledger_wf).
  vm_compute. reflexivity.
Defined.
