(* ===== verification/NonceThms.v ===== *)
(** Nonces: the entry that marks a nonce as taken is out of reach of contracts, so a
    signature is accepted at most once. *)
From S2P Require Import Prelude ScVal Storage Host AuthTree AccountAuth Auth Env.
#[local] Open Scope m_scope.

(** * Out of reach of contracts *)

(** [untouched key p]: [p] leaves the entry of [key] as it is, present or not. *)
Definition untouched (key : LedgerKey) {A} (p : M LedgerMap A) : Prop :=
  ∀ m, (p m).2 !! key = m !! key.

Lemma untouched_ret key {A} (a : A) : untouched key (m_ret a).
Proof. by intros m. Qed.
Lemma untouched_fail key {A} x : untouched (A := A) key (m_fail x).
Proof. by intros m. Qed.
Lemma untouched_lift key {A} (r : Result A) : untouched key (m_lift r).
Proof. by intros m. Qed.
Lemma untouched_get key : untouched key m_get.
Proof. by intros m. Qed.
Lemma untouched_bind key {A B} (p : M LedgerMap A) (f : A → M LedgerMap B) :
  untouched key p → (∀ a, untouched key (f a)) → untouched key (m_bind p f).
Proof.
  intros Hp Hf m. specialize (Hp m). unfold m_bind.
  destruct (p m) as [[a|x] m1]; simpl in *; [|done]. by rewrite Hf.
Qed.
Lemma untouched_put key key' v : key' ≠ key → untouched key (ledger_put_opt key' v).
Proof.
  intros Hne. unfold ledger_put_opt. apply untouched_bind; [apply untouched_lift|intros ?].
  apply untouched_bind; [destruct v; [apply untouched_lift|apply untouched_ret]|intros ?].
  intros m. unfold m_modify. cbn [snd]. destruct v; [by rewrite lookup_insert_ne|by rewrite lookup_delete_ne].
Qed.
Lemma untouched_extend_ttl key li key' th ext : key' ≠ key → untouched key (extend_ttl li key' th ext).
Proof.
  intros Hne m. destruct (extend_ttl li key' th ext m) as [r m'] eqn:Hx. simpl.
  apply extend_ttl_shape in Hx as [->|(en&old&new&_&_&->)]; [done|]. by rewrite lookup_insert_ne.
Qed.

Ltac untouched_step :=
  first [ apply untouched_ret | apply untouched_fail | apply untouched_lift | apply untouched_get
        | apply untouched_extend_ttl; done | apply untouched_put; done
        | apply untouched_bind; [|intros ?] | case_match ].

Lemma untouched_handle (X : External) a n {R} (o : op R) (e : Env) :
  h_storage (handle X o e).2 !! nonce_key a n = h_storage e !! nonce_key a n.
Proof.
  assert (∀ A (q : LedgerInfo → Hash → M LedgerMap A),
    untouched (nonce_key a n) (q (h_ledger e) (h_contract e)) →
    h_storage (on_storage q e).2 !! nonce_key a n = h_storage e !! nonce_key a n) as Hst.
  { intros A q Hq. unfold on_storage. specialize (Hq (h_storage e)). by destruct (q _ _ _). }
  destruct o; simpl; try done; apply Hst;
    unfold has_contract_data, get_contract_data, put_contract_data, del_contract_data,
      del_with_host, put_with_host, get_with_host, has_with_host, get_with_live_until_ledger,
      extend_contract_data_ttl, extend_current_contract_instance_and_code_ttl,
      extend_contract_code_ttl_from_contract_id, retrieve_contract_instance, create_contract,
      create_contract_with_id, store_contract_instance, wasm_exists, has_with_host,
      get_with_live_until_ledger, put_with_host, put_opt_with_host, try_get_full_with_host;
    simpl; repeat untouched_step.
Qed.

Lemma untouched_run (X : External) a n {A} (p : prog A) (e : Env) :
  h_storage (run X p e).2 !! nonce_key a n = h_storage e !! nonce_key a n.
Proof.
  revert e. induction p as [x|x|R o k IH]; intros e; simpl; [done|done|].
  pose proof (untouched_handle X a n o e) as Hk.
  unfold m_bind. destruct (handle X o e) as [[r|x] e1]; simpl in *; [|done]. by rewrite IH.
Qed.

(** * Taking a nonce *)

Definition nonce_entry (a : ScAddress) (n : Z) : LedgerEntry :=
  EContractData (mkContractDataEntry a (ScLedgerKeyNonce n) Temporary ScVoid).

(** The nonce is taken as far as ledger [li] is concerned. *)
Definition taken (li : LedgerInfo) (a : ScAddress) (n : Z) (m : LedgerMap) : Prop :=
  ∃ en lu, m !! nonce_key a n = Some (en, Some lu) ∧ sequence_number li <= lu.

Lemma has_nonce li a n (m : LedgerMap) :
  (∀ v, m !! nonce_key a n = Some v → is_Some v.2) →
  ∃ b, has_with_host li (nonce_key a n) m = (Ok b, m) ∧ (b = true ↔ taken li a n m).
Proof.
  intros Hlu. unfold has_with_host, try_get_full_with_host, m_bind, m_lift, m_get, m_ret, taken. simpl.
  destruct (m !! nonce_key a n) as [[en [lu|]]|] eqn:Hm; simpl.
  - case_decide as Hd; eexists; (split; [done|]); simpl; split; try done.
    + intros _. by exists en, lu.
    + intros (? & ? & [= <- <-] & ?). lia.
  - destruct (Hlu _ eq_refl). done.
  - exists false. split; [done|]. split; [done|]. by intros (? & ? & ? & _).
Qed.

(** Entries of nonces have a lifetime, as all contract data. *)
Definition nonce_lifetimes (m : LedgerMap) : Prop :=
  ∀ a n v, m !! nonce_key a n = Some v → is_Some v.2.

(** [consume_nonce] on the ledger map: only a free nonce is taken. *)
Lemma consume_nonce_inv li a n lu (m : LedgerMap) r m' :
  nonce_lifetimes m → consume_nonce li a n lu m = (r, m') →
  (r = Ok tt ∧ ¬ taken li a n m ∧ ∃ lu', lu <= lu' ∧ m' = <[nonce_key a n := (nonce_entry a n, Some lu')]> m) ∨
  (∃ e, r = Err e ∧ m' = m).
Proof.
  intros Hlf. unfold consume_nonce, m_bind at 1, m_lift.
  destruct (get_min_live_until_ledger li Temporary) as [mn|e]; [|intros [= <- <-]; right; by eexists].
  unfold m_bind at 1. destruct (has_nonce li a n m) as (b & -> & Hb); [by apply Hlf|].
  destruct b; [intros [= <- <-]; right; by eexists|].
  unfold put_with_host, put_opt_with_host, m_bind, m_get, m_lift, m_ret. simpl.
  destruct (check_if_entry_is_live li (nonce_key a n) (m !! nonce_key a n)); simpl;
    [|intros [= <- <-]; right; by eexists].
  intros [= <- <-]. left. split; [done|]. split; [intros Ht; by apply Hb in Ht|].
  eexists. split; [apply Z.le_max_l|done].
Qed.

Lemma verify_nonce_inv li t (m : LedgerMap) r m' :
  nonce_lifetimes m → verify_and_consume_nonce li t m = (r, m') →
  m' = m ∨ ∃ n lu lu', r = Ok tt ∧ is_transaction_source_account t = false ∧ nonce t = Some (n, lu) ∧
    ¬ taken li (address t) n m ∧ lu <= lu' ∧
    m' = <[nonce_key (address t) n := (nonce_entry (address t) n, Some lu')]> m.
Proof.
  intros Hlf. unfold verify_and_consume_nonce. destruct (is_transaction_source_account t); [by intros [= _ <-]; left|].
  destruct (nonce t) as [[n lu]|]; [|by intros [= _ <-]; left].
  case_decide; [by intros [= _ <-]; left|]. unfold m_bind, m_lift.
  destruct (max_live_until_ledger li); [|by intros [= _ <-]; left].
  case_decide; [by intros [= _ <-]; left|].
  intros [(-> & Hn & lu' & Hlu & ->)|(e & -> & ->)]%consume_nonce_inv; [|by left|done].
  right. by exists n, lu, lu'.
Qed.

(** ** Later ledgers *)

(** What can happen to a ledger after a transaction was applied: calls of any contract,
    other entries being verified, and the close of a ledger, which may end the entries
    that are past their lifetime. *)
Inductive later : LedgerInfo * LedgerMap → LedgerInfo * LedgerMap → Prop :=
| later_now x : later x x
| later_call X A (p : prog A) (e : Env) y :
    later (h_ledger e, h_storage (run X p e).2) y → later (h_ledger e, h_storage e) y
| later_entry li m t y :
    later (li, (verify_and_consume_nonce li t m).2) y → later (li, m) y
| later_close li m li' m' y :
    sequence_number li <= sequence_number li' →
    (∀ key en lu, m !! key = Some (en, Some lu) → sequence_number li' <= lu → m' !! key = m !! key) →
    nonce_lifetimes m' → later (li', m') y → later (li, m) y.

(** The nonce [n] of [a] cannot be used again up to ledger [lu]. *)
Definition spent (a : ScAddress) (n lu : Z) (x : LedgerInfo * LedgerMap) : Prop :=
  nonce_lifetimes x.2 ∧
  (lu < sequence_number x.1 ∨ ∃ en lu', x.2 !! nonce_key a n = Some (en, Some lu') ∧ lu <= lu').

Lemma spent_taken li a n lu lu' (m : LedgerMap) :
  nonce_lifetimes m → lu <= lu' →
  spent a n lu (li, <[nonce_key a n := (nonce_entry a n, Some lu')]> m).
Proof.
  intros Hlf Hle. split; simpl.
  - intros a' n' v. destruct (decide (nonce_key a n = nonce_key a' n')) as [->|Hne].
    + rewrite lookup_insert_eq. by intros [= <-].
    + rewrite lookup_insert_ne by done. apply Hlf.
  - right. eexists _, lu'. by rewrite lookup_insert_eq.
Qed.

Lemma spent_later a n lu x y : later x y → spent a n lu x → spent a n lu y.
Proof.
  induction 1 as [x|X A p e y _ IH|li m t y _ IH|li m li' m' y Hseq Hkeep Hlf' _ IH]; [done|..];
    intros [Hlf Hs]; apply IH; simpl in *.
  - split; simpl; [intros a' n' v; rewrite untouched_run; apply Hlf|by rewrite untouched_run].
  - destruct (verify_and_consume_nonce li t m) as [r m'] eqn:Hv.
    apply verify_nonce_inv in Hv as [->|(n' & lu1 & lu2 & -> & _ & _ & Hfree & _ & ->)]; [by split| |done].
    split; simpl.
    + intros a' n2 v. destruct (decide (nonce_key (address t) n' = nonce_key a' n2)) as [->|Hne].
      * rewrite lookup_insert_eq. by intros [= <-].
      * rewrite lookup_insert_ne by done. apply Hlf.
    + destruct Hs as [Hs|(en & lu' & Hm & Hle)]; [by left|].
      destruct (decide (nonce_key (address t) n' = nonce_key a n)) as [[= Ha ->]|Hne].
      * left. destruct (decide (sequence_number li <= lu')); [|lia].
        exfalso. apply Hfree. rewrite Ha. by exists en, lu'.
      * right. exists en, lu'. by rewrite lookup_insert_ne.
  - split; simpl; [done|]. destruct Hs as [Hs|(en & lu' & Hm & Hle)]; [left; lia|].
    destruct (decide (sequence_number li' <= lu')); [|left; lia].
    right. exists en, lu'. by rewrite (Hkeep _ _ _ Hm).
Qed.

(** C32: A signature authenticates in one transaction only: once an entry's nonce was
    accepted, no entry of the same address with the same nonce and expiration is accepted
    in any later ledger, whatever contracts are called and other entries verified, also
    after the nonce's own entry has expired. *)
Theorem nonce_single_use li (m : LedgerMap) t m1 n live_until li2 m2 t' :
  nonce_lifetimes m → is_transaction_source_account t = false → nonce t = Some (n, live_until) →
  verify_and_consume_nonce li t m = (Ok tt, m1) → later (li, m1) (li2, m2) →
  address t' = address t → is_transaction_source_account t' = false →
  nonce t' = Some (n, live_until) →
  ∃ e, verify_and_consume_nonce li2 t' m2 = (Err e, m2).
Proof.
  intros Hlf Hsrc Hn Hv Hlater Ha Hsrc' Hn'.
  assert (spent (address t) n live_until (li, m1)) as Hs.
  { revert Hv. unfold verify_and_consume_nonce. rewrite Hsrc, Hn.
    case_decide; [done|]. unfold m_bind, m_lift. destruct (max_live_until_ledger li); [|done].
    case_decide; [done|]. intros [(_ & _ & lu' & Hle & ->)|(e & [=] & _)]%consume_nonce_inv; [|done].
    by apply spent_taken. }
  apply (spent_later _ _ _ _ _ Hlater) in Hs as [Hlf2 Hs]. simpl in Hlf2, Hs.
  unfold verify_and_consume_nonce. rewrite Hsrc', Hn', Ha.
  case_decide as Hseq; [by eexists|]. destruct Hs as [?|(en & lu' & Hm & Hle)]; [done|].
  unfold m_bind, m_lift. destruct (max_live_until_ledger li2); [|by eexists].
  case_decide; [by eexists|]. unfold consume_nonce, m_bind, m_lift.
  destruct (get_min_live_until_ledger li2 Temporary); [|by eexists].
  destruct (has_nonce li2 (address t) n m2) as (b & -> & Hb); [by apply Hlf2|].
  assert (b = true) as -> by (apply Hb; exists en, lu'; split; [done|lia]). by eexists.
Qed.

(** A nonce valid to ledger 200, used in ledger 100 and tried again after another entry,
    in ledger 150; a ledger later than 200 refuses it as expired. *)
Definition demo_info (seq : Z) : LedgerInfo := mkLedgerInfo 22 seq 1000 7%N 10 16 4096 6312000.
Definition demo_tracker (n : Z) : AccountAuthorizationTracker :=
  mkAccountTracker (Account 1%N)
    (tracker_new (invocation_new (ContractFn (mkContractFunction (Contract 5%N) "buy" [])) []))
    ScVoid false false (Some (n, 200)).
Definition demo_taken : LedgerMap := (verify_and_consume_nonce (demo_info 100) (demo_tracker 9) ∅).2.
Definition demo_later : LedgerMap := (verify_and_consume_nonce (demo_info 100) (demo_tracker 8) demo_taken).2.

Lemma nonce_lifetimes_verify li t (m : LedgerMap) :
  nonce_lifetimes m → nonce_lifetimes (verify_and_consume_nonce li t m).2.
Proof.
  intros Hlf. destruct (verify_and_consume_nonce li t m) as [r m'] eqn:Hv. simpl.
  apply verify_nonce_inv in Hv as [->|(n & lu & lu' & _ & _ & _ & _ & Hle & ->)]; [done| |done].
  by apply (spent_taken li (address t) n lu' lu').
Qed.

Lemma nonce_single_use_witness :
  (verify_and_consume_nonce (demo_info 100) (demo_tracker 9) ∅).1 = Ok tt ∧
  (verify_and_consume_nonce (demo_info 100) (demo_tracker 8) demo_taken).1 = Ok tt ∧
  ∃ e, verify_and_consume_nonce (demo_info 150) (demo_tracker 9) demo_later = (Err e, demo_later).
Proof.
  split; [vm_compute; reflexivity|]. split; [vm_compute; reflexivity|].
  assert (nonce_lifetimes ∅) as Hlf by (intros ???; by rewrite lookup_empty).
  apply (nonce_single_use (demo_info 100) ∅ (demo_tracker 9) demo_taken 9 200
    (demo_info 150) demo_later (demo_tracker 9)); [done|reflexivity|reflexivity| | |reflexivity..].
  - assert ((verify_and_consume_nonce (demo_info 100) (demo_tracker 9) ∅).1 = Ok tt) as Hok
      by (vm_compute; reflexivity).
    unfold demo_taken. revert Hok. destruct (verify_and_consume_nonce _ _ _). simpl. by intros ->.
  - apply (later_entry _ _ (demo_tracker 8)). apply (later_close _ _ (demo_info 150) demo_later);
      [simpl; lia|done| |constructor].
    by do 2 apply nonce_lifetimes_verify.
Defined.
