(* ===== verification/AuthProps.v ===== *)
(** The properties of authorization: signed entries are used at most once and as
    signed, a failed call gives everything back, trackers follow the calls; each with an
    evaluated scenario. *)
From S2P Require Import Prelude ScVal Storage Host AuthTree AccountAuth Auth Frame.
From S2P Require Import Env TrackerThms AuthThms FrameThms.
#[local] Open Scope m_scope.

(** * Fresh managers *)

Section xdr_ind.
Context (P : SorobanAuthorizedInvocation → Prop).
Context (H : ∀ f subs, Forall P subs → P (XInvocation f subs)).
Fixpoint xdr_nested_ind (x : SorobanAuthorizedInvocation) : P x :=
  let '(XInvocation f subs) := x in
  H f subs ((fix go l : Forall P l :=
    match l with
    | [] => List.Forall_nil P
    | x :: l => List.Forall_cons P x l (xdr_nested_ind x) (go l)
    end) subs).
End xdr_ind.

Lemma from_xdr_fresh x : fresh_tree (invocation_from_xdr x).
Proof.
  induction x as [f subs IH] using xdr_nested_ind. simpl. apply fresh_tree_new.
  rewrite Forall_fmap. eapply Forall_impl; [exact IH|done].
Qed.

Lemma unused_functions i : tree_closed i → is_exhausted i = false → used_functions i = [].
Proof.
  induction i as [f subs e IH] using invocation_nested_ind. intros Hc He. simpl in *. subst e. simpl.
  inversion_clear Hc as [? ? ? Hall Hun]. specialize (Hun eq_refl).
  induction IH as [|x l Hx _ IHl]; [done|]. apply Forall_cons in Hall as [? ?].
  apply Forall_cons in Hun as [? ?]. simpl. rewrite Hx by done. by apply IHl.
Qed.

Lemma new_enforcing_ok src entries m0 :
  new_enforcing src entries = Ok m0 →
  Forall2 (λ e t, from_authorization_entry src e = Ok t) entries (account_trackers m0) ∧
  m0 = mkManager (account_trackers m0) [] [].
Proof.
  unfold new_enforcing. destruct (m_collect _ entries) as [ts|] eqn:Hts; [|done].
  intros [= <-]. split; [by apply m_collect_ok|done].
Qed.

Lemma entry_tracker src e t :
  from_authorization_entry src e = Ok t →
  invocation_tracker t = tracker_from_xdr (root_invocation e) ∧ verified t = false.
Proof.
  unfold from_authorization_entry. destruct (credentials e); [destruct src; [|done]|]; by intros [= <-].
Qed.

Lemma new_enforcing_wf src entries m0 :
  new_enforcing src entries = Ok m0 → manager_wf m0.
Proof.
  intros [Hts Hm0]%new_enforcing_ok. split; [|by rewrite Hm0; constructor..].
  apply Forall_lookup. intros i t Ht. rewrite Hm0. simpl.
  destruct (Forall2_lookup_r _ _ _ i t Hts Ht) as (e & _ & [He _]%entry_tracker).
  rewrite He. split; [|done]. apply fresh_tracker_wf, from_xdr_fresh.
Qed.

(** * Signed once, used at most once *)
Section auth.
Context {S : Type} `{LedgerStore S, Rollback S} (li : LedgerInfo).
Context (hash_payload : Hash → Z → Z → SorobanAuthorizedInvocation → Hash).
Context (verify_sig_ed25519 : N → Hash → N → bool).
Context (call_check_auth : Hash → Hash → ScVal → list AuthorizationContext → M S unit).

#[local] Abbreviation entry_verified :=
  (entry_verified li hash_payload verify_sig_ed25519 call_check_auth).

(** The functions an entry lists. *)
Definition entry_functions (e : SorobanAuthorizationEntry) : list AuthorizedFunction :=
  all_functions (invocation_from_xdr (root_invocation e)).

(** Account [k] stands behind an entry: it is the source of the transaction, or its
    signatures check out for exactly this tree, nonce and expiration, not passed yet. *)
Definition entry_authentic (source_account : option ScAddress) (k : N)
    (e : SorobanAuthorizationEntry) : Prop :=
  match credentials e with
  | CredSourceAccount => source_account = Some (Account k)
  | CredAddress a n live_until sig =>
      a = Account k ∧ sequence_number li <= live_until ∧
      ∃ s : S, (check_account_authentication li verify_sig_ed25519 k
                  (hash_payload (network_id li) n live_until
                     (invocation_to_xdr false (invocation_from_xdr (root_invocation e)))) sig s).1 = Ok tt
  end.

Lemma authentic_entry src k e t t' :
  from_authorization_entry src e = Ok t → account_after t t' → address t' = Account k →
  authentic li hash_payload verify_sig_ed25519 call_check_auth t' → entry_authentic src k e.
Proof.
  intros He [Ha Hsig Hsrc Hn [Hle _ _ _] _] Hk. unfold from_authorization_entry in He.
  unfold entry_authentic. destruct (credentials e) as [|a n lu sig].
  - destruct src as [a|]; [|done]. injection He as <-. simpl in *. intros _. by rewrite Ha, Hk.
  - injection He as <-. simpl in *. intros [Hs|[[s Hs] [s' Hs']]]; [congruence|].
    unfold Auth.authenticate, get_signature_payload in Hs. unfold verify_and_consume_nonce in Hs'.
    rewrite <-Hsrc, <-Hn, <-?Hsig in *. rewrite Hk in Hs. subst a.
    split; [done|]. case_decide; [done|]. split; [lia|]. exists s.
    by rewrite (invocation_to_xdr_static _ _ Hle).
Qed.

Lemma used_of_entry src k e t t' :
  from_authorization_entry src e = Ok t → account_after t t' → tracker_wf (invocation_tracker t') →
  entry_verified t' →
  used_in (Account k) t' = [] ∨
  entry_authentic src k e ∧ used_in (Account k) t' ⊆+ entry_functions e.
Proof.
  intros He Haft [_ Hc _ _] [Hu Ha]. unfold used_in. case_decide as Hk; [|by left].
  destruct (is_exhausted (root_authorized_invocation (invocation_tracker t'))) eqn:Hx.
  - right. split; [by eapply authentic_entry; eauto|].
    destruct (entry_tracker _ _ _ He) as [Ht _]. destruct Haft as [_ _ _ _ [Hle _ _ _] _].
    unfold entry_functions. rewrite Ht in Hle. simpl in Hle. rewrite (all_functions_static _ _ Hle).
    apply used_functions_submseteq.
  - left. by apply unused_functions.
Qed.

Lemma pick_entries {A B} (P : A → Prop) (g : B → list AuthorizedFunction) (h : A → list AuthorizedFunction)
    (xs : list A) (ys : list B) :
  Forall2 (λ x y, g y = [] ∨ P x ∧ g y ⊆+ h x) xs ys →
  ∃ zs, zs `sublist_of` xs ∧ Forall P zs ∧ concat (g <$> ys) ⊆+ concat (h <$> zs).
Proof.
  induction 1 as [|x y xs ys Hxy _ (zs & Hsub & HP & Hincl)]; [by exists []|].
  destruct Hxy as [Hnil|[Hx Hg]].
  - exists zs. split; [by apply sublist_cons|]. split; [done|]. simpl. by rewrite Hnil.
  - exists (x :: zs). split; [by apply sublist_skip|]. split; [by constructor|]. simpl.
    by apply submseteq_app.
Qed.

(** C28: An account authorizes only what it signed, and no more often: whatever the
    contracts of a transaction do, its net granted authorizations are matched one to one
    by invocations listed in entries that are the account's own, authentic and not
    expired. *)
Theorem auth_used_as_signed source_account entries m0 (s0 : S) ctx evs tr m' :
  new_enforcing source_account entries = Ok m0 →
  runs li hash_payload verify_sig_ed25519 call_check_auth true (mkMachine ctx s0 evs m0) tr m' →
  ∀ k, ∃ es, es `sublist_of` entries ∧ Forall (entry_authentic source_account k) es ∧
    granted (Account k) tr ⊆+ concat (entry_functions <$> es).
Proof.
  intros Hnew Hrun k. pose proof (new_enforcing_wf _ _ _ Hnew) as Hwf.
  apply new_enforcing_ok in Hnew as [Hts Hm0].
  destruct (runs_after _ _ _ _ _ _ _ _ Hrun Hwf) as ([Hacc _ _ _] & _ & [_ Haft _] & _).
  destruct (runs_accounted _ _ _ _ _ _ _ _ Hrun eq_refl Hwf) as [Hver Hused]; simpl in *.
  { apply Forall_lookup. intros i t Ht.
    destruct (Forall2_lookup_r _ _ _ i t Hts Ht) as (e & _ & [He Hv]%entry_tracker).
    split; [|congruence]. intros Hx. rewrite He in Hx. simpl in Hx.
    destruct (from_xdr_fresh (root_invocation e)). congruence. }
  specialize (Hused k).
  destruct (pick_entries (entry_authentic source_account k) (used_in (Account k)) entry_functions
              entries (account_trackers (auth_manager m'))) as (es & Hsub & Hes & Hincl).
  { apply Forall2_same_length_lookup. split.
    { by rewrite (Forall2_length _ _ _ Hts), (Forall2_length _ _ _ Haft). }
    intros i e t' He Ht'. destruct (Forall2_lookup_l _ _ _ i e Hts He) as (t & Ht & Hfrom).
    destruct (Forall2_lookup_r _ _ _ i t' Haft Ht') as (t2 & Ht2 & Ha). simplify_eq.
    rewrite Forall_lookup in Hacc, Hver. eapply used_of_entry; eauto. by apply (Hacc i). }
  exists es. split; [done|]. split; [done|]. rewrite <-Hincl. fold (used_by (Account k) (auth_manager m')).
  rewrite Hused. by apply submseteq_inserts_r.
Qed.

(** C29: A failed call gives everything back: when the frame of a call that failed is
    popped, all authorizations it used, signed or given by contracts, are available again
    exactly as before, as are call stack, ledger and events; only authorizations that the
    caller had given for this call are gone.  The one exception: a contract that gives an
    authorization and then fails without making the call makes the host fail with an
    internal error, which no caller can recover from. *)
Theorem failed_call_gives_back id fn args (m m1 m2 : Machine S) rp tr :
  manager_wf (auth_manager m) →
  push_context (ContractFrame id fn args) m = (Ok rp, m1) →
  runs li hash_payload verify_sig_ed25519 call_check_auth false m1 tr m2 →
  let '(r, m3) := pop_context (Some rp) m2 in
  (no_leftovers (auth_manager m) (auth_manager m2) →
     is_ok r = true ∧ context_stack m3 = context_stack m ∧
     auth_manager m3 = set_invoker_trackers (kept (auth_manager m)) (auth_manager m) ∧
     storage m3 = restore (storage m) (storage m2) ∧ emitted (events m3) = emitted (events m)) ∧
  (¬ no_leftovers (auth_manager m) (auth_manager m2) →
     r = Err (EHost TAuth InternalError) ∧ is_recoverable (EHost TAuth InternalError) = false).
Proof.
  intros Hwf Hpush Hrun. destruct (pop_context (Some rp) m2) as [r m3] eqn:Hpop.
  pose proof (runs_after _ _ _ _ _ _ _ _ Hrun) as Haft.
  pose proof Hpush as Hp. rewrite push_context_eq in Hp. injection Hp as <- Hm1.
  assert (manager_wf (auth_manager m1)) as Hwf1 by (rewrite <-Hm1; by apply push_wf, contract_frame_ok).
  destruct (Haft Hwf1) as (_ & Hc & Ha & _). rewrite <-Hm1 in Hc, Ha. simpl in Hc, Ha.
  destruct (call_undone _ _ _ Hwf Ha) as [Hok Hleft]. split; intros Hno.
  - specialize (Hok Hno). assert (∃ fr, r = Ok fr) as [fr ->].
    { revert Hpop. unfold pop_context, m_bind, m_get, m_modify, on_manager, m_zoom, m_lift. simpl.
      rewrite Hok. simpl. intros [= <- _]. rewrite Hc, last_snoc. by eexists. }
    split; [done|].
    destruct (failed_call_step id fn args m m1 m2 m3 _ fr Hpush Haft Hpop Hwf) as (-> & -> & -> & -> & _).
    done.
  - specialize (Hleft Hno). split; [|done].
    revert Hpop. unfold pop_context, m_bind, m_get, m_modify, on_manager, m_zoom, m_lift. simpl.
    destruct (manager_pop_frame _ _) as [r' a]; simpl in *. subst r'. by intros [= <- _].
Qed.

(** In every history the trackers stay in step with the calls: matching never fails,
    and when a request matches an entry exactly one more invocation of its tree is used,
    the root, or a child of the invocation matched last by a frame that is still running;
    so what is used always has its parent used. *)
Theorem trackers_follow_calls source_account entries m0 (s0 : S) ctx evs ok tr m' :
  new_enforcing source_account entries = Ok m0 →
  runs li hash_payload verify_sig_ed25519 call_check_auth ok (mkMachine ctx s0 evs m0) tr m' →
  manager_wf (auth_manager m') ∧ context_stack m' = ctx ∧
  ∀ t f allow, t ∈ account_trackers (auth_manager m') → call_stack (auth_manager m') ≠ [] →
    maybe_extend_invocation_match f allow (invocation_tracker t) = (Ok false, invocation_tracker t) ∨
    ∃ t', maybe_extend_invocation_match f allow (invocation_tracker t) = (Ok true, t') ∧
      tracker_used f (invocation_tracker t) t'.
Proof.
  intros Hnew Hrun. pose proof (new_enforcing_wf _ _ _ Hnew) as Hwf.
  destruct (runs_after _ _ _ _ _ _ _ _ Hrun Hwf) as (Hwf' & Hc & _).
  split; [done|]. split; [done|]. intros t f allow Ht Hne.
  destruct (account_in_frame _ t Hwf' Hne Ht). by apply maybe_extend_spec.
Qed.
End auth.

(** * Scenarios

    Alice signs that contract 5 may be called with [buy] for her, and that within this
    call contract 6 may take her [pay].  A signature is valid in the demonstration if it
    repeats the key. *)

Definition demo_li : LedgerInfo := mkLedgerInfo 22 100 1000 7%N 10 16 4096 6312000.
Definition demo_hash (net : Hash) (n live_until : Z) (x : SorobanAuthorizedInvocation) : Hash := 0%N.
Definition demo_verify (key payload sig : N) : bool := N.eqb key sig.
Definition demo_check_auth (c payload : Hash) (sig : ScVal) (l : list AuthorizationContext) :
    M LedgerMap unit := m_ret tt.

Definition demo_alice : ScAddress := Account 1%N.
Definition demo_buy : ContractFunction := mkContractFunction (Contract 5%N) "buy" [].
Definition demo_pay : ContractFunction := mkContractFunction (Contract 6%N) "pay" [ScU32 3].
Definition demo_signature : ScVal :=
  ScVec [ScMap [("public_key"%string, ScBytes 1%N); ("signature"%string, ScBytes 1%N)]].
Definition demo_entry : SorobanAuthorizationEntry :=
  mkAuthEntry (CredAddress demo_alice 9 200 demo_signature)
    (XInvocation (XContractFn demo_buy) [XInvocation (XContractFn demo_pay) []]).
Definition demo_accounts : LedgerMap :=
  {[ KAccount 1%N := (EAccount (mkAccountEntry 1%N 0 0 0 [1; 0; 1; 0] [] None), None) ]}.

Definition demo_manager : AuthorizationManager :=
  match new_enforcing None [demo_entry] with Ok m => m | Err _ => mkManager [] [] [] end.
Definition demo_start : Machine LedgerMap := mkMachine [HostFunctionFrame] demo_accounts [] demo_manager.

Definition demo_enter (f : ContractFunction) (m : Machine LedgerMap) : Machine LedgerMap :=
  (push_context (ContractFrame (match cf_address f with Contract c => c | _ => 0%N end)
     (cf_name f) (cf_args f)) m).2.
Definition demo_require (args : list ScVal) (m : Machine LedgerMap) : Machine LedgerMap :=
  (on_auth (require_auth demo_li demo_hash demo_verify demo_check_auth demo_alice args) m).2.
Definition demo_leave (m : Machine LedgerMap) : Machine LedgerMap := (pop_context None m).2.

Abbreviation demo_runs := (runs demo_li demo_hash demo_verify demo_check_auth).

(** The call of [pay] within [buy], from the machine [m] in the frame of [buy]. *)
Definition demo_in_pay (m : Machine LedgerMap) : Machine LedgerMap :=
  demo_require [ScU32 3] (demo_enter demo_pay m).
Definition demo_in_buy : Machine LedgerMap := demo_require [] (demo_enter demo_buy demo_start).
Definition demo_end : Machine LedgerMap := demo_leave (demo_leave (demo_in_pay demo_in_buy)).

(** Only the result of a step is evaluated, not the ledger it leaves. *)
Lemma result_of {S A} (p : M S A) (s : S) a : (p s).1 = Ok a → p s = (Ok a, (p s).2).
Proof. destruct (p s). simpl. by intros ->. Qed.

Definition demo_trace : list (ScAddress * AuthorizedFunction) :=
  ((demo_alice, to_authorized_function (contract_auth_frame 5%N "buy") []) ::
    ([(demo_alice, to_authorized_function (contract_auth_frame 6%N "pay") [ScU32 3])] ++ [])) ++ [].

Lemma demo_run : demo_runs true demo_start demo_trace demo_end.
Proof.
  eapply (run_call _ _ _ _ true demo_start 5%N "buy" []); [apply push_context_eq| | |constructor].
  2: { apply (result_of (pop_context None) _ (ContractFrame 5%N "buy" [])). vm_compute. reflexivity. }
  eapply (run_require _ _ _ _ true _ demo_alice []); [reflexivity| |].
  { apply result_of. vm_compute. reflexivity. }
  eapply (run_call _ _ _ _ true _ 6%N "pay" [ScU32 3]); [apply push_context_eq| | |constructor].
  2: { apply (result_of (pop_context None) _ (ContractFrame 6%N "pay" [ScU32 3])). vm_compute. reflexivity. }
  eapply (run_require _ _ _ _ true _ demo_alice [ScU32 3]); [reflexivity| |constructor].
  apply result_of. vm_compute. reflexivity.
Qed.

(** Alice's two requests were granted; without the entry neither would be. *)
Lemma auth_used_as_signed_witness :
  granted demo_alice demo_trace = [ContractFn demo_buy; ContractFn demo_pay] ∧
  entry_functions demo_entry = [ContractFn demo_buy; ContractFn demo_pay] ∧
  (∃ es, es `sublist_of` [demo_entry] ∧
     Forall (entry_authentic (S := LedgerMap) demo_li demo_hash demo_verify None 1%N) es ∧
     granted (Account 1%N) demo_trace ⊆+ concat (entry_functions <$> es)) ∧
  (on_auth (require_auth demo_li demo_hash demo_verify demo_check_auth demo_alice [])
     (demo_enter demo_buy (set_auth_manager new_enforcing_without_authorizations demo_start))).1
  = Err (EHost TAuth InvalidAction).
Proof.
  split; [reflexivity|]. split; [reflexivity|]. split; [|vm_compute; reflexivity].
  eapply (auth_used_as_signed demo_li demo_hash demo_verify demo_check_auth None [demo_entry]
            demo_manager demo_accounts [HostFunctionFrame] [] demo_trace demo_end).
  - reflexivity.
  - exact demo_run.
Defined.

Lemma trackers_follow_calls_witness :
  manager_wf (auth_manager demo_end) ∧ context_stack demo_end = [HostFunctionFrame] ∧
  ∀ t f allow, t ∈ account_trackers (auth_manager demo_end) → call_stack (auth_manager demo_end) ≠ [] →
    maybe_extend_invocation_match f allow (invocation_tracker t) = (Ok false, invocation_tracker t) ∨
    ∃ t', maybe_extend_invocation_match f allow (invocation_tracker t) = (Ok true, t') ∧
      tracker_used f (invocation_tracker t) t'.
Proof.
  eapply (trackers_follow_calls demo_li demo_hash demo_verify demo_check_auth None [demo_entry]
            demo_manager demo_accounts [HostFunctionFrame] [] true demo_trace demo_end).
  - reflexivity.
  - exact demo_run.
Defined.

(** [buy] takes its authorization, then fails; or it gives one for [pay], then fails
    without making the call. *)
Definition demo_gift : list InvokerContractAuthEntry := [EntryContract demo_pay []].
Definition demo_give (m : Machine LedgerMap) : Machine LedgerMap :=
  (on_manager (add_invoker_contract_auth_with_curr_contract_as_invoker 5%N demo_gift) m).2.
Definition demo_point : RollbackPoint LedgerMap :=
  mkRollbackPoint demo_accounts 0 (manager_snapshot (auth_manager (demo_enter demo_buy demo_start))).

Lemma demo_used ok m' tr :
  demo_runs ok demo_in_buy tr m' →
  demo_runs ok (demo_enter demo_buy demo_start)
    ((demo_alice, to_authorized_function (contract_auth_frame 5%N "buy") []) :: tr) m'.
Proof.
  intros Hrun. eapply (run_require _ _ _ _ ok _ demo_alice []); [reflexivity| |exact Hrun].
  apply result_of. vm_compute. reflexivity.
Qed.

Lemma failed_call_gives_back_witness :
  (invocation_tracker <$> account_trackers (auth_manager demo_in_buy)) ≠
    (invocation_tracker <$> account_trackers (auth_manager (demo_enter demo_buy demo_start))) ∧
  auth_manager (pop_context (Some demo_point) demo_in_buy).2 = demo_manager ∧
  (pop_context (Some demo_point) (demo_give demo_in_buy)).1 = Err (EHost TAuth InternalError).
Proof.
  split; [by vm_compute|]. split.
  - pose proof (failed_call_gives_back demo_li demo_hash demo_verify demo_check_auth 5%N "buy" []
      demo_start (demo_enter demo_buy demo_start) demo_in_buy demo_point _
      (new_enforcing_wf None [demo_entry] demo_manager eq_refl) (push_context_eq _ _ _ _)
      (demo_used _ _ _ (run_stop _ _ _ _ _ _))) as H.
    destruct (pop_context (Some demo_point) demo_in_buy) as [r m3].
    destruct H as [H _]. apply H. by vm_compute.
  - pose proof (failed_call_gives_back demo_li demo_hash demo_verify demo_check_auth 5%N "buy" []
      demo_start (demo_enter demo_buy demo_start) (demo_give demo_in_buy) demo_point _
      (new_enforcing_wf None [demo_entry] demo_manager eq_refl) (push_context_eq _ _ _ _)
      (demo_used _ _ _ (run_authorize _ _ _ _ _ _ 5%N demo_gift _ _ _
         (result_of (on_manager (add_invoker_contract_auth_with_curr_contract_as_invoker 5%N demo_gift)) _ tt eq_refl) (run_stop _ _ _ _ _ _)))) as H.
    destruct (pop_context (Some demo_point) (demo_give demo_in_buy)) as [r m3].
    destruct H as [_ H]. apply H. by vm_compute.
Defined.
