(* ===== verification/AuthRecord.v ===== *)
(** The recording mode of the authorization manager, [auth.rs]: instead of checking what
    addresses have signed, the manager notes what they would have to sign.

    A request names an address by its object, since two objects with one address get trees
    of their own where they can; [address_of] reads the object.  The generator of nonces is
    a parameter. *)
From S2P Require Import Prelude ScVal Storage AuthTree AccountAuth Auth.
#[local] Open Scope m_scope.

(** * Recording in a tree *)

Definition invocation_new_recording (f : AuthorizedFunction) : AuthorizedInvocation := mkInvocation f [] true.

(** What [InvocationTracker::record_invocation] does to the node matched last: the index of
    the invocation in its parent. *)
Definition record_sub_invocation (f : AuthorizedFunction) : M AuthorizedInvocation nat :=
  m_modify (λ i, set_sub_invocations (sub_invocations i ++ [invocation_new_recording f]) i) ;;;
  let* i := m_get in
  m_ret (length (sub_invocations i) - 1)%nat.

(** [current_stack_len] is not zero. *)
Definition tracker_new_recording (f : AuthorizedFunction) (current_stack_len : nat) : InvocationTracker :=
  let match_stack := replicate (current_stack_len - 1) Unmatched ++ [RootMatch] in
  mkTracker (invocation_new_recording f) match_stack (Some (length match_stack - 1)%nat) false.

(** [*self.match_stack.last_mut().unwrap() = m]. *)
Definition unwrap_last_match (m : MatchState) : M InvocationTracker unit :=
  let* t := m_get in
  match length (match_stack t) with
  | O => m_fail (EPanic "called `Option::unwrap()` on a `None` value")
  | S n => m_modify (set_match_stack (<[n := m]> (match_stack t)))
  end.

Definition tracker_record_invocation (f : AuthorizedFunction) : M InvocationTracker unit :=
  let* t := m_get in
  if current_frame_is_already_matched t then m_fail (EHost TAuth ExistingValue)
  else
    let* o := m_zoom root_authorized_invocation set_root
                (at_last_authorized (match_stack t) (record_sub_invocation f)) in
    match o with
    | Some index_in_parent => unwrap_last_match (SubMatch index_in_parent)
    | None => m_fail (EHost TAuth InternalError)
    end.

Definition has_matched_invocations_in_stack (t : InvocationTracker) : bool := existsb is_matched (match_stack t).

(** * Trackers *)

Definition account_record_invocation (f : AuthorizedFunction) : M AccountAuthorizationTracker unit :=
  m_zoom invocation_tracker set_invocation_tracker (tracker_record_invocation f).
Definition has_authorized_invocations_in_stack (t : AccountAuthorizationTracker) : bool :=
  has_matched_invocations_in_stack (invocation_tracker t).

(** What has to be signed, for the transaction's source account without address and nonce. *)
Record RecordedAuthPayload := mkPayload {
  rp_address : option ScAddress;
  rp_nonce : option Z;
  rp_invocation : SorobanAuthorizedInvocation
}.
Definition get_recorded_auth_payload (t : AccountAuthorizationTracker) : RecordedAuthPayload :=
  mkPayload (if is_transaction_source_account t then None else Some (address t)) (fst <$> nonce t)
    (invocation_to_xdr false (root_authorized_invocation (invocation_tracker t))).

(** * The manager *)

(** The manager with its [RecordingAuthInfo], the ledger and the generator. *)
Record Recording (S G : Type) := mkRecording {
  rec_manager : AuthorizationManager;
  tracker_by_address_handle : gmap Z nat;
  disable_non_root_auth : bool;
  rec_ledger : S;
  nonce_prng : G
}.
Arguments mkRecording {S G}. Arguments rec_manager {S G}. Arguments tracker_by_address_handle {S G}.
Arguments disable_non_root_auth {S G}. Arguments rec_ledger {S G}. Arguments nonce_prng {S G}.

Section recording.
Context {S G : Type} `{LedgerStore S} (li : LedgerInfo).
Context (gen_nonce : G → Z * G) (source_account : option ScAddress) (address_of : Z → ScAddress).
#[local] Abbreviation Recording := (Recording S G) (only parsing).

Definition set_rec_manager (m : AuthorizationManager) (r : Recording) : Recording :=
  mkRecording m (tracker_by_address_handle r) (disable_non_root_auth r) (rec_ledger r) (nonce_prng r).
Definition set_handles (h : gmap Z nat) (r : Recording) : Recording :=
  mkRecording (rec_manager r) h (disable_non_root_auth r) (rec_ledger r) (nonce_prng r).
Definition set_ledger_and_prng (sg : S * G) (r : Recording) : Recording :=
  mkRecording (rec_manager r) (tracker_by_address_handle r) (disable_non_root_auth r) sg.1 sg.2.
Definition rec_trackers (r : Recording) : list AccountAuthorizationTracker := account_trackers (rec_manager r).
Definition set_rec_trackers (l : list AccountAuthorizationTracker) (r : Recording) : Recording :=
  set_rec_manager (set_account_trackers l (rec_manager r)) r.
Definition on_rec_manager {A} (p : M AuthorizationManager A) : M Recording A := m_zoom rec_manager set_rec_manager p.

Definition new_recording (disable_non_root_auth : bool) (s : S) (g : G) : Recording :=
  mkRecording (mkManager [] [] []) ∅ disable_non_root_auth s g.

(** [AccountAuthorizationTracker::new_recording]; its nonce is taken at once. *)
Definition account_new_recording (a : ScAddress) (f : AuthorizedFunction) (current_stack_len : nat) :
    M (S * G) AccountAuthorizationTracker :=
  match current_stack_len with
  | O => m_fail (EHost TAuth InternalError)
  | _ =>
      let is_transaction_source_account := bool_decide (source_account = Some a) in
      let* nonce :=
        if is_transaction_source_account then m_ret None
        else
          let* random_nonce := λ sg, let '(n, g) := gen_nonce sg.2 in (Ok n, (sg.1, g)) in
          let* live_until := m_lift (max_live_until_ledger li) in
          m_zoom fst (λ s sg, (s, sg.2)) (consume_nonce li a random_nonce live_until) ;;;
          m_ret (Some (random_nonce, 0)) in
      m_ret (mkAccountTracker a (tracker_new_recording f current_stack_len) ScVoid
               is_transaction_source_account true nonce)
  end.

(** Recording in the tracker with an index. *)
Definition record_at (i : nat) (f : AuthorizedFunction) : M Recording unit :=
  let* r := m_get in
  match rec_trackers r !! i with
  | Some t =>
      m_zoom (λ _, t) (λ t r, set_rec_trackers (<[i := t]> (rec_trackers r)) r) (account_record_invocation f)
  | None => m_fail (EHost TAuth InternalError)
  end.

(** The first tracker of the address that is in use and free in this frame. *)
Definition find_active (a : ScAddress) (l : list AccountAuthorizationTracker) : option nat :=
  fst <$> list_find (λ t, address t = a ∧ has_authorized_invocations_in_stack t = true ∧
                          current_frame_is_already_matched (invocation_tracker t) = false) l.

(** The tracker of this very object, if it is still in use. *)
Definition record_by_handle (address_obj_handle : Z) (f : AuthorizedFunction) : M Recording bool :=
  let* r := m_get in
  match tracker_by_address_handle r !! address_obj_handle with
  | None => m_ret false
  | Some tracker_id =>
      match rec_trackers r !! tracker_id with
      | None => m_fail (EHost TAuth InternalError)
      | Some tracker =>
          if has_authorized_invocations_in_stack tracker then record_at tracker_id f ;;; m_ret true
          else
            m_modify (set_handles (delete address_obj_handle (tracker_by_address_handle r))) ;;;
            m_ret false
      end
  end.

Definition require_auth_recording (address_obj_handle : Z) (f : AuthorizedFunction) : M Recording unit :=
  let a := address_of address_obj_handle in
  let* recorded := record_by_handle address_obj_handle f in
  if recorded : bool then m_ret tt
  else
    let* r := m_get in
    match find_active a (rec_trackers r) with
    | Some i => record_at i f
    | None =>
        let stack_len := length (call_stack (rec_manager r)) in
        if disable_non_root_auth r && negb (stack_len =? 1)%nat then m_fail (EHost TAuth InvalidAction)
        else
          let* t := m_zoom (λ r, (rec_ledger r, nonce_prng r)) set_ledger_and_prng
                      (account_new_recording a f stack_len) in
          m_modify (λ r, set_rec_trackers (rec_trackers r ++ [t]) r) ;;;
          m_modify (λ r, set_handles (<[address_obj_handle := (length (rec_trackers r) - 1)%nat]>
                                        (tracker_by_address_handle r)) r)
    end.

(** [require_auth_internal] and [require_auth] in recording mode. *)
Definition recording_require_auth_internal (h : Z) (f : AuthorizedFunction) : M Recording unit :=
  let* by_invoker := on_rec_manager (maybe_check_invoker_contract_auth (address_of h) f) in
  if by_invoker : bool then m_ret tt else require_auth_recording h f.
Definition recording_require_auth (h : Z) (args : list ScVal) : M Recording unit :=
  let* r := m_get in
  match last (call_stack (rec_manager r)) with
  | None => m_fail (EHost TAuth InternalError)
  | Some frame => recording_require_auth_internal h (to_authorized_function frame args)
  end.

(** ** Frames *)

(** All trackers are kept, since a failed call may have made new ones. *)
Record RecordingSnapshot := mkRecordingSnapshot {
  rs_account_trackers : list AccountAuthorizationTracker;
  rs_invoker_snapshots : list AuthorizedInvocationSnapshot;
  rs_tracker_by_address_handle : gmap Z nat
}.
Definition recording_snapshot (r : Recording) : RecordingSnapshot :=
  mkRecordingSnapshot (rec_trackers r)
    (tracker_snapshot ∘ invoker_tracker <$> invoker_contract_trackers (rec_manager r)) (tracker_by_address_handle r).

(** The part of the rollback that both modes share. *)
Definition rollback_invokers (snapshots : list AuthorizedInvocationSnapshot) : M AuthorizationManager unit :=
  let* m := m_get in
  if decide (length (invoker_contract_trackers m) = length snapshots) then
    m_zoom invoker_contract_trackers set_invoker_trackers
      (m_zip ((λ sn, m_zoom invoker_tracker set_invoker_tracker (tracker_rollback sn)) <$> snapshots))
  else m_fail (EHost TAuth InternalError).
Definition recording_rollback (s : RecordingSnapshot) : M Recording unit :=
  m_modify (set_rec_trackers (rs_account_trackers s)) ;;;
  on_rec_manager (rollback_invokers (rs_invoker_snapshots s)) ;;;
  m_modify (set_handles (rs_tracker_by_address_handle s)).

Definition recording_push_frame (frame : AuthStackFrame) : M Recording RecordingSnapshot :=
  on_rec_manager (m_modify (push_auth_frame frame)) ;;;
  let* r := m_get in m_ret (recording_snapshot r).
Definition recording_pop_frame (snapshot : option RecordingSnapshot) : M Recording unit :=
  match snapshot with Some s => recording_rollback s | None => m_ret tt end ;;;
  on_rec_manager (manager_pop_frame None).

Definition get_recorded_auth_payloads (r : Recording) : list RecordedAuthPayload :=
  get_recorded_auth_payload <$> rec_trackers r.
End recording.
