(* ===== verification/AuthRecordThms.v ===== *)
(** Recorded authorization is enough: what a recording run reports, once signed, lets the
    same run through in enforcing mode. *)
From S2P Require Import Prelude ScVal Storage AuthTree AccountAuth Auth TrackerThms AuthThms AuthProps AuthRecord.
#[local] Open Scope m_scope.

Lemma Forall3_insert_mr {A B C} (P : A → B → C → Prop) l k k' i x y z :
  Forall3 P l k k' → l !! i = Some x → P x y z → Forall3 P l (<[i := y]> k) (<[i := z]> k').
Proof.
  intros Hl. revert i. induction Hl as [|a b c l k k' Habc Hl IH]; intros [|i] Hi Hp; simplify_eq/=; constructor; auto.
Qed.

Lemma m_bind_done {S A B} (p : M S A) (f : A → M S B) s b s' :
  m_bind p f s = (Ok b, s') → ∃ a s1, p s = (Ok a, s1) ∧ f a s1 = (Ok b, s').
Proof. intros [Hr|(e & _ & [=])]%m_bind_inv. done. Qed.

(** * Trees that grow *)

(** [grows i j]: [j] is [i] with more invocations behind those of any node. *)
Inductive grows : AuthorizedInvocation → AuthorizedInvocation → Prop :=
| grows_node f subs subs' more e :
    Forall2 grows subs subs' → grows (mkInvocation f subs e) (mkInvocation f (subs' ++ more) e).

Lemma grows_refl i : grows i i.
Proof.
  induction i as [f subs e IH] using invocation_nested_ind.
  rewrite <-(app_nil_r subs) at 2. constructor. induction IH; constructor; auto.
Qed.
Lemma grows_trans i j k : grows i j → grows j k → grows i k.
Proof.
  revert j k. induction i as [f subs e IH] using invocation_nested_ind. intros j k Hij Hjk.
  inversion Hij as [? ? subs2 more ? Hs]; subst. inversion Hjk as [? ? subs3 more3 ? Hs3]; subst.
  apply Forall2_app_inv_l in Hs3 as (l1 & l2 & H1 & _ & ->). rewrite <-app_assoc. constructor.
  clear Hij Hjk more more3 l2. revert l1 H1. induction Hs as [|x y l l' Hxy _ IHl]; intros l3 H3; inversion_clear H3; constructor.
  - apply Forall_cons in IH as [IHx _]. eauto.
  - apply Forall_cons in IH as [_ IH]. auto.
Qed.
#[export] Instance grows_preorder : PreOrder grows.
Proof. split; [exact grows_refl|exact grows_trans]. Qed.

Lemma grows_inv f g subs Fs e b :
  grows (mkInvocation f subs e) (mkInvocation g Fs b) →
  f = g ∧ e = b ∧ ∃ l more, Fs = l ++ more ∧ Forall2 grows subs l.
Proof. intros Hg. inversion Hg; subst. eauto 10. Qed.

(** The tree as it comes out of its signed form: nothing used. *)
Fixpoint reset (i : AuthorizedInvocation) : AuthorizedInvocation :=
  let '(mkInvocation f subs _) := i in mkInvocation f (reset <$> subs) false.
Lemma from_to_xdr i : invocation_from_xdr (invocation_to_xdr false i) = reset i.
Proof.
  induction i as [f subs e IH] using invocation_nested_ind. simpl. f_equal; [by destruct f|].
  induction IH as [|x l Hx _ IHl]; [done|]. rewrite orb_true_r. rewrite !fmap_cons. by f_equal.
Qed.
Lemma function_reset i : function (reset i) = function i.
Proof. by destruct i. Qed.

(** [partial F r e]: [r] is the part of [F] recorded so far, and [e] is [F] with just that
    part used. *)
Inductive partial : AuthorizedInvocation → AuthorizedInvocation → AuthorizedInvocation → Prop :=
| partial_node f Fs Gs rs es :
    Forall3 partial Fs rs es →
    partial (mkInvocation f (Fs ++ Gs) true) (mkInvocation f rs true) (mkInvocation f (es ++ (reset <$> Gs)) true).

Lemma partial_new F f : function F = f → is_exhausted F = true →
  partial F (invocation_new_recording f) (set_exhausted true (reset F)).
Proof. destruct F as [g subs e]. simpl. intros -> ->. apply (partial_node f [] subs [] []). constructor. Qed.
Lemma partial_exhausted F r e : partial F r e → is_exhausted e = true ∧ is_exhausted r = true.
Proof. by intros []. Qed.

(** A fully recorded tree is used up. *)
Lemma partial_full F e : partial F F e → e = F.
Proof.
  revert e. induction F as [f subs b IH] using invocation_nested_ind. intros e He.
  inversion He as [? Fs Gs ? es Hs Heq]; subst.
  assert (Gs = []) as ->.
  { apply Forall3_length_lm in Hs. rewrite length_app in Hs. destruct Gs; [done|]. simpl in Hs. lia. }
  rewrite !app_nil_r in *. f_equal. clear He. revert es Hs.
  induction IH as [|x l Hx _ IHl]; intros es Hs; inversion_clear Hs; [done|]. f_equal; auto.
Qed.

(** Recording along a path that ends in a recorded node: it works, and puts the new
    invocation behind the others of that node. *)
Lemma record_sub_spec f ms i :
  tree_closed i → is_exhausted i = true → sub_ok i ms →
  ∃ k i', at_last_authorized_sub ms (record_sub_invocation f) i = (Ok k, i') ∧
    tree_closed i' ∧ is_exhausted i' = true ∧ sub_ok i' (ms ++ [SubMatch k]) ∧ grows i i'.
Proof.
  revert i. induction ms as [|[| |j] ms IH]; intros i Hc He Hok; simpl in *; [|by apply IH|done|].
  - destruct i as [g subs b]; simpl in *; subst b. inversion_clear Hc as [? ? ? Hs _].
    eexists _, _. split; [done|]. split; [|split; [done|split]].
    + constructor; [|done]. apply Forall_app. split; [done|]. repeat constructor.
    + simpl. exists (invocation_new_recording f). rewrite length_app; simpl. rewrite Nat.add_sub.
      by rewrite lookup_app_r, Nat.sub_diag.
    + constructor. apply Forall_Forall2_diag, Forall_true, grows_refl.
  - destruct Hok as (s & Hj & Hs & Hok). rewrite Hj.
    assert (tree_closed s) as Hcs by (inversion Hc as [? ? ? Hall]; subst; by eapply Forall_lookup_1 in Hall).
    destruct (IH s Hcs Hs Hok) as (k & s' & -> & Hc' & He' & Hok' & Hg).
    destruct i as [g subs b]; simpl in *; subst b. inversion_clear Hc as [? ? ? Hall _].
    eexists k, _. split; [done|]. split; [|split; [done|split]].
    + constructor; [by apply Forall_insert|done].
    + exists s'. split; [apply list_lookup_insert_eq; by eapply lookup_lt_Some|done].
    + rewrite <-(app_nil_r (<[j:=s']> subs)). constructor.
      rewrite <-(list_insert_id subs j s) at 1 by done.
      apply Forall2_insert; [|done]. apply Forall_Forall2_diag, Forall_true, grows_refl.
Qed.

Lemma record_root_spec f ms i :
  tree_closed i → root_ok i ms →
  at_last_authorized ms (record_sub_invocation f) i = (Ok None, i) ∧ Forall (.= Unmatched) ms ∨
  ∃ k i', at_last_authorized ms (record_sub_invocation f) i = (Ok (Some k), i') ∧
    tree_closed i' ∧ is_exhausted i' = true ∧ is_exhausted i = true ∧ root_ok i' (ms ++ [SubMatch k]) ∧ grows i i'.
Proof.
  intros Hc. induction ms as [|[| |j] ms IH]; intros Hok; simpl in *; [by left| | |done].
  - destruct (IH Hok) as [[-> Hms]|(k & i' & -> & Hr)]; [left; by split; [|constructor]|right; eauto].
  - destruct Hok as [He Hok]. right. unfold m_bind.
    destruct (record_sub_spec f ms i Hc He Hok) as (k & i' & -> & ? & He' & ? & ?). by exists k, i'.
Qed.

Lemma match_sub_next f g es subs rest :
  (∀ e, e ∈ es → is_exhausted e = true) →
  match_sub_invocation f (mkInvocation g (es ++ mkInvocation f subs false :: rest) true) =
  (Ok (SubMatch (length es)), mkInvocation g (es ++ mkInvocation f subs true :: rest) true).
Proof.
  intros Hes. unfold match_sub_invocation. cbn [sub_invocations].
  assert (list_find (λ s, is_exhausted s = false ∧ function s = f) (es ++ mkInvocation f subs false :: rest) =
    Some (length es, mkInvocation f subs false)) as ->.
  { apply list_find_Some. split; [by rewrite lookup_app_r, Nat.sub_diag|]. split; [done|].
    intros n y Hy Hn [Hex _]. rewrite lookup_app_l in Hy by done.
    rewrite Hes in Hex; [done|]. by eapply list_elem_of_lookup_2. }
  cbn [set_sub_invocations set_exhausted]. by rewrite <-(Nat.add_0_r (length es)), insert_app_r, Nat.add_0_r.
Qed.

(** What is recorded next is what enforcing matches next. *)
Lemma partial_sub f ms F r e k r' :
  partial F r e → at_last_authorized_sub ms (record_sub_invocation f) r = (Ok k, r') → grows r' F →
  ∃ e', at_last_authorized_sub ms (match_sub_invocation f) e = (Ok (SubMatch k), e') ∧ partial F r' e'.
Proof.
  revert F r e k r'. induction ms as [|[| |j] ms IH]; intros F r e k r' Hp Hr Hg; simpl in *; [|by eapply IH|done|].
  - destruct Hp as [g Fs Gs rs es Hs]. cbv [record_sub_invocation m_bind m_modify m_get m_ret] in Hr. simpl in Hr.
    injection Hr as <- <-. apply grows_inv in Hg as (_ & _ & Fs' & more & Heq & Hf).
    apply Forall2_app_inv_l in Hf as (l1 & l2 & Hl1 & Hl2 & ->).
    apply Forall2_cons_inv_l in Hl2 as (G & l3 & HG & Hl3 & ->). apply Forall2_nil_inv_l in Hl3 as ->.
    pose proof (Forall3_length_lm _ _ _ _ Hs) as Hlm. pose proof (Forall3_length_lr _ _ _ _ Hs) as Hlr.
    apply Forall2_length in Hl1 as Hl. rewrite <-app_assoc in Heq. simpl in Heq. apply app_inj_1 in Heq as [-> ->]; [|lia].
    destruct G as [g' Gsubs b]. apply grows_inv in HG as (<- & <- & _). rewrite length_app; simpl. rewrite Nat.add_sub.
    replace (length rs) with (length es) by lia. eexists. split.
    { apply match_sub_next. intros x [n Hn]%list_elem_of_lookup.
      destruct (Forall3_lookup_r _ _ _ _ _ _ Hs Hn) as (? & ? & _ & _ & [? _]%partial_exhausted). done. }
    pose proof (partial_node g (l1 ++ [mkInvocation f Gsubs true]) more (rs ++ [invocation_new_recording f])
      (es ++ [mkInvocation f (reset <$> Gsubs) true])) as Hp.
    rewrite <-!app_assoc in Hp. apply Hp. apply Forall3_app; [done|].
    constructor; [by apply (partial_new (mkInvocation f Gsubs true))|constructor].
  - destruct Hp as [g Fs Gs rs es Hs]. simpl in *. destruct (rs !! j) as [s|] eqn:Hj; [|done].
    destruct (Forall3_lookup_m _ _ _ _ _ _ Hs Hj) as (Fj & ej & HFj & Hej & Hpj).
    rewrite lookup_app_l by (by eapply lookup_lt_Some). rewrite Hej.
    destruct (at_last_authorized_sub ms (record_sub_invocation f) s) as [rr s'] eqn:Hrec. injection Hr as -> <-.
    apply grows_inv in Hg as (_ & _ & Fs' & more & Heq & Hf).
    pose proof (Forall3_length_lm _ _ _ _ Hs) as Hlm. apply Forall2_length in Hf as Hl. rewrite length_insert in Hl.
    apply app_inj_1 in Heq as [-> ->]; [|lia].
    destruct (Forall2_lookup_l _ _ _ j s' Hf) as (Fj' & HFj' & Hgj); [apply list_lookup_insert_eq; by eapply lookup_lt_Some|].
    rewrite HFj in HFj'. injection HFj' as <-.
    destruct (IH Fj s ej k s' Hpj Hrec Hgj) as (e' & -> & Hp'). eexists. split; [done|].
    rewrite insert_app_l by (by eapply lookup_lt_Some). constructor.
    by eapply Forall3_insert_mr.
Qed.

(** * Trackers *)

Lemma at_root_unmatched {A} ms (p : M AuthorizedInvocation A) i :
  Forall (.= Unmatched) ms → at_last_authorized ms p i = (Ok None, i).
Proof. induction 1 as [|m ms -> _ IH]; [done|]. simpl. apply IH. Qed.
Lemma partial_root f ms F r e k r' :
  partial F r e → at_last_authorized ms (record_sub_invocation f) r = (Ok (Some k), r') → grows r' F →
  ∃ e', at_last_authorized ms (match_sub_invocation f) e = (Ok (Some (SubMatch k)), e') ∧ partial F r' e'.
Proof.
  intros Hp. induction ms as [|[| |j] ms IH]; simpl; intros Hr Hg; [done|by apply IH| |done].
  unfold m_bind in *. destruct (at_last_authorized_sub ms (record_sub_invocation f) r) as [[n|] r1] eqn:Hs; [|done].
  injection Hr as -> ->. destruct (partial_sub _ _ _ _ _ _ _ Hp Hs Hg) as (e' & -> & Hp'). by exists e'.
Qed.

(** A recorded tracker, and the enforcing one that has followed it to here, where [F] is
    what will have been recorded in the end. *)
Record follows (F r e : InvocationTracker) : Prop := {
  fo_tree : partial (root_authorized_invocation F) (root_authorized_invocation r) (root_authorized_invocation e);
  fo_stack : match_stack e = match_stack r;
  fo_frame : root_exhausted_frame e = root_exhausted_frame r;
  fo_processed : is_fully_processed e = is_fully_processed r
}.
Definition tracker_grows (t t' : InvocationTracker) : Prop :=
  grows (root_authorized_invocation t) (root_authorized_invocation t').

Lemma record_tracker f t t' :
  tracker_wf t → tracker_record_invocation f t = (Ok tt, t') →
  ∃ l k, match_stack t = l ++ [Unmatched] ∧ match_stack t' = l ++ [SubMatch k] ∧
    at_last_authorized l (record_sub_invocation f) (root_authorized_invocation t) = (Ok (Some k), root_authorized_invocation t') ∧
    root_exhausted_frame t' = root_exhausted_frame t ∧ is_fully_processed t' = is_fully_processed t ∧
    tracker_wf t' ∧ tracker_grows t t'.
Proof.
  intros [Hr Hc Hun Hus]. destruct t as [root ms fr fp]; simpl in *.
  destruct ms as [|m l _] using rev_ind.
  { cbv [tracker_record_invocation m_bind m_get m_zoom current_frame_is_already_matched]. simpl. done. }
  cbv [tracker_record_invocation m_bind m_get m_zoom]. rewrite current_frame_snoc. simpl.
  destruct (is_matched m) eqn:Hm; [done|]. assert (m = Unmatched) as -> by by destruct m. clear Hm.
  cbn [match_stack root_authorized_invocation]. rewrite at_root_snoc. pose proof (proj1 (root_ok_snoc root l) Hr) as Hrl.
  destruct (record_root_spec f l root Hc Hrl) as [[-> _]|(k & root' & Hat & Hc' & He' & He & Hok & Hg)]; [done|].
  rewrite Hat. cbv [unwrap_last_match m_bind m_get m_modify]. simpl. rewrite length_app, Nat.add_comm; simpl.
  rewrite set_last_snoc. intros [= <-]. simpl. exists l, k. split_and!; try done.
  split; simpl; [done|done|congruence|]. intros _. destruct (Hus He) as (j & -> & Hj). exists j. split; [done|].
  destruct fp.
  - apply Forall_app in Hj as [Hj _]. by rewrite at_root_unmatched in Hat.
  - apply lookup_app_Some in Hj as [Hj|[_ Hj%list_lookup_singleton_Some] ]; [by apply lookup_app_l_Some|by destruct Hj].
Qed.

(** Enforcing matches in the follower what was recorded. *)
Lemma follows_record f allow F r e r' :
  follows F r e → tracker_wf r → tracker_record_invocation f r = (Ok tt, r') → tracker_grows r' F →
  ∃ e', maybe_extend_invocation_match f allow e = (Ok true, e') ∧ follows F r' e'.
Proof.
  intros [Ht Hs Hf Hp] Hwf Hr Hg. destruct (record_tracker f r r' Hwf Hr) as (l & k & Hl & Hl' & Hat & Hf' & Hp' & _ & _).
  destruct (partial_root _ _ _ _ _ _ _ Ht Hat Hg) as (e1 & He1 & Ht1).
  destruct e as [root ms fr fp]; simpl in *. subst ms. rewrite Hl, maybe_extend_unmatched, He1. simpl.
  eexists. split; [done|]. split; simpl; [done|by rewrite Hl'|congruence|congruence].
Qed.

(** A tracker that nothing has been recorded for yet. *)
Definition waiting (n : nat) (F : InvocationTracker) : InvocationTracker :=
  mkTracker (reset (root_authorized_invocation F)) (replicate n Unmatched) None false.

Lemma replicate_snoc {A} n (x : A) : replicate (S n) x = replicate n x ++ [x].
Proof. rewrite <-Nat.add_1_r, replicate_add. done. Qed.
Lemma waiting_record f n F :
  n ≠ O → tracker_grows (tracker_new_recording f n) F →
  ∃ e', maybe_extend_invocation_match f true (waiting n F) = (Ok true, e') ∧ follows F (tracker_new_recording f n) e'.
Proof.
  intros Hn Hg. destruct n as [|n]; [done|]. destruct F as [ [g subs b] msF frF fpF].
  apply grows_inv in Hg as (<- & <- & _). unfold waiting. rewrite replicate_snoc, maybe_extend_unmatched.
  rewrite at_root_unmatched by by apply Forall_replicate. simpl. rewrite bool_decide_true by done.
  eexists. split; [done|]. unfold tracker_new_recording. replace (S n - 1)%nat with n by lia. split; simpl; [|done| |done].
  - by apply (partial_new (mkInvocation f subs true)).
  - rewrite length_app, length_replicate. simpl. f_equal. lia.
Qed.
Lemma waiting_push n F : tracker_push_frame (waiting n F) = waiting (S n) F.
Proof. unfold waiting. by rewrite replicate_snoc. Qed.
Lemma waiting_pop n F : tracker_pop_frame (waiting (S n) F) = waiting n F.
Proof. unfold waiting, tracker_pop_frame. rewrite replicate_snoc. simpl. by rewrite removelast_last. Qed.
Lemma follows_push F r e : follows F r e → follows F (tracker_push_frame r) (tracker_push_frame e).
Proof. intros [? ? ? ?]. split; simpl; congruence. Qed.
Lemma follows_pop F r e : follows F r e → follows F (tracker_pop_frame r) (tracker_pop_frame e).
Proof.
  intros [Ht Hs Hf Hp]. unfold tracker_pop_frame. simpl. rewrite Hf, Hs.
  destruct (root_exhausted_frame r) eqn:Hk; [case_decide|]; split; simpl; congruence || done.
Qed.

(** * What a contract does about authorization *)

(** Requests and grants of the running contract, and calls, which may fail and be survived. *)
Inductive request :=
| Require (address_obj_handle : Z) (args : list ScVal)
| Authorize (contract : Hash) (entries : list InvokerContractAuthEntry)
| Call (frame : AuthStackFrame) (fails : bool) (body : list request).

Section request_ind.
Context (P : request → Prop).
Context (Hr : ∀ h args, P (Require h args)) (Ha : ∀ c es, P (Authorize c es)).
Context (Hc : ∀ fr fails body, Forall P body → P (Call fr fails body)).
Fixpoint request_nested_ind (q : request) : P q :=
  match q with
  | Require h args => Hr h args
  | Authorize c es => Ha c es
  | Call fr fails body => Hc fr fails body ((fix go l : Forall P l :=
      match l with
      | [] => List.Forall_nil P
      | x :: l => List.Forall_cons P x l (request_nested_ind x) (go l)
      end) body)
  end.
End request_ind.

(** No requests; and no requests in calls that fail. *)
Fixpoint silent (q : request) : bool :=
  match q with Require _ _ => false | Authorize _ _ => true | Call _ _ body => forallb silent body end.
Fixpoint quiet (q : request) : bool :=
  match q with
  | Require _ _ | Authorize _ _ => true
  | Call _ fails body => forallb quiet body && (negb fails || forallb silent body)
  end.

Section perform.
Context {T Snap : Type} (require : Z → list ScVal → M T unit).
Context (authorize : Hash → list InvokerContractAuthEntry → M T unit).
Context (push : AuthStackFrame → M T Snap) (pop : option Snap → M T unit).

Fixpoint perform (q : request) : M T unit :=
  match q with
  | Require h args => require h args
  | Authorize c es => authorize c es
  | Call fr fails body =>
      let* sn := push fr in
      (fix go l := match l with [] => m_ret tt | x :: l => perform x ;;; go l end) body ;;;
      pop (if fails then Some sn else None)
  end.
Fixpoint performs (l : list request) : M T unit :=
  match l with [] => m_ret tt | x :: l => perform x ;;; performs l end.
Lemma perform_call fr fails body :
  perform (Call fr fails body) = let* sn := push fr in performs body ;;; pop (if fails then Some sn else None).
Proof. reflexivity. Qed.
End perform.

(** ** Code that does not look at the signed entries *)

Definition blind {A} (p : M AuthorizationManager A) : Prop :=
  ∀ l m, p (set_account_trackers l m) = let '(r, m1) := p m in (r, set_account_trackers l m1).

Lemma set_accounts_id m : set_account_trackers (account_trackers m) m = m.
Proof. by destruct m. Qed.
Lemma blind_accounts {A} (p : M AuthorizationManager A) m r m1 :
  blind p → p m = (r, m1) → account_trackers m1 = account_trackers m.
Proof. intros Hp Hr. pose proof (Hp (account_trackers m) m) as Hb. rewrite set_accounts_id, Hr in Hb. by injection Hb as ->. Qed.

Lemma blind_check a f : blind (maybe_check_invoker_contract_auth a f).
Proof.
  intros l m. unfold maybe_check_invoker_contract_auth, m_bind, m_get, m_ret, m_fail. simpl.
  case_decide; [done|]. destruct (call_stack m !! _) as [fr|]; [|done].
  destruct (match fr with FrameContract _ => _ | _ => _ end); [done|].
  unfold m_zoom. simpl. by destruct (m_first_aux _ (invoker_contract_trackers m) ()) as [r [ts u]].
Qed.
Lemma blind_add c es : blind (add_invoker_contract_auth_with_curr_contract_as_invoker c es).
Proof.
  induction es as [|e es IH]; intros l m; [done|]. simpl. unfold m_bind, m_lift, m_modify.
  destruct (new_with_curr_contract_as_invoker c e) as [t|]; [|done].
  apply (IH l (set_invoker_trackers (invoker_contract_trackers m ++ [t]) m)).
Qed.
Lemma blind_rollback sns : blind (rollback_invokers sns).
Proof.
  intros l m. unfold rollback_invokers, m_bind, m_get, m_zoom, m_fail. simpl. case_decide; [|done]. by destruct (m_zip _ _).
Qed.
Lemma push_accounts fr l m :
  push_auth_frame fr (set_account_trackers l m) = set_account_trackers (push_account <$> l) (push_auth_frame fr m).
Proof. done. Qed.
Lemma pop_accounts l m :
  call_stack m ≠ [] →
  ∃ m1, manager_pop_frame None m = (Ok tt, m1) ∧ call_stack m1 = removelast (call_stack m) ∧
    account_trackers m1 = pop_account <$> account_trackers m ∧
    manager_pop_frame None (set_account_trackers l m) = (Ok tt, set_account_trackers (pop_account <$> l) m1).
Proof.
  intros Hne. unfold manager_pop_frame, m_bind, m_get, m_ret, m_modify. simpl. rewrite !decide_False by done. by eexists.
Qed.

(** * Recording runs *)
Section recording.
Context {S G : Type} `{LedgerStore S} (li : LedgerInfo).
Context (gen_nonce : G → Z * G) (source_account : option ScAddress) (address_of : Z → ScAddress).
#[local] Abbreviation Recording := (Recording S G) (only parsing).
#[local] Abbreviation require_auth_recording := (require_auth_recording li gen_nonce source_account address_of).
#[local] Abbreviation it := invocation_tracker (only parsing).
Implicit Types (r : Recording).

(** A run of requests in recording mode. *)
Definition recording_perform : request → M Recording unit :=
  perform (recording_require_auth li gen_nonce source_account address_of)
    (λ c es, on_rec_manager (add_invoker_contract_auth_with_curr_contract_as_invoker c es))
    recording_push_frame recording_pop_frame.
Definition recording_performs : list request → M Recording unit :=
  performs (recording_require_auth li gen_nonce source_account address_of)
    (λ c es, on_rec_manager (add_invoker_contract_auth_with_curr_contract_as_invoker c es))
    recording_push_frame recording_pop_frame.

(** The source account of the transaction needs no nonce. *)
Definition source_ok (t : AccountAuthorizationTracker) : Prop :=
  if is_transaction_source_account t then source_account = Some (address t) ∧ nonce t = None else nonce t ≠ None.
(** Trackers in step with the calls, and handles that lead to trackers of their address. *)
Definition tracker_ok (n : nat) (t : AccountAuthorizationTracker) : Prop :=
  tracker_wf (it t) ∧ length (match_stack (it t)) = n ∧ source_ok t.
Record rec_wf r : Prop := {
  rw_trackers : Forall (tracker_ok (length (call_stack (rec_manager r)))) (rec_trackers r);
  rw_handles : ∀ h i, tracker_by_address_handle r !! h = Some i → ∃ t, rec_trackers r !! i = Some t ∧ address t = address_of h
}.

Lemma record_at_inv i f r r' :
  record_at i f r = (Ok tt, r') →
  ∃ t t1, rec_trackers r !! i = Some t ∧ tracker_record_invocation f (it t) = (Ok tt, t1) ∧
    r' = set_rec_trackers (<[i := set_invocation_tracker t1 t]> (rec_trackers r)) r.
Proof.
  unfold record_at, m_bind, m_get. destruct (rec_trackers r !! i) as [t|]; [|done].
  unfold account_record_invocation, m_zoom. destruct (tracker_record_invocation f (it t)) as [ [[]|] t1] eqn:Hr; [|done].
  intros [= <-]. by exists t, t1.
Qed.

(** What a request that got through has recorded. *)
Inductive recorded (a : ScAddress) (f : AuthorizedFunction) r : Recording → Prop :=
| recorded_more i t t1 hs :
    rec_trackers r !! i = Some t → address t = a → tracker_record_invocation f (it t) = (Ok tt, t1) →
    hs ⊆ tracker_by_address_handle r →
    recorded a f r (set_handles hs (set_rec_trackers (<[i := set_invocation_tracker t1 t]> (rec_trackers r)) r))
| recorded_new t h hs sg :
    call_stack (rec_manager r) ≠ [] → address t = a → address_of h = a → source_ok t →
    it t = tracker_new_recording f (length (call_stack (rec_manager r))) →
    hs ⊆ tracker_by_address_handle r →
    recorded a f r (set_handles (<[h := length (rec_trackers r)]> hs)
      (set_rec_trackers (rec_trackers r ++ [t]) (set_ledger_and_prng sg r))).

Lemma account_new_recording_inv a f n sg t sg' :
  account_new_recording li gen_nonce source_account a f n sg = (Ok t, sg') →
  n ≠ O ∧ address t = a ∧ it t = tracker_new_recording f n ∧ source_ok t.
Proof.
  destruct n as [|n]; [done|]. unfold account_new_recording. intros (nc & sg1 & Hnc & [= <- _])%m_bind_done.
  split_and!; [done..|]. unfold source_ok. simpl. case_bool_decide as Hs; [by injection Hnc as <-|].
  apply m_bind_done in Hnc as (x & sg2 & _ & (y & sg3 & _ & (u & sg4 & _ & [= <- _])%m_bind_done)%m_bind_done). done.
Qed.

Lemma set_handles_id r : set_handles (tracker_by_address_handle r) r = r.
Proof. by destruct r. Qed.
Lemma require_recording_inv h f r r' :
  rec_wf r → require_auth_recording h f r = (Ok tt, r') → recorded (address_of h) f r r'.
Proof.
  intros [_ Hh]. unfold AuthRecord.require_auth_recording. intros Hr.
  apply m_bind_done in Hr as (found & r1 & Hby & Hr).
  assert (found = true ∧ recorded (address_of h) f r r1 ∨
    found = false ∧ ∃ hs, hs ⊆ tracker_by_address_handle r ∧ r1 = set_handles hs r) as [[-> Hdone]|[-> (hs & Hhs & ->)] ].
  { unfold record_by_handle, m_bind at 1, m_get in Hby.
    destruct (tracker_by_address_handle r !! h) as [i|] eqn:Hi.
    2: { injection Hby as <- <-. right. split; [done|]. exists (tracker_by_address_handle r). by rewrite set_handles_id. }
    destruct (Hh h i Hi) as (t & Ht & Ha). rewrite Ht in Hby. destruct (has_authorized_invocations_in_stack t).
    - apply m_bind_done in Hby as ([] & r2 & Hat & [= <- <-]).
      apply record_at_inv in Hat as (t' & t1 & Ht' & Hrec & ->). left. split; [done|]. rewrite Ht in Ht'. injection Ht' as <-.
      rewrite <-(set_handles_id (set_rec_trackers _ r)). by eapply (recorded_more _ _ r i t t1).
    - injection Hby as <- <-. right. split; [done|]. eexists. split; [|done]. apply delete_subseteq. }
  { by injection Hr as <-. }
  unfold m_bind at 1, m_get in Hr. unfold find_active in Hr.
  destruct (list_find _ _) as [ [i t]|] eqn:Hf; simpl in Hr.
  - apply list_find_Some in Hf as (Ht & (Ha & _ & _) & _). apply record_at_inv in Hr as (t' & t1 & Ht' & Hrec & ->).
    rewrite Ht in Ht'. injection Ht' as <-. by apply (recorded_more _ _ r i t t1).
  - destruct (_ && _); [done|]. apply m_bind_done in Hr as (t & r2 & Hnew & Hr).
    unfold m_zoom in Hnew. destruct (account_new_recording _ _ _ _ _ _ _) as [rt sg] eqn:Hacc.
    injection Hnew as -> <-. apply account_new_recording_inv in Hacc as (Hn & Ha & Hit & Hsrc).
    injection Hr as <-.
    assert (call_stack (rec_manager r) ≠ []) as Hne by (intros Heq; by rewrite Heq in Hn).
    pose proof (recorded_new _ f r t h hs sg Hne Ha eq_refl Hsrc Hit Hhs) as Hrec.
    assert (length (rec_trackers r ++ [t]) - 1 = length (rec_trackers r))%nat as Hl by (rewrite length_app; simpl; lia).
    revert Hrec. unfold set_handles, set_rec_trackers, set_ledger_and_prng, set_rec_manager, rec_trackers in *. simpl in *.
    by rewrite Hl.
Qed.

Lemma recorded_static a f r r' :
  recorded a f r r' → rec_manager r' = set_account_trackers (rec_trackers r') (rec_manager r).
Proof. by intros []. Qed.
Lemma recorded_wf a f r r' : recorded a f r r' → rec_wf r → rec_wf r'.
Proof.
  intros Hrec [Ht Hh]. destruct Hrec as [i t t1 hs Hi Ha Hr Hhs|t h hs sg Hne Ha Hha Hsrc Hit Hhs].
  - rewrite Forall_lookup in Ht. destruct (Ht i t Hi) as (Hwf & Hlen & Hsrc).
    destruct (record_tracker f _ _ Hwf Hr) as (l & k & Hl & Hl' & _ & _ & _ & Hwf' & _). split.
    + apply Forall_insert; [by apply Forall_lookup|]. split_and!; [done| |done]. simpl. rewrite Hl'. simpl. rewrite <-Hlen, Hl, !length_app. done.
    + intros h j Hj. simpl in Hj. destruct (Hh h j) as (tj & Htj & Haj); [by eapply lookup_weaken|].
      unfold rec_trackers in *. simpl. destruct (decide (i = j)) as [<-|Hne].
      * rewrite list_lookup_insert_eq by (by eapply lookup_lt_Some). eexists. split; [done|]. simpl. congruence.
      * rewrite list_lookup_insert_ne by done. eauto.
  - assert (tracker_wf (it t)) as Hwf.
    { rewrite Hit. destruct (call_stack (rec_manager r)) as [|fr st]; [done|]. unfold tracker_new_recording. simpl.
      rewrite Nat.sub_0_r. split; simpl; [|by constructor|done|].
      - apply all_unmatched_root_ok; [by apply Forall_replicate|done].
      - intros _. eexists. split; [done|]. rewrite length_app, length_replicate. simpl. rewrite Nat.add_sub.
        by rewrite lookup_app_r, length_replicate, Nat.sub_diag by (by rewrite length_replicate). }
    split.
    + apply Forall_app. split; [done|]. apply Forall_singleton. split_and!; [done| |done]. rewrite Hit. simpl.
      rewrite length_app, length_replicate. simpl. destruct (call_stack (rec_manager r)); [done|]. simpl. lia.
    + intros h' j Hj. unfold rec_trackers in *. simpl in *. apply lookup_insert_Some in Hj as [ [<- <-]|[_ Hj] ].
      * exists t. rewrite lookup_app_r, Nat.sub_diag by done. by subst.
      * destruct (Hh h' j) as (tj & Htj & Haj); [by eapply lookup_weaken|]. exists tj.
        by rewrite lookup_app_l by (by eapply lookup_lt_Some).
Qed.

(** ** Frames *)

Lemma pop_push t : tracker_wf t → tracker_pop_frame (tracker_push_frame t) = t.
Proof.
  intros [_ _ Hun Hus]. destruct t as [root ms fr fp]. unfold tracker_pop_frame. simpl in *. rewrite removelast_last.
  destruct fr as [k|]; [|done]. case_decide as Hk; [|done]. destruct (is_exhausted root).
  - destruct (Hus eq_refl) as (j & [= <-] & Hj). destruct fp; [done|]. apply lookup_lt_Some in Hj. lia.
  - by destruct (Hun eq_refl).
Qed.
Lemma pop_push_accounts (P : AccountAuthorizationTracker → Prop) l :
  (∀ t, P t → tracker_wf (it t)) → Forall P l → pop_account <$> (push_account <$> l) = l.
Proof.
  intros HP. induction 1 as [|t l Ht _ IH]; [done|]. rewrite !fmap_cons, IH. f_equal.
  unfold pop_account, push_account. simpl. rewrite pop_push by auto. by destruct t.
Qed.

Lemma push_inv fr r sn r1 :
  recording_push_frame fr r = (Ok sn, r1) →
  r1 = set_rec_manager (push_auth_frame fr (rec_manager r)) r ∧ sn = recording_snapshot r1.
Proof. by intros [= <- <-]. Qed.
Lemma push_rec_wf fr r : rec_wf r → rec_wf (set_rec_manager (push_auth_frame fr (rec_manager r)) r).
Proof.
  intros [Ht Hh]. split; unfold rec_trackers in *; simpl in *.
  - apply Forall_fmap. eapply Forall_impl; [exact Ht|]. simpl. intros t (Hwf & Hl & Hsrc).
    split_and!; [by apply tracker_push_wf| |done]. simpl. rewrite !length_app. simpl. lia.
  - intros h i Hi. destruct (Hh h i Hi) as (t & Hit & Ha). exists (push_account t). by rewrite list_lookup_fmap, Hit.
Qed.
Lemma pop_rec_wf r m1 :
  rec_wf r → call_stack m1 = removelast (call_stack (rec_manager r)) →
  account_trackers m1 = pop_account <$> rec_trackers r → rec_wf (set_rec_manager m1 r).
Proof.
  intros [Ht Hh] Hst Hacc. unfold rec_trackers in *. split; unfold rec_trackers; simpl; rewrite Hacc.
  - rewrite Hst. apply Forall_fmap. eapply Forall_impl; [exact Ht|]. simpl. intros t (Hwf & Hl & Hsrc).
    split_and!; [by apply tracker_pop_wf| |done]. simpl. rewrite pop_stack, !length_removelast. lia.
  - intros h i Hi. destruct (Hh h i Hi) as (t & Hit & Ha). exists (pop_account t). by rewrite list_lookup_fmap, Hit.
Qed.

(** What a frame does to the trackers below it. *)
Record rec_after r r' : Prop := {
  ra_stack : call_stack (rec_manager r') = call_stack (rec_manager r);
  ra_trackers : ∀ i t, rec_trackers r !! i = Some t →
    ∃ t', rec_trackers r' !! i = Some t' ∧ address t' = address t ∧ tracker_grows (it t) (it t')
}.
#[local] Instance rec_after_preorder : PreOrder rec_after.
Proof.
  split.
  - intros r. split; [done|]. intros i t Ht. exists t. split_and!; [done..|apply grows_refl].
  - intros r1 r2 r3 [Hs Ht] [Hs' Ht']. split; [congruence|]. intros i t Hi.
    destruct (Ht i t Hi) as (t2 & Hi2 & Ha2 & Hg2). destruct (Ht' i t2 Hi2) as (t3 & Hi3 & Ha3 & Hg3).
    exists t3. split_and!; [done|congruence|by eapply grows_trans].
Qed.
Lemma recorded_after a f r r' : recorded a f r r' → rec_wf r → rec_after r r'.
Proof.
  intros Hrec Hwf. split; [by rewrite (recorded_static _ _ _ _ Hrec)|]. intros j t Hj.
  destruct Hrec as [i ti t1 hs Hi Ha Hr _|t' h hs sg _ _ _ _ _ _]; unfold rec_trackers in *; simpl.
  - destruct (decide (i = j)) as [<-|Hne].
    + rewrite list_lookup_insert_eq by (by eapply lookup_lt_Some). rewrite Hi in Hj. injection Hj as <-.
      eexists. split; [done|]. split; [done|].
      destruct Hwf as [Ht _]. rewrite Forall_lookup in Ht. destruct (Ht i ti Hi) as [Hw _].
      by destruct (record_tracker f _ _ Hw Hr) as (? & ? & _ & _ & _ & _ & _ & _ & Hg).
    + rewrite list_lookup_insert_ne by done. exists t. split_and!; [done..|apply grows_refl].
  - exists t. rewrite lookup_app_l by (by eapply lookup_lt_Some). split_and!; [done..|apply grows_refl].
Qed.

(** Code that is blind to the trackers changes neither them nor the call stack. *)
Lemma blind_step {A} (p : M AuthorizationManager A) r x r' :
  blind p → (∀ m y m1, p m = (y, m1) → call_stack m1 = call_stack m) → on_rec_manager p r = (Ok x, r') →
  ∃ m1, p (rec_manager r) = (Ok x, m1) ∧ r' = set_rec_manager m1 r ∧
    account_trackers m1 = rec_trackers r ∧ call_stack m1 = call_stack (rec_manager r).
Proof.
  intros Hp Hst. unfold on_rec_manager, m_zoom. destruct (p (rec_manager r)) as [y m1] eqn:Hpm. intros [= -> <-].
  exists m1. split_and!; [done|done|by eapply blind_accounts|by eapply Hst].
Qed.
Lemma same_wf r m1 :
  rec_wf r → account_trackers m1 = rec_trackers r → call_stack m1 = call_stack (rec_manager r) →
  rec_wf (set_rec_manager m1 r) ∧ rec_after r (set_rec_manager m1 r).
Proof.
  intros [Ht Hh] Hacc Hst. split; split; unfold rec_trackers in *; simpl; rewrite ?Hacc, ?Hst; try done.
  intros i t Hi. exists t. split_and!; [done..|apply grows_refl].
Qed.

Lemma check_stack a f m y m1 : maybe_check_invoker_contract_auth a f m = (y, m1) → call_stack m1 = call_stack m.
Proof.
  unfold maybe_check_invoker_contract_auth, m_bind, m_get, m_ret, m_fail. case_decide; [by intros [= _ <-]|].
  destruct (call_stack m !! _) as [fr|]; [|by intros [= _ <-]].
  destruct (match fr with FrameContract _ => _ | _ => _ end); [by intros [= _ <-]|].
  unfold m_zoom. destruct (m_first _ _) as [? []]. by intros [= _ <-].
Qed.
Lemma add_stack c es m y m1 :
  add_invoker_contract_auth_with_curr_contract_as_invoker c es m = (y, m1) → call_stack m1 = call_stack m.
Proof.
  revert m. induction es as [|e es IH]; intros m; simpl; [by intros [= _ <-]|]. unfold m_bind, m_lift, m_modify.
  destruct (new_with_curr_contract_as_invoker c e); [|by intros [= _ <-]]. intros Hr. by rewrite (IH _ Hr).
Qed.
Lemma rollback_stack sns m y m1 : rollback_invokers sns m = (y, m1) → call_stack m1 = call_stack m.
Proof.
  unfold rollback_invokers, m_bind, m_get, m_zoom, m_fail. case_decide; [|by intros [= _ <-]].
  destruct (m_zip _ _). by intros [= _ <-].
Qed.

Lemma require_cases h args r r' :
  rec_wf r → recording_require_auth li gen_nonce source_account address_of h args r = (Ok tt, r') →
  ∃ fr b m1, last (call_stack (rec_manager r)) = Some fr ∧
    maybe_check_invoker_contract_auth (address_of h) (to_authorized_function fr args) (rec_manager r) = (Ok b, m1) ∧
    rec_wf (set_rec_manager m1 r) ∧ rec_after r (set_rec_manager m1 r) ∧ account_trackers m1 = rec_trackers r ∧
    if b : bool then r' = set_rec_manager m1 r
    else recorded (address_of h) (to_authorized_function fr args) (set_rec_manager m1 r) r'.
Proof.
  intros Hwf. unfold recording_require_auth, m_bind at 1, m_get. destruct (last _) as [fr|]; [|done].
  intros (b & r1 & Hc & Hr)%m_bind_done.
  destruct (blind_step _ r b r1 (blind_check _ _) (check_stack _ _) Hc) as (m1 & Hm & -> & Hacc & Hst).
  destruct (same_wf r m1 Hwf Hacc Hst) as [Hwf1 Hafter].
  exists fr, b, m1. split_and!; [done..|]. destruct b; [by injection Hr as <-|]. by apply require_recording_inv in Hr.
Qed.

Lemma rollback_inv r1 r2 r3 :
  recording_rollback (recording_snapshot r1) r2 = (Ok tt, r3) →
  ∃ m3, rollback_invokers (rs_invoker_snapshots (recording_snapshot r1)) (set_account_trackers (rec_trackers r1) (rec_manager r2)) = (Ok tt, m3) ∧
    r3 = set_handles (tracker_by_address_handle r1) (set_rec_manager m3 r2) ∧
    account_trackers m3 = rec_trackers r1 ∧ call_stack m3 = call_stack (rec_manager r2).
Proof.
  unfold recording_rollback. intros (u & ra & [= _ <-] & Hr)%m_bind_done. apply m_bind_done in Hr as (u' & rb & Hb & [= <-]).
  apply blind_step in Hb as (m3 & Hm & -> & Hacc & Hst); [|apply blind_rollback|apply rollback_stack].
  exists m3. destruct u'. split_and!; done.
Qed.

(** A call, from what is known of its body. *)
Lemma call_cases fr fails body r r' :
  rec_wf r → recording_perform (Call fr fails body) r = (Ok tt, r') →
  let r1 := set_rec_manager (push_auth_frame fr (rec_manager r)) r in
  ∃ r2, recording_performs body r1 = (Ok tt, r2) ∧
    (rec_wf r2 ∧ rec_after r1 r2 →
     ∃ r3 m4, (if fails then recording_rollback (recording_snapshot r1) r2 = (Ok tt, r3) else r3 = r2) ∧
       rec_wf r3 ∧ call_stack (rec_manager r3) = call_stack (rec_manager r1) ∧
       (if fails then rec_trackers r3 = rec_trackers r1 else True) ∧
       manager_pop_frame None (rec_manager r3) = (Ok tt, m4) ∧ r' = set_rec_manager m4 r3 ∧
       call_stack m4 = call_stack (rec_manager r) ∧ account_trackers m4 = pop_account <$> rec_trackers r3 ∧
       rec_wf r' ∧ rec_after r r').
Proof.
  intros Hwf Hr r1. unfold recording_perform in Hr. rewrite perform_call in Hr.
  apply m_bind_done in Hr as (sn & r1' & [-> ->]%push_inv & Hr). fold r1 in Hr.
  apply m_bind_done in Hr as (u & r2 & Hbody & Hpop). exists r2. split; [by destruct u|]. intros [Hwf2 [Hst2 Htr2] ].
  assert (rec_wf r1) as Hwf1 by by apply push_rec_wf.
  assert (∃ r3, (if fails then recording_rollback (recording_snapshot r1) r2 = (Ok tt, r3) else r3 = r2) ∧
    on_rec_manager (manager_pop_frame None) r3 = (Ok tt, r')) as (r3 & H3 & Hpop3).
  { unfold recording_pop_frame in Hpop. destruct fails.
    - apply m_bind_done in Hpop as ([] & r3 & Hrb & Hpop). by exists r3.
    - exists r2. apply m_bind_done in Hpop as (? & r3 & [= _ <-] & Hpop). done. }
  assert (rec_wf r3 ∧ call_stack (rec_manager r3) = call_stack (rec_manager r1) ∧
    (if fails then rec_trackers r3 = rec_trackers r1 else True) ∧
    ∀ i t, rec_trackers r1 !! i = Some t → ∃ t', rec_trackers r3 !! i = Some t' ∧ address t' = address t ∧ tracker_grows (it t) (it t'))
    as (Hwf3 & Hst3 & Hsame & Htr3).
  { destruct fails.
    - destruct (rollback_inv r1 r2 r3 H3) as (m3 & _ & -> & Hacc & Hst). split_and!; [| |done|].
      + destruct Hwf1 as [Ht Hh]. split; unfold rec_trackers in *; simpl; rewrite ?Hacc; [by rewrite Hst, Hst2|done].
      + cbn [rec_manager set_handles set_rec_manager]. by rewrite Hst, Hst2.
      + unfold rec_trackers at 2. simpl. rewrite Hacc. intros i t Hi. exists t. split_and!; [done..|apply grows_refl].
    - subst r3. split_and!; done. }
  assert (call_stack (rec_manager r3) ≠ []) as Hne by (rewrite Hst3; simpl; by destruct (call_stack (rec_manager r))).
  destruct (pop_accounts [] (rec_manager r3) Hne) as (m4 & Hm4 & Hst4 & Hacc4 & _).
  change (account_trackers (rec_manager r3)) with (rec_trackers r3) in Hacc4.
  unfold on_rec_manager, m_zoom in Hpop3. rewrite Hm4 in Hpop3. injection Hpop3 as <-.
  assert (call_stack m4 = call_stack (rec_manager r)) as Hst by by rewrite Hst4, Hst3; simpl; rewrite removelast_last.
  exists r3, m4. split_and!; try done; [by apply pop_rec_wf|]. split; [done|].
  intros i t Hi. destruct (Htr3 i (push_account t)) as (t' & Hi' & Ha & Hg).
  { unfold rec_trackers, r1. simpl. rewrite list_lookup_fmap. unfold rec_trackers in Hi. by rewrite Hi. }
  exists (pop_account t'). change (rec_trackers (set_rec_manager m4 r3)) with (account_trackers m4). rewrite Hacc4, list_lookup_fmap, Hi'. split; [done|].
  split; [done|]. unfold tracker_grows in *. simpl in *. by rewrite pop_root.
Qed.

(** Whatever is done, trackers only grow, and code without requests leaves them alone. *)
Definition step_ok (q : request) : Prop :=
  ∀ r r', rec_wf r → recording_perform q r = (Ok tt, r') →
    rec_wf r' ∧ rec_after r r' ∧ (silent q = true → rec_trackers r' = rec_trackers r).
Lemma performs_after l :
  Forall step_ok l → ∀ r r', rec_wf r → recording_performs l r = (Ok tt, r') →
    rec_wf r' ∧ rec_after r r' ∧ (forallb silent l = true → rec_trackers r' = rec_trackers r).
Proof.
  induction 1 as [|q l Hq _ IH]; intros r r' Hwf Hr; [by injection Hr as <-|].
  apply m_bind_done in Hr as ([] & r1 & H1 & H2). destruct (Hq r r1 Hwf H1) as (Hwf1 & Ha1 & Hs1).
  destruct (IH r1 r' Hwf1 H2) as (Hwf2 & Ha2 & Hs2). split_and!; [done|by etrans|].
  simpl. intros [Hq1 Hl]%andb_true_iff. rewrite Hs2, Hs1; done.
Qed.
Lemma perform_after q : step_ok q.
Proof.
  induction q as [h args|c es|fr fails body IH] using request_nested_ind; intros r r' Hwf Hr.
  - destruct (require_cases h args r r' Hwf Hr) as (fr & b & m1 & _ & _ & Hwf1 & Ha1 & _ & Hrec). destruct b; [by subst|].
    split_and!; [by eapply recorded_wf|etrans; [exact Ha1|by eapply recorded_after]|done].
  - apply blind_step in Hr as (m1 & _ & -> & Hacc & Hst); [|apply blind_add|apply add_stack].
    destruct (same_wf r m1 Hwf Hacc Hst). by split_and!.
  - destruct (call_cases fr fails body r r' Hwf Hr) as (r2 & Hbody & Hc).
    destruct (performs_after body IH _ r2 (push_rec_wf fr r Hwf) Hbody) as (Hwf2 & Ha2 & Hs2).
    destruct (Hc (conj Hwf2 Ha2)) as (r3 & m4 & H3 & _ & _ & Hsame & _ & -> & _ & Hacc & Hwf' & Ha').
    split_and!; [done..|]. simpl. intros Hsil. change (rec_trackers (set_rec_manager m4 r3)) with (account_trackers m4). rewrite Hacc.
    assert (rec_trackers r3 = rec_trackers (set_rec_manager (push_auth_frame fr (rec_manager r)) r)) as ->.
    { destruct fails; [done|]. subst r3. by apply Hs2. }
    destruct Hwf as [Ht _]. eapply pop_push_accounts; [|exact Ht]. by intros t [? _].
Qed.
Lemma performs_ok l r r' :
  rec_wf r → recording_performs l r = (Ok tt, r') →
  rec_wf r' ∧ rec_after r r' ∧ (forallb silent l = true → rec_trackers r' = rec_trackers r).
Proof. apply performs_after. apply Forall_true. intros. apply perform_after. Qed.
End recording.
