(* ===== verification/AuthReplay.v ===== *)
(** Recorded authorization is enough: entries that sign what a recording run reports let the
    same requests through in enforcing mode, and are used up by them. *)
From S2P Require Import Prelude ScVal Storage AuthTree AccountAuth Auth TrackerThms AuthThms AuthProps AuthRecord AuthRecordThms.
#[local] Open Scope m_scope.

Lemma partial_det F r e e' : partial F r e → partial F r e' → e = e'.
Proof.
  revert r e e'. induction F as [f subs b IH] using invocation_nested_ind. intros r e e' He He'.
  inversion He as [? Fs Gs rs es Hs]; subst. inversion He' as [? Fs' Gs' ? es' Hs']; subst. match goal with Hq : Fs' ++ Gs' = Fs ++ Gs |- _ => rename Hq into Heq end.
  apply Forall3_length_lm in Hs as Hl. apply Forall3_length_lm in Hs' as Hl'.
  apply app_inj_1 in Heq as [-> ->]; [|lia]. do 2 f_equal. apply Forall_app in IH as [IH _].
  clear He He' Hl Hl'. revert es' Hs'. induction Hs as [|x y z l l2 l3 Hxyz _ IHl]; intros es' Hs'; inversion_clear Hs'; [done|].
  apply Forall_cons in IH as [IHx IH]. f_equal; [by eapply IHx|by apply IHl].
Qed.
Lemma follows_det F r e e' : follows F r e → follows F r e' → e = e'.
Proof.
  intros [Ht Hs Hf Hp] [Ht' Hs' Hf' Hp']. destruct e, e'; simpl in *. f_equal; [by eapply partial_det|congruence..].
Qed.
Lemma tree_le_set_exhausted i : tree_le i (set_exhausted true i).
Proof. destruct i. constructor; [|done]. apply Forall_Forall2_diag, Forall_true, tree_le_refl. Qed.

Lemma m_first_at {S T} (p : M (T * S) bool) xs s i x x' s' :
  xs !! i = Some x → (∀ j y, xs !! j = Some y → j ≠ i → p (y, s) = (Ok false, (y, s))) →
  p (x, s) = (Ok true, (x', s')) → m_first_aux p xs s = (Ok true, (<[i := x']> xs, s')).
Proof.
  revert i. induction xs as [|y xs IH]; intros i Hi Hp Hx; [done|]. destruct i as [|i]; simplify_eq/=.
  - by rewrite Hx.
  - rewrite (Hp O y) by done. erewrite IH; [done|done| |done]. intros j z Hj Hne. apply (Hp (Datatypes.S j)); [done|lia].
Qed.

Section replay.
Context {S G : Type} `{LedgerStore S} (li : LedgerInfo).
Context (gen_nonce : G → Z * G) (source_account : option ScAddress) (address_of : Z → ScAddress).
Context (hash_payload : Hash → Z → Z → SorobanAuthorizedInvocation → Hash).
Context (verify_sig_ed25519 : N → Hash → N → bool).
Context (call_check_auth : Hash → Hash → ScVal → list AuthorizationContext → M S unit).
#[local] Abbreviation Recording := (Recording S G) (only parsing).
#[local] Abbreviation it := invocation_tracker (only parsing).
#[local] Abbreviation authenticate := (authenticate li hash_payload verify_sig_ed25519 call_check_auth).
#[local] Abbreviation require_auth := (require_auth li hash_payload verify_sig_ed25519 call_check_auth).
#[local] Abbreviation require_auth_enforcing := (require_auth_enforcing li hash_payload verify_sig_ed25519 call_check_auth).
#[local] Abbreviation maybe_authorize := (maybe_authorize_invocation li hash_payload verify_sig_ed25519 call_check_auth).
#[local] Abbreviation recording_perform := (recording_perform li gen_nonce source_account address_of).
#[local] Abbreviation recording_performs := (recording_performs li gen_nonce source_account address_of).
#[local] Abbreviation rec_wf := (rec_wf source_account address_of).
#[local] Abbreviation on_manager := (m_zoom fst (λ m ms, (m, snd ms))) (only parsing).
Implicit Types (r : Recording) (m : AuthorizationManager) (s : S).

(** The same requests in enforcing mode. *)
Definition enforcing_push (fr : AuthStackFrame) : M (AuthorizationManager * S) AuthorizationManagerSnapshot :=
  on_manager (m_modify (push_auth_frame fr) ;;; let* m := m_get in m_ret (manager_snapshot m)).
Definition enforcing_perform : request → M (AuthorizationManager * S) unit :=
  perform (λ h args, require_auth (address_of h) args)
    (λ c es, on_manager (add_invoker_contract_auth_with_curr_contract_as_invoker c es))
    enforcing_push (λ sn, on_manager (manager_pop_frame sn)).
Definition enforcing_performs : list request → M (AuthorizationManager * S) unit :=
  performs (λ h args, require_auth (address_of h) args)
    (λ c es, on_manager (add_invoker_contract_auth_with_curr_contract_as_invoker c es))
    enforcing_push (λ sn, on_manager (manager_pop_frame sn)).

(** An entry that is accepted when its turn comes: its signature is good, its nonce can be
    taken, and that leaves the entries of other addresses acceptable. *)
Context (ready : AccountAuthorizationTracker → S → Prop).
Context (Hready : ∀ t s, ready t s → ∃ s1 s2,
  authenticate t s = (Ok tt, s1) ∧ verify_and_consume_nonce li t s1 = (Ok tt, s2) ∧
  ∀ t', address t' ≠ address t → ready t' s → ready t' s2).

(** [F] are the trackers recorded in the end, [T] those enforcing starts from. *)
Context (F T : list AccountAuthorizationTracker).
Context (HF : NoDup (address <$> F)).
Context (HT : Forall2 (λ f t, address t = address f ∧ verified t = false ∧
  root_authorized_invocation (it t) = reset (root_authorized_invocation (it f))) F T).

Definition final r : Prop := ∀ i x, rec_trackers r !! i = Some x →
  ∃ f, F !! i = Some f ∧ address f = address x ∧ tracker_grows (it x) (it f).
Lemma final_before r r' : final r' → rec_after r r' → final r.
Proof.
  intros Hf [_ Ha] i x Hx. destruct (Ha i x Hx) as (x' & Hx' & Hadd & Hg). destruct (Hf i x' Hx') as (f & Hif & Hfa & Hfg).
  exists f. split; [done|]. split; [congruence|by eapply grows_trans].
Qed.

(** Where an entry is, given what has been recorded for it. *)
Definition tracked (n : nat) s (f t : AccountAuthorizationTracker) (o : option AccountAuthorizationTracker)
    (e : AccountAuthorizationTracker) : Prop :=
  match o with
  | Some x => ∃ X, e = set_verified true (set_invocation_tracker X t) ∧ follows (it f) (it x) X
  | None => e = set_invocation_tracker (waiting n (it f)) t ∧ ready t s
  end.
Lemma tracked_address n s f t o e : address t = address f → tracked n s f t o e → address e = address f.
Proof. intros Ha. destruct o; [intros (X & -> & _)|intros [-> _] ]; done. Qed.
(** ** Requests *)

Lemma authenticate_used X t s :
  tree_le (root_authorized_invocation (it t)) (root_authorized_invocation X) →
  authenticate (set_invocation_tracker X t) s = authenticate t s.
Proof.
  intros Hle. unfold Auth.authenticate, get_signature_payload, check_account_contract_auth. simpl.
  by rewrite (invocation_to_xdr_static _ _ Hle), (auth_contexts_static _ _ [] Hle).
Qed.
Lemma consume_used X t s : verify_and_consume_nonce li (set_invocation_tracker X t) s = verify_and_consume_nonce li t s.
Proof. done. Qed.

Lemma enforcing_one a f es m s i e e' s' :
  es !! i = Some e → address e = a → (∀ j x, es !! j = Some x → j ≠ i → address x ≠ a) →
  maybe_authorize f (negb (has_active_tracker a (set_account_trackers es m))) (e, s) = (Ok true, (e', s')) →
  require_auth_enforcing a f (set_account_trackers es m, s) = (Ok tt, (set_account_trackers (<[i := e']> es) m, s')).
Proof.
  intros Hi Ha Hu Hm. unfold Auth.require_auth_enforcing, m_bind, m_get, m_zoom, m_first. cbn [fst snd account_trackers set_account_trackers].
  erewrite (m_first_at _ es s i e e' s'); [done|done| |].
  - intros j x Hj Hne. simpl. by rewrite bool_decide_false by by eapply Hu.
  - simpl. rewrite bool_decide_true by done. exact Hm.
Qed.

(** Recorded in a tracker there is. *)
Lemma authorize_followed f allow F0 x x' t X s :
  follows F0 x X → tracker_wf x → tracker_record_invocation f x = (Ok tt, x') → tracker_grows x' F0 →
  ∃ X', maybe_authorize f allow (set_verified true (set_invocation_tracker X t), s) =
    (Ok true, (set_verified true (set_invocation_tracker X' t), s)) ∧ follows F0 x' X'.
Proof.
  intros Hf Hwf Hr Hg. destruct (follows_record f allow F0 x X x' Hf Hwf Hr Hg) as (X' & HX & Hf').
  exists X'. split; [|done]. unfold Auth.maybe_authorize_invocation, m_bind, m_zoom, m_get. simpl. by rewrite HX.
Qed.
(** The first one of a tracker. *)
Lemma authorize_waiting f n F0 t s :
  ready t s → verified t = false → root_authorized_invocation (it t) = reset (root_authorized_invocation F0) →
  n ≠ O → tracker_grows (tracker_new_recording f n) F0 →
  ∃ X s', maybe_authorize f true (set_invocation_tracker (waiting n F0) t, s) = (Ok true, (set_verified true (set_invocation_tracker X t), s')) ∧
    follows F0 (tracker_new_recording f n) X ∧ ∀ t', address t' ≠ address t → ready t' s → ready t' s'.
Proof.
  intros Hrd Hv Hroot Hn Hg. destruct (waiting_record f n F0 Hn Hg) as (X & HX & Hf).
  destruct (Hready t s Hrd) as (s1 & s2 & Ha & Hc & Hkeep). exists X, s2. split; [|done].
  unfold Auth.maybe_authorize_invocation, m_bind, m_zoom, m_get, m_map_err, m_modify. simpl. rewrite HX. simpl. rewrite Hv.
  change (set_invocation_tracker X (set_invocation_tracker (waiting n F0) t)) with (set_invocation_tracker X t).
  change (set_invocation_tracker X t, s).2 with s. rewrite (authenticate_used X t s), Ha; [by rewrite consume_used, Hc|].
  rewrite Hroot. destruct F0 as [ [g subs b] ms fr fp], X as [rX msX frX fpX], Hf as [Ht _ _ _]. simpl in *.
  destruct n as [|n]; [done|]. unfold tracker_new_recording in Ht. simpl in Ht.
  apply grows_inv in Hg as (<- & <- & _).
  rewrite (partial_det _ _ _ _ Ht (partial_new (mkInvocation f subs true) f eq_refl eq_refl)). apply tree_le_set_exhausted.
Qed.

Lemma unique_address i j f f' : F !! i = Some f → F !! j = Some f' → i ≠ j → address f ≠ address f'.
Proof.
  intros Hi Hj Hne Ha. apply Hne. eapply NoDup_lookup; [exact HF| |]; rewrite list_lookup_fmap; [by rewrite Hi|].
  rewrite Hj. simpl. by rewrite Ha.
Qed.
(** The trackers of the manager stand where [F] and what has been recorded say. *)
Definition placed (n : nat) (recs : list AccountAuthorizationTracker) s (es : list AccountAuthorizationTracker) : Prop :=
  length es = length F ∧
  ∀ i f t e, F !! i = Some f → T !! i = Some t → es !! i = Some e → tracked n s f t (recs !! i) e.
Definition sim r m s : Prop :=
  ∃ es, m = set_account_trackers es (rec_manager r) ∧ placed (length (call_stack (rec_manager r))) (rec_trackers r) s es.
Lemma placed_lookup n recs s es i f :
  placed n recs s es → F !! i = Some f → ∃ t e, T !! i = Some t ∧ es !! i = Some e ∧
    address t = address f ∧ verified t = false ∧ root_authorized_invocation (it t) = reset (root_authorized_invocation (it f)) ∧
    address e = address f ∧ tracked n s f t (recs !! i) e.
Proof.
  intros [Hl Hes] Hf. destruct (Forall2_lookup_l _ _ _ _ _ HT Hf) as (t & Ht & Ha & Hv & Hroot).
  destruct (lookup_lt_is_Some_2 es i) as [e He]; [rewrite Hl; by eapply lookup_lt_Some|].
  pose proof (Hes i f t e Hf Ht He) as Htr. exists t, e. split_and!; try done. by eapply tracked_address.
Qed.
Lemma placed_other n recs s es i j f x :
  placed n recs s es → F !! i = Some f → es !! j = Some x → j ≠ i → address x ≠ address f.
Proof.
  intros Hp Hf Hx Hne. destruct (lookup_lt_is_Some_2 F j) as [fj Hfj]; [destruct Hp as [<- _]; by eapply lookup_lt_Some|].
  destruct (placed_lookup n recs s es j fj Hp Hfj) as (t & e & _ & He & _ & _ & _ & Ha & _). rewrite Hx in He. injection He as <-.
  rewrite Ha. by eapply unique_address.
Qed.

(** What is recorded for a request is what grants it: in a tracker there is, or a new one. *)
Lemma granted_more n f recs es m s i x x1 :
  placed n recs s es → recs !! i = Some x → tracker_wf (it x) → tracker_record_invocation f (it x) = (Ok tt, x1) →
  (∃ f0, F !! i = Some f0 ∧ address f0 = address x ∧ tracker_grows x1 (it f0)) →
  ∃ es', require_auth_enforcing (address x) f (set_account_trackers es m, s) = (Ok tt, (set_account_trackers es' m, s)) ∧
    placed n (<[i := set_invocation_tracker x1 x]> recs) s es'.
Proof.
  intros Hp Hi Hwx Hr (f0 & Hf0 & Hfa & Hg). destruct (placed_lookup n recs s es i f0 Hp Hf0) as (t & e & Ht & He & _ & _ & _ & Hea & Htr).
  rewrite Hi in Htr. destruct Htr as (X & -> & HX).
  destruct (authorize_followed f (negb (has_active_tracker (address x) (set_account_trackers es m))) (it f0) (it x) x1 t X s HX Hwx Hr Hg) as (X' & HX' & Hf').
  exists (<[i := set_verified true (set_invocation_tracker X' t)]> es). split.
  - eapply (enforcing_one _ _ es m s i); [exact He|by rewrite Hea| |exact HX']. intros j y Hy Hne. rewrite <-Hfa. by eapply placed_other.
  - destruct Hp as [Hl Hes]. split; [by rewrite length_insert|]. intros j y u e' Hy Hu Hej. destruct (decide (i = j)) as [<-|Hij].
    + rewrite list_lookup_insert_eq in Hej by (by eapply lookup_lt_Some). rewrite list_lookup_insert_eq by (by eapply lookup_lt_Some).
      simplify_eq. by exists X'.
    + rewrite list_lookup_insert_ne in Hej by done. rewrite list_lookup_insert_ne by done. by eapply Hes.
Qed.

Lemma not_active n recs s es m f i :
  placed n recs s es → recs !! i = None → F !! i = Some f → has_active_tracker (address f) (set_account_trackers es m) = false.
Proof.
  intros Hp Hnone Hf. destruct (placed_lookup n recs s es i f Hp Hf) as (t & e & _ & He & _ & _ & _ & _ & Htr).
  rewrite Hnone in Htr. destruct Htr as [-> _]. apply not_true_iff_false. unfold has_active_tracker. simpl.
  intros (y & [j Hj]%list_elem_of_In%list_elem_of_lookup & Hy)%existsb_exists.
  apply andb_true_iff in Hy as [ [Hya Hact]%andb_true_iff _]. apply bool_decide_eq_true in Hya.
  destruct (decide (j = i)) as [->|Hji]; [|by eapply placed_other]. rewrite He in Hj. injection Hj as <-.
  unfold tracker_is_active in Hact. simpl in Hact. by destruct (it f) as [ [] ? ? ?].
Qed.
Lemma granted_new n f recs es m s x :
  placed n recs s es → n ≠ O → it x = tracker_new_recording f n →
  (∃ f0, F !! length recs = Some f0 ∧ address f0 = address x ∧ tracker_grows (it x) (it f0)) →
  ∃ es' s', require_auth_enforcing (address x) f (set_account_trackers es m, s) = (Ok tt, (set_account_trackers es' m, s')) ∧
    placed n (recs ++ [x]) s' es'.
Proof.
  intros Hp Hn Hit (f0 & Hf0 & Hfa & Hg). set (k := length recs) in *.
  assert (recs !! k = None) as Hnone by by apply lookup_ge_None_2.
  destruct (placed_lookup n recs s es k f0 Hp Hf0) as (t & e & Ht & He & Hta & Hv & Hroot & Hea & Htr).
  pose proof (not_active n recs s es m f0 k Hp Hnone Hf0) as Hact. rewrite Hnone in Htr. destruct Htr as [-> Hrd]. rewrite Hit in Hg.
  destruct (authorize_waiting f n (it f0) t s Hrd Hv Hroot Hn Hg) as (X & s' & HX & Hf' & Hkeep).
  exists (<[k := set_verified true (set_invocation_tracker X t)]> es), s'. rewrite <-Hfa. split.
  - eapply (enforcing_one _ _ es m s k); [exact He|done| |rewrite Hact; exact HX]. intros j y Hy Hne. by eapply placed_other.
  - destruct Hp as [Hl Hes]. split; [by rewrite length_insert|]. intros j y u e' Hy Hu Hej. destruct (decide (k = j)) as [<-|Hij].
    + rewrite list_lookup_insert_eq in Hej by (by eapply lookup_lt_Some). unfold k in *. rewrite lookup_app_r, Nat.sub_diag by done. simpl.
      simplify_eq. exists X. split; [done|]. by rewrite Hit.
    + rewrite list_lookup_insert_ne in Hej by done. pose proof (Hes j y u e' Hy Hu Hej) as Htr.
      assert ((recs ++ [x]) !! j = recs !! j) as ->.
      { destruct (decide (j < k)%nat) as [Hlt|Hge]; [by rewrite lookup_app_l|].
        rewrite (lookup_ge_None_2 recs) by lia. apply lookup_ge_None_2. rewrite length_app. simpl. lia. }
      destruct (recs !! j) as [z|]; [done|]. destruct Htr as [-> Hrdj]. split; [done|].
      apply Hkeep; [|done]. destruct (Forall2_lookup_lr _ _ _ j y u HT Hy Hu) as (-> & _ & _). rewrite Hta. by eapply unique_address.
Qed.
Lemma recorded_granted a f r r' m es s :
  rec_wf r → recorded source_account address_of a f r r' → final r' →
  placed (length (call_stack (rec_manager r))) (rec_trackers r) s es →
  ∃ es' s', require_auth_enforcing a f (set_account_trackers es m, s) = (Ok tt, (set_account_trackers es' m, s')) ∧
    placed (length (call_stack (rec_manager r))) (rec_trackers r') s' es'.
Proof.
  intros Hwf Hrec Hfin Hp. destruct Hrec as [i x x1 hs Hi <- Hr _|x h hs sg Hne <- _ _ Hit _].
  - destruct Hwf as [Hw _]. rewrite Forall_lookup in Hw. destruct (Hw i x Hi) as [Hwx _].
    destruct (granted_more _ f _ es m s i x x1 Hp Hi Hwx Hr) as (es' & He & Hp'); [|by exists es', s].
    apply (Hfin i (set_invocation_tracker x1 x)). unfold rec_trackers in *. simpl. apply list_lookup_insert_eq. by eapply lookup_lt_Some.
  - destruct (granted_new _ f _ es m s x Hp) as (es' & s' & He & Hp'); [by destruct (call_stack (rec_manager r))|done| |by exists es', s'].
    apply Hfin. unfold rec_trackers. simpl. by rewrite lookup_app_r, Nat.sub_diag.
Qed.

Lemma set_accounts_twice l l' m : set_account_trackers l (set_account_trackers l' m) = set_account_trackers l m.
Proof. done. Qed.
Lemma require_sim h args r r' m s :
  rec_wf r → recording_require_auth li gen_nonce source_account address_of h args r = (Ok tt, r') → final r' → sim r m s →
  ∃ m' s', require_auth (address_of h) args (m, s) = (Ok tt, (m', s')) ∧ sim r' m' s'.
Proof.
  intros Hwf Hr Hfin (es & -> & Hp).
  destruct (require_cases li gen_nonce source_account address_of h args r r' Hwf Hr) as (fr & b & m1 & Hfr & Hc & Hwf1 & [Hst _] & Hacc & Hrec).
  unfold Auth.require_auth, m_bind at 1, m_get. cbn [fst call_stack set_account_trackers]. rewrite Hfr.
  unfold require_auth_internal, m_bind, m_zoom. cbn [fst snd]. rewrite (blind_check _ _ es), Hc. cbn [fst snd].
  rewrite <-Hst in Hp. change (rec_trackers r) with (account_trackers (rec_manager r)) in Hp, Hacc. rewrite <-Hacc in Hp.
  destruct b.
  - subst r'. eexists _, s. split; [done|]. by exists es.
  - destruct (recorded_granted (address_of h) _ _ r' m1 es s Hwf1 Hrec Hfin Hp) as (es' & s' & -> & Hp').
    eexists _, s'. split; [done|]. exists es'. pose proof (recorded_static _ _ _ _ _ _ Hrec) as Hm.
    split; [by rewrite Hm|]. by rewrite Hm.
Qed.

(** ** Frames *)

Lemma placed_push n recs s es : placed n recs s es → placed (Datatypes.S n) (push_account <$> recs) s (push_account <$> es).
Proof.
  intros [Hl Hes]. split; [by rewrite length_fmap|]. intros i f t e Hf Ht He. rewrite list_lookup_fmap in He.
  apply fmap_Some in He as (e0 & He0 & ->). pose proof (Hes i f t e0 Hf Ht He0) as Htr. rewrite list_lookup_fmap.
  destruct (recs !! i) as [x|]; simpl in *.
  - destruct Htr as (X & -> & HX). exists (tracker_push_frame X). split; [done|by apply follows_push].
  - destruct Htr as [-> Hrd]. split; [|done]. unfold push_account. simpl. by rewrite waiting_push.
Qed.
Lemma placed_pop n recs s es : placed (Datatypes.S n) recs s es → placed n (pop_account <$> recs) s (pop_account <$> es).
Proof.
  intros [Hl Hes]. split; [by rewrite length_fmap|]. intros i f t e Hf Ht He. rewrite list_lookup_fmap in He.
  apply fmap_Some in He as (e0 & He0 & ->). pose proof (Hes i f t e0 Hf Ht He0) as Htr. rewrite list_lookup_fmap.
  destruct (recs !! i) as [x|]; simpl in *.
  - destruct Htr as (X & -> & HX). exists (tracker_pop_frame X). split; [done|by apply follows_pop].
  - destruct Htr as [-> Hrd]. split; [|done]. unfold pop_account. simpl. by rewrite waiting_pop.
Qed.
Lemma placed_det n recs s es s' es' : placed n recs s es → placed n recs s' es' → es = es'.
Proof.
  intros Hp Hp'. apply list_eq. intros i. destruct (F !! i) as [f|] eqn:Hf.
  - destruct (placed_lookup _ _ _ _ _ _ Hp Hf) as (t & e & Ht & He & _ & _ & _ & _ & Htr).
    destruct (placed_lookup _ _ _ _ _ _ Hp' Hf) as (t' & e' & Ht' & He' & _ & _ & _ & _ & Htr'). simplify_eq. rewrite He, He'. f_equal.
    destruct (recs !! i) as [x|].
    + destruct Htr as (X & -> & HX), Htr' as (X' & -> & HX'). by rewrite (follows_det _ _ _ _ HX HX').
    + by destruct Htr as [-> _], Htr' as [-> _].
  - apply lookup_ge_None in Hf. destruct Hp as [Hl _], Hp' as [Hl' _]. rewrite !lookup_ge_None_2 by lia. done.
Qed.

(** Rolling back to where one is changes nothing. *)
Lemma tracked_rollback n s f t o e : tracked n s f t o e → account_rollback (account_snapshot e) e = (Ok tt, e).
Proof.
  intros Htr. unfold account_rollback, m_bind, m_zoom, m_modify, account_snapshot. simpl.
  assert (tracker_rollback (tracker_snapshot (it e)) (it e) = (Ok tt, it e)) as ->; [|by destruct e].
  unfold tracker_rollback, m_bind, m_zoom, m_get, tracker_snapshot. rewrite invocation_rollback_exact by done. rewrite set_root_id.
  destruct o as [x|].
  - destruct Htr as (X & -> & [Ht _ _ _]). simpl. by destruct (partial_exhausted _ _ _ Ht) as [-> _].
  - destruct Htr as [-> _]. simpl. by destruct (it f) as [ [] ? ? ?].
Qed.
Lemma manager_rollback_same n recs s es m sns :
  placed n recs s es →
  manager_rollback (mkManagerSnapshot (account_snapshot <$> es) sns) (set_account_trackers es m) = rollback_invokers sns (set_account_trackers es m).
Proof.
  intros Hp. unfold manager_rollback, m_bind at 1 2, m_get. cbn [account_trackers set_account_trackers account_trackers_snapshot].
  rewrite length_fmap, decide_True by done. unfold m_zoom at 1. cbn [account_trackers set_account_trackers].
  rewrite (m_zip_ok _ _ es); [done|]. rewrite <-list_fmap_compose.
  assert (Forall (λ e, account_rollback (account_snapshot e) e = (Ok tt, e)) es) as Hall.
  { apply Forall_lookup. intros i e He. destruct (lookup_lt_is_Some_2 F i) as [f Hf]; [destruct Hp as [<- _]; by eapply lookup_lt_Some|].
    destruct (placed_lookup _ _ _ _ _ _ Hp Hf) as (t & e' & _ & He' & _ & _ & _ & _ & Htr). simplify_eq. by eapply tracked_rollback. }
  clear Hp. induction Hall; constructor; done.
Qed.

Lemma final_same r r' : final r' → rec_trackers r = rec_trackers r' → final r.
Proof. intros Hf Heq i x Hx. rewrite Heq in Hx. by apply Hf. Qed.
Lemma final_popped r r' : final r' → rec_trackers r' = pop_account <$> rec_trackers r → final r.
Proof.
  intros Hf Heq i x Hx. destruct (Hf i (pop_account x)) as (f & Hi & Ha & Hg); [by rewrite Heq, list_lookup_fmap, Hx|].
  exists f. split_and!; [done..|]. unfold tracker_grows in *. simpl in Hg. by rewrite pop_root in Hg.
Qed.

(** The end of a call, survived failure or success. *)
Lemma pop_sim (fails : bool) r1 r2 r3 m4 m1 m2 s1 s2 :
  sim r1 m1 s1 → sim r2 m2 s2 → call_stack (rec_manager r1) ≠ [] → call_stack (rec_manager r2) = call_stack (rec_manager r1) →
  (if fails then recording_rollback (recording_snapshot r1) r2 = (Ok tt, r3) else r3 = r2) →
  (fails = true → rec_trackers r2 = rec_trackers r1) →
  manager_pop_frame None (rec_manager r3) = (Ok tt, m4) →
  ∃ m', manager_pop_frame (if fails then Some (manager_snapshot m1) else None) m2 = (Ok tt, m') ∧ sim (set_rec_manager m4 r3) m' s2.
Proof.
  intros (es1 & -> & Hp1) (es & -> & Hp) Hne Hst H3 Hsil Hm4.
  assert (∃ m3, rec_manager r3 = m3 ∧ call_stack m3 = call_stack (rec_manager r1) ∧ account_trackers m3 = rec_trackers r2 ∧
    manager_pop_frame (if fails then Some (manager_snapshot (set_account_trackers es1 (rec_manager r1))) else None) (set_account_trackers es (rec_manager r2)) =
    manager_pop_frame None (set_account_trackers es m3)) as (m3 & Hm3 & Hst3 & Hacc3 & Hpop).
  { destruct fails; [|subst r3; by exists (rec_manager r2)]. destruct (rollback_inv r1 r2 r3 H3) as (m3 & Hrb & -> & Hacc & Hst').
    exists m3. split; [done|]. split; [congruence|]. split; [rewrite Hsil; done|].
    rewrite Hst, (Hsil eq_refl) in Hp. rewrite (placed_det _ _ _ _ _ _ Hp1 Hp).
    unfold manager_pop_frame at 1, m_bind at 1. unfold manager_snapshot. cbn [account_trackers set_account_trackers invoker_contract_trackers].
    rewrite (manager_rollback_same _ _ _ _ _ _ Hp). pose proof (blind_rollback (rs_invoker_snapshots (recording_snapshot r1)) es (set_account_trackers (rec_trackers r1) (rec_manager r2))) as Hb.
    rewrite Hrb in Hb. rewrite set_accounts_twice in Hb. unfold recording_snapshot in Hb. cbn [rs_invoker_snapshots] in Hb. by rewrite Hb. }
  rewrite Hpop. assert (call_stack m3 ≠ []) as Hne3 by by rewrite Hst3.
  destruct (pop_accounts es m3 Hne3) as (m5 & Hm5 & Hst5 & Hacc5 & ->). rewrite Hm3, Hm5 in Hm4. injection Hm4 as <-.
  eexists. split; [done|]. exists (pop_account <$> es). split; [done|]. unfold rec_trackers at 1. simpl. rewrite Hacc5, Hst5, Hacc3, Hst3.
  apply placed_pop. rewrite Hst in Hp. rewrite length_removelast.
  destruct (call_stack (rec_manager r1)) as [|fr st]; [done|]. exact Hp.
Qed.

Definition step_sim (q : request) : Prop :=
  quiet q = true → ∀ r r' m s, rec_wf r → recording_perform q r = (Ok tt, r') → final r' → sim r m s →
  ∃ m' s', enforcing_perform q (m, s) = (Ok tt, (m', s')) ∧ sim r' m' s'.
Lemma performs_sim l : Forall step_sim l → forallb quiet l = true → ∀ r r' m s,
  rec_wf r → recording_performs l r = (Ok tt, r') → final r' → sim r m s →
  ∃ m' s', enforcing_performs l (m, s) = (Ok tt, (m', s')) ∧ sim r' m' s'.
Proof.
  induction 1 as [|q l Hq _ IH]; intros Hqu r r' m s Hwf Hr Hfin Hsim; [injection Hr as <-; by eexists _, _|].
  simpl in Hqu. apply andb_true_iff in Hqu as [Hqq Hql]. apply m_bind_done in Hr as ([] & r1 & H1 & H2).
  destruct (perform_after li gen_nonce source_account address_of q r r1 Hwf H1) as (Hwf1 & _ & _).
  destruct (performs_ok li gen_nonce source_account address_of l r1 r' Hwf1 H2) as (_ & Haft & _).
  destruct (Hq Hqq r r1 m s Hwf H1 (final_before _ _ Hfin Haft) Hsim) as (m1 & s1 & He1 & Hsim1).
  destruct (IH Hql r1 r' m1 s1 Hwf1 H2 Hfin Hsim1) as (m2 & s2 & He2 & Hsim2).
  exists m2, s2. split; [|done]. unfold enforcing_performs. simpl. unfold m_bind. unfold enforcing_perform in He1. rewrite He1. exact He2.
Qed.
Lemma perform_sim q : step_sim q.
Proof.
  induction q as [h args|c es|fr fails body IH] using request_nested_ind; intros Hq r r' m s Hwf Hr Hfin Hsim.
  - by eapply require_sim.
  - apply blind_step in Hr as (m1 & Hm & -> & Hacc & Hst); [|apply blind_add|apply add_stack]. destruct Hsim as (l & -> & Hp).
    eexists _, s. unfold enforcing_perform. simpl. unfold m_zoom. cbn [fst snd]. rewrite (blind_add c es l), Hm. split; [done|].
    exists l. split; [done|]. unfold rec_trackers at 1. simpl. by rewrite Hacc, Hst.
  - simpl in Hq. apply andb_true_iff in Hq as [Hqb Hqf].
    destruct (call_cases li gen_nonce source_account address_of fr fails body r r' Hwf Hr) as (r2 & Hbody & Hc).
    set (r1 := set_rec_manager (push_auth_frame fr (rec_manager r)) r) in *.
    assert (rec_wf r1) as Hwf1 by by apply push_rec_wf.
    destruct (performs_ok li gen_nonce source_account address_of body r1 r2 Hwf1 Hbody) as (Hwf2 & Ha2 & Hs2).
    destruct (Hc (conj Hwf2 Ha2)) as (r3 & m4 & H3 & _ & _ & Hsame & Hm4 & -> & _ & Hacc & _ & _).
    assert (fails = true → rec_trackers r2 = rec_trackers r1) as Hsil.
    { intros ->. apply Hs2. exact Hqf. }
    assert (final r2) as Hfin2.
    { apply (final_same r2 r3); [by eapply final_popped|]. destruct fails; [by rewrite Hsil|by subst r3]. }
    assert (sim r1 (push_auth_frame fr m) s) as Hsim1.
    { destruct Hsim as (l & -> & Hp). exists (push_account <$> l). split; [done|]. unfold r1. simpl. rewrite length_app, Nat.add_comm.
      by apply placed_push. }
    destruct (performs_sim body IH Hqb r1 r2 (push_auth_frame fr m) s Hwf1 Hbody Hfin2 Hsim1) as (m2 & s2 & He2 & Hsim2).
    destruct (pop_sim fails r1 r2 r3 m4 (push_auth_frame fr m) m2 s s2 Hsim1 Hsim2) as (m' & Hpop & Hsim');
      [unfold r1; simpl; by destruct (call_stack (rec_manager r))|by destruct Ha2|done|done|done|].
    exists m', s2. split; [|done]. unfold enforcing_perform. rewrite perform_call.
    change (perform _ _ _ _) with enforcing_perform. unfold m_bind at 1, enforcing_push at 1, m_zoom at 1. cbn.
    fold enforcing_performs. unfold m_bind. rewrite He2. unfold m_zoom. cbn [fst snd].
    destruct fails; by rewrite Hpop.
Qed.
End replay.

(** * From what was recorded to what is signed *)

(** An entry made from a payload, with any signature and expiration. *)
Definition signs (p : RecordedAuthPayload) (e : SorobanAuthorizationEntry) : Prop :=
  root_invocation e = rp_invocation p ∧
  match rp_address p, rp_nonce p with
  | Some a, Some n => ∃ live_until signature, credentials e = CredAddress a n live_until signature
  | None, None => credentials e = CredSourceAccount
  | _, _ => False
  end.

Lemma m_collect_done {A B} (f : A → Result B) l ys : Forall2 (λ x y, f x = Ok y) l ys → m_collect f l = Ok ys.
Proof. induction 1 as [|x y l ys Hx _ IH]; [done|]. simpl. by rewrite Hx, IH. Qed.
(** All of a recorded tree is used. *)
Lemma partial_xdr F r e : partial F r e → invocation_to_xdr true r = invocation_to_xdr false r.
Proof.
  revert r e. induction F as [f subs b IH] using invocation_nested_ind. intros r e He.
  inversion He as [? Fs Gs rs es Hs]; subst. apply Forall_app in IH as [IH _]. simpl. f_equal. clear He.
  induction Hs as [|x y z l l2 l3 Hxyz _ IHl]; [done|]. apply Forall_cons in IH as [IHx IH].
  destruct (partial_exhausted _ _ _ Hxyz) as [_ ->]. simpl. f_equal; [by eapply IHx|by apply IHl].
Qed.

Section theorem.
Context {S G : Type} `{LedgerStore S} (li : LedgerInfo).
Context (gen_nonce : G → Z * G) (source_account : option ScAddress) (address_of : Z → ScAddress).
Context (hash_payload : Hash → Z → Z → SorobanAuthorizedInvocation → Hash).
Context (verify_sig_ed25519 : N → Hash → N → bool).
Context (call_check_auth : Hash → Hash → ScVal → list AuthorizationContext → M S unit).
Context (ready : AccountAuthorizationTracker → S → Prop).
Context (Hready : ∀ t s, ready t s → ∃ s1 s2,
  authenticate li hash_payload verify_sig_ed25519 call_check_auth t s = (Ok tt, s1) ∧ verify_and_consume_nonce li t s1 = (Ok tt, s2) ∧
  ∀ t', address t' ≠ address t → ready t' s → ready t' s2).
#[local] Abbreviation enforcing_performs := (enforcing_performs li address_of hash_payload verify_sig_ed25519 call_check_auth).
#[local] Abbreviation from_entry := (from_authorization_entry source_account).

(** The trackers enforcing makes of the entries. *)
Lemma entry_of_payload n f e :
  tracker_ok source_account n f → signs (get_recorded_auth_payload f) e →
  ∃ t, from_entry e = Ok t ∧ address t = address f ∧ verified t = false ∧
    invocation_tracker t = waiting 0 (invocation_tracker f).
Proof.
  intros (_ & _ & Hsrc) [Hroot Hcred]. unfold from_authorization_entry, tracker_from_xdr. rewrite Hroot. simpl in *. rewrite from_to_xdr.
  unfold source_ok in Hsrc. destruct (is_transaction_source_account f).
  - destruct Hsrc as [-> Hn]. rewrite Hn in Hcred. simpl in Hcred. rewrite Hcred. by eexists.
  - destruct (nonce f) as [ [n0 l]|]; [|done]. destruct Hcred as (lu & sig & ->). by eexists.
Qed.
Lemma entries_of_payloads n F entries :
  Forall (tracker_ok source_account n) F → Forall2 signs (get_recorded_auth_payload <$> F) entries →
  ∃ T, Forall2 (λ e t, from_entry e = Ok t) entries T ∧
    Forall2 (λ f t, address t = address f ∧ verified t = false ∧ invocation_tracker t = waiting 0 (invocation_tracker f)) F T.
Proof.
  intros HF. revert entries. induction HF as [|f F Hf _ IH]; intros entries He; [apply Forall2_nil_inv_l in He as ->; by exists []|].
  apply Forall2_cons_inv_l in He as (e & es & Hs & Hes & ->). destruct (entry_of_payload n f e Hf Hs) as (t & Ht & Hp).
  destruct (IH es Hes) as (T & HT & HFT). exists (t :: T). split; by constructor.
Qed.

(** C30: what a recording run reports is enough.  Let requests for authorization, grants and
    nested calls run through in recording mode, where the calls that fail made no requests,
    and let no address need two entries.  If each reported tree is signed, by an entry that
    is accepted when its turn comes, then the same run goes through in enforcing mode, and
    every invocation reported has been used: nothing that was asked to be signed is superfluous. *)
Theorem recorded_auth_suffices disable_non_root_auth s g prog r entries s0 :
  forallb quiet prog = true →
  recording_performs li gen_nonce source_account address_of prog (new_recording disable_non_root_auth s g) = (Ok tt, r) →
  NoDup (address <$> rec_trackers r) →
  Forall2 signs (get_recorded_auth_payloads r) entries →
  (∀ e t, e ∈ entries → from_entry e = Ok t → ready t s0) →
  ∃ m0 m s1, new_enforcing source_account entries = Ok m0 ∧ enforcing_performs prog (m0, s0) = (Ok tt, (m, s1)) ∧
    Forall2 (λ p t, invocation_to_xdr true (root_authorized_invocation (invocation_tracker t)) = rp_invocation p ∧ verified t = true)
      (get_recorded_auth_payloads r) (account_trackers m).
Proof.
  intros Hq Hr Hdup Hsig Hrd. set (F := rec_trackers r) in *.
  assert (rec_wf source_account address_of (new_recording disable_non_root_auth s g)) as Hwf0 by (split; [constructor|done]).
  destruct (performs_ok li gen_nonce source_account address_of prog _ r Hwf0 Hr) as ([HF _] & _ & _).
  destruct (entries_of_payloads _ F entries HF Hsig) as (T & HeT & HFT).
  assert (Forall2 (λ f t, address t = address f ∧ verified t = false ∧ root_authorized_invocation (invocation_tracker t) =
    reset (root_authorized_invocation (invocation_tracker f))) F T) as HFT'.
  { eapply Forall2_impl; [exact HFT|]. by intros f t (? & ? & ->). }
  assert (Forall (step_sim li gen_nonce source_account address_of hash_payload verify_sig_ed25519 call_check_auth ready F T) prog) as Hsteps
    by (apply Forall_true; intros; by apply perform_sim).
  destruct (performs_sim li gen_nonce source_account address_of hash_payload verify_sig_ed25519 call_check_auth ready F T
    prog Hsteps Hq (new_recording disable_non_root_auth s g) r (mkManager T [] []) s0 Hwf0 Hr)
    as (m & s1 & He & es & -> & Hp).
  { intros i x Hx. exists x. split_and!; [done..|apply grows_refl]. }
  { exists T. split; [done|]. split; [by apply Forall2_length in HFT|]. intros i f t e Hf Ht He. simplify_eq. simpl.
    destruct (Forall2_lookup_lr _ _ _ _ _ _ HFT Hf Ht) as (_ & _ & Hit). rewrite <-Hit. split; [by destruct t|].
    destruct (Forall2_lookup_r _ _ _ _ _ HeT Ht) as (e & He & Het). eapply Hrd; [|exact Het]. by eapply list_elem_of_lookup_2. }
  eexists _, _, s1. split; [unfold new_enforcing; by rewrite (m_collect_done _ _ _ HeT)|]. split; [exact He|].
  simpl. unfold get_recorded_auth_payloads. fold F. apply Forall2_fmap_l, Forall2_same_length_lookup_2; [by destruct Hp|].
  intros i f e Hf Hie. destruct (placed_lookup ready F T HFT' _ _ _ _ i f Hp Hf) as (t & e' & _ & He' & _ & _ & _ & _ & Htr).
  simplify_eq. fold F in Htr. rewrite Hf in Htr. destruct Htr as (X & -> & [HX _ _ _]). split; [|done].
  simpl. rewrite (partial_full _ _ HX). by eapply partial_xdr.
Qed.
End theorem.

(** * Alice again

    The purchase of [AuthProps], recorded: [buy] asks for Alice, then [pay] does; a call in
    between fails without a request.  The generator gives 9. *)

Definition demo_prog : list request :=
  [Call (FrameContract (mkContractInvocation (Contract 5%N) "buy")) false
     [Require 1 []; Call (FrameContract (mkContractInvocation (Contract 7%N) "log")) true [Authorize 7%N []];
      Call (FrameContract (mkContractInvocation (Contract 6%N) "pay")) false [Require 1 [ScU32 3] ] ] ].
Definition demo_gen (g : Z) : Z * Z := (g, g + 1).
Definition demo_address (h : Z) : ScAddress := demo_alice.
#[local] Abbreviation demo_recorded := (recording_performs demo_li demo_gen None demo_address demo_prog (new_recording true demo_accounts 9)) (only parsing).
Example demo_payloads : demo_recorded.1 = Ok tt ∧
  get_recorded_auth_payloads demo_recorded.2 = [mkPayload (Some demo_alice) (Some 9) (root_invocation demo_entry)] ∧
  address <$> rec_trackers demo_recorded.2 = [demo_alice].
Proof. split_and!; vm_compute; reflexivity. Qed.

(** Alice's entry on the ledger of the demonstration. *)
Definition demo_ready (t : AccountAuthorizationTracker) (s : LedgerMap) : Prop :=
  s = demo_accounts ∧ from_authorization_entry None demo_entry = Ok t.
Lemma demo_ready_ok t s : demo_ready t s → ∃ s1 s2,
  authenticate demo_li demo_hash demo_verify demo_check_auth t s = (Ok tt, s1) ∧ verify_and_consume_nonce demo_li t s1 = (Ok tt, s2) ∧
  ∀ t', address t' ≠ address t → demo_ready t' s → demo_ready t' s2.
Proof.
  intros [-> Ht]. injection Ht as <-. do 2 eexists. split; [apply result_of; vm_compute; reflexivity|].
  split; [apply result_of; vm_compute; reflexivity|]. intros t' Hne [_ Ht']. injection Ht' as <-. by destruct Hne.
Qed.

Lemma recorded_auth_suffices_witness : ∃ m0 m s1,
  new_enforcing None [demo_entry] = Ok m0 ∧
  enforcing_performs demo_li demo_address demo_hash demo_verify demo_check_auth demo_prog (m0, demo_accounts) = (Ok tt, (m, s1)).
Proof.
  pose proof demo_payloads as Hres. destruct demo_recorded as [res r] eqn:Hrun. cbn [fst snd] in Hres. destruct Hres as (-> & Hpay & Hadd).
  destruct (recorded_auth_suffices demo_li demo_gen None demo_address demo_hash demo_verify demo_check_auth demo_ready demo_ready_ok
    true demo_accounts 9 demo_prog r [demo_entry] demo_accounts) as (m0 & m & s1 & Hm0 & He & _); [reflexivity|exact Hrun| | | |by exists m0, m, s1].
  - rewrite Hadd. apply NoDup_singleton.
  - rewrite Hpay. repeat constructor. by eexists _, _.
  - intros e t He Ht. apply list_elem_of_singleton in He as ->. split; [done|exact Ht].
Defined.

(** Two objects with Alice's address in one frame, and a call for each that leads to
    different ones below: the reported trees, signed, do not let the run through, since
    enforcing takes the first tree that has the call. *)
Definition ambiguous_prog : list request :=
  [Call (FrameContract (mkContractInvocation (Contract 5%N) "buy")) false
     [Require 1 [ScU32 1]; Require 2 [ScU32 2];
      Call (FrameContract (mkContractInvocation (Contract 6%N) "pay")) false
        [Require 2 []; Call (FrameContract (mkContractInvocation (Contract 8%N) "fee")) false [Require 2 [] ] ];
      Call (FrameContract (mkContractInvocation (Contract 6%N) "pay")) false [Require 1 [] ] ] ].
#[local] Abbreviation ambiguous_recorded := (recording_performs demo_li demo_gen None demo_address ambiguous_prog (new_recording true demo_accounts 9)) (only parsing).
Definition sign_all (ps : list RecordedAuthPayload) : list SorobanAuthorizationEntry :=
  (λ p, mkAuthEntry (CredAddress demo_alice (default 0 (rp_nonce p)) 200 demo_signature) (rp_invocation p)) <$> ps.
Theorem recorded_auth_ambiguous :
  forallb quiet ambiguous_prog = true ∧ ambiguous_recorded.1 = Ok tt ∧
  Forall2 signs (get_recorded_auth_payloads ambiguous_recorded.2) (sign_all (get_recorded_auth_payloads ambiguous_recorded.2)) ∧
  ∃ m0, new_enforcing None (sign_all (get_recorded_auth_payloads ambiguous_recorded.2)) = Ok m0 ∧
    (enforcing_performs demo_li demo_address demo_hash demo_verify demo_check_auth ambiguous_prog (m0, demo_accounts)).1 =
    Err (EHost TAuth InvalidAction).
Proof.
  split; [reflexivity|]. split; [vm_compute; reflexivity|]. split.
  { assert (get_recorded_auth_payloads ambiguous_recorded.2 = [mkPayload (Some demo_alice) (Some 9)
        (XInvocation (XContractFn (mkContractFunction (Contract 5%N) "buy" [ScU32 1])) [XInvocation (XContractFn (mkContractFunction (Contract 6%N) "pay" [])) [] ]);
      mkPayload (Some demo_alice) (Some 10)
        (XInvocation (XContractFn (mkContractFunction (Contract 5%N) "buy" [ScU32 2]))
          [XInvocation (XContractFn (mkContractFunction (Contract 6%N) "pay" [])) [XInvocation (XContractFn (mkContractFunction (Contract 8%N) "fee" [])) [] ] ])]) as ->
      by (vm_compute; reflexivity).
    repeat constructor; by eexists _, _. }
  eexists. split; [vm_compute; reflexivity|]. vm_compute. reflexivity.
Qed.
