(* ===== verification/FrameProps.v ===== *)
(** The properties of calls between contracts: who may be called while whom runs, and
    what a caller sees of a call, whatever the code of the contracts does. *)
From S2P Require Import Prelude ScVal Storage Host AuthTree AccountAuth Auth Frame.
From S2P Require Import TrackerThms AuthThms FrameThms AuthProps.
#[local] Open Scope m_scope.

(** * Re-entrance and depth *)

(** No contract runs again while another that it called is running: the frames of a
    contract on the stack are next to each other. *)
Definition uninterrupted (ids : list Hash) : Prop :=
  ∀ i j k id, (i < j < k)%nat → ids !! i = Some id → ids !! k = Some id → ids !! j = Some id.

Definition contract_ids (stack : list Frame) : list Hash := omap frame_contract_id stack.

Lemma contract_ids_snoc stack id fn args :
  contract_ids (stack ++ [ContractFrame id fn args]) = contract_ids stack ++ [id].
Proof. unfold contract_ids. by rewrite omap_app. Qed.

Lemma omap_rev {A B} (f : A → option B) l : omap f (rev l) = rev (omap f l).
Proof.
  induction l as [|x l IH]; [done|]. simpl. rewrite omap_app, IH. simpl.
  destruct (f x); simpl; [done|]. by rewrite app_nil_r.
Qed.

Lemma list_find_rev_none (id : Hash) ids :
  fst <$> list_find (λ c, c = id) (rev ids) = None → id ∉ ids.
Proof.
  intros Hf. rewrite fmap_None, list_find_None in Hf. intros Hin.
  rewrite Forall_forall in Hf. apply (Hf id); [|done]. by apply list_elem_of_In, in_rev, list_elem_of_In in Hin.
Qed.

Lemma list_find_rev_last (id : Hash) ids :
  fst <$> list_find (λ c, c = id) (rev ids) = Some O → last ids = Some id.
Proof.
  destruct ids as [|x ids _] using rev_ind; [done|]. rewrite rev_unit, last_snoc. simpl.
  case_decide as Hx; [by rewrite Hx|]. destruct (list_find _ _) as [[n y]|]; [|done]. by intros [=].
Qed.

Lemma uninterrupted_snoc ids id :
  uninterrupted ids → id ∉ ids ∨ last ids = Some id → uninterrupted (ids ++ [id]).
Proof.
  intros Hu Hid i j k c Hijk Hi Hk.
  assert (k < length ids ∨ k = length ids)%nat as [Hlt|Heq].
  { apply lookup_lt_Some in Hk. rewrite length_app in Hk. simpl in Hk. lia. }
  - rewrite lookup_app_l in * by lia. by apply (Hu i j k).
  - subst k. rewrite list_lookup_middle in Hk by done. injection Hk as ->.
    rewrite lookup_app_l in Hi by lia. rewrite lookup_app_l by lia.
    destruct Hid as [Hnin|Hlast]; [destruct Hnin; by eapply list_elem_of_lookup_2|].
    rewrite last_lookup in Hlast.
    assert (j = pred (length ids) ∨ j < pred (length ids))%nat as [->|Hj] by lia; [done|].
    by apply (Hu i j (pred (length ids))); [lia|..].
Qed.

Section calls.
Context {S : Type} `{LedgerStore S, Rollback S}.
Context (DEFAULT_HOST_DEPTH_LIMIT : nat).

Definition pushed id fn args (m : Machine S) : Machine S :=
  mkMachine (context_stack m ++ [ContractFrame id fn args]) (storage m) (events m)
    (push_auth_frame (contract_auth_frame id fn) (auth_manager m)).
Definition point id fn (m : Machine S) : RollbackPoint S :=
  mkRollbackPoint (storage m) (length (events m))
    (manager_snapshot (push_auth_frame (contract_auth_frame id fn) (auth_manager m))).

Lemma with_frame_eq id fn args (p : M (Machine S) RetVal) m :
  with_frame DEFAULT_HOST_DEPTH_LIMIT (ContractFrame id fn args) p m =
  if decide (DEFAULT_HOST_DEPTH_LIMIT <= length (context_stack m))%nat
  then (Err (EHost TContext ExceededLimit), m)
  else
    let '(r, m2) := p (pushed id fn args m) in
    match pop_context (if is_ok (frame_exit r) then None else Some (point id fn m)) m2 with
    | (Ok _, m3) =>
        if decide (length (context_stack m3) = length (context_stack m)) then (frame_exit r, m3)
        else (Err (EHost TContext InternalError), m3)
    | (Err e, m3) => (Err e, m3)
    end.
Proof.
  unfold with_frame. unfold m_bind at 1, m_get at 1. case_decide; [done|].
  unfold m_bind at 1. rewrite push_context_eq. cbv zeta. unfold m_bind at 1.
  change (mkMachine _ _ _ _) with (pushed id fn args m) at 1. destruct (p _) as [r m2].
  unfold m_bind at 1. change (mkRollbackPoint _ _ _) with (point id fn m).
  destruct (frame_exit r); simpl; destruct (pop_context _ m2) as [[]]; try done;
    unfold m_bind, m_get; by case_decide.
Qed.

(** What [call_n_internal] checks before it loads the code. *)
Definition refused func params id (m : Machine S) : bool :=
  negb (internal_host_call params) && String.prefix RESERVED_CONTRACT_FN_PREFIX func
  || reentry_refused (reentry_mode params) (reentry_distance id (context_stack m)).

Lemma call_eq {Code} (load : Hash → M (Machine S) Code) invoke id func args params m :
  call_n_internal DEFAULT_HOST_DEPTH_LIMIT load invoke id func args params m =
  if refused func params id m then (Err (EHost TContext InvalidAction), m)
  else match load id m with
  | (Ok code, m1) =>
      with_frame DEFAULT_HOST_DEPTH_LIMIT (ContractFrame id func args)
        (invoke code id func args (treat_missing_function_as_noop params)) m1
  | (Err e, m1) => (Err e, m1)
  end.
Proof.
  unfold call_n_internal, refused. unfold m_bind at 1, m_get.
  destruct (_ && _); [done|]. by destruct (reentry_refused _ _).
Qed.

(** Where the code of a contract is run: in a frame of its own on a stack within the
    limit, free of re-entrance. *)
Record admitted (id : Hash) (func : string) (args : list ScVal) (params : CallParams)
    (m m' : Machine S) : Prop := {
  ad_frame : context_stack m' = context_stack m ++ [ContractFrame id func args];
  ad_depth : (length (context_stack m') <= DEFAULT_HOST_DEPTH_LIMIT)%nat;
  ad_once : uninterrupted (contract_ids (context_stack m'));
  ad_new : reentry_mode params = Prohibited → id ∉ contract_ids (context_stack m);
  ad_name : internal_host_call params = false → String.prefix RESERVED_CONTRACT_FN_PREFIX func = false
}.

(** Contracts are run only where they are admitted: unless a caller opts out, and no
    host function does, a call runs the code in a frame of its own, at a depth within the
    limit, with no contract re-entered across another, and never a reserved function
    unless the host itself calls: what the code would do elsewhere makes no difference. *)
Theorem calls_admitted {Code} (load : Hash → M (Machine S) Code)
    (invoke invoke' : Code → Hash → string → list ScVal → bool → M (Machine S) RetVal)
    id func args params (m : Machine S) :
  (∀ m, context_stack (load id m).2 = context_stack m) →
  reentry_mode params ≠ Allowed → uninterrupted (contract_ids (context_stack m)) →
  (∀ code b m', admitted id func args params m m' →
     invoke code id func args b m' = invoke' code id func args b m') →
  call_n_internal DEFAULT_HOST_DEPTH_LIMIT load invoke id func args params m =
  call_n_internal DEFAULT_HOST_DEPTH_LIMIT load invoke' id func args params m.
Proof.
  intros Hload Hmode Hu Hinv. rewrite !call_eq.
  destruct (refused func params id m) eqn:Href; [done|].
  apply orb_false_iff in Href as [Hres Hre].
  specialize (Hload m). destruct (load id m) as [[code|e] m1]; [|done]. simpl in Hload.
  rewrite !with_frame_eq. case_decide as Hd; [done|]. rewrite Hinv; [done|].
  revert Hre. unfold reentry_refused, reentry_distance. rewrite omap_rev.
  fold (contract_ids (context_stack m)). intros Hre. split; simpl.
  - by rewrite Hload.
  - rewrite length_app. simpl. lia.
  - rewrite Hload, contract_ids_snoc. apply uninterrupted_snoc; [done|].
    destruct (fst <$> _) as [n|] eqn:Hf; [|left; by apply list_find_rev_none].
    right. apply list_find_rev_last. by destruct (reentry_mode params), n.
  - intros Hm. rewrite Hm in Hre. apply list_find_rev_none. by destruct (fst <$> _).
  - intros Hi. by rewrite Hi in Hres.
Qed.
End calls.

(** * Errors of rolling back *)

Definition only_internal {T A} (p : M T A) : Prop :=
  ∀ s e s', p s = (Err e, s') → e = EHost TAuth InternalError.

Lemma only_internal_bind {T A B} (p : M T A) (f : A → M T B) :
  only_internal p → (∀ a, only_internal (f a)) → only_internal (m_bind p f).
Proof.
  intros Hp Hf s e s'. unfold m_bind. destruct (p s) as [[a|x] s1] eqn:Hps; [apply Hf|].
  intros [= <- _]. by eapply Hp.
Qed.
Lemma only_internal_zoom {T U A} (get : T → U) put (p : M U A) :
  only_internal p → only_internal (m_zoom get put p).
Proof. intros Hp s e s'. unfold m_zoom. destruct (p (get s)) as [r t] eqn:Hr. intros [= -> _]. by eapply Hp. Qed.
Lemma only_internal_zip {T} (ps : list (M T unit)) : Forall only_internal ps → only_internal (m_zip ps).
Proof.
  induction 1 as [|p ps Hp _ IH]; intros xs e xs'; simpl; [done|]. destruct xs as [|x xs]; [done|].
  destruct (p x) as [[[]|x'] y] eqn:Hx; [|intros [= <- _]; by eapply Hp].
  destruct (m_zip ps xs) as [r ys] eqn:Hz. intros [= -> _]. by eapply IH.
Qed.
Lemma only_internal_fail {T A} : only_internal (A := A) (m_fail (S := T) (EHost TAuth InternalError)).
Proof. by intros s e s' [= <- _]. Qed.
Lemma only_internal_get {T} : only_internal (m_get (S := T)).
Proof. by intros s e s'. Qed.
Lemma only_internal_modify {T} f : only_internal (m_modify (S := T) f).
Proof. by intros s e s'. Qed.
Lemma only_internal_ret {T A} (a : A) : only_internal (m_ret (S := T) a).
Proof. by intros s e s'. Qed.
Create HintDb only_internal.
#[local] Hint Resolve only_internal_bind only_internal_zoom only_internal_zip only_internal_fail
  only_internal_get only_internal_modify only_internal_ret : only_internal.

Section snapshot_ind.
Context (P : AuthorizedInvocationSnapshot → Prop).
Context (H : ∀ e subs, Forall P subs → P (mkInvocationSnapshot e subs)).
Fixpoint snapshot_nested_ind (x : AuthorizedInvocationSnapshot) : P x :=
  let '(mkInvocationSnapshot e subs) := x in
  H e subs ((fix go l : Forall P l :=
    match l with
    | [] => List.Forall_nil P
    | x :: l => List.Forall_cons P x l (snapshot_nested_ind x) (go l)
    end) subs).
End snapshot_ind.

Lemma invocation_rollback_errors sn : only_internal (invocation_rollback sn).
Proof.
  induction sn as [e subs IH] using snapshot_nested_ind. simpl.
  apply only_internal_bind; [auto with only_internal|]. intros [].
  apply only_internal_bind; [auto with only_internal|]. intros i.
  case_decide; [|auto with only_internal]. apply only_internal_zoom, only_internal_zip.
  by rewrite Forall_fmap.
Qed.

Lemma tracker_rollback_errors sn : only_internal (tracker_rollback sn).
Proof.
  apply only_internal_bind; [apply only_internal_zoom, invocation_rollback_errors|]. intros [].
  apply only_internal_bind; [auto with only_internal|]. intros t. destruct (is_exhausted _); auto with only_internal.
Qed.

Lemma manager_pop_errors o : only_internal (manager_pop_frame o).
Proof.
  apply only_internal_bind.
  - destruct o as [sn|]; [|auto with only_internal].
    apply only_internal_bind; [auto with only_internal|]. intros m.
    case_decide; [|auto with only_internal]. apply only_internal_bind.
    + apply only_internal_zoom, only_internal_zip. rewrite Forall_fmap. apply Forall_true. intros a.
      apply only_internal_bind; [apply only_internal_zoom, tracker_rollback_errors|auto with only_internal].
    + intros []. case_decide; [|auto with only_internal].
      apply only_internal_zoom, only_internal_zip. rewrite Forall_fmap. apply Forall_true. intros a.
      apply only_internal_zoom, tracker_rollback_errors.
  - intros []. apply only_internal_bind; [auto with only_internal|]. intros m. case_decide; auto with only_internal.
Qed.

(** A frame that cannot be popped ends the transaction. *)
Lemma pop_context_unrecoverable {S} `{Rollback S} orp (m m' : Machine S) e :
  pop_context orp m = (Err e, m') → is_recoverable e = false.
Proof.
  unfold pop_context, m_bind, m_get, m_modify, on_manager, m_zoom, m_lift, m_ret. simpl.
  destruct orp as [rp|]; simpl;
    match goal with |- context [manager_pop_frame ?o ?a] =>
      pose proof (manager_pop_errors o a) as Herr; destruct (manager_pop_frame o a) as [[[]|e'] a'] end;
    (destruct (last (context_stack m)); simpl; intros [= <- _];
     rewrite ?(Herr e' _ eq_refl); done) || (simpl; intros [= <- _]; by rewrite (Herr e' _ eq_refl)).
Qed.

(** * What a caller sees of a call *)
Section outcome.
Context {S : Type} `{LedgerStore S, Rollback S} (li : LedgerInfo).
Context (hash_payload : Hash → Z → Z → SorobanAuthorizedInvocation → Hash).
Context (verify_sig_ed25519 : N → Hash → N → bool).
Context (call_check_auth : Hash → Hash → ScVal → list AuthorizationContext → M S unit).
Context (DEFAULT_HOST_DEPTH_LIMIT : nat).

#[local] Abbreviation runs := (runs li hash_payload verify_sig_ed25519 call_check_auth).
#[local] Abbreviation with_frame := (with_frame DEFAULT_HOST_DEPTH_LIMIT).

Lemma runs_weaken ok m tr m' : runs ok m tr m' → runs false m tr m'.
Proof. induction 1; try by econstructor; eauto. Qed.

Definition recoverable {A} (r : Result A) : bool :=
  match r with Ok _ => true | Err e => is_recoverable e end.

(** Code of a contract that only does what contracts can do, up to the errors that end
    the transaction anyway. *)
Definition performs (p : M (Machine S) RetVal) : Prop := ∀ m r m',
  manager_wf (auth_manager m) → p m = (r, m') → recoverable r = true →
  ∃ tr, runs (is_ok r) m tr m'.

(** [m'] is [m] but for what a failed call leaves: frames, ledger, events and used
    authorizations are as before; authorizations given for this call may be gone. *)
Record given_back (m m' : Machine S) : Prop := {
  gb_stack : context_stack m' = context_stack m;
  gb_ledger : storage m' = storage m ∨ ∃ s, storage m' = restore (storage m) s;
  gb_events : emitted (events m') = emitted (events m);
  gb_auth : auth_manager m' = auth_manager m ∨
    auth_manager m' = set_invoker_trackers (kept (auth_manager m)) (auth_manager m)
}.

Lemma given_back_refl m : given_back m m.
Proof. by split; auto. Qed.

Lemma frame_exit_recoverable r e : frame_exit r = Err e → is_recoverable e = true → recoverable r = true.
Proof. by destruct r as [[v|[|[]|]]|]; simpl; try done; intros [= <-]. Qed.

Lemma frame_ran id fn args p m r m' :
  performs p → manager_wf (auth_manager m) →
  with_frame (ContractFrame id fn args) p m = (r, m') → recoverable r = true →
  (∃ tr, runs true m tr m' ∧ (is_ok r = false → tr = [])) ∧
  (is_ok r = false → given_back m m') ∧ ∀ e, r ≠ Ok (VError e).
Proof.
  intros Hp Hwf. rewrite with_frame_eq. case_decide.
  { intros [= <- <-] _. split; [exists []; split; [constructor|done]|]. split; [|done]. intros _. apply given_back_refl. }
  assert (manager_wf (auth_manager (pushed id fn args m))) as Hwf1 by by apply push_wf, contract_frame_ok.
  destruct (p (pushed id fn args m)) as [r1 m2] eqn:Hrun. specialize (Hp _ _ _ Hwf1 Hrun).
  pose proof (push_context_eq id fn args m) as Hpush. cbv zeta in Hpush.
  fold (point id fn m) (pushed id fn args m) in Hpush.
  destruct (pop_context _ m2) as [[fr|x] m3] eqn:Hpop.
  2: { intros [= <- _]. simpl. intros Hrec. apply pop_context_unrecoverable in Hpop. congruence. }
  case_decide; [|by intros [= <- <-]]. intros [= <- <-]. intros Hrec.
  destruct (frame_exit r1) as [v|e] eqn:Hexit; simpl in *.
  - assert (r1 = Ok v ∧ ∀ e, v ≠ VError e) as [-> Hv].
    { revert Hexit. by destruct r1 as [[|[|[]|]]|]; simpl; try done; intros [= <-]. }
    destruct (Hp eq_refl) as [tr Htr]. split; [|split; [done|congruence]].
    exists (tr ++ []). split; [|done]. eapply run_call; eauto. constructor.
  - destruct Hp as [tr Htr]; [by eapply frame_exit_recoverable|]. apply runs_weaken in Htr.
    destruct (failed_call_step id fn args m _ m2 m3 _ fr Hpush (runs_after _ _ _ _ _ _ _ _ Htr) Hpop Hwf)
      as (Ha & Hc & Hs & He & _).
    split; [exists []; split; [|done]; eapply run_call_failed; eauto; constructor|]. split; [|done].
    intros _. split; eauto.
Qed.

(** C31: A caller that tries a call gets one of three outcomes: the value the contract
    returned; an error of a contract, or one that says no more than that the call was
    invalid, with ledger, events, frames and used authorizations as before the call; or
    nothing at all, since an error nobody can recover from ends the transaction. *)
Theorem try_call_outcome {Code} (load : Hash → M (Machine S) Code)
    (invoke : Code → Hash → string → list ScVal → bool → M (Machine S) RetVal)
    id func args params (m : Machine S) r m' :
  (∀ m, (load id m).2 = m) → (∀ code b, performs (invoke code id func args b)) →
  manager_wf (auth_manager m) →
  try_call (call_n_internal DEFAULT_HOST_DEPTH_LIMIT load invoke id func args params) m = (r, m') →
  match r with
  | Ok (VVal _) => ∃ tr, runs true m tr m'
  | Ok (VError e) => runs true m [] m' ∧ given_back m m' ∧
      ((∃ code, e = EContract code) ∨ (∃ code, e = EHost TContract code) ∨ e = EHost TContext InvalidAction)
  | Err e => is_recoverable e = false
  end.
Proof.
  intros Hload Hinv Hwf. unfold try_call.
  destruct (call_n_internal _ _ _ _ _ _ _ m) as [r1 m1] eqn:Hcall. intros [= <- <-].
  assert (recoverable r1 = true →
    (∃ tr, runs true m tr m1 ∧ (is_ok r1 = false → tr = [])) ∧
    (is_ok r1 = false → given_back m m1) ∧ ∀ e, r1 ≠ Ok (VError e)) as Hr1.
  { intros Hrec. assert ((r1, m1) = (r1, m) → is_ok r1 = false →
      (∃ tr, runs true m tr m1 ∧ (is_ok r1 = false → tr = [])) ∧
      (is_ok r1 = false → given_back m m1) ∧ ∀ e, r1 ≠ Ok (VError e)) as Hearly.
    { intros [= ->] Hr1. split; [exists []; split; [constructor|done]|]. split; [|by destruct r1].
      intros _. apply given_back_refl. }
    rewrite call_eq in Hcall. destruct (refused func params id m); [injection Hcall as <- <-; by apply Hearly|].
    specialize (Hload m). destruct (load id m) as [[code|e] m0]; simpl in Hload; subst m0;
      [|injection Hcall as <- <-; by apply Hearly].
    eapply frame_ran; [apply Hinv|done|exact Hcall|done]. }
  destruct r1 as [[v|e]|e]; simpl in *.
  - destruct (Hr1 eq_refl) as [(tr & Htr & _) _]. by exists tr.
  - destruct (Hr1 eq_refl) as (_ & _ & Hne). by destruct (Hne e).
  - destruct (is_recoverable e) eqn:Hrec; [|done].
    destruct (Hr1 eq_refl) as ((tr & Htr & Hnil) & Hgb & _). rewrite (Hnil eq_refl) in Htr.
    destruct e as [msg|[] code|code]; (split; [done|]; split; [by apply Hgb|]); eauto.
Qed.
End outcome.

(** * Scenarios

    Contract 6 emits an event and returns, fails with an error of its own, or fails in a
    way nobody can recover from. *)

Definition demo_event : ContractEvent := mkContractEvent 6%N [] ScVoid.
Definition demo_code (code : unit) (id : Hash) (func : string) (args : list ScVal) (noop : bool) :
    M (Machine LedgerMap) RetVal :=
  m_modify (λ m, mkMachine (context_stack m) (storage m)
              (events m ++ [(demo_event, FromSuccessfulCall)]) (auth_manager m)) ;;;
  if decide (func = "fail"%string) then m_ret (VError (EContract 3))
  else if decide (func = "break"%string) then m_fail (EHost TAuth InternalError)
  else m_ret (VVal ScVoid).
Definition demo_call (id : Hash) (func : string) : M (Machine LedgerMap) RetVal :=
  call_n_internal 3 (λ _, m_ret tt) demo_code id func [] default_external_call.

Lemma demo_code_performs code id func args noop :
  performs demo_li demo_hash demo_verify demo_check_auth (demo_code code id func args noop).
Proof.
  intros m r m' _. unfold demo_code, m_bind, m_modify. intros Hr _. exists [].
  destruct m as [c s evs a]. cbn [context_stack storage events auth_manager] in Hr.
  apply (run_ledger _ _ _ _ _ _ s [(demo_event, FromSuccessfulCall)]).
  repeat case_decide; injection Hr as <- <-; constructor.
Qed.

Lemma try_call_outcome_witness :
  (try_call (demo_call 6%N "pay") demo_start).1 = Ok (VVal ScVoid) ∧
  (try_call (demo_call 6%N "break") demo_start).1 = Err (EHost TAuth InternalError) ∧
  (try_call (demo_call 6%N "fail") demo_start).1 = Ok (VError (EContract 3)) ∧
  given_back demo_start (try_call (demo_call 6%N "fail") demo_start).2 ∧
  length (events (try_call (demo_call 6%N "pay") demo_start).2) = 1%nat.
Proof.
  assert ((try_call (demo_call 6%N "fail") demo_start).1 = Ok (VError (EContract 3))) as Hr
    by (vm_compute; reflexivity).
  split; [vm_compute; reflexivity|]. split; [vm_compute; reflexivity|]. split; [exact Hr|].
  split; [|vm_compute; reflexivity].
  pose proof (try_call_outcome demo_li demo_hash demo_verify demo_check_auth 3 (λ _, m_ret tt)
    demo_code 6%N "fail" [] default_external_call demo_start _ _ (λ _, eq_refl)
    (λ code b, demo_code_performs code _ _ _ b)
    (new_enforcing_wf None [demo_entry] demo_manager eq_refl) (surjective_pairing _)) as Hout.
  change (call_n_internal _ _ _ _ _ _ _) with (demo_call 6%N "fail") in Hout.
  rewrite Hr in Hout. apply Hout.
Defined.

(** On a stack that contract 5 already is on, 6 may be called, 5 and reserved functions
    may not; one frame more and the depth limit is reached. *)
Definition demo_stack (ids : list Hash) : Machine LedgerMap :=
  mkMachine (HostFunctionFrame :: ((λ id, ContractFrame id "buy" []) <$> ids)) ∅ [] demo_manager.
Definition demo_strict (code : unit) (id : Hash) (func : string) (args : list ScVal) (noop : bool) :
    M (Machine LedgerMap) RetVal := λ m,
  if decide (length (context_stack m) <= 3)%nat then demo_code code id func args noop m
  else (Err (EPanic "too deep"), m).

Lemma calls_admitted_witness :
  (demo_call 6%N "pay" (demo_stack [5%N])).1 = Ok (VVal ScVoid) ∧
  (demo_call 5%N "pay" (demo_stack [5%N])).1 = Err (EHost TContext InvalidAction) ∧
  (demo_call 6%N "__check_auth" (demo_stack [5%N])).1 = Err (EHost TContext InvalidAction) ∧
  (demo_call 7%N "pay" (demo_stack [5%N; 6%N])).1 = Err (EHost TContext ExceededLimit) ∧
  demo_call 6%N "pay" (demo_stack [5%N]) =
  call_n_internal 3 (λ _, m_ret tt) demo_strict 6%N "pay" [] default_external_call (demo_stack [5%N]).
Proof.
  do 4 (split; [vm_compute; reflexivity|]).
  apply (calls_admitted 3 (λ _, m_ret tt) demo_code demo_strict 6%N "pay" [] default_external_call
    (demo_stack [5%N])); [done|done| |].
  - intros i j k c Hijk Hi Hk. apply lookup_lt_Some in Hk. simpl in Hk. lia.
  - intros code b m' [_ Hd _ _ _]. unfold demo_strict. by rewrite decide_True.
Defined.
