(* ===== verification/Sim.v ===== *)
(** Simulation of a specification by a contract program.

    A contract's specification works on a typed state [St] and gives, for the
    context of a call, the result with the new state and the events in order, or
    the error.  [View] says what a contract of that state keeps under each
    storage key, [Rep] ties it to an environment, and a [cell] is one typed
    entry of it.  [simk] relates a program to its specification, with a rule for
    each host operation, so a contract's refinement proof runs through its
    program one operation at a time. *)
From S2P Require Import Prelude ScVal Storage Host Env.

(** What a call can observe besides the storage. *)
Record Ctx := mkCtx {
  c_auths : gset ScAddress;
  c_now : Z;
  c_self : Hash
}.
Definition ctx_of (e : Env) : Ctx := mkCtx (h_auths e) (timestamp (h_ledger e)) (h_contract e).

Abbreviation Ev := (list ScVal * ScVal)%type (only parsing).

(** The outcome of a specified call. *)
Abbreviation Outcome A St := (Result (A * St * list (list ScVal * ScVal))) (only parsing).

(** Guards of a specification. *)
Definition auth (cx : Ctx) (a : ScAddress) : Result unit :=
  if decide (a ∈ c_auths cx) then Ok tt else Err (EHost TAuth InvalidAction).
Definition reject_if (b : bool) (msg : string) : Result unit :=
  if b then Err (EPanic msg) else Ok tt.
Definition expect {A} (o : option A) (msg : string) : Result A := ok_or o (EPanic msg).

Lemma bind_Ok {A B} (a : A) (f : A → Result B) : Ok a ≫= f = f a.
Proof. done. Qed.
Lemma auth_ok cx a : auth cx a = Ok tt ↔ a ∈ c_auths cx.
Proof. unfold auth. by case_decide. Qed.
Lemma reject_if_ok b msg : reject_if b msg = Ok tt ↔ b = false.
Proof. by destruct b. Qed.

Lemma reject_if_err b msg x : reject_if b msg = Err x → b = true.
Proof. by destruct b. Qed.

Lemma bind_ok {A B} (r : Result A) (f : A → Result B) b :
  r ≫= f = Ok b ↔ ∃ a, r = Ok a ∧ f a = Ok b.
Proof.
  split; [destruct r as [a|]; [by exists a|done]|]. by intros (a & -> & ?).
Qed.
Lemma fmap_ok {A B} (r : Result A) (f : A → B) b :
  f <$> r = Ok b ↔ ∃ a, r = Ok a ∧ f a = b.
Proof. split; [destruct r as [a|]; intros; simplify_eq/=; by exists a|]. by intros (a & -> & <-). Qed.
Lemma expect_ok {A} (o : option A) msg a : expect o msg = Ok a ↔ o = Some a.
Proof. unfold expect. destruct o; split; intros; by simplify_eq/=. Qed.

Lemma expect_Some {A} (a : A) msg : expect (Some a) msg = Ok a.
Proof. done. Qed.

Lemma reject_if_false msg : reject_if false msg = Ok tt.
Proof. done. Qed.

(** Evaluates a specification as far as its guards are known. *)
Ltac sp_eval := repeat (rewrite ?expect_Some, ?bind_Ok, ?reject_if_false; progress cbv beta);
  rewrite ?expect_Some, ?bind_Ok, ?reject_if_false; cbv beta.

(** Takes a successful outcome apart into its guards. *)
Ltac outcome_inv :=
  repeat match goal with
  | H : (_ ≫= _) = Ok _ |- _ => apply bind_ok in H as (? & ? & ?)
  | H : (_ <$> _) = Ok _ |- _ => apply fmap_ok in H as (? & ? & ?)
  | H : expect _ _ = Ok _ |- _ => apply expect_ok in H
  | x : unit |- _ => destruct x
  | H : reject_if _ _ = Ok _ |- _ => apply reject_if_ok in H
  | H : bool_decide _ = false |- _ => apply bool_decide_eq_false in H
  | H : auth _ _ = Ok _ |- _ => apply auth_ok in H
  | H : Ok _ = Ok _ |- _ => injection H as H; subst
  | H : (_, _) = (_, _) |- _ => injection H as H; subst
  end; simplify_eq/=.

(** * Views and cells *)

Class View (St : Type) := view : St → ScVal → option ScVal.

Definition Rep {St} `{View St} (e : Env) (s : St) : Prop :=
  env_wf e ∧ ∀ k, k ≠ ScLedgerKeyContractInstance → data e k = view s k.

Record cell (St : Type) `{View St} (T : Type) := Cell {
  ck : ScVal;
  cc : codec T;
  cget : St → option T;
  cset : T → St → St;
  cell_key : ck ≠ ScLedgerKeyContractInstance;
  cell_view : ∀ s, view s ck = enc cc <$> cget s;
  cell_view_set : ∀ x s k,
    view (cset x s) k = if decide (ck = k) then Some (enc cc x) else view s k
}.
Arguments Cell {St _ T} ck cc cget cset cell_key cell_view cell_view_set.
Arguments ck {St _ T} c.
Arguments cc {St _ T} c.
Arguments cget {St _ T} c s.
Arguments cset {St _ T} c x s.

Section views.
Context {St : Type} `{View St}.
Implicit Types (e : Env) (s : St).

Lemma cget_cset {T} (c : cell St T) x s : cget c (cset c x s) = Some x.
Proof.
  pose proof (cell_view _ _ c (cset c x s)) as Hv.
  rewrite (cell_view_set _ _ c), decide_True in Hv by done.
  destruct (cget c (cset c x s)); [|done]. simpl in Hv.
  injection Hv as Hv. by apply (inj (enc (cc c))) in Hv as ->.
Qed.

Lemma Rep_get {T} (c : cell St T) e s : Rep e s → data e (ck c) = enc (cc c) <$> cget c s.
Proof. intros [_ Hv]. rewrite Hv by apply cell_key. apply cell_view. Qed.

Lemma cell_stored {T} (c : cell St T) e s x :
  Rep e s → data e (ck c) = Some (enc (cc c) x) ↔ cget c s = Some x.
Proof.
  intros Hr. rewrite (Rep_get c e s Hr). split; [|by intros ->].
  intros (y & -> & Hy)%fmap_Some. by apply (inj (enc (cc c))) in Hy as ->.
Qed.

(** What reading a typed entry gives. *)
Lemma cell_read {T} (c : cell St T) e s :
  Rep e s → data e (ck c) ≫= dec (cc c) = cget c s.
Proof. intros Hr. rewrite (Rep_get c e s Hr). destruct (cget c s); [|done]. apply dec_enc. Qed.

Lemma Rep_same e e' s : Rep e s → env_wf e' → (∀ k, data e' k = data e k) → Rep e' s.
Proof. intros [_ Hv] Hwf He. split; [done|]. intros k Hk. by rewrite He, Hv. Qed.

Lemma Rep_set {T} (c : cell St T) x e s :
  Rep e s → Rep (set_data (ck c) (enc (cc c) x) e) (cset c x s).
Proof.
  intros [Hwf Hv]. split; [auto with env|]. intros k Hk.
  rewrite data_set_data, (cell_view_set _ _ c). by case_decide; [|apply Hv].
Qed.

(** [s'] is [s] without the entry of [k]. *)
Definition view_del (k : ScVal) (s s' : St) : Prop :=
  ∀ k', view s' k' = if decide (k = k') then None else view s k'.

Lemma Rep_remove k e s s' : view_del k s s' → Rep e s → Rep (remove_data k e) s'.
Proof.
  intros Hd [Hwf Hv]. split; [auto with env|]. intros k' Hk'.
  rewrite data_remove_data, Hd. by case_decide; [|apply Hv].
Qed.

Lemma Rep_det e s s' k : Rep e s → Rep e s' → k ≠ ScLedgerKeyContractInstance →
  view s k = view s' k.
Proof. intros [_ H1] [_ H2] Hk. by rewrite <-H1, <-H2. Qed.
End views.

(** ** Keyed views

    A contract whose storage keys form a type [K]: its view is given by what the
    state holds for each [K]. *)
Record keyspace (K : Type) := Keyspace {
  to_key : K → ScVal;
  of_key : ScVal → option K;
  of_to_key : ∀ x, of_key (to_key x) = Some x;
  to_of_key : ∀ k x, of_key k = Some x → to_key x = k;
  of_instance : of_key ScLedgerKeyContractInstance = None
}.
Arguments Keyspace {K} to_key of_key of_to_key to_of_key of_instance.
Arguments to_key {K} ks x : rename.
Arguments of_key {K} ks k : rename.
Arguments of_to_key {K} ks x : rename.
Arguments to_of_key {K} ks k x : rename.
Arguments of_instance {K} ks : rename.

Section keyed.
Context {K : Type} `{EqDecision K} (ks : keyspace K).
Context {St : Type} (content : St → K → option ScVal).

Definition keyed_view : View St := λ s k, of_key ks k ≫= content s.

#[local] Instance the_view : View St := keyed_view.

Lemma keyed_not_instance x : to_key ks x ≠ ScLedgerKeyContractInstance.
Proof. intros Hx. pose proof (of_to_key ks x) as Hk. by rewrite Hx, of_instance in Hk. Qed.

Lemma keyed_view_key s x : view s (to_key ks x) = content s x.
Proof. unfold view, the_view, keyed_view. by rewrite of_to_key. Qed.

Lemma keyed_view_update s s' x o :
  (∀ y, content s' y = if decide (x = y) then o else content s y) →
  ∀ k, view s' k = if decide (to_key ks x = k) then o else view s k.
Proof.
  intros Hs k. case_decide as Hk.
  - subst. rewrite keyed_view_key, Hs. by rewrite decide_True.
  - unfold view, the_view, keyed_view. destruct (of_key ks k) as [y|] eqn:Hy; [|done].
    simpl. rewrite Hs, decide_False; [done|]. intros ->. by apply to_of_key in Hy.
Qed.

Definition keyed_cell {T} (x : K) (c : codec T) (cget : St → option T) (cset : T → St → St)
    (Hget : ∀ s, content s x = enc c <$> cget s)
    (Hset : ∀ v s y, content (cset v s) y = if decide (x = y) then Some (enc c v) else content s y) :
    cell St T :=
  Cell (to_key ks x) c cget cset (keyed_not_instance x)
    (λ s, eq_trans (keyed_view_key s x) (Hget s))
    (λ v s, keyed_view_update s (cset v s) x (Some (enc c v)) (Hset v s)).
End keyed.

(** Proves the update law of a cell kept in a field or a map of the state. *)
Ltac solve_content :=
  let v := fresh in let s := fresh in let y := fresh in let Hk := fresh in
  intros v s y; case_decide as Hk;
  [ subst y; simpl; rewrite ?lookup_insert_eq; done
  | destruct y; simpl; try done; rewrite lookup_insert_ne by congruence; done ].

(** * Simulation *)
Section sim.
Context (X : External) {St : Type} `{View St}.
Implicit Types (s : St) (evs : list Ev).

Definition emit_all (e : Env) (evs : list Ev) : EventsBuffer :=
  (λ ev, (mkContractEvent (h_contract e) ev.1 ev.2, FromSuccessfulCall)) <$> evs.

(** The run started in [e0] has reached [e], which holds [s], and has
    published [evs]. *)
Record sim_post (e0 e : Env) s evs : Prop := {
  sp_rep : Rep e s;
  sp_frame : same_frame e0 e;
  sp_events : h_events e = h_events e0 ++ emit_all e0 evs;
  sp_live : env_live e0 → env_live e
}.

Definition simk {A} (p : prog A) (e0 e : Env) (sp : Outcome A St) : Prop :=
  wp X p (λ a e', ∃ s evs, sp = Ok (a, s, evs) ∧ sim_post e0 e' s evs)
    (λ x, env_live e0 → sp = Err x) e.

Definition sim {A} (p : prog A) (e : Env) (sp : Outcome A St) : Prop := simk p e e sp.

Lemma sim_start e s : Rep e s → sim_post e e s [].
Proof. split; try done. unfold emit_all. simpl. by rewrite app_nil_r. Qed.

Lemma sim_ok {A} (p : prog A) e sp a e' :
  sim p e sp → run X p e = (Ok a, e') →
  ∃ s evs, sp = Ok (a, s, evs) ∧ sim_post e e' s evs.
Proof. unfold sim, simk, wp. intros Hs Hr. by rewrite Hr in Hs. Qed.

Lemma sim_live_ok {A} (p : prog A) e a s evs :
  sim p e (Ok (a, s, evs)) → env_live e →
  ∃ e', run X p e = (Ok a, e') ∧ sim_post e e' s evs.
Proof.
  unfold sim, simk, wp. destruct (run X p e) as [[a'|x] e'].
  - intros (s1 & evs1 & ? & ?) _. simplify_eq. eauto.
  - intros Hs Hl. by specialize (Hs Hl).
Qed.

Lemma sim_live_err {A} (p : prog A) e x :
  sim p e (Err x) → env_live e → ∃ e', run X p e = (Err x, e').
Proof.
  unfold sim, simk, wp. destruct (run X p e) as [[a'|x'] e'].
  - intros (? & ? & ? & ?) _. done.
  - intros Hs Hl. specialize (Hs Hl). simplify_eq. eauto.
Qed.

(** ** Rules *)
Section rules.
Context {A : Type} (e0 : Env) (sp : Outcome A St).

Lemma sim_ret a e s evs :
  sim_post e0 e s evs → sp = Ok (a, s, evs) → simk (Ret a) e0 e sp.
Proof. intros. apply wp_ret. eauto. Qed.

Lemma sim_fail x e : sp = Err x → simk (Fail x) e0 e sp.
Proof. intros ->. by apply wp_fail. Qed.

Lemma sim_assoc {B C} (p : prog B) (f : B → prog C) (g : C → prog A) e :
  simk (p ≫= λ b, f b ≫= g) e0 e sp → simk ((p ≫= f) ≫= g) e0 e sp.
Proof. apply wp_assoc. Qed.

Lemma sim_ret_bind {B} (b : B) (f : B → prog A) e :
  simk (f b) e0 e sp → simk (Ret b ≫= f) e0 e sp.
Proof. done. Qed.

Lemma sim_fail_bind {B} x (f : B → prog A) e :
  sp = Err x → simk (Fail x ≫= f) e0 e sp.
Proof. intros ->. by apply wp_bind, wp_fail. Qed.

Lemma not_live e s evs {B} (P : B → Prop) :
  sim_post e0 e s evs → ¬ env_live e → ∀ x : B, env_live e0 → P x.
Proof. intros [_ _ _ Hl] Hn x Hl0. destruct (Hn (Hl Hl0)). Qed.

Lemma sim_get {T} (c : cell St T) (f : option T → prog A) e s evs :
  sim_post e0 e s evs → simk (f (cget c s)) e0 e sp →
  simk (get (cc c) (ck c) ≫= f) e0 e sp.
Proof.
  intros Hp Hf. apply wp_bind. eapply wp_get; [apply Hp|apply Rep_get, Hp| |exact Hf].
  by eapply not_live.
Qed.

Lemma sim_has {T} (c : cell St T) (f : bool → prog A) e s evs :
  sim_post e0 e s evs → simk (f (bool_decide (is_Some (cget c s)))) e0 e sp →
  simk (has (ck c) ≫= f) e0 e sp.
Proof.
  intros Hp Hf. apply wp_bind. apply wp_has; [apply Hp|by eapply not_live|].
  rewrite (Rep_get c e s) by apply Hp.
  by rewrite (bool_decide_ext _ (is_Some (cget c s))) by apply fmap_is_Some.
Qed.

Lemma sim_set {T} (c : cell St T) x (f : unit → prog A) e s evs :
  sim_post e0 e s evs →
  (∀ e', sim_post e0 e' (cset c x s) evs → simk (f tt) e0 e' sp) →
  simk (set (cc c) (ck c) x ≫= f) e0 e sp.
Proof.
  intros Hp Hf. apply wp_bind. apply wp_set; [apply Hp|by eapply not_live|].
  apply Hf. destruct Hp as [Hr Hfr He Hl]. split.
  - by apply Rep_set.
  - by etrans; [|apply set_data_frame].
  - done.
  - intros. apply env_live_set_data; [apply cell_key|auto].
Qed.

Lemma sim_extend {T} (c : cell St T) th ext (f : unit → prog A) e s evs :
  sim_post e0 e s evs → is_Some (cget c s) → th <= ext → ext <= TTL_EXTEND_TO →
  (∀ e', sim_post e0 e' s evs → simk (f tt) e0 e' sp) →
  simk (extend_ttl_of (ck c) th ext ≫= f) e0 e sp.
Proof.
  intros Hp Hs Hth Hext Hf. apply wp_bind.
  apply wp_extend; try done; [apply Hp| |by eapply not_live|].
  - rewrite (Rep_get c e s) by apply Hp. by apply fmap_is_Some.
  - apply Hf. destruct Hp as [Hr Hfr He Hl]. split.
    + eapply Rep_same; [done|apply env_wf_touch, Hr|intros; apply data_touch].
    + by etrans; [|apply touch_frame].
    + by rewrite touch_events.
    + auto with env.
Qed.

Lemma sim_store {T} (c : cell St T) x th ext (f : unit → prog A) e s evs :
  sim_post e0 e s evs → th <= ext → ext <= TTL_EXTEND_TO →
  (∀ e', sim_post e0 e' (cset c x s) evs → simk (f tt) e0 e' sp) →
  simk ((set (cc c) (ck c) x ;; extend_ttl_of (ck c) th ext) ≫= f) e0 e sp.
Proof.
  intros Hp Hth Hext Hf. apply sim_assoc. eapply sim_set; [done|]. intros e1 Hp1.
  eapply (sim_extend c); eauto. by rewrite cget_cset.
Qed.

Lemma sim_get_or {T} (c : cell St T) d (f : T → prog A) e s evs :
  sim_post e0 e s evs → simk (f (default d (cget c s))) e0 e sp →
  simk (get_or (cc c) (ck c) d ≫= f) e0 e sp.
Proof. intros Hp Hf. apply sim_assoc. by eapply sim_get. Qed.

Lemma sim_remove k s' (f : unit → prog A) e s evs :
  sim_post e0 e s evs → k ≠ ScLedgerKeyContractInstance → view_del k s s' →
  (∀ e', sim_post e0 e' s' evs → simk (f tt) e0 e' sp) →
  simk (remove k ≫= f) e0 e sp.
Proof.
  intros Hp Hk Hd Hf. apply wp_bind. apply wp_remove; [apply Hp|by eapply not_live|].
  apply Hf. destruct Hp as [Hr Hfr He Hl]. split.
  - by eapply Rep_remove.
  - by etrans; [|apply remove_data_frame].
  - done.
  - intros. apply env_live_remove_data; auto.
Qed.

Lemma sim_auth a (f : unit → prog A) e s evs :
  sim_post e0 e s evs →
  (auth (ctx_of e0) a = Ok tt → simk (f tt) e0 e sp) →
  (auth (ctx_of e0) a = Err (EHost TAuth InvalidAction) →
    sp = Err (EHost TAuth InvalidAction)) →
  simk (require_auth a ≫= f) e0 e sp.
Proof.
  intros [_ (_&_&Ha) _ _] Hok Herr. apply wp_bind.
  unfold auth in *; simpl in *. rewrite <-Ha in *.
  apply wp_auth; intros Hin; [apply Hok|intros _; apply Herr]; by case_decide.
Qed.

Lemma sim_publish t d (f : unit → prog A) e s evs :
  sim_post e0 e s evs →
  (∀ e', sim_post e0 e' s (evs ++ [(t, d)]) → simk (f tt) e0 e' sp) →
  simk (publish t d ≫= f) e0 e sp.
Proof.
  intros Hp Hf. apply wp_bind, wp_publish, Hf. destruct Hp as [Hr Hfr He Hl]. split.
  - by eapply Rep_same; [|apply Hr|].
  - by etrans; [|apply add_event_frame].
  - rewrite add_event_events, He. unfold emit_all. rewrite fmap_app, app_assoc. simpl.
    by destruct Hfr as (_ & -> & _).
  - done.
Qed.

Lemma sim_timestamp (f : Z → prog A) e s evs :
  sim_post e0 e s evs → simk (f (c_now (ctx_of e0))) e0 e sp →
  simk (ledger_timestamp ≫= f) e0 e sp.
Proof.
  intros [_ (Hli&_&_) _ _] Hf. apply wp_bind, wp_timestamp. by rewrite Hli.
Qed.

Lemma sim_current_contract (f : ScAddress → prog A) e s evs :
  sim_post e0 e s evs → simk (f (Contract (c_self (ctx_of e0)))) e0 e sp →
  simk (current_contract ≫= f) e0 e sp.
Proof.
  intros [_ (_&Hc&_) _ _] Hf. apply wp_bind, wp_current_contract. by rewrite Hc.
Qed.

Lemma sim_sha256 v (f : Hash → prog A) e :
  simk (f (x_sha256 X (x_to_xdr X v))) e0 e sp → simk (sha256_xdr v ≫= f) e0 e sp.
Proof. intros Hf. by apply wp_bind, wp_sha256. Qed.

Lemma sim_extend_instance th ext (f : unit → prog A) e s evs :
  sim_post e0 e s evs → th <= ext → ext <= TTL_EXTEND_TO →
  (∀ e', sim_post e0 e' s evs → simk (f tt) e0 e' sp) →
  simk (extend_instance_ttl th ext ≫= f) e0 e sp.
Proof.
  intros Hp Hth Hext Hf. apply wp_bind.
  apply wp_extend_instance; try done; [apply Hp|by eapply not_live|].
  intros e' Hfr' He' Hd Hwf Hl'. apply Hf. destruct Hp as [Hr Hfr He Hl]. split.
  - by eapply Rep_same.
  - by etrans.
  - by rewrite He'.
  - auto.
Qed.

Lemma sim_panic_if b msg (f : unit → prog A) e :
  (reject_if b msg = Err (EPanic msg) → sp = Err (EPanic msg)) →
  (reject_if b msg = Ok tt → simk (f tt) e0 e sp) →
  simk (panic_if b msg ≫= f) e0 e sp.
Proof.
  destruct b; intros HE HQ; [apply sim_fail_bind; by apply HE|by apply HQ].
Qed.

Lemma sim_tail (p : prog A) e : simk (p ≫= Ret) e0 e sp → simk p e0 e sp.
Proof.
  unfold simk, wp. rewrite run_bind. unfold m_bind. by destruct (run X p e) as [[] ?].
Qed.

Lemma sim_u32_add a b (f : Z → prog A) e :
  (reject_if (bool_decide (u32_max < a + b)) "attempt to add with overflow"
     = Err (EPanic "attempt to add with overflow") →
   sp = Err (EPanic "attempt to add with overflow")) →
  (reject_if (bool_decide (u32_max < a + b)) "attempt to add with overflow" = Ok tt →
   simk (f (a + b)) e0 e sp) →
  simk (u32_add a b ≫= f) e0 e sp.
Proof.
  unfold u32_add. intros HE HQ. destruct (decide (a + b <= u32_max)).
  - apply sim_ret_bind, HQ. by rewrite bool_decide_false by lia.
  - apply sim_fail_bind, HE. by rewrite bool_decide_true by lia.
Qed.

(** Checked arithmetic. *)
Lemma sim_checked {B} (P : Prop) `{Decision P} (v : B) msg (f : B → prog A) e :
  (reject_if (bool_decide (¬ P)) msg = Err (EPanic msg) → sp = Err (EPanic msg)) →
  (reject_if (bool_decide (¬ P)) msg = Ok tt → simk (f v) e0 e sp) →
  simk ((if decide P then Ret v else panic msg) ≫= f) e0 e sp.
Proof.
  intros HE HQ. destruct (decide P) as [HP|HP].
  - apply sim_ret_bind, HQ. by rewrite bool_decide_false by tauto.
  - apply sim_fail_bind, HE. by rewrite bool_decide_true by done.
Qed.

Lemma sim_u32_add_ok a b (f : Z → prog A) e :
  a + b <= u32_max → simk (f (a + b)) e0 e sp → simk (u32_add a b ≫= f) e0 e sp.
Proof. unfold u32_add. intros Hle Hf. by rewrite decide_True by done. Qed.

Lemma sim_u32_sub_ok a b (f : Z → prog A) e :
  b <= a → simk (f (a - b)) e0 e sp → simk (u32_sub a b ≫= f) e0 e sp.
Proof. unfold u32_sub. intros Hle Hf. by rewrite decide_True by done. Qed.

(** A deployment; [d] is its outcome in the environment the run started from. *)
Lemma sim_deploy salt w (f : ScAddress → prog A) e s evs :
  sim_post e0 e s evs → only_own e0 e →
  match deploy_result X e0 salt w with
  | Ok a => ∀ e', sim_post e0 e' s evs → simk (f a) e0 e' sp
  | Err x => sp = Err x
  end →
  simk (deploy salt w ≫= f) e0 e sp.
Proof.
  intros Hp (Hli & Hc & Hown) Hf. apply wp_bind. unfold wp, deploy, trigger; simpl.
  pose proof (handle_deploy_result X salt w e) as Hres.
  rewrite (deploy_result_local X salt w e0 e Hli Hc Hown) in Hres.
  unfold m_bind, m_ret. change (on_storage _ e) with (handle X (OpDeploy salt w) e).
  destruct (handle X (OpDeploy salt w) e) as [[a|x] e1] eqn:Hh; simpl in Hres; rewrite <-Hres in Hf.
  - apply Hf. destruct (handle_deploy_keeps X salt w e a e1 Hh) as (Hfr' & Hev & Hd & Hwf & Hlv).
    destruct Hp as [[Hwf0 Hv] Hfr He Hl]. split.
    + split; [by apply Hwf|]. intros k Hk. by rewrite Hd, Hv.
    + by etrans.
    + by rewrite Hev.
    + auto.
  - by intros _.
Qed.

(** A part that only reads and renews, with a specification of its own. *)
Lemma sim_bind_own {B} (p : prog B) (f : B → prog A) e (q : Outcome B St) :
  simk p e0 e q → calm p →
  (∀ x, q = Err x → sp = Err x) →
  (∀ b s evs e', q = Ok (b, s, evs) → sim_post e0 e' s evs → only_own e e' →
     simk (f b) e0 e' sp) →
  simk (p ≫= f) e0 e sp.
Proof.
  intros Hp Hcalm Herr Hok. apply wp_bind. pose proof (run_calm X p e Hcalm) as Hown.
  unfold simk, wp in *. destruct (run X p e) as [[b|x] e'].
  - destruct Hp as (s & evs & Hq & Hpost). by eapply Hok.
  - intros Hl. apply Herr; auto.
Qed.

(** A part of the program with a specification of its own. *)
Lemma sim_bind {B} (p : prog B) (f : B → prog A) e (q : Outcome B St) :
  simk p e0 e q →
  (∀ x, q = Err x → sp = Err x) →
  (∀ b s evs e', q = Ok (b, s, evs) → sim_post e0 e' s evs → simk (f b) e0 e' sp) →
  simk (p ≫= f) e0 e sp.
Proof.
  intros Hp Herr Hok. apply wp_bind. eapply wp_mono; [exact Hp| |].
  - intros b e' (s & evs & Hq & Hpost). by eapply Hok.
  - intros x Hx Hl. apply Herr; auto.
Qed.
End rules.

(** Specifications in sequence: the second continues from the first's state and
    events. *)
Definition after {A} (evs : list Ev) (sp : Outcome A St) : Outcome A St :=
  (λ r, (r.1.1, r.1.2, evs ++ r.2)) <$> sp.
Definition then_spec {A B} (q : Outcome B St) (g : B → St → Outcome A St) : Outcome A St :=
  r ← q; r' ← g r.1.1 r.1.2; Ok (r'.1.1, r'.1.2, r.2 ++ r'.2).

Lemma after_nil {A} (sp : Outcome A St) : after [] sp = sp.
Proof. by destruct sp as [[[] ?]|]. Qed.

Lemma sim_seq {A B} (p : prog B) (f : B → prog A) e0 e evs q g :
  simk p e0 e (after evs q) →
  (∀ b s' evs' e', sim_post e0 e' s' evs' → simk (f b) e0 e' (after evs' (g b s'))) →
  simk (p ≫= f) e0 e (after evs (then_spec q g)).
Proof.
  intros Hp Hf. eapply sim_bind; [exact Hp| |].
  - intros x Hx. by destruct q; simplify_eq/=.
  - intros b s1 evs1 e1 Hq Hp1. destruct q as [[[b' s2] evs2]|]; simplify_eq/=.
    specialize (Hf b _ _ _ Hp1). unfold after, then_spec in *. simpl.
    destruct (g b s1) as [[[a s3] evs3]|]; simpl in *; [|done]. by rewrite app_assoc.
Qed.

Lemma sim_fmap {A B} (p : prog A) (g : A → B) e0 e (q : Outcome A St) :
  simk p e0 e q →
  simk (g <$> p) e0 e ((λ r, (g r.1.1, r.1.2, r.2)) <$> q).
Proof.
  intros Hp. apply (sim_bind e0 _ p _ e q Hp).
  - by intros x ->.
  - intros b s evs e' -> Hpost. by eapply sim_ret.
Qed.

Lemma sim_read {A B} (p : prog A) (g : A → B) e v s :
  sim p e (Ok (v, s, [])) → sim (g <$> p) e (Ok (g v, s, [])).
Proof. apply (sim_fmap p g e e (Ok (v, s, []))). Qed.

Lemma sim_then {A B} (p : prog A) (b : B) e0 e (q : Outcome A St) :
  simk p e0 e q →
  simk (p ;; Ret b) e0 e ((λ r, (b, r.1.2, r.2)) <$> q).
Proof.
  intros Hp. apply (sim_bind e0 _ p _ e q Hp).
  - by intros x ->.
  - intros a s evs e' -> Hpost. by eapply sim_ret.
Qed.
End sim.

(** ** Automation

    [sim_op pick clean] takes the next operation of the program.  [pick k tac]
    passes the cell of key [k] to [tac], and [clean] computes the cells' accessors
    away. *)
Ltac sim_next e Hp := clear e Hp; intros e Hp.

Ltac sim_checked_op :=
  let Hrej := fresh "Hrej" in
  apply sim_checked; intros Hrej; rewrite ?Hrej; [done|sp_eval].

Ltac sim_op pick clean :=
  lazymatch goal with
  | Hp : sim_post ?e0 ?e ?s ?evs |- simk _ (get _ ?k ≫= _) ?e0 ?e _ =>
      pick k ltac:(fun c => eapply (sim_get _ _ _ c); [exact Hp|]); clean
  | Hp : sim_post ?e0 ?e ?s ?evs |- simk _ (get_or _ ?k _ ≫= _) ?e0 ?e _ =>
      pick k ltac:(fun c => eapply (sim_get_or _ _ _ c); [exact Hp|]); clean
  | Hp : sim_post ?e0 ?e ?s ?evs |- simk _ (has ?k ≫= _) ?e0 ?e _ =>
      pick k ltac:(fun c => eapply (sim_has _ _ _ c); [exact Hp|]); clean
  | Hp : sim_post ?e0 ?e ?s ?evs |- simk _ (store _ ?k _ ≫= _) ?e0 ?e _ =>
      pick k ltac:(fun c => eapply (sim_store _ _ _ c); [exact Hp|done|done|]);
      sim_next e Hp; revert Hp; clean; intros Hp
  | Hp : sim_post ?e0 ?e ?s ?evs |- simk _ (set _ ?k _ ≫= _) ?e0 ?e _ =>
      pick k ltac:(fun c => eapply (sim_set _ _ _ c); [exact Hp|]);
      sim_next e Hp; revert Hp; clean; intros Hp
  | Hp : sim_post ?e0 ?e ?s ?evs |- simk _ (extend ?k ≫= _) ?e0 ?e _ =>
      pick k ltac:(fun c => eapply (sim_extend _ _ _ c); [exact Hp| |done|done|]);
      [clean; eauto|sim_next e Hp]
  | Hp : sim_post ?e0 ?e ?s ?evs |- simk _ (require_auth _ ≫= _) ?e0 ?e _ =>
      let Hauth := fresh "Hauth" in
      eapply sim_auth; [exact Hp|intros Hauth; rewrite ?Hauth; sp_eval
                       |intros Hauth; rewrite ?Hauth; done]
  | Hp : sim_post ?e0 ?e ?s ?evs |- simk _ (publish _ _ ≫= _) ?e0 ?e _ =>
      eapply sim_publish; [exact Hp|]; sim_next e Hp
  | Hp : sim_post ?e0 ?e ?s ?evs |- simk _ (ledger_timestamp ≫= _) ?e0 ?e _ =>
      eapply sim_timestamp; [exact Hp|]
  | Hp : sim_post ?e0 ?e ?s ?evs |- simk _ (current_contract ≫= _) ?e0 ?e _ =>
      eapply sim_current_contract; [exact Hp|]
  | |- simk _ (sha256_xdr _ ≫= _) _ _ _ => apply sim_sha256
  | Hp : sim_post ?e0 ?e ?s ?evs |- simk _ (extend_instance_ttl _ _ ≫= _) ?e0 ?e _ =>
      eapply sim_extend_instance; [exact Hp|done|done|]; sim_next e Hp
  | |- simk _ (panic_if _ _ ≫= _) _ _ _ =>
      let Hrej := fresh "Hrej" in
      apply sim_panic_if; intros Hrej; rewrite ?Hrej; [done|sp_eval]
  | |- simk _ (u32_add _ _ ≫= _) _ _ _ =>
      let Hrej := fresh "Hrej" in
      apply sim_u32_add; intros Hrej; rewrite ?Hrej; [done|sp_eval]
  | |- simk _ (u64_add _ _ ≫= _) _ _ _ => unfold u64_add at 1; sim_checked_op
  | |- simk _ (u64_mul _ _ ≫= _) _ _ _ => unfold u64_mul at 1; sim_checked_op
  | |- simk _ (i128_add _ _ ≫= _) _ _ _ => unfold i128_add at 1; sim_checked_op
  | |- simk _ (i128_sub _ _ ≫= _) _ _ _ => unfold i128_sub at 1; sim_checked_op
  | Ho : ?o = _ |- simk _ (match ?o with Some _ => _ | None => _ end ≫= _) _ _ _ =>
      rewrite Ho; first [by apply sim_fail_bind|idtac]
  | Ho : ?o = _ |- simk _ (match ?o with Some _ => _ | None => _ end) _ _ _ =>
      rewrite Ho; first [by apply sim_fail|idtac]
  | |- simk _ (match ?o with Some _ => _ | None => _ end ≫= _) _ _ _ =>
      let Ho := fresh "Ho" in
      destruct o eqn:Ho; [sp_eval|first [by apply sim_fail_bind|idtac]]
  | |- simk _ (match ?o with Some _ => _ | None => _ end) _ _ _ =>
      let Ho := fresh "Ho" in
      destruct o eqn:Ho; [sp_eval|first [by apply sim_fail|idtac]]
  | |- simk _ ((if ?b then _ else _) ≫= _) _ _ _ => let Hb := fresh "Hb" in destruct b eqn:Hb
  | |- simk _ (if ?b then _ else _) _ _ _ => let Hb := fresh "Hb" in destruct b eqn:Hb
  | |- simk _ ((_ ≫= _) ≫= _) _ _ _ => apply sim_assoc
  | |- simk _ (Ret _ ≫= _) _ _ _ => apply sim_ret_bind
  | |- simk _ (panic _ ≫= _) _ _ _ => apply sim_fail_bind; done
  | |- simk _ (panic _) _ _ _ => apply sim_fail; done
  | Hp : sim_post ?e0 ?e ?s ?evs |- simk _ (Ret _) ?e0 ?e _ =>
      eapply sim_ret; [exact Hp|done]
  | |- simk _ (store _ _ _) _ _ _ => apply sim_tail
  | |- simk _ (get_or _ _ _) _ _ _ => apply sim_tail
  | |- simk _ (get _ _) _ _ _ => apply sim_tail
  | |- simk _ (publish _ _) _ _ _ => apply sim_tail
  | |- simk _ (extend _) _ _ _ => apply sim_tail
  end; cbv beta.

(** Begins a simulation: the current environment is a variable of its own. *)
Ltac sim_begin :=
  intros;
  lazymatch goal with
  | Hr : Rep ?e ?s |- sim _ _ ?e _ =>
      let Hp := fresh "Hp" in let e1 := fresh "e1" in let Heq := fresh in
      pose proof (sim_start e s Hr) as Hp; unfold sim;
      remember e as e1 eqn:Heq in Hp at 2 |- * at 2; clear Heq
  end.

(** * Invocations

    What a simulated program does as a whole transaction: it commits the
    specified state and events, or leaves storage and visible events alone. *)
Section invocations.
Context (X : External) {St : Type} `{View St}.
Implicit Types (s : St).

Lemma emitted_emit_all e (evs : list Ev) :
  emitted (emit_all e evs) = (λ ev, mkContractEvent (h_contract e) ev.1 ev.2) <$> evs.
Proof.
  unfold emitted, emit_all. induction evs as [|ev evs IH]; [done|].
  rewrite fmap_cons, list.filter_cons, decide_True by done. simpl. by f_equal.
Qed.

Definition authorized (auths : gset ScAddress) (e : Env) : Env :=
  mkHost (h_storage e) (h_ledger e) (h_contract e) auths (h_events e).

(** A failed invocation leaves the ledger and the observable events as they
    were. *)
Lemma invoke_failed {A} auths (p : prog A) (e e' : Env) x :
  invoke X auths p e = (Err x, e') →
  h_storage e' = h_storage e ∧ h_ledger e' = h_ledger e ∧ h_contract e' = h_contract e ∧
  emitted (h_events e') = emitted (h_events e).
Proof.
  unfold invoke, with_frame. fold (authorized auths e).
  pose proof (run_in_frame X p (authorized auths e)) as (Hl & Hc & _ & new & Hev).
  destruct (run X p (authorized auths e)) as [[a|x'] e1]; intros; simplify_eq/=.
  split_and!; [done|done|done|]. rewrite Hev. apply emitted_rollback.
Qed.

Lemma Rep_authorized auths e s : Rep e s → Rep (authorized auths e) s.
Proof. done. Qed.
Lemma env_live_authorized auths e : env_live e → env_live (authorized auths e).
Proof. done. Qed.

Lemma invoke_sim {A} auths (p : prog A) e s sp r e' :
  sim X p (authorized auths e) sp → Rep e s → invoke X auths p e = (r, e') →
  h_ledger e' = h_ledger e ∧ h_contract e' = h_contract e ∧
  match r with
  | Ok a => ∃ s' evs, sp = Ok (a, s', evs) ∧ Rep e' s' ∧
      emitted (h_events e') = emitted (h_events e) ++
        ((λ ev, mkContractEvent (h_contract e) ev.1 ev.2) <$> evs)
  | Err x => Rep e' s ∧ emitted (h_events e') = emitted (h_events e) ∧
      (env_live e → sp = Err x)
  end.
Proof.
  intros Hsim Hr Hi. destruct r as [a|x].
  - unfold invoke, with_frame in Hi. fold (authorized auths e) in Hi.
    destruct (run X p _) as [[a'|x'] e1] eqn:Hrun; simplify_eq.
    destruct (sim_ok X _ _ _ _ _ Hsim Hrun) as (s' & evs & ? & [Hr' (Hl&Hc&_) Hev _]).
    split_and!; [done|done|]. exists s', evs. split_and!; [done|done|].
    by rewrite Hev, emitted_app, emitted_emit_all.
  - destruct (invoke_failed auths p e e' x Hi) as (Hs & Hl & Hc & Hev).
    split_and!; [done|done| |done|].
    + eapply Rep_same; [done| |].
      * destruct Hr as [Hwf _]. intros k v. unfold dkey. rewrite Hs, Hc. apply Hwf.
      * intros k. unfold data, dkey. by rewrite Hs, Hc.
    + intros Hlive. unfold invoke, with_frame in Hi. fold (authorized auths e) in Hi.
      unfold sim, simk, wp in Hsim.
      destruct (run X p _) as [[a'|x'] e1]; simplify_eq. by apply Hsim.
Qed.

(** The outcome of an invocation from [e], in terms of its specification: a
    success returns the specified value, commits the specified state and emits
    the specified events; a failure changes nothing; and on a live ledger the
    result is the specified one, with the same error. *)
Definition call_outcome {A} (e : Env) s (sp : Outcome A St) (out : Result A * Env) : Prop :=
  let '(r, e') := out in
  (env_live e → match sp with Ok (a, _, _) => r = Ok a | Err x => r = Err x end) ∧
  match r with
  | Ok a => ∃ s' evs, sp = Ok (a, s', evs) ∧ Rep e' s' ∧
      emitted (h_events e') = emitted (h_events e) ++
        ((λ ev, mkContractEvent (h_contract e) ev.1 ev.2) <$> evs)
  | Err x => Rep e' s ∧ emitted (h_events e') = emitted (h_events e)
  end.

Lemma invoke_correct {A} auths (p : prog A) e s sp :
  sim X p (authorized auths e) sp → Rep e s → call_outcome e s sp (invoke X auths p e).
Proof.
  intros Hsim Hr. destruct (invoke X auths p e) as [r e'] eqn:Hi.
  destruct (invoke_sim auths p e s sp r e' Hsim Hr Hi) as (_ & _ & Hout).
  destruct r as [a|x]; split; try done.
  - by destruct Hout as (s' & evs & -> & _).
  - destruct Hout as (_ & _ & Hlive). intros Hl. by rewrite Hlive.
  - by destruct Hout as (? & ? & _).
Qed.

(** A transaction leaves a live environment live. *)
Lemma invoke_live {A} auths (p : prog A) e sp :
  sim X p (authorized auths e) sp → env_live e → env_live (invoke X auths p e).2.
Proof.
  intros Hsim Hl. destruct (invoke X auths p e) as [[a|x] e'] eqn:Hi; cbn [snd].
  - unfold invoke, with_frame in Hi. fold (authorized auths e) in Hi.
    destruct (run X p _) as [[a'|x'] e1] eqn:Hrun; simplify_eq.
    destruct (sim_ok X _ _ _ _ _ Hsim Hrun) as (s' & evs & _ & [_ _ _ Hl']). by apply Hl'.
  - destruct (invoke_failed auths p e e' x Hi) as (Hs & Hli & Hc & _).
    destruct Hl as (Hsane & Hinst & Hent). unfold env_live, instance_live, dkey in *.
    by rewrite Hs, Hli, Hc.
Qed.

(** In a live environment the specification decides the outcome. *)
Lemma invoke_live_ok {A} auths (p : prog A) e s a s' evs :
  sim X p (authorized auths e) (Ok (a, s', evs)) → Rep e s → env_live e →
  ∃ e', invoke X auths p e = (Ok a, e') ∧ Rep e' s' ∧ env_live e' ∧
    same_frame (authorized auths e) e' ∧
    emitted (h_events e') = emitted (h_events e) ++
      ((λ ev, mkContractEvent (h_contract e) ev.1 ev.2) <$> evs).
Proof.
  intros Hsim Hr Hl. unfold invoke, with_frame. fold (authorized auths e).
  destruct (sim_live_ok X p (authorized auths e) a s' evs Hsim Hl)
    as (e' & -> & [Hr' Hfr Hev Hl']).
  exists e'. split_and!; try done; [by apply Hl'|].
  by rewrite Hev, emitted_app, emitted_emit_all.
Qed.

Lemma invoke_live_err {A} auths (p : prog A) e s x :
  sim X p (authorized auths e) (Err x) → Rep e s → env_live e →
  ∃ e', invoke X auths p e = (Err x, e').
Proof.
  intros Hsim Hr Hl. unfold invoke, with_frame. fold (authorized auths e).
  destruct (sim_live_err X p (authorized auths e) x Hsim Hl) as (e' & ->). eauto.
Qed.
End invocations.

(** * Histories

    The transactions of a contract with entry points [exec], between which the
    ledger moves on; calls outside [allowed] are left out of the history.  The
    specification sees the part [of_env] of the environment, [ctx_of] for most
    contracts. *)
Section history.
Context (X : External) {St : Type} `{View St} {Call R C : Type}.
Context (exec : Call → prog R) (of_env : Env → C) (spec : C → Call → St → Outcome R St).
Context (allowed : Call → Prop).

Definition set_ledger (li : LedgerInfo) (e : Env) : Env :=
  mkHost (h_storage e) li (h_contract e) (h_auths e) (h_events e).

Inductive tx : Env → Env → Prop :=
| tx_invoke auths c r e e' :
    allowed c → invoke X auths (exec c) e = (r, e') → tx e e'
| tx_ledger li e :
    sequence_number (h_ledger e) <= sequence_number li →
    timestamp (h_ledger e) <= timestamp li → tx e (set_ledger li e).

(** The abstract machine: successful specified calls. *)
Definition spec_step (s s' : St) : Prop :=
  ∃ cx c a evs, allowed c ∧ spec cx c s = Ok (a, s', evs).

Context (Inv : St → Prop).
Context (Hrefine : ∀ e c s, Rep e s → Inv s → sim X (exec c) e (spec (of_env e) c s)).
Context (Hinv : ∀ s s', Inv s → spec_step s s' → Inv s').

Lemma tx_refines e e' s :
  tx e e' → Rep e s → Inv s → ∃ s', Rep e' s' ∧ rtc spec_step s s' ∧ Inv s'.
Proof.
  intros [auths c r e1 e1' Hc Hi|li e1 Hseq Hts] Hr Hs.
  - pose proof (Hrefine (authorized auths e1) c s Hr Hs) as Hsim.
    destruct (invoke_sim X auths _ e1 s _ r e1' Hsim Hr Hi) as (_ & _ & Hout).
    destruct r as [a|x].
    + destruct Hout as (s' & evs & Hsp & Hr' & _). exists s'.
      assert (spec_step s s') by (by exists (of_env (authorized auths e1)), c, a, evs).
      split_and!; [done|by apply rtc_once|eauto].
    + destruct Hout as (Hr' & _). exists s. by split_and!.
  - exists s. split_and!; [|done|done]. destruct Hr as [Hwf Hv]. split; [exact Hwf|exact Hv].
Qed.

(** Every history of transactions is a history of the abstract machine. *)
Lemma history_refines e e' s :
  rtc tx e e' → Rep e s → Inv s → ∃ s', Rep e' s' ∧ rtc spec_step s s' ∧ Inv s'.
Proof.
  intros Htx. revert s. induction Htx as [e|e1 e2 e3 Ht _ IH]; intros s Hr Hs;
    [exists s; by split_and!|].
  destruct (tx_refines _ _ _ Ht Hr Hs) as (s2 & Hr2 & Hst & Hs2).
  destruct (IH s2 Hr2 Hs2) as (s3 & ? & ? & ?). exists s3. split_and!; [done| |done].
  by etrans.
Qed.

(** An order the abstract machine never goes back on. *)
Lemma history_after (After : relation St) `{!PreOrder After} e e' s :
  (∀ s s', Inv s → spec_step s s' → After s s') →
  rtc tx e e' → Rep e s → Inv s → ∃ s', Rep e' s' ∧ Inv s' ∧ After s s'.
Proof.
  intros Hafter Htx Hr Hs. destruct (history_refines e e' s Htx Hr Hs) as (s' & Hr' & Hst & Hs').
  exists s'. split_and!; [done|done|]. clear Hr Hr' Htx Hs'.
  induction Hst as [s|s1 s2 s3 H12 _ IH]; [done|].
  etrans; [by apply Hafter|]. apply IH. by eapply Hinv.
Qed.

(** What holds of every state reachable from an initial one. *)
Lemma history_inv e e' s :
  rtc tx e e' → Rep e s → Inv s → ∃ s', Rep e' s' ∧ Inv s'.
Proof. intros Htx Hr Hs. destruct (history_refines e e' s Htx Hr Hs) as (s' & ? & _ & ?). eauto. Qed.

(** Transactions of one ledger keep it live. *)
Lemma invokes_live calls e s :
  Forall (λ c : gset ScAddress * Call, allowed c.2) calls → Rep e s → Inv s → env_live e →
  env_live (foldl (λ e c, (invoke X c.1 (exec c.2) e).2) e calls).
Proof.
  intros Hall. revert e s. induction Hall as [|[auths c] calls Hc _ IH]; intros e s Hr Hs Hl;
    [done|]. simpl.
  assert (Hsim := Hrefine (authorized auths e) c s Hr Hs).
  destruct (invoke X auths (exec c) e) as [r e1] eqn:Hi.
  assert (Htx : tx e e1) by (by eapply tx_invoke). simpl.
  destruct (tx_refines e e1 s Htx Hr Hs) as (s1 & Hr1 & _ & Hs1).
  apply (IH e1 s1); try done. replace e1 with (invoke X auths (exec c) e).2 by (by rewrite Hi).
  by eapply invoke_live.
Qed.

(** A fact about every state a successful call commits. *)
Lemma invoke_committed auths c e s a e' :
  Rep e s → Inv s → allowed c → invoke X auths (exec c) e = (Ok a, e') →
  ∃ s' evs, spec (of_env (authorized auths e)) c s = Ok (a, s', evs) ∧ Rep e' s' ∧ Inv s'.
Proof.
  intros Hr Hs Hc Hi. pose proof (Hrefine (authorized auths e) c s Hr Hs) as Hsim.
  destruct (invoke_sim X auths _ e s _ _ e' Hsim Hr Hi) as (_ & _ & s' & evs & Hsp & Hr' & _).
  exists s', evs. split_and!; [done|done|]. eapply Hinv; [done|]. by eexists _, _, _, _.
Qed.
End history.

(** * A concrete network

    For evaluating the contracts: an instance of the external functions, ledger settings as
    the repository's test ledgers have them, and a freshly deployed contract with no data. *)

(** An injective toy serialization, the binary encoding of a value, and a toy hash
    that reads it back as a number. *)
Definition toy : External := mkExternal
  (λ v, (λ b : bool, if b then Byte.x01 else Byte.x00) <$>
        (fix bits (p : positive) : list bool :=
           match p with xH => [] | xO p => false :: bits p | xI p => true :: bits p end) (encode v))
  (λ l, N.pos (foldr (λ b p, if Byte.eqb b Byte.x01 then xI p else xO p) xH l))
  (λ net who salt, N.pos (encode (net, who, salt)))
  (λ _ _, Ok tt).

Definition demo_ledger : LedgerInfo := mkLedgerInfo 22 100 1000 7%N 10 16 4096 6312000.
Definition demo_self : Hash := 5%N.
Definition demo_wasm : Hash := 3%N.
Definition alice : ScAddress := Account 1%N.
Definition bob : ScAddress := Account 2%N.
Definition carol : ScAddress := Account 3%N.

Definition fresh : Env := mkHost
  (<[KContractData (Contract demo_self) ScLedgerKeyContractInstance Persistent :=
       (EContractData (mkContractDataEntry (Contract demo_self) ScLedgerKeyContractInstance
          Persistent (ScContractInstance (Some demo_wasm))), Some 5000)]>
   (<[KContractCode demo_wasm := (EContractCode demo_wasm, Some 5000)]> ∅))
  demo_ledger demo_self ∅ [].

Lemma fresh_lookup k : k ≠ ScLedgerKeyContractInstance → h_storage fresh !! dkey fresh k = None.
Proof.
  intros Hk. unfold fresh, dkey, storage_key; simpl.
  by rewrite lookup_insert_ne by congruence.
Qed.

Lemma fresh_data k : k ≠ ScLedgerKeyContractInstance → data fresh k = None.
Proof. intros Hk. unfold data. by rewrite fresh_lookup. Qed.

Lemma fresh_wf : env_wf fresh.
Proof.
  intros k v Hv. destruct (decide (k = ScLedgerKeyContractInstance)) as [->|Hk];
    [|by rewrite fresh_lookup in Hv].
  vm_compute in Hv. simplify_eq. eauto.
Qed.

Lemma fresh_live : env_live fresh.
Proof.
  split_and!.
  - unfold ledger_sane, TTL_EXTEND_TO, u32_max. simpl. lia.
  - eexists _, 5000, (Some demo_wasm). split_and!; [reflexivity|done|].
    exists (EContractCode demo_wasm), 5000. split; [reflexivity|]. simpl. lia.
  - intros k en lu Hv. destruct (decide (k = ScLedgerKeyContractInstance)) as [->|Hk];
      [|by rewrite fresh_lookup in Hv].
    vm_compute in Hv. simplify_eq. simpl. lia.
Qed.

Lemma fresh_Rep {St} `{View St} (s : St) : (∀ k, view s k = None) → Rep fresh s.
Proof. intros Hs. split; [apply fresh_wf|]. intros k Hk. by rewrite Hs, fresh_data. Qed.

(** Runs a list of signed calls, one transaction each. *)
Fixpoint play (X : External) {Call R} (exec : Call → prog R)
    (calls : list (gset ScAddress * Call)) (e : Env) : Env :=
  match calls with
  | [] => e
  | (auths, c) :: calls => play X exec calls (invoke X auths (exec c) e).2
  end.

Lemma play_tx X {Call R} (exec : Call → prog R) (allowed : Call → Prop) calls e :
  Forall (λ c, allowed c.2) calls → rtc (tx X exec allowed) e (play X exec calls e).
Proof.
  intros Hall. revert e. induction Hall as [|[auths c] calls Hc _ IH]; intros e; simpl; [done|].
  eapply rtc_l; [|apply IH]. by eapply tx_invoke, surjective_pairing.
Qed.

Lemma play_foldl X {Call R} (exec : Call → prog R) calls e :
  play X exec calls e = foldl (λ e c, (invoke X c.1 (exec c.2) e).2) e calls.
Proof. revert e. induction calls as [|[auths c] calls IH]; intros e; simpl; [done|apply IH]. Qed.

(** Names the environment a call with a known result ends in. *)
Lemma outcome_fst {A} (p : Result A * Env) r : p.1 = r → p = (r, p.2).
Proof. by destruct p; intros <-. Qed.
