(* ===== verification/Queue.v ===== *)
(** The queue contract, [contracts/lineproof-queue/src/lib.rs]: its data with
    their stored form, one program per entry point, and the dispatcher [exec]
    over the calls of the [Queue] trait. *)
From S2P Require Import Prelude ScVal Host.

Module Queue.

Definition CURRENT_VERSION : Z := 1.
Definition VERSION_KEY : string := "version".

(** * Data *)

Inductive AdvancementRule := Fifo | PriorityTier | VerifiableRandomness.

Inductive QueueStatus :=
| Draft | EnrollmentOpen | EnrollmentClosed | AdvancementActive | Closed.

Record QueueConfig := mkQueueConfig {
  slug : string;
  name : string;
  admin : ScAddress;
  max_positions : Z;
  enrollment_open : Z;
  enrollment_close : Z;
  status : QueueStatus;
  version : Z;
  advancement_rule : AdvancementRule
}.

Inductive PositionStatus := Pending | Advanced | Expired | Cancelled.

Record Position := mkPosition {
  position_id : Z;
  enrolled_at : Z;
  identity : ScAddress;
  pstatus : PositionStatus;
  advanced_at : option Z;
  priority_weight : option Z
}.

#[export] Instance AdvancementRule_eq_dec : EqDecision AdvancementRule.
Proof. solve_decision. Defined.
#[export] Instance QueueStatus_eq_dec : EqDecision QueueStatus.
Proof. solve_decision. Defined.
#[export] Instance QueueConfig_eq_dec : EqDecision QueueConfig.
Proof. solve_decision. Defined.
#[export] Instance PositionStatus_eq_dec : EqDecision PositionStatus.
Proof. solve_decision. Defined.
#[export] Instance Position_eq_dec : EqDecision Position.
Proof. solve_decision. Defined.

Definition set_status (st : QueueStatus) (c : QueueConfig) : QueueConfig :=
  mkQueueConfig (slug c) (name c) (admin c) (max_positions c) (enrollment_open c)
    (enrollment_close c) st (version c) (advancement_rule c).
Definition set_admin (a : ScAddress) (c : QueueConfig) : QueueConfig :=
  mkQueueConfig (slug c) (name c) a (max_positions c) (enrollment_open c)
    (enrollment_close c) (status c) (version c) (advancement_rule c).
Definition set_pstatus (st : PositionStatus) (p : Position) : Position :=
  mkPosition (position_id p) (enrolled_at p) (identity p) st (advanced_at p) (priority_weight p).
Definition set_advanced (now : Z) (p : Position) : Position :=
  mkPosition (position_id p) (enrolled_at p) (identity p) Advanced (Some now) (priority_weight p).

(** * Stored form *)

Definition rule_name (r : AdvancementRule) : string :=
  match r with
  | Fifo => "Fifo" | PriorityTier => "PriorityTier"
  | VerifiableRandomness => "VerifiableRandomness"
  end.
Definition rule_of_name (s : string) : option AdvancementRule :=
  if decide (s = "Fifo") then Some Fifo
  else if decide (s = "PriorityTier") then Some PriorityTier
  else if decide (s = "VerifiableRandomness") then Some VerifiableRandomness
  else None.
Lemma rule_name_inv r : rule_of_name (rule_name r) = Some r.
Proof. by destruct r. Qed.
Definition ruleC : codec AdvancementRule := enumC rule_name rule_of_name rule_name_inv.

Definition status_name (st : QueueStatus) : string :=
  match st with
  | Draft => "Draft" | EnrollmentOpen => "EnrollmentOpen"
  | EnrollmentClosed => "EnrollmentClosed" | AdvancementActive => "AdvancementActive"
  | Closed => "Closed"
  end.
Definition status_of_name (s : string) : option QueueStatus :=
  if decide (s = "Draft") then Some Draft
  else if decide (s = "EnrollmentOpen") then Some EnrollmentOpen
  else if decide (s = "EnrollmentClosed") then Some EnrollmentClosed
  else if decide (s = "AdvancementActive") then Some AdvancementActive
  else if decide (s = "Closed") then Some Closed
  else None.
Lemma queue_status_name_inv st : status_of_name (status_name st) = Some st.
Proof. by destruct st. Qed.
Definition statusC : codec QueueStatus := enumC status_name status_of_name queue_status_name_inv.

Definition pstatus_name (st : PositionStatus) : string :=
  match st with
  | Pending => "Pending" | Advanced => "Advanced" | Expired => "Expired"
  | Cancelled => "Cancelled"
  end.
Definition pstatus_of_name (s : string) : option PositionStatus :=
  if decide (s = "Pending") then Some Pending
  else if decide (s = "Advanced") then Some Advanced
  else if decide (s = "Expired") then Some Expired
  else if decide (s = "Cancelled") then Some Cancelled
  else None.
Lemma pstatus_name_inv st : pstatus_of_name (pstatus_name st) = Some st.
Proof. by destruct st. Qed.
Definition pstatusC : codec PositionStatus := enumC pstatus_name pstatus_of_name pstatus_name_inv.

Definition config_fields : list string :=
  ["admin"; "advancement_rule"; "enrollment_close"; "enrollment_open"; "max_positions";
   "name"; "slug"; "status"; "version"].

Definition configC : codec QueueConfig.
Proof.
  refine (Codec
    (λ c, ScMap [("admin", enc addressC (admin c));
                 ("advancement_rule", enc ruleC (advancement_rule c));
                 ("enrollment_close", enc u64C (enrollment_close c));
                 ("enrollment_open", enc u64C (enrollment_open c));
                 ("max_positions", enc u32C (max_positions c));
                 ("name", enc symbolC (name c));
                 ("slug", enc symbolC (slug c));
                 ("status", enc statusC (status c));
                 ("version", enc u32C (version c))])
    (λ v, l ← struct_fields config_fields v;
          match l with
          | [v1; v2; v3; v4; v5; v6; v7; v8; v9] =>
              x1 ← dec addressC v1; x2 ← dec ruleC v2; x3 ← dec u64C v3;
              x4 ← dec u64C v4; x5 ← dec u32C v5; x6 ← dec symbolC v6;
              x7 ← dec symbolC v7; x8 ← dec statusC v8; x9 ← dec u32C v9;
              Some (mkQueueConfig x7 x6 x1 x5 x4 x3 x8 x9 x2)
          | _ => None
          end) _).
  abstract solve_struct_codec.
Defined.

Definition position_fields : list string :=
  ["advanced_at"; "enrolled_at"; "identity"; "position_id"; "priority_weight"; "status"].

Definition positionC : codec Position.
Proof.
  refine (Codec
    (λ p, ScMap [("advanced_at", enc option_u64C (advanced_at p));
                 ("enrolled_at", enc u64C (enrolled_at p));
                 ("identity", enc addressC (identity p));
                 ("position_id", enc u32C (position_id p));
                 ("priority_weight", enc option_u32C (priority_weight p));
                 ("status", enc pstatusC (pstatus p))])
    (λ v, l ← struct_fields position_fields v;
          match l with
          | [v1; v2; v3; v4; v5; v6] =>
              x1 ← dec option_u64C v1; x2 ← dec u64C v2; x3 ← dec addressC v3;
              x4 ← dec u32C v4; x5 ← dec option_u32C v5; x6 ← dec pstatusC v6;
              Some (mkPosition x4 x2 x3 x6 x1 x5)
          | _ => None
          end) _).
  abstract solve_struct_codec.
Defined.

(** * Storage keys *)

Definition key_config : ScVal := ScSymbol "config".
Definition key_next_id : ScVal := ScSymbol "next_id".
Definition key_active : ScVal := ScSymbol "active_count".
Definition key_idx : ScVal := ScSymbol "idx".
Definition key_version : ScVal := ScSymbol VERSION_KEY.
Definition key_pending : ScVal := ScSymbol "pending_admin".
Definition position_key (id : Z) : ScVal := ScVec [ScSymbol "pos"; ScU32 id].

(** * Helpers *)

Definition emit_topics (kind : string) (id : Z) : list ScVal :=
  [ScSymbol "lineproof_queue"; ScSymbol kind; ScU32 id].
Definition emit_data (who : ScAddress) (ts : Z) : ScVal := ScVec [ScAddr who; ScU64 ts].
Definition emit (kind : string) (id : Z) (who : ScAddress) (ts : Z) : prog unit :=
  publish (emit_topics kind id) (emit_data who ts).

Definition emit_now (kind : string) (id : Z) (who : ScAddress) : prog unit :=
  now ← ledger_timestamp; emit kind id who now.

Definition require_admin (config : QueueConfig) (a : ScAddress) : prog unit :=
  panic_if (bool_decide (admin config ≠ a)) "not_admin" ;;
  require_auth a.

Definition get_config_internal : prog QueueConfig :=
  o ← get configC key_config;
  match o with
  | None => panic "queue not initialized"
  | Some config => extend key_config ;; Ret config
  end.

Definition load_position (id : Z) : prog Position :=
  o ← get positionC (position_key id);
  match o with
  | None => panic "position not found"
  | Some pos => extend (position_key id) ;; Ret pos
  end.

(** * Entry points *)

Definition initialize (a : ScAddress) (config : QueueConfig) : prog unit :=
  require_auth a ;;
  panic_if (bool_decide (admin config ≠ a)) "not_admin" ;;
  store configC key_config config ;;
  store u32C key_next_id 1 ;;
  store u32C key_active 0 ;;
  store u32C key_idx 0 ;;
  store u32C key_version CURRENT_VERSION ;;
  extend_instance_ttl TTL_THRESHOLD TTL_EXTEND_TO ;;
  emit "Initialized" 0 a 0.

Definition propose_admin (current_admin proposed_admin : ScAddress) : prog unit :=
  config ← get_config_internal;
  require_admin config current_admin ;;
  store addressC key_pending proposed_admin.

Definition accept_admin (proposed_admin : ScAddress) : prog unit :=
  require_auth proposed_admin ;;
  o ← get addressC key_pending;
  match o with
  | None => panic "not_pending_admin"
  | Some pending =>
      panic_if (bool_decide (pending ≠ proposed_admin)) "not_pending_admin" ;;
      config ← get_config_internal;
      let previous_admin := admin config in
      store configC key_config (set_admin proposed_admin config) ;;
      remove key_pending ;;
      publish [ScString "lineproof.queue"; ScSymbol "OwnershipTransferred";
               ScAddr previous_admin; ScAddr proposed_admin] ScVoid
  end.

Definition open_enrollment (a : ScAddress) : prog unit :=
  config ← get_config_internal;
  require_admin config a ;;
  panic_if (bool_decide (status config ≠ Draft))
    "enrollment can only be opened from draft state" ;;
  store configC key_config (set_status EnrollmentOpen config) ;;
  emit_now "EnrollmentOpened" 0 a.

Definition close_enrollment (a : ScAddress) : prog unit :=
  config ← get_config_internal;
  require_admin config a ;;
  panic_if (bool_decide (status config ≠ EnrollmentOpen))
    "enrollment can only be closed from enrollment_open state" ;;
  store configC key_config (set_status EnrollmentClosed config) ;;
  emit_now "EnrollmentClosed" 0 a.

Definition enroll_position (who : ScAddress) : prog Z :=
  require_auth who ;;
  config ← get_config_internal;
  panic_if (bool_decide (status config ≠ EnrollmentOpen)) "enrollment is not open" ;;
  next_id ← get_or u32C key_next_id 1;
  active_count ← get_or u32C key_active 0;
  panic_if (bool_decide (max_positions config <= active_count)) "queue is full" ;;
  now ← ledger_timestamp;
  store positionC (position_key next_id) (mkPosition next_id now who Pending None None) ;;
  next ← u32_add next_id 1;
  store u32C key_next_id next ;;
  active ← u32_add active_count 1;
  store u32C key_active active ;;
  emit_now "Enrolled" next_id who ;;
  Ret next_id.

Definition cancel_position (who : ScAddress) (id : Z) : prog unit :=
  require_auth who ;;
  pos ← load_position id;
  panic_if (bool_decide (identity pos ≠ who)) "not your position" ;;
  panic_if (bool_decide (pstatus pos ≠ Pending)) "only pending positions can be cancelled" ;;
  store positionC (position_key id) (set_pstatus Cancelled pos) ;;
  active_count ← get_or u32C key_active 0;
  store u32C key_active (u32_saturating_sub active_count 1) ;;
  emit_now "Cancelled" id who.

Definition get_position (id : Z) : prog (option Position) :=
  if bool_decide (id = 0) then Ret None
  else
    o ← get positionC (position_key id);
    match o with
    | Some pos => extend (position_key id) ;; Ret (Some pos)
    | None => Ret None
    end.

(** The loop of [advance]: [n] iterations are left of the batch. *)
Fixpoint advance_loop (a : ScAddress) (total_created : Z) (n : nat) (idx : Z)
    (advanced skipped : list Z) : prog (Z * list Z * list Z) :=
  match n with
  | O => Ret (idx, advanced, skipped)
  | S n =>
      if bool_decide (total_created <= idx) then Ret (idx, advanced, skipped)
      else
        id ← u32_add idx 1;
        o ← get_position id;
        match o with
        | Some pos =>
            lists ←
              match pstatus pos with
              | Pending =>
                  now ← ledger_timestamp;
                  store positionC (position_key id) (set_advanced now pos) ;;
                  Ret (advanced ++ [id], skipped)
              | Cancelled =>
                  emit_now "Skipped" id a ;;
                  Ret (advanced, skipped ++ [id])
              | _ => Ret (advanced, skipped)
              end;
            idx' ← u32_add idx 1;
            advance_loop a total_created n idx' lists.1 lists.2
        | None => Ret (idx, advanced, skipped)
        end
  end.

Fixpoint emit_advanced (a : ScAddress) (ids : list Z) : prog unit :=
  match ids with
  | [] => Ret tt
  | id :: ids => emit_now "Advanced" id a ;; emit_advanced a ids
  end.

Definition advance (a : ScAddress) (batch_size : Z) : prog (list Z) :=
  panic_if (bool_decide (batch_size = 0)) "batch_size_must_be_positive" ;;
  config ← get_config_internal;
  require_admin config a ;;
  panic_if (bool_decide (status config = Closed)) "queue is closed" ;;
  panic_if (bool_decide (status config ≠ EnrollmentClosed ∧ status config ≠ AdvancementActive))
    "enrollment must be closed before advancing" ;;
  match advancement_rule config with
  | Fifo =>
      idx ← get_or u32C key_idx 0;
      next_id ← get_or u32C key_next_id 1;
      let total_created := u32_saturating_sub next_id 1 in
      r ← advance_loop a total_created (Z.to_nat batch_size) idx [] [];
      let '(idx, advanced, _) := r in
      store u32C key_idx idx ;;
      (if bool_decide (advanced ≠ [] ∧ status config = EnrollmentClosed)
       then store configC key_config (set_status AdvancementActive config)
       else Ret tt) ;;
      emit_advanced a advanced ;;
      Ret advanced
  | PriorityTier => panic "priority_tier_not_implemented"
  | VerifiableRandomness => panic "vrf_not_implemented"
  end.

Definition get_config : prog QueueConfig := get_config_internal.

Definition current_position_index : prog Z := get_or u32C key_idx 0.

Definition total_enrolled : prog Z :=
  next_id ← get_or u32C key_next_id 1;
  if bool_decide (next_id = 0) then Ret 0 else u32_sub next_id 1.

Definition active_enrolled : prog Z := get_or u32C key_active 0.

Definition close (a : ScAddress) : prog unit :=
  config ← get_config_internal;
  require_admin config a ;;
  panic_if (bool_decide (status config = Closed)) "queue is closed" ;;
  store configC key_config (set_status Closed config) ;;
  emit_now "QueueClosed" 0 a.

(** The body [expire_position] and each step of [expire_positions_batch] share. *)
Definition expire_one (a : ScAddress) (id : Z) : prog unit :=
  pos ← load_position id;
  panic_if (bool_decide (pstatus pos ≠ Pending)) "only pending positions can be expired" ;;
  store positionC (position_key id) (set_pstatus Expired pos) ;;
  emit_now "Expired" id a.

Definition expire_position (a : ScAddress) (id : Z) : prog unit :=
  config ← get_config_internal;
  require_admin config a ;;
  panic_if (bool_decide (status config ≠ AdvancementActive ∧ status config ≠ Closed))
    "queue must be in advancement or closed state" ;;
  expire_one a id.

Fixpoint expire_each (a : ScAddress) (ids : list Z) : prog unit :=
  match ids with
  | [] => Ret tt
  | id :: ids => expire_one a id ;; expire_each a ids
  end.

Definition expire_positions_batch (a : ScAddress) (ids : list Z) : prog unit :=
  config ← get_config_internal;
  require_admin config a ;;
  panic_if (bool_decide (status config ≠ AdvancementActive ∧ status config ≠ Closed))
    "queue must be in advancement or closed state" ;;
  expire_each a ids.

Definition upgrade (a : ScAddress) (new_wasm_hash : Hash) : prog unit :=
  require_auth a ;;
  config ← get_config_internal;
  panic_if (bool_decide (admin config ≠ a)) "unauthorized: only queue admin can upgrade" ;;
  emit_now "Upgraded" 0 a.

Definition migrate (a : ScAddress) (from_version to_version : Z) : prog unit :=
  require_auth a ;;
  config ← get_config_internal;
  panic_if (bool_decide (admin config ≠ a)) "unauthorized: only queue admin can migrate" ;;
  stored_version ← get_or u32C key_version CURRENT_VERSION;
  panic_if (bool_decide (stored_version ≠ from_version))
    "version mismatch: stored version does not match from_version" ;;
  panic_if (bool_decide (to_version <= from_version))
    "to_version must be greater than from_version" ;;
  store u32C key_version to_version ;;
  emit "Migrated" from_version a to_version.

(** * The contract's interface *)

Inductive Call :=
| CInitialize (a : ScAddress) (config : QueueConfig)
| CProposeAdmin (current_admin proposed_admin : ScAddress)
| CAcceptAdmin (proposed_admin : ScAddress)
| COpenEnrollment (a : ScAddress)
| CCloseEnrollment (a : ScAddress)
| CEnrollPosition (who : ScAddress)
| CCancelPosition (who : ScAddress) (id : Z)
| CAdvance (a : ScAddress) (batch_size : Z)
| CGetPosition (id : Z)
| CGetConfig
| CCurrentPositionIndex
| CTotalEnrolled
| CActiveEnrolled
| CExpirePosition (a : ScAddress) (id : Z)
| CExpirePositionsBatch (a : ScAddress) (ids : list Z)
| CClose (a : ScAddress)
| CUpgrade (a : ScAddress) (new_wasm_hash : Hash)
| CMigrate (a : ScAddress) (from_version to_version : Z).

Inductive Ret_val :=
| RUnit
| RU32 (n : Z)
| RIds (ids : list Z)
| RPosition (p : option Position)
| RConfig (c : QueueConfig).

Definition exec (c : Call) : prog Ret_val :=
  match c with
  | CInitialize a config => initialize a config ;; Ret RUnit
  | CProposeAdmin cur prop => propose_admin cur prop ;; Ret RUnit
  | CAcceptAdmin prop => accept_admin prop ;; Ret RUnit
  | COpenEnrollment a => open_enrollment a ;; Ret RUnit
  | CCloseEnrollment a => close_enrollment a ;; Ret RUnit
  | CEnrollPosition who => RU32 <$> enroll_position who
  | CCancelPosition who id => cancel_position who id ;; Ret RUnit
  | CAdvance a n => RIds <$> advance a n
  | CGetPosition id => RPosition <$> get_position id
  | CGetConfig => RConfig <$> get_config
  | CCurrentPositionIndex => RU32 <$> current_position_index
  | CTotalEnrolled => RU32 <$> total_enrolled
  | CActiveEnrolled => RU32 <$> active_enrolled
  | CExpirePosition a id => expire_position a id ;; Ret RUnit
  | CExpirePositionsBatch a ids => expire_positions_batch a ids ;; Ret RUnit
  | CClose a => close a ;; Ret RUnit
  | CUpgrade a h => upgrade a h ;; Ret RUnit
  | CMigrate a f t => migrate a f t ;; Ret RUnit
  end.

End Queue.
