(* ===== verification/QueueSpec.v ===== *)
(** The specification of the queue contract: its typed state, what each call
    does to it, and the proof that the contract of [Queue] implements it. *)
From S2P Require Import Prelude ScVal Storage Host Env Sim Queue.
Import Queue.

(** * State *)

Record QState := mkQState {
  q_config : option QueueConfig;
  q_next_id : option Z;
  q_active : option Z;
  q_idx : option Z;
  q_version : option Z;
  q_pending : option ScAddress;
  q_pos : gmap Z Position
}.

Definition q_empty : QState := mkQState None None None None None None ∅.

Definition q_set_config c s := mkQState (Some c) (q_next_id s) (q_active s) (q_idx s)
  (q_version s) (q_pending s) (q_pos s).
Definition q_set_next_id n s := mkQState (q_config s) (Some n) (q_active s) (q_idx s)
  (q_version s) (q_pending s) (q_pos s).
Definition q_set_active n s := mkQState (q_config s) (q_next_id s) (Some n) (q_idx s)
  (q_version s) (q_pending s) (q_pos s).
Definition q_set_idx n s := mkQState (q_config s) (q_next_id s) (q_active s) (Some n)
  (q_version s) (q_pending s) (q_pos s).
Definition q_set_version n s := mkQState (q_config s) (q_next_id s) (q_active s) (q_idx s)
  (Some n) (q_pending s) (q_pos s).
Definition q_set_pending o s := mkQState (q_config s) (q_next_id s) (q_active s) (q_idx s)
  (q_version s) o (q_pos s).
Definition q_set_positions m s := mkQState (q_config s) (q_next_id s) (q_active s) (q_idx s)
  (q_version s) (q_pending s) m.
Definition q_set_pos id p s := q_set_positions (<[id := p]> (q_pos s)) s.

(** The counters as the contract reads them. *)
Definition next_id_of (s : QState) : Z := default 1 (q_next_id s).
Definition active_of (s : QState) : Z := default 0 (q_active s).
Definition idx_of (s : QState) : Z := default 0 (q_idx s).
Definition version_of (s : QState) : Z := default CURRENT_VERSION (q_version s).

(** The id a key is the position of. *)
Definition pos_id_of_key (k : ScVal) : option Z :=
  match k with
  | ScVec [ScSymbol tag; ScU32 id] => if decide (tag = "pos") then Some id else None
  | _ => None
  end.

Lemma pos_id_position_key id : pos_id_of_key (position_key id) = Some id.
Proof. done. Qed.
Lemma pos_id_of_key_Some k id : pos_id_of_key k = Some id → k = position_key id.
Proof. unfold pos_id_of_key. intros. by repeat case_match; simplify_eq. Qed.

#[export] Instance queue_view : View QState := λ s k,
  if decide (k = key_config) then enc configC <$> q_config s
  else if decide (k = key_next_id) then enc u32C <$> q_next_id s
  else if decide (k = key_active) then enc u32C <$> q_active s
  else if decide (k = key_idx) then enc u32C <$> q_idx s
  else if decide (k = key_version) then enc u32C <$> q_version s
  else if decide (k = key_pending) then enc addressC <$> q_pending s
  else match pos_id_of_key k with
       | Some id => enc positionC <$> q_pos s !! id
       | None => None
       end.

(** Proves a law of [queue_view] by comparing keys. *)
Ltac solve_view := intros; unfold view, queue_view; simpl;
  repeat (case_decide; subst; try done); try done.

Definition config_cell : cell QState QueueConfig.
Proof. refine (Cell key_config configC q_config q_set_config _ _ _); abstract solve_view. Defined.
Definition next_id_cell : cell QState Z.
Proof. refine (Cell key_next_id u32C q_next_id q_set_next_id _ _ _); abstract solve_view. Defined.
Definition active_cell : cell QState Z.
Proof. refine (Cell key_active u32C q_active q_set_active _ _ _); abstract solve_view. Defined.
Definition idx_cell : cell QState Z.
Proof. refine (Cell key_idx u32C q_idx q_set_idx _ _ _); abstract solve_view. Defined.
Definition version_cell : cell QState Z.
Proof. refine (Cell key_version u32C q_version q_set_version _ _ _); abstract solve_view. Defined.
Definition pending_cell : cell QState ScAddress.
Proof.
  refine (Cell key_pending addressC q_pending (λ a, q_set_pending (Some a)) _ _ _);
    abstract solve_view.
Defined.
Definition pos_cell (id : Z) : cell QState Position.
Proof.
  refine (Cell (position_key id) positionC (λ s, q_pos s !! id) (q_set_pos id) _ _ _);
    [abstract done|abstract done|].
  abstract (intros x s k; unfold view, queue_view; simpl;
    destruct (decide (position_key id = k)) as [<-|Hk];
    [repeat (rewrite decide_False by discriminate); rewrite pos_id_position_key;
     by rewrite lookup_insert_eq|];
    repeat (case_decide; [done|]);
    destruct (pos_id_of_key k) as [id'|] eqn:Hid; [|done];
    apply pos_id_of_key_Some in Hid as ->; rewrite lookup_insert_ne; [done|congruence]).
Defined.

Lemma view_del_pending s : view_del key_pending s (q_set_pending None s).
Proof. unfold view_del. solve_view. Qed.

(** * What each call does *)

Definition ev (kind : string) (id : Z) (who : ScAddress) (ts : Z) : Ev :=
  (emit_topics kind id, emit_data who ts).

Definition has_status (st : PositionStatus) (s : QState) (id : Z) : Prop :=
  pstatus <$> q_pos s !! id = Some st.
#[export] Instance has_status_dec st s id : Decision (has_status st s id).
Proof. unfold has_status. apply _. Defined.

(** The configuration, for the administrator [a] only. *)
Definition spec_admin (cx : Ctx) (a : ScAddress) (s : QState) : Result QueueConfig :=
  c ← expect (q_config s) "queue not initialized";
  reject_if (bool_decide (admin c ≠ a)) "not_admin" ;;
  auth cx a ;;
  Ok c.

(** The variant of [upgrade] and [migrate], which checks the signature first. *)
Definition spec_auth_admin (cx : Ctx) (a : ScAddress) (msg : string) (s : QState) :
    Result QueueConfig :=
  auth cx a ;;
  c ← expect (q_config s) "queue not initialized";
  reject_if (bool_decide (admin c ≠ a)) msg ;;
  Ok c.

Definition spec_initialize (cx : Ctx) (a : ScAddress) (config : QueueConfig) (s : QState) :
    Outcome unit QState :=
  auth cx a ;;
  reject_if (bool_decide (admin config ≠ a)) "not_admin" ;;
  Ok (tt, mkQState (Some config) (Some 1) (Some 0) (Some 0) (Some CURRENT_VERSION)
            (q_pending s) (q_pos s),
      [ev "Initialized" 0 a 0]).

Definition spec_propose_admin (cx : Ctx) (a proposed : ScAddress) (s : QState) :
    Outcome unit QState :=
  spec_admin cx a s ;;
  Ok (tt, q_set_pending (Some proposed) s, []).

Definition spec_accept_admin (cx : Ctx) (proposed : ScAddress) (s : QState) :
    Outcome unit QState :=
  auth cx proposed ;;
  pending ← expect (q_pending s) "not_pending_admin";
  reject_if (bool_decide (pending ≠ proposed)) "not_pending_admin" ;;
  c ← expect (q_config s) "queue not initialized";
  Ok (tt, q_set_pending None (q_set_config (set_admin proposed c) s),
      [([ScString "lineproof.queue"; ScSymbol "OwnershipTransferred"; ScAddr (admin c);
         ScAddr proposed], ScVoid)]).

(** A status change by the administrator: [bad] statuses are rejected. *)
Definition spec_transition (cx : Ctx) (a : ScAddress) (bad : QueueStatus → bool)
    (msg kind : string) (target : QueueStatus) (s : QState) : Outcome unit QState :=
  c ← spec_admin cx a s;
  reject_if (bad (status c)) msg ;;
  Ok (tt, q_set_config (set_status target c) s, [ev kind 0 a (c_now cx)]).

Definition spec_open_enrollment cx a : QState → Outcome unit QState :=
  spec_transition cx a (λ st, bool_decide (st ≠ Draft))
    "enrollment can only be opened from draft state" "EnrollmentOpened" EnrollmentOpen.
Definition spec_close_enrollment cx a : QState → Outcome unit QState :=
  spec_transition cx a (λ st, bool_decide (st ≠ EnrollmentOpen))
    "enrollment can only be closed from enrollment_open state" "EnrollmentClosed" EnrollmentClosed.
Definition spec_close cx a : QState → Outcome unit QState :=
  spec_transition cx a (λ st, bool_decide (st = Closed)) "queue is closed" "QueueClosed" Closed.

Definition u32_room (n : Z) : Result unit :=
  reject_if (bool_decide (u32_max < n + 1)) "attempt to add with overflow".

Definition spec_enroll (cx : Ctx) (who : ScAddress) (s : QState) : Outcome Z QState :=
  auth cx who ;;
  c ← expect (q_config s) "queue not initialized";
  reject_if (bool_decide (status c ≠ EnrollmentOpen)) "enrollment is not open" ;;
  reject_if (bool_decide (max_positions c <= active_of s)) "queue is full" ;;
  let id := next_id_of s in
  u32_room id ;;
  u32_room (active_of s) ;;
  Ok (id,
      q_set_active (active_of s + 1) (q_set_next_id (id + 1)
        (q_set_pos id (mkPosition id (c_now cx) who Pending None None) s)),
      [ev "Enrolled" id who (c_now cx)]).

Definition spec_cancel (cx : Ctx) (who : ScAddress) (id : Z) (s : QState) : Outcome unit QState :=
  auth cx who ;;
  p ← expect (q_pos s !! id) "position not found";
  reject_if (bool_decide (identity p ≠ who)) "not your position" ;;
  reject_if (bool_decide (pstatus p ≠ Pending)) "only pending positions can be cancelled" ;;
  Ok (tt, q_set_active (u32_saturating_sub (active_of s) 1)
            (q_set_pos id (set_pstatus Cancelled p) s),
      [ev "Cancelled" id who (c_now cx)]).

(** [advance] serves the next window of ids in order: its pending positions are
    advanced, its cancelled ones skipped. *)
Definition window (s : QState) (batch : Z) : list Z :=
  seqZ (idx_of s + 1) (Z.min batch (u32_saturating_sub (next_id_of s) 1 - idx_of s)).

Definition advance_positions (now : Z) (ids : list Z) (m : gmap Z Position) : gmap Z Position :=
  map_imap (λ id p, Some (if decide (id ∈ ids ∧ pstatus p = Pending)
                          then set_advanced now p else p)) m.

Definition spec_advance (cx : Ctx) (a : ScAddress) (batch : Z) (s : QState) :
    Outcome (list Z) QState :=
  reject_if (bool_decide (batch = 0)) "batch_size_must_be_positive" ;;
  c ← spec_admin cx a s;
  reject_if (bool_decide (status c = Closed)) "queue is closed" ;;
  reject_if (bool_decide (status c ≠ EnrollmentClosed ∧ status c ≠ AdvancementActive))
    "enrollment must be closed before advancing" ;;
  match advancement_rule c with
  | Fifo =>
      let ids := window s batch in
      let advanced := filter (has_status Pending s) ids in
      let skipped := filter (has_status Cancelled s) ids in
      let s1 := q_set_idx (idx_of s + Z.of_nat (length ids))
        (q_set_positions (advance_positions (c_now cx) ids (q_pos s)) s) in
      Ok (advanced,
          if bool_decide (advanced ≠ [] ∧ status c = EnrollmentClosed)
          then q_set_config (set_status AdvancementActive c) s1 else s1,
          ((λ id, ev "Skipped" id a (c_now cx)) <$> skipped) ++
          ((λ id, ev "Advanced" id a (c_now cx)) <$> advanced))
  | PriorityTier => Err (EPanic "priority_tier_not_implemented")
  | VerifiableRandomness => Err (EPanic "vrf_not_implemented")
  end.

Definition spec_expire_one (cx : Ctx) (a : ScAddress) (id : Z) (s : QState) :
    Outcome unit QState :=
  p ← expect (q_pos s !! id) "position not found";
  reject_if (bool_decide (pstatus p ≠ Pending)) "only pending positions can be expired" ;;
  Ok (tt, q_set_pos id (set_pstatus Expired p) s, [ev "Expired" id a (c_now cx)]).

Fixpoint spec_expire_each (cx : Ctx) (a : ScAddress) (ids : list Z) (s : QState) :
    Outcome unit QState :=
  match ids with
  | [] => Ok (tt, s, [])
  | id :: ids => then_spec (spec_expire_one cx a id s) (λ _, spec_expire_each cx a ids)
  end.

Definition spec_expire_guard (cx : Ctx) (a : ScAddress) (s : QState) : Result unit :=
  c ← spec_admin cx a s;
  reject_if (bool_decide (status c ≠ AdvancementActive ∧ status c ≠ Closed))
    "queue must be in advancement or closed state".

Definition spec_upgrade (cx : Ctx) (a : ScAddress) (s : QState) : Outcome unit QState :=
  spec_auth_admin cx a "unauthorized: only queue admin can upgrade" s ;;
  Ok (tt, s, [ev "Upgraded" 0 a (c_now cx)]).

Definition spec_migrate (cx : Ctx) (a : ScAddress) (from to : Z) (s : QState) :
    Outcome unit QState :=
  spec_auth_admin cx a "unauthorized: only queue admin can migrate" s ;;
  reject_if (bool_decide (version_of s ≠ from))
    "version mismatch: stored version does not match from_version" ;;
  reject_if (bool_decide (to <= from)) "to_version must be greater than from_version" ;;
  Ok (tt, q_set_version to s, [ev "Migrated" from a to]).

Definition spec_get_position (id : Z) (s : QState) : option Position :=
  if bool_decide (id = 0) then None else q_pos s !! id.

Definition spec_total_enrolled (s : QState) : Result Z :=
  if bool_decide (next_id_of s = 0) then Ok 0
  else reject_if (bool_decide (next_id_of s < 1)) "attempt to subtract with overflow" ;;
       Ok (next_id_of s - 1).

Definition unit_out (r : Outcome unit QState) : Outcome Ret_val QState :=
  (λ r, (RUnit, r.1.2, r.2)) <$> r.
Definition val_out {A} (f : A → Ret_val) (r : Outcome A QState) : Outcome Ret_val QState :=
  (λ r, (f r.1.1, r.1.2, r.2)) <$> r.
Definition read {A} (s : QState) (r : Result A) : Outcome A QState := (λ v, (v, s, [])) <$> r.

Definition spec (cx : Ctx) (c : Call) (s : QState) : Outcome Ret_val QState :=
  match c with
  | CInitialize a config => unit_out (spec_initialize cx a config s)
  | CProposeAdmin cur prop => unit_out (spec_propose_admin cx cur prop s)
  | CAcceptAdmin prop => unit_out (spec_accept_admin cx prop s)
  | COpenEnrollment a => unit_out (spec_open_enrollment cx a s)
  | CCloseEnrollment a => unit_out (spec_close_enrollment cx a s)
  | CEnrollPosition who => val_out RU32 (spec_enroll cx who s)
  | CCancelPosition who id => unit_out (spec_cancel cx who id s)
  | CAdvance a n => val_out RIds (spec_advance cx a n s)
  | CGetPosition id => val_out RPosition (read s (Ok (spec_get_position id s)))
  | CGetConfig => val_out RConfig (read s (expect (q_config s) "queue not initialized"))
  | CCurrentPositionIndex => val_out RU32 (read s (Ok (idx_of s)))
  | CTotalEnrolled => val_out RU32 (read s (spec_total_enrolled s))
  | CActiveEnrolled => val_out RU32 (read s (Ok (active_of s)))
  | CExpirePosition a id =>
      unit_out (spec_expire_guard cx a s ;; spec_expire_one cx a id s)
  | CExpirePositionsBatch a ids =>
      unit_out (spec_expire_guard cx a s ;; spec_expire_each cx a ids s)
  | CClose a => unit_out (spec_close cx a s)
  | CUpgrade a _ => unit_out (spec_upgrade cx a s)
  | CMigrate a from to => unit_out (spec_migrate cx a from to s)
  end.

(** * The contract implements it *)

(** The ids below [next_id] all have positions, and the counters fit. *)
Record dense (s : QState) : Prop := {
  dense_idx : 0 <= idx_of s;
  dense_next : next_id_of s <= u32_max;
  dense_pos : ∀ id, 1 <= id < next_id_of s → is_Some (q_pos s !! id)
}.

(** One step through a queue program: the cell, the guard or the event of its
    next operation. *)
Ltac q_pick k tac :=
  lazymatch k with
  | key_config => tac config_cell
  | key_next_id => tac next_id_cell
  | key_active => tac active_cell
  | key_idx => tac idx_cell
  | key_version => tac version_cell
  | key_pending => tac pending_cell
  | position_key ?id => tac (pos_cell id)
  end.

Ltac q_clean :=
  cbn [cget cset ck cc config_cell next_id_cell active_cell idx_cell version_cell pending_cell
       pos_cell];
  repeat match goal with
  | |- context [default 1 (q_next_id ?s)] =>
      change (default 1 (q_next_id s)) with (next_id_of s)
  | |- context [default 0 (q_active ?s)] => change (default 0 (q_active s)) with (active_of s)
  | |- context [default 0 (q_idx ?s)] => change (default 0 (q_idx s)) with (idx_of s)
  | |- context [default CURRENT_VERSION (q_version ?s)] =>
      change (default CURRENT_VERSION (q_version s)) with (version_of s)
  end.

Ltac q_step :=
  lazymatch goal with
  | |- simk _ (get_config_internal ≫= _) _ _ _ => unfold get_config_internal at 1
  | |- simk _ (require_admin _ _ ≫= _) _ _ _ => unfold require_admin at 1
  | |- simk _ (load_position _ ≫= _) _ _ _ => unfold load_position at 1
  | |- simk _ (emit_now _ _ _ ≫= _) _ _ _ => unfold emit_now at 1
  | |- simk _ (emit _ _ _ _ ≫= _) _ _ _ => unfold emit at 1
  | |- simk _ (expire_one _ _ ≫= _) _ _ _ => unfold expire_one at 1
  | Hp : sim_post ?e0 ?e ?s ?evs |- simk _ (remove key_pending ≫= _) ?e0 ?e _ =>
      eapply sim_remove; [exact Hp|done|apply view_del_pending|]; sim_next e Hp
  | |- simk _ (emit _ _ _ _) _ _ _ => apply sim_tail
  | |- simk _ (emit_now _ _ _) _ _ _ => apply sim_tail
  | |- simk _ (expire_one _ _) _ _ _ => apply sim_tail
  | |- simk _ get_config_internal _ _ _ => apply sim_tail
  | _ => sim_op q_pick q_clean
  end; cbv beta.

Section refinement.
Context (X : External).

Lemma queue_sim_initialize a config e s :
  Rep e s → sim X (initialize a config) e (spec_initialize (ctx_of e) a config s).
Proof. sim_begin. unfold initialize, spec_initialize. repeat q_step. Qed.

Lemma sim_propose_admin a b e s :
  Rep e s → sim X (propose_admin a b) e (spec_propose_admin (ctx_of e) a b s).
Proof. sim_begin. unfold propose_admin, spec_propose_admin, spec_admin. repeat q_step. Qed.

Lemma sim_accept_admin b e s :
  Rep e s → sim X (accept_admin b) e (spec_accept_admin (ctx_of e) b s).
Proof. sim_begin. unfold accept_admin, spec_accept_admin. repeat q_step. Qed.

Lemma sim_open_enrollment a e s :
  Rep e s → sim X (open_enrollment a) e (spec_open_enrollment (ctx_of e) a s).
Proof.
  sim_begin. unfold open_enrollment, spec_open_enrollment, spec_transition, spec_admin.
  repeat q_step.
Qed.

Lemma sim_close_enrollment a e s :
  Rep e s → sim X (close_enrollment a) e (spec_close_enrollment (ctx_of e) a s).
Proof.
  sim_begin. unfold close_enrollment, spec_close_enrollment, spec_transition, spec_admin.
  repeat q_step.
Qed.

Lemma sim_close a e s : Rep e s → sim X (close a) e (spec_close (ctx_of e) a s).
Proof. sim_begin. unfold close, spec_close, spec_transition, spec_admin. repeat q_step. Qed.

Lemma sim_enroll who e s :
  Rep e s → sim X (enroll_position who) e (spec_enroll (ctx_of e) who s).
Proof. sim_begin. unfold enroll_position, spec_enroll, u32_room. cbv zeta. repeat q_step.
Qed.

Lemma sim_cancel who id e s :
  Rep e s → sim X (cancel_position who id) e (spec_cancel (ctx_of e) who id s).
Proof. sim_begin. unfold cancel_position, spec_cancel. repeat q_step. Qed.

Lemma sim_get_position id {A} (f : option Position → prog A) e0 e s evs sp :
  sim_post e0 e s evs →
  (∀ e', sim_post e0 e' s evs → simk X (f (spec_get_position id s)) e0 e' sp) →
  simk X (get_position id ≫= f) e0 e sp.
Proof.
  intros Hp Hf. unfold get_position, spec_get_position in *.
  case_bool_decide; [by apply sim_ret_bind, Hf|].
  repeat q_step; by apply Hf.
Qed.

Lemma sim_expire_one a id e0 e s evs :
  sim_post e0 e s evs →
  simk X (expire_one a id) e0 e (after evs (spec_expire_one (ctx_of e0) a id s)).
Proof.
  intros Hp. apply sim_tail. unfold spec_expire_one. repeat q_step.
Qed.

Lemma sim_expire_each a ids e0 e s evs :
  sim_post e0 e s evs →
  simk X (expire_each a ids) e0 e (after evs (spec_expire_each (ctx_of e0) a ids s)).
Proof.
  revert e s evs. induction ids as [|id ids IH]; intros e s evs Hp.
  - eapply sim_ret; [exact Hp|]. unfold after. simpl. by rewrite app_nil_r.
  - apply sim_seq; [by apply sim_expire_one|]. intros [] s1 evs1 e1. apply IH.
Qed.

Lemma sim_expire_positions_batch a ids e s :
  Rep e s →
  sim X (expire_positions_batch a ids) e
    (spec_expire_guard (ctx_of e) a s ;; spec_expire_each (ctx_of e) a ids s).
Proof.
  sim_begin. unfold expire_positions_batch, spec_expire_guard, spec_admin.
  repeat q_step. rewrite <-(after_nil (spec_expire_each _ _ _ _)). by apply sim_expire_each.
Qed.

Lemma sim_expire_position a id e s :
  Rep e s →
  sim X (expire_position a id) e (spec_expire_guard (ctx_of e) a s ;; spec_expire_one (ctx_of e) a id s).
Proof.
  sim_begin. unfold expire_position, spec_expire_guard, spec_admin, spec_expire_one.
  repeat q_step.
Qed.

(** ** [advance] *)

Lemma advance_positions_nil now m : advance_positions now [] m = m.
Proof.
  apply map_eq. intros id. unfold advance_positions. rewrite map_lookup_imap.
  by destruct (m !! id).
Qed.

(** Serving one position, then the rest. *)
Lemma advance_positions_cons now id ids m p :
  id ∉ ids → m !! id = Some p →
  advance_positions now (id :: ids) m =
  advance_positions now ids
    (if decide (pstatus p = Pending) then <[id := set_advanced now p]> m else m).
Proof.
  intros Hid Hp. apply map_eq. intros id'. unfold advance_positions.
  rewrite !map_lookup_imap. destruct (decide (id = id')) as [<-|Hne].
  - rewrite Hp. simpl. destruct (decide (pstatus p = Pending)) as [Hs|Hs].
    + rewrite lookup_insert_eq. simpl. rewrite decide_True by set_solver.
      by rewrite decide_False by set_solver.
    + rewrite Hp. simpl. by rewrite !decide_False by tauto.
  - assert ((if decide (pstatus p = Pending) then <[id:=set_advanced now p]> m else m) !! id'
            = m !! id') as ->.
    { case_decide; [by rewrite lookup_insert_ne|done]. }
    destruct (m !! id') as [p'|]; [|done]. simpl. f_equal. f_equal.
    apply decide_ext. set_solver.
Qed.

Definition skipped_events (a : ScAddress) (now : Z) (ids : list Z) : list Ev :=
  (λ id, ev "Skipped" id a now) <$> ids.

Lemma has_status_other st s id p id' :
  id ≠ id' → has_status st (q_set_pos id p s) id' ↔ has_status st s id'.
Proof. intros Hne. unfold has_status. simpl. by rewrite lookup_insert_ne. Qed.

Lemma q_set_positions_id s : q_set_positions (q_pos s) s = s.
Proof. by destruct s. Qed.

Lemma filter_has_status_other st s id p (ids : list Z) :
  id ∉ ids → filter (has_status st (q_set_pos id p s)) ids = filter (has_status st s) ids.
Proof.
  intros Hid. apply filter_ext_in. intros id' Hid'. apply has_status_other. set_solver.
Qed.

(** What is left after serving the first id of a window. *)
Lemma serve_first now id (ids : list Z) s p s1 :
  id ∉ ids → q_pos s !! id = Some p →
  s1 = (if decide (pstatus p = Pending) then q_set_pos id (set_advanced now p) s else s) →
  q_set_positions (advance_positions now ids (q_pos s1)) s1 =
    q_set_positions (advance_positions now (id :: ids) (q_pos s)) s ∧
  ∀ st, filter (has_status st s) (id :: ids) =
    (if decide (pstatus p = st) then [id] else []) ++ filter (has_status st s1) ids.
Proof.
  intros Hid Hp ->. split.
  - rewrite (advance_positions_cons now id ids (q_pos s) p) by done. by case_decide.
  - intros st. rewrite list.filter_cons.
    assert (has_status st s id ↔ pstatus p = st) as Hst.
    { unfold has_status. rewrite Hp. simpl. split; congruence. }
    assert (filter (has_status st (if decide (pstatus p = Pending)
              then q_set_pos id (set_advanced now p) s else s)) ids
            = filter (has_status st s) ids) as ->.
    { case_decide; [by apply filter_has_status_other|done]. }
    by destruct (decide (has_status st s id)), (decide (pstatus p = st)); try tauto.
Qed.

Section loop.
Context (a : ScAddress) (total : Z) {A : Type} (f : Z * list Z * list Z → prog A).
Context (e0 : Env) (sp : Outcome A QState).

(** What the loop leaves to its continuation, having served [ids]. *)
Definition loop_served (s : QState) (evs : list Ev) (idx : Z) (adv skip ids : list Z) : Prop :=
  ∀ e', sim_post e0 e'
    (q_set_positions (advance_positions (c_now (ctx_of e0)) ids (q_pos s)) s)
    (evs ++ skipped_events a (c_now (ctx_of e0)) (filter (has_status Cancelled s) ids)) →
  simk X (f (idx + Z.of_nat (length ids), adv ++ filter (has_status Pending s) ids,
             skip ++ filter (has_status Cancelled s) ids)) e0 e' sp.

Lemma loop_done e s evs idx adv skip ids :
  loop_served s evs idx adv skip ids → ids = [] → sim_post e0 e s evs →
  simk X (f (idx, adv, skip)) e0 e sp.
Proof.
  intros Hf -> Hp. specialize (Hf e). rewrite advance_positions_nil, q_set_positions_id in Hf.
  simpl in Hf. rewrite !app_nil_r, Z.add_0_r in Hf. by apply Hf.
Qed.

(** Serving the first id of a window leaves the rest of it to serve. *)
Lemma loop_served_cons s evs idx adv skip ids p s1 :
  loop_served s evs idx adv skip ((idx + 1) :: ids) →
  idx + 1 ∉ ids → q_pos s !! (idx + 1) = Some p →
  s1 = (if decide (pstatus p = Pending)
        then q_set_pos (idx + 1) (set_advanced (c_now (ctx_of e0)) p) s else s) →
  let adv1 := if decide (pstatus p = Pending) then [idx + 1] else [] in
  let skip1 := if decide (pstatus p = Cancelled) then [idx + 1] else [] in
  loop_served s1 (evs ++ skipped_events a (c_now (ctx_of e0)) skip1) (idx + 1)
    (adv ++ adv1) (skip ++ skip1) ids.
Proof.
  intros Hf Hid Hp Hs1 adv1 skip1 e' He'.
  destruct (serve_first (c_now (ctx_of e0)) (idx + 1) ids s p s1 Hid Hp Hs1) as [Hq Hfil].
  rewrite Hq in He'. specialize (Hf e'). rewrite !Hfil in Hf. cbn [length] in Hf.
  unfold skipped_events in *. rewrite fmap_app in Hf. rewrite <-!app_assoc in *.
  replace (idx + Z.of_nat (S (length ids))) with (idx + 1 + Z.of_nat (length ids)) in Hf by lia.
  by apply Hf.
Qed.

Lemma sim_advance_loop n :
  total < u32_max → ∀ e s evs idx adv skip,
  0 <= idx → (∀ id, 1 <= id <= total → is_Some (q_pos s !! id)) →
  sim_post e0 e s evs →
  loop_served s evs idx adv skip (seqZ (idx + 1) (Z.min (Z.of_nat n) (total - idx))) →
  simk X (advance_loop a total n idx adv skip ≫= f) e0 e sp.
Proof.
  intros Htot. induction n as [|n IH]; intros e s evs idx adv skip Hidx Hpos Hp Hf.
  { apply sim_ret_bind. eapply loop_done; [exact Hf|apply seqZ_nil; lia|done]. }
  cbn [advance_loop]. case_bool_decide as Hle.
  { apply sim_ret_bind. eapply loop_done; [exact Hf|apply seqZ_nil; lia|done]. }
  destruct (Hpos (idx + 1) ltac:(lia)) as [p Hpp].
  rewrite seqZ_cons in Hf by lia.
  replace (seqZ (Z.succ (idx + 1)) (Z.pred (Z.of_nat (S n) `min` (total - idx))))
    with (seqZ (idx + 1 + 1) (Z.min (Z.of_nat n) (total - (idx + 1)))) in Hf by (f_equal; lia).
  assert (idx + 1 ∉ seqZ (idx + 1 + 1) (Z.min (Z.of_nat n) (total - (idx + 1)))) as Hid
    by (rewrite elem_of_seqZ; lia).
  apply sim_assoc, sim_u32_add_ok; [lia|].
  apply sim_assoc. eapply sim_get_position; [exact Hp|]. clear e Hp. intros e Hp.
  unfold spec_get_position. rewrite bool_decide_false, Hpp by lia.
  pose proof (loop_served_cons _ _ _ _ _ _ _ _ Hf Hid Hpp eq_refl) as Hf1.
  apply sim_assoc.
  destruct (pstatus p) eqn:Hstatus; simpl in Hf1; rewrite ?app_nil_r in Hf1;
    repeat q_step; (apply sim_u32_add_ok; [lia|]); cbn [fst snd];
    (eapply IH; [lia| |eassumption|exact Hf1]); [|done..].
  intros id Hidt. simpl. apply lookup_insert_is_Some'. right. by apply Hpos.
Qed.
End loop.

Lemma sim_emit_advanced a ids {A} (f : unit → prog A) e0 sp :
  ∀ e s evs, sim_post e0 e s evs →
  (∀ e', sim_post e0 e' s (evs ++ ((λ id, ev "Advanced" id a (c_now (ctx_of e0))) <$> ids)) →
    simk X (f tt) e0 e' sp) →
  simk X (emit_advanced a ids ≫= f) e0 e sp.
Proof.
  induction ids as [|id ids IH]; intros e s evs Hp Hf; simpl in Hf.
  - rewrite app_nil_r in Hf. apply sim_ret_bind. by apply Hf.
  - cbn [emit_advanced]. repeat q_step. eapply IH; [exact Hp|].
    intros e' He'. rewrite <-app_assoc in He'. by apply Hf.
Qed.

Lemma window_nat s n :
  seqZ (idx_of s + 1) (Z.min (Z.of_nat (Z.to_nat n)) (u32_saturating_sub (next_id_of s) 1 - idx_of s))
  = window s n.
Proof. unfold window, seqZ. do 2 f_equal. lia. Qed.

Lemma sim_advance a n e s :
  Rep e s → dense s → sim X (advance a n) e (spec_advance (ctx_of e) a n s).
Proof.
  intros Hr [Hidx Hnext Hpos]. revert Hr. sim_begin.
  unfold advance, spec_advance, spec_admin. repeat q_step.
  destruct (advancement_rule q); [|by apply sim_fail..].
  repeat q_step. eapply (sim_advance_loop a); [| |intros id Hid; apply Hpos|exact Hp|];
    [unfold u32_saturating_sub, clamp, u32_max in *; lia..|].
  rewrite window_nat. intros e2 Hp2. cbv beta iota. clear e1 Hp.
  rename e2 into e1, Hp2 into Hp. cbn [app].
  set (adv := filter _ _). clearbody adv.
  q_step. rewrite !app_nil_l in *.
  destruct (bool_decide (adv ≠ [] ∧ status q = EnrollmentClosed)); repeat q_step;
    (eapply sim_emit_advanced; [exact Hp|]); clear e1 Hp; intros e1 Hp; repeat q_step.
Qed.

Lemma sim_upgrade a h e s : Rep e s → sim X (upgrade a h) e (spec_upgrade (ctx_of e) a s).
Proof. sim_begin. unfold upgrade, spec_upgrade, spec_auth_admin. repeat q_step. Qed.

Lemma sim_migrate a from to e s :
  Rep e s → sim X (migrate a from to) e (spec_migrate (ctx_of e) a from to s).
Proof. sim_begin. unfold migrate, spec_migrate, spec_auth_admin. repeat q_step. Qed.

Lemma sim_total_enrolled e s :
  Rep e s → sim X total_enrolled e (read s (spec_total_enrolled s)).
Proof.
  sim_begin. unfold total_enrolled, spec_total_enrolled, read. repeat q_step.
  unfold u32_sub.
  destruct (decide (1 <= next_id_of s)); [eapply sim_ret|apply sim_fail];
    [exact Hp|by rewrite bool_decide_false by lia|by rewrite bool_decide_true by lia].
Qed.

Lemma queue_sim_get_config e s :
  Rep e s → sim X get_config e (read s (expect (q_config s) "queue not initialized")).
Proof. sim_begin. unfold get_config, read. repeat q_step. Qed.

Lemma sim_current_position_index e s :
  Rep e s → sim X current_position_index e (read s (Ok (idx_of s))).
Proof. sim_begin. apply sim_tail. unfold current_position_index. repeat q_step. Qed.

Lemma sim_active_enrolled e s :
  Rep e s → sim X active_enrolled e (read s (Ok (active_of s))).
Proof. sim_begin. apply sim_tail. unfold active_enrolled. repeat q_step. Qed.

Lemma sim_position id e s :
  Rep e s → sim X (get_position id) e (read s (Ok (spec_get_position id s))).
Proof.
  sim_begin. apply sim_tail. eapply sim_get_position; [exact Hp|].
  intros e2 Hp2. by eapply sim_ret.
Qed.

Create HintDb qsim.
Hint Resolve queue_sim_initialize sim_propose_admin sim_accept_admin sim_open_enrollment
  sim_close_enrollment sim_close sim_enroll sim_cancel sim_advance sim_upgrade sim_migrate
  sim_expire_position sim_expire_positions_batch sim_total_enrolled queue_sim_get_config
  sim_current_position_index sim_active_enrolled sim_position : qsim.

Lemma queue_sim_exec c e s : Rep e s → dense s → sim X (exec c) e (spec (ctx_of e) c s).
Proof.
  intros Hr Hd. unfold sim.
  destruct c; cbn [exec spec]; (apply sim_then || apply sim_fmap);
    match goal with |- simk _ ?p ?e ?e ?q => change (sim X p e q) end; auto with qsim.
Qed.
End refinement.
