(* ===== verification/QueueProps.v ===== *)
(** The queue's abstract machine: every successful call as a sequence of atomic
    changes, the invariant these keep, and the order they never go back on. *)
From S2P Require Import Prelude ScVal Storage Host Env Sim Queue QueueSpec.
Import Queue.

(** * The lifecycle as an order *)

Definition rank (st : QueueStatus) : Z :=
  match st with
  | Draft => 0 | EnrollmentOpen => 1 | EnrollmentClosed => 2 | AdvancementActive => 3
  | Closed => 4
  end.

(** * Atomic changes

    Every successful call but [initialize] is a sequence of these. *)
Inductive q_change : QState → QState → Prop :=
| ch_pending o s : q_change s (q_set_pending o s)
| ch_version v s : version_of s < v → q_change s (q_set_version v s)
| ch_admin a c s : q_config s = Some c → q_change s (q_set_config (set_admin a c) s)
| ch_status st c s : q_config s = Some c → rank (status c) < rank st →
    q_change s (q_set_config (set_status st c) s)
| ch_enroll c who now s : q_config s = Some c → status c = EnrollmentOpen →
    active_of s < max_positions c → next_id_of s + 1 <= u32_max →
    q_change s (q_set_active (active_of s + 1) (q_set_next_id (next_id_of s + 1)
      (q_set_pos (next_id_of s) (mkPosition (next_id_of s) now who Pending None None) s)))
| ch_cancel id p s : q_pos s !! id = Some p → pstatus p = Pending →
    q_change s (q_set_active (u32_saturating_sub (active_of s) 1)
      (q_set_pos id (set_pstatus Cancelled p) s))
| ch_expire id p s : q_pos s !! id = Some p → pstatus p = Pending →
    q_change s (q_set_pos id (set_pstatus Expired p) s)
| ch_advance c now n s : q_config s = Some c →
    (status c = EnrollmentClosed ∨ status c = AdvancementActive) →
    q_change s (q_set_idx (idx_of s + Z.of_nat (length (window s n)))
      (q_set_positions (advance_positions now (window s n) (q_pos s)) s)).

Lemma spec_admin_ok cx a s c :
  spec_admin cx a s = Ok c ↔ q_config s = Some c ∧ admin c = a ∧ a ∈ c_auths cx.
Proof.
  unfold spec_admin. split.
  - intros (c' & Hc & ([] & Hr & ([] & Ha & ?)%bind_ok)%bind_ok)%bind_ok. simplify_eq.
    apply expect_ok in Hc. apply reject_if_ok, bool_decide_eq_false in Hr.
    apply auth_ok in Ha. split_and!; [done| |done]. by apply dec_stable.
  - intros (Hc & <- & Ha). rewrite Hc. sp_eval. rewrite bool_decide_false by auto. sp_eval. by rewrite (proj2 (auth_ok _ _) Ha).
Qed.

Lemma spec_auth_admin_ok cx a msg s c :
  spec_auth_admin cx a msg s = Ok c ↔ q_config s = Some c ∧ admin c = a ∧ a ∈ c_auths cx.
Proof.
  unfold spec_auth_admin. split.
  - intros ([] & Ha & (c' & Hc & ([] & Hr & ?)%bind_ok)%bind_ok)%bind_ok. simplify_eq.
    apply expect_ok in Hc. apply reject_if_ok, bool_decide_eq_false in Hr. apply auth_ok in Ha.
    split_and!; [done| |done]. by apply dec_stable.
  - intros (Hc & <- & Ha). rewrite (proj2 (auth_ok _ _) Ha), Hc. sp_eval.
    by rewrite bool_decide_false by auto.
Qed.

(** Takes a successful specified call apart into its guards. *)
Ltac spec_inv :=
  repeat match goal with
  | H : spec_admin _ _ _ = Ok _ |- _ => apply spec_admin_ok in H as (? & ? & ?)
  | H : spec_auth_admin _ _ _ _ = Ok _ |- _ => apply spec_auth_admin_ok in H as (? & ? & ?)
  | H : (_ ≫= _) = Ok _ |- _ => apply bind_ok in H as (? & ? & ?)
  | H : expect _ _ = Ok _ |- _ => apply expect_ok in H
  | H : reject_if _ _ = Ok _ |- _ => apply reject_if_ok in H
  | H : bool_decide _ = false |- _ => apply bool_decide_eq_false in H
  | H : auth _ ?a = Ok _ |- _ => apply auth_ok in H
  | H : unit_out _ = Ok _ |- _ => apply fmap_ok in H as (? & ? & ?)
  | H : val_out _ _ = Ok _ |- _ => apply fmap_ok in H as (? & ? & ?)
  | H : read _ _ = Ok _ |- _ => apply fmap_ok in H as (? & ? & ?)
  | H : then_spec _ _ = Ok _ |- _ => apply bind_ok in H as (? & ? & ?)
  | x : unit |- _ => destruct x
  | H : Ok _ = Ok _ |- _ => injection H as H; subst
  | H : (_, _) = (_, _) |- _ => injection H as H; subst
  end; simplify_eq/=.

Definition not_initialize (c : Call) : Prop :=
  match c with CInitialize _ _ => False | _ => True end.

Lemma expire_one_change cx a id s r :
  spec_expire_one cx a id s = Ok r → q_change s r.1.2.
Proof. unfold spec_expire_one. intros. spec_inv. apply ch_expire; [done|by apply dec_stable]. Qed.

Lemma expire_each_changes cx a ids s r :
  spec_expire_each cx a ids s = Ok r → rtc q_change s r.1.2.
Proof.
  revert s r. induction ids as [|id ids IH]; intros s r; simpl; intros; [by spec_inv|].
  spec_inv. eapply rtc_l; [by eapply expire_one_change|]. by eapply IH.
Qed.

Lemma transition_change cx a bad msg kind target s r :
  spec_transition cx a bad msg kind target s = Ok r →
  (∀ st, bad st = false → rank st < rank target) → rtc q_change s r.1.2.
Proof.
  unfold spec_transition. intros Hs Hbad. spec_inv.
  apply rtc_once. eapply ch_status; [done|]. by apply Hbad.
Qed.

Lemma advance_changes cx a n s r :
  spec_advance cx a n s = Ok r → rtc q_change s r.1.2.
Proof.
  unfold spec_advance. intros Hs. spec_inv.
  match goal with H : q_config s = Some ?x |- _ => rename x into c end.
  destruct (advancement_rule c); [|done..]. spec_inv.
  assert (status c = EnrollmentClosed ∨ status c = AdvancementActive) as Hst
    by (destruct (status c); naive_solver).
  eapply rtc_l; [by eapply ch_advance|]. case_bool_decide as Hb; [|done].
  apply rtc_once. eapply ch_status; [done|]. destruct Hb as [_ ->]. done.
Qed.

Lemma spec_changes cx c s a s' evs :
  not_initialize c → spec cx c s = Ok (a, s', evs) → rtc q_change s s'.
Proof.
  intros Hc Hs. destruct c; simpl in Hs; try done;
    try (unfold spec_upgrade in Hs; spec_inv; done).
  - unfold spec_propose_admin in Hs. spec_inv. apply rtc_once, ch_pending.
  - unfold spec_accept_admin in Hs. spec_inv.
    eapply rtc_l; [by apply ch_admin|]. apply rtc_once, ch_pending.
  - spec_inv. eapply transition_change; [done|]. by intros [].
  - spec_inv. eapply transition_change; [done|]. by intros [].
  - unfold spec_enroll, u32_room in Hs. spec_inv. apply rtc_once.
    eapply ch_enroll; [done|by apply dec_stable|lia..].
  - unfold spec_cancel in Hs. spec_inv. apply rtc_once, ch_cancel; [done|by apply dec_stable].
  - spec_inv. by eapply advance_changes.
  - unfold spec_expire_guard in Hs. spec_inv. by eapply rtc_once, expire_one_change.
  - unfold spec_expire_guard in Hs. spec_inv. by eapply expire_each_changes.
  - spec_inv. eapply transition_change; [done|]. by intros [].
  - unfold spec_migrate in Hs. spec_inv. apply rtc_once, ch_version. lia.
Qed.

(** * Access control *)

(** Without the administrator's or the proposed administrator's signature, a call
    leaves the configuration alone and touches only positions of its signers. *)
Lemma spec_access cx c s a s' evs cfg :
  not_initialize c → spec cx c s = Ok (a, s', evs) → dense s → q_pos s !! next_id_of s = None →
  q_config s = Some cfg → admin cfg ∉ c_auths cx →
  (∀ p, q_pending s = Some p → p ∉ c_auths cx) →
  q_config s' = Some cfg ∧
  ∀ i p, q_pos s !! i = Some p → identity p ∉ c_auths cx → q_pos s' !! i = Some p.
Proof.
  intros Hc Hs Hdense Hfresh Hcfg Hadmin Hpending. destruct c; simpl in Hs; try done;
    unfold spec_propose_admin, spec_accept_admin, spec_open_enrollment, spec_close_enrollment,
      spec_close, spec_transition, spec_advance, spec_expire_guard, spec_upgrade, spec_migrate,
      spec_enroll, spec_cancel in Hs; spec_inv; try done.
  - match goal with H : ¬ (?p ≠ ?q) |- _ => apply dec_stable in H; subst p end.
    by destruct (Hpending proposed_admin).
  - split; [done|]. intros i p Hp _. rewrite lookup_insert_ne; [done|]. congruence.
  - split; [done|]. intros i p Hp Hid. rewrite lookup_insert_ne; [done|]. intros ->.
    simplify_eq. match goal with H : ¬ (?p ≠ ?q) |- _ => by apply dec_stable in H; subst end.
Qed.

(** * Batch expiry *)

Definition expire_positions (ids : list Z) (m : gmap Z Position) : gmap Z Position :=
  map_imap (λ id p, Some (if decide (id ∈ ids) then set_pstatus Expired p else p)) m.

Lemma lookup_expire_positions ids m id :
  expire_positions ids m !! id =
  (λ p, if decide (id ∈ ids) then set_pstatus Expired p else p) <$> m !! id.
Proof. unfold expire_positions. rewrite map_lookup_imap. by destruct (m !! id). Qed.

(** The condition under which a batch expires. *)
Definition batch_ok (ids : list Z) (s : QState) : Prop :=
  NoDup ids ∧ Forall (has_status Pending s) ids.

Lemma batch_ok_cons id ids p s :
  q_pos s !! id = Some p → pstatus p = Pending →
  batch_ok (id :: ids) s ↔ batch_ok ids (q_set_pos id (set_pstatus Expired p) s).
Proof.
  intros Hp Hst. unfold batch_ok.
  assert (Hpend : ∀ i, has_status Pending (q_set_pos id (set_pstatus Expired p) s) i ↔
    has_status Pending s i ∧ i ≠ id).
  { intros i. unfold has_status; simpl. destruct (decide (id = i)) as [<-|].
    - rewrite lookup_insert_eq. simpl. naive_solver.
    - rewrite lookup_insert_ne by done. naive_solver. }
  rewrite NoDup_cons, Forall_cons, !Forall_forall. setoid_rewrite Hpend.
  split; [|intros [Hnd Hf]].
  - intros [[Hid Hnd] [_ Hf]]. split; [done|]. intros i Hi. split; [by apply Hf|]. by intros ->.
  - split; [split; [|done]|split; [|intros i Hi; by apply Hf]].
    + intros Hid. by destruct (Hf id Hid).
    + unfold has_status. rewrite Hp. simpl. by f_equal.
Qed.

Lemma expire_positions_cons id ids p s :
  q_pos s !! id = Some p → id ∉ ids →
  expire_positions ids (<[id := set_pstatus Expired p]> (q_pos s)) =
  expire_positions (id :: ids) (q_pos s).
Proof.
  intros Hp Hid. apply map_eq. intros i.
  rewrite !lookup_expire_positions. destruct (decide (id = i)) as [<-|Hne].
  - rewrite lookup_insert_eq, Hp. simpl. f_equal.
    rewrite decide_False by done. by rewrite decide_True by left.
  - rewrite lookup_insert_ne by done. destruct (q_pos s !! i); [|done]. simpl. f_equal.
    destruct (decide (i ∈ ids)) as [Hi|Hi]; [by rewrite decide_True by (by right)|].
    rewrite decide_False; [done|]. intros [->|?]%elem_of_cons; done.
Qed.

(** All or nothing: distinct pending positions expire together, otherwise the
    call panics. *)
Lemma spec_expire_each_cases cx a ids s :
  (batch_ok ids s ∧
   spec_expire_each cx a ids s =
     Ok (tt, q_set_positions (expire_positions ids (q_pos s)) s,
         (λ id, ev "Expired" id a (c_now cx)) <$> ids)) ∨
  (¬ batch_ok ids s ∧ ∃ msg, spec_expire_each cx a ids s = Err (EPanic msg)).
Proof.
  revert s. induction ids as [|id ids IH]; intros s; simpl.
  - left. split; [split; constructor|]. do 3 f_equal.
    destruct s; unfold q_set_positions; simpl. f_equal. apply map_eq. intros i.
    rewrite lookup_expire_positions. by destruct (_ !! i).
  - unfold then_spec, spec_expire_one. simpl.
    destruct (q_pos s !! id) as [p|] eqn:Hp; simpl;
      [|right; split; [|by eexists]; intros [_ [Hs _]%Forall_cons];
        unfold has_status in Hs; by rewrite Hp in Hs].
    case_bool_decide as Hst; simpl.
    { right. split; [|by eexists]. intros [_ [Hs _]%Forall_cons].
      unfold has_status in Hs. rewrite Hp in Hs. by simplify_eq/=. }
    pose proof (batch_ok_cons id ids p s Hp Hst) as Hall.
    destruct (IH (q_set_pos id (set_pstatus Expired p) s)) as [(Hok & ->)|(Hn & msg & ->)]; simpl.
    + left. apply Hall in Hok. split; [done|]. do 3 f_equal.
      unfold q_set_positions; simpl. f_equal. apply expire_positions_cons; [done|].
      by destruct Hok as [[? _]%NoDup_cons _].
    + right. split; [by rewrite Hall|]. by eexists.
Qed.

(** * The invariant *)

(** The ids that occupy a capacity slot. *)
Definition active_ids (s : QState) : list Z :=
  filter (λ id, ¬ has_status Cancelled s id) (seqZ 1 (next_id_of s - 1)).

Record queue_inv (s : QState) : Prop := {
  qi_config : ∃ c, q_config s = Some c ∧
    (* the served ids are of a closed enrollment, and capacity is respected *)
    (0 < idx_of s → rank EnrollmentClosed <= rank (status c)) ∧
    active_of s <= max_positions c;
  qi_idx : 0 <= idx_of s < next_id_of s;
  qi_next : next_id_of s <= u32_max;
  qi_dom : ∀ id, is_Some (q_pos s !! id) ↔ 1 <= id < next_id_of s;
  qi_pos : ∀ id p, q_pos s !! id = Some p →
    position_id p = id ∧ (is_Some (advanced_at p) ↔ pstatus p = Advanced) ∧
    (id <= idx_of s → pstatus p ≠ Pending) ∧ (idx_of s < id → pstatus p ≠ Advanced);
  qi_active : active_of s = Z.of_nat (length (active_ids s))
}.

Lemma queue_inv_dense s : queue_inv s → dense s.
Proof. intros [? ? ? Hd _ _]. split; [lia|lia|]. intros. by apply Hd. Qed.

Lemma window_elem s n id :
  queue_inv s → id ∈ window s n ↔ idx_of s < id ∧ id <= idx_of s + n ∧ id < next_id_of s.
Proof.
  intros [_ Hidx Hnext _ _ _]. unfold window. rewrite elem_of_seqZ.
  unfold u32_saturating_sub, clamp, u32_max in *. lia.
Qed.

Lemma window_length s n :
  queue_inv s → Z.of_nat (length (window s n)) = Z.max 0 (Z.min n (next_id_of s - 1 - idx_of s)).
Proof.
  intros [_ Hidx Hnext _ _ _]. unfold window. rewrite length_seqZ.
  unfold u32_saturating_sub, clamp, u32_max in *. lia.
Qed.

Lemma lookup_advance_positions now ids m id :
  advance_positions now ids m !! id =
  (λ p, if decide (id ∈ ids ∧ pstatus p = Pending) then set_advanced now p else p) <$> m !! id.
Proof. unfold advance_positions. rewrite map_lookup_imap. by destruct (m !! id). Qed.

(** Arithmetic on the counters of an updated state. *)
Ltac q_lia := unfold active_of, idx_of, next_id_of in *; cbn in *; lia.

(** The condition [qi_pos] puts on one position. *)
Definition pos_ok (s : QState) (id : Z) (p : Position) : Prop :=
  position_id p = id ∧ (is_Some (advanced_at p) ↔ pstatus p = Advanced) ∧
  (id <= idx_of s → pstatus p ≠ Pending) ∧ (idx_of s < id → pstatus p ≠ Advanced).

Lemma queue_inv_config c s :
  queue_inv s → ∀ c0, q_config s = Some c0 → max_positions c = max_positions c0 →
  rank (status c0) <= rank (status c) → queue_inv (q_set_config c s).
Proof.
  intros [(c1 & Hc1 & Hphase & Hcap) Hidx Hnext Hdom Hpos Hact] c0 Hc0 Hmax Hrank. simplify_eq.
  split; try done. exists c. split_and!; [done| |].
  - intros Hi. specialize (Hphase Hi). lia.
  - rewrite Hmax. exact Hcap.
Qed.

Lemma queue_inv_enroll c who now s :
  queue_inv s → q_config s = Some c → status c = EnrollmentOpen →
  active_of s < max_positions c → next_id_of s + 1 <= u32_max →
  queue_inv (q_set_active (active_of s + 1) (q_set_next_id (next_id_of s + 1)
      (q_set_pos (next_id_of s) (mkPosition (next_id_of s) now who Pending None None) s))).
Proof.
  intros [(c0 & Hc0 & Hphase & Hcap) Hidx Hnext Hdom Hpos Hact] Hc Hst Hroom Hmax. simplify_eq.
  assert (Hfresh : q_pos s !! next_id_of s = None).
  { apply eq_None_not_Some. rewrite Hdom. lia. }
  split; try q_lia.
  - exists c0. split_and!; [done|done|q_lia].
  - intros id. cbn. rewrite lookup_insert_is_Some', Hdom. q_lia.
  - intros id p. cbn. intros [[<- <-]|[Hne Hp]]%lookup_insert_Some; [|by apply Hpos].
    split_and!; try done; [split; [by intros []|done]|].
    change (next_id_of s <= idx_of s → Pending ≠ Pending). lia.
  - set (s1 := q_set_active _ _).
    assert (Hn1 : next_id_of s1 = (next_id_of s - 1) + 1 + 1) by (cbn; lia).
    change (active_of s1) with (active_of s + 1). rewrite Hact. unfold active_ids.
    rewrite Hn1, Z.add_simpl_r, seqZ_snoc by lia. rewrite list.filter_app, length_app.
    replace (1 + (next_id_of s - 1)) with (next_id_of s) by lia.
    rewrite list.filter_cons, decide_True by (unfold has_status; cbn; by rewrite lookup_insert_eq).
    rewrite (filter_ext_in (λ id, ¬ has_status Cancelled s1 id) (λ id, ¬ has_status Cancelled s id));
      [cbn; lia|].
    intros id Hid%elem_of_seqZ. unfold has_status; cbn. by rewrite lookup_insert_ne by lia.
Qed.

(** Changing the status of one pending position. *)
Lemma queue_inv_set_pos id p st s :
  queue_inv s → q_pos s !! id = Some p → pstatus p = Pending → st ≠ Pending → st ≠ Advanced →
  let s1 := q_set_pos id (set_pstatus st p) s in
  queue_inv (if decide (st = Cancelled)
             then q_set_active (u32_saturating_sub (active_of s) 1) s1 else s1).
Proof.
  intros [(c & Hc & Hphase & Hcap) Hidx Hnext Hdom Hpos Hact] Hp Hpend Hst Hst' s1.
  destruct (Hpos id p Hp) as (Hid & Hadv & Hserved & _).
  assert (Hin : 1 <= id < next_id_of s) by (apply Hdom; eauto).
  assert (Hdom' : ∀ id', is_Some (q_pos s1 !! id') ↔ 1 <= id' < next_id_of s).
  { intros id'. cbn. rewrite lookup_insert_is_Some', Hdom. q_lia. }
  assert (Hpos' : ∀ id' p', q_pos s1 !! id' = Some p' → pos_ok s id' p').
  { intros id' p'. cbn. intros [[<- <-]|[Hne Hp']]%lookup_insert_Some; [|by apply Hpos].
    unfold pos_ok; cbn. split_and!; [done| |done|done]. rewrite Hadv, Hpend. by split. }
  case_decide as Hcan.
  - subst st. assert (length (active_ids s) = S (length (active_ids s1))) as Hlen.
    { unfold active_ids. apply (length_filter_remove _ _ _ id).
      - apply NoDup_seqZ.
      - apply elem_of_seqZ. lia.
      - unfold has_status. rewrite Hp. simpl. congruence.
      - unfold has_status. cbn. rewrite lookup_insert_eq. naive_solver.
      - intros id' Hne. unfold has_status. cbn. by rewrite lookup_insert_ne. }
    assert (active_of s <= u32_max) as Hu.
    { rewrite Hact. unfold active_ids.
      pose proof (length_filter (λ i, ¬ has_status Cancelled s i) (seqZ 1 (next_id_of s - 1))) as Hl.
      rewrite length_seqZ in Hl. lia. }
    assert (u32_saturating_sub (active_of s) 1 = active_of s - 1) as Hsub
      by (unfold u32_saturating_sub; apply clamp_id; lia).
    split; try done.
    + exists c. split_and!; [done|done|q_lia].
    + change (u32_saturating_sub (active_of s) 1 = Z.of_nat (length (active_ids s1))). lia.
  - split; try done; [by exists c|]. change (active_of s1) with (active_of s).
    rewrite Hact. f_equal.
    unfold active_ids. f_equal. apply filter_ext_in. intros id' _. unfold has_status; cbn.
    destruct (decide (id = id')) as [<-|]; [|by rewrite lookup_insert_ne].
    rewrite lookup_insert_eq, Hp. simpl. rewrite Hpend. naive_solver.
Qed.

Lemma queue_inv_advance c now n s :
  queue_inv s → q_config s = Some c →
  (status c = EnrollmentClosed ∨ status c = AdvancementActive) →
  queue_inv (q_set_idx (idx_of s + Z.of_nat (length (window s n)))
      (q_set_positions (advance_positions now (window s n) (q_pos s)) s)).
Proof.
  intros Hinv Hc Hst.
  pose proof Hinv as [(c0 & Hc0 & Hphase & Hcap) Hidx Hnext Hdom Hpos Hact]. simplify_eq.
  pose proof (window_length s n Hinv) as Hlen.
  split; try q_lia.
  - exists c. split_and!; [done| |done]. intros _. by destruct Hst as [-> | ->].
  - intros id. cbn. rewrite lookup_advance_positions, fmap_is_Some. apply Hdom.
  - intros id p'. cbn. rewrite lookup_advance_positions.
    intros (p & Hp & ->)%fmap_Some. destruct (Hpos id p Hp) as (Hid & Hadv & Hser & Hun).
    pose proof (window_elem s n id Hinv) as Hw.
    assert (1 <= id < next_id_of s) by (apply Hdom; eauto).
    destruct (decide (id ∈ window s n ∧ pstatus p = Pending)) as [[Hin _]|Hd]; cbn.
    + apply Hw in Hin. split; [done|]. split; [by split; [|eauto]|]. split; [done|lia].
    + split; [done|]. split; [done|]. split; [|intros Hlt; apply Hun; lia].
      intros Hle Hpend. apply Hd. split; [|done]. apply Hw.
      destruct (decide (id <= idx_of s)); [by apply Hser in Hpend|lia].
  - cbn. change (active_of s = Z.of_nat (length (filter (λ id, ¬ has_status Cancelled
      (q_set_positions (advance_positions now (window s n) (q_pos s)) s) id)
      (seqZ 1 (next_id_of s - 1))))).
    rewrite Hact. f_equal. unfold active_ids. f_equal. apply filter_ext_in. intros id _.
    unfold has_status; cbn. rewrite lookup_advance_positions.
    destruct (q_pos s !! id) as [p|]; [|done]. simpl. case_decide as Hd; [|done].
    destruct Hd as [_ ->]. done.
Qed.

Lemma queue_inv_change s s' : q_change s s' → queue_inv s → queue_inv s'.
Proof.
  intros Hch Hinv. destruct Hch.
  - destruct Hinv. by split.
  - destruct Hinv. by split.
  - by eapply queue_inv_config.
  - eapply queue_inv_config; [done..|]. simpl. lia.
  - by eapply queue_inv_enroll.
  - by apply (queue_inv_set_pos id p Cancelled).
  - by apply (queue_inv_set_pos id p Expired).
  - by eapply queue_inv_advance.
Qed.

Lemma queue_inv_changes s s' : rtc q_change s s' → queue_inv s → queue_inv s'.
Proof. induction 1; eauto using queue_inv_change. Qed.

Lemma queue_inv_initialize cx a c v s evs :
  spec cx (CInitialize a c) q_empty = Ok (v, s, evs) → 0 <= max_positions c → queue_inv s.
Proof.
  intros Hs Hmax. simpl in Hs. unfold spec_initialize in Hs. spec_inv. split; cbn.
  - exists c. split_and!; [done| |done]. intros Hlt. unfold idx_of in Hlt. simpl in Hlt. lia.
  - unfold idx_of, next_id_of; simpl. lia.
  - unfold next_id_of, u32_max; simpl. lia.
  - intros id. rewrite lookup_empty. unfold next_id_of; simpl. split; [by intros []|lia].
  - done.
  - done.
Qed.

(** * What never goes back *)

(** [p'] is what may become of position [p]: the same person and place, and no
    change at all once it is decided. *)
Definition pos_after (p p' : Position) : Prop :=
  position_id p' = position_id p ∧ identity p' = identity p ∧
  enrolled_at p' = enrolled_at p ∧ priority_weight p' = priority_weight p ∧
  (pstatus p ≠ Pending → p' = p).

Definition config_after (c c' : QueueConfig) : Prop :=
  slug c' = slug c ∧ name c' = name c ∧ max_positions c' = max_positions c ∧
  enrollment_open c' = enrollment_open c ∧ enrollment_close c' = enrollment_close c ∧
  version c' = version c ∧ advancement_rule c' = advancement_rule c ∧
  rank (status c) <= rank (status c').

Lemma config_after_eq c c' :
  config_after c c' → c' = set_admin (admin c') (set_status (status c') c).
Proof.
  destruct c', c. unfold config_after, set_admin, set_status; simpl. intros. destruct_and!. congruence.
Qed.

Record q_after (s s' : QState) : Prop := {
  qa_idx : idx_of s <= idx_of s';
  qa_next : next_id_of s <= next_id_of s';
  qa_version : version_of s <= version_of s';
  qa_config : ∀ c, q_config s = Some c → ∃ c', q_config s' = Some c' ∧ config_after c c';
  qa_frozen : ∀ c, q_config s = Some c → rank EnrollmentClosed <= rank (status c) →
    next_id_of s' = next_id_of s;
  qa_pos : ∀ id p, q_pos s !! id = Some p → ∃ p', q_pos s' !! id = Some p' ∧ pos_after p p'
}.

#[export] Instance pos_after_preorder : PreOrder pos_after.
Proof.
  split; [by intros p|]. intros p1 p2 p3 (?&?&?&?&H12) (?&?&?&?&H23).
  split_and!; [congruence..|]. intros Hp. rewrite H23; [by apply H12|]. by rewrite H12.
Qed.

#[export] Instance config_after_preorder : PreOrder config_after.
Proof.
  split; [by intros c; split_and!|].
  intros c1 c2 c3 (?&?&?&?&?&?&?&?) (?&?&?&?&?&?&?&?). split_and!; try congruence. lia.
Qed.

#[export] Instance q_after_preorder : PreOrder q_after.
Proof.
  split.
  - intros s. split; try done; intros; eexists; by split.
  - intros s1 s2 s3 [Hi Hn Hv Hc Hf Hp] [Hi' Hn' Hv' Hc' Hf' Hp']. split; try lia.
    + intros c Hcc. destruct (Hc c Hcc) as (c2 & Hc2 & H12).
      destruct (Hc' c2 Hc2) as (c3 & Hc3 & H23). exists c3. split; [done|]. by etrans.
    + intros c Hcc Hr. rewrite <-(Hf c Hcc Hr). destruct (Hc c Hcc) as (c2 & Hc2 & H12).
      apply (Hf' c2 Hc2). destruct H12 as (_&_&_&_&_&_&_&?). lia.
    + intros id p Hpp. destruct (Hp id p Hpp) as (p2 & Hp2 & H12).
      destruct (Hp' id p2 Hp2) as (p3 & Hp3 & H23). exists p3. split; [done|]. by etrans.
Qed.

Lemma pos_after_status st p : pstatus p = Pending → pos_after p (set_pstatus st p).
Proof. intros Hp. split_and!; done. Qed.

Lemma pos_after_insert (m : gmap Z Position) id p p' :
  m !! id = Some p → pos_after p p' →
  ∀ i q, m !! i = Some q → ∃ q', <[id := p']> m !! i = Some q' ∧ pos_after q q'.
Proof.
  intros Hp Hpp i q Hq. destruct (decide (id = i)) as [<-|].
  - exists p'. rewrite lookup_insert_eq. simplify_eq. done.
  - exists q. rewrite lookup_insert_ne by done. done.
Qed.

(** Splits [q_after] and settles what the change does not touch. *)
Ltac q_after_cases :=
  split; unfold idx_of, next_id_of, version_of in *; cbn in *;
  [ try lia | try lia | try lia
  | intros ? ?; simplify_eq; eexists; split; [done|]; try reflexivity
  | intros ? ? ?; simplify_eq; try done
  | try (intros ? q ?; exists q; done) ].

Lemma q_change_after s s' : q_change s s' → queue_inv s → q_after s s'.
Proof.
  intros Hch Hinv. pose proof Hinv as [_ Hidx _ Hdom _ _].
  destruct Hch as [| | | |c who now s Hc Hst _ _|id p s Hp Hpend|id p s Hp Hpend|c now n s Hc Hst];
    q_after_cases.
  - by split_and!.
  - split_and!; try done. simpl. lia.
  - by rewrite Hst in *.
  - intros i q Hq. exists q. rewrite lookup_insert_ne; [done|]. intros <-.
    assert (is_Some (q_pos s !! default 1 (q_next_id s))) as Hs by eauto.
    apply Hdom in Hs. lia.
  - by eapply pos_after_insert, pos_after_status.
  - by eapply pos_after_insert, pos_after_status.
  - intros i q Hq. rewrite lookup_advance_positions, Hq. simpl. eexists. split; [done|].
    destruct (decide _) as [[_ Hpend]|]; [|done]. by split_and!.
Qed.

Lemma q_changes_after s s' : rtc q_change s s' → queue_inv s → q_after s s'.
Proof.
  induction 1 as [s|s1 s2 s3 Hch _ IH]; intros Hinv; [done|].
  etrans; [by eapply q_change_after|]. eauto using queue_inv_change.
Qed.

(** * Serving *)

Lemma advance_result cx a n s v s' evs :
  spec cx (CAdvance a n) s = Ok (v, s', evs) →
  v = RIds (filter (has_status Pending s) (window s n)) ∧
  q_pos s' = advance_positions (c_now cx) (window s n) (q_pos s) ∧
  idx_of s' = idx_of s + Z.of_nat (length (window s n)).
Proof.
  simpl. unfold spec_advance. intros Hs. spec_inv.
  match goal with H : q_config s = Some ?x |- _ => destruct (advancement_rule x) end;
    spec_inv; try done. split; [done|]. by case_bool_decide.
Qed.

(** The administrator [a] can serve the queue. *)
Definition serving (a : ScAddress) (s : QState) : Prop :=
  ∃ c, q_config s = Some c ∧ admin c = a ∧ advancement_rule c = Fifo ∧
    (status c = EnrollmentClosed ∨ status c = AdvancementActive).

Lemma advance_step cx a n s :
  queue_inv s → serving a s → a ∈ c_auths cx → n ≠ 0 →
  ∃ v s' evs, spec cx (CAdvance a n) s = Ok (v, s', evs) ∧ serving a s' ∧
    next_id_of s' = next_id_of s ∧
    idx_of s' = idx_of s + Z.max 0 (Z.min n (next_id_of s - 1 - idx_of s)).
Proof.
  intros Hinv (c & Hc & Ha & Hrule & Hst) Hauth Hn.
  assert (spec_admin cx a s = Ok c) as Hadm by (by apply spec_admin_ok).
  cbn [spec]. unfold spec_advance. rewrite Hadm. rewrite bool_decide_false by done.
  assert (status c ≠ Closed) as Hnc by (destruct Hst; congruence).
  sp_eval. rewrite (bool_decide_false (status c = Closed)) by done.
  sp_eval. rewrite (bool_decide_false (status c ≠ _ ∧ _)) by tauto.
  sp_eval. rewrite Hrule. unfold val_out. eexists _, _, _. split; [reflexivity|]. cbn [fst snd].
  rewrite <-(window_length s n Hinv). case_bool_decide as Hb.
  - split_and!; [|done|done]. eexists. split_and!; [done|done|done|by right].
  - split_and!; [|done|done]. eexists. by split_and!.
Qed.
