(* ===== verification/QueueThms.v ===== *)
(** What the queue contract guarantees, for all histories of transactions on a
    live ledger: fairness (first in, first served), permanence of positions, the
    lifecycle, capacity, access control, and progress of [advance]; each with an
    evaluated scenario. *)
From S2P Require Import Prelude ScVal Storage Host Env Sim Queue QueueSpec QueueProps.
Import Queue.

(** * Histories of the contract *)
Section history.
Context (X : External).

(** A transaction of the queue: a call of any entry point but [initialize], which the
    contract lets anyone call again; what that does is [reinitialize_takeover]. *)
Definition queue_tx : Env → Env → Prop := tx X exec not_initialize.

(** [e] is a fresh contract right after a successful [initialize]. *)
Definition initialized (e : Env) : Prop :=
  ∃ e0 auths a c r, Rep e0 q_empty ∧ 0 <= max_positions c ∧
    invoke X auths (exec (CInitialize a c)) e0 = (Ok r, e).

Lemma sim_exec_invoke auths c e s r e' :
  Rep e s → dense s → invoke X auths (exec c) e = (r, e') →
  match r with
  | Ok a => ∃ s' evs, spec (ctx_of (authorized auths e)) c s = Ok (a, s', evs) ∧ Rep e' s' ∧
      emitted (h_events e') = emitted (h_events e) ++
        ((λ ev, mkContractEvent (h_contract e) ev.1 ev.2) <$> evs)
  | Err x => Rep e' s ∧ emitted (h_events e') = emitted (h_events e) ∧
      (env_live e → spec (ctx_of (authorized auths e)) c s = Err x)
  end.
Proof.
  intros Hr Hd Hi.
  pose proof (queue_sim_exec X c (authorized auths e) s Hr Hd) as Hsim.
  by destruct (invoke_sim X auths _ e s _ r e' Hsim Hr Hi) as (_ & _ & Hout).
Qed.

Lemma dense_empty : dense q_empty.
Proof.
  split; unfold idx_of, next_id_of, u32_max; simpl; [lia|lia|].
  intros id Hid. unfold next_id_of in Hid. simpl in Hid. lia.
Qed.

Lemma initialized_inv e : initialized e → ∃ s, Rep e s ∧ queue_inv s.
Proof.
  intros (e0 & auths & a & c & r & Hr & Hmax & Hi).
  destruct (sim_exec_invoke _ _ _ _ _ _ Hr dense_empty Hi) as (s & evs & Hs & Hr' & _).
  exists s. split; [done|]. by eapply queue_inv_initialize.
Qed.

Lemma spec_step_changes s s' : spec_step spec not_initialize s s' → rtc q_change s s'.
Proof. intros (cx & c & a & evs & Hc & Hs). by eapply spec_changes. Qed.

Lemma history_from e e' s :
  rtc queue_tx e e' → Rep e s → queue_inv s →
  ∃ s', Rep e' s' ∧ queue_inv s' ∧ q_after s s'.
Proof.
  apply (history_after X exec ctx_of spec not_initialize queue_inv).
  - intros. by apply queue_sim_exec, queue_inv_dense.
  - intros s1 s2 H1 H2%spec_step_changes. by eapply queue_inv_changes.
  - apply _.
  - intros s1 s2 H1 H2%spec_step_changes. by eapply q_changes_after.
Qed.

Lemma reachable_inv e e' :
  initialized e → rtc queue_tx e e' → ∃ s, Rep e' s ∧ queue_inv s.
Proof.
  intros (s & Hr & Hinv)%initialized_inv Htx.
  destruct (history_from e e' s Htx Hr Hinv) as (s' & ? & ? & _). eauto.
Qed.

(** What is stored, in terms of the represented state. *)
Lemma stored_position e s id p :
  Rep e s → data e (position_key id) = Some (enc positionC p) → q_pos s !! id = Some p.
Proof.
  intros Hr Hd. pose proof (Rep_get (pos_cell id) e s Hr) as Hg.
  cbn [ck cc cget pos_cell] in Hg. rewrite Hd in Hg. symmetry in Hg.
  apply fmap_Some in Hg as (p' & Hp' & Heq). apply (inj (enc positionC)) in Heq. by subst.
Qed.

Lemma stored_config e s c :
  Rep e s → data e key_config = Some (enc configC c) → q_config s = Some c.
Proof.
  intros Hr Hd. pose proof (Rep_get config_cell e s Hr) as Hg.
  cbn [ck cc cget config_cell] in Hg. rewrite Hd in Hg. symmetry in Hg.
  apply fmap_Some in Hg as (c' & Hc' & Heq). apply (inj (enc configC)) in Heq. by subst.
Qed.

Lemma position_stored e s id p :
  Rep e s → q_pos s !! id = Some p → data e (position_key id) = Some (enc positionC p).
Proof.
  intros Hr Hp. pose proof (Rep_get (pos_cell id) e s Hr) as Hg.
  cbn [ck cc cget pos_cell] in Hg. by rewrite Hg, Hp.
Qed.

Lemma config_stored e s c :
  Rep e s → q_config s = Some c → data e key_config = Some (enc configC c).
Proof.
  intros Hr Hc. pose proof (Rep_get config_cell e s Hr) as Hg.
  cbn [ck cc cget config_cell] in Hg. by rewrite Hg, Hc.
Qed.

Lemma stored_active e s n :
  Rep e s → data e key_active = Some (enc u32C n) → active_of s = n.
Proof.
  intros Hr Hd. pose proof (Rep_get active_cell e s Hr) as Hg.
  cbn [ck cc cget active_cell] in Hg. rewrite Hd in Hg. symmetry in Hg.
  apply fmap_Some in Hg as (n' & Hn' & Heq). apply (inj (enc u32C)) in Heq. subst.
  unfold active_of. by rewrite Hn'.
Qed.

Lemma position_data e s id :
  Rep e s → data e (position_key id) = enc positionC <$> q_pos s !! id.
Proof. apply (Rep_get (pos_cell id)). Qed.
End history.

Section live.
Context (X : External).

Lemma play_live calls e e0 :
  initialized X e0 → rtc (queue_tx X) e0 e → Forall (λ c, not_initialize c.2) calls →
  env_live e → env_live (play X exec calls e).
Proof.
  intros Hinit Htx Hall Hl. destruct (reachable_inv X e0 e Hinit Htx) as (s & Hr & Hinv).
  rewrite play_foldl.
  eapply (invokes_live X exec ctx_of spec not_initialize queue_inv); try done.
  - intros. by apply queue_sim_exec, queue_inv_dense.
  - intros s1 s2 H1 H2%spec_step_changes. by eapply queue_inv_changes.
Qed.

Lemma position_bound e0 e n i :
  initialized X e0 → rtc (queue_tx X) e0 e →
  data e key_next_id = Some (enc u32C n) → is_Some (data e (position_key i)) → i < n.
Proof.
  intros Hinit Htx Hn. destruct (reachable_inv X e0 e Hinit Htx) as (s & Hr & Hinv).
  rewrite (position_data _ _ _ Hr), fmap_is_Some, (qi_dom _ Hinv).
  pose proof (Rep_get next_id_cell e s Hr) as Hg. cbn [ck cc cget next_id_cell] in Hg.
  rewrite Hg in Hn. apply fmap_Some in Hn as (n' & Hn' & Heq).
  apply (inj (enc u32C)) in Heq. subst n'. unfold next_id_of. rewrite Hn'. simpl. lia.
Qed.
End live.

(** * A scenario

    Alice runs a queue of three places.  Bob, Carol and Alice enroll, Carol
    cancels, enrollment closes and one batch of two is served. *)
Definition demo_config : QueueConfig :=
  mkQueueConfig "demo" "Demo" alice 3 0 0 Draft 1 Fifo.
Definition demo_start : Env := (invoke toy {[alice]} (exec (CInitialize alice demo_config)) fresh).2.
Definition demo_enrolled : Env := play toy exec
  [({[alice]}, COpenEnrollment alice); ({[bob]}, CEnrollPosition bob);
   ({[carol]}, CEnrollPosition carol); ({[alice]}, CEnrollPosition alice);
   ({[carol]}, CCancelPosition carol 2); ({[alice]}, CCloseEnrollment alice)] demo_start.
Definition demo_served : Env := play toy exec [({[alice]}, CAdvance alice 2)] demo_enrolled.

Definition demo_position (id : Z) (who : ScAddress) (st : PositionStatus) (adv : option Z) :
    Position := mkPosition id 1000 who st adv None.

Lemma queue_demo_fresh : Rep fresh q_empty.
Proof.
  apply fresh_Rep. intros k. unfold view, queue_view; simpl. repeat case_decide; try done.
  destruct (pos_id_of_key k); [|done]. by rewrite lookup_empty.
Qed.

Lemma demo_initialized : initialized toy demo_start.
Proof.
  exists fresh, {[alice]}, alice, demo_config, RUnit.
  split_and!; [apply queue_demo_fresh|done|]. unfold demo_start. apply outcome_fst. vm_compute. reflexivity.
Qed.

Lemma demo_enrolled_history : rtc (queue_tx toy) demo_start demo_enrolled.
Proof. apply play_tx. by repeat constructor. Qed.
Lemma demo_served_history : rtc (queue_tx toy) demo_enrolled demo_served.
Proof. apply play_tx. by repeat constructor. Qed.

(** The demo ledger stays live. *)
Lemma demo_start_live : env_live demo_start.
Proof.
  unfold demo_start. eapply invoke_live; [|apply fresh_live].
  apply (queue_sim_exec toy (CInitialize alice demo_config)); [apply queue_demo_fresh|apply dense_empty].
Qed.
Lemma demo_enrolled_live : env_live demo_enrolled.
Proof.
  eapply play_live; [apply demo_initialized|reflexivity|by repeat constructor|].
  apply demo_start_live.
Qed.

(** * Theorems *)
Section theorems.
Context (X : External).

(** C1: First in, first served, in a queue that is initialized once: after any number of
    calls of any entry points but [initialize], in any order and by any signers, when a
    position is advanced no earlier position is pending.  (The contract lets [initialize]
    be called again, which starts ids and index afresh over the old positions; such
    histories are excluded.) *)
Theorem fifo_no_overtaking e e' i j p q :
  initialized X e → rtc (queue_tx X) e e' →
  data e' (position_key i) = Some (enc positionC p) →
  data e' (position_key j) = Some (enc positionC q) →
  i < j → pstatus q = Advanced → pstatus p ≠ Pending.
Proof.
  intros Hinit Htx Hp Hq Hij Hadv.
  destruct (reachable_inv X e e' Hinit Htx) as (s & Hr & [_ _ _ _ Hpos _]).
  destruct (Hpos i p (stored_position _ _ _ _ Hr Hp)) as (_ & _ & Hser & _).
  destruct (Hpos j q (stored_position _ _ _ _ Hr Hq)) as (_ & _ & _ & Hun).
  apply Hser. destruct (decide (idx_of s < j)); [by apply Hun in Hadv|lia].
Qed.

(** A position is permanent: later in any history it still exists, with the
    same id, identity, enrollment time and weight, so it was never handed to
    someone else; and once it is advanced, expired or cancelled nothing in it
    changes again, so no position is advanced twice. *)
Theorem position_permanent e e1 e2 i p :
  initialized X e → rtc (queue_tx X) e e1 → rtc (queue_tx X) e1 e2 →
  data e1 (position_key i) = Some (enc positionC p) →
  ∃ p', data e2 (position_key i) = Some (enc positionC p') ∧
    position_id p' = position_id p ∧ identity p' = identity p ∧
    enrolled_at p' = enrolled_at p ∧ priority_weight p' = priority_weight p ∧
    (pstatus p ≠ Pending → p' = p).
Proof.
  intros Hinit H1 H2 Hp.
  destruct (reachable_inv X e e1 Hinit H1) as (s1 & Hr1 & Hinv1).
  destruct (history_from X e1 e2 s1 H2 Hr1 Hinv1) as (s2 & Hr2 & _ & Hafter).
  destruct (qa_pos _ _ Hafter i p (stored_position _ _ _ _ Hr1 Hp)) as (p' & Hp' & Hpp).
  exists p'. split; [by eapply position_stored|done].
Qed.

(** The lifecycle only moves forward: later in any history the status has
    the same or a higher rank, only status and administrator of the
    configuration have changed, and once enrollment has closed no position is
    ever added. *)
Theorem lifecycle_monotone e e1 e2 c :
  initialized X e → rtc (queue_tx X) e e1 → rtc (queue_tx X) e1 e2 →
  data e1 key_config = Some (enc configC c) →
  ∃ c', data e2 key_config = Some (enc configC c') ∧
    c' = set_admin (admin c') (set_status (status c') c) ∧
    rank (status c) <= rank (status c') ∧
    (rank EnrollmentClosed <= rank (status c) →
     ∀ i, data e1 (position_key i) = None → data e2 (position_key i) = None).
Proof.
  intros Hinit H1 H2 Hc.
  destruct (reachable_inv X e e1 Hinit H1) as (s1 & Hr1 & Hinv1).
  destruct (history_from X e1 e2 s1 H2 Hr1 Hinv1) as (s2 & Hr2 & Hinv2 & Hafter).
  pose proof (stored_config _ _ _ Hr1 Hc) as Hc1.
  destruct (qa_config _ _ Hafter c Hc1) as (c' & Hc' & Hcc).
  exists c'. split_and!; [by eapply config_stored|by apply config_after_eq|apply Hcc|].
  - intros Hrank i Hi.
    rewrite (Rep_get (pos_cell i) e1 s1 Hr1 : data e1 (position_key i) = _) in Hi.
    rewrite (Rep_get (pos_cell i) e2 s2 Hr2 : data e2 (position_key i) = _).
    cbn in *. apply fmap_None in Hi. apply fmap_None, eq_None_not_Some.
    rewrite (qi_dom _ Hinv2), (qa_frozen _ _ Hafter c Hc1 Hrank), <-(qi_dom _ Hinv1), Hi.
    by intros [].
Qed.
(** C2: The contract implements its specification, call by call: a successful
    invocation returns the specified value, stores the specified state and emits
    exactly the specified events; a failed one leaves state and events alone;
    and when nothing the contract needs is archived, the outcome is the
    specified one, error message included. *)
Theorem queue_call_correct auths c e s :
  Rep e s → dense s →
  call_outcome e s (spec (ctx_of (authorized auths e)) c s) (invoke X auths (exec c) e).
Proof. intros Hr Hd. by apply invoke_correct; [apply queue_sim_exec|]. Qed.

(** C3: Capacity and ids, in a queue that is initialized once (histories in which
    [initialize] is called again are excluded, as it resets count and ids): the stored
    active count is the number of positions not cancelled, it never exceeds the queue's
    capacity, and the positions ever created are exactly those with the consecutive ids
    [1 .. total_enrolled]. *)
Theorem capacity_respected e e' c n :
  initialized X e → rtc (queue_tx X) e e' →
  data e' key_config = Some (enc configC c) →
  data e' key_active = Some (enc u32C n) →
  n <= max_positions c ∧
  ∃ total ids, NoDup ids ∧ n = Z.of_nat (length ids) ∧
    (∀ i, is_Some (data e' (position_key i)) ↔ 1 <= i <= total) ∧
    (∀ i, i ∈ ids ↔ ∃ p, data e' (position_key i) = Some (enc positionC p) ∧
                         pstatus p ≠ Cancelled).
Proof.
  intros Hinit Htx Hc Hn. destruct (reachable_inv X e e' Hinit Htx) as (s & Hr & Hinv).
  pose proof Hinv as [(c' & Hc' & _ & Hcap) _ _ Hdom _ Hact].
  rewrite (stored_config _ _ _ Hr Hc) in Hc'. simplify_eq.
  rewrite (stored_active _ _ _ Hr Hn) in *. split; [done|].
  exists (next_id_of s - 1), (active_ids s).
  split_and!; [apply NoDup_filter, NoDup_seqZ|done| |].
  - intros i. rewrite (position_data _ _ _ Hr), fmap_is_Some, Hdom. lia.
  - intros i. unfold active_ids. rewrite list_elem_of_filter, elem_of_seqZ.
    unfold has_status. split.
    + intros [Hs Hi]. assert (is_Some (q_pos s !! i)) as [p Hp] by (apply Hdom; lia).
      exists p. split; [by eapply position_stored|]. intros Hst. apply Hs. by rewrite Hp, <-Hst.
    + intros (p & Hp%(stored_position _ _ _ _ Hr) & Hst). rewrite Hp. split; [simpl; congruence|].
      assert (1 <= i < next_id_of s) by (apply Hdom; eauto). lia.
Qed.

(** What [advance] serves: the returned ids are in increasing order, at most
    a batch, were all pending, and are exactly the positions that change, each
    becoming advanced at the current ledger time; afterwards nothing before a
    served position is pending. *)
Theorem advance_serves e0 e auths a n ids e' :
  initialized X e0 → rtc (queue_tx X) e0 e → 0 <= n →
  invoke X auths (exec (CAdvance a n)) e = (Ok (RIds ids), e') →
  StronglySorted Z.lt ids ∧ Z.of_nat (length ids) <= n ∧
  (∀ i p, data e (position_key i) = Some (enc positionC p) →
    (i ∈ ids → pstatus p = Pending) ∧
    data e' (position_key i) = Some (enc positionC
      (if decide (i ∈ ids) then set_advanced (timestamp (h_ledger e)) p else p))) ∧
  (∀ i j p, i ∈ ids → j < i → data e' (position_key j) = Some (enc positionC p) →
    pstatus p ≠ Pending).
Proof.
  intros Hinit Htx Hn Hi. destruct (reachable_inv X e0 e Hinit Htx) as (s & Hr & Hinv).
  destruct (sim_exec_invoke X _ _ _ _ _ _ Hr (queue_inv_dense _ Hinv) Hi)
    as (s' & evs & Hs & Hr' & _).
  assert (queue_inv s') as Hinv'.
  { apply spec_changes in Hs; [|done]. by eapply queue_inv_changes. }
  apply advance_result in Hs as (Hids & Hpos & Hidx). injection Hids as ->.
  pose proof (window_length s n Hinv) as Hlen. split_and!.
  - apply StronglySorted_filter, StronglySorted_seqZ.
  - pose proof (length_filter (has_status Pending s) (window s n)). lia.
  - intros i p Hp%(stored_position _ _ _ _ Hr).
    assert (i ∈ filter (has_status Pending s) (window s n) ↔
            i ∈ window s n ∧ pstatus p = Pending) as Hin.
    { rewrite list_elem_of_filter. unfold has_status. rewrite Hp. simpl.
      split; intros [? ?]; split; congruence. }
    split; [by intros [_ ?]%Hin|].
    rewrite (position_data e' s' i Hr'), Hpos, lookup_advance_positions, Hp. simpl.
    by destruct (decide (i ∈ window s n ∧ pstatus p = Pending)),
      (decide (i ∈ filter (has_status Pending s) (window s n))); try tauto.
  - intros i j p [_ Hw]%list_elem_of_filter Hji Hp%(stored_position _ _ _ _ Hr').
    apply (window_elem s n i Hinv) in Hw.
    destruct (qi_pos _ Hinv' j p Hp) as (_ & _ & Hser & _). apply Hser. lia.
Qed.

(** Calls of [advance] from any represented state: each succeeds, and the state after
    them. *)
Lemma advance_iterate auths a n k : ∀ e s,
  Rep e s → queue_inv s → env_live e → serving a s → a ∈ auths → 0 < n →
  (∀ j, (j < k)%nat → ∃ v,
    (invoke X auths (exec (CAdvance a n)) (play X exec (replicate j (auths, CAdvance a n)) e)).1 = Ok v) ∧
  ∃ s', Rep (play X exec (replicate k (auths, CAdvance a n)) e) s' ∧ queue_inv s' ∧
    next_id_of s' = next_id_of s ∧
    Z.min (next_id_of s - 1) (idx_of s + Z.of_nat k * n) <= idx_of s'.
Proof.
  induction k as [|k IH]; intros e s Hr Hinv Hl Hserv Ha Hn.
  - split; [intros j Hj; lia|]. exists s. cbn [replicate play]. split_and!; [done|done|done|lia].
  - destruct (advance_step (ctx_of (authorized auths e)) a n s Hinv Hserv Ha)
      as (v & s1 & evs & Hs & Hserv1 & Hnext & Hidx); [lia|].
    pose proof (queue_sim_exec X (CAdvance a n) (authorized auths e) s Hr (queue_inv_dense _ Hinv)) as Hsim.
    rewrite Hs in Hsim.
    destruct (invoke_live_ok X _ _ _ _ _ _ _ Hsim Hr Hl) as (e1 & Hi & Hr1 & Hl1 & _).
    assert (queue_inv s1) as Hinv1.
    { apply spec_changes in Hs; [|done]. by eapply queue_inv_changes. }
    destruct (IH e1 s1) as (Hok & s2 & Hr2 & Hinv2 & Hnext2 & Hidx2); [done..|]. split.
    + intros [|j] Hj; cbn [replicate play]; rewrite Hi; [by exists v|]. apply Hok. lia.
    + cbn [replicate play]. rewrite Hi. exists s2. split_and!; [done|done|congruence|].
      rewrite Hnext, Hidx in Hidx2. destruct (qi_idx _ Hinv). lia.
Qed.

(** C4: Progress: on a live ledger, in a queue that was initialized once, advances by
    the rule [Fifo] and is closed for enrollment or already advancing, every one of [k]
    calls of [advance] by the administrator succeeds, and if the [k] batches cover the
    ids of the positions no position is pending after them, whatever the batch size; no
    call gets stuck on cancelled or expired positions. *)
Theorem advance_drains e0 e auths c n k :
  initialized X e0 → rtc (queue_tx X) e0 e → env_live e →
  data e key_config = Some (enc configC c) → admin c ∈ auths →
  advancement_rule c = Fifo → status c = EnrollmentClosed ∨ status c = AdvancementActive →
  0 < n → (∀ i, is_Some (data e (position_key i)) → i <= Z.of_nat k * n) →
  (∀ j, (j < k)%nat → ∃ v,
    (invoke X auths (exec (CAdvance (admin c) n))
       (play X exec (replicate j (auths, CAdvance (admin c) n)) e)).1 = Ok v) ∧
  ∀ i p, data (play X exec (replicate k (auths, CAdvance (admin c) n)) e) (position_key i)
           = Some (enc positionC p) → pstatus p ≠ Pending.
Proof.
  intros Hinit Htx Hl Hc Ha Hrule Hst Hn Hk.
  destruct (reachable_inv X e0 e Hinit Htx) as (s & Hr & Hinv).
  assert (serving (admin c) s) as Hserv.
  { exists c. split_and!; [by eapply stored_config|done..]. }
  destruct (advance_iterate auths (admin c) n k e s Hr Hinv Hl Hserv Ha Hn)
    as (Hok & s' & Hr' & Hinv' & Hnext & Hidx).
  split; [exact Hok|]. intros i p Hp. apply (stored_position _ _ _ _ Hr') in Hp.
  destruct (qi_pos _ Hinv' i p Hp) as (_ & _ & Hser & _). apply Hser.
  assert (1 <= i < next_id_of s) as Hi by (rewrite <-Hnext; apply (qi_dom _ Hinv'); eauto).
  destruct (qi_idx _ Hinv). specialize (Hk (next_id_of s - 1)).
  rewrite (position_data _ _ _ Hr), fmap_is_Some, (qi_dom _ Hinv) in Hk. lia.
Qed.

(** Batch expiry is all or nothing: on a live ledger, in a status that allows
    it, the administrator's call succeeds exactly when the ids are distinct and
    all pending, and then exactly those positions become expired; otherwise it
    panics and no position changes. *)
Theorem expire_batch_atomic e0 e auths c ids :
  initialized X e0 → rtc (queue_tx X) e0 e → env_live e →
  data e key_config = Some (enc configC c) → admin c ∈ auths →
  status c = AdvancementActive ∨ status c = Closed →
  let '(r, e') := invoke X auths (exec (CExpirePositionsBatch (admin c) ids)) e in
  let all_pending := NoDup ids ∧ ∀ i, i ∈ ids → ∃ p,
    data e (position_key i) = Some (enc positionC p) ∧ pstatus p = Pending in
  match r with
  | Ok _ => all_pending ∧ ∀ i p, data e (position_key i) = Some (enc positionC p) →
      data e' (position_key i) = Some (enc positionC
        (if decide (i ∈ ids) then set_pstatus Expired p else p))
  | Err x => (∃ msg, x = EPanic msg) ∧ ¬ all_pending ∧
      ∀ i, data e' (position_key i) = data e (position_key i)
  end.
Proof.
  intros Hinit Htx Hl Hc Ha Hst. destruct (reachable_inv X e0 e Hinit Htx) as (s & Hr & Hinv).
  apply (stored_config _ _ _ Hr) in Hc.
  destruct (invoke X auths _ e) as [r e'] eqn:Hi.
  pose proof (sim_exec_invoke X _ _ _ _ _ _ Hr (queue_inv_dense _ Hinv) Hi) as Hout.
  set (cx := ctx_of (authorized auths e)) in *.
  assert (Hall : batch_ok ids s ↔ NoDup ids ∧ ∀ i, i ∈ ids → ∃ p,
    data e (position_key i) = Some (enc positionC p) ∧ pstatus p = Pending).
  { unfold batch_ok. rewrite Forall_forall. unfold has_status.
    setoid_rewrite fmap_Some. split; intros [Hnd Hf]; (split; [done|]); intros i Hin.
    - destruct (Hf i Hin) as (p & Hp & ->). exists p. by split; [eapply position_stored|].
    - destruct (Hf i Hin) as (p & Hp & <-). exists p. by split; [eapply stored_position|]. }
  assert (Hguard : spec_expire_guard cx (admin c) s = Ok tt).
  { unfold spec_expire_guard. rewrite (proj2 (spec_admin_ok cx (admin c) s c)) by done.
    sp_eval. apply reject_if_ok, bool_decide_eq_false. destruct Hst as [-> | ->]; tauto. }
  cbn [spec] in Hout. rewrite Hguard, bind_Ok in Hout.
  destruct (spec_expire_each_cases cx (admin c) ids s) as [(Hok & Heq)|(Hno & msg & Heq)];
    rewrite Heq in Hout; destruct r as [v|x].
  - destruct Hout as (s' & evs & ? & Hr' & _). simplify_eq/=. split; [by apply Hall|].
    intros i p Hp%(stored_position _ _ _ _ Hr). rewrite (position_data _ _ _ Hr'). simpl.
    by rewrite lookup_expire_positions, Hp.
  - destruct Hout as (_ & _ & Hlive). by specialize (Hlive Hl).
  - by destruct Hout as (s' & evs & ? & _).
  - destruct Hout as (Hr' & _ & Hlive). specialize (Hlive Hl). simplify_eq/=.
    split_and!; [by eexists|by rewrite <-Hall|]. intros i.
    by rewrite (position_data _ _ _ Hr), (position_data _ _ _ Hr').
Qed.

(** Access control: a transaction signed neither by the administrator nor by
    the proposed one leaves the configuration as it is, and every position whose
    holder did not sign either. *)
Theorem access_control e0 e auths call c :
  initialized X e0 → rtc (queue_tx X) e0 e → not_initialize call →
  data e key_config = Some (enc configC c) → admin c ∉ auths →
  (∀ a, data e key_pending = Some (enc addressC a) → a ∉ auths) →
  let e' := (invoke X auths (exec call) e).2 in
  data e' key_config = Some (enc configC c) ∧
  ∀ i p, data e (position_key i) = Some (enc positionC p) → identity p ∉ auths →
    data e' (position_key i) = Some (enc positionC p).
Proof.
  intros Hinit Htx Hcall Hc Ha Hpend. destruct (reachable_inv X e0 e Hinit Htx) as (s & Hr & Hinv).
  apply (stored_config _ _ _ Hr) in Hc.
  assert (∀ a, q_pending s = Some a → a ∉ auths) as Hpend'.
  { intros a Hq. apply Hpend. pose proof (Rep_get pending_cell e s Hr) as Hg.
    cbn [ck cc cget pending_cell] in Hg. by rewrite Hg, Hq. }
  destruct (invoke X auths (exec call) e) as [r e'] eqn:Hi.
  pose proof (sim_exec_invoke X _ _ _ _ _ _ Hr (queue_inv_dense _ Hinv) Hi) as Hout.
  destruct r as [v|x]; cbn [snd].
  - destruct Hout as (s' & evs & Hs & Hr' & _).
    assert (q_pos s !! next_id_of s = None) as Hfresh.
    { apply eq_None_not_Some. rewrite (qi_dom _ Hinv). lia. }
    destruct (spec_access _ _ _ _ _ _ _ Hcall Hs (queue_inv_dense _ Hinv) Hfresh Hc Ha Hpend')
      as [Hc' Hp'].
    split; [by eapply config_stored|]. intros i p Hp Hid. eapply position_stored; [done|].
    apply Hp'; [by eapply stored_position|done].
  - destruct Hout as (Hr' & _). split; [by eapply config_stored|].
    intros i p Hp _. by rewrite (position_data e' s i Hr'), <-(position_data e s i Hr).
Qed.

(** [initialize] has no guard against a second call: on a running queue any
    account can name itself administrator of a configuration of its own, with
    every counter reset, while the old positions stay in the ledger. *)
Theorem reinitialize_takeover e0 e auths a c :
  initialized X e0 → rtc (queue_tx X) e0 e → env_live e → a ∈ auths → admin c = a →
  ∃ e', invoke X auths (exec (CInitialize a c)) e = (Ok RUnit, e') ∧
    data e' key_config = Some (enc configC c) ∧
    data e' key_next_id = Some (enc u32C 1) ∧ data e' key_active = Some (enc u32C 0) ∧
    data e' key_idx = Some (enc u32C 0) ∧
    ∀ i, data e' (position_key i) = data e (position_key i).
Proof.
  intros Hinit Htx Hl Ha Hadm. destruct (reachable_inv X e0 e Hinit Htx) as (s & Hr & Hinv).
  pose proof (queue_sim_exec X (CInitialize a c) (authorized auths e) s Hr (queue_inv_dense _ Hinv)) as Hsim.
  cbn [spec] in Hsim. unfold spec_initialize in Hsim.
  rewrite (proj2 (auth_ok (ctx_of (authorized auths e)) a)), bool_decide_false in Hsim by auto.
  destruct (invoke_live_ok X auths _ e s _ _ _ Hsim Hr Hl) as (e' & Hi & Hr' & _).
  exists e'. split; [done|]. split_and!.
  - by eapply config_stored.
  - apply (Rep_get next_id_cell e' _ Hr').
  - apply (Rep_get active_cell e' _ Hr').
  - apply (Rep_get idx_cell e' _ Hr').
  - intros i. by rewrite (position_data _ _ _ Hr), (position_data _ _ _ Hr').
Qed.

End theorems.

(** Bob was served before Alice's place came up, Carol's place was skipped. *)
Lemma fifo_no_overtaking_witness :
  pstatus (demo_position 1 bob Advanced (Some 1000)) ≠ Pending.
Proof.
  apply (fifo_no_overtaking toy demo_start
    (play toy exec [({[alice]}, CAdvance alice 1)] demo_served) 1 3
    (demo_position 1 bob Advanced (Some 1000)) (demo_position 3 alice Advanced (Some 1000))).
  - apply demo_initialized.
  - etrans; [apply demo_enrolled_history|]. etrans; [apply demo_served_history|].
    apply play_tx. by repeat constructor.
  - by vm_compute.
  - by vm_compute.
  - lia.
  - done.
Defined.

Lemma position_permanent_witness :
  ∃ p', data demo_served (position_key 2) = Some (enc positionC p') ∧
    position_id p' = 2 ∧ identity p' = carol ∧ enrolled_at p' = 1000 ∧
    priority_weight p' = None ∧ (Cancelled ≠ Pending → p' = demo_position 2 carol Cancelled None).
Proof.
  apply (position_permanent toy demo_start demo_enrolled demo_served 2
    (demo_position 2 carol Cancelled None)).
  - apply demo_initialized.
  - apply demo_enrolled_history.
  - apply demo_served_history.
  - by vm_compute.
Defined.

Lemma lifecycle_monotone_witness :
  let c := set_status EnrollmentClosed demo_config in
  ∃ c', data demo_served key_config = Some (enc configC c') ∧
    c' = set_admin (admin c') (set_status (status c') c) ∧
    rank (status c) <= rank (status c') ∧
    (rank EnrollmentClosed <= rank (status c) →
     ∀ i, data demo_enrolled (position_key i) = None → data demo_served (position_key i) = None).
Proof.
  apply (lifecycle_monotone toy demo_start demo_enrolled demo_served).
  - apply demo_initialized.
  - apply demo_enrolled_history.
  - apply demo_served_history.
  - by vm_compute.
Defined.

Lemma queue_call_correct_witness :
  (Rep fresh q_empty ∧ dense q_empty) ∧
  call_outcome fresh q_empty
    (spec (ctx_of (authorized {[alice]} fresh)) (CInitialize alice demo_config) q_empty)
    (invoke toy {[alice]} (exec (CInitialize alice demo_config)) fresh).
Proof.
  split; [split; [apply queue_demo_fresh|apply dense_empty]|].
  apply (queue_call_correct toy {[alice]} (CInitialize alice demo_config) fresh q_empty).
  - apply queue_demo_fresh.
  - apply dense_empty.
Defined.

Lemma capacity_respected_witness :
  2 <= 3 ∧
  ∃ total ids, NoDup ids ∧ 2 = Z.of_nat (length ids) ∧
    (∀ i, is_Some (data demo_enrolled (position_key i)) ↔ 1 <= i <= total) ∧
    (∀ i, i ∈ ids ↔ ∃ p, data demo_enrolled (position_key i) = Some (enc positionC p) ∧
                         pstatus p ≠ Cancelled).
Proof.
  apply (capacity_respected toy demo_start demo_enrolled
    (set_status EnrollmentClosed demo_config) 2).
  - apply demo_initialized.
  - apply demo_enrolled_history.
  - by vm_compute.
  - by vm_compute.
Defined.

Lemma advance_serves_witness :
  StronglySorted Z.lt [1] ∧ Z.of_nat (length [1]) <= 2 ∧
  (∀ i p, data demo_enrolled (position_key i) = Some (enc positionC p) →
    (i ∈ [1] → pstatus p = Pending) ∧
    data demo_served (position_key i) = Some (enc positionC
      (if decide (i ∈ [1]) then set_advanced (timestamp (h_ledger demo_enrolled)) p else p))) ∧
  (∀ i j p, i ∈ [1] → j < i → data demo_served (position_key j) = Some (enc positionC p) →
    pstatus p ≠ Pending).
Proof.
  apply (advance_serves toy demo_start demo_enrolled {[alice]} alice 2 [1] demo_served).
  - apply demo_initialized.
  - apply demo_enrolled_history.
  - lia.
  - unfold demo_served. cbn [play]. apply outcome_fst. vm_compute. reflexivity.
Defined.

Lemma advance_drains_witness :
  env_live demo_enrolled ∧
  (∀ j, (j < 2)%nat → ∃ v,
    (invoke toy {[alice]} (exec (CAdvance alice 2))
       (play toy exec (replicate j ({[alice]}, CAdvance alice 2)) demo_enrolled)).1 = Ok v) ∧
  ∀ i p, data (play toy exec (replicate 2 ({[alice]}, CAdvance alice 2)) demo_enrolled) (position_key i)
    = Some (enc positionC p) → pstatus p ≠ Pending.
Proof.
  split; [apply demo_enrolled_live|].
  apply (advance_drains toy demo_start demo_enrolled {[alice]}
    (set_status EnrollmentClosed demo_config) 2 2).
  - apply demo_initialized.
  - apply demo_enrolled_history.
  - apply demo_enrolled_live.
  - by vm_compute.
  - by apply elem_of_singleton.
  - done.
  - by left.
  - lia.
  - intros i Hi. eapply (position_bound toy demo_start demo_enrolled 4) in Hi;
      [lia|apply demo_initialized|apply demo_enrolled_history|by vm_compute].
Defined.

Lemma expire_batch_atomic_witness :
  let '(r, e') := invoke toy {[alice]} (exec (CExpirePositionsBatch alice [3])) demo_served in
  let all_pending := NoDup [3] ∧ ∀ i, i ∈ [3] → ∃ p,
    data demo_served (position_key i) = Some (enc positionC p) ∧ pstatus p = Pending in
  match r with
  | Ok _ => all_pending ∧ ∀ i p, data demo_served (position_key i) = Some (enc positionC p) →
      data e' (position_key i) = Some (enc positionC
        (if decide (i ∈ [3]) then set_pstatus Expired p else p))
  | Err x => (∃ msg, x = EPanic msg) ∧ ¬ all_pending ∧
      ∀ i, data e' (position_key i) = data demo_served (position_key i)
  end.
Proof.
  apply (expire_batch_atomic toy demo_start demo_served {[alice]}
    (set_status AdvancementActive demo_config) [3]).
  - apply demo_initialized.
  - etrans; [apply demo_enrolled_history|apply demo_served_history].
  - eapply play_live; [apply demo_initialized|apply demo_enrolled_history|by repeat constructor|].
    apply demo_enrolled_live.
  - by vm_compute.
  - by apply elem_of_singleton.
  - by left.
Defined.

Lemma access_control_witness :
  let e' := (invoke toy {[bob]} (exec (CCloseEnrollment alice)) demo_start).2 in
  data e' key_config = Some (enc configC demo_config) ∧
  ∀ i p, data demo_start (position_key i) = Some (enc positionC p) → identity p ∉ ({[bob]} : gset ScAddress) →
    data e' (position_key i) = Some (enc positionC p).
Proof.
  apply (access_control toy demo_start demo_start {[bob]} (CCloseEnrollment alice) demo_config).
  - apply demo_initialized.
  - reflexivity.
  - done.
  - by vm_compute.
  - by apply not_elem_of_singleton.
  - intros a Ha. by vm_compute in Ha.
Defined.

Lemma reinitialize_takeover_witness :
  let c := mkQueueConfig "stolen" "Stolen" bob 1 0 0 EnrollmentOpen 1 Fifo in
  ∃ e', invoke toy {[bob]} (exec (CInitialize bob c)) demo_served = (Ok RUnit, e') ∧
    data e' key_config = Some (enc configC c) ∧
    data e' key_next_id = Some (enc u32C 1) ∧ data e' key_active = Some (enc u32C 0) ∧
    data e' key_idx = Some (enc u32C 0) ∧
    ∀ i, data e' (position_key i) = data demo_served (position_key i).
Proof.
  apply (reinitialize_takeover toy demo_start demo_served).
  - apply demo_initialized.
  - etrans; [apply demo_enrolled_history|apply demo_served_history].
  - eapply play_live; [apply demo_initialized|apply demo_enrolled_history|by repeat constructor|].
    apply demo_enrolled_live.
  - by apply elem_of_singleton.
  - done.
Defined.
