(* ===== verification/Escrow.v ===== *)
(** The escrow contract, [contracts/lineproof-escrow/src/lib.rs]: its data with
    their stored form, one program per entry point, and the dispatcher. *)
From S2P Require Import Prelude ScVal Host.

Module Escrow.

(** * Data *)

Inductive EscrowStatus := Active | Released | Refunded | Expired.

Record EscrowRecord := mkEscrowRecord {
  queue_id : string;
  identity : ScAddress;
  amount : Z;
  asset : ScAddress;
  status : EscrowStatus;
  created_at : Z;
  expires_at : Z;
  released_at : option Z
}.

Record EscrowConfig := mkEscrowConfig {
  cfg_queue_id : string;
  min_deposit : Z;
  max_deposit : Z;
  hold_period_days : Z;
  admin : ScAddress
}.

#[export] Instance EscrowStatus_eq_dec : EqDecision EscrowStatus.
Proof. solve_decision. Defined.
#[export] Instance EscrowRecord_eq_dec : EqDecision EscrowRecord.
Proof. solve_decision. Defined.
#[export] Instance EscrowConfig_eq_dec : EqDecision EscrowConfig.
Proof. solve_decision. Defined.

(** A record that leaves escrow at time [now]. *)
Definition settled (st : EscrowStatus) (now : Z) (r : EscrowRecord) : EscrowRecord :=
  mkEscrowRecord (queue_id r) (identity r) (amount r) (asset r) st (created_at r) (expires_at r)
    (Some now).

(** * Stored form *)

Definition status_name (st : EscrowStatus) : string :=
  match st with
  | Active => "Active" | Released => "Released" | Refunded => "Refunded" | Expired => "Expired"
  end.
Definition status_of_name (s : string) : option EscrowStatus :=
  if decide (s = "Active") then Some Active
  else if decide (s = "Released") then Some Released
  else if decide (s = "Refunded") then Some Refunded
  else if decide (s = "Expired") then Some Expired
  else None.
Lemma escrow_status_name_inv st : status_of_name (status_name st) = Some st.
Proof. by destruct st. Qed.
Definition statusC : codec EscrowStatus := enumC status_name status_of_name escrow_status_name_inv.

Definition record_fields : list string :=
  ["amount"; "asset"; "created_at"; "expires_at"; "identity"; "queue_id"; "released_at"; "status"].

Definition recordC : codec EscrowRecord.
Proof.
  refine (Codec
    (λ r, ScMap [("amount", enc i128C (amount r)); ("asset", enc addressC (asset r));
                 ("created_at", enc u64C (created_at r)); ("expires_at", enc u64C (expires_at r));
                 ("identity", enc addressC (identity r)); ("queue_id", enc symbolC (queue_id r));
                 ("released_at", enc option_u64C (released_at r));
                 ("status", enc statusC (status r))])
    (λ v, l ← struct_fields record_fields v;
          match l with
          | [v1; v2; v3; v4; v5; v6; v7; v8] =>
              x1 ← dec i128C v1; x2 ← dec addressC v2; x3 ← dec u64C v3; x4 ← dec u64C v4;
              x5 ← dec addressC v5; x6 ← dec symbolC v6; x7 ← dec option_u64C v7;
              x8 ← dec statusC v8;
              Some (mkEscrowRecord x6 x5 x1 x2 x8 x3 x4 x7)
          | _ => None
          end) _).
  abstract solve_struct_codec.
Defined.

Definition config_fields : list string :=
  ["admin"; "hold_period_days"; "max_deposit"; "min_deposit"; "queue_id"].

Definition configC : codec EscrowConfig.
Proof.
  refine (Codec
    (λ c, ScMap [("admin", enc addressC (admin c));
                 ("hold_period_days", enc u64C (hold_period_days c));
                 ("max_deposit", enc i128C (max_deposit c));
                 ("min_deposit", enc i128C (min_deposit c));
                 ("queue_id", enc symbolC (cfg_queue_id c))])
    (λ v, l ← struct_fields config_fields v;
          match l with
          | [v1; v2; v3; v4; v5] =>
              x1 ← dec addressC v1; x2 ← dec u64C v2; x3 ← dec i128C v3; x4 ← dec i128C v4;
              x5 ← dec symbolC v5;
              Some (mkEscrowConfig x5 x4 x3 x2 x1)
          | _ => None
          end) _).
  abstract solve_struct_codec.
Defined.

(** * Storage keys *)

Definition record_key (who : ScAddress) (q : string) : ScVal :=
  ScVec [ScSymbol "escrow"; ScSymbol q; ScAddr who].
Definition config_key (q : string) : ScVal := ScVec [ScSymbol "escrow_config"; ScSymbol q].
Definition total_key (q : string) : ScVal := ScVec [ScSymbol "escrow_total"; ScSymbol q].

(** * Helpers *)

Definition emit_topics (kind q : string) : list ScVal :=
  [ScSymbol "lineproof_escrow"; ScSymbol kind; ScSymbol q].
Definition emit (kind q : string) (who : ScAddress) (amt : Z) : prog unit :=
  publish (emit_topics kind q) (ScVec [ScAddr who; ScI128 amt]).

Definition load_record (who : ScAddress) (q : string) : prog EscrowRecord :=
  o ← get recordC (record_key who q);
  match o with
  | None => panic "escrow record not found"
  | Some record => extend (record_key who q) ;; Ret record
  end.

Definition decrement_total (q : string) (amt : Z) : prog unit :=
  current ← get_or i128C (total_key q) 0;
  rest ← i128_sub current amt;
  store i128C (total_key q) rest.

(** * Entry points *)

Definition deposit (caller : ScAddress) (q : string) (amt : Z) (ast : ScAddress) : prog unit :=
  require_auth caller ;;
  panic_if (bool_decide (amt <= 0)) "amount must be positive" ;;
  existing ← has (record_key caller q);
  panic_if existing "existing escrow record" ;;
  created ← ledger_timestamp;
  o ← get configC (config_key q);
  match o with
  | None => panic "escrow_not_configured"
  | Some config =>
      panic_if (bool_decide (amt < min_deposit config ∨ max_deposit config < amt))
        "amount outside configured bounds" ;;
      hold ← u64_mul (hold_period_days config) 86400;
      expires ← u64_add created hold;
      store recordC (record_key caller q)
        (mkEscrowRecord q caller amt ast Active created expires None) ;;
      current ← get_or i128C (total_key q) 0;
      total ← i128_add current amt;
      store i128C (total_key q) total ;;
      emit "Deposited" q caller amt
  end.

(** The end that [release], [refund] and [expire] share. *)
Definition settle (st : EscrowStatus) (kind : string) (who : ScAddress) (q : string)
    (record : EscrowRecord) : prog unit :=
  panic_if (bool_decide (status record ≠ Active)) "escrow not active" ;;
  now ← ledger_timestamp;
  store recordC (record_key who q) (settled st now record) ;;
  decrement_total q (amount record) ;;
  emit kind q who (amount record).

Definition release (a : ScAddress) (who : ScAddress) (q : string) : prog unit :=
  require_auth a ;;
  record ← load_record who q;
  settle Released "Released" who q record.

Definition refund (a : ScAddress) (who : ScAddress) (q : string) : prog unit :=
  require_auth a ;;
  record ← load_record who q;
  settle Refunded "Refunded" who q record.

Definition expire (who : ScAddress) (q : string) : prog unit :=
  record ← load_record who q;
  now ← ledger_timestamp;
  panic_if (bool_decide (now < expires_at record)) "not expired" ;;
  settle Expired "Expired" who q record.

Definition get_record (who : ScAddress) (q : string) : prog (option EscrowRecord) :=
  b ← has (record_key who q);
  if b : bool then
    record ← load_record who q; Ret (Some record)
  else Ret None.

Definition default_config (q : string) (self : ScAddress) : EscrowConfig :=
  mkEscrowConfig q 0 i128_max 30 self.

Definition get_config (q : string) : prog EscrowConfig :=
  o ← get configC (config_key q);
  self ← current_contract;
  Ret (default (default_config q self) o).

Definition set_config (a : ScAddress) (config : EscrowConfig) : prog unit :=
  require_auth a ;;
  panic_if (bool_decide (max_deposit config < min_deposit config)) "min_deposit_exceeds_max" ;;
  panic_if (bool_decide (hold_period_days config = 0)) "hold_period_must_be_positive" ;;
  store configC (config_key (cfg_queue_id config)) config.

Definition get_total_held (q : string) : prog Z := get_or i128C (total_key q) 0.

(** * The contract's interface *)

Inductive Call :=
| CDeposit (caller : ScAddress) (q : string) (amt : Z) (ast : ScAddress)
| CRelease (a who : ScAddress) (q : string)
| CRefund (a who : ScAddress) (q : string)
| CExpire (who : ScAddress) (q : string)
| CGetRecord (who : ScAddress) (q : string)
| CGetConfig (q : string)
| CSetConfig (a : ScAddress) (config : EscrowConfig)
| CGetTotalHeld (q : string).

Inductive Ret_val :=
| RUnit
| RI128 (n : Z)
| RRecord (r : option EscrowRecord)
| RConfig (c : EscrowConfig).

Definition exec (c : Call) : prog Ret_val :=
  match c with
  | CDeposit caller q amt ast => deposit caller q amt ast ;; Ret RUnit
  | CRelease a who q => release a who q ;; Ret RUnit
  | CRefund a who q => refund a who q ;; Ret RUnit
  | CExpire who q => expire who q ;; Ret RUnit
  | CGetRecord who q => RRecord <$> get_record who q
  | CGetConfig q => RConfig <$> get_config q
  | CSetConfig a config => set_config a config ;; Ret RUnit
  | CGetTotalHeld q => RI128 <$> get_total_held q
  end.

End Escrow.
