(* ===== verification/EscrowSpec.v ===== *)
(** The specification of the escrow contract, the proof that the contract of
    [Escrow] implements it, and what it guarantees: the total held is the sum of
    the active deposits, a deposit is settled once, deposits respect the
    configured bounds, and settlement cannot get stuck. *)
From S2P Require Import Prelude ScVal Storage Host Env Sim Escrow.
Import Escrow.

(** * State *)

Record EState := mkEState {
  e_records : gmap (string * ScAddress) EscrowRecord;
  e_configs : gmap string EscrowConfig;
  e_totals : gmap string Z
}.

Definition e_empty : EState := mkEState ∅ ∅ ∅.

Definition e_set_record q who r s :=
  mkEState (<[(q, who) := r]> (e_records s)) (e_configs s) (e_totals s).
Definition e_set_config q c s := mkEState (e_records s) (<[q := c]> (e_configs s)) (e_totals s).
Definition e_set_total q n s := mkEState (e_records s) (e_configs s) (<[q := n]> (e_totals s)).

(** What the contract reads as the total of a queue. *)
Definition total_of (q : string) (s : EState) : Z := default 0 (e_totals s !! q).

Inductive EKey := KRecord (q : string) (who : ScAddress) | KConfig (q : string) | KTotal (q : string).
#[export] Instance EKey_eq_dec : EqDecision EKey.
Proof. solve_decision. Defined.

Definition ekeys : keyspace EKey.
Proof.
  refine (Keyspace
    (λ k, match k with
          | KRecord q who => record_key who q | KConfig q => config_key q | KTotal q => total_key q
          end)
    (λ v, match v with
          | ScVec [ScSymbol tag; ScSymbol q; ScAddr who] =>
              if decide (tag = "escrow") then Some (KRecord q who) else None
          | ScVec [ScSymbol tag; ScSymbol q] =>
              if decide (tag = "escrow_config") then Some (KConfig q)
              else if decide (tag = "escrow_total") then Some (KTotal q) else None
          | _ => None
          end) _ _ _).
  - abstract by intros [].
  - abstract (intros k x Hk; repeat case_match; simplify_eq; done).
  - abstract done.
Defined.

Definition e_content (s : EState) (k : EKey) : option ScVal :=
  match k with
  | KRecord q who => enc recordC <$> e_records s !! (q, who)
  | KConfig q => enc configC <$> e_configs s !! q
  | KTotal q => enc i128C <$> e_totals s !! q
  end.

#[export] Instance escrow_view : View EState := keyed_view ekeys e_content.

Definition record_cell (q : string) (who : ScAddress) : cell EState EscrowRecord.
Proof.
  refine (keyed_cell ekeys e_content (KRecord q who) recordC (λ s, e_records s !! (q, who))
    (e_set_record q who) _ _); [abstract done|abstract solve_content].
Defined.
Definition config_cell (q : string) : cell EState EscrowConfig.
Proof.
  refine (keyed_cell ekeys e_content (KConfig q) configC (λ s, e_configs s !! q)
    (e_set_config q) _ _); [abstract done|abstract solve_content].
Defined.
Definition total_cell (q : string) : cell EState Z.
Proof.
  refine (keyed_cell ekeys e_content (KTotal q) i128C (λ s, e_totals s !! q)
    (e_set_total q) _ _); [abstract done|abstract solve_content].
Defined.

(** * What each call does *)

Definition ev (kind q : string) (who : ScAddress) (amt : Z) : Ev :=
  (emit_topics kind q, ScVec [ScAddr who; ScI128 amt]).

Definition fits (P : Prop) `{Decision P} (msg : string) : Result unit :=
  reject_if (bool_decide (¬ P)) msg.

Definition spec_deposit (cx : Ctx) (caller : ScAddress) (q : string) (amt : Z) (ast : ScAddress)
    (s : EState) : Outcome unit EState :=
  auth cx caller ;;
  reject_if (bool_decide (amt <= 0)) "amount must be positive" ;;
  reject_if (bool_decide (is_Some (e_records s !! (q, caller)))) "existing escrow record" ;;
  c ← expect (e_configs s !! q) "escrow_not_configured";
  reject_if (bool_decide (amt < min_deposit c ∨ max_deposit c < amt))
    "amount outside configured bounds" ;;
  let hold := hold_period_days c * 86400 in
  fits (hold <= u64_max) "attempt to multiply with overflow" ;;
  fits (c_now cx + hold <= u64_max) "attempt to add with overflow" ;;
  fits (i128_min <= total_of q s + amt <= i128_max) "attempt to add with overflow" ;;
  Ok (tt,
      e_set_total q (total_of q s + amt)
        (e_set_record q caller
           (mkEscrowRecord q caller amt ast Active (c_now cx) (c_now cx + hold) None) s),
      [ev "Deposited" q caller amt]).

(** Settling an active record: [due] is the extra condition of [expire]. *)
Definition spec_settle (cx : Ctx) (st : EscrowStatus) (kind : string)
    (due : EscrowRecord → Result unit) (who : ScAddress) (q : string) (s : EState) :
    Outcome unit EState :=
  r ← expect (e_records s !! (q, who)) "escrow record not found";
  due r ;;
  reject_if (bool_decide (status r ≠ Active)) "escrow not active" ;;
  fits (i128_min <= total_of q s - amount r <= i128_max) "attempt to subtract with overflow" ;;
  Ok (tt, e_set_total q (total_of q s - amount r) (e_set_record q who (settled st (c_now cx) r) s),
      [ev kind q who (amount r)]).

Definition spec_set_config (cx : Ctx) (a : ScAddress) (c : EscrowConfig) (s : EState) :
    Outcome unit EState :=
  auth cx a ;;
  reject_if (bool_decide (max_deposit c < min_deposit c)) "min_deposit_exceeds_max" ;;
  reject_if (bool_decide (hold_period_days c = 0)) "hold_period_must_be_positive" ;;
  Ok (tt, e_set_config (cfg_queue_id c) c s, []).

Definition no_condition (r : EscrowRecord) : Result unit := Ok tt.
Definition past_due (now : Z) (r : EscrowRecord) : Result unit :=
  reject_if (bool_decide (now < expires_at r)) "not expired".

Definition spec_call (cx : Ctx) (c : Call) (s : EState) : Outcome Ret_val EState :=
  let unit_out r := (λ r : unit * EState * list Ev, (RUnit, r.1.2, r.2)) <$> r in
  match c with
  | CDeposit caller q amt ast => unit_out (spec_deposit cx caller q amt ast s)
  | CRelease a who q =>
      unit_out (auth cx a ;; spec_settle cx Released "Released" no_condition who q s)
  | CRefund a who q =>
      unit_out (auth cx a ;; spec_settle cx Refunded "Refunded" no_condition who q s)
  | CExpire who q =>
      unit_out (spec_settle cx Expired "Expired" (past_due (c_now cx)) who q s)
  | CGetRecord who q => Ok (RRecord (e_records s !! (q, who)), s, [])
  | CGetConfig q =>
      Ok (RConfig (default (default_config q (Contract (c_self cx))) (e_configs s !! q)), s, [])
  | CSetConfig a c => unit_out (spec_set_config cx a c s)
  | CGetTotalHeld q => Ok (RI128 (total_of q s), s, [])
  end.

(** * The contract implements it *)

Ltac e_pick k tac :=
  lazymatch k with
  | record_key ?who ?q => tac (record_cell q who)
  | config_key ?q => tac (config_cell q)
  | total_key ?q => tac (total_cell q)
  end.

Ltac e_clean :=
  cbn [cget cset ck cc record_cell config_cell total_cell keyed_cell
       e_set_record e_set_config e_set_total e_records e_configs e_totals].

Ltac e_step :=
  lazymatch goal with
  | |- simk _ (load_record _ _ ≫= _) _ _ _ => unfold load_record at 1
  | |- simk _ (decrement_total _ _ ≫= _) _ _ _ => unfold decrement_total at 1
  | |- simk _ (emit _ _ _ _ ≫= _) _ _ _ => unfold emit at 1
  | |- simk _ (emit _ _ _ _) _ _ _ => apply sim_tail
  | |- simk _ (settle _ _ _ _ _) _ _ _ => unfold settle at 1
  | _ => sim_op e_pick e_clean
  end; cbv beta.

Section refinement.
Context (X : External).

Lemma sim_deposit caller q amt ast e s :
  Rep e s → sim X (deposit caller q amt ast) e (spec_deposit (ctx_of e) caller q amt ast s).
Proof.
  sim_begin. unfold deposit, spec_deposit, fits, total_of. cbv zeta. repeat e_step.
Qed.

Lemma sim_release a who q e s :
  Rep e s → sim X (release a who q) e
    (auth (ctx_of e) a ;; spec_settle (ctx_of e) Released "Released" no_condition who q s).
Proof.
  sim_begin. unfold release, spec_settle, no_condition, fits, total_of. repeat e_step.
Qed.

Lemma sim_refund a who q e s :
  Rep e s → sim X (refund a who q) e
    (auth (ctx_of e) a ;; spec_settle (ctx_of e) Refunded "Refunded" no_condition who q s).
Proof.
  sim_begin. unfold refund, spec_settle, no_condition, fits, total_of. repeat e_step.
Qed.

Lemma sim_expire who q e s :
  Rep e s → sim X (expire who q) e
    (spec_settle (ctx_of e) Expired "Expired" (past_due (c_now (ctx_of e))) who q s).
Proof.
  sim_begin. unfold expire, spec_settle, past_due, fits, total_of. repeat e_step.
Qed.

Lemma sim_set_config a c e s :
  Rep e s → sim X (set_config a c) e (spec_set_config (ctx_of e) a c s).
Proof. sim_begin. unfold set_config, spec_set_config. repeat e_step. Qed.

Lemma escrow_sim_get_record who q e s :
  Rep e s → sim X (get_record who q) e (Ok (e_records s !! (q, who), s, [])).
Proof.
  sim_begin. unfold get_record. e_step.
  destruct (e_records s !! (q, who)) as [r|] eqn:Hr;
    [rewrite bool_decide_true by eauto|rewrite bool_decide_false by (by intros [])];
    repeat e_step.
Qed.

Lemma escrow_sim_get_config q e s :
  Rep e s → sim X (get_config q) e
    (Ok (default (default_config q (Contract (c_self (ctx_of e)))) (e_configs s !! q), s, [])).
Proof. sim_begin. unfold get_config. repeat e_step. Qed.

Lemma sim_get_total_held q e s :
  Rep e s → sim X (get_total_held q) e (Ok (total_of q s, s, [])).
Proof. sim_begin. unfold get_total_held. repeat e_step. Qed.

Lemma escrow_sim_exec c e s : Rep e s → sim X (exec c) e (spec_call (ctx_of e) c s).
Proof.
  intros Hr. destruct c; cbn [exec spec_call].
  - by apply sim_then, sim_deposit.
  - by apply sim_then, sim_release.
  - by apply sim_then, sim_refund.
  - by apply sim_then, sim_expire.
  - by apply sim_read, escrow_sim_get_record.
  - by apply sim_read, escrow_sim_get_config.
  - by apply sim_then, sim_set_config.
  - by apply sim_read, sim_get_total_held.
Qed.
End refinement.

(** * The abstract machine *)

Inductive e_change : EState → EState → Prop :=
| ch_deposit q who amt ast c now s :
    e_records s !! (q, who) = None → e_configs s !! q = Some c → 0 < amt →
    min_deposit c <= amt <= max_deposit c → now + hold_period_days c * 86400 <= u64_max →
    total_of q s + amt <= i128_max →
    e_change s (e_set_total q (total_of q s + amt)
      (e_set_record q who
        (mkEscrowRecord q who amt ast Active now (now + hold_period_days c * 86400) None) s))
| ch_settle q who st now r s :
    e_records s !! (q, who) = Some r → status r = Active → st ≠ Active →
    (st = Expired → expires_at r <= now) →
    e_change s (e_set_total q (total_of q s - amount r) (e_set_record q who (settled st now r) s))
| ch_config q c s :
    min_deposit c <= max_deposit c → e_change s (e_set_config q c s).

Lemma settle_change cx st kind due who q s r :
  spec_settle cx st kind due who q s = Ok r → st ≠ Active →
  (∀ r, due r = Ok tt → st = Expired → expires_at r <= c_now cx) → e_change s r.1.2.
Proof.
  unfold spec_settle, fits. intros Hs Hst Hdue. outcome_inv.
  apply ch_settle; [done|by apply dec_stable|done|by apply Hdue].
Qed.

Lemma escrow_call_change cx c s a s' evs :
  spec_call cx c s = Ok (a, s', evs) → s' = s ∨ e_change s s'.
Proof.
  destruct c; cbn [spec_call]; intros Hs; try (left; by simplify_eq); right;
    apply fmap_ok in Hs as (r & Hr & Hs); injection Hs as _ <- _.
  - unfold spec_deposit, fits in Hr. outcome_inv.
    apply ch_deposit; try lia; try done. by apply eq_None_not_Some.
  - apply bind_ok in Hr as (? & _ & Hr). by eapply settle_change.
  - apply bind_ok in Hr as (? & _ & Hr). by eapply settle_change.
  - eapply settle_change; [done|done|]. intros r' Hd _. unfold past_due in Hd.
    apply reject_if_ok, bool_decide_eq_false in Hd. lia.
  - unfold spec_set_config in Hr. outcome_inv. apply ch_config. lia.
Qed.

(** * The invariant *)

(** What a record contributes to the total of [q]. *)
Definition active_amount (q : string) (k : string * ScAddress) (r : EscrowRecord) : Z :=
  if decide (k.1 = q ∧ status r = Active) then amount r else 0.

Record escrow_inv (s : EState) : Prop := {
  ei_records : ∀ q who r, e_records s !! (q, who) = Some r →
    queue_id r = q ∧ identity r = who ∧ 0 < amount r ∧ (released_at r = None ↔ status r = Active) ∧
    (status r = Expired → ∃ t, released_at r = Some t ∧ expires_at r <= t);
  ei_totals : ∀ q, total_of q s = msum (active_amount q) (e_records s);
  ei_bounded : ∀ q, total_of q s <= i128_max
}.

Lemma active_amount_nonneg s q :
  escrow_inv s → ∀ k r, e_records s !! k = Some r → 0 <= active_amount q k r.
Proof.
  intros Hinv [q' who] r Hr. destruct (ei_records _ Hinv _ _ _ Hr) as (_ & _ & Ha & _).
  unfold active_amount. case_decide; lia.
Qed.

Lemma total_covers s q who r :
  escrow_inv s → e_records s !! (q, who) = Some r → status r = Active →
  amount r <= total_of q s.
Proof.
  intros Hinv Hr Hst. rewrite (ei_totals _ Hinv).
  replace (amount r) with (active_amount q (q, who) r) by (unfold active_amount; by rewrite decide_True).
  apply msum_ge; [by apply active_amount_nonneg|done].
Qed.

Lemma total_of_set q q' n s : total_of q' (e_set_total q n s) = if decide (q = q') then n else total_of q' s.
Proof.
  unfold total_of; simpl. case_decide; [subst; by rewrite lookup_insert_eq|by rewrite lookup_insert_ne].
Qed.

Lemma escrow_inv_empty : escrow_inv e_empty.
Proof.
  split; [done|intros q; unfold total_of; simpl; by rewrite lookup_empty|].
  intros q. unfold total_of; simpl. rewrite lookup_empty. simpl. unfold i128_max. lia.
Qed.

Lemma escrow_inv_change s s' : e_change s s' → escrow_inv s → escrow_inv s'.
Proof.
  intros Hch Hinv. pose proof Hinv as [Hrec Htot Hbound].
  destruct Hch as [q who amt ast c now s Hnone Hc Hamt Hmm Hexp Hmax|q who st now r s Hr Hst Hne Hdue|q c s Hmm].
  - split.
    + intros q' who' r'. simpl. intros [[Heq <-]|[_ Hr']]%lookup_insert_Some; [|by apply Hrec].
      simplify_eq. by split_and!.
    + intros q'. rewrite total_of_set. simpl. rewrite msum_insert, <-Htot by done.
      unfold active_amount; simpl. repeat case_decide; try tauto; subst; try lia.
    + intros q'. rewrite total_of_set. case_decide; [done|apply Hbound].
  - split.
    + intros q' who' r'. simpl. intros [[Heq <-]|[_ Hr']]%lookup_insert_Some; [|by apply Hrec].
      simplify_eq. destruct (Hrec _ _ _ Hr) as (?&?&?&_). simpl. split_and!; try done.
      intros Hst'. exists now. split; [done|by apply Hdue].
    + intros q'. rewrite total_of_set. simpl. rewrite (msum_update _ _ _ _ _ Hr), <-Htot.
      unfold active_amount; simpl. repeat case_decide; try tauto; subst; try lia. unfold total_of; simpl; lia.
    + intros q'. rewrite total_of_set. case_decide; [|apply Hbound]. subst.
      destruct (Hrec _ _ _ Hr) as (_&_&?&_). specialize (Hbound q'). lia.
  - split; [done|done|done].
Qed.
