(* ===== verification/EscrowThms.v ===== *)
(** What the escrow contract guarantees, for all histories of transactions, each
    with an evaluated scenario. *)
From S2P Require Import Prelude ScVal Storage Host Env Sim Escrow EscrowSpec.
Import Escrow.

(** * Order of records *)

(** [r'] is what may become of a deposit [r]: the same deposit, untouched once it
    is settled. *)
Definition deposit_after (r r' : EscrowRecord) : Prop :=
  queue_id r' = queue_id r ∧ identity r' = identity r ∧ amount r' = amount r ∧
  asset r' = asset r ∧ created_at r' = created_at r ∧ expires_at r' = expires_at r ∧
  (status r ≠ Active → r' = r).

#[export] Instance deposit_after_preorder : PreOrder deposit_after.
Proof.
  split; [by intros r; split_and!|].
  intros r1 r2 r3 (?&?&?&?&?&?&H12) (?&?&?&?&?&?&H23). split_and!; try congruence.
  intros Hr. rewrite H23; [by apply H12|]. by rewrite H12.
Qed.

Definition e_after (s s' : EState) : Prop :=
  ∀ k r, e_records s !! k = Some r → ∃ r', e_records s' !! k = Some r' ∧ deposit_after r r'.

#[export] Instance e_after_preorder : PreOrder e_after.
Proof.
  split; [by intros s k r Hr; exists r|].
  intros s1 s2 s3 H12 H23 k r Hr. destruct (H12 k r Hr) as (r2 & Hr2 & Ha).
  destruct (H23 k r2 Hr2) as (r3 & Hr3 & Hb). exists r3. split; [done|]. by etrans.
Qed.

Lemma e_change_after s s' : e_change s s' → e_after s s'.
Proof.
  destruct 1 as [q who amt ast c now s Hnone| q who st now r s Hr Hst Hne _|]; intros k r' Hr'; simpl.
  - exists r'. split; [|done]. rewrite lookup_insert_ne; [done|]. congruence.
  - destruct (decide ((q, who) = k)) as [<-|Hk].
    + rewrite lookup_insert_eq. simplify_eq. eexists. split; [done|]. by split_and!.
    + rewrite lookup_insert_ne by done. by exists r'.
  - by exists r'.
Qed.

(** * Histories *)
Section history.
Context (X : External).

Definition escrow_tx : Env → Env → Prop := tx X exec (λ _, True).

Lemma escrow_step_change s s' : spec_step spec_call (λ _, True) s s' → s' = s ∨ e_change s s'.
Proof. intros (cx & c & a & evs & _ & Hs). by eapply escrow_call_change. Qed.

Lemma escrow_inv_step s s' :
  escrow_inv s → spec_step spec_call (λ _, True) s s' → escrow_inv s'.
Proof. intros Hinv [->|Hch]%escrow_step_change; [done|]. by eapply escrow_inv_change. Qed.

Lemma escrow_history e e' s :
  rtc escrow_tx e e' → Rep e s → escrow_inv s →
  ∃ s', Rep e' s' ∧ escrow_inv s' ∧ e_after s s'.
Proof.
  apply (history_after X exec ctx_of spec_call _ escrow_inv).
  - intros. by apply escrow_sim_exec.
  - apply escrow_inv_step.
  - apply _.
  - intros s1 s2 _ [->|Hch]%escrow_step_change; [done|]. by apply e_change_after.
Qed.

Lemma escrow_reachable e0 e :
  Rep e0 e_empty → rtc escrow_tx e0 e → ∃ s, Rep e s ∧ escrow_inv s.
Proof.
  intros Hr Htx. destruct (escrow_history e0 e _ Htx Hr escrow_inv_empty) as (s & ? & ? & _). eauto.
Qed.

Lemma record_data e s q who :
  Rep e s → data e (record_key who q) = enc recordC <$> e_records s !! (q, who).
Proof. apply (Rep_get (record_cell q who)). Qed.

Lemma total_data e s q : Rep e s → data e (total_key q) = enc i128C <$> e_totals s !! q.
Proof. apply (Rep_get (total_cell q)). Qed.

Lemma config_data e s q : Rep e s → data e (config_key q) = enc configC <$> e_configs s !! q.
Proof. apply (Rep_get (config_cell q)). Qed.

Lemma escrow_stored_record e s q who r :
  Rep e s → data e (record_key who q) = Some (enc recordC r) → e_records s !! (q, who) = Some r.
Proof. apply (cell_stored (record_cell q who)). Qed.

Lemma record_stored e s q who r :
  Rep e s → e_records s !! (q, who) = Some r → data e (record_key who q) = Some (enc recordC r).
Proof. apply (cell_stored (record_cell q who)). Qed.
End history.

(** * A scenario

    Alice configures the queue "drop"; Bob and Carol deposit; Bob is released. *)
Definition demo_escrow_config : EscrowConfig := mkEscrowConfig "drop" 100 1000 30 alice.
Definition demo_asset : ScAddress := Contract 9%N.
Definition demo_held : Env := play toy exec
  [({[alice]}, CSetConfig alice demo_escrow_config); ({[bob]}, CDeposit bob "drop" 500 demo_asset);
   ({[carol]}, CDeposit carol "drop" 300 demo_asset)] fresh.
Definition demo_released : Env := play toy exec [({[alice]}, CRelease alice bob "drop")] demo_held.
Definition demo_record (who : ScAddress) (amt : Z) (st : EscrowStatus) (released : option Z) :
    EscrowRecord := mkEscrowRecord "drop" who amt demo_asset st 1000 2593000 released.

Lemma escrow_demo_fresh : Rep fresh e_empty.
Proof.
  apply fresh_Rep. intros k. unfold view, escrow_view, keyed_view.
  destruct (of_key ekeys k) as [[]|]; simpl; by rewrite ?lookup_empty.
Qed.
Lemma demo_held_history : rtc (escrow_tx toy) fresh demo_held.
Proof. apply play_tx. by repeat constructor. Qed.
Lemma demo_released_history : rtc (escrow_tx toy) demo_held demo_released.
Proof. apply play_tx. by repeat constructor. Qed.

(** * Theorems *)
Section theorems.
Context (X : External).

(** C5: The escrow contract implements its specification: a successful
    invocation returns the specified value, stores the specified state and emits
    the specified events; a failed one changes nothing; and on a live ledger the
    outcome is the specified one, with the same error. *)
Theorem escrow_call_correct auths c e s :
  Rep e s →
  call_outcome e s (spec_call (ctx_of (authorized auths e)) c s) (invoke X auths (exec c) e).
Proof. intros Hr. by apply invoke_correct; [apply escrow_sim_exec|]. Qed.

(** C6: The books balance: in every reachable ledger the stored total of a queue
    (zero when absent) is exactly the sum of the amounts of its active deposits,
    and lies between zero and the largest i128. *)
Theorem escrow_books_balance e0 e :
  Rep e0 e_empty → rtc (escrow_tx X) e0 e →
  ∃ records : gmap (string * ScAddress) EscrowRecord,
    (∀ q who, data e (record_key who q) = enc recordC <$> records !! (q, who)) ∧
    ∀ q, ∃ total, data e (total_key q) = enc i128C <$> total ∧
      default 0 total = msum (active_amount q) records ∧ 0 <= default 0 total <= i128_max.
Proof.
  intros Hr0 Htx. destruct (escrow_reachable X e0 e Hr0 Htx) as (s & Hr & Hinv).
  exists (e_records s). split; [intros; by apply record_data|].
  intros q. exists (e_totals s !! q). split; [by apply total_data|].
  change (default 0 (e_totals s !! q)) with (total_of q s).
  split; [apply Hinv|]. split; [|apply Hinv]. rewrite (ei_totals _ Hinv).
  by apply msum_nonneg, active_amount_nonneg.
Qed.

(** A deposit is settled at most once: its record is never deleted nor
    replaced by another deposit, keeps owner, amount, asset and dates, and does
    not change at all once it is released, refunded or expired. *)
Theorem escrow_settled_once e0 e1 e2 q who r :
  Rep e0 e_empty → rtc (escrow_tx X) e0 e1 → rtc (escrow_tx X) e1 e2 →
  data e1 (record_key who q) = Some (enc recordC r) →
  ∃ r', data e2 (record_key who q) = Some (enc recordC r') ∧
    queue_id r' = queue_id r ∧ identity r' = identity r ∧ amount r' = amount r ∧
    asset r' = asset r ∧ created_at r' = created_at r ∧ expires_at r' = expires_at r ∧
    (status r ≠ Active → r' = r).
Proof.
  intros Hr0 H1 H2 Hd. destruct (escrow_reachable X e0 e1 Hr0 H1) as (s1 & Hr1 & Hinv1).
  destruct (escrow_history X e1 e2 s1 H2 Hr1 Hinv1) as (s2 & Hr2 & _ & Hafter).
  destruct (Hafter (q, who) r (escrow_stored_record _ _ _ _ _ Hr1 Hd)) as (r' & Hr' & Ha).
  exists r'. split; [by eapply record_stored|done].
Qed.

(** No early expiry: in every reachable ledger an expired deposit was settled
    at a time no earlier than its expiry date, and a deposit has a settlement
    time exactly when it is no longer active. *)
Theorem escrow_expiry_respected e0 e q who r :
  Rep e0 e_empty → rtc (escrow_tx X) e0 e →
  data e (record_key who q) = Some (enc recordC r) →
  (released_at r = None ↔ status r = Active) ∧
  (status r = Expired → ∃ t, released_at r = Some t ∧ expires_at r <= t).
Proof.
  intros Hr0 Htx Hd. destruct (escrow_reachable X e0 e Hr0 Htx) as (s & Hr & Hinv).
  by destruct (ei_records _ Hinv _ _ _ (escrow_stored_record _ _ _ _ _ Hr Hd)) as (_ & _ & _ & ? & ?).
Qed.

(** Deposits respect the configuration: an accepted deposit was signed by its
    depositor, the first of that depositor for the queue, within the configured
    bounds, and its expiry is the hold period after the current time, computed
    without overflow. *)
Theorem escrow_deposit_bounds e0 e auths caller q amt ast e' :
  Rep e0 e_empty → rtc (escrow_tx X) e0 e →
  invoke X auths (exec (CDeposit caller q amt ast)) e = (Ok RUnit, e') →
  caller ∈ auths ∧ data e (record_key caller q) = None ∧
  ∃ c, data e (config_key q) = Some (enc configC c) ∧
    0 < amt ∧ min_deposit c <= amt <= max_deposit c ∧
    let now := timestamp (h_ledger e) in
    let expires := now + hold_period_days c * 86400 in
    expires <= u64_max ∧
    data e' (record_key caller q) =
      Some (enc recordC (mkEscrowRecord q caller amt ast Active now expires None)).
Proof.
  intros Hr0 Htx Hi. destruct (escrow_reachable X e0 e Hr0 Htx) as (s & Hr & Hinv).
  destruct (invoke_committed X exec ctx_of spec_call (λ _, True) escrow_inv) with auths
    (CDeposit caller q amt ast) e s RUnit e' as (s' & evs & Hs & Hr' & _); try done;
    [intros; by apply escrow_sim_exec|apply escrow_inv_step|].
  cbn [spec_call] in Hs. unfold spec_deposit, fits in Hs. outcome_inv.
  match goal with H : e_configs s !! q = Some ?x |- _ => rename x into c, H into Hc end.
  split_and!; [done| |].
  - rewrite (record_data _ _ _ _ Hr). by apply fmap_None, eq_None_not_Some.
  - exists c. split_and!; [by rewrite (config_data _ _ _ Hr), Hc|lia..| |].
    + by apply dec_stable.
    + rewrite (record_data _ _ _ _ Hr'). simpl. by rewrite lookup_insert_eq.
Qed.

(** C7: Settlement cannot get stuck, and needs no particular signer: on a live
    ledger any active deposit is released by a call signed by any account at
    all.  The contract checks the signature of the address it is given as
    administrator, but never that this address is the configured one. *)
Theorem escrow_anyone_releases e0 e auths a who q r :
  Rep e0 e_empty → rtc (escrow_tx X) e0 e → env_live e → a ∈ auths →
  data e (record_key who q) = Some (enc recordC r) → status r = Active →
  ∃ e', invoke X auths (exec (CRelease a who q)) e = (Ok RUnit, e') ∧
    data e' (record_key who q) =
      Some (enc recordC (settled Released (timestamp (h_ledger e)) r)).
Proof.
  intros Hr0 Htx Hl Ha Hd Hst. destruct (escrow_reachable X e0 e Hr0 Htx) as (s & Hr & Hinv).
  apply (escrow_stored_record _ _ _ _ _ Hr) in Hd.
  pose proof (escrow_sim_exec X (CRelease a who q) (authorized auths e) s Hr) as Hsim.
  cbn [spec_call] in Hsim. unfold spec_settle, no_condition, fits in Hsim.
  rewrite (proj2 (auth_ok (ctx_of (authorized auths e)) a)) in Hsim by done.
  rewrite Hd, bind_Ok, expect_Some, !bind_Ok, (bool_decide_false (status r ≠ Active)) in Hsim
    by tauto.
  rewrite reject_if_false, bind_Ok, bool_decide_false in Hsim.
  2: { pose proof (total_covers _ _ _ _ Hinv Hd Hst). pose proof (ei_bounded _ Hinv q).
       destruct (ei_records _ Hinv _ _ _ Hd) as (_&_&?&_).
       unfold i128_min, i128_max in *. lia. }
  destruct (invoke_live_ok X auths _ e s _ _ _ Hsim Hr Hl) as (e' & Hi & Hr' & _).
  exists e'. split; [done|]. rewrite (record_data _ _ _ _ Hr'). simpl.
  by rewrite lookup_insert_eq.
Qed.
End theorems.

Lemma escrow_call_correct_witness :
  let c := CDeposit bob "drop" 500 demo_asset in
  Rep fresh e_empty ∧
  call_outcome fresh e_empty (spec_call (ctx_of (authorized {[bob]} fresh)) c e_empty)
    (invoke toy {[bob]} (exec c) fresh).
Proof. split; [apply escrow_demo_fresh|]. apply escrow_call_correct. apply escrow_demo_fresh. Defined.

Lemma escrow_books_balance_witness :
  ∃ records : gmap (string * ScAddress) EscrowRecord,
    (∀ q who, data demo_released (record_key who q) = enc recordC <$> records !! (q, who)) ∧
    ∀ q, ∃ total, data demo_released (total_key q) = enc i128C <$> total ∧
      default 0 total = msum (active_amount q) records ∧ 0 <= default 0 total <= i128_max.
Proof.
  apply (escrow_books_balance toy fresh).
  - apply escrow_demo_fresh.
  - etrans; [apply demo_held_history|apply demo_released_history].
Defined.

Lemma escrow_settled_once_witness :
  ∃ r', data demo_released (record_key bob "drop") = Some (enc recordC r') ∧
    queue_id r' = "drop" ∧ identity r' = bob ∧ amount r' = 500 ∧ asset r' = demo_asset ∧
    created_at r' = 1000 ∧ expires_at r' = 2593000 ∧
    (Active ≠ Active → r' = demo_record bob 500 Active None).
Proof.
  apply (escrow_settled_once toy fresh demo_held demo_released "drop" bob
    (demo_record bob 500 Active None)).
  - apply escrow_demo_fresh.
  - apply demo_held_history.
  - apply demo_released_history.
  - by vm_compute.
Defined.

Lemma escrow_expiry_respected_witness :
  let r := demo_record bob 500 Released (Some 1000) in
  (released_at r = None ↔ status r = Active) ∧
  (status r = Expired → ∃ t, released_at r = Some t ∧ expires_at r <= t).
Proof.
  apply (escrow_expiry_respected toy fresh demo_released "drop" bob).
  - apply escrow_demo_fresh.
  - etrans; [apply demo_held_history|apply demo_released_history].
  - by vm_compute.
Defined.

Definition demo_configured : Env :=
  play toy exec [({[alice]}, CSetConfig alice demo_escrow_config)] fresh.

Lemma escrow_deposit_bounds_witness :
  let e' := (invoke toy {[bob]} (exec (CDeposit bob "drop" 500 demo_asset)) demo_configured).2 in
  bob ∈ ({[bob]} : gset ScAddress) ∧ data demo_configured (record_key bob "drop") = None ∧
  ∃ c, data demo_configured (config_key "drop") = Some (enc configC c) ∧
    0 < 500 ∧ min_deposit c <= 500 <= max_deposit c ∧
    let now := timestamp (h_ledger demo_configured) in
    let expires := now + hold_period_days c * 86400 in
    expires <= u64_max ∧
    data e' (record_key bob "drop") =
      Some (enc recordC (mkEscrowRecord "drop" bob 500 demo_asset Active now expires None)).
Proof.
  apply (escrow_deposit_bounds toy fresh demo_configured).
  - apply escrow_demo_fresh.
  - apply play_tx. by repeat constructor.
  - apply outcome_fst. by vm_compute.
Defined.

(** The scenario's ledger stays live. *)
Lemma demo_held_live : env_live demo_held.
Proof.
  unfold demo_held. rewrite play_foldl.
  eapply (invokes_live toy exec ctx_of spec_call (λ _, True) escrow_inv _ _ _ fresh e_empty).
  - by repeat constructor.
  - apply escrow_demo_fresh.
  - apply escrow_inv_empty.
  - apply fresh_live.
  Unshelve. all: [> intros; by apply escrow_sim_exec | apply escrow_inv_step].
Qed.

(** Carol, who has no role, releases Bob's deposit. *)
Lemma escrow_anyone_releases_witness :
  ∃ e', invoke toy {[carol]} (exec (CRelease carol bob "drop")) demo_held = (Ok RUnit, e') ∧
    data e' (record_key bob "drop") =
      Some (enc recordC (settled Released 1000 (demo_record bob 500 Active None))).
Proof.
  apply (escrow_anyone_releases toy fresh demo_held {[carol]} carol bob "drop"
    (demo_record bob 500 Active None)).
  - apply escrow_demo_fresh.
  - apply demo_held_history.
  - apply demo_held_live.
  - by apply elem_of_singleton.
  - by vm_compute.
  - done.
Defined.
