(* ===== verification/Identity.v ===== *)
(** The identity contract, [contracts/lineproof-identity/src/lib.rs]: its data with
    their stored form, one program per entry point, and the dispatcher. *)
From S2P Require Import Prelude ScVal Host.

Module Identity.

Definition MAX_QUEUES_PER_IDENTITY : Z := 100.

(** * Data *)

Inductive BindingStatus := Unbound | Bound | Revoked.

Record IdentityRecord := mkIdentityRecord {
  identity : ScAddress;
  bound_at : Z;
  queues : list string;
  status : BindingStatus
}.

Record TransferAttempt := mkTransferAttempt {
  from : ScAddress;
  to : ScAddress;
  attempted_at : Z;
  reverted : bool
}.

#[export] Instance BindingStatus_eq_dec : EqDecision BindingStatus.
Proof. solve_decision. Defined.
#[export] Instance IdentityRecord_eq_dec : EqDecision IdentityRecord.
Proof. solve_decision. Defined.

(** The record of an identity the contract has not stored yet. *)
Definition unbound_record (who : ScAddress) : IdentityRecord := mkIdentityRecord who 0 [] Unbound.

(** [record] after binding [q] at [now]; the first binding dates it. *)
Definition add_queue (q : string) (now : Z) (record : IdentityRecord) : IdentityRecord :=
  mkIdentityRecord (identity record)
    (if decide (bound_at record = 0) then now else bound_at record)
    (queues record ++ [q]) Bound.

(** [record] without the queue [q]; the status stays as it was. *)
Definition drop_queue (q : string) (record : IdentityRecord) : IdentityRecord :=
  mkIdentityRecord (identity record) (bound_at record)
    (filter (λ q', q' ≠ q) (queues record)) (status record).

Definition set_revoked (record : IdentityRecord) : IdentityRecord :=
  mkIdentityRecord (identity record) (bound_at record) (queues record) Revoked.

(** * Stored form *)

Definition status_name (st : BindingStatus) : string :=
  match st with Unbound => "Unbound" | Bound => "Bound" | Revoked => "Revoked" end.
Definition status_of_name (s : string) : option BindingStatus :=
  if decide (s = "Unbound") then Some Unbound
  else if decide (s = "Bound") then Some Bound
  else if decide (s = "Revoked") then Some Revoked
  else None.
Lemma identity_status_name_inv st : status_of_name (status_name st) = Some st.
Proof. by destruct st. Qed.
Definition statusC : codec BindingStatus := enumC status_name status_of_name identity_status_name_inv.

Definition record_fields : list string := ["bound_at"; "identity"; "queues"; "status"].

Definition recordC : codec IdentityRecord.
Proof.
  refine (Codec
    (λ r, ScMap [("bound_at", enc u64C (bound_at r)); ("identity", enc addressC (identity r));
                 ("queues", enc (vecC symbolC) (queues r)); ("status", enc statusC (status r))])
    (λ v, l ← struct_fields record_fields v;
          match l with
          | [v1; v2; v3; v4] =>
              x1 ← dec u64C v1; x2 ← dec addressC v2; x3 ← dec (vecC symbolC) v3;
              x4 ← dec statusC v4;
              Some (mkIdentityRecord x2 x1 x3 x4)
          | _ => None
          end) _).
  abstract solve_struct_codec.
Defined.

Definition attempt_fields : list string := ["from"; "reverted"; "timestamp"; "to"].

Definition attemptC : codec TransferAttempt.
Proof.
  refine (Codec
    (λ a, ScMap [("from", enc addressC (from a)); ("reverted", enc boolC (reverted a));
                 ("timestamp", enc u64C (attempted_at a)); ("to", enc addressC (to a))])
    (λ v, l ← struct_fields attempt_fields v;
          match l with
          | [v1; v2; v3; v4] =>
              x1 ← dec addressC v1; x2 ← dec boolC v2; x3 ← dec u64C v3; x4 ← dec addressC v4;
              Some (mkTransferAttempt x1 x4 x3 x2)
          | _ => None
          end) _).
  abstract solve_struct_codec.
Defined.

(** * Storage keys *)

Definition record_key (who : ScAddress) : ScVal := ScVec [ScSymbol "identity"; ScAddr who].
Definition attempt_key (a b : ScAddress) (q : string) : ScVal :=
  ScVec [ScSymbol "attempt"; ScAddr a; ScAddr b; ScSymbol q].
Definition admin_key : ScVal := ScSymbol "admin".
Definition allowed_key : ScVal := ScSymbol "transfer_allow".

(** * Helpers *)

Definition emit_topics (kind q : string) : list ScVal :=
  [ScSymbol "lineproof_identity"; ScSymbol kind; ScSymbol q].
Definition emit (kind q : string) (who : ScAddress) (now : Z) : prog unit :=
  publish (emit_topics kind q) (ScVec [ScAddr who; ScU64 now]).

Definition get_record_internal (who : ScAddress) : prog IdentityRecord :=
  b ← has (record_key who);
  if b : bool then
    o ← get recordC (record_key who);
    match o with
    | None => panic "called `Option::unwrap()` on a `None` value"
    | Some record => extend (record_key who) ;; Ret record
    end
  else Ret (unbound_record who).

(** [record.queues.iter().any(|q| q == queue_id)]. *)
Definition queues_any (q : string) (record : IdentityRecord) : bool :=
  existsb (λ q', bool_decide (q' = q)) (queues record).

Definition get_admin : prog (option ScAddress) := get addressC admin_key.

(** * Entry points *)

Definition bind (who : ScAddress) (q : string) : prog unit :=
  require_auth who ;;
  record ← get_record_internal who;
  panic_if (bool_decide (status record = Revoked)) "identity revoked" ;;
  panic_if (queues_any q record) "already_bound" ;;
  panic_if (bool_decide (MAX_QUEUES_PER_IDENTITY <= Z.of_nat (length (queues record))))
    "max_queues_reached" ;;
  now ← ledger_timestamp;
  store recordC (record_key who) (add_queue q now record) ;;
  emit "Bound" q who now.

Definition unbind (who : ScAddress) (q : string) : prog unit :=
  require_auth who ;;
  record ← get_record_internal who;
  if negb (queues_any q record) then Ret tt
  else
    store recordC (record_key who) (drop_queue q record) ;;
    now ← ledger_timestamp;
    emit "Unbound" q who now.

Definition is_bound (who : ScAddress) (q : string) : prog bool :=
  record ← get_record_internal who;
  Ret (queues_any q record).

Definition can_transfer (a b : ScAddress) (q : string) : prog bool :=
  if bool_decide (a = b) then Ret true
  else
    record ← get_record_internal a;
    if bool_decide (status record = Revoked) then Ret false
    else if negb (queues_any q record) then Ret false
    else get_or boolC allowed_key false.

Definition set_transfer_allowed (a : ScAddress) (allowed : bool) : prog unit :=
  require_auth a ;;
  o ← get_admin;
  match o with
  | None => panic "not initialized"
  | Some stored_admin =>
      panic_if (bool_decide (a ≠ stored_admin)) "unauthorized" ;;
      store boolC allowed_key allowed
  end.

Definition record_transfer_attempt (a b : ScAddress) (q : string) : prog unit :=
  now ← ledger_timestamp;
  store attemptC (attempt_key a b q) (mkTransferAttempt a b now true) ;;
  now' ← ledger_timestamp;
  emit "TransferReverted" q a now'.

Definition get_record (who : ScAddress) : prog (option IdentityRecord) :=
  b ← has (record_key who);
  if b : bool then
    record ← get_record_internal who; Ret (Some record)
  else Ret None.

Definition initialize (a : ScAddress) : prog unit :=
  require_auth a ;;
  b ← has admin_key;
  panic_if b "already initialized" ;;
  store addressC admin_key a.

Definition revoke (a : ScAddress) (who : ScAddress) : prog unit :=
  require_auth a ;;
  o ← get addressC admin_key;
  match o with
  | None => panic "not initialized"
  | Some stored_admin =>
      panic_if (bool_decide (a ≠ stored_admin)) "unauthorized" ;;
      record ← get_record_internal who;
      store recordC (record_key who) (set_revoked record) ;;
      now ← ledger_timestamp;
      emit "Revoked" "" who now
  end.

(** * The contract's interface *)

Inductive Call :=
| CBind (who : ScAddress) (q : string)
| CUnbind (who : ScAddress) (q : string)
| CRevoke (a who : ScAddress)
| CIsBound (who : ScAddress) (q : string)
| CCanTransfer (a b : ScAddress) (q : string)
| CRecordTransferAttempt (a b : ScAddress) (q : string)
| CGetRecord (who : ScAddress)
| CGetAdmin
| CInitialize (a : ScAddress)
| CSetTransferAllowed (a : ScAddress) (allowed : bool).

Inductive Ret_val :=
| RUnit
| RBool (b : bool)
| RRecord (r : option IdentityRecord)
| RAdmin (a : option ScAddress).

Definition exec (c : Call) : prog Ret_val :=
  match c with
  | CBind who q => bind who q ;; Ret RUnit
  | CUnbind who q => unbind who q ;; Ret RUnit
  | CRevoke a who => revoke a who ;; Ret RUnit
  | CIsBound who q => RBool <$> is_bound who q
  | CCanTransfer a b q => RBool <$> can_transfer a b q
  | CRecordTransferAttempt a b q => record_transfer_attempt a b q ;; Ret RUnit
  | CGetRecord who => RRecord <$> get_record who
  | CGetAdmin => RAdmin <$> get_admin
  | CInitialize a => initialize a ;; Ret RUnit
  | CSetTransferAllowed a allowed => set_transfer_allowed a allowed ;; Ret RUnit
  end.

End Identity.
