(* ===== verification/IdentitySpec.v ===== *)
(** The specification of the identity contract, the proof that the contract of
    [Identity] implements it, the abstract machine's changes and their
    invariant. *)
From S2P Require Import Prelude ScVal Storage Host Env Sim Identity.
Import Identity.

(** * State *)

Record IState := mkIState {
  i_records : gmap ScAddress IdentityRecord;
  i_attempts : gmap (ScAddress * ScAddress * string) TransferAttempt;
  i_admin : option ScAddress;
  i_allowed : option bool
}.

Definition i_empty : IState := mkIState ∅ ∅ None None.

Definition i_set_record who r s :=
  mkIState (<[who := r]> (i_records s)) (i_attempts s) (i_admin s) (i_allowed s).
Definition i_set_attempt a b q t s :=
  mkIState (i_records s) (<[(a, b, q) := t]> (i_attempts s)) (i_admin s) (i_allowed s).
Definition i_set_admin a s := mkIState (i_records s) (i_attempts s) (Some a) (i_allowed s).
Definition i_set_allowed v s := mkIState (i_records s) (i_attempts s) (i_admin s) (Some v).

(** The record the contract works with: the stored one, or an unbound one. *)
Definition record_of (who : ScAddress) (s : IState) : IdentityRecord :=
  default (unbound_record who) (i_records s !! who).

Inductive IKey :=
| KRecord (who : ScAddress) | KAttempt (a b : ScAddress) (q : string) | KAdmin | KAllowed.
#[export] Instance IKey_eq_dec : EqDecision IKey.
Proof. solve_decision. Defined.

Definition ikeys : keyspace IKey.
Proof.
  refine (Keyspace
    (λ k, match k with
          | KRecord who => record_key who | KAttempt a b q => attempt_key a b q
          | KAdmin => admin_key | KAllowed => allowed_key
          end)
    (λ v, match v with
          | ScVec [ScSymbol tag; ScAddr who] =>
              if decide (tag = "identity") then Some (KRecord who) else None
          | ScVec [ScSymbol tag; ScAddr a; ScAddr b; ScSymbol q] =>
              if decide (tag = "attempt") then Some (KAttempt a b q) else None
          | ScSymbol tag =>
              if decide (tag = "admin") then Some KAdmin
              else if decide (tag = "transfer_allow") then Some KAllowed else None
          | _ => None
          end) _ _ _).
  - abstract by intros [].
  - abstract (intros k x Hk; repeat case_match; simplify_eq; done).
  - abstract done.
Defined.

Definition i_content (s : IState) (k : IKey) : option ScVal :=
  match k with
  | KRecord who => enc recordC <$> i_records s !! who
  | KAttempt a b q => enc attemptC <$> i_attempts s !! (a, b, q)
  | KAdmin => enc addressC <$> i_admin s
  | KAllowed => enc boolC <$> i_allowed s
  end.

#[export] Instance identity_view : View IState := keyed_view ikeys i_content.

Definition record_cell (who : ScAddress) : cell IState IdentityRecord.
Proof.
  refine (keyed_cell ikeys i_content (KRecord who) recordC (λ s, i_records s !! who)
    (i_set_record who) _ _); [abstract done|abstract solve_content].
Defined.
Definition attempt_cell (a b : ScAddress) (q : string) : cell IState TransferAttempt.
Proof.
  refine (keyed_cell ikeys i_content (KAttempt a b q) attemptC (λ s, i_attempts s !! (a, b, q))
    (i_set_attempt a b q) _ _); [abstract done|abstract solve_content].
Defined.
Definition admin_cell : cell IState ScAddress.
Proof.
  refine (keyed_cell ikeys i_content KAdmin addressC i_admin i_set_admin _ _);
    [abstract done|abstract solve_content].
Defined.
Definition allowed_cell : cell IState bool.
Proof.
  refine (keyed_cell ikeys i_content KAllowed boolC i_allowed i_set_allowed _ _);
    [abstract done|abstract solve_content].
Defined.

(** * What each call does *)

Definition ev (kind q : string) (who : ScAddress) (now : Z) : Ev :=
  (emit_topics kind q, ScVec [ScAddr who; ScU64 now]).

Definition spec_bind (cx : Ctx) (who : ScAddress) (q : string) (s : IState) : Outcome unit IState :=
  let r := record_of who s in
  auth cx who ;;
  reject_if (bool_decide (status r = Revoked)) "identity revoked" ;;
  reject_if (bool_decide (q ∈ queues r)) "already_bound" ;;
  reject_if (bool_decide (MAX_QUEUES_PER_IDENTITY <= Z.of_nat (length (queues r))))
    "max_queues_reached" ;;
  Ok (tt, i_set_record who (add_queue q (c_now cx) r) s, [ev "Bound" q who (c_now cx)]).

Definition spec_unbind (cx : Ctx) (who : ScAddress) (q : string) (s : IState) :
    Outcome unit IState :=
  let r := record_of who s in
  auth cx who ;;
  if bool_decide (q ∈ queues r) then
    Ok (tt, i_set_record who (drop_queue q r) s, [ev "Unbound" q who (c_now cx)])
  else Ok (tt, s, []).

(** Distinct identities transfer only a bound queue of an identity in good
    standing, and only when the administrator has allowed transfers. *)
Definition spec_can_transfer (a b : ScAddress) (q : string) (s : IState) : bool :=
  bool_decide (a = b ∨ status (record_of a s) ≠ Revoked ∧ q ∈ queues (record_of a s) ∧
                       i_allowed s = Some true).

(** A call of the administrator. *)
Definition as_admin (cx : Ctx) (a : ScAddress) (s : IState) : Result unit :=
  auth cx a ;;
  stored ← expect (i_admin s) "not initialized";
  reject_if (bool_decide (a ≠ stored)) "unauthorized".

Definition spec_initialize (cx : Ctx) (a : ScAddress) (s : IState) : Outcome unit IState :=
  auth cx a ;;
  reject_if (bool_decide (is_Some (i_admin s))) "already initialized" ;;
  Ok (tt, i_set_admin a s, []).

Definition spec_call (cx : Ctx) (c : Call) (s : IState) : Outcome Ret_val IState :=
  let unit_out r := (λ r : unit * IState * list Ev, (RUnit, r.1.2, r.2)) <$> r in
  match c with
  | CBind who q => unit_out (spec_bind cx who q s)
  | CUnbind who q => unit_out (spec_unbind cx who q s)
  | CRevoke a who =>
      unit_out (as_admin cx a s ;;
        Ok (tt, i_set_record who (set_revoked (record_of who s)) s,
            [ev "Revoked" "" who (c_now cx)]))
  | CIsBound who q => Ok (RBool (bool_decide (q ∈ queues (record_of who s))), s, [])
  | CCanTransfer a b q => Ok (RBool (spec_can_transfer a b q s), s, [])
  | CRecordTransferAttempt a b q =>
      unit_out (Ok (tt, i_set_attempt a b q (mkTransferAttempt a b (c_now cx) true) s,
                    [ev "TransferReverted" q a (c_now cx)]))
  | CGetRecord who => Ok (RRecord (i_records s !! who), s, [])
  | CGetAdmin => Ok (RAdmin (i_admin s), s, [])
  | CInitialize a => unit_out (spec_initialize cx a s)
  | CSetTransferAllowed a v => unit_out (as_admin cx a s ;; Ok (tt, i_set_allowed v s, []))
  end.

(** * The contract implements it *)

Lemma queues_any_spec q r : queues_any q r = bool_decide (q ∈ queues r).
Proof.
  unfold queues_any. apply eq_bool_prop_intro. rewrite Is_true_true, existsb_exists, bool_decide_spec.
  setoid_rewrite bool_decide_eq_true. setoid_rewrite <-list_elem_of_In. naive_solver.
Qed.

Ltac i_pick k tac :=
  lazymatch k with
  | record_key ?who => tac (record_cell who)
  | attempt_key ?a ?b ?q => tac (attempt_cell a b q)
  | admin_key => tac admin_cell
  | allowed_key => tac allowed_cell
  end.

Ltac i_clean :=
  cbn [cget cset ck cc record_cell attempt_cell admin_cell allowed_cell keyed_cell
       i_set_record i_set_attempt i_set_admin i_set_allowed i_records i_attempts i_admin i_allowed].

Section refinement.
Context (X : External).

(** Loading a record changes nothing but its lifetime. *)
Lemma sim_get_record_internal {A} who (f : IdentityRecord → prog A) e0 e s evs sp :
  sim_post e0 e s evs →
  (∀ e', sim_post e0 e' s evs → simk X (f (record_of who s)) e0 e' sp) →
  simk X (get_record_internal who ≫= f) e0 e sp.
Proof.
  intros Hp Hf. unfold get_record_internal, record_of in *. apply sim_assoc. sim_op i_pick i_clean.
  destruct (i_records s !! who) as [r|] eqn:Hr;
    [rewrite bool_decide_true by eauto|rewrite bool_decide_false by (by intros [])].
  - repeat sim_op i_pick i_clean. by apply Hf.
  - apply sim_ret_bind. by apply Hf.
Qed.

Ltac i_step :=
  lazymatch goal with
  | Hp : sim_post ?e0 ?e ?s ?evs |- simk _ (get_record_internal _ ≫= _) ?e0 ?e _ =>
      eapply sim_get_record_internal; [exact Hp|]; sim_next e Hp
  | |- simk _ (get_admin ≫= _) _ _ _ => unfold get_admin at 1
  | |- simk _ (emit _ _ _ _ ≫= _) _ _ _ => unfold emit at 1
  | |- simk _ (emit _ _ _ _) _ _ _ => apply sim_tail
  | _ => sim_op i_pick i_clean
  end; cbv beta.

Lemma identity_sim_bind who q e s :
  Rep e s → sim X (bind who q) e (spec_bind (ctx_of e) who q s).
Proof.
  sim_begin. unfold bind, spec_bind. cbv zeta. i_step. i_step. rewrite queues_any_spec.
  repeat i_step.
Qed.

Lemma sim_unbind who q e s :
  Rep e s → sim X (unbind who q) e (spec_unbind (ctx_of e) who q s).
Proof.
  sim_begin. unfold unbind, spec_unbind. cbv zeta. i_step. i_step.
  rewrite queues_any_spec. case_bool_decide; simpl negb; cbv iota; repeat i_step.
Qed.

Lemma sim_is_bound who q e s :
  Rep e s → sim X (is_bound who q) e (Ok (bool_decide (q ∈ queues (record_of who s)), s, [])).
Proof. sim_begin. unfold is_bound. rewrite <-queues_any_spec. repeat i_step. Qed.

Lemma sim_can_transfer a b q e s :
  Rep e s → sim X (can_transfer a b q) e (Ok (spec_can_transfer a b q s, s, [])).
Proof.
  sim_begin. unfold can_transfer, spec_can_transfer.
  destruct (bool_decide_reflect (a = b)) as [->|Hab].
  { rewrite bool_decide_true by tauto. i_step. }
  i_step. destruct (bool_decide_reflect (status (record_of a s) = Revoked)) as [Hst|Hst].
  { rewrite bool_decide_false by tauto. i_step. }
  rewrite queues_any_spec.
  destruct (bool_decide_reflect (q ∈ queues (record_of a s))) as [Hq|Hq]; simpl negb; cbv iota;
    [|rewrite bool_decide_false by tauto; i_step].
  i_step. i_step. eapply sim_ret; [done|]. do 3 f_equal.
  destruct (i_allowed s) as [[]|]; simpl;
    [rewrite bool_decide_true by tauto|rewrite bool_decide_false by naive_solver
    |rewrite bool_decide_false by naive_solver]; done.
Qed.

Lemma sim_revoke a who e s :
  Rep e s → sim X (revoke a who) e
    (as_admin (ctx_of e) a s ;;
     Ok (tt, i_set_record who (set_revoked (record_of who s)) s,
         [ev "Revoked" "" who (c_now (ctx_of e))])).
Proof. sim_begin. unfold revoke, as_admin. repeat i_step. Qed.

Lemma sim_set_transfer_allowed a v e s :
  Rep e s → sim X (set_transfer_allowed a v) e
    (as_admin (ctx_of e) a s ;; Ok (tt, i_set_allowed v s, [])).
Proof. sim_begin. unfold set_transfer_allowed, as_admin. repeat i_step. Qed.

Lemma sim_record_transfer_attempt a b q e s :
  Rep e s → sim X (record_transfer_attempt a b q) e
    (Ok (tt, i_set_attempt a b q (mkTransferAttempt a b (c_now (ctx_of e)) true) s,
         [ev "TransferReverted" q a (c_now (ctx_of e))])).
Proof. sim_begin. unfold record_transfer_attempt. repeat i_step. Qed.

Lemma identity_sim_get_record who e s :
  Rep e s → sim X (get_record who) e (Ok (i_records s !! who, s, [])).
Proof.
  sim_begin. unfold get_record. i_step.
  destruct (i_records s !! who) as [r|] eqn:Hr;
    [rewrite bool_decide_true by eauto|rewrite bool_decide_false by (by intros [])];
    repeat i_step.
  eapply sim_ret; [done|]. unfold record_of. by rewrite Hr.
Qed.

Lemma sim_get_admin e s : Rep e s → sim X get_admin e (Ok (i_admin s, s, [])).
Proof. sim_begin. unfold get_admin. repeat i_step. Qed.

Lemma identity_sim_initialize a e s :
  Rep e s → sim X (initialize a) e (spec_initialize (ctx_of e) a s).
Proof. sim_begin. unfold initialize, spec_initialize. repeat i_step. Qed.

Lemma identity_sim_exec c e s : Rep e s → sim X (exec c) e (spec_call (ctx_of e) c s).
Proof.
  intros Hr. destruct c; cbn [exec spec_call].
  - by apply sim_then, identity_sim_bind.
  - by apply sim_then, sim_unbind.
  - by apply sim_then, sim_revoke.
  - by apply sim_read, sim_is_bound.
  - by apply sim_read, sim_can_transfer.
  - by apply sim_then, sim_record_transfer_attempt.
  - by apply sim_read, identity_sim_get_record.
  - by apply sim_read, sim_get_admin.
  - by apply sim_then, identity_sim_initialize.
  - by apply sim_then, sim_set_transfer_allowed.
Qed.
End refinement.
