(* ===== verification/IdentityThms.v ===== *)
(** What the identity contract guarantees, for all histories of transactions,
    each with an evaluated scenario: well-formed records, permanent revocation,
    a fixed administrator, and the transfer rule. *)
From S2P Require Import Prelude ScVal Storage Host Env Sim Identity IdentitySpec.
Import Identity.

(** * The abstract machine *)

Inductive i_change : IState → IState → Prop :=
| ch_bind who q now s :
    status (record_of who s) ≠ Revoked → q ∉ queues (record_of who s) →
    Z.of_nat (length (queues (record_of who s))) < MAX_QUEUES_PER_IDENTITY →
    i_change s (i_set_record who (add_queue q now (record_of who s)) s)
| ch_unbind who q s :
    q ∈ queues (record_of who s) →
    i_change s (i_set_record who (drop_queue q (record_of who s)) s)
| ch_revoke who s : i_change s (i_set_record who (set_revoked (record_of who s)) s)
| ch_attempt a b q now s :
    i_change s (i_set_attempt a b q (mkTransferAttempt a b now true) s)
| ch_admin a s : i_admin s = None → i_change s (i_set_admin a s)
| ch_allowed v s : i_change s (i_set_allowed v s).

Lemma identity_call_change cx c s a s' evs :
  spec_call cx c s = Ok (a, s', evs) → s' = s ∨ i_change s s'.
Proof.
  destruct c; cbn [spec_call]; intros Hs; try (left; by simplify_eq);
    apply fmap_ok in Hs as (r & Hr & Hs); injection Hs as _ <- _.
  - right. unfold spec_bind in Hr. outcome_inv. apply ch_bind; [done|done|lia].
  - unfold spec_unbind in Hr. outcome_inv. case_bool_decide; outcome_inv; [right|by left].
    by apply ch_unbind.
  - right. unfold as_admin in Hr. outcome_inv. apply ch_revoke.
  - right. outcome_inv. apply ch_attempt.
  - right. unfold spec_initialize in Hr. outcome_inv. apply ch_admin. by apply eq_None_not_Some.
  - right. unfold as_admin in Hr. outcome_inv. apply ch_allowed.
Qed.

Lemma as_admin_ok cx b a s u :
  as_admin cx b s = Ok u → i_admin s = Some a → b = a ∧ a ∈ c_auths cx.
Proof.
  unfold as_admin. intros H Ha. outcome_inv.
  match goal with H : ¬ (_ ≠ _) |- _ => apply dec_stable in H end. by simplify_eq.
Qed.

(** ** The invariant *)

Definition record_wf (who : ScAddress) (r : IdentityRecord) : Prop :=
  identity r = who ∧ NoDup (queues r) ∧
  Z.of_nat (length (queues r)) <= MAX_QUEUES_PER_IDENTITY ∧
  (queues r ≠ [] → status r ≠ Unbound).

Definition identity_inv (s : IState) : Prop :=
  ∀ who r, i_records s !! who = Some r → record_wf who r.

Lemma unbound_record_wf who : record_wf who (unbound_record who).
Proof. split_and!; [done|constructor|done|done]. Qed.

Lemma record_of_wf s who : identity_inv s → record_wf who (record_of who s).
Proof.
  intros Hinv. unfold record_of. destruct (_ !! who) eqn:Hr; [by apply Hinv|apply unbound_record_wf].
Qed.

Lemma add_queue_wf who q now r :
  record_wf who r → q ∉ queues r → Z.of_nat (length (queues r)) < MAX_QUEUES_PER_IDENTITY →
  record_wf who (add_queue q now r).
Proof.
  intros (?&?&?&?) Hq Hlen. split_and!; simpl; [done| |rewrite length_app; simpl; lia|done].
  apply NoDup_app. split_and!; [done| |apply NoDup_singleton].
  by intros x Hx ->%list_elem_of_singleton.
Qed.

Lemma drop_queue_wf who q r : record_wf who r → record_wf who (drop_queue q r).
Proof.
  intros (?&?&?&Hst). split_and!; simpl; [done|by apply NoDup_filter| |].
  - pose proof (length_filter (λ q', q' ≠ q) (queues r)). lia.
  - intros Hne. apply Hst. by intros Hq; rewrite Hq in Hne.
Qed.

Lemma set_revoked_wf who r : record_wf who r → record_wf who (set_revoked r).
Proof. by intros (?&?&?&?). Qed.

Lemma identity_inv_set who r s :
  identity_inv s → record_wf who r → identity_inv (i_set_record who r s).
Proof.
  intros Hinv Hr who' r'. simpl. intros [[<- <-]|[_ ?]]%lookup_insert_Some; [done|by apply Hinv].
Qed.

Lemma identity_inv_change s s' : i_change s s' → identity_inv s → identity_inv s'.
Proof.
  destruct 1; intros Hinv; try done; apply identity_inv_set; try done;
    auto using add_queue_wf, drop_queue_wf, set_revoked_wf, record_of_wf.
Qed.

(** ** What never goes back *)

Definition record_after (r r' : IdentityRecord) : Prop :=
  identity r' = identity r ∧ (bound_at r ≠ 0 → bound_at r' = bound_at r) ∧
  (status r = Revoked → status r' = Revoked ∧ queues r' ⊆ queues r).

#[export] Instance record_after_preorder : PreOrder record_after.
Proof.
  split; [by intros r; split_and!|].
  intros r1 r2 r3 (Ha & Hb & Hc) (Ha' & Hb' & Hc'). split_and!; [congruence| |].
  - intros Hr. rewrite Hb'; [by apply Hb|]. by rewrite Hb.
  - intros Hr. destruct (Hc Hr) as [Hr2 ?], (Hc' Hr2) as [??]. split; [done|by etrans].
Qed.

Definition i_after (s s' : IState) : Prop :=
  (∀ who r, i_records s !! who = Some r →
    ∃ r', i_records s' !! who = Some r' ∧ record_after r r') ∧
  (∀ a, i_admin s = Some a → i_admin s' = Some a).

#[export] Instance i_after_preorder : PreOrder i_after.
Proof.
  split; [intros s; split; [intros who r Hr; by exists r|done]|].
  intros s1 s2 s3 [H12 Ha] [H23 Hb]. split; [|by auto]. intros who r Hr.
  destruct (H12 who r Hr) as (r2 & Hr2 & ?), (H23 who r2 Hr2) as (r3 & Hr3 & ?).
  exists r3. split; [done|by etrans].
Qed.

Lemma i_after_set who r s :
  record_after (record_of who s) r → i_after s (i_set_record who r s).
Proof.
  intros Hr. split; [|done]. intros who' r' Hr'. simpl. unfold record_of in Hr.
  destruct (decide (who = who')) as [->|Hne].
  - rewrite lookup_insert_eq. rewrite Hr' in Hr. by exists r.
  - rewrite lookup_insert_ne by done. by exists r'.
Qed.

Lemma i_change_after s s' : i_change s s' → i_after s s'.
Proof.
  destruct 1 as [who q now s Hst _ _|who q s _|who s|a b q now s|a s Ha|v s];
    try (apply i_after_set; split_and!; simpl; try done).
  - intros. by rewrite decide_False.
  - intros Hst. split; [done|]. intros x [_ ?]%list_elem_of_filter. done.
  - split; [intros who r Hr; by exists r|done].
  - split; [intros who r Hr; by exists r|simpl; congruence].
  - split; [intros who r Hr; by exists r|done].
Qed.

(** * Histories *)
Section history.
Context (X : External) (allowed : Call → Prop).

Lemma identity_step_change s s' : spec_step spec_call allowed s s' → s' = s ∨ i_change s s'.
Proof. intros (cx & c & a & evs & _ & Hs). by eapply identity_call_change. Qed.

Lemma identity_inv_step s s' :
  identity_inv s → spec_step spec_call allowed s s' → identity_inv s'.
Proof. intros Hinv [->|Hch]%identity_step_change; [done|]. by eapply identity_inv_change. Qed.

Lemma identity_history e e' s :
  rtc (tx X exec allowed) e e' → Rep e s → identity_inv s →
  ∃ s', Rep e' s' ∧ identity_inv s' ∧ i_after s s'.
Proof.
  apply (history_after X exec ctx_of spec_call _ identity_inv).
  - intros. by apply identity_sim_exec.
  - apply identity_inv_step.
  - apply _.
  - intros s1 s2 _ [->|Hch]%identity_step_change; [done|]. by apply i_change_after.
Qed.
End history.

Abbreviation any := (λ _ : Call, True) (only parsing).

Section reachable.
Context (X : External).

Definition identity_tx : Env → Env → Prop := tx X exec any.

Lemma identity_inv_empty : identity_inv i_empty.
Proof. intros who r. simpl. by rewrite lookup_empty. Qed.

Lemma identity_reachable e0 e :
  Rep e0 i_empty → rtc identity_tx e0 e → ∃ s, Rep e s ∧ identity_inv s.
Proof.
  intros Hr Htx.
  destruct (identity_history X any e0 e _ Htx Hr identity_inv_empty) as (s & ? & ? & _). eauto.
Qed.

Lemma identity_committed auths c e s a e' :
  Rep e s → identity_inv s → invoke X auths (exec c) e = (Ok a, e') →
  ∃ s' evs, spec_call (ctx_of (authorized auths e)) c s = Ok (a, s', evs) ∧ Rep e' s' ∧
    identity_inv s'.
Proof.
  intros Hr Hinv Hi.
  apply (invoke_committed X exec ctx_of spec_call any identity_inv) with auths c e s a e' in Hi; try done;
    [intros; by apply identity_sim_exec|apply identity_inv_step].
Qed.

Lemma identity_stored_record e s who r :
  Rep e s → data e (record_key who) = Some (enc recordC r) ↔ i_records s !! who = Some r.
Proof. apply (cell_stored (record_cell who)). Qed.

Lemma stored_admin e s a :
  Rep e s → data e admin_key = Some (enc addressC a) ↔ i_admin s = Some a.
Proof. apply (cell_stored admin_cell). Qed.

Lemma stored_allowed e s v :
  Rep e s → data e allowed_key = Some (enc boolC v) ↔ i_allowed s = Some v.
Proof. apply (cell_stored allowed_cell). Qed.
End reachable.

(** * A scenario

    Alice administers; Bob binds two queues and is revoked; Carol binds one. *)
Definition demo_identity : Env := play toy exec
  [({[alice]}, CInitialize alice); ({[bob]}, CBind bob "drop"); ({[bob]}, CBind bob "sale");
   ({[carol]}, CBind carol "drop"); ({[alice]}, CRevoke alice bob)] fresh.
Definition demo_later : Env := play toy exec
  [({[alice]}, CSetTransferAllowed alice true); ({[bob]}, CUnbind bob "sale")] demo_identity.
Definition demo_admin : Env := play toy exec [({[alice]}, CInitialize alice)] fresh.
Definition demo_bob : IdentityRecord := mkIdentityRecord bob 1000 ["drop"; "sale"] Revoked.

Lemma identity_demo_fresh : Rep fresh i_empty.
Proof.
  apply fresh_Rep. intros k. unfold view, identity_view, keyed_view.
  destruct (of_key ikeys k) as [[]|]; simpl; by rewrite ?lookup_empty.
Qed.
Lemma demo_identity_history : rtc (identity_tx toy) fresh demo_identity.
Proof. apply play_tx. by repeat constructor. Qed.
Lemma demo_later_history : rtc (identity_tx toy) demo_identity demo_later.
Proof. apply play_tx. by repeat constructor. Qed.

Lemma demo_later_live : env_live demo_later.
Proof.
  unfold demo_later, demo_identity. rewrite !play_foldl, <-foldl_app.
  eapply (invokes_live toy exec ctx_of spec_call any identity_inv _ _ _ fresh i_empty).
  - by repeat constructor.
  - apply identity_demo_fresh.
  - apply identity_inv_empty.
  - apply fresh_live.
  Unshelve. all: [> intros; by apply identity_sim_exec | apply identity_inv_step].
Qed.

(** * Theorems *)

(** The one condition under which two different identities may transfer. *)
Definition transferable (e : Env) (a : ScAddress) (q : string) : Prop :=
  ∃ r, data e (record_key a) = Some (enc recordC r) ∧ status r ≠ Revoked ∧ q ∈ queues r ∧
       data e allowed_key = Some (enc boolC true).

Section theorems.
Context (X : External).

(** C8: The identity contract implements its specification: a successful
    invocation returns the specified value, stores the specified state and emits
    the specified events; a failed one changes nothing; and on a live ledger the
    outcome is the specified one, with the same error. *)
Theorem identity_call_correct auths c e s :
  Rep e s →
  call_outcome e s (spec_call (ctx_of (authorized auths e)) c s) (invoke X auths (exec c) e).
Proof. intros Hr. by apply invoke_correct; [apply identity_sim_exec|]. Qed.

(** Records stay well formed: in every reachable ledger a stored identity
    record is its owner's, lists no queue twice and at most
    [MAX_QUEUES_PER_IDENTITY] of them, and is not [Unbound] while it lists any. *)
Theorem identity_records_wf e0 e who r :
  Rep e0 i_empty → rtc (identity_tx X) e0 e →
  data e (record_key who) = Some (enc recordC r) →
  identity r = who ∧ NoDup (queues r) ∧
  Z.of_nat (length (queues r)) <= MAX_QUEUES_PER_IDENTITY ∧
  (queues r ≠ [] → status r ≠ Unbound).
Proof.
  intros Hr0 Htx Hd. destruct (identity_reachable X e0 e Hr0 Htx) as (s & Hr & Hinv).
  apply Hinv. by apply (identity_stored_record _ _ _ _ Hr).
Qed.

(** Revocation is permanent: once an identity is revoked, its record stays
    revoked in every later ledger, it can only lose queues, and from there on no
    call of [bind] for it succeeds, whoever signs. *)
Theorem identity_revocation_permanent e0 e1 e2 who r :
  Rep e0 i_empty → rtc (identity_tx X) e0 e1 → rtc (identity_tx X) e1 e2 →
  data e1 (record_key who) = Some (enc recordC r) → status r = Revoked →
  (∃ r', data e2 (record_key who) = Some (enc recordC r') ∧ status r' = Revoked ∧
         queues r' ⊆ queues r) ∧
  ∀ auths q, is_ok (invoke X auths (exec (CBind who q)) e2).1 = false.
Proof.
  intros Hr0 H1 H2 Hd Hst. destruct (identity_reachable X e0 e1 Hr0 H1) as (s1 & Hr1 & Hinv1).
  destruct (identity_history X any e1 e2 s1 H2 Hr1 Hinv1) as (s2 & Hr2 & Hinv2 & [Hafter _]).
  apply (identity_stored_record _ _ _ _ Hr1) in Hd.
  destruct (Hafter who r Hd) as (r' & Hr' & (_ & _ & Ha)). destruct (Ha Hst) as [Hst' Hq].
  split.
  - exists r'. split_and!; [|done|done]. by apply (identity_stored_record _ _ _ _ Hr2).
  - intros auths q. destruct (invoke X auths _ e2) as [[v|x] e3] eqn:Hi; [|done].
    apply (identity_committed X auths _ e2 s2) in Hi as (s3 & evs & Hs & _); [|done..].
    cbn [spec_call] in Hs. unfold spec_bind, record_of in Hs. rewrite Hr' in Hs. outcome_inv.
Qed.

(** The transfer rule: on a live ledger [can_transfer] answers, and says yes
    exactly when the two identities are the same, or the first is bound to the
    queue and not revoked and the administrator has allowed transfers. *)
Theorem identity_transfer_rule e0 e auths a b q :
  Rep e0 i_empty → rtc (identity_tx X) e0 e → env_live e →
  ∃ v e', invoke X auths (exec (CCanTransfer a b q)) e = (Ok (RBool v), e') ∧
    (v = true ↔ a = b ∨ transferable e a q).
Proof.
  intros Hr0 Htx Hl. destruct (identity_reachable X e0 e Hr0 Htx) as (s & Hr & Hinv).
  pose proof (identity_sim_exec X (CCanTransfer a b q) (authorized auths e) s Hr) as Hsim.
  destruct (invoke_live_ok X auths _ e s _ _ _ Hsim Hr Hl) as (e' & Hi & _).
  exists (spec_can_transfer a b q s), e'. split; [done|].
  unfold spec_can_transfer, transferable, record_of.
  rewrite bool_decide_eq_true, <-(stored_allowed e s true Hr).
  setoid_rewrite (identity_stored_record e s a _ Hr). split.
  - intros [?|(Hst & Hq & Hv)]; [by left|right].
    destruct (i_records s !! a) as [r|]; [by exists r|by apply not_elem_of_nil in Hq].
  - intros [?|(r & Hra & Hst & Hq & Hv)]; [by left|right]. by rewrite Hra.
Qed.

Definition no_permission (c : Call) : Prop := ∀ a, c ≠ CSetTransferAllowed a true.

(** Slots are not transferable by default: in a history in which the
    administrator never allows transfers, [can_transfer] says yes for an identity
    and itself only. *)
Theorem identity_nontransferable e0 e auths a b q v e' :
  Rep e0 i_empty → rtc (tx X exec no_permission) e0 e →
  invoke X auths (exec (CCanTransfer a b q)) e = (Ok (RBool v), e') → v = bool_decide (a = b).
Proof.
  intros Hr0 Htx Hi.
  destruct (history_inv X exec ctx_of spec_call no_permission (λ s, i_allowed s ≠ Some true)) with e0 e
    i_empty as (s & Hr & Hs); try done.
  - intros. by apply identity_sim_exec.
  - intros s1 s2 H1 (cx & c & o & evs & Hc & Hs). destruct c; cbn [spec_call] in Hs;
      try (by simplify_eq); unfold spec_bind, spec_unbind, as_admin, spec_initialize in Hs;
      outcome_inv; try done; [by case_bool_decide; outcome_inv|].
    intros [= ->]. exact (Hc _ eq_refl).
  - destruct (invoke_sim X auths _ e s _ _ e' (identity_sim_exec X _ (authorized auths e) s Hr) Hr Hi)
      as (_ & _ & s' & evs & Hsp & _). cbn [spec_call] in Hsp. simplify_eq.
    unfold spec_can_transfer. apply bool_decide_ext. naive_solver.
Qed.

(** The administrator is fixed: after a successful [initialize] the stored
    administrator never changes, [initialize] never succeeds again, and only
    calls he signs revoke an identity or change the transfer permission. *)
Theorem identity_admin_fixed e0 e auths a e1 e2 :
  Rep e0 i_empty → rtc (identity_tx X) e0 e →
  invoke X auths (exec (CInitialize a)) e = (Ok RUnit, e1) → rtc (identity_tx X) e1 e2 →
  data e2 admin_key = Some (enc addressC a) ∧
  (∀ auths' b, is_ok (invoke X auths' (exec (CInitialize b)) e2).1 = false) ∧
  (∀ auths' b who, is_ok (invoke X auths' (exec (CRevoke b who)) e2).1 = true →
    b = a ∧ a ∈ auths') ∧
  (∀ auths' b v, is_ok (invoke X auths' (exec (CSetTransferAllowed b v)) e2).1 = true →
    b = a ∧ a ∈ auths').
Proof.
  intros Hr0 Htx Hi H12. destruct (identity_reachable X e0 e Hr0 Htx) as (s & Hr & Hinv).
  destruct (identity_committed X auths _ e s _ e1 Hr Hinv Hi) as (s1 & evs & Hs & Hr1 & Hinv1).
  destruct (identity_history X any e1 e2 s1 H12 Hr1 Hinv1) as (s2 & Hr2 & Hinv2 & [_ Hadm]).
  assert (i_admin s2 = Some a) as Ha.
  { apply Hadm. cbn [spec_call] in Hs. unfold spec_initialize in Hs. by outcome_inv. }
  assert (∀ auths' c, is_ok (invoke X auths' (exec c) e2).1 = true →
    ∃ v s3 evs, spec_call (ctx_of (authorized auths' e2)) c s2 = Ok (v, s3, evs)) as Hok.
  { intros auths' c Hc. destruct (invoke X auths' _ e2) as [[v|x] e3] eqn:Hi2; [|done].
    destruct (identity_committed X auths' _ e2 s2 _ e3 Hr2 Hinv2 Hi2) as (s3 & ? & ? & _). eauto. }
  split_and!.
  - by apply (stored_admin _ _ _ Hr2).
  - intros auths' b. destruct (is_ok _) eqn:Hc; [|done].
    destruct (Hok auths' (CInitialize b) Hc) as (v & s3 & evs' & H3).
    cbn [spec_call] in H3. unfold spec_initialize in H3. rewrite Ha in H3. outcome_inv.
    match goal with H : ¬ is_Some _ |- _ => by destruct H end.
  - intros auths' b who (v & s3 & evs' & H3)%Hok.
    apply fmap_ok in H3 as (? & (? & Had & _)%bind_ok & _).
    by apply (as_admin_ok _ _ a) in Had.
  - intros auths' b w (v & s3 & evs' & H3)%Hok.
    apply fmap_ok in H3 as (? & (? & Had & _)%bind_ok & _).
    by apply (as_admin_ok _ _ a) in Had.
Qed.

(** Binding and unbinding: on a live ledger an identity in good standing that
    binds a queue new to it and then unbinds it is left with the queues it had;
    the queue reads as bound in between and as not bound afterwards. *)
Theorem identity_bind_unbind e s auths who q :
  Rep e s → env_live e → who ∈ auths →
  status (record_of who s) ≠ Revoked → q ∉ queues (record_of who s) →
  Z.of_nat (length (queues (record_of who s))) < MAX_QUEUES_PER_IDENTITY →
  ∃ e1 e2 s1 s2,
    invoke X auths (exec (CBind who q)) e = (Ok RUnit, e1) ∧ Rep e1 s1 ∧
    (invoke X auths (exec (CIsBound who q)) e1).1 = Ok (RBool true) ∧
    invoke X auths (exec (CUnbind who q)) e1 = (Ok RUnit, e2) ∧ Rep e2 s2 ∧
    (invoke X auths (exec (CIsBound who q)) e2).1 = Ok (RBool false) ∧
    queues (record_of who s2) = queues (record_of who s) ∧
    ∀ who', who' ≠ who → record_of who' s2 = record_of who' s.
Proof.
  intros Hr Hl Ha Hst Hq Hlen.
  pose proof (identity_sim_exec X (CBind who q) (authorized auths e) s Hr) as Hsim.
  cbn [spec_call] in Hsim. unfold spec_bind in Hsim. cbv zeta in Hsim.
  rewrite (proj2 (auth_ok (ctx_of (authorized auths e)) who) Ha), !bool_decide_false in Hsim
    by (done || lia).
  destruct (invoke_live_ok X auths _ e s _ _ _ Hsim Hr Hl) as (e1 & Hi1 & Hr1 & Hl1 & _).
  set (s1 := i_set_record who _ s) in *.
  assert (Hq1 : queues (record_of who s1) = queues (record_of who s) ++ [q])
    by (unfold record_of at 1; simpl; by rewrite lookup_insert_eq).
  pose proof (identity_sim_exec X (CUnbind who q) (authorized auths e1) s1 Hr1) as Hsim1.
  cbn [spec_call] in Hsim1. unfold spec_unbind in Hsim1. cbv zeta in Hsim1.
  rewrite (proj2 (auth_ok (ctx_of (authorized auths e1)) who) Ha), bool_decide_true in Hsim1
    by (rewrite Hq1; set_solver).
  destruct (invoke_live_ok X auths _ e1 s1 _ _ _ Hsim1 Hr1 Hl1) as (e2 & Hi2 & Hr2 & Hl2 & _).
  set (s2 := i_set_record who _ s1) in *.
  assert (Hq2 : queues (record_of who s2) = queues (record_of who s)).
  { unfold record_of at 1; simpl. rewrite lookup_insert_eq. simpl. rewrite Hq1.
    rewrite filter_snoc, decide_False, app_nil_r by (intros Hx; by apply Hx).
    apply filter_all. by intros x Hx ->. }
  exists e1, e2, s1, s2. split_and!; try done.
  - destruct (invoke_live_ok X auths _ e1 s1 _ _ _
      (identity_sim_exec X (CIsBound who q) (authorized auths e1) s1 Hr1) Hr1 Hl1) as (e3 & -> & _).
    simpl. by rewrite bool_decide_true by (rewrite Hq1; set_solver).
  - destruct (invoke_live_ok X auths _ e2 s2 _ _ _
      (identity_sim_exec X (CIsBound who q) (authorized auths e2) s2 Hr2) Hr2 Hl2) as (e3 & -> & _).
    simpl. by rewrite bool_decide_false by (by rewrite Hq2).
  - intros who' Hne. unfold record_of; simpl. by rewrite !lookup_insert_ne.
Qed.
End theorems.

Lemma identity_call_correct_witness :
  call_outcome fresh i_empty
    (spec_call (ctx_of (authorized {[alice]} fresh)) (CInitialize alice) i_empty)
    (invoke toy {[alice]} (exec (CInitialize alice)) fresh).
Proof. apply identity_call_correct. apply identity_demo_fresh. Defined.

Lemma identity_records_wf_witness :
  identity demo_bob = bob ∧ NoDup (queues demo_bob) ∧
  Z.of_nat (length (queues demo_bob)) <= MAX_QUEUES_PER_IDENTITY ∧
  (queues demo_bob ≠ [] → status demo_bob ≠ Unbound).
Proof.
  apply (identity_records_wf toy fresh demo_identity bob).
  - apply identity_demo_fresh.
  - apply demo_identity_history.
  - by vm_compute.
Defined.

Lemma identity_revocation_permanent_witness :
  (∃ r', data demo_later (record_key bob) = Some (enc recordC r') ∧ status r' = Revoked ∧
         queues r' ⊆ queues demo_bob) ∧
  ∀ auths q, is_ok (invoke toy auths (exec (CBind bob q)) demo_later).1 = false.
Proof.
  apply (identity_revocation_permanent toy fresh demo_identity).
  - apply identity_demo_fresh.
  - apply demo_identity_history.
  - apply demo_later_history.
  - by vm_compute.
  - done.
Defined.

Lemma identity_transfer_rule_witness :
  ∃ v e', invoke toy ∅ (exec (CCanTransfer carol alice "drop")) demo_later = (Ok (RBool v), e') ∧
    (v = true ↔ carol = alice ∨ transferable demo_later carol "drop").
Proof.
  apply (identity_transfer_rule toy fresh).
  - apply identity_demo_fresh.
  - etrans; [apply demo_identity_history|apply demo_later_history].
  - apply demo_later_live.
Defined.

Lemma identity_nontransferable_witness :
  false = bool_decide (carol = alice).
Proof.
  apply (identity_nontransferable toy fresh demo_identity ∅ carol alice "drop" false
    (invoke toy ∅ (exec (CCanTransfer carol alice "drop")) demo_identity).2).
  - apply identity_demo_fresh.
  - apply play_tx. by repeat constructor.
  - apply outcome_fst. by vm_compute.
Defined.

Lemma identity_admin_fixed_witness :
  let e2 := demo_admin in
  data e2 admin_key = Some (enc addressC alice) ∧
  (∀ auths' b, is_ok (invoke toy auths' (exec (CInitialize b)) e2).1 = false) ∧
  (∀ auths' b who, is_ok (invoke toy auths' (exec (CRevoke b who)) e2).1 = true →
    b = alice ∧ alice ∈ auths') ∧
  (∀ auths' b v, is_ok (invoke toy auths' (exec (CSetTransferAllowed b v)) e2).1 = true →
    b = alice ∧ alice ∈ auths').
Proof.
  apply (identity_admin_fixed toy fresh fresh {[alice]} alice demo_admin demo_admin).
  - apply identity_demo_fresh.
  - reflexivity.
  - unfold demo_admin; cbn [play]. apply outcome_fst. by vm_compute.
  - reflexivity.
Defined.

Lemma identity_bind_unbind_witness :
  ∃ e1 e2 s1 s2,
    invoke toy {[carol]} (exec (CBind carol "drop")) fresh = (Ok RUnit, e1) ∧ Rep e1 s1 ∧
    (invoke toy {[carol]} (exec (CIsBound carol "drop")) e1).1 = Ok (RBool true) ∧
    invoke toy {[carol]} (exec (CUnbind carol "drop")) e1 = (Ok RUnit, e2) ∧ Rep e2 s2 ∧
    (invoke toy {[carol]} (exec (CIsBound carol "drop")) e2).1 = Ok (RBool false) ∧
    queues (record_of carol s2) = queues (record_of carol i_empty) ∧
    ∀ who', who' ≠ carol → record_of who' s2 = record_of who' i_empty.
Proof.
  apply (identity_bind_unbind toy fresh i_empty).
  - apply identity_demo_fresh.
  - apply fresh_live.
  - by apply elem_of_singleton.
  - done.
  - apply not_elem_of_nil.
  - done.
Defined.
