(* ===== verification/Enrollment.v ===== *)
(** The enrollment contract, [contracts/lineproof-enrollment/src/lib.rs]: its data
    with their stored form, one program per entry point, and the dispatcher. *)
From S2P Require Import Prelude ScVal Host.

Module Enrollment.

(** * Data *)

Record EnrollmentProof := mkEnrollmentProof {
  pf_queue_id : string;
  pf_identity : ScAddress;
  pf_enrolled_at : Z;
  pf_proof_hash : Hash;
  pf_expires_at : option Z
}.

Inductive DuplicateBehavior := Reject | GrantWaitingList | OverrideExpired.

Record EnrollmentRecord := mkEnrollmentRecord {
  identity : ScAddress;
  queue_id : string;
  enrolled_at : Z;
  proof_hash : Hash;
  duplicate_count : Z;
  finalized : bool;
  expires_at : option Z;
  cancelled : bool
}.

#[export] Instance DuplicateBehavior_eq_dec : EqDecision DuplicateBehavior.
Proof. solve_decision. Defined.
#[export] Instance EnrollmentRecord_eq_dec : EqDecision EnrollmentRecord.
Proof. solve_decision. Defined.

Definition set_cancelled (r : EnrollmentRecord) : EnrollmentRecord :=
  mkEnrollmentRecord (identity r) (queue_id r) (enrolled_at r) (proof_hash r)
    (duplicate_count r) (finalized r) (expires_at r) true.
Definition set_finalized (r : EnrollmentRecord) : EnrollmentRecord :=
  mkEnrollmentRecord (identity r) (queue_id r) (enrolled_at r) (proof_hash r)
    (duplicate_count r) true (expires_at r) (cancelled r).

(** * Stored form *)

Definition behavior_name (b : DuplicateBehavior) : string :=
  match b with
  | Reject => "Reject" | GrantWaitingList => "GrantWaitingList"
  | OverrideExpired => "OverrideExpired"
  end.
Definition behavior_of_name (s : string) : option DuplicateBehavior :=
  if decide (s = "Reject") then Some Reject
  else if decide (s = "GrantWaitingList") then Some GrantWaitingList
  else if decide (s = "OverrideExpired") then Some OverrideExpired
  else None.
Lemma behavior_name_inv b : behavior_of_name (behavior_name b) = Some b.
Proof. by destruct b. Qed.
Definition behaviorC : codec DuplicateBehavior :=
  enumC behavior_name behavior_of_name behavior_name_inv.

Definition record_fields : list string :=
  ["cancelled"; "duplicate_count"; "enrolled_at"; "expires_at"; "finalized"; "identity";
   "proof_hash"; "queue_id"].

Definition recordC : codec EnrollmentRecord.
Proof.
  refine (Codec
    (λ r, ScMap [("cancelled", enc boolC (cancelled r));
                 ("duplicate_count", enc u32C (duplicate_count r));
                 ("enrolled_at", enc u64C (enrolled_at r));
                 ("expires_at", enc option_u64C (expires_at r));
                 ("finalized", enc boolC (finalized r)); ("identity", enc addressC (identity r));
                 ("proof_hash", enc bytesC (proof_hash r)); ("queue_id", enc symbolC (queue_id r))])
    (λ v, l ← struct_fields record_fields v;
          match l with
          | [v1; v2; v3; v4; v5; v6; v7; v8] =>
              x1 ← dec boolC v1; x2 ← dec u32C v2; x3 ← dec u64C v3; x4 ← dec option_u64C v4;
              x5 ← dec boolC v5; x6 ← dec addressC v6; x7 ← dec bytesC v7; x8 ← dec symbolC v8;
              Some (mkEnrollmentRecord x6 x8 x3 x7 x2 x5 x4 x1)
          | _ => None
          end) _).
  abstract solve_struct_codec.
Defined.

(** * Storage keys *)

Definition record_key (who : ScAddress) (q : string) : ScVal :=
  ScVec [ScSymbol "enrollment"; ScSymbol q; ScAddr who].
Definition count_key (q : string) : ScVal := ScVec [ScSymbol "enroll_cnt"; ScSymbol q].
Definition waitlist_key (q : string) : ScVal := ScVec [ScSymbol "waitlist"; ScSymbol q].
Definition behavior_key : ScVal := ScSymbol "dup_behavior".

(** * Helpers *)

Definition emit_topics (kind q : string) : list ScVal :=
  [ScSymbol "lineproof_enrollment"; ScSymbol kind; ScSymbol q].
Definition emit_data (who : ScAddress) (now : Z) (h : Hash) : ScVal :=
  ScVec [ScAddr who; ScU64 now; ScBytes h].
Definition emit (kind q : string) (who : ScAddress) (now : Z) (h : Hash) : prog unit :=
  publish (emit_topics kind q) (emit_data who now h).

Definition is_enrolled_internal (who : ScAddress) (q : string) : prog bool :=
  o ← get recordC (record_key who q);
  match o with
  | Some record => Ret (negb (cancelled record))
  | None => Ret false
  end.

Definition load_record (who : ScAddress) (q : string) : prog EnrollmentRecord :=
  o ← get recordC (record_key who q);
  match o with
  | None => panic "record missing"
  | Some record => extend (record_key who q) ;; Ret record
  end.

Definition is_on_waitlist (who : ScAddress) (q : string) : prog bool :=
  b ← has (waitlist_key q);
  if b : bool then
    o ← get (vecC addressC) (waitlist_key q);
    match o with
    | None => panic "called `Option::unwrap()` on a `None` value"
    | Some waitlist => Ret (bool_decide (who ∈ waitlist))
    end
  else Ret false.

(** The preimage of a proof hash, and the hash. *)
Definition proof_preimage (who : ScAddress) (q : string) (at_time : Z) : ScVal :=
  ScVec [ScAddr who; ScSymbol q; ScU64 at_time].
Definition compute_proof_hash (who : ScAddress) (q : string) (at_time : Z) : prog Hash :=
  sha256_xdr (proof_preimage who q at_time).

(** Adds one to the enrollment count of [q]. *)
Definition increment_count (q : string) : prog unit :=
  count ← get_or u32C (count_key q) 0;
  n ← u32_add count 1;
  store u32C (count_key q) n.

(** * Entry points *)

(** The [GrantWaitingList] branch of [enroll]. *)
Definition join_waitlist (caller : ScAddress) (q : string) : prog EnrollmentProof :=
  waiting ← is_on_waitlist caller q;
  panic_if waiting "already waitlisted" ;;
  waitlist ← get_or (vecC addressC) (waitlist_key q) [];
  store (vecC addressC) (waitlist_key q) (waitlist ++ [caller]) ;;
  now ← ledger_timestamp;
  emit "WaitlistAdded" q caller now 0%N ;;
  now ← ledger_timestamp;
  Ret (mkEnrollmentProof q caller now 0%N None).

(** Whether a record with expiry date [exp] has expired at [now]. *)
Definition is_expired (now : Z) (exp : option Z) : bool :=
  match exp with Some t => bool_decide (t < now) | None => false end.

(** The [OverrideExpired] branch of [enroll]. *)
Definition override_expired (caller : ScAddress) (q : string) (exp : option Z) :
    prog EnrollmentProof :=
  record ← load_record caller q;
  now ← ledger_timestamp;
  panic_if (negb (is_expired now (expires_at record))) "duplicate enrollment" ;;
  hash ← compute_proof_hash caller q now;
  dups ← u32_add (duplicate_count record) 1;
  store recordC (record_key caller q)
    (mkEnrollmentRecord caller q now hash dups false exp false) ;;
  emit "Enrolled" q caller now hash ;;
  Ret (mkEnrollmentProof q caller now hash exp).

(** [enroll] for a caller who is not enrolled. *)
Definition enroll_new (caller : ScAddress) (q : string) (exp : option Z) : prog EnrollmentProof :=
  b ← has (record_key caller q);
  dups ← (if b : bool then
            existing ← load_record caller q; u32_add (duplicate_count existing) 1
          else Ret 0);
  now ← ledger_timestamp;
  hash ← compute_proof_hash caller q now;
  store recordC (record_key caller q)
    (mkEnrollmentRecord caller q now hash dups false exp false) ;;
  increment_count q ;;
  emit "Enrolled" q caller now hash ;;
  Ret (mkEnrollmentProof q caller now hash exp).

Definition enroll (caller : ScAddress) (q : string) (exp : option Z) : prog EnrollmentProof :=
  require_auth caller ;;
  enrolled ← is_enrolled_internal caller q;
  if enrolled : bool then
    behavior ← get_or behaviorC behavior_key Reject;
    match behavior with
    | Reject => panic "duplicate enrollment"
    | GrantWaitingList => join_waitlist caller q
    | OverrideExpired => override_expired caller q exp
    end
  else enroll_new caller q exp.

Definition cancel (caller : ScAddress) (q : string) : prog unit :=
  require_auth caller ;;
  o ← get recordC (record_key caller q);
  match o with
  | None => panic "not enrolled"
  | Some record =>
      panic_if (cancelled record) "not enrolled" ;;
      store recordC (record_key caller q) (set_cancelled record) ;;
      count ← get_or u32C (count_key q) 0;
      (if bool_decide (0 < count) then
         n ← u32_sub count 1; store u32C (count_key q) n
       else Ret tt) ;;
      now ← ledger_timestamp;
      emit "Cancelled" q caller now (proof_hash record)
  end.

Definition is_enrolled (who : ScAddress) (q : string) : prog bool := is_enrolled_internal who q.

Definition enrollment_record (who : ScAddress) (q : string) : prog (option EnrollmentRecord) :=
  b ← has (record_key who q);
  if b : bool then
    record ← load_record who q; Ret (Some record)
  else Ret None.

Definition is_behavior_supported (b : DuplicateBehavior) : bool :=
  match b with Reject => true | GrantWaitingList => true | OverrideExpired => true end.

Definition set_duplicate_behavior (a : ScAddress) (b : DuplicateBehavior) : prog unit :=
  require_auth a ;;
  panic_if (negb (is_behavior_supported b)) "behavior_not_supported" ;;
  set behaviorC behavior_key b ;;
  extend behavior_key ;;
  extend behavior_key ;;
  publish [ScSymbol "lineproof_enrollment"; ScSymbol "DuplicateBehaviorChanged"] (enc behaviorC b).

Definition finalize_enrollment (a who : ScAddress) (q : string) : prog unit :=
  require_auth a ;;
  record ← load_record who q;
  panic_if (cancelled record) "not enrolled" ;;
  panic_if (finalized record) "already finalized" ;;
  store recordC (record_key who q) (set_finalized record) ;;
  emit "Finalized" q who (enrolled_at record) (proof_hash record).

Definition enrollment_count (q : string) : prog Z := get_or u32C (count_key q) 0.

Definition get_waitlist (q : string) : prog (list ScAddress) :=
  get_or (vecC addressC) (waitlist_key q) [].

(** [iter().position(..).map(|pos| pos as u32)]. *)
Definition position_in (who : ScAddress) (waitlist : list ScAddress) : option Z :=
  (λ ix : nat * ScAddress, Z.of_nat ix.1 `mod` 2 ^ 32) <$> list_find (λ x, x = who) waitlist.

Definition waitlist_position (who : ScAddress) (q : string) : prog (option Z) :=
  waitlist ← get_waitlist q; Ret (position_in who waitlist).

(** One round of the loop of [promote_from_waitlist]. *)
Definition promote_one (q : string) (who : ScAddress) : prog unit :=
  now ← ledger_timestamp;
  hash ← compute_proof_hash who q now;
  store recordC (record_key who q) (mkEnrollmentRecord who q now hash 0 false None false) ;;
  increment_count q ;;
  emit "Enrolled" q who now hash.

(** The loop: [n] rounds are left, on the waiting list as far as it is consumed. *)
Fixpoint promote_loop (q : string) (n : nat) (waitlist : list ScAddress) :
    prog (list ScAddress) :=
  match n with
  | O => Ret waitlist
  | S n =>
      match waitlist with
      | [] => panic "called `Option::unwrap()` on a `None` value"
      | who :: waitlist => promote_one q who ;; promote_loop q n waitlist
      end
  end.

Definition promote_from_waitlist (a : ScAddress) (q : string) (count : Z) : prog unit :=
  require_auth a ;;
  waitlist ← get_waitlist q;
  let to_promote := Z.min count (Z.of_nat (length waitlist)) in
  rest ← promote_loop q (Z.to_nat to_promote) waitlist;
  store (vecC addressC) (waitlist_key q) rest.

(** * The contract's interface *)

Inductive Call :=
| CEnroll (caller : ScAddress) (q : string) (exp : option Z)
| CCancel (caller : ScAddress) (q : string)
| CIsEnrolled (who : ScAddress) (q : string)
| CEnrollmentRecord (who : ScAddress) (q : string)
| CSetDuplicateBehavior (a : ScAddress) (b : DuplicateBehavior)
| CFinalizeEnrollment (a who : ScAddress) (q : string)
| CEnrollmentCount (q : string)
| CIsBehaviorSupported (b : DuplicateBehavior)
| CGetWaitlist (q : string)
| CWaitlistPosition (who : ScAddress) (q : string)
| CPromoteFromWaitlist (a : ScAddress) (q : string) (count : Z).

Inductive Ret_val :=
| RUnit
| RBool (b : bool)
| RU32 (n : Z)
| ROptU32 (n : option Z)
| RProof (p : EnrollmentProof)
| RRecord (r : option EnrollmentRecord)
| RAddresses (l : list ScAddress).

Definition exec (c : Call) : prog Ret_val :=
  match c with
  | CEnroll caller q exp => RProof <$> enroll caller q exp
  | CCancel caller q => cancel caller q ;; Ret RUnit
  | CIsEnrolled who q => RBool <$> is_enrolled who q
  | CEnrollmentRecord who q => RRecord <$> enrollment_record who q
  | CSetDuplicateBehavior a b => set_duplicate_behavior a b ;; Ret RUnit
  | CFinalizeEnrollment a who q => finalize_enrollment a who q ;; Ret RUnit
  | CEnrollmentCount q => RU32 <$> enrollment_count q
  | CIsBehaviorSupported b => Ret (RBool (is_behavior_supported b))
  | CGetWaitlist q => RAddresses <$> get_waitlist q
  | CWaitlistPosition who q => ROptU32 <$> waitlist_position who q
  | CPromoteFromWaitlist a q count => promote_from_waitlist a q count ;; Ret RUnit
  end.

End Enrollment.
