(* ===== verification/EnrollmentSpec.v ===== *)
(** The specification of the enrollment contract and the proof that the contract of
    [Enrollment] implements it. *)
From S2P Require Import Prelude ScVal Storage Host Env Sim Enrollment.
Import Enrollment.

(** * State *)

Record LState := mkLState {
  l_records : gmap (string * ScAddress) EnrollmentRecord;
  l_counts : gmap string Z;
  l_waitlists : gmap string (list ScAddress);
  l_behavior : option DuplicateBehavior
}.

Definition l_empty : LState := mkLState ∅ ∅ ∅ None.

Definition l_set_record q who r s :=
  mkLState (<[(q, who) := r]> (l_records s)) (l_counts s) (l_waitlists s) (l_behavior s).
Definition l_set_count q n s :=
  mkLState (l_records s) (<[q := n]> (l_counts s)) (l_waitlists s) (l_behavior s).
Definition l_set_waitlist q l s :=
  mkLState (l_records s) (l_counts s) (<[q := l]> (l_waitlists s)) (l_behavior s).
Definition l_set_behavior b s :=
  mkLState (l_records s) (l_counts s) (l_waitlists s) (Some b).

(** What the contract reads, with its defaults. *)
Definition count_of (q : string) (s : LState) : Z := default 0 (l_counts s !! q).
Definition waitlist_of (q : string) (s : LState) : list ScAddress := default [] (l_waitlists s !! q).
Definition enrolled (who : ScAddress) (q : string) (s : LState) : bool :=
  match l_records s !! (q, who) with Some r => negb (cancelled r) | None => false end.

Inductive LKey :=
| KRecord (q : string) (who : ScAddress) | KCount (q : string) | KWaitlist (q : string) | KBehavior.
#[export] Instance LKey_eq_dec : EqDecision LKey.
Proof. solve_decision. Defined.

Definition lkeys : keyspace LKey.
Proof.
  refine (Keyspace
    (λ k, match k with
          | KRecord q who => record_key who q | KCount q => count_key q
          | KWaitlist q => waitlist_key q | KBehavior => behavior_key
          end)
    (λ v, match v with
          | ScVec [ScSymbol tag; ScSymbol q; ScAddr who] =>
              if decide (tag = "enrollment") then Some (KRecord q who) else None
          | ScVec [ScSymbol tag; ScSymbol q] =>
              if decide (tag = "enroll_cnt") then Some (KCount q)
              else if decide (tag = "waitlist") then Some (KWaitlist q) else None
          | ScSymbol tag => if decide (tag = "dup_behavior") then Some KBehavior else None
          | _ => None
          end) _ _ _).
  - abstract by intros [].
  - abstract (intros k x Hk; repeat case_match; simplify_eq; done).
  - abstract done.
Defined.

Definition l_content (s : LState) (k : LKey) : option ScVal :=
  match k with
  | KRecord q who => enc recordC <$> l_records s !! (q, who)
  | KCount q => enc u32C <$> l_counts s !! q
  | KWaitlist q => enc (vecC addressC) <$> l_waitlists s !! q
  | KBehavior => enc behaviorC <$> l_behavior s
  end.

#[export] Instance enrollment_view : View LState := keyed_view lkeys l_content.

Definition record_cell (q : string) (who : ScAddress) : cell LState EnrollmentRecord.
Proof.
  refine (keyed_cell lkeys l_content (KRecord q who) recordC (λ s, l_records s !! (q, who))
    (l_set_record q who) _ _); [abstract done|abstract solve_content].
Defined.
Definition count_cell (q : string) : cell LState Z.
Proof.
  refine (keyed_cell lkeys l_content (KCount q) u32C (λ s, l_counts s !! q)
    (l_set_count q) _ _); [abstract done|abstract solve_content].
Defined.
Definition waitlist_cell (q : string) : cell LState (list ScAddress).
Proof.
  refine (keyed_cell lkeys l_content (KWaitlist q) (vecC addressC) (λ s, l_waitlists s !! q)
    (l_set_waitlist q) _ _); [abstract done|abstract solve_content].
Defined.
Definition behavior_cell : cell LState DuplicateBehavior.
Proof.
  refine (keyed_cell lkeys l_content KBehavior behaviorC l_behavior l_set_behavior _ _);
    [abstract done|abstract solve_content].
Defined.

(** * What each call does *)

Definition ev (kind q : string) (who : ScAddress) (now : Z) (h : Hash) : Ev :=
  (emit_topics kind q, emit_data who now h).

(** An addition of one to a [u32]. *)
Definition room (n : Z) : Result unit :=
  reject_if (bool_decide (u32_max < n + 1)) "attempt to add with overflow".

Section spec.
Context (X : External).

Definition proof_of (who : ScAddress) (q : string) (t : Z) : Hash :=
  x_sha256 X (x_to_xdr X (proof_preimage who q t)).

(** The record of an enrollment at time [t]. *)
Definition fresh_record (who : ScAddress) (q : string) (t dups : Z) (exp : option Z) :
    EnrollmentRecord :=
  mkEnrollmentRecord who q t (proof_of who q t) dups false exp false.

Definition fresh_proof (who : ScAddress) (q : string) (t : Z) (exp : option Z) : EnrollmentProof :=
  mkEnrollmentProof q who t (proof_of who q t) exp.

Definition enrolled_event (who : ScAddress) (q : string) (t : Z) : Ev :=
  ev "Enrolled" q who t (proof_of who q t).

Definition spec_join (cx : Ctx) (who : ScAddress) (q : string) (s : LState) :
    Outcome EnrollmentProof LState :=
  reject_if (bool_decide (who ∈ waitlist_of q s)) "already waitlisted" ;;
  Ok (mkEnrollmentProof q who (c_now cx) 0%N None,
      l_set_waitlist q (waitlist_of q s ++ [who]) s, [ev "WaitlistAdded" q who (c_now cx) 0%N]).

Definition spec_override (cx : Ctx) (who : ScAddress) (q : string) (exp : option Z) (s : LState) :
    Outcome EnrollmentProof LState :=
  r ← expect (l_records s !! (q, who)) "record missing";
  reject_if (negb (is_expired (c_now cx) (expires_at r))) "duplicate enrollment" ;;
  room (duplicate_count r) ;;
  Ok (fresh_proof who q (c_now cx) exp,
      l_set_record q who (fresh_record who q (c_now cx) (duplicate_count r + 1) exp) s,
      [enrolled_event who q (c_now cx)]).

(** The duplicate count of a first or repeated enrollment. *)
Definition next_dups (o : option EnrollmentRecord) : Result Z :=
  match o with
  | Some r => room (duplicate_count r) ;; Ok (duplicate_count r + 1)
  | None => Ok 0
  end.

Definition spec_enroll_new (cx : Ctx) (who : ScAddress) (q : string) (exp : option Z) (s : LState) :
    Outcome EnrollmentProof LState :=
  dups ← next_dups (l_records s !! (q, who));
  room (count_of q s) ;;
  Ok (fresh_proof who q (c_now cx) exp,
      l_set_count q (count_of q s + 1)
        (l_set_record q who (fresh_record who q (c_now cx) dups exp) s),
      [enrolled_event who q (c_now cx)]).

Definition spec_enroll (cx : Ctx) (who : ScAddress) (q : string) (exp : option Z) (s : LState) :
    Outcome EnrollmentProof LState :=
  auth cx who ;;
  if enrolled who q s then
    match default Reject (l_behavior s) with
    | Reject => Err (EPanic "duplicate enrollment")
    | GrantWaitingList => spec_join cx who q s
    | OverrideExpired => spec_override cx who q exp s
    end
  else spec_enroll_new cx who q exp s.

(** Cancelling frees a place in the count, if it is not zero already. *)
Definition decremented (q : string) (s : LState) : LState :=
  if decide (0 < count_of q s) then l_set_count q (count_of q s - 1) s else s.

Definition spec_cancel (cx : Ctx) (who : ScAddress) (q : string) (s : LState) :
    Outcome unit LState :=
  auth cx who ;;
  r ← expect (l_records s !! (q, who)) "not enrolled";
  reject_if (cancelled r) "not enrolled" ;;
  Ok (tt, decremented q (l_set_record q who (set_cancelled r) s),
      [ev "Cancelled" q who (c_now cx) (proof_hash r)]).

Definition spec_set_behavior (cx : Ctx) (a : ScAddress) (b : DuplicateBehavior) (s : LState) :
    Outcome unit LState :=
  auth cx a ;;
  Ok (tt, l_set_behavior b s,
      [([ScSymbol "lineproof_enrollment"; ScSymbol "DuplicateBehaviorChanged"], enc behaviorC b)]).

Definition spec_finalize (cx : Ctx) (a who : ScAddress) (q : string) (s : LState) :
    Outcome unit LState :=
  auth cx a ;;
  r ← expect (l_records s !! (q, who)) "record missing";
  reject_if (cancelled r) "not enrolled" ;;
  reject_if (finalized r) "already finalized" ;;
  Ok (tt, l_set_record q who (set_finalized r) s,
      [ev "Finalized" q who (enrolled_at r) (proof_hash r)]).

Definition spec_promote_one (cx : Ctx) (q : string) (who : ScAddress) (s : LState) :
    Outcome unit LState :=
  room (count_of q s) ;;
  Ok (tt, l_set_count q (count_of q s + 1)
            (l_set_record q who (fresh_record who q (c_now cx) 0 None) s),
      [enrolled_event who q (c_now cx)]).

Fixpoint spec_promote_each (cx : Ctx) (q : string) (whos : list ScAddress) (s : LState) :
    Outcome unit LState :=
  match whos with
  | [] => Ok (tt, s, [])
  | who :: whos => then_spec (spec_promote_one cx q who s) (λ _, spec_promote_each cx q whos)
  end.

(** The first [count] of the waiting list are enrolled and leave it. *)
Definition spec_promote (cx : Ctx) (a : ScAddress) (q : string) (count : Z) (s : LState) :
    Outcome unit LState :=
  let wl := waitlist_of q s in
  let n := Z.to_nat (Z.min count (Z.of_nat (length wl))) in
  auth cx a ;;
  then_spec (spec_promote_each cx q (take n wl) s)
    (λ _ s', Ok (tt, l_set_waitlist q (drop n wl) s', [])).

Definition spec_call (cx : Ctx) (c : Call) (s : LState) : Outcome Ret_val LState :=
  let unit_out r := (λ r : unit * LState * list Ev, (RUnit, r.1.2, r.2)) <$> r in
  match c with
  | CEnroll who q exp =>
      (λ r : EnrollmentProof * LState * list Ev, (RProof r.1.1, r.1.2, r.2)) <$>
        spec_enroll cx who q exp s
  | CCancel who q => unit_out (spec_cancel cx who q s)
  | CIsEnrolled who q => Ok (RBool (enrolled who q s), s, [])
  | CEnrollmentRecord who q => Ok (RRecord (l_records s !! (q, who)), s, [])
  | CSetDuplicateBehavior a b => unit_out (spec_set_behavior cx a b s)
  | CFinalizeEnrollment a who q => unit_out (spec_finalize cx a who q s)
  | CEnrollmentCount q => Ok (RU32 (count_of q s), s, [])
  | CIsBehaviorSupported _ => Ok (RBool true, s, [])
  | CGetWaitlist q => Ok (RAddresses (waitlist_of q s), s, [])
  | CWaitlistPosition who q => Ok (ROptU32 (position_in who (waitlist_of q s)), s, [])
  | CPromoteFromWaitlist a q count => unit_out (spec_promote cx a q count s)
  end.
End spec.

(** * The contract implements it *)

Ltac l_pick k tac :=
  lazymatch k with
  | record_key ?who ?q => tac (record_cell q who)
  | count_key ?q => tac (count_cell q)
  | waitlist_key ?q => tac (waitlist_cell q)
  | behavior_key => tac behavior_cell
  end.

Ltac l_clean :=
  cbn [cget cset ck cc record_cell count_cell waitlist_cell behavior_cell keyed_cell
       l_set_record l_set_count l_set_waitlist l_set_behavior
       l_records l_counts l_waitlists l_behavior].

Ltac l_step :=
  lazymatch goal with
  | |- simk _ (is_enrolled_internal _ _ ≫= _) _ _ _ => unfold is_enrolled_internal at 1
  | |- simk _ (load_record _ _ ≫= _) _ _ _ => unfold load_record at 1
  | |- simk _ (compute_proof_hash _ _ _ ≫= _) _ _ _ => unfold compute_proof_hash at 1
  | |- simk _ (increment_count _ ≫= _) _ _ _ => unfold increment_count at 1
  | |- simk _ (get_waitlist _ ≫= _) _ _ _ => unfold get_waitlist at 1
  | |- simk _ (emit _ _ _ _ _ ≫= _) _ _ _ => unfold emit at 1
  | |- simk _ (emit _ _ _ _ _) _ _ _ => apply sim_tail
  | _ => sim_op l_pick l_clean
  end; cbv beta.

Section refinement.
Context (X : External).

Lemma sim_is_on_waitlist {A} who q (f : bool → prog A) e0 e s evs sp :
  sim_post e0 e s evs →
  simk X (f (bool_decide (who ∈ waitlist_of q s))) e0 e sp →
  simk X (is_on_waitlist who q ≫= f) e0 e sp.
Proof.
  intros Hp Hf. unfold is_on_waitlist, waitlist_of in *. apply sim_assoc. l_step.
  destruct (l_waitlists s !! q) as [l|] eqn:Hl;
    [rewrite bool_decide_true by eauto|rewrite bool_decide_false by (by intros [])].
  - repeat l_step. apply Hf.
  - by apply sim_ret_bind.
Qed.

Lemma sim_join who q e0 e s evs :
  sim_post e0 e s evs →
  simk X (join_waitlist who q) e0 e (after evs (spec_join (ctx_of e0) who q s)).
Proof.
  intros Hp. unfold join_waitlist, spec_join. eapply sim_is_on_waitlist; [exact Hp|].
  unfold waitlist_of, after. repeat l_step.
Qed.

Lemma sim_override who q exp e0 e s evs :
  sim_post e0 e s evs →
  simk X (override_expired who q exp) e0 e (after evs (spec_override X (ctx_of e0) who q exp s)).
Proof.
  intros Hp. unfold override_expired, spec_override, room, after. repeat l_step.
Qed.

Lemma sim_enroll_new who q exp e0 e s evs :
  sim_post e0 e s evs →
  simk X (enroll_new who q exp) e0 e (after evs (spec_enroll_new X (ctx_of e0) who q exp s)).
Proof.
  intros Hp. unfold enroll_new, spec_enroll_new, next_dups, room, count_of, after. l_step.
  destruct (l_records s !! (q, who)) as [r|] eqn:Hr;
    [rewrite bool_decide_true by eauto|rewrite bool_decide_false by (by intros [])];
    repeat l_step.
Qed.

Lemma sim_enroll_call who q exp e s :
  Rep e s → sim X (enroll who q exp) e (spec_enroll X (ctx_of e) who q exp s).
Proof.
  sim_begin. unfold enroll, spec_enroll, enrolled. repeat l_step.
  - destruct (default Reject (l_behavior s)); [by apply sim_fail| |];
      rewrite <-(after_nil (_ : Outcome EnrollmentProof LState));
      [by apply sim_join|by apply sim_override].
  - rewrite <-(after_nil (spec_enroll_new _ _ _ _ _ _)). by apply sim_enroll_new.
  - rewrite <-(after_nil (spec_enroll_new _ _ _ _ _ _)). by apply sim_enroll_new.
Qed.

Lemma sim_cancel_enrollment who q e s :
  Rep e s → sim X (cancel who q) e (spec_cancel (ctx_of e) who q s).
Proof.
  sim_begin. unfold cancel, spec_cancel, decremented, count_of.
  cbn [l_set_record l_counts]. repeat l_step.
  - apply bool_decide_eq_true in Hb. rewrite decide_True by done. apply sim_u32_sub_ok; [lia|]. repeat l_step.
  - apply bool_decide_eq_false in Hb. eapply sim_ret; [exact Hp|]. by rewrite decide_False.
Qed.

Lemma sim_is_enrolled who q e s :
  Rep e s → sim X (is_enrolled who q) e (Ok (enrolled who q s, s, [])).
Proof.
  sim_begin. unfold is_enrolled, is_enrolled_internal, enrolled. repeat l_step.
Qed.

Lemma sim_enrollment_record who q e s :
  Rep e s → sim X (enrollment_record who q) e (Ok (l_records s !! (q, who), s, [])).
Proof.
  sim_begin. unfold enrollment_record. l_step.
  destruct (l_records s !! (q, who)) as [r|] eqn:Hr;
    [rewrite bool_decide_true by eauto|rewrite bool_decide_false by (by intros [])];
    repeat l_step.
Qed.

Lemma sim_set_duplicate_behavior a b e s :
  Rep e s → sim X (set_duplicate_behavior a b) e (spec_set_behavior (ctx_of e) a b s).
Proof. sim_begin. unfold set_duplicate_behavior, spec_set_behavior. destruct b; repeat l_step. Qed.

Lemma sim_finalize_enrollment a who q e s :
  Rep e s → sim X (finalize_enrollment a who q) e (spec_finalize (ctx_of e) a who q s).
Proof. sim_begin. unfold finalize_enrollment, spec_finalize. repeat l_step. Qed.

Lemma sim_enrollment_count q e s :
  Rep e s → sim X (enrollment_count q) e (Ok (count_of q s, s, [])).
Proof. sim_begin. unfold enrollment_count, count_of. repeat l_step. Qed.

Lemma sim_get_waitlist q e s :
  Rep e s → sim X (get_waitlist q) e (Ok (waitlist_of q s, s, [])).
Proof. sim_begin. unfold get_waitlist, waitlist_of. repeat l_step. Qed.

Lemma sim_waitlist_position who q e s :
  Rep e s → sim X (waitlist_position who q) e (Ok (position_in who (waitlist_of q s), s, [])).
Proof. sim_begin. unfold waitlist_position, waitlist_of. repeat l_step. Qed.

Lemma sim_promote_one q who e0 e s evs :
  sim_post e0 e s evs →
  simk X (promote_one q who) e0 e (after evs (spec_promote_one X (ctx_of e0) q who s)).
Proof.
  intros Hp. unfold promote_one, spec_promote_one, room, count_of, after. repeat l_step.
Qed.

(** The loop takes the first [n] of the waiting list. *)
Lemma sim_promote_loop q n wl e0 e s evs :
  (n <= length wl)%nat → sim_post e0 e s evs →
  simk X (promote_loop q n wl) e0 e
    (after evs ((λ r, (drop n wl, r.1.2, r.2)) <$> spec_promote_each X (ctx_of e0) q (take n wl) s)).
Proof.
  revert wl e s evs. induction n as [|n IH]; intros wl e s evs Hn Hp.
  - eapply sim_ret; [exact Hp|]. unfold after. simpl. by rewrite app_nil_r.
  - destruct wl as [|who wl]; simpl in Hn; [lia|]. cbn [promote_loop take drop spec_promote_each].
    eapply sim_bind; [by apply sim_promote_one| |].
    + intros x Hx. by destruct (spec_promote_one X (ctx_of e0) q who s); simplify_eq/=.
    + intros [] s1 evs1 e1 Hone Hp1. specialize (IH wl e1 s1 evs1 ltac:(lia) Hp1).
      destruct (spec_promote_one X (ctx_of e0) q who s) as [[[[] s2] evs2]|]; simplify_eq/=.
      unfold after, then_spec in *. simpl in *.
      destruct (spec_promote_each X (ctx_of e0) q (take n wl) s1) as [[[[] s3] evs3]|]; simpl in *;
        [|exact IH]. by rewrite <-app_assoc in IH.
Qed.

Lemma sim_promote_from_waitlist a q count e s :
  Rep e s → sim X (promote_from_waitlist a q count) e (spec_promote X (ctx_of e) a q count s).
Proof.
  sim_begin. unfold promote_from_waitlist, spec_promote, waitlist_of. cbv zeta. l_step. l_step.
  l_step. set (wl := default [] (l_waitlists s !! q)).
  set (n := Z.to_nat (Z.min count (Z.of_nat (length wl)))).
  eapply sim_bind; [by apply sim_promote_loop; [lia|]| |].
  - intros x Hx. by destruct (spec_promote_each _ _ _ _ _); simplify_eq/=.
  - intros rest s1 evs1 e2 Heach Hp1. l_step. l_step. eapply sim_ret; [eassumption|].
    destruct (spec_promote_each _ _ _ _ _) as [[[[] s2] evs2]|]; simplify_eq/=.
    by rewrite app_nil_r.
Qed.

Lemma enrollment_sim_exec c e s : Rep e s → sim X (exec c) e (spec_call X (ctx_of e) c s).
Proof.
  intros Hr. destruct c; cbn [exec spec_call].
  - by apply sim_fmap, sim_enroll_call.
  - by apply sim_then, sim_cancel_enrollment.
  - by apply sim_read, sim_is_enrolled.
  - by apply sim_read, sim_enrollment_record.
  - by apply sim_then, sim_set_duplicate_behavior.
  - by apply sim_then, sim_finalize_enrollment.
  - by apply sim_read, sim_enrollment_count.
  - destruct b; sim_begin; by eapply sim_ret.
  - by apply sim_read, sim_get_waitlist.
  - by apply sim_read, sim_waitlist_position.
  - by apply sim_then, sim_promote_from_waitlist.
Qed.
End refinement.
