(* ===== verification/EnrollmentThms.v ===== *)
(** What the enrollment contract guarantees, for all histories of transactions, each
    with an evaluated scenario: proofs that identify an enrollment, counts, the
    waiting list, and the policy for duplicates. *)
From S2P Require Import Prelude ScVal Storage Host Env Sim Enrollment EnrollmentSpec.
Import Enrollment.

(** * The abstract machine *)
Section changes.
Context (X : External).

Inductive l_change : LState → LState → Prop :=
| ch_join who q s :
    who ∉ waitlist_of q s → l_change s (l_set_waitlist q (waitlist_of q s ++ [who]) s)
| ch_override who q t dups exp r s :
    l_records s !! (q, who) = Some r → cancelled r = false →
    l_change s (l_set_record q who (fresh_record X who q t dups exp) s)
| ch_new who q t dups exp s :
    enrolled who q s = false → count_of q s < u32_max →
    l_change s (l_set_count q (count_of q s + 1)
                  (l_set_record q who (fresh_record X who q t dups exp) s))
| ch_cancel who q r s :
    l_records s !! (q, who) = Some r → cancelled r = false →
    l_change s (decremented q (l_set_record q who (set_cancelled r) s))
| ch_behavior b s : l_change s (l_set_behavior b s)
| ch_finalize who q r s :
    l_records s !! (q, who) = Some r → cancelled r = false →
    l_change s (l_set_record q who (set_finalized r) s).

(** Promotion, one identity at a time; it alone may enroll who is enrolled. *)
Inductive l_promote : LState → LState → Prop :=
| ch_promote who q t s :
    count_of q s < u32_max →
    l_promote s (l_set_count q (count_of q s + 1)
                  (l_set_record q who (fresh_record X who q t 0 None) s))
| ch_drop q n s : l_promote s (l_set_waitlist q (drop n (waitlist_of q s)) s).

Definition not_promote (c : Call) : Prop :=
  match c with CPromoteFromWaitlist _ _ _ => False | _ => True end.

Lemma room_ok n : room n = Ok tt → n < u32_max.
Proof. unfold room. intros H%reject_if_ok%bool_decide_eq_false. lia. Qed.

Lemma enrolled_true who q s :
  enrolled who q s = true → ∃ r, l_records s !! (q, who) = Some r ∧ cancelled r = false.
Proof. unfold enrolled. destruct (_ !! _) as [r|]; [|done]. intros ?%negb_true_iff. eauto. Qed.

Lemma enroll_change cx who q exp s r :
  spec_enroll X cx who q exp s = Ok r → l_change s r.1.2.
Proof.
  unfold spec_enroll. intros Hs. outcome_inv. destruct (enrolled who q s) eqn:Hen.
  - apply enrolled_true in Hen as (r0 & Hr0 & Hc).
    destruct (default Reject (l_behavior s)); [done| |].
    + unfold spec_join in *. outcome_inv. by apply ch_join.
    + unfold spec_override in *. outcome_inv. by eapply ch_override.
  - unfold spec_enroll_new in *. outcome_inv. apply ch_new; [done|by apply room_ok].
Qed.

Lemma promote_each_changes cx q whos s r :
  spec_promote_each X cx q whos s = Ok r →
  rtc l_promote s r.1.2 ∧ ∀ q', waitlist_of q' r.1.2 = waitlist_of q' s.
Proof.
  revert s r. induction whos as [|who whos IH]; intros s r Hs; cbn [spec_promote_each] in Hs;
    [by outcome_inv|].
  unfold then_spec, spec_promote_one in Hs. outcome_inv.
  match goal with H : spec_promote_each _ _ _ _ _ = _ |- _ => apply IH in H as [Hrtc Hw] end.
  split; [|done]. eapply rtc_l; [|exact Hrtc]. apply ch_promote. by apply room_ok.
Qed.

(** What a promoted batch leaves: a fresh record for each of them. *)
Lemma promote_each_records cx q whos s r :
  spec_promote_each X cx q whos s = Ok r → NoDup whos →
  (∀ who, who ∈ whos →
    l_records r.1.2 !! (q, who) = Some (fresh_record X who q (c_now cx) 0 None)) ∧
  (∀ q' who, q' ≠ q ∨ who ∉ whos → l_records r.1.2 !! (q', who) = l_records s !! (q', who)) ∧
  count_of q r.1.2 = count_of q s + Z.of_nat (length whos).
Proof.
  revert s r. induction whos as [|who whos IH]; intros s r Hs Hnd; cbn [spec_promote_each] in Hs.
  { outcome_inv. split_and!; [by intros ? ?%elem_of_nil|done|simpl; lia]. }
  apply NoDup_cons in Hnd as [Hin Hnd]. unfold then_spec, spec_promote_one in Hs. outcome_inv.
  match goal with H : spec_promote_each _ _ _ _ _ = _ |- _ =>
    apply IH in H as (Hnew & Hold & Hcount); [|done] end.
  split_and!.
  - intros who' [->|Hw]%elem_of_cons; [|by apply Hnew].
    rewrite Hold by (by right). simpl. by rewrite lookup_insert_eq.
  - intros q' who' Hne. rewrite Hold by set_solver. simpl. rewrite lookup_insert_ne; [done|].
    intros ?; simplify_eq. set_solver.
  - rewrite Hcount. unfold count_of at 1; simpl. rewrite lookup_insert_eq. simpl. lia.
Qed.

Lemma call_l_change cx c s a s' evs :
  spec_call X cx c s = Ok (a, s', evs) →
  s' = s ∨ l_change s s' ∨ ¬ not_promote c ∧ rtc l_promote s s'.
Proof.
  destruct c; cbn [spec_call]; intros Hs; try (left; by simplify_eq);
    apply fmap_ok in Hs as (r & Hr & Hs); injection Hs as _ <- _; right.
  - left. by eapply enroll_change.
  - left. unfold spec_cancel in Hr. outcome_inv. by eapply ch_cancel.
  - left. unfold spec_set_behavior in Hr. outcome_inv. apply ch_behavior.
  - left. unfold spec_finalize in Hr. outcome_inv. by eapply ch_finalize.
  - right. split; [by intros []|]. unfold spec_promote, then_spec in Hr. outcome_inv.
    match goal with H : spec_promote_each _ _ _ _ _ = _ |- _ =>
      apply promote_each_changes in H as [Hrtc Hw] end.
    eapply rtc_r; [exact Hrtc|]. simpl in *. rewrite <-Hw at 2. apply ch_drop.
Qed.
End changes.

(** * Invariants *)

(** A record counts for [q] while it is not cancelled. *)
Definition active_in (q : string) (k : string * ScAddress) (r : EnrollmentRecord) : Z :=
  if decide (k.1 = q ∧ cancelled r = false) then 1 else 0.
Definition active_count (q : string) (s : LState) : Z := msum (active_in q) (l_records s).

Lemma active_in_nonneg q k r : 0 <= active_in q k r.
Proof. unfold active_in. case_decide; lia. Qed.

Lemma active_count_nonneg q s : 0 <= active_count q s.
Proof. apply msum_nonneg. intros. apply active_in_nonneg. Qed.

Lemma active_count_set_count q q' n s : active_count q (l_set_count q' n s) = active_count q s.
Proof. done. Qed.

(** How a new record for [who] changes the active count of its queue. *)
Lemma active_count_set q q' who r s :
  active_count q (l_set_record q' who r s) =
  active_count q s + active_in q (q', who) r
    - (if decide (q' = q ∧ enrolled who q' s = true) then 1 else 0).
Proof.
  unfold active_count, enrolled; simpl. destruct (l_records s !! (q', who)) as [r0|] eqn:Hr.
  - rewrite (msum_update _ _ _ _ _ Hr). unfold active_in at 2; simpl.
    rewrite (decide_ext (q' = q ∧ cancelled r0 = false) (q' = q ∧ negb (cancelled r0) = true))
      by (by rewrite negb_true_iff).
    lia.
  - rewrite msum_insert by done. rewrite (decide_False (P := _ ∧ _)) by (by intros [_ ?]). lia.
Qed.

Section invariant.
Context (X : External).

(** A record under its own key, with the hash of its own data. *)
Definition record_ok (q : string) (who : ScAddress) (r : EnrollmentRecord) : Prop :=
  identity r = who ∧ queue_id r = q ∧ proof_hash r = proof_of X who q (enrolled_at r).

Record enrollment_inv (s : LState) : Prop := {
  li_records : ∀ q who r, l_records s !! (q, who) = Some r → record_ok q who r;
  li_waitlists : ∀ q, NoDup (waitlist_of q s);
  li_counts : ∀ q, active_count q s <= count_of q s <= u32_max
}.

(** Without promotions the count is exact. *)
Definition exact_inv (s : LState) : Prop := ∀ q, count_of q s = active_count q s.

Lemma count_of_set q q' n s :
  count_of q' (l_set_count q n s) = if decide (q = q') then n else count_of q' s.
Proof.
  unfold count_of; simpl. case_decide; [subst; by rewrite lookup_insert_eq|by rewrite lookup_insert_ne].
Qed.

Lemma waitlist_of_set q q' l s :
  waitlist_of q' (l_set_waitlist q l s) = if decide (q = q') then l else waitlist_of q' s.
Proof.
  unfold waitlist_of; simpl.
  case_decide; [subst; by rewrite lookup_insert_eq|by rewrite lookup_insert_ne].
Qed.
Lemma enrolled_Some q who r s :
  l_records s !! (q, who) = Some r → cancelled r = false → enrolled who q s = true.
Proof. unfold enrolled. by intros -> ->. Qed.

(** What each change does to the two counts. *)
Lemma l_change_counts s s' :
  l_change X s s' → (∀ q, active_count q s <= count_of q s) → ∀ q,
  count_of q s' - count_of q s = active_count q s' - active_count q s ∧
  (count_of q s' <= count_of q s ∨ count_of q s' <= u32_max).
Proof.
  destruct 1 as [who q s Hw|who q t dups exp r s Hr Hc|who q t dups exp s Hen Hlt
                |who q r s Hr Hc|b s|who q r s Hr Hc]; intros Hle q';
    try (split; [unfold count_of, active_count; simpl; lia|by left]).
  - split; [|by left]. rewrite active_count_set, (enrolled_Some _ _ _ _ Hr Hc).
    unfold count_of, active_in; simpl. repeat case_decide; naive_solver lia.
  - rewrite count_of_set, active_count_set_count, active_count_set, Hen.
    unfold active_in, count_of in *; simpl.
    destruct (decide (q = q')) as [<-|]; repeat case_decide; naive_solver lia.
  - assert (Hset := λ q', active_count_set q' q who (set_cancelled r) s).
    rewrite (enrolled_Some _ _ _ _ Hr Hc) in Hset. unfold active_in in Hset. simpl in Hset.
    assert (0 < count_of q s).
    { pose proof (active_count_nonneg q (l_set_record q who (set_cancelled r) s)) as H0.
      rewrite Hset in H0. specialize (Hle q). repeat case_decide; naive_solver lia. }
    unfold decremented. change (count_of q (l_set_record _ _ _ s)) with (count_of q s).
    rewrite decide_True by done. rewrite count_of_set, active_count_set_count, Hset.
    unfold count_of in *; simpl.
    destruct (decide (q = q')) as [<-|]; repeat case_decide; naive_solver lia.
  - split; [|by left]. rewrite active_count_set, (enrolled_Some _ _ _ _ Hr Hc).
    unfold count_of, active_in; simpl. rewrite Hc. repeat case_decide; naive_solver lia.
Qed.
Lemma fresh_record_ok q who t dups exp : record_ok q who (fresh_record X who q t dups exp).
Proof. done. Qed.

(** Changes write well-formed records only, and keep waiting lists duplicate-free. *)
Lemma records_ok_set q who r s :
  (∀ q who r, l_records s !! (q, who) = Some r → record_ok q who r) → record_ok q who r →
  ∀ q' who' r', l_records (l_set_record q who r s) !! (q', who') = Some r' → record_ok q' who' r'.
Proof.
  intros Hs Hr q' who' r'. simpl. intros [[Heq <-]|[_ ?]]%lookup_insert_Some; [|by apply Hs].
  by simplify_eq.
Qed.

Lemma enrollment_inv_change s s' : l_change X s s' → enrollment_inv s → enrollment_inv s'.
Proof.
  intros Hch [Hrec Hwl Hcnt]. split.
  - destruct Hch; unfold decremented; try done; try (by apply records_ok_set).
    + case_decide; apply records_ok_set; try done; by apply (Hrec q who r).
    + apply records_ok_set; [done|]. by apply (Hrec q who r).
  - intros q'. destruct Hch as [who q s Hw| | |who q r s _ _| |]; try exact (Hwl q').
    + rewrite waitlist_of_set. case_decide; [|exact (Hwl q')]. apply NoDup_app. subst.
      split_and!; [done| |apply NoDup_singleton]. by intros x Hx ->%list_elem_of_singleton.
    + unfold decremented. case_decide; exact (Hwl q').
  - intros q'. destruct (l_change_counts s s' Hch (λ q, proj1 (Hcnt q)) q') as [Hd Hmax].
    specialize (Hcnt q'). lia.
Qed.

Lemma enrollment_inv_promote s s' : l_promote X s s' → enrollment_inv s → enrollment_inv s'.
Proof.
  destruct 1 as [who q t s Hlt|q n s]; intros [Hrec Hwl Hcnt]; split; try done.
  - by apply (records_ok_set q who (fresh_record X who q t 0 None) s).
  - intros q'. rewrite count_of_set, active_count_set_count, active_count_set.
    unfold active_in; simpl. specialize (Hcnt q').
    destruct (decide (q = q')) as [<-|]; repeat case_decide; unfold count_of in *; simpl;
      naive_solver lia.
  - intros q'. rewrite waitlist_of_set. case_decide; [|exact (Hwl q')]. subst.
    by apply NoDup_take_drop.
Qed.

Lemma exact_inv_change s s' : l_change X s s' → exact_inv s → exact_inv s'.
Proof.
  intros Hch Hex q. destruct (l_change_counts s s' Hch) with q as [Hd _]; [|specialize (Hex q); lia].
  intros q'. by rewrite Hex.
Qed.

Lemma l_step_inv s s' :
  spec_step (spec_call X) (λ _, True) s s' → enrollment_inv s → enrollment_inv s'.
Proof.
  intros (cx & c & a & evs & _ & [->|[Hch|[_ Hpr]]]%call_l_change) Hinv; [done| |].
  - by eapply enrollment_inv_change.
  - clear -Hpr Hinv. induction Hpr; [done|]. by eauto using enrollment_inv_promote.
Qed.

Lemma l_step_exact s s' :
  spec_step (spec_call X) not_promote s s' → enrollment_inv s ∧ exact_inv s →
  enrollment_inv s' ∧ exact_inv s'.
Proof.
  intros (cx & c & a & evs & Hc & [->|[Hch|[Hn _]]]%call_l_change) [Hinv Hex]; [done| |done].
  split; [by eapply enrollment_inv_change|by eapply exact_inv_change].
Qed.

Lemma enrollment_inv_empty : enrollment_inv l_empty.
Proof.
  split; [done|intros q; unfold waitlist_of; simpl; rewrite lookup_empty; constructor|].
  intros q. unfold count_of; simpl. rewrite lookup_empty. simpl. unfold u32_max. split; [done|lia].
Qed.

Lemma exact_inv_empty : exact_inv l_empty.
Proof. intros q. unfold count_of; simpl. by rewrite lookup_empty. Qed.
End invariant.

(** How a call changes the waiting list of [q]. *)
Lemma waitlist_step X cx c s v s' evs q :
  spec_call X cx c s = Ok (v, s', evs) → enrollment_inv X s →
  waitlist_of q s' = waitlist_of q s ∨
  (∃ who, who ∉ waitlist_of q s ∧ enrolled who q s = true ∧
          waitlist_of q s' = waitlist_of q s ++ [who]) ∨
  (∃ n, waitlist_of q s' = drop n (waitlist_of q s) ∧
        ∀ who, who ∈ take n (waitlist_of q s) →
          l_records s' !! (q, who) = Some (fresh_record X who q (c_now cx) 0 None)).
Proof.
  intros Hs Hinv. destruct c; cbn [spec_call] in Hs; try (left; by simplify_eq);
    apply fmap_ok in Hs as (r & Hr & Hs); injection Hs as _ <- _.
  - unfold spec_enroll in Hr. outcome_inv. destruct (enrolled caller q0 s) eqn:Hen.
    + destruct (default Reject (l_behavior s)); [done| |].
      * unfold spec_join in *. outcome_inv. rewrite waitlist_of_set.
        case_decide; [subst; right; left; eauto|by left].
      * unfold spec_override in *. outcome_inv. by left.
    + unfold spec_enroll_new in *. outcome_inv. by left.
  - unfold spec_cancel, decremented in Hr. outcome_inv. left. by case_decide.
  - unfold spec_set_behavior in Hr. outcome_inv. by left.
  - unfold spec_finalize in Hr. outcome_inv. by left.
  - unfold spec_promote, then_spec in Hr. outcome_inv. rewrite waitlist_of_set.
    set (n := Z.to_nat _) in *. match goal with H : spec_promote_each _ _ _ _ _ = _ |- _ =>
      pose proof (promote_each_changes _ _ _ _ _ _ H) as [_ Hw];
      apply promote_each_records in H as (Hnew & _); [|by apply NoDup_take_drop, Hinv] end.
    case_decide; [subst; right; right; by exists n|left; apply Hw].
Qed.

(** * Reading a ledger *)

Definition record_in (e : Env) (q : string) (who : ScAddress) : option EnrollmentRecord :=
  data e (record_key who q) ≫= dec recordC.
Definition count_in (e : Env) (q : string) : Z := default 0 (data e (count_key q) ≫= dec u32C).
Definition waitlist_in (e : Env) (q : string) : list ScAddress :=
  default [] (data e (waitlist_key q) ≫= dec (vecC addressC)).
Definition behavior_in (e : Env) : DuplicateBehavior :=
  default Reject (data e behavior_key ≫= dec behaviorC).
Definition enrolled_in (e : Env) (q : string) (who : ScAddress) : bool :=
  match record_in e q who with Some r => negb (cancelled r) | None => false end.

Section reading.
Context (e : Env) (s : LState) (Hr : Rep e s).

Lemma record_in_Rep q who : record_in e q who = l_records s !! (q, who).
Proof. apply (cell_read (record_cell q who) e s Hr). Qed.
Lemma count_in_Rep q : count_in e q = count_of q s.
Proof. unfold count_in, count_of. f_equal. exact (cell_read (count_cell q) e s Hr). Qed.
Lemma waitlist_in_Rep q : waitlist_in e q = waitlist_of q s.
Proof. unfold waitlist_in, waitlist_of. f_equal. exact (cell_read (waitlist_cell q) e s Hr). Qed.
Lemma behavior_in_Rep : behavior_in e = default Reject (l_behavior s).
Proof. unfold behavior_in. f_equal. exact (cell_read behavior_cell e s Hr). Qed.
Lemma enrolled_in_Rep q who : enrolled_in e q who = enrolled who q s.
Proof. unfold enrolled_in. by rewrite record_in_Rep. Qed.
End reading.

(** * Histories *)
Section history.
Context (X : External).

Definition enrollment_tx : Env → Env → Prop := tx X exec (λ _, True).

Lemma enrollment_reachable e0 e :
  Rep e0 l_empty → rtc enrollment_tx e0 e → ∃ s, Rep e s ∧ enrollment_inv X s.
Proof.
  intros Hr Htx. apply (history_inv X exec ctx_of (spec_call X) (λ _, True) (enrollment_inv X)) with e0 l_empty;
    try done.
  - intros. by apply enrollment_sim_exec.
  - intros s1 s2 Hinv Hst. by eapply l_step_inv.
  - apply enrollment_inv_empty.
Qed.

Lemma unpromoted_reachable e0 e :
  Rep e0 l_empty → rtc (tx X exec not_promote) e0 e →
  ∃ s, Rep e s ∧ enrollment_inv X s ∧ exact_inv s.
Proof.
  intros Hr Htx.
  apply (history_inv X exec ctx_of (spec_call X) not_promote (λ s, enrollment_inv X s ∧ exact_inv s))
    with e0 l_empty; try done.
  - intros. by apply enrollment_sim_exec.
  - intros s1 s2 Hinv Hst. by eapply l_step_exact.
  - split; [apply enrollment_inv_empty|apply exact_inv_empty].
Qed.

Lemma records_readable e s :
  Rep e s → ∀ q who, record_in e q who = l_records s !! (q, who).
Proof. intros. by apply record_in_Rep. Qed.

(** A live call ends as specified. *)
Lemma enrollment_live_ok auths c e s a s' evs :
  Rep e s → env_live e → spec_call X (ctx_of (authorized auths e)) c s = Ok (a, s', evs) →
  ∃ e', invoke X auths (exec c) e = (Ok a, e') ∧ Rep e' s' ∧ env_live e'.
Proof.
  intros Hr Hl Hs. pose proof (enrollment_sim_exec X c (authorized auths e) s Hr) as Hsim.
  rewrite Hs in Hsim. destruct (invoke_live_ok X _ _ _ _ _ _ _ Hsim Hr Hl) as (e' & ? & ? & ? & _).
  eauto.
Qed.

Lemma enrollment_live_err auths c e s x :
  Rep e s → env_live e → spec_call X (ctx_of (authorized auths e)) c s = Err x →
  (invoke X auths (exec c) e).1 = Err x.
Proof.
  intros Hr Hl Hs. pose proof (enrollment_sim_exec X c (authorized auths e) s Hr) as Hsim.
  rewrite Hs in Hsim. by destruct (invoke_live_err X _ _ _ _ _ Hsim Hr Hl) as (e' & ->).
Qed.
(** [enroll] on a live ledger does what is specified. *)
Lemma enroll_live auths who q exp e s :
  Rep e s → env_live e →
  let out := invoke X auths (exec (CEnroll who q exp)) e in
  match spec_enroll X (ctx_of (authorized auths e)) who q exp s with
  | Ok (p, s', _) => out.1 = Ok (RProof p) ∧ Rep out.2 s'
  | Err x => out.1 = Err x
  end.
Proof.
  intros Hr Hl out. destruct (spec_enroll _ _ _ _ _ _) as [[[p s'] evs]|x] eqn:Hs.
  - destruct (enrollment_live_ok auths (CEnroll who q exp) e s (RProof p) s' evs Hr Hl)
      as (e' & Hi & Hr' & _); [cbn [spec_call]; by rewrite Hs|]. subst out. by rewrite Hi.
  - apply (enrollment_live_err auths (CEnroll who q exp) e s x Hr Hl).
    cbn [spec_call]. by rewrite Hs.
Qed.

Lemma spec_enroll_enrolled cx who q exp s r :
  who ∈ c_auths cx → l_records s !! (q, who) = Some r → cancelled r = false →
  spec_enroll X cx who q exp s =
  match default Reject (l_behavior s) with
  | Reject => Err (EPanic "duplicate enrollment")
  | GrantWaitingList => spec_join cx who q s
  | OverrideExpired => spec_override X cx who q exp s
  end.
Proof.
  intros Ha Hrec Hc. unfold spec_enroll. rewrite (proj2 (auth_ok cx who) Ha), bind_Ok.
  by rewrite (enrolled_Some _ _ _ _ Hrec Hc).
Qed.
End history.

(** * A scenario

    Alice sets the waiting-list policy; Bob and Carol enroll; both try again and
    wait; Bob is promoted although he is still enrolled. *)
Definition demo_enrolled : Env := play toy exec
  [({[alice]}, CSetDuplicateBehavior alice GrantWaitingList);
   ({[bob]}, CEnroll bob "drop" (Some 2000)); ({[carol]}, CEnroll carol "drop" None);
   ({[carol]}, CCancel carol "drop"); ({[carol]}, CEnroll carol "drop" None)] fresh.
Definition demo_waiting : Env := play toy exec
  [({[bob]}, CEnroll bob "drop" None); ({[carol]}, CEnroll carol "drop" None)] demo_enrolled.
Definition demo_promoted : Env := play toy exec
  [({[alice]}, CPromoteFromWaitlist alice "drop" 1)] demo_waiting.

Lemma enrollment_demo_fresh : Rep fresh l_empty.
Proof.
  apply fresh_Rep. intros k. unfold view, enrollment_view, keyed_view.
  destruct (of_key lkeys k) as [[]|]; simpl; by rewrite ?lookup_empty.
Qed.
Lemma demo_enrolled_exact : rtc (tx toy exec not_promote) fresh demo_enrolled.
Proof. apply play_tx. by repeat constructor. Qed.
Lemma demo_promoted_history : rtc (enrollment_tx toy) fresh demo_promoted.
Proof.
  etrans; [etrans|]; apply play_tx; by repeat constructor.
Qed.
Lemma demo_waiting_history : rtc (enrollment_tx toy) fresh demo_waiting.
Proof. etrans; apply play_tx; by repeat constructor. Qed.
Lemma demo_waiting_live : env_live demo_waiting.
Proof.
  unfold demo_waiting, demo_enrolled. rewrite !play_foldl, <-foldl_app.
  eapply (invokes_live toy exec ctx_of (spec_call toy) (λ _, True) (enrollment_inv toy) _ _ _ fresh l_empty).
  - by repeat constructor.
  - apply enrollment_demo_fresh.
  - apply enrollment_inv_empty.
  - apply fresh_live.
  Unshelve. all: [> intros; by apply enrollment_sim_exec | intros; by eapply l_step_inv].
Qed.

(** * Theorems *)
Section theorems.
Context (X : External).

(** C9: The enrollment contract implements its specification: a successful
    invocation returns the specified value, stores the specified state and emits the
    specified events; a failed one changes nothing; and on a live ledger the outcome
    is the specified one, with the same error. *)
Theorem enrollment_call_correct auths c e s :
  Rep e s →
  call_outcome e s (spec_call X (ctx_of (authorized auths e)) c s) (invoke X auths (exec c) e).
Proof. intros Hr. by apply invoke_correct; [apply enrollment_sim_exec|]. Qed.

(** Proofs bind: when the hash of serialized values is collision free, a proof
    hash stored in any reachable ledger identifies its enrollment: two stored records
    with the same hash have the same identity, queue and enrollment time. *)
Theorem enrollment_proofs_bind e0 e q1 who1 r1 q2 who2 r2 :
  Inj (=) (=) (λ v, x_sha256 X (x_to_xdr X v)) →
  Rep e0 l_empty → rtc (enrollment_tx X) e0 e →
  record_in e q1 who1 = Some r1 → record_in e q2 who2 = Some r2 →
  proof_hash r1 = proof_hash r2 →
  who1 = who2 ∧ q1 = q2 ∧ enrolled_at r1 = enrolled_at r2.
Proof.
  intros Hinj Hr0 Htx H1 H2 Heq. destruct (enrollment_reachable X e0 e Hr0 Htx) as (s & Hr & Hinv).
  rewrite (record_in_Rep e s Hr) in H1, H2.
  destruct (li_records _ _ Hinv _ _ _ H1) as (_ & _ & Hp1).
  destruct (li_records _ _ Hinv _ _ _ H2) as (_ & _ & Hp2).
  rewrite Hp1, Hp2 in Heq. apply (inj (λ v, x_sha256 X (x_to_xdr X v))) in Heq.
  unfold proof_preimage in Heq. by simplify_eq.
Qed.

(** The count is exact without promotions: in every ledger reached without
    [promote_from_waitlist] the enrollment count of a queue is the number of its
    records that are not cancelled. *)
Theorem enrollment_count_exact e0 e :
  Rep e0 l_empty → rtc (tx X exec not_promote) e0 e →
  ∃ records : gmap (string * ScAddress) EnrollmentRecord,
    (∀ q who, record_in e q who = records !! (q, who)) ∧
    ∀ q, count_in e q = msum (active_in q) records.
Proof.
  intros Hr0 Htx. destruct (unpromoted_reachable X e0 e Hr0 Htx) as (s & Hr & _ & Hex).
  exists (l_records s). split; [by apply record_in_Rep|].
  intros q. rewrite (count_in_Rep e s Hr). apply Hex.
Qed.

(** The count never falls short: in every reachable ledger, promotions included,
    the enrollment count of a queue is at least the number of its active records and
    fits a u32, so the guard of [cancel] against a zero count is never needed. *)
Theorem enrollment_count_covers e0 e :
  Rep e0 l_empty → rtc (enrollment_tx X) e0 e →
  ∃ records : gmap (string * ScAddress) EnrollmentRecord,
    (∀ q who, record_in e q who = records !! (q, who)) ∧
    ∀ q, msum (active_in q) records <= count_in e q <= u32_max ∧
      ∀ who, enrolled_in e q who = true → 0 < count_in e q.
Proof.
  intros Hr0 Htx. destruct (enrollment_reachable X e0 e Hr0 Htx) as (s & Hr & Hinv).
  exists (l_records s). split; [by apply record_in_Rep|].
  intros q. rewrite (count_in_Rep e s Hr). split; [apply (li_counts _ _ Hinv)|].
  intros who. rewrite (enrolled_in_Rep e s Hr). intros (r & Hrec & Hc)%enrolled_true.
  pose proof (msum_ge (active_in q) (l_records s) (q, who) r
    (λ k r _, active_in_nonneg q k r) Hrec) as Hge.
  unfold active_in at 1 in Hge. rewrite decide_True in Hge by done.
  destruct (li_counts _ _ Hinv q) as [Hle _]. unfold active_count in Hle. lia.
Qed.

(** Promotion overcounts: on a live ledger, promoting an identity that is still
    enrolled succeeds and adds one to the enrollment count although the set of
    enrolled identities stays the same; any account may sign as the administrator. *)
Theorem enrollment_promotion_overcounts e0 e auths a q who rest :
  Rep e0 l_empty → rtc (enrollment_tx X) e0 e → env_live e → a ∈ auths →
  waitlist_in e q = who :: rest → enrolled_in e q who = true → count_in e q < u32_max →
  ∃ e', invoke X auths (exec (CPromoteFromWaitlist a q 1)) e = (Ok RUnit, e') ∧
    count_in e' q = count_in e q + 1 ∧ waitlist_in e' q = rest ∧
    ∀ q' who', enrolled_in e' q' who' = enrolled_in e q' who'.
Proof.
  intros Hr0 Htx Hl Ha Hwl Hen Hcnt.
  destruct (enrollment_reachable X e0 e Hr0 Htx) as (s & Hr & _).
  rewrite (waitlist_in_Rep e s Hr) in Hwl. rewrite (enrolled_in_Rep e s Hr) in Hen.
  rewrite (count_in_Rep e s Hr) in Hcnt |- *.
  set (now := timestamp (h_ledger e)).
  set (s1 := l_set_count q (count_of q s + 1)
               (l_set_record q who (fresh_record X who q now 0 None) s)).
  destruct (enrollment_live_ok X auths (CPromoteFromWaitlist a q 1) e s RUnit
    (l_set_waitlist q rest s1) [enrolled_event X who q now]) as (e' & Hi & Hr' & _); [done|done| |].
  { cbn [spec_call]. unfold spec_promote. rewrite Hwl, (proj2 (auth_ok _ a)) by done.
    replace (Z.to_nat _) with 1%nat by (simpl length; lia).
    unfold then_spec, spec_promote_each, then_spec, spec_promote_one, room; simpl.
    by rewrite bool_decide_false by lia. }
  exists e'. split; [done|].
  rewrite (count_in_Rep e' _ Hr'), (waitlist_in_Rep e' _ Hr'), waitlist_of_set, decide_True by done.
  split_and!; [|done|].
  - change (count_of q (l_set_waitlist q rest s1)) with (count_of q s1). subst s1.
    by rewrite count_of_set, decide_True.
  - intros q' who'. rewrite (enrolled_in_Rep e' _ Hr'), (enrolled_in_Rep e s Hr).
    unfold enrolled; simpl. destruct (decide ((q, who) = (q', who'))) as [Heq|Hne].
    + simplify_eq. rewrite lookup_insert_eq. symmetry. exact Hen.
    + by rewrite lookup_insert_ne.
Qed.

(** C10: The waiting list is first in, first out: from any reachable ledger a
    transaction leaves the list of a queue alone, appends one enrolled identity that
    was not on it, or removes a prefix, each member of which is then freshly enrolled;
    it never lists anyone twice. *)
Theorem waitlist_fifo e0 e e' q :
  Rep e0 l_empty → rtc (enrollment_tx X) e0 e → enrollment_tx X e e' →
  NoDup (waitlist_in e q) ∧
  (waitlist_in e' q = waitlist_in e q ∨
   (∃ who, who ∉ waitlist_in e q ∧ enrolled_in e q who = true ∧
           waitlist_in e' q = waitlist_in e q ++ [who]) ∨
   (∃ n, waitlist_in e' q = drop n (waitlist_in e q) ∧
         ∀ who, who ∈ take n (waitlist_in e q) →
           record_in e' q who = Some (fresh_record X who q (timestamp (h_ledger e)) 0 None))).
Proof.
  intros Hr0 Htx Hstep. destruct (enrollment_reachable X e0 e Hr0 Htx) as (s & Hr & Hinv).
  rewrite (waitlist_in_Rep e s Hr). split; [apply (li_waitlists _ _ Hinv)|].
  destruct Hstep as [auths c r e e' _ Hi|li e _ _].
  2: { left. by rewrite (waitlist_in_Rep (set_ledger li e) s) by (split; [apply Hr|apply Hr]). }
  pose proof (enrollment_sim_exec X c (authorized auths e) s Hr) as Hsim.
  destruct (invoke_sim X auths _ e s _ r e' Hsim Hr Hi) as (_ & _ & Hout).
  destruct r as [v|x]; [|left; by destruct Hout as (Hr' & _); rewrite (waitlist_in_Rep e' s Hr')].
  destruct Hout as (s' & evs & Hs & Hr' & _). rewrite (waitlist_in_Rep e' s' Hr').
  setoid_rewrite (enrolled_in_Rep e s Hr). setoid_rewrite (record_in_Rep e' s' Hr').
  by eapply waitlist_step in Hs.
Qed.

(** The policy for duplicates: on a live ledger a call of [enroll] signed by an
    identity that is enrolled already is refused under [Reject]; under
    [GrantWaitingList] it is put at the end of the waiting list, once, its record
    unchanged; under [OverrideExpired] an expired enrollment is replaced without
    counting twice, and an unexpired one refused. *)
Theorem enrollment_duplicate_policy e0 e auths who q exp r :
  Rep e0 l_empty → rtc (enrollment_tx X) e0 e → env_live e → who ∈ auths →
  record_in e q who = Some r → cancelled r = false → duplicate_count r < u32_max →
  let out := invoke X auths (exec (CEnroll who q exp)) e in
  let now := timestamp (h_ledger e) in
  match behavior_in e with
  | Reject => out.1 = Err (EPanic "duplicate enrollment")
  | GrantWaitingList =>
      if decide (who ∈ waitlist_in e q) then out.1 = Err (EPanic "already waitlisted")
      else out.1 = Ok (RProof (mkEnrollmentProof q who now 0%N None)) ∧
           waitlist_in out.2 q = waitlist_in e q ++ [who] ∧ record_in out.2 q who = Some r
  | OverrideExpired =>
      if is_expired now (expires_at r) then
        out.1 = Ok (RProof (fresh_proof X who q now exp)) ∧
        record_in out.2 q who = Some (fresh_record X who q now (duplicate_count r + 1) exp) ∧
        count_in out.2 q = count_in e q
      else out.1 = Err (EPanic "duplicate enrollment")
  end.
Proof.
  intros Hr0 Htx Hl Ha Hrec Hc Hd out now.
  destruct (enrollment_reachable X e0 e Hr0 Htx) as (s & Hr & _).
  rewrite (record_in_Rep e s Hr) in Hrec. rewrite (behavior_in_Rep e s Hr).
  rewrite (waitlist_in_Rep e s Hr), (count_in_Rep e s Hr).
  pose proof (enroll_live X auths who q exp e s Hr Hl) as Hout. fold out in Hout.
  cbv zeta in Hout. rewrite (spec_enroll_enrolled X (ctx_of (authorized auths e)) who q exp s r Ha Hrec Hc)
    in Hout.
  destruct (default Reject (l_behavior s)); [exact Hout| |].
  - unfold spec_join in Hout. case_decide as Hw; [by rewrite bool_decide_true in Hout|].
    rewrite bool_decide_false in Hout by done. destruct Hout as [-> Hr']. split_and!; [done| |].
    + rewrite (waitlist_in_Rep _ _ Hr'), waitlist_of_set. by rewrite decide_True.
    + by rewrite (record_in_Rep _ _ Hr').
  - unfold spec_override, room in Hout. rewrite Hrec, expect_Some, bind_Ok in Hout.
    change (c_now (ctx_of (authorized auths e))) with now in Hout.
    destruct (is_expired now (expires_at r)); [|exact Hout].
    rewrite bool_decide_false in Hout by lia. destruct Hout as [-> Hr']. split_and!; [done| |].
    + rewrite (record_in_Rep _ _ Hr'). simpl. by rewrite lookup_insert_eq.
    + by rewrite (count_in_Rep _ _ Hr').
Qed.

(** Enrolling and cancelling: on a live ledger an identity that is not enrolled
    and signs is enrolled by [enroll], which returns the proof of the stored record,
    and is not enrolled again after [cancel]; the count is back where it was and
    everybody else is as before. *)
Theorem enrollment_cancel_roundtrip e0 e auths who q exp :
  Rep e0 l_empty → rtc (enrollment_tx X) e0 e → env_live e → who ∈ auths →
  record_in e q who = None → count_in e q < u32_max →
  let now := timestamp (h_ledger e) in
  ∃ e1 e2,
    invoke X auths (exec (CEnroll who q exp)) e = (Ok (RProof (fresh_proof X who q now exp)), e1) ∧
    record_in e1 q who = Some (fresh_record X who q now 0 exp) ∧
    count_in e1 q = count_in e q + 1 ∧ enrolled_in e1 q who = true ∧
    invoke X auths (exec (CCancel who q)) e1 = (Ok RUnit, e2) ∧
    enrolled_in e2 q who = false ∧ count_in e2 q = count_in e q ∧
    ∀ q' who', (q', who') ≠ (q, who) → record_in e2 q' who' = record_in e q' who'.
Proof.
  intros Hr0 Htx Hl Ha Hnone Hcnt now.
  destruct (enrollment_reachable X e0 e Hr0 Htx) as (s & Hr & Hinv).
  rewrite (record_in_Rep e s Hr) in Hnone. rewrite (count_in_Rep e s Hr) in Hcnt |- *.
  setoid_rewrite (record_in_Rep e s Hr).
  set (r := fresh_record X who q now 0 exp).
  set (s1 := l_set_count q (count_of q s + 1) (l_set_record q who r s)).
  destruct (enrollment_live_ok X auths (CEnroll who q exp) e s (RProof (fresh_proof X who q now exp)) s1
    [enrolled_event X who q now]) as (e1 & Hi1 & Hr1 & Hl1); [done|done| |].
  { cbn [spec_call]. unfold spec_enroll, enrolled, spec_enroll_new, next_dups, room.
    rewrite Hnone, (proj2 (auth_ok (ctx_of (authorized auths e)) who) Ha), !bind_Ok.
    by rewrite bool_decide_false by lia. }
  assert (Hrec1 : l_records s1 !! (q, who) = Some r) by (simpl; by rewrite lookup_insert_eq).
  assert (Hcnt1 : count_of q s1 = count_of q s + 1)
    by (subst s1; by rewrite count_of_set, decide_True).
  set (s2 := decremented q (l_set_record q who (set_cancelled r) s1)).
  destruct (enrollment_live_ok X auths (CCancel who q) e1 s1 RUnit s2
    [ev "Cancelled" q who (timestamp (h_ledger e1)) (proof_hash r)]) as (e2 & Hi2 & Hr2 & _);
    [done|done| |].
  { cbn [spec_call]. unfold spec_cancel.
    by rewrite (proj2 (auth_ok (ctx_of (authorized auths e1)) who) Ha), bind_Ok, Hrec1. }
  assert (Hcnt2 : 0 <= count_of q s).
  { pose proof (li_counts _ _ Hinv q). pose proof (active_count_nonneg q s). lia. }
  assert (Hs2 : s2 = l_set_count q (count_of q s) (l_set_record q who (set_cancelled r) s1)).
  { subst s2. unfold decremented. change (count_of q (l_set_record _ _ _ s1)) with (count_of q s1).
    rewrite Hcnt1, decide_True by lia. f_equal. lia. }
  rewrite Hs2 in Hr2. exists e1, e2. split_and!; try done.
  - by rewrite (record_in_Rep e1 s1 Hr1).
  - by rewrite (count_in_Rep e1 s1 Hr1).
  - rewrite (enrolled_in_Rep e1 s1 Hr1). unfold enrolled. by rewrite Hrec1.
  - rewrite (enrolled_in_Rep _ _ Hr2). unfold enrolled. simpl. by rewrite lookup_insert_eq.
  - rewrite (count_in_Rep _ _ Hr2), count_of_set. by rewrite decide_True.
  - intros q' who' Hne. rewrite (record_in_Rep _ _ Hr2). simpl. by rewrite !lookup_insert_ne.
Qed.
End theorems.

Lemma enrollment_call_correct_witness :
  let c := CEnroll bob "drop" None in
  call_outcome fresh l_empty (spec_call toy (ctx_of (authorized {[bob]} fresh)) c l_empty)
    (invoke toy {[bob]} (exec c) fresh).
Proof. apply enrollment_call_correct. apply enrollment_demo_fresh. Defined.

Lemma toy_hash_inj : Inj (=) (=) (λ v, x_sha256 toy (x_to_xdr toy v)).
Proof.
  intros v w Heq. simpl in Heq. apply (inj encode). injection Heq as Heq.
  revert Heq. generalize (encode v), (encode w). clear v w.
  induction p as [p IH|p IH|]; intros [w|w|]; simpl; try done; intros [= Heq]; f_equal;
    by apply IH.
Qed.

Lemma enrollment_proofs_bind_witness :
  bob = bob ∧ "drop" = "drop" ∧ 1000 = 1000.
Proof.
  pose (r := fresh_record toy bob "drop" 1000 0 (Some 2000)).
  apply (enrollment_proofs_bind toy fresh demo_waiting "drop" bob r "drop" bob r).
  - apply toy_hash_inj.
  - apply enrollment_demo_fresh.
  - apply demo_waiting_history.
  - by vm_compute.
  - by vm_compute.
  - done.
Defined.

Lemma enrollment_count_exact_witness :
  ∃ records : gmap (string * ScAddress) EnrollmentRecord,
    (∀ q who, record_in demo_enrolled q who = records !! (q, who)) ∧
    ∀ q, count_in demo_enrolled q = msum (active_in q) records.
Proof.
  apply (enrollment_count_exact toy fresh).
  - apply enrollment_demo_fresh.
  - apply demo_enrolled_exact.
Defined.

Lemma enrollment_count_covers_witness :
  ∃ records : gmap (string * ScAddress) EnrollmentRecord,
    (∀ q who, record_in demo_promoted q who = records !! (q, who)) ∧
    ∀ q, msum (active_in q) records <= count_in demo_promoted q <= u32_max ∧
      ∀ who, enrolled_in demo_promoted q who = true → 0 < count_in demo_promoted q.
Proof.
  apply (enrollment_count_covers toy fresh).
  - apply enrollment_demo_fresh.
  - apply demo_promoted_history.
Defined.

(** Bob was one of two enrolled identities; the count goes to three. *)
Lemma enrollment_promotion_overcounts_witness :
  ∃ e', invoke toy {[alice]} (exec (CPromoteFromWaitlist alice "drop" 1)) demo_waiting
          = (Ok RUnit, e') ∧
    count_in e' "drop" = 2 + 1 ∧ waitlist_in e' "drop" = [carol] ∧
    ∀ q' who', enrolled_in e' q' who' = enrolled_in demo_waiting q' who'.
Proof.
  apply (enrollment_promotion_overcounts toy fresh demo_waiting {[alice]} alice "drop" bob [carol]).
  - apply enrollment_demo_fresh.
  - apply demo_waiting_history.
  - apply demo_waiting_live.
  - by apply elem_of_singleton.
  - by vm_compute.
  - by vm_compute.
  - by vm_compute.
Defined.

Lemma waitlist_fifo_witness :
  NoDup (waitlist_in demo_waiting "drop") ∧
  (waitlist_in demo_promoted "drop" = waitlist_in demo_waiting "drop" ∨
   (∃ who, who ∉ waitlist_in demo_waiting "drop" ∧ enrolled_in demo_waiting "drop" who = true ∧
           waitlist_in demo_promoted "drop" = waitlist_in demo_waiting "drop" ++ [who]) ∨
   (∃ n, waitlist_in demo_promoted "drop" = drop n (waitlist_in demo_waiting "drop") ∧
         ∀ who, who ∈ take n (waitlist_in demo_waiting "drop") →
           record_in demo_promoted "drop" who
             = Some (fresh_record toy who "drop" (timestamp (h_ledger demo_waiting)) 0 None))).
Proof.
  apply (waitlist_fifo toy fresh demo_waiting demo_promoted).
  - apply enrollment_demo_fresh.
  - apply demo_waiting_history.
  - unfold demo_promoted; cbn [play]. by eapply tx_invoke, surjective_pairing.
Defined.

(** Carol, enrolled and not waiting yet, joins the waiting list. *)
Lemma enrollment_duplicate_policy_witness :
  let r := fresh_record toy carol "drop" 1000 1 None in
  let out := invoke toy {[carol]} (exec (CEnroll carol "drop" None)) demo_waiting in
  let now := timestamp (h_ledger demo_waiting) in
  match behavior_in demo_waiting with
  | Reject => out.1 = Err (EPanic "duplicate enrollment")
  | GrantWaitingList =>
      if decide (carol ∈ waitlist_in demo_waiting "drop")
      then out.1 = Err (EPanic "already waitlisted")
      else out.1 = Ok (RProof (mkEnrollmentProof "drop" carol now 0%N None)) ∧
           waitlist_in out.2 "drop" = waitlist_in demo_waiting "drop" ++ [carol] ∧
           record_in out.2 "drop" carol = Some r
  | OverrideExpired =>
      if is_expired now (expires_at r) then
        out.1 = Ok (RProof (fresh_proof toy carol "drop" now None)) ∧
        record_in out.2 "drop" carol
          = Some (fresh_record toy carol "drop" now (duplicate_count r + 1) None) ∧
        count_in out.2 "drop" = count_in demo_waiting "drop"
      else out.1 = Err (EPanic "duplicate enrollment")
  end.
Proof.
  apply (enrollment_duplicate_policy toy fresh demo_waiting).
  - apply enrollment_demo_fresh.
  - apply demo_waiting_history.
  - apply demo_waiting_live.
  - by apply elem_of_singleton.
  - by vm_compute.
  - done.
  - done.
Defined.

Lemma enrollment_cancel_roundtrip_witness :
  let now := timestamp (h_ledger demo_waiting) in
  ∃ e1 e2,
    invoke toy {[alice]} (exec (CEnroll alice "drop" None)) demo_waiting
      = (Ok (RProof (fresh_proof toy alice "drop" now None)), e1) ∧
    record_in e1 "drop" alice = Some (fresh_record toy alice "drop" now 0 None) ∧
    count_in e1 "drop" = count_in demo_waiting "drop" + 1 ∧ enrolled_in e1 "drop" alice = true ∧
    invoke toy {[alice]} (exec (CCancel alice "drop")) e1 = (Ok RUnit, e2) ∧
    enrolled_in e2 "drop" alice = false ∧ count_in e2 "drop" = count_in demo_waiting "drop" ∧
    ∀ q' who', (q', who') ≠ ("drop", alice) →
      record_in e2 q' who' = record_in demo_waiting q' who'.
Proof.
  apply (enrollment_cancel_roundtrip toy fresh demo_waiting).
  - apply enrollment_demo_fresh.
  - apply demo_waiting_history.
  - apply demo_waiting_live.
  - by apply elem_of_singleton.
  - by vm_compute.
  - by vm_compute.
Defined.
