(* ===== verification/Factory.v ===== *)
(** The queue factory contract, [contracts/lineproof-queue-factory/src/lib.rs]: its
    data with their stored form, one program per entry point, and the dispatcher. *)
From S2P Require Import Prelude ScVal Host.

Module Factory.

Definition QUEUE_REGISTRY_PREFIX : string := "queue".
Definition SLUG_INDEX_KEY : string := "slug_idx".
Definition APPROVED_HASH_PREFIX : string := "approved".
Definition APPROVED_REGISTRY_ENABLED_KEY : string := "approvals".

(** * Data *)

Record QueueMetadata := mkQueueMetadata {
  slug : string;
  name : string;
  owner : ScAddress;
  contract_id : ScAddress;
  version : Z;
  deployed_at : Z;
  active : bool
}.

Record FactoryConfig := mkFactoryConfig {
  admin : ScAddress;
  min_version : Z;
  max_version : Z
}.

#[export] Instance QueueMetadata_eq_dec : EqDecision QueueMetadata.
Proof. solve_decision. Defined.
#[export] Instance FactoryConfig_eq_dec : EqDecision FactoryConfig.
Proof. solve_decision. Defined.

Definition set_active (b : bool) (m : QueueMetadata) : QueueMetadata :=
  mkQueueMetadata (slug m) (name m) (owner m) (contract_id m) (version m) (deployed_at m) b.
Definition set_version (v : Z) (m : QueueMetadata) : QueueMetadata :=
  mkQueueMetadata (slug m) (name m) (owner m) (contract_id m) v (deployed_at m) (active m).
Definition set_bounds (lo hi : Z) (c : FactoryConfig) : FactoryConfig :=
  mkFactoryConfig (admin c) lo hi.

(** * Stored form *)

Definition metadata_fields : list string :=
  ["active"; "contract_id"; "deployed_at"; "name"; "owner"; "slug"; "version"].

Definition metadataC : codec QueueMetadata.
Proof.
  refine (Codec
    (λ m, ScMap [("active", enc boolC (active m)); ("contract_id", enc addressC (contract_id m));
                 ("deployed_at", enc u64C (deployed_at m)); ("name", enc symbolC (name m));
                 ("owner", enc addressC (owner m)); ("slug", enc symbolC (slug m));
                 ("version", enc u32C (version m))])
    (λ v, l ← struct_fields metadata_fields v;
          match l with
          | [v1; v2; v3; v4; v5; v6; v7] =>
              x1 ← dec boolC v1; x2 ← dec addressC v2; x3 ← dec u64C v3; x4 ← dec symbolC v4;
              x5 ← dec addressC v5; x6 ← dec symbolC v6; x7 ← dec u32C v7;
              Some (mkQueueMetadata x6 x4 x5 x2 x7 x3 x1)
          | _ => None
          end) _).
  abstract solve_struct_codec.
Defined.

Definition config_fields : list string := ["admin"; "max_version"; "min_version"].

Definition configC : codec FactoryConfig.
Proof.
  refine (Codec
    (λ c, ScMap [("admin", enc addressC (admin c)); ("max_version", enc u32C (max_version c));
                 ("min_version", enc u32C (min_version c))])
    (λ v, l ← struct_fields config_fields v;
          match l with
          | [v1; v2; v3] =>
              x1 ← dec addressC v1; x2 ← dec u32C v2; x3 ← dec u32C v3;
              Some (mkFactoryConfig x1 x3 x2)
          | _ => None
          end) _).
  abstract solve_struct_codec.
Defined.

(** * Storage keys *)

Definition config_key : ScVal := ScSymbol "config".
Definition idx_key : ScVal := ScSymbol SLUG_INDEX_KEY.
Definition enabled_key : ScVal := ScSymbol APPROVED_REGISTRY_ENABLED_KEY.
Definition queue_registry_key (s : string) : ScVal :=
  ScVec [ScSymbol QUEUE_REGISTRY_PREFIX; ScSymbol s].
Definition approved_hash_key (v : Z) : ScVal := ScVec [ScSymbol APPROVED_HASH_PREFIX; ScU32 v].

(** * Helpers *)

Definition unwrap {A} (o : option A) : prog A :=
  match o with
  | Some a => Ret a
  | None => panic "called `Option::unwrap()` on a `None` value"
  end.

Definition emit_topics (kind s : string) : list ScVal :=
  [ScSymbol "lineproof_factory"; ScSymbol kind; ScSymbol s].
(** The timestamp argument is not published. *)
Definition emit (kind s : string) (id : ScAddress) (v : Z) (_timestamp : Z) : prog unit :=
  publish (emit_topics kind s) (ScVec [ScAddr id; ScU32 v]).

Definition require_admin (a : ScAddress) : prog unit :=
  require_auth a ;;
  o ← get configC config_key;
  match o with
  | None => panic "not initialized"
  | Some config => panic_if (bool_decide (admin config ≠ a)) "unauthorized"
  end.

Definition validate_approved_hash (v : Z) (wasm_hash : Hash) : prog unit :=
  o ← get bytesC (approved_hash_key v);
  match o with
  | Some approved_hash =>
      panic_if (bool_decide (approved_hash ≠ wasm_hash)) "wasm hash not approved" ;;
      extend (approved_hash_key v)
  | None => Ret tt
  end.

Definition require_approved_hash (v : Z) (wasm_hash : Hash) : prog unit :=
  enabled ← get_or boolC enabled_key false;
  if negb enabled then Ret tt
  else
    extend enabled_key ;;
    o ← get bytesC (approved_hash_key v);
    match o with
    | None => panic "WASM hash not approved"
    | Some approved_hash =>
        extend (approved_hash_key v) ;;
        panic_if (bool_decide (approved_hash ≠ wasm_hash)) "WASM hash not approved"
    end.

Definition get_queue_meta (s : string) : prog QueueMetadata :=
  o ← get metadataC (queue_registry_key s);
  match o with
  | None => panic "queue not found"
  | Some metadata => extend (queue_registry_key s) ;; Ret metadata
  end.

Definition append_slug (s : string) : prog unit :=
  slugs ← get_or (vecC symbolC) idx_key [];
  store (vecC symbolC) idx_key (slugs ++ [s]).

Definition remove_slug (s : string) : prog unit :=
  slugs ← get_or (vecC symbolC) idx_key [];
  store (vecC symbolC) idx_key (filter (λ s', s' ≠ s) slugs).

(** * Entry points *)

Definition initialize (a : ScAddress) : prog unit :=
  require_auth a ;;
  b ← has config_key;
  panic_if b "already initialized" ;;
  store configC config_key (mkFactoryConfig a 1 1) ;;
  store (vecC symbolC) idx_key [] ;;
  self ← current_contract;
  emit "Init" "" self 0 0.

(** What [deploy_queue] checks before it deploys. *)
Definition deploy_checks (deployer : ScAddress) (s : string) (v : Z) (wasm_hash : Hash) :
    prog unit :=
  require_auth deployer ;;
  o ← get configC config_key;
  config ← unwrap o;
  panic_if (bool_decide (v < min_version config ∨ max_version config < v))
    "version out of bounds" ;;
  validate_approved_hash v wasm_hash ;;
  require_approved_hash v wasm_hash ;;
  b ← has (queue_registry_key s);
  panic_if b "queue with this slug already exists".

Definition deploy_queue (deployer : ScAddress) (s n : string) (v : Z) (wasm_hash : Hash) :
    prog ScAddress :=
  deploy_checks deployer s v wasm_hash ;;
  id ← deploy wasm_hash wasm_hash;
  now ← ledger_timestamp;
  store metadataC (queue_registry_key s) (mkQueueMetadata s n deployer id v now true) ;;
  append_slug s ;;
  emit "Deployed" s id v now ;;
  Ret id.

Definition register_queue (a : ScAddress) (s : string) (id : ScAddress) (v : Z) : prog unit :=
  require_admin a ;;
  b ← has (queue_registry_key s);
  panic_if b "queue already registered" ;;
  now ← ledger_timestamp;
  store metadataC (queue_registry_key s) (mkQueueMetadata s "imported" a id v now true) ;;
  append_slug s ;;
  emit "Registered" s id v now.

Definition register_approved_hash (a : ScAddress) (v : Z) (wasm_hash : Hash) : prog unit :=
  require_admin a ;;
  store bytesC (approved_hash_key v) wasm_hash ;;
  store boolC enabled_key true.

(** [deactivate_queue] and [reactivate_queue] differ in the flag and the event. *)
Definition switch_queue (b : bool) (kind : string) (a : ScAddress) (s : string) : prog unit :=
  require_admin a ;;
  metadata ← get_queue_meta s;
  store metadataC (queue_registry_key s) (set_active b metadata) ;;
  now ← ledger_timestamp;
  emit kind s (contract_id metadata) (version metadata) now.

Definition deactivate_queue : ScAddress → string → prog unit := switch_queue false "Deactivated".
Definition reactivate_queue : ScAddress → string → prog unit := switch_queue true "Reactivated".

Definition destroy_queue (a : ScAddress) (s : string) : prog unit :=
  require_admin a ;;
  b ← has (queue_registry_key s);
  panic_if (negb b) "queue not found" ;;
  o ← get metadataC (queue_registry_key s);
  match o with
  | None => panic "queue not found"
  | Some metadata =>
      remove (queue_registry_key s) ;;
      remove_slug s ;;
      now ← ledger_timestamp;
      emit "Destroyed" s (contract_id metadata) (version metadata) now
  end.

Definition set_config (a : ScAddress) (lo hi : Z) : prog unit :=
  require_admin a ;;
  o ← get configC config_key;
  config ← unwrap o;
  store configC config_key (set_bounds lo hi config).

Definition get_queue (s : string) : prog (option QueueMetadata) :=
  get metadataC (queue_registry_key s).

Definition list_queues : prog (list string) := get_or (vecC symbolC) idx_key [].

Definition verify_queue (s : string) : prog bool :=
  o ← get metadataC (queue_registry_key s);
  match o with Some meta => Ret (active meta) | None => Ret false end.

Definition queue_count : prog Z :=
  slugs ← get_or (vecC symbolC) idx_key []; Ret (Z.of_nat (length slugs)).

Definition upgrade_queue (a : ScAddress) (s : string) (v : Z) (wasm_hash : Hash) : prog unit :=
  require_admin a ;;
  o ← get configC config_key;
  config ← unwrap o;
  panic_if (bool_decide (v < min_version config ∨ max_version config < v))
    "version out of bounds" ;;
  metadata ← get_queue_meta s;
  panic_if (bool_decide (v <= version metadata)) "version must increase" ;;
  validate_approved_hash v wasm_hash ;;
  require_approved_hash v wasm_hash ;;
  store metadataC (queue_registry_key s) (set_version v metadata) ;;
  now ← ledger_timestamp;
  emit "Upgraded" s (contract_id metadata) v now.

(** * The contract's interface *)

Inductive Call :=
| CInitialize (a : ScAddress)
| CDeployQueue (deployer : ScAddress) (s n : string) (v : Z) (wasm_hash : Hash)
| CRegisterQueue (a : ScAddress) (s : string) (id : ScAddress) (v : Z)
| CRegisterApprovedHash (a : ScAddress) (v : Z) (wasm_hash : Hash)
| CDeactivateQueue (a : ScAddress) (s : string)
| CReactivateQueue (a : ScAddress) (s : string)
| CDestroyQueue (a : ScAddress) (s : string)
| CSetConfig (a : ScAddress) (lo hi : Z)
| CGetQueue (s : string)
| CListQueues
| CVerifyQueue (s : string)
| CUpgradeQueue (a : ScAddress) (s : string) (v : Z) (wasm_hash : Hash)
| CQueueCount.

Inductive Ret_val :=
| RUnit
| RBool (b : bool)
| RU32 (n : Z)
| RAddress (a : ScAddress)
| RMetadata (m : option QueueMetadata)
| RSlugs (l : list string).

Definition exec (c : Call) : prog Ret_val :=
  match c with
  | CInitialize a => initialize a ;; Ret RUnit
  | CDeployQueue deployer s n v w => RAddress <$> deploy_queue deployer s n v w
  | CRegisterQueue a s id v => register_queue a s id v ;; Ret RUnit
  | CRegisterApprovedHash a v w => register_approved_hash a v w ;; Ret RUnit
  | CDeactivateQueue a s => deactivate_queue a s ;; Ret RUnit
  | CReactivateQueue a s => reactivate_queue a s ;; Ret RUnit
  | CDestroyQueue a s => destroy_queue a s ;; Ret RUnit
  | CSetConfig a lo hi => set_config a lo hi ;; Ret RUnit
  | CGetQueue s => RMetadata <$> get_queue s
  | CListQueues => RSlugs <$> list_queues
  | CVerifyQueue s => RBool <$> verify_queue s
  | CUpgradeQueue a s v w => upgrade_queue a s v w ;; Ret RUnit
  | CQueueCount => RU32 <$> queue_count
  end.

End Factory.
