(* ===== verification/FactorySpec.v ===== *)
(** The specification of the queue factory and the proof that the contract of
    [Factory] implements it.

    What a deployment gives depends on the ledger outside the factory's own data, so
    the specification takes that outcome, [fc_deploy], with the context of the
    call. *)
From S2P Require Import Prelude ScVal Storage Host Env Sim Factory.
Import Factory.

(** * State *)

Record FState := mkFState {
  f_config : option FactoryConfig;
  f_slugs : option (list string);
  f_enabled : option bool;
  f_queues : gmap string QueueMetadata;
  f_approved : gmap Z Hash
}.

Definition f_empty : FState := mkFState None None None ∅ ∅.

Definition f_set_config c st := mkFState (Some c) (f_slugs st) (f_enabled st) (f_queues st) (f_approved st).
Definition f_set_slugs l st := mkFState (f_config st) (Some l) (f_enabled st) (f_queues st) (f_approved st).
Definition f_set_enabled b st := mkFState (f_config st) (f_slugs st) (Some b) (f_queues st) (f_approved st).
Definition f_set_queue s m st :=
  mkFState (f_config st) (f_slugs st) (f_enabled st) (<[s := m]> (f_queues st)) (f_approved st).
Definition f_del_queue s st :=
  mkFState (f_config st) (f_slugs st) (f_enabled st) (delete s (f_queues st)) (f_approved st).
Definition f_set_approved v h st :=
  mkFState (f_config st) (f_slugs st) (f_enabled st) (f_queues st) (<[v := h]> (f_approved st)).

Definition slugs_of (st : FState) : list string := default [] (f_slugs st).

Inductive FKey := KConfig | KSlugs | KEnabled | KQueue (s : string) | KApproved (v : Z).
#[export] Instance FKey_eq_dec : EqDecision FKey.
Proof. solve_decision. Defined.

Definition fkeys : keyspace FKey.
Proof.
  refine (Keyspace
    (λ k, match k with
          | KConfig => config_key | KSlugs => idx_key | KEnabled => enabled_key
          | KQueue s => queue_registry_key s | KApproved v => approved_hash_key v
          end)
    (λ v, match v with
          | ScSymbol tag =>
              if decide (tag = "config") then Some KConfig
              else if decide (tag = "slug_idx") then Some KSlugs
              else if decide (tag = "approvals") then Some KEnabled else None
          | ScVec [ScSymbol tag; ScSymbol s] =>
              if decide (tag = "queue") then Some (KQueue s) else None
          | ScVec [ScSymbol tag; ScU32 v] =>
              if decide (tag = "approved") then Some (KApproved v) else None
          | _ => None
          end) _ _ _).
  - abstract by intros [].
  - abstract (intros k x Hk; repeat case_match; simplify_eq; done).
  - abstract done.
Defined.

Definition f_content (st : FState) (k : FKey) : option ScVal :=
  match k with
  | KConfig => enc configC <$> f_config st
  | KSlugs => enc (vecC symbolC) <$> f_slugs st
  | KEnabled => enc boolC <$> f_enabled st
  | KQueue s => enc metadataC <$> f_queues st !! s
  | KApproved v => enc bytesC <$> f_approved st !! v
  end.

#[export] Instance factory_view : View FState := keyed_view fkeys f_content.

Definition config_cell : cell FState FactoryConfig.
Proof.
  refine (keyed_cell fkeys f_content KConfig configC f_config f_set_config _ _);
    [abstract done|abstract solve_content].
Defined.
Definition slugs_cell : cell FState (list string).
Proof.
  refine (keyed_cell fkeys f_content KSlugs (vecC symbolC) f_slugs f_set_slugs _ _);
    [abstract done|abstract solve_content].
Defined.
Definition enabled_cell : cell FState bool.
Proof.
  refine (keyed_cell fkeys f_content KEnabled boolC f_enabled f_set_enabled _ _);
    [abstract done|abstract solve_content].
Defined.
Definition queue_cell (s : string) : cell FState QueueMetadata.
Proof.
  refine (keyed_cell fkeys f_content (KQueue s) metadataC (λ st, f_queues st !! s)
    (f_set_queue s) _ _); [abstract done|abstract solve_content].
Defined.
Definition approved_cell (v : Z) : cell FState Hash.
Proof.
  refine (keyed_cell fkeys f_content (KApproved v) bytesC (λ st, f_approved st !! v)
    (f_set_approved v) _ _); [abstract done|abstract solve_content].
Defined.

Lemma view_del_queue s st : view_del (queue_registry_key s) st (f_del_queue s st).
Proof.
  refine (keyed_view_update fkeys f_content st (f_del_queue s st) (KQueue s) None _).
  intros y. case_decide as Hy; [subst; simpl; by rewrite lookup_delete_eq|].
  destruct y; simpl; try done. rewrite lookup_delete_ne by congruence. done.
Qed.

(** * What each call does *)

Record FCtx := mkFCtx { fc_ctx : Ctx; fc_deploy : Hash → Result ScAddress }.

Definition ev (kind s : string) (id : ScAddress) (v : Z) : Ev :=
  (emit_topics kind s, ScVec [ScAddr id; ScU32 v]).

Definition unwrapped {A} (o : option A) : Result A :=
  expect o "called `Option::unwrap()` on a `None` value".

Definition as_admin (cx : Ctx) (a : ScAddress) (st : FState) : Result unit :=
  auth cx a ;;
  c ← expect (f_config st) "not initialized";
  reject_if (bool_decide (admin c ≠ a)) "unauthorized".

Definition in_bounds (v : Z) (c : FactoryConfig) : Result unit :=
  reject_if (bool_decide (v < min_version c ∨ max_version c < v)) "version out of bounds".

(** An approved hash must match; once approvals are in use there must be one. *)
Definition spec_validate (v : Z) (w : Hash) (st : FState) : Result unit :=
  match f_approved st !! v with
  | Some h => reject_if (bool_decide (h ≠ w)) "wasm hash not approved"
  | None => Ok tt
  end.
Definition spec_require (v : Z) (w : Hash) (st : FState) : Result unit :=
  if default false (f_enabled st) then
    h ← expect (f_approved st !! v) "WASM hash not approved";
    reject_if (bool_decide (h ≠ w)) "WASM hash not approved"
  else Ok tt.

(** A new queue in the registry. *)
Definition f_add_queue (s : string) (m : QueueMetadata) (st : FState) : FState :=
  f_set_slugs (slugs_of st ++ [s]) (f_set_queue s m st).
Definition f_remove_queue (s : string) (st : FState) : FState :=
  f_set_slugs (filter (λ s', s' ≠ s) (slugs_of st)) (f_del_queue s st).

Definition spec_initialize (cx : Ctx) (a : ScAddress) (st : FState) : Outcome unit FState :=
  auth cx a ;;
  reject_if (bool_decide (is_Some (f_config st))) "already initialized" ;;
  Ok (tt, f_set_slugs [] (f_set_config (mkFactoryConfig a 1 1) st),
      [ev "Init" "" (Contract (c_self cx)) 0]).

Definition spec_deploy_checks (cx : Ctx) (deployer : ScAddress) (s : string) (v : Z) (w : Hash)
    (st : FState) : Result unit :=
  auth cx deployer ;;
  c ← unwrapped (f_config st);
  in_bounds v c ;;
  spec_validate v w st ;;
  spec_require v w st ;;
  reject_if (bool_decide (is_Some (f_queues st !! s))) "queue with this slug already exists".

Definition spec_deploy_queue (cx : FCtx) (deployer : ScAddress) (s n : string) (v : Z) (w : Hash)
    (st : FState) : Outcome ScAddress FState :=
  spec_deploy_checks (fc_ctx cx) deployer s v w st ;;
  id ← fc_deploy cx w;
  Ok (id, f_add_queue s (mkQueueMetadata s n deployer id v (c_now (fc_ctx cx)) true) st,
      [ev "Deployed" s id v]).

Definition spec_register_queue (cx : Ctx) (a : ScAddress) (s : string) (id : ScAddress) (v : Z)
    (st : FState) : Outcome unit FState :=
  as_admin cx a st ;;
  reject_if (bool_decide (is_Some (f_queues st !! s))) "queue already registered" ;;
  Ok (tt, f_add_queue s (mkQueueMetadata s "imported" a id v (c_now cx) true) st,
      [ev "Registered" s id v]).

Definition spec_approve (cx : Ctx) (a : ScAddress) (v : Z) (w : Hash) (st : FState) :
    Outcome unit FState :=
  as_admin cx a st ;; Ok (tt, f_set_enabled true (f_set_approved v w st), []).

Definition spec_switch (b : bool) (kind : string) (cx : Ctx) (a : ScAddress) (s : string)
    (st : FState) : Outcome unit FState :=
  as_admin cx a st ;;
  m ← expect (f_queues st !! s) "queue not found";
  Ok (tt, f_set_queue s (set_active b m) st, [ev kind s (contract_id m) (version m)]).

Definition spec_destroy (cx : Ctx) (a : ScAddress) (s : string) (st : FState) :
    Outcome unit FState :=
  as_admin cx a st ;;
  m ← expect (f_queues st !! s) "queue not found";
  Ok (tt, f_remove_queue s st, [ev "Destroyed" s (contract_id m) (version m)]).

Definition spec_set_config (cx : Ctx) (a : ScAddress) (lo hi : Z) (st : FState) :
    Outcome unit FState :=
  as_admin cx a st ;;
  c ← unwrapped (f_config st);
  Ok (tt, f_set_config (set_bounds lo hi c) st, []).

Definition spec_verify (s : string) (st : FState) : bool :=
  match f_queues st !! s with Some m => active m | None => false end.

Definition spec_upgrade (cx : Ctx) (a : ScAddress) (s : string) (v : Z) (w : Hash) (st : FState) :
    Outcome unit FState :=
  as_admin cx a st ;;
  c ← unwrapped (f_config st);
  in_bounds v c ;;
  m ← expect (f_queues st !! s) "queue not found";
  reject_if (bool_decide (v <= version m)) "version must increase" ;;
  spec_validate v w st ;;
  spec_require v w st ;;
  Ok (tt, f_set_queue s (set_version v m) st, [ev "Upgraded" s (contract_id m) v]).

Definition spec_call (cx : FCtx) (c : Call) (st : FState) : Outcome Ret_val FState :=
  let unit_out r := (λ r : unit * FState * list Ev, (RUnit, r.1.2, r.2)) <$> r in
  let cx0 := fc_ctx cx in
  match c with
  | CInitialize a => unit_out (spec_initialize cx0 a st)
  | CDeployQueue deployer s n v w =>
      (λ r : ScAddress * FState * list Ev, (RAddress r.1.1, r.1.2, r.2)) <$>
        spec_deploy_queue cx deployer s n v w st
  | CRegisterQueue a s id v => unit_out (spec_register_queue cx0 a s id v st)
  | CRegisterApprovedHash a v w => unit_out (spec_approve cx0 a v w st)
  | CDeactivateQueue a s => unit_out (spec_switch false "Deactivated" cx0 a s st)
  | CReactivateQueue a s => unit_out (spec_switch true "Reactivated" cx0 a s st)
  | CDestroyQueue a s => unit_out (spec_destroy cx0 a s st)
  | CSetConfig a lo hi => unit_out (spec_set_config cx0 a lo hi st)
  | CGetQueue s => Ok (RMetadata (f_queues st !! s), st, [])
  | CListQueues => Ok (RSlugs (slugs_of st), st, [])
  | CVerifyQueue s => Ok (RBool (spec_verify s st), st, [])
  | CUpgradeQueue a s v w => unit_out (spec_upgrade cx0 a s v w st)
  | CQueueCount => Ok (RU32 (Z.of_nat (length (slugs_of st))), st, [])
  end.

(** * The contract implements it *)

Ltac f_pick k tac :=
  lazymatch k with
  | config_key => tac config_cell
  | idx_key => tac slugs_cell
  | enabled_key => tac enabled_cell
  | queue_registry_key ?s => tac (queue_cell s)
  | approved_hash_key ?v => tac (approved_cell v)
  end.

Ltac f_clean :=
  cbn [cget cset ck cc config_cell slugs_cell enabled_cell queue_cell approved_cell keyed_cell
       f_set_config f_set_slugs f_set_enabled f_set_queue f_set_approved f_del_queue
       f_config f_slugs f_enabled f_queues f_approved].

Ltac f_step :=
  lazymatch goal with
  | |- simk _ (unwrap _ ≫= _) _ _ _ => unfold unwrap at 1
  | |- simk _ (get_queue_meta _ ≫= _) _ _ _ => unfold get_queue_meta at 1
  | |- simk _ (append_slug _ ≫= _) _ _ _ => unfold append_slug at 1
  | |- simk _ (remove_slug _ ≫= _) _ _ _ => unfold remove_slug at 1
  | Hp : sim_post ?e0 ?e ?s ?evs |- simk _ (remove (queue_registry_key _) ≫= _) ?e0 ?e _ =>
      eapply sim_remove; [exact Hp|done|apply view_del_queue|]; sim_next e Hp
  | |- simk _ (emit _ _ _ _ _ ≫= _) _ _ _ => unfold emit at 1
  | |- simk _ (emit _ _ _ _ _) _ _ _ => apply sim_tail
  | |- simk _ (panic_if _ _) _ _ _ => apply sim_tail
  | _ => sim_op f_pick f_clean
  end; cbv beta.

Section refinement.
Context (X : External).

Definition fctx_of (e : Env) : FCtx := mkFCtx (ctx_of e) (λ w, deploy_result X e w w).

(** The guards the entry points share, each with its specification. *)
Lemma sim_require_admin {A} a (f : unit → prog A) e0 e s evs sp :
  sim_post e0 e s evs →
  (∀ x, as_admin (ctx_of e0) a s = Err x → sp = Err x) →
  (∀ e', as_admin (ctx_of e0) a s = Ok tt → sim_post e0 e' s evs → simk X (f tt) e0 e' sp) →
  simk X (require_admin a ≫= f) e0 e sp.
Proof.
  intros Hp Herr Hok.
  eapply (sim_bind X e0 sp _ _ _ (after evs ((λ _, (tt, s, [])) <$> as_admin (ctx_of e0) a s))).
  - unfold require_admin, as_admin, after. repeat f_step. eapply sim_ret; [exact Hp|]. simpl.
    by rewrite app_nil_r.
  - intros x Hx. apply Herr. by destruct (as_admin _ _ _); simplify_eq/=.
  - intros [] s1 evs1 e1 Hq Hp1. destruct (as_admin _ _ _) as [[]|]; simplify_eq/=.
    rewrite app_nil_r in Hp1. by apply Hok.
Qed.

Lemma sim_validate {A} v w (f : unit → prog A) e0 e s evs sp :
  sim_post e0 e s evs →
  (∀ x, spec_validate v w s = Err x → sp = Err x) →
  (∀ e', spec_validate v w s = Ok tt → sim_post e0 e' s evs → simk X (f tt) e0 e' sp) →
  simk X (validate_approved_hash v w ≫= f) e0 e sp.
Proof.
  intros Hp Herr Hok. unfold validate_approved_hash, spec_validate in *. repeat f_step.
  - apply sim_panic_if; intros Hrej; [by apply Herr|]. repeat f_step. by apply Hok.
  - by apply Hok.
Qed.

Lemma sim_require {A} v w (f : unit → prog A) e0 e s evs sp :
  sim_post e0 e s evs →
  (∀ x, spec_require v w s = Err x → sp = Err x) →
  (∀ e', spec_require v w s = Ok tt → sim_post e0 e' s evs → simk X (f tt) e0 e' sp) →
  simk X (require_approved_hash v w ≫= f) e0 e sp.
Proof.
  intros Hp Herr Hok. unfold require_approved_hash, spec_require in *. apply sim_assoc. f_step.
  destruct (default false (f_enabled s)) eqn:Hen; simpl negb; cbv iota; [|by apply Hok].
  assert (is_Some (f_enabled s)) by (destruct (f_enabled s); [by eexists|done]).
  repeat f_step.
  - apply sim_panic_if; intros Hrej; [by apply Herr|by apply Hok].
  - apply sim_fail_bind. by apply Herr.
Qed.

Ltac f_err := let Hr := fresh in intros ? Hr; rewrite ?Hr; done.
Ltac f_ok e Hp :=
  let Hr := fresh "Hok" in clear e Hp; intros e Hr Hp; rewrite ?Hr; sp_eval.

Ltac f_next :=
  lazymatch goal with
  | Hp : sim_post ?e0 ?e ?s ?evs |- simk _ (require_admin _ ≫= _) ?e0 ?e _ =>
      eapply sim_require_admin; [exact Hp|f_err|f_ok e Hp]
  | Hp : sim_post ?e0 ?e ?s ?evs |- simk _ (validate_approved_hash _ _ ≫= _) ?e0 ?e _ =>
      eapply sim_validate; [exact Hp|f_err|f_ok e Hp]
  | Hp : sim_post ?e0 ?e ?s ?evs |- simk _ (require_approved_hash _ _ ≫= _) ?e0 ?e _ =>
      eapply sim_require; [exact Hp|f_err|f_ok e Hp]
  | |- simk _ (unwrap _ ≫= _) _ _ _ => unfold unwrap at 1
  | |- simk _ (get_queue_meta _ ≫= _) _ _ _ => unfold get_queue_meta at 1
  | |- simk _ (append_slug _ ≫= _) _ _ _ => unfold append_slug at 1
  | |- simk _ (remove_slug _ ≫= _) _ _ _ => unfold remove_slug at 1
  | Hp : sim_post ?e0 ?e ?s ?evs |- simk _ (remove (queue_registry_key _) ≫= _) ?e0 ?e _ =>
      eapply sim_remove; [exact Hp|done|apply view_del_queue|]; sim_next e Hp
  | |- simk _ (emit _ _ _ _ _ ≫= _) _ _ _ => unfold emit at 1
  | |- simk _ (emit _ _ _ _ _) _ _ _ => apply sim_tail
  | |- simk _ (panic_if _ _) _ _ _ => apply sim_tail
  | _ => sim_op f_pick f_clean
  end; cbv beta.

Lemma sim_factory_initialize a e s :
  Rep e s → sim X (initialize a) e (spec_initialize (ctx_of e) a s).
Proof. sim_begin. unfold initialize, spec_initialize. repeat f_next. Qed.

Lemma sim_deploy_checks deployer sl v w e s :
  Rep e s → sim X (deploy_checks deployer sl v w) e
    ((λ _, (tt, s, [])) <$> spec_deploy_checks (ctx_of e) deployer sl v w s).
Proof.
  sim_begin. unfold deploy_checks, spec_deploy_checks, unwrapped, in_bounds.
  repeat f_next.
Qed.

Lemma sim_register_queue a sl id v e s :
  Rep e s → sim X (register_queue a sl id v) e (spec_register_queue (ctx_of e) a sl id v s).
Proof.
  sim_begin. unfold register_queue, spec_register_queue, f_add_queue, slugs_of.
  repeat f_next.
Qed.

Lemma calm_deploy_checks deployer sl v w : calm (deploy_checks deployer sl v w).
Proof.
  repeat first
    [ progress unfold deploy_checks, validate_approved_hash, require_approved_hash, require_auth, get,
        get_or, has, extend, extend_ttl_of, trigger, unwrap, panic_if, panic
    | apply calm_bind; [|intros ?]
    | apply calm_ret | apply calm_fail
    | apply calm_vis; [done|intros ?]
    | case_match ].
Qed.

Lemma sim_deploy_queue deployer sl n v w e s :
  Rep e s → sim X (deploy_queue deployer sl n v w) e
    (spec_deploy_queue (fctx_of e) deployer sl n v w s).
Proof.
  intros Hr. unfold deploy_queue, spec_deploy_queue, sim. cbn [fctx_of fc_ctx fc_deploy].
  eapply sim_bind_own; [by apply sim_deploy_checks|apply calm_deploy_checks| |].
  - intros x Hx. by destruct (spec_deploy_checks _ _ _ _ _ _); simplify_eq/=.
  - intros [] s1 evs e1 Hq Hp Hown.
    destruct (spec_deploy_checks _ _ _ _ _ _) as [[]|]; [|done]. injection Hq as <- <-. sp_eval.
    eapply sim_deploy; [exact Hp|exact Hown|].
    destruct (deploy_result X e w w) as [id|x]; [|done]. clear Hown. sim_next e1 Hp. sp_eval.
    unfold f_add_queue, slugs_of. repeat f_next.
Qed.

Lemma sim_register_approved_hash a v w e s :
  Rep e s → sim X (register_approved_hash a v w) e (spec_approve (ctx_of e) a v w s).
Proof. sim_begin. unfold register_approved_hash, spec_approve. repeat f_next. Qed.

Lemma sim_switch_queue b kind a sl e s :
  Rep e s → sim X (switch_queue b kind a sl) e (spec_switch b kind (ctx_of e) a sl s).
Proof. sim_begin. unfold switch_queue, spec_switch. repeat f_next. Qed.

Lemma sim_destroy_queue a sl e s :
  Rep e s → sim X (destroy_queue a sl) e (spec_destroy (ctx_of e) a sl s).
Proof.
  sim_begin. unfold destroy_queue, spec_destroy, f_remove_queue, slugs_of. f_next. f_next.
  destruct (f_queues s !! sl) as [m|] eqn:Hm;
    [rewrite bool_decide_true by eauto|rewrite bool_decide_false by (by intros [])]; simpl negb;
    [|by apply sim_fail_bind].
  apply sim_ret_bind. repeat f_next.
Qed.

Lemma sim_factory_set_config a lo hi e s :
  Rep e s → sim X (set_config a lo hi) e (spec_set_config (ctx_of e) a lo hi s).
Proof. sim_begin. unfold set_config, spec_set_config, unwrapped. repeat f_next. Qed.

Lemma sim_get_queue sl e s : Rep e s → sim X (get_queue sl) e (Ok (f_queues s !! sl, s, [])).
Proof. sim_begin. unfold get_queue. repeat f_next. Qed.

Lemma sim_list_queues e s : Rep e s → sim X list_queues e (Ok (slugs_of s, s, [])).
Proof. sim_begin. unfold list_queues, slugs_of. repeat f_next. Qed.

Lemma sim_verify_queue sl e s : Rep e s → sim X (verify_queue sl) e (Ok (spec_verify sl s, s, [])).
Proof. sim_begin. unfold verify_queue, spec_verify. repeat f_next. Qed.

Lemma sim_queue_count e s :
  Rep e s → sim X queue_count e (Ok (Z.of_nat (length (slugs_of s)), s, [])).
Proof. sim_begin. unfold queue_count, slugs_of. repeat f_next. Qed.

Lemma sim_upgrade_queue a sl v w e s :
  Rep e s → sim X (upgrade_queue a sl v w) e (spec_upgrade (ctx_of e) a sl v w s).
Proof. sim_begin. unfold upgrade_queue, spec_upgrade, unwrapped, in_bounds. repeat f_next. Qed.

Lemma factory_sim_exec c e s : Rep e s → sim X (exec c) e (spec_call (fctx_of e) c s).
Proof.
  intros Hr. destruct c; cbn [exec spec_call].
  - by apply sim_then, sim_factory_initialize.
  - by apply sim_fmap, sim_deploy_queue.
  - by apply sim_then, sim_register_queue.
  - by apply sim_then, sim_register_approved_hash.
  - by apply sim_then, sim_switch_queue.
  - by apply sim_then, sim_switch_queue.
  - by apply sim_then, sim_destroy_queue.
  - by apply sim_then, sim_factory_set_config.
  - by apply sim_read, sim_get_queue.
  - by apply sim_read, sim_list_queues.
  - by apply sim_read, sim_verify_queue.
  - by apply sim_then, sim_upgrade_queue.
  - by apply sim_read, sim_queue_count.
Qed.
End refinement.
