(* ===== verification/FactoryThms.v ===== *)
(** What the queue factory guarantees, for all histories of transactions, each with
    an evaluated scenario: a registry that agrees with its index, a fixed
    administrator, enforced approvals, and stable records. *)
From S2P Require Import Prelude ScVal Storage Host Env Sim Factory FactorySpec.
Import Factory.

(** * The abstract machine *)

(** What a record may become while its slug is not destroyed. *)
Definition meta_after (m m' : QueueMetadata) : Prop :=
  slug m' = slug m ∧ name m' = name m ∧ owner m' = owner m ∧
  contract_id m' = contract_id m ∧ deployed_at m' = deployed_at m ∧ version m <= version m'.

#[export] Instance meta_after_preorder : PreOrder meta_after.
Proof.
  split; [by intros m; split_and!|].
  intros m1 m2 m3 (?&?&?&?&?&?) (?&?&?&?&?&?). split_and!; try congruence. lia.
Qed.

(** The slug a call removes from the registry. *)
Definition destroyed (c : Call) : option string :=
  match c with CDestroyQueue _ sl => Some sl | _ => None end.

(** The changes of state, labelled with the slug they remove. *)
Inductive f_change : option string → FState → FState → Prop :=
| fc_init a s : f_config s = None →
    f_change None s (f_set_slugs [] (f_set_config (mkFactoryConfig a 1 1) s))
| fc_add sl m c s : f_config s = Some c → slug m = sl → f_queues s !! sl = None →
    f_change None s (f_add_queue sl m s)
| fc_approve v w c s : f_config s = Some c →
    f_change None s (f_set_enabled true (f_set_approved v w s))
| fc_update sl m m' s : f_queues s !! sl = Some m → meta_after m m' →
    f_change None s (f_set_queue sl m' s)
| fc_config lo hi c s : f_config s = Some c → f_change None s (f_set_config (set_bounds lo hi c) s)
| fc_destroy sl m s : f_queues s !! sl = Some m → f_change (Some sl) s (f_remove_queue sl s).

(** The administrator's calls. *)
Definition as_admin_call (c : Call) : option ScAddress :=
  match c with
  | CRegisterQueue a _ _ _ | CRegisterApprovedHash a _ _ | CDeactivateQueue a _
  | CReactivateQueue a _ | CDestroyQueue a _ | CSetConfig a _ _ | CUpgradeQueue a _ _ _ => Some a
  | _ => None
  end.

Lemma factory_as_admin cx a s u :
  as_admin cx a s = Ok u → a ∈ c_auths cx ∧ ∃ c, f_config s = Some c ∧ admin c = a.
Proof.
  unfold as_admin. intros H. outcome_inv.
  match goal with H : ¬ (_ ≠ _) |- _ => apply dec_stable in H end. eauto.
Qed.

Ltac f_outcome :=
  outcome_inv;
  repeat match goal with
  | H : as_admin _ _ _ = Ok _ |- _ => apply factory_as_admin in H as (? & ? & ? & ?)
  end;
  unfold unwrapped in *; outcome_inv.

Lemma deploy_checks_ok cx deployer sl v w s u :
  spec_deploy_checks cx deployer sl v w s = Ok u →
  deployer ∈ c_auths cx ∧ f_queues s !! sl = None ∧
  spec_validate v w s = Ok tt ∧ spec_require v w s = Ok tt ∧
  ∃ c, f_config s = Some c ∧ min_version c <= v <= max_version c.
Proof.
  unfold spec_deploy_checks, in_bounds. intros H. f_outcome. split_and!; try done.
  - by apply eq_None_not_Some.
  - eexists. split; [done|lia].
Qed.

Lemma factory_call_change cx c s a s' evs :
  spec_call cx c s = Ok (a, s', evs) → s' = s ∨ f_change (destroyed c) s s'.
Proof.
  destruct c; cbn [spec_call]; intros Hs; try (left; by simplify_eq);
    apply fmap_ok in Hs as (r & Hr & Hs); injection Hs as _ <- _; right.
  - unfold spec_initialize in Hr. outcome_inv. apply fc_init. by apply eq_None_not_Some.
  - unfold spec_deploy_queue in Hr. outcome_inv.
    match goal with H : spec_deploy_checks _ _ _ _ _ _ = _ |- _ =>
      apply deploy_checks_ok in H as (_ & ? & _ & _ & c & ? & _) end.
    by eapply fc_add.
  - unfold spec_register_queue in Hr. f_outcome. eapply fc_add; [done|done|by apply eq_None_not_Some].
  - unfold spec_approve in Hr. f_outcome. by eapply fc_approve.
  - unfold spec_switch in Hr. f_outcome. by eapply fc_update; [|split_and!].
  - unfold spec_switch in Hr. f_outcome. by eapply fc_update; [|split_and!].
  - unfold spec_destroy in Hr. f_outcome. by eapply fc_destroy.
  - unfold spec_set_config in Hr. f_outcome. by eapply fc_config.
  - unfold spec_upgrade in Hr. f_outcome. eapply fc_update; [done|split_and!; try done; simpl; lia].
Qed.

(** ** The invariant *)

Record factory_inv (s : FState) : Prop := {
  fi_config : f_config s = None → slugs_of s = [] ∧ f_queues s = ∅;
  fi_slugs : is_Some (f_config s) → is_Some (f_slugs s);
  fi_nodup : NoDup (slugs_of s);
  fi_index : ∀ sl, sl ∈ slugs_of s ↔ is_Some (f_queues s !! sl);
  fi_slug : ∀ sl m, f_queues s !! sl = Some m → slug m = sl
}.

Lemma factory_inv_empty : factory_inv f_empty.
Proof.
  split; unfold slugs_of; simpl; [done|by intros []|constructor| |].
  - intros sl. rewrite lookup_empty. split; [by intros ?%not_elem_of_nil|by intros []].
  - intros sl m. by rewrite lookup_empty.
Qed.

Lemma factory_inv_add sl m c s :
  f_config s = Some c → slug m = sl → f_queues s !! sl = None → factory_inv s →
  factory_inv (f_add_queue sl m s).
Proof.
  intros Hc Hm Hn [_ Hx Hnd Hi Hsl]. unfold f_add_queue. split; unfold slugs_of at 1; simpl.
  - by rewrite Hc.
  - by eexists.
  - apply NoDup_app. split_and!; [done| |apply NoDup_singleton].
    intros x Hin ->%list_elem_of_singleton. apply Hi in Hin as []. congruence.
  - intros sl'. rewrite elem_of_app, list_elem_of_singleton, Hi.
    destruct (decide (sl = sl')) as [->|]; [rewrite lookup_insert_eq|rewrite lookup_insert_ne by done].
    + split; eauto.
    + split; [by intros [?| ->]|by left].
  - intros sl' m' [[<- <-]|[_ ?]]%lookup_insert_Some; [done|by apply Hsl].
Qed.

Lemma factory_inv_update sl m m' s :
  f_queues s !! sl = Some m → slug m' = slug m → factory_inv s → factory_inv (f_set_queue sl m' s).
Proof.
  intros Hm Hs [Hc Hx Hnd Hi Hsl]. split; change (slugs_of (f_set_queue sl m' s)) with (slugs_of s); simpl.
  - intros [_ He]%Hc. by rewrite He, lookup_empty in Hm.
  - done.
  - done.
  - intros sl'. rewrite Hi. destruct (decide (sl = sl')) as [->|].
    + rewrite lookup_insert_eq, Hm. split; eauto.
    + by rewrite lookup_insert_ne.
  - intros sl' x [[<- <-]|[_ ?]]%lookup_insert_Some; [by rewrite Hs, (Hsl sl m)|by apply Hsl].
Qed.

Lemma factory_inv_remove sl m s :
  f_queues s !! sl = Some m → factory_inv s → factory_inv (f_remove_queue sl s).
Proof.
  intros Hm [Hc Hx Hnd Hi Hsl]. unfold f_remove_queue. split; unfold slugs_of at 1; simpl.
  - intros [_ He]%Hc. by rewrite He, lookup_empty in Hm.
  - by eexists.
  - by apply NoDup_filter.
  - intros sl'. rewrite list_elem_of_filter, Hi. destruct (decide (sl = sl')) as [->|].
    + rewrite lookup_delete_eq. split; [tauto|by intros []].
    + rewrite lookup_delete_ne by done. split; [tauto|auto].
  - intros sl' x [_ ?]%lookup_delete_Some. by apply Hsl.
Qed.

Lemma factory_inv_change l s s' : f_change l s s' → factory_inv s → factory_inv s'.
Proof.
  destruct 1 as [a s Hn|sl m c s Hc Hm Hn|v w c s Hc|sl m m' s Hm Ha|lo hi c s Hc|sl m s Hm]; intros Hinv.
  - destruct Hinv as [Hc _ _ _ Hsl]. destruct (Hc Hn) as [_ Hq].
    split; unfold slugs_of; simpl; [done|by eexists|constructor| |done].
    intros sl. rewrite Hq, lookup_empty. split; [by intros ?%not_elem_of_nil|by intros []].
  - by eapply factory_inv_add.
  - destruct Hinv as [H1 H2 H3 H4 H5]. by split.
  - eapply factory_inv_update; [done|apply Ha|done].
  - destruct Hinv as [H1 H2 H3 H4 H5]. split; try done. simpl. intros _. apply H2. eauto.
  - by eapply factory_inv_remove.
Qed.

(** ** What never goes back *)

Definition f_after (s s' : FState) : Prop :=
  (∀ c, f_config s = Some c → ∃ c', f_config s' = Some c' ∧ admin c' = admin c) ∧
  (f_enabled s = Some true → f_enabled s' = Some true) ∧
  (∀ v, is_Some (f_approved s !! v) → is_Some (f_approved s' !! v)).

#[export] Instance f_after_preorder : PreOrder f_after.
Proof.
  split; [intros s; split_and!; [by intros c ?; exists c|done..]|].
  intros s1 s2 s3 (H12 & He12 & Ha12) (H23 & He23 & Ha23). split_and!; [|auto..].
  intros c Hc. destruct (H12 c Hc) as (c2 & Hc2 & ?), (H23 c2 Hc2) as (c3 & Hc3 & ?).
  exists c3. split; [done|congruence].
Qed.

Lemma f_change_after l s s' : f_change l s s' → f_after s s'.
Proof.
  destruct 1; split_and!; simpl; try done; try (intros c0 ?; exists c0; done); try congruence.
  - intros v' Hv. destruct (decide (v = v')) as [->|]; [rewrite lookup_insert_eq; eauto|].
    by rewrite lookup_insert_ne.
  - intros c0 ?. simplify_eq. by eexists.
Qed.

(** The record of a slug that is not destroyed. *)
Definition slug_after (sl : string) (s s' : FState) : Prop :=
  ∀ m, f_queues s !! sl = Some m → ∃ m', f_queues s' !! sl = Some m' ∧ meta_after m m'.

#[export] Instance slug_after_preorder sl : PreOrder (slug_after sl).
Proof.
  split; [by intros s m Hm; exists m|].
  intros s1 s2 s3 H12 H23 m Hm. destruct (H12 m Hm) as (m2 & Hm2 & ?), (H23 m2 Hm2) as (m3 & ? & ?).
  exists m3. split; [done|by etrans].
Qed.

Lemma slug_after_insert sl sl' m' (s s' : FState) :
  f_queues s' = <[sl' := m']> (f_queues s) →
  (∀ m, f_queues s !! sl' = Some m → meta_after m m') → slug_after sl s s'.
Proof.
  intros Hq Hm m Hs. rewrite Hq. destruct (decide (sl' = sl)) as [->|].
  - rewrite lookup_insert_eq. eauto.
  - rewrite lookup_insert_ne by done. by exists m.
Qed.

Lemma f_change_slug l sl s s' : f_change l s s' → l ≠ Some sl → slug_after sl s s'.
Proof.
  destruct 1 as [a s Hn|sl' m c s Hc Hm Hn|v w c s Hc|sl' m m' s Hm Ha|lo hi c s Hc|sl' m s Hm];
    intros Hl; try (by intros m0 Hm0; exists m0).
  - apply (slug_after_insert sl sl' m); [done|congruence].
  - apply (slug_after_insert sl sl' m'); [done|intros; by simplify_eq].
  - intros m' Hm'. exists m'. simpl. rewrite lookup_delete_ne by congruence. done.
Qed.

(** ** Calls that name code *)

(** The version and code a call names: a deployment has it installed, [upgrade_queue]
    records only the version. *)
Definition requested_code (c : Call) : option (Z * Hash) :=
  match c with
  | CDeployQueue _ _ _ v w | CUpgradeQueue _ _ v w => Some (v, w)
  | _ => None
  end.

Lemma validated v w s :
  spec_validate v w s = Ok tt → spec_require v w s = Ok tt →
  f_approved s !! v = Some w ∨ (f_enabled s ≠ Some true ∧ f_approved s !! v = None).
Proof.
  unfold spec_validate, spec_require. intros Hv Hr.
  destruct (f_approved s !! v) as [h|]; outcome_inv.
  - left. f_equal. by apply dec_stable.
  - right. destruct (f_enabled s) as [[]|]; simpl in Hr; [by outcome_inv|done..].
Qed.

Lemma size_index s : factory_inv s → length (slugs_of s) = size (f_queues s).
Proof.
  intros [_ _ Hnd Hi _]. rewrite <-size_dom, <-(size_list_to_set (C := gset string) (slugs_of s)) by done.
  f_equal. apply set_eq. intros sl. by rewrite elem_of_list_to_set, elem_of_dom, Hi.
Qed.

Lemma f_remove_add sl m s :
  factory_inv s → is_Some (f_config s) → f_queues s !! sl = None →
  f_remove_queue sl (f_add_queue sl m s) = s.
Proof.
  intros [_ Hx _ Hi _] Hc Hn. destruct (Hx Hc) as [l Hl]. assert (sl ∉ l) as Hsl.
  { intros Hin. destruct (Hi sl) as [H1 _]. unfold slugs_of in H1. rewrite Hl, Hn in H1.
    by destruct (H1 Hin). }
  destruct s as [c o en qs ap]. simpl in *. unfold f_remove_queue, f_add_queue, f_set_slugs, slugs_of.
  subst o. simpl. f_equal; [|by rewrite delete_insert_id].
  f_equal. rewrite list.filter_app, list.filter_cons, decide_False by tauto.
  rewrite app_nil_r. apply filter_all. intros x Hin ->. done.
Qed.

(** The administrator's calls are his. *)
Lemma admin_call_signed cx c s b a s' evs :
  as_admin_call c = Some b → spec_call cx c s = Ok (a, s', evs) →
  b ∈ c_auths (fc_ctx cx) ∧ ∃ cfg, f_config s = Some cfg ∧ admin cfg = b.
Proof.
  intros Hb Hs. destruct c; try done; injection Hb as ->; cbn [spec_call] in Hs;
    apply fmap_ok in Hs as (r & (u & Hr & _)%bind_ok & _); by eapply factory_as_admin.
Qed.

(** What the administrator's registration of a free slug does, and the destruction
    of a registered one. *)
Lemma spec_register_free cx a sl id v s c :
  f_config s = Some c → admin c = a → a ∈ c_auths cx → f_queues s !! sl = None →
  (λ r : unit * FState * list Ev, (RUnit, r.1.2, r.2)) <$> spec_register_queue cx a sl id v s =
  Ok (RUnit, f_add_queue sl (mkQueueMetadata sl "imported" a id v (c_now cx) true) s,
      [ev "Registered" sl id v]).
Proof.
  intros Hc Ha Hin Hn. unfold spec_register_queue, as_admin.
  rewrite (proj2 (auth_ok cx a)), Hc, Hn by done. sp_eval.
  rewrite (bool_decide_false (admin c ≠ a)) by tauto. sp_eval. done.
Qed.

Lemma spec_destroy_stored cx a sl m s c :
  f_config s = Some c → admin c = a → a ∈ c_auths cx → f_queues s !! sl = Some m →
  (λ r : unit * FState * list Ev, (RUnit, r.1.2, r.2)) <$> spec_destroy cx a sl s =
  Ok (RUnit, f_remove_queue sl s, [ev "Destroyed" sl (contract_id m) (version m)]).
Proof.
  intros Hc Ha Hin Hm. unfold spec_destroy, as_admin.
  rewrite (proj2 (auth_ok cx a)), Hc, Hm by done. sp_eval.
  rewrite (bool_decide_false (admin c ≠ a)) by tauto. sp_eval. done.
Qed.

(** Both need the version within the bounds and the approved code. *)
Lemma spec_requested cx c v w s a s' evs :
  requested_code c = Some (v, w) → spec_call cx c s = Ok (a, s', evs) →
  (∃ cfg, f_config s = Some cfg ∧ min_version cfg <= v <= max_version cfg) ∧
  (f_approved s !! v = Some w ∨ (f_enabled s ≠ Some true ∧ f_approved s !! v = None)).
Proof.
  intros Hi Hs. destruct c; try done; cbn [requested_code] in Hi; injection Hi as -> ->;
    cbn [spec_call] in Hs; apply fmap_ok in Hs as (r & Hr & _).
  - unfold spec_deploy_queue in Hr. outcome_inv.
    match goal with H : spec_deploy_checks _ _ _ _ _ _ = _ |- _ =>
      apply deploy_checks_ok in H as (_ & _ & ? & ? & ?) end.
    split; [done|by apply validated].
  - unfold spec_upgrade, in_bounds in Hr. f_outcome. split; [|by apply validated].
    eexists. split; [done|lia].
Qed.

(** * Histories *)
Section history.
Context (X : External) (allowed : Call → Prop).

Definition factory_tx : Env → Env → Prop := tx X exec allowed.

Lemma factory_step_change s s' :
  spec_step spec_call allowed s s' → ∃ c, allowed c ∧ (s' = s ∨ f_change (destroyed c) s s').
Proof. intros (cx & c & a & evs & Hc & Hs). exists c. split; [done|]. by eapply factory_call_change. Qed.

Lemma factory_inv_step s s' :
  factory_inv s → spec_step spec_call allowed s s' → factory_inv s'.
Proof. intros Hinv (c & _ & [->|Hch])%factory_step_change; [done|]. by eapply factory_inv_change. Qed.

Lemma factory_refines e c s :
  Rep e s → factory_inv s → sim X (exec c) e (spec_call (fctx_of X e) c s).
Proof. intros Hr _. by apply factory_sim_exec. Qed.

Lemma factory_history e e' s :
  rtc factory_tx e e' → Rep e s → factory_inv s →
  ∃ s', Rep e' s' ∧ factory_inv s' ∧ f_after s s'.
Proof.
  apply (history_after X exec (fctx_of X) spec_call _ factory_inv factory_refines).
  - apply factory_inv_step.
  - apply _.
  - intros s1 s2 _ (c & _ & [->|Hch])%factory_step_change; [done|]. by eapply f_change_after.
Qed.

Lemma factory_slug_history sl e e' s :
  (∀ c, allowed c → destroyed c ≠ Some sl) → rtc factory_tx e e' → Rep e s → factory_inv s →
  ∃ s', Rep e' s' ∧ factory_inv s' ∧ slug_after sl s s'.
Proof.
  intros Hd. apply (history_after X exec (fctx_of X) spec_call _ factory_inv factory_refines).
  - apply factory_inv_step.
  - apply _.
  - intros s1 s2 _ (c & Hc & [->|Hch])%factory_step_change; [done|]. by eapply f_change_slug; [|apply Hd].
Qed.

Lemma factory_reachable e0 e :
  Rep e0 f_empty → rtc factory_tx e0 e → ∃ s, Rep e s ∧ factory_inv s.
Proof.
  intros Hr Htx. destruct (factory_history e0 e _ Htx Hr factory_inv_empty) as (s & ? & ? & _). eauto.
Qed.
End history.

Abbreviation any_call := (λ _ : Call, True).

Section stored.
Context (X : External).

Lemma factory_committed auths c e s a e' :
  Rep e s → factory_inv s → invoke X auths (exec c) e = (Ok a, e') →
  ∃ s' evs, spec_call (fctx_of X (authorized auths e)) c s = Ok (a, s', evs) ∧
    Rep e' s' ∧ factory_inv s'.
Proof.
  intros Hr Hinv. apply (invoke_committed X exec (fctx_of X) spec_call any_call factory_inv); try done.
  - intros. by apply factory_sim_exec.
  - apply factory_inv_step.
Qed.

Lemma factory_ok auths c e s :
  Rep e s → factory_inv s → is_ok (invoke X auths (exec c) e).1 = true →
  ∃ a s' evs, spec_call (fctx_of X (authorized auths e)) c s = Ok (a, s', evs).
Proof.
  intros Hr Hinv Hok. destruct (invoke X auths _ e) as [[a|x] e'] eqn:Hi; [|done].
  destruct (factory_committed auths c e s a e' Hr Hinv Hi) as (s' & evs & ? & _). eauto.
Qed.

Lemma stored_meta e s sl m :
  Rep e s → data e (queue_registry_key sl) = Some (enc metadataC m) ↔ f_queues s !! sl = Some m.
Proof. apply (cell_stored (queue_cell sl)). Qed.
Lemma factory_stored_config e s c :
  Rep e s → data e config_key = Some (enc configC c) ↔ f_config s = Some c.
Proof. apply (cell_stored config_cell). Qed.
Lemma stored_enabled e s b :
  Rep e s → data e enabled_key = Some (enc boolC b) ↔ f_enabled s = Some b.
Proof. apply (cell_stored enabled_cell). Qed.
Lemma stored_approved e s v w :
  Rep e s → data e (approved_hash_key v) = Some (enc bytesC w) ↔ f_approved s !! v = Some w.
Proof. apply (cell_stored (approved_cell v)). Qed.
Lemma slugs_data e s : Rep e s → data e idx_key = enc (vecC symbolC) <$> f_slugs s.
Proof. apply (Rep_get slugs_cell). Qed.
Lemma meta_data e s sl :
  Rep e s → data e (queue_registry_key sl) = enc metadataC <$> f_queues s !! sl.
Proof. apply (Rep_get (queue_cell sl)). Qed.
End stored.

(** * Deployed code

    A deployment leaves an instance entry that no call of the factory removes,
    and a second one for the same code needs its absence. *)
Section deployed.
Context (X : External).

Definition deployed_id (e : Env) (w : Hash) : Hash :=
  x_contract_id X (network_id (h_ledger e)) (Contract (h_contract e)) w.

(** The entry is there, and it is not the factory's own. *)
Definition holds_instance (id : Hash) (e : Env) : Prop :=
  id ≠ h_contract e ∧ is_Some (h_storage e !! contract_instance_ledger_key id).

Lemma instance_not_own id (e : Env) k :
  id ≠ h_contract e → contract_instance_ledger_key id ≠ dkey e k.
Proof. unfold contract_instance_ledger_key, dkey, storage_key. congruence. Qed.

Lemma holds_instance_run {A} (p : prog A) id e :
  holds_instance id e → holds_instance id (run X p e).2.
Proof.
  intros [Hne Hk]. pose proof (run_in_frame X p e) as (_ & Hc & _). split; [by rewrite Hc|].
  apply keeps_run; [|done]. intros k. by apply instance_not_own.
Qed.

Lemma holds_instance_invoke {A} auths (p : prog A) id e :
  holds_instance id e → holds_instance id (invoke X auths p e).2.
Proof.
  intros Hh. destruct (invoke X auths p e) as [[a|x] e'] eqn:Hi; cbn [snd].
  - unfold invoke, with_frame in Hi. fold (authorized auths e) in Hi.
    pose proof (holds_instance_run p id (authorized auths e) Hh) as Hr.
    by destruct (run X p _) as [[]]; simplify_eq.
  - destruct (invoke_failed X auths p e e' x Hi) as (Hs & _ & Hc & _).
    destruct Hh. split; [by rewrite Hc|by rewrite Hs].
Qed.

Lemma invoke_contract {A} auths (p : prog A) e r e' :
  invoke X auths p e = (r, e') → h_contract e' = h_contract e.
Proof.
  unfold invoke, with_frame. fold (authorized auths e).
  pose proof (run_in_frame X p (authorized auths e)) as (_ & Hc & _).
  destruct (run X p (authorized auths e)) as [[]]; intros; by simplify_eq/=.
Qed.

Lemma holds_instance_history allowed id e e' :
  rtc (factory_tx X allowed) e e' → holds_instance id e →
  holds_instance id e' ∧ h_contract e' = h_contract e.
Proof.
  induction 1 as [e|e1 e2 e3 [auths c r ea eb _ Hi|li ea _ _] _ IH]; intros Hh; [done| |by apply IH].
  pose proof (holds_instance_invoke auths (exec c) id ea Hh) as Hh2. rewrite Hi in Hh2.
  destruct (IH Hh2) as [? ->]. split; [done|by eapply invoke_contract].
Qed.

Lemma run_bind_ok {A B} (p : prog A) (f : A → prog B) (e : Env) b e' :
  run X (p ≫= f) e = (Ok b, e') →
  ∃ a e1, run X p e = (Ok a, e1) ∧ run X (f a) e1 = (Ok b, e').
Proof.
  rewrite run_bind. intros [(a & e1 & ? & ?)|(? & _ & ?)]%m_bind_inv; [by exists a, e1|done].
Qed.

(** The factory's own instance entry is there, so the new one is another. *)
Lemma run_deploy {B} w (f : ScAddress → prog B) e b e' :
  is_Some (h_storage e !! dkey e ScLedgerKeyContractInstance) →
  run X (deploy w w ≫= f) e = (Ok b, e') → holds_instance (deployed_id e w) e'.
Proof.
  intros Hinst (a & e1 & Hd & Hf)%run_bind_ok.
  apply (run_bind_ok (trigger (OpDeploy w w)) Ret) in Hd as (a1 & e2 & Hd & Hret).
  unfold trigger in Hd. apply m_bind_inv in Hd as [(a2 & e3 & Hd & Hret')|(? & _ & ?)]; [|done].
  cbn [run] in Hret, Hret'. unfold m_ret in Hret, Hret'. simplify_eq.
  apply handle_deploy_ok in Hd as (-> & Hnone & d & lu & ->).
  replace e' with (run X (f (Contract (deployed_id e w)))
    (set_storage (<[contract_instance_ledger_key (deployed_id e w) := (EContractData d, Some lu)]>
                    (h_storage e)) e)).2 by (unfold deployed_id; by rewrite Hf).
  apply holds_instance_run. split; [|simpl; rewrite lookup_insert_eq; eauto].
  cbn [set_storage h_contract]. intros Heq. fold (deployed_id e w) in Hnone.
  rewrite Heq in Hnone. destruct Hinst as [v Hv]. unfold dkey, storage_key in Hv.
  unfold contract_instance_ledger_key in Hnone. congruence.
Qed.

Lemma deploy_leaves_instance auths deployer sl n v w e r e' :
  env_live e → invoke X auths (exec (CDeployQueue deployer sl n v w)) e = (Ok r, e') →
  holds_instance (deployed_id e w) e'.
Proof.
  intros (_ & (d & lu & wi & Hinst & _) & _) Hi.
  unfold invoke, with_frame in Hi. fold (authorized auths e) in Hi.
  destruct (run X (exec _) (authorized auths e)) as [[a|] e1] eqn:Hrun; simplify_eq.
  apply (run_bind_ok (deploy_queue deployer sl n v w)) in Hrun as (id & e1 & Hrun & Hret).
  cbn [run] in Hret. unfold m_ret in Hret. simplify_eq.
  unfold deploy_queue in Hrun. apply run_bind_ok in Hrun as ([] & e1 & Hchk & Hrun).
  pose proof (run_calm X _ (authorized auths e) (calm_deploy_checks deployer sl v w)) as (Hl & Hc & Hown).
  rewrite Hchk in Hl, Hc, Hown. cbn [snd] in Hl, Hc, Hown.
  replace (deployed_id e w) with (deployed_id e1 w) by (unfold deployed_id; by rewrite Hl, Hc).
  eapply run_deploy; [|exact Hrun].
  unfold dkey. rewrite Hc. fold (dkey (authorized auths e) ScLedgerKeyContractInstance).
  rewrite Hown; [by eexists|]. intros k Hk ?%dkey_inj. done.
Qed.

Lemma deploy_result_ok w e a : deploy_result X e w w = Ok a → a = Contract (deployed_id e w).
Proof.
  unfold deploy_result. fold (deployed_id e w). intros H.
  apply bind_ok in H as (? & _ & H). case_bool_decide; [done|].
  apply bind_ok in H as (? & _ & H). case_bool_decide; [|done]. by outcome_inv.
Qed.

Lemma spec_deploy_ok cx deployer sl n v w s r :
  spec_deploy_queue cx deployer sl n v w s = Ok r → fc_deploy cx w = Ok r.1.1.
Proof. unfold spec_deploy_queue. intros H. by outcome_inv. Qed.

Lemma spec_deploy_call cx deployer sl n v w s r s' evs :
  spec_call cx (CDeployQueue deployer sl n v w) s = Ok (r, s', evs) →
  ∃ id, r = RAddress id ∧ fc_deploy cx w = Ok id.
Proof.
  cbn [spec_call]. intros ([[id s1] evs1] & Hd%spec_deploy_ok & Hr)%fmap_ok.
  exists id. split; [by simplify_eq/=|done].
Qed.

Lemma deploy_address auths deployer sl n v w e s id e' :
  Rep e s → factory_inv s →
  invoke X auths (exec (CDeployQueue deployer sl n v w)) e = (Ok (RAddress id), e') →
  id = Contract (deployed_id e w).
Proof.
  intros Hr Hinv Hi. destruct (factory_committed X auths _ e s _ e' Hr Hinv Hi) as (s' & evs & Hs & _).
  apply spec_deploy_call in Hs as (id' & Heq & Hd). injection Heq as <-. by apply deploy_result_ok in Hd.
Qed.

(** No deployment of code whose instance is there succeeds. *)
Lemma deploy_blocked w e : holds_instance (deployed_id e w) e → is_ok (deploy_result X e w w) = false.
Proof.
  intros [_ Hk]. unfold deploy_result. fold (deployed_id e w).
  rewrite (bool_decide_true (is_Some (_ !! contract_instance_ledger_key _))) by done.
  by destruct (check_if_entry_is_live _ (contract_instance_ledger_key _) _).
Qed.
End deployed.

(** * A scenario

    Alice initializes the factory, approves the code of version 1 and has Bob
    deploy the queue "drop" from it; then she imports a queue "tour". *)
Definition demo_configured : Env := play toy exec [({[alice]}, CInitialize alice)] fresh.
Definition demo_approved : Env := play toy exec
  [({[alice]}, CRegisterApprovedHash alice 1 demo_wasm)] demo_configured.
Definition demo_deployed : Env :=
  (invoke toy {[bob]} (exec (CDeployQueue bob "drop" "Drop" 1 demo_wasm)) demo_approved).2.
Definition demo_imported : Env := play toy exec
  [({[alice]}, CRegisterQueue alice "tour" (Contract 9%N) 1);
   ({[alice]}, CSetConfig alice 1 3); ({[alice]}, CRegisterApprovedHash alice 2 demo_wasm);
   ({[alice]}, CUpgradeQueue alice "drop" 2 demo_wasm)] demo_deployed.
Definition demo_config : FactoryConfig := mkFactoryConfig alice 1 1.
Definition demo_id : ScAddress := Contract (deployed_id toy fresh demo_wasm).
Definition demo_meta : QueueMetadata := mkQueueMetadata "drop" "Drop" bob demo_id 1 1000 true.

Example demo_imported_queues :
  data demo_imported idx_key = Some (enc (vecC symbolC) ["drop"; "tour"]) ∧
  data demo_imported (queue_registry_key "drop") = Some (enc metadataC (set_version 2 demo_meta)).
Proof. by vm_compute. Qed.

Lemma factory_demo_fresh : Rep fresh f_empty.
Proof.
  apply fresh_Rep. intros k. unfold view, factory_view, keyed_view.
  destruct (of_key fkeys k) as [[]|]; simpl; by rewrite ?lookup_empty.
Qed.
Lemma demo_configured_history : rtc (factory_tx toy any_call) fresh demo_configured.
Proof. apply play_tx. by repeat constructor. Qed.
Lemma demo_approved_history : rtc (factory_tx toy any_call) demo_configured demo_approved.
Proof. apply play_tx. by repeat constructor. Qed.
Lemma demo_deployed_history : rtc (factory_tx toy any_call) demo_approved demo_deployed.
Proof. unfold demo_deployed. apply rtc_once. eapply tx_invoke; [done|apply surjective_pairing]. Qed.
Lemma demo_imported_history : rtc (factory_tx toy any_call) demo_deployed demo_imported.
Proof. apply play_tx. by repeat constructor. Qed.

Lemma demo_approved_live : env_live demo_approved.
Proof.
  unfold demo_approved, demo_configured. rewrite !play_foldl, <-foldl_app.
  eapply (invokes_live toy exec (fctx_of toy) spec_call any_call factory_inv _ _ _ fresh f_empty).
  - by repeat constructor.
  - apply factory_demo_fresh.
  - apply factory_inv_empty.
  - apply fresh_live.
  Unshelve. all: [> intros; by apply factory_sim_exec | apply factory_inv_step].
Qed.

(** * Theorems *)
Section theorems.
Context (X : External).

(** C11: The queue factory implements its specification: a successful invocation
    returns the specified value, stores the specified state and emits the
    specified events; a failed one, a failed deployment included, changes nothing;
    and on a live ledger the outcome is the specified one, with the same error. *)
Theorem factory_call_correct auths c e s :
  Rep e s →
  call_outcome e s (spec_call (fctx_of X (authorized auths e)) c s) (invoke X auths (exec c) e).
Proof. intros Hr. by apply invoke_correct; [apply factory_sim_exec|]. Qed.

(** The registry and its index agree: in every reachable ledger the slug index
    lists exactly the registered slugs, each once, every record carries the slug
    it is stored under, and [queue_count], when it answers, gives the number of
    registered queues. *)
Theorem factory_registry_consistent e0 e :
  Rep e0 f_empty → rtc (factory_tx X any_call) e0 e →
  ∃ (slugs : list string) (queues : gmap string QueueMetadata),
    default [] (data e idx_key ≫= dec (vecC symbolC)) = slugs ∧
    (∀ sl, data e (queue_registry_key sl) = enc metadataC <$> queues !! sl) ∧
    NoDup slugs ∧ (∀ sl, sl ∈ slugs ↔ is_Some (queues !! sl)) ∧
    (∀ sl m, queues !! sl = Some m → slug m = sl) ∧
    ∀ auths r e', invoke X auths (exec CQueueCount) e = (Ok r, e') → r = RU32 (Z.of_nat (size queues)).
Proof.
  intros Hr0 Htx. destruct (factory_reachable X _ e0 e Hr0 Htx) as (s & Hr & Hinv).
  exists (slugs_of s), (f_queues s). split_and!; try apply Hinv.
  - unfold slugs_of. f_equal. apply (cell_read slugs_cell e s Hr).
  - intros sl. by apply meta_data.
  - intros auths r e' Hi.
    destruct (factory_committed X auths _ e s _ e' Hr Hinv Hi) as (s' & evs & Hs & _).
    cbn [spec_call] in Hs. injection Hs as <- _ _. do 2 f_equal. by apply size_index.
Qed.

(** The administrator is fixed: after a successful [initialize] the stored
    administrator stays the same through every history, [initialize] never
    succeeds again, and every later successful call to register, approve, switch,
    destroy, configure or upgrade carries his address and his signature. *)
Theorem factory_admin_fixed e0 e auths a e1 e2 :
  Rep e0 f_empty → rtc (factory_tx X any_call) e0 e →
  invoke X auths (exec (CInitialize a)) e = (Ok RUnit, e1) → rtc (factory_tx X any_call) e1 e2 →
  (∃ c, data e2 config_key = Some (enc configC c) ∧ admin c = a) ∧
  (∀ auths' b, is_ok (invoke X auths' (exec (CInitialize b)) e2).1 = false) ∧
  (∀ auths' c b, as_admin_call c = Some b → is_ok (invoke X auths' (exec c) e2).1 = true →
    b = a ∧ a ∈ auths').
Proof.
  intros Hr0 Htx Hi H12. destruct (factory_reachable X _ e0 e Hr0 Htx) as (s & Hr & Hinv).
  destruct (factory_committed X auths _ e s _ e1 Hr Hinv Hi) as (s1 & evs & Hs & Hr1 & Hinv1).
  destruct (factory_history X _ e1 e2 s1 H12 Hr1 Hinv1) as (s2 & Hr2 & Hinv2 & Hadm & _).
  assert (∃ c, f_config s2 = Some c ∧ admin c = a) as (cfg & Hcfg & Ha).
  { apply (Hadm (mkFactoryConfig a 1 1)). cbn [spec_call] in Hs. unfold spec_initialize in Hs.
    by outcome_inv. }
  split_and!.
  - exists cfg. split; [by apply (factory_stored_config _ _ _ Hr2)|done].
  - intros auths' b. destruct (is_ok _) eqn:Hc; [|done].
    destruct (factory_ok X auths' _ e2 s2 Hr2 Hinv2 Hc) as (v & s3 & evs' & H3).
    cbn [spec_call] in H3. unfold spec_initialize in H3. rewrite Hcfg in H3. outcome_inv.
    match goal with H : ¬ is_Some _ |- _ => by destruct H end.
  - intros auths' c b Hb Hc.
    destruct (factory_ok X auths' _ e2 s2 Hr2 Hinv2 Hc) as (v & s3 & evs' & H3).
    destruct (admin_call_signed _ _ _ _ _ _ _ Hb H3) as (Hin & c' & Hc' & Hb').
    rewrite Hc' in Hcfg. simplify_eq. done.
Qed.

(** C12: Approvals are enforced: once an approved hash was registered, the hash given to
    a [deploy_queue] or [upgrade_queue] that succeeds later is exactly the one stored as
    approved for the version given with it, and that version is within the configured
    bounds.  ([upgrade_queue] records the version in the registry; it installs no code.) *)
Theorem factory_approvals_enforced e0 e1 e2 auths c v w :
  Rep e0 f_empty → rtc (factory_tx X any_call) e0 e1 → rtc (factory_tx X any_call) e1 e2 →
  data e1 enabled_key = Some (enc boolC true) → requested_code c = Some (v, w) →
  is_ok (invoke X auths (exec c) e2).1 = true →
  data e2 (approved_hash_key v) = Some (enc bytesC w) ∧
  ∃ cfg, data e2 config_key = Some (enc configC cfg) ∧ min_version cfg <= v <= max_version cfg.
Proof.
  intros Hr0 H1 H2 Hen Hin Hok. destruct (factory_reachable X _ e0 e1 Hr0 H1) as (s1 & Hr1 & Hinv1).
  destruct (factory_history X _ e1 e2 s1 H2 Hr1 Hinv1) as (s2 & Hr2 & Hinv2 & _ & Hen2 & _).
  apply (stored_enabled _ _ _ Hr1) in Hen. specialize (Hen2 Hen).
  destruct (factory_ok X auths c e2 s2 Hr2 Hinv2 Hok) as (r & s3 & evs & H3).
  destruct (spec_requested _ _ _ _ _ _ _ _ Hin H3) as ((cfg & Hcfg & ?) & [Hw|[? _]]); [|done].
  split; [by apply (stored_approved _ _ _ _ Hr2)|].
  exists cfg. split; [by apply (factory_stored_config _ _ _ Hr2)|done].
Qed.

(** A registration is stable: through any history without a destruction of its
    slug a registered queue stays registered under the same contract, owner, name
    and date, and its version never goes down. *)
Theorem factory_record_stable e0 e1 e2 sl m :
  Rep e0 f_empty → rtc (factory_tx X any_call) e0 e1 →
  rtc (factory_tx X (λ c, destroyed c ≠ Some sl)) e1 e2 →
  data e1 (queue_registry_key sl) = Some (enc metadataC m) →
  ∃ m', data e2 (queue_registry_key sl) = Some (enc metadataC m') ∧
    slug m' = sl ∧ name m' = name m ∧ owner m' = owner m ∧ contract_id m' = contract_id m ∧
    deployed_at m' = deployed_at m ∧ version m <= version m'.
Proof.
  intros Hr0 H1 H2 Hm. destruct (factory_reachable X _ e0 e1 Hr0 H1) as (s1 & Hr1 & Hinv1).
  destruct (factory_slug_history X _ sl e1 e2 s1 (λ c Hc, Hc) H2 Hr1 Hinv1) as (s2 & Hr2 & Hinv2 & Ha).
  apply (stored_meta _ _ _ _ Hr1) in Hm. destruct (Ha m Hm) as (m' & Hm' & _ & ?).
  exists m'. split; [by apply (stored_meta _ _ _ _ Hr2)|]. split; [by apply (fi_slug _ Hinv2)|done].
Qed.

(** One queue per code: the factory deploys at an address derived from the
    code's hash alone, the salt being that hash, so after one deployment of some
    code no call of [deploy_queue] with the same code ever succeeds again on the
    same network, whatever slug, version or deployer it names, and even after the
    first queue was destroyed. *)
Theorem factory_one_queue_per_code e0 e auths deployer sl n v w id e1 e2 :
  Rep e0 f_empty → rtc (factory_tx X any_call) e0 e → env_live e →
  invoke X auths (exec (CDeployQueue deployer sl n v w)) e = (Ok (RAddress id), e1) →
  rtc (factory_tx X any_call) e1 e2 → network_id (h_ledger e2) = network_id (h_ledger e) →
  id = Contract (x_contract_id X (network_id (h_ledger e)) (Contract (h_contract e)) w) ∧
  ∀ auths' deployer' sl' n' v',
    is_ok (invoke X auths' (exec (CDeployQueue deployer' sl' n' v' w)) e2).1 = false.
Proof.
  intros Hr0 Htx Hl Hi H12 Hnet. destruct (factory_reachable X _ e0 e Hr0 Htx) as (s & Hr & Hinv).
  destruct (factory_committed X auths _ e s _ e1 Hr Hinv Hi) as (s1 & evs & Hs & Hr1 & Hinv1).
  destruct (factory_history X _ e1 e2 s1 H12 Hr1 Hinv1) as (s2 & Hr2 & Hinv2 & _).
  destruct (holds_instance_history X _ _ e1 e2 H12
    (deploy_leaves_instance X auths _ _ _ _ _ _ _ _ Hl Hi)) as [Hinst Hc2].
  split; [by eapply deploy_address|].
  intros auths' deployer' sl' n' v'. destruct (is_ok _) eqn:Hok; [|done].
  destruct (factory_ok X auths' _ e2 s2 Hr2 Hinv2 Hok) as (r & s3 & evs' & H3).
  assert (Hd : is_ok (deploy_result X (authorized auths' e2) w w) = false).
  { apply deploy_blocked. unfold deployed_id in *. cbn [authorized h_ledger h_contract].
    rewrite Hnet, Hc2, (invoke_contract X auths _ e _ e1 Hi). exact Hinst. }
  apply spec_deploy_call in H3 as (id' & _ & Hd'). cbn [fctx_of fc_deploy] in Hd'. by rewrite Hd' in Hd.
Qed.

(** Importing and destroying a queue are inverse: on a live ledger the
    administrator can register a slug that is free; the record is then stored, as
    active; and destroying it leaves every entry of the factory's data with the
    value it had before. *)
Theorem factory_register_destroy e0 e auths a sl id v c :
  Rep e0 f_empty → rtc (factory_tx X any_call) e0 e → env_live e →
  data e config_key = Some (enc configC c) → admin c = a → a ∈ auths →
  data e (queue_registry_key sl) = None →
  ∃ e1 e2, invoke X auths (exec (CRegisterQueue a sl id v)) e = (Ok RUnit, e1) ∧
    data e1 (queue_registry_key sl) =
      Some (enc metadataC (mkQueueMetadata sl "imported" a id v (timestamp (h_ledger e)) true)) ∧
    invoke X auths (exec (CDestroyQueue a sl)) e1 = (Ok RUnit, e2) ∧
    ∀ k, k ≠ ScLedgerKeyContractInstance → data e2 k = data e k.
Proof.
  intros Hr0 Htx Hl Hc Ha Hin Hn. destruct (factory_reachable X _ e0 e Hr0 Htx) as (s & Hr & Hinv).
  apply (factory_stored_config _ _ _ Hr) in Hc. rewrite (meta_data _ _ _ Hr) in Hn. apply fmap_None in Hn.
  set (m := mkQueueMetadata sl "imported" a id v (timestamp (h_ledger e)) true).
  destruct (invoke_live_ok X auths (exec (CRegisterQueue a sl id v)) e s RUnit (f_add_queue sl m s)
    [ev "Registered" sl id v]) as (e1 & Hi1 & Hr1 & Hl1 & (Hli & _) & _); [|done|done|].
  { pose proof (factory_sim_exec X (CRegisterQueue a sl id v) (authorized auths e) s Hr) as Hsim.
    cbn [spec_call fctx_of fc_ctx] in Hsim. by rewrite (spec_register_free _ _ _ _ _ _ c) in Hsim. }
  destruct (invoke_live_ok X auths (exec (CDestroyQueue a sl)) e1 (f_add_queue sl m s) RUnit s
    [ev "Destroyed" sl id v]) as (e2 & Hi2 & Hr2 & _); [|done|done|].
  { pose proof (factory_sim_exec X (CDestroyQueue a sl) (authorized auths e1) _ Hr1) as Hsim.
    cbn [spec_call fctx_of fc_ctx] in Hsim.
    rewrite (spec_destroy_stored _ _ _ m _ c), (f_remove_add sl m s) in Hsim
      by (try done; eauto; simpl; by rewrite lookup_insert_eq). done. }
  exists e1, e2. split_and!; [done| |done|].
  - apply (stored_meta _ _ _ _ Hr1). simpl. by rewrite lookup_insert_eq.
  - intros k Hk. destruct Hr as [_ Hv], Hr2 as [_ Hv2]. by rewrite Hv2, Hv.
Qed.
End theorems.

Lemma factory_call_correct_witness :
  let c := CInitialize alice in
  Rep fresh f_empty ∧
  call_outcome fresh f_empty (spec_call (fctx_of toy (authorized {[alice]} fresh)) c f_empty)
    (invoke toy {[alice]} (exec c) fresh).
Proof. split; [apply factory_demo_fresh|]. apply factory_call_correct. apply factory_demo_fresh. Defined.

Lemma factory_registry_consistent_witness :
  ∃ (slugs : list string) (queues : gmap string QueueMetadata),
    default [] (data demo_imported idx_key ≫= dec (vecC symbolC)) = slugs ∧
    (∀ sl, data demo_imported (queue_registry_key sl) = enc metadataC <$> queues !! sl) ∧
    NoDup slugs ∧ (∀ sl, sl ∈ slugs ↔ is_Some (queues !! sl)) ∧
    (∀ sl m, queues !! sl = Some m → slug m = sl) ∧
    ∀ auths r e', invoke toy auths (exec CQueueCount) demo_imported = (Ok r, e') →
      r = RU32 (Z.of_nat (size queues)).
Proof.
  apply (factory_registry_consistent toy fresh).
  - apply factory_demo_fresh.
  - etrans; [apply demo_configured_history|]. etrans; [apply demo_approved_history|].
    etrans; [apply demo_deployed_history|apply demo_imported_history].
Defined.

Lemma factory_admin_fixed_witness :
  (∃ c, data demo_imported config_key = Some (enc configC c) ∧ admin c = alice) ∧
  (∀ auths' b, is_ok (invoke toy auths' (exec (CInitialize b)) demo_imported).1 = false) ∧
  (∀ auths' c b, as_admin_call c = Some b → is_ok (invoke toy auths' (exec c) demo_imported).1 = true →
    b = alice ∧ alice ∈ auths').
Proof.
  apply (factory_admin_fixed toy fresh fresh {[alice]} alice demo_configured demo_imported).
  - apply factory_demo_fresh.
  - done.
  - apply outcome_fst. by vm_compute.
  - etrans; [apply demo_approved_history|].
    etrans; [apply demo_deployed_history|apply demo_imported_history].
Defined.

Lemma factory_approvals_enforced_witness :
  data demo_approved (approved_hash_key 1) = Some (enc bytesC demo_wasm) ∧
  ∃ cfg, data demo_approved config_key = Some (enc configC cfg) ∧ min_version cfg <= 1 <= max_version cfg.
Proof.
  apply (factory_approvals_enforced toy fresh demo_approved demo_approved {[bob]}
    (CDeployQueue bob "drop" "Drop" 1 demo_wasm)).
  - apply factory_demo_fresh.
  - etrans; [apply demo_configured_history|apply demo_approved_history].
  - done.
  - by vm_compute.
  - done.
  - by vm_compute.
Defined.

Lemma factory_record_stable_witness :
  ∃ m', data demo_imported (queue_registry_key "drop") = Some (enc metadataC m') ∧
    slug m' = "drop" ∧ name m' = "Drop" ∧ owner m' = bob ∧ contract_id m' = demo_id ∧
    deployed_at m' = 1000 ∧ 1 <= version m'.
Proof.
  apply (factory_record_stable toy fresh demo_deployed demo_imported "drop" demo_meta).
  - apply factory_demo_fresh.
  - etrans; [apply demo_configured_history|]. etrans; [apply demo_approved_history|].
    apply demo_deployed_history.
  - apply play_tx. by repeat constructor.
  - by vm_compute.
Defined.

(** Carol destroys nothing and still cannot deploy a second queue of the same code. *)
Lemma factory_one_queue_per_code_witness :
  demo_id = Contract (x_contract_id toy 7%N (Contract demo_self) demo_wasm) ∧
  ∀ auths' deployer' sl' n' v',
    is_ok (invoke toy auths' (exec (CDeployQueue deployer' sl' n' v' demo_wasm)) demo_imported).1 = false.
Proof.
  apply (factory_one_queue_per_code toy fresh demo_approved {[bob]} bob "drop" "Drop" 1 demo_wasm demo_id
    demo_deployed demo_imported).
  - apply factory_demo_fresh.
  - etrans; [apply demo_configured_history|apply demo_approved_history].
  - apply demo_approved_live.
  - unfold demo_deployed. apply outcome_fst. by vm_compute.
  - apply demo_imported_history.
  - by vm_compute.
Defined.

Lemma factory_register_destroy_witness :
  ∃ e1 e2, invoke toy {[alice]} (exec (CRegisterQueue alice "tour" (Contract 9%N) 1)) demo_approved = (Ok RUnit, e1) ∧
    data e1 (queue_registry_key "tour") =
      Some (enc metadataC (mkQueueMetadata "tour" "imported" alice (Contract 9%N) 1 1000 true)) ∧
    invoke toy {[alice]} (exec (CDestroyQueue alice "tour")) e1 = (Ok RUnit, e2) ∧
    ∀ k, k ≠ ScLedgerKeyContractInstance → data e2 k = data demo_approved k.
Proof.
  apply (factory_register_destroy toy fresh demo_approved {[alice]} alice "tour" (Contract 9%N) 1 demo_config).
  - apply factory_demo_fresh.
  - etrans; [apply demo_configured_history|apply demo_approved_history].
  - apply demo_approved_live.
  - by vm_compute.
  - done.
  - by apply elem_of_singleton.
  - by vm_compute.
Defined.
