(* ===== verification/Budget.v ===== *)
(** The budget: [budget.rs], [budget/model.rs], [budget/dimension.rs] and
    [budget/limits.rs].  Every piece of metered work charges a cost type, in two
    dimensions, CPU and memory; the amount is a linear function of the input, and
    a total over its limit is an error.  A [u64] is a [Z], its saturating
    operations written out.  An array with one element per cost type is a function
    of the cost type.  The [RefCell] around the budget, the timing of the reports
    and the parameters handed to the Wasm engine are left out. *)
From stdpp Require Import functions.
From S2P Require Import Prelude.
#[local] Open Scope m_scope.

(** * Cost types *)

Inductive ContractCostType :=
| WasmInsnExec | MemAlloc | MemCpy | MemCmp | DispatchHostFunction | VisitObject | ValSer
| ValDeser | ComputeSha256Hash | ComputeEd25519PubKey | VerifyEd25519Sig | VmInstantiation
| VmCachedInstantiation | InvokeVmFunction | ComputeKeccak256Hash | DecodeEcdsaCurve256Sig
| RecoverEcdsaSecp256k1Key | Int256AddSub | Int256Mul | Int256Div | Int256Pow | Int256Shift
| ChaCha20DrawBytes | ParseWasmInstructions | ParseWasmFunctions | ParseWasmGlobals
| ParseWasmTableEntries | ParseWasmTypes | ParseWasmDataSegments | ParseWasmElemSegments
| ParseWasmImports | ParseWasmExports | ParseWasmDataSegmentBytes | InstantiateWasmInstructions
| InstantiateWasmFunctions | InstantiateWasmGlobals | InstantiateWasmTableEntries
| InstantiateWasmTypes | InstantiateWasmDataSegments | InstantiateWasmElemSegments
| InstantiateWasmImports | InstantiateWasmExports | InstantiateWasmDataSegmentBytes
| Sec1DecodePointUncompressed | VerifyEcdsaSecp256r1Sig | Bls12381EncodeFp | Bls12381DecodeFp
| Bls12381G1CheckPointOnCurve | Bls12381G1CheckPointInSubgroup | Bls12381G2CheckPointOnCurve
| Bls12381G2CheckPointInSubgroup | Bls12381G1ProjectiveToAffine | Bls12381G2ProjectiveToAffine
| Bls12381G1Add | Bls12381G1Mul | Bls12381G1Msm | Bls12381MapFpToG1 | Bls12381HashToG1
| Bls12381G2Add | Bls12381G2Mul | Bls12381G2Msm | Bls12381MapFp2ToG2 | Bls12381HashToG2
| Bls12381Pairing | Bls12381FrFromU256 | Bls12381FrToU256 | Bls12381FrAddSub | Bls12381FrMul
| Bls12381FrPow | Bls12381FrInv.
#[export] Instance ContractCostType_eq_dec : EqDecision ContractCostType.
Proof. solve_decision. Defined.

(** [ContractCostType::variants]. *)
Definition variants : list ContractCostType :=
  [WasmInsnExec; MemAlloc; MemCpy; MemCmp; DispatchHostFunction; VisitObject; ValSer; ValDeser;
   ComputeSha256Hash; ComputeEd25519PubKey; VerifyEd25519Sig; VmInstantiation;
   VmCachedInstantiation; InvokeVmFunction; ComputeKeccak256Hash; DecodeEcdsaCurve256Sig;
   RecoverEcdsaSecp256k1Key; Int256AddSub; Int256Mul; Int256Div; Int256Pow; Int256Shift;
   ChaCha20DrawBytes; ParseWasmInstructions; ParseWasmFunctions; ParseWasmGlobals;
   ParseWasmTableEntries; ParseWasmTypes; ParseWasmDataSegments; ParseWasmElemSegments;
   ParseWasmImports; ParseWasmExports; ParseWasmDataSegmentBytes; InstantiateWasmInstructions;
   InstantiateWasmFunctions; InstantiateWasmGlobals; InstantiateWasmTableEntries;
   InstantiateWasmTypes; InstantiateWasmDataSegments; InstantiateWasmElemSegments;
   InstantiateWasmImports; InstantiateWasmExports; InstantiateWasmDataSegmentBytes;
   Sec1DecodePointUncompressed; VerifyEcdsaSecp256r1Sig; Bls12381EncodeFp; Bls12381DecodeFp;
   Bls12381G1CheckPointOnCurve; Bls12381G1CheckPointInSubgroup; Bls12381G2CheckPointOnCurve;
   Bls12381G2CheckPointInSubgroup; Bls12381G1ProjectiveToAffine; Bls12381G2ProjectiveToAffine;
   Bls12381G1Add; Bls12381G1Mul; Bls12381G1Msm; Bls12381MapFpToG1; Bls12381HashToG1;
   Bls12381G2Add; Bls12381G2Mul; Bls12381G2Msm; Bls12381MapFp2ToG2; Bls12381HashToG2;
   Bls12381Pairing; Bls12381FrFromU256; Bls12381FrToU256; Bls12381FrAddSub; Bls12381FrMul;
   Bls12381FrPow; Bls12381FrInv].

(** * Cost models *)

Definition COST_MODEL_LIN_TERM_SCALE_BITS : Z := 7.

(** [ScaledU64]: a [u64] scaled by [2 ^ 7]. *)
Definition from_unscaled_u64 (u : Z) : Z :=
  Z.shiftl u COST_MODEL_LIN_TERM_SCALE_BITS `mod` 2 ^ 64.
Definition unscale (s : Z) : Z := Z.shiftr s COST_MODEL_LIN_TERM_SCALE_BITS.
Definition safe_div (s rhs : Z) : Z := if decide (rhs = 0) then 0 else s `div` rhs.

Record MeteredCostComponent := mkCostModel { const_term : Z; lin_term : Z }.

Definition evaluate (m : MeteredCostComponent) (iterations : Z) (input : option Z) : Z :=
  let const_part := u64_saturating_mul (const_term m) iterations in
  match input with
  | Some input =>
      if bool_decide (lin_term m = 0) then const_part
      else u64_saturating_add const_part
             (unscale (u64_saturating_mul (u64_saturating_mul (lin_term m) input) iterations))
  | None => const_part
  end.

(** [TryFrom<&ContractCostParamEntry>]. *)
Definition cost_model_of_entry (entry : Z * Z) : Result MeteredCostComponent :=
  if bool_decide (entry.1 < 0 ∨ entry.2 < 0) then Err (EHost TContext InvalidInput)
  else Ok (mkCostModel entry.1 entry.2).

(** * Dimensions *)

Record BudgetDimension := mkDimension {
  cost_models : ContractCostType → MeteredCostComponent;
  limit : Z;
  total_count : Z;
  shadow_limit : Z;
  shadow_total_count : Z
}.

Definition empty_dimension : BudgetDimension := mkDimension (λ _, mkCostModel 0 0) 0 0 0 0.

Definition set_models f d :=
  mkDimension f (limit d) (total_count d) (shadow_limit d) (shadow_total_count d).
Definition set_shadow_limit n d :=
  mkDimension (cost_models d) (limit d) (total_count d) n (shadow_total_count d).

(** The loop over the parameters, together with the models they fill in order. *)
Fixpoint load_models (tys : list ContractCostType) (params : list (Z * Z))
    (d : BudgetDimension) : Result BudgetDimension :=
  match params with
  | [] => Ok d
  | cp :: params =>
      match tys with
      | [] => Err (EHost TBudget InternalError)
      | ty :: tys =>
          cm ← cost_model_of_entry cp;
          load_models tys params (set_models (<[ty := cm]> (cost_models d)) d)
      end
  end.

Definition dimension_try_from_config (cost_params : list (Z * Z)) (lim : Z) :
    Result BudgetDimension :=
  bd ← load_models variants cost_params empty_dimension;
  Ok (mkDimension (cost_models bd) lim (total_count bd) lim (shadow_total_count bd)).

Definition get_remaining (d : BudgetDimension) : Z := u64_saturating_sub (limit d) (total_count d).

Definition reset_count (d : BudgetDimension) : BudgetDimension :=
  mkDimension (cost_models d) (limit d) 0 (shadow_limit d) 0.
Definition reset_dimension (lim : Z) (d : BudgetDimension) : BudgetDimension :=
  reset_count (mkDimension (cost_models d) lim (total_count d) lim (shadow_total_count d)).

Definition check_budget_limit (is_shadow : bool) (d : BudgetDimension) : Result unit :=
  let over_limit :=
    if is_shadow then bool_decide (shadow_limit d < shadow_total_count d)
    else bool_decide (limit d < total_count d) in
  if over_limit then Err (EHost TBudget ExceededLimit) else Ok tt.

(** [BudgetDimension::charge]: the amount charged and the dimension after it. *)
Definition dimension_charge (ty : ContractCostType) (iterations : Z) (input : option Z)
    (is_shadow : bool) (d : BudgetDimension) : Z * BudgetDimension :=
  let amount := evaluate (cost_models d ty) iterations input in
  (amount,
   if is_shadow then
     mkDimension (cost_models d) (limit d) (total_count d) (shadow_limit d)
       (u64_saturating_add (shadow_total_count d) amount)
   else
     mkDimension (cost_models d) (limit d) (u64_saturating_add (total_count d) amount)
       (shadow_limit d) (shadow_total_count d)).

(** * The budget *)

Record CostTracker := mkTracker { iterations : Z; inputs : option Z; cpu : Z; mem : Z }.

Record BudgetTracker := mkBudgetTracker {
  cost_trackers : ContractCostType → CostTracker;
  meter_count : Z
}.

Record BudgetImpl := mkBudget {
  cpu_insns : BudgetDimension;
  mem_bytes : BudgetDimension;
  tracker : BudgetTracker;
  is_in_shadow_mode : bool;
  depth_limit : Z
}.

Definition set_cpu d b := mkBudget d (mem_bytes b) (tracker b) (is_in_shadow_mode b) (depth_limit b).
Definition set_mem d b := mkBudget (cpu_insns b) d (tracker b) (is_in_shadow_mode b) (depth_limit b).
Definition set_tracker t b :=
  mkBudget (cpu_insns b) (mem_bytes b) t (is_in_shadow_mode b) (depth_limit b).
Definition set_shadow_mode m b := mkBudget (cpu_insns b) (mem_bytes b) (tracker b) m (depth_limit b).
Definition set_depth n b :=
  mkBudget (cpu_insns b) (mem_bytes b) (tracker b) (is_in_shadow_mode b) n.
Definition set_cost_tracker ty t b :=
  set_tracker (mkBudgetTracker (<[ty := t]> (cost_trackers (tracker b))) (meter_count (tracker b))) b.

(** What reports are told of a charge before it is made. *)
Definition track_charge (ty : ContractCostType) (n : Z) (input : option Z) : M BudgetImpl unit := λ b,
  let t := cost_trackers (tracker b) ty in
  let t1 := mkTracker (u64_saturating_add (iterations t) n) (inputs t) (cpu t) (mem t) in
  let b1 := set_cost_tracker ty t1
    (set_tracker (mkBudgetTracker (cost_trackers (tracker b))
       (u32_saturating_add (meter_count (tracker b)) 1)) b) in
  match inputs t, input with
  | None, None => (Ok tt, b1)
  | Some x, Some i =>
      (Ok tt, set_cost_tracker ty
         (mkTracker (iterations t1) (Some (u64_saturating_add x (u64_saturating_mul i n)))
            (cpu t) (mem t)) b1)
  | _, _ => (Err (EHost TBudget InternalError), b1)
  end.

Definition charge_cpu (ty : ContractCostType) (n : Z) (input : option Z) : M BudgetImpl unit := λ b,
  let shadow := is_in_shadow_mode b in
  let '(charged, d) := dimension_charge ty n input shadow (cpu_insns b) in
  let t := cost_trackers (tracker b) ty in
  let b1 := set_cpu d b in
  let b2 := if shadow then b1
            else set_cost_tracker ty
                   (mkTracker (iterations t) (inputs t) (u64_saturating_add (cpu t) charged) (mem t)) b1 in
  (check_budget_limit shadow d, b2).

Definition charge_mem (ty : ContractCostType) (n : Z) (input : option Z) : M BudgetImpl unit := λ b,
  let shadow := is_in_shadow_mode b in
  let '(charged, d) := dimension_charge ty n input shadow (mem_bytes b) in
  let t := cost_trackers (tracker b) ty in
  let b1 := set_mem d b in
  let b2 := if shadow then b1
            else set_cost_tracker ty
                   (mkTracker (iterations t) (inputs t) (cpu t) (u64_saturating_add (mem t) charged)) b1 in
  (check_budget_limit shadow d, b2).

(** [BudgetImpl::charge], which [Budget::bulk_charge] passes on. *)
Definition bulk_charge (ty : ContractCostType) (n : Z) (input : option Z) : M BudgetImpl unit :=
  let* b := m_get in
  (if is_in_shadow_mode b then m_ret tt else track_charge ty n input) ;;;
  charge_cpu ty n input ;;;
  charge_mem ty n input.

(** [Budget::charge]. *)
Definition budget_charge (ty : ContractCostType) (input : option Z) : M BudgetImpl unit :=
  bulk_charge ty 1 input.

(** ** Depth *)

Definition DEFAULT_HOST_DEPTH_LIMIT : Z := 100.

Definition enter : M BudgetImpl unit := λ b,
  match u32_checked_sub (depth_limit b) 1 with
  | Some depth => (Ok tt, set_depth depth b)
  | None => (Err (EHost TContext ExceededLimit), b)
  end.

Definition leave : M BudgetImpl unit := λ b,
  match u32_checked_add (depth_limit b) 1 with
  | Some depth => (Ok tt, set_depth depth b)
  | None => (Err (EHost TContext InternalError), b)
  end.

(** [f]'s own error comes second to one of [leave]. *)
Definition with_limited_depth {A} (f : M BudgetImpl A) : M BudgetImpl A :=
  enter ;;;
  λ b, let '(res, b1) := f b in m_bind leave (λ _, m_lift res) b1.

(** ** Shadow mode *)

Definition check_shadow_limits : M BudgetImpl unit := λ b,
  (check_budget_limit true (cpu_insns b) ;; check_budget_limit true (mem_bytes b), b).

(** The closure's value and error are dropped. *)
Definition with_shadow_mode {A} (f : M BudgetImpl A) : M BudgetImpl unit := λ b,
  let prev := is_in_shadow_mode b in
  let '(r, b1) := check_shadow_limits (set_shadow_mode true b) in
  let b2 := if is_ok r then (f b1).2 else b1 in
  (Ok tt, set_shadow_mode prev b2).

Definition with_observable_shadow_mode {A} (f : M BudgetImpl A) : M BudgetImpl A := λ b,
  let prev := is_in_shadow_mode b in
  let '(rt, b2) := m_bind check_shadow_limits (λ _, f) (set_shadow_mode true b) in
  (rt, set_shadow_mode prev b2).

Definition set_shadow_limits (c m : Z) (b : BudgetImpl) : BudgetImpl :=
  set_mem (set_shadow_limit m (mem_bytes b)) (set_cpu (set_shadow_limit c (cpu_insns b)) b).
Definition ensure_shadow_cpu_limit_factor (factor : Z) (b : BudgetImpl) : BudgetImpl :=
  set_cpu (set_shadow_limit (u64_saturating_mul (limit (cpu_insns b)) factor) (cpu_insns b)) b.
Definition ensure_shadow_mem_limit_factor (factor : Z) (b : BudgetImpl) : BudgetImpl :=
  set_mem (set_shadow_limit (u64_saturating_mul (limit (mem_bytes b)) factor) (mem_bytes b)) b.

Definition get_cpu_insns_remaining (b : BudgetImpl) : Z := get_remaining (cpu_insns b).
Definition get_mem_bytes_remaining (b : BudgetImpl) : Z := get_remaining (mem_bytes b).

(** The remaining instructions as Wasm fuel. *)
Definition get_wasmi_fuel_remaining (b : BudgetImpl) : Z :=
  let cpu_per_fuel := Z.max (const_term (cost_models (cpu_insns b) WasmInsnExec)) 1 in
  get_remaining (cpu_insns b) `div` cpu_per_fuel.

(** ** Resets *)

Definition reset_tracker (b : BudgetImpl) : BudgetImpl :=
  set_tracker (mkBudgetTracker
    (λ ty, mkTracker 0 ((λ _, 0) <$> inputs (cost_trackers (tracker b) ty)) 0 0) 0) b.
Definition reset (b : BudgetImpl) : BudgetImpl :=
  reset_tracker (set_mem (reset_count (mem_bytes b)) (set_cpu (reset_count (cpu_insns b)) b)).
Definition reset_limits (c m : Z) (b : BudgetImpl) : BudgetImpl :=
  reset_tracker (set_mem (reset_dimension m (mem_bytes b)) (set_cpu (reset_dimension c (cpu_insns b)) b)).

(** * The default budget *)

(** Which cost types take an input: the initialization of the trackers. *)
Definition takes_input (ty : ContractCostType) : bool :=
  match ty with
  | MemAlloc | MemCpy | MemCmp | ValSer | ValDeser | ComputeSha256Hash | VerifyEd25519Sig
  | VmInstantiation | VmCachedInstantiation | ComputeKeccak256Hash | ChaCha20DrawBytes
  | ParseWasmInstructions | ParseWasmFunctions | ParseWasmGlobals | ParseWasmTableEntries
  | ParseWasmTypes | ParseWasmDataSegments | ParseWasmElemSegments | ParseWasmImports
  | ParseWasmExports | ParseWasmDataSegmentBytes | InstantiateWasmFunctions
  | InstantiateWasmGlobals | InstantiateWasmTableEntries | InstantiateWasmDataSegments
  | InstantiateWasmElemSegments | InstantiateWasmImports | InstantiateWasmExports
  | InstantiateWasmDataSegmentBytes | Bls12381G1Msm | Bls12381HashToG1 | Bls12381G2Msm
  | Bls12381HashToG2 | Bls12381Pairing | Bls12381FrPow => true
  | _ => false
  end.

Definition default_tracker : BudgetTracker :=
  mkBudgetTracker (λ ty, mkTracker 0 (if takes_input ty then Some 0 else None) 0 0) 0.

Definition budget_try_from_configs (cpu_limit mem_limit : Z)
    (cpu_cost_params mem_cost_params : list (Z * Z)) : Result BudgetImpl :=
  c ← dimension_try_from_config cpu_cost_params cpu_limit;
  m ← dimension_try_from_config mem_cost_params mem_limit;
  Ok (mkBudget c m default_tracker false DEFAULT_HOST_DEPTH_LIMIT).

Definition DEFAULT_CPU_INSN_LIMIT : Z := 100000000.
Definition DEFAULT_MEM_BYTES_LIMIT : Z := 40 * 1024 * 1024.

Definition default_cpu_model (ty : ContractCostType) : MeteredCostComponent :=
  match ty with
  | WasmInsnExec => mkCostModel 4 0
  | MemAlloc => mkCostModel 434 (safe_div (from_unscaled_u64 1) 8)
  | MemCpy => mkCostModel 42 (safe_div (from_unscaled_u64 1) 8)
  | MemCmp => mkCostModel 44 (safe_div (from_unscaled_u64 1) 8)
  | DispatchHostFunction => mkCostModel 310 0
  | VisitObject => mkCostModel 61 0
  | ValSer => mkCostModel 230 29
  | ValDeser => mkCostModel 59052 4001
  | ComputeSha256Hash => mkCostModel 3738 7012
  | ComputeEd25519PubKey => mkCostModel 40253 0
  | VerifyEd25519Sig => mkCostModel 377524 4068
  | VmInstantiation => mkCostModel 451626 45405
  | VmCachedInstantiation => mkCostModel 41142 634
  | InvokeVmFunction => mkCostModel 1948 0
  | ComputeKeccak256Hash => mkCostModel 3766 5969
  | DecodeEcdsaCurve256Sig => mkCostModel 710 0
  | RecoverEcdsaSecp256k1Key => mkCostModel 2315295 0
  | Int256AddSub => mkCostModel 4404 0
  | Int256Mul => mkCostModel 4947 0
  | Int256Div => mkCostModel 4911 0
  | Int256Pow => mkCostModel 4286 0
  | Int256Shift => mkCostModel 913 0
  | ChaCha20DrawBytes => mkCostModel 1058 501
  | ParseWasmInstructions => mkCostModel 73077 25410
  | ParseWasmFunctions => mkCostModel 0 540752
  | ParseWasmGlobals => mkCostModel 0 176363
  | ParseWasmTableEntries => mkCostModel 0 29989
  | ParseWasmTypes => mkCostModel 0 1061449
  | ParseWasmDataSegments => mkCostModel 0 237336
  | ParseWasmElemSegments => mkCostModel 0 328476
  | ParseWasmImports => mkCostModel 0 701845
  | ParseWasmExports => mkCostModel 0 429383
  | ParseWasmDataSegmentBytes => mkCostModel 0 28
  | InstantiateWasmInstructions => mkCostModel 43030 0
  | InstantiateWasmFunctions => mkCostModel 0 7556
  | InstantiateWasmGlobals => mkCostModel 0 10711
  | InstantiateWasmTableEntries => mkCostModel 0 3300
  | InstantiateWasmTypes => mkCostModel 0 0
  | InstantiateWasmDataSegments => mkCostModel 0 23038
  | InstantiateWasmElemSegments => mkCostModel 0 42488
  | InstantiateWasmImports => mkCostModel 0 828974
  | InstantiateWasmExports => mkCostModel 0 297100
  | InstantiateWasmDataSegmentBytes => mkCostModel 0 14
  | Sec1DecodePointUncompressed => mkCostModel 1882 0
  | VerifyEcdsaSecp256r1Sig => mkCostModel 3000906 0
  | Bls12381EncodeFp => mkCostModel 661 0
  | Bls12381DecodeFp => mkCostModel 985 0
  | Bls12381G1CheckPointOnCurve => mkCostModel 1934 0
  | Bls12381G1CheckPointInSubgroup => mkCostModel 730510 0
  | Bls12381G2CheckPointOnCurve => mkCostModel 5921 0
  | Bls12381G2CheckPointInSubgroup => mkCostModel 1057822 0
  | Bls12381G1ProjectiveToAffine => mkCostModel 92642 0
  | Bls12381G2ProjectiveToAffine => mkCostModel 100742 0
  | Bls12381G1Add => mkCostModel 7689 0
  | Bls12381G1Mul => mkCostModel 2458985 0
  | Bls12381G1Msm => mkCostModel 2426722 96397671
  | Bls12381MapFpToG1 => mkCostModel 1541554 0
  | Bls12381HashToG1 => mkCostModel 3211191 6713
  | Bls12381G2Add => mkCostModel 25207 0
  | Bls12381G2Mul => mkCostModel 7873219 0
  | Bls12381G2Msm => mkCostModel 8035968 309667335
  | Bls12381MapFp2ToG2 => mkCostModel 2420202 0
  | Bls12381HashToG2 => mkCostModel 7050564 6797
  | Bls12381Pairing => mkCostModel 10558948 632860943
  | Bls12381FrFromU256 => mkCostModel 1994 0
  | Bls12381FrToU256 => mkCostModel 1155 0
  | Bls12381FrAddSub => mkCostModel 74 0
  | Bls12381FrMul => mkCostModel 332 0
  | Bls12381FrPow => mkCostModel 691 74558
  | Bls12381FrInv => mkCostModel 35421 0
  end.

Definition default_mem_model (ty : ContractCostType) : MeteredCostComponent :=
  match ty with
  | WasmInsnExec => mkCostModel 0 0
  | MemAlloc => mkCostModel 16 (from_unscaled_u64 1)
  | MemCpy => mkCostModel 0 0
  | MemCmp => mkCostModel 0 0
  | DispatchHostFunction => mkCostModel 0 0
  | VisitObject => mkCostModel 0 0
  | ValSer => mkCostModel 242 (from_unscaled_u64 3)
  | ValDeser => mkCostModel 0 (from_unscaled_u64 3)
  | ComputeSha256Hash => mkCostModel 0 0
  | ComputeEd25519PubKey => mkCostModel 0 0
  | VerifyEd25519Sig => mkCostModel 0 0
  | VmInstantiation => mkCostModel 130065 5064
  | VmCachedInstantiation => mkCostModel 69472 1217
  | InvokeVmFunction => mkCostModel 14 0
  | ComputeKeccak256Hash => mkCostModel 0 0
  | DecodeEcdsaCurve256Sig => mkCostModel 0 0
  | RecoverEcdsaSecp256k1Key => mkCostModel 181 0
  | Int256AddSub => mkCostModel 99 0
  | Int256Mul => mkCostModel 99 0
  | Int256Div => mkCostModel 99 0
  | Int256Pow => mkCostModel 99 0
  | Int256Shift => mkCostModel 99 0
  | ChaCha20DrawBytes => mkCostModel 0 0
  | ParseWasmInstructions => mkCostModel 17564 6457
  | ParseWasmFunctions => mkCostModel 0 47464
  | ParseWasmGlobals => mkCostModel 0 13420
  | ParseWasmTableEntries => mkCostModel 0 6285
  | ParseWasmTypes => mkCostModel 0 64670
  | ParseWasmDataSegments => mkCostModel 0 29074
  | ParseWasmElemSegments => mkCostModel 0 48095
  | ParseWasmImports => mkCostModel 0 103229
  | ParseWasmExports => mkCostModel 0 36394
  | ParseWasmDataSegmentBytes => mkCostModel 0 257
  | InstantiateWasmInstructions => mkCostModel 70704 0
  | InstantiateWasmFunctions => mkCostModel 0 14613
  | InstantiateWasmGlobals => mkCostModel 0 6833
  | InstantiateWasmTableEntries => mkCostModel 0 1025
  | InstantiateWasmTypes => mkCostModel 0 0
  | InstantiateWasmDataSegments => mkCostModel 0 129632
  | InstantiateWasmElemSegments => mkCostModel 0 13665
  | InstantiateWasmImports => mkCostModel 0 97637
  | InstantiateWasmExports => mkCostModel 0 9176
  | InstantiateWasmDataSegmentBytes => mkCostModel 0 126
  | Sec1DecodePointUncompressed => mkCostModel 0 0
  | VerifyEcdsaSecp256r1Sig => mkCostModel 0 0
  | Bls12381EncodeFp => mkCostModel 0 0
  | Bls12381DecodeFp => mkCostModel 0 0
  | Bls12381G1CheckPointOnCurve => mkCostModel 0 0
  | Bls12381G1CheckPointInSubgroup => mkCostModel 0 0
  | Bls12381G2CheckPointOnCurve => mkCostModel 0 0
  | Bls12381G2CheckPointInSubgroup => mkCostModel 0 0
  | Bls12381G1ProjectiveToAffine => mkCostModel 0 0
  | Bls12381G2ProjectiveToAffine => mkCostModel 0 0
  | Bls12381G1Add => mkCostModel 0 0
  | Bls12381G1Mul => mkCostModel 0 0
  | Bls12381G1Msm => mkCostModel 109494 354667
  | Bls12381MapFpToG1 => mkCostModel 5552 0
  | Bls12381HashToG1 => mkCostModel 9424 0
  | Bls12381G2Add => mkCostModel 0 0
  | Bls12381G2Mul => mkCostModel 0 0
  | Bls12381G2Msm => mkCostModel 219654 354667
  | Bls12381MapFp2ToG2 => mkCostModel 3344 0
  | Bls12381HashToG2 => mkCostModel 6816 0
  | Bls12381Pairing => mkCostModel 2204 9340474
  | Bls12381FrFromU256 => mkCostModel 0 0
  | Bls12381FrToU256 => mkCostModel 248 0
  | Bls12381FrAddSub => mkCostModel 0 0
  | Bls12381FrMul => mkCostModel 0 0
  | Bls12381FrPow => mkCostModel 0 128
  | Bls12381FrInv => mkCostModel 0 0
  end.

Definition default_budget : BudgetImpl :=
  mkBudget
    (reset_dimension DEFAULT_CPU_INSN_LIMIT (set_models default_cpu_model empty_dimension))
    (reset_dimension DEFAULT_MEM_BYTES_LIMIT (set_models default_mem_model empty_dimension))
    default_tracker false DEFAULT_HOST_DEPTH_LIMIT.

(** The examples of the source's test of the cost model. *)
Example evaluate_demo :
  (λ m, (evaluate m 1 (Some 1), evaluate m 1 (Some 26), evaluate m 26 (Some 1))) (mkCostModel 3 5)
  = (3, 4, 79).
Proof. reflexivity. Qed.

(** * What code metered by a budget may rely on

    [AsBudget]: a context that can be charged.  [I] is an invariant the code keeps,
    [E] the errors a charge with an input may end with. *)
Class AsBudget (B : Type) := charge : ContractCostType → option Z → M B unit.
#[export] Instance BudgetImpl_as_budget : AsBudget BudgetImpl := budget_charge.
