(* ===== verification/BudgetThms.v ===== *)
(** What the budget guarantees: limits are enforced exactly, a budget that ran out
    stays so, shadow mode is invisible, batches are never undercharged, and
    recursion is bounded by the depth limit. *)
From stdpp Require Import functions.
From S2P Require Import Prelude Budget.
#[local] Open Scope m_scope.

Lemma u64_saturating_add_nonneg a b :
  0 <= a → 0 <= b → u64_saturating_add a b = Z.min u64_max (a + b).
Proof. unfold u64_saturating_add, clamp, u64_max. lia. Qed.

Lemma u64_saturating_mul_nonneg a b :
  0 <= a → 0 <= b → u64_saturating_mul a b = Z.min u64_max (a * b).
Proof. intros. unfold u64_saturating_mul, clamp. assert (0 <= a * b) by nia. unfold u64_max. lia. Qed.

(** * Well-formed budgets *)

Definition model_wf (m : MeteredCostComponent) : Prop := 0 <= const_term m ∧ 0 <= lin_term m.

Record dimension_wf (d : BudgetDimension) : Prop := {
  dw_models : ∀ ty, model_wf (cost_models d ty);
  dw_limit : in_u64 (limit d);
  dw_total : in_u64 (total_count d);
  dw_shadow : in_u64 (shadow_total_count d)
}.

(** A charge's input fits its cost type: what callers must ensure. *)
Definition input_fits (ty : ContractCostType) (input : option Z) : Prop :=
  match input with Some x => takes_input ty = true ∧ 0 <= x | None => takes_input ty = false end.

(** Trackers that take inputs where their cost types do. *)
Definition inputs_wf (f : ContractCostType → CostTracker) : Prop :=
  ∀ ty, is_Some (inputs (f ty)) ↔ takes_input ty = true.

Record budget_wf (b : BudgetImpl) : Prop := {
  bw_cpu : dimension_wf (cpu_insns b);
  bw_mem : dimension_wf (mem_bytes b);
  bw_inputs : inputs_wf (cost_trackers (tracker b))
}.

Lemma evaluate_nonneg m n input :
  model_wf m → 0 <= n → (∀ x, input = Some x → 0 <= x) → 0 <= evaluate m n input <= u64_max.
Proof.
  intros [Hc Hl] Hn Hx. unfold evaluate.
  assert (0 <= u64_saturating_mul (const_term m) n <= u64_max) as Hb by (apply clamp_bounds; done).
  destruct input as [x|]; [|done]. case_bool_decide; [done|]. by apply clamp_bounds.
Qed.

Lemma default_budget_wf : budget_wf default_budget.
Proof.
  split; [split..|]; simpl; try done.
  - by intros [].
  - by intros [].
  - intros ty. destruct (takes_input ty); split; eauto; [by intros []|done].
Qed.

(** * One charge *)

Definition over (d : BudgetDimension) : Prop := limit d < total_count d.
Definition exhausted (b : BudgetImpl) : Prop := over (cpu_insns b) ∨ over (mem_bytes b).

(** [d'] is [d] with [n] more charged. *)
Definition charged (n : Z) (d d' : BudgetDimension) : Prop :=
  cost_models d' = cost_models d ∧ limit d' = limit d ∧ shadow_limit d' = shadow_limit d ∧
  shadow_total_count d' = shadow_total_count d ∧
  total_count d' = Z.min u64_max (total_count d + n).

Lemma charged_wf n d d' : 0 <= n → charged n d d' → dimension_wf d → dimension_wf d'.
Proof.
  intros Hn (Hm & Hl & _ & Hst & Ht) [H1 H2 H3 H4].
  split; rewrite ?Hm, ?Hl, ?Hst, ?Ht; try done. unfold in_u64 in *. lia.
Qed.

Lemma charged_trans n m d1 d2 d3 :
  0 <= n → 0 <= m → charged n d1 d2 → charged m d2 d3 → charged (n + m) d1 d3.
Proof.
  intros Hn Hm (?&?&?&?&H12) (?&?&?&?&H23). split_and!; try congruence. rewrite H23, H12. lia.
Qed.

Lemma charged_zero d : dimension_wf d → charged 0 d d.
Proof. intros [_ _ Ht _]. unfold in_u64 in Ht. split_and!; try done. lia. Qed.

Definition same_settings (b b' : BudgetImpl) : Prop :=
  is_in_shadow_mode b' = is_in_shadow_mode b ∧ depth_limit b' = depth_limit b.

Lemma dimension_charged ty n input d :
  dimension_wf d → 0 <= n → (∀ x, input = Some x → 0 <= x) →
  charged (evaluate (cost_models d ty) n input) d (dimension_charge ty n input false d).2.
Proof.
  intros [Hm Hl Ht _] Hn Hx. pose proof (evaluate_nonneg (cost_models d ty) n input (Hm ty) Hn Hx).
  unfold in_u64 in Ht. split_and!; try done. simpl. apply u64_saturating_add_nonneg; lia.
Qed.

Lemma input_fits_nonneg ty input x : input_fits ty input → input = Some x → 0 <= x.
Proof. by intros Hf ->; destruct Hf. Qed.

Definition EXCEEDED : Error := EHost TBudget ExceededLimit.

Lemma inputs_wf_insert f ty t :
  inputs_wf f → (is_Some (inputs t) ↔ takes_input ty = true) → inputs_wf (<[ty := t]> f).
Proof.
  intros Hf Ht ty'. destruct (decide (ty = ty')) as [<-|];
    [by rewrite fn_lookup_insert|by rewrite fn_lookup_insert_ne].
Qed.

Lemma budget_wf_trackers b f m :
  budget_wf b → inputs_wf f → budget_wf (set_tracker (mkBudgetTracker f m) b).
Proof. by intros [??] ?. Qed.

Lemma track_charge_ok ty n input b :
  budget_wf b → input_fits ty input →
  ∃ t, track_charge ty n input b = (Ok tt, set_tracker t b) ∧ budget_wf (set_tracker t b).
Proof.
  intros Hb Hf. pose proof (bw_inputs _ Hb) as Hin. unfold track_charge.
  destruct (inputs (cost_trackers (tracker b) ty)) as [x|] eqn:Hx, input as [i|]; simpl in Hf.
  - eexists. split; [reflexivity|]. apply budget_wf_trackers; [done|]. simpl.
    repeat apply inputs_wf_insert; [done|by rewrite <-(Hin ty), Hx|simpl; naive_solver].
  - exfalso. destruct (Hin ty) as [H1 _]. rewrite Hx in H1. rewrite H1 in Hf; eauto. done.
  - exfalso. destruct (Hin ty) as [_ H2], Hf as [Hf _]. specialize (H2 Hf). rewrite Hx in H2.
    by destruct H2.
  - eexists. split; [reflexivity|]. apply budget_wf_trackers; [done|]. simpl.
    apply inputs_wf_insert; [done|]. simpl. by rewrite <-(Hin ty), Hx.
Qed.

(** One dimension of a charge: what it does to the budget and when it fails. *)
Lemma check_budget_limit_over d :
  check_budget_limit false d = if bool_decide (over d) then Err EXCEEDED else Ok tt.
Proof. unfold check_budget_limit, over. by case_bool_decide. Qed.

Lemma charge_cpu_ok ty n input b :
  budget_wf b → is_in_shadow_mode b = false → 0 <= n → (∀ x, input = Some x → 0 <= x) →
  let '(r, b') := charge_cpu ty n input b in
  charged (evaluate (cost_models (cpu_insns b) ty) n input) (cpu_insns b) (cpu_insns b') ∧
  mem_bytes b' = mem_bytes b ∧ same_settings b b' ∧ budget_wf b' ∧
  r = if bool_decide (over (cpu_insns b')) then Err EXCEEDED else Ok tt.
Proof.
  intros [Hc Hm Hi] Hs Hn Hx. unfold charge_cpu. rewrite Hs.
  pose proof (dimension_charged ty n input (cpu_insns b) Hc Hn Hx) as Hd.
  destruct (dimension_charge ty n input false (cpu_insns b)) as [a d] eqn:Hch. simpl in Hd.
  split_and!; [done|done|done| |apply check_budget_limit_over].
  split; simpl; [|done|apply inputs_wf_insert; [done|apply (Hi ty)]].
  eapply charged_wf; [|exact Hd|done]. apply evaluate_nonneg; [apply Hc|done|done].
Qed.

Lemma charge_mem_ok ty n input b :
  budget_wf b → is_in_shadow_mode b = false → 0 <= n → (∀ x, input = Some x → 0 <= x) →
  let '(r, b') := charge_mem ty n input b in
  charged (evaluate (cost_models (mem_bytes b) ty) n input) (mem_bytes b) (mem_bytes b') ∧
  cpu_insns b' = cpu_insns b ∧ same_settings b b' ∧ budget_wf b' ∧
  r = if bool_decide (over (mem_bytes b')) then Err EXCEEDED else Ok tt.
Proof.
  intros [Hc Hm Hi] Hs Hn Hx. unfold charge_mem. rewrite Hs.
  pose proof (dimension_charged ty n input (mem_bytes b) Hm Hn Hx) as Hd.
  destruct (dimension_charge ty n input false (mem_bytes b)) as [a d] eqn:Hch. simpl in Hd.
  split_and!; [done|done|done| |apply check_budget_limit_over].
  split; simpl; [done| |apply inputs_wf_insert; [done|apply (Hi ty)]].
  eapply charged_wf; [|exact Hd|done]. apply evaluate_nonneg; [apply Hm|done|done].
Qed.

Definition cpu_cost (b : BudgetImpl) (c : ContractCostType * Z * option Z) : Z :=
  evaluate (cost_models (cpu_insns b) c.1.1) c.1.2 c.2.
Definition mem_cost (b : BudgetImpl) (c : ContractCostType * Z * option Z) : Z :=
  evaluate (cost_models (mem_bytes b) c.1.1) c.1.2 c.2.
Definition charge_fits (c : ContractCostType * Z * option Z) : Prop :=
  0 <= c.1.2 ∧ input_fits c.1.1 c.2.

(** A whole charge.  An error means a dimension is exhausted; if it is the CPU,
    the memory was not charged. *)
Lemma bulk_charge_ok c b :
  budget_wf b → is_in_shadow_mode b = false → charge_fits c →
  let '(r, b') := bulk_charge c.1.1 c.1.2 c.2 b in
  budget_wf b' ∧ same_settings b b' ∧
  charged (cpu_cost b c) (cpu_insns b) (cpu_insns b') ∧
  (charged (mem_cost b c) (mem_bytes b) (mem_bytes b') ∨
   over (cpu_insns b') ∧ mem_bytes b' = mem_bytes b) ∧
  r = if bool_decide (exhausted b') then Err EXCEEDED else Ok tt.
Proof.
  destruct c as [[ty n] input]. intros Hb Hs [Hn Hf]. simpl in *.
  assert (∀ x, input = Some x → 0 <= x) as Hx by (intros; by eapply input_fits_nonneg).
  unfold bulk_charge, m_bind at 1, m_get. rewrite Hs.
  destruct (track_charge_ok ty n input b Hb Hf) as (t & Ht & Hb1).
  unfold m_bind at 1. rewrite Ht. unfold m_bind.
  pose proof (charge_cpu_ok ty n input _ Hb1 Hs Hn Hx) as Hc.
  destruct (charge_cpu ty n input (set_tracker t b)) as [r1 b1].
  destruct Hc as (Hd1 & Hm1 & Hs1 & Hb2 & ->).
  change (mem_bytes (set_tracker t b)) with (mem_bytes b) in Hm1.
  case_bool_decide as Ho1.
  - split_and!; [done|done|done|by right|]. rewrite bool_decide_true; [done|by left].
  - destruct Hs1 as [Hs1 Hdep1]. pose proof (charge_mem_ok ty n input b1 Hb2) as Hm.
    destruct (charge_mem ty n input b1) as [r2 b2].
    destruct Hm as (Hd2 & Hc2 & [Hs2 Hdep2] & Hb3 & ->); [by rewrite Hs1|done|done|].
    rewrite Hm1 in Hd2. split_and!; [done|split; [by rewrite Hs2|by rewrite Hdep2]|by rewrite Hc2|by left|].
    unfold exhausted. rewrite Hc2. destruct (decide (over (mem_bytes b2))).
    + rewrite !bool_decide_true; [done|by right|done].
    + rewrite !bool_decide_false; [done| |done]. by intros [].
Qed.

(** * A sequence of charges *)

Fixpoint charge_all (cs : list (ContractCostType * Z * option Z)) : M BudgetImpl unit :=
  match cs with
  | [] => m_ret tt
  | c :: cs => bulk_charge c.1.1 c.1.2 c.2 ;;; charge_all cs
  end.

Definition total_of (cost : ContractCostType * Z * option Z → Z)
    (cs : list (ContractCostType * Z * option Z)) : Z := foldr (λ c n, cost c + n) 0 cs.

Lemma exhausted_charged_mono n d d' : 0 <= n → dimension_wf d → charged n d d' → over d → over d'.
Proof.
  intros Hn [_ _ Ht _] (_ & Hl & _ & _ & Htot) Ho. unfold over, in_u64 in *. rewrite Hl, Htot. lia.
Qed.

Lemma cost_nonneg (d : BudgetDimension) c :
  dimension_wf d → charge_fits c → 0 <= evaluate (cost_models d c.1.1) c.1.2 c.2.
Proof.
  intros Hd [Hn Hf]. apply evaluate_nonneg; [apply Hd|done|].
  intros x Hx. by eapply input_fits_nonneg.
Qed.

(** An exhausted budget refuses every further charge. *)
Lemma exhausted_stays c b :
  budget_wf b → is_in_shadow_mode b = false → charge_fits c → exhausted b →
  (bulk_charge c.1.1 c.1.2 c.2 b).1 = Err EXCEEDED ∧
  exhausted (bulk_charge c.1.1 c.1.2 c.2 b).2.
Proof.
  intros Hb Hs Hf He. pose proof (bulk_charge_ok c b Hb Hs Hf) as Hc.
  destruct (bulk_charge c.1.1 c.1.2 c.2 b) as [r b']. destruct Hc as (_ & _ & Hcpu & Hmem & ->).
  assert (exhausted b') as He'; [|by rewrite bool_decide_true].
  destruct He as [He|He].
  - left. eapply exhausted_charged_mono; [|apply (bw_cpu _ Hb)|exact Hcpu|done]. apply cost_nonneg; [apply (bw_cpu _ Hb)|done].
  - destruct Hmem as [Hmem|[? _]]; [|by left]. right.
    eapply exhausted_charged_mono; [|apply (bw_mem _ Hb)|exact Hmem|done]. apply cost_nonneg; [apply (bw_mem _ Hb)|done].
Qed.

Lemma total_of_ext f g cs : (∀ c, f c = g c) → total_of f cs = total_of g cs.
Proof. intros Hfg. induction cs as [|c cs IH]; simpl; [done|]. by rewrite Hfg, IH. Qed.

Lemma total_of_nonneg f cs : (∀ c, c ∈ cs → 0 <= f c) → 0 <= total_of f cs.
Proof.
  induction cs as [|c cs IH]; intros Hf; simpl; [done|].
  pose proof (Hf c (list_elem_of_here _ _)). assert (0 <= total_of f cs); [|lia].
  apply IH. intros x Hx. apply Hf. by right.
Qed.

(** What a sequence does: it goes through and is charged in full, or it ends with
    an exhausted budget. *)
Lemma charge_all_ok cs b :
  budget_wf b → is_in_shadow_mode b = false → Forall charge_fits cs → ¬ exhausted b →
  let '(r, b') := charge_all cs b in
  budget_wf b' ∧ same_settings b b' ∧
  r = (if bool_decide (exhausted b') then Err EXCEEDED else Ok tt) ∧
  (exhausted b' ↔
     limit (cpu_insns b) < Z.min u64_max (total_count (cpu_insns b) + total_of (cpu_cost b) cs) ∨
     limit (mem_bytes b) < Z.min u64_max (total_count (mem_bytes b) + total_of (mem_cost b) cs)) ∧
  (¬ exhausted b' →
     charged (total_of (cpu_cost b) cs) (cpu_insns b) (cpu_insns b') ∧
     charged (total_of (mem_cost b) cs) (mem_bytes b) (mem_bytes b')).
Proof.
  intros Hb Hs Hall. revert b Hb Hs.
  induction Hall as [|c cs Hc Hall IH]; intros b Hb Hs Hne; simpl.
  - split_and!; [done|done|by rewrite bool_decide_false| |by split; apply charged_zero; apply Hb].
    pose proof (dw_total _ (bw_cpu _ Hb)). pose proof (dw_total _ (bw_mem _ Hb)).
    unfold exhausted, over, in_u64 in *. rewrite !Z.min_r by lia. rewrite !Z.add_0_r. done.
  - unfold m_bind. pose proof (bulk_charge_ok c b Hb Hs Hc) as H1.
    destruct (bulk_charge c.1.1 c.1.2 c.2 b) as [r1 b1].
    destruct H1 as (Hb1 & [Hs1 Hd1] & Hcpu & Hmem & ->).
    assert (∀ c', c' ∈ cs → charge_fits c') as Hcs by (by rewrite <-Forall_forall).
    assert (0 <= total_of (cpu_cost b) cs) as Ht1
      by (apply total_of_nonneg; intros; apply cost_nonneg; [apply (bw_cpu _ Hb)|by apply Hcs]).
    assert (0 <= total_of (mem_cost b) cs) as Ht2
      by (apply total_of_nonneg; intros; apply cost_nonneg; [apply (bw_mem _ Hb)|by apply Hcs]).
    pose proof (cost_nonneg _ c (bw_cpu _ Hb) Hc) as Hc1. pose proof (cost_nonneg _ c (bw_mem _ Hb) Hc) as Hc2.
    fold (cpu_cost b c) in Hc1. fold (mem_cost b c) in Hc2.
    case_bool_decide as He1.
    + split_and!; [done|done|by rewrite bool_decide_true| |done]. split; [|done]. intros _.
      destruct Hcpu as (_ & Hl1 & _ & _ & Htot1). unfold exhausted, over in He1.
      destruct He1 as [He1|He1]; [left; lia|].
      destruct Hmem as [(_ & Hl2 & _ & _ & Htot2)|[Ho _]]; [right; lia|left; unfold over in Ho; lia].
    + destruct Hmem as [Hmem|[Ho _]]; [|by destruct He1; left].
      specialize (IH b1 Hb1 (eq_trans Hs1 Hs) He1).
      destruct (charge_all cs b1) as [r b']. destruct IH as (Hb' & [Hs' Hd'] & -> & Hiff & Hin).
      assert (total_of (cpu_cost b1) cs = total_of (cpu_cost b) cs) as Eq1
        by (apply total_of_ext; intros; unfold cpu_cost; by destruct Hcpu as (-> & _)).
      assert (total_of (mem_cost b1) cs = total_of (mem_cost b) cs) as Eq2
        by (apply total_of_ext; intros; unfold mem_cost; by destruct Hmem as (-> & _)).
      rewrite Eq1, Eq2 in *. split_and!; [done|split; congruence|done| |].
      * rewrite Hiff. destruct Hcpu as (_ & -> & _ & _ & ->), Hmem as (_ & -> & _ & _ & ->). lia.
      * intros Hne'. destruct (Hin Hne'). split; by eapply charged_trans.
Qed.

(** * Shadow mode *)

(** What fees and the outcome of an invocation depend on. *)
Definition visible (b : BudgetImpl) :=
  (limit (cpu_insns b), total_count (cpu_insns b), limit (mem_bytes b), total_count (mem_bytes b),
   tracker b, depth_limit b).

(** Code that stays in shadow mode and leaves the visible part alone. *)
Definition quiet {A} (f : M BudgetImpl A) : Prop :=
  ∀ b, is_in_shadow_mode b = true → is_in_shadow_mode (f b).2 = true ∧ visible (f b).2 = visible b.

Lemma quiet_ret {A} (a : A) : quiet (m_ret a).
Proof. by intros b. Qed.
Lemma quiet_bind {A B} (p : M BudgetImpl A) (f : A → M BudgetImpl B) :
  quiet p → (∀ a, quiet (f a)) → quiet (m_bind p f).
Proof.
  intros Hp Hf b Hb. destruct (Hp b Hb) as [Hb' Hv]. unfold m_bind.
  destruct (p b) as [[a|x] b']; simpl in *; [|done].
  destruct (Hf a b' Hb') as [? Hv']. by rewrite <-Hv.
Qed.

Lemma quiet_bulk_charge ty n input : quiet (bulk_charge ty n input).
Proof.
  intros b Hb. unfold bulk_charge, m_bind at 1, m_get. rewrite Hb.
  unfold m_bind, m_ret, charge_cpu, charge_mem. rewrite Hb. simpl. rewrite Hb.
  by destruct (check_budget_limit _ _); simpl; rewrite ?Hb.
Qed.

Lemma quiet_charge_all cs : quiet (charge_all cs).
Proof.
  induction cs as [|c cs IH]; simpl; [apply quiet_ret|].
  apply quiet_bind; [apply quiet_bulk_charge|done].
Qed.

Lemma with_shadow_mode_keeps {A} (f : M BudgetImpl A) b :
  quiet f →
  is_in_shadow_mode (with_shadow_mode f b).2 = is_in_shadow_mode b ∧
  visible (with_shadow_mode f b).2 = visible b.
Proof.
  intros Hf. unfold with_shadow_mode. destruct (check_shadow_limits (set_shadow_mode true b)) as [r b1] eqn:Hc.
  unfold check_shadow_limits in Hc. simplify_eq. split; [done|].
  destruct (is_ok _); [|done]. destruct (Hf (set_shadow_mode true b) eq_refl) as [_ Hv].
  cbn [snd]. change (visible (set_shadow_mode (is_in_shadow_mode b) (f (set_shadow_mode true b)).2) = visible b).
  rewrite <-(Hv : _ = visible b). done.
Qed.

Lemma quiet_with_shadow_mode {A} (f : M BudgetImpl A) : quiet f → quiet (with_shadow_mode f).
Proof. intros Hf b Hb. rewrite <-Hb. by apply with_shadow_mode_keeps. Qed.

(** * Depth *)

(** [f] inside [k] levels of recursion. *)
Fixpoint nested {A} (k : nat) (f : M BudgetImpl A) : M BudgetImpl A :=
  match k with O => f | S k => with_limited_depth (nested k f) end.

Lemma set_depth_id b : set_depth (depth_limit b) b = b.
Proof. by destruct b. Qed.

Lemma nested_ret {A} (a : A) k b :
  in_u32 (depth_limit b) →
  nested k (m_ret a) b =
    (if decide (Z.of_nat k <= depth_limit b) then Ok a else Err (EHost TContext ExceededLimit), b).
Proof.
  revert b. induction k as [|k IH]; intros b Hd; unfold in_u32 in Hd; simpl.
  - rewrite decide_True by lia. done.
  - unfold with_limited_depth, m_bind at 1, enter, u32_checked_sub.
    destruct (decide (1 <= depth_limit b)).
    + rewrite IH by (unfold in_u32; simpl; lia). simpl. unfold m_bind, leave, u32_checked_add. simpl.
      rewrite decide_True by lia. unfold m_lift.
      replace (set_depth (depth_limit b - 1 + 1) (set_depth (depth_limit b - 1) b)) with b
        by (destruct b; unfold set_depth; simpl; f_equal; lia). f_equal.
      destruct (decide (Z.of_nat k <= depth_limit b - 1));
        [rewrite decide_True by lia|rewrite decide_False by lia]; done.
    + rewrite decide_False by lia. done.
Qed.

(** * The interface to metered code *)

(** [I] is an invariant of the context, [E] collects the errors of metering. *)
Class Metered (B : Type) `{AsBudget B} (I : B → Prop) (E : Error → Prop) : Prop :=
  charge_returns ty x : takes_input ty = true → 0 <= x → returns I (charge ty (Some x)) (λ _, True) E.

Lemma shadow_dimension_wf ty n input d :
  dimension_wf d → dimension_wf (dimension_charge ty n input true d).2.
Proof. intros [H1 H2 H3 H4]. split; simpl; try done. by apply clamp_bounds. Qed.

Lemma shadow_check d :
  check_budget_limit true d = Ok tt ∨ check_budget_limit true d = Err EXCEEDED.
Proof. unfold check_budget_limit. case_bool_decide; auto. Qed.

Definition charge_outcome (out : Result unit * BudgetImpl) : Prop :=
  budget_wf out.2 ∧ (out.1 = Ok tt ∨ out.1 = Err EXCEEDED).

Lemma shadow_charge_mem ty n input b :
  budget_wf b → is_in_shadow_mode b = true → charge_outcome (charge_mem ty n input b).
Proof.
  intros [Hc Hm Hi] Hs. unfold charge_mem. rewrite Hs.
  pose proof (shadow_dimension_wf ty n input _ Hm) as Hm'.
  destruct (dimension_charge ty n input true (mem_bytes b)) as [a d].
  split; [by split|apply shadow_check].
Qed.

Lemma shadow_charge_wf ty n input b :
  budget_wf b → is_in_shadow_mode b = true → charge_outcome (bulk_charge ty n input b).
Proof.
  intros [Hc Hm Hi] Hs. unfold bulk_charge, m_bind at 1, m_get. rewrite Hs.
  unfold m_bind at 1, m_ret. unfold m_bind, charge_cpu. rewrite Hs.
  pose proof (shadow_dimension_wf ty n input _ Hc) as Hc'.
  destruct (dimension_charge ty n input true (cpu_insns b)) as [a d]. simpl in Hc'.
  destruct (shadow_check d) as [-> | ->]; [|by split; [split|right]].
  by apply shadow_charge_mem.
Qed.

#[export] Instance BudgetImpl_metered : Metered BudgetImpl budget_wf (λ e, e = EXCEEDED).
Proof.
  intros ty x Hty Hx b Hb. unfold charge, BudgetImpl_as_budget, budget_charge.
  destruct (is_in_shadow_mode b) eqn:Hs.
  - destruct (shadow_charge_wf ty 1 (Some x) b Hb Hs) as [? Hr]. split; [done|].
    by destruct (bulk_charge ty 1 (Some x) b).1; destruct Hr; simplify_eq.
  - pose proof (bulk_charge_ok (ty, 1, Some x) b Hb Hs) as Hc. simpl in Hc.
    destruct (bulk_charge ty 1 (Some x) b) as [r b']. destruct Hc as (? & _ & _ & _ & ->);
      [by split; [|split]|]. split; [done|]. simpl. by case_bool_decide.
Qed.

Lemma reset_limits_wf c m b : in_u64 c → in_u64 m → budget_wf b → budget_wf (reset_limits c m b).
Proof.
  intros Hc Hm [[H1 _ _ H1'] [H2 _ _ H2'] H3]. split; [by split|by split|]. intros ty. rewrite <-(H3 ty). simpl.
  by rewrite fmap_is_Some.
Qed.

(** A budget whose limits are the largest [u64]s never refuses a charge. *)
Definition unlimited (b : BudgetImpl) : Prop :=
  budget_wf b ∧ is_in_shadow_mode b = false ∧
  limit (cpu_insns b) = u64_max ∧ limit (mem_bytes b) = u64_max.

(** Charging does not touch the depth either. *)
Lemma unlimited_metered_at d :
  Metered BudgetImpl (λ b, unlimited b ∧ depth_limit b = d) (λ _, False).
Proof.
  intros ty x Hty Hx b [(Hb & Hs & Hc & Hm) Hd]. unfold charge, BudgetImpl_as_budget, budget_charge.
  pose proof (bulk_charge_ok (ty, 1, Some x) b Hb Hs) as Hch. simpl in Hch.
  destruct (bulk_charge ty 1 (Some x) b) as [r b']. destruct Hch as (Hb' & [Hs' Hd'] & Hcpu & Hmem & ->);
    [by split; [|split]|]. simpl.
  destruct Hcpu as (_ & Hl1 & _ & _ & Ht1).
  assert (¬ over (cpu_insns b')) as H1 by (unfold over; rewrite Hl1, Hc, Ht1; lia).
  destruct Hmem as [(_ & Hl2 & _ & _ & Ht2)|[? _]]; [|done].
  assert (¬ over (mem_bytes b')) as H2 by (unfold over; rewrite Hl2, Hm, Ht2; lia).
  rewrite bool_decide_false by (by intros []).
  split; [|done]. split; [|by rewrite Hd']. split_and!; [done|congruence|congruence|congruence].
Qed.

Lemma unlimited_metered : Metered BudgetImpl unlimited (λ _, False).
Proof.
  intros ty x Hty Hx b Hb.
  destruct (unlimited_metered_at (depth_limit b) ty x Hty Hx b) as [[??] ?]; by split.
Qed.

(** * Theorems *)

(** C38: The limits are enforced exactly: a sequence of charges on a budget that is
    not exhausted goes through if and only if the CPU and the memory total it adds
    up to, saturated, stay within their limits, and then both are charged in full;
    otherwise it fails with [ExceededLimit], and the budget is exhausted for good:
    every later charge fails the same way. *)
Theorem budget_limits_enforced cs c b :
  budget_wf b → is_in_shadow_mode b = false → ¬ exhausted b →
  Forall charge_fits cs → charge_fits c →
  let total d cost := Z.min u64_max (total_count d + total_of (cost b) cs) in
  let '(r, b') := charge_all cs b in
  (r = Ok tt ↔ total (cpu_insns b) cpu_cost <= limit (cpu_insns b) ∧
               total (mem_bytes b) mem_cost <= limit (mem_bytes b)) ∧
  (r = Ok tt → total_count (cpu_insns b') = total (cpu_insns b) cpu_cost ∧
               total_count (mem_bytes b') = total (mem_bytes b) mem_cost) ∧
  (r ≠ Ok tt → r = Err EXCEEDED ∧ (bulk_charge c.1.1 c.1.2 c.2 b').1 = Err EXCEEDED).
Proof.
  intros Hb Hs Hne Hcs Hc total. pose proof (charge_all_ok cs b Hb Hs Hcs Hne) as Hall.
  destruct (charge_all cs b) as [r b']. destruct Hall as (Hb' & [Hs' _] & -> & Hiff & Hin).
  split_and!; case_bool_decide as He; try done.
  - split; [done|]. apply Hiff in He. unfold total. lia.
  - split; [intros _|done]. rewrite Hiff in He. unfold total. lia.
  - intros _. by destruct (Hin He) as [(_&_&_&_&->) (_&_&_&_&->)].
  - intros _. split; [done|]. by apply exhausted_stays; [|rewrite Hs'|..].
Qed.

(** Shadow mode is invisible: whatever sequence of charges runs in shadow mode,
    also nested, and whether or not the shadow limits allow it, the limits, the
    totals, the reports and the depth are afterwards what they were, the previous
    mode is back, and no error comes out. *)
Theorem shadow_mode_invisible cs1 cs2 b :
  let f := charge_all cs1 ;;; with_shadow_mode (charge_all cs2) in
  (with_shadow_mode f b).1 = Ok tt ∧
  is_in_shadow_mode (with_shadow_mode f b).2 = is_in_shadow_mode b ∧
  visible (with_shadow_mode f b).2 = visible b.
Proof.
  intros f. split.
  - unfold with_shadow_mode at 1. by destruct (check_shadow_limits _).
  - apply with_shadow_mode_keeps. apply quiet_bind; [apply quiet_charge_all|intros _].
    apply quiet_with_shadow_mode, quiet_charge_all.
Qed.

Lemma batch_division y n :
  0 <= y → 1 <= n → n * (y / 128) <= y * n / 128 < n * (y / 128) + n.
Proof.
  intros Hy Hn. pose proof (Z.div_mod y 128 ltac:(lia)) as Hd.
  pose proof (Z.mod_pos_bound y 128 ltac:(lia)). set (q := y / 128) in *. set (r := y mod 128) in *.
  replace (y * n) with (r * n + q * n * 128) by nia. rewrite Z.div_add by lia.
  assert (0 <= r * n / 128 < n); [|lia]. split; [apply Z.div_pos; nia|apply Z.div_lt_upper_bound; nia].
Qed.

Lemma saturated_batch u n c p q :
  0 <= u → 1 <= n → 0 <= c → 0 <= p → n * p <= q < n * p + n →
  Z.min u (n * Z.min u (c + p)) <= Z.min u (c * n + q) < n * Z.min u (c + p) + n.
Proof.
  intros. destruct (decide (c + p <= u)).
  - rewrite (Z.min_r u (c + p)) by lia. lia.
  - rewrite (Z.min_l u (c + p)) by lia. assert (u <= n * u) by nia.
    assert (u <= n * (c + p)) by nia. lia.
Qed.

Lemma evaluate_exact m n x :
  model_wf m → 1 <= n → 0 <= x → lin_term m * x * n <= u64_max →
  evaluate m n (Some x) = Z.min u64_max (const_term m * n + lin_term m * x * n / 128).
Proof.
  intros [Hc Hl] Hn Hx Hm. destruct m as [a l]; simpl in *. unfold evaluate; simpl.
  assert (0 <= l * x) by nia. assert (0 <= a * n) by nia.
  case_bool_decide as Hz.
  - subst l. rewrite u64_saturating_mul_nonneg, Z.mul_0_l, Zdiv_0_l, Z.add_0_r by lia. done.
  - unfold unscale, COST_MODEL_LIN_TERM_SCALE_BITS. rewrite !Z.shiftr_div_pow2 by lia.
    change (2 ^ 7) with 128. rewrite (u64_saturating_mul_nonneg l x), Z.min_r by nia.
    rewrite (u64_saturating_mul_nonneg (l * x) n), Z.min_r by nia.
    rewrite (u64_saturating_mul_nonneg a n) by lia.
    assert (0 <= l * x * n / 128) by (apply Z.div_pos; nia).
    rewrite u64_saturating_add_nonneg; [|unfold u64_max in *; lia..]. lia.
Qed.

(** A batch is never undercharged: as long as the scaled linear term stays in
    range, a batch of [n] equal charges costs at least as much as [n] single ones,
    up to saturation, and less than one unit each more.  Past that range the
    saturation happens before the scaling down, and a batch costs less. *)
Theorem batch_covers_singles m n x :
  model_wf m → 1 <= n → 0 <= x → lin_term m * x * n <= u64_max →
  Z.min u64_max (n * evaluate m 1 (Some x)) <= evaluate m n (Some x) < n * evaluate m 1 (Some x) + n ∧
  ∃ m' n' x', model_wf m' ∧ evaluate m' n' (Some x') < Z.min u64_max (n' * evaluate m' 1 (Some x')).
Proof.
  intros Hm Hn Hx Hr. split.
  - assert (0 <= lin_term m * x) by (destruct Hm; nia).
    rewrite !evaluate_exact, !Z.mul_1_r by (try done; nia).
    pose proof (batch_division (lin_term m * x) n ltac:(lia) Hn).
    assert (0 <= const_term m * n) by (destruct Hm; nia).
    assert (0 <= lin_term m * x / 128) by (apply Z.div_pos; lia). destruct Hm.
    assert (0 <= u64_max) by (unfold u64_max; lia).
    by apply saturated_batch.
  - by exists (mkCostModel 0 u64_max), 128, 1.
Qed.

(** Recursion is bounded: code inside [k] levels of [with_limited_depth] runs
    exactly if [k] is at most the depth limit, fails with [ExceededLimit] of the
    context otherwise, and in both cases the limit is afterwards what it was. *)
Theorem depth_limit_enforced {A} (a : A) k b :
  in_u32 (depth_limit b) →
  nested k (m_ret a) b =
    (if decide (Z.of_nat k <= depth_limit b) then Ok a else Err (EHost TContext ExceededLimit), b).
Proof. apply nested_ret. Qed.

(** The default tables agree with the trackers: a cost type without input has no
    linear term in either dimension, and only the Wasm instruction has no memory
    cost by definition. *)
Lemma default_models_consistent :
  forallb (λ ty, takes_input ty || (Z.eqb (lin_term (default_cpu_model ty)) 0 &&
                                    Z.eqb (lin_term (default_mem_model ty)) 0)) variants = true.
Proof. by vm_compute. Qed.

Definition demo_charges : list (ContractCostType * Z * option Z) :=
  [(MemCpy, 1, Some 1000); (VisitObject, 3, None); (ComputeSha256Hash, 1, Some 64)].

Lemma demo_charges_fit : Forall charge_fits demo_charges.
Proof. by repeat constructor. Qed.

Lemma default_not_exhausted : ¬ exhausted default_budget.
Proof. by intros []. Qed.

Lemma budget_limits_enforced_witness :
  let total d cost := Z.min u64_max (total_count d + total_of (cost default_budget) demo_charges) in
  let '(r, b') := charge_all demo_charges default_budget in
  (r = Ok tt ↔ total (cpu_insns default_budget) cpu_cost <= limit (cpu_insns default_budget) ∧
               total (mem_bytes default_budget) mem_cost <= limit (mem_bytes default_budget)) ∧
  (r = Ok tt → total_count (cpu_insns b') = total (cpu_insns default_budget) cpu_cost ∧
               total_count (mem_bytes b') = total (mem_bytes default_budget) mem_cost) ∧
  (r ≠ Ok tt → r = Err EXCEEDED ∧ (bulk_charge MemCpy 1 (Some 5) b').1 = Err EXCEEDED).
Proof.
  apply (budget_limits_enforced demo_charges (MemCpy, 1, Some 5) default_budget).
  - apply default_budget_wf.
  - done.
  - apply default_not_exhausted.
  - apply demo_charges_fit.
  - done.
Defined.

Lemma batch_covers_singles_witness :
  let m := mkCostModel 3 5 in
  Z.min u64_max (26 * evaluate m 1 (Some 1)) <= evaluate m 26 (Some 1) < 26 * evaluate m 1 (Some 1) + 26 ∧
  ∃ m' n' x', model_wf m' ∧ evaluate m' n' (Some x') < Z.min u64_max (n' * evaluate m' 1 (Some x')).
Proof. apply (batch_covers_singles (mkCostModel 3 5) 26 1); done. Defined.

Lemma depth_limit_enforced_witness :
  nested 101 (m_ret tt) default_budget = (Err (EHost TContext ExceededLimit), default_budget) ∧
  nested 100 (m_ret tt) default_budget = (Ok tt, default_budget).
Proof.
  split; [apply (depth_limit_enforced tt 101 default_budget)|apply (depth_limit_enforced tt 100 default_budget)];
    done.
Defined.
