(* ===== verification/Metering.v ===== *)
(** Metered copies: the declared sizes of [host/declared_size.rs] and the clones and
    containers of [host/metered_clone.rs].  The size of a type and how it is cloned
    are classes, with an instance per composite type as in the source; what other
    components may rely on is the class [CloneReturns]. *)
From S2P Require Import Prelude ScVal Budget BudgetThms.
#[local] Open Scope m_scope.

(** * Declared sizes *)

(** [T::DECLARED_SIZE]. *)
Class DeclaredSizeForMetering (T : Type) := DECLARED_SIZE : Z.
Arguments DECLARED_SIZE T {_}.

(** Machine integers of every width are [Z]s, so their sizes are passed by name. *)
Definition bool_size : DeclaredSizeForMetering bool := 1.
Definition u8_size : DeclaredSizeForMetering Z := 1.
Definition u32_size : DeclaredSizeForMetering Z := 4.
Definition u64_size : DeclaredSizeForMetering Z := 8.
Definition u128_size : DeclaredSizeForMetering Z := 16.
#[export] Instance ScVal_size : DeclaredSizeForMetering ScVal := 64.
Definition ScMapEntry_size : DeclaredSizeForMetering (ScVal * ScVal) := 128.

#[export] Instance pair_size {K V} `{DeclaredSizeForMetering K, DeclaredSizeForMetering V} :
  DeclaredSizeForMetering (K * V) :=
  u64_saturating_add (u64_saturating_add (DECLARED_SIZE K) (DECLARED_SIZE V)) 8.
#[export] Instance vec_size {C} : DeclaredSizeForMetering (list C) := 24.
#[export] Instance option_size {C} `{DeclaredSizeForMetering C} : DeclaredSizeForMetering (option C) :=
  u64_saturating_add (DECLARED_SIZE C) 8.
#[export] Instance result_size {C} `{DeclaredSizeForMetering C} : DeclaredSizeForMetering (Result C) :=
  DECLARED_SIZE C + 16.

(** * Charges *)

Section charges.
Context {B : Type} `{AsBudget B}.

Definition charge_shallow_copy (T : Type) `{DeclaredSizeForMetering T} (n_elts : Z) : M B unit :=
  charge MemCpy (Some (u64_saturating_mul n_elts (DECLARED_SIZE T))).

Definition charge_heap_alloc (T : Type) `{DeclaredSizeForMetering T} (n_elts : Z) : M B unit :=
  charge MemAlloc (Some (u64_saturating_mul n_elts (DECLARED_SIZE T))).

(** [Rc::metered_new]. *)
Definition metered_new {T : Type} `{DeclaredSizeForMetering T} (value : T) : M B T :=
  charge_heap_alloc T 1 ;;; m_ret value.

(** ** Containers *)

Definition charge_bulk_init_cpy (Self Item : Type)
    `{DeclaredSizeForMetering Self, DeclaredSizeForMetering Item} (len : Z) : M B unit :=
  charge_shallow_copy Self 1 ;;; charge_heap_alloc Item len ;;; charge_shallow_copy Item len.

Definition with_metered_capacity (T : Type) `{DeclaredSizeForMetering T} (capacity : Z) : M B (list T) :=
  charge_bulk_init_cpy (list T) T capacity ;;; m_ret [].

(** The iterators collected have exact sizes, so the size hint is the length. *)
Definition metered_collect {T : Type} `{DeclaredSizeForMetering T} (l : list T) : M B (list T) :=
  charge_bulk_init_cpy (list T) T (Z.of_nat (length l)) ;;; m_ret l.

(** Collecting into a [Result]: the charges are for a vector of results. *)
Definition metered_collect_result {T : Type} `{DeclaredSizeForMetering T} (l : list (Result T)) :
  M B (Result (list T)) :=
  charge_bulk_init_cpy (Result (list T)) (Result T) (Z.of_nat (length l)) ;;;
  m_ret (mapM id l).
End charges.

(** * Clones *)

Class MeteredClone (B T : Type) := {
  IS_SHALLOW : bool;
  charge_for_substructure : T → M B unit
}.
Arguments IS_SHALLOW B T {_}.

(** The trait's defaults, used by every type without substructure. *)
Definition shallow_clone {B T} : MeteredClone B T := {|
  IS_SHALLOW := true;
  charge_for_substructure _ := m_ret tt
|}.

Fixpoint m_each {S A} (f : A → M S unit) (l : list A) : M S unit :=
  match l with
  | [] => m_ret tt
  | x :: l => f x ;;; m_each f l
  end.

Section clone.
Context {B : Type} `{AsBudget B}.

Definition bulk_charge_for_substructure {T} `{MeteredClone B T} (clones : list T) : M B unit :=
  if IS_SHALLOW B T then m_ret tt else m_each charge_for_substructure clones.

Definition charge_deep_clone {T} `{DeclaredSizeForMetering T, MeteredClone B T} (self : T) : M B unit :=
  if IS_SHALLOW B T then m_fail (EHost TObject InternalError)
  else charge_shallow_copy T 1 ;;; charge_for_substructure self.

Definition metered_clone {T} `{DeclaredSizeForMetering T, MeteredClone B T} (self : T) : M B T :=
  charge_shallow_copy T 1 ;;; charge_for_substructure self ;;; m_ret self.

#[export] Instance pair_clone {K V} `{MeteredClone B K, MeteredClone B V} : MeteredClone B (K * V) := {|
  IS_SHALLOW := IS_SHALLOW B K && IS_SHALLOW B V;
  charge_for_substructure self :=
    (if IS_SHALLOW B K then m_ret tt else charge_for_substructure self.1) ;;;
    (if IS_SHALLOW B V then m_ret tt else charge_for_substructure self.2)
|}.

#[export] Instance vec_clone {C} `{DeclaredSizeForMetering C, MeteredClone B C} : MeteredClone B (list C) := {|
  IS_SHALLOW := false;
  charge_for_substructure self :=
    charge_heap_alloc C (Z.of_nat (length self)) ;;;
    charge_shallow_copy C (Z.of_nat (length self)) ;;;
    bulk_charge_for_substructure self
|}.

#[export] Instance option_clone {C} `{MeteredClone B C} : MeteredClone B (option C) := {|
  IS_SHALLOW := IS_SHALLOW B C;
  charge_for_substructure self :=
    match self with Some elt => charge_for_substructure elt | None => m_ret tt end
|}.
End clone.

(** ** Values

    The bytes of strings, symbols and byte strings are vectors of [u8]s.  The keys
    of maps are symbols.  Instance records have no storage of their own here. *)
Definition charge_bytes (len : Z) : M BudgetImpl unit :=
  @charge_heap_alloc _ _ Z u8_size len ;;; @charge_shallow_copy _ _ Z u8_size len.

Fixpoint charge_scval (v : ScVal) : M BudgetImpl unit :=
  with_limited_depth (
    match v with
    | ScVec l =>
        charge_heap_alloc ScVal (Z.of_nat (length l)) ;;;
        charge_shallow_copy ScVal (Z.of_nat (length l)) ;;;
        m_each charge_scval l
    | ScMap l =>
        @charge_heap_alloc _ _ _ ScMapEntry_size (Z.of_nat (length l)) ;;;
        @charge_shallow_copy _ _ _ ScMapEntry_size (Z.of_nat (length l)) ;;;
        m_each (λ kv, with_limited_depth (charge_bytes (Z.of_nat (String.length kv.1))) ;;;
                      charge_scval kv.2) l
    | ScBytes _ => charge_bytes 32
    | ScString s | ScSymbol s => charge_bytes (Z.of_nat (String.length s))
    | ScVoid | ScBool _ | ScU32 _ | ScU64 _ | ScI128 _ | ScAddr _
    | ScLedgerKeyContractInstance | ScLedgerKeyNonce _ | ScContractInstance _ => m_ret tt
    end).

#[export] Instance ScVal_clone : MeteredClone BudgetImpl ScVal := {|
  IS_SHALLOW := false;
  charge_for_substructure := charge_scval
|}.

(** * The interface to code that copies *)

(** Copies of a [T] keep the invariant of the context and fail only with its errors. *)
Class CloneReturns {B} (I : B → Prop) (E : Error → Prop) (T : Type) `{MeteredClone B T} : Prop :=
  substructure_returns (a : T) : returns I (charge_for_substructure a) (λ _, True) E.

Lemma m_each_returns {S A} (I : S → Prop) (E : Error → Prop) (f : A → M S unit) (l : list A) :
  (∀ x, returns I (f x) (λ _, True) E) → returns I (m_each f l) (λ _, True) E.
Proof.
  intros Hf. induction l as [|x l IH]; cbn [m_each]; [by apply returns_ret|].
  eapply returns_bind; [apply Hf|by intros _ _].
Qed.

Section clone_returns.
Context {B : Type} `{AsBudget B} (I : B → Prop) (E : Error → Prop) `{!Metered B I E}.

Lemma charge_shallow_copy_returns T `{DeclaredSizeForMetering T} n :
  returns I (charge_shallow_copy T n) (λ _, True) E.
Proof. apply charge_returns; [done|]. by apply clamp_bounds. Qed.

Lemma charge_heap_alloc_returns T `{DeclaredSizeForMetering T} n :
  returns I (charge_heap_alloc T n) (λ _, True) E.
Proof. apply charge_returns; [done|]. by apply clamp_bounds. Qed.

Lemma metered_clone_returns {T} `{DeclaredSizeForMetering T} `{MeteredClone B T} `{!CloneReturns I E T} (a : T) :
  returns I (metered_clone a) (eq a) E.
Proof.
  eapply returns_bind; [apply charge_shallow_copy_returns|intros _ _].
  eapply returns_bind; [apply substructure_returns|intros _ _]. by apply returns_ret.
Qed.

Lemma bulk_charge_returns {T} `{MeteredClone B T} `{!CloneReturns I E T} (l : list T) :
  returns I (bulk_charge_for_substructure l) (λ _, True) E.
Proof.
  unfold bulk_charge_for_substructure. destruct (IS_SHALLOW B T); [by apply returns_ret|].
  apply m_each_returns, substructure_returns.
Qed.

#[export] Instance pair_clone_returns {K V} `{MeteredClone B K, MeteredClone B V}
  `{!CloneReturns I E K, !CloneReturns I E V} : CloneReturns I E (K * V).
Proof.
  intros a. apply (returns_bind I E _ _ (λ _, True)); [|intros _ _].
  - destruct (IS_SHALLOW B K); [by apply returns_ret|apply substructure_returns].
  - destruct (IS_SHALLOW B V); [by apply returns_ret|apply substructure_returns].
Qed.

#[export] Instance vec_clone_returns {C} `{DeclaredSizeForMetering C} `{MeteredClone B C}
  `{!CloneReturns I E C} : CloneReturns I E (list C).
Proof.
  intros l. eapply returns_bind; [apply charge_heap_alloc_returns|intros _ _].
  eapply returns_bind; [apply charge_shallow_copy_returns|intros _ _]. apply bulk_charge_returns.
Qed.

#[export] Instance option_clone_returns {C} `{MeteredClone B C} `{!CloneReturns I E C} :
  CloneReturns I E (option C).
Proof. intros [a|]; [apply (substructure_returns a)|by apply returns_ret]. Qed.

(** Charging for a vector as a whole, as the builders of vectors and maps do. *)
Lemma charge_vec_returns {C} `{DeclaredSizeForMetering C} `{MeteredClone B C}
  `{!CloneReturns I E C} (l : list C) : returns I (charge_deep_clone l) (λ _, True) E.
Proof.
  eapply returns_bind; [apply charge_shallow_copy_returns|intros _ _].
  apply (substructure_returns (T:=list C)).
Qed.
End clone_returns.

Lemma shallow_clone_returns {B} (I : B → Prop) (E : Error → Prop) T :
  @CloneReturns B I E T shallow_clone.
Proof. intros a. by apply returns_ret. Qed.

(** * The depth of values *)

Definition TOO_DEEP : Error := EHost TContext ExceededLimit.

Fixpoint depth (v : ScVal) : Z :=
  match v with
  | ScVec l => 1 + foldr (λ x n, Z.max (depth x) n) 0 l
  | ScMap l => 1 + foldr (λ kv n, Z.max 1 (Z.max (depth kv.2) n)) 0 l
  | _ => 1
  end.

Lemma depth_pos v : 1 <= depth v.
Proof. destruct v as [| | | | | | | | |l|l| | |]; simpl; try lia; induction l; simpl in *; lia. Qed.

Definition unlimited_at (d : Z) (b : BudgetImpl) : Prop := unlimited b ∧ depth_limit b = d.

(** [f] fits the depth limit [d] exactly if [n] does. *)
Definition fits_depth (n d : Z) (f : M BudgetImpl unit) : Prop :=
  returns (unlimited_at d) f (λ _, n <= d) (λ e, e = TOO_DEEP ∧ d < n).

Lemma unlimited_set_depth d b : unlimited b → unlimited (set_depth d b).
Proof. intros ([H1 H2 H3] & ? & ? & ?). by split_and!. Qed.

Lemma fits_charge d (f : M BudgetImpl unit) :
  0 <= d → returns (unlimited_at d) f (λ _, True) (λ _, False) → fits_depth 0 d f.
Proof. intros Hd Hf. by eapply returns_weaken. Qed.

Lemma fits_bind n m d (f g : M BudgetImpl unit) :
  fits_depth n d f → fits_depth m d g → fits_depth (Z.max n m) d (f ;;; g).
Proof.
  intros Hf Hg b Hb. destruct (Hf b Hb) as [Hb1 Hr]. unfold m_bind.
  destruct (f b) as [[[]|e] b1]; simpl in *.
  - destruct (Hg b1 Hb1) as [Hb2 Hr2]. split; [done|]. destruct (g b1).1; simpl in *; [lia|].
    destruct Hr2. split; [done|lia].
  - split; [done|]. destruct Hr. split; [done|lia].
Qed.

Lemma with_limited_depth_eq {A} (f : M BudgetImpl A) b :
  with_limited_depth f b =
    if decide (1 <= depth_limit b) then
      let '(res, b1) := f (set_depth (depth_limit b - 1) b) in m_bind leave (λ _, m_lift res) b1
    else (Err TOO_DEEP, b).
Proof.
  unfold with_limited_depth, m_bind at 1, enter, u32_checked_sub. by destruct (decide _).
Qed.

Lemma fits_limited n d (f : M BudgetImpl unit) :
  0 <= n → in_u32 d → (in_u32 (d - 1) → fits_depth n (d - 1) f) → fits_depth (1 + n) d (with_limited_depth f).
Proof.
  unfold in_u32. intros Hn Hd Hf b [Hb Hdb]. rewrite with_limited_depth_eq, Hdb.
  destruct (decide (1 <= d)); [|by split; [split|split; [done|lia]]].
  destruct (Hf ltac:(lia) (set_depth (d - 1) b)) as [[Hb1 Hd1] Hr]; [by split; [apply unlimited_set_depth|]|].
  destruct (f (set_depth (d - 1) b)) as [res b1]. unfold m_bind, leave, u32_checked_add. simpl in *.
  rewrite Hd1, decide_True by lia. unfold m_lift. simpl.
  split; [split; [by apply unlimited_set_depth|simpl; lia]|].
  destruct res; [lia|]. destruct Hr. split; [done|lia].
Qed.

Lemma fits_each {A} (h : A → Z) d (f : A → M BudgetImpl unit) (l : list A) :
  0 <= d → Forall (λ x, fits_depth (h x) d (f x)) l →
  fits_depth (foldr (λ x n, Z.max (h x) n) 0 l) d (m_each f l).
Proof.
  intros Hd. induction 1 as [|x l Hx _ IH]; simpl; [apply fits_charge; [done|by apply returns_ret]|].
  by apply fits_bind.
Qed.

Section value_charges.
Context (d : Z) (Hd : in_u32 d).
#[local] Instance unlimited_at_metered : Metered BudgetImpl (unlimited_at d) (λ _, False) :=
  unlimited_metered_at d.

Lemma fits_alloc T `{DeclaredSizeForMetering T} n : fits_depth 0 d (charge_heap_alloc T n).
Proof. apply fits_charge; [apply Hd|apply charge_heap_alloc_returns, _]. Qed.
Lemma fits_copy T `{DeclaredSizeForMetering T} n : fits_depth 0 d (charge_shallow_copy T n).
Proof. apply fits_charge; [apply Hd|apply charge_shallow_copy_returns, _]. Qed.
Lemma fits_bytes n : fits_depth 0 d (charge_bytes n).
Proof. apply (fits_bind 0 0); [apply fits_alloc|apply fits_copy]. Qed.

(** A vector: allocation, shallow copies, then the elements. *)
Lemma fits_vec T `{DeclaredSizeForMetering T} n m (f : M BudgetImpl unit) :
  0 <= m → fits_depth m d f → fits_depth m d (charge_heap_alloc T n ;;; charge_shallow_copy T n ;;; f).
Proof.
  intros Hm Hf. rewrite <-(Z.max_r 0 m Hm). apply fits_bind; [apply fits_alloc|].
  rewrite <-(Z.max_r 0 m Hm). by apply fits_bind; [apply fits_copy|].
Qed.
End value_charges.

Lemma foldr_max_nonneg {A} (h : A → Z) (l : list A) : 0 <= foldr (λ x n, Z.max (h x) n) 0 l.
Proof. induction l; simpl; lia. Qed.

Lemma depth_map l :
  depth (ScMap l) = 1 + foldr (λ kv n, Z.max (Z.max 1 (depth kv.2)) n) 0 l.
Proof. simpl. f_equal. induction l as [|kv l IH]; simpl; lia. Qed.

Lemma charge_scval_fits v d : in_u32 d → fits_depth (depth v) d (charge_scval v).
Proof.
  revert d. induction v using ScVal_nested_ind; intros d Hd.
  all: try (apply (fits_limited 0); [done|done|intros Hd'; apply fits_charge; [apply Hd'|by apply returns_ret]]).
  1-3: by apply (fits_limited 0); [done|done|intros Hd'; apply fits_bytes].
  - apply fits_limited; [apply foldr_max_nonneg|done|]. intros Hd'.
    apply fits_vec; [done|apply foldr_max_nonneg|]. apply fits_each; [apply Hd'|].
    eapply Forall_impl; [exact H|]. intros x Hx. by apply Hx.
  - rewrite depth_map. apply fits_limited; [apply foldr_max_nonneg|done|]. intros Hd'.
    apply fits_vec; [done|apply foldr_max_nonneg|]. apply (fits_each (λ kv, Z.max 1 (depth kv.2))); [apply Hd'|].
    eapply Forall_impl; [exact H|]. intros x Hx. apply fits_bind; [|by apply Hx].
    apply (fits_limited 0); [done|done|]. intros ?. by apply fits_bytes.
Qed.

(** The depth limit decides which values can be copied: on a budget that refuses no
    charge, cloning a value returns it exactly if its nesting is at most the depth
    limit and fails with [ExceededLimit] of the context otherwise; either way the
    depth limit is afterwards what it was. *)
Theorem scval_clone_depth v b :
  unlimited b → in_u32 (depth_limit b) →
  (metered_clone v b).1 = (if decide (depth v <= depth_limit b) then Ok v else Err TOO_DEEP) ∧
  depth_limit (metered_clone v b).2 = depth_limit b.
Proof.
  intros Hb Hd. unfold metered_clone. unfold m_bind at 1 3.
  pose proof (unlimited_metered_at (depth_limit b)) as Hm.
  destruct (charge_shallow_copy_returns (unlimited_at (depth_limit b)) (λ _, False) ScVal 1 b) as [Hb1 Hr1]; [done|].
  destruct (charge_shallow_copy ScVal 1 b) as [[[]|] b1]; simpl in Hr1, Hb1; [|done].
  destruct (charge_scval_fits v _ Hd b1 Hb1) as [[Hb2 Hd2] Hr2]. unfold m_bind. simpl.
  destruct (charge_scval v b1) as [[[]|e] b2]; simpl in *.
  - by rewrite decide_True by done.
  - destruct Hr2 as [-> ?]. by rewrite decide_False by lia.
Qed.

Definition demo_value : ScVal := ScVec [ScU32 1; ScMap [("k"%string, ScVec [ScVoid])]].

Lemma scval_clone_depth_witness :
  unlimited (set_depth 4 (reset_limits u64_max u64_max default_budget)) ∧
  (metered_clone demo_value (set_depth 4 (reset_limits u64_max u64_max default_budget))).1 = Ok demo_value ∧
  (metered_clone demo_value (set_depth 3 (reset_limits u64_max u64_max default_budget))).1 = Err TOO_DEEP.
Proof.
  assert (unlimited (reset_limits u64_max u64_max default_budget)) as Hu
    by (split_and!; [by apply reset_limits_wf, default_budget_wf|done..]).
  split; [by apply unlimited_set_depth|]. split.
  - apply (scval_clone_depth demo_value (set_depth 4 (reset_limits u64_max u64_max default_budget)));
      [by apply unlimited_set_depth|done].
  - apply (scval_clone_depth demo_value (set_depth 3 (reset_limits u64_max u64_max default_budget)));
      [by apply unlimited_set_depth|done].
Defined.
