(* ===== verification/Search.v ===== *)
(** Bisection, as [host/metered_vector.rs] has it and both the host's vectors and its
    ordered maps use it: where it ends, and how often it looks.  Positions and
    lengths are [nat]s. *)
From Equations Require Import Equations.
From S2P Require Import Prelude.

(** * Bisection *)

Definition unwrap_none : Error := EPanic "called `Option::unwrap()` on a `None` value".

(** The closure [f] may keep state, threaded through as [s]. *)
Section search.
Context {T St : Type} (slice : list T) (f : T → St → comparison * St).

Definition mid_of (lo hi : nat) : nat := lo + (hi - lo) / 2.

Lemma mid_of_bounds lo hi : (lo < hi → lo <= mid_of lo hi < hi)%nat.
Proof.
  intros Hlt. unfold mid_of. pose proof (Nat.div_lt (hi - lo) 2). lia.
Qed.

(** The loop of [binary_search_by_pre_rust_182], [lo] and [hi] being its [left] and
    [right]: [inl] is Rust's [Ok], the position of a match, and [inr] its [Err],
    where the element belongs. *)
Equations search_loop (lo hi : nat) (s : St) : Result (nat + nat) * St
  by wf (hi - lo)%nat lt :=
search_loop lo hi s with lt_dec lo hi := {
  | right _ => (Ok (inr lo), s);
  | left Hlt with slice !! mid_of lo hi := {
    | None => (Err unwrap_none, s);
    | Some x with f x s := {
      | (Lt, s') => search_loop (S (mid_of lo hi)) hi s';
      | (Gt, s') => search_loop lo (mid_of lo hi) s';
      | (Eq, s') => (Ok (inl (mid_of lo hi)), s') } } }.
Next Obligation. intros lo hi ? Hlt *. pose proof (mid_of_bounds lo hi Hlt). lia. Qed.
Next Obligation. intros lo hi ? Hlt *. pose proof (mid_of_bounds lo hi Hlt). lia. Qed.

Definition binary_search_by_pre_rust_182 (s : St) : Result (nat + nat) * St :=
  search_loop 0 (length slice) s.
End search.

Example search_demo :
  binary_search_by_pre_rust_182 [1; 3; 5; 7] (λ x s, (x ?= 5, S s)) 0%nat = (Ok (inl 2%nat), 1%nat).
Proof. reflexivity. Qed.

(** ** What bisection finds

    [g] is the order of an element relative to the one looked for; the closure
    answers with it as long as its state is [good]. *)
Section search_correct.
Context {T St : Type} (slice : list T) (f : T → St → comparison * St).
Context (g : T → comparison) (good : St → Prop).

(** Less, then at most one equal, then greater. *)
Definition partitioned : Prop :=
  ∀ i j x y, (i < j)%nat → slice !! i = Some x → slice !! j = Some y →
    (g y ≠ Gt → g x = Lt) ∧ (g x ≠ Lt → g y = Gt).

Definition search_result (r : nat + nat) : Prop :=
  match r with
  | inl i => ∃ x, slice !! i = Some x ∧ g x = Eq
  | inr i => (i <= length slice)%nat ∧
      (∀ j x, (j < i)%nat → slice !! j = Some x → g x = Lt) ∧
      (∀ j x, (i <= j)%nat → slice !! j = Some x → g x = Gt)
  end.

Context (Hf : ∀ x s, good s → (f x s).1 = g x ∧ good (f x s).2 ∨ (f x s).1 = Eq ∧ ¬ good (f x s).2).
Context (Hpart : partitioned).

Lemma before_mid m x :
  slice !! m = Some x → g x = Lt →
  ∀ j y, (j < S m)%nat → slice !! j = Some y → g y = Lt.
Proof.
  intros Hx Hlt j y Hj Hy. destruct (decide (j = m)) as [->|]; [congruence|].
  apply (Hpart j m y x); [lia|done|done|congruence].
Qed.

Lemma after_mid m x :
  slice !! m = Some x → g x = Gt →
  ∀ j y, (m <= j)%nat → slice !! j = Some y → g y = Gt.
Proof.
  intros Hx Hgt j y Hj Hy. destruct (decide (j = m)) as [->|]; [congruence|].
  apply (Hpart m j x y); [lia|done|done|congruence].
Qed.

Lemma search_loop_correct lo hi s :
  good s → (lo <= hi <= length slice)%nat →
  (∀ j x, (j < lo)%nat → slice !! j = Some x → g x = Lt) →
  (∀ j x, (hi <= j)%nat → slice !! j = Some x → g x = Gt) →
  ∃ r, (search_loop slice f lo hi s).1 = Ok r ∧
    (good (search_loop slice f lo hi s).2 → search_result r).
Proof.
  apply (search_loop_elim slice f (λ lo hi s out, good s →
    (lo <= hi <= length slice)%nat →
    (∀ j x, (j < lo)%nat → slice !! j = Some x → g x = Lt) →
    (∀ j x, (hi <= j)%nat → slice !! j = Some x → g x = Gt) →
    ∃ r, out.1 = Ok r ∧ (good out.2 → search_result r))); clear lo hi s.
  - intros lo hi s Hge _ Hg Hb Hlo Hhi. exists (inr lo). split; [done|]. intros _.
    replace hi with lo in Hhi by lia. split_and!; [lia|done|done].
  - intros lo hi Hlt s Hnone _ Hg Hb. pose proof (mid_of_bounds lo hi Hlt).
    apply lookup_ge_None in Hnone. lia.
  - intros lo hi x Hlt s s' Hfx Hx _ Hg Hb Hlo Hhi.
    exists (inl (mid_of lo hi)). split; [done|]. intros Hg'. simpl in Hg'.
    destruct (Hf x s Hg) as [[Hgx _]|[_ ?]]; rewrite Hfx in *; [|done]. by exists x.
  - intros lo hi x Hlt s s' IH Hfx Hx _ Hg Hb Hlo Hhi. pose proof (mid_of_bounds lo hi Hlt).
    destruct (Hf x s Hg) as [[Hgx Hg']|[? _]]; rewrite Hfx in *; [|done].
    apply IH; [done|lia|by eapply before_mid|done].
  - intros lo hi x Hlt s s' IH Hfx Hx _ Hg Hb Hlo Hhi. pose proof (mid_of_bounds lo hi Hlt).
    destruct (Hf x s Hg) as [[Hgx Hg']|[? _]]; rewrite Hfx in *; [|done].
    apply IH; [done|lia|done|by eapply after_mid].
Qed.

Lemma binary_search_finds s :
  good s → ∃ r, (binary_search_by_pre_rust_182 slice f s).1 = Ok r ∧
    (good (binary_search_by_pre_rust_182 slice f s).2 → search_result r).
Proof.
  intros Hg. apply search_loop_correct; [done|lia|lia|].
  intros j x Hj Hx. apply lookup_lt_Some in Hx. lia.
Qed.
End search_correct.

(** ** How often bisection looks

    [bits n] is the length of [n] in binary, the [64 - leading_zeros] of the
    source.  A closure that counts its calls counts no more than that. *)
Definition bits (n : nat) : nat := match n with O => O | _ => S (Nat.log2 n) end.

Definition leading_zeros (n : nat) : nat := 64 - bits n.

(** The accesses [charge_binsearch] charges for: [1 + mag]. *)
Definition charged_accesses (len : nat) : nat := 1 + (64 - leading_zeros len).

Lemma bits_usize n : Z.of_nat n <= usize_max → (bits n <= 64)%nat.
Proof.
  intros Hn. destruct n as [|n]; [simpl; lia|]. unfold bits.
  assert (Nat.log2 (S n) < 64)%nat; [|lia]. apply Nat.log2_lt_pow2; [lia|].
  apply Nat2Z.inj_lt. rewrite Nat2Z.inj_pow. unfold usize_max in Hn. lia.
Qed.

Lemma bits_half n m : (0 < n → m <= n / 2 → S (bits m) <= bits n)%nat.
Proof.
  intros Hn Hm. destruct n as [|n]; [lia|]. destruct m as [|m]; [simpl; lia|]. unfold bits.
  apply le_n_S. rewrite <-Nat.div2_div in Hm.
  assert (Nat.log2 (2 * S m) <= Nat.log2 (S n))%nat as Hl.
  { apply Nat.log2_le_mono. pose proof (Nat.div2_odd (S n)). destruct (Nat.odd (S n)); simpl in *; lia. }
  rewrite Nat.log2_double in Hl by lia. done.
Qed.

Section search_cost.
Context {T St : Type} (slice : list T) (f : T → St → comparison * St).

Definition counting (x : T) (s : nat * St) : comparison * (nat * St) :=
  let '(o, s') := f x s.2 in (o, (S s.1, s')).

Lemma search_loop_cost lo hi s :
  ((search_loop slice counting lo hi s).2.1 <= s.1 + bits (hi - lo))%nat.
Proof.
  apply (search_loop_elim slice counting (λ lo hi s out, out.2.1 <= s.1 + bits (hi - lo))%nat);
    clear lo hi s; try (intros; simpl; lia).
  - intros lo hi x Hlt s s' Hfx _ _. unfold counting in Hfx. destruct (f x s.2). simplify_eq/=.
    pose proof (bits_half (hi - lo) 0). lia.
  - intros lo hi x Hlt s s' IH Hfx _ _. etrans; [exact IH|]. clear IH.
    unfold counting in Hfx. destruct (f x s.2). simplify_eq/=.
    pose proof (bits_half (hi - lo) (hi - S (mid_of lo hi))) as Hb. unfold mid_of in *.
    pose proof (Nat.div_mod_eq (hi - lo) 2). pose proof (Nat.mod_upper_bound (hi - lo) 2). lia.
  - intros lo hi x Hlt s s' IH Hfx _ _. etrans; [exact IH|]. clear IH.
    unfold counting in Hfx. destruct (f x s.2). simplify_eq/=.
    pose proof (bits_half (hi - lo) (mid_of lo hi - lo)) as Hb. unfold mid_of in *. lia.
Qed.
End search_cost.

(** Whatever holds of the closure's state throughout holds of it in the end. *)
Lemma search_loop_invariant {T St} (slice : list T) (f : T → St → comparison * St) (J : St → Prop) lo hi s :
  (∀ x s, J s → J (f x s).2) → J s → J (search_loop slice f lo hi s).2.
Proof.
  intros Hf. apply (search_loop_elim slice f (λ lo hi s out, J s → J out.2)); clear lo hi s; try done.
  - intros lo hi x Hlt s s' Hfx _ _ Hs. specialize (Hf x s Hs). by rewrite Hfx in Hf.
  - intros lo hi x Hlt s s' IH Hfx _ _ Hs. apply IH. specialize (Hf x s Hs). by rewrite Hfx in Hf.
  - intros lo hi x Hlt s s' IH Hfx _ _ Hs. apply IH. specialize (Hf x s Hs). by rewrite Hfx in Hf.
Qed.

(** * Searching with a comparison that may fail

    The closure of [binary_search_by] and of the maps' [find]: its state is the context
    and the error of a comparison, after which it answers [Eq] to end the search. *)
Section fallible.
Context {B T : Type} (cmp : T → M B comparison).

Definition probe (x : T) (s : B * option Error) : comparison * (B * option Error) :=
  match s.2 with
  | Some _ => (Eq, s)
  | None =>
      match cmp x s.1 with
      | (Ok o, b) => (o, (b, None))
      | (Err he, b) => (Eq, (b, Some he))
      end
  end.

Definition fallible_search (slice : list T) : M B (nat + nat) := λ b,
  let '(res, (b', err)) := binary_search_by_pre_rust_182 slice probe (b, None) in
  (r ← res; match err with Some he => Err he | None => Ok r end, b').

Context (I : B → Prop) (E : Error → Prop) (g : T → comparison).
Context (Hcmp : ∀ x, returns I (cmp x) (eq (g x)) E).

(** The closure answers with the order [g] until a comparison fails, and keeps the
    context sound. *)
Definition probe_good (s : B * option Error) : Prop := I s.1 ∧ s.2 = None.
Definition probe_sound (s : B * option Error) : Prop := I s.1 ∧ ∀ e, s.2 = Some e → E e.

Lemma probe_correct (x : T) (s : B * option Error) :
  probe_good s →
  (probe x s).1 = g x ∧ probe_good (probe x s).2 ∨ (probe x s).1 = Eq ∧ ¬ probe_good (probe x s).2.
Proof.
  destruct s as [b err]. intros [Hb Herr]. simpl in *. subst err. unfold probe. simpl.
  destruct (Hcmp x b Hb) as [Hb' Hr]. destruct (cmp x b) as [[o|e] b']; simpl in *; [by left|right].
  split; [done|]. by intros [_ ?].
Qed.

Lemma probe_keeps_sound (x : T) (s : B * option Error) : probe_sound s → probe_sound (probe x s).2.
Proof.
  destruct s as [b err]. intros [Hb Herr]. unfold probe. simpl in *. destruct err as [e0|]; [done|].
  destruct (Hcmp x b Hb) as [Hb' Hr].
  destruct (cmp x b) as [[o|e] b']; simpl in *; split; simpl; try done. by intros ? [= <-].
Qed.

Lemma fallible_search_returns (slice : list T) :
  partitioned slice g → returns I (fallible_search slice) (search_result slice g) E.
Proof.
  intros Hp b Hb. unfold fallible_search.
  destruct (binary_search_finds slice probe g probe_good probe_correct Hp (b, None)) as (r & Hr & Hok);
    [done|].
  assert (probe_sound (binary_search_by_pre_rust_182 slice probe (b, None)).2) as [Hb' Herr].
  { unfold binary_search_by_pre_rust_182. by apply search_loop_invariant; [apply probe_keeps_sound|]. }
  destruct (binary_search_by_pre_rust_182 slice probe (b, None)) as [res [b' [he|]]];
    simpl in *; subst res; simpl; split; try done; [by apply Herr|].
  by apply (Hok (conj Hb' eq_refl)).
Qed.
End fallible.
