(* ===== verification/OrdMap.v ===== *)
(** The host's ordered maps: [host/metered_map.rs], on the interfaces of its generic
    code.  A map is a vector of entries sorted by key, searched by bisection; the
    context meters every step and compares keys, and both may fail. *)
From S2P Require Import Prelude Budget BudgetThms Metering Search.
#[local] Open Scope m_scope.

(** * Comparison of keys *)

Class TotalOrder {K} (ord : K → K → comparison) : Prop := {
  ord_eq a b : ord a b = Eq ↔ a = b;
  ord_flip a b : ord b a = CompOpp (ord a b);
  ord_trans a b c : ord a b = Lt → ord b c = Lt → ord a c = Lt
}.

(** [Compare<K>]: in a context of the invariant [I] the comparison answers with a
    total order [ord], or ends with an error of [E]. *)
Class Comparator {B K} (I : B → Prop) (E : Error → Prop)
    (compare : K → K → M B comparison) (ord : K → K → comparison) : Prop := {
  comparator_order :: TotalOrder ord;
  compare_returns a b : returns I (compare a b) (λ o, o = ord a b) E
}.

(** The comparison of the types with a declared size, [FixedSizeOrdType]. *)
Definition compare_fixed_size {B} `{AsBudget B} {T} (declared_size : Z) (ord : T → T → comparison)
    (a b : T) : M B comparison :=
  charge MemCmp (Some declared_size) ;;; m_ret (ord a b).

Lemma compare_fixed_size_comparator {B} `{AsBudget B} (I : B → Prop) (E : Error → Prop)
    `{!Metered B I E} {T} size (ord : T → T → comparison) :
  TotalOrder ord → 0 <= size → Comparator I E (compare_fixed_size size ord) ord.
Proof.
  intros Hord Hsize. split; [done|]. intros a b. unfold compare_fixed_size.
  eapply returns_bind; [by apply charge_returns|]. intros _ _. by apply returns_ret.
Qed.

#[export] Instance Z_total_order : TotalOrder Z.compare.
Proof.
  split.
  - apply Z.compare_eq_iff.
  - intros. by rewrite Z.compare_antisym.
  - intros a b c. rewrite !Z.compare_lt_iff. lia.
Qed.

#[export] Instance N_total_order : TotalOrder N.compare.
Proof.
  split.
  - apply N.compare_eq_iff.
  - intros. by rewrite N.compare_antisym.
  - intros a b c. rewrite !N.compare_lt_iff. lia.
Qed.

(** * Maps *)

(** [MeteredOrdMap]: its entries, sorted by key. *)
Abbreviation ordmap K V := (list (K * V)) (only parsing).

Definition MAP_OOB : Error := EHost TObject IndexBounds.

Section ordmap.
Context {B K V : Type} `{AsBudget B} `{DeclaredSizeForMetering K, DeclaredSizeForMetering V}.
Context `{MeteredClone B K, MeteredClone B V} (compare : K → K → M B comparison).
Implicit Types (m : ordmap K V) (key : K) (value : V).

Definition ENTRY_SIZE : Z := DECLARED_SIZE (K * V).

Definition charge_access (count : nat) : M B unit :=
  charge MemCpy (Some (u64_saturating_mul ENTRY_SIZE (Z.of_nat count))).

Definition charge_scan m : M B unit := charge_access (length m).

Definition charge_binsearch m : M B unit :=
  let mag := u32_saturating_sub 64 (Z.of_nat (leading_zeros (length m))) in
  charge MemCpy (Some (u64_saturating_mul ENTRY_SIZE (u32_saturating_add mag 1))).

(** The check of [from_map] on adjacent entries. *)
Fixpoint check_windows m : M B unit :=
  match m with
  | a :: ((b :: _) as m') =>
      let* o := compare a.1 b.1 in
      match o with
      | Lt => check_windows m'
      | _ => m_fail (EHost TObject InvalidInput)
      end
  | _ => m_ret tt
  end.

Definition from_map (l : list (K * V)) : M B (ordmap K V) :=
  if bool_decide (u32_max < Z.of_nat (length l)) then m_fail MAP_OOB
  else charge_scan l ;;; check_windows l ;;; m_ret l.

(** The iterators of the source have exact sizes, so the size hint is the length. *)
Definition from_exact_iter (l : list (K * V)) : M B (ordmap K V) :=
  if bool_decide (u32_max < Z.of_nat (length l)) then m_fail MAP_OOB
  else charge_deep_clone l ;;; from_map l.

Definition find m key : M B (nat + nat) :=
  charge_binsearch m ;;; fallible_search (λ entry, compare entry.1 key) m.

Definition insert m key value : M B (ordmap K V) :=
  charge_access 1 ;;;
  let* r := find m key in
  match r with
  | inl replace_pos =>
      if bool_decide (Z.of_nat replace_pos = usize_max - 1) then m_fail MAP_OOB
      else from_exact_iter (take replace_pos m ++ [(key, value)] ++ drop (S replace_pos) m)
  | inr insert_pos =>
      if bool_decide (Z.of_nat (length m) = u32_max) then m_fail MAP_OOB
      else from_exact_iter (take insert_pos m ++ [(key, value)] ++ drop insert_pos m)
  end.

Definition get m key : M B (option V) :=
  let* r := find m key in
  match r with
  | inl found =>
      charge_access 1 ;;;
      match m !! found with
      | Some (_, v) => m_ret (Some v)
      | None => m_fail (EHost TObject InternalError)
      end
  | inr _ => m_ret None
  end.

Definition get_at_index m (index : nat) : M B (K * V) :=
  charge_access 1 ;;; m_lift (ok_or (m !! index) MAP_OOB).

Definition remove m key : M B (option (ordmap K V * V)) :=
  let* r := find m key in
  match r with
  | inl found =>
      let* new := (if bool_decide (0 < found)%nat
                   then from_exact_iter (take found m ++ drop (S found) m)
                   else from_exact_iter (drop 1 m)) in
      match m !! found with
      | Some (_, res) => let* res := metered_clone res in m_ret (Some (new, res))
      | None => m_fail (EHost TObject InternalError)
      end
  | inr _ => m_ret None
  end.

Definition contains_key m key : M B bool :=
  let* r := find m key in m_ret (match r with inl _ => true | inr _ => false end).

Definition keys m : M B (list K) := charge_scan m ;;; m_ret m.*1.
Definition values m : M B (list V) := charge_scan m ;;; m_ret m.*2.
End ordmap.

(** ** Sorted entries *)
Section entries.
Context {K V : Type} `{Countable K} (ord : K → K → comparison) `{!TotalOrder ord}.
Implicit Types (m : ordmap K V) (key : K) (value : V).

Definition entry_lt (a b : K * V) : Prop := ord a.1 b.1 = Lt.

Record ordmap_wf m : Prop := {
  ow_sorted : StronglySorted entry_lt m;
  ow_length : Z.of_nat (length m) <= u32_max
}.

Definition entries m : gmap K V := list_to_map m.

#[export] Instance entry_lt_trans : Transitive entry_lt.
Proof. intros a b c. unfold entry_lt. apply ord_trans. Qed.

Lemma ord_refl a : ord a a = Eq.
Proof. by apply ord_eq. Qed.

Lemma sorted_NoDup m : StronglySorted entry_lt m → NoDup m.*1.
Proof.
  induction 1 as [|[k v] m _ IH Hall]; csimpl; [constructor|]. constructor; [|done].
  intros ([k' v'] & -> & Hin)%list_elem_of_fmap. rewrite Forall_forall in Hall.
  specialize (Hall _ Hin). unfold entry_lt in Hall. simpl in Hall. by rewrite ord_refl in Hall.
Qed.

Lemma sorted_partitioned m key :
  StronglySorted entry_lt m → partitioned m (λ e, ord e.1 key).
Proof.
  intros Hs i j x y Hij Hx Hy. assert (ord x.1 y.1 = Lt) as Hxy.
  { rewrite <-(take_drop_middle m j y Hy) in Hs.
    apply (StronglySorted_app_1_elem_of _ _ _ x y Hs); [|by left].
    apply list_elem_of_lookup. exists i. by rewrite lookup_take_lt. }
  split; intros Ho.
  - destruct (ord y.1 key) eqn:Hyk; [apply ord_eq in Hyk; by subst| |done]. by eapply ord_trans.
  - destruct (ord x.1 key) eqn:Hxk; [apply ord_eq in Hxk as <-|done|].
    + by rewrite ord_flip, Hxy.
    + assert (ord key x.1 = Lt) as Hkx by (by rewrite ord_flip, Hxk).
      rewrite ord_flip. by rewrite (ord_trans _ _ _ Hkx Hxy).
Qed.

Lemma entries_absent m i key :
  (∀ j x, (j < i)%nat → m !! j = Some x → ord x.1 key = Lt) →
  (∀ j x, (i <= j)%nat → m !! j = Some x → ord x.1 key = Gt) →
  entries m !! key = None.
Proof.
  intros Hb Ha. apply not_elem_of_list_to_map_1. intros ([k v] & Hk & Hin)%list_elem_of_fmap.
  simpl in Hk. subst k. apply list_elem_of_lookup in Hin as [j Hj].
  destruct (decide (j < i)%nat) as [Hlt|Hge].
  - specialize (Hb j _ Hlt Hj). simpl in Hb. by rewrite ord_refl in Hb.
  - specialize (Ha j _ ltac:(lia) Hj). simpl in Ha. by rewrite ord_refl in Ha.
Qed.

Lemma entries_at m i key v :
  ordmap_wf m → m !! i = Some (key, v) → entries m !! key = Some v.
Proof.
  intros [Hs _] Hi. apply elem_of_list_to_map_1; [by apply sorted_NoDup|].
  by eapply list_elem_of_lookup_2.
Qed.

Lemma entries_insert_at (l1 l2 : list (K * V)) key v :
  NoDup (l1 ++ (key, v) :: l2).*1 → entries (l1 ++ (key, v) :: l2) = <[key := v]> (entries (l1 ++ l2)).
Proof.
  intros Hnd. unfold entries. rewrite (list_to_map_proper _ ((key, v) :: l1 ++ l2));
    [done|done|by rewrite Permutation_middle].
Qed.

Lemma entries_remove_at m i key v :
  ordmap_wf m → m !! i = Some (key, v) →
  entries (take i m ++ drop (S i) m) = delete key (entries m).
Proof.
  intros [Hs _] Hi. rewrite <-(take_drop_middle m i _ Hi) at 3.
  assert (NoDup (take i m ++ (key, v) :: drop (S i) m).*1) as Hnd
    by (rewrite take_drop_middle by done; by apply sorted_NoDup).
  rewrite entries_insert_at by done. rewrite delete_insert_id; [done|].
  apply not_elem_of_list_to_map_1. rewrite fmap_app in Hnd |- *. rewrite fmap_cons in Hnd.
  apply NoDup_app in Hnd as (_ & Hd & Hnd). apply NoDup_cons in Hnd as [Hn _].
  intros [Hin|Hin]%elem_of_app; [|done]. apply (Hd _ Hin). by left.
Qed.

Lemma sorted_remove m i :
  StronglySorted entry_lt m → StronglySorted entry_lt (take i m ++ drop (S i) m).
Proof.
  intros Hs. destruct (m !! i) as [x|] eqn:Hi.
  - rewrite <-(take_drop_middle m i x Hi) in Hs. apply StronglySorted_app in Hs as (Hx & H1 & H2).
    apply StronglySorted_cons in H2 as [_ H2]. apply StronglySorted_app. split_and!; [|done|done].
    intros x1 x2 ? ?. apply Hx; [done|by right].
  - apply lookup_ge_None in Hi. rewrite take_ge, drop_ge by lia. by rewrite app_nil_r.
Qed.

Lemma sorted_replace m i key v v' :
  StronglySorted entry_lt m → m !! i = Some (key, v) →
  StronglySorted entry_lt (take i m ++ [(key, v')] ++ drop (S i) m).
Proof.
  intros Hs Hi. rewrite <-(take_drop_middle m i _ Hi) in Hs.
  apply StronglySorted_app in Hs as (Hx & H1 & [Hall H2]%StronglySorted_cons).
  apply StronglySorted_app. split_and!; [|done|by apply StronglySorted_cons].
  intros x1 x2 Hx1 [->|Hx2]%elem_of_cons; [apply (Hx x1 (key, v) Hx1); by left|apply Hx; [done|by right]].
Qed.

Lemma sorted_insert m i key v :
  StronglySorted entry_lt m →
  (∀ j x, (j < i)%nat → m !! j = Some x → ord x.1 key = Lt) →
  (∀ j x, (i <= j)%nat → m !! j = Some x → ord x.1 key = Gt) →
  StronglySorted entry_lt (take i m ++ [(key, v)] ++ drop i m).
Proof.
  intros Hs Hb Ha. rewrite <-(take_drop i m) in Hs.
  apply StronglySorted_app in Hs as (Hx & H1 & H2). apply StronglySorted_app. split_and!; [|done|].
  - intros x1 x2 Hx1 [->|Hx2]%elem_of_cons; [|by apply Hx].
    apply list_elem_of_lookup in Hx1 as [j Hj]. apply lookup_take_Some in Hj as [Hj Hlt].
    by apply (Hb j).
  - apply StronglySorted_cons. split; [|done]. apply Forall_forall. intros x Hin.
    apply list_elem_of_lookup in Hin as [j Hj]. rewrite lookup_drop in Hj.
    unfold entry_lt. rewrite ord_flip. simpl. rewrite (Ha (i + j)%nat x); [done|lia|done].
Qed.

End entries.

(** ** The map refines a finite map *)
Section ordmap_refines.
Context {B K V : Type} `{AsBudget B} (I : B → Prop) (E : Error → Prop) `{!Metered B I E} `{Countable K}.
Context (compare : K → K → M B comparison) (ord : K → K → comparison).
Context `{DeclaredSizeForMetering K, DeclaredSizeForMetering V} `{MeteredClone B K, MeteredClone B V}.
Context `{!Comparator I E compare ord, !CloneReturns I E K, !CloneReturns I E V}.
Implicit Types (m : ordmap K V) (key : K) (value : V).
#[local] Abbreviation wf := (ordmap_wf ord).

Lemma charge_access_returns count : returns I (charge_access (K:=K) (V:=V) count) (λ _, True) E.
Proof. apply charge_returns; [done|]. unfold u64_saturating_mul, clamp, u64_max. lia. Qed.

Lemma charge_binsearch_returns m : returns I (charge_binsearch m) (λ _, True) E.
Proof. apply charge_returns; [done|]. unfold u64_saturating_mul, clamp, u64_max. lia. Qed.

Lemma check_windows_returns (l : ordmap K V) :
  returns I (check_windows compare l) (λ _, Sorted (entry_lt ord) l)
    (λ e, E e ∨ e = EHost TObject InvalidInput ∧ ¬ Sorted (entry_lt ord) l).
Proof.
  induction l as [|a [|b l] IH]; [by apply returns_ret; repeat constructor..|].
  cbn [check_windows]. eapply returns_bind.
  { eapply returns_weaken; [apply compare_returns|intros o Ho; exact Ho|by left]. }
  intros o ->. destruct (ord a.1 b.1) eqn:Hab.
  2: { eapply returns_weaken; [exact IH|intros ? Hl; by apply Sorted_cons, HdRel_cons|].
       intros e [|[-> Hn]]; [by left|right]. split; [done|]. intros Hl. by inversion Hl. }
  all: apply returns_fail; right; split; [done|]; intros Hl;
    inversion Hl as [|?? _ Hd]; inversion Hd as [|?? Hlt]; unfold entry_lt in Hlt; congruence.
Qed.

Lemma check_windows_sorted (l : ordmap K V) :
  StronglySorted (entry_lt ord) l → returns I (check_windows compare l) (λ _, True) E.
Proof.
  induction 1 as [|a l Hs IH Hall]; [by apply returns_ret|].
  destruct l as [|b l]; [by apply returns_ret|]. cbn [check_windows].
  apply Forall_cons in Hall as [Hab _]. unfold entry_lt in Hab.
  eapply returns_bind; [apply compare_returns|]. intros o ->. by rewrite Hab.
Qed.

(** Exactly the sorted vectors of unique keys make a map. *)
Lemma from_map_returns (l : ordmap K V) :
  returns I (from_map compare l) (λ m, m = l ∧ wf l)
    (λ e, E e ∨ (e = MAP_OOB ∨ e = EHost TObject InvalidInput) ∧ ¬ wf l).
Proof.
  unfold from_map. case_bool_decide.
  { apply returns_fail. right. split; [by left|]. intros []. lia. }
  eapply returns_bind; [|intros _ _].
  { eapply returns_weaken; [apply charge_access_returns|intros ? HT; exact HT|by left]. }
  eapply returns_bind; [|intros ? Hs].
  { eapply returns_weaken; [apply check_windows_returns|intros ? Hs; exact Hs|].
    intros e [|[-> Hn]]; [by left|right]. split; [by right|]. intros [Hs _]. by apply Hn, StronglySorted_Sorted. }
  apply returns_ret. split; [done|]. split; [|lia]. apply Sorted_StronglySorted; [apply _|exact Hs].
Qed.

Lemma from_map_sorted (l : ordmap K V) : wf l → returns I (from_map compare l) (eq l) E.
Proof.
  intros [Hs Hl]. unfold from_map. rewrite bool_decide_false by lia.
  eapply returns_bind; [apply charge_access_returns|intros _ _].
  eapply returns_bind; [by apply check_windows_sorted|intros _ _]. by apply returns_ret.
Qed.

Lemma from_exact_iter_sorted (l : ordmap K V) :
  wf l → returns I (from_exact_iter compare l) (eq l) E.
Proof.
  intros Hwf. unfold from_exact_iter. rewrite bool_decide_false by (destruct Hwf; lia).
  eapply returns_bind; [apply (charge_vec_returns I E)|intros _ _]. by apply from_map_sorted.
Qed.

(** What [find] answers. *)
Definition found m key (r : nat + nat) : Prop :=
  match r with
  | inl i => ∃ v, m !! i = Some (key, v)
  | inr i => (i <= length m)%nat ∧
      (∀ j x, (j < i)%nat → m !! j = Some x → ord x.1 key = Lt) ∧
      (∀ j x, (i <= j)%nat → m !! j = Some x → ord x.1 key = Gt)
  end.

Lemma find_returns m key : wf m → returns I (find compare m key) (found m key) E.
Proof.
  intros [Hs _]. eapply returns_bind; [apply charge_binsearch_returns|intros _ _].
  eapply returns_mono.
  { apply (fallible_search_returns _ I E (λ e, ord e.1 key)); [|exact (sorted_partitioned ord m key Hs)].
    intros x. eapply returns_mono; [apply compare_returns|done]. }
  intros [i|i]; [|done]. intros ([k v] & Hx & Hk). apply ord_eq in Hk. simpl in Hk. subst k. by exists v.
Qed.

(** ** The operations *)

Lemma get_returns m key : wf m → returns I (get compare m key) (eq (entries m !! key)) E.
Proof.
  intros Hwf. eapply returns_bind; [by apply find_returns|]. intros [i|i].
  - intros [v Hi]. eapply returns_bind; [apply charge_access_returns|]. intros _ _. rewrite Hi.
    apply returns_ret. by eapply (entries_at ord).
  - intros (_ & Hb & Ha). apply returns_ret. by eapply (entries_absent ord).
Qed.

Lemma contains_key_returns m key :
  wf m → returns I (contains_key compare m key) (eq (bool_decide (is_Some (entries m !! key)))) E.
Proof.
  intros Hwf. eapply returns_bind; [by apply find_returns|]. intros [i|i].
  - intros [v Hi]. apply returns_ret. apply bool_decide_true. rewrite (entries_at ord m i key v); eauto.
  - intros (_ & Hb & Ha). apply returns_ret. apply bool_decide_false.
    rewrite (entries_absent ord m i key) by done. by intros [].
Qed.

Definition full_error m key (e : Error) : Prop :=
  E e ∨ e = MAP_OOB ∧ Z.of_nat (length m) = u32_max ∧ entries m !! key = None.

Lemma insert_returns m key value :
  wf m → returns I (insert compare m key value)
    (λ m', wf m' ∧ entries m' = <[key := value]> (entries m)) (full_error m key).
Proof.
  intros Hwf. pose proof (ow_length _ _ Hwf) as Hlen. pose proof (ow_sorted _ _ Hwf) as Hs.
  assert (∀ l, wf l → entries l = <[key := value]> (entries m) →
    returns I (from_exact_iter compare l)
      (λ m', wf m' ∧ entries m' = <[key := value]> (entries m)) (full_error m key)) as Hmk.
  { intros l Hl Hl'. eapply returns_weaken; [by apply from_exact_iter_sorted| |by left]. by intros ? <-. }
  unfold insert. eapply returns_bind; [|intros _ _].
  { eapply returns_weaken; [apply charge_access_returns|intros ? HT; exact HT|by left]. }
  eapply returns_bind; [|intros r Hr].
  { eapply returns_weaken; [by apply find_returns|intros ? Hr; exact Hr|by left]. }
  destruct r as [i|i].
  - destruct Hr as [v Hi]. pose proof (lookup_lt_Some _ _ _ Hi).
    rewrite bool_decide_false by (unfold usize_max, u32_max in *; lia).
    pose proof (sorted_replace ord m i key v value Hs Hi) as Hs'. apply Hmk.
    + split; [done|]. rewrite !length_app, length_take, length_drop. simpl. lia.
    + simpl. rewrite entries_insert_at by (by apply (sorted_NoDup ord _ Hs')).
      rewrite (entries_remove_at ord m i key v) by done. by rewrite insert_delete_eq.
  - destruct Hr as (Hle & Hb & Ha). case_bool_decide as Hfull.
    { apply returns_fail. right. split_and!; [done|done|by eapply (entries_absent ord)]. }
    pose proof (sorted_insert ord m i key value Hs Hb Ha) as Hs'. apply Hmk.
    + split; [done|]. rewrite !length_app, length_take, length_drop. simpl. lia.
    + simpl. rewrite entries_insert_at by (by apply (sorted_NoDup ord _ Hs')). by rewrite take_drop.
Qed.

Definition removed m key (r : option (ordmap K V * V)) : Prop :=
  match r with
  | Some (m', v) => entries m !! key = Some v ∧ wf m' ∧ entries m' = delete key (entries m)
  | None => entries m !! key = None
  end.

Lemma remove_returns m key :
  wf m → returns I (remove compare m key) (removed m key) E.
Proof.
  intros Hwf. pose proof (ow_length _ _ Hwf) as Hlen. pose proof (ow_sorted _ _ Hwf) as Hs.
  eapply returns_bind; [by apply find_returns|]. intros [i|i].
  2: { intros (_ & Hb & Ha). apply returns_ret. by eapply (entries_absent ord). }
  intros [v Hi].
  assert ((if bool_decide (0 < i)%nat then from_exact_iter compare (take i m ++ drop (S i) m)
           else from_exact_iter compare (drop 1 m))
    = from_exact_iter compare (take i m ++ drop (S i) m))
    as -> by (case_bool_decide; [done|by replace i with 0%nat by lia]).
  assert (wf (take i m ++ drop (S i) m)) as Hwf'.
  { split; [by apply sorted_remove|]. rewrite length_app, length_take, length_drop. lia. }
  eapply returns_bind; [by apply from_exact_iter_sorted|]. intros ? <-. rewrite Hi.
  eapply returns_bind; [apply (metered_clone_returns I E)|]. intros ? <-. apply returns_ret.
  split; [by eapply (entries_at ord)|]. split; [done|by eapply (entries_remove_at ord)].
Qed.
End ordmap_refines.

(** * Theorems *)

(** C39: An ordered map behaves as a finite map.  On a well-formed map, in any context
    whose metering and comparisons keep the invariant [I] and fail only with errors
    of [E]: [get], [contains_key], [insert] and [remove] answer as the finite map of
    the entries does and leave a well-formed map, and the only other error is
    [insert]'s when a new key meets a full map; [from_map] accepts exactly the sorted
    vectors of unique keys. *)
Theorem ordmap_refines_map {B K V} `{AsBudget B} (I : B → Prop) (E : Error → Prop) `{!Metered B I E}
    `{Countable K} (compare : K → K → M B comparison) (ord : K → K → comparison)
    `{DeclaredSizeForMetering K, DeclaredSizeForMetering V} `{MeteredClone B K, MeteredClone B V}
    `{!Comparator I E compare ord, !CloneReturns I E K, !CloneReturns I E V} (m l : list (K * V)) :
  ordmap_wf ord m →
  (∀ key, returns I (get compare m key) (eq (entries m !! key)) E) ∧
  (∀ key, returns I (contains_key compare m key) (eq (bool_decide (is_Some (entries m !! key)))) E) ∧
  (∀ key value, returns I (insert compare m key value)
     (λ m', ordmap_wf ord m' ∧ entries m' = <[key := value]> (entries m))
     (λ e, E e ∨ e = MAP_OOB ∧ Z.of_nat (length m) = u32_max ∧ entries m !! key = None)) ∧
  (∀ key, returns I (remove compare m key)
     (λ r, match r with
           | Some (m', v) => entries m !! key = Some v ∧ ordmap_wf ord m' ∧ entries m' = delete key (entries m)
           | None => entries m !! key = None
           end) E) ∧
  returns I (from_map compare l) (λ m', m' = l ∧ ordmap_wf ord l)
    (λ e, E e ∨ (e = MAP_OOB ∨ e = EHost TObject InvalidInput) ∧ ¬ ordmap_wf ord l).
Proof.
  intros Hwf. split_and!.
  - intros key. by apply (get_returns I E compare ord).
  - intros key. by apply (contains_key_returns I E compare ord).
  - intros key value. by apply (insert_returns I E compare ord).
  - intros key. by apply (remove_returns I E compare ord).
  - by apply from_map_returns.
Qed.

(** Bisection ends with the right answer and is paid for: on a partitioned slice
    the search needs no fuel and never unwraps a missing element; it returns the
    position of the match, or the one where the element belongs with everything
    smaller before and everything greater after it; and it looks fewer times than
    the number of accesses [charge_binsearch] charges for. *)
Theorem binary_search_bounded {T} (slice : list T) (g : T → comparison) :
  partitioned slice g → Z.of_nat (length slice) <= usize_max →
  ∃ r n, binary_search_by_pre_rust_182 slice (counting (λ x s, (g x, s))) (0%nat, tt) = (Ok r, (n, tt)) ∧
    search_result slice g r ∧ (n < charged_accesses (length slice))%nat ∧
    ∀ B `(AsBudget B) K V `(DeclaredSizeForMetering K, DeclaredSizeForMetering V) (m : list (K * V)), length m = length slice →
      charge_binsearch m =
      charge MemCpy (Some (u64_saturating_mul (ENTRY_SIZE (K:=K) (V:=V)) (Z.of_nat (charged_accesses (length slice))))).
Proof.
  intros Hp Hlen.
  destruct (binary_search_finds slice (counting (λ x s, (g x, s))) g (λ _, True)
    ltac:(by left) Hp (0%nat, tt) I) as (r & Hr & Hres).
  pose proof (search_loop_cost slice (λ x (s : unit), (g x, s)) 0 (length slice) (0%nat, tt)) as Hcost.
  fold (binary_search_by_pre_rust_182 slice (counting (λ x (s : unit), (g x, s))) (0%nat, tt)) in Hcost.
  rewrite Nat.sub_0_r in Hcost.
  destruct (binary_search_by_pre_rust_182 slice _ _) as [res [n []]] eqn:Hout. simpl in Hr, Hcost. subst res.
  exists r, n. pose proof (bits_usize (length slice) Hlen).
  assert (leading_zeros (length slice) <= 64)%nat by (unfold leading_zeros; lia).
  assert (charged_accesses (length slice) = S (bits (length slice))) as Hacc
    by (unfold charged_accesses, leading_zeros; lia).
  split_and!; [done|by apply Hres|lia|]. intros B HB K V HK HV m Hm. unfold charge_binsearch. rewrite Hm.
  do 3 f_equal. unfold charged_accesses, u32_saturating_sub, u32_saturating_add.
  rewrite !clamp_id by (rewrite ?clamp_id by (unfold u32_max; lia); unfold u32_max; lia). lia.
Qed.

(** ** The theorems at work: a map from [u32]s on a budget without limits *)

Definition demo_compare : Z → Z → M BudgetImpl comparison := compare_fixed_size u32_size Z.compare.
Definition demo_map : list (Z * Z) := [(1, 10); (5, 50); (9, 90)].
Definition free_budget : BudgetImpl := reset_limits u64_max u64_max default_budget.

#[local] Existing Instances unlimited_metered u32_size.
#[local] Instance demo_clone : MeteredClone BudgetImpl Z := shallow_clone.

Lemma demo_comparator : Comparator unlimited (λ _, False) demo_compare Z.compare.
Proof.
  by apply (compare_fixed_size_comparator (H:=BudgetImpl_as_budget) unlimited (λ _, False)); [apply _|].
Qed.

Lemma demo_map_wf : ordmap_wf Z.compare demo_map.
Proof. split; [|done]. repeat constructor. Qed.

Lemma free_budget_unlimited : unlimited free_budget.
Proof.
  split_and!; [|done..]. by apply reset_limits_wf, default_budget_wf.
Qed.

Lemma ordmap_refines_map_witness :
  ordmap_wf Z.compare demo_map ∧
  (get demo_compare demo_map 5 free_budget).1 = Ok (Some 50) ∧
  (insert demo_compare demo_map 7 70 free_budget).1 =
    Ok [(1, 10); (5, 50); (7, 70); (9, 90)] ∧
  returns unlimited (remove demo_compare demo_map 5)
    (λ r, match r with
          | Some (m', v) => entries demo_map !! 5 = Some v ∧ ordmap_wf Z.compare m' ∧
              entries m' = delete 5 (entries demo_map)
          | None => entries demo_map !! 5 = None
          end) (λ _, False).
Proof.
  pose proof demo_comparator. pose proof (shallow_clone_returns unlimited (λ _, False) Z).
  destruct (ordmap_refines_map unlimited (λ _, False) demo_compare Z.compare demo_map [])
    as (Hget & _ & _ & Hremove & _); [exact demo_map_wf|].
  split; [exact demo_map_wf|]. split; [|split; [by vm_compute|exact (Hremove 5)]].
  destruct (Hget 5 free_budget free_budget_unlimited) as [_ Hr].
  by destruct (get demo_compare demo_map 5 free_budget).1; [rewrite <-Hr|].
Defined.

Lemma binary_search_bounded_witness :
  partitioned demo_map (λ e, e.1 ?= 6) ∧
  ∃ r n, binary_search_by_pre_rust_182 demo_map (counting (λ e s, (e.1 ?= 6, s))) (0%nat, tt) =
      (Ok r, (n, tt)) ∧
    search_result demo_map (λ e, e.1 ?= 6) r ∧ (n < 3)%nat.
Proof.
  assert (partitioned demo_map (λ e, e.1 ?= 6)) as Hp
    by exact (sorted_partitioned Z.compare demo_map 6 (ow_sorted _ _ demo_map_wf)).
  split; [exact Hp|].
  destruct (binary_search_bounded demo_map (λ e, e.1 ?= 6) Hp) as (r & n & H1 & H2 & H3 & _); [done|].
  by exists r, n.
Defined.
