(* ===== verification/Vector.v ===== *)
(** The host's vectors: [MeteredVector] of [host/metered_vector.rs].  They are never
    changed in place: every operation builds a new vector.  Indices and lengths are
    [nat]s, their limits written out. *)
From S2P Require Import Prelude Budget BudgetThms Metering Search OrdMap.
#[local] Open Scope m_scope.

Definition VEC_OOB : Error := EHost TObject IndexBounds.

(** [MeteredVector::add_or_err] and [sub_or_err]. *)
Definition add_or_err (x y : nat) : Result nat :=
  if decide (usize_max < Z.of_nat x + Z.of_nat y) then Err VEC_OOB
  else if decide (u32_max < Z.of_nat (x + y)) then Err VEC_OOB else Ok (x + y)%nat.
Definition sub_or_err (x y : nat) : Result nat :=
  if decide (y <= x)%nat then Ok (x - y)%nat else Err VEC_OOB.

(** [slice::get] on a range: [None] unless start, end and length are in order. *)
Definition slice_get {A} (l : list A) (start stop : nat) : option (list A) :=
  if decide (start <= stop <= length l)%nat then Some (take (stop - start) (drop start l)) else None.

Module MeteredVector.
Section vector.
Context {B A : Type} `{AsBudget B} `{DeclaredSizeForMetering A} `{MeteredClone B A}.
Implicit Types (self : list A) (value : A) (index : nat).

Definition charge_access (count : nat) : M B unit :=
  charge MemCpy (Some (u64_saturating_mul (DECLARED_SIZE A) (Z.of_nat count))).
Definition charge_scan self : M B unit :=
  charge MemCpy (Some (u64_saturating_mul (DECLARED_SIZE A) (Z.of_nat (length self)))).
Definition charge_binsearch self : M B unit :=
  let mag := u32_saturating_sub 64 (Z.of_nat (leading_zeros (length self))) in
  charge MemCpy (Some (u64_saturating_mul (DECLARED_SIZE A) (1 + mag))).

Definition from_vec (vec : list A) : M B (list A) :=
  if bool_decide (u32_max < Z.of_nat (length vec)) then m_fail VEC_OOB else m_ret vec.

(** The iterators of the source have exact sizes, so the size hint is the length. *)
Definition from_exact_iter (iter : list A) : M B (list A) :=
  if bool_decide (u32_max < Z.of_nat (length iter)) then m_fail VEC_OOB
  else charge_deep_clone iter ;;; from_vec iter.

Definition set self index value : M B (list A) :=
  let* new := metered_clone self in
  charge_access 1 ;;;
  if decide (index < length new)%nat then m_ret (<[index := value]> new) else m_fail VEC_OOB.

Definition get self index : M B A := charge_access 1 ;;; m_lift (ok_or (self !! index) VEC_OOB).

Definition push_front self value : M B (list A) :=
  if bool_decide (Z.of_nat (length self) = u32_max) then m_fail VEC_OOB
  else from_exact_iter ([value] ++ self).
Definition pop_front self : M B (list A) :=
  if bool_decide (self = []) then m_fail VEC_OOB else from_exact_iter (drop 1 self).
Definition push_back self value : M B (list A) :=
  if bool_decide (Z.of_nat (length self) = u32_max) then m_fail VEC_OOB
  else from_exact_iter (self ++ [value]).
Definition pop_back self : M B (list A) :=
  if bool_decide (self = []) then m_fail VEC_OOB
  else let* count := m_lift (sub_or_err (length self) 1) in from_exact_iter (take count self).

Definition remove self (idx : nat) : M B (list A) :=
  if bool_decide ((length self <= idx)%nat ∨ Z.of_nat idx = usize_max - 1) then m_fail VEC_OOB
  else let* skip := m_lift (add_or_err idx 1) in from_exact_iter (take idx self ++ drop skip self).

Definition front self : M B A := charge_access 1 ;;; m_lift (ok_or (head self) VEC_OOB).
Definition back self : M B A := charge_access 1 ;;; m_lift (ok_or (last self) VEC_OOB).

Definition insert self index value : M B (list A) :=
  if bool_decide (Z.of_nat (length self) = u32_max) then m_fail VEC_OOB
  else if bool_decide (length self < index)%nat then m_fail VEC_OOB
  else if bool_decide (index = length self) then push_back self value
  else if bool_decide (index = 0)%nat then push_front self value
  else from_exact_iter (take index self ++ [value] ++ drop index self).

Definition append self (other : list A) : M B (list A) :=
  m_lift (add_or_err (length self) (length other)) ;;; from_exact_iter (self ++ other).

Definition slice self (start stop : nat) : M B (list A) :=
  match slice_get self start stop with
  | Some s => from_exact_iter s
  | None => m_fail VEC_OOB
  end.

(** The loops of [first_index_of] and [last_index_of] over the enumerated elements. *)
Fixpoint find_equal (f : A → M B comparison) (l : list (nat * A)) : M B (option nat) :=
  match l with
  | [] => m_ret None
  | (i, val) :: l =>
      let* o := f val in
      match o with Eq => m_ret (Some i) | _ => find_equal f l end
  end.

Definition first_index_of self (f : A → M B comparison) : M B (option nat) :=
  charge_scan self ;;; find_equal f (imap pair self).
Definition last_index_of self (f : A → M B comparison) : M B (option nat) :=
  charge_scan self ;;; find_equal f (rev (imap pair self)).

Definition binary_search_by self (cmp : A → M B comparison) : M B (nat + nat) :=
  charge_binsearch self ;;; fallible_search cmp self.

Definition to_vec self : M B (list A) := metered_clone self.
End vector.
End MeteredVector.

(** * Specification

    What each operation means on lists; [None] is an index out of bounds or a vector
    longer than a [u32] counts. *)
Inductive vec_op (A : Type) :=
| VSet (i : nat) (x : A) | VInsert (i : nat) (x : A) | VRemove (i : nat)
| VPushFront (x : A) | VPushBack (x : A) | VPopFront | VPopBack
| VAppend (l : list A) | VSlice (i j : nat).
Arguments VSet {A}. Arguments VInsert {A}. Arguments VRemove {A}. Arguments VPushFront {A}.
Arguments VPushBack {A}. Arguments VPopFront {A}. Arguments VPopBack {A}. Arguments VAppend {A}.
Arguments VSlice {A}.

Section spec.
Context {A : Type}.
Implicit Types (l : list A).

Definition vec_fits l : Prop := Z.of_nat (length l) <= u32_max.
Definition bounded l : option (list A) := if decide (Z.of_nat (length l) <= u32_max) then Some l else None.

Definition vec_spec (op : vec_op A) l : option (list A) :=
  match op with
  | VSet i x => if decide (i < length l)%nat then Some (<[i := x]> l) else None
  | VInsert i x => if decide (i <= length l)%nat then bounded (take i l ++ x :: drop i l) else None
  | VRemove i => if decide (i < length l)%nat then Some (delete i l) else None
  | VPushFront x => bounded (x :: l)
  | VPushBack x => bounded (l ++ [x])
  | VPopFront => match l with [] => None | _ :: l => Some l end
  | VPopBack => match l with [] => None | _ => Some (removelast l) end
  | VAppend l' => bounded (l ++ l')
  | VSlice i j => if decide (i <= j <= length l)%nat then Some (take (j - i) (drop i l)) else None
  end.

Context {B : Type} `{AsBudget B} `{DeclaredSizeForMetering A} `{MeteredClone B A}.

(** The operation itself. *)
Definition vec_run (op : vec_op A) (self : list A) : M B (list A) :=
  match op with
  | VSet i x => MeteredVector.set self i x
  | VInsert i x => MeteredVector.insert self i x
  | VRemove i => MeteredVector.remove self i
  | VPushFront x => MeteredVector.push_front self x
  | VPushBack x => MeteredVector.push_back self x
  | VPopFront => MeteredVector.pop_front self
  | VPopBack => MeteredVector.pop_back self
  | VAppend l => MeteredVector.append self l
  | VSlice i j => MeteredVector.slice self i j
  end.

Context (I : B → Prop) (E : Error → Prop) `{!Metered B I E} `{!CloneReturns I E A}.

(** [p] builds the vector [o], or reports an index out of bounds if there is none. *)
Definition builds (o : option (list A)) (p : M B (list A)) : Prop :=
  returns I p (λ l, o = Some l ∧ vec_fits l) (λ e, E e ∨ e = VEC_OOB ∧ o = None).

Lemma bounded_none l : u32_max < Z.of_nat (length l) → bounded l = None.
Proof. intros. unfold bounded. by rewrite decide_False by lia. Qed.

Lemma bounded_some l : vec_fits l → bounded l = Some l.
Proof. intros. unfold bounded. by rewrite decide_True. Qed.

Lemma from_exact_iter_builds l : builds (bounded l) (MeteredVector.from_exact_iter l).
Proof.
  unfold builds, MeteredVector.from_exact_iter, MeteredVector.from_vec. case_bool_decide.
  { rewrite bounded_none by done. apply returns_fail. by right. }
  rewrite bounded_some by (unfold vec_fits; lia).
  apply (returns_bind I _ _ _ (λ _, True)); [|intros _ _; apply returns_ret; split; [done|unfold vec_fits; lia]].
  eapply returns_weaken; [apply (charge_vec_returns I E)|intros ? HT; exact HT|by left].
Qed.

Lemma builds_some l l' : vec_fits l → l = l' → builds (Some l') (MeteredVector.from_exact_iter l).
Proof.
  intros Hl <-. pose proof (from_exact_iter_builds l) as Hf. by rewrite bounded_some in Hf.
Qed.

Lemma builds_none e : e = VEC_OOB → builds None (m_fail e).
Proof. intros ->. apply returns_fail. by right. Qed.

Lemma builds_lift {T} (r : Result T) x o (f : T → M B (list A)) :
  r = Ok x → builds o (f x) → builds o (m_bind (m_lift r) f).
Proof. by intros ->. Qed.

Lemma full_longer l (x : A) l' :
  Z.of_nat (length l) = u32_max → length l' = S (length l) → bounded l' = None.
Proof. intros. apply bounded_none. lia. Qed.

Lemma push_front_builds l x : vec_fits l → builds (bounded (x :: l)) (MeteredVector.push_front l x).
Proof.
  intros Hl. unfold MeteredVector.push_front. case_bool_decide as Hfull.
  - rewrite (full_longer l x) by done. by apply builds_none.
  - apply (from_exact_iter_builds (x :: l)).
Qed.

Lemma push_back_builds l x : vec_fits l → builds (bounded (l ++ [x])) (MeteredVector.push_back l x).
Proof.
  intros Hl. unfold MeteredVector.push_back. case_bool_decide as Hfull.
  - rewrite (full_longer l x) by (done || rewrite length_app; simpl; lia). by apply builds_none.
  - apply from_exact_iter_builds.
Qed.

Lemma insert_builds l i x :
  vec_fits l →
  builds (if decide (i <= length l)%nat then bounded (take i l ++ x :: drop i l) else None)
    (MeteredVector.insert l i x).
Proof.
  intros Hl. unfold MeteredVector.insert.
  assert (∀ j, (j <= length l)%nat → length (take j l ++ x :: drop j l) = S (length l)) as Hlen
    by (intros; rewrite length_app, length_take; simpl; rewrite length_drop; lia).
  case_bool_decide as Hfull.
  { case_decide; [rewrite (full_longer l x) by auto|]; by apply builds_none. }
  case_bool_decide; [rewrite decide_False by lia; by apply builds_none|].
  rewrite decide_True by lia. case_bool_decide; [|case_bool_decide].
  - subst i. rewrite firstn_all, drop_all. by apply push_back_builds.
  - subst i. rewrite drop_0. by apply push_front_builds.
  - apply from_exact_iter_builds.
Qed.

Lemma remove_builds l i :
  vec_fits l → builds (if decide (i < length l)%nat then Some (delete i l) else None) (MeteredVector.remove l i).
Proof.
  intros Hl. unfold MeteredVector.remove. unfold vec_fits, u32_max in Hl.
  case_bool_decide as Hout.
  { rewrite decide_False by (unfold usize_max in Hout; lia). by apply builds_none. }
  assert (i < length l)%nat by lia. rewrite decide_True by done.
  apply (builds_lift _ (i + 1)%nat).
  { unfold add_or_err, usize_max, u32_max. by rewrite !decide_False by lia. }
  apply builds_some.
  - unfold vec_fits, u32_max. rewrite length_app, length_take, length_drop. lia.
  - by rewrite delete_take_drop, Nat.add_1_r.
Qed.

Lemma pop_back_builds l :
  vec_fits l → builds (match l with [] => None | _ => Some (removelast l) end) (MeteredVector.pop_back l).
Proof.
  intros Hl. unfold MeteredVector.pop_back. destruct l as [|x l]; [by apply builds_none|].
  rewrite bool_decide_false by done. apply (builds_lift _ (length (x :: l) - 1)%nat).
  { unfold sub_or_err. by rewrite decide_True by (simpl; lia). }
  apply builds_some.
  - unfold vec_fits in *. rewrite length_take. lia.
  - rewrite removelast_firstn_len. f_equal. simpl. lia.
Qed.

Lemma append_builds l l' : builds (bounded (l ++ l')) (MeteredVector.append l l').
Proof.
  unfold MeteredVector.append, add_or_err. case_decide; [|case_decide].
  - rewrite bounded_none by (rewrite length_app; unfold usize_max, u32_max in *; lia). by apply builds_none.
  - rewrite bounded_none by (rewrite length_app; lia). by apply builds_none.
  - apply from_exact_iter_builds.
Qed.

Lemma set_builds l i x :
  vec_fits l → builds (if decide (i < length l)%nat then Some (<[i := x]> l) else None) (MeteredVector.set l i x).
Proof.
  intros Hl. unfold MeteredVector.set, builds. eapply returns_bind.
  { eapply returns_weaken; [apply (metered_clone_returns I E)|intros ? He; exact He|by left]. }
  intros ? <-. apply (returns_bind I _ _ _ (λ _, True)).
  { eapply returns_weaken; [|intros ? HT; exact HT|by left]. apply charge_returns; [done|by apply clamp_bounds]. }
  intros _ _. case_decide; [|by apply builds_none]. apply returns_ret.
  split; [done|]. unfold vec_fits. by rewrite length_insert.
Qed.
Lemma vec_run_builds op l : vec_fits l → builds (vec_spec op l) (vec_run op l).
Proof.
  intros Hl. destruct op; simpl.
  - by apply set_builds.
  - by apply insert_builds.
  - by apply remove_builds.
  - by apply push_front_builds.
  - by apply push_back_builds.
  - unfold MeteredVector.pop_front. destruct l as [|x l]; [by apply builds_none|].
    rewrite bool_decide_false by done. change (drop 1 (x :: l)) with l.
    apply builds_some; [|done]. unfold vec_fits in *. simpl in Hl. lia.
  - by apply pop_back_builds.
  - by apply append_builds.
  - unfold MeteredVector.slice, slice_get. case_decide; [|by apply builds_none].
    apply builds_some; [|done]. unfold vec_fits in *. rewrite length_take, length_drop. lia.
Qed.
End spec.

(** ** Lookups and searches *)

Lemma lookup_imap_pair {A} (l : list A) j y : l !! j = Some y → imap pair l !! j = Some (j, y).
Proof. intros Hj. by rewrite list_lookup_imap, Hj. Qed.

Lemma elem_of_rev {A} (x : A) (l : list A) : x ∈ rev l ↔ x ∈ l.
Proof. by rewrite !list_elem_of_In, <-in_rev. Qed.

Lemma imap_pair_split {A} (l : list A) l1 i x l2 :
  imap pair l = l1 ++ (i, x) :: l2 →
  l !! i = Some x ∧
  (∀ j y, (j < i)%nat → l !! j = Some y → (j, y) ∈ l1) ∧
  (∀ j y, (i < j)%nat → l !! j = Some y → (j, y) ∈ l2).
Proof.
  intros Hl. assert (imap pair l !! length l1 = Some (i, x)) as Hi by (rewrite Hl; by apply list_lookup_middle).
  rewrite list_lookup_imap in Hi. destruct (l !! length l1) as [x'|] eqn:Hx; simplify_eq/=.
  split_and!; [done|..].
  - intros j y Hj Hy. apply lookup_imap_pair in Hy. rewrite Hl, lookup_app_l in Hy by done.
    by apply list_elem_of_lookup_2 in Hy.
  - intros j y Hj Hy. apply lookup_imap_pair in Hy. rewrite Hl, lookup_app_r in Hy by lia.
    replace (j - length l1)%nat with (S (j - length l1 - 1)) in Hy by lia.
    simpl in Hy. by eapply list_elem_of_lookup_2.
Qed.

Section lookups.
Context {A B : Type} `{AsBudget B} `{DeclaredSizeForMetering A} `{MeteredClone B A}.
Context (I : B → Prop) (E : Error → Prop) `{!Metered B I E} `{!CloneReturns I E A}.
Implicit Types (self : list A).

(** A lookup answers with [o], or reports an index out of bounds. *)
Definition looks_up {T} (o : option T) (p : M B T) : Prop :=
  returns I p (λ x, o = Some x) (λ e, E e ∨ e = VEC_OOB ∧ o = None).

Lemma lookup_returns {T} (o : option T) n :
  looks_up o (MeteredVector.charge_access (A:=A) n ;;; m_lift (ok_or o VEC_OOB)).
Proof.
  apply (returns_bind I _ _ _ (λ _, True)); [|intros _ _].
  - eapply returns_weaken; [|intros ? HT; exact HT|by left].
    apply charge_returns; [done|by apply clamp_bounds].
  - intros b Hb. split; [done|]. destruct o; simpl; [done|by right].
Qed.

Context (f : A → M B comparison) (g : A → comparison) (Hf : ∀ a, returns I (f a) (eq (g a)) E).

Definition scanned (l : list (nat * A)) (r : option nat) : Prop :=
  match r with
  | Some i => ∃ l1 x l2, l = l1 ++ (i, x) :: l2 ∧ g x = Eq ∧ ∀ p, p ∈ l1 → g p.2 ≠ Eq
  | None => ∀ p, p ∈ l → g p.2 ≠ Eq
  end.

Lemma find_equal_returns (l : list (nat * A)) : returns I (MeteredVector.find_equal f l) (scanned l) E.
Proof.
  induction l as [|[i x] l IH]; cbn [MeteredVector.find_equal].
  { apply returns_ret. intros p Hp. by apply elem_of_nil in Hp. }
  eapply returns_bind; [apply Hf|intros ? <-]. destruct (g x) eqn:Hx.
  { apply returns_ret. exists [], x, l. split_and!; [done|done|]. intros p Hp. by apply elem_of_nil in Hp. }
  all: eapply returns_mono; [exact IH|]; intros [j|]; simpl;
    [intros (l1 & y & l2 & -> & Hy & Hl1); exists ((i, x) :: l1), y, l2; split_and!; [done|done|]; rename Hl1 into Hin
    |intros Hin];
    intros p [->|Hp]%elem_of_cons; [simpl; congruence|by apply Hin|simpl; congruence|by apply Hin].
Qed.

Lemma charge_scan_returns self : returns I (MeteredVector.charge_scan self) (λ _, True) E.
Proof. apply charge_returns; [done|by apply clamp_bounds]. Qed.

(** The first or last match, [beyond] telling what lies on the far side of it. *)
Definition matched self (beyond : nat → nat → Prop) (r : option nat) : Prop :=
  match r with
  | Some i => (∃ x, self !! i = Some x ∧ g x = Eq) ∧ ∀ j y, beyond j i → self !! j = Some y → g y ≠ Eq
  | None => ∀ j y, self !! j = Some y → g y ≠ Eq
  end.

Lemma first_index_of_returns self :
  returns I (MeteredVector.first_index_of self f) (matched self (λ j i, (j < i)%nat)) E.
Proof.
  eapply returns_bind; [apply charge_scan_returns|intros _ _].
  eapply returns_mono; [apply find_equal_returns|]. intros [i|]; simpl.
  - intros (l1 & x & l2 & Hl & Hx & Hn). apply imap_pair_split in Hl as (Hi & Hlt & _).
    split; [by exists x|]. intros j y Hj Hy. by apply (Hn (j, y)), Hlt.
  - intros Hn j y Hy. apply (Hn (j, y)), (list_elem_of_lookup_2 _ j). by apply lookup_imap_pair.
Qed.

Lemma last_index_of_returns self :
  returns I (MeteredVector.last_index_of self f) (matched self (λ j i, (i < j)%nat)) E.
Proof.
  eapply returns_bind; [apply charge_scan_returns|intros _ _].
  eapply returns_mono; [apply find_equal_returns|]. intros [i|]; simpl.
  - intros (l1 & x & l2 & Hl & Hx & Hn). apply (f_equal (@rev _)) in Hl.
    rewrite rev_involutive, rev_app_distr in Hl. simpl in Hl. rewrite <-app_assoc in Hl. simpl in Hl.
    apply imap_pair_split in Hl as (Hi & _ & Hgt). split; [by exists x|]. intros j y Hj Hy.
    apply (Hn (j, y)), elem_of_rev. by apply Hgt.
  - intros Hn j y Hy. apply (Hn (j, y)), elem_of_rev.
    apply (list_elem_of_lookup_2 _ j). by apply lookup_imap_pair.
Qed.

Lemma binary_search_by_returns self :
  partitioned self g → returns I (MeteredVector.binary_search_by self f) (search_result self g) E.
Proof.
  intros Hp. eapply returns_bind; [|intros _ _; by apply fallible_search_returns].
  apply charge_returns; [done|by apply clamp_bounds].
Qed.
End lookups.

(** * Theorems *)

(** A host vector behaves as a list.  On a vector no longer than a [u32] counts, in
    any context whose metering keeps the invariant [I] and fails only with errors of
    [E]: each operation builds exactly the list it stands for, again no longer than
    that, and its only other error is an index out of bounds where the list operation
    is undefined; lookups answer likewise. *)
Theorem metered_vector_correct {A B} `{AsBudget B} `{DeclaredSizeForMetering A} `{MeteredClone B A}
    (I : B → Prop) (E : Error → Prop) `{!Metered B I E} `{!CloneReturns I E A} (self : list A) :
  Z.of_nat (length self) <= u32_max →
  (∀ op, returns I (vec_run op self)
     (λ l, vec_spec op self = Some l ∧ Z.of_nat (length l) <= u32_max)
     (λ e, E e ∨ e = VEC_OOB ∧ vec_spec op self = None)) ∧
  (∀ i, returns I (MeteredVector.get self i) (λ x, self !! i = Some x)
     (λ e, E e ∨ e = VEC_OOB ∧ self !! i = None)) ∧
  returns I (MeteredVector.front self) (λ x, head self = Some x)
     (λ e, E e ∨ e = VEC_OOB ∧ head self = None) ∧
  returns I (MeteredVector.back self) (λ x, last self = Some x)
     (λ e, E e ∨ e = VEC_OOB ∧ last self = None).
Proof.
  intros Hl. split_and!; [|by intros; apply lookup_returns|by apply lookup_returns..].
  intros op. by apply vec_run_builds.
Qed.

(** Searching a host vector finds what is there: with a comparison that answers [g]
    or fails with an error of [E], [first_index_of] gives the first match and
    [last_index_of] the last one, [None] only if nothing matches, and
    [binary_search_by] on a partitioned vector a match or the place for one. *)
Theorem vector_search_correct {A B} `{AsBudget B} `{DeclaredSizeForMetering A}
    (I : B → Prop) (E : Error → Prop) `{!Metered B I E}
    (f : A → M B comparison) (g : A → comparison) (self : list A) :
  (∀ a, returns I (f a) (eq (g a)) E) →
  let matches i := ∃ x, self !! i = Some x ∧ g x = Eq in
  returns I (MeteredVector.first_index_of self f)
    (λ r, match r with Some i => matches i ∧ ∀ j, (j < i)%nat → ¬ matches j | None => ∀ j, ¬ matches j end) E ∧
  returns I (MeteredVector.last_index_of self f)
    (λ r, match r with Some i => matches i ∧ ∀ j, (i < j)%nat → ¬ matches j | None => ∀ j, ¬ matches j end) E ∧
  (partitioned self g → returns I (MeteredVector.binary_search_by self f) (search_result self g) E).
Proof.
  intros Hf matches. split_and!.
  - eapply returns_mono; [by apply first_index_of_returns|].
    intros [i|]; simpl; [intros [Hi Hn]; split; [done|]|intros Hn]; intros j; [intros Hj|];
      intros (y & Hy & Hg); by eapply Hn.
  - eapply returns_mono; [by apply last_index_of_returns|].
    intros [i|]; simpl; [intros [Hi Hn]; split; [done|]|intros Hn]; intros j; [intros Hj|];
      intros (y & Hy & Hg); by eapply Hn.
  - by apply binary_search_by_returns.
Qed.

(** ** The theorems at work: vectors of [u32]s on a budget without limits *)

#[local] Existing Instances unlimited_metered u32_size.
#[local] Instance u32_clone : MeteredClone BudgetImpl Z := shallow_clone.

Lemma metered_vector_correct_witness :
  Z.of_nat (length [1; 2; 3]) <= u32_max ∧
  (vec_run (VInsert 1 7) [1; 2; 3] free_budget).1 = Ok [1; 7; 2; 3] ∧
  (vec_run (VRemove 3) [1; 2; 3] free_budget).1 = Err VEC_OOB.
Proof.
  pose proof (shallow_clone_returns unlimited (λ _, False) Z).
  destruct (metered_vector_correct unlimited (λ _, False) [1; 2; 3]) as [Hops _]; [done|].
  split; [done|]. split.
  - destruct (Hops (VInsert 1 7) free_budget free_budget_unlimited) as [_ Hr].
    destruct (vec_run (VInsert 1 7) [1; 2; 3] free_budget).1; [|by destruct Hr as [|[]]].
    by destruct Hr as [[= <-] _].
  - destruct (Hops (VRemove 3) free_budget free_budget_unlimited) as [_ Hr].
    destruct (vec_run (VRemove 3) [1; 2; 3] free_budget).1; [by destruct Hr|].
    by destruct Hr as [|[-> _]].
Defined.

Definition demo_cmp (k : Z) (x : Z) : M BudgetImpl comparison := demo_compare x k.

Lemma demo_cmp_returns k a : returns unlimited (demo_cmp k a) (eq (a ?= k)) (λ _, False).
Proof. eapply returns_mono; [apply (compare_returns (Comparator:=demo_comparator))|done]. Qed.

Lemma vector_search_correct_witness :
  (MeteredVector.first_index_of [4; 7; 7; 9] (demo_cmp 7) free_budget).1 = Ok (Some 1%nat) ∧
  (MeteredVector.last_index_of [4; 7; 7; 9] (demo_cmp 7) free_budget).1 = Ok (Some 2%nat) ∧
  returns unlimited (MeteredVector.first_index_of [4; 7; 7; 9] (demo_cmp 7))
    (λ r, match r with
          | Some i => (∃ x, [4; 7; 7; 9] !! i = Some x ∧ (x ?= 7) = Eq) ∧
              ∀ j, (j < i)%nat → ¬ ∃ x, [4; 7; 7; 9] !! j = Some x ∧ (x ?= 7) = Eq
          | None => ∀ j, ¬ ∃ x, [4; 7; 7; 9] !! j = Some x ∧ (x ?= 7) = Eq
          end) (λ _, False).
Proof.
  split; [by vm_compute|]. split; [by vm_compute|].
  apply (vector_search_correct unlimited (λ _, False) (demo_cmp 7) (λ x, x ?= 7)).
  exact (demo_cmp_returns 7).
Defined.
