(* ===== verification/Fees.v ===== *)
(** Fees: [fees.rs].  Fees and rates are [i64]s, resources and ledgers [u32]s; every
    operation saturates.  Ceiling division comes from the [num_integer] crate and is a
    parameter, with what its documentation promises as the hypothesis. *)
From S2P Require Import Prelude.

Definition TX_BASE_RESULT_SIZE : Z := 300.
Definition TTL_ENTRY_SIZE : Z := 48.
Definition INSTRUCTIONS_INCREMENT : Z := 10000.
Definition DATA_SIZE_1KB_INCREMENT : Z := 1024.
Definition MINIMUM_WRITE_FEE_PER_1KB : Z := 1000.

Record TransactionResources := mkResources {
  instructions : Z;
  read_entries : Z;
  write_entries : Z;
  read_bytes : Z;
  write_bytes : Z;
  contract_events_size_bytes : Z;
  transaction_size_bytes : Z
}.

Record FeeConfiguration := mkFeeConfig {
  fee_per_instruction_increment : Z;
  fee_per_read_entry : Z;
  fee_per_write_entry : Z;
  fee_per_read_1kb : Z;
  fee_per_write_1kb : Z;
  fee_per_historical_1kb : Z;
  fee_per_contract_event_1kb : Z;
  fee_per_transaction_size_1kb : Z
}.

Record WriteFeeConfiguration := mkWriteFeeConfig {
  bucket_list_target_size_bytes : Z;
  write_fee_1kb_bucket_list_low : Z;
  write_fee_1kb_bucket_list_high : Z;
  bucket_list_write_fee_growth_factor : Z
}.

Record LedgerEntryRentChange := mkRentChange {
  is_persistent : bool;
  old_size_bytes : Z;
  new_size_bytes : Z;
  old_live_until_ledger : Z;
  new_live_until_ledger : Z
}.

Record RentFeeConfiguration := mkRentConfig {
  rent_fee_per_write_1kb : Z;
  rent_fee_per_write_entry : Z;
  persistent_rent_rate_denominator : Z;
  temporary_rent_rate_denominator : Z
}.

(** [ClampFee] on [i64] and [i128]. *)
Definition clamp_fee_i64 (self : Z) : Z := if decide (self < 0) then i64_max else self.
Definition clamp_fee_i128 (self : Z) : Z :=
  if decide (self < 0) then i64_max else if decide (self <= i64_max) then self else i64_max.

Definition exclusive_ledger_diff (lo hi : Z) : option Z := u32_checked_sub hi lo.
Definition inclusive_ledger_diff (lo hi : Z) : option Z :=
  (λ diff, u32_saturating_add diff 1) <$> exclusive_ledger_diff lo hi.

Definition entry_is_new (e : LedgerEntryRentChange) : bool :=
  (old_size_bytes e =? 0) && (old_live_until_ledger e =? 0).

Definition extension_ledgers (e : LedgerEntryRentChange) (current_ledger : Z) : option Z :=
  let ledger_before_extension :=
    if entry_is_new e then u32_saturating_sub current_ledger 1 else old_live_until_ledger e in
  exclusive_ledger_diff ledger_before_extension (new_live_until_ledger e).

Definition prepaid_ledgers (e : LedgerEntryRentChange) (current_ledger : Z) : option Z :=
  if entry_is_new e then None else inclusive_ledger_diff current_ledger (old_live_until_ledger e).

Definition size_increase (e : LedgerEntryRentChange) : option Z :=
  u32_checked_sub (new_size_bytes e) (old_size_bytes e).

Section fees.
Context (div_ceil : Z → Z → Z).

Definition compute_fee_per_increment (resource_value fee_rate increment : Z) : Z :=
  div_ceil (i64_saturating_mul resource_value fee_rate) (Z.max increment 1).

Definition compute_transaction_resource_fee (r : TransactionResources) (c : FeeConfiguration) : Z * Z :=
  let compute_fee :=
    compute_fee_per_increment (instructions r) (fee_per_instruction_increment c) INSTRUCTIONS_INCREMENT in
  let ledger_read_entry_fee :=
    i64_saturating_mul (fee_per_read_entry c) (u32_saturating_add (read_entries r) (write_entries r)) in
  let ledger_write_entry_fee := i64_saturating_mul (fee_per_write_entry c) (write_entries r) in
  let ledger_read_bytes_fee :=
    compute_fee_per_increment (read_bytes r) (fee_per_read_1kb c) DATA_SIZE_1KB_INCREMENT in
  let ledger_write_bytes_fee :=
    compute_fee_per_increment (write_bytes r) (fee_per_write_1kb c) DATA_SIZE_1KB_INCREMENT in
  let historical_fee :=
    compute_fee_per_increment (u32_saturating_add (transaction_size_bytes r) TX_BASE_RESULT_SIZE)
      (fee_per_historical_1kb c) DATA_SIZE_1KB_INCREMENT in
  let events_fee :=
    compute_fee_per_increment (contract_events_size_bytes r) (fee_per_contract_event_1kb c)
      DATA_SIZE_1KB_INCREMENT in
  let bandwidth_fee :=
    compute_fee_per_increment (transaction_size_bytes r) (fee_per_transaction_size_1kb c)
      DATA_SIZE_1KB_INCREMENT in
  let non_refundable_fee :=
    foldl i64_saturating_add compute_fee
      [ledger_read_entry_fee; ledger_write_entry_fee; ledger_read_bytes_fee; ledger_write_bytes_fee;
       historical_fee; bandwidth_fee] in
  (non_refundable_fee, events_fee).

Definition compute_write_fee_per_1kb (bucket_list_size_bytes : Z) (c : WriteFeeConfiguration) : Z :=
  let target := bucket_list_target_size_bytes c in
  let fee_rate_multiplier :=
    clamp_fee_i64 (i64_saturating_sub (write_fee_1kb_bucket_list_high c) (write_fee_1kb_bucket_list_low c)) in
  let write_fee_per_1kb :=
    if decide (bucket_list_size_bytes < target) then
      i64_saturating_add
        (clamp_fee_i128 (div_ceil (i128_saturating_mul fee_rate_multiplier bucket_list_size_bytes)
                           (Z.max target 1)))
        (write_fee_1kb_bucket_list_low c)
    else
      let bucket_list_size_after_reaching_target := i64_saturating_sub bucket_list_size_bytes target in
      let post_target_fee :=
        clamp_fee_i128 (div_ceil
          (i128_saturating_mul
             (i128_saturating_mul fee_rate_multiplier bucket_list_size_after_reaching_target)
             (bucket_list_write_fee_growth_factor c))
          (Z.max target 1)) in
      i64_saturating_add (write_fee_1kb_bucket_list_high c) post_target_fee in
  Z.max write_fee_per_1kb MINIMUM_WRITE_FEE_PER_1KB.

Definition rent_fee_for_size_and_ledgers (persistent : bool) (entry_size rent_ledgers : Z)
    (c : RentFeeConfiguration) : Z :=
  let num := i64_saturating_mul (i64_saturating_mul entry_size (rent_fee_per_write_1kb c)) rent_ledgers in
  let storage_coef :=
    if persistent then persistent_rent_rate_denominator c else temporary_rent_rate_denominator c in
  let denom := i64_saturating_mul DATA_SIZE_1KB_INCREMENT storage_coef in
  div_ceil num (Z.max denom 1).

Definition rent_fee_per_entry_change (e : LedgerEntryRentChange) (c : RentFeeConfiguration)
    (current_ledger : Z) : Z :=
  let fee :=
    match extension_ledgers e current_ledger with
    | Some rent_ledgers =>
        i64_saturating_add 0
          (rent_fee_for_size_and_ledgers (is_persistent e) (new_size_bytes e) rent_ledgers c)
    | None => 0
    end in
  match prepaid_ledgers e current_ledger, size_increase e with
  | Some rent_ledgers, Some entry_size =>
      i64_saturating_add fee (rent_fee_for_size_and_ledgers (is_persistent e) entry_size rent_ledgers c)
  | _, _ => fee
  end.

(** The loop of [compute_rent_fee]: fee, extended entries, size of their keys. *)
Definition rent_step (c : RentFeeConfiguration) (current_ledger_seq : Z) (acc : Z * Z * Z)
    (e : LedgerEntryRentChange) : Z * Z * Z :=
  let '(fee, extended_entries, extended_entry_key_size_bytes) := acc in
  let fee := i64_saturating_add fee (rent_fee_per_entry_change e c current_ledger_seq) in
  if decide (old_live_until_ledger e < new_live_until_ledger e) then
    (fee, i64_saturating_add extended_entries 1,
     u32_saturating_add extended_entry_key_size_bytes TTL_ENTRY_SIZE)
  else (fee, extended_entries, extended_entry_key_size_bytes).

Definition compute_rent_fee (changed_entries : list LedgerEntryRentChange) (c : RentFeeConfiguration)
    (current_ledger_seq : Z) : Z :=
  let '(fee, extended_entries, extended_entry_key_size_bytes) :=
    foldl (rent_step c current_ledger_seq) (0, 0, 0) changed_entries in
  let fee := i64_saturating_add fee (i64_saturating_mul (rent_fee_per_write_entry c) extended_entries) in
  i64_saturating_add fee
    (compute_fee_per_increment extended_entry_key_size_bytes (rent_fee_per_write_1kb c)
       DATA_SIZE_1KB_INCREMENT).
End fees.

(** * Saturation of what is not negative *)

Definition in_fee (n : Z) : Prop := 0 <= n <= i64_max.

Lemma saturating_add_fee a b : in_fee a → 0 <= b → i64_saturating_add a b = Z.min i64_max (a + b).
Proof. unfold in_fee, i64_saturating_add, clamp, i64_min, i64_max. lia. Qed.

Lemma saturating_mul_fee a b : 0 <= a → 0 <= b → i64_saturating_mul a b = Z.min i64_max (a * b).
Proof. intros. unfold i64_saturating_mul, clamp, i64_min, i64_max. nia. Qed.

Lemma saturating_add_in_fee a b : in_fee a → 0 <= b → in_fee (i64_saturating_add a b).
Proof. intros Ha Hb. rewrite saturating_add_fee by done. unfold in_fee, i64_max in *. lia. Qed.

Lemma saturating_mul_in_fee a b : 0 <= a → 0 <= b → in_fee (i64_saturating_mul a b).
Proof. intros. rewrite saturating_mul_fee by done. unfold in_fee, i64_max. nia. Qed.

Lemma saturating_add_mono a a' b b' : a <= a' → b <= b' → i64_saturating_add a b <= i64_saturating_add a' b'.
Proof. intros. apply clamp_mono. lia. Qed.

Lemma saturating_mul_mono a b b' : 0 <= a → b <= b' → i64_saturating_mul a b <= i64_saturating_mul a b'.
Proof. intros. apply clamp_mono. nia. Qed.

Lemma u32_saturating_add_mono a a' b b' : a <= a' → b <= b' → u32_saturating_add a b <= u32_saturating_add a' b'.
Proof. intros. apply clamp_mono. lia. Qed.

Lemma foldl_saturating_mono l l' a a' :
  a <= a' → Forall2 Z.le l l' → foldl i64_saturating_add a l <= foldl i64_saturating_add a' l'.
Proof.
  intros Ha Hl. revert a a' Ha. induction Hl as [|x x' l l' Hx _ IH]; intros a a' Ha; [done|].
  apply IH. by apply saturating_add_mono.
Qed.

Lemma foldl_saturating_fee l a : in_fee a → Forall (λ x, 0 <= x) l → in_fee (foldl i64_saturating_add a l).
Proof.
  intros Ha Hl. revert a Ha. induction Hl as [|x l Hx _ IH]; intros a Ha; [done|].
  apply IH. by apply saturating_add_in_fee.
Qed.

Definition total (f : LedgerEntryRentChange → Z) (l : list LedgerEntryRentChange) : Z :=
  foldr (λ e n, f e + n) 0 l.

Lemma total_Permutation f l l' : l ≡ₚ l' → total f l = total f l'.
Proof. induction 1; simpl; lia. Qed.

Lemma total_nonneg f l : Forall (λ e, 0 <= f e) l → 0 <= total f l.
Proof. induction 1; simpl; lia. Qed.

(** What sane configurations and inputs are. *)
Definition resources_wf (r : TransactionResources) : Prop :=
  in_u32 (instructions r) ∧ in_u32 (read_entries r) ∧ in_u32 (write_entries r) ∧ in_u32 (read_bytes r) ∧
  in_u32 (write_bytes r) ∧ in_u32 (contract_events_size_bytes r) ∧ in_u32 (transaction_size_bytes r).

Definition resources_le (r r' : TransactionResources) : Prop :=
  instructions r <= instructions r' ∧ read_entries r <= read_entries r' ∧
  write_entries r <= write_entries r' ∧ read_bytes r <= read_bytes r' ∧ write_bytes r <= write_bytes r' ∧
  contract_events_size_bytes r <= contract_events_size_bytes r' ∧
  transaction_size_bytes r <= transaction_size_bytes r'.

Definition fee_config_wf (c : FeeConfiguration) : Prop :=
  in_fee (fee_per_instruction_increment c) ∧ in_fee (fee_per_read_entry c) ∧
  in_fee (fee_per_write_entry c) ∧ in_fee (fee_per_read_1kb c) ∧ in_fee (fee_per_write_1kb c) ∧
  in_fee (fee_per_historical_1kb c) ∧ in_fee (fee_per_contract_event_1kb c) ∧
  in_fee (fee_per_transaction_size_1kb c).

Definition write_config_wf (c : WriteFeeConfiguration) : Prop :=
  1 <= bucket_list_target_size_bytes c <= i64_max ∧
  0 <= write_fee_1kb_bucket_list_low c <= write_fee_1kb_bucket_list_high c ∧
  write_fee_1kb_bucket_list_high c <= i64_max ∧ in_u32 (bucket_list_write_fee_growth_factor c).

Definition rent_config_wf (c : RentFeeConfiguration) : Prop :=
  in_fee (rent_fee_per_write_1kb c) ∧ in_fee (rent_fee_per_write_entry c) ∧
  in_fee (persistent_rent_rate_denominator c) ∧ in_fee (temporary_rent_rate_denominator c).

Definition change_wf (e : LedgerEntryRentChange) : Prop :=
  in_u32 (old_size_bytes e) ∧ in_u32 (new_size_bytes e) ∧ in_u32 (old_live_until_ledger e) ∧
  in_u32 (new_live_until_ledger e).

Section fees_correct.
Context (div_ceil : Z → Z → Z).
(** Ceiling division by a positive number. *)
Context (div_ceil_spec : ∀ a b, 0 < b → a <= b * div_ceil a b < a + b).

Lemma div_ceil_mono a a' b : 0 < b → a <= a' → div_ceil a b <= div_ceil a' b.
Proof.
  intros Hb Ha. pose proof (div_ceil_spec a b Hb). pose proof (div_ceil_spec a' b Hb). nia.
Qed.

Lemma div_ceil_bounds a b : 0 < b → 0 <= a → 0 <= div_ceil a b <= a.
Proof. intros Hb Ha. pose proof (div_ceil_spec a b Hb). nia. Qed.

Lemma div_ceil_sub_additive a a' a'' b :
  0 < b → a'' <= a + a' → div_ceil a'' b <= div_ceil a b + div_ceil a' b.
Proof.
  intros Hb Ha. pose proof (div_ceil_spec a b Hb). pose proof (div_ceil_spec a' b Hb).
  pose proof (div_ceil_spec a'' b Hb). nia.
Qed.

Lemma per_increment_fee v rate inc : 0 <= v → 0 <= rate → in_fee (compute_fee_per_increment div_ceil v rate inc).
Proof.
  intros Hv Hr. pose proof (saturating_mul_in_fee v rate Hv Hr) as [??].
  pose proof (div_ceil_bounds (i64_saturating_mul v rate) (Z.max inc 1) ltac:(lia) ltac:(done)).
  unfold in_fee, compute_fee_per_increment. lia.
Qed.

Lemma per_increment_mono v v' rate inc :
  v <= v' → 0 <= rate →
  compute_fee_per_increment div_ceil v rate inc <= compute_fee_per_increment div_ceil v' rate inc.
Proof.
  intros Hv Hr. apply div_ceil_mono; [lia|]. apply clamp_mono. nia.
Qed.

Lemma rent_size_fee p size n c :
  rent_config_wf c → 0 <= size → 0 <= n → in_fee (rent_fee_for_size_and_ledgers div_ceil p size n c).
Proof.
  intros ([Hw _] & _) Hs Hn. unfold rent_fee_for_size_and_ledgers.
  pose proof (saturating_mul_in_fee _ _ Hs Hw) as [H1 _].
  pose proof (saturating_mul_in_fee _ _ H1 Hn) as [H2 H3].
  match goal with |- in_fee (div_ceil ?a ?b) => pose proof (div_ceil_bounds a b ltac:(lia) H2) end.
  unfold in_fee. lia.
Qed.

Lemma entry_change_fee e c cur :
  rent_config_wf c → change_wf e → in_u32 cur → in_fee (rent_fee_per_entry_change div_ceil e c cur).
Proof.
  intros Hc (Hos & Hns & Hol & Hnl) Hcur. unfold rent_fee_per_entry_change.
  assert (∀ n, extension_ledgers e cur = Some n → 0 <= n) as Hext.
  { unfold extension_ledgers, exclusive_ledger_diff, u32_checked_sub. intros n. case_decide; [|done].
    intros [= <-]. lia. }
  assert (∀ n, prepaid_ledgers e cur = Some n → 0 <= n) as Hpre.
  { unfold prepaid_ledgers, inclusive_ledger_diff, exclusive_ledger_diff, u32_checked_sub. intros n.
    destruct (entry_is_new e); [done|]. case_decide; [|done]. intros [= <-]. by apply clamp_bounds. }
  assert (∀ n, size_increase e = Some n → 0 <= n) as Hinc.
  { unfold size_increase, u32_checked_sub. intros n. case_decide; [|done]. intros [= <-]. lia. }
  assert (in_fee 0) as H0 by (unfold in_fee, i64_max; lia).
  match goal with |- in_fee match _ with Some _ => match _ with Some _ => i64_saturating_add ?f _ | None => _ end | None => _ end =>
    assert (in_fee f) as Hf end.
  { destruct (extension_ledgers e cur) as [n|]; [|done]. apply saturating_add_in_fee; [done|].
    apply rent_size_fee; [done|apply Hns|by apply Hext]. }
  destruct (prepaid_ledgers e cur) as [n|]; [|done]. destruct (size_increase e) as [s|]; [|done].
  apply saturating_add_in_fee; [done|]. apply rent_size_fee; auto.
Qed.
End fees_correct.

(** * Rent as sums *)
Section rent_sums.
Context (div_ceil : Z → Z → Z) (div_ceil_spec : ∀ a b, 0 < b → a <= b * div_ceil a b < a + b).
Context (c : RentFeeConfiguration) (cur : Z) (Hc : rent_config_wf c) (Hcur : in_u32 cur).

Definition entry_rent (e : LedgerEntryRentChange) : Z := rent_fee_per_entry_change div_ceil e c cur.
Definition extended (e : LedgerEntryRentChange) : Z :=
  if decide (old_live_until_ledger e < new_live_until_ledger e) then 1 else 0.

Lemma extended_cases e :
  old_live_until_ledger e < new_live_until_ledger e ∧ extended e = 1 ∨
  ¬ old_live_until_ledger e < new_live_until_ledger e ∧ extended e = 0.
Proof. unfold extended. case_decide; auto. Qed.

Lemma rent_loop_sums l f n k :
  Forall change_wf l → in_fee f → in_fee n → in_u32 k →
  foldl (rent_step div_ceil c cur) (f, n, k) l =
    (Z.min i64_max (f + total entry_rent l), Z.min i64_max (n + total extended l),
     Z.min u32_max (k + TTL_ENTRY_SIZE * total extended l)).
Proof.
  intros Hl. revert f n k. induction Hl as [|e l He Hl IH]; intros f n k Hf Hn Hk.
  { simpl. unfold in_fee, in_u32 in *. rewrite !Z.min_r by lia. do 2 f_equal; lia. }
  pose proof (entry_change_fee div_ceil div_ceil_spec e c cur Hc He Hcur) as Hr.
  change (in_fee (entry_rent e)) in Hr. assert (0 <= total entry_rent l) as Ht.
  { apply total_nonneg. eapply Forall_impl; [exact Hl|]. intros e' He'.
    by apply (entry_change_fee div_ceil div_ceil_spec). }
  assert (0 <= total extended l) as Hx.
  { apply total_nonneg, Forall_true. intros e'. unfold extended. by case_decide. }
  cbn [foldl total foldr]. fold (total entry_rent l) (total extended l).
  unfold rent_step at 2. fold (entry_rent e). rewrite saturating_add_fee by (done || apply Hr).
  assert (in_fee (Z.min i64_max (f + entry_rent e))) as Hf' by (unfold in_fee, i64_max in *; lia).
  unfold TTL_ENTRY_SIZE in *. destruct (extended_cases e) as [[Hlt Hx1]|[Hlt Hx1]]; rewrite Hx1;
    [rewrite decide_True by done|rewrite decide_False by done]; rewrite IH; clear IH; try done.
  - rewrite saturating_add_fee by done.
    unfold in_fee, in_u32, u32_saturating_add, clamp, u32_max, i64_max in *.
    f_equal; [f_equal|]; lia.
  - by apply saturating_add_in_fee.
  - by apply clamp_bounds.
  - unfold in_fee, in_u32 in *. rewrite !Z.add_0_l. do 2 f_equal. lia.
Qed.

Lemma rent_sums_nonneg l : Forall change_wf l → 0 <= total entry_rent l ∧ 0 <= total extended l.
Proof.
  intros Hl. split; apply total_nonneg; eapply Forall_impl; try exact Hl; intros e He.
  - by apply (entry_change_fee div_ceil div_ceil_spec).
  - unfold extended. by case_decide.
Qed.

(** The fee of a list of changes, from the sums over it. *)
Definition key_fee (n : Z) : Z :=
  compute_fee_per_increment div_ceil (Z.min u32_max (TTL_ENTRY_SIZE * n)) (rent_fee_per_write_1kb c)
    DATA_SIZE_1KB_INCREMENT.

Lemma key_fee_nonneg n : 0 <= n → 0 <= key_fee n.
Proof.
  intros Hn. destruct Hc as [[Hw _] _]. apply (per_increment_fee div_ceil div_ceil_spec); [|done].
  unfold u32_max, TTL_ENTRY_SIZE. lia.
Qed.

Lemma key_fee_mono n n' : n <= n' → key_fee n <= key_fee n'.
Proof.
  intros Hn. destruct Hc as [[Hw _] _]. apply (per_increment_mono div_ceil div_ceil_spec); [|done].
  unfold TTL_ENTRY_SIZE. lia.
Qed.

Lemma compute_rent_fee_sums l :
  Forall change_wf l →
  compute_rent_fee div_ceil l c cur =
    Z.min i64_max (total entry_rent l +
      rent_fee_per_write_entry c * Z.min i64_max (total extended l) + key_fee (total extended l)).
Proof.
  intros Hl. destruct (rent_sums_nonneg l Hl) as [Hr Hx]. pose proof Hc as (_ & [Hw _] & _).
  pose proof (key_fee_nonneg _ Hx) as Hk. unfold compute_rent_fee.
  rewrite rent_loop_sums by (done || unfold in_fee, in_u32, i64_max, u32_max; lia). rewrite !Z.add_0_l.
  fold (key_fee (total extended l)).
  assert (0 <= Z.min i64_max (total extended l)) by (unfold i64_max; lia).
  rewrite saturating_mul_fee by done.
  assert (0 <= rent_fee_per_write_entry c * Z.min i64_max (total extended l)) by nia.
  rewrite (saturating_add_fee (Z.min i64_max (total entry_rent l)))
    by (unfold in_fee, i64_max in *; lia).
  rewrite saturating_add_fee by (unfold in_fee, i64_max in *; lia). lia.
Qed.

(** An extension of an entry that keeps its size. *)
Lemma extension_rent p size a b :
  in_u32 size → 0 < size → 0 <= a <= b →
  entry_rent (mkRentChange p size size a b) = rent_fee_for_size_and_ledgers div_ceil p size (b - a) c.
Proof.
  intros Hs Hs' Hab. unfold entry_rent, rent_fee_per_entry_change, extension_ledgers, prepaid_ledgers, size_increase, entry_is_new.
  simpl. destruct (Z.eqb_spec size 0) as [|_]; [lia|]. simpl.
  unfold exclusive_ledger_diff, u32_checked_sub. rewrite !decide_True by lia. rewrite Z.sub_diag.
  pose proof (rent_size_fee div_ceil div_ceil_spec p size (b - a) c Hc ltac:(lia) ltac:(lia)) as [Hf Hf'].
  rewrite (saturating_add_fee 0) by (unfold in_fee, i64_max; lia). rewrite Z.add_0_l, Z.min_r by done.
  destruct (inclusive_ledger_diff cur a) as [n|] eqn:Hn; [|done].
  assert (rent_fee_for_size_and_ledgers div_ceil p 0 n c = 0) as ->.
  { unfold rent_fee_for_size_and_ledgers, i64_saturating_mul at 2.
    match goal with |- div_ceil ?x ?d = 0 => pose proof (div_ceil_spec x d ltac:(lia)) as Hd;
      assert (x = 0) as Hx by done; rewrite Hx in *; nia end. }
  rewrite saturating_add_fee by done. lia.
Qed.

Lemma split_rent p size m n :
  0 <= size → 0 <= m → 0 <= n →
  rent_fee_for_size_and_ledgers div_ceil p size (m + n) c <=
  rent_fee_for_size_and_ledgers div_ceil p size m c + rent_fee_for_size_and_ledgers div_ceil p size n c.
Proof.
  intros Hs Hm Hn. destruct Hc as ([Hw _] & _). apply (div_ceil_sub_additive div_ceil div_ceil_spec); [lia|].
  pose proof (saturating_mul_in_fee _ _ Hs Hw) as [Ha _].
  revert Ha. generalize (i64_saturating_mul size (rent_fee_per_write_1kb c)). intros r Ha.
  rewrite !saturating_mul_fee by lia. unfold i64_max. nia.
Qed.
End rent_sums.

(** * The write fee below and above the target *)
Section write_fee.
Context (div_ceil : Z → Z → Z) (div_ceil_spec : ∀ a b, 0 < b → a <= b * div_ceil a b < a + b).
Context (c : WriteFeeConfiguration) (Hc : write_config_wf c).
#[local] Abbreviation target := (bucket_list_target_size_bytes c).
#[local] Abbreviation low := (write_fee_1kb_bucket_list_low c).
#[local] Abbreviation high := (write_fee_1kb_bucket_list_high c).

Lemma clamp_fee_i128_nonneg n : 0 <= n → clamp_fee_i128 n = Z.min i64_max n.
Proof. intros. unfold clamp_fee_i128. rewrite decide_False by lia. case_decide; lia. Qed.

Lemma multiplier_exact : clamp_fee_i64 (i64_saturating_sub high low) = high - low.
Proof.
  destruct Hc as (_ & Hl & Hh & _). unfold clamp_fee_i64, i64_saturating_sub.
  rewrite clamp_id by (unfold i64_min, i64_max in *; lia). by rewrite decide_False by lia.
Qed.

Lemma write_fee_below s :
  0 <= s < target →
  compute_write_fee_per_1kb div_ceil s c = Z.max (div_ceil ((high - low) * s) target + low) MINIMUM_WRITE_FEE_PER_1KB ∧
  0 <= div_ceil ((high - low) * s) target <= high - low.
Proof.
  intros Hs. pose proof Hc as (Ht & Hl & Hh & _).
  pose proof (div_ceil_spec ((high - low) * s) target ltac:(lia)) as Hd.
  assert (0 <= (high - low) * s <= i64_max * i64_max) by (unfold i64_max in *; nia).
  assert (0 <= div_ceil ((high - low) * s) target <= high - low) as Hb by nia.
  split; [|done]. unfold compute_write_fee_per_1kb. rewrite multiplier_exact, decide_True by lia.
  unfold i128_saturating_mul. rewrite (clamp_id i128_min) by (unfold i128_min, i128_max, i64_max in *; lia).
  rewrite (Z.max_l target 1) by lia. rewrite clamp_fee_i128_nonneg, Z.min_r by lia.
  f_equal. apply clamp_id. unfold i64_min, i64_max in *. lia.
Qed.

Definition past_target (s : Z) : Z :=
  i128_saturating_mul (i128_saturating_mul (high - low) (i64_saturating_sub s target))
    (bucket_list_write_fee_growth_factor c).

Lemma past_target_mono s s' : target <= s <= s' → s' <= i64_max → 0 <= past_target s <= past_target s'.
Proof.
  intros Hs Hs'. pose proof Hc as (Ht & Hl & Hh & Hg). unfold in_u32 in Hg. unfold past_target.
  unfold i64_saturating_sub. rewrite !(clamp_id i64_min) by (unfold i64_min, i64_max in *; lia).
  assert (0 <= i128_saturating_mul (high - low) (s - target) <= i128_saturating_mul (high - low) (s' - target)) as Hm.
  { split; [|apply clamp_mono; nia]. unfold i128_saturating_mul, clamp, i128_max. nia. }
  revert Hm. generalize (i128_saturating_mul (high - low) (s - target)).
  generalize (i128_saturating_mul (high - low) (s' - target)). intros a b Hab.
  split; [|apply clamp_mono; nia]. unfold i128_saturating_mul, clamp, i128_max. nia.
Qed.

Lemma write_fee_above s :
  target <= s <= i64_max →
  compute_write_fee_per_1kb div_ceil s c =
    Z.max (Z.min i64_max (high + div_ceil (past_target s) target)) MINIMUM_WRITE_FEE_PER_1KB.
Proof.
  intros Hs. pose proof Hc as (Ht & Hl & Hh & Hg).
  unfold compute_write_fee_per_1kb. rewrite multiplier_exact, decide_False by lia.
  fold (past_target s). rewrite (Z.max_l target 1) by lia.
  pose proof (past_target_mono s s ltac:(lia) ltac:(lia)) as [Hp _].
  pose proof (div_ceil_bounds div_ceil div_ceil_spec (past_target s) target ltac:(lia) Hp) as [Hd _].
  rewrite clamp_fee_i128_nonneg by done. rewrite saturating_add_fee by (unfold in_fee, i64_max in *; lia).
  f_equal. lia.
Qed.
End write_fee.

(** * Theorems *)

(** The resource fee is sound for every input: with nonnegative rates both parts of
    the fee lie between zero and the largest [i64], whatever the resources, and asking
    for more of any resource never lowers either part. *)
Theorem resource_fee_monotone (div_ceil : Z → Z → Z) c r r' :
  (∀ a b, 0 < b → a <= b * div_ceil a b < a + b) →
  fee_config_wf c → resources_wf r → resources_le r r' →
  let fee := compute_transaction_resource_fee div_ceil r c in
  let fee' := compute_transaction_resource_fee div_ceil r' c in
  0 <= fee.1 <= fee'.1 ∧ fee'.1 <= i64_max ∧ 0 <= fee.2 <= fee'.2 ∧ fee'.2 <= i64_max.
Proof.
  intros Hdiv (C1&C2&C3&C4&C5&C6&C7&C8) (R1&R2&R3&R4&R5&R6&R7) (L1&L2&L3&L4&L5&L6&L7).
  unfold in_u32, in_fee in C1, C2, C3, C4, C5, C6, C7, C8, R1, R2, R3, R4, R5, R6, R7.
  assert (∀ v rate inc, 0 <= v → 0 <= rate → 0 <= compute_fee_per_increment div_ceil v rate inc) as Hinc
    by (intros v rate inc ??; by apply per_increment_fee).
  assert (∀ q, resources_le r q → in_fee (compute_transaction_resource_fee div_ceil q c).1 ∧
                in_fee (compute_transaction_resource_fee div_ceil q c).2) as Hin.
  { intros q (Q1&Q2&Q3&Q4&Q5&Q6&Q7). unfold compute_transaction_resource_fee. split.
    - apply foldl_saturating_fee; [apply per_increment_fee; [done|lia|lia]|].
      repeat (apply Forall_cons; split); try apply Forall_nil; trivial.
      all: first [apply Hinc; [lia|lia] | apply Hinc; [by apply clamp_bounds|lia] | idtac].
      all: apply saturating_mul_in_fee; [lia|]; first [lia | by apply clamp_bounds].
    - apply per_increment_fee; [done|lia|lia]. }
  destruct (Hin r) as [[F1 _] [F2 _]]; [unfold resources_le; lia|].
  destruct (Hin r') as [[_ G1] [_ G2]]; [unfold resources_le; lia|]. intros fee fee'.
  split_and!; [done| |done|done| |done].
  - apply foldl_saturating_mono; [apply per_increment_mono; [done|done|lia]|].
    repeat (apply Forall2_cons; split); try apply Forall2_nil; trivial.
    all: first [apply per_increment_mono; [done| |lia] | apply saturating_mul_mono; [lia|]].
    all: first [done | by apply u32_saturating_add_mono].
  - apply per_increment_mono; [done|done|lia].
Qed.

(** The write fee grows with the ledger: with a sane configuration it never falls
    below the minimum, never exceeds the largest [i64], grows with the size of the
    bucket list across the target size, is the low fee for an empty list and the high
    fee at the target, raised to the minimum. *)
Theorem write_fee_monotone (div_ceil : Z → Z → Z) c s s' :
  (∀ a b, 0 < b → a <= b * div_ceil a b < a + b) →
  write_config_wf c → 0 <= s <= s' → s' <= i64_max →
  let fee n := compute_write_fee_per_1kb div_ceil n c in
  MINIMUM_WRITE_FEE_PER_1KB <= fee s <= fee s' ∧ fee s' <= i64_max ∧
  fee 0 = Z.max (write_fee_1kb_bucket_list_low c) MINIMUM_WRITE_FEE_PER_1KB ∧
  fee (bucket_list_target_size_bytes c) = Z.max (write_fee_1kb_bucket_list_high c) MINIMUM_WRITE_FEE_PER_1KB.
Proof.
  intros Hdiv Hc Hs Hs' fee. pose proof Hc as (Ht & Hl & Hh & Hg).
  pose proof (write_fee_below div_ceil Hdiv c Hc) as Hbelow.
  pose proof (write_fee_above div_ceil Hdiv c Hc) as Habove.
  assert (∀ n, bucket_list_target_size_bytes c <= n <= i64_max →
    0 <= div_ceil (past_target c n) (bucket_list_target_size_bytes c)) as Hnonneg.
  { intros n Hn. apply (div_ceil_bounds div_ceil Hdiv); [lia|]. apply (past_target_mono c Hc n n); lia. }
  assert (div_ceil 0 (bucket_list_target_size_bytes c) = 0) as H0
    by (pose proof (Hdiv 0 (bucket_list_target_size_bytes c) ltac:(lia)); nia).
  assert (MINIMUM_WRITE_FEE_PER_1KB <= i64_max) by done. unfold fee. split; [|split; [|split]].
  - destruct (decide (s' < bucket_list_target_size_bytes c)).
    + destruct (Hbelow s ltac:(lia)) as [-> _], (Hbelow s' ltac:(lia)) as [-> _].
      pose proof (div_ceil_mono div_ceil Hdiv _ _ (bucket_list_target_size_bytes c) ltac:(lia)
        (Z.mul_le_mono_nonneg_l s s' (write_fee_1kb_bucket_list_high c - write_fee_1kb_bucket_list_low c)
          ltac:(lia) ltac:(lia))). lia.
    + rewrite (Habove s') by lia. pose proof (Hnonneg s' ltac:(lia)).
      destruct (decide (s < bucket_list_target_size_bytes c)).
      * destruct (Hbelow s ltac:(lia)) as [-> ?]. lia.
      * rewrite (Habove s) by lia.
        pose proof (div_ceil_mono div_ceil Hdiv _ _ (bucket_list_target_size_bytes c) ltac:(lia)
          (proj2 (past_target_mono c Hc s s' ltac:(lia) ltac:(lia)))). lia.
  - destruct (decide (s' < bucket_list_target_size_bytes c)).
    + destruct (Hbelow s' ltac:(lia)) as [-> ?]. lia.
    + rewrite (Habove s') by lia. lia.
  - destruct (Hbelow 0 ltac:(lia)) as [-> _]. by rewrite Z.mul_0_r, H0.
  - rewrite Habove by lia.
    assert (past_target c (bucket_list_target_size_bytes c) = 0) as ->.
    { unfold past_target, i64_saturating_sub. rewrite Z.sub_diag. unfold i128_saturating_mul.
      by rewrite Z.mul_0_r. }
    rewrite H0. lia.
Qed.

(** C40: Rent is fair: the rent fee of a set of changes does not depend on the order they
    are listed in, lies between zero and the largest [i64], and never falls when a
    change is added; and extending an entry in two steps costs at least as much as
    doing it at once. *)
Theorem rent_fee_fair (div_ceil : Z → Z → Z) c cur l l' e :
  (∀ a b, 0 < b → a <= b * div_ceil a b < a + b) →
  rent_config_wf c → in_u32 cur → Forall change_wf l → change_wf e → l ≡ₚ l' →
  let fee l := compute_rent_fee div_ceil l c cur in
  fee l' = fee l ∧ 0 <= fee l <= fee (e :: l) ∧ fee (e :: l) <= i64_max ∧
  ∀ p size t1 t2 t3, in_u32 size → 0 < size → 0 <= t1 <= t2 → t2 <= t3 <= u32_max →
    fee [mkRentChange p size size t1 t3] <=
    fee [mkRentChange p size size t1 t2] + fee [mkRentChange p size size t2 t3].
Proof.
  intros Hdiv Hc Hcur Hl He Hp fee. pose proof Hc as (_ & [Hw _] & _).
  assert (Forall change_wf l') as Hl' by (by rewrite <-Hp).
  assert (Forall change_wf (e :: l)) as Hel by (by constructor). unfold fee.
  pose proof (rent_sums_nonneg div_ceil Hdiv c cur Hc Hcur l Hl) as [Hr Hx].
  pose proof (key_fee_nonneg div_ceil Hdiv c Hc _ Hx) as Hk.
  assert (0 <= rent_fee_per_write_entry c * Z.min i64_max (total extended l)) by (unfold i64_max; nia).
  split; [|split; [|split]].
  - rewrite !compute_rent_fee_sums by done. by rewrite !(total_Permutation _ _ _ Hp).
  - rewrite !compute_rent_fee_sums by done.
    pose proof (entry_change_fee div_ceil Hdiv e c cur Hc He Hcur) as [He0 _].
    change (0 <= entry_rent div_ceil c cur e) in He0.
    assert (total extended l <= total extended (e :: l)) as Hle
      by (simpl; destruct (extended_cases e) as [[_ ->]|[_ ->]]; lia).
    pose proof (key_fee_mono div_ceil Hdiv c Hc _ _ Hle).
    assert (rent_fee_per_write_entry c * Z.min i64_max (total extended l) <=
            rent_fee_per_write_entry c * Z.min i64_max (total extended (e :: l))) by nia.
    change (total (entry_rent div_ceil c cur) (e :: l))
      with (entry_rent div_ceil c cur e + total (entry_rent div_ceil c cur) l).
    unfold i64_max in *. lia.
  - rewrite compute_rent_fee_sums by done. lia.
  - intros p size t1 t2 t3 Hs Hs' H12 H23.
    assert (∀ a b, 0 <= a <= b → b <= u32_max → Forall change_wf [mkRentChange p size size a b]) as Hwf
      by (intros; repeat constructor; simpl; unfold in_u32 in *; lia).
    rewrite !compute_rent_fee_sums by (done || apply Hwf; lia). simpl. rewrite !Z.add_0_r.
    rewrite !extension_rent by (done || lia).
    pose proof (split_rent div_ceil Hdiv c Hc p size (t2 - t1) (t3 - t2) ltac:(lia) ltac:(lia) ltac:(lia)) as Hsplit.
    replace (t2 - t1 + (t3 - t2)) with (t3 - t1) in Hsplit by lia.
    pose proof (rent_size_fee div_ceil Hdiv p size (t2 - t1) c Hc ltac:(lia) ltac:(lia)) as [??].
    pose proof (rent_size_fee div_ceil Hdiv p size (t3 - t2) c Hc ltac:(lia) ltac:(lia)) as [??].
    pose proof (key_fee_nonneg div_ceil Hdiv c Hc 1 ltac:(lia)).
    pose proof (key_fee_nonneg div_ceil Hdiv c Hc 0 ltac:(lia)).
    pose proof (key_fee_mono div_ceil Hdiv c Hc 0 1 ltac:(lia)).
    unfold extended; simpl.
    repeat case_decide; rewrite ?(Z.min_r i64_max 1), ?(Z.min_r i64_max 0) by done; lia.
Qed.

(** ** The theorems at work *)

Definition ceiling (a b : Z) : Z := - (- a / b).

Lemma ceiling_spec a b : 0 < b → a <= b * ceiling a b < a + b.
Proof.
  intros Hb. unfold ceiling. pose proof (Z.div_mod (- a) b ltac:(lia)).
  pose proof (Z.mod_pos_bound (- a) b Hb). nia.
Qed.

Definition demo_fees : FeeConfiguration := mkFeeConfig 25 6250 10000 1786 12000 16235 10000 1624.
Definition demo_resources : TransactionResources := mkResources 5000000 4 2 8000 2000 300 900.
Definition more_resources : TransactionResources := mkResources 5000001 5 2 8000 2000 1025 900.
Definition demo_write_fees : WriteFeeConfiguration := mkWriteFeeConfig 14000000000 1000 12000 1000.
Definition demo_rent : RentFeeConfiguration := mkRentConfig 12000 10000 1402 2804.

Lemma resource_fee_monotone_witness :
  resources_le demo_resources more_resources ∧
  compute_transaction_resource_fee ceiling demo_resources demo_fees = (127846, 2930) ∧
  (compute_transaction_resource_fee ceiling demo_resources demo_fees).1 <=
    (compute_transaction_resource_fee ceiling more_resources demo_fees).1.
Proof.
  assert (resources_le demo_resources more_resources) as Hle by (unfold resources_le; simpl; lia).
  split; [exact Hle|]. split; [by vm_compute|].
  apply (resource_fee_monotone ceiling demo_fees demo_resources more_resources ceiling_spec).
  - unfold fee_config_wf, in_fee, i64_max; simpl; lia.
  - unfold resources_wf, in_u32, u32_max; simpl; lia.
  - exact Hle.
Defined.

Lemma write_fee_monotone_witness :
  write_config_wf demo_write_fees ∧
  compute_write_fee_per_1kb ceiling 7000000000 demo_write_fees = 6500 ∧
  compute_write_fee_per_1kb ceiling 7000000000 demo_write_fees <=
    compute_write_fee_per_1kb ceiling 15000000000 demo_write_fees.
Proof.
  assert (write_config_wf demo_write_fees) as Hc
    by (unfold write_config_wf, in_u32, u32_max, i64_max; simpl; lia).
  split; [exact Hc|]. split; [by vm_compute|].
  apply (write_fee_monotone ceiling demo_write_fees 7000000000 15000000000 ceiling_spec Hc); [lia|done].
Defined.

Lemma rent_fee_fair_witness :
  rent_config_wf demo_rent ∧
  compute_rent_fee ceiling [mkRentChange true 500 500 1000 3000] demo_rent 900 = 18922 ∧
  compute_rent_fee ceiling [mkRentChange true 500 500 1000 3000] demo_rent 900 <=
    compute_rent_fee ceiling [mkRentChange true 500 500 1000 2000] demo_rent 900 +
    compute_rent_fee ceiling [mkRentChange true 500 500 2000 3000] demo_rent 900.
Proof.
  assert (rent_config_wf demo_rent) as Hc by (unfold rent_config_wf, in_fee, i64_max; simpl; lia).
  split; [exact Hc|]. split; [by vm_compute|].
  apply (rent_fee_fair ceiling demo_rent 900 [] [] (mkRentChange true 500 500 1000 3000) ceiling_spec Hc);
    try done.
Defined.
