(* ===== verification/TokenData.v ===== *)
(** The data of the built-in asset contract, [builtin_contracts/stellar_asset_contract/]
    [storage_types.rs], [public_types.rs], [asset_info.rs], [metadata.rs] and [admin.rs]:
    keys and values with their stored form, the asset the contract stands for, its
    administrator and its name.

    The contract runs on a [SacHost], the host of [Host] with the instance storage of
    the running frame as a map; reading that map from the ledger when the frame starts
    to use it and writing it back at its end are left out. *)
From Stdlib Require Import Ascii.
From S2P Require Import Prelude ScVal Storage Host AccountAuth.
#[local] Open Scope m_scope.
#[local] Open Scope string_scope.

(** * The host of a built-in contract *)

Record SacHost (S : Type) := mkSacHost {
  sac_host : Host S;
  instance_storage : gmap ScVal ScVal
}.
Arguments mkSacHost {S}.
Arguments sac_host {S}.
Arguments instance_storage {S}.

Definition set_sac_host {S} (h : Host S) (t : SacHost S) : SacHost S :=
  mkSacHost h (instance_storage t).
Definition set_instance_storage {S} (m : gmap ScVal ScVal) (t : SacHost S) : SacHost S :=
  mkSacHost (sac_host t) m.

Definition on_host {S A} (p : M (Host S) A) : M (SacHost S) A := m_zoom sac_host set_sac_host p.

Inductive StorageType := StTemporary | StPersistent | StInstance.

Definition from_val {T} (c : codec T) (v : ScVal) : Result T :=
  ok_or (dec c v) (EHost TValue UnexpectedType).

Section host.
Context {S : Type} `{LedgerStore S}.

Definition on_ledger {A} (p : LedgerInfo → Hash → M S A) : M (SacHost S) A := on_host (on_storage p).
Definition ledger_info : M (SacHost S) LedgerInfo := let* t := m_get in m_ret (h_ledger (sac_host t)).

Definition sac_has_contract_data (k : ScVal) (t : StorageType) : M (SacHost S) bool :=
  match t with
  | StInstance => let* h := m_get in m_ret (bool_decide (is_Some (instance_storage h !! k)))
  | StTemporary => on_ledger (λ li cid, has_contract_data li cid k Temporary)
  | StPersistent => on_ledger (λ li cid, has_contract_data li cid k Persistent)
  end.

Definition sac_get_contract_data (k : ScVal) (t : StorageType) : M (SacHost S) ScVal :=
  match t with
  | StInstance =>
      let* h := m_get in m_lift (ok_or (instance_storage h !! k) (EHost TStorage MissingValue))
  | StTemporary => on_ledger (λ li cid, get_contract_data li cid k Temporary)
  | StPersistent => on_ledger (λ li cid, get_contract_data li cid k Persistent)
  end.

Definition sac_put_contract_data (k v : ScVal) (t : StorageType) : M (SacHost S) unit :=
  match t with
  | StInstance => m_modify (λ h, set_instance_storage (<[k := v]> (instance_storage h)) h)
  | StTemporary => on_ledger (λ li cid, put_contract_data li cid k v Temporary)
  | StPersistent => on_ledger (λ li cid, put_contract_data li cid k v Persistent)
  end.

Definition sac_extend_contract_data_ttl (k : ScVal) (t : StorageType) (threshold extend_to : Z) :
    M (SacHost S) unit :=
  match t with
  | StInstance => m_fail (EHost TStorage InvalidAction)
  | StTemporary => on_ledger (λ li cid, extend_contract_data_ttl li cid k Temporary threshold extend_to)
  | StPersistent => on_ledger (λ li cid, extend_contract_data_ttl li cid k Persistent threshold extend_to)
  end.

(** [storage_utils.rs]. *)
Definition try_get_contract_data (k : ScVal) (t : StorageType) : M (SacHost S) (option ScVal) :=
  let* b := sac_has_contract_data k t in
  if b : bool then let* v := sac_get_contract_data k t in m_ret (Some v) else m_ret None.

(** [Address::require_auth]. *)
Definition address_require_auth (a : ScAddress) : M (SacHost S) unit := on_host (λ h,
  ((if decide (a ∈ h_auths h) then Ok tt else Err (EHost TAuth InvalidAction)), h)).

Definition contract_event (topics : list ScVal) (data : ScVal) : M (SacHost S) unit :=
  on_host (m_modify (λ h,
    set_events (record_event (mkContractEvent (h_contract h) topics data) (h_events h)) h)).
End host.

(** * Keys and values *)

Definition DAY_IN_LEDGERS : Z := 17280.
Definition INSTANCE_EXTEND_AMOUNT : Z := 7 * DAY_IN_LEDGERS.
Definition INSTANCE_TTL_THRESHOLD : Z := INSTANCE_EXTEND_AMOUNT - DAY_IN_LEDGERS.
Definition BALANCE_EXTEND_AMOUNT : Z := 30 * DAY_IN_LEDGERS.
Definition BALANCE_TTL_THRESHOLD : Z := BALANCE_EXTEND_AMOUNT - DAY_IN_LEDGERS.

Record AllowanceDataKey := mkAllowanceDataKey { ak_from : ScAddress; ak_spender : ScAddress }.
Record AllowanceValue := mkAllowanceValue { allowance_amount : Z; live_until_ledger : Z }.
Record BalanceValue := mkBalanceValue { amount : Z; authorized : bool; clawback : bool }.

Inductive DataKey := Allowance (k : AllowanceDataKey) | Balance (a : ScAddress).
Inductive InstanceDataKey := Admin | AssetInfoKey.

(** The stored form: an enum's variant is a vector of its name and its values. *)
Definition data_key (k : DataKey) : ScVal :=
  match k with
  | Allowance k => ScVec [ScSymbol "Allowance"; ScMap [("from", ScAddr (ak_from k)); ("spender", ScAddr (ak_spender k))]]
  | Balance a => ScVec [ScSymbol "Balance"; ScAddr a]
  end.
Definition instance_data_key (k : InstanceDataKey) : ScVal :=
  match k with
  | Admin => ScVec [ScSymbol "Admin"]
  | AssetInfoKey => ScVec [ScSymbol "AssetInfo"]
  end.

#[export] Instance data_key_inj : Inj (=) (=) data_key.
Proof. by intros [[]|] [[]|]; simpl; intros [=]; subst. Qed.

#[global] Arguments data_key k : simpl never.
#[global] Arguments instance_data_key k : simpl never.

Definition stringC : codec string.
Proof. refine (Codec ScString (λ v, match v with ScString s => Some s | _ => None end) _). done. Defined.

Definition allowanceC : codec AllowanceValue.
Proof.
  refine (Codec
    (λ a, ScMap [("amount", enc i128C (allowance_amount a)); ("live_until_ledger", enc u32C (live_until_ledger a))])
    (λ v, l ← struct_fields ["amount"; "live_until_ledger"] v;
          match l with
          | [v1; v2] => x1 ← dec i128C v1; x2 ← dec u32C v2; Some (mkAllowanceValue x1 x2)
          | _ => None
          end) _).
  abstract solve_struct_codec.
Defined.

Definition balanceC : codec BalanceValue.
Proof.
  refine (Codec
    (λ b, ScMap [("amount", enc i128C (amount b)); ("authorized", enc boolC (authorized b));
                 ("clawback", enc boolC (clawback b))])
    (λ v, l ← struct_fields ["amount"; "authorized"; "clawback"] v;
          match l with
          | [v1; v2; v3] =>
              x1 ← dec i128C v1; x2 ← dec boolC v2; x3 ← dec boolC v3; Some (mkBalanceValue x1 x2 x3)
          | _ => None
          end) _).
  abstract solve_struct_codec.
Defined.

(** * The asset *)

Record AlphaNumAssetInfo := mkAlphaNum { ai_asset_code : string; ai_issuer : N }.
Inductive AssetInfo :=
| InfoNative
| AlphaNum4 (a : AlphaNumAssetInfo)
| AlphaNum12 (a : AlphaNumAssetInfo).

Definition alphaNumC : codec AlphaNumAssetInfo.
Proof.
  refine (Codec
    (λ a, ScMap [("asset_code", enc stringC (ai_asset_code a)); ("issuer", enc bytesC (ai_issuer a))])
    (λ v, l ← struct_fields ["asset_code"; "issuer"] v;
          match l with
          | [v1; v2] => x1 ← dec stringC v1; x2 ← dec bytesC v2; Some (mkAlphaNum x1 x2)
          | _ => None
          end) _).
  abstract solve_struct_codec.
Defined.

Definition assetInfoC : codec AssetInfo.
Proof.
  refine (Codec
    (λ i, match i with
          | InfoNative => ScVec [ScSymbol "Native"]
          | AlphaNum4 a => ScVec [ScSymbol "AlphaNum4"; enc alphaNumC a]
          | AlphaNum12 a => ScVec [ScSymbol "AlphaNum12"; enc alphaNumC a]
          end)
    (λ v, match v with
          | ScVec [ScSymbol s] => if decide (s = "Native") then Some InfoNative else None
          | ScVec [ScSymbol s; v] =>
              if decide (s = "AlphaNum4") then AlphaNum4 <$> dec alphaNumC v
              else if decide (s = "AlphaNum12") then AlphaNum12 <$> dec alphaNumC v
              else None
          | _ => None
          end) _).
  abstract by intros [|a|a]; [|change (AlphaNum4 <$> dec alphaNumC (enc alphaNumC a) = Some (AlphaNum4 a))
    |change (AlphaNum12 <$> dec alphaNumC (enc alphaNumC a) = Some (AlphaNum12 a))]; rewrite ?dec_enc.
Defined.

(** [TryFromVal<Host, AssetInfo> for Asset], through [String::to_array]. *)
Definition to_array (n : nat) (s : string) : Result string :=
  if decide (String.length s = n) then Ok s else Err (EHost TValue UnexpectedSize).
Definition asset_of_info (i : AssetInfo) : Result Asset :=
  match i with
  | InfoNative => Ok Native
  | AlphaNum4 a => (λ c, CreditAlphanum4 c (ai_issuer a)) <$> to_array 4 (ai_asset_code a)
  | AlphaNum12 a => (λ c, CreditAlphanum12 c (ai_issuer a)) <$> to_array 12 (ai_asset_code a)
  end.

Section data.
Context {S : Type} `{LedgerStore S}.

Definition write_asset_info (asset_info : AssetInfo) : M (SacHost S) unit :=
  sac_put_contract_data (instance_data_key AssetInfoKey) (enc assetInfoC asset_info) StInstance.
Definition read_asset_info : M (SacHost S) AssetInfo :=
  let* rv := sac_get_contract_data (instance_data_key AssetInfoKey) StInstance in
  m_lift (from_val assetInfoC rv).
Definition read_asset : M (SacHost S) Asset :=
  let* i := read_asset_info in m_lift (asset_of_info i).
Definition has_asset_info : M (SacHost S) bool :=
  sac_has_contract_data (instance_data_key AssetInfoKey) StInstance.

Definition read_administrator : M (SacHost S) ScAddress :=
  let* rv := sac_get_contract_data (instance_data_key Admin) StInstance in
  m_lift (from_val addressC rv).
Definition write_administrator (id : ScAddress) : M (SacHost S) unit :=
  sac_put_contract_data (instance_data_key Admin) (enc addressC id) StInstance.
End data.

(** ** Valid codes *)

Definition byte_of (c : ascii) : Z := Z.of_N (N_of_ascii c).

(** [u8::is_ascii_alphanumeric]. *)
Definition is_ascii_alphanumeric (c : ascii) : bool :=
  let n := byte_of c in
  bool_decide (48 <= n <= 57 ∨ 65 <= n <= 90 ∨ 97 <= n <= 122).

(** The loop of [validate_asset_code]: whether a zero byte was seen, and how many others. *)
Fixpoint scan_asset_code (code : string) (had_zero : bool) (non_zero_chars : Z) : Result Z :=
  match code with
  | "" => Ok non_zero_chars
  | String c code =>
      if decide (byte_of c = 0) then scan_asset_code code true non_zero_chars
      else if had_zero then Err (EHost TValue InvalidInput)
      else if bool_decide (0x7f < byte_of c) || negb (is_ascii_alphanumeric c)
      then Err (EHost TValue InvalidInput)
      else scan_asset_code code had_zero (non_zero_chars + 1)
  end.

Definition validate_asset_code (code : string) : Result unit :=
  match scan_asset_code code false 0 with
  | Err e => Err e
  | Ok non_zero_chars =>
      if decide (non_zero_chars = 0) then Err (EHost TValue InvalidInput)
      else if decide (non_zero_chars <= 4 ∧ (4 < String.length code)%nat)
      then Err (EHost TValue InvalidInput)
      else Ok tt
  end.

Definition validate_asset (asset : Asset) : Result unit :=
  match asset with
  | Native => Ok tt
  | CreditAlphanum4 code _ | CreditAlphanum12 code _ => validate_asset_code code
  end.

(** ** Name and symbol *)

Definition METADATA_KEY : ScVal := ScSymbol "METADATA".
Definition DECIMAL : Z := 7.

Record StellarAssetContractMetadata := mkMetadata {
  decimal : Z;
  md_name : string;
  md_symbol : string
}.

Definition metadataC : codec StellarAssetContractMetadata.
Proof.
  refine (Codec
    (λ m, ScMap [("decimal", enc u32C (decimal m)); ("name", enc stringC (md_name m));
                 ("symbol", enc stringC (md_symbol m))])
    (λ v, l ← struct_fields ["decimal"; "name"; "symbol"] v;
          match l with
          | [v1; v2; v3] =>
              x1 ← dec u32C v1; x2 ← dec stringC v2; x3 ← dec stringC v3; Some (mkMetadata x1 x2 x3)
          | _ => None
          end) _).
  abstract solve_struct_codec.
Defined.

(** The digits of [{:02x}]. *)
Definition hex_digit (n : Z) : ascii :=
  ascii_of_N (Z.to_N (if decide (n < 10) then 48 + n else 87 + n)).
Definition escape (c : ascii) : string :=
  String "\" (String "x" (String (hex_digit (byte_of c / 16)) (String (hex_digit (byte_of c mod 16)) ""))).

(** The loop of [render_sep0011_asset_code], for a code of [len] bytes, at byte [i]. *)
Fixpoint render_bytes (len i : nat) (buf : string) : string :=
  match buf with
  | "" => ""
  | String x buf =>
      let n := byte_of x in
      if decide (n = 0 ∧ (len = 4%nat ∨ len = 12%nat ∧ (4 < i)%nat)) then ""
      else if decide (n = 58 ∨ n = 92 ∨ n <= 0x20 ∨ 0x7f <= n)
      then escape x ++ render_bytes len (Datatypes.S i) buf
      else String x (render_bytes len (Datatypes.S i) buf)
  end.

Definition render_sep0011_asset_code (buf : string) : Result string :=
  if decide (String.length buf = 4%nat ∨ String.length buf = 12%nat)
  then Ok (render_bytes (String.length buf) 0 buf)
  else Err (EHost TValue InvalidInput).

Section metadata.
Context {S : Type} `{LedgerStore S}.
(** The strkey of a public key. *)
Context (strkey : N → string).

(** [render_sep0011_asset::<N>]: name and symbol. *)
Definition render_sep0011_asset (n : nat) (symbol : string) (issuer : N) : Result (string * string) :=
  match to_array n symbol with
  | Err e => Err e
  | Ok symbuf =>
      match render_sep0011_asset_code symbuf with
      | Err e => Err e
      | Ok s => Ok (s ++ ":" ++ strkey issuer, s)
      end
  end.

Definition name_and_symbol (i : AssetInfo) : Result (string * string) :=
  match i with
  | InfoNative => Ok ("native", "native")
  | AlphaNum4 a => render_sep0011_asset 4 (ai_asset_code a) (ai_issuer a)
  | AlphaNum12 a => render_sep0011_asset 12 (ai_asset_code a) (ai_issuer a)
  end.

Definition set_metadata : M (SacHost S) unit :=
  let* i := read_asset_info in
  let* ns := m_lift (name_and_symbol i) in
  sac_put_contract_data METADATA_KEY (enc metadataC (mkMetadata DECIMAL ns.1 ns.2)) StInstance.

Definition read_metadata : M (SacHost S) StellarAssetContractMetadata :=
  let* v := sac_get_contract_data METADATA_KEY StInstance in m_lift (from_val metadataC v).
Definition read_name : M (SacHost S) string := let* m := read_metadata in m_ret (md_name m).
Definition read_symbol : M (SacHost S) string := let* m := read_metadata in m_ret (md_symbol m).
End metadata.
