(* ===== verification/TokenBalance.v ===== *)
(** Balances and their authorization, [stellar_asset_contract/balance.rs]: a contract's
    balance is an entry of contract data, an account's its trust line, or the account
    itself for the native asset; the issuer of an asset has no balance to speak of. *)
From S2P Require Import Prelude ScVal Storage Host AccountAuth TokenData.
#[local] Open Scope m_scope.

(** * Accounts and trust lines *)

(** Flags of accounts ([AccountFlags]) and trust lines ([TrustLineFlags]) as the network's
    protocol numbers them. *)
Definition RequiredFlag : Z := 1.
Definition RevocableFlag : Z := 2.
Definition ClawbackEnabledFlag : Z := 8.
Definition AuthorizedFlag : Z := 1.
Definition AuthorizedToMaintainLiabilitiesFlag : Z := 2.
Definition TrustlineClawbackEnabledFlag : Z := 4.

(** [!mask] on [u32]. *)
Definition u32_not (mask : Z) : Z := Z.lxor u32_max mask.

Definition set_account_balance (n : Z) (ae : AccountEntry) : AccountEntry :=
  mkAccountEntry (account_id ae) n (num_sub_entries ae) (account_flags ae) (thresholds ae)
    (signers ae) (account_ext ae).
Definition set_tl_balance (n : Z) (tl : TrustLineEntry) : TrustLineEntry :=
  mkTrustLine (tl_account tl) (tl_asset tl) n (tl_limit tl) (tl_flags tl) (tl_liabilities tl).
Definition set_tl_flags (n : Z) (tl : TrustLineEntry) : TrustLineEntry :=
  mkTrustLine (tl_account tl) (tl_asset tl) (tl_balance tl) (tl_limit tl) n (tl_liabilities tl).
Definition set_amount (n : Z) (b : BalanceValue) : BalanceValue :=
  mkBalanceValue n (authorized b) (clawback b).
Definition set_authorized_flag (b : bool) (v : BalanceValue) : BalanceValue :=
  mkBalanceValue (amount v) b (clawback v).

Definition get_min_max_account_balance (li : LedgerInfo) (ae : AccountEntry) : Result (Z * Z) :=
  if decide (account_balance ae < 0) then Err ContractInternalError
  else match account_ext ae with
  | Some ext1 =>
      let net_entries := match account_sponsorship ext1 with
        | Some (num_sponsored, num_sponsoring) => 2 + num_sub_entries ae + num_sponsoring - num_sponsored
        | None => 2 + num_sub_entries ae
        end in
      reserve ← i64_or_panic "multiply" (net_entries * base_reserve li);
      min_balance ← i64_or_panic "add" (reserve + selling (account_liabilities ext1));
      max_balance ← i64_or_panic "subtract" (i64_max - buying (account_liabilities ext1));
      Ok (min_balance, max_balance)
  | None =>
      min_balance ← i64_or_panic "multiply" ((2 + num_sub_entries ae) * base_reserve li);
      Ok (min_balance, i64_max)
  end.

Definition get_min_max_trustline_balance (tl : TrustLineEntry) : Result (Z * Z) :=
  if decide (tl_balance tl < 0) then Err ContractInternalError
  else match tl_liabilities tl with
  | Some l =>
      if decide (tl_limit tl < buying l) then Err ContractInternalError
      else
        max_balance ← i64_or_panic "subtract" (tl_limit tl - buying l);
        Ok (selling l, max_balance)
  | None => Ok (0, tl_limit tl)
  end.

Section ledger.
Context {S : Type} `{LedgerStore S} (li : LedgerInfo).

(** [Storage::try_get]. *)
Definition try_get_entry (lk : LedgerKey) : M S (option LedgerEntry) :=
  let* r := try_get_full_with_host li lk in m_ret (fst <$> r).

Definition read_account_entry (lk : LedgerKey) : M S LedgerEntry :=
  let* o := try_get_entry lk in m_lift (ok_or o AccountMissingError).
Definition read_trustline_entry (lk : LedgerKey) : M S LedgerEntry :=
  let* o := try_get_entry lk in m_lift (ok_or o TrustlineMissingError).

Definition account_of_entry (le : LedgerEntry) : Result AccountEntry :=
  match le with EAccount ae => Ok ae | _ => Err ContractInternalError end.
Definition trustline_of_entry (le : LedgerEntry) : Result TrustLineEntry :=
  match le with ETrustline tl => Ok tl | _ => Err ContractInternalError end.

(** The new balance, if it can be had. *)
Definition checked_balance (balance amount : Z) (range : Z * Z) : Result Z :=
  match i64_checked_add balance amount with
  | None => Err BalanceError
  | Some new_balance =>
      if decide (range.1 <= new_balance ∧ new_balance <= range.2) then Ok new_balance
      else Err BalanceError
  end.

Definition transfer_account_balance (account_id : N) (amount : Z) : M S unit :=
  let lk := KAccount account_id in
  let* le := read_account_entry lk in
  let* ae := m_lift (account_of_entry le) in
  let* range := m_lift (get_min_max_account_balance li ae) in
  let* new_balance := m_lift (checked_balance (account_balance ae) amount range) in
  put_with_host li lk (EAccount (set_account_balance new_balance ae)) None.

Definition transfer_trustline_balance (account_id : N) (asset : Asset) (amount : Z) : M S unit :=
  let lk := KTrustline account_id asset in
  let* le := read_trustline_entry lk in
  let* tl := m_lift (trustline_of_entry le) in
  let* range := m_lift (get_min_max_trustline_balance tl) in
  let* new_balance := m_lift (checked_balance (tl_balance tl) amount range) in
  put_with_host li lk (ETrustline (set_tl_balance new_balance tl)) None.

Definition get_account_balance (account_id : N) : M S Z :=
  let* le := read_account_entry (KAccount account_id) in
  let* ae := m_lift (account_of_entry le) in
  let* range := m_lift (get_min_max_account_balance li ae) in
  if decide (account_balance ae < range.1) then m_fail ContractInternalError
  else if decide (range.2 < account_balance ae) then m_fail ContractInternalError
  else m_ret (account_balance ae).

Definition get_trustline_balance (account_id : N) (asset : Asset) : M S Z :=
  let* le := read_trustline_entry (KTrustline account_id asset) in
  let* tl := m_lift (trustline_of_entry le) in
  let* range := m_lift (get_min_max_trustline_balance tl) in
  if decide (tl_balance tl < range.1) then m_fail ContractInternalError
  else if decide (range.2 < tl_balance tl) then m_fail ContractInternalError
  else m_ret (tl_balance tl).

Definition get_trustline_flags (account_id : N) (asset : Asset) : M S Z :=
  let* le := read_trustline_entry (KTrustline account_id asset) in
  let* tl := m_lift (trustline_of_entry le) in
  m_ret (tl_flags tl).

Definition is_trustline_authorized (account_id : N) (asset : Asset) : M S bool :=
  let* flags := get_trustline_flags account_id asset in
  m_ret (bool_decide (Z.land flags AuthorizedFlag ≠ 0)).

Definition set_trustline_authorization (account_id : N) (asset : Asset) (authorize : bool) : M S unit :=
  let lk := KTrustline account_id asset in
  let* le := read_trustline_entry lk in
  let* tl := m_lift (trustline_of_entry le) in
  let is_authorized := bool_decide (Z.land (tl_flags tl) AuthorizedFlag ≠ 0) in
  if decide (is_authorized = authorize) then m_ret tt
  else
    let flags :=
      if authorize
      then Z.lor (Z.land (tl_flags tl) (u32_not AuthorizedToMaintainLiabilitiesFlag)) AuthorizedFlag
      else Z.lor (Z.land (tl_flags tl) (u32_not AuthorizedFlag)) AuthorizedToMaintainLiabilitiesFlag in
    put_with_host li lk (ETrustline (set_tl_flags flags tl)) None.

Definition is_issuer_flag_set (issuer_id : N) (flag : Z) : M S bool :=
  let* issuer_acc := load_account li issuer_id in
  m_ret (bool_decide (Z.land (account_flags issuer_acc) flag ≠ 0)).
End ledger.

(** * The asset of the contract *)
Section balance.
Context {S : Type} `{LedgerStore S}.

Definition with_mut_storage {A} (p : LedgerInfo → M S A) : M (SacHost S) A :=
  on_ledger (λ li _, p li).

(** Code that treats the issuer of an asset specially. *)
Definition unless_issuer {A} (asset : Asset) (issuer who : N) (if_issuer : M (SacHost S) A)
    (p : Asset → LedgerInfo → M S A) : M (SacHost S) A :=
  if decide (issuer = who) then if_issuer else with_mut_storage (p asset).

Definition transfer_classic_balance (to_key : N) (amount : Z) : M (SacHost S) unit :=
  let transfer_trustline_balance_unless_issuer asset issuer :=
    unless_issuer asset issuer to_key (m_ret tt)
      (λ asset li, transfer_trustline_balance li to_key asset amount) in
  let* asset := read_asset in
  match asset with
  | Native => with_mut_storage (λ li, transfer_account_balance li to_key amount)
  | CreditAlphanum4 _ issuer => transfer_trustline_balance_unless_issuer asset issuer
  | CreditAlphanum12 _ issuer => transfer_trustline_balance_unless_issuer asset issuer
  end.

Definition get_classic_balance (acct : N) : M (SacHost S) Z :=
  let get_trustline_balance_or_max_if_issuer asset issuer :=
    unless_issuer asset issuer acct (m_ret i64_max) (λ asset li, get_trustline_balance li acct asset) in
  let* asset := read_asset in
  match asset with
  | Native => with_mut_storage (λ li, get_account_balance li acct)
  | CreditAlphanum4 _ issuer => get_trustline_balance_or_max_if_issuer asset issuer
  | CreditAlphanum12 _ issuer => get_trustline_balance_or_max_if_issuer asset issuer
  end.

Definition is_account_authorized (account_id : N) : M (SacHost S) bool :=
  let is_trustline_authorized_or_issuer asset issuer :=
    unless_issuer asset issuer account_id (m_ret true)
      (λ asset li, is_trustline_authorized li account_id asset) in
  let* asset := read_asset in
  match asset with
  | Native => m_ret true
  | CreditAlphanum4 _ issuer => is_trustline_authorized_or_issuer asset issuer
  | CreditAlphanum12 _ issuer => is_trustline_authorized_or_issuer asset issuer
  end.

Definition set_authorization (acct : N) (authorize : bool) : M (SacHost S) unit :=
  let set_trustline_authorization_unless_issuer asset issuer :=
    unless_issuer asset issuer acct (m_fail OperationNotSupportedError)
      (λ asset li, set_trustline_authorization li acct asset authorize) in
  let* asset := read_asset in
  match asset with
  | Native => m_fail OperationNotSupportedError
  | CreditAlphanum4 _ issuer => set_trustline_authorization_unless_issuer asset issuer
  | CreditAlphanum12 _ issuer => set_trustline_authorization_unless_issuer asset issuer
  end.

Definition is_asset_issuer_flag_set (flag : Z) : M (SacHost S) bool :=
  let* i := read_asset_info in
  match i with
  | InfoNative => m_ret false
  | AlphaNum4 a | AlphaNum12 a => with_mut_storage (λ li, is_issuer_flag_set li (ai_issuer a) flag)
  end.
Definition is_asset_auth_required : M (SacHost S) bool := is_asset_issuer_flag_set RequiredFlag.
Definition is_asset_clawback_enabled : M (SacHost S) bool := is_asset_issuer_flag_set ClawbackEnabledFlag.
Definition is_asset_auth_revocable : M (SacHost S) bool := is_asset_issuer_flag_set RevocableFlag.

(** * Contract balances *)

Definition read_contract_balance (a : ScAddress) : M (SacHost S) (option BalanceValue) :=
  let* raw_balance := try_get_contract_data (data_key (Balance a)) StPersistent in
  match raw_balance with
  | Some v => let* b := m_lift (from_val balanceC v) in m_ret (Some b)
  | None => m_ret None
  end.

Definition extend_balance (a : ScAddress) : M (SacHost S) unit :=
  sac_extend_contract_data_ttl (data_key (Balance a)) StPersistent BALANCE_TTL_THRESHOLD
    BALANCE_EXTEND_AMOUNT.

Definition write_contract_balance (a : ScAddress) (balance : BalanceValue) : M (SacHost S) unit :=
  sac_put_contract_data (data_key (Balance a)) (enc balanceC balance) StPersistent ;;;
  extend_balance a.

(** [read_balance] renews the entry before it decodes it. *)
Definition read_balance (a : ScAddress) : M (SacHost S) Z :=
  match a with
  | Account acc_id => get_classic_balance acc_id
  | Contract _ =>
      let* raw_balance := try_get_contract_data (data_key (Balance a)) StPersistent in
      match raw_balance with
      | Some v =>
          extend_balance a ;;;
          let* b := m_lift (from_val balanceC v) in m_ret (amount b)
      | None => m_ret 0
      end
  end.

Definition is_authorized (a : ScAddress) : M (SacHost S) bool :=
  match a with
  | Account acc_id => is_account_authorized acc_id
  | Contract _ =>
      let* b := read_contract_balance a in
      match b with
      | Some b => m_ret (authorized b)
      | None => let* r := is_asset_auth_required in m_ret (negb r)
      end
  end.

Definition i64_try_from (n : Z) : Result Z :=
  if decide (i64_min <= n <= i64_max) then Ok n else Err OverflowError.

Definition receive_balance (a : ScAddress) (n : Z) : M (SacHost S) unit :=
  let* ok := is_authorized a in
  if negb ok then m_fail BalanceDeauthorizedError
  else match a with
  | Account acc_id =>
      let* i64_amount := m_lift (i64_try_from n) in
      transfer_classic_balance acc_id i64_amount
  | Contract _ =>
      let* o := read_contract_balance a in
      let* balance := match o with
        | Some b => m_ret b
        | None => let* c := is_asset_clawback_enabled in m_ret (mkBalanceValue 0 true c)
        end in
      let* new_balance := m_lift (ok_or (i128_checked_add (amount balance) n) OverflowError) in
      write_contract_balance a (set_amount new_balance balance)
  end.

Definition spend_balance_no_authorization_check (a : ScAddress) (n : Z) : M (SacHost S) unit :=
  match a with
  | Account acc_id =>
      let* i64_amount := m_lift (i64_try_from n) in
      let* negated := m_lift (i64_or_panic "negate" (- i64_amount)) in
      transfer_classic_balance acc_id negated
  | Contract _ =>
      let* o := read_contract_balance a in
      match o with
      | Some balance =>
          if decide (amount balance < n) then m_fail BalanceError
          else
            let* new_balance := m_lift (ok_or (i128_checked_sub (amount balance) n) OverflowError) in
            write_contract_balance a (set_amount new_balance balance)
      | None => if decide (0 < n) then m_fail BalanceError else m_ret tt
      end
  end.

Definition spend_balance (a : ScAddress) (n : Z) : M (SacHost S) unit :=
  let* ok := is_authorized a in
  if negb ok then m_fail BalanceDeauthorizedError
  else spend_balance_no_authorization_check a n.

Definition write_authorization (a : ScAddress) (authorize : bool) : M (SacHost S) unit :=
  (if authorize then m_ret tt
   else
     let* revocable := is_asset_auth_revocable in
     if revocable : bool then m_ret tt else m_fail OperationNotSupportedError) ;;;
  match a with
  | Account acc_id => set_authorization acc_id authorize
  | Contract _ =>
      let* o := read_contract_balance a in
      match o with
      | Some balance => write_contract_balance a (set_authorized_flag authorize balance)
      | None =>
          let* c := is_asset_clawback_enabled in
          write_contract_balance a (mkBalanceValue 0 authorize c)
      end
  end.

Definition check_clawbackable (a : ScAddress) : M (SacHost S) unit :=
  let validate_trustline asset issuer account :=
    if decide (issuer = account) then m_fail OperationNotSupportedError
    else
      let* tl_flags := with_mut_storage (λ li, get_trustline_flags li account asset) in
      if decide (Z.land tl_flags TrustlineClawbackEnabledFlag = 0) then m_fail BalanceError
      else m_ret tt in
  match a with
  | Account acc_id =>
      let* asset := read_asset in
      match asset with
      | Native => m_fail OperationNotSupportedError
      | CreditAlphanum4 _ issuer => validate_trustline asset issuer acc_id
      | CreditAlphanum12 _ issuer => validate_trustline asset issuer acc_id
      end
  | Contract _ =>
      let* o := read_contract_balance a in
      match o with
      | Some balance => if clawback balance then m_ret tt else m_fail BalanceError
      | None => m_fail BalanceError
      end
  end.
End balance.
