(* ===== verification/Token.v ===== *)
(** The built-in asset contract, [stellar_asset_contract/allowance.rs], [event.rs] and
    [contract.rs]: allowances, and one definition per entry point. *)
From S2P Require Import Prelude ScVal Storage Host AccountAuth TokenData TokenBalance.
#[local] Open Scope m_scope.

Module Sac.
Section contract.
Context {S : Type} `{LedgerStore S} (strkey : N → string).

(** * Allowances *)

Definition try_get_allowance (from spender : ScAddress) : M (SacHost S) (option AllowanceValue) :=
  let* raw := try_get_contract_data (data_key (Allowance (mkAllowanceDataKey from spender))) StTemporary in
  match raw with
  | Some v => let* a := m_lift (from_val allowanceC v) in m_ret (Some a)
  | None => m_ret None
  end.

Definition read_allowance (from spender : ScAddress) : M (SacHost S) Z :=
  let* o := try_get_allowance from spender in
  match o with
  | Some val =>
      let* li := ledger_info in
      if decide (live_until_ledger val < sequence_number li) then m_ret 0
      else m_ret (allowance_amount val)
  | None => m_ret 0
  end.

(** The ledger sequence, if [live_until] is valid for the amount. *)
Definition check_live_until (amount live_until : Z) (li : LedgerInfo) : Result Z :=
  match max_live_until_ledger li with
  | Err e => Err e
  | Ok max =>
      if decide (max < live_until) then Err AllowanceError
      else if decide (0 < amount ∧ live_until < sequence_number li) then Err AllowanceError
      else Ok (sequence_number li)
  end.

Definition write_allowance (from spender : ScAddress) (amount live_until : Z) : M (SacHost S) unit :=
  let key := data_key (Allowance (mkAllowanceDataKey from spender)) in
  let* li := ledger_info in
  let* ledger_seq := m_lift (check_live_until amount live_until li) in
  let* existing := try_get_allowance from spender in
  let allowance_with_live_until :=
    match existing with
    | Some a => Some (mkAllowanceValue amount live_until, Some (live_until_ledger a))
    | None => if decide (0 < amount) then Some (mkAllowanceValue amount live_until, None) else None
    end in
  match allowance_with_live_until with
  | Some (allowance, old_live_until) =>
      sac_put_contract_data key (enc allowanceC allowance) StTemporary ;;;
      if decide (0 < allowance_amount allowance ∧ default 0 old_live_until < live_until) then
        let live_for := u32_saturating_add (u32_saturating_sub live_until ledger_seq) 1 in
        sac_extend_contract_data_ttl key StTemporary live_for live_for
      else m_ret tt
  | None => m_ret tt
  end.

Definition write_allowance_amount (from spender : ScAddress) (amount : Z) : M (SacHost S) unit :=
  let* v := sac_get_contract_data (data_key (Allowance (mkAllowanceDataKey from spender))) StTemporary in
  let* allowance := m_lift (from_val allowanceC v) in
  write_allowance from spender amount (live_until_ledger allowance).

Definition spend_allowance (from spender : ScAddress) (amount : Z) : M (SacHost S) unit :=
  let* allowance := read_allowance from spender in
  if decide (allowance < amount) then m_fail AllowanceError
  else if decide (0 < amount) then
    let* new_allowance := m_lift (ok_or (i128_checked_sub allowance amount) OverflowError) in
    write_allowance_amount from spender new_allowance
  else m_ret tt.

(** * Events *)

Definition sac_event (topic : string) (addresses : list ScAddress) (data : ScVal) : M (SacHost S) unit :=
  let* name := read_name in
  contract_event ([ScSymbol topic] ++ (ScAddr <$> addresses) ++ [ScString name]) data.

Definition event_approve (from to : ScAddress) (amount live_until_ledger : Z) :=
  sac_event "approve" [from; to] (ScVec [ScI128 amount; ScU32 live_until_ledger]).
Definition event_transfer (from to : ScAddress) (amount : Z) :=
  sac_event "transfer" [from; to] (ScI128 amount).
Definition event_mint (admin to : ScAddress) (amount : Z) :=
  sac_event "mint" [admin; to] (ScI128 amount).
Definition event_clawback (admin from : ScAddress) (amount : Z) :=
  sac_event "clawback" [admin; from] (ScI128 amount).
Definition event_set_authorized (admin id : ScAddress) (authorize : bool) :=
  sac_event "set_authorized" [admin; id] (ScBool authorize).
Definition event_set_admin (admin new_admin : ScAddress) :=
  sac_event "set_admin" [admin] (ScAddr new_admin).
Definition event_burn (from : ScAddress) (amount : Z) :=
  sac_event "burn" [from] (ScI128 amount).

(** * Checks *)

Definition check_nonnegative_amount (amount : Z) : M (SacHost S) unit :=
  if decide (amount < 0) then m_fail NegativeAmountError else m_ret tt.

Definition check_non_native : M (SacHost S) unit :=
  let* i := read_asset_info in
  match i with
  | InfoNative => m_fail OperationNotSupportedError
  | AlphaNum4 _ | AlphaNum12 _ => m_ret tt
  end.

Definition check_not_issuer (addr : ScAddress) : M (SacHost S) unit :=
  let* i := read_asset_info in
  match i with
  | InfoNative => m_ret tt
  | AlphaNum4 a | AlphaNum12 a =>
      if decide (Account (ai_issuer a) = addr) then m_fail OperationNotSupportedError else m_ret tt
  end.

Definition extend_instance : M (SacHost S) unit :=
  on_ledger (λ li cid, extend_current_contract_instance_and_code_ttl li cid
    INSTANCE_TTL_THRESHOLD INSTANCE_EXTEND_AMOUNT).

(** * Entry points *)

(** [init_asset] is given the decoded asset; [asset_contract_id] derives the address of
    an asset's contract. *)
Definition init_asset (asset_contract_id : Asset → Hash) (asset : Asset) : M (SacHost S) unit :=
  let* initialized := has_asset_info in
  if initialized : bool then m_fail AlreadyInitializedError
  else
    m_lift (validate_asset asset) ;;;
    let* t := m_get in
    if decide (h_contract (sac_host t) ≠ asset_contract_id asset) then m_fail ContractInternalError
    else
      match asset with
      | Native => write_asset_info InfoNative
      | CreditAlphanum4 code issuer =>
          write_administrator (Account issuer) ;;;
          write_asset_info (AlphaNum4 (mkAlphaNum code issuer))
      | CreditAlphanum12 code issuer =>
          write_administrator (Account issuer) ;;;
          write_asset_info (AlphaNum12 (mkAlphaNum code issuer))
      end ;;;
      set_metadata strkey.

Definition allowance (from spender : ScAddress) : M (SacHost S) Z :=
  extend_instance ;;; read_allowance from spender.

Definition approve (from spender : ScAddress) (amount live_until_ledger : Z) : M (SacHost S) unit :=
  check_nonnegative_amount amount ;;;
  address_require_auth from ;;;
  extend_instance ;;;
  write_allowance from spender amount live_until_ledger ;;;
  event_approve from spender amount live_until_ledger.

Definition balance (addr : ScAddress) : M (SacHost S) Z := extend_instance ;;; read_balance addr.

Definition authorized (addr : ScAddress) : M (SacHost S) bool := extend_instance ;;; is_authorized addr.

Definition transfer (from to : ScAddress) (amount : Z) : M (SacHost S) unit :=
  check_nonnegative_amount amount ;;;
  address_require_auth from ;;;
  extend_instance ;;;
  spend_balance from amount ;;;
  receive_balance to amount ;;;
  event_transfer from to amount.

Definition transfer_from (spender from to : ScAddress) (amount : Z) : M (SacHost S) unit :=
  check_nonnegative_amount amount ;;;
  address_require_auth spender ;;;
  extend_instance ;;;
  spend_allowance from spender amount ;;;
  spend_balance from amount ;;;
  receive_balance to amount ;;;
  event_transfer from to amount.

Definition burn (from : ScAddress) (amount : Z) : M (SacHost S) unit :=
  check_nonnegative_amount amount ;;;
  check_non_native ;;;
  check_not_issuer from ;;;
  address_require_auth from ;;;
  extend_instance ;;;
  spend_balance from amount ;;;
  event_burn from amount.

Definition burn_from (spender from : ScAddress) (amount : Z) : M (SacHost S) unit :=
  check_nonnegative_amount amount ;;;
  check_non_native ;;;
  check_not_issuer from ;;;
  address_require_auth spender ;;;
  extend_instance ;;;
  spend_allowance from spender amount ;;;
  spend_balance from amount ;;;
  event_burn from amount.

Definition clawback (from : ScAddress) (amount : Z) : M (SacHost S) unit :=
  check_nonnegative_amount amount ;;;
  check_clawbackable from ;;;
  check_not_issuer from ;;;
  let* admin := read_administrator in
  address_require_auth admin ;;;
  extend_instance ;;;
  spend_balance_no_authorization_check from amount ;;;
  event_clawback admin from amount.

Definition set_authorized (addr : ScAddress) (authorize : bool) : M (SacHost S) unit :=
  let* admin := read_administrator in
  address_require_auth admin ;;;
  extend_instance ;;;
  write_authorization addr authorize ;;;
  event_set_authorized admin addr authorize.

Definition mint (to : ScAddress) (amount : Z) : M (SacHost S) unit :=
  check_nonnegative_amount amount ;;;
  check_not_issuer to ;;;
  let* admin := read_administrator in
  address_require_auth admin ;;;
  extend_instance ;;;
  receive_balance to amount ;;;
  event_mint admin to amount.

Definition set_admin (new_admin : ScAddress) : M (SacHost S) unit :=
  let* admin := read_administrator in
  address_require_auth admin ;;;
  extend_instance ;;;
  write_administrator new_admin ;;;
  event_set_admin admin new_admin.

Definition admin : M (SacHost S) ScAddress := read_administrator.
Definition decimals : M (SacHost S) Z := m_ret DECIMAL.
Definition name : M (SacHost S) string := read_name.
Definition symbol : M (SacHost S) string := read_symbol.

(** * Calls *)

(** The entry points with their arguments; what each returns is a value. *)
Inductive call :=
| CInit (asset : Asset)
| CAllowance (from spender : ScAddress)
| CApprove (from spender : ScAddress) (amount live_until_ledger : Z)
| CBalance (addr : ScAddress)
| CAuthorized (addr : ScAddress)
| CTransfer (from to : ScAddress) (amount : Z)
| CTransferFrom (spender from to : ScAddress) (amount : Z)
| CBurn (from : ScAddress) (amount : Z)
| CBurnFrom (spender from : ScAddress) (amount : Z)
| CClawback (from : ScAddress) (amount : Z)
| CSetAuthorized (addr : ScAddress) (authorize : bool)
| CMint (to : ScAddress) (amount : Z)
| CSetAdmin (new_admin : ScAddress)
| CAdmin | CDecimals | CName | CSymbol.

Definition returning {A} (value : A → ScVal) (p : M (SacHost S) A) : M (SacHost S) ScVal :=
  let* a := p in m_ret (value a).

Definition exec (asset_contract_id : Asset → Hash) (c : call) : M (SacHost S) ScVal :=
  let void := returning (λ _ : unit, ScVoid) in
  match c with
  | CInit asset => void (init_asset asset_contract_id asset)
  | CAllowance from spender => returning ScI128 (allowance from spender)
  | CApprove from spender n live => void (approve from spender n live)
  | CBalance a => returning ScI128 (balance a)
  | CAuthorized a => returning ScBool (authorized a)
  | CTransfer from to n => void (transfer from to n)
  | CTransferFrom spender from to n => void (transfer_from spender from to n)
  | CBurn from n => void (burn from n)
  | CBurnFrom spender from n => void (burn_from spender from n)
  | CClawback from n => void (clawback from n)
  | CSetAuthorized a b => void (set_authorized a b)
  | CMint to n => void (mint to n)
  | CSetAdmin a => void (set_admin a)
  | CAdmin => returning ScAddr admin
  | CDecimals => returning ScU32 decimals
  | CName => returning ScString name
  | CSymbol => returning ScString symbol
  end.

(** A call in its frame, authorized by [auths]: a failed one leaves nothing behind. *)
Definition invoke `{Rollback S} (asset_contract_id : Asset → Hash) (auths : gset ScAddress) (c : call) :
    M (SacHost S) ScVal := λ t,
  let h := sac_host t in
  let t0 := set_sac_host (mkHost (h_storage h) (h_ledger h) (h_contract h) auths (h_events h)) t in
  match exec asset_contract_id c t0 with
  | (Ok v, t') => (Ok v, t')
  | (Err e, t') =>
      (Err e, mkSacHost
        (set_events (rollback_events (length (h_events h)) (h_events (sac_host t')))
          (set_storage (restore (h_storage h) (h_storage (sac_host t'))) (sac_host t')))
        (instance_storage t))
  end.
End contract.
End Sac.
