(* ===== verification/TokenSpec.v ===== *)
(** What the operations of the asset contract do to the ledger when they succeed, as
    equations between ledgers; here on the plain [LedgerMap]. *)
From S2P Require Import Prelude ScVal Storage Host AccountAuth TokenData TokenBalance Token Env.
#[local] Open Scope m_scope.

#[local] Arguments dec {T} c v : simpl never.
#[local] Arguments enc {T} c x : simpl never.

Abbreviation Tok := (SacHost LedgerMap).

Definition led (t : Tok) : LedgerMap := h_storage (sac_host t).
Definition set_led (m : LedgerMap) (t : Tok) : Tok := set_sac_host (set_storage m (sac_host t)) t.
Definition info (t : Tok) : LedgerInfo := h_ledger (sac_host t).
Definition contract (t : Tok) : Hash := h_contract (sac_host t).
Definition auths (t : Tok) : gset ScAddress := h_auths (sac_host t).
Definition entries (t : Tok) : gmap LedgerKey LedgerEntry := fst <$> led t.

(** From [t] to [t'] the ledger entries become [E]; lifetimes of other than temporary
    entries and events aside, nothing else changes. *)
Record acts (t : Tok) (E : gmap LedgerKey LedgerEntry) (t' : Tok) : Prop := {
  ac_info : info t' = info t;
  ac_contract : contract t' = contract t;
  ac_auths : auths t' = auths t;
  ac_instance : instance_storage t' = instance_storage t;
  ac_entries : entries t' = E;
  ac_temp : ∀ c k, led t' !! KContractData c k Temporary = led t !! KContractData c k Temporary
}.

Lemma acts_refl t : acts t (entries t) t.
Proof. by split. Qed.
Lemma acts_trans t E t1 E' t2 : acts t E t1 → acts t1 E' t2 → acts t E' t2.
Proof. intros [] []. split; congruence. Qed.
Lemma acts_quiet_l t t1 E t2 : acts t (entries t) t1 → acts t1 E t2 → acts t E t2.
Proof. apply acts_trans. Qed.
Lemma acts_quiet_r t t1 E t2 : acts t E t1 → acts t1 (entries t1) t2 → acts t E t2.
Proof. intros H1 H2. pose proof (ac_entries _ _ _ H1) as <-. by eapply acts_trans. Qed.

Definition quiet (t t' : Tok) : Prop := acts t (entries t) t'.
#[export] Instance quiet_preorder : PreOrder quiet.
Proof. split; [exact acts_refl|]. intros t1 t2 t3 H1 H2. by eapply acts_quiet_r. Qed.

(** ** Taking programs apart *)

Lemma m_bind_ok {S A B} (p : M S A) (f : A → M S B) s b s' :
  m_bind p f s = (Ok b, s') → ∃ a s1, p s = (Ok a, s1) ∧ f a s1 = (Ok b, s').
Proof. intros [?|(? & ? & [=])]%m_bind_inv. done. Qed.

Lemma on_ledger_inv {A} (p : LedgerInfo → Hash → M LedgerMap A) (t : Tok) r t' :
  on_ledger p t = (r, t') → ∃ m', p (info t) (contract t) (led t) = (r, m') ∧ t' = set_led m' t.
Proof.
  unfold on_ledger, on_host, m_zoom, on_storage, info, contract, led.
  destruct (p _ _ _) as [r1 m']. intros [= -> <-]. by exists m'.
Qed.

Lemma led_set_led m t : led (set_led m t) = m.
Proof. done. Qed.
Lemma set_led_same t : set_led (led t) t = t.
Proof. by destruct t as [[] ?]. Qed.

(** Peels the first step off a successful run. *)
Ltac step H :=
  lazymatch type of H with
  | m_bind _ _ _ = (Ok _, _) => apply m_bind_ok in H as (? & ? & ?Hs & H)
  | m_lift _ _ = (Ok _, _) => unfold m_lift in H; injection H as H ?
  | m_ret _ _ = (Ok _, _) => unfold m_ret in H
  | m_get _ = (Ok _, _) => unfold m_get in H
  | m_fail _ _ = _ => discriminate H
  | (if decide ?P then _ else _) _ = _ => destruct (decide P)
  | (if ?b then _ else _) _ = _ => destruct b eqn:?
  end; simplify_eq/=.
Ltac steps H := repeat (step H; try discriminate).

Lemma m_lift_ok {S A} (r : Result A) (s : S) a s' : m_lift r s = (Ok a, s') → r = Ok a ∧ s' = s.
Proof. by intros [= -> ->]. Qed.
Lemma ok_or_ok {A} (o : option A) e a : ok_or o e = Ok a → o = Some a.
Proof. destruct o; by intros [= ->]. Qed.

(** ** The ledger map *)
Section map.
Context (li : LedgerInfo).

Lemma try_full_ok key (m : LedgerMap) o m' :
  try_get_full_with_host li key m = (Ok o, m') →
  m' = m ∧ (get_key_durability key ≠ Some Temporary → o = m !! key) ∧
  ∀ v, o = Some v → m !! key = Some v ∧ ∀ lu, v.2 = Some lu → get_key_durability key ≠ None → sequence_number li <= lu.
Proof.
  unfold try_get_full_with_host; simpl. unfold m_bind, m_lift, m_get, m_ret.
  destruct (check_supported_ledger_key_type key); [|done].
  unfold check_if_entry_is_live.
  destruct (m !! key) as [[en [lu|]]|]; simpl; try (intros [= <- <-]; split_and!; naive_solver).
  case_decide; [intros [= <- <-]; split_and!; naive_solver|].
  destruct (get_key_durability key) as [[]|]; [|done|]; intros [= <- <-]; split_and!; naive_solver.
Qed.

Lemma get_with_host_ok key (m : LedgerMap) en m' :
  get_with_host li key m = (Ok en, m') → m' = m ∧ ∃ lu, m !! key = Some (en, lu).
Proof.
  unfold get_with_host. intros H. step H. apply try_full_ok in Hs as (-> & _ & Hv).
  apply m_lift_ok in H as [H ->]. split; [done|]. destruct x as [[en' lu]|]; [|done].
  injection H as ->. exists lu. by apply (Hv _ eq_refl).
Qed.

Lemma put_with_host_ok key v lu (m m' : LedgerMap) :
  put_with_host li key v lu m = (Ok tt, m') → m' = <[key := (v, lu)]> m.
Proof.
  unfold put_with_host, put_opt_with_host, m_bind, m_get, m_lift, m_ret. simpl.
  unfold ledger_put_opt, m_bind, m_lift, m_modify.
  destruct (check_if_entry_is_live li key (m !! key)); simpl; [|done].
  destruct (check_supported_ledger_key_type key); [|done].
  by destruct (check_supported_ledger_entry_type v); [intros [= <-]|].
Qed.

Lemma has_with_host_ok key (m : LedgerMap) b m' :
  has_with_host li key m = (Ok b, m') →
  m' = m ∧ (get_key_durability key ≠ Some Temporary → b = bool_decide (is_Some (m !! key))).
Proof.
  unfold has_with_host. intros H. step H. apply try_full_ok in Hs as (-> & Hx & _).
  injection H as <- <-. split; [done|]. intros Hk. by rewrite Hx.
Qed.

Lemma get_live_ok key (m : LedgerMap) v m' :
  get_with_live_until_ledger li key m = (Ok v, m') → m' = m ∧ m !! key = Some v.
Proof. intros [-> Hv]%get_live_state. auto. Qed.

(** Writing contract data: the entry keeps its lifetime, or gets one. *)
Lemma put_contract_data_ok cid k v d (m m' : LedgerMap) :
  put_contract_data li cid k v d m = (Ok tt, m') →
  ∃ e lu, cde_val e = v ∧ m' = <[storage_key cid k d := (EContractData e, lu)]> m ∧
    ((∃ e0, m !! storage_key cid k d = Some (EContractData e0, lu)) ∨
     get_min_live_until_ledger li d = Ok (default 0 lu) ∧ is_Some lu ∧
       ∃ m1, has_with_host li (storage_key cid k d) m = (Ok false, m1)).
Proof.
  unfold put_contract_data. intros H. step H. pose proof Hs as Hhas.
  apply has_with_host_ok in Hs as [-> _]. step H.
  - step H. apply get_live_ok in Hs as [-> Hs]. destruct x as [[] lu]; try discriminate H.
    apply put_with_host_ok in H as ->. eexists _, lu. split; [|split; [done|eauto]]. done.
  - step H. apply m_lift_ok in Hs as [Hs ->]. apply put_with_host_ok in H as ->.
    eexists _, _. split; [|split; [done|]]; [done|]. right. eauto.
Qed.

Lemma extend_ttl_fst key th ext (m m' : LedgerMap) r :
  extend_ttl li key th ext m = (r, m') → (fst <$> m' : gmap _ _) = fst <$> m ∧
    ∀ key', key' ≠ key → m' !! key' = m !! key'.
Proof.
  intros [->|(en & old & new & Hm & _ & ->)]%extend_ttl_shape; [done|].
  split; [|intros key' Hne; by rewrite lookup_insert_ne].
  rewrite fmap_insert. simpl. apply map_eq. intros key'.
  destruct (decide (key = key')) as [<-|]; [|by rewrite lookup_insert_ne].
  by rewrite lookup_insert_eq, lookup_fmap, Hm.
Qed.
End map.

(** * The view of a token *)

Definition issuer_of (asset : Asset) : option N :=
  match asset with Native => None | CreditAlphanum4 _ i | CreditAlphanum12 _ i => Some i end.
Definition token_info (t : Tok) : option AssetInfo :=
  instance_storage t !! instance_data_key AssetInfoKey ≫= dec assetInfoC.
Definition token_asset (t : Tok) : option Asset :=
  token_info t ≫= λ i, match asset_of_info i with Ok a => Some a | Err _ => None end.
Definition token_admin (t : Tok) : option ScAddress :=
  instance_storage t !! instance_data_key Admin ≫= dec addressC.

Definition balance_key (cid : Hash) (a : ScAddress) : LedgerKey :=
  storage_key cid (data_key (Balance a)) Persistent.
Definition allowance_key (cid : Hash) (from spender : ScAddress) : LedgerKey :=
  storage_key cid (data_key (Allowance (mkAllowanceDataKey from spender))) Temporary.

Abbreviation Entries := (gmap LedgerKey LedgerEntry).

Definition stored_balance (cid : Hash) (E : Entries) (a : ScAddress) : option BalanceValue :=
  match E !! balance_key cid a with
  | Some (EContractData d) => dec balanceC (cde_val d)
  | _ => None
  end.

(** What an address holds; the issuer counts as holding nothing. *)
Definition holding (asset : Asset) (cid : Hash) (E : Entries) (a : ScAddress) : Z :=
  match a with
  | Contract _ => match stored_balance cid E a with Some b => amount b | None => 0 end
  | Account k =>
      match issuer_of asset with
      | None => match E !! KAccount k with Some (EAccount ae) => account_balance ae | _ => 0 end
      | Some issuer =>
          if decide (issuer = k) then 0
          else match E !! KTrustline k asset with Some (ETrustline tl) => tl_balance tl | _ => 0 end
      end
  end.

(** Whether it may send and receive; a contract without an entry as the issuer's flag says. *)
Definition may_move (asset : Asset) (cid : Hash) (E : Entries) (a : ScAddress) : bool :=
  match a with
  | Contract _ =>
      match stored_balance cid E a with
      | Some b => authorized b
      | None =>
          match issuer_of asset with
          | None => true
          | Some issuer =>
              match E !! KAccount issuer with
              | Some (EAccount ae) => bool_decide (Z.land (account_flags ae) RequiredFlag = 0)
              | _ => false
              end
          end
      end
  | Account k =>
      match issuer_of asset with
      | None => true
      | Some issuer =>
          if decide (issuer = k) then true
          else match E !! KTrustline k asset with
               | Some (ETrustline tl) => bool_decide (Z.land (tl_flags tl) AuthorizedFlag ≠ 0)
               | _ => false
               end
      end
  end.

(** ** What operations leave *)

(** [n] was added to what [a] holds, within the limits of the entry it is kept in. *)
Inductive moved (asset : Asset) (li : LedgerInfo) (cid : Hash) (n : Z) (E : Entries) : ScAddress → Entries → Prop :=
| moved_issuer k : issuer_of asset = Some k → moved asset li cid n E (Account k) E
| moved_account k ae lo hi :
    issuer_of asset = None → E !! KAccount k = Some (EAccount ae) →
    get_min_max_account_balance li ae = Ok (lo, hi) → lo <= account_balance ae + n <= hi →
    in_i64 (account_balance ae + n) →
    moved asset li cid n E (Account k)
      (<[KAccount k := EAccount (set_account_balance (account_balance ae + n) ae)]> E)
| moved_trustline k tl lo hi :
    issuer_of asset ≠ None → issuer_of asset ≠ Some k → E !! KTrustline k asset = Some (ETrustline tl) →
    get_min_max_trustline_balance tl = Ok (lo, hi) → lo <= tl_balance tl + n <= hi →
    in_i64 (tl_balance tl + n) →
    moved asset li cid n E (Account k)
      (<[KTrustline k asset := ETrustline (set_tl_balance (tl_balance tl + n) tl)]> E)
| moved_contract c b e :
    stored_balance cid E (Contract c) = Some b ∨
      E !! balance_key cid (Contract c) = None ∧ amount b = 0 ∧ authorized b = true ∧ 0 <= n →
    in_i128 (amount b + n) → (n < 0 → 0 <= amount b + n) →
    cde_val e = enc balanceC (set_amount (amount b + n) b) →
    moved asset li cid n E (Contract c) (<[balance_key cid (Contract c) := EContractData e]> E)
| moved_nothing c : n = 0 → stored_balance cid E (Contract c) = None → moved asset li cid n E (Contract c) E.

Lemma dec_set_amount n b : dec balanceC (enc balanceC (set_amount n b)) = Some (set_amount n b).
Proof. apply dec_enc. Qed.

Lemma balance_key_inj cid a b : balance_key cid a = balance_key cid b → a = b.
Proof. unfold balance_key, storage_key. by intros [= ->]. Qed.

Lemma stored_balance_insert cid E a b e :
  stored_balance cid (<[balance_key cid a := EContractData e]> E) b =
  if decide (a = b) then dec balanceC (cde_val e) else stored_balance cid E b.
Proof.
  unfold stored_balance. case_decide as Hab; [subst; by rewrite lookup_insert_eq|].
  rewrite lookup_insert_ne; [done|]. by intros ?%balance_key_inj.
Qed.

Lemma stored_balance_other cid E key e a :
  (∀ c k d, key ≠ KContractData c k d) → stored_balance cid (<[key := e]> E) a = stored_balance cid E a.
Proof. intros Hk. unfold stored_balance. by rewrite lookup_insert_ne by apply Hk. Qed.

Lemma moved_holding asset li cid n E a E' b :
  moved asset li cid n E a E' →
  holding asset cid E' b = holding asset cid E b +
    (if decide (a = b ∧ Account <$> issuer_of asset ≠ Some b) then n else 0).
Proof.
  destruct 1 as [k Hi|k ae lo hi Hi HE _ _ _|k tl lo hi Hi Hk HE _ _ _|c v e Hv _ _ He|c -> Hc].
  - rewrite Hi. rewrite decide_False by (simpl; intros [<- ?]; done). lia.
  - rewrite Hi. unfold holding. rewrite Hi. destruct b as [k'|c].
    + destruct (decide (k = k')) as [<-|Hne].
      * rewrite lookup_insert_eq, HE, decide_True by done. done.
      * rewrite lookup_insert_ne by congruence. rewrite decide_False by (intros [[= ->] _]; done). lia.
    + rewrite stored_balance_other by done. rewrite decide_False by (intros [[=] _]). lia.
  - unfold holding. destruct (issuer_of asset) as [issuer|] eqn:His; [|done]. destruct b as [k'|c].
    + destruct (decide (issuer = k')) as [<-|Hne'].
      * rewrite decide_False by (intros [[= ->] _]; done). lia.
      * destruct (decide (k = k')) as [<-|Hne].
        -- rewrite lookup_insert_eq, HE, decide_True by (split; [done|simpl; congruence]). done.
        -- rewrite lookup_insert_ne by congruence. rewrite decide_False by (intros [[= ->] _]; done). lia.
    + rewrite stored_balance_other by done. rewrite decide_False by (intros [[=] _]). lia.
  - destruct (decide (Contract c = b)) as [<-|Hne].
    + rewrite decide_True by (split; [done|by destruct (issuer_of asset)]).
      unfold holding. rewrite stored_balance_insert, decide_True, He, dec_set_amount by done. simpl.
      destruct Hv as [->|(Hnone & -> & _)]; [lia|]. unfold stored_balance. rewrite Hnone. lia.
    + rewrite decide_False by (intros [? _]; done). unfold holding. destruct b as [k'|c'].
      * rewrite !lookup_insert_ne by done. lia.
      * rewrite stored_balance_insert, decide_False by done. lia.
  - case_decide; lia.
Qed.

(** * Successful operations *)

Lemma entries_lookup t key en lu : led t !! key = Some (en, lu) → entries t !! key = Some en.
Proof. intros Hl. unfold entries. by rewrite lookup_fmap, Hl. Qed.
Lemma entries_none t key : led t !! key = None → entries t !! key = None.
Proof. intros Hl. unfold entries. by rewrite lookup_fmap, Hl. Qed.

Lemma acts_insert t key en lu :
  get_key_durability key ≠ Some Temporary →
  acts t (<[key := en]> (entries t)) (set_led (<[key := (en, lu)]> (led t)) t).
Proof.
  intros Hk. split; try done.
  - unfold entries. change (led (set_led ?m t)) with m. by rewrite fmap_insert.
  - intros c k. rewrite led_set_led, lookup_insert_ne; [done|]. by intros ->.
Qed.

Lemma quiet_ttl t key th ext r m' :
  get_key_durability key ≠ Some Temporary →
  extend_ttl (info t) key th ext (led t) = (r, m') → quiet t (set_led m' t).
Proof.
  intros Hk [Hf Hne]%extend_ttl_fst. split; try done.
  intros c k. rewrite led_set_led. apply Hne. by intros <-.
Qed.

Lemma with_mut_storage_inv {A} (p : LedgerInfo → M LedgerMap A) (t : Tok) r t' :
  with_mut_storage p t = (r, t') → ∃ m', p (info t) (led t) = (r, m') ∧ t' = set_led m' t.
Proof. apply (on_ledger_inv (λ li _, p li)). Qed.

(** ** Reading *)

Lemma instance_get_ok k (t t' : Tok) v :
  sac_get_contract_data k StInstance t = (Ok v, t') → t' = t ∧ instance_storage t !! k = Some v.
Proof.
  unfold sac_get_contract_data. intros H. step H. step Hs.
  apply m_lift_ok in H as [H%ok_or_ok ->]. done.
Qed.

Lemma from_val_ok {T} (c : codec T) v x : from_val c v = Ok x → dec c v = Some x.
Proof. apply ok_or_ok. Qed.

Lemma read_asset_info_ok (t t' : Tok) i :
  read_asset_info t = (Ok i, t') → t' = t ∧ token_info t = Some i.
Proof.
  unfold read_asset_info, token_info. intros H. step H. apply instance_get_ok in Hs as [-> ->].
  apply m_lift_ok in H as [H%from_val_ok ->]. done.
Qed.
Lemma read_asset_ok (t t' : Tok) a : read_asset t = (Ok a, t') → t' = t ∧ token_asset t = Some a.
Proof.
  unfold read_asset, token_asset. intros H. step H. apply read_asset_info_ok in Hs as [-> ->].
  apply m_lift_ok in H as [H ->]. simpl. by rewrite H.
Qed.
Lemma read_administrator_ok (t t' : Tok) a :
  read_administrator t = (Ok a, t') → t' = t ∧ token_admin t = Some a.
Proof.
  unfold read_administrator, token_admin. intros H. step H. apply instance_get_ok in Hs as [-> ->].
  apply m_lift_ok in H as [H%from_val_ok ->]. done.
Qed.

(** The issuer by the asset and by its stored form. *)
Definition info_issuer (i : AssetInfo) : option N :=
  match i with InfoNative => None | AlphaNum4 a | AlphaNum12 a => Some (ai_issuer a) end.
Lemma info_issuer_asset t i a :
  token_info t = Some i → token_asset t = Some a → issuer_of a = info_issuer i.
Proof.
  unfold token_asset. intros ->. simpl.
  destruct i as [|x|x]; simpl; [by intros [= <-]|unfold to_array; case_decide; by intros [= <-]..].
Qed.

Lemma read_persistent_ok k (t t' : Tok) o :
  try_get_contract_data k StPersistent t = (Ok o, t') → t' = t ∧
  match o with
  | Some v => ∃ d, entries t !! storage_key (contract t) k Persistent = Some (EContractData d) ∧ cde_val d = v
  | None => entries t !! storage_key (contract t) k Persistent = None
  end.
Proof.
  unfold try_get_contract_data, sac_has_contract_data, sac_get_contract_data. intros H. step H.
  apply on_ledger_inv in Hs as (m' & Hs & ->).
  unfold has_contract_data in Hs. apply has_with_host_ok in Hs as [-> Hx]. rewrite set_led_same in H.
  specialize (Hx ltac:(done)). step H.
  - step H. step H. apply on_ledger_inv in Hs as (m' & Hs & ->). unfold get_contract_data in Hs. step Hs.
    apply get_with_host_ok in Hs0 as (-> & lu & Hl). destruct x0; try discriminate Hs. step Hs.
    rewrite set_led_same. split; [done|]. eexists. split; [by eapply entries_lookup|done].
  - step H. split; [done|]. apply entries_none.
    destruct (led t' !! _) eqn:Hl; [|done]. rewrite bool_decide_true in Hx; [done|by eexists].
Qed.

Lemma read_contract_balance_ok a (t t' : Tok) o :
  read_contract_balance a t = (Ok o, t') → t' = t ∧ o = stored_balance (contract t) (entries t) a ∧
    (o = None → entries t !! balance_key (contract t) a = None).
Proof.
  unfold read_contract_balance. intros H. step H. apply read_persistent_ok in Hs as [-> Hs].
  unfold stored_balance, balance_key. destruct x as [v|].
  - destruct Hs as (d & -> & Hd). step H. apply m_lift_ok in Hs as [Hs%from_val_ok ->]. step H.
    by rewrite Hs.
  - step H. by rewrite Hs.
Qed.

Lemma try_get_entry_ok li key (m m' : LedgerMap) o :
  get_key_durability key = None → try_get_entry li key m = (Ok o, m') → m' = m ∧ o = fst <$> m !! key.
Proof.
  unfold try_get_entry. intros Hk H. step H. apply try_full_ok in Hs as (-> & Hx & _). step H.
  rewrite Hx by congruence. done.
Qed.

Lemma read_account_ok li k (m m' : LedgerMap) le ae :
  read_account_entry li (KAccount k) m = (Ok le, m') → account_of_entry le = Ok ae →
  m' = m ∧ ∃ lu, m !! KAccount k = Some (EAccount ae, lu).
Proof.
  unfold read_account_entry. intros H Hae. step H. apply try_get_entry_ok in Hs as [-> ->]; [|done].
  apply m_lift_ok in H as [H%ok_or_ok ->]. apply fmap_Some in H as ([en lu] & Hm & ->).
  split; [done|]. exists lu. simpl in Hae. destruct en; try discriminate Hae. by injection Hae as ->.
Qed.
Lemma read_trustline_ok li k asset (m m' : LedgerMap) le tl :
  read_trustline_entry li (KTrustline k asset) m = (Ok le, m') → trustline_of_entry le = Ok tl →
  m' = m ∧ ∃ lu, m !! KTrustline k asset = Some (ETrustline tl, lu).
Proof.
  unfold read_trustline_entry. intros H Htl. step H. apply try_get_entry_ok in Hs as [-> ->]; [|done].
  apply m_lift_ok in H as [H%ok_or_ok ->]. apply fmap_Some in H as ([en lu] & Hm & ->).
  split; [done|]. exists lu. simpl in Htl. destruct en; try discriminate Htl. by injection Htl as ->.
Qed.

Lemma checked_balance_ok b n range nb :
  checked_balance b n range = Ok nb → nb = b + n ∧ range.1 <= b + n <= range.2 ∧ in_i64 (b + n).
Proof.
  unfold checked_balance, i64_checked_add. repeat case_decide; try done. by intros [= <-].
Qed.

(** ** Moving balances *)

Lemma set_led_inj_acts t key en lu m' :
  get_key_durability key ≠ Some Temporary → m' = <[key := (en, lu)]> (led t) →
  acts t (<[key := en]> (entries t)) (set_led m' t).
Proof. intros Hk ->. by apply acts_insert. Qed.

Lemma transfer_account_ok asset k n (t : Tok) m' :
  issuer_of asset = None →
  transfer_account_balance (info t) k n (led t) = (Ok tt, m') →
  ∃ E, moved asset (info t) (contract t) n (entries t) (Account k) E ∧ acts t E (set_led m' t).
Proof.
  unfold transfer_account_balance. intros Hi H. step H. step H.
  apply m_lift_ok in Hs0 as [Hae ->]. destruct (read_account_ok _ _ _ _ _ _ Hs Hae) as [-> [lu Hm]].
  step H. apply m_lift_ok in Hs0 as [Hrange ->]. destruct x0 as [lo hi].
  step H. apply m_lift_ok in Hs0 as [(-> & Hr & Hi64)%checked_balance_ok ->].
  apply put_with_host_ok in H. eexists. split; [|by eapply set_led_inj_acts; [|exact H]].
  eapply moved_account; eauto. by eapply entries_lookup.
Qed.

Lemma transfer_trustline_ok asset k n (t : Tok) m' :
  issuer_of asset ≠ None → issuer_of asset ≠ Some k →
  transfer_trustline_balance (info t) k asset n (led t) = (Ok tt, m') →
  ∃ E, moved asset (info t) (contract t) n (entries t) (Account k) E ∧ acts t E (set_led m' t).
Proof.
  unfold transfer_trustline_balance. intros Hi Hk H. step H. step H.
  apply m_lift_ok in Hs0 as [Hae ->]. destruct (read_trustline_ok _ _ _ _ _ _ _ Hs Hae) as [-> [lu Hm]].
  step H. apply m_lift_ok in Hs0 as [Hrange ->]. destruct x0 as [lo hi].
  step H. apply m_lift_ok in Hs0 as [(-> & Hr & Hi64)%checked_balance_ok ->].
  apply put_with_host_ok in H. eexists. split; [|by eapply set_led_inj_acts; [|exact H]].
  eapply moved_trustline; eauto. by eapply entries_lookup.
Qed.

(** The three cases every function on accounts distinguishes. *)
Lemma classic_cases {A} asset k (t t' : Tok) r (native : M Tok A) (if_issuer : M Tok A)
    (p : Asset → LedgerInfo → M LedgerMap A) :
  match asset with
  | Native => native
  | CreditAlphanum4 _ issuer => unless_issuer asset issuer k if_issuer p
  | CreditAlphanum12 _ issuer => unless_issuer asset issuer k if_issuer p
  end t = (Ok r, t') →
  issuer_of asset = None ∧ native t = (Ok r, t') ∨
  issuer_of asset = Some k ∧ if_issuer t = (Ok r, t') ∨
  issuer_of asset ≠ None ∧ issuer_of asset ≠ Some k ∧
    ∃ m', p asset (info t) (led t) = (Ok r, m') ∧ t' = set_led m' t.
Proof.
  unfold unless_issuer. intros Hrun. destruct asset as [|c i|c i]; [by left|..];
    (destruct (decide (i = k)) as [->|Hne]; [by right; left|]);
    apply with_mut_storage_inv in Hrun; right; right; simpl; (split; [done|]; split; [congruence|done]).
Qed.

Lemma transfer_classic_ok k n (t t' : Tok) :
  transfer_classic_balance k n t = (Ok tt, t') →
  ∃ asset E, token_asset t = Some asset ∧
    moved asset (info t) (contract t) n (entries t) (Account k) E ∧ acts t E t'.
Proof.
  unfold transfer_classic_balance. intros H. step H. apply read_asset_ok in Hs as [-> Ha].
  exists x. apply classic_cases in H as [[Hi H]|[[Hi H]|(Hi & Hk & m' & H & ->)]].
  - apply with_mut_storage_inv in H as (m' & H & ->).
    destruct (transfer_account_ok x k n t m' Hi H) as (E & HE & Hacts). eauto.
  - step H. eexists. split; [done|]. split; [by apply moved_issuer|]. apply acts_refl.
  - destruct (transfer_trustline_ok x k n t m' Hi Hk H) as (E & HE & Hacts). eauto.
Qed.

Lemma write_contract_balance_ok a b (t t' : Tok) :
  write_contract_balance a b t = (Ok tt, t') →
  ∃ e, cde_val e = enc balanceC b ∧
    acts t (<[balance_key (contract t) a := EContractData e]> (entries t)) t'.
Proof.
  unfold write_contract_balance, extend_balance, sac_put_contract_data, sac_extend_contract_data_ttl.
  intros H. step H. apply on_ledger_inv in Hs as (m1 & Hs & ->). destruct x.
  apply put_contract_data_ok in Hs as (e & lu & He & Hm & _).
  apply on_ledger_inv in H as (m2 & H & ->). apply quiet_ttl in H; [|done].
  exists e. split; [done|]. eapply acts_quiet_r; [|exact H].
  by eapply set_led_inj_acts; [|exact Hm].
Qed.

(** ** The issuer's flags *)

Definition issuer_flag (asset : Asset) (E : Entries) (flag : Z) : bool :=
  match issuer_of asset with
  | None => false
  | Some issuer =>
      match E !! KAccount issuer with
      | Some (EAccount ae) => bool_decide (Z.land (account_flags ae) flag ≠ 0)
      | _ => false
      end
  end.

Lemma load_account_ok li k (m m' : LedgerMap) ae :
  load_account li k m = (Ok ae, m') → m' = m ∧ ∃ lu, m !! KAccount k = Some (EAccount ae, lu).
Proof.
  unfold load_account. intros H. step H. apply get_with_host_ok in Hs as (-> & lu & Hm).
  destruct x; try discriminate H. step H. eauto.
Qed.

Lemma issuer_flag_ok flag (t t' : Tok) b :
  is_asset_issuer_flag_set flag t = (Ok b, t') →
  t' = t ∧ ∃ i, token_info t = Some i ∧
    match info_issuer i with
    | None => b = false
    | Some issuer => ∃ ae, entries t !! KAccount issuer = Some (EAccount ae) ∧
        b = bool_decide (Z.land (account_flags ae) flag ≠ 0)
    end.
Proof.
  unfold is_asset_issuer_flag_set. intros H. step H. apply read_asset_info_ok in Hs as [-> Hi].
  assert (∀ issuer, with_mut_storage (λ li, is_issuer_flag_set li issuer flag) t = (Ok b, t') →
    t' = t ∧ ∃ ae, entries t !! KAccount issuer = Some (EAccount ae) ∧
        b = bool_decide (Z.land (account_flags ae) flag ≠ 0)) as Hset.
  { intros issuer (m' & Hs & ->)%with_mut_storage_inv. unfold is_issuer_flag_set in Hs. step Hs.
    apply load_account_ok in Hs0 as (-> & lu & Hm). step Hs. rewrite set_led_same.
    split; [done|]. eexists. split; [by eapply entries_lookup|done]. }
  destruct x; [step H; split; [done|]; by eexists|apply Hset in H as [-> H]; split; [done|];
    eexists; split; [exact Hi|exact H]..].
Qed.

Lemma issuer_flag_asset flag (t t' : Tok) b asset :
  is_asset_issuer_flag_set flag t = (Ok b, t') → token_asset t = Some asset →
  t' = t ∧ b = issuer_flag asset (entries t) flag.
Proof.
  intros (-> & i & Hi & Hb)%issuer_flag_ok Ha. split; [done|]. unfold issuer_flag.
  rewrite (info_issuer_asset t i asset Hi Ha). destruct (info_issuer i); [|done].
  by destruct Hb as (ae & -> & ->).
Qed.

(** ** Sending and receiving *)

Lemma get_flags_ok li k asset (m m' : LedgerMap) f :
  get_trustline_flags li k asset m = (Ok f, m') →
  m' = m ∧ ∃ tl lu, m !! KTrustline k asset = Some (ETrustline tl, lu) ∧ f = tl_flags tl.
Proof.
  unfold get_trustline_flags. intros H. step H. step H. apply m_lift_ok in Hs0 as [Htl ->].
  destruct (read_trustline_ok _ _ _ _ _ _ _ Hs Htl) as [-> [lu Hm]]. step H. eauto.
Qed.

Lemma is_authorized_ok a (t t' : Tok) b asset :
  is_authorized a t = (Ok b, t') → token_asset t = Some asset →
  t' = t ∧ b = may_move asset (contract t) (entries t) a.
Proof.
  intros H Ha. destruct a as [k|c]; simpl in H.
  - unfold is_account_authorized in H. step H. apply read_asset_ok in Hs as [-> Ha'].
    assert (x = asset) as -> by congruence. unfold may_move.
    apply classic_cases in H as [[Hi H]|[[Hi H]|(Hi & Hk & m' & H & ->)]]; rewrite ?Hi.
    + by step H.
    + step H. by rewrite decide_True.
    + unfold is_trustline_authorized in H. step H. apply get_flags_ok in Hs as (-> & tl & lu & Hm & ->).
      step H. rewrite set_led_same. split; [done|]. destruct (issuer_of asset) as [issuer|]; [|done].
      rewrite decide_False by congruence. by rewrite (entries_lookup _ _ _ _ Hm).
  - step H. apply read_contract_balance_ok in Hs as (-> & -> & Hnone). unfold may_move.
    destruct (stored_balance _ _ _) as [v|]; [by step H|].
    step H. apply issuer_flag_ok in Hs as (-> & i & Hi & Hb). step H. split; [done|].
    rewrite (info_issuer_asset _ i asset Hi Ha). destruct (info_issuer i); [|by subst].
    destruct Hb as (ae & -> & ->). by rewrite bool_decide_not, negb_involutive.
Qed.

Lemma i64_try_from_ok n m : i64_try_from n = Ok m → m = n ∧ in_i64 n.
Proof. unfold i64_try_from. case_decide; by intros [= <-]. Qed.

Lemma spend_unchecked_ok a n (t t' : Tok) asset :
  spend_balance_no_authorization_check a n t = (Ok tt, t') → token_asset t = Some asset → 0 <= n →
  ∃ E, moved asset (info t) (contract t) (- n) (entries t) a E ∧ acts t E t'.
Proof.
  intros H Ha Hn. destruct a as [k|c]; simpl in H.
  - step H. apply m_lift_ok in Hs as [[-> Hi]%i64_try_from_ok ->]. step H.
    apply m_lift_ok in Hs as [Hs ->]. unfold i64_or_panic in Hs. case_decide; [|done].
    injection Hs as <-. apply transfer_classic_ok in H as (asset' & E & Ha' & HE).
    assert (asset' = asset) as -> by congruence. eauto.
  - step H. apply read_contract_balance_ok in Hs as (-> & -> & Hnone).
    destruct (stored_balance _ _ _) as [v|] eqn:Hv.
    + step H. step H. apply m_lift_ok in Hs as [Hs%ok_or_ok ->].
      unfold i128_checked_sub in Hs. case_decide; [|done]. injection Hs as <-.
      apply write_contract_balance_ok in H as (e & He & Hacts).
      eexists. split; [|exact Hacts]. apply (moved_contract _ _ _ _ _ _ v); [by left|unfold in_i128; lia|lia|].
      by rewrite He.
    + step H. step H. eexists. split; [apply moved_nothing; [lia|done]|apply acts_refl].
Qed.

Lemma spend_ok a n (t t' : Tok) asset :
  spend_balance a n t = (Ok tt, t') → token_asset t = Some asset → 0 <= n →
  may_move asset (contract t) (entries t) a = true ∧
  ∃ E, moved asset (info t) (contract t) (- n) (entries t) a E ∧ acts t E t'.
Proof.
  unfold spend_balance. intros H Ha Hn. step H. apply (is_authorized_ok _ _ _ _ asset) in Hs as [-> ->]; [|done].
  step H. apply negb_false_iff in Heqb. split; [done|]. by eapply spend_unchecked_ok.
Qed.

Lemma receive_ok a n (t t' : Tok) asset :
  receive_balance a n t = (Ok tt, t') → token_asset t = Some asset → 0 <= n →
  may_move asset (contract t) (entries t) a = true ∧
  ∃ E, moved asset (info t) (contract t) n (entries t) a E ∧ acts t E t'.
Proof.
  unfold receive_balance. intros H Ha Hn. step H. apply (is_authorized_ok _ _ _ _ asset) in Hs as [-> ->]; [|done].
  step H. apply negb_false_iff in Heqb. split; [done|]. destruct a as [k|c].
  - step H. apply m_lift_ok in Hs as [[-> Hi]%i64_try_from_ok ->].
    apply transfer_classic_ok in H as (asset' & E & Ha' & HE).
    assert (asset' = asset) as -> by congruence. eauto.
  - step H. apply read_contract_balance_ok in Hs as (-> & -> & Hnone). step H.
    assert (x0 = t ∧ (stored_balance (contract t) (entries t) (Contract c) = Some x ∨
      entries t !! balance_key (contract t) (Contract c) = None ∧ amount x = 0 ∧ authorized x = true ∧ 0 <= n))
      as [-> Hx].
    { destruct (stored_balance _ _ _) as [v|] eqn:Hv; [step Hs; by split; [|left]|].
      step Hs. apply issuer_flag_ok in Hs0 as (-> & _). step Hs. split; [done|]. right. auto. }
    step H. apply m_lift_ok in Hs0 as [Hs0%ok_or_ok ->].
    unfold i128_checked_add in Hs0. case_decide; [|done]. injection Hs0 as <-.
    apply write_contract_balance_ok in H as (e & He & Hacts).
    eexists. split; [|exact Hacts]. apply (moved_contract _ _ _ _ _ _ x); [done|done|lia|done].
Qed.
