(* ===== verification/TokenCalls.v ===== *)
(** What each call of the asset contract does when it succeeds. *)
From S2P Require Import Prelude ScVal Storage Host AccountAuth TokenData TokenBalance Token Env.
From S2P Require Import TokenSpec.
#[local] Open Scope m_scope.
#[local] Arguments dec {T} c v : simpl never.
#[local] Arguments enc {T} c x : simpl never.

(** * Quiet steps *)

Lemma extend_instance_quiet (t t' : Tok) : Sac.extend_instance t = (Ok tt, t') → quiet t t'.
Proof.
  unfold Sac.extend_instance. intros (m' & H & ->)%on_ledger_inv.
  unfold extend_current_contract_instance_and_code_ttl in H. step H.
  assert (quiet t (set_led x0 t)) as Hq by (by eapply quiet_ttl in Hs).
  unfold extend_contract_code_ttl_from_contract_id, retrieve_contract_instance in H.
  step H. step Hs0. apply get_with_host_ok in Hs1 as (-> & _).
  assert (x2 = x0) as -> by (repeat case_match; try discriminate; by injection Hs0).
  destruct x1 as [h|]; [|by step H].
  etrans; [exact Hq|]. change (set_led m' t) with (set_led m' (set_led x0 t)).
  by eapply (quiet_ttl (set_led x0 t)), H.
Qed.

Lemma require_auth_ok a (t t' : Tok) : address_require_auth a t = (Ok tt, t') → t' = t ∧ a ∈ auths t.
Proof.
  unfold address_require_auth, on_host, m_zoom, auths. case_decide; [|done].
  intros [= <-]. by destruct t.
Qed.

Lemma read_name_quiet (t t' : Tok) n : read_name t = (Ok n, t') → t' = t.
Proof.
  unfold read_name, read_metadata. intros H. step H. step Hs. apply instance_get_ok in Hs0 as [-> _].
  apply m_lift_ok in Hs as [_ ->]. by step H.
Qed.

Lemma sac_event_quiet topic l d (t t' : Tok) : Sac.sac_event topic l d t = (Ok tt, t') → quiet t t'.
Proof.
  unfold Sac.sac_event. intros H. step H. apply read_name_quiet in Hs as ->. injection H as <-. by split.
Qed.

Lemma check_nonnegative_ok n (t t' : Tok) : Sac.check_nonnegative_amount n t = (Ok tt, t') → t' = t ∧ 0 <= n.
Proof. unfold Sac.check_nonnegative_amount. case_decide; [done|]. intros [= <-]. split; [done|lia]. Qed.

Lemma check_non_native_ok (t t' : Tok) :
  Sac.check_non_native t = (Ok tt, t') → t' = t.
Proof.
  unfold Sac.check_non_native. intros H. step H. apply read_asset_info_ok in Hs as [-> _].
  by destruct x; step H.
Qed.

Lemma check_not_issuer_ok a asset (t t' : Tok) :
  Sac.check_not_issuer a t = (Ok tt, t') → token_asset t = Some asset →
  t' = t ∧ Account <$> issuer_of asset ≠ Some a.
Proof.
  unfold Sac.check_not_issuer. intros H Ha. step H. apply read_asset_info_ok in Hs as [-> Hi].
  rewrite (info_issuer_asset _ _ _ Hi Ha).
  destruct x as [|i|i]; simpl; [by step H|case_decide; [done|]; step H; split; congruence..].
Qed.

Lemma check_clawbackable_ok a (t t' : Tok) : check_clawbackable a t = (Ok tt, t') → t' = t.
Proof.
  unfold check_clawbackable. intros H. destruct a as [k|c].
  - step H. apply read_asset_ok in Hs as [-> _].
    assert (∀ issuer, (if decide (issuer = k) then m_fail OperationNotSupportedError else
      let* tl_flags := with_mut_storage (λ li, get_trustline_flags li k x) in
      if decide (Z.land tl_flags TrustlineClawbackEnabledFlag = 0) then m_fail BalanceError
      else m_ret tt) t = (Ok tt, t') → t' = t) as Hv.
    { intros issuer Hv. step Hv. step Hv. apply with_mut_storage_inv in Hs as (m' & Hs & ->).
      apply get_flags_ok in Hs as (-> & _). rewrite set_led_same in Hv. by steps Hv. }
    destruct x; [done|by eapply Hv..].
  - step H. apply read_contract_balance_ok in Hs as (-> & _). destruct x as [b|]; [|done]. by steps H.
Qed.

(** * Allowances *)

(** The entry of a temporary key as long as it lives. *)
Definition live_entry (t : Tok) (key : LedgerKey) : option LedgerEntry :=
  match led t !! key with
  | Some (en, Some lu) => if decide (sequence_number (info t) <= lu) then Some en else None
  | Some (en, None) => Some en
  | None => None
  end.
Definition stored_allowance (t : Tok) (from spender : ScAddress) : option AllowanceValue :=
  match live_entry t (allowance_key (contract t) from spender) with
  | Some (EContractData d) => dec allowanceC (cde_val d)
  | _ => None
  end.
(** What [spender] may still spend. *)
Definition usable (t : Tok) (from spender : ScAddress) : Z :=
  match stored_allowance t from spender with
  | Some v => if decide (live_until_ledger v < sequence_number (info t)) then 0 else allowance_amount v
  | None => 0
  end.

Lemma try_full_temp (t : Tok) c k o m' :
  try_get_full_with_host (info t) (KContractData c k Temporary) (led t) = (Ok o, m') →
  m' = led t ∧ fst <$> o = live_entry t (KContractData c k Temporary) ∧
  ∀ v, o = Some v → led t !! KContractData c k Temporary = Some v.
Proof.
  unfold try_get_full_with_host, live_entry; simpl. unfold m_bind, m_lift, m_get, m_ret.
  unfold check_if_entry_is_live.
  destruct (led t !! _) as [[en [lu|]]|]; simpl; try (by intros [= <- <-]).
  case_decide; by intros [= <- <-].
Qed.

Lemma read_temporary_ok k (t t' : Tok) o :
  try_get_contract_data k StTemporary t = (Ok o, t') → t' = t ∧
  match o with
  | Some v => ∃ d, live_entry t (storage_key (contract t) k Temporary) = Some (EContractData d) ∧ cde_val d = v
  | None => live_entry t (storage_key (contract t) k Temporary) = None
  end.
Proof.
  unfold try_get_contract_data, sac_has_contract_data, sac_get_contract_data. intros H. step H.
  apply on_ledger_inv in Hs as (m' & Hs & ->).
  unfold has_contract_data, has_with_host in Hs. step Hs. apply try_full_temp in Hs0 as (-> & Hx & _).
  step Hs. rewrite set_led_same in H. step H.
  - step H. step H. apply on_ledger_inv in Hs as (m' & Hs & ->). unfold get_contract_data, get_with_host in Hs.
    step Hs. step Hs0. apply try_full_temp in Hs1 as (-> & Hx1 & _).
    apply m_lift_ok in Hs0 as [Hs0 ->]. destruct x3 as [[en lu]|]; [|done]. injection Hs0 as <-.
    destruct en as [| |d| |]; try discriminate Hs. step Hs. rewrite set_led_same. split; [done|].
    exists d. done.
  - step H. split; [done|]. apply bool_decide_eq_false in Heqb.
    destruct x0; [destruct Heqb; by eexists|]. done.
Qed.

Lemma try_get_allowance_ok f s (t t' : Tok) o :
  Sac.try_get_allowance f s t = (Ok o, t') → t' = t ∧ o = stored_allowance t f s ∧
    (o = None → live_entry t (allowance_key (contract t) f s) = None).
Proof.
  unfold Sac.try_get_allowance. intros H. step H. apply read_temporary_ok in Hs as [-> Hs].
  unfold stored_allowance, allowance_key. destruct x as [v|].
  - destruct Hs as (d & Hd & Hv). step H. apply m_lift_ok in Hs as [Hs%from_val_ok ->]. step H.
    by rewrite Hd, Hs.
  - step H. by rewrite Hs.
Qed.

Lemma read_allowance_ok f s (t t' : Tok) n :
  Sac.read_allowance f s t = (Ok n, t') → t' = t ∧ n = usable t f s.
Proof.
  unfold Sac.read_allowance, usable. intros H. step H. apply try_get_allowance_ok in Hs as (-> & -> & _).
  destruct (stored_allowance t f s) as [v|]; [|by step H].
  unfold ledger_info in H. step H. step Hs. step Hs0. step Hs. unfold info.
  case_decide; by steps H.
Qed.

(** From [t] to [t'] only the entry of [key] changes, and events. *)
Record pokes (t : Tok) (key : LedgerKey) (t' : Tok) : Prop := {
  pk_info : info t' = info t;
  pk_contract : contract t' = contract t;
  pk_auths : auths t' = auths t;
  pk_instance : instance_storage t' = instance_storage t;
  pk_led : ∀ key', key' ≠ key → led t' !! key' = led t !! key'
}.

Lemma pokes_refl t key : pokes t key t.
Proof. by split. Qed.
Lemma pokes_trans t key t1 t2 : pokes t key t1 → pokes t1 key t2 → pokes t key t2.
Proof. intros [???? H1] [???? H2]. split; try congruence. intros k Hk. by rewrite H2, H1. Qed.

Lemma pokes_entries t key t' : pokes t key t' → get_key_durability key = Some Temporary →
  ∀ key', get_key_durability key' ≠ Some Temporary → entries t' !! key' = entries t !! key'.
Proof. intros [_ _ _ _ Hl] Hk key' Hk'. unfold entries. rewrite !lookup_fmap, Hl; [done|]. by intros ->. Qed.

(** Raising the lifetime of a live temporary entry to [n] ledgers from now. *)
Lemma extend_temporary_ok li c k n (m m' : LedgerMap) :
  0 <= n →
  extend_ttl li (KContractData c k Temporary) n n m = (Ok tt, m') →
  ∃ en lu, m !! KContractData c k Temporary = Some (en, Some lu) ∧
    m' = <[KContractData c k Temporary := (en, Some (Z.max lu (sequence_number li + n)))]> m ∧
    sequence_number li <= lu.
Proof.
  unfold extend_ttl. intros Hn H. step H. apply m_lift_ok in Hs as [_ ->]. step H. step Hs. step Hs.
  step H. apply get_live_ok in Hs as [-> Hm]. step H. apply m_lift_ok in Hs as [Hlu%ok_or_ok ->].
  step H. step Hs. step Hs. step H. apply m_lift_ok in Hs as [Hnew ->].
  destruct x0 as [en olu]. simpl in *. subst olu.
  assert (x1 = sequence_number li + n) as ->.
  { revert Hnew. clear. unfold target_live_until, u32_checked_add.
    destruct (decide (sequence_number li + n <= u32_max)); [|done].
    destruct (max_live_until_ledger li); [|done]. case_decide; [done|]. by intros [= <-]. }
  exists en, x2. split; [done|]. split; [|lia].
  unfold u32_saturating_sub, clamp, u32_max in H. case_decide as Hc.
  - injection H as <-. by rewrite Z.max_r by lia.
  - injection H as <-. rewrite Z.max_l by lia. by rewrite insert_id.
Qed.

Lemma live_entry_insert t key en lu :
  live_entry (set_led (<[key := (en, lu)]> (led t)) t) key =
  match lu with
  | Some lu => if decide (sequence_number (info t) <= lu) then Some en else None
  | None => Some en
  end.
Proof. unfold live_entry. rewrite led_set_led, lookup_insert_eq. by destruct lu. Qed.

Lemma set_led_pokes t key v : pokes t key (set_led (<[key := v]> (led t)) t).
Proof. split; try done. intros key' Hne. by rewrite led_set_led, lookup_insert_ne. Qed.

Lemma live_entry_led t key en :
  live_entry t key = Some en ↔ ∃ lu, led t !! key = Some (en, lu) ∧
    match lu with Some lu => sequence_number (info t) <= lu | None => True end.
Proof.
  unfold live_entry. split.
  - destruct (led t !! key) as [[en' [lu|]]|]; [case_decide; [|done]| |done]; intros [= ->]; by eexists.
  - intros (lu & -> & Hlu). destruct lu; [by rewrite decide_True|done].
Qed.

(** The entry just written is alive. *)
Lemma put_temporary_ok k v (t t' : Tok) key :
  key = storage_key (contract t) k Temporary →
  (∀ n, get_min_live_until_ledger (info t) Temporary = Ok n → sequence_number (info t) <= n) →
  sac_put_contract_data k v StTemporary t = (Ok tt, t') →
  pokes t key t' ∧ ∃ d lu, led t' !! key = Some (EContractData d, lu) ∧ cde_val d = v ∧
    live_entry t' key = Some (EContractData d) ∧
    (is_Some (live_entry t key) → ∃ en, led t !! key = Some (en, lu)).
Proof.
  unfold sac_put_contract_data. intros Hkey Hmin H. apply on_ledger_inv in H as (m' & H & ->).
  unfold put_contract_data in H. rewrite <-Hkey in H.
  step H. unfold has_with_host in Hs. step Hs. apply try_full_temp in Hs0 as (-> & Hx & _). step Hs.
  step H.
  - apply bool_decide_eq_true in Heqb. step H. unfold get_with_live_until_ledger in Hs. step Hs.
    apply try_full_temp in Hs0 as (-> & Hx0 & Hv). apply m_lift_ok in Hs as [Hs%ok_or_ok ->]. subst.
    specialize (Hv _ eq_refl).
    destruct x as [en lu]. simpl in H. destruct en as [| |d| |]; try discriminate H.
    apply put_with_host_ok in H as ->. split; [apply set_led_pokes|].
    eexists _, lu. rewrite led_set_led, lookup_insert_eq. split; [done|]. split; [done|]. split; [|eauto].
    apply live_entry_led. exists lu. rewrite led_set_led, lookup_insert_eq. split; [done|].
    symmetry in Hx0. apply live_entry_led in Hx0 as (lu' & Hl & Hlive).
    replace lu with lu' by congruence. exact Hlive.
  - step H. apply m_lift_ok in Hs as [Hs ->]. apply put_with_host_ok in H as ->.
    split; [apply set_led_pokes|]. eexists _, _. rewrite led_set_led, lookup_insert_eq.
    split; [done|]. split; [done|]. split.
    + apply live_entry_led. eexists. rewrite led_set_led, lookup_insert_eq. split; [done|]. by apply Hmin.
    + intros [en Hen]. exfalso. unfold storage_key in Hen. rewrite <-Hx in Hen.
      apply bool_decide_eq_false in Heqb. apply Heqb. by eapply fmap_is_Some; rewrite Hen.
Qed.

Lemma min_live_until_ok li d n : get_min_live_until_ledger li d = Ok n → sequence_number li <= n.
Proof.
  unfold get_min_live_until_ledger, min_live_until_ledger_checked, u32_checked_add, u32_saturating_sub, clamp.
  destruct (decide _); [|done]. intros [= <-]. lia.
Qed.

Lemma max_live_until_ok li n : max_live_until_ledger li = Ok n → n <= u32_max.
Proof.
  unfold max_live_until_ledger, max_live_until_ledger_checked, u32_checked_add.
  destruct (decide _); [|done]. by intros [= <-].
Qed.

Lemma live_entry_pokes t key t' key' : pokes t key t' → key' ≠ key → live_entry t' key' = live_entry t key'.
Proof. intros [Hi _ _ _ Hl] Hne. unfold live_entry. by rewrite Hi, Hl. Qed.

Lemma allowance_key_inj c f s f' s' : allowance_key c f s = allowance_key c f' s' → f = f' ∧ s = s'.
Proof. unfold allowance_key, storage_key. by intros [= -> ->]. Qed.

Lemma usable_pokes t f s t' f' s' :
  pokes t (allowance_key (contract t) f s) t' → (f', s') ≠ (f, s) → usable t' f' s' = usable t f' s'.
Proof.
  intros Hp Hne. unfold usable, stored_allowance. rewrite (pk_contract _ _ _ Hp), (pk_info _ _ _ Hp).
  rewrite (live_entry_pokes _ _ _ _ Hp); [done|]. intros [-> ->]%allowance_key_inj. done.
Qed.

Lemma usable_same t t' f s :
  info t' = info t → contract t' = contract t →
  (∀ c k, led t' !! KContractData c k Temporary = led t !! KContractData c k Temporary) →
  usable t' f s = usable t f s.
Proof.
  intros Hi Hc Ht. unfold usable, stored_allowance, live_entry. rewrite Hi, Hc.
  unfold allowance_key, storage_key. by rewrite Ht.
Qed.

Lemma ledger_info_ok (t t' : Tok) li : ledger_info t = (Ok li, t') → t' = t ∧ li = info t.
Proof. by intros [= <- <-]. Qed.

Lemma stored_allowance_entry t f s d :
  live_entry t (allowance_key (contract t) f s) = Some (EContractData d) →
  stored_allowance t f s = dec allowanceC (cde_val d).
Proof. unfold stored_allowance. by intros ->. Qed.

Lemma usable_stored t f s n live :
  stored_allowance t f s = Some (mkAllowanceValue n live) → sequence_number (info t) <= live ∨ n = 0 →
  usable t f s = n.
Proof. unfold usable. intros -> Hs. simpl. case_decide; lia. Qed.

(** Writing an entry for an allowance, with its lifetime if it needs one. *)
Lemma put_allowance_ok f s n live old (t t' : Tok) :
  (sac_put_contract_data (data_key (Allowance (mkAllowanceDataKey f s)))
     (enc allowanceC (mkAllowanceValue n live)) StTemporary ;;;
   if decide (0 < n ∧ old < live) then
     sac_extend_contract_data_ttl (data_key (Allowance (mkAllowanceDataKey f s))) StTemporary
       (u32_saturating_add (u32_saturating_sub live (sequence_number (info t))) 1)
       (u32_saturating_add (u32_saturating_sub live (sequence_number (info t))) 1)
   else m_ret tt) t = (Ok tt, t') →
  in_u32 (sequence_number (info t)) → (0 < n → sequence_number (info t) <= live <= u32_max) →
  pokes t (allowance_key (contract t) f s) t' ∧
  stored_allowance t' f s = Some (mkAllowanceValue n live) ∧
  (0 < n → old < live → ∃ en lu, led t' !! allowance_key (contract t) f s = Some (en, Some lu) ∧ live <= lu).
Proof.
  intros H Hseq Hle. apply m_bind_ok in H as ([] & t1 & Hs & H).
  apply (put_temporary_ok _ _ _ _ (allowance_key (contract t) f s) eq_refl (min_live_until_ok _ _)) in Hs
    as (Hp & d & lu & Hl & Hd & Hlive1 & _).
  assert (stored_allowance t1 f s = Some (mkAllowanceValue n live)) as Hst.
  { rewrite (stored_allowance_entry t1 f s d), Hd; [apply dec_enc|]. by rewrite (pk_contract _ _ _ Hp). }
  destruct (decide (0 < n ∧ old < live)) as [Ho|Ho]; [|step H; split_and!; [done..|lia]].
  unfold sac_extend_contract_data_ttl in H. apply on_ledger_inv in H as (m' & H & ->).
  rewrite (pk_info _ _ _ Hp), (pk_contract _ _ _ Hp) in H. unfold in_u32 in *.
  unfold u32_saturating_add, u32_saturating_sub, clamp, extend_contract_data_ttl in H.
  apply extend_temporary_ok in H as (en & lu' & Hl' & -> & Hlu'); [|unfold u32_max in *; lia].
  change (KContractData _ _ _) with (allowance_key (contract t) f s) in Hl' |- *.
  split; [by eapply pokes_trans, set_led_pokes|]. split.
  - rewrite (stored_allowance_entry _ f s d), Hd; [apply dec_enc|].
    change (contract (set_led _ t1)) with (contract t1). rewrite (pk_contract _ _ _ Hp).
    rewrite live_entry_insert, (pk_info _ _ _ Hp), decide_True by lia. congruence.
  - intros _ _. eexists _, _. rewrite led_set_led, lookup_insert_eq. split; [done|]. unfold u32_max in *. lia.
Qed.

(** Writing an allowance: the spender may use exactly the new amount; its entry outlives
    the given ledger unless the old one claimed a later date. *)
Lemma write_allowance_ok f s n live (t t' : Tok) :
  Sac.write_allowance f s n live t = (Ok tt, t') → 0 <= n → in_u32 (sequence_number (info t)) →
  pokes t (allowance_key (contract t) f s) t' ∧ usable t' f s = n ∧
  (0 < n → sequence_number (info t) <= live ∧ stored_allowance t' f s = Some (mkAllowanceValue n live) ∧
     ((∀ a, stored_allowance t f s = Some a → live_until_ledger a < live) → 0 < live →
      ∃ en lu, led t' !! allowance_key (contract t) f s = Some (en, Some lu) ∧ live <= lu)).
Proof.
  intros H Hn Hseq. unfold Sac.write_allowance in H.
  apply m_bind_ok in H as (li & t1 & [-> ->]%ledger_info_ok & H).
  apply m_bind_ok in H as (seq & t1 & [Hs ->]%m_lift_ok & H). unfold Sac.check_live_until in Hs.
  destruct (max_live_until_ledger (info t)) as [mx|] eqn:Hmx; [|done].
  apply max_live_until_ok in Hmx. destruct (decide (mx < live)); [done|].
  destruct (decide (0 < n ∧ live < sequence_number (info t))) as [|Hc]; [done|]. injection Hs as <-.
  apply m_bind_ok in H as (o & t1 & (-> & -> & Hnone)%try_get_allowance_ok & H).
  destruct (stored_allowance t f s) as [a|] eqn:Ha.
  - apply (put_allowance_ok f s n live (live_until_ledger a)) in H as (Hp & Hst & Hl); [|done|lia].
    split; [done|]. split.
    + eapply usable_stored; [exact Hst|]. rewrite (pk_info _ _ _ Hp). lia.
    + intros Hpos. split; [lia|]. split; [done|]. intros Hold _. apply Hl; [done|]. by apply Hold.
  - destruct (decide (0 < n)) as [Hpos|Hpos].
    + apply (put_allowance_ok f s n live 0) in H as (Hp & Hst & Hl); [|done|lia]. split; [done|]. split.
      * eapply usable_stored; [exact Hst|]. rewrite (pk_info _ _ _ Hp). lia.
      * intros _. split; [lia|]. split; [done|]. intros _. by apply Hl.
    + step H. split; [apply pokes_refl|]. split; [|lia]. unfold usable. rewrite Ha. lia.
Qed.

Lemma spend_allowance_ok f s n (t t' : Tok) :
  Sac.spend_allowance f s n t = (Ok tt, t') → 0 <= n → in_u32 (sequence_number (info t)) →
  n <= usable t f s ∧ pokes t (allowance_key (contract t) f s) t' ∧ usable t' f s = usable t f s - n.
Proof.
  unfold Sac.spend_allowance. intros H Hn Hseq. step H.
  apply read_allowance_ok in Hs as [-> ->].
  destruct (decide (usable t f s < n)); [done|]. split; [lia|].
  destruct (decide (0 < n)) as [Hpos|]; [|step H; split; [apply pokes_refl|lia]].
  step H. apply m_lift_ok in Hs as [Hs%ok_or_ok ->]. unfold i128_checked_sub in Hs.
  destruct (decide _); [|done]. injection Hs as <-.
  unfold Sac.write_allowance_amount in H. step H. unfold sac_get_contract_data in Hs.
  apply on_ledger_inv in Hs as (m' & Hs & ->). unfold get_contract_data, get_with_host in Hs.
  step Hs. step Hs0. apply try_full_temp in Hs1 as (-> & Hx & _). apply m_lift_ok in Hs0 as [Hs0 ->].
  destruct x2 as [[en lu]|]; [|done]. injection Hs0 as <-. destruct en as [| |d| |]; try discriminate Hs.
  step Hs. rewrite set_led_same in H. step H. apply m_lift_ok in Hs as [Hs%from_val_ok ->].
  symmetry in Hx. apply stored_allowance_entry in Hx. rewrite Hs in Hx.
  eapply write_allowance_ok in H as (Hp & Hu & _); [|lia|done]. done.
Qed.

(** * The calls *)

Definition nontemp_same (E E' : Entries) : Prop :=
  ∀ key, get_key_durability key ≠ Some Temporary → E' !! key = E !! key.

Lemma stored_balance_ext cid E E' a : nontemp_same E E' → stored_balance cid E' a = stored_balance cid E a.
Proof. intros He. unfold stored_balance. by rewrite He. Qed.
Lemma holding_ext asset cid E E' a : nontemp_same E E' → holding asset cid E' a = holding asset cid E a.
Proof.
  intros He. unfold holding. rewrite (stored_balance_ext cid _ _ _ He). destruct a as [k|]; [|done].
  destruct (issuer_of asset); [case_decide; [done|]|]; by rewrite He.
Qed.
Lemma may_move_ext asset cid E E' a : nontemp_same E E' → may_move asset cid E' a = may_move asset cid E a.
Proof.
  intros He. unfold may_move. rewrite (stored_balance_ext cid _ _ _ He). destruct a as [k|].
  - destruct (issuer_of asset); [|done]. case_decide; [done|]. by rewrite He.
  - destruct (stored_balance _ _ _); [done|]. destruct (issuer_of asset); [|done]. by rewrite He.
Qed.

Lemma token_asset_instance t t' : instance_storage t' = instance_storage t → token_asset t' = token_asset t.
Proof. unfold token_asset, token_info. by intros ->. Qed.
Lemma token_admin_instance t t' : instance_storage t' = instance_storage t → token_admin t' = token_admin t.
Proof. unfold token_admin. by intros ->. Qed.

(** [a] sends [n], then [b] receives it. *)
Definition sent asset (t : Tok) (a b : ScAddress) (n : Z) (t' : Tok) : Prop :=
  may_move asset (contract t) (entries t) a = true ∧
  ∃ E1 E2, moved asset (info t) (contract t) (- n) (entries t) a E1 ∧
    may_move asset (contract t) E1 b = true ∧ moved asset (info t) (contract t) n E1 b E2 ∧ acts t E2 t'.

Lemma spend_receive_ok asset a b n (t t' : Tok) :
  (spend_balance a n ;;; receive_balance b n) t = (Ok tt, t') → token_asset t = Some asset → 0 <= n →
  sent asset t a b n t'.
Proof.
  intros H Ha Hn. apply m_bind_ok in H as ([] & t1 & Hs & H).
  apply (spend_ok _ _ _ _ asset) in Hs as (Hmay & E1 & HE1 & Hacts); [|done..]. split; [done|].
  destruct Hacts as [Hi Hc Hau Hin He Ht].
  apply (receive_ok _ _ _ _ asset) in H as (Hmay2 & E2 & HE2 & Hacts2);
    [|by rewrite (token_asset_instance t)|done].
  rewrite Hi, Hc, He in *. exists E1, E2. split_and!; [done..|]. eapply acts_trans; [|exact Hacts2]. by split.
Qed.

Lemma acts_quiet t E t1 t' : acts t E t1 → quiet t1 t' → acts t E t'.
Proof. apply acts_quiet_r. Qed.

Lemma sent_quiet_l asset t t1 a b n t' : quiet t t1 → sent asset t1 a b n t' → sent asset t a b n t'.
Proof.
  intros Hq (Hm & E1 & E2 & H1 & H2 & H3 & H4). destruct Hq as [Hi Hc Hau Hin He Ht].
  rewrite Hi, Hc, He in *. split; [done|]. exists E1, E2. split_and!; [done..|].
  eapply acts_trans; [|exact H4]. by split.
Qed.
Lemma sent_quiet_r asset t a b n t1 t' : sent asset t a b n t1 → quiet t1 t' → sent asset t a b n t'.
Proof.
  intros (Hm & E1 & E2 & H1 & H2 & H3 & H4) Hq. split; [done|]. exists E1, E2. split_and!; [done..|].
  by eapply acts_quiet.
Qed.

Section calls.
Context (strkey : N → string).

Lemma transfer_ok asset a b n (t t' : Tok) :
  Sac.transfer a b n t = (Ok tt, t') → token_asset t = Some asset →
  0 <= n ∧ a ∈ auths t ∧ sent asset t a b n t'.
Proof.
  unfold Sac.transfer. intros H Ha.
  apply m_bind_ok in H as ([] & t1 & [-> Hn]%check_nonnegative_ok & H).
  apply m_bind_ok in H as ([] & t1 & [-> Hau]%require_auth_ok & H).
  apply m_bind_ok in H as ([] & t1 & Hq%extend_instance_quiet & H).
  rewrite <-m_bind_assoc in H. apply m_bind_ok in H as ([] & t2 & Hs & Hev%sac_event_quiet).
  split; [done|]. split; [done|]. eapply sent_quiet_l; [exact Hq|]. eapply sent_quiet_r; [|exact Hev].
  apply spend_receive_ok; [done| |done].
  by rewrite (token_asset_instance t) by apply Hq.
Qed.

(** An allowance is used up by [n], from [t] to [t']. *)
Definition allowance_spent (t : Tok) (f s : ScAddress) (n : Z) (t' : Tok) : Prop :=
  n <= usable t f s ∧ pokes t (allowance_key (contract t) f s) t' ∧ usable t' f s = usable t f s - n.

Lemma usable_quiet t t' f s : quiet t t' → usable t' f s = usable t f s.
Proof. intros []. by apply usable_same. Qed.

Lemma transfer_from_ok asset s a b n (t t' : Tok) :
  Sac.transfer_from s a b n t = (Ok tt, t') → token_asset t = Some asset → in_u32 (sequence_number (info t)) →
  0 <= n ∧ s ∈ auths t ∧ ∃ t1 t2, quiet t t1 ∧ allowance_spent t1 a s n t2 ∧ sent asset t2 a b n t'.
Proof.
  unfold Sac.transfer_from. intros H Ha Hseq.
  apply m_bind_ok in H as ([] & t1 & [-> Hn]%check_nonnegative_ok & H).
  apply m_bind_ok in H as ([] & t1 & [-> Hau]%require_auth_ok & H).
  apply m_bind_ok in H as ([] & t1 & Hq%extend_instance_quiet & H).
  apply m_bind_ok in H as ([] & t2 & Hal & H).
  rewrite <-m_bind_assoc in H. apply m_bind_ok in H as ([] & t3 & Hs & Hev%sac_event_quiet).
  apply spend_allowance_ok in Hal; [|done|by rewrite (ac_info _ _ _ Hq)].
  split; [done|]. split; [done|]. exists t1, t2. split; [done|]. split; [done|].
  destruct Hal as (_ & Hp & _). eapply sent_quiet_r; [|exact Hev].
  apply spend_receive_ok; [done| |done].
  rewrite (token_asset_instance t1) by apply Hp. by rewrite (token_asset_instance t) by apply Hq.
Qed.

(** [a] loses [n] for good, or gains it out of nothing. *)
Definition burnt asset (t : Tok) (a : ScAddress) (n : Z) (t' : Tok) : Prop :=
  ∃ E, moved asset (info t) (contract t) n (entries t) a E ∧ acts t E t'.

Lemma burnt_quiet_l asset t t1 a n t' : quiet t t1 → burnt asset t1 a n t' → burnt asset t a n t'.
Proof.
  intros Hq (E & HE & Hacts). destruct Hq as [Hi Hc Hau Hin He Ht]. rewrite Hi, Hc, He in *.
  exists E. split; [done|]. eapply acts_trans; [|exact Hacts]. by split.
Qed.
Lemma burnt_quiet_r asset t a n t1 t' : burnt asset t a n t1 → quiet t1 t' → burnt asset t a n t'.
Proof. intros (E & HE & Hacts) Hq. exists E. split; [done|]. by eapply acts_quiet. Qed.

Lemma burn_ok asset a n (t t' : Tok) :
  Sac.burn a n t = (Ok tt, t') → token_asset t = Some asset →
  0 <= n ∧ a ∈ auths t ∧ Account <$> issuer_of asset ≠ Some a ∧
  may_move asset (contract t) (entries t) a = true ∧ burnt asset t a (- n) t'.
Proof.
  unfold Sac.burn. intros H Ha.
  apply m_bind_ok in H as ([] & t1 & [-> Hn]%check_nonnegative_ok & H).
  apply m_bind_ok in H as ([] & t1 & ->%check_non_native_ok & H).
  apply m_bind_ok in H as ([] & t1 & Hni & H). apply (check_not_issuer_ok _ asset) in Hni as [-> Hni]; [|done].
  apply m_bind_ok in H as ([] & t1 & [-> Hau]%require_auth_ok & H).
  apply m_bind_ok in H as ([] & t1 & Hq%extend_instance_quiet & H).
  apply m_bind_ok in H as ([] & t2 & Hs & Hev%sac_event_quiet).
  apply (spend_ok _ _ _ _ asset) in Hs as (Hm & Hb); [|by rewrite (token_asset_instance t) by apply Hq|done].
  do 3 (split; [done|]). split; [by rewrite (ac_contract _ _ _ Hq), (ac_entries _ _ _ Hq) in Hm|].
  eapply burnt_quiet_l; [exact Hq|]. eapply burnt_quiet_r; [|exact Hev]. done.
Qed.

Lemma burn_from_ok asset s a n (t t' : Tok) :
  Sac.burn_from s a n t = (Ok tt, t') → token_asset t = Some asset → in_u32 (sequence_number (info t)) →
  0 <= n ∧ s ∈ auths t ∧ Account <$> issuer_of asset ≠ Some a ∧
  ∃ t1 t2, quiet t t1 ∧ allowance_spent t1 a s n t2 ∧
    may_move asset (contract t2) (entries t2) a = true ∧ burnt asset t2 a (- n) t'.
Proof.
  unfold Sac.burn_from. intros H Ha Hseq.
  apply m_bind_ok in H as ([] & t1 & [-> Hn]%check_nonnegative_ok & H).
  apply m_bind_ok in H as ([] & t1 & ->%check_non_native_ok & H).
  apply m_bind_ok in H as ([] & t1 & Hni & H). apply (check_not_issuer_ok _ asset) in Hni as [-> Hni]; [|done].
  apply m_bind_ok in H as ([] & t1 & [-> Hau]%require_auth_ok & H).
  apply m_bind_ok in H as ([] & t1 & Hq%extend_instance_quiet & H).
  apply m_bind_ok in H as ([] & t2 & Hal & H).
  apply m_bind_ok in H as ([] & t3 & Hs & Hev%sac_event_quiet).
  apply spend_allowance_ok in Hal; [|done|by rewrite (ac_info _ _ _ Hq)].
  do 3 (split; [done|]). exists t1, t2. split; [done|]. split; [done|]. destruct Hal as (_ & Hp & _).
  apply (spend_ok _ _ _ _ asset) in Hs as (Hm & Hb);
    [|rewrite (token_asset_instance t1) by apply Hp; by rewrite (token_asset_instance t) by apply Hq|done].
  split; [done|]. by eapply burnt_quiet_r.
Qed.

(** Whether the administrator may take a balance back. *)
Definition clawbackable asset cid (E : Entries) (a : ScAddress) : bool :=
  match a with
  | Contract _ => match stored_balance cid E a with Some b => clawback b | None => false end
  | Account k =>
      match E !! KTrustline k asset with
      | Some (ETrustline tl) => bool_decide (Z.land (tl_flags tl) TrustlineClawbackEnabledFlag ≠ 0)
      | _ => false
      end
  end.

Lemma check_clawbackable_flag asset a (t t' : Tok) :
  check_clawbackable a t = (Ok tt, t') → token_asset t = Some asset →
  clawbackable asset (contract t) (entries t) a = true.
Proof.
  unfold check_clawbackable. intros H Ha. destruct a as [k|c].
  - apply m_bind_ok in H as (x & t1 & [-> Hx]%read_asset_ok & H). assert (x = asset) as -> by congruence.
    assert (∀ issuer, (if decide (issuer = k) then m_fail OperationNotSupportedError else
      let* tl_flags := with_mut_storage (λ li, get_trustline_flags li k asset) in
      if decide (Z.land tl_flags TrustlineClawbackEnabledFlag = 0) then m_fail BalanceError
      else m_ret tt) t = (Ok tt, t') → clawbackable asset (contract t) (entries t) (Account k) = true) as Hv.
    { intros issuer Hv. destruct (decide (issuer = k)); [done|].
      apply m_bind_ok in Hv as (f & t1 & (m' & Hf & ->)%with_mut_storage_inv & Hv).
      apply get_flags_ok in Hf as (_ & tl & lu & Hm & ->). simpl. rewrite (entries_lookup _ _ _ _ Hm).
      apply bool_decide_eq_true. by destruct (decide (Z.land (tl_flags tl) TrustlineClawbackEnabledFlag = 0)). }
    destruct asset; [done|by eapply Hv..].
  - apply m_bind_ok in H as (x & t1 & (-> & -> & _)%read_contract_balance_ok & H). simpl.
    destruct (stored_balance _ _ _) as [b|]; [|done]. by destruct (clawback b).
Qed.

Lemma clawback_ok asset a n (t t' : Tok) :
  Sac.clawback a n t = (Ok tt, t') → token_asset t = Some asset →
  0 <= n ∧ Account <$> issuer_of asset ≠ Some a ∧ clawbackable asset (contract t) (entries t) a = true ∧
  (∃ admin, token_admin t = Some admin ∧ admin ∈ auths t) ∧ burnt asset t a (- n) t'.
Proof.
  unfold Sac.clawback. intros H Ha.
  apply m_bind_ok in H as ([] & t1 & [-> Hn]%check_nonnegative_ok & H).
  apply m_bind_ok in H as ([] & t1 & Hcl & H).
  pose proof (check_clawbackable_ok _ _ _ Hcl) as ->. apply (check_clawbackable_flag asset) in Hcl; [|done].
  apply m_bind_ok in H as ([] & t1 & Hni & H). apply (check_not_issuer_ok _ asset) in Hni as [-> Hni]; [|done].
  apply m_bind_ok in H as (admin & t1 & [-> Had]%read_administrator_ok & H).
  apply m_bind_ok in H as ([] & t1 & [-> Hau]%require_auth_ok & H).
  apply m_bind_ok in H as ([] & t1 & Hq%extend_instance_quiet & H).
  apply m_bind_ok in H as ([] & t2 & Hs & Hev%sac_event_quiet).
  apply (spend_unchecked_ok _ _ _ _ asset) in Hs; [|by rewrite (token_asset_instance t) by apply Hq|done].
  split_and!; [done|done|done|by eexists|].
  eapply burnt_quiet_l; [exact Hq|]. by eapply burnt_quiet_r.
Qed.

Lemma mint_ok asset a n (t t' : Tok) :
  Sac.mint a n t = (Ok tt, t') → token_asset t = Some asset →
  0 <= n ∧ Account <$> issuer_of asset ≠ Some a ∧
  (∃ admin, token_admin t = Some admin ∧ admin ∈ auths t) ∧
  may_move asset (contract t) (entries t) a = true ∧ burnt asset t a n t'.
Proof.
  unfold Sac.mint. intros H Ha.
  apply m_bind_ok in H as ([] & t1 & [-> Hn]%check_nonnegative_ok & H).
  apply m_bind_ok in H as ([] & t1 & Hni & H). apply (check_not_issuer_ok _ asset) in Hni as [-> Hni]; [|done].
  apply m_bind_ok in H as (admin & t1 & [-> Had]%read_administrator_ok & H).
  apply m_bind_ok in H as ([] & t1 & [-> Hau]%require_auth_ok & H).
  apply m_bind_ok in H as ([] & t1 & Hq%extend_instance_quiet & H).
  apply m_bind_ok in H as ([] & t2 & Hs & Hev%sac_event_quiet).
  apply (receive_ok _ _ _ _ asset) in Hs as (Hm & Hb); [|by rewrite (token_asset_instance t) by apply Hq|done].
  do 2 (split; [done|]). split; [by eexists|].
  split; [by rewrite (ac_contract _ _ _ Hq), (ac_entries _ _ _ Hq) in Hm|].
  eapply burnt_quiet_l; [exact Hq|]. by eapply burnt_quiet_r.
Qed.

(** ** Authorizing *)

Lemma authorized_bit x : bool_decide (Z.land x AuthorizedFlag ≠ 0) = Z.testbit x 0.
Proof.
  unfold AuthorizedFlag. change (Z.land x 1) with (Z.land x (Z.ones 1)).
  rewrite Z.land_ones by lia. change (2 ^ 1) with 2.
  rewrite Zmod_odd, Z.bit0_odd. by destruct (Z.odd x).
Qed.
Lemma authorized_flag_set x (b : bool) :
  bool_decide (Z.land (if b then Z.lor (Z.land x (u32_not AuthorizedToMaintainLiabilitiesFlag)) AuthorizedFlag
     else Z.lor (Z.land x (u32_not AuthorizedFlag)) AuthorizedToMaintainLiabilitiesFlag) AuthorizedFlag ≠ 0) = b.
Proof.
  rewrite authorized_bit. destruct b; rewrite Z.lor_spec, Z.land_spec.
  - apply orb_true_r.
  - change (Z.testbit (u32_not AuthorizedFlag) 0) with false. by rewrite andb_false_r.
Qed.

(** The entries after [a] was (de)authorized. *)
Inductive reflagged asset (cid : Hash) (E : Entries) (b : bool) : ScAddress → Entries → Prop :=
| reflagged_same a : reflagged asset cid E b a E
| reflagged_trustline k tl f :
    E !! KTrustline k asset = Some (ETrustline tl) →
    reflagged asset cid E b (Account k) (<[KTrustline k asset := ETrustline (set_tl_flags f tl)]> E)
| reflagged_contract c v e :
    stored_balance cid E (Contract c) = Some v ∨ E !! balance_key cid (Contract c) = None ∧ amount v = 0 →
    cde_val e = enc balanceC (set_authorized_flag b v) →
    reflagged asset cid E b (Contract c) (<[balance_key cid (Contract c) := EContractData e]> E).

(** Only whether [a] may move funds changes. *)
Definition flagged asset (t : Tok) (a : ScAddress) (b : bool) (E : Entries) : Prop :=
  (∀ x, holding asset (contract t) E x = holding asset (contract t) (entries t) x) ∧
  (∀ x, may_move asset (contract t) E x = if decide (x = a) then b else may_move asset (contract t) (entries t) x) ∧
  reflagged asset (contract t) (entries t) b a E.

Lemma flagged_trustline asset t k tl f (b : bool) :
  issuer_of asset ≠ None → issuer_of asset ≠ Some k → entries t !! KTrustline k asset = Some (ETrustline tl) →
  bool_decide (Z.land f AuthorizedFlag ≠ 0) = b →
  flagged asset t (Account k) b (<[KTrustline k asset := ETrustline (set_tl_flags f tl)]> (entries t)).
Proof.
  intros Hi Hk Htl Hf. destruct (issuer_of asset) as [issuer|] eqn:Hiss; [|done].
  split; [|split; [|by constructor]]; intros [k'|c].
  - unfold holding. rewrite Hiss. destruct (decide (issuer = k')); [done|]. destruct (decide (k' = k)) as [->|].
    + by rewrite lookup_insert_eq, Htl.
    + by rewrite lookup_insert_ne by congruence.
  - unfold holding. by rewrite stored_balance_other.
  - unfold may_move. rewrite Hiss. destruct (decide (k' = k)) as [->|].
    + rewrite lookup_insert_eq, (decide_False (P := issuer = k)), decide_True by congruence. done.
    + rewrite lookup_insert_ne, (decide_False (P := Account k' = Account k)) by congruence. done.
  - unfold may_move. rewrite stored_balance_other by done. rewrite decide_False by done.
    destruct (stored_balance _ _ _); [done|]. by rewrite Hiss, lookup_insert_ne.
Qed.

Lemma flagged_contract asset t c v e (b : bool) :
  (stored_balance (contract t) (entries t) (Contract c) = Some v ∨
   entries t !! balance_key (contract t) (Contract c) = None ∧ amount v = 0) →
  cde_val e = enc balanceC (set_authorized_flag b v) →
  flagged asset t (Contract c) b (<[balance_key (contract t) (Contract c) := EContractData e]> (entries t)).
Proof.
  intros Hv He. split; [|split; [|by econstructor]]; intros [k|c'].
  - unfold holding. by rewrite !lookup_insert_ne.
  - unfold holding. rewrite stored_balance_insert. case_decide as Hc; [|done]. rewrite <-Hc, He, dec_enc. simpl.
    destruct Hv as [->|[Hn ->]]; [done|]. unfold stored_balance. by rewrite Hn.
  - rewrite decide_False by done. unfold may_move. by rewrite !lookup_insert_ne.
  - unfold may_move. rewrite stored_balance_insert. case_decide as Hc.
    + rewrite <-Hc, decide_True, He, dec_enc by done. done.
    + clear Hv. rewrite (decide_False (P := Contract c' = Contract c)) by congruence. destruct (stored_balance _ _ _); [done|].
      destruct (issuer_of asset); [|done]. by rewrite lookup_insert_ne.
Qed.

Lemma flagged_same asset t a (b : bool) :
  may_move asset (contract t) (entries t) a = b → flagged asset t a b (entries t).
Proof. intros Hb. split; [done|]. split; [|constructor]. intros x. case_decide as Hx; [by rewrite Hx|done]. Qed.

Lemma write_authorization_ok asset a b (t t' : Tok) :
  write_authorization a b t = (Ok tt, t') → token_asset t = Some asset →
  (b = false → issuer_flag asset (entries t) RevocableFlag = true) ∧
  Account <$> issuer_of asset ≠ Some a ∧ ∃ E, flagged asset t a b E ∧ acts t E t'.
Proof.
  unfold write_authorization. intros H Ha. apply m_bind_ok in H as ([] & t1 & Hr & H).
  assert (t1 = t ∧ (b = false → issuer_flag asset (entries t) RevocableFlag = true)) as [-> Hrev].
  { destruct b; [by injection Hr as <-|]. apply m_bind_ok in Hr as (r & t2 & Hs & Hr).
    apply (issuer_flag_asset _ _ _ _ asset) in Hs as [-> ->]; [|done].
    destruct (issuer_flag _ _ _); [|done]. by injection Hr as <-. }
  split; [done|]. destruct a as [k|c].
  - unfold set_authorization in H. apply m_bind_ok in H as (x & t1 & [-> Hx]%read_asset_ok & H).
    assert (x = asset) as -> by congruence.
    apply classic_cases in H as [[_ H]|[[_ H]|(Hi & Hk & m' & H & ->)]]; [done..|].
    split; [destruct (issuer_of asset); simpl; congruence|].
    unfold set_trustline_authorization in H. apply m_bind_ok in H as (le & m1 & Hs & H).
    apply m_bind_ok in H as (tl & m2 & [Htl ->]%m_lift_ok & H).
    destruct (read_trustline_ok _ _ _ _ _ _ _ Hs Htl) as [-> [lu Hm]]. apply entries_lookup in Hm.
    destruct (decide (bool_decide (Z.land (tl_flags tl) AuthorizedFlag ≠ 0) = b)) as [Hb|Hb].
    + injection H as <-. rewrite set_led_same. eexists. split; [|apply acts_refl]. apply flagged_same.
      unfold may_move. destruct (issuer_of asset) as [issuer|]; [|done]. rewrite decide_False by congruence.
      by rewrite Hm.
    + apply put_with_host_ok in H. eexists. split; [|by eapply set_led_inj_acts; [|exact H]].
      apply flagged_trustline; [done..|]. apply authorized_flag_set.
  - split; [by destruct (issuer_of asset)|].
    apply m_bind_ok in H as (o & t1 & (-> & -> & Hnone)%read_contract_balance_ok & H).
    destruct (stored_balance _ _ _) as [v|] eqn:Hv.
    + apply write_contract_balance_ok in H as (e & He & Hacts). eexists. split; [|exact Hacts].
      apply (flagged_contract _ _ _ v); [by left|done].
    + apply m_bind_ok in H as (cl & t1 & (-> & _)%issuer_flag_ok & H).
      apply write_contract_balance_ok in H as (e & He & Hacts). eexists. split; [|exact Hacts].
      apply (flagged_contract _ _ _ (mkBalanceValue 0 b cl)); [right; auto|done].
Qed.

Lemma set_authorized_ok asset a b (t t' : Tok) :
  Sac.set_authorized a b t = (Ok tt, t') → token_asset t = Some asset →
  (∃ admin, token_admin t = Some admin ∧ admin ∈ auths t) ∧
  (b = false → issuer_flag asset (entries t) RevocableFlag = true) ∧
  Account <$> issuer_of asset ≠ Some a ∧ ∃ E, flagged asset t a b E ∧ acts t E t'.
Proof.
  unfold Sac.set_authorized. intros H Ha.
  apply m_bind_ok in H as (admin & t1 & [-> Had]%read_administrator_ok & H).
  apply m_bind_ok in H as ([] & t1 & [-> Hau]%require_auth_ok & H).
  apply m_bind_ok in H as ([] & t1 & Hq%extend_instance_quiet & H).
  apply m_bind_ok in H as ([] & t2 & Hs & Hev%sac_event_quiet). split; [by eexists|].
  apply (write_authorization_ok asset) in Hs as (Hr & Hi & E & HE & Hacts);
    [|by rewrite (token_asset_instance t) by apply Hq].
  unfold flagged in *. rewrite (ac_entries _ _ _ Hq), ?(ac_contract _ _ _ Hq) in *. do 2 (split; [done|]).
  exists E. split; [done|].
  eapply acts_quiet; [|exact Hev]. by eapply acts_trans.
Qed.
End calls.
