(* ===== verification/TokenEffects.v ===== *)
(** The effect of each call of the asset contract, as a relation between the state before
    and after, and that the contract has it. *)
From S2P Require Import Prelude ScVal Storage Host AccountAuth TokenData TokenBalance Token Env.
From S2P Require Import TokenSpec TokenCalls.
#[local] Open Scope m_scope.
#[local] Arguments dec {T} c v : simpl never.
#[local] Arguments enc {T} c x : simpl never.

(** * What the calls do *)

(** [f] approves [s] to spend [n]; [live] is the last ledger of the allowance. *)
Definition approved (t : Tok) (f s : ScAddress) (n live : Z) (t' : Tok) : Prop :=
  pokes t (allowance_key (contract t) f s) t' ∧ usable t' f s = n ∧
  (0 < n → sequence_number (info t) <= live ∧ stored_allowance t' f s = Some (mkAllowanceValue n live) ∧
     ((∀ a, stored_allowance t f s = Some a → live_until_ledger a < live) → 0 < live →
      ∃ en lu, led t' !! allowance_key (contract t) f s = Some (en, Some lu) ∧ live <= lu)).

(** The administrator signed. *)
Definition by_admin (t : Tok) : Prop := ∃ a, token_admin t = Some a ∧ a ∈ auths t.

(** What the asset contract of [asset] does on a call that succeeds. *)
Definition effect (asset : Asset) (c : Sac.call) (t t' : Tok) : Prop :=
  match c with
  | Sac.CInit _ => False
  | Sac.CApprove f s n live =>
      0 <= n ∧ f ∈ auths t ∧ ∃ t1 t2, quiet t t1 ∧ approved t1 f s n live t2 ∧ quiet t2 t'
  | Sac.CTransfer a b n => 0 <= n ∧ a ∈ auths t ∧ sent asset t a b n t'
  | Sac.CTransferFrom s a b n =>
      0 <= n ∧ s ∈ auths t ∧ ∃ t1 t2, quiet t t1 ∧ allowance_spent t1 a s n t2 ∧ sent asset t2 a b n t'
  | Sac.CBurn a n =>
      0 <= n ∧ a ∈ auths t ∧ Account <$> issuer_of asset ≠ Some a ∧
      may_move asset (contract t) (entries t) a = true ∧ burnt asset t a (- n) t'
  | Sac.CBurnFrom s a n =>
      0 <= n ∧ s ∈ auths t ∧ Account <$> issuer_of asset ≠ Some a ∧
      ∃ t1 t2, quiet t t1 ∧ allowance_spent t1 a s n t2 ∧
        may_move asset (contract t2) (entries t2) a = true ∧ burnt asset t2 a (- n) t'
  | Sac.CClawback a n =>
      0 <= n ∧ Account <$> issuer_of asset ≠ Some a ∧
      clawbackable asset (contract t) (entries t) a = true ∧ by_admin t ∧ burnt asset t a (- n) t'
  | Sac.CMint a n =>
      0 <= n ∧ Account <$> issuer_of asset ≠ Some a ∧ by_admin t ∧
      may_move asset (contract t) (entries t) a = true ∧ burnt asset t a n t'
  | Sac.CSetAuthorized a b =>
      by_admin t ∧ (b = false → issuer_flag asset (entries t) RevocableFlag = true) ∧
      Account <$> issuer_of asset ≠ Some a ∧ ∃ E, flagged asset t a b E ∧ acts t E t'
  | Sac.CSetAdmin a =>
      by_admin t ∧ token_admin t' = Some a ∧
      instance_storage t' = <[instance_data_key Admin := enc addressC a]> (instance_storage t) ∧
      ∃ t1, quiet t t1 ∧ info t' = info t1 ∧ contract t' = contract t1 ∧ led t' = led t1
  | _ => quiet t t'
  end.

(** * The remaining calls *)

Section effects.
Context (strkey : N → string) (asset_contract_id : Asset → Hash).

Lemma approve_ok f s n live (t t' : Tok) :
  Sac.approve f s n live t = (Ok tt, t') → in_u32 (sequence_number (info t)) →
  0 <= n ∧ f ∈ auths t ∧ ∃ t1 t2, quiet t t1 ∧ approved t1 f s n live t2 ∧ quiet t2 t'.
Proof.
  unfold Sac.approve. intros H Hseq.
  apply m_bind_ok in H as ([] & t1 & [-> Hn]%check_nonnegative_ok & H).
  apply m_bind_ok in H as ([] & t1 & [-> Hau]%require_auth_ok & H).
  apply m_bind_ok in H as ([] & t1 & Hq%extend_instance_quiet & H).
  apply m_bind_ok in H as ([] & t2 & Hs & Hev%sac_event_quiet).
  split; [done|]. split; [done|]. exists t1, t2. split; [done|]. split; [|done].
  apply write_allowance_ok in Hs; [done..|]. by rewrite (ac_info _ _ _ Hq).
Qed.

Lemma set_admin_ok a (t t' : Tok) :
  Sac.set_admin a t = (Ok tt, t') → effect Native (Sac.CSetAdmin a) t t'.
Proof.
  unfold Sac.set_admin. intros H.
  apply m_bind_ok in H as (admin & t1 & [-> Had]%read_administrator_ok & H).
  apply m_bind_ok in H as ([] & t1 & [-> Hau]%require_auth_ok & H).
  apply m_bind_ok in H as ([] & t1 & Hq%extend_instance_quiet & H).
  apply m_bind_ok in H as ([] & t2 & Hs & H).
  unfold write_administrator, sac_put_contract_data, m_modify in Hs. injection Hs as <-.
  unfold Sac.event_set_admin, Sac.sac_event in H.
  apply m_bind_ok in H as (nm & t2 & ->%read_name_quiet & H). injection H as <-.
  assert (instance_storage t1 = instance_storage t) as Hin by apply Hq.
  split; [by eexists|]. split; [|split; [|by exists t1]].
  - unfold token_admin; simpl. rewrite lookup_insert_eq. simpl. apply dec_enc.
  - simpl. by rewrite Hin.
Qed.

Lemma returning_ok {A} (value : A → ScVal) (p : M Tok A) t v t' :
  Sac.returning value p t = (Ok v, t') → ∃ a, p t = (Ok a, t').
Proof. unfold Sac.returning. intros (a & t1 & Hp & H)%m_bind_ok. injection H as _ <-. eauto. Qed.

(** What [balance] answers. *)
Definition shown_balance (asset : Asset) (cid : Hash) (E : Entries) (a : ScAddress) : Z :=
  if decide (Account <$> issuer_of asset = Some a) then i64_max else holding asset cid E a.

Lemma get_account_balance_ok li k (m m' : LedgerMap) n :
  get_account_balance li k m = (Ok n, m') →
  m' = m ∧ ∃ ae lu, m !! KAccount k = Some (EAccount ae, lu) ∧ n = account_balance ae.
Proof.
  unfold get_account_balance. intros (le & m1 & Hs & H)%m_bind_ok.
  apply m_bind_ok in H as (ae & m2 & [Hae ->]%m_lift_ok & H).
  destruct (read_account_ok _ _ _ _ _ _ Hs Hae) as [-> [lu Hm]].
  apply m_bind_ok in H as (range & m2 & [_ ->]%m_lift_ok & H).
  repeat (case_decide; [done|]). injection H as <- <-. eauto.
Qed.

Lemma get_trustline_balance_ok li k asset (m m' : LedgerMap) n :
  get_trustline_balance li k asset m = (Ok n, m') →
  m' = m ∧ ∃ tl lu, m !! KTrustline k asset = Some (ETrustline tl, lu) ∧ n = tl_balance tl.
Proof.
  unfold get_trustline_balance. intros (le & m1 & Hs & H)%m_bind_ok.
  apply m_bind_ok in H as (tl & m2 & [Htl ->]%m_lift_ok & H).
  destruct (read_trustline_ok _ _ _ _ _ _ _ Hs Htl) as [-> [lu Hm]].
  apply m_bind_ok in H as (range & m2 & [_ ->]%m_lift_ok & H).
  repeat (case_decide; [done|]). injection H as <- <-. eauto.
Qed.

Lemma read_balance_ok asset a (t t' : Tok) n :
  read_balance a t = (Ok n, t') → token_asset t = Some asset →
  quiet t t' ∧ n = shown_balance asset (contract t) (entries t) a.
Proof.
  unfold read_balance, shown_balance. intros H Ha. destruct a as [k|c].
  - unfold get_classic_balance in H. apply m_bind_ok in H as (x & t1 & [-> Hx]%read_asset_ok & H).
    assert (x = asset) as -> by congruence. unfold holding.
    apply classic_cases in H as [[Hi H]|[[Hi H]|(Hi & Hk & m' & H & ->)]].
    + apply with_mut_storage_inv in H as (m' & H & ->).
      apply get_account_balance_ok in H as (-> & ae & lu & Hm & ->). rewrite Hi, set_led_same.
      split; [done|]. by rewrite decide_False, (entries_lookup _ _ _ _ Hm).
    + injection H as <- <-. split; [done|]. by rewrite Hi, decide_True.
    + apply get_trustline_balance_ok in H as (-> & tl & lu & Hm & ->). rewrite set_led_same.
      split; [done|]. destruct (issuer_of asset) as [issuer|]; [|done].
      rewrite (decide_False (P := Account <$> Some issuer = Some (Account k))) by (simpl; congruence).
      rewrite decide_False by congruence. by rewrite (entries_lookup _ _ _ _ Hm).
  - rewrite decide_False by (by destruct (issuer_of asset)).
    apply m_bind_ok in H as (raw & t1 & [-> Hr]%read_persistent_ok & H). unfold holding, stored_balance.
    change (storage_key _ _ _) with (balance_key (contract t) (Contract c)) in Hr.
    destruct raw as [v|]; [|injection H as <- <-; by rewrite Hr].
    destruct Hr as (d & -> & ->).
    apply m_bind_ok in H as ([] & t1 & Hx & H). unfold extend_balance, sac_extend_contract_data_ttl in Hx.
    apply on_ledger_inv in Hx as (m' & Hx%quiet_ttl & ->); [|done].
    apply m_bind_ok in H as (b & t2 & [Hb%from_val_ok ->]%m_lift_ok & H). injection H as <- <-.
    split; [done|]. by rewrite Hb.
Qed.

Lemma balance_ok asset a (t t' : Tok) n :
  Sac.balance a t = (Ok n, t') → token_asset t = Some asset →
  quiet t t' ∧ n = shown_balance asset (contract t) (entries t) a.
Proof.
  unfold Sac.balance. intros ([] & t1 & Hq%extend_instance_quiet & H)%m_bind_ok Ha.
  apply (read_balance_ok asset) in H as [Hq2 ->]; [|by rewrite (token_asset_instance t) by apply Hq].
  split; [by etrans|]. by rewrite (ac_contract _ _ _ Hq), (ac_entries _ _ _ Hq).
Qed.

Lemma authorized_ok asset a (t t' : Tok) b :
  Sac.authorized a t = (Ok b, t') → token_asset t = Some asset →
  quiet t t' ∧ b = may_move asset (contract t) (entries t) a.
Proof.
  unfold Sac.authorized. intros ([] & t1 & Hq%extend_instance_quiet & H)%m_bind_ok Ha.
  apply (is_authorized_ok _ _ _ _ asset) in H as [-> ->]; [|by rewrite (token_asset_instance t) by apply Hq].
  split; [done|]. by rewrite (ac_contract _ _ _ Hq), (ac_entries _ _ _ Hq).
Qed.

Lemma allowance_ok f s (t t' : Tok) n :
  Sac.allowance f s t = (Ok n, t') → quiet t t' ∧ n = usable t f s.
Proof.
  unfold Sac.allowance. intros ([] & t1 & Hq%extend_instance_quiet & H)%m_bind_ok.
  apply read_allowance_ok in H as [-> ->]. split; [done|]. by apply usable_quiet.
Qed.

Lemma read_symbol_quiet (t t' : Tok) n : read_symbol t = (Ok n, t') → t' = t.
Proof.
  unfold read_symbol, read_metadata. intros (md & t1 & H1 & H)%m_bind_ok.
  apply m_bind_ok in H1 as (v & t2 & [-> _]%instance_get_ok & H1).
  apply m_lift_ok in H1 as [_ ->]. by injection H as _ <-.
Qed.

Lemma init_not_again asset a (t t' : Tok) u :
  Sac.init_asset strkey asset_contract_id a t = (Ok u, t') → token_asset t = Some asset → False.
Proof.
  unfold Sac.init_asset, token_asset, token_info. intros (b & t1 & Hs & H)%m_bind_ok Ha.
  unfold has_asset_info, sac_has_contract_data in Hs. injection Hs as <- <-.
  destruct (instance_storage t !! _); [|done]. rewrite bool_decide_true in H; [done|by eexists].
Qed.

(** * Every call has its effect *)

Theorem exec_effect asset c (t t' : Tok) v :
  Sac.exec strkey asset_contract_id c t = (Ok v, t') →
  token_asset t = Some asset → in_u32 (sequence_number (info t)) →
  effect asset c t t'.
Proof.
  intros H Ha Hseq. destruct c; simpl in H; apply returning_ok in H as [r H]; simpl;
    lazymatch type of r with unit => destruct r | _ => idtac end.
  - by eapply init_not_again.
  - by apply allowance_ok in H as [? _].
  - by apply approve_ok.
  - by apply (balance_ok asset) in H as [? _].
  - by apply (authorized_ok asset) in H as [? _].
  - by apply transfer_ok.
  - by apply transfer_from_ok.
  - by apply burn_ok.
  - by apply burn_from_ok.
  - by apply clawback_ok.
  - by apply set_authorized_ok.
  - by apply mint_ok.
  - by apply set_admin_ok.
  - by apply read_administrator_ok in H as [-> _].
  - by injection H as _ <-.
  - by apply read_name_quiet in H as ->.
  - by apply read_symbol_quiet in H as ->.
Qed.
End effects.
