(* ===== verification/TokenThms.v ===== *)
(** Consequences of the effects: what the calls of the asset contract leave of holdings,
    allowances and the administrator; invocations, and histories of them. *)
From S2P Require Import Prelude ScVal Storage Host AccountAuth TokenData TokenBalance Token Env.
From S2P Require Import TokenSpec TokenCalls TokenEffects.
#[local] Open Scope m_scope.
#[local] Arguments dec {T} c v : simpl never.
#[local] Arguments enc {T} c x : simpl never.

(** * Holdings *)

(** [n], if [a] is [x] and not the issuer. *)
Definition change_at (asset : Asset) (a : ScAddress) (n : Z) (x : ScAddress) : Z :=
  if decide (a = x ∧ Account <$> issuer_of asset ≠ Some x) then n else 0.

(** What a successful call adds to what [x] holds. *)
Definition delta (asset : Asset) (c : Sac.call) (x : ScAddress) : Z :=
  match c with
  | Sac.CTransfer a b n | Sac.CTransferFrom _ a b n => change_at asset a (- n) x + change_at asset b n x
  | Sac.CBurn a n | Sac.CBurnFrom _ a n | Sac.CClawback a n => change_at asset a (- n) x
  | Sac.CMint a n => change_at asset a n x
  | _ => 0
  end.

Lemma quiet_holding asset t t' x : quiet t t' → holding asset (contract t) (entries t') x = holding asset (contract t) (entries t) x.
Proof. intros []. congruence. Qed.

Lemma pokes_holding asset t f s t' x :
  pokes t (allowance_key (contract t) f s) t' →
  holding asset (contract t) (entries t') x = holding asset (contract t) (entries t) x.
Proof. intros Hp. apply holding_ext. intros key Hk. by eapply pokes_entries. Qed.

Lemma sent_holding asset t a b n t' x :
  sent asset t a b n t' →
  holding asset (contract t) (entries t') x =
    holding asset (contract t) (entries t) x + (change_at asset a (- n) x + change_at asset b n x).
Proof.
  intros (_ & E1 & E2 & H1 & _ & H2 & Hacts). rewrite (ac_entries _ _ _ Hacts).
  rewrite (moved_holding _ _ _ _ _ _ _ x H2), (moved_holding _ _ _ _ _ _ _ x H1). unfold change_at. lia.
Qed.
Lemma burnt_holding asset t a n t' x :
  burnt asset t a n t' →
  holding asset (contract t) (entries t') x = holding asset (contract t) (entries t) x + change_at asset a n x.
Proof.
  intros (E & HE & Hacts). rewrite (ac_entries _ _ _ Hacts). apply (moved_holding _ _ _ _ _ _ _ x HE).
Qed.

(** A quiet step and one on an allowance come before what the spender does. *)
Lemma spent_before t t1 f s n t2 :
  quiet t t1 → allowance_spent t1 f s n t2 →
  info t2 = info t ∧ contract t2 = contract t ∧ auths t2 = auths t ∧
  instance_storage t2 = instance_storage t ∧ nontemp_same (entries t) (entries t2) ∧
  n <= usable t f s ∧ usable t2 f s = usable t f s - n ∧
  ∀ f' s', (f', s') ≠ (f, s) → usable t2 f' s' = usable t f' s'.
Proof.
  intros Hq (Hn & Hp & Hu). pose proof (usable_quiet _ _ f s Hq) as Hf.
  assert (∀ f' s', (f', s') ≠ (f, s) → usable t2 f' s' = usable t f' s') as Hother.
  { intros f' s' Hne. rewrite (usable_pokes _ _ _ _ _ _ Hp Hne). by apply usable_quiet. }
  pose proof (pokes_entries _ _ _ Hp eq_refl) as He. destruct Hq as [Hi Hc Hau Hin HE _].
  split; [by rewrite (pk_info _ _ _ Hp)|]. split; [by rewrite (pk_contract _ _ _ Hp)|].
  split; [by rewrite (pk_auths _ _ _ Hp)|]. split; [by rewrite (pk_instance _ _ _ Hp)|].
  split; [intros key Hk; by rewrite He, HE|]. split; [lia|]. split; [lia|done].
Qed.

Lemma effect_holding asset c t t' x :
  effect asset c t t' →
  holding asset (contract t) (entries t') x = holding asset (contract t) (entries t) x + delta asset c x.
Proof.
  destruct c; simpl; intros H; try (rewrite (quiet_holding asset _ _ x H); lia); [done|..].
  - destruct H as (_ & _ & t1 & t2 & Hq & (Hp & _) & Hq2).
    pose proof (quiet_holding asset _ _ x Hq) as H1. pose proof (pokes_holding asset _ _ _ _ x Hp) as H2.
    pose proof (quiet_holding asset _ _ x Hq2) as H3.
    rewrite (pk_contract _ _ _ Hp) in H3. rewrite (ac_contract _ _ _ Hq) in *. lia.
  - apply sent_holding. by destruct H as (_ & _ & H).
  - destruct H as (_ & _ & t1 & t2 & Hq & Hsp & Hs).
    destruct (spent_before _ _ _ _ _ _ Hq Hsp) as (_ & Hc & _ & _ & He & _).
    apply (sent_holding _ _ _ _ _ _ x) in Hs. rewrite Hc, (holding_ext _ _ _ _ x He) in Hs. done.
  - apply burnt_holding. by destruct H as (_ & _ & _ & _ & H).
  - destruct H as (_ & _ & _ & t1 & t2 & Hq & Hsp & _ & Hs).
    destruct (spent_before _ _ _ _ _ _ Hq Hsp) as (_ & Hc & _ & _ & He & _).
    apply (burnt_holding _ _ _ _ _ x) in Hs. rewrite Hc, (holding_ext _ _ _ _ x He) in Hs. done.
  - apply burnt_holding. by destruct H as (_ & _ & _ & _ & H).
  - destruct H as (_ & _ & _ & E & [HE _] & Hacts). rewrite (ac_entries _ _ _ Hacts), HE. lia.
  - apply burnt_holding. by destruct H as (_ & _ & _ & _ & H).
  - destruct H as (_ & _ & _ & t1 & Hq & _ & _ & Hl).
    unfold entries in *. rewrite Hl. pose proof (quiet_holding asset _ _ x Hq) as H1. unfold entries in H1. lia.
Qed.

(** ** Their limits *)

(** [b] is a balance [x] may come to: within the reserve and liabilities of its account, the
    limit and liabilities of its trust line, or what a contract can be said to hold, which
    does not fall below zero. *)
Definition within_limits (asset : Asset) (li : LedgerInfo) (cid : Hash) (E : Entries) (x : ScAddress) (b : Z) : Prop :=
  match x with
  | Contract _ => in_i128 b ∧ (b < holding asset cid E x → 0 <= b)
  | Account k =>
      match issuer_of asset with
      | None => ∃ ae range, E !! KAccount k = Some (EAccount ae) ∧
          get_min_max_account_balance li ae = Ok range ∧ range.1 <= b <= range.2 ∧ in_i64 b
      | Some _ => ∃ tl range, E !! KTrustline k asset = Some (ETrustline tl) ∧
          get_min_max_trustline_balance tl = Ok range ∧ range.1 <= b <= range.2 ∧ in_i64 b
      end
  end.

(** The entries the limits of [x] are read from. *)
Definition same_limits (asset : Asset) (cid : Hash) (E E' : Entries) (x : ScAddress) : Prop :=
  (∀ k, x = Account k → E' !! KAccount k = E !! KAccount k ∧ E' !! KTrustline k asset = E !! KTrustline k asset) ∧
  holding asset cid E' x = holding asset cid E x.

Lemma within_same asset li cid E E' x b :
  same_limits asset cid E E' x → within_limits asset li cid E' x b → within_limits asset li cid E x b.
Proof.
  intros [Hk Hh]. destruct x as [k|c]; unfold within_limits; [|by rewrite Hh].
  by destruct (Hk k eq_refl) as [-> ->].
Qed.

Lemma same_limits_ext asset cid E E' x : nontemp_same E E' → same_limits asset cid E E' x.
Proof. intros He. split; [intros k _; by rewrite !He|by apply holding_ext]. Qed.
Lemma moved_same_limits asset li cid n E a E' x :
  moved asset li cid n E a E' → a ≠ x → same_limits asset cid E E' x.
Proof.
  intros H Hne. split.
  - intros k ->. destruct H; rewrite ?lookup_insert_ne; try done; congruence.
  - rewrite (moved_holding _ _ _ _ _ _ _ x H), decide_False; [lia|]. by intros [].
Qed.

Lemma moved_within asset li cid n E a E' :
  moved asset li cid n E a E' → Account <$> issuer_of asset ≠ Some a →
  within_limits asset li cid E a (holding asset cid E' a).
Proof.
  intros H Hni. rewrite (moved_holding _ _ _ _ _ _ _ a H), decide_True by done.
  destruct H as [k Hi|k ae lo hi Hi HE Hlim Hr H64|k tl lo hi Hi Hk HE Hlim Hr H64|c v e Hv Hr Hneg He|c -> Hc].
  - by rewrite Hi in Hni.
  - unfold holding, within_limits. rewrite Hi, HE. by exists ae, (lo, hi).
  - unfold holding, within_limits. destruct (issuer_of asset) as [issuer|]; [|done].
    rewrite decide_False by congruence. rewrite HE. by exists tl, (lo, hi).
  - assert (holding asset cid E (Contract c) = amount v) as Hh.
    { unfold holding. destruct Hv as [->|(Hnone & -> & _)]; [done|]. unfold stored_balance. by rewrite Hnone. }
    unfold within_limits. rewrite Hh. split; [done|]. intros ?. apply Hneg. lia.
  - unfold within_limits, holding. rewrite Hc. split; [done|lia].
Qed.

Lemma change_at_in asset a n x : change_at asset a n x ≠ 0 → a = x ∧ Account <$> issuer_of asset ≠ Some x.
Proof. unfold change_at. by case_decide. Qed.

Lemma change_at_other asset a n x : a ≠ x → change_at asset a n x = 0.
Proof. intros Hne. unfold change_at. by case_decide as Hd; [destruct Hd|]. Qed.

Lemma sent_within asset t a b n t' x :
  sent asset t a b n t' → change_at asset a (- n) x + change_at asset b n x ≠ 0 →
  within_limits asset (info t) (contract t) (entries t) x (holding asset (contract t) (entries t') x).
Proof.
  intros (_ & E1 & E2 & H1 & _ & H2 & Hacts) Hd. rewrite (ac_entries _ _ _ Hacts).
  destruct (decide (a = x)) as [->|Ha].
  - assert (b ≠ x) as Hb by (intros ->; unfold change_at in Hd; case_decide; lia).
    rewrite (proj2 (moved_same_limits _ _ _ _ _ _ _ x H2 Hb)). apply (moved_within _ _ _ _ _ _ _ H1).
    rewrite (change_at_other asset b n x Hb) in Hd. apply (change_at_in asset x (- n) x). lia.
  - rewrite (change_at_other asset a (- n) x Ha) in Hd. destruct (change_at_in asset b n x) as [-> Hni]; [lia|].
    eapply within_same; [by eapply moved_same_limits|]. by apply (moved_within _ _ _ _ _ _ _ H2).
Qed.
Lemma burnt_within asset t a n t' x :
  burnt asset t a n t' → change_at asset a n x ≠ 0 →
  within_limits asset (info t) (contract t) (entries t) x (holding asset (contract t) (entries t') x).
Proof.
  intros (E & HE & Hacts) [-> Hni]%change_at_in. rewrite (ac_entries _ _ _ Hacts).
  by eapply moved_within.
Qed.

(** Who gains or loses by a call that succeeds ends within his limits. *)
Lemma effect_within asset c t t' x :
  effect asset c t t' → delta asset c x ≠ 0 →
  within_limits asset (info t) (contract t) (entries t) x (holding asset (contract t) (entries t') x).
Proof.
  destruct c; simpl; intros H Hd; try done.
  - apply (sent_within _ _ _ _ _ _ _ (proj2 (proj2 H)) Hd).
  - destruct H as (_ & _ & t1 & t2 & Hq & Hsp & Hs).
    destruct (spent_before _ _ _ _ _ _ Hq Hsp) as (Hi & Hc & _ & _ & He & _).
    apply (sent_within _ _ _ _ _ _ x) in Hs; [|done]. rewrite Hi, Hc in Hs.
    by eapply within_same; [by apply same_limits_ext|].
  - by eapply burnt_within; [by destruct H as (_ & _ & _ & _ & H)|].
  - destruct H as (_ & _ & _ & t1 & t2 & Hq & Hsp & _ & Hs).
    destruct (spent_before _ _ _ _ _ _ Hq Hsp) as (Hi & Hc & _ & _ & He & _).
    apply (burnt_within _ _ _ _ _ x) in Hs; [|done]. rewrite Hi, Hc in Hs.
    by eapply within_same; [by apply same_limits_ext|].
  - by eapply burnt_within; [by destruct H as (_ & _ & _ & _ & H)|].
  - by eapply burnt_within; [by destruct H as (_ & _ & _ & _ & H)|].
Qed.

(** * Who may move *)

Lemma moved_may_move asset li cid n E a E' x :
  moved asset li cid n E a E' → may_move asset cid E a = true →
  may_move asset cid E' x = may_move asset cid E x.
Proof.
  destruct 1 as [k Hi|k ae lo hi Hi HE _ _ _|k tl lo hi Hi Hk HE _ _ _|c v e Hv _ _ He|c -> Hc]; intros Hm.
  - done.
  - unfold may_move. rewrite Hi. destruct x as [k'|c]; [done|]. by rewrite stored_balance_other.
  - unfold may_move. destruct (issuer_of asset) as [issuer|] eqn:His; [|done]. destruct x as [k'|c].
    + destruct (decide (issuer = k')); [done|]. destruct (decide (k' = k)) as [->|].
      * by rewrite lookup_insert_eq, HE.
      * by rewrite lookup_insert_ne by congruence.
    + rewrite stored_balance_other by done. by rewrite lookup_insert_ne.
  - unfold may_move in *. destruct x as [k'|c'].
    + by rewrite lookup_insert_ne.
    + rewrite stored_balance_insert. destruct (decide (Contract c = Contract c')) as [<-|Hne].
      * rewrite He, dec_set_amount. simpl. destruct Hv as [Hv|(Hn & _ & Hv & _)]; [by rewrite Hv|].
        rewrite Hv. unfold stored_balance in Hm. rewrite Hn in Hm. unfold stored_balance. by rewrite Hn.
      * destruct (stored_balance cid E (Contract c')); [done|]. destruct (issuer_of asset); [|done].
        by rewrite lookup_insert_ne.
  - done.
Qed.

(** * The contract's own data *)

Lemma effect_asset asset c t t' :
  effect asset c t t' → token_info t' = token_info t ∧ info t' = info t ∧ contract t' = contract t ∧
    (token_admin t' = token_admin t ∨
     ∃ a, c = Sac.CSetAdmin a ∧ by_admin t ∧ token_admin t' = Some a).
Proof.
  assert (∀ E, acts t E t' → token_info t' = token_info t ∧ info t' = info t ∧ contract t' = contract t ∧
    (token_admin t' = token_admin t ∨
     ∃ a, c = Sac.CSetAdmin a ∧ by_admin t ∧ token_admin t' = Some a)) as Hacts.
  { intros E Ha. unfold token_info. rewrite (ac_instance _ _ _ Ha). split_and!; [done|apply Ha..|].
    left. apply token_admin_instance, Ha. }
  assert (∀ t2 E, info t2 = info t → contract t2 = contract t → instance_storage t2 = instance_storage t →
    acts t2 E t' → token_info t' = token_info t ∧ info t' = info t ∧ contract t' = contract t ∧
    (token_admin t' = token_admin t ∨
     ∃ a, c = Sac.CSetAdmin a ∧ by_admin t ∧ token_admin t' = Some a)) as Hacts2.
  { intros t2 E Hi Hc Hin Ha. unfold token_info. rewrite (ac_instance _ _ _ Ha), Hin.
    rewrite (ac_info _ _ _ Ha), (ac_contract _ _ _ Ha). split_and!; [done..|].
    left. apply token_admin_instance. by rewrite (ac_instance _ _ _ Ha). }
  destruct c; simpl; intros H; try done; try (by eapply Hacts).
  - destruct H as (_ & _ & t1 & t2 & Hq & (Hp & _) & Hq2). eapply Hacts2; [..|exact Hq2].
    + rewrite (pk_info _ _ _ Hp). apply Hq.
    + rewrite (pk_contract _ _ _ Hp). apply Hq.
    + rewrite (pk_instance _ _ _ Hp). apply Hq.
  - destruct H as (_ & _ & _ & E1 & E2 & _ & _ & _ & Ha). by eapply Hacts.
  - destruct H as (_ & _ & t1 & t2 & Hq & Hsp & _ & E1 & E2 & _ & _ & _ & Ha).
    destruct (spent_before _ _ _ _ _ _ Hq Hsp) as (Hi & Hc & _ & Hin & _). by eapply Hacts2.
  - destruct H as (_ & _ & _ & _ & E & _ & Ha). by eapply Hacts.
  - destruct H as (_ & _ & _ & t1 & t2 & Hq & Hsp & _ & E & _ & Ha).
    destruct (spent_before _ _ _ _ _ _ Hq Hsp) as (Hi & Hc & _ & Hin & _). by eapply Hacts2.
  - destruct H as (_ & _ & _ & _ & E & _ & Ha). by eapply Hacts.
  - destruct H as (_ & _ & _ & E & _ & Ha). by eapply Hacts.
  - destruct H as (_ & _ & _ & _ & E & _ & Ha). by eapply Hacts.
  - destruct H as (Had & Ht & Hin & t1 & Hq & Hi & Hc & _).
    unfold token_info. rewrite Hin, lookup_insert_ne by done. rewrite Hi, Hc.
    split_and!; [done|apply Hq..|]. right. eauto.
Qed.

(** * Allowances *)

(** What [s] may spend of [f]'s after a call, from what it was. *)
Definition usable_after (c : Sac.call) (f s : ScAddress) (n : Z) : Z :=
  match c with
  | Sac.CApprove f' s' m _ => if decide ((f', s') = (f, s)) then m else n
  | Sac.CTransferFrom s' f' _ m | Sac.CBurnFrom s' f' m => if decide ((f', s') = (f, s)) then n - m else n
  | _ => n
  end.

Lemma acts_usable t E t' f s : acts t E t' → usable t' f s = usable t f s.
Proof. intros []. by apply usable_same. Qed.

Lemma effect_usable asset c t t' f s :
  effect asset c t t' → usable t' f s = usable_after c f s (usable t f s).
Proof.
  destruct c; simpl; intros H; try done; try (by eapply acts_usable).
  - destruct H as (_ & _ & t1 & t2 & Hq & (Hp & Hu & _) & Hq2). rewrite (usable_quiet _ _ f s Hq2).
    case_decide as He; [injection He as -> ->; done|].
    rewrite (usable_pokes _ _ _ _ _ _ Hp) by congruence. by apply usable_quiet.
  - destruct H as (_ & _ & _ & E1 & E2 & _ & _ & _ & Ha). by eapply acts_usable.
  - destruct H as (_ & _ & t1 & t2 & Hq & Hsp & _ & E1 & E2 & _ & _ & _ & Ha).
    rewrite (acts_usable _ _ _ f s Ha).
    destruct (spent_before _ _ _ _ _ _ Hq Hsp) as (_ & _ & _ & _ & _ & _ & Hu & Ho).
    case_decide as He; [injection He as -> ->; done|]. apply Ho. congruence.
  - destruct H as (_ & _ & _ & _ & E & _ & Ha). by eapply acts_usable.
  - destruct H as (_ & _ & _ & t1 & t2 & Hq & Hsp & _ & E & _ & Ha).
    rewrite (acts_usable _ _ _ f s Ha).
    destruct (spent_before _ _ _ _ _ _ Hq Hsp) as (_ & _ & _ & _ & _ & _ & Hu & Ho).
    case_decide as He; [injection He as -> ->; done|]. apply Ho. congruence.
  - destruct H as (_ & _ & _ & _ & E & _ & Ha). by eapply acts_usable.
  - destruct H as (_ & _ & _ & E & _ & Ha). by eapply acts_usable.
  - destruct H as (_ & _ & _ & _ & E & _ & Ha). by eapply acts_usable.
  - destruct H as (_ & _ & _ & t1 & Hq & Hi & Hc & Hl).
    rewrite <-(usable_quiet _ _ f s Hq). apply usable_same; [done..|]. intros ? ?. by rewrite Hl.
Qed.

(** * Invocations *)

(** The state a call starts from. *)
Definition enter (au : gset ScAddress) (t : Tok) : Tok :=
  let h := sac_host t in
  set_sac_host (mkHost (h_storage h) (h_ledger h) (h_contract h) au (h_events h)) t.

(** The state of the frame of [cid] in a transaction of the ledger [li]. *)
Definition at_frame (cid : Hash) (li : LedgerInfo) (t : Tok) : Tok :=
  let h := sac_host t in set_sac_host (mkHost (h_storage h) li cid (h_auths h) (h_events h)) t.

(** A call with what it is run with, and a history of them with its results. *)
Record tx := mkTx { tx_ledger : LedgerInfo; tx_auths : gset ScAddress; tx_call : Sac.call }.

Section histories.
Context (strkey : N → string) (asset_contract_id : Asset → Hash).
#[local] Abbreviation invoke := (Sac.invoke strkey asset_contract_id).

Lemma invoke_ok au c (t t' : Tok) v :
  invoke au c t = (Ok v, t') → Sac.exec strkey asset_contract_id c (enter au t) = (Ok v, t').
Proof.
  unfold Sac.invoke. fold (enter au t). intros H.
  destruct (Sac.exec _ _ _ _) as [[w|e] t1]; [congruence|discriminate H].
Qed.

Lemma invoke_err au c (t t' : Tok) e :
  invoke au c t = (Err e, t') → led t' = led t ∧ instance_storage t' = instance_storage t.
Proof.
  unfold Sac.invoke. fold (enter au t). intros H.
  destruct (Sac.exec _ _ _ _) as [[w|e'] t1]; [discriminate H|]. by injection H as _ <-.
Qed.

Lemma invoke_effect asset au c (t t' : Tok) v :
  invoke au c t = (Ok v, t') → token_asset t = Some asset → in_u32 (sequence_number (info t)) →
  effect asset c (enter au t) t'.
Proof. intros H%invoke_ok Ha Hseq. by eapply exec_effect. Qed.

Fixpoint run (cid : Hash) (xs : list tx) (t : Tok) : list (tx * Result ScVal) * Tok :=
  match xs with
  | [] => ([], t)
  | x :: xs =>
      let '(r, t1) := invoke (tx_auths x) (tx_call x) (at_frame cid (tx_ledger x) t) in
      let '(log, t') := run cid xs t1 in
      ((x, r) :: log, t')
  end.

(** The ledgers of a history go forward, from [since]. *)
Fixpoint in_order (since : LedgerInfo) (xs : list tx) : Prop :=
  match xs with
  | [] => True
  | x :: xs =>
      in_u32 (sequence_number (tx_ledger x)) ∧ sequence_number since <= sequence_number (tx_ledger x) ∧
      in_order (tx_ledger x) xs
  end.

Lemma run_cons cid x xs (t t' : Tok) log :
  run cid (x :: xs) t = (log, t') → ∃ r t1 log',
    invoke (tx_auths x) (tx_call x) (at_frame cid (tx_ledger x) t) = (r, t1) ∧
    run cid xs t1 = (log', t') ∧ log = (x, r) :: log'.
Proof.
  simpl. destruct (invoke _ _ _) as [r t1] eqn:Hi. destruct (run cid xs t1) as [log' t2] eqn:Hr.
  intros [= <- <-]. eauto 6.
Qed.

(** One step of a history. *)
Lemma run_step asset cid x (t t1 : Tok) r :
  invoke (tx_auths x) (tx_call x) (at_frame cid (tx_ledger x) t) = (r, t1) →
  token_asset t = Some asset → in_u32 (sequence_number (tx_ledger x)) →
  token_asset t1 = Some asset ∧
  match r with
  | Ok _ => effect asset (tx_call x) (enter (tx_auths x) (at_frame cid (tx_ledger x) t)) t1 ∧
      info t1 = tx_ledger x ∧ contract t1 = cid
  | Err _ => led t1 = led t
  end.
Proof.
  intros H Ha Hseq. destruct r as [v|e].
  - apply (invoke_effect asset) in H; [|done..]. pose proof (effect_asset _ _ _ _ H) as (Hi & Hl & Hc & _).
    split; [|done]. unfold token_asset. rewrite Hi. exact Ha.
  - apply invoke_err in H as [H1 H2]. split; [|exact H1]. rewrite <-Ha. by apply token_asset_instance.
Qed.

End histories.

(** * The supply *)

Definition total (asset : Asset) (cid : Hash) (l : list ScAddress) (E : Entries) : Z :=
  foldr (λ a, Z.add (holding asset cid E a)) 0 l.

(** The addresses whose holdings a call may change. *)
Definition parties (c : Sac.call) : list ScAddress :=
  match c with
  | Sac.CTransfer a b _ | Sac.CTransferFrom _ a b _ => [a; b]
  | Sac.CBurn a _ | Sac.CBurnFrom _ a _ | Sac.CClawback a _ | Sac.CMint a _ => [a]
  | _ => []
  end.

(** What a call brings into circulation; the issuer's holding is not in it. *)
Definition issued (asset : Asset) (c : Sac.call) : Z :=
  let out a n := if decide (Account <$> issuer_of asset = Some a) then n else 0 in
  match c with
  | Sac.CTransfer a b n | Sac.CTransferFrom _ a b n => out a n - out b n
  | Sac.CBurn a n | Sac.CBurnFrom _ a n | Sac.CClawback a n => out a n - n
  | Sac.CMint a n => n - out a n
  | _ => 0
  end.

Fixpoint issued_by (asset : Asset) (log : list (tx * Result ScVal)) : Z :=
  match log with
  | [] => 0
  | (x, Ok _) :: log => issued asset (tx_call x) + issued_by asset log
  | (_, Err _) :: log => issued_by asset log
  end.

Definition sum_over (f : ScAddress → Z) (l : list ScAddress) : Z := foldr (λ a, Z.add (f a)) 0 l.

Lemma sum_over_add f g l : sum_over (λ x, f x + g x) l = sum_over f l + sum_over g l.
Proof. induction l; simpl in *; lia. Qed.
Lemma sum_over_ext f g l : (∀ x, f x = g x) → sum_over f l = sum_over g l.
Proof. intros H. induction l; simpl; congruence. Qed.
Lemma sum_over_zero f l : (∀ x, x ∈ l → f x = 0) → sum_over f l = 0.
Proof.
  induction l as [|x l IH]; intros H; simpl; [done|]. rewrite H by set_solver.
  rewrite IH by set_solver. done.
Qed.

Lemma sum_change asset a n l :
  NoDup l → a ∈ l →
  sum_over (change_at asset a n) l = if decide (Account <$> issuer_of asset = Some a) then 0 else n.
Proof.
  intros Hnd. induction Hnd as [|y l Hy Hnd IH]; [set_solver|]. intros Hin. simpl.
  destruct (decide (a = y)) as [<-|Hne].
  - rewrite (sum_over_zero _ l).
    + unfold change_at. destruct (decide (Account <$> issuer_of asset = Some a)) as [Hi|Hi].
      * rewrite decide_False by (intros [_ ?]; done). lia.
      * rewrite decide_True by done. lia.
    + intros x Hx. unfold change_at. rewrite decide_False; [done|]. intros [-> _]. done.
  - rewrite IH by set_solver. unfold change_at. rewrite decide_False by (intros [? _]; done). lia.
Qed.

Lemma sum_delta asset c l :
  NoDup l → parties c ⊆ l → sum_over (delta asset c) l = issued asset c.
Proof.
  intros Hnd Hp.
  assert (∀ a n, a ∈ parties c → sum_over (change_at asset a n) l =
    if decide (Account <$> issuer_of asset = Some a) then 0 else n) as H1.
  { intros a n Ha. apply sum_change; [done|]. by apply Hp. }
  assert (∀ a b n, a ∈ parties c → b ∈ parties c →
    sum_over (λ x, change_at asset a (- n) x + change_at asset b n x) l =
    (if decide (Account <$> issuer_of asset = Some a) then n else 0) -
    (if decide (Account <$> issuer_of asset = Some b) then n else 0)) as H2.
  { intros a b n Ha Hb. rewrite (sum_over_add (change_at asset a (- n))), !H1 by done.
    repeat case_decide; lia. }
  clear Hp Hnd.
  destruct c; unfold delta, issued; try (by apply sum_over_zero);
    [apply H2; set_solver|apply H2; set_solver|..];
    (etrans; [apply H1; set_solver|]; clear; case_decide; lia).
Qed.

Lemma total_sum asset cid l E : total asset cid l E = sum_over (holding asset cid E) l.
Proof. done. Qed.

Lemma effect_total asset c t t' l :
  effect asset c t t' → NoDup l → parties c ⊆ l →
  total asset (contract t) l (entries t') = total asset (contract t) l (entries t) + issued asset c.
Proof.
  intros H Hnd Hp. rewrite !total_sum, <-(sum_delta asset c l) by done. rewrite <-sum_over_add.
  apply sum_over_ext. intros x. by apply effect_holding.
Qed.

(** * Allowances over a history *)

(** What [s] spent of [f]'s, and what [f] approved for it. *)
Definition spends (f s : ScAddress) (c : Sac.call) : Z :=
  match c with
  | Sac.CTransferFrom s' f' _ n | Sac.CBurnFrom s' f' n => if decide ((f', s') = (f, s)) then n else 0
  | _ => 0
  end.
Definition approves (f s : ScAddress) (c : Sac.call) : Z :=
  match c with
  | Sac.CApprove f' s' n _ => if decide ((f', s') = (f, s)) then n else 0
  | _ => 0
  end.
Fixpoint sum_ok (g : Sac.call → Z) (log : list (tx * Result ScVal)) : Z :=
  match log with
  | [] => 0
  | (x, Ok _) :: log => g (tx_call x) + sum_ok g log
  | (_, Err _) :: log => sum_ok g log
  end.

Definition usable_at (cid : Hash) (li : LedgerInfo) (t : Tok) (f s : ScAddress) : Z :=
  Z.max 0 (usable (at_frame cid li t) f s).

(** Time only ends allowances. *)
Lemma usable_later cid li li' t f s :
  sequence_number li <= sequence_number li' → usable_at cid li' t f s <= usable_at cid li t f s.
Proof.
  intros Hle. unfold usable_at, usable, stored_allowance, live_entry.
  change (led (at_frame cid ?l t)) with (led t). change (contract (at_frame cid ?l t)) with cid.
  change (info (at_frame cid ?l t)) with l.
  destruct (led t !! allowance_key cid f s) as [[en lu]|]; [|lia].
  destruct lu as [u|].
  - destruct (decide (sequence_number li' <= u)); [rewrite decide_True by lia|lia].
    destruct en as [| |d| |]; try lia. destruct (dec allowanceC (cde_val d)) as [v|]; [|lia].
    repeat case_decide; lia.
  - destruct en as [| |d| |]; try lia. destruct (dec allowanceC (cde_val d)) as [v|]; [|lia].
    repeat case_decide; lia.
Qed.
