(* ===== verification/TokenProps.v ===== *)
(** The properties of the asset contract, each with an evaluated scenario. *)
From Stdlib Require Import Ascii.
From S2P Require Import Prelude ScVal Storage Host AccountAuth TokenData TokenBalance Token Env.
From S2P Require Import TokenSpec TokenCalls TokenEffects TokenThms.
#[local] Open Scope m_scope.
#[local] Arguments dec {T} c v : simpl never.
#[local] Arguments enc {T} c x : simpl never.

(** * A small network with one asset *)

Definition sac_li : LedgerInfo := mkLedgerInfo 22 100 1000 7%N 10 16 4096 6312000.
Definition sac_strkey (k : N) : string := if decide (k = 9%N) then "GISSUER" else "GOTHER".
Definition sac_id (a : Asset) : Hash := 50%N.
Definition usd : Asset := CreditAlphanum4 "USDC" 9%N.
Definition ann : ScAddress := Account 1%N.
Definition ben : ScAddress := Account 2%N.
Definition shop : ScAddress := Contract 70%N.
Definition bank : ScAddress := Account 9%N.

Definition sac_ledger : LedgerMap :=
  <[KContractData (Contract 50%N) ScLedgerKeyContractInstance Persistent :=
      (EContractData (mkContractDataEntry (Contract 50%N) ScLedgerKeyContractInstance Persistent
         (ScContractInstance None)), Some 200000)]>
  (<[KAccount 9%N := (EAccount (mkAccountEntry 9%N 1000 0 10 [1; 0; 0; 0] [] None), None)]>
  (<[KTrustline 1%N usd := (ETrustline (mkTrustLine 1%N usd 500 10000 5 None), None)]>
  (<[KTrustline 2%N usd := (ETrustline (mkTrustLine 2%N usd 0 10000 1 None), None)]> ∅))).
Definition sac_new : Tok := mkSacHost (mkHost sac_ledger sac_li 50%N ∅ []) ∅.
Definition sac_do (au : gset ScAddress) (c : Sac.call) (t : Tok) : Result ScVal * Tok :=
  Sac.invoke sac_strkey sac_id au c t.
Definition sac_open : Tok := (sac_do ∅ (Sac.CInit usd) sac_new).2.

Lemma sac_result au c (t : Tok) r : (sac_do au c t).1 = r → sac_do au c t = (r, (sac_do au c t).2).
Proof. intros <-. by destruct (sac_do au c t). Qed.
Lemma sac_open_ok : sac_do ∅ (Sac.CInit usd) sac_new = (Ok ScVoid, sac_open).
Proof. apply sac_result. vm_compute. reflexivity. Qed.

Lemma sac_open_asset : token_asset sac_open = Some usd.
Proof. vm_compute. reflexivity. Qed.
Lemma sac_seq : in_u32 (sequence_number (info sac_open)).
Proof. vm_compute. split; discriminate. Qed.

Definition txs_demo : list tx := [
  mkTx sac_li {[ann]} (Sac.CTransfer ann shop 200);
  mkTx sac_li {[ann]} (Sac.CApprove ann ben 100 150);
  mkTx sac_li {[ben]} (Sac.CTransferFrom ben ann ben 60);
  mkTx sac_li {[ben]} (Sac.CTransferFrom ben ann ben 60);
  mkTx sac_li {[bank]} (Sac.CMint shop 1000);
  mkTx sac_li {[bank]} (Sac.CClawback ann 40)
].
Example demo_results : (run sac_strkey sac_id 50%N txs_demo sac_open).1.*2 =
  [Ok ScVoid; Ok ScVoid; Ok ScVoid; Err (EContract 9); Ok ScVoid; Ok ScVoid].
Proof. vm_compute. reflexivity. Qed.

(** * Holdings *)

Section props.
Context (strkey : N → string) (asset_contract_id : Asset → Hash).
#[local] Abbreviation invoke := (Sac.invoke strkey asset_contract_id).

(** C36: a call of the asset contract that succeeds changes what every address holds by
    exactly what it says: a transfer takes from the one and gives to the other, minting
    gives, burning and clawing back take, everything else leaves all holdings alone; the
    issuer, who holds nothing, pays out of and into nothing.  Whoever gains or loses ends
    within the limits of the entry it is kept in: between the reserve with the selling
    liabilities and the room the buying liabilities leave for an account, between the
    selling liabilities and the limit less the buying ones for a trust line, in an i128
    and, after a loss, not below zero for a contract.  A call that fails leaves ledger and
    contract data as they were. *)
Theorem sac_holdings asset au c (t t' : Tok) r :
  invoke au c t = (r, t') → token_asset t = Some asset → in_u32 (sequence_number (info t)) →
  match r with
  | Ok _ => ∀ x, holding asset (contract t) (entries t') x =
                 holding asset (contract t) (entries t) x + delta asset c x ∧
      (delta asset c x ≠ 0 →
       within_limits asset (info t) (contract t) (entries t) x (holding asset (contract t) (entries t') x))
  | Err _ => led t' = led t ∧ instance_storage t' = instance_storage t
  end.
Proof.
  intros H Ha Hseq. destruct r as [v|e]; [|by eapply invoke_err].
  intros x. apply (invoke_effect strkey asset_contract_id asset) in H; [|done..].
  split; [by apply (effect_holding asset c (enter au t))|by apply (effect_within asset c (enter au t))].
Qed.

(** C34: over every history of calls, in transactions of any ledgers, the holdings of a
    group of addresses closed under the calls add up to what they were at first and what
    was issued since: mints and payments by the issuer, less burns, clawbacks and payments
    to the issuer.  Failed calls count for nothing. *)
Theorem sac_supply asset cid l xs (t t' : Tok) log :
  run strkey asset_contract_id cid xs t = (log, t') → token_asset t = Some asset → NoDup l →
  Forall (λ x, parties (tx_call x) ⊆ l ∧ in_u32 (sequence_number (tx_ledger x))) xs →
  total asset cid l (entries t') = total asset cid l (entries t) + issued_by asset log.
Proof.
  intros H Ha Hnd. revert t log H Ha. induction xs as [|x xs IH]; intros t log H Ha Hxs.
  { injection H as <- <-. simpl. lia. }
  apply Forall_cons in Hxs as [[Hp Hseq] Hxs]. apply run_cons in H as (r & t1 & log' & Hi & H & ->).
  apply (run_step _ _ asset) in Hi as [Ha1 Hr]; [|done..]. rewrite (IH _ _ H Ha1 Hxs). destruct r as [v|e].
  - destruct Hr as (He & _). apply (effect_total _ _ _ _ l) in He; [|done..].
    change (entries (enter _ (at_frame _ _ t))) with (entries t) in He.
    change (contract (enter _ (at_frame cid _ t))) with cid in He. simpl. lia.
  - simpl. unfold entries. rewrite Hr. lia.
Qed.

(** ** Who spends *)

Lemma spender_may asset t t1 f s n t2 :
  quiet t t1 → allowance_spent t1 f s n t2 → may_move asset (contract t2) (entries t2) f = true →
  may_move asset (contract t) (entries t) f = true ∧ n <= usable t f s.
Proof.
  intros Hq Hsp Hm. destruct (spent_before _ _ _ _ _ _ Hq Hsp) as (_ & Hc & _ & _ & He & Hle & _).
  by rewrite (may_move_ext _ _ _ _ _ He), Hc in Hm.
Qed.

(** C35: nobody loses holdings but by a transfer or burn he signed himself, by a spender who
    signed and had that much of an allowance of his left, which goes down with it, or by
    the administrator's signed clawback, where clawback is enabled for him; and while his
    holding is deauthorized, by the clawback only. *)
Theorem sac_spending_rules asset au c (t t' : Tok) v x :
  invoke au c t = (Ok v, t') → token_asset t = Some asset → in_u32 (sequence_number (info t)) →
  holding asset (contract t) (entries t') x < holding asset (contract t) (entries t) x →
  (may_move asset (contract t) (entries t) x = true ∧
    (x ∈ au ∧ (∃ n, c = Sac.CBurn x n ∨ ∃ b, c = Sac.CTransfer x b n) ∨
     ∃ s n, s ∈ au ∧ (c = Sac.CBurnFrom s x n ∨ ∃ b, c = Sac.CTransferFrom s x b n) ∧
       n <= usable t x s ∧ usable t' x s = usable t x s - n)) ∨
  clawbackable asset (contract t) (entries t) x = true ∧
    ∃ n admin, c = Sac.CClawback x n ∧ token_admin t = Some admin ∧ admin ∈ au.
Proof.
  intros H Ha Hseq Hlt. apply (invoke_effect strkey asset_contract_id asset) in H; [|done..].
  pose proof (effect_holding _ _ _ _ x H) as Hx. change (entries (enter au t)) with (entries t) in Hx.
  change (contract (enter au t)) with (contract t) in Hx. rewrite Hx in Hlt.
  assert (∀ s, usable t' x s = usable_after c x s (usable t x s)) as Hus
    by (intros s; exact (effect_usable _ _ _ _ x s H)).
  assert (∀ a n, 0 <= n → change_at asset a n x >= 0) as Hge by (intros a n ?; unfold change_at; case_decide; lia).
  assert (∀ a n, change_at asset a n x < 0 → a = x) as Heq by (intros a n; unfold change_at; case_decide; [naive_solver|lia]).
  destruct c; simpl in H, Hlt; try lia.
  - destruct H as (Hn & Hau & Hm & _). assert (from = x) as -> by (apply (Heq from (- amount)); specialize (Hge to amount Hn); lia).
    left. split; [done|]. left. eauto.
  - destruct H as (Hn & Hau & t1 & t2 & Hq & Hsp & Hm & _).
    assert (from = x) as -> by (apply (Heq from (- amount)); specialize (Hge to amount Hn); lia).
    destruct (spender_may _ _ _ _ _ _ _ Hq Hsp Hm) as [Hm' Hle]. left. split; [exact Hm'|]. right.
    exists spender, amount. rewrite Hus; simpl. rewrite decide_True by done. eauto 8.
  - destruct H as (Hn & Hau & _ & Hm & _). assert (from = x) as -> by (apply (Heq from (- amount)); lia).
    left. split; [done|]. left. split; [done|]. exists amount. by left.
  - destruct H as (Hn & Hau & _ & t1 & t2 & Hq & Hsp & Hm & _).
    assert (from = x) as -> by (apply (Heq from (- amount)); lia).
    destruct (spender_may _ _ _ _ _ _ _ Hq Hsp Hm) as [Hm' Hle]. left. split; [exact Hm'|]. right.
    exists spender, amount. rewrite Hus; simpl. rewrite decide_True by done. eauto 8.
  - destruct H as (Hn & _ & Hcl & (adm & Hadm & Hau) & _).
    assert (from = x) as -> by (apply (Heq from (- amount)); lia). right. split; [done|]. eauto 6.
  - destruct H as (Hn & _). specialize (Hge to amount Hn). lia.
Qed.
(** ** Allowances *)

(** What a call spends was usable before it; what is usable after it was so before, or is
    approved by it. *)
Lemma effect_spends asset c t t' f s :
  effect asset c t t' →
  spends f s c + Z.max 0 (usable t' f s) <= Z.max 0 (usable t f s) + approves f s c.
Proof.
  intros H. rewrite (effect_usable _ _ _ _ f s H).
  destruct c; simpl in *; repeat case_decide; simplify_eq; try lia.
  - destruct H as (Hn & _ & t1 & t2 & Hq & Hsp & _).
    destruct (spent_before _ _ _ _ _ _ Hq Hsp) as (_ & _ & _ & _ & _ & Hle & _). lia.
  - destruct H as (Hn & _ & _ & t1 & t2 & Hq & Hsp & _).
    destruct (spent_before _ _ _ _ _ _ Hq Hsp) as (_ & _ & _ & _ & _ & Hle & _). lia.
Qed.

(** Over every history of calls, in ledgers that go forward, what a spender spends of
    an account is at most what he could at first and what its owner approved since: the
    two approvals of an increase add up at worst, but no allowance is used twice. *)
Theorem sac_allowance_history asset cid f s li xs (t t' : Tok) log :
  run strkey asset_contract_id cid xs t = (log, t') → token_asset t = Some asset → in_order li xs →
  sum_ok (spends f s) log <= usable_at cid li t f s + sum_ok (approves f s) log.
Proof.
  intros H Ha. revert li t log H Ha. induction xs as [|x xs IH]; intros li t log H Ha Hxs.
  { injection H as <- <-. simpl. unfold usable_at. lia. }
  destruct Hxs as (Hseq & Hle & Hxs). apply run_cons in H as (r & t1 & log' & Hi & H & ->).
  apply (run_step _ _ asset) in Hi as [Ha1 Hr]; [|done..]. specialize (IH (tx_ledger x) _ _ H Ha1 Hxs).
  pose proof (usable_later cid li (tx_ledger x) t f s Hle) as Hlater. destruct r as [v|e]; simpl.
  - destruct Hr as (He & Hi & Hc). pose proof (effect_spends _ _ _ _ f s He) as Hsp.
    assert (usable_at cid (tx_ledger x) t1 f s = Z.max 0 (usable t1 f s)) as Hu1.
    { unfold usable_at. f_equal. apply usable_same; [by rewrite Hi|by rewrite Hc|done]. }
    change (usable (enter _ (at_frame cid (tx_ledger x) t)) f s)
      with (usable (at_frame cid (tx_ledger x) t) f s) in Hsp. unfold usable_at in *. lia.
  - assert (usable_at cid (tx_ledger x) t1 f s = usable_at cid (tx_ledger x) t f s) as Hu1.
    { unfold usable_at. f_equal. apply usable_same; [done..|]. intros c k.
      change (led (at_frame _ _ ?t)) with (led t). by rewrite Hr. }
    lia.
Qed.

(** An allowance of some amount can be used in full up to and including the ledger
    named in its approval and not at all after it, as long as nothing else touches it and
    no approval before it had named that ledger or a later one. *)
Theorem sac_allowance_lifetime asset au f s n live (t t' : Tok) v li' :
  invoke au (Sac.CApprove f s n live) t = (Ok v, t') → token_asset t = Some asset →
  in_u32 (sequence_number (info t)) → 0 < n → 0 < live →
  (∀ a, stored_allowance t f s = Some a → live_until_ledger a < live) →
  usable (at_frame (contract t) li' t') f s = if decide (sequence_number li' <= live) then n else 0.
Proof.
  intros H Ha Hseq Hn Hpos Hold. apply (invoke_effect strkey asset_contract_id asset) in H; [|done..].
  destruct H as (_ & _ & t1 & t2 & Hq & (Hp & _ & Hl) & Hq2). destruct (Hl Hn) as (Hle & Hst & Hlu).
  assert (stored_allowance t1 f s = stored_allowance t f s) as Hsame.
  { unfold stored_allowance, live_entry. rewrite (ac_contract _ _ _ Hq), (ac_info _ _ _ Hq).
    unfold allowance_key, storage_key. by rewrite (ac_temp _ _ _ Hq). }
  destruct Hlu as (en & lu & Hen & Hlive); [by rewrite Hsame|done|].
  rewrite (ac_contract _ _ _ Hq) in *. change (contract (enter au t)) with (contract t) in *.
  assert (led t' !! allowance_key (contract t) f s = Some (en, Some lu)) as Hen'.
  { unfold allowance_key, storage_key in *. by rewrite (ac_temp _ _ _ Hq2). }
  unfold usable, stored_allowance, live_entry in *. change (led (at_frame _ _ t')) with (led t').
  change (contract (at_frame (contract t) _ _)) with (contract t). change (info (at_frame _ li' _)) with li'.
  rewrite Hen'. rewrite (pk_contract _ _ _ Hp), (ac_contract _ _ _ Hq) in Hst.
  change (contract (enter au t)) with (contract t) in Hst. rewrite Hen in Hst.
  destruct (decide (sequence_number (info t2) <= lu)); [|done].
  destruct (decide (sequence_number li' <= live)) as [Hl'|Hl'].
  - rewrite decide_True by lia. destruct en as [| |d| |]; try done. rewrite Hst. simpl.
    by rewrite decide_False by lia.
  - destruct (decide (sequence_number li' <= lu)); [|done]. destruct en as [| |d| |]; try done.
    rewrite Hst. simpl. by rewrite decide_True by lia.
Qed.

(** ** The administrator *)

(** The asset a contract stands for is fixed; minting, clawing back, (de)authorizing
    and naming a new administrator need the signature of the stored one; he changes only
    when he names another, and initialization never succeeds again. *)
Theorem sac_admin_rules asset au c (t t' : Tok) v :
  invoke au c t = (Ok v, t') → token_asset t = Some asset → in_u32 (sequence_number (info t)) →
  token_asset t' = Some asset ∧
  (token_admin t' = token_admin t ∨ ∃ a, c = Sac.CSetAdmin a ∧ token_admin t' = Some a) ∧
  match c with
  | Sac.CInit _ => False
  | Sac.CMint _ _ | Sac.CClawback _ _ | Sac.CSetAuthorized _ _ | Sac.CSetAdmin _ =>
      ∃ admin, token_admin t = Some admin ∧ admin ∈ au
  | _ => True
  end.
Proof.
  intros H Ha Hseq. apply (invoke_effect strkey asset_contract_id asset) in H; [|done..].
  destruct (effect_asset _ _ _ _ H) as (Hi & _ & _ & Had). split; [|split].
  - unfold token_asset. rewrite Hi. exact Ha.
  - destruct Had as [?|(a & -> & _ & ?)]; [by left|right; eauto].
  - destruct c; simpl in H; try done; by destruct_and? H.
Qed.

(** ** Answers *)

(** The calls that ask answer with what is stored: the balance is what the address
    holds, or all there can be for the issuer; the allowance is what the spender may
    still use; an address is authorized if it may move funds; and asking changes no entry. *)
Theorem sac_answers asset au c (t t' : Tok) v :
  invoke au c t = (Ok v, t') → token_asset t = Some asset →
  match c with
  | Sac.CBalance a => v = ScI128 (shown_balance asset (contract t) (entries t) a) ∧ quiet (enter au t) t'
  | Sac.CAllowance f s => v = ScI128 (usable t f s) ∧ quiet (enter au t) t'
  | Sac.CAuthorized a => v = ScBool (may_move asset (contract t) (entries t) a) ∧ quiet (enter au t) t'
  | Sac.CAdmin => ∃ a, v = ScAddr a ∧ token_admin t = Some a ∧ t' = enter au t
  | Sac.CDecimals => v = ScU32 7 ∧ t' = enter au t
  | _ => True
  end.
Proof.
  intros H%invoke_ok Ha. destruct c; try done; simpl in H;
    apply m_bind_ok in H as (r & t1 & Hr & H); injection H as <- <-.
  - by apply allowance_ok in Hr as [? ->].
  - by apply (balance_ok asset) in Hr as [? ->].
  - by apply (authorized_ok asset) in Hr as [? ->].
  - apply read_administrator_ok in Hr as [-> Hr]. by exists r.
  - by injection Hr as <- <-.
Qed.
End props.

(** * Evaluated *)

Definition sac_sent : Tok := (sac_do {[ann]} (Sac.CTransfer ann shop 200) sac_open).2.
Lemma sac_sent_ok : sac_do {[ann]} (Sac.CTransfer ann shop 200) sac_open = (Ok ScVoid, sac_sent).
Proof. apply sac_result. vm_compute. reflexivity. Qed.

Lemma sac_holdings_witness :
  delta usd (Sac.CTransfer ann shop 200) ann = -200 ∧
  (holding usd (contract sac_open) (entries sac_sent) ann =
     holding usd (contract sac_open) (entries sac_open) ann + delta usd (Sac.CTransfer ann shop 200) ann ∧
   (delta usd (Sac.CTransfer ann shop 200) ann ≠ 0 →
    within_limits usd (info sac_open) (contract sac_open) (entries sac_open) ann
      (holding usd (contract sac_open) (entries sac_sent) ann))) ∧
  holding usd (contract sac_open) (entries sac_sent) shop =
    holding usd (contract sac_open) (entries sac_open) shop + delta usd (Sac.CTransfer ann shop 200) shop.
Proof.
  pose proof (sac_holdings sac_strkey sac_id usd {[ann]} (Sac.CTransfer ann shop 200) sac_open sac_sent (Ok ScVoid)
    sac_sent_ok sac_open_asset sac_seq) as H.
  split; [vm_compute; reflexivity|]. split; [exact (H ann)|exact (proj1 (H shop))].
Defined.

Definition demo_log : list (tx * Result ScVal) := (run sac_strkey sac_id 50%N txs_demo sac_open).1.
Definition demo_after : Tok := (run sac_strkey sac_id 50%N txs_demo sac_open).2.
Lemma demo_ran : run sac_strkey sac_id 50%N txs_demo sac_open = (demo_log, demo_after).
Proof. unfold demo_log, demo_after. by destruct (run _ _ _ _ _). Qed.

Lemma sac_supply_witness :
  issued_by usd demo_log = 960 ∧
  total usd 50%N [ann; ben; shop; bank] (entries demo_after) =
    total usd 50%N [ann; ben; shop; bank] (entries sac_open) + issued_by usd demo_log.
Proof.
  split; [vm_compute; reflexivity|].
  apply (sac_supply sac_strkey sac_id usd 50%N [ann; ben; shop; bank] txs_demo sac_open demo_after demo_log).
  - exact demo_ran.
  - exact sac_open_asset.
  - apply (bool_decide_unpack _). vm_compute. reflexivity.
  - unfold txs_demo, in_u32. repeat (apply List.Forall_cons; [split; simpl; [set_solver|unfold u32_max; lia]|]). constructor.
Defined.

Lemma sac_spending_rules_witness :
  may_move usd (contract sac_open) (entries sac_open) ann = true ∧
    (ann ∈ ({[ann]} : gset ScAddress) ∧ (∃ n, Sac.CTransfer ann shop 200 = Sac.CBurn ann n ∨
        ∃ b, Sac.CTransfer ann shop 200 = Sac.CTransfer ann b n) ∨
     ∃ s n, s ∈ ({[ann]} : gset ScAddress) ∧ (Sac.CTransfer ann shop 200 = Sac.CBurnFrom s ann n ∨
        ∃ b, Sac.CTransfer ann shop 200 = Sac.CTransferFrom s ann b n) ∧
       n <= usable sac_open ann s ∧ usable sac_sent ann s = usable sac_open ann s - n) ∨
  clawbackable usd (contract sac_open) (entries sac_open) ann = true ∧
    ∃ n admin, Sac.CTransfer ann shop 200 = Sac.CClawback ann n ∧ token_admin sac_open = Some admin ∧
      admin ∈ ({[ann]} : gset ScAddress).
Proof.
  apply (sac_spending_rules sac_strkey sac_id usd {[ann]} (Sac.CTransfer ann shop 200) sac_open sac_sent ScVoid ann).
  - exact sac_sent_ok.
  - exact sac_open_asset.
  - exact sac_seq.
  - vm_compute. reflexivity.
Defined.

Lemma sac_allowance_history_witness :
  sum_ok (spends ann ben) demo_log <= usable_at 50%N sac_li sac_open ann ben + sum_ok (approves ann ben) demo_log.
Proof.
  apply (sac_allowance_history sac_strkey sac_id usd 50%N ann ben sac_li txs_demo sac_open demo_after demo_log).
  - exact demo_ran.
  - exact sac_open_asset.
  - simpl. unfold in_u32, u32_max. simpl. lia.
Defined.

Definition sac_approved : Tok := (sac_do {[ann]} (Sac.CApprove ann ben 100 150) sac_open).2.
Lemma sac_approved_ok : sac_do {[ann]} (Sac.CApprove ann ben 100 150) sac_open = (Ok ScVoid, sac_approved).
Proof. apply sac_result. vm_compute. reflexivity. Qed.
Definition sac_at (n : Z) : LedgerInfo := mkLedgerInfo 22 n 1000 7%N 10 16 4096 6312000.
Lemma sac_allowance_lifetime_witness :
  usable (at_frame (contract sac_open) (sac_at 150) sac_approved) ann ben = 100.
Proof.
  apply (sac_allowance_lifetime sac_strkey sac_id usd {[ann]} ann ben 100 150 sac_open sac_approved ScVoid (sac_at 150)).
  - exact sac_approved_ok.
  - exact sac_open_asset.
  - exact sac_seq.
  - lia.
  - lia.
  - assert (stored_allowance sac_open ann ben = None) as -> by (vm_compute; reflexivity). discriminate.
Defined.

Definition sac_handed : Tok := (sac_do {[bank]} (Sac.CSetAdmin ann) sac_open).2.
Lemma sac_handed_ok : sac_do {[bank]} (Sac.CSetAdmin ann) sac_open = (Ok ScVoid, sac_handed).
Proof. apply sac_result. vm_compute. reflexivity. Qed.
Lemma sac_admin_rules_witness :
  token_asset sac_handed = Some usd ∧
  (token_admin sac_handed = token_admin sac_open ∨
     ∃ a, Sac.CSetAdmin ann = Sac.CSetAdmin a ∧ token_admin sac_handed = Some a) ∧
  ∃ admin, token_admin sac_open = Some admin ∧ admin ∈ ({[bank]} : gset ScAddress).
Proof.
  exact (sac_admin_rules sac_strkey sac_id usd {[bank]} (Sac.CSetAdmin ann) sac_open sac_handed ScVoid
    sac_handed_ok sac_open_asset sac_seq).
Defined.

Definition sac_asked : Tok := (sac_do ∅ (Sac.CBalance ann) sac_open).2.
Lemma sac_asked_ok : sac_do ∅ (Sac.CBalance ann) sac_open = (Ok (ScI128 500), sac_asked).
Proof. apply sac_result. vm_compute. reflexivity. Qed.
Lemma sac_answers_witness :
  ScI128 500 = ScI128 (shown_balance usd (contract sac_open) (entries sac_open) ann) ∧
  quiet (enter ∅ sac_open) sac_asked.
Proof.
  exact (sac_answers sac_strkey sac_id usd ∅ (Sac.CBalance ann) sac_open sac_asked (ScI128 500)
    sac_asked_ok sac_open_asset).
Defined.

(** ** An allowance that ends early *)

(** Revoking with a later date and approving again: the entry keeps the lifetime of the
    first approval, and the allowance of 100 up to ledger 200 is gone at 150. *)
Definition sac_shortened : Tok :=
  (sac_do {[ann]} (Sac.CApprove ann ben 100 200)
    (sac_do {[ann]} (Sac.CApprove ann ben 0 300)
      (sac_do {[ann]} (Sac.CApprove ann ben 100 120) sac_open).2).2).2.

Lemma sac_allowance_shortened :
  (sac_do {[ann]} (Sac.CApprove ann ben 100 200)
    (sac_do {[ann]} (Sac.CApprove ann ben 0 300)
      (sac_do {[ann]} (Sac.CApprove ann ben 100 120) sac_open).2).2).1 = Ok ScVoid ∧
  stored_allowance sac_shortened ann ben = Some (mkAllowanceValue 100 200) ∧
  usable (at_frame 50%N (sac_at 120) sac_shortened) ann ben = 100 ∧
  usable (at_frame 50%N (sac_at 150) sac_shortened) ann ben = 0.
Proof. vm_compute. done. Qed.
