(* ===== verification/TokenInit.v ===== *)
(** The asset contract's start: what initialization stores, that names tell assets apart,
    and that balances stay well typed. *)
From Stdlib Require Import Ascii.
From S2P Require Import Prelude ScVal Storage Host AccountAuth TokenData TokenBalance Token Env.
From S2P Require Import TokenSpec TokenCalls TokenEffects TokenThms TokenProps.
#[local] Open Scope m_scope.
#[local] Open Scope string_scope.
#[local] Arguments dec {T} c v : simpl never.
#[local] Arguments enc {T} c x : simpl never.

(** * Codes *)

Fixpoint all_chars (p : ascii → bool) (s : string) : bool :=
  match s with "" => true | String c s => p c && all_chars p s end.
Fixpoint zeros (n : nat) : string :=
  match n with O => "" | Datatypes.S n => String zero (zeros n) end.

Lemma byte_of_zero c : byte_of c = 0 → c = zero.
Proof.
  unfold byte_of. intros H. rewrite <-(ascii_N_embedding c). replace (N_of_ascii c) with 0%N by lia. done.
Qed.

Lemma length_append s r : String.length (s ++ r) = (String.length s + String.length r)%nat.
Proof. induction s; simpl; auto. Qed.
Lemma length_zeros n : String.length (zeros n) = n.
Proof. induction n; simpl; auto. Qed.

(** A code that passes is letters and digits and then only zeros. *)
Lemma scan_zeros code k m : scan_asset_code code true k = Ok m → code = zeros (String.length code) ∧ m = k.
Proof.
  revert k. induction code as [|c code IH]; intros k; simpl; [by intros [= ->]|].
  destruct (decide (byte_of c = 0)) as [->%byte_of_zero|]; [|done]. intros [-> ->]%IH. by rewrite length_zeros.
Qed.
Lemma scan_ok code k m :
  scan_asset_code code false k = Ok m →
  ∃ body z, code = body ++ zeros z ∧ all_chars is_ascii_alphanumeric body = true ∧
    m = k + Z.of_nat (String.length body).
Proof.
  revert k. induction code as [|c code IH]; intros k; simpl.
  - intros [= ->]. exists "", 0%nat. split_and!; [done|done|]. simpl. lia.
  - destruct (decide (byte_of c = 0)) as [->%byte_of_zero|].
    + intros [Hz ->]%scan_zeros. exists "", (Datatypes.S (String.length code)). simpl. rewrite <-Hz. split_and!; [done|done|lia].
    + destruct (is_ascii_alphanumeric c) eqn:Hc; [|by rewrite orb_true_r]. rewrite orb_false_r.
      destruct (bool_decide _); [done|]. intros (body & z & -> & Hall & ->)%IH.
      exists (String c body), z. simpl. rewrite Hc. split_and!; [done|done|lia].
Qed.

Lemma alnum_byte c : is_ascii_alphanumeric c = true →
  byte_of c ≠ 0 ∧ ¬ (byte_of c = 58 ∨ byte_of c = 92 ∨ byte_of c <= 0x20 ∨ 0x7f <= byte_of c).
Proof. unfold is_ascii_alphanumeric. rewrite bool_decide_eq_true. lia. Qed.

Lemma render_body len i body z :
  all_chars is_ascii_alphanumeric body = true →
  z = 0%nat ∨ len = 4%nat ∨ len = 12%nat ∧ (4 < i + String.length body)%nat →
  render_bytes len i (body ++ zeros z) = body.
Proof.
  revert i. induction body as [|c body IH]; intros i Hall Hz; simpl in *.
  - destruct z as [|z]; [done|]. simpl. rewrite decide_True; [done|]. split; [done|]. lia.
  - apply andb_true_iff in Hall as [Hc Hall]. apply alnum_byte in Hc as [Hc1 Hc2].
    rewrite decide_False by tauto. rewrite decide_False by exact Hc2. f_equal. apply IH; [done|]. lia.
Qed.

(** What is rendered of a valid code, and the code from it. *)
Lemma render_valid code s n :
  validate_asset_code code = Ok tt → String.length code = n → n = 4%nat ∨ n = 12%nat →
  render_sep0011_asset_code code = Ok s →
  all_chars is_ascii_alphanumeric s = true ∧ code = s ++ zeros (n - String.length s) ∧
  (n = 4%nat ↔ (String.length s <= 4)%nat).
Proof.
  unfold validate_asset_code, render_sep0011_asset_code. intros Hv Hn Hn' Hr.
  destruct (scan_asset_code code false 0) as [m|] eqn:Hs; [|done].
  apply scan_ok in Hs as (body & z & -> & Hall & ->).
  assert (String.length (body ++ zeros z) = (String.length body + z)%nat) as Hlen
    by (by rewrite length_append, length_zeros).
  repeat case_decide; try done. injection Hr as <-. rewrite Hlen in *.
  rewrite render_body by (done || lia). split; [done|]. split; [do 2 f_equal; lia|]. lia.
Qed.

Fixpoint has_colon (s : string) : bool :=
  match s with "" => false | String c s => bool_decide (c = ":"%char) || has_colon s end.

Lemma alnum_no_colon s : all_chars is_ascii_alphanumeric s = true → has_colon s = false.
Proof.
  induction s as [|c s IH]; simpl; [done|]. intros [Hc Hs]%andb_true_iff. rewrite IH by done.
  rewrite orb_false_r. apply bool_decide_eq_false. by intros ->.
Qed.
Lemma has_colon_app s r : has_colon (s ++ ":" ++ r) = true.
Proof. induction s as [|c s IH]; [done|]. simpl in *. by rewrite IH, orb_true_r. Qed.

Lemma colon_split s1 s2 r1 r2 :
  has_colon s1 = false → has_colon s2 = false → s1 ++ ":" ++ r1 = s2 ++ ":" ++ r2 → s1 = s2 ∧ r1 = r2.
Proof.
  revert s2. induction s1 as [|c1 s1 IH]; intros [|c2 s2]; simpl; intros H1 H2 He.
  - by injection He.
  - injection He as <- _. done.
  - injection He as -> _. done.
  - apply orb_false_iff in H1 as [_ H1], H2 as [_ H2]. injection He as -> He.
    by apply IH in He as [-> ->].
Qed.

(** * Initialization *)

Section init.
Context (strkey : N → string) (asset_contract_id : Asset → Hash).

Definition admin_of (asset : Asset) (before : option ScAddress) : option ScAddress :=
  match issuer_of asset with Some k => Some (Account k) | None => before end.
Definition info_of_asset (asset : Asset) : AssetInfo :=
  match asset with
  | Native => InfoNative
  | CreditAlphanum4 code issuer => AlphaNum4 (mkAlphaNum code issuer)
  | CreditAlphanum12 code issuer => AlphaNum12 (mkAlphaNum code issuer)
  end.

Lemma name_sized asset ns : name_and_symbol strkey (info_of_asset asset) = Ok ns →
  asset_of_info (info_of_asset asset) = Ok asset.
Proof.
  destruct asset; simpl; [done|..]; unfold render_sep0011_asset;
    destruct (to_array _ _) as [c|] eqn:Hc; try done; simpl; intros _;
    unfold to_array in Hc; case_decide; by simplify_eq.
Qed.

Lemma init_ok asset (t t' : Tok) :
  Sac.init_asset strkey asset_contract_id asset t = (Ok tt, t') →
  token_info t = None ∧ validate_asset asset = Ok tt ∧ contract t = asset_contract_id asset ∧
  led t' = led t ∧ token_asset t' = Some asset ∧ token_admin t' = admin_of asset (token_admin t) ∧
  ∃ ns, name_and_symbol strkey (info_of_asset asset) = Ok ns ∧
    instance_storage t' !! METADATA_KEY = Some (enc metadataC (mkMetadata DECIMAL ns.1 ns.2)).
Proof.
  unfold Sac.init_asset. intros (b & t1 & Hs & H)%m_bind_ok. injection Hs as <- <-.
  destruct (instance_storage t !! instance_data_key AssetInfoKey) eqn:Hnone; [done|].
  rewrite bool_decide_false in H by (by intros [? ?]).
  apply m_bind_ok in H as ([] & t1 & [Hval ->]%m_lift_ok & H).
  apply m_bind_ok in H as (t1 & t2 & Hg & H). injection Hg as <- <-.
  destruct (decide (h_contract (sac_host t) ≠ asset_contract_id asset)) as [|Hid]; [done|].
  apply dec_stable in Hid. apply m_bind_ok in H as ([] & t1 & Hw & H).
  unfold set_metadata in H. apply m_bind_ok in H as (i & t2 & [-> Hi]%read_asset_info_ok & H).
  apply m_bind_ok in H as (ns & t2 & [Hns ->]%m_lift_ok & H). injection H as <-.
  split; [unfold token_info; by rewrite Hnone|]. split; [done|]. split; [done|].
  assert (led t1 = led t ∧ i = info_of_asset asset ∧ token_admin t1 = admin_of asset (token_admin t)) as (Hl & -> & Had).
  { assert (dec assetInfoC (enc assetInfoC (info_of_asset asset)) = Some (info_of_asset asset)) as Hrt by apply dec_enc.
    unfold token_info in Hi. destruct asset as [|c k|c k]; simpl in Hw, Hrt |- *.
    - injection Hw as <-. simpl in Hi. rewrite lookup_insert_eq in Hi. simpl in Hi. split; [done|].
      split; [congruence|]. unfold token_admin. simpl. by rewrite lookup_insert_ne.
    - apply m_bind_ok in Hw as ([] & t2 & Hw1 & Hw). injection Hw1 as <-. injection Hw as <-.
      simpl in Hi. rewrite lookup_insert_eq in Hi. simpl in Hi. split; [done|]. split; [congruence|].
      unfold token_admin. simpl. rewrite lookup_insert_ne, lookup_insert_eq by done. simpl. apply dec_enc.
    - apply m_bind_ok in Hw as ([] & t2 & Hw1 & Hw). injection Hw1 as <-. injection Hw as <-.
      simpl in Hi. rewrite lookup_insert_eq in Hi. simpl in Hi. split; [done|]. split; [congruence|].
      unfold token_admin. simpl. rewrite lookup_insert_ne, lookup_insert_eq by done. simpl. apply dec_enc. }
  split; [done|]. split; [|split].
  - unfold token_asset, token_info in *. simpl. rewrite lookup_insert_ne by done. rewrite Hi. simpl.
    by rewrite (name_sized _ _ Hns).
  - unfold token_admin in *. simpl. by rewrite lookup_insert_ne.
  - exists ns. split; [done|]. simpl. apply lookup_insert_eq.
Qed.

#[local] Abbreviation invoke := (Sac.invoke strkey asset_contract_id).

Lemma exec_init asset au (t t' : Tok) v :
  invoke au (Sac.CInit asset) t = (Ok v, t') →
  Sac.init_asset strkey asset_contract_id asset (enter au t) = (Ok tt, t').
Proof. intros ([] & H)%invoke_ok%returning_ok. done. Qed.

(** The name a contract gives. *)
Lemma name_answer au (t t' : Tok) v md :
  invoke au Sac.CName t = (Ok v, t') → instance_storage t !! METADATA_KEY = Some (enc metadataC md) →
  v = ScString (md_name md).
Proof.
  intros H%invoke_ok Hm. simpl in H. apply m_bind_ok in H as (nm & t1 & Hn & H). injection H as <- _.
  unfold Sac.name, read_name, read_metadata in Hn. apply m_bind_ok in Hn as (m & t2 & Hx & Hn).
  injection Hn as <- _. apply m_bind_ok in Hx as (raw & t3 & [-> Hr]%instance_get_ok & Hx).
  apply m_lift_ok in Hx as [Hx%from_val_ok _]. change (instance_storage (enter au t)) with (instance_storage t) in Hr.
  assert (raw = enc metadataC md) as -> by congruence. rewrite dec_enc in Hx. by injection Hx as <-.
Qed.

Lemma symbol_of_name asset ns :
  validate_asset asset = Ok tt → name_and_symbol strkey (info_of_asset asset) = Ok ns →
  asset = Native ∧ ns.1 = "native" ∨
  ∃ n code issuer, (asset = CreditAlphanum4 code issuer ∧ n = 4%nat ∨ asset = CreditAlphanum12 code issuer ∧ n = 12%nat) ∧
    ns.1 = ns.2 ++ ":" ++ strkey issuer ∧ all_chars is_ascii_alphanumeric ns.2 = true ∧
    code = ns.2 ++ zeros (n - String.length ns.2) ∧ (n = 4%nat ↔ (String.length ns.2 <= 4)%nat).
Proof.
  assert (∀ n code issuer, render_sep0011_asset strkey n code issuer = Ok ns → validate_asset_code code = Ok tt →
    n = 4%nat ∨ n = 12%nat → ns.1 = ns.2 ++ ":" ++ strkey issuer ∧ all_chars is_ascii_alphanumeric ns.2 = true ∧
    code = ns.2 ++ zeros (n - String.length ns.2) ∧ (n = 4%nat ↔ (String.length ns.2 <= 4)%nat)) as Hr.
  { intros n code issuer H Hval Hn. unfold render_sep0011_asset, to_array in H.
    destruct (decide (String.length code = n)) as [Hlen|]; [|done].
    destruct (render_sep0011_asset_code code) as [s|] eqn:Hs; [|done]. injection H as <-. simpl.
    by destruct (render_valid code s n Hval Hlen Hn Hs) as (? & ? & ?). }
  destruct asset as [|code k|code k]; simpl; intros Hval H; [left; by injection H as <-|right..].
  - exists 4%nat, code, k. destruct (Hr _ _ _ H Hval) as (? & ? & ? & ?); auto.
  - exists 12%nat, code, k. destruct (Hr _ _ _ H Hval) as (? & ? & ? & ?); auto.
Qed.

(** A contract can be initialized with an asset only if it was not before, the code is
    well formed and the address is the one derived from the asset; it then stands for just
    this asset, and its administrator is the issuer. *)
Theorem sac_init_binds asset au (t t' : Tok) v :
  invoke au (Sac.CInit asset) t = (Ok v, t') →
  token_info t = None ∧ validate_asset asset = Ok tt ∧ contract t = asset_contract_id asset ∧
  token_asset t' = Some asset ∧ led t' = led t ∧
  token_admin t' = match issuer_of asset with Some k => Some (Account k) | None => token_admin t end.
Proof. intros (H1 & H2 & H3 & H4 & H5 & H6 & _)%exec_init%init_ok. auto 8. Qed.

(** The name a contract answers with tells which asset it stands for: two contracts
    that were initialized and give the same name were initialized with the same asset, as
    long as different keys have different strkeys. *)
Theorem sac_names_unique a1 a2 au1 au2 au (t1 t1' t2 t2' u1 u2 : Tok) v1 v2 name :
  (∀ k1 k2, strkey k1 = strkey k2 → k1 = k2) →
  invoke au1 (Sac.CInit a1) t1 = (Ok v1, t1') → invoke au Sac.CName t1' = (Ok name, u1) →
  invoke au2 (Sac.CInit a2) t2 = (Ok v2, t2') → invoke au Sac.CName t2' = (Ok name, u2) →
  a1 = a2.
Proof.
  intros Hinj (_ & Hv1 & _ & _ & _ & _ & ns1 & Hn1 & Hm1)%exec_init%init_ok N1
    (_ & Hv2 & _ & _ & _ & _ & ns2 & Hn2 & Hm2)%exec_init%init_ok N2.
  pose proof (name_answer _ _ _ _ _ N1 Hm1) as E1. pose proof (name_answer _ _ _ _ _ N2 Hm2) as E2.
  rewrite E1 in E2. injection E2 as Hname. clear - Hinj Hv1 Hn1 Hv2 Hn2 Hname.
  destruct (symbol_of_name _ _ Hv1 Hn1) as [[-> H1]|(n1 & c1 & k1 & Ha1 & H1 & Hal1 & -> & Hi1)];
    destruct (symbol_of_name _ _ Hv2 Hn2) as [[-> H2]|(n2 & c2 & k2 & Ha2 & H2 & Hal2 & -> & Hi2)].
  - done.
  - exfalso. pose proof (has_colon_app ns2.2 (strkey k2)) as Hc. by rewrite <-H2, <-Hname, H1 in Hc.
  - exfalso. pose proof (has_colon_app ns1.2 (strkey k1)) as Hc. by rewrite <-H1, Hname, H2 in Hc.
  - rewrite H1, H2 in Hname. apply colon_split in Hname as [Hs Hk%Hinj]; [|by apply alnum_no_colon..].
    rewrite Hs, Hk in *. destruct Ha1 as [[-> ->]|[-> ->]], Ha2 as [[-> ->]|[-> ->]]; [done|lia|lia|done].
Qed.
End init.

(** * Well-typed balances *)

(** Every balance of a contract is stored as one, from zero up to the largest [i128]; every
    trust line holds from zero to the largest [i64] and owes nothing negative. *)
Definition balances_typed (asset : Asset) (cid : Hash) (E : Entries) : Prop :=
  (∀ c en, E !! balance_key cid (Contract c) = Some en →
     ∃ d b, en = EContractData d ∧ dec balanceC (cde_val d) = Some b ∧ 0 <= amount b <= i128_max) ∧
  (∀ k en, E !! KTrustline k asset = Some en →
     ∃ tl, en = ETrustline tl ∧ 0 <= tl_balance tl <= i64_max ∧
       match tl_liabilities tl with Some l => 0 <= buying l ∧ 0 <= selling l | None => True end).

Lemma balances_typed_ext asset cid E E' :
  nontemp_same E E' → balances_typed asset cid E → balances_typed asset cid E'.
Proof. intros He [H1 H2]. split; [intros c en|intros k en]; rewrite He by done; eauto. Qed.

Lemma stored_balance_typed asset cid E c b :
  balances_typed asset cid E → stored_balance cid E (Contract c) = Some b → 0 <= amount b <= i128_max.
Proof.
  intros [H _]. unfold stored_balance. destruct (E !! balance_key cid (Contract c)) as [en|] eqn:He; [|done].
  destruct (H _ _ He) as (d & b' & -> & Hd & Hb). rewrite Hd. by intros [= <-].
Qed.

Lemma typed_insert_balance asset cid E c e b :
  balances_typed asset cid E → cde_val e = enc balanceC b → 0 <= amount b <= i128_max →
  balances_typed asset cid (<[balance_key cid (Contract c) := EContractData e]> E).
Proof.
  intros [H1 H2] He Hb. split; [intros c' en|intros k en].
  - destruct (decide (c = c')) as [<-|Hne].
    + rewrite lookup_insert_eq. intros [= <-]. exists e, b. by rewrite He, dec_enc.
    + rewrite lookup_insert_ne by (intros Hk%balance_key_inj; congruence). apply H1.
  - rewrite lookup_insert_ne by done. apply H2.
Qed.
Lemma typed_insert_trustline asset cid E k tl :
  balances_typed asset cid E → 0 <= tl_balance tl <= i64_max →
  match tl_liabilities tl with Some l => 0 <= buying l ∧ 0 <= selling l | None => True end →
  balances_typed asset cid (<[KTrustline k asset := ETrustline tl]> E).
Proof.
  intros [H1 H2] Hb Hl. split; [intros c en|intros k' en].
  - rewrite lookup_insert_ne by done. apply H1.
  - destruct (decide (k = k')) as [<-|Hne].
    + rewrite lookup_insert_eq. intros [= <-]. eauto.
    + rewrite lookup_insert_ne by congruence. apply H2.
Qed.
Lemma typed_insert_account asset cid E k ae :
  balances_typed asset cid E → balances_typed asset cid (<[KAccount k := EAccount ae]> E).
Proof.
  intros [H1 H2]. split; [intros c en|intros k' en]; rewrite lookup_insert_ne by done; [apply H1|apply H2].
Qed.

Lemma moved_typed asset li cid n E a E' :
  moved asset li cid n E a E' → balances_typed asset cid E → balances_typed asset cid E'.
Proof.
  destruct 1 as [k Hi|k ae lo hi Hi HE _ _ _|k tl lo hi Hi Hk HE Hr Hb Hi64|c v e Hv Hi128 Hneg He|c -> Hc];
    intros Ht; [done|by apply typed_insert_account| | |done].
  - destruct (proj2 Ht _ _ HE) as (tl' & [= <-] & Htl & Hl). apply typed_insert_trustline; [done| |done].
    simpl. unfold get_min_max_trustline_balance, in_i64 in *. case_decide; [done|].
    destruct (tl_liabilities tl); [case_decide; [done|]|].
    + destruct (i64_or_panic _ _); [|done]. injection Hr as <- <-. lia.
    + injection Hr as <- <-. lia.
  - eapply typed_insert_balance; [done|exact He|]. simpl. unfold in_i128 in Hi128.
    assert (0 <= amount v) by (destruct Hv as [Hv|(_ & -> & _)]; [by eapply stored_balance_typed in Hv as [? _]|done]).
    destruct (decide (n < 0)); [specialize (Hneg ltac:(done))|]; lia.
Qed.

Lemma sent_typed asset t a b n t' :
  sent asset t a b n t' → balances_typed asset (contract t) (entries t) → balances_typed asset (contract t) (entries t').
Proof.
  intros (_ & E1 & E2 & H1 & _ & H2 & Ha) Ht. rewrite (ac_entries _ _ _ Ha).
  eapply moved_typed; [exact H2|]. by eapply moved_typed.
Qed.
Lemma burnt_typed asset t a n t' :
  burnt asset t a n t' → balances_typed asset (contract t) (entries t) → balances_typed asset (contract t) (entries t').
Proof. intros (E & H1 & Ha) Ht. rewrite (ac_entries _ _ _ Ha). by eapply moved_typed. Qed.

Lemma reflagged_typed asset cid E b a E' :
  reflagged asset cid E b a E' → balances_typed asset cid E → balances_typed asset cid E'.
Proof.
  destruct 1 as [a|k tl f HE|c v e Hv He]; intros Ht; [done| |].
  - destruct (proj2 Ht _ _ HE) as (tl' & [= <-] & Htl & Hl). by apply typed_insert_trustline.
  - eapply typed_insert_balance; [done|exact He|]. simpl.
    destruct Hv as [Hv|[_ ->]]; [by eapply stored_balance_typed in Hv|done].
Qed.

Lemma effect_typed asset c t t' :
  effect asset c t t' → balances_typed asset (contract t) (entries t) → balances_typed asset (contract t) (entries t').
Proof.
  assert (∀ t1 t2, quiet t1 t2 → entries t2 = entries t1) as Hquiet by (by intros ? ? []).
  destruct c; simpl; intros H Ht; try done; try (by rewrite (Hquiet _ _ H)).
  - destruct H as (_ & _ & t1 & t2 & Hq & (Hp & _) & Hq2). rewrite (Hquiet _ _ Hq2).
    eapply balances_typed_ext; [|exact Ht]. rewrite <-(Hquiet _ _ Hq). intros key Hk. by eapply pokes_entries.
  - destruct H as (_ & _ & H). by eapply sent_typed.
  - destruct H as (_ & _ & t1 & t2 & Hq & Hsp & H).
    destruct (spent_before _ _ _ _ _ _ Hq Hsp) as (_ & Hc & _ & _ & He & _). rewrite <-Hc in *.
    eapply sent_typed; [exact H|]. by eapply balances_typed_ext.
  - destruct H as (_ & _ & _ & _ & H). by eapply burnt_typed.
  - destruct H as (_ & _ & _ & t1 & t2 & Hq & Hsp & _ & H).
    destruct (spent_before _ _ _ _ _ _ Hq Hsp) as (_ & Hc & _ & _ & He & _). rewrite <-Hc in *.
    eapply burnt_typed; [exact H|]. by eapply balances_typed_ext.
  - destruct H as (_ & _ & _ & _ & H). by eapply burnt_typed.
  - destruct H as (_ & _ & _ & E & (_ & _ & HE) & Ha). rewrite (ac_entries _ _ _ Ha). by eapply reflagged_typed.
  - destruct H as (_ & _ & _ & _ & H). by eapply burnt_typed.
  - destruct H as (_ & _ & _ & t1 & Hq & _ & _ & Hl). unfold entries in *. rewrite Hl.
    by rewrite (Hquiet _ _ Hq).
Qed.

(** C37: over every history of calls, in transactions of any ledgers, balances stay well
    typed: those of contracts are stored as such and between zero and the largest [i128],
    those of accounts between zero and the largest [i64]. *)
Theorem sac_balances_typed strkey asset_contract_id asset cid xs (t t' : Tok) log :
  run strkey asset_contract_id cid xs t = (log, t') → token_asset t = Some asset →
  Forall (λ x, in_u32 (sequence_number (tx_ledger x))) xs →
  balances_typed asset cid (entries t) → balances_typed asset cid (entries t').
Proof.
  revert t log. induction xs as [|x xs IH]; intros t log H Ha Hxs Ht.
  { by injection H as _ <-. }
  apply Forall_cons in Hxs as [Hseq Hxs]. apply run_cons in H as (r & t1 & log' & Hi & H & ->).
  apply (run_step _ _ asset) in Hi as [Ha1 Hr]; [|done..]. eapply (IH _ _ H Ha1 Hxs). destruct r as [v|e].
  - destruct Hr as (He & _). by apply effect_typed in He.
  - unfold entries. by rewrite Hr.
Qed.

(** * Evaluated *)

Lemma sac_init_binds_witness : token_asset sac_open = Some usd ∧ token_admin sac_open = Some bank.
Proof.
  destruct (sac_init_binds sac_strkey sac_id usd ∅ sac_new sac_open ScVoid
    sac_open_ok) as (_ & _ & _ & H1 & _ & H2).
  split; [exact H1|exact H2].
Defined.

(** Strkeys that tell all keys apart. *)
Definition ones_strkey (k : N) : string := zeros (N.to_nat k).
Definition sac_named : Tok := (Sac.invoke ones_strkey sac_id ∅ (Sac.CInit usd) sac_new).2.

Lemma ones_strkey_inj k1 k2 : ones_strkey k1 = ones_strkey k2 → k1 = k2.
Proof. unfold ones_strkey. intros H%(f_equal String.length). rewrite !length_zeros in H. lia. Qed.
Lemma named_result : ∃ name u, Sac.invoke ones_strkey sac_id ∅ Sac.CName sac_named = (Ok name, u).
Proof.
  destruct (Sac.invoke ones_strkey sac_id ∅ Sac.CName sac_named) as [[name|e] u] eqn:H; [by exists name, u|].
  exfalso. apply (f_equal fst) in H. vm_compute in H. discriminate H.
Qed.
Lemma named_init : Sac.invoke ones_strkey sac_id ∅ (Sac.CInit usd) sac_new = (Ok ScVoid, sac_named).
Proof.
  unfold sac_named. destruct (Sac.invoke ones_strkey sac_id ∅ (Sac.CInit usd) sac_new) as [r u] eqn:H.
  apply (f_equal fst) in H. vm_compute in H. simpl in *. by rewrite H.
Qed.
Lemma sac_names_unique_witness : usd = usd.
Proof.
  destruct named_result as (name & u & Hu).
  exact (sac_names_unique ones_strkey sac_id usd usd ∅ ∅ ∅ sac_new sac_named sac_new sac_named u u
    ScVoid ScVoid name ones_strkey_inj named_init Hu named_init Hu).
Defined.

Lemma sac_open_typed : balances_typed usd 50%N (entries sac_open).
Proof.
  assert (led sac_open = sac_ledger) as Hl.
  { by destruct (init_ok _ _ _ _ _ (exec_init _ _ _ _ _ _ _ sac_open_ok)) as (_ & _ & _ & Hl & _). }
  unfold entries. rewrite Hl. unfold sac_ledger. split.
  - intros c en. rewrite lookup_fmap. unfold balance_key, storage_key.
    rewrite !lookup_insert_ne by done. by rewrite lookup_empty.
  - intros k en. rewrite lookup_fmap. rewrite 2!lookup_insert_ne by done.
    destruct (decide (k = 1%N)) as [->|H1].
    { rewrite lookup_insert_eq. intros [= <-]. eexists. split; [done|]. simpl. unfold i64_max. lia. }
    rewrite lookup_insert_ne by congruence. destruct (decide (k = 2%N)) as [->|H2].
    { rewrite lookup_insert_eq. intros [= <-]. eexists. split; [done|]. simpl. unfold i64_max. lia. }
    by rewrite lookup_insert_ne, lookup_empty by congruence.
Qed.

Lemma sac_balances_typed_witness : balances_typed usd 50%N (entries demo_after).
Proof.
  apply (sac_balances_typed sac_strkey sac_id usd 50%N txs_demo sac_open demo_after demo_log).
  - exact demo_ran.
  - exact sac_open_asset.
  - unfold txs_demo, in_u32, u32_max. repeat (apply List.Forall_cons; [simpl; lia|]). constructor.
  - exact sac_open_typed.
Defined.
