(* ===== verification/Access.v ===== *)
(** What a contract program can do to the real storage: [Kept] lists what a relation
    must satisfy to be kept by every program; behind an enforced footprint entries
    that may only be read keep their value ([guarded]), lifetimes stay known
    ([stays_timed]), and in recording mode the map has every key of the footprint
    ([stays_full]). *)
From S2P Require Import Prelude ScVal Storage Host.
#[local] Open Scope m_scope.

(** * Programs that keep a relation *)
Section within.
Context {S : Type} (R : S → S → Prop) `{!PreOrder R}.

Definition within {A} (p : M S A) : Prop := ∀ s, R s (p s).2.

Lemma within_ret {A} (a : A) : within (m_ret a).
Proof. intros s. simpl. done. Qed.
Lemma within_fail {A} e : within (m_fail (A:=A) e).
Proof. intros s. simpl. done. Qed.
Lemma within_lift {A} (r : Result A) : within (m_lift r).
Proof. intros s. simpl. done. Qed.
Lemma within_get : within m_get.
Proof. intros s. simpl. done. Qed.
Lemma within_bind {A B} (p : M S A) (f : A → M S B) : within p → (∀ a, within (f a)) → within (m_bind p f).
Proof.
  intros Hp Hf s. unfold m_bind. specialize (Hp s). destruct (p s) as [[a|e] s1]; [|done].
  etrans; [exact Hp|apply Hf].
Qed.
Lemma within_bind_ok {A B} (p : M S A) (f : A → M S B) :
  within p → (∀ s a s1, p s = (Ok a, s1) → R s1 (f a s1).2) → within (m_bind p f).
Proof.
  intros Hp Hf s. unfold m_bind. specialize (Hp s). destruct (p s) as [[a|e] s1] eqn:Hs; [|done].
  etrans; [exact Hp|by eapply Hf].
Qed.
End within.

(** * Programs on the real storage

    A relation that reading a key, writing it and raising a stored lifetime keep is kept
    by every contract program. *)

(** A value is written without a lifetime only where the storage has an entry without. *)
Definition lifetime_known (s : Storage) (key : LedgerKey) (val : option EntryWithLiveUntil) : Prop :=
  match val with Some (_, None) => ∃ e, smap s !! key = Some (Some (e, None)) | _ => True end.

Record Kept (R : Storage → Storage → Prop) : Prop := {
  kept_get : ∀ key, within R (try_get_full key);
  kept_put : ∀ s key val, lifetime_known s key val → R s (put_opt key val s).2;
  kept_extend : ∀ s key e old new, smap s !! key = Some (Some (e, Some old)) → old < new →
    R s (set_smap (<[key := Some (e, Some new)]> (smap s)) s)
}.

(** What was read is what the storage then has for the key. *)
Lemma get_live_cached li key s e s' :
  get_with_live_until_ledger li key s = (Ok e, s') → smap s' !! key = Some (Some e).
Proof.
  unfold get_with_live_until_ledger, try_get_full_with_host; simpl. unfold try_get_full.
  unfold m_bind, m_lift, m_get, m_ret. destruct (check_supported_ledger_key_type key); [|done].
  destruct (prepare_read_only_access key s) as [[]  s1]; [|done].
  destruct (smap s1 !! key) as [o|] eqn:Hk; [|done]. simpl.
  destruct (check_if_entry_is_live li key o) as [[]|]; [| |done]; simpl; [|done].
  destruct o as [v|]; simpl; [|done]. intros [= -> <-]. done.
Qed.

Lemma lifetime_known_kept s key e e' : smap s !! key = Some (Some e) → lifetime_known s key (Some (e', e.2)).
Proof. destruct e as [e [n|]]; simpl; [done|]. by eexists. Qed.

Section kept.
Context (R : Storage → Storage → Prop) `{!PreOrder R} (HR : Kept R).

Create HintDb kept.
Lemma kept_try_get key : within R (try_get_full key).
Proof. apply HR. Qed.
#[local] Hint Resolve within_ret within_fail within_lift within_get kept_try_get : kept.
Ltac solve_kept :=
  repeat first
    [ solve [auto with kept typeclass_instances]
    | apply within_ret; apply _ | apply within_fail; apply _ | apply within_lift; apply _ | apply within_get; apply _
    | apply within_bind; [apply _| |intros]
    | case_match ].

Section host.
Context (li : LedgerInfo).

Lemma kept_try_get_with_host key : within R (try_get_full_with_host li key).
Proof. unfold try_get_full_with_host; simpl. solve_kept. Qed.
#[local] Hint Resolve kept_try_get_with_host : kept.
Lemma kept_get_with_host key : within R (get_with_host li key).
Proof. unfold get_with_host. solve_kept. Qed.
Lemma kept_get_live key : within R (get_with_live_until_ledger li key).
Proof. unfold get_with_live_until_ledger. solve_kept. Qed.
Lemma kept_has_with_host key : within R (has_with_host li key).
Proof. unfold has_with_host. solve_kept. Qed.
Lemma kept_put_opt_with_host s key val : lifetime_known s key val → R s (put_opt_with_host li key val s).2.
Proof.
  intros Hval. unfold put_opt_with_host; simpl. unfold m_bind, m_get, m_lift.
  destruct (smap s !! key) as [o|]; [|by apply HR]. destruct (check_if_entry_is_live li key o); [by apply HR|done].
Qed.
Lemma kept_put_some key e n : within R (put_with_host li key e (Some n)).
Proof. intros s. by apply kept_put_opt_with_host. Qed.
Lemma kept_del_with_host key : within R (del_with_host li key).
Proof. intros s. by apply kept_put_opt_with_host. Qed.
#[local] Hint Resolve kept_get_with_host kept_get_live kept_has_with_host kept_put_some kept_del_with_host : kept.

(** Replacing the value of an entry that was read, whatever its lifetime. *)
Lemma kept_update {A} key (f : EntryWithLiveUntil → M Storage A) :
  (∀ e, (∀ s, smap s !! key = Some (Some e) → R s (f e s).2)) →
  within R (m_bind (get_with_live_until_ledger li key) f).
Proof.
  intros Hf. apply within_bind_ok; [apply _|apply kept_get_live|]. intros s0 e s Hk%get_live_cached. by apply Hf.
Qed.

(** Extending goes around the footprint, but only raises a lifetime. *)
Lemma kept_extend_ttl key threshold extend_to : within R (extend_ttl li key threshold extend_to).
Proof.
  unfold extend_ttl. apply within_bind; [apply _|solve_kept|intros _].
  apply within_bind; [apply _|solve_kept|intros _].
  apply kept_update. intros [en lu] s Hk. simpl.
  unfold m_bind, m_lift. destruct lu as [old|]; [|done]. simpl.
  destruct (decide (old < sequence_number li)); [done|]. simpl.
  destruct (target_live_until li key extend_to) as [new|]; [|done].
  destruct (decide _) as [[Hlt _]|]; [|done]. simpl. by apply (kept_extend R HR _ _ _ old).
Qed.
End host.
#[local] Hint Resolve kept_get_with_host kept_get_live kept_has_with_host kept_put_some kept_del_with_host
  kept_extend_ttl : kept.

Lemma kept_put_contract_data li cid k v d : within R (put_contract_data li cid k v d).
Proof.
  unfold put_contract_data. apply within_bind; [apply _|solve_kept|intros has]. destruct has; [|solve_kept].
  apply kept_update. intros e s Hk. destruct e.1; try done. apply kept_put_opt_with_host, lifetime_known_kept, Hk.
Qed.
Lemma kept_get_contract_data li cid k d : within R (get_contract_data li cid k d).
Proof. unfold get_contract_data. solve_kept. Qed.
Lemma kept_retrieve li key : within R (retrieve_contract_instance li key).
Proof. unfold retrieve_contract_instance. solve_kept. Qed.
#[local] Hint Resolve kept_put_contract_data kept_get_contract_data kept_retrieve : kept.
Lemma kept_extend_instance li cid a b : within R (extend_current_contract_instance_and_code_ttl li cid a b).
Proof. unfold extend_current_contract_instance_and_code_ttl, extend_contract_code_ttl_from_contract_id. solve_kept. Qed.
Lemma kept_store_instance li cid w key : within R (store_contract_instance li w cid key).
Proof.
  unfold store_contract_instance. apply within_bind; [apply _|solve_kept|intros has]. destruct has; [|solve_kept].
  apply kept_update. intros e s Hk. destruct e.1 as [| |entry| |]; try done. destruct (cde_val entry); try done.
  apply kept_put_opt_with_host, lifetime_known_kept, Hk.
Qed.
#[local] Hint Resolve kept_extend_instance kept_store_instance : kept.
Lemma kept_create_contract li cid X w salt : within R (create_contract li cid X w salt).
Proof. unfold create_contract, create_contract_with_id, wasm_exists. solve_kept. Qed.
#[local] Hint Resolve kept_create_contract : kept.

(** The relation on the storage of a host. *)
Definition host_kept (h h' : Host Storage) : Prop := R (h_storage h) (h_storage h').
#[local] Instance host_kept_preorder : PreOrder host_kept.
Proof. split; [intros h; unfold host_kept; done|]. intros h1 h2 h3 H1 H2. unfold host_kept in *. by etrans. Qed.

Lemma kept_on_storage {A} (p : LedgerInfo → Hash → M Storage A) :
  (∀ li cid, within R (p li cid)) → within host_kept (on_storage p).
Proof.
  intros Hp h. unfold on_storage, host_kept. specialize (Hp (h_ledger h) (h_contract h) (h_storage h)).
  by destruct (p _ _ _).
Qed.

Lemma kept_handle X {T} (o : op T) : within host_kept (handle X o).
Proof.
  destruct o; simpl;
    try (apply kept_on_storage; intros; unfold has_contract_data, del_contract_data, extend_contract_data_ttl; solve_kept);
    intros h; unfold host_kept; simpl; done.
Qed.

Lemma kept_run X {A} (p : prog A) : within host_kept (run X p).
Proof.
  induction p as [a|e|T o k IH]; simpl; [apply within_ret; apply _|apply within_fail; apply _|].
  apply within_bind; [apply _|apply kept_handle|intros r; apply IH].
Qed.

(** A successful call keeps the relation, having no rollback. *)
Lemma kept_invoke X auths {A} (p : prog A) h a : (invoke X auths p h).1 = Ok a →
  R (h_storage h) (h_storage (invoke X auths p h).2).
Proof.
  unfold invoke, with_frame.
  pose proof (kept_run X p (mkHost (h_storage h) (h_ledger h) (h_contract h) auths (h_events h))) as Hr.
  unfold host_kept in Hr. simpl in Hr. by destruct (run X p _) as [[b|e] h'].
Qed.
End kept.

(** * Behind a footprint *)

(** What becomes of an entry that may only be read: at most its lifetime grows. *)
Definition entry_kept (o o' : option EntryWithLiveUntil) : Prop :=
  o' = o ∨ ∃ e lu lu', o = Some (e, Some lu) ∧ o' = Some (e, Some lu') ∧ lu <= lu'.

Lemma entry_kept_refl o : entry_kept o o.
Proof. by left. Qed.
Lemma entry_kept_trans o1 o2 o3 : entry_kept o1 o2 → entry_kept o2 o3 → entry_kept o1 o3.
Proof.
  intros [->|(e & lu & lu' & -> & -> & Hle)]; [done|]. intros [->|(e' & a & b & [= <- <-] & -> & Hle')].
  - right. eauto 6.
  - right. exists e, lu, b. split; [done|]. split; [done|]. lia.
Qed.

(** The storage has an entry or an absence for every key of its footprint. *)
Definition populated (s : Storage) : Prop := ∀ k, is_Some (footprint s !! k) → is_Some (smap s !! k).

Definition guarded (s s' : Storage) : Prop :=
  mode s = Enforcing → populated s → mode s' = Enforcing ∧ footprint s' = footprint s ∧ dom (smap s') = dom (smap s) ∧
  ∀ k, footprint s !! k = Some ReadOnly →
    ∃ o o', smap s !! k = o ∧ smap s' !! k = o' ∧ (o = o' ∨ ∃ v v', o = Some v ∧ o' = Some v' ∧ entry_kept v v').

Lemma populated_dom s s' : populated s → footprint s' = footprint s → dom (smap s') = dom (smap s) → populated s'.
Proof. intros Hp Hf Hd k. rewrite Hf. intros H%Hp%elem_of_dom. apply elem_of_dom. by rewrite Hd. Qed.

#[export] Instance guarded_preorder : PreOrder guarded.
Proof.
  split.
  - intros s Hm Hp. split_and!; [done..|]. intros k _. exists (smap s !! k), (smap s !! k). auto.
  - intros s1 s2 s3 H12 H23 Hm Hp. destruct (H12 Hm Hp) as (Hm2 & Hf2 & Hd2 & Hro2).
    assert (populated s2) as Hp2 by (by eapply populated_dom).
    destruct (H23 Hm2 Hp2) as (Hm3 & Hf3 & Hd3 & Hro3). split_and!; [done|congruence|congruence|].
    intros k Hk. destruct (Hro2 k Hk) as (o & o' & <- & <- & Ho).
    destruct (Hro3 k) as (o2 & o3 & <- & <- & Ho'); [by rewrite Hf2|].
    exists (smap s1 !! k), (smap s3 !! k). split; [done|]. split; [done|].
    destruct Ho as [Ho|(v & v' & Hv & Hv' & Hk1)]; [by rewrite Ho|].
    destruct Ho' as [Ho'|(w & w' & Hw & Hw' & Hk2)]; [right; rewrite <-Ho'; eauto 6|].
    right. exists v, w'. split; [done|]. split; [done|]. eapply entry_kept_trans; [exact Hk1|congruence].
Qed.

Lemma guarded_set_smap s m :
  (mode s = Enforcing → populated s → dom m = dom (smap s) ∧
     ∀ k, footprint s !! k = Some ReadOnly → m !! k = smap s !! k ∨
       ∃ v v', smap s !! k = Some v ∧ m !! k = Some v' ∧ entry_kept v v') →
  guarded s (set_smap m s).
Proof.
  intros Hm He Hp. destruct (Hm He Hp) as [Hd Hk]. split_and!; [done..|]. intros k Hro.
  exists (smap s !! k), (m !! k). split; [done|]. split; [done|].
  destruct (Hk k Hro) as [->|(v & v' & Hv & Hv' & Hvv)]; [by left|right; eauto 6].
Qed.

Lemma prepare_guarded key : within guarded (prepare_read_only_access key).
Proof.
  intros s. unfold prepare_read_only_access, m_bind, m_get. simpl.
  destruct (mode s) as [src|] eqn:Hm; [|done].
  intros He. exfalso. congruence.
Qed.
Lemma try_get_full_guarded key : within guarded (try_get_full key).
Proof.
  unfold try_get_full. apply within_bind; [apply _|apply within_lift; apply _|intros _].
  apply within_bind; [apply _|apply prepare_guarded|intros _].
  apply within_bind; [apply _|apply within_get; apply _|intros s]. case_match; [apply within_ret|apply within_fail]; apply _.
Qed.

(** Writing needs a key that may be written. *)
Lemma write_guarded key val :
  within guarded
    (let* s := m_get in
     match mode s with
     | Recording _ => m_modify (set_footprint (Footprint.record_access (footprint s) key ReadWrite))
     | Enforcing => m_lift (Footprint.enforce_access (footprint s) key ReadWrite)
     end ;;;
     m_modify (λ s, set_smap (<[key := val]> (smap s)) s)).
Proof.
  intros s. unfold m_bind, m_get, m_lift, m_modify. simpl.
  destruct (mode s) as [src|] eqn:Hm; [intros He; exfalso; congruence|].
  destruct (Footprint.enforce_access (footprint s) key ReadWrite) eqn:Ha; [|done]. simpl.
  unfold Footprint.enforce_access in Ha. destruct (footprint s !! key) as [[]|] eqn:Hk; try done.
  apply guarded_set_smap. intros _ Hpop. split.
  - rewrite dom_insert_L. assert (key ∈ dom (smap s)); [|set_solver]. apply elem_of_dom, Hpop. by rewrite Hk.
  - intros k Hro. left. rewrite lookup_insert_ne; [done|]. intros ->. congruence.
Qed.
Lemma put_opt_guarded key val : within guarded (put_opt key val).
Proof.
  unfold put_opt. apply within_bind; [apply _|apply within_lift; apply _|intros _].
  apply within_bind; [apply _|destruct val; [apply within_lift|apply within_ret]; apply _|intros _]. apply write_guarded.
Qed.

Lemma extend_guarded s key e old new : smap s !! key = Some (Some (e, Some old)) → old < new →
  guarded s (set_smap (<[key := Some (e, Some new)]> (smap s)) s).
Proof.
  intros Hk Hlt. apply guarded_set_smap. intros _ _. split.
  - rewrite dom_insert_L. assert (key ∈ dom (smap s)) by (apply elem_of_dom; by rewrite Hk). set_solver.
  - intros k _. destruct (decide (k = key)) as [->|Hne].
    + right. exists (Some (e, Some old)), (Some (e, Some new)). rewrite lookup_insert_eq. split; [done|].
      split; [done|]. right. exists e, old, new. split_and!; [done..|lia].
    + left. by rewrite lookup_insert_ne.
Qed.

Lemma guarded_kept : Kept guarded.
Proof. split; [apply try_get_full_guarded|intros s key val _; apply put_opt_guarded|apply extend_guarded]. Qed.

(** Whatever a contract does, entries it may only read keep their value; a failed call is
    rolled back. *)
Lemma invoke_guarded X auths {A} (p : prog A) h :
  guarded (h_storage h) (h_storage (invoke X auths p h).2).
Proof.
  unfold invoke, with_frame.
  pose proof (kept_run guarded guarded_kept X p (mkHost (h_storage h) (h_ledger h) (h_contract h) auths (h_events h))) as Hr.
  unfold host_kept in *. simpl in Hr. destruct (run X p _) as [[a|e] h']; [exact Hr|]. simpl in *.
  intros Hm Hp. destruct (Hr Hm Hp) as (Hm' & Hf & Hd & _). simpl. split_and!; [done|done|done|].
  intros k _. exists (smap (h_storage h) !! k), (smap (h_storage h) !! k). auto.
Qed.

(** * Lifetimes *)

(** An entry, if there is one, has a lifetime. *)
Definition timed (o : option EntryWithLiveUntil) : Prop :=
  match o with Some (_, lu) => is_Some lu | None => True end.

(** Contract data and code behind an enforced footprint keep having lifetimes. *)
Definition all_timed (s : Storage) : Prop :=
  mode s = Enforcing ∧ ∀ k o, smap s !! k = Some o → is_Some (get_key_durability k) → timed o.
Definition stays_timed (s s' : Storage) : Prop := all_timed s → all_timed s'.
#[export] Instance stays_timed_preorder : PreOrder stays_timed.
Proof. split; [intros s H; done|]. intros s1 s2 s3 H12 H23 H. auto. Qed.

Lemma insert_timed s key o : timed o → stays_timed s (set_smap (<[key := o]> (smap s)) s).
Proof.
  intros Ho [Hm Ht]. split; [done|]. intros k o' Hk. simpl in Hk. destruct (decide (key = k)) as [->|Hne].
  - rewrite lookup_insert_eq in Hk. by injection Hk as <-.
  - rewrite lookup_insert_ne in Hk by done. by apply Ht.
Qed.

Lemma put_opt_timed s key val : lifetime_known s key val → stays_timed s (put_opt key val s).2.
Proof.
  intros Hval [Hm Ht]. unfold put_opt, m_bind, m_lift, m_get, m_modify, m_ret.
  destruct (check_supported_ledger_key_type key); [|done].
  destruct (match val with Some le => _ | None => _ end) as [r s1] eqn:Hs.
  assert (s1 = s) as -> by (destruct val; by simplify_eq). clear Hs. destruct r; [|done]. simpl. rewrite Hm.
  destruct (Footprint.enforce_access _ _ _); [|done]. simpl. split; [done|]. intros k o Hk Hd. simpl in Hk.
  destruct (decide (key = k)) as [->|Hne].
  - rewrite lookup_insert_eq in Hk. injection Hk as <-. destruct val as [[e [n|]]|]; [by eexists| |done].
    destruct Hval as [e' He]. by apply (Ht k (Some (e', None))).
  - rewrite lookup_insert_ne in Hk by done. by eapply Ht.
Qed.

Lemma timed_kept : Kept stays_timed.
Proof.
  split.
  - intros key s [Hm Ht]. unfold try_get_full, prepare_read_only_access, m_bind, m_lift, m_get.
    destruct (check_supported_ledger_key_type key); [|done]. rewrite Hm.
    destruct (Footprint.enforce_access _ _ _); [|done]. simpl. by destruct (smap s !! key).
  - intros s key val. apply put_opt_timed.
  - intros s key e old new _ _. apply insert_timed. by eexists.
Qed.

(** * Recording *)

(** As long as nothing is rolled back, what is in the footprint is in the map, if the
    source answers for every key. *)
Definition recording_full (s : Storage) : Prop :=
  populated s ∧ ∃ src, mode s = Recording src ∧ ∀ k, ∃ o, src k = Ok o.
Definition stays_full (s s' : Storage) : Prop := recording_full s → recording_full s'.
#[export] Instance stays_full_preorder : PreOrder stays_full.
Proof. split; [intros s H; done|]. intros s1 s2 s3 H12 H23 H. auto. Qed.

Lemma record_insert_full s key ty o :
  stays_full s (set_smap (<[key := o]> (smap s)) (set_footprint (Footprint.record_access (footprint s) key ty) s)).
Proof.
  intros [Hp Hsrc]. split; [|exact Hsrc]. intros k Hk. simpl in *. destruct (decide (key = k)) as [->|Hne].
  - rewrite lookup_insert_eq. by eexists.
  - rewrite lookup_insert_ne by done. apply Hp. unfold Footprint.record_access in Hk.
    destruct (footprint s !! key) as [[]|]; destruct ty; by rewrite ?lookup_insert_ne in Hk.
Qed.

Lemma full_kept : Kept stays_full.
Proof.
  split.
  - intros key s Hs. pose proof (record_insert_full s key ReadOnly) as Hrec. pose proof Hs as [Hp (src & Hm & Hsrc)].
    unfold try_get_full, prepare_read_only_access, m_bind, m_lift, m_get, m_modify.
    destruct (check_supported_ledger_key_type key); [|done]. rewrite Hm. simpl.
    destruct (smap s !! key) as [o|] eqn:Hk; simpl.
    + rewrite Hk. simpl. specialize (Hrec o Hs). rewrite insert_id in Hrec by done.
      destruct Hrec as [Hp' _]. split; [exact Hp'|]. simpl. eauto.
    + destruct (Hsrc key) as [o Ho]. rewrite Ho. simpl. rewrite lookup_insert_eq. simpl. by apply Hrec.
  - intros s key val _ Hs. pose proof Hs as [_ (src & Hm & _)].
    unfold put_opt, m_bind, m_lift, m_get, m_modify, m_ret.
    destruct (check_supported_ledger_key_type key); [|done].
    destruct (match val with Some le => _ | None => _ end) as [r s1] eqn:Hr.
    assert (s1 = s) as -> by (destruct val; by simplify_eq). clear Hr. destruct r; [|done]. simpl. rewrite Hm. simpl.
    by apply (record_insert_full s key ReadWrite).
  - intros s key e old new Hk _ [Hp Hsrc]. split; [|exact Hsrc]. intros k Hfp. simpl in *.
    destruct (decide (key = k)) as [->|Hne]; [rewrite lookup_insert_eq; by eexists|].
    rewrite lookup_insert_ne by done. by apply Hp.
Qed.
