(* ===== verification/Replay.v ===== *)
(** Recording and replaying: the footprint a program leaves in recording mode is enough
    for the same program to do the same behind that footprint, enforced. *)
From S2P Require Import Prelude ScVal Storage Host Access.
#[local] Open Scope m_scope.

(** ** Footprints *)

(** [F] allows whatever [f] lists. *)
Definition allows (f F : gmap LedgerKey AccessType) : Prop := ∀ k ty, f !! k = Some ty →
  match ty with ReadOnly => is_Some (F !! k) | ReadWrite => F !! k = Some ReadWrite end.

#[export] Instance allows_preorder : PreOrder allows.
Proof.
  split.
  - intros f k [] Hk; [by eexists|done].
  - intros f g h Hfg Hgh k ty Hk. specialize (Hfg _ _ Hk). destruct ty.
    + destruct Hfg as [[] Hg]; specialize (Hgh _ _ Hg); [done|by rewrite Hgh].
    + exact (Hgh _ _ Hfg).
Qed.

Lemma allows_some f F k : allows f F → is_Some (f !! k) → is_Some (F !! k).
Proof. intros Ha [ty Hk]. specialize (Ha k ty Hk). destruct ty; [done|by rewrite Ha]. Qed.

Lemma record_allows f key ty : allows f (Footprint.record_access f key ty).
Proof.
  unfold Footprint.record_access. intros k t Hk.
  destruct (f !! key) as [[]|] eqn:Hkey; destruct ty; try (by destruct t; rewrite ?Hk; eauto);
    (destruct (decide (key = k)) as [->|Hne];
     [rewrite lookup_insert_eq; destruct t; [done|congruence]
     |rewrite lookup_insert_ne by done; rewrite Hk; by destruct t]).
Qed.

(** What was recorded is then allowed. *)
Lemma record_enforced f key ty F : allows (Footprint.record_access f key ty) F →
  Footprint.enforce_access F key ty = Ok tt ∧ is_Some (F !! key).
Proof.
  unfold Footprint.record_access, Footprint.enforce_access. intros Ha.
  assert (∀ g t, allows g F → g !! key = Some t →
    match t with ReadOnly => is_Some (F !! key) | ReadWrite => F !! key = Some ReadWrite end) as Hg
    by (intros g t Hg Hk; exact (Hg _ _ Hk)).
  destruct (f !! key) as [[]|] eqn:Hkey; destruct ty;
    repeat match goal with
    | Ha : allows (<[key:=?t]> _) F |- _ => pose proof (Hg _ t Ha (lookup_insert_eq _ _ _)); clear Ha
    | Ha : allows f F, Hk : f !! key = Some ?t |- _ => pose proof (Hg _ t Ha Hk); clear Ha
    end; simpl in *;
    repeat match goal with
    | H : is_Some _ |- _ => destruct H as [[] H]
    | H : F !! key = _ |- _ => rewrite H; clear H
    end; eauto.
Qed.

(** ** Storages *)
Section replay.
Context (li : LedgerInfo).

(** A recording storage that follows its source. *)
Definition recording (s : Storage) : Prop :=
  is_recording s = true ∧ storage_wf li s ∧ (∀ k, is_Some (smap s !! k) → is_Some (footprint s !! k)) ∧
  ∀ k, is_Some (footprint s !! k) → check_supported_ledger_key_type k = Ok tt.

(** The enforcing storage [e] knows of the keys of [F] what [s] knows. *)
Definition follows (F : gmap LedgerKey AccessType) (s e : Storage) : Prop :=
  mode e = Enforcing ∧ footprint e = F ∧ ∀ k,
    smap e !! k = if decide (is_Some (F !! k)) then Some (storage_view s k) else None.

Definition replays {A} (p : M Storage A) : Prop := ∀ s, recording s →
  mode (p s).2 = mode s ∧ recording (p s).2 ∧ allows (footprint s) (footprint (p s).2) ∧
  ∀ F e, allows (footprint (p s).2) F → follows F s e →
    (p e).1 = (p s).1 ∧ follows F (p s).2 (p e).2.

Lemma replays_ret {A} (a : A) : replays (m_ret a).
Proof. intros s Hs. simpl. split_and!; try done. Qed.
Lemma replays_fail {A} e : replays (m_fail (A:=A) e).
Proof. intros s Hs. simpl. split_and!; try done. Qed.
Lemma replays_lift {A} (r : Result A) : replays (m_lift r).
Proof. intros s Hs. simpl. split_and!; try done. Qed.

(** A composition, with what is known of the state in between. *)
Lemma replays_bind_ok {A B} (P : A → Storage → Prop) (p : M Storage A) (f : A → M Storage B) :
  replays p → (∀ s a s1, recording s → p s = (Ok a, s1) → P a s1) →
  (∀ a s1, recording s1 → P a s1 →
    mode (f a s1).2 = mode s1 ∧ recording (f a s1).2 ∧ allows (footprint s1) (footprint (f a s1).2) ∧
    ∀ F e, allows (footprint (f a s1).2) F → follows F s1 e →
      (f a e).1 = (f a s1).1 ∧ follows F (f a s1).2 (f a e).2) →
  replays (m_bind p f).
Proof.
  intros Hp HP Hf s Hs. unfold m_bind. specialize (Hp s Hs). pose proof (HP s) as HP'.
  destruct (p s) as [[a|err] s1] eqn:Hps; simpl in *.
  - destruct Hp as (Hm & Hr & Ha & Hsim). destruct (Hf a s1 Hr (HP' a s1 Hs eq_refl)) as (Hm2 & Hr2 & Ha2 & Hsim2).
    split; [congruence|]. split; [done|]. split; [by etrans|]. intros F e HF Hfol.
    destruct (Hsim F e) as [He1 He2]; [by etrans|done|]. destruct (p e) as [r e1]. simpl in *. subst r.
    by apply Hsim2.
  - destruct Hp as (Hm & Hr & Ha & Hsim). split_and!; [done..|]. intros F e HF Hfol.
    destruct (Hsim F e HF Hfol) as [He1 He2]. destruct (p e) as [r e1]. simpl in *. by subst r.
Qed.
Lemma replays_bind {A B} (p : M Storage A) (f : A → M Storage B) :
  replays p → (∀ a, replays (f a)) → replays (m_bind p f).
Proof. intros Hp Hf. apply (replays_bind_ok (λ _ _, True)); [done|done|]. intros a s1 Hr _. by apply Hf. Qed.

(** ** The operations of the storage *)

Lemma recording_src s : recording s → ∃ src, mode s = Recording src.
Proof. intros [Hr _]. unfold is_recording in Hr. destruct (mode s); [by eexists|done]. Qed.

Lemma view_cached s k v : smap s !! k = Some v → storage_view s k = v.
Proof. unfold storage_view. by intros ->. Qed.

Lemma record_supported f key ty : check_supported_ledger_key_type key = Ok tt →
  (∀ k, is_Some (f !! k) → check_supported_ledger_key_type k = Ok tt) →
  ∀ k, is_Some (Footprint.record_access f key ty !! k) → check_supported_ledger_key_type k = Ok tt.
Proof.
  intros Hkey Hf k. destruct (decide (key = k)) as [->|Hne]; [done|].
  unfold Footprint.record_access. destruct (f !! key) as [[]|]; destruct ty; try rewrite lookup_insert_ne by done; auto.
Qed.

(** Reading caches the value of a key, which was known before. *)
Lemma prepare_recording s key : recording s → check_supported_ledger_key_type key = Ok tt →
  let s' := (prepare_read_only_access key s).2 in
  (prepare_read_only_access key s).1 = Ok tt ∧ mode s' = mode s ∧ recording s' ∧
  footprint s' = Footprint.record_access (footprint s) key ReadOnly ∧
  smap s' !! key = Some (storage_view s key) ∧ ∀ k, storage_view s' k = storage_view s k.
Proof.
  intros Hs Hkey. destruct (recording_src s Hs) as [src Hsrc]. destruct Hs as (Hr & Hwf & Hc & Hsup).
  pose proof (record_supported (footprint s) key ReadOnly Hkey Hsup) as Hsup'.
  unfold prepare_read_only_access, m_bind, m_get, m_modify, m_lift. rewrite Hsrc. simpl.
  assert (∀ k, is_Some (footprint s !! k) → is_Some (Footprint.record_access (footprint s) key ReadOnly !! k)) as Hrec.
  { intros k. apply allows_some, record_allows. }
  assert (is_Some (Footprint.record_access (footprint s) key ReadOnly !! key)) as Hself
    by (eapply record_enforced, allows_preorder).
  pose proof Hwf as Hwf'. unfold storage_wf in Hwf'. rewrite Hsrc in Hwf'.
  destruct (smap s !! key) as [v|] eqn:Hk; simpl.
  - rewrite Hsrc. split_and!; try done.
    + split; [done|]. split; [unfold storage_wf; simpl; by rewrite Hsrc|]. split; [|exact Hsup'].
      intros k Hkk. by apply Hrec, Hc.
    + unfold storage_view. by rewrite Hk.
  - destruct (Hwf' key Hk) as (o & Ho & Hlive). rewrite Ho. simpl. rewrite Hsrc. split_and!; try done.
    + split; [done|]. split.
      * unfold storage_wf; simpl. rewrite Hsrc. intros k Hkk. apply Hwf'.
        destruct (decide (key = k)) as [->|]; [by rewrite lookup_insert_eq in Hkk|by rewrite lookup_insert_ne in Hkk].
      * split; [|exact Hsup']. intros k Hkk. simpl in *. destruct (decide (key = k)) as [->|]; [done|].
        rewrite lookup_insert_ne in Hkk by done. by apply Hrec, Hc.
    + rewrite lookup_insert_eq. unfold storage_view. by rewrite Hk, Hsrc, Ho.
    + intros k. unfold storage_view; simpl. destruct (decide (key = k)) as [->|].
      * rewrite lookup_insert_eq, Hk, Hsrc. by rewrite Ho.
      * by rewrite lookup_insert_ne.
Qed.

Lemma follows_view F s s' e : (∀ k, storage_view s' k = storage_view s k) → follows F s e → follows F s' e.
Proof. intros Hv (Hm & Hf & Hk). split_and!; [done..|]. intros k. by rewrite Hk, Hv. Qed.

Lemma replays_try_get key : replays (try_get_full key).
Proof.
  intros s Hs. unfold try_get_full, m_bind, m_lift, m_get.
  destruct (check_supported_ledger_key_type key) as [[]|] eqn:Hsup; [|by split_and!].
  destruct (prepare_recording s key Hs Hsup) as (Hok & Hm & Hr & Hf & Hc & Hv).
  destruct (prepare_read_only_access key s) as [r s1]. simpl in *. subst r. rewrite Hc. simpl.
  split_and!; [done..|rewrite Hf; apply record_allows|]. intros F e HF (Hme & Hfe & Hke).
  rewrite Hf in HF. destruct (record_enforced _ _ _ _ HF) as [Henf HFk].
  unfold prepare_read_only_access, m_bind, m_get, m_lift. rewrite Hme, Hfe, Henf. simpl.
  rewrite Hke, decide_True by done. simpl. split; [done|]. by eapply follows_view.
Qed.

(** What a write leaves. *)
Lemma write_recorded s key val : recording s → check_supported_ledger_key_type key = Ok tt →
  let s' := set_smap (<[key := val]> (smap s)) (set_footprint (Footprint.record_access (footprint s) key ReadWrite) s) in
  recording s' ∧ ∀ k, storage_view s' k = if decide (key = k) then val else storage_view s k.
Proof.
  intros Hs Hkey. destruct (recording_src s Hs) as [src Hsrc]. destruct Hs as (Hr & Hwf & Hc & Hsup). simpl.
  pose proof (record_supported (footprint s) key ReadWrite Hkey Hsup) as Hsup'.
  assert (∀ k, storage_view (set_smap (<[key:=val]> (smap s)) s) k = if decide (key = k) then val else storage_view s k) as Hv.
  { intros k. unfold storage_view. simpl. case_decide; [subst; by rewrite lookup_insert_eq|by rewrite lookup_insert_ne]. }
  split; [|exact Hv]. split; [done|]. split.
  - unfold storage_wf in *. simpl. rewrite Hsrc in *. intros k Hk. apply Hwf.
    destruct (decide (key = k)) as [->|]; [by rewrite lookup_insert_eq in Hk|by rewrite lookup_insert_ne in Hk].
  - split; [|exact Hsup']. intros k Hk. simpl in *. destruct (decide (key = k)) as [->|Hne].
    + eapply record_enforced, allows_preorder.
    + rewrite lookup_insert_ne in Hk by done. eapply allows_some; [apply record_allows|by apply Hc].
Qed.

Lemma follows_write F s s' e key val :
  follows F s e → is_Some (F !! key) → (∀ k, storage_view s' k = if decide (key = k) then val else storage_view s k) →
  follows F s' (set_smap (<[key := val]> (smap e)) e).
Proof.
  intros (Hm & Hf & Hk) HF Hv. split_and!; [done..|]. intros k. simpl. rewrite Hv.
  destruct (decide (key = k)) as [<-|Hne]; [by rewrite lookup_insert_eq, decide_True|by rewrite lookup_insert_ne].
Qed.

Lemma replays_put_opt key val : replays (put_opt key val).
Proof.
  unfold put_opt. apply (replays_bind_ok (λ _ _, check_supported_ledger_key_type key = Ok tt)); [apply replays_lift| |].
  { intros s [] s1 _. by intros [= -> _]. }
  intros [] s Hs Hkey. revert s Hs. apply replays_bind; [destruct val; [apply replays_lift|apply replays_ret]|intros _].
  intros s Hs. destruct (recording_src s Hs) as [src Hsrc]. destruct (write_recorded s key val Hs Hkey) as [Hr Hv].
  unfold m_bind, m_get, m_modify, m_lift. rewrite Hsrc. simpl. split_and!; [done|done|apply record_allows|].
  intros F e HF Hfol. destruct (record_enforced _ _ _ _ HF) as [Henf HFk].
  pose proof Hfol as (Hme & Hfe & Hke). rewrite Hme, Hfe, Henf. simpl. split; [done|]. by eapply follows_write.
Qed.

(** The check before a write looks at what is cached; what is not is live in the source. *)
Lemma replays_put_opt_with_host key val : replays (put_opt_with_host li key val).
Proof.
  intros s Hs. pose proof (replays_put_opt key val s Hs) as (Hm & Hr & Ha & Hsim).
  destruct (recording_src s Hs) as [src Hsrc]. pose proof Hs as (_ & Hwf & Hc & _).
  unfold storage_wf in Hwf. rewrite Hsrc in Hwf.
  unfold put_opt_with_host; simpl. unfold m_bind, m_get, m_lift.
  assert (∀ F e, follows F s e → is_Some (F !! key) ∨ smap s !! key = None →
    match smap e !! key with Some o => check_if_entry_is_live li key o | None => Ok true end =
    match smap s !! key with Some o => check_if_entry_is_live li key o | None => Ok true end) as Hsame.
  { intros F e (_ & _ & Hk) HF. rewrite Hk. case_decide as HFk.
    - destruct (smap s !! key) as [o|] eqn:Hkey; [by rewrite (view_cached _ _ _ Hkey)|].
      destruct (Hwf key Hkey) as (o & Ho & Hl). unfold storage_view. rewrite Hkey, Hsrc, Ho. exact Hl.
    - destruct HF as [HF|HF]; [done|by rewrite HF]. }
  destruct (smap s !! key) as [o|] eqn:Hkey.
  - destruct (check_if_entry_is_live li key o) as [b|err] eqn:Hl; simpl.
    + split_and!; [done..|]. intros F e HF Hfol. destruct (Hsim F e HF Hfol) as [He1 He2].
      assert (is_Some (F !! key)) as HFk.
      { eapply allows_some; [exact HF|]. eapply allows_some; [exact Ha|]. apply Hc. by rewrite Hkey. }
      specialize (Hsame F e Hfol (or_introl HFk)). destruct (smap e !! key) as [o'|]; [|done].
      by rewrite Hsame.
    + split_and!; [done..|]. intros F e HF Hfol.
      assert (is_Some (F !! key)) as HFk by (eapply allows_some; [exact HF|]; apply Hc; by rewrite Hkey).
      specialize (Hsame F e Hfol (or_introl HFk)). destruct (smap e !! key) as [o'|]; [|done].
      by rewrite Hsame.
  - simpl. split_and!; [done..|]. intros F e HF Hfol. destruct (Hsim F e HF Hfol) as [He1 He2].
    specialize (Hsame F e Hfol (or_intror eq_refl)). destruct (smap e !! key) as [o'|]; [|done].
    by rewrite Hsame.
Qed.

Create HintDb replays.
#[local] Hint Resolve replays_ret replays_fail replays_lift replays_try_get replays_put_opt
  replays_put_opt_with_host : replays.
Ltac solve_replays :=
  repeat first [ solve [auto with replays] | apply replays_bind; [|intros] | case_match ].

Lemma replays_try_get_with_host key : replays (try_get_full_with_host li key).
Proof. unfold try_get_full_with_host; simpl. solve_replays. Qed.
#[local] Hint Resolve replays_try_get_with_host : replays.
Lemma replays_get key : replays (get_with_host li key).
Proof. unfold get_with_host. solve_replays. Qed.
Lemma replays_get_live key : replays (get_with_live_until_ledger li key).
Proof. unfold get_with_live_until_ledger. solve_replays. Qed.
Lemma replays_has key : replays (has_with_host li key).
Proof. unfold has_with_host. solve_replays. Qed.
Lemma replays_put key v lu : replays (put_with_host li key v lu).
Proof. unfold put_with_host. solve_replays. Qed.
Lemma replays_del key : replays (del_with_host li key).
Proof. unfold del_with_host. solve_replays. Qed.
#[local] Hint Resolve replays_get replays_get_live replays_has replays_put replays_del : replays.

(** A cached entry is replaced, its key being in the footprint already. *)
Lemma insert_recorded s key v o : recording s → smap s !! key = Some o →
  recording (set_smap (<[key := Some v]> (smap s)) s) ∧
  ∀ F e, allows (footprint s) F → follows F s e →
    follows F (set_smap (<[key := Some v]> (smap s)) s) (set_smap (<[key := Some v]> (smap e)) e).
Proof.
  intros (Hr & Hwf & Hc & Hsup) Hk.
  destruct (write_recorded s key (Some v)) as [(_ & Hwf' & _) Hv]; [done|by apply Hsup, Hc; rewrite Hk|].
  split.
  - split; [done|]. split.
    { unfold storage_wf, is_recording in *. simpl in *. by destruct (mode s). }
    split; [|exact Hsup]. intros k Hkk. simpl in *. destruct (decide (key = k)) as [->|].
    + apply Hc. by rewrite Hk.
    + rewrite lookup_insert_ne in Hkk by done. by apply Hc.
  - intros F e HF Hfol. eapply follows_write; [exact Hfol| |exact Hv].
    eapply allows_some; [exact HF|]. apply Hc. by rewrite Hk.
Qed.

Lemma replays_extend_ttl key threshold extend_to : replays (extend_ttl li key threshold extend_to).
Proof.
  unfold extend_ttl. apply replays_bind; [solve_replays|intros _]. apply replays_bind; [solve_replays|intros _].
  apply (replays_bind_ok (λ e s, smap s !! key = Some (Some e))); [solve_replays| |].
  { intros s e s1 _. apply get_live_cached. }
  intros [en lu] s Hs Hk. unfold m_bind, m_lift, m_ret, m_fail, m_modify. simpl.
  destruct lu as [old|]; [|by split_and!]. simpl.
  destruct (decide (old < sequence_number li)); [by split_and!|]. simpl.
  destruct (target_live_until li key extend_to) as [new|]; [|by split_and!].
  destruct (decide _); [|by split_and!]. simpl.
  destruct (insert_recorded s key (en, Some new) _ Hs Hk) as [Hr Hsim]. split_and!; [done..|]. auto.
Qed.
End replay.

Create HintDb replays.
#[export] Hint Resolve replays_ret replays_fail replays_lift replays_get replays_get_live replays_has replays_put
  replays_del replays_extend_ttl : replays.
Ltac solve_replays :=
  repeat first [ solve [auto with replays] | apply replays_bind; [|intros] | case_match ].

(** * Contract programs *)
Section programs.
Context (li : LedgerInfo) (cid : Hash) (X : External).

Lemma replays_put_contract_data k v d : replays li (put_contract_data li cid k v d).
Proof. unfold put_contract_data. solve_replays. Qed.
Lemma replays_get_contract_data k d : replays li (get_contract_data li cid k d).
Proof. unfold get_contract_data. solve_replays. Qed.
Lemma replays_retrieve key : replays li (retrieve_contract_instance li key).
Proof. unfold retrieve_contract_instance. solve_replays. Qed.
#[local] Hint Resolve replays_retrieve : replays.
Lemma replays_extend_instance a b : replays li (extend_current_contract_instance_and_code_ttl li cid a b).
Proof. unfold extend_current_contract_instance_and_code_ttl, extend_contract_code_ttl_from_contract_id. solve_replays. Qed.
Lemma replays_create_contract w salt : replays li (create_contract li cid X w salt).
Proof.
  unfold create_contract, create_contract_with_id, wasm_exists, store_contract_instance. solve_replays.
Qed.
End programs.
#[export] Hint Resolve replays_put_contract_data replays_get_contract_data replays_extend_instance
  replays_create_contract : replays.

(** The same on hosts: what is not storage is equal. *)
Definition same_frame (h e : Host Storage) : Prop :=
  h_ledger e = h_ledger h ∧ h_contract e = h_contract h ∧ h_auths e = h_auths h ∧ h_events e = h_events h.

Definition host_replays {A} (p : M (Host Storage) A) : Prop := ∀ h, recording (h_ledger h) (h_storage h) →
  h_ledger (p h).2 = h_ledger h ∧ mode (h_storage (p h).2) = mode (h_storage h) ∧
  recording (h_ledger h) (h_storage (p h).2) ∧ allows (footprint (h_storage h)) (footprint (h_storage (p h).2)) ∧
  ∀ F e, allows (footprint (h_storage (p h).2)) F → follows F (h_storage h) (h_storage e) → same_frame h e →
    (p e).1 = (p h).1 ∧ follows F (h_storage (p h).2) (h_storage (p e).2) ∧ same_frame (p h).2 (p e).2.

Lemma host_replays_ret {A} (a : A) : host_replays (m_ret a).
Proof. intros h Hh. simpl. split_and!; done. Qed.
Lemma host_replays_fail {A} e : host_replays (m_fail (A:=A) e).
Proof. intros h Hh. simpl. split_and!; done. Qed.
Lemma host_replays_bind {A B} (p : M (Host Storage) A) (f : A → M (Host Storage) B) :
  host_replays p → (∀ a, host_replays (f a)) → host_replays (m_bind p f).
Proof.
  intros Hp Hf h Hh. unfold m_bind. destruct (Hp h Hh) as (Hl & Hm & Hr & Ha & Hsim).
  destruct (p h) as [[a|err] h1]; simpl in *.
  - rewrite <-Hl in Hr. destruct (Hf a h1 Hr) as (Hl2 & Hm2 & Hr2 & Ha2 & Hsim2). rewrite Hl in Hr2.
    split; [congruence|]. split; [congruence|]. split; [done|]. split; [by etrans|]. intros F e HF Hfol Hfr.
    destruct (Hsim F e) as (He1 & He2 & He3); [by etrans|done|done|].
    destruct (p e) as [r e1]. simpl in *. subst r. by apply Hsim2.
  - split_and!; [done..|]. intros F e HF Hfol Hfr. destruct (Hsim F e HF Hfol Hfr) as (He1 & He2 & He3).
    destruct (p e) as [r e1]. simpl in *. by subst r.
Qed.

Lemma on_storage_replays {A} (p : LedgerInfo → Hash → M Storage A) :
  (∀ li cid, replays li (p li cid)) → host_replays (on_storage p).
Proof.
  intros Hp h Hh. unfold on_storage. destruct (Hp (h_ledger h) (h_contract h) (h_storage h) Hh) as (Hm & Hr & Ha & Hsim).
  destruct (p (h_ledger h) (h_contract h) (h_storage h)) as [r s1] eqn:Hps. simpl in *.
  split_and!; [done..|]. intros F e HF Hfol (Hl & Hc & Hau & Hev). destruct (Hsim F (h_storage e) HF Hfol) as [He1 He2].
  rewrite Hl, Hc. destruct (p (h_ledger h) (h_contract h) (h_storage e)) as [r' e1]. simpl in *. by subst r'.
Qed.

Lemma handle_replays X {R} (o : op R) : host_replays (handle X o).
Proof.
  destruct o; simpl;
    try (apply on_storage_replays; intros; unfold has_contract_data, del_contract_data, extend_contract_data_ttl;
         solve_replays);
    intros h Hh; simpl; split_and!; try done; intros F e HF Hfol (Hl & Hc & Hau & Hev); simpl;
    rewrite ?Hl, ?Hc, ?Hau, ?Hev; split_and!; try done; unfold same_frame; simpl; by rewrite ?Hl, ?Hc, ?Hau, ?Hev.
Qed.

Lemma run_replays X {A} (p : prog A) : host_replays (run X p).
Proof.
  induction p as [a|e|R o k IH]; simpl; [apply host_replays_ret|apply host_replays_fail|].
  apply host_replays_bind; [apply handle_replays|intros r; apply IH].
Qed.

Lemma invoke_replays X auths {A} (p : prog A) : host_replays (invoke X auths p).
Proof.
  intros h Hh. unfold invoke, with_frame.
  set (h0 := mkHost (h_storage h) (h_ledger h) (h_contract h) auths (h_events h)).
  destruct (run_replays X p h0 Hh) as (Hl & Hm & Hr & Ha & Hsim).
  assert (∀ e, same_frame h e →
    same_frame h0 (mkHost (h_storage e) (h_ledger e) (h_contract e) auths (h_events e))) as Hfr0
    by (intros e (? & ? & ? & ?); by split_and!).
  destruct (run X p h0) as [[a|err] h1] eqn:Hrun; simpl in *.
  - split_and!; [done..|]. intros F e HF Hfol Hfr.
    specialize (Hfr0 e Hfr). set (e0 := mkHost (h_storage e) _ _ auths _) in *.
    destruct (Hsim F e0 HF Hfol Hfr0) as (He1 & He2 & He3).
    destruct (run X p e0) as [r e1]. simpl in *. by subst r.
  - destruct Hr as (Hr1 & Hr2 & Hr3 & Hr4). destruct Hh as (Hh1 & Hh2 & Hh3 & Hh4).
    assert (∀ k, storage_view (set_smap (smap (h_storage h)) (h_storage h1)) k = storage_view (h_storage h) k) as Hview
      by (intros k; unfold storage_view; simpl; by rewrite Hm).
    split_and!; [done|done| |done|].
    + split; [done|]. split.
      * unfold storage_wf, is_recording in *. simpl. rewrite Hm in *. by destruct (mode (h_storage h)).
      * split; [|exact Hr4]. intros k Hk. simpl in *. eapply allows_some; [exact Ha|by apply Hh3].
    + intros F e HF Hfol Hfr.
      specialize (Hfr0 e Hfr). set (e0 := mkHost (h_storage e) _ _ auths _) in *.
      destruct (Hsim F e0 HF Hfol Hfr0) as (He1 & (He21 & He22 & He23) & (Hf1 & Hf2 & Hf3 & Hf4)).
      destruct (run X p e0) as [r e1]. simpl in *. subst r. simpl. split; [done|]. split.
      * destruct Hfol as (Hm' & Hf' & Hk'). split_and!; [done|done|]. intros k. simpl. by rewrite Hk', Hview.
      * destruct Hfr as (? & ? & ? & Hev). split_and!; try done. simpl. by rewrite Hev, Hf4.
Qed.
