(* ===== verification/E2e.v ===== *)
(** Invocations from outside, [e2e_invoke.rs]: encoded ledger entries in, encoded changes
    out.  Decoders, encoders and SHA-256 come from outside the repository and are
    gathered in [Xdr]; the order in which an ordered map of ledger keys is walked is
    [key_order].  Metering and diagnostic events are left out. *)
From S2P Require Import Prelude ScVal Storage Host AuthTree Auth Fees.
#[local] Open Scope m_scope.

Abbreviation bytes := (list Byte.byte).

(** * Changes of the ledger *)

Record TtlEntry := mkTtlEntry { ttl_key_hash : Hash; live_until_ledger_seq : Z }.

Record LedgerEntryLiveUntilChange := mkLiveUntilChange {
  key_hash : Hash;
  durability : ContractDataDurability;
  ttl_old_live_until_ledger : Z;
  ttl_new_live_until_ledger : Z
}.

Record LedgerEntryChange := mkEntryChange {
  read_only : bool;
  encoded_key : bytes;
  old_entry_size_bytes : Z;
  encoded_new_value : option bytes;
  ttl_change : option LedgerEntryLiveUntilChange
}.

Record LedgerFootprint := mkLedgerFootprint {
  fp_read_only : list LedgerKey;
  fp_read_write : list LedgerKey
}.

(** The reported instructions, what the budget has counted, are left out. *)
Record SorobanResources := mkResources {
  res_footprint : LedgerFootprint;
  res_read_bytes : Z;
  res_write_bytes : Z
}.

(** What recording mode gives; the recorded authorization is left out. *)
Record InvokeHostFunctionRecordingModeResult := mkRecordingResult {
  invoke_result : Result ScVal;
  resources : SorobanResources;
  recorded_changes : list LedgerEntryChange;
  contract_events : list ContractEvent;
  contract_events_and_return_value_size : Z
}.

Record InvokeHostFunctionResult := mkInvokeResult {
  encoded_invoke_result : Result bytes;
  ledger_changes : list LedgerEntryChange;
  encoded_contract_events : list bytes
}.

Record Xdr := mkXdr {
  write_key : LedgerKey → Result bytes;
  write_entry : LedgerEntry → Result bytes;
  write_ttl : TtlEntry → Result bytes;
  write_val : ScVal → Result bytes;
  write_event : ContractEvent → Result bytes;
  write_resources : SorobanResources → Result bytes;
  write_auth_entry : SorobanAuthorizationEntry → Result bytes;
  read_entry : bytes → Result LedgerEntry;
  read_ttl : bytes → Result TtlEntry;
  read_resources : bytes → Result SorobanResources;
  read_auth_entry : bytes → Result SorobanAuthorizationEntry;
  read_account : bytes → Result N;
  hash_bytes : bytes → Hash
}.

(** [n as u32]. *)
Definition as_u32 (n : nat) : Z := Z.of_nat n mod 2 ^ 32.

Abbreviation StorageMap := (gmap LedgerKey (option EntryWithLiveUntil)).
Abbreviation FootprintMap := (gmap LedgerKey AccessType).
Abbreviation TtlEntryMap := (gmap LedgerKey TtlEntry).
Abbreviation SnapshotSource := (LedgerKey → Result (option EntryWithLiveUntil)).

Definition internal_error : Error := EHost TStorage InternalError.

Section e2e.
Context (X : Xdr) (key_order : list LedgerKey → list LedgerKey).

(** The keys of a map as its iterator gives them. *)
Definition iter_keys {A} (m : gmap LedgerKey A) : list LedgerKey :=
  key_order (elements (dom m)).

(** ** From the storage to changes *)

Definition initial_ttl_change (init_ttl_entries : TtlEntryMap) (key : LedgerKey) (encoded : bytes) :
    option LedgerEntryLiveUntilChange :=
  match get_key_durability key with
  | Some d =>
      let hash := match init_ttl_entries !! key with
        | Some ttl_entry => ttl_key_hash ttl_entry
        | None => hash_bytes X encoded
        end in
      Some (mkLiveUntilChange hash d 0 0)
  | None => None
  end.

Definition with_old_live_until (n : Z) (c : LedgerEntryLiveUntilChange) : LedgerEntryLiveUntilChange :=
  mkLiveUntilChange (key_hash c) (durability c) n (ttl_new_live_until_ledger c).
Definition with_new_live_until (n : Z) (c : LedgerEntryLiveUntilChange) : LedgerEntryLiveUntilChange :=
  mkLiveUntilChange (key_hash c) (durability c) (ttl_old_live_until_ledger c) n.

(** What is known of the old entry: its size, and the change with its old lifetime. *)
Definition note_old_entry (old : option EntryWithLiveUntil) (c : option LedgerEntryLiveUntilChange) :
    Result (Z * option LedgerEntryLiveUntilChange) :=
  match old with
  | Some (old_entry, old_live_until) =>
      buf ← write_entry X old_entry;
      match c with
      | Some c =>
          n ← ok_or old_live_until internal_error;
          Ok (as_u32 (length buf), Some (with_old_live_until n c))
      | None => Ok (as_u32 (length buf), None)
      end
  | None => Ok (0, c)
  end.

(** The lifetime is never reduced. *)
Definition note_new_entry (new : option EntryWithLiveUntil) (c : option LedgerEntryLiveUntilChange) :
    Result (option LedgerEntryLiveUntilChange) :=
  match new, c with
  | Some (_, new_live_until), Some c =>
      n ← ok_or new_live_until internal_error;
      Ok (Some (with_new_live_until (Z.max n (ttl_old_live_until_ledger c)) c))
  | _, _ => Ok c
  end.

Definition ledger_entry_change (footprint_map : FootprintMap) (init_storage_snapshot : SnapshotSource)
    (init_ttl_entries : TtlEntryMap) (key : LedgerKey) (entry : option EntryWithLiveUntil) :
    Result LedgerEntryChange :=
  encoded ← write_key X key;
  old ← init_storage_snapshot key;
  old_and_ttl ← note_old_entry old (initial_ttl_change init_ttl_entries key encoded);
  ttl ← note_new_entry entry old_and_ttl.2;
  match footprint_map !! key with
  | Some ReadOnly => Ok (mkEntryChange true encoded old_and_ttl.1 None ttl)
  | Some ReadWrite =>
      match entry with
      | Some (e, _) =>
          buf ← write_entry X e;
          Ok (mkEntryChange false encoded old_and_ttl.1 (Some buf) ttl)
      | None => Ok (mkEntryChange false encoded old_and_ttl.1 None ttl)
      end
  | None => Err internal_error
  end.

Definition get_ledger_changes (storage : Storage) (init_storage_snapshot : SnapshotSource)
    (init_ttl_entries : TtlEntryMap) : Result (list LedgerEntryChange) :=
  m_collect (λ key, ledger_entry_change (footprint storage) init_storage_snapshot init_ttl_entries key
      (default None (smap storage !! key)))
    (iter_keys (smap storage)).

(** The keys that only the footprint has, in recording mode.  The caller ignores an error,
    which ends the loop. *)
Fixpoint footprint_only_changes (storage : Storage) (keys : list LedgerKey) : list LedgerEntryChange :=
  match keys with
  | [] => []
  | key :: keys =>
      if bool_decide (is_Some (smap storage !! key)) then footprint_only_changes storage keys
      else match write_key X key with
           | Ok encoded =>
               mkEntryChange (bool_decide (footprint storage !! key = Some ReadOnly)) encoded 0 None None
                 :: footprint_only_changes storage keys
           | Err _ => []
           end
  end.
Definition add_footprint_only_ledger_changes (storage : Storage) (changes : list LedgerEntryChange) :
    list LedgerEntryChange :=
  changes ++ footprint_only_changes storage (iter_keys (footprint storage)).

(** One entry's change of rent, if there is any. *)
Definition rent_change (c : LedgerEntryChange) : option LedgerEntryRentChange :=
  match ttl_change c with
  | Some t =>
      let new_size := match encoded_new_value c with
        | Some v => as_u32 (length v)
        | None => old_entry_size_bytes c
        end in
      if decide (ttl_new_live_until_ledger t <= ttl_old_live_until_ledger t ∧
                 new_size <= old_entry_size_bytes c)
      then None
      else Some (mkRentChange (bool_decide (durability t = Persistent)) (old_entry_size_bytes c) new_size
                   (ttl_old_live_until_ledger t) (ttl_new_live_until_ledger t))
  | None => None
  end.
Definition extract_rent_changes (ledger_changes : list LedgerEntryChange) : list LedgerEntryRentChange :=
  omap rent_change ledger_changes.

(** [Events] after [try_finish]: an event and whether the call it came from failed. *)
Definition encode_contract_events (events : EventsBuffer) : Result (list bytes) :=
  m_collect (write_event X) (emitted events).

(** ** From encoded entries to a storage *)

Definition ledger_entry_to_ledger_key (le : LedgerEntry) : Result LedgerKey :=
  match le with
  | EAccount a => Ok (KAccount (account_id a))
  | ETrustline tl => Ok (KTrustline (tl_account tl) (tl_asset tl))
  | EContractData cd => Ok (KContractData (cde_contract cd) (cde_key cd) (cde_durability cd))
  | EContractCode hash => Ok (KContractCode hash)
  | EUnsupported _ => Err internal_error
  end.

Fixpoint add_footprint_keys (ty : AccessType) (keys : list LedgerKey) (m : FootprintMap) : Result FootprintMap :=
  match keys with
  | [] => Ok m
  | key :: keys => check_supported_ledger_key_type key ≫= λ _, add_footprint_keys ty keys (<[key := ty]> m)
  end.
Definition build_storage_footprint_from_xdr (fp : LedgerFootprint) : Result FootprintMap :=
  m ← add_footprint_keys ReadWrite (fp_read_write fp) ∅;
  add_footprint_keys ReadOnly (fp_read_only fp) m.

(** Whether an entry must come with a lifetime. *)
Definition needs_ttl (le : LedgerEntry) : bool :=
  match le with EContractData _ | EContractCode _ => true | _ => false end.

(** One encoded entry with its lifetime, added to both maps. *)
Definition add_ledger_entry (fp : FootprintMap) (ledger_num : Z) (entry_buf ttl_buf : bytes)
    (maps : StorageMap * TtlEntryMap) : Result (StorageMap * TtlEntryMap) :=
  le ← read_entry X entry_buf;
  key ← ledger_entry_to_ledger_key le;
  ttl ← match ttl_buf with
    | [] => if needs_ttl le then Err internal_error else Ok (None, maps.2)
    | _ =>
        ttl_entry ← read_ttl X ttl_buf;
        if decide (live_until_ledger_seq ttl_entry < ledger_num) then Err internal_error
        else Ok (Some (live_until_ledger_seq ttl_entry), <[key := ttl_entry]> maps.2)
    end;
  if bool_decide (is_Some (fp !! key))
  then Ok (<[key := Some (le, ttl.1)]> maps.1, ttl.2)
  else Err internal_error.

Fixpoint add_ledger_entries (fp : FootprintMap) (ledger_num : Z) (entries : list (bytes * bytes))
    (maps : StorageMap * TtlEntryMap) : Result (StorageMap * TtlEntryMap) :=
  match entries with
  | [] => Ok maps
  | (entry_buf, ttl_buf) :: entries =>
      maps' ← add_ledger_entry fp ledger_num entry_buf ttl_buf maps;
      add_ledger_entries fp ledger_num entries maps'
  end.

(** The keys of the footprint without an entry are stored as absent. *)
Definition add_missing_keys (fp : FootprintMap) (m : StorageMap) : StorageMap :=
  foldl (λ m key, if bool_decide (is_Some (m !! key)) then m else <[key := None]> m) m (iter_keys fp).

Definition build_storage_map_from_xdr_ledger_entries (fp : FootprintMap)
    (encoded_ledger_entries encoded_ttl_entries : list bytes) (ledger_num : Z) :
    Result (StorageMap * TtlEntryMap) :=
  if decide (length encoded_ledger_entries ≠ length encoded_ttl_entries) then Err internal_error
  else
    maps ← add_ledger_entries fp ledger_num (zip encoded_ledger_entries encoded_ttl_entries) (∅, ∅);
    Ok (add_missing_keys fp maps.1, maps.2).

(** [StorageMapSnapshotSource::get]. *)
Definition storage_map_snapshot (m : StorageMap) : SnapshotSource := λ key,
  match m !! key with
  | Some (Some v) => Ok (Some v)
  | _ => Ok None
  end.

(** ** Invoking *)

(** [F] are the decoded host functions; [invoke_function] runs one in a fresh host with the
    source account, the authorization manager, the seed and the storage it was given. *)
Section invoke.
Context {F : Type} (read_host_fn : bytes → Result F).
Context (invoke_function : F → N → AuthorizationManager → bytes → LedgerInfo → Storage →
  Result ScVal * (Storage * EventsBuffer)).

(** What [try_finish] gives is turned into the result. *)
Definition finish_invocation (init_storage_map : StorageMap) (init_ttl_map : TtlEntryMap)
    (result : Result ScVal) (storage : Storage) (events : EventsBuffer) : Result InvokeHostFunctionResult :=
  match result ≫= write_val X with
  | Ok encoded =>
      changes ← get_ledger_changes storage (storage_map_snapshot init_storage_map) init_ttl_map;
      encoded_events ← encode_contract_events events;
      Ok (mkInvokeResult (Ok encoded) changes encoded_events)
  | Err e => Ok (mkInvokeResult (Err e) [] [])
  end.

Definition invoke_host_function (encoded_host_fn encoded_resources encoded_source_account : bytes)
    (encoded_auth_entries : list bytes) (ledger_info : LedgerInfo)
    (encoded_ledger_entries encoded_ttl_entries : list bytes) (base_prng_seed : bytes) :
    Result InvokeHostFunctionResult :=
  resources ← read_resources X encoded_resources;
  footprint ← build_storage_footprint_from_xdr (res_footprint resources);
  maps ← build_storage_map_from_xdr_ledger_entries footprint encoded_ledger_entries encoded_ttl_entries
    (sequence_number ledger_info);
  auth_entries ← m_collect (read_auth_entry X) encoded_auth_entries;
  host_function ← read_host_fn encoded_host_fn;
  source_account ← read_account X encoded_source_account;
  manager ← new_enforcing (Some (Account source_account)) auth_entries;
  if decide (length base_prng_seed ≠ 32%nat) then Err (EHost TContext InternalError)
  else
    let '(result, (storage, events)) :=
      invoke_function host_function source_account manager base_prng_seed ledger_info
        (with_enforcing_footprint_and_map footprint maps.1) in
    finish_invocation maps.1 maps.2 result storage events.
End invoke.

(** ** Recording *)

Definition storage_footprint_to_ledger_footprint (fp : FootprintMap) : LedgerFootprint :=
  mkLedgerFootprint
    (filter (λ key, fp !! key = Some ReadOnly) (iter_keys fp))
    (filter (λ key, fp !! key = Some ReadWrite) (iter_keys fp)).

(** An entry as the snapshot has it, encoded, with its lifetime if it has one. *)
Definition encode_with_ttl (lk : LedgerKey) (entry : EntryWithLiveUntil) : Result (bytes * bytes) :=
  encoded_le ← write_entry X entry.1;
  match entry.2 with
  | Some live_until_ledger =>
      key_xdr ← write_key X lk;
      ttl ← write_ttl X (mkTtlEntry (hash_bytes X key_xdr) live_until_ledger);
      Ok (encoded_le, ttl)
  | None => Ok (encoded_le, [])
  end.

(** The loop over the footprint: the entries it has, encoded, and how many bytes were read. *)
Fixpoint encode_snapshot (ledger_snapshot : SnapshotSource) (keys : list LedgerKey)
    (acc : list (bytes * bytes) * Z) : Result (list (bytes * bytes) * Z) :=
  match keys with
  | [] => Ok acc
  | lk :: keys =>
      entry_with_live_until ← ledger_snapshot lk;
      match entry_with_live_until with
      | Some entry =>
          encoded ← encode_with_ttl lk entry;
          encode_snapshot ledger_snapshot keys
            (acc.1 ++ [encoded], u32_saturating_add acc.2 (as_u32 (length encoded.1)))
      | None => encode_snapshot ledger_snapshot keys acc
      end
  end.

Definition write_bytes_of (changes : list LedgerEntryChange) : Z :=
  foldl (λ n c, if read_only c then n
                else match encoded_new_value c with
                     | Some v => u32_saturating_add n (as_u32 (length v))
                     | None => n
                     end) 0 changes.

Definition add_size (n : Z) (b : bytes) : Z := u32_saturating_add n (as_u32 (length b)).

(** After the host function has run: the resources it took, found by going through the
    steps of an enforcing invocation, and the changes and events of a successful one. *)
Definition finish_recording (ledger_snapshot : SnapshotSource) (ledger_seq : Z) (result : Result ScVal)
    (storage : Storage) (events : EventsBuffer) : Result InvokeHostFunctionRecordingModeResult :=
  value_size ← match result with
    | Ok res => encoded ← write_val X res; Ok (add_size 0 encoded)
    | Err _ => Ok 0
    end;
  let fp := storage_footprint_to_ledger_footprint (footprint storage) in
  _ ← build_storage_footprint_from_xdr fp;
  encoded ← encode_snapshot ledger_snapshot (iter_keys (footprint storage)) ([], 0);
  maps ← build_storage_map_from_xdr_ledger_entries (footprint storage) encoded.1.*1 encoded.1.*2 ledger_seq;
  buf ← write_resources X (mkResources fp encoded.2 0);
  _ ← read_resources X buf;
  match result with
  | Ok _ =>
      changes ← get_ledger_changes storage ledger_snapshot maps.2;
      let all_changes := add_footprint_only_ledger_changes storage changes in
      encoded_events ← encode_contract_events events;
      Ok (mkRecordingResult result (mkResources fp encoded.2 (write_bytes_of all_changes)) all_changes
            (emitted events) (foldl add_size value_size encoded_events))
  | Err _ => Ok (mkRecordingResult result (mkResources fp encoded.2 0) [] [] value_size)
  end.

(** [invoke_host_function_in_recording_mode] with signed authorization entries. *)
Definition invoke_host_function_in_recording_mode {F : Type}
    (invoke_function : F → N → AuthorizationManager → bytes → LedgerInfo → Storage →
      Result ScVal * (Storage * EventsBuffer))
    (host_function : F) (source_account : N) (auth_entries : list SorobanAuthorizationEntry)
    (ledger_info : LedgerInfo) (ledger_snapshot : SnapshotSource) (base_prng_seed : bytes) :
    Result InvokeHostFunctionRecordingModeResult :=
  manager ← new_enforcing (Some (Account source_account)) auth_entries;
  let '(result, (storage, events)) :=
    invoke_function host_function source_account manager base_prng_seed ledger_info
      (with_recording_footprint ledger_snapshot) in
  _ ← m_collect (λ e, buf ← write_auth_entry X e; read_auth_entry X buf) auth_entries;
  finish_recording ledger_snapshot (sequence_number ledger_info) result storage events.
End e2e.
