(* ===== verification/E2eThms.v ===== *)
(** Invocations from outside: the storage built from encoded entries represents them,
    and the changes of the result, applied to the ledger, give the ledger the call was
    meant to leave. *)
From S2P Require Import Prelude ScVal Storage Host AuthTree Auth Fees.
From S2P Require Import Access E2e.
#[local] Open Scope m_scope.

Lemma result_bind_ok {A B} (r : Result A) (f : A → Result B) b : r ≫= f = Ok b → ∃ a, r = Ok a ∧ f a = Ok b.
Proof. destruct r as [a|]; [|done]. eauto. Qed.
Lemma ok_or_some {A} (o : option A) e a : ok_or o e = Ok a → o = Some a.
Proof. destruct o; by intros [= ->]. Qed.

Lemma omap_Forall2 {A B C} (f : A → option C) (g : B → option C) l l' :
  Forall2 (λ a b, g b = f a) l l' → omap g l' = omap f l.
Proof. induction 1 as [|a b l l' Hab _ IH]; [done|]. unfold omap in *. simpl. by rewrite Hab, IH. Qed.

(** * Maps of ledger keys *)

(** The existing entries of a storage map. *)
Definition known (m : StorageMap) : LedgerMap := omap id m.

Lemma known_lookup m k : known m !! k = m !! k ≫= id.
Proof. unfold known. apply lookup_omap. Qed.

Section e2e.
Context (X : Xdr) (key_order : list LedgerKey → list LedgerKey).
(** The order is one of the same keys. *)
Context (key_order_perm : ∀ l, key_order l ≡ₚ l).

Lemma elem_iter_keys {A} (m : gmap LedgerKey A) k : k ∈ iter_keys key_order m ↔ is_Some (m !! k).
Proof. unfold iter_keys. rewrite key_order_perm, elem_of_elements. apply elem_of_dom. Qed.
Lemma nodup_iter_keys {A} (m : gmap LedgerKey A) : NoDup (iter_keys key_order m).
Proof. unfold iter_keys. rewrite key_order_perm. apply NoDup_elements. Qed.

(** ** Building the storage *)

Lemma add_missing_lookup ks m k :
  foldl (λ (m : StorageMap) key, if bool_decide (is_Some (m !! key)) then m else <[key := None]> m) m ks !! k =
  match m !! k with Some v => Some v | None => if bool_decide (k ∈ ks) then Some None else None end.
Proof.
  revert m. induction ks as [|key ks IH]; intros m; simpl; [by destruct (m !! k)|].
  rewrite IH. clear IH. case_bool_decide as Hkey.
  - destruct (m !! k) eqn:Hk; [done|]. assert (k ≠ key) as Hne by (intros ->; rewrite Hk in Hkey; by destruct Hkey).
    rewrite (bool_decide_ext (k ∈ key :: ks) (k ∈ ks)); [done|]. rewrite elem_of_cons. tauto.
  - destruct (decide (key = k)) as [->|Hne].
    + rewrite lookup_insert_eq. destruct (m !! k) eqn:Hk; [destruct Hkey; by eexists|].
      rewrite bool_decide_true; [done|]. apply list_elem_of_here.
    + rewrite lookup_insert_ne by done. destruct (m !! k); [done|].
      rewrite (bool_decide_ext (k ∈ key :: ks) (k ∈ ks)); [done|]. rewrite elem_of_cons. naive_solver.
Qed.

(** What every map built from the entries satisfies. *)
Definition built (fp : FootprintMap) (ledger_num : Z) (m : StorageMap) : Prop :=
  ∀ k o, m !! k = Some o → is_Some (fp !! k) ∧ match o with
    | Some (le, lu) => ledger_entry_to_ledger_key le = Ok k ∧
        (get_key_durability k ≠ None → is_Some lu) ∧ (∀ n, lu = Some n → ledger_num <= n)
    | None => True
    end.

Lemma add_entry_built fp num eb tb ms ms' :
  add_ledger_entry X fp num eb tb ms = Ok ms' → built fp num ms.1 → built fp num ms'.1.
Proof.
  unfold add_ledger_entry. intros (le & Hle & H)%result_bind_ok Hb.
  apply result_bind_ok in H as (key & Hkey & H). apply result_bind_ok in H as ([lu ttls] & Httl & H).
  destruct (bool_decide (is_Some (fp !! key))) eqn:Hfp; [|done]. injection H as <-. simpl.
  apply bool_decide_eq_true in Hfp. intros k o. destruct (decide (key = k)) as [<-|Hne].
  2: { rewrite lookup_insert_ne by done. apply Hb. }
  rewrite lookup_insert_eq. intros [= <-]. split; [done|]. split; [done|].
  destruct tb as [|b tb].
  - destruct (needs_ttl le) eqn:Hn; [done|]. injection Httl as <- <-. split; [|done].
    intros Hd. by destruct le; simpl in *; simplify_eq.
  - apply result_bind_ok in Httl as (te & Hte & Httl). case_decide; [done|]. injection Httl as <- <-.
    split; [by eexists|]. intros n [= <-]. lia.
Qed.
Lemma add_entries_built fp num l ms ms' :
  add_ledger_entries X fp num l ms = Ok ms' → built fp num ms.1 → built fp num ms'.1.
Proof.
  revert ms. induction l as [|[eb tb] l IH]; intros ms; simpl; [by intros [= <-]|].
  intros (ms1 & H1 & H2)%result_bind_ok Hb. eapply IH; [exact H2|]. by eapply add_entry_built.
Qed.

(** The storage for an invocation: every key of the footprint is in it, no other key is,
    and what is there is live. *)
Lemma build_storage_ok fp es ts num maps :
  build_storage_map_from_xdr_ledger_entries X key_order fp es ts num = Ok maps →
  built fp num maps.1 ∧ dom maps.1 = dom fp.
Proof.
  unfold build_storage_map_from_xdr_ledger_entries. case_decide; [done|].
  intros (ms & Hms & [= <-])%result_bind_ok. simpl.
  assert (built fp num ms.1) as Hb by (eapply add_entries_built; [exact Hms|]; intros k o; simpl; by rewrite lookup_empty).
  assert (built fp num (add_missing_keys key_order fp ms.1)) as Hb'.
  { intros k o. unfold add_missing_keys. rewrite add_missing_lookup. destruct (ms.1 !! k) eqn:Hk.
    - intros [= <-]. by apply Hb.
    - case_bool_decide as Hin; [|done]. intros [= <-]. split; [|done]. by apply elem_iter_keys. }
  split; [done|]. apply set_eq. intros k. rewrite !elem_of_dom. split.
  - intros [o Ho]. by eapply Hb'.
  - intros Hfp. unfold add_missing_keys. rewrite add_missing_lookup. destruct (ms.1 !! k); [by eexists|].
    rewrite bool_decide_true; [by eexists|]. by apply elem_iter_keys.
Qed.

Lemma built_represents li fp m :
  built fp (sequence_number li) m → dom m = dom fp →
  represents li (with_enforcing_footprint_and_map fp m) (known m) ∧
  populated (with_enforcing_footprint_and_map fp m).
Proof.
  intros Hb Hd.
  assert (populated (with_enforcing_footprint_and_map fp m)) as Hp.
  { intros k. simpl. by rewrite <-!elem_of_dom, Hd. }
  split; [|done]. split; [exact Hp|]. intros k. unfold storage_view. simpl. rewrite known_lookup.
  by destruct (m !! k).
Qed.

(** ** Changes *)

(** What the network does with a change: the entry's value, unless it is read-only, and
    its lifetime. *)
Context (read_key : bytes → Result LedgerKey).

Definition apply_to (c : LedgerEntryChange) (old : option EntryWithLiveUntil) : option EntryWithLiveUntil :=
  let lifetime lu := match ttl_change c with Some t => Some (ttl_new_live_until_ledger t) | None => lu end in
  if read_only c then (λ e : EntryWithLiveUntil, (e.1, lifetime e.2)) <$> old
  else match encoded_new_value c with
       | Some v => match read_entry X v with Ok e => Some (e, lifetime None) | Err _ => old end
       | None => None
       end.
Definition apply_change (m : LedgerMap) (c : LedgerEntryChange) : LedgerMap :=
  match read_key (encoded_key c) with Ok k => partial_alter (apply_to c) k m | Err _ => m end.
Definition apply_changes : LedgerMap → list LedgerEntryChange → LedgerMap := foldl apply_change.

Context (read_write_key : ∀ k b, write_key X k = Ok b → read_key b = Ok k).
Context (read_write_entry : ∀ e b, write_entry X e = Ok b → read_entry X b = Ok e).

Lemma apply_changes_lookup ks cs m k :
  Forall2 (λ k c, write_key X k = Ok (encoded_key c)) ks cs → NoDup ks →
  (k ∉ ks → apply_changes m cs !! k = m !! k) ∧
  ∀ i c, ks !! i = Some k → cs !! i = Some c → apply_changes m cs !! k = apply_to c (m !! k).
Proof.
  intros Hall. revert m. induction Hall as [|key c ks cs Hkey Hall IH]; intros m Hnd; [done|].
  apply NoDup_cons in Hnd as [Hin Hnd]. unfold apply_changes in *. simpl.
  unfold apply_change at 2 4. rewrite (read_write_key _ _ Hkey).
  destruct (IH (partial_alter (apply_to c) key m) Hnd) as [IH1 IH2]. split.
  - intros Hk. rewrite IH1 by set_solver. apply lookup_partial_alter_ne. set_solver.
  - intros [|i] c' Hi Hc; simpl in *.
    + injection Hi as ->. injection Hc as <-. rewrite IH1 by done. apply lookup_partial_alter_eq.
    + rewrite (IH2 i c') by done. f_equal. apply lookup_partial_alter_ne. intros ->.
      apply Hin. by eapply list_elem_of_lookup_2.
Qed.

(** What the network is to hold for a key: the new value, living at least as long as the
    old one was to. *)
Definition old_lifetime (o : option EntryWithLiveUntil) : Z :=
  match o with Some (_, Some n) => n | _ => 0 end.
Definition committed (old new : option EntryWithLiveUntil) : option EntryWithLiveUntil :=
  match new with
  | Some (e, Some n) => Some (e, Some (Z.max n (old_lifetime old)))
  | _ => new
  end.

Lemma note_old_ok old c r : note_old_entry X old c = Ok r →
  r.2 = (match old with Some _ => with_old_live_until (old_lifetime old) <$> c | None => c end) ∧
  (is_Some c → timed old) ∧
  r.1 = match old with
        | Some (e, _) => match write_entry X e with Ok b => as_u32 (length b) | Err _ => 0 end
        | None => 0
        end.
Proof.
  destruct old as [[e lu]|]; simpl; [|by intros [= <-]]. intros (b & -> & H)%result_bind_ok.
  destruct c as [c|].
  - apply result_bind_ok in H as (n & Hn%ok_or_some & [= <-]). subst lu. by split_and!.
  - injection H as <-. split_and!; [done| |done]. intros [? [=]].
Qed.

Lemma note_new_ok new c r : note_new_entry new c = Ok r →
  r = (match new with
       | Some (_, Some n) => (λ c, with_new_live_until (Z.max n (ttl_old_live_until_ledger c)) c) <$> c
       | _ => c
       end) ∧ (is_Some c → timed new).
Proof.
  destruct new as [[e lu]|]; simpl; [|by intros [= <-]].
  destruct c as [c|]; simpl.
  - intros (n & Hn%ok_or_some & [= <-])%result_bind_ok. by subst lu.
  - intros [= <-]. split; [by destruct lu|intros [? [=]]].
Qed.

Lemma snapshot_known m k old : storage_map_snapshot m k = Ok old → known m !! k = old.
Proof. rewrite known_lookup. unfold storage_map_snapshot. by destruct (m !! k) as [[]|]; intros [= <-]. Qed.

(** The change of one entry, applied, is the entry the invocation left. *)
Lemma entry_change_ok fp m ttls k new c :
  ledger_entry_change X fp (storage_map_snapshot m) ttls k new = Ok c →
  (fp !! k = Some ReadOnly → entry_kept (known m !! k) new) →
  let final := apply_to c (known m !! k) in
  fst <$> final = fst <$> new ∧
  (is_Some (get_key_durability k) → timed new ∧ final = committed (known m !! k) new).
Proof.
  intros H Hro. unfold ledger_entry_change in H. cbv zeta. apply result_bind_ok in H as (kb & Hkb & H).
  apply result_bind_ok in H as (old & Hold & H). apply result_bind_ok in H as ([sz oc] & Hot & H).
  apply result_bind_ok in H as (ttl & Httl & H).
  apply snapshot_known in Hold as Hk. rewrite Hk in *. clear Hk.
  apply note_old_ok in Hot as (Hot & Hlu & _). apply note_new_ok in Httl as (-> & Hnew). simpl in *. subst oc.
  unfold initial_ttl_change in *.
  destruct (fp !! k) as [[]|]; [| |done].
  - specialize (Hro eq_refl). injection H as <-. unfold apply_to. simpl.
    destruct Hro as [->|(e & lu & lu' & -> & -> & Hle)].
    + destruct old as [[e lu]|]; [|done]. destruct (get_key_durability k) as [d|]; simpl in *.
      * destruct Hlu as [n ->]; [done|]. done.
      * split; [done|]. intros [? [=]].
    + destruct (get_key_durability k) as [d|]; simpl in *; [done|]. split; [done|]. intros [? [=]].
  - destruct new as [[e lu]|].
    + apply result_bind_ok in H as (b & Hb & [= <-]). unfold apply_to. simpl.
      rewrite (read_write_entry _ _ Hb). split; [done|]. intros [d Hd]. rewrite Hd in *.
      destruct Hnew as [n ->]; [by destruct old|]. by destruct old as [[]|].
    + injection H as <-. done.
Qed.

(** What is to be paid for an entry that is there afterwards: the growth of its size and
    of its lifetime. *)
Definition entry_size (o : option EntryWithLiveUntil) : Z :=
  match o with
  | Some (e, _) => match write_entry X e with Ok b => as_u32 (length b) | Err _ => 0 end
  | None => 0
  end.
Definition rent_due (k : LedgerKey) (old new : option EntryWithLiveUntil) : option LedgerEntryRentChange :=
  match get_key_durability k, new with
  | Some d, Some _ =>
      if decide (old_lifetime old < old_lifetime new ∨ entry_size old < entry_size new)
      then Some (mkRentChange (bool_decide (d = Persistent)) (entry_size old) (entry_size new)
                   (old_lifetime old) (old_lifetime new))
      else None
  | _, _ => None
  end.

(** [rent_change] in terms of the sizes and lifetimes. *)
Lemma rent_change_due d so sn lo ln :
  (if decide (ln <= lo ∧ sn <= so) then None else Some (mkRentChange (bool_decide (d = Persistent)) so sn lo ln)) =
  (if decide (lo < ln ∨ so < sn) then Some (mkRentChange (bool_decide (d = Persistent)) so sn lo ln) else None).
Proof.
  destruct (decide (lo < ln ∨ so < sn)); [rewrite decide_False by lia; done|rewrite decide_True by lia; done].
Qed.

Lemma entry_rent_ok fp m ttls k new c :
  ledger_entry_change X fp (storage_map_snapshot m) ttls k new = Ok c →
  (fp !! k = Some ReadOnly → entry_kept (known m !! k) new) → 0 <= old_lifetime (known m !! k) →
  rent_change c = rent_due k (known m !! k) (apply_to c (known m !! k)).
Proof.
  intros H Hro Hpos. unfold ledger_entry_change in H. apply result_bind_ok in H as (kb & Hkb & H).
  apply result_bind_ok in H as (old & Hold & H). apply result_bind_ok in H as ([sz oc] & Hot & H).
  apply result_bind_ok in H as (ttl & Httl & H). apply snapshot_known in Hold as Hk. rewrite Hk in *. clear Hk.
  apply note_old_ok in Hot as (Hot & Hlu & Hsz). apply note_new_ok in Httl as (-> & Hnew). simpl in *. subst oc.
  fold (entry_size old) in Hsz. unfold initial_ttl_change in *. unfold rent_due.
  destruct (fp !! k) as [[]|]; [| |done].
  - specialize (Hro eq_refl). injection H as <-. unfold rent_change, apply_to. simpl.
    destruct (get_key_durability k) as [d|]; simpl in *.
    2: { destruct new as [[? []]|]; by destruct old. }
    destruct Hro as [->|(e & lu & lu' & -> & -> & Hle)].
    + destruct old as [[e lu]|]; simpl in *; [|subst sz; done].
      destruct Hlu as [n ->]; [done|]. simpl. rewrite rent_change_due, Hsz. done.
    + simpl. rewrite rent_change_due, Hsz. done.
  - destruct new as [[e lu]|].
    + apply result_bind_ok in H as (b & Hb & [= <-]). unfold rent_change, apply_to. simpl.
      rewrite (read_write_entry _ _ Hb). simpl. destruct (get_key_durability k) as [d|]; simpl in *.
      2: { destruct lu; by destruct old. }
      destruct Hnew as [n ->]; [by destruct old|]. rewrite Hb, Hsz.
      destruct old as [[e0 lu0]|]; simpl; apply rent_change_due.
    + injection H as <-. unfold rent_change, apply_to. simpl. destruct (get_key_durability k) as [d|]; simpl; [|by destruct old].
      destruct old as [[e0 lu0]|]; simpl in *; apply decide_True; lia.
Qed.

Lemma changes_keys fp m ttls new ks cs :
  Forall2 (λ k c, ledger_entry_change X fp (storage_map_snapshot m) ttls k (new k) = Ok c) ks cs →
  Forall2 (λ k c, write_key X k = Ok (encoded_key c)) ks cs.
Proof.
  intros Hcs. eapply Forall2_impl; [exact Hcs|]. intros k c H. simpl in H. unfold ledger_entry_change in H.
  apply result_bind_ok in H as (kb & -> & H). apply result_bind_ok in H as (old & _ & H).
  apply result_bind_ok in H as (ot & _ & H). apply result_bind_ok in H as (ttl & _ & H).
  destruct (fp !! k) as [[]|]; [by injection H as <-| |done].
  destruct new as [[e lu]|]; [|by injection H as <-]. by apply result_bind_ok in H as (b & _ & [= <-]).
Qed.

(** All changes, applied, are the storage the invocation left. *)
Lemma ledger_changes_ok s m ttls cs :
  get_ledger_changes X key_order s (storage_map_snapshot m) ttls = Ok cs →
  (∀ k, footprint s !! k = Some ReadOnly → entry_kept (known m !! k) (default None (smap s !! k))) →
  (∀ k, smap s !! k = None → known m !! k = None) →
  ∀ k, let final := apply_changes (known m) cs !! k in let new := default None (smap s !! k) in
    fst <$> final = fst <$> new ∧
    (is_Some (get_key_durability k) → timed new ∧ final = committed (known m !! k) new).
Proof.
  intros Hcs%m_collect_ok Hro Hnone k.
  pose proof (changes_keys _ _ _ (λ k, default None (smap s !! k)) _ _ Hcs) as Hkeys.
  destruct (apply_changes_lookup _ _ (known m) k Hkeys (nodup_iter_keys _)) as [Hout Hin].
  destruct (smap s !! k) as [o|] eqn:Hk.
  - assert (k ∈ iter_keys key_order (smap s)) as [i Hi]%list_elem_of_lookup by (apply elem_iter_keys; by eexists).
    destruct (Forall2_lookup_l _ _ _ _ _ Hcs Hi) as (c & Hci & Hc). simpl in Hc.
    pose proof (entry_change_ok _ _ _ _ _ _ Hc (Hro k)) as [H1 H2]. rewrite Hk in H1, H2.
    cbv zeta. rewrite (Hin i c Hi Hci). done.
  - cbv zeta. rewrite Hout by (rewrite elem_iter_keys, Hk; by intros [? [=]]).
    rewrite (Hnone k Hk). done.
Qed.

Lemma rent_changes_ok s m ttls cs :
  get_ledger_changes X key_order s (storage_map_snapshot m) ttls = Ok cs →
  (∀ k, footprint s !! k = Some ReadOnly → entry_kept (known m !! k) (default None (smap s !! k))) →
  (∀ k, 0 <= old_lifetime (known m !! k)) →
  extract_rent_changes cs =
    omap (λ k, rent_due k (known m !! k) (apply_changes (known m) cs !! k)) (iter_keys key_order (smap s)).
Proof.
  intros Hcs%m_collect_ok Hro Hpos.
  pose proof (changes_keys _ _ _ (λ k, default None (smap s !! k)) _ _ Hcs) as Hkeys.
  assert (Forall2 (λ k c, rent_change c = rent_due k (known m !! k) (apply_changes (known m) cs !! k))
    (iter_keys key_order (smap s)) cs) as Hrents.
  { apply Forall2_lookup. intros i.
    pose proof (proj1 (Forall2_lookup _ _ _) Hcs i) as Hi. pose proof (proj1 (Forall2_lookup _ _ _) Hkeys i) as Hki.
    destruct (iter_keys key_order (smap s) !! i) as [k|] eqn:Hk; inversion Hi as [? c Hc Heq1 Heq2|Heq1 Heq2]; constructor.
    destruct (apply_changes_lookup _ _ (known m) k Hkeys (nodup_iter_keys _)) as [_ Hin].
    rewrite (Hin i c Hk (eq_sym Heq2)). exact (entry_rent_ok _ _ _ _ _ _ Hc (Hro k) (Hpos k)). }
  by apply omap_Forall2.
Qed.
End e2e.
