(* ===== verification/E2eProps.v ===== *)
(** What an invocation from outside does to the ledger, and what recording it gives. *)
From S2P Require Import Prelude ScVal Storage Host AuthTree Auth Fees Sim.
From S2P Require Import Access Replay E2e E2eThms.
#[local] Open Scope m_scope.

(** The host function that calls a contract program; [auths] are the addresses whose
    authorization the manager holds. *)
Definition contract_call (W : External) (auths : N → AuthorizationManager → gset ScAddress)
    (call : Hash * prog ScVal) (source : N) (manager : AuthorizationManager) (_seed : bytes)
    (li : LedgerInfo) (s : Storage) : Result ScVal * (Storage * EventsBuffer) :=
  let '(r, h) := invoke W (auths source manager) call.2 (mkHost s li call.1 ∅ []) in
  (r, (h_storage h, h_events h)).

Lemma invoke_refines W auths {A} (p : prog A) h e : host_represents h e →
  let x := invoke W auths p h in let y := invoke W auths p e in
  x.1 = y.1 ∧ (∀ a, x.1 = Ok a → host_represents x.2 y.2) ∨
  is_recording (h_storage h) = false ∧ x.1 = Err (EHost TStorage ExceededLimit).
Proof.
  intros (Hli & Hc & _ & Hev & Hr). unfold invoke, with_frame.
  set (h0 := mkHost (h_storage h) _ _ auths _). set (e0 := mkHost (h_storage e) _ _ auths _).
  assert (host_represents h0 e0) as H0 by (by split_and!).
  destruct (run_refines W p h0 e0 H0) as [_ Ho].
  destruct (run W p h0) as [r h1], (run W p e0) as [r' e1]. simpl in Ho.
  destruct Ho as [[-> H1]|[Hrec ->]]; [|right; done].
  left. destruct r' as [a|err]; simpl; [by eauto|]. split; [done|]. by intros a.
Qed.

(** What an enforcing run leaves of the storage. *)
Lemma invoke_left W auths {A} (p : prog A) h k :
  mode (h_storage h) = Enforcing → populated (h_storage h) →
  let s := h_storage h in let s' := h_storage (invoke W auths p h).2 in
  footprint s' = footprint s ∧ dom (smap s') = dom (smap s) ∧
  (footprint s !! k = Some ReadOnly → entry_kept (known (smap s) !! k) (default None (smap s' !! k))).
Proof.
  intros Hm Hp. destruct (invoke_guarded W auths p h Hm Hp) as (_ & Hf & Hd & Hro).
  split_and!; [done..|]. intros Hk. destruct (Hro k Hk) as (o & o' & <- & <- & Ho). rewrite known_lookup.
  destruct Ho as [<-|(v & v' & -> & -> & Hv)]; [|exact Hv]. destruct (smap (h_storage h) !! k) as [[]|]; apply entry_kept_refl.
Qed.

Lemma entry_kept_fst o o' : entry_kept o o' → fst <$> o' = fst <$> o.
Proof. intros [->|(e & lu & lu' & -> & -> & _)]; done. Qed.

(** The encoders have decoders. *)
Definition decodable (X : Xdr) (read_key : bytes → Result LedgerKey) : Prop :=
  (∀ k b, write_key X k = Ok b → read_key b = Ok k) ∧
  (∀ e b, write_entry X e = Ok b → read_entry X b = Ok e).

(** What an invocation started from, once decoded. *)
Record Started (X : Xdr) (key_order : list LedgerKey → list LedgerKey)
    (read_host_fn : bytes → Result (Hash * prog ScVal)) (encoded_host_fn encoded_resources : bytes)
    (li : LedgerInfo) (es ts : list bytes) (fp : FootprintMap) (m : StorageMap) (call : Hash * prog ScVal) : Prop := {
  started_footprint : ∃ res, read_resources X encoded_resources = Ok res ∧
    build_storage_footprint_from_xdr (res_footprint res) = Ok fp;
  started_entries : ∃ ttls, build_storage_map_from_xdr_ledger_entries X key_order fp es ts (sequence_number li) = Ok (m, ttls);
  started_call : read_host_fn encoded_host_fn = Ok call
}.

(** An invocation that has an outcome ran the host function and finished with it. *)
Lemma invocation_ran {X key_order read_fn W auths fb rb sb ab li es ts seed out} :
  invoke_host_function X key_order read_fn (contract_call W auths) fb rb sb ab li es ts seed = Ok out →
  ∃ fp m ttls call acct mgr,
    Started X key_order read_fn fb rb li es ts fp m call ∧
    build_storage_map_from_xdr_ledger_entries X key_order fp es ts (sequence_number li) = Ok (m, ttls) ∧
    let '(r, h) := invoke W (auths acct mgr) call.2 (mkHost (with_enforcing_footprint_and_map fp m) li call.1 ∅ []) in
    finish_invocation X key_order m ttls r (h_storage h) (h_events h) = Ok out.
Proof.
  unfold invoke_host_function. intros H.
  apply result_bind_ok in H as (res & Hres & H). apply result_bind_ok in H as (fp & Hfp & H).
  apply result_bind_ok in H as ([m ttls] & Hm & H). apply result_bind_ok in H as (aes & _ & H).
  apply result_bind_ok in H as (call & Hcall & H). apply result_bind_ok in H as (acct & _ & H).
  apply result_bind_ok in H as (mgr & _ & H). case_decide; [done|]. unfold contract_call in H. simpl in H.
  exists fp, m, ttls, call, acct, mgr. split; [|split; [done|]].
  - split; eauto.
  - destruct (invoke W _ _ _) as [r h]. exact H.
Qed.

Section started.
Context {X : Xdr} {key_order : list LedgerKey → list LedgerKey} (read_key : bytes → Result LedgerKey)
  (key_order_perm : ∀ l, key_order l ≡ₚ l) (Hdec : decodable X read_key).

(** A finished run, seen on the ledger map. *)
Lemma finished_commits W auths li es ts fp m ttls cid (p : prog ScVal) out :
  build_storage_map_from_xdr_ledger_entries X key_order fp es ts (sequence_number li) = Ok (m, ttls) →
  (let '(r, h) := invoke W auths p (mkHost (with_enforcing_footprint_and_map fp m) li cid ∅ []) in
   finish_invocation X key_order m ttls r (h_storage h) (h_events h) = Ok out) →
  let before := known m in
  let '(r, h) := invoke W auths p (mkHost before li cid ∅ []) in
  match encoded_invoke_result out with
  | Ok b =>
      (∃ v, r = Ok v ∧ write_val X v = Ok b) ∧
      m_collect (write_event X) (emitted (h_events h)) = Ok (encoded_contract_events out) ∧
      ∀ k, let after := apply_changes X read_key before (ledger_changes out) !! k in
        fst <$> after = fst <$> h_storage h !! k ∧
        (is_Some (get_key_durability k) → timed (h_storage h !! k) ∧ after = committed (before !! k) (h_storage h !! k)) ∧
        (fp !! k ≠ Some ReadWrite → fst <$> after = fst <$> before !! k)
  | Err e =>
      ledger_changes out = [] ∧ encoded_contract_events out = [] ∧
      (r = Err e ∨ e = EHost TStorage ExceededLimit ∨ ∃ v, r = Ok v ∧ write_val X v = Err e)
  end.
Proof.
  intros Hb Hfin before. destruct (build_storage_ok _ _ key_order_perm _ _ _ _ _ Hb) as [Hbuilt Hdom]. simpl in *.
  destruct (built_represents li fp m Hbuilt Hdom) as [Hrep Hpop].
  set (h0 := mkHost (with_enforcing_footprint_and_map fp m) li cid ∅ []) in *.
  set (e0 := mkHost before li cid ∅ []).
  pose proof (invoke_refines W auths p h0 e0 (conj eq_refl (conj eq_refl (conj eq_refl (conj eq_refl Hrep))))) as Href.
  pose proof (λ k, invoke_left W auths p h0 k eq_refl Hpop) as Hleft. simpl in Hleft.
  cbv zeta in Href. destruct (invoke W auths p h0) as [r h] eqn:Hh, (invoke W auths p e0) as [r' e] eqn:He.
  simpl in *. unfold finish_invocation in Hfin. destruct (r ≫= write_val X) as [b|err] eqn:Hwr.
  - apply result_bind_ok in Hfin as (cs & Hcs & Hfin). apply result_bind_ok in Hfin as (evs & Hevs & [= <-]). simpl.
    destruct r as [v|]; [|done]. destruct Href as [[<- Hr]|[_ [=]]].
    destruct (Hr v eq_refl) as (_ & _ & _ & He' & [Hwf Hview]). unfold encode_contract_events in Hevs.
    rewrite He' in Hevs. split; [by exists v|]. split; [done|]. intros k.
    assert (h_storage e !! k = default None (smap (h_storage h) !! k)) as Hk.
    { rewrite <-Hview. unfold storage_view. destruct (smap (h_storage h) !! k); [done|].
      pose proof (invoke_guarded W auths p h0 eq_refl Hpop) as Hg. rewrite Hh in Hg.
      destruct Hg as [Hmode _]. simpl in Hmode. by rewrite Hmode. }
    destruct (Hleft k) as (Hf & Hd & _).
    destruct (ledger_changes_ok X key_order key_order_perm read_key (proj1 Hdec) (proj2 Hdec) _ _ _ _ Hcs) with (k := k) as [H1 H2].
    { intros k' Hk'. apply Hleft. by rewrite <-Hf. }
    { intros k'. rewrite <-not_elem_of_dom, Hd, not_elem_of_dom. intros Hk'. by rewrite known_lookup, Hk'. }
    rewrite Hk. unfold before at 1 2 3 4. split_and!; [done|done|]. intros Hrw. rewrite H1.
    destruct (fp !! k) as [[]|] eqn:Hfp; [|done|].
    + apply entry_kept_fst. by apply Hleft.
    + assert (m !! k = None) as Hmk by (apply not_elem_of_dom; rewrite Hdom; by apply not_elem_of_dom).
      unfold before. rewrite known_lookup, Hmk. simpl.
      assert (smap (h_storage h) !! k = None) as ->; [|done].
      apply not_elem_of_dom. rewrite Hd. by apply not_elem_of_dom.
  - injection Hfin as <-. simpl. split_and!; [done..|]. destruct r as [v|e1].
    + destruct Href as [[<- _]|[_ [=]]]. right. right. eauto.
    + injection Hwr as ->. destruct Href as [[<- _]|[_ [= ->]]]; auto.
Qed.
End started.

(** C13: An invocation from outside does to the ledger what the contract program, run on
    the ledger itself, does.  The entries it is given are the ones a ledger holds for its
    footprint; if it succeeds, the result and the events are the encoded ones of that run,
    and applying the reported changes gives every entry the value the run left, absent
    where it was removed, with a lifetime that is never reduced; an entry the footprint
    does not list as writable keeps its value.  If it fails, nothing is changed and no
    event reported, and either the run failed so too, or the footprint was exceeded, or
    the result cannot be encoded. *)
Theorem invocation_commits X key_order read_key read_fn W auths fb rb sb ab li es ts seed out :
  (∀ l, key_order l ≡ₚ l) → decodable X read_key →
  invoke_host_function X key_order read_fn (contract_call W auths) fb rb sb ab li es ts seed = Ok out →
  ∃ fp m call acct mgr,
    Started X key_order read_fn fb rb li es ts fp m call ∧
    let before := known m in
    let '(r, h) := invoke W (auths acct mgr) call.2 (mkHost before li call.1 ∅ []) in
    match encoded_invoke_result out with
    | Ok b =>
        (∃ v, r = Ok v ∧ write_val X v = Ok b) ∧
        m_collect (write_event X) (emitted (h_events h)) = Ok (encoded_contract_events out) ∧
        ∀ k, let after := apply_changes X read_key before (ledger_changes out) !! k in
          fst <$> after = fst <$> h_storage h !! k ∧
          (is_Some (get_key_durability k) → timed (h_storage h !! k) ∧ after = committed (before !! k) (h_storage h !! k)) ∧
          (fp !! k ≠ Some ReadWrite → fst <$> after = fst <$> before !! k)
    | Err e =>
        ledger_changes out = [] ∧ encoded_contract_events out = [] ∧
        (r = Err e ∨ e = EHost TStorage ExceededLimit ∨ ∃ v, r = Ok v ∧ write_val X v = Err e)
    end.
Proof.
  intros Hperm Hdec (fp & m & ttls & call & acct & mgr & Hst & Hb & Hfin)%invocation_ran.
  exists fp, m, call, acct, mgr. split; [done|]. by eapply finished_commits.
Qed.

(** A finished run reports the rent of the ledger before and after. *)
Lemma finished_rent {X key_order} read_key W auths li es ts fp m ttls cid (p : prog ScVal) out b :
  (∀ l, key_order l ≡ₚ l) → decodable X read_key → 0 <= sequence_number li →
  build_storage_map_from_xdr_ledger_entries X key_order fp es ts (sequence_number li) = Ok (m, ttls) →
  (let '(r, h) := invoke W auths p (mkHost (with_enforcing_footprint_and_map fp m) li cid ∅ []) in
   finish_invocation X key_order m ttls r (h_storage h) (h_events h) = Ok out) →
  encoded_invoke_result out = Ok b →
  extract_rent_changes (ledger_changes out) =
    omap (λ k, rent_due X k (known m !! k) (apply_changes X read_key (known m) (ledger_changes out) !! k))
      (iter_keys key_order fp).
Proof.
  intros Hperm Hdec Hseq Hb Hfin Hok. destruct (build_storage_ok _ _ Hperm _ _ _ _ _ Hb) as [Hbuilt Hdom]. simpl in *.
  destruct (built_represents li fp m Hbuilt Hdom) as [_ Hpop].
  set (h0 := mkHost (with_enforcing_footprint_and_map fp m) li cid ∅ []) in *.
  pose proof (λ k, invoke_left W auths p h0 k eq_refl Hpop) as Hleft. simpl in Hleft.
  destruct (invoke W auths p h0) as [r h]. unfold finish_invocation in Hfin.
  destruct (r ≫= write_val X) as [b'|e]; [|injection Hfin as <-; done].
  apply result_bind_ok in Hfin as (cs & Hcs & Hfin). apply result_bind_ok in Hfin as (evs & _ & [= <-]). simpl in *.
  rewrite (rent_changes_ok X key_order Hperm read_key (proj1 Hdec) (proj2 Hdec) _ _ _ _ Hcs).
  - do 2 f_equal. unfold iter_keys. destruct (Hleft (KContractCode 0%N)) as (_ & -> & _). by rewrite Hdom.
  - intros k. destruct (Hleft k) as (-> & _ & H). exact H.
  - intros k. rewrite known_lookup. destruct (m !! k) as [[[e [n|]]|]|] eqn:Hk; simpl; try lia.
    destruct (Hbuilt k _ Hk) as (_ & _ & _ & Hn). specialize (Hn n eq_refl). lia.
Qed.

(** C15: What an invocation owes in rent follows from the ledger before and after it: the
    changes extracted from its result are, for the footprint's keys in order, those of
    the entries that have a lifetime, are there afterwards, and got bigger or were
    extended; each gives the sizes and lifetimes of both ledgers, and names a lifetime
    that is not below the old one.  An invocation that leaves these entries alone owes
    nothing. *)
Theorem invocation_rent X key_order read_key read_fn W auths fb rb sb ab li es ts seed out b :
  (∀ l, key_order l ≡ₚ l) → decodable X read_key → 0 <= sequence_number li →
  invoke_host_function X key_order read_fn (contract_call W auths) fb rb sb ab li es ts seed = Ok out →
  encoded_invoke_result out = Ok b →
  ∃ fp m call, Started X key_order read_fn fb rb li es ts fp m call ∧
    let before := known m in
    let after := apply_changes X read_key before (ledger_changes out) in
    let rents := extract_rent_changes (ledger_changes out) in
    rents = omap (λ k, rent_due X k (before !! k) (after !! k)) (iter_keys key_order fp) ∧
    Forall (λ c, old_live_until_ledger c <= new_live_until_ledger c) rents ∧
    ((∀ k, is_Some (get_key_durability k) → after !! k = before !! k) → rents = []).
Proof.
  intros Hperm Hdec Hseq (fp & m & ttls & call & acct & mgr & Hst & Hb & Hfin)%invocation_ran Hok.
  exists fp, m, call. split; [done|]. cbv zeta.
  pose proof (finished_rent read_key _ _ _ _ _ _ _ _ _ _ _ _ Hperm Hdec Hseq Hb Hfin Hok) as Hrents.
  pose proof (finished_commits read_key Hperm Hdec _ _ _ _ _ _ _ _ _ _ _ Hb Hfin) as Hcommit. cbv zeta in Hcommit. clear Hfin.
  destruct (invoke W (auths acct mgr) call.2 _) as [r h]. rewrite Hok in Hcommit. destruct Hcommit as (_ & _ & Hafter).
  rewrite Hrents. split_and!; [done| |].
  - apply Forall_forall. intros c (k & _ & Hc)%list_elem_of_omap. destruct (Hafter k) as (_ & Hk & _).
    unfold rent_due in Hc. destruct (get_key_durability k) as [d|]; [|done].
    destruct (Hk ltac:(done)) as [Ht Ha]. rewrite Ha in Hc.
    destruct (h_storage h !! k) as [[e lu]|]; [|done]. destruct Ht as [n ->]. simpl in Hc.
    case_decide; [|done]. injection Hc as <-. simpl. lia.
  - intros Hsame. apply elem_of_nil_inv. intros c (k & _ & Hc)%list_elem_of_omap.
    unfold rent_due in Hc. destruct (get_key_durability k) as [d|] eqn:Hd; [|done].
    rewrite Hsame in Hc by (by rewrite Hd). destruct (known m !! k); [|done]. case_decide; [lia|done].
Qed.
