(* ===== verification/E2eRecord.v ===== *)
(** Recording an invocation: from a live snapshot and encoders that succeed, recording
    mode goes through, and what it reports is enough for the enforcing invocation. *)
From S2P Require Import Prelude ScVal Storage Host AuthTree Auth Fees.
From S2P Require Import Access Replay E2e E2eThms E2eProps.
#[local] Open Scope m_scope.

(** Values within the limits of the encoders: what is encoded is decoded again. *)
Record Encodes (X : Xdr) : Prop := {
  encodes_key : ∀ k, ∃ b, write_key X k = Ok b;
  encodes_entry : ∀ e, ∃ b, write_entry X e = Ok b ∧ read_entry X b = Ok e;
  encodes_ttl : ∀ t, ∃ b, write_ttl X t = Ok b ∧ b ≠ [] ∧ read_ttl X b = Ok t;
  encodes_val : ∀ v, ∃ b, write_val X v = Ok b;
  encodes_event : ∀ e, ∃ b, write_event X e = Ok b;
  encodes_resources : ∀ r, ∃ b, write_resources X r = Ok b ∧ read_resources X b = Ok r
}.

(** A snapshot of a ledger: it answers for every key, with the entry of that key, whose
    lifetime is known and not over. *)
Definition live_snapshot (li : LedgerInfo) (src : SnapshotSource) : Prop := ∀ k, ∃ o, src k = Ok o ∧
  match o with
  | Some (e, lu) => ledger_entry_to_ledger_key e = Ok k ∧
      (is_Some lu ↔ is_Some (get_key_durability k)) ∧ ∀ n, lu = Some n → sequence_number li <= n
  | None => True
  end.

Lemma m_collect_total {A B} (f : A → Result B) l : (∀ x, x ∈ l → ∃ y, f x = Ok y) → ∃ ys, m_collect f l = Ok ys.
Proof.
  induction l as [|x l IH]; intros Hf; [by exists []|]. simpl.
  destruct (Hf x) as [y ->]; [apply list_elem_of_here|].
  destruct IH as [ys ->]; [|by eexists]. intros z Hz. apply Hf. by apply list_elem_of_further.
Qed.
Lemma m_collect_ext {A B} (f g : A → Result B) l : (∀ x, x ∈ l → f x = g x) → m_collect f l = m_collect g l.
Proof.
  induction l as [|x l IH]; intros Hf; [done|]. simpl. rewrite Hf by apply list_elem_of_here.
  rewrite IH; [done|]. intros z Hz. apply Hf. by apply list_elem_of_further.
Qed.

Lemma needs_ttl_durable e k : ledger_entry_to_ledger_key e = Ok k → needs_ttl e = bool_decide (is_Some (get_key_durability k)).
Proof.
  destruct e as [a|t|d|c|u]; intros [= <-]; reflexivity.
Qed.

Section record.
Context (X : Xdr) (key_order : list LedgerKey → list LedgerKey) (key_order_perm : ∀ l, key_order l ≡ₚ l).

(** ** Footprints *)

Lemma add_footprint_keys_ok ty keys m : (∀ k, k ∈ keys → check_supported_ledger_key_type k = Ok tt) →
  ∃ m', add_footprint_keys ty keys m = Ok m' ∧
    ∀ k, m' !! k = if decide (k ∈ keys) then Some ty else m !! k.
Proof.
  revert m. induction keys as [|key keys IH]; intros m Hs; [exists m; split; [done|]; intros k; by rewrite decide_False by set_solver|].
  simpl. rewrite Hs by apply list_elem_of_here. simpl. destruct (IH (<[key := ty]> m)) as (m' & Hm & Hk).
  { intros k Hk. apply Hs. by apply list_elem_of_further. }
  exists m'. split; [done|]. intros k. rewrite Hk. destruct (decide (k ∈ keys)); [by rewrite decide_True by set_solver|].
  destruct (decide (key = k)) as [->|]; [by rewrite lookup_insert_eq, decide_True by set_solver|].
  by rewrite lookup_insert_ne, decide_False by set_solver.
Qed.

(** A footprint goes through its lists of keys. *)
Lemma footprint_roundtrip fp : (∀ k, is_Some (fp !! k) → check_supported_ledger_key_type k = Ok tt) →
  build_storage_footprint_from_xdr (storage_footprint_to_ledger_footprint key_order fp) = Ok fp.
Proof.
  intros Hs. unfold build_storage_footprint_from_xdr. simpl.
  assert (∀ ty k, k ∈ filter (λ key, fp !! key = Some ty) (iter_keys key_order fp) ↔ fp !! k = Some ty) as Hin.
  { intros ty k. rewrite list_elem_of_filter, elem_iter_keys by done. split; [tauto|]. intros H. by rewrite H. }
  destruct (add_footprint_keys_ok ReadWrite (filter (λ key, fp !! key = Some ReadWrite) (iter_keys key_order fp)) ∅) as (m & -> & Hm).
  { intros k Hk%Hin. apply Hs. by eexists. }
  simpl. destruct (add_footprint_keys_ok ReadOnly (filter (λ key, fp !! key = Some ReadOnly) (iter_keys key_order fp)) m) as (m' & -> & Hm').
  { intros k Hk%Hin. apply Hs. by eexists. }
  f_equal. apply map_eq. intros k. rewrite Hm', Hm, lookup_empty.
  destruct (decide (k ∈ filter _ _)) as [->%Hin|Hro]; [done|]. rewrite Hin in Hro.
  destruct (decide (k ∈ filter _ _)) as [->%Hin|Hrw]; [done|]. rewrite Hin in Hrw.
  destruct (fp !! k) as [[]|]; done.
Qed.

(** ** Entries *)
Context (HX : Encodes X) (li : LedgerInfo) (src : SnapshotSource) (Hsrc : live_snapshot li src).

Definition snapshot_view (k : LedgerKey) : option EntryWithLiveUntil :=
  match src k with Ok o => o | Err _ => None end.
Lemma snapshot_ok k : src k = Ok (snapshot_view k).
Proof. unfold snapshot_view. by destruct (Hsrc k) as (o & -> & _). Qed.

(** One entry, encoded, is added back. *)
Lemma entry_added fp k e lu maps : src k = Ok (Some (e, lu)) → is_Some (fp !! k) →
  ∃ b t maps', encode_with_ttl X k (e, lu) = Ok (b, t) ∧
    add_ledger_entry X fp (sequence_number li) b t maps = Ok maps' ∧ maps'.1 = <[k := Some (e, lu)]> maps.1.
Proof.
  intros Hk Hfp. destruct (Hsrc k) as (o & Ho & Hent). rewrite Hk in Ho. injection Ho as <-.
  destruct Hent as (Hkey & Hlu & Hlive). unfold encode_with_ttl, add_ledger_entry. simpl.
  destruct (encodes_entry X HX e) as (b & -> & Hr). simpl. destruct lu as [n|].
  - destruct (encodes_key X HX k) as [kb ->]. simpl.
    destruct (encodes_ttl X HX (mkTtlEntry (hash_bytes X kb) n)) as (t & -> & Hne & Hrt). simpl.
    exists b, t. eexists. split; [done|]. rewrite Hr. simpl. rewrite Hkey. simpl.
    destruct t as [|t0 t]; [done|]. rewrite Hrt. simpl. rewrite decide_False by (specialize (Hlive n eq_refl); lia).
    simpl. rewrite bool_decide_true by done. done.
  - exists b, []. eexists. split; [done|]. rewrite Hr. simpl. rewrite Hkey. simpl.
    rewrite (needs_ttl_durable _ _ Hkey), (bool_decide_false (is_Some (get_key_durability k))) by (rewrite <-Hlu; by intros [? [=]]).
    simpl. rewrite bool_decide_true by done. done.
Qed.

Lemma snapshot_encoded fp keys acc maps : (∀ k, k ∈ keys → is_Some (fp !! k)) →
  ∃ l n maps', encode_snapshot X src keys acc = Ok (acc.1 ++ l, n) ∧
    add_ledger_entries X fp (sequence_number li) l maps = Ok maps' ∧
    ∀ k, maps'.1 !! k = if decide (k ∈ keys) then match snapshot_view k with Some v => Some (Some v) | None => maps.1 !! k end
                        else maps.1 !! k.
Proof.
  revert acc maps. induction keys as [|key keys IH]; intros acc maps Hin.
  { exists [], acc.2, maps. rewrite app_nil_r. split; [by destruct acc|]. split; [done|]. intros k.
    by rewrite decide_False by set_solver. }
  simpl. rewrite snapshot_ok. simpl. destruct (snapshot_view key) as [[e lu]|] eqn:Hv.
  - destruct (entry_added fp key e lu maps) as (b & t & maps1 & -> & Hadd & Hmaps1); [by rewrite snapshot_ok, Hv|apply Hin; set_solver|].
    simpl. destruct (IH (acc.1 ++ [(b, t)], u32_saturating_add acc.2 (as_u32 (length b))) maps1) as (l & n & maps' & Henc & Hl & Hk).
    { intros k Hk. apply Hin. set_solver. }
    exists ((b, t) :: l), n, maps'. simpl in Henc. rewrite <-app_assoc in Henc. split; [exact Henc|].
    split; [simpl; by rewrite Hadd|]. intros k. rewrite Hk, Hmaps1.
    destruct (decide (key = k)) as [->|Hne].
    + rewrite lookup_insert_eq, Hv. rewrite (decide_True (P := k ∈ k :: keys)) by set_solver. by case_decide.
    + rewrite lookup_insert_ne by done. destruct (decide (k ∈ keys)); [by rewrite decide_True by set_solver|].
      by rewrite decide_False by set_solver.
  - destruct (IH acc maps) as (l & n & maps' & Henc & Hl & Hk); [intros k Hk; apply Hin; set_solver|].
    exists l, n, maps'. split; [done|]. split; [done|]. intros k. rewrite Hk.
    destruct (decide (key = k)) as [->|Hne].
    + rewrite Hv. rewrite (decide_True (P := k ∈ k :: keys)) by set_solver. by case_decide.
    + destruct (decide (k ∈ keys)); [by rewrite decide_True by set_solver|]. by rewrite decide_False by set_solver.
Qed.

(** The snapshot, encoded and read back, is the storage of the enforcing invocation. *)
Lemma snapshot_rebuilt fp : ∃ l n m ttls,
  encode_snapshot X src (iter_keys key_order fp) ([], 0) = Ok (l, n) ∧
  build_storage_map_from_xdr_ledger_entries X key_order fp l.*1 l.*2 (sequence_number li) = Ok (m, ttls) ∧
  ∀ k, m !! k = if decide (is_Some (fp !! k)) then Some (snapshot_view k) else None.
Proof.
  destruct (snapshot_encoded fp (iter_keys key_order fp) ([], 0) (∅, ∅)) as (l & n & [m ttls] & Henc & Hl & Hk).
  { intros k. by rewrite elem_iter_keys. }
  simpl in *. exists l, n. unfold build_storage_map_from_xdr_ledger_entries. rewrite !length_fmap, decide_False by (by intros ?).
  rewrite zip_fst_snd, Hl. simpl. eexists _, _. split; [done|]. split; [done|]. intros k.
  unfold add_missing_keys. rewrite add_missing_lookup, Hk, lookup_empty.
  destruct (decide (is_Some (fp !! k))) as [Hfp|Hfp].
  - rewrite decide_True, bool_decide_true by (by apply elem_iter_keys). by destruct (snapshot_view k).
  - rewrite decide_False, bool_decide_false by (by rewrite elem_iter_keys). done.
Qed.
End record.

(** ** Changes *)
Section changes.
Context (X : Xdr).

Lemma entry_change_ext fp snap snap' ttls k new : snap k = snap' k →
  ledger_entry_change X fp snap ttls k new = ledger_entry_change X fp snap' ttls k new.
Proof. intros H. unfold ledger_entry_change. by rewrite H. Qed.

Lemma footprint_only_none s keys : (∀ k, k ∈ keys → is_Some (smap s !! k)) → footprint_only_changes X s keys = [].
Proof.
  induction keys as [|key keys IH]; intros Hk; [done|]. simpl. rewrite bool_decide_true by (apply Hk; set_solver).
  apply IH. intros k Hin. apply Hk. set_solver.
Qed.
Context (HX : Encodes X).

Lemma entry_change_total fp snapshot ttls k new old :
  is_Some (fp !! k) → snapshot k = Ok old →
  (is_Some (get_key_durability k) → timed old ∧ timed new) →
  ∃ c, ledger_entry_change X fp snapshot ttls k new = Ok c.
Proof.
  intros [ty Hfp] Hold Ht. unfold ledger_entry_change. destruct (encodes_key X HX k) as [kb ->]. simpl.
  rewrite Hold. simpl. unfold initial_ttl_change.
  assert (∃ so oc, note_old_entry X old (initial_ttl_change X ttls k kb) = Ok (so, oc) ∧
    (is_Some oc → is_Some (get_key_durability k))) as (so & oc & Ho & Hoc).
  { unfold note_old_entry, initial_ttl_change. destruct old as [[e lu]|].
    - destruct (encodes_entry X HX e) as (b & -> & _). simpl. destruct (get_key_durability k) as [d|].
      + destruct Ht as [[n ->] _]; [by eexists|]. simpl. eexists _, _. split; [done|]. by eexists.
      + eexists _, _. split; [done|]. by intros [? [=]].
    - eexists _, _. split; [done|]. destruct (get_key_durability k); [by eexists|]. by intros [? [=]]. }
  unfold initial_ttl_change in Ho. rewrite Ho. simpl.
  assert (∃ oc', note_new_entry new oc = Ok oc') as [oc' ->].
  { unfold note_new_entry. destruct new as [[e lu]|]; [|by eexists]. destruct oc as [c|]; [|by eexists].
    destruct Ht as [_ [n ->]]; [by apply Hoc; eexists|]. by eexists. }
  simpl. rewrite Hfp. destruct ty; [by eexists|]. destruct new as [[e lu]|]; [|by eexists].
  destruct (encodes_entry X HX e) as (b & -> & _). by eexists.
Qed.

End changes.

(** ** Both runs *)
Section runs.
Context {X : Xdr} {key_order : list LedgerKey → list LedgerKey} (key_order_perm : ∀ l, key_order l ≡ₚ l)
  (HX : Encodes X) {li : LedgerInfo} {src : SnapshotSource} (Hsrc : live_snapshot li src)
  (W : External) (auths : gset ScAddress) (cid : Hash) (p : prog ScVal).

Definition recording_host : Host Storage := mkHost (with_recording_footprint src) li cid ∅ [].

Lemma recording_start : recording li (with_recording_footprint src) ∧ recording_full (with_recording_footprint src).
Proof.
  split.
  - split; [done|]. split.
    + intros k _. destruct (Hsrc k) as (o & Ho & Hent). exists o. split; [exact Ho|].
      destruct o as [[e [n|]]|]; [|done..]. destruct Hent as (_ & _ & Hlive). unfold check_if_entry_is_live.
      by rewrite decide_True by (by apply Hlive).
    + split; intros k; simpl; rewrite lookup_empty; by intros [? [=]].
  - split; [intros k; simpl; rewrite lookup_empty; by intros [? [=]]|]. exists src. split; [done|].
    intros k. destruct (Hsrc k) as (o & Ho & _). by eexists.
Qed.

(** The recording run, the storage rebuilt for its footprint, and the enforcing run on it. *)
Lemma both_runs : let '(r, h) := invoke W auths p recording_host in let fp := footprint (h_storage h) in
  (∀ k, is_Some (fp !! k) → check_supported_ledger_key_type k = Ok tt) ∧
  (∀ k, is_Some (smap (h_storage h) !! k) → is_Some (fp !! k)) ∧
  (∀ a, r = Ok a → ∀ k, is_Some (fp !! k) → is_Some (smap (h_storage h) !! k)) ∧
  ∀ m, (∀ k, m !! k = if decide (is_Some (fp !! k)) then Some (snapshot_view src k) else None) →
    let '(r', h') := invoke W auths p (mkHost (with_enforcing_footprint_and_map fp m) li cid ∅ []) in
    r' = r ∧ h_events h' = h_events h ∧ footprint (h_storage h') = fp ∧
    (∀ k, smap (h_storage h') !! k = if decide (is_Some (fp !! k)) then Some (storage_view (h_storage h) k) else None) ∧
    ∀ a, r = Ok a → all_timed (h_storage h').
Proof.
  destruct recording_start as [Hrec Hfull].
  destruct (invoke_replays W auths p recording_host Hrec) as (_ & Hm & (_ & _ & Hcov & Hsup) & _ & Hsim).
  pose proof (kept_invoke stays_full full_kept W auths p recording_host) as Hkept.
  destruct (invoke W auths p recording_host) as [r h] eqn:Hh. simpl in *.
  split; [exact Hsup|]. split; [exact Hcov|]. split.
  { intros a Ha. by destruct (Hkept a Ha Hfull) as [Hpop _]. }
  intros m Hmap. set (e := mkHost (with_enforcing_footprint_and_map _ m) li cid ∅ []).
  destruct (Hsim (footprint (h_storage h)) e) as (Hr & (_ & Hf & Hk) & (_ & _ & _ & Hev)); [done| |by split_and!|].
  { split; [done|]. split; [done|]. intros k. simpl. rewrite Hmap. unfold storage_view. simpl. by rewrite lookup_empty. }
  pose proof (kept_invoke stays_timed timed_kept W auths p e) as Htimed.
  destruct (invoke W auths p e) as [r' h'] eqn:He. simpl in *. subst r'. split_and!; [done..|].
  intros a Ha. apply (Htimed a Ha). split; [done|]. intros k o Hmk Hd. simpl in Hmk. rewrite Hmap in Hmk.
  case_decide; [|done]. injection Hmk as <-. unfold snapshot_view. destruct (Hsrc k) as (o & -> & Hent).
  destruct o as [[en lu]|]; [|done]. simpl. by apply Hent.
Qed.

(** The changes found while recording are those of the enforcing run. *)
Lemma recorded_changes_same h h' m ttls fp :
  footprint h = fp → footprint h' = fp →
  (∀ k, is_Some (smap h !! k) ↔ is_Some (fp !! k)) →
  (∀ k, m !! k = if decide (is_Some (fp !! k)) then Some (snapshot_view src k) else None) →
  (∀ k, smap h' !! k = if decide (is_Some (fp !! k)) then Some (storage_view h k) else None) →
  all_timed h' →
  ∃ cs, get_ledger_changes X key_order h src ttls = Ok cs ∧ add_footprint_only_ledger_changes X key_order h cs = cs ∧
    get_ledger_changes X key_order h' (storage_map_snapshot m) ttls = Ok cs.
Proof using HX Hsrc key_order_perm.
  intros Hf Hf' Hcov Hm Hk [_ Ht].
  assert (dom (smap h) = dom fp) as Hd by (apply set_eq; intros k; by rewrite !elem_of_dom).
  assert (dom (smap h') = dom fp) as Hd'.
  { apply set_eq. intros k. rewrite !elem_of_dom, Hk. case_decide; [by split; [|eexists]|]. split; [by intros [? [=]]|done]. }
  unfold get_ledger_changes. rewrite Hf, Hf'.
  assert (iter_keys key_order (smap h) = iter_keys key_order fp) as -> by (unfold iter_keys; by rewrite Hd).
  assert (iter_keys key_order (smap h') = iter_keys key_order fp) as -> by (unfold iter_keys; by rewrite Hd').
  rewrite (m_collect_ext (λ key, ledger_entry_change X fp (storage_map_snapshot m) ttls key (default None (smap h' !! key)))
    (λ key, ledger_entry_change X fp src ttls key (default None (smap h !! key)))).
  - destruct (m_collect_total (λ key, ledger_entry_change X fp src ttls key (default None (smap h !! key))) (iter_keys key_order fp)) as [cs Hcs].
    + intros k Hin%elem_iter_keys; [|done]. destruct (Hsrc k) as (o & Ho & Hent).
      apply (entry_change_total X HX _ _ _ _ _ o Hin Ho). intros Hdk. split.
      * destruct o as [[e lu]|]; [|done]. by apply Hent.
      * apply (Ht k); [|done]. rewrite Hk, decide_True by done. unfold storage_view.
        apply Hcov in Hin as [v Hv]. by rewrite Hv.
    + exists cs. split; [exact Hcs|]. split; [|exact Hcs]. unfold add_footprint_only_ledger_changes.
      rewrite footprint_only_none; [by rewrite app_nil_r|]. intros k Hin%elem_iter_keys; [|done]. apply Hcov. by rewrite <-Hf.
  - intros k Hin%elem_iter_keys; [|done]. rewrite Hk, decide_True by done. apply Hcov in Hin as Hv. destruct Hv as [v Hv].
    unfold storage_view. rewrite Hv. simpl. apply entry_change_ext. unfold storage_map_snapshot. rewrite Hm, decide_True by done.
    unfold snapshot_view. destruct (Hsrc k) as (o & -> & _). by destruct o.
Qed.
End runs.

(** Recording goes through. *)
Lemma recording_total {X key_order} li src r h l n m ttls :
  Encodes X → (∀ k, is_Some (footprint h !! k) → check_supported_ledger_key_type k = Ok tt) →
  (∀ l, key_order l ≡ₚ l) →
  encode_snapshot X src (iter_keys key_order (footprint h)) ([], 0) = Ok (l, n) →
  build_storage_map_from_xdr_ledger_entries X key_order (footprint h) l.*1 l.*2 (sequence_number li) = Ok (m, ttls) →
  (∀ v, r = Ok v → ∃ cs, get_ledger_changes X key_order h src ttls = Ok cs ∧ add_footprint_only_ledger_changes X key_order h cs = cs) →
  ∀ evs, ∃ rr, finish_recording X key_order src (sequence_number li) r h evs = Ok rr ∧
    invoke_result rr = r ∧ res_footprint (resources rr) = storage_footprint_to_ledger_footprint key_order (footprint h) ∧
    contract_events rr = match r with Ok _ => emitted evs | Err _ => [] end ∧
    ∀ v, r = Ok v → get_ledger_changes X key_order h src ttls = Ok (recorded_changes rr).
Proof.
  intros HX Hsup Hperm Henc Hbuild Hcs evs. unfold finish_recording.
  rewrite (footprint_roundtrip key_order Hperm) by done. rewrite Henc. simpl. rewrite Hbuild. simpl.
  destruct (encodes_resources X HX (mkResources (storage_footprint_to_ledger_footprint key_order (footprint h)) n 0))
    as (rb & -> & Hrb). simpl. rewrite Hrb. destruct r as [v|e]; simpl.
  - destruct (encodes_val X HX v) as [vb ->]. simpl. destruct (Hcs v eq_refl) as (cs & Hc & Hadd). rewrite Hc. simpl.
    destruct (m_collect_total (write_event X) (emitted evs)) as [es Hes]; [intros ev _; apply (encodes_event X HX)|].
    unfold encode_contract_events. rewrite Hes. simpl. rewrite Hadd. eexists. split; [done|]. simpl. by split_and!.
  - eexists. split; [done|]. simpl. by split_and!.
Qed.

(** C14: The footprint that recording mode reports is enough for the enforcing invocation.
    Recording is done here with the authorization entries given and signed, so that they are
    enforced; it starts from a live snapshot, with encoders that write every key, entry,
    value and event ([Encodes]) and read back what they wrote.  Then it succeeds whatever
    the contract does; and [invoke_host_function], given resources with the recorded
    footprint, whatever else they say, and the snapshot's entries for it, succeeds as well,
    with the same result or error, the same events, and exactly the changes, in the same
    order, that were recorded.  The recorded instructions and the recording of authorization
    are not part of it. *)
Theorem recording_predicts X key_order read_fn W auths cid (p : prog ScVal) acct aes mgr li src seed :
  (∀ l, key_order l ≡ₚ l) → Encodes X → live_snapshot li src →
  (∀ e, e ∈ aes → ∃ b, write_auth_entry X e = Ok b ∧ read_auth_entry X b = Ok e) →
  new_enforcing (Some (Account acct)) aes = Ok mgr →
  ∃ rr fp entries read_bytes,
    invoke_host_function_in_recording_mode X key_order (contract_call W auths) (cid, p) acct aes li src seed = Ok rr ∧
    build_storage_footprint_from_xdr (res_footprint (resources rr)) = Ok fp ∧
    encode_snapshot X src (iter_keys key_order fp) ([], 0) = Ok (entries, read_bytes) ∧
    ∀ fb rb res sb ab, read_fn fb = Ok (cid, p) → read_resources X rb = Ok res →
      res_footprint res = res_footprint (resources rr) → read_account X sb = Ok acct →
      m_collect (read_auth_entry X) ab = Ok aes → length seed = 32%nat →
      ∃ out, invoke_host_function X key_order read_fn (contract_call W auths) fb rb sb ab li entries.*1 entries.*2 seed = Ok out ∧
        match invoke_result rr with
        | Ok v => write_val X v = encoded_invoke_result out ∧ ledger_changes out = recorded_changes rr ∧
            m_collect (write_event X) (contract_events rr) = Ok (encoded_contract_events out)
        | Err e => encoded_invoke_result out = Err e ∧ ledger_changes out = [] ∧ encoded_contract_events out = []
        end.
Proof.
  intros Hperm HX Hsrc Haes Hmgr. unfold invoke_host_function_in_recording_mode. rewrite Hmgr. simpl. unfold contract_call. simpl.
  pose proof (both_runs Hsrc W (auths acct mgr) cid p) as Hboth. unfold recording_host in Hboth.
  destruct (invoke W (auths acct mgr) p _) as [r h] eqn:Hrun. cbv zeta in Hboth.
  destruct Hboth as (Hsup & Hcov & Hfull & Hboth).
  destruct (snapshot_rebuilt X key_order Hperm HX li src Hsrc (footprint (h_storage h))) as (l & n & m & ttls & Henc & Hbuild & Hm).
  specialize (Hboth m Hm).
  destruct (invoke W (auths acct mgr) p (mkHost (with_enforcing_footprint_and_map _ m) li cid ∅ [])) as [r' h'] eqn:Hrun'.
  destruct Hboth as (-> & Hev & Hf' & Hk & Ht).
  assert (∀ v, r = Ok v → ∃ cs, get_ledger_changes X key_order (h_storage h) src ttls = Ok cs ∧
    add_footprint_only_ledger_changes X key_order (h_storage h) cs = cs ∧
    get_ledger_changes X key_order (h_storage h') (storage_map_snapshot m) ttls = Ok cs) as Hcs.
  { intros v Hv. refine (recorded_changes_same Hperm HX Hsrc _ _ m ttls _ eq_refl Hf' _ Hm Hk (Ht v Hv)).
    intros k. split; [apply Hcov|exact (Hfull v Hv k)]. }
  destruct (m_collect_total (λ e, buf ← write_auth_entry X e; read_auth_entry X buf) aes) as [aes' ->].
  { intros e He. destruct (Haes e He) as (b & -> & Hb). by exists e. }
  simpl.
  destruct (recording_total li src r (h_storage h) l n m ttls HX Hsup Hperm Henc Hbuild) with (evs := h_events h)
    as (rr & Hrr & Hres & Hfp & Hevs & Hchg).
  { intros v Hv. destruct (Hcs v Hv) as (cs & ? & ? & _). by exists cs. }
  exists rr, (footprint (h_storage h)), l, n. rewrite Hfp, (footprint_roundtrip key_order Hperm) by done.
  split_and!; [done..|]. intros fb rb res sb ab Hfb Hrb Hresfp Hsb Hab Hseed.
  unfold invoke_host_function. rewrite Hrb. simpl. rewrite Hresfp, (footprint_roundtrip key_order Hperm) by done. simpl.
  rewrite Hbuild. simpl. rewrite Hab. simpl. rewrite Hfb. simpl. rewrite Hsb. simpl. rewrite Hmgr. simpl.
  rewrite decide_False by lia. unfold contract_call. simpl. rewrite Hrun'. unfold finish_invocation. rewrite Hres.
  destruct r as [v|e]; simpl; [|eexists; split; [done|]; done].
  destruct (encodes_val X HX v) as [vb Hvb]. rewrite Hvb. destruct (Hcs v eq_refl) as (cs & Hc1 & _ & Hc2). rewrite Hc2. simpl.
  destruct (m_collect_total (write_event X) (emitted (h_events h))) as [es Hes]; [intros ev _; apply (encodes_event X HX)|].
  unfold encode_contract_events. rewrite Hev, Hes. simpl. eexists. split; [done|]. simpl.
  specialize (Hchg v eq_refl). rewrite Hc1 in Hchg. injection Hchg as <-. by rewrite Hevs.
Qed.
