(* ===== verification/InvocationMeter.v ===== *)
(** Resources of an invocation: P/host/invocation_metering.rs, which measures what the last
    outermost invocation of a host took and estimates its fee.  What measuring itself
    charges is left out: it runs in shadow mode. *)
From S2P Require Import Prelude ScVal Budget Storage Host AuthTree Auth Fees E2e E2eThms Access E2eProps E2eRecord.
#[local] Open Scope m_scope.

(** * Data *)

Record InvocationResources := mkInvocationResources {
  ir_instructions : Z;
  ir_mem_bytes : Z;
  ir_read_entries : Z;
  ir_write_entries : Z;
  ir_read_bytes : Z;
  ir_write_bytes : Z;
  ir_contract_events_size_bytes : Z;
  persistent_rent_ledger_bytes : Z;
  persistent_entry_rent_bumps : Z;
  temporary_rent_ledger_bytes : Z;
  temporary_entry_rent_bumps : Z
}.

Record FeeEstimate := mkFeeEstimate {
  fe_total : Z;
  fe_instructions : Z;
  fe_read_entries : Z;
  fe_write_entries : Z;
  fe_read_bytes : Z;
  fe_write_bytes : Z;
  fe_contract_events : Z;
  persistent_entry_rent : Z;
  temporary_entry_rent : Z
}.

Record InvocationMeter := mkMeter {
  active : bool;
  enabled : bool;
  storage_snapshot : option Storage;
  invocation_resources : option InvocationResources
}.

(** The host, and whether its meter is borrowed, as it is while a scope is alive. *)
Record MeteredHost := mkMeteredHost {
  mh_host : Host Storage;
  mh_budget : BudgetImpl;
  mh_meter : InvocationMeter;
  mh_borrowed : bool
}.

(** * The estimate *)
Section estimate.
Context (div_ceil : Z → Z → Z).

Definition estimate_fees (r : InvocationResources) (c : FeeConfiguration)
    (persistent_denominator temporary_denominator : Z) : FeeEstimate :=
  let instructions :=
    compute_fee_per_increment div_ceil (ir_instructions r) (fee_per_instruction_increment c) INSTRUCTIONS_INCREMENT in
  let read_entries :=
    i64_saturating_mul (fee_per_read_entry c) (u32_saturating_add (ir_read_entries r) (ir_write_entries r)) in
  let write_entries := i64_saturating_mul (fee_per_write_entry c) (ir_write_entries r) in
  let read_bytes :=
    compute_fee_per_increment div_ceil (ir_read_bytes r) (fee_per_read_1kb c) DATA_SIZE_1KB_INCREMENT in
  let write_bytes :=
    compute_fee_per_increment div_ceil (ir_write_bytes r) (fee_per_write_1kb c) DATA_SIZE_1KB_INCREMENT in
  let contract_events :=
    compute_fee_per_increment div_ceil (ir_contract_events_size_bytes r) (fee_per_contract_event_1kb c)
      DATA_SIZE_1KB_INCREMENT in
  let ttl_entry_writes bumps :=
    i64_saturating_add (i64_saturating_mul (fee_per_write_entry c) bumps)
      (compute_fee_per_increment div_ceil (i64_saturating_mul TTL_ENTRY_SIZE bumps) (fee_per_write_1kb c)
         DATA_SIZE_1KB_INCREMENT) in
  let entry_rent ledger_bytes denominator bumps :=
    i64_saturating_add
      (compute_fee_per_increment div_ceil ledger_bytes (fee_per_write_1kb c)
         (i64_saturating_mul DATA_SIZE_1KB_INCREMENT denominator))
      (ttl_entry_writes bumps) in
  let persistent :=
    entry_rent (persistent_rent_ledger_bytes r) persistent_denominator (persistent_entry_rent_bumps r) in
  let temporary :=
    entry_rent (temporary_rent_ledger_bytes r) temporary_denominator (temporary_entry_rent_bumps r) in
  let total := foldl i64_saturating_add instructions
    [read_entries; write_entries; read_bytes; write_bytes; contract_events; persistent; temporary] in
  mkFeeEstimate total instructions read_entries write_entries read_bytes write_bytes contract_events
    persistent temporary.
End estimate.

(** * Measuring *)

(** Plain [u32] operators, and [n as i64] of a [u64]. *)
Definition u32_or_panic (op : string) (n : Z) : Result Z :=
  if decide (0 <= n <= u32_max) then Ok n else Err (EPanic ("attempt to " ++ op ++ " with overflow")).
Definition as_i64 (n : Z) : Z := if decide (n <= i64_max) then n else n - 2 ^ 64.

Definition add_reads (entries bytes : Z) (r : InvocationResources) : Result InvocationResources :=
  entries ← u32_or_panic "add" (ir_read_entries r + entries);
  bytes ← u32_or_panic "add" (ir_read_bytes r + bytes);
  Ok (mkInvocationResources (ir_instructions r) (ir_mem_bytes r) entries (ir_write_entries r) bytes (ir_write_bytes r)
    (ir_contract_events_size_bytes r) (persistent_rent_ledger_bytes r) (persistent_entry_rent_bumps r)
    (temporary_rent_ledger_bytes r) (temporary_entry_rent_bumps r)).
Definition add_writes (entries bytes : Z) (r : InvocationResources) : Result InvocationResources :=
  entries ← u32_or_panic "add" (ir_write_entries r + entries);
  bytes ← u32_or_panic "add" (ir_write_bytes r + bytes);
  Ok (mkInvocationResources (ir_instructions r) (ir_mem_bytes r) (ir_read_entries r) entries (ir_read_bytes r) bytes
    (ir_contract_events_size_bytes r) (persistent_rent_ledger_bytes r) (persistent_entry_rent_bumps r)
    (temporary_rent_ledger_bytes r) (temporary_entry_rent_bumps r)).
Definition add_events (bytes : Z) (r : InvocationResources) : Result InvocationResources :=
  bytes ← u32_or_panic "add" (ir_contract_events_size_bytes r + bytes);
  Ok (mkInvocationResources (ir_instructions r) (ir_mem_bytes r) (ir_read_entries r) (ir_write_entries r)
    (ir_read_bytes r) (ir_write_bytes r) bytes (persistent_rent_ledger_bytes r) (persistent_entry_rent_bumps r)
    (temporary_rent_ledger_bytes r) (temporary_entry_rent_bumps r)).
Definition add_rent (d : option ContractDataDurability) (ledger_bytes : Z) (r : InvocationResources) :
    Result InvocationResources :=
  match d with
  | Some Temporary =>
      n ← i64_or_panic "add" (temporary_rent_ledger_bytes r + ledger_bytes);
      k ← u32_or_panic "add" (temporary_entry_rent_bumps r + 1);
      Ok (mkInvocationResources (ir_instructions r) (ir_mem_bytes r) (ir_read_entries r) (ir_write_entries r)
        (ir_read_bytes r) (ir_write_bytes r) (ir_contract_events_size_bytes r) (persistent_rent_ledger_bytes r)
        (persistent_entry_rent_bumps r) n k)
  | Some Persistent =>
      n ← i64_or_panic "add" (persistent_rent_ledger_bytes r + ledger_bytes);
      k ← u32_or_panic "add" (persistent_entry_rent_bumps r + 1);
      Ok (mkInvocationResources (ir_instructions r) (ir_mem_bytes r) (ir_read_entries r) (ir_write_entries r)
        (ir_read_bytes r) (ir_write_bytes r) (ir_contract_events_size_bytes r) n k
        (temporary_rent_ledger_bytes r) (temporary_entry_rent_bumps r))
  | None => Ok r
  end.

Section measure.
Context (X : Xdr) (key_order : list LedgerKey → list LedgerKey).

(** The size of an entry and the ledger it lives until. *)
Definition entry_size (o : option EntryWithLiveUntil) : Result Z :=
  match o with
  | Some (entry, _) => buf ← write_entry X entry; Ok (as_u32 (length buf))
  | None => Ok 0
  end.

Definition measured_rent (curr_ledger_seq init_live_until init_entry_size new_live_until entry_size : Z) : Result Z :=
  extension_ledgers ← u32_or_panic "subtract" (new_live_until - init_live_until);
  let size_delta := if decide (init_entry_size < entry_size) then entry_size - init_entry_size else 0 in
  existing_ledgers ← u32_or_panic "subtract" (init_live_until - curr_ledger_seq);
  grown ← i64_or_panic "multiply" (existing_ledgers * size_delta);
  extended ← i64_or_panic "multiply" (extension_ledgers * entry_size);
  i64_or_panic "add" (grown + extended).

(** The body of the loop, on the two entries of a key. *)
Definition measure_rent (key : LedgerKey) (curr_ledger_seq : Z) (init new : option EntryWithLiveUntil)
    (init_entry_size entry_size : Z) (r : InvocationResources) : Result InvocationResources :=
  match new ≫= snd with
  | Some new_live_until =>
      let init_live_until := default curr_ledger_seq (init ≫= snd) in
      rent_ledger_bytes ← measured_rent curr_ledger_seq init_live_until init_entry_size new_live_until entry_size;
      if decide (0 < rent_ledger_bytes) then add_rent (get_key_durability key) rent_ledger_bytes r else Ok r
  | None => Ok r
  end.

(** The storage before and the storage now. *)
Definition with_prev {A} (f : M Storage A) : M (Storage * Storage) A := m_zoom fst (λ s ss, (s, ss.2)) f.
Definition with_curr {A} (f : M Storage A) : M (Storage * Storage) A := m_zoom snd (λ s ss, (ss.1, s)) f.

Definition measure_entry (li : LedgerInfo) (key : LedgerKey) (access_type : AccessType) (r : InvocationResources) :
    M (Storage * Storage) InvocationResources :=
  let* maybe_init_entry := with_prev (try_get_full_with_host li key) in
  let* init_entry_size := m_lift (entry_size maybe_init_entry) in
  let* r := m_lift (add_reads 0 init_entry_size r) in
  let* maybe_entry := with_curr (try_get_full_with_host li key) in
  let* entry_size := m_lift (entry_size maybe_entry) in
  let* r := m_lift (match access_type with
    | ReadOnly => add_reads 1 0 r
    | ReadWrite => add_writes 1 entry_size r
    end) in
  m_lift (measure_rent key (sequence_number li) maybe_init_entry maybe_entry init_entry_size entry_size r).

Fixpoint measure_entries (li : LedgerInfo) (keys : list (LedgerKey * AccessType)) (r : InvocationResources) :
    M (Storage * Storage) InvocationResources :=
  match keys with
  | [] => m_ret r
  | (key, access_type) :: keys => let* r := measure_entry li key access_type r in measure_entries li keys r
  end.

Fixpoint measure_events (encoded_contract_events : list bytes) (r : InvocationResources) : Result InvocationResources :=
  match encoded_contract_events with
  | [] => Ok r
  | event :: events => r ← add_events (as_u32 (length event)) r; measure_events events r
  end.

(** The entries of an ordered map as its iterator gives them. *)
Definition iter_entries {A} (m : gmap LedgerKey A) : list (LedgerKey * A) :=
  omap (λ k, (λ a, (k, a)) <$> m !! k) (iter_keys key_order m).

Definition try_measure_resources (prev_storage : option Storage) (h : Host Storage) (r : InvocationResources) :
    Result InvocationResources * Storage :=
  match prev_storage with
  | None => (Err (EHost TContext InternalError), h_storage h)
  | Some prev =>
      let '(res, (_, curr)) :=
        measure_entries (h_ledger h) (iter_entries (footprint (h_storage h))) r (prev, h_storage h) in
      (r ← res; encoded ← encode_contract_events X (h_events h); measure_events encoded r, curr)
  end.

(** * The scope of an invocation *)

Definition set_meter (m : InvocationMeter) (mh : MeteredHost) : MeteredHost :=
  mkMeteredHost (mh_host mh) (mh_budget mh) m (mh_borrowed mh).
Definition get_invocation_resources (m : InvocationMeter) : option InvocationResources := invocation_resources m.
Definition get_last_invocation_resources (mh : MeteredHost) : option InvocationResources :=
  if mh_borrowed mh then None else get_invocation_resources (mh_meter mh).
Definition enable_invocation_metering (mh : MeteredHost) : MeteredHost :=
  if mh_borrowed mh then mh
  else let m := mh_meter mh in set_meter (mkMeter (active m) true (storage_snapshot m) (invocation_resources m)) mh.

Definition reset_footprint (s : Storage) : Storage := set_footprint ∅ s.

(** Whether a scope has been opened. *)
Definition start_invocation : M MeteredHost bool := λ mh,
  let scope := mh_meter mh in
  if active scope || negb (enabled scope) then (Ok false, mh)
  else
    let h := mh_host mh in
    let scope' := mkMeter (active scope) (enabled scope) (Some (h_storage h)) (invocation_resources scope) in
    (Ok true, mkMeteredHost (set_events [] (set_storage (reset_footprint (h_storage h)) h)) (reset (mh_budget mh)) scope' true).

Definition maybe_meter_invocation : M MeteredHost bool := λ mh,
  if mh_borrowed mh then (Ok false, mh) else start_invocation mh.

(** A panic while measuring is a panic of the whole; any other error is dropped. *)
Definition finish_invocation : M MeteredHost unit := λ mh,
  let scope := mh_meter mh in
  let b := mh_budget mh in
  let r0 := mkInvocationResources (as_i64 (total_count (cpu_insns b))) (as_i64 (total_count (Budget.mem_bytes b)))
    0 0 0 0 0 0 0 0 0 in
  let '(measure_res, curr) := try_measure_resources (storage_snapshot scope) (mh_host mh) r0 in
  let close res := mkMeteredHost (set_storage curr (mh_host mh)) b (mkMeter false (enabled scope) None res) (mh_borrowed mh) in
  match measure_res with
  | Ok r => (Ok tt, close (Some r))
  | Err (EPanic msg) => (Err (EPanic msg), mh)
  | Err _ => (Ok tt, close None)
  end.

(** [let _scope = self.maybe_meter_invocation()?] around the rest of a function: the scope is
    dropped at the end, however it ends, and the meter given back. *)
Definition drop_scope : M MeteredHost unit := λ mh,
  let '(r, mh) := finish_invocation mh in
  (r, mkMeteredHost (mh_host mh) (mh_budget mh) (mh_meter mh) false).
Definition metered_scope {A} (body : M MeteredHost A) : M MeteredHost A :=
  let* opened := maybe_meter_invocation in
  if opened : bool then λ mh,
    let '(r, mh1) := body mh in
    let '(d, mh2) := drop_scope mh1 in
    (_ ← d; r, mh2)
  else body.
End measure.

(** * What is measured *)

(** Ledgers times bytes that [rent_fee_per_entry_change] pays for. *)
Definition paid_ledger_bytes (seq : Z) (e : LedgerEntryRentChange) : Z :=
  default 0 (extension_ledgers e seq) * new_size_bytes e +
  default 0 (prepaid_ledgers e seq) * default 0 (size_increase e).

(** What a change of an entry adds to the resources: its rent is what is paid for but for
    the growth of the entry in one ledger. *)
Definition change_rent (seq : Z) (c : LedgerEntryChange) : Z :=
  match rent_change c with
  | Some e => paid_ledger_bytes seq e - default 0 (size_increase e)
  | None => 0
  end.
Definition change_durability (c : LedgerEntryChange) : option ContractDataDurability := durability <$> ttl_change c.
Definition rent_of (seq : Z) (d : ContractDataDurability) (c : LedgerEntryChange) : Z :=
  if decide (change_durability c = Some d) then change_rent seq c else 0.
Definition bumps_of (seq : Z) (d : ContractDataDurability) (c : LedgerEntryChange) : Z :=
  if decide (0 < rent_of seq d c) then 1 else 0.

Definition note_change (seq : Z) (r : InvocationResources) (c : LedgerEntryChange) : InvocationResources :=
  mkInvocationResources (ir_instructions r) (ir_mem_bytes r)
    (ir_read_entries r + if read_only c then 1 else 0) (ir_write_entries r + if read_only c then 0 else 1)
    (ir_read_bytes r + old_entry_size_bytes c)
    (ir_write_bytes r + match encoded_new_value c with Some v => as_u32 (length v) | None => 0 end)
    (ir_contract_events_size_bytes r)
    (persistent_rent_ledger_bytes r + rent_of seq Persistent c) (persistent_entry_rent_bumps r + bumps_of seq Persistent c)
    (temporary_rent_ledger_bytes r + rent_of seq Temporary c) (temporary_entry_rent_bumps r + bumps_of seq Temporary c).
Definition note_event (r : InvocationResources) (event : bytes) : InvocationResources :=
  mkInvocationResources (ir_instructions r) (ir_mem_bytes r) (ir_read_entries r) (ir_write_entries r)
    (ir_read_bytes r) (ir_write_bytes r) (ir_contract_events_size_bytes r + as_u32 (length event))
    (persistent_rent_ledger_bytes r) (persistent_entry_rent_bumps r)
    (temporary_rent_ledger_bytes r) (temporary_entry_rent_bumps r).
Definition measured (seq : Z) (cs : list LedgerEntryChange) (events : list bytes) (r : InvocationResources) :
    InvocationResources := foldl note_event (foldl (note_change seq) r cs) events.

Definition resources_in_range (r : InvocationResources) : Prop :=
  in_u32 (ir_read_entries r) ∧ in_u32 (ir_write_entries r) ∧ in_u32 (ir_read_bytes r) ∧ in_u32 (ir_write_bytes r) ∧
  in_u32 (ir_contract_events_size_bytes r) ∧ 0 <= persistent_rent_ledger_bytes r <= i64_max ∧
  in_u32 (persistent_entry_rent_bumps r) ∧ 0 <= temporary_rent_ledger_bytes r <= i64_max ∧
  in_u32 (temporary_entry_rent_bumps r).

(** ** Reading does not change what is read *)

Definition answers (li : LedgerInfo) (s : Storage) : SnapshotSource := λ k, (try_get_full_with_host li k s).1.

Lemma answers_lookup li s k :
  answers li s k =
  (_ ← check_supported_ledger_key_type k;
   o ← match mode s with
       | Recording src => match smap s !! k with Some o => Ok o | None => src k end
       | Enforcing => _ ← Footprint.enforce_access (footprint s) k ReadOnly; ok_or (smap s !! k) (EHost TStorage InternalError)
       end;
   live ← check_if_entry_is_live li k o; Ok (if live : bool then o else None)).
Proof.
  unfold answers, try_get_full_with_host. simpl. unfold try_get_full, prepare_read_only_access, m_bind, m_lift, m_get, m_modify, m_ret.
  destruct (check_supported_ledger_key_type k); [|done]. simpl. destruct (mode s) as [src|] eqn:Hm; simpl.
  - destruct (smap s !! k) as [o|] eqn:Hk; simpl; rewrite ?Hk; simpl; [by destruct (check_if_entry_is_live li k o)|].
    destruct (src k) as [o|]; simpl; [|done]. rewrite lookup_insert_eq. by destruct (check_if_entry_is_live li k o).
  - destruct (Footprint.enforce_access _ _ _); simpl; [|done].
    destruct (smap s !! k) as [o|]; simpl; [|done]. by destruct (check_if_entry_is_live li k o).
Qed.

Lemma answers_stable li s k k' : answers li (try_get_full_with_host li k s).2 k' = answers li s k'.
Proof.
  rewrite !answers_lookup. destruct (check_supported_ledger_key_type k'); [|done]. simpl.
  unfold try_get_full_with_host. simpl. unfold try_get_full, prepare_read_only_access, m_bind, m_lift, m_get, m_modify, m_ret.
  destruct (check_supported_ledger_key_type k); [|done]. simpl. destruct (mode s) as [src|] eqn:Hm; simpl.
  - destruct (smap s !! k) as [o|] eqn:Hk; simpl; rewrite ?Hk; simpl; [destruct (check_if_entry_is_live li k o); simpl; by rewrite Hm|].
    destruct (src k) as [o|] eqn:Hsrc; simpl; [|by rewrite Hm]. rewrite lookup_insert_eq.
    destruct (check_if_entry_is_live li k o); simpl; rewrite Hm;
      (destruct (decide (k = k')) as [<-|Hne]; [by rewrite lookup_insert_eq, Hk, Hsrc|by rewrite lookup_insert_ne]).
  - destruct (Footprint.enforce_access _ _ _); simpl; [|by rewrite Hm].
    destruct (smap s !! k) as [o|]; simpl; [|by rewrite Hm]. destruct (check_if_entry_is_live li k o); simpl; by rewrite Hm.
Qed.

Section measuring.
Context (X : Xdr) (key_order : list LedgerKey → list LedgerKey) (li : LedgerInfo).

(** One entry, from what the two storages answer. *)
Definition measure_answers (prev curr : SnapshotSource) (key : LedgerKey) (access_type : AccessType)
    (r : InvocationResources) : Result InvocationResources :=
  init ← prev key;
  init_size ← entry_size X init;
  r ← add_reads 0 init_size r;
  new ← curr key;
  size ← entry_size X new;
  r ← match access_type with ReadOnly => add_reads 1 0 r | ReadWrite => add_writes 1 size r end;
  measure_rent key (sequence_number li) init new init_size size r.

Lemma measure_entry_answers key a r prev curr :
  (measure_entry X li key a r (prev, curr)).1 = measure_answers (answers li prev) (answers li curr) key a r ∧
  let '(prev', curr') := (measure_entry X li key a r (prev, curr)).2 in
  (∀ k, answers li prev' k = answers li prev k) ∧ (∀ k, answers li curr' k = answers li curr k).
Proof.
  unfold measure_entry, measure_answers, with_prev, with_curr, m_zoom, m_bind, m_lift. simpl.
  pose proof (answers_stable li prev key) as Hp. pose proof (answers_stable li curr key) as Hc.
  change (answers li prev key) with (try_get_full_with_host li key prev).1.
  change (answers li curr key) with (try_get_full_with_host li key curr).1.
  destruct (try_get_full_with_host li key prev) as [[init|e] prev']; simpl in *; [|done].
  destruct (entry_size X init) as [n|]; simpl; [|done]. destruct (add_reads 0 n r) as [r1|]; simpl; [|done].
  destruct (try_get_full_with_host li key curr) as [[new|e] curr']; simpl in *; [|done].
  destruct (entry_size X new) as [n'|]; simpl; [|done].
  by destruct (match a with ReadOnly => add_reads 1 0 r1 | ReadWrite => add_writes 1 n' r1 end).
Qed.


(** What a change that was made says of the two entries. *)
Lemma entry_change_says fp snapshot ttls key a o o' c :
  snapshot key = Ok o → fp !! key = Some a → (a = ReadOnly → fst <$> o' = fst <$> o) →
  ledger_entry_change X fp snapshot ttls key o' = Ok c →
  ∃ size', entry_size X o = Ok (old_entry_size_bytes c) ∧ entry_size X o' = Ok size' ∧
    read_only c = bool_decide (a = ReadOnly) ∧
    match encoded_new_value c with
    | Some v => a = ReadWrite ∧ is_Some o' ∧ as_u32 (length v) = size'
    | None => if a is ReadOnly then size' = old_entry_size_bytes c else o' = None
    end ∧
    match get_key_durability key with
    | None => ttl_change c = None
    | Some d => ∃ h, ttl_change c = Some (mkLiveUntilChange h d (default 0 (o ≫= snd))
          (match o' ≫= snd with Some n => Z.max n (default 0 (o ≫= snd)) | None => 0 end)) ∧
        (is_Some o → is_Some (o ≫= snd)) ∧ (is_Some o' → is_Some (o' ≫= snd))
    end.
Proof.
  intros Ho Ha Hro H. unfold ledger_entry_change in H. rewrite Ho, Ha in H.
  apply result_bind_ok in H as (kb & _ & H). simpl in H. apply result_bind_ok in H as ([size tc] & Hold & H).
  apply result_bind_ok in H as (tc' & Hnew & H). simpl in *.
  assert (entry_size X o = Ok size ∧ tc = match o ≫= snd with Some n => with_old_live_until n <$> initial_ttl_change X ttls key kb | None => initial_ttl_change X ttls key kb end
    ∧ (is_Some (get_key_durability key) → is_Some o → is_Some (o ≫= snd))) as (Hsize & -> & Hto).
  { unfold note_old_entry, initial_ttl_change in *. destruct o as [[e lu]|]; simpl in *; [|simplify_eq; split_and!; try done; by intros _ []].
    apply result_bind_ok in Hold as (buf & -> & Hold). simpl.
    destruct (get_key_durability key); simpl in *.
    - apply result_bind_ok in Hold as (n & Hn & Hold). destruct lu; simplify_eq/=. split_and!; [done..|eauto].
    - simplify_eq. split_and!; [done|by destruct lu|]. by intros []. }
  assert (is_Some (get_key_durability key) → is_Some o' → is_Some (o' ≫= snd)) as Hto'.
  { unfold note_new_entry, initial_ttl_change in Hnew. intros [d Hd]. rewrite Hd in Hnew. destruct o' as [[e lu]|]; [|by intros []].
    simpl in *. intros _. destruct lu; [eauto|]. by destruct (o ≫= snd). }
  exists (match o' with Some (e, _) => match write_entry X e with Ok b => as_u32 (length b) | Err _ => 0 end | None => 0 end).
  assert (old_entry_size_bytes c = size ∧ ttl_change c = tc' ∧ read_only c = bool_decide (a = ReadOnly)) as (-> & Htc & ->).
  { destruct a; [by simplify_eq/=|]. destruct o' as [[e lu]|]; [|by simplify_eq/=].
    apply result_bind_ok in H as (b & _ & H). by simplify_eq/=. }
  split; [done|]. split_and!; [|done| |].
  - destruct o' as [[e lu]|]; [|done]. simpl. destruct a.
    + destruct o as [[e0 lu0]|]; [|by specialize (Hro eq_refl)]. specialize (Hro eq_refl). simplify_eq/=.
      apply result_bind_ok in Hsize as (b & -> & _). done.
    + apply result_bind_ok in H as (b & -> & _). done.
  - destruct a.
    + clear Htc. simplify_eq/=. specialize (Hro eq_refl). destruct o' as [[e lu]|], o as [[e0 lu0]|]; simplify_eq/=; try done.
      apply result_bind_ok in Hsize as (b & Hb & [= <-]). by rewrite Hb.
    + clear Htc. destruct o' as [[e lu]|]; [|by simplify_eq/=]. apply result_bind_ok in H as (b & Hb & H). simplify_eq/=. rewrite Hb. eauto.
  - rewrite Htc. clear Htc H Hold. unfold note_new_entry, initial_ttl_change in Hnew. destruct (get_key_durability key) as [d|] eqn:Hd.
    + exists (match ttls !! key with Some t => ttl_key_hash t | None => hash_bytes X kb end).
      split; [|split; [by apply Hto; eauto|by apply Hto'; eauto]].
      destruct o' as [[e lu]|]; simpl in *.
      * destruct lu as [n|]; simpl in *; [|by destruct (o ≫= snd)]. destruct (o ≫= snd); simpl in Hnew; simplify_eq/=; reflexivity.
      * destruct (o ≫= snd); simplify_eq/=; reflexivity.
    + destruct (o ≫= snd), o' as [[e lu]|]; simpl in Hnew; by simplify_eq/=.
Qed.

(** What an invocation does to an entry that it touches, unless it makes a removed entry anew:
    a lifetime belongs to an entry that has one and is not shortened. *)
Record Touched (key : LedgerKey) (a : AccessType) (o o' : option EntryWithLiveUntil) : Prop := {
  touched_read_only : a = ReadOnly → fst <$> o' = fst <$> o;
  touched_lifetime n' : o' ≫= snd = Some n' →
    is_Some (get_key_durability key) ∧ default (sequence_number li) (o ≫= snd) <= n' <= u32_max
}.

Lemma answers_live s key o n :
  answers li s key = Ok o → is_Some (get_key_durability key) → o ≫= snd = Some n → sequence_number li <= n.
Proof.
  rewrite answers_lookup. intros (_ & _ & H)%result_bind_ok Hd Hn. apply result_bind_ok in H as (o0 & _ & H).
  apply result_bind_ok in H as (live & Hl & [= <-]). destruct live; [|done].
  unfold check_if_entry_is_live in Hl. destruct o0 as [[e [lu|]]|]; simplify_eq/=. case_decide; [done|].
  destruct Hd as [[] Hd]; by rewrite Hd in Hl.
Qed.

Lemma as_u32_bounds n : in_u32 (as_u32 n).
Proof. unfold as_u32, in_u32, u32_max. pose proof (Z.mod_pos_bound (Z.of_nat n) (2 ^ 32)). lia. Qed.
Lemma entry_size_bounds o n : entry_size X o = Ok n → in_u32 n.
Proof.
  destruct o as [[e lu]|]; simpl; [|intros [= <-]; unfold in_u32, u32_max; lia].
  intros (b & _ & [= <-])%result_bind_ok. apply as_u32_bounds.
Qed.
Lemma u32_or_panic_ok op n : in_u32 n → u32_or_panic op n = Ok n.
Proof. intros. unfold u32_or_panic. by rewrite decide_True. Qed.
Lemma i64_or_panic_ok op n : 0 <= n <= i64_max → i64_or_panic op n = Ok n.
Proof. intros. unfold i64_or_panic. rewrite decide_True; [done|]. unfold i64_min, i64_max in *. lia. Qed.

(** What is paid for, of an entry that was there and of a new one. *)
Lemma paid_existing seq p old_size size n n' :
  0 < seq <= n → n <= n' <= u32_max → 0 <= size →
  let e := mkRentChange p old_size size n n' in
  paid_ledger_bytes seq e - default 0 (size_increase e) = (n - seq) * Z.max 0 (size - old_size) + (n' - n) * size.
Proof.
  intros Hn Hn' Hs. unfold paid_ledger_bytes, extension_ledgers, prepaid_ledgers, entry_is_new, size_increase,
    inclusive_ledger_diff, exclusive_ledger_diff, u32_checked_sub. simpl.
  rewrite (proj2 (Z.eqb_neq n 0)) by lia. rewrite andb_false_r, !decide_True by lia. simpl.
  unfold u32_saturating_add. rewrite clamp_id by (unfold u32_max in *; lia). case_decide; simpl; nia.
Qed.
Lemma paid_new seq p size n' :
  0 < seq <= n' → n' <= u32_max → 0 <= size →
  let e := mkRentChange p 0 size 0 n' in paid_ledger_bytes seq e - default 0 (size_increase e) = (n' - seq) * size.
Proof.
  intros Hn Hn' Hs. unfold paid_ledger_bytes, extension_ledgers, prepaid_ledgers, entry_is_new, size_increase,
    inclusive_ledger_diff, exclusive_ledger_diff, u32_checked_sub. simpl.
  unfold u32_saturating_sub. rewrite clamp_id by (unfold u32_max in *; lia). rewrite !decide_True by lia. simpl. lia.
Qed.

Section touched.
Context (prev curr : Storage) (fp : FootprintMap) (ttls : TtlEntryMap).
Context (key : LedgerKey) (a : AccessType) (o o' : option EntryWithLiveUntil) (c : LedgerEntryChange).
#[local] Abbreviation seq := (sequence_number li).
Context (Hseq : 0 < seq <= u32_max).
Context (Ho : answers li prev key = Ok o) (Ho' : answers li curr key = Ok o').
Context (Ha : fp !! key = Some a) (Ht : Touched key a o o').
Context (Hc : ledger_entry_change X fp (answers li prev) ttls key o' = Ok c).

(** The rent that is measured is the rent that the change says. *)
Lemma touched_rent size' :
  entry_size X o' = Ok size' →
  0 <= change_rent seq c ∧
  match o' ≫= snd with
  | Some n' =>
      let init := default seq (o ≫= snd) in
      seq <= init <= n' ∧ n' <= u32_max ∧
      change_rent seq c = (init - seq) * Z.max 0 (size' - old_entry_size_bytes c) + (n' - init) * size'
  | None => change_rent seq c = 0
  end.
Proof.
  intros Hsize'. pose proof (entry_size_bounds _ _ Hsize') as Hb'.
  destruct (entry_change_says _ _ _ _ _ _ _ _ Ho Ha (touched_read_only _ _ _ _ Ht) Hc)
    as (size0 & Hsize & Hsize0 & _ & Henc & Httl). rewrite Hsize' in Hsize0. injection Hsize0 as <-.
  pose proof (entry_size_bounds _ _ Hsize) as Hb.
  pose proof (λ n, answers_live prev key o n Ho) as Hlive.
  destruct Ht as [Hro Hlt]. unfold change_rent, rent_change.
  destruct (get_key_durability key) as [d|] eqn:Hd; [destruct Httl as (h & -> & Hto & Hto')|rewrite Httl; simpl].
  2: { split; [done|]. destruct (o' ≫= snd) eqn:Hn; [|done]. destruct (Hlt _ eq_refl) as [[? ?] _]. congruence. }
  cbn [ttl_old_live_until_ledger ttl_new_live_until_ledger durability].
  assert (match encoded_new_value c with Some v => as_u32 (length v) | None => old_entry_size_bytes c end =
          match o' with Some _ => size' | None => old_entry_size_bytes c end) as ->.
  { destruct (encoded_new_value c) as [v|]; [destruct Henc as (_ & [x ->] & Hv); by rewrite Hv|].
    destruct a; [destruct o'; [done|]; done|by subst o']. }
  destruct o' as [[e' [n'|]]|]; simpl in *.
  - destruct (Hlt _ eq_refl) as [_ Hn'].
    destruct o as [[e [n|]]|]; simpl in *; [|by destruct (Hto (ex_intro _ _ eq_refl))|].
    + pose proof (Hlive n ltac:(eauto) eq_refl) as Hn. rewrite Z.max_l by lia. unfold in_u32 in *.
      case_decide; [split; [lia|]; split_and!; [lia..|]; nia|].
      rewrite paid_existing by lia. split; [nia|]. split_and!; lia.
    + injection Hsize as <-. rewrite Z.max_l by lia. unfold in_u32 in *. rewrite decide_False by lia.
      rewrite paid_new by lia. split; [nia|]. split_and!; lia.
  - by destruct (Hto' (ex_intro _ _ eq_refl)).
  - rewrite decide_True; [done|]. split; [|lia]. destruct (o ≫= snd) as [n|] eqn:Hn; simpl; [|done].
    pose proof (Hlive n ltac:(eauto) eq_refl). lia.
Qed.
End touched.
Lemma measured_rent_ok seq init old_size n' size :
  seq <= init <= n' → 0 <= seq → n' <= u32_max → 0 <= size → 0 <= old_size →
  let rent := (init - seq) * Z.max 0 (size - old_size) + (n' - init) * size in
  rent <= i64_max → measured_rent seq init old_size n' size = Ok rent.
Proof.
  intros Hi Hs Hn Hsz Ho rent Hr. unfold rent, measured_rent in *. clear rent.
  assert ((if decide (old_size < size) then size - old_size else 0) = Z.max 0 (size - old_size)) as -> by (case_decide; lia).
  rewrite u32_or_panic_ok by (unfold in_u32; lia). simpl. rewrite u32_or_panic_ok by (unfold in_u32; lia). simpl.
  assert (0 <= (init - seq) * Z.max 0 (size - old_size)) by nia. assert (0 <= (n' - init) * size) by nia.
  rewrite !i64_or_panic_ok by lia. simpl. by rewrite i64_or_panic_ok by lia.
Qed.

Lemma add_reads_ok n m r : in_u32 (ir_read_entries r + n) → in_u32 (ir_read_bytes r + m) →
  add_reads n m r = Ok (mkInvocationResources (ir_instructions r) (ir_mem_bytes r) (ir_read_entries r + n)
    (ir_write_entries r) (ir_read_bytes r + m) (ir_write_bytes r) (ir_contract_events_size_bytes r)
    (persistent_rent_ledger_bytes r) (persistent_entry_rent_bumps r) (temporary_rent_ledger_bytes r)
    (temporary_entry_rent_bumps r)).
Proof. intros Hn Hm. unfold add_reads. by rewrite !u32_or_panic_ok by done. Qed.
Lemma add_writes_ok n m r : in_u32 (ir_write_entries r + n) → in_u32 (ir_write_bytes r + m) →
  add_writes n m r = Ok (mkInvocationResources (ir_instructions r) (ir_mem_bytes r) (ir_read_entries r)
    (ir_write_entries r + n) (ir_read_bytes r) (ir_write_bytes r + m) (ir_contract_events_size_bytes r)
    (persistent_rent_ledger_bytes r) (persistent_entry_rent_bumps r) (temporary_rent_ledger_bytes r)
    (temporary_entry_rent_bumps r)).
Proof. intros Hn Hm. unfold add_writes. by rewrite !u32_or_panic_ok by done. Qed.

(** One accumulator before another. *)
Definition grows (r r' : InvocationResources) : Prop :=
  ir_read_entries r <= ir_read_entries r' ∧ ir_write_entries r <= ir_write_entries r' ∧
  ir_read_bytes r <= ir_read_bytes r' ∧ ir_write_bytes r <= ir_write_bytes r' ∧
  ir_contract_events_size_bytes r <= ir_contract_events_size_bytes r' ∧
  persistent_rent_ledger_bytes r <= persistent_rent_ledger_bytes r' ∧
  persistent_entry_rent_bumps r <= persistent_entry_rent_bumps r' ∧
  temporary_rent_ledger_bytes r <= temporary_rent_ledger_bytes r' ∧
  temporary_entry_rent_bumps r <= temporary_entry_rent_bumps r'.
#[export] Instance grows_preorder : PreOrder grows.
Proof.
  split; [intros r; unfold grows; split_and!; lia|].
  intros r1 r2 r3 H12 H23. unfold grows in *. destruct_and!. split_and!; lia.
Qed.
Lemma in_range_between r r1 r' : resources_in_range r → grows r r1 → grows r1 r' → resources_in_range r' → resources_in_range r1.
Proof. unfold resources_in_range, grows, in_u32. intros ????. destruct_and!. split_and!; lia. Qed.
Lemma grows_foldl {A} (f : InvocationResources → A → InvocationResources) l r :
  Forall (λ x, ∀ r, grows r (f r x)) l → grows r (foldl f r l).
Proof. intros Hl. revert r. induction Hl as [|x l Hx _ IH]; intros r; [done|]. simpl. etrans; [apply Hx|apply IH]. Qed.

Section step.
Context (prev curr : Storage) (fp : FootprintMap) (ttls : TtlEntryMap).
#[local] Abbreviation seq := (sequence_number li).
Context (Hseq : 0 < seq <= u32_max).

(** A key that an invocation touched, with its change. *)
Definition Noted (key : LedgerKey) (c : LedgerEntryChange) : Prop :=
  ∃ a o o', fp !! key = Some a ∧ answers li prev key = Ok o ∧ answers li curr key = Ok o' ∧
    Touched key a o o' ∧ ledger_entry_change X fp (answers li prev) ttls key o' = Ok c.

Lemma noted_grows key c r : Noted key c → grows r (note_change seq r c).
Proof.
  intros (a & o & o' & Ha & Ho & Ho' & Ht & Hc).
  destruct (entry_change_says _ _ _ _ _ _ _ _ Ho Ha (touched_read_only _ _ _ _ Ht) Hc) as (size' & Hsize & Hsize' & _).
  destruct (touched_rent _ _ _ _ _ _ _ _ _ Hseq Ho Ho' Ha Ht Hc size' Hsize') as [Hr _].
  pose proof (entry_size_bounds _ _ Hsize) as [? _].
  assert (∀ d, 0 <= rent_of seq d c) as H1 by (intros d; unfold rent_of; by case_decide).
  assert (∀ d, 0 <= bumps_of seq d c) as H2 by (intros d; unfold bumps_of; by case_decide).
  assert (0 <= match encoded_new_value c with Some v => as_u32 (length v) | None => 0 end).
  { destruct (encoded_new_value c) as [v|]; [|done]. apply (as_u32_bounds (length v)). }
  pose proof (H1 Persistent). pose proof (H1 Temporary). pose proof (H2 Persistent). pose proof (H2 Temporary).
  unfold grows. simpl. destruct (read_only c); split_and!; lia.
Qed.
Lemma noted_foldl {B} (key : B → LedgerKey) keys cs r :
  Forall2 (λ k c, Noted (key k) c) keys cs → grows r (foldl (note_change seq) r cs).
Proof.
  intros Hk. apply grows_foldl. induction Hk as [|k c keys cs Hn _ IH]; constructor; [|done].
  intros r'. by eapply noted_grows.
Qed.

Lemma noted_step key c a r :
  Noted key c → fp !! key = Some a → resources_in_range r → resources_in_range (note_change seq r c) →
  measure_answers (answers li prev) (answers li curr) key a r = Ok (note_change seq r c).
Proof.
  intros (a' & o & o' & Ha & Ho & Ho' & Ht & Hc) Ha' Hr Hr'. rewrite Ha in Ha'. injection Ha' as ->.
  destruct (entry_change_says _ _ _ _ _ _ _ _ Ho Ha (touched_read_only _ _ _ _ Ht) Hc)
    as (size' & Hsize & Hsize' & Hread & Henc & Httl).
  destruct (touched_rent _ _ _ _ _ _ _ _ _ Hseq Ho Ho' Ha Ht Hc size' Hsize') as [Hr0 Hrent].
  unfold measure_answers. rewrite Ho. simpl. rewrite Hsize. simpl.
  set (r2 := mkInvocationResources (ir_instructions r) (ir_mem_bytes r)
    (ir_read_entries r + if read_only c then 1 else 0) (ir_write_entries r + if read_only c then 0 else 1)
    (ir_read_bytes r + old_entry_size_bytes c)
    (ir_write_bytes r + match encoded_new_value c with Some v => as_u32 (length v) | None => 0 end)
    (ir_contract_events_size_bytes r) (persistent_rent_ledger_bytes r) (persistent_entry_rent_bumps r)
    (temporary_rent_ledger_bytes r) (temporary_entry_rent_bumps r)).
  destruct Hr as (? & ? & ? & ? & _ & ? & ? & ? & ?), Hr' as (? & ? & ? & ? & _ & ? & ? & ? & ?). simpl in *.
  rewrite add_reads_ok by (rewrite ?Z.add_0_r; done). simpl.
  rewrite Ho'. simpl. rewrite Hsize'. simpl.
  assert (∀ {A} (f : InvocationResources → Result A), (match a with
      | ReadOnly => add_reads 1 0
      | ReadWrite => add_writes 1 size'
      end (mkInvocationResources (ir_instructions r) (ir_mem_bytes r) (ir_read_entries r + 0) (ir_write_entries r)
        (ir_read_bytes r + old_entry_size_bytes c) (ir_write_bytes r) (ir_contract_events_size_bytes r)
        (persistent_rent_ledger_bytes r) (persistent_entry_rent_bumps r) (temporary_rent_ledger_bytes r)
        (temporary_entry_rent_bumps r)) ≫= f) = f r2) as Hacc.
  { intros A f. unfold r2. rewrite Hread in *. destruct a; simpl in *.
    - rewrite add_reads_ok by (simpl; rewrite ?Z.add_0_r in *; done). simpl.
      destruct (encoded_new_value c); [by destruct Henc|]. by rewrite !Z.add_0_r.
    - assert (match encoded_new_value c with Some v => as_u32 (length v) | None => 0 end = size') as Henc'.
      { destruct (encoded_new_value c) as [v|]; [by destruct Henc as (_ & _ & Hv)|]. subst o'. by injection Hsize' as <-. }
      rewrite Henc' in *. rewrite add_writes_ok by done. simpl. by rewrite !Z.add_0_r. }
  assert (measure_rent key seq o o' (old_entry_size_bytes c) size' r2 = Ok (note_change seq r c)) as Hstep;
    [|destruct a; rewrite Hacc; exact Hstep].
  assert (change_durability c = get_key_durability key) as Hd.
  { unfold change_durability. destruct (get_key_durability key); [by destruct Httl as (h & -> & _)|by rewrite Httl]. }
  unfold measure_rent, note_change, rent_of, bumps_of, rent_of in *. rewrite Hd in *.
  destruct (o' ≫= snd) as [n'|] eqn:Hn'; simpl.
  - destruct Hrent as (Hi & Hn & Heq). destruct (touched_lifetime _ _ _ _ Ht _ Hn') as [[d Hk] _].
    pose proof (entry_size_bounds _ _ Hsize) as [? _]. pose proof (entry_size_bounds _ _ Hsize') as [? _].
    rewrite Hk in *. destruct d; simplify_option_eq;
      rewrite measured_rent_ok, <-Heq by (rewrite <-?Heq; lia); simpl; case_decide; simplify_option_eq;
      rewrite ?i64_or_panic_ok by done; simpl; rewrite ?u32_or_panic_ok by done; simpl;
      unfold r2; repeat f_equal; lia.
  - rewrite Hrent. unfold r2. by repeat case_decide; rewrite !Z.add_0_r.
Qed.
End step.

(** ** The loops *)

Lemma note_event_grows r event : grows r (note_event r event).
Proof. unfold grows. simpl. pose proof (as_u32_bounds (length event)) as [? _]. split_and!; lia. Qed.

Lemma measure_events_ok events r :
  resources_in_range r → resources_in_range (foldl note_event r events) →
  measure_events events r = Ok (foldl note_event r events).
Proof.
  revert r. induction events as [|event events IH]; intros r Hr Hf; [done|]. simpl in *.
  assert (resources_in_range (note_event r event)) as Hr'.
  { eapply in_range_between; [exact Hr|apply note_event_grows| |exact Hf].
    apply grows_foldl, Forall_forall. intros. apply note_event_grows. }
  unfold add_events. rewrite u32_or_panic_ok by (by destruct Hr' as (_ & _ & _ & _ & ? & _)). simpl. by apply IH.
Qed.

Section loop.
Context (prev curr : Storage) (fp : FootprintMap) (ttls : TtlEntryMap).
#[local] Abbreviation seq := (sequence_number li).
Context (Hseq : 0 < seq <= u32_max).

Lemma measure_entries_ok keys cs r prev' curr' :
  Forall2 (λ ka c, Noted prev curr fp ttls ka.1 c ∧ fp !! ka.1 = Some ka.2) keys cs →
  (∀ k, answers li prev' k = answers li prev k) → (∀ k, answers li curr' k = answers li curr k) →
  resources_in_range r → resources_in_range (foldl (note_change seq) r cs) →
  (measure_entries X li keys r (prev', curr')).1 = Ok (foldl (note_change seq) r cs).
Proof.
  intros Hk. revert r prev' curr'. induction Hk as [|[key a] c keys cs [Hn Ha] Hk IH]; intros r prev' curr' Hp Hc Hr Hf; [done|].
  simpl in *. assert (resources_in_range (note_change seq r c)) as Hr'.
  { eapply in_range_between; [exact Hr|by eapply noted_grows| |exact Hf].
    apply (noted_foldl prev curr fp ttls Hseq fst keys). eapply Forall2_impl; [exact Hk|]. by intros ka c' []. }
  pose proof (measure_entry_answers key a r prev' curr') as [Hm Hs].
  assert (measure_answers (answers li prev') (answers li curr') key a r = Ok (note_change seq r c)) as Hstep.
  { rewrite <-(noted_step _ _ _ _ Hseq _ _ a r Hn Ha Hr Hr'). unfold measure_answers. by rewrite Hp, Hc. }
  rewrite Hstep in Hm. unfold m_bind. destruct (measure_entry X li key a r (prev', curr')) as [res [p1 c1]].
  simpl in Hm. subst res. destruct Hs as [Hp1 Hc1]. apply IH; [intros k; by rewrite Hp1|intros k; by rewrite Hc1|done..].
Qed.
End loop.
End measuring.

(** The footprint as its iterator gives it. *)
Lemma iter_entries_keys (key_order : list LedgerKey → list LedgerKey) {A} (m : gmap LedgerKey A) {C} (P : LedgerKey → C → Prop) cs :
  (∀ l, key_order l ≡ₚ l) → Forall2 P (iter_keys key_order m) cs →
  Forall2 (λ ka c, P ka.1 c ∧ m !! ka.1 = Some ka.2) (iter_entries key_order m) cs.
Proof.
  intros Hperm. unfold iter_entries.
  assert (∀ k, k ∈ iter_keys key_order m → is_Some (m !! k)) as Hin.
  { intros k. unfold iter_keys. rewrite Hperm, elem_of_elements. apply elem_of_dom. }
  generalize dependent (iter_keys key_order m). intros l Hin Hl. induction Hl as [|k c l cs Hk Hl IH]; [constructor|].
  simpl. destruct (Hin k ltac:(left)) as [a Ha]. rewrite Ha. simpl. constructor; [done|]. apply IH. intros. apply Hin. by right.
Qed.

Lemma Forall2_impl_in {A C} (P Q : A → C → Prop) l k :
  Forall2 P l k → (∀ x y, x ∈ l → P x y → Q x y) → Forall2 Q l k.
Proof.
  induction 1 as [|x y l k Hxy _ IH]; intros H; constructor; [apply H; [left|done]|].
  apply IH. intros. apply H; [by right|done].
Qed.

(** A scope inside of a scope is none. *)
Lemma nested_scope X key_order {A} (body : M MeteredHost A) mh :
  mh_borrowed mh = true → metered_scope X key_order body mh = body mh.
Proof. intros Hb. unfold metered_scope, maybe_meter_invocation, m_bind. by rewrite Hb. Qed.

Lemma noted_all X (key_order : list LedgerKey → list LedgerKey) li prev curr ttls cs :
  (∀ l, key_order l ≡ₚ l) →
  m_collect (λ key, ledger_entry_change X (footprint curr) (answers li prev) ttls key (default None (smap curr !! key)))
    (iter_keys key_order (footprint curr)) = Ok cs →
  (∀ key a, footprint curr !! key = Some a → ∃ o, let o' := default None (smap curr !! key) in
    answers li prev key = Ok o ∧ answers li curr key = Ok o' ∧ Touched li key a o o') →
  Forall2 (Noted X li prev curr (footprint curr) ttls) (iter_keys key_order (footprint curr)) cs.
Proof.
  intros Hperm Hcs Ht. eapply Forall2_impl_in; [apply m_collect_ok, Hcs|]. intros key c Hkey Hc.
  unfold iter_keys in Hkey. rewrite Hperm, elem_of_elements in Hkey. apply elem_of_dom in Hkey as [a Ha].
  destruct (Ht key a Ha) as (o & Ho & Ho' & Hto). by eexists a, o, _.
Qed.

(** A metered body gives what it gives, and what is measured is what the changes of the
    entries it touched say. *)
Lemma metered_by_changes (X : Xdr) (key_order : list LedgerKey → list LedgerKey) (ttls : TtlEntryMap) {A}
    (body : M MeteredHost A) (mh mh1 : MeteredHost) (r : Result A) cs evs
    (Hperm : ∀ l, key_order l ≡ₚ l)
    (Hon : enabled (mh_meter mh) = true ∧ active (mh_meter mh) = false ∧ mh_borrowed mh = false)
    (Hbody : body (start_invocation mh).2 = (r, mh1))
    (Hmeter : mh_meter mh1 = mh_meter (start_invocation mh).2 ∧ mh_borrowed mh1 = true)
    (prev := h_storage (mh_host mh)) (curr := h_storage (mh_host mh1)) (li := h_ledger (mh_host mh1))
    (Hseq : 0 < sequence_number li <= u32_max)
    (Hcs : m_collect (λ key, ledger_entry_change X (footprint curr) (answers li prev) ttls key (default None (smap curr !! key)))
             (iter_keys key_order (footprint curr)) = Ok cs)
    (Hevs : encode_contract_events X (h_events (mh_host mh1)) = Ok evs)
    (Htouched : ∀ key a, footprint curr !! key = Some a → ∃ o, let o' := default None (smap curr !! key) in
       answers li prev key = Ok o ∧ answers li curr key = Ok o' ∧ Touched li key a o o')
    (used := mkInvocationResources (as_i64 (total_count (cpu_insns (mh_budget mh1))))
       (as_i64 (total_count (Budget.mem_bytes (mh_budget mh1)))) 0 0 0 0 0 0 0 0 0)
    (Hrange : resources_in_range (measured (sequence_number li) cs evs used)) :
  (metered_scope X key_order body mh).1 = r ∧
  get_last_invocation_resources (metered_scope X key_order body mh).2 = Some (measured (sequence_number li) cs evs used).
Proof.
  destruct Hon as (Hen & Hac & Hbo), Hmeter as [Hmeter Hbo1].
  assert (maybe_meter_invocation mh = (Ok true, (start_invocation mh).2)) as Hopen.
  { unfold maybe_meter_invocation. rewrite Hbo. unfold start_invocation. by rewrite Hac, Hen. }
  assert (storage_snapshot (mh_meter mh1) = Some prev) as Hsnap.
  { rewrite Hmeter. unfold start_invocation. by rewrite Hac, Hen. }
  assert (resources_in_range used) as Hused by (unfold resources_in_range, in_u32, u32_max, i64_max; simpl; split_and!; lia).
  pose proof (noted_all X key_order li prev curr ttls cs Hperm Hcs Htouched) as Hnoted.
  assert (resources_in_range (foldl (note_change (sequence_number li)) used cs)) as Hmid.
  { eapply in_range_between; [exact Hused| | |exact Hrange].
    - by eapply (noted_foldl X li prev curr _ ttls Hseq id).
    - apply grows_foldl, Forall_forall. intros. apply note_event_grows. }
  unfold metered_scope, m_bind. rewrite Hopen, Hbody. unfold drop_scope, finish_invocation, try_measure_resources.
  rewrite Hsnap. fold prev curr li used.
  pose proof (measure_entries_ok X li prev curr (footprint curr) ttls Hseq _ _ used prev curr
    (iter_entries_keys key_order _ _ _ Hperm Hnoted) (λ _, eq_refl) (λ _, eq_refl) Hused Hmid) as Hm.
  destruct (measure_entries X li _ used (prev, curr)) as [res [p1 c1]]. simpl in Hm. subst res. simpl.
  rewrite Hevs. simpl. rewrite measure_events_ok by done. done.
Qed.

(** ** Sums *)

Definition sum {A} (f : A → Z) (l : list A) : Z := foldr (λ x n, f x + n) 0 l.

Lemma note_changes_sum seq cs r : foldl (note_change seq) r cs = mkInvocationResources (ir_instructions r) (ir_mem_bytes r)
    (ir_read_entries r + sum (λ c, if read_only c then 1 else 0) cs)
    (ir_write_entries r + sum (λ c, if read_only c then 0 else 1) cs)
    (ir_read_bytes r + sum old_entry_size_bytes cs)
    (ir_write_bytes r + sum (λ c, match encoded_new_value c with Some v => as_u32 (length v) | None => 0 end) cs)
    (ir_contract_events_size_bytes r)
    (persistent_rent_ledger_bytes r + sum (rent_of seq Persistent) cs)
    (persistent_entry_rent_bumps r + sum (bumps_of seq Persistent) cs)
    (temporary_rent_ledger_bytes r + sum (rent_of seq Temporary) cs)
    (temporary_entry_rent_bumps r + sum (bumps_of seq Temporary) cs).
Proof.
  revert r. induction cs as [|c cs IH]; intros r; simpl; [by destruct r; rewrite !Z.add_0_r|].
  rewrite IH. simpl. f_equal; lia.
Qed.
Lemma note_events_sum evs r : foldl note_event r evs = mkInvocationResources (ir_instructions r) (ir_mem_bytes r)
    (ir_read_entries r) (ir_write_entries r) (ir_read_bytes r) (ir_write_bytes r)
    (ir_contract_events_size_bytes r + sum (λ e, as_u32 (length e)) evs)
    (persistent_rent_ledger_bytes r) (persistent_entry_rent_bumps r) (temporary_rent_ledger_bytes r)
    (temporary_entry_rent_bumps r).
Proof.
  revert r. induction evs as [|e evs IH]; intros r; simpl; [by destruct r; rewrite !Z.add_0_r|].
  rewrite IH. simpl. f_equal; lia.
Qed.

Lemma sum_nonneg {A} (f : A → Z) l : Forall (λ x, 0 <= f x) l → 0 <= sum f l.
Proof. induction 1; simpl; lia. Qed.
Lemma sum_count {A} (f : A → Z) l : (∀ x, 0 <= f x <= 1) → 0 <= sum f l <= Z.of_nat (length l).
Proof. intros Hf. induction l as [|x l IH]; simpl; [lia|]. specialize (Hf x). lia. Qed.

(** A saturating sum of sizes. *)
Lemma saturating_sum {A} (f : A → Z) l n : 0 <= n <= u32_max → Forall (λ x, 0 <= f x) l →
  foldl (λ n x, u32_saturating_add n (f x)) n l = Z.min u32_max (n + sum f l).
Proof.
  intros Hn Hf. revert n Hn. induction Hf as [|x l Hx Hf IH]; intros n Hn; simpl; [lia|].
  pose proof (sum_nonneg f l Hf). rewrite IH by (unfold u32_saturating_add, clamp; lia). unfold u32_saturating_add, clamp. lia.
Qed.

(** The rent of the changes that are paid for, but for the growth of each entry in one ledger. *)
Definition rent_but_growth (seq : Z) (p : bool) (e : LedgerEntryRentChange) : Z :=
  if decide (is_persistent e = p) then paid_ledger_bytes seq e - default 0 (size_increase e) else 0.
Lemma rent_of_change seq d c :
  rent_of seq d c = match rent_change c with Some e => rent_but_growth seq (bool_decide (d = Persistent)) e | None => 0 end.
Proof.
  unfold rent_of, change_durability, change_rent, rent_change. destruct (ttl_change c) as [t|]; simpl; [|done].
  destruct (decide (_ ∧ _)); [by case_decide|]. unfold rent_but_growth. simpl.
  destruct (durability t), d; reflexivity.
Qed.
Lemma rent_of_extracted seq d cs :
  sum (rent_of seq d) cs = sum (rent_but_growth seq (bool_decide (d = Persistent))) (extract_rent_changes cs).
Proof.
  induction cs as [|c cs IH]; [done|]. unfold extract_rent_changes in *. csimpl. rewrite rent_of_change, IH.
  by destruct (rent_change c).
Qed.

(** ** Contract programs *)

(** A contract program as the body of an invocation, and a host that meters it from a
    snapshot. *)
Definition contract_body (W : External) (auths : gset ScAddress) (p : prog ScVal) : M MeteredHost ScVal := λ mh,
  let '(r, h) := invoke W auths p (mh_host mh) in (r, mkMeteredHost h (mh_budget mh) (mh_meter mh) (mh_borrowed mh)).
Definition metering_host (src : SnapshotSource) (li : LedgerInfo) (cid : Hash) (b : BudgetImpl) : MeteredHost :=
  mkMeteredHost (mkHost (with_recording_footprint src) li cid ∅ []) b (mkMeter false true None None) false.

Lemma answers_held li s k a o :
  footprint s !! k = Some a → smap s !! k = Some o → check_supported_ledger_key_type k = Ok tt →
  check_if_entry_is_live li k o = Ok true → answers li s k = Ok o.
Proof.
  intros Ha Ho Hs Hl. rewrite answers_lookup, Hs. simpl. unfold Footprint.enforce_access. rewrite Ha, Ho.
  destruct (mode s), a; simpl; by rewrite Hl.
Qed.

Section recorded.
Context {li : LedgerInfo} {src : SnapshotSource} (Hsrc : live_snapshot li src).
Context (W : External) (auths : gset ScAddress) (cid : Hash) (p : prog ScVal) (v : ScVal) (h : Host Storage).
Context (Hrun : invoke W auths p (mkHost (with_recording_footprint src) li cid ∅ []) = (Ok v, h)).
#[local] Abbreviation fp := (footprint (h_storage h)).
#[local] Abbreviation final k := (default None (smap (h_storage h) !! k)).
(** Only contract data and code have lifetimes, and no entry has been made anew with a
    shorter one. *)
Context (Hlong : ∀ k n', final k ≫= snd = Some n' → is_Some (get_key_durability k) ∧
  default (sequence_number li) (snapshot_view src k ≫= snd) <= n' <= u32_max).

Lemma snapshot_seq k n : snapshot_view src k ≫= snd = Some n → sequence_number li <= n.
Proof.
  unfold snapshot_view. destruct (Hsrc k) as (o & -> & H). destruct o as [[e lu]|]; [|done]. simpl. intros ->. by apply H.
Qed.
Lemma final_live k : check_if_entry_is_live li k (final k) = Ok true.
Proof.
  unfold check_if_entry_is_live. destruct (final k) as [[e [n'|]]|] eqn:Hf; [|done..]. rewrite decide_True; [done|].
  destruct (Hlong k n') as [_ [H _]]; [by rewrite Hf|]. destruct (snapshot_view src k ≫= snd) as [n|] eqn:Hn; simpl in H; [|done].
  pose proof (snapshot_seq k n Hn). lia.
Qed.

Lemma recorded_all : dom (smap (h_storage h)) = dom fp ∧ ∀ k a, fp !! k = Some a →
  answers li (with_recording_footprint src) k = Ok (snapshot_view src k) ∧
  answers li (h_storage h) k = Ok (final k) ∧ Touched li k a (snapshot_view src k) (final k).
Proof.
  pose proof (both_runs Hsrc W auths cid p) as H. unfold recording_host in H. rewrite Hrun in H.
  destruct H as (Hsup & Hcov & Hhas & Hrep). specialize (Hhas v eq_refl).
  split; [apply set_eq; intros k; rewrite !elem_of_dom; split; [apply Hcov|apply Hhas]|].
  intros k a Ha. assert (is_Some (fp !! k)) as Hk by eauto. destruct (Hhas k Hk) as [o Ho].
  split; [|split].
  - rewrite answers_lookup, Hsup by done. simpl. rewrite lookup_empty. unfold snapshot_view.
    destruct (Hsrc k) as (s & Hs & Hlive). rewrite Hs. simpl. unfold check_if_entry_is_live.
    destruct s as [[e [n|]]|]; [|done..]. rewrite decide_True by (by apply Hlive). done.
  - pose proof (final_live k) as Hl. rewrite Ho in *. by eapply answers_held; eauto.
  - set (m := map_imap (λ k _, Some (snapshot_view src k)) fp).
    assert (∀ k, m !! k = if decide (is_Some (fp !! k)) then Some (snapshot_view src k) else None) as Hm.
    { intros k'. unfold m. rewrite map_lookup_imap. destruct (fp !! k') eqn:Hk'.
      - by rewrite decide_True by eauto.
      - rewrite decide_False; [done|]. by intros [? [=]]. }
    specialize (Hrep m Hm).
    assert (populated (with_enforcing_footprint_and_map fp m)) as Hpop.
    { intros k' Hk'. simpl in *. rewrite Hm, decide_True by done. eauto. }
    pose proof (invoke_left W auths p (mkHost (with_enforcing_footprint_and_map fp m) li cid ∅ []) k eq_refl Hpop) as (_ & _ & Hro).
    destruct (invoke W auths p (mkHost (with_enforcing_footprint_and_map fp m) li cid ∅ [])) as [r' h']. destruct Hrep as (_ & _ & _ & Hview & Htimed).
    simpl in Hro. rewrite Hview, known_lookup, Hm, !decide_True in Hro by done. simpl in Hro.
    unfold storage_view in Hro. rewrite Ho in Hro. rewrite Ho. simpl. split.
    + intros ->. specialize (Hro Ha). apply entry_kept_fst in Hro. exact Hro.
    + intros n' Hn'. specialize (Hlong k n'). rewrite Ho in Hlong. by apply Hlong.
Qed.

(** The changes that recording mode reports are those of the footprint, from the snapshot. *)
Lemma recorded_noted X key_order ttls cs (s0 := with_recording_footprint src) (s := h_storage h) :
  (∀ l, key_order l ≡ₚ l) → get_ledger_changes X key_order s src ttls = Ok cs →
  m_collect (λ key, ledger_entry_change X fp (answers li s0) ttls key (final key)) (iter_keys key_order fp) = Ok cs ∧
  Forall2 (Noted X li s0 s fp ttls) (iter_keys key_order fp) cs ∧
  (∀ k a, fp !! k = Some a → answers li s0 k = src k) ∧ add_footprint_only_ledger_changes X key_order s cs = cs.
Proof.
  intros Hperm Hcs. destruct recorded_all as [Hdom Hall].
  assert (∀ k a, fp !! k = Some a → answers li s0 k = src k) as Hanswers.
  { intros k a Ha. subst s0. destruct (Hall k a Ha) as [-> _]. unfold snapshot_view. by destruct (Hsrc k) as (o & -> & _). }
  assert (m_collect (λ key, ledger_entry_change X fp (answers li s0) ttls key (final key)) (iter_keys key_order fp) = Ok cs) as Hcs'.
  { rewrite <-Hcs. unfold get_ledger_changes, iter_keys. subst s. rewrite Hdom. apply m_collect_ext. intros k Hk.
    apply entry_change_ext. apply elem_iter_keys in Hk as [a Ha]; [|done]. by apply Hanswers with a. }
  split; [done|]. split; [|split; [done|]].
  - apply (noted_all X key_order li s0 s ttls cs Hperm Hcs'). intros k a Ha. eexists. by apply Hall.
  - unfold add_footprint_only_ledger_changes. rewrite footprint_only_none; [by rewrite app_nil_r|]. intros k Hk.
    apply elem_iter_keys in Hk; [|done]. apply elem_of_dom. subst s. rewrite Hdom. by apply elem_of_dom.
Qed.
End recorded.

(** What is read of the snapshot and written to the ledger, as recording mode counts them. *)
Lemma encode_snapshot_size X src keys cs acc l n :
  0 <= acc.2 <= u32_max →
  Forall2 (λ k c, ∃ o, src k = Ok o ∧ entry_size X o = Ok (old_entry_size_bytes c)) keys cs →
  encode_snapshot X src keys acc = Ok (l, n) → n = Z.min u32_max (acc.2 + sum old_entry_size_bytes cs).
Proof.
  intros Hacc Hk. revert acc Hacc. induction Hk as [|k c keys cs (o & Ho & Hs) Hk IH]; intros acc Hacc; simpl.
  { intros [= ->]. simpl in *. lia. }
  assert (0 <= sum old_entry_size_bytes cs) as Hnn.
  { apply sum_nonneg, Forall_forall. intros c' (i & Hi)%list_elem_of_lookup.
    destruct (Forall2_lookup_r _ _ _ _ _ Hk Hi) as (k' & _ & o' & _ & Hs'). apply (entry_size_bounds X _ _ Hs'). }
  rewrite Ho. simpl. pose proof (entry_size_bounds X _ _ Hs) as Hb. unfold in_u32 in Hb.
  destruct o as [[e lu]|]; simpl in *.
  - intros ([eb tb] & Henc & H)%result_bind_ok. apply result_bind_ok in Hs as (b & Hb' & [= Hs]).
    assert (eb = b) as ->.
    { unfold encode_with_ttl in Henc. simpl in Henc. rewrite Hb' in Henc. simpl in Henc.
      destruct lu; [|by injection Henc]. apply result_bind_ok in Henc as (? & _ & Henc).
      apply result_bind_ok in Henc as (? & _ & Henc). by injection Henc. }
    apply IH in H; simpl in *; rewrite Hs in *; unfold u32_saturating_add, clamp in *; lia.
  - intros H. injection Hs as <-. apply IH in H; [|done]. lia.
Qed.
Lemma write_bytes_sum cs :
  Forall (λ c, read_only c = true → encoded_new_value c = None) cs →
  write_bytes_of cs = Z.min u32_max (sum (λ c, match encoded_new_value c with Some v => as_u32 (length v) | None => 0 end) cs).
Proof.
  intros Hro. unfold write_bytes_of. set (f := λ c, match encoded_new_value c with Some v => as_u32 (length v) | None => 0 end).
  assert (∀ c, 0 <= f c) as Hf by (intros c; unfold f; destruct (encoded_new_value c); [apply as_u32_bounds|done]).
  rewrite <-(Z.add_0_l (sum f cs)). rewrite <-saturating_sum by (first [unfold u32_max; lia|apply Forall_forall; auto]).
  enough (∀ n, 0 <= n <= u32_max → foldl (λ n c, if read_only c then n else
      match encoded_new_value c with Some v => u32_saturating_add n (as_u32 (length v)) | None => n end) n cs =
    foldl (λ n c, u32_saturating_add n (f c)) n cs) as H by (apply H; unfold u32_max; lia).
  induction Hro as [|c cs Hc _ IH]; intros n Hn; [done|]. simpl.
  assert ((if read_only c then n else match encoded_new_value c with Some v => u32_saturating_add n (as_u32 (length v)) | None => n end)
    = u32_saturating_add n (f c)) as ->; [|apply IH; unfold u32_saturating_add, clamp; specialize (Hf c); lia].
  assert (u32_saturating_add n 0 = n) by (unfold u32_saturating_add, clamp; lia).
  unfold f. destruct (read_only c); [by rewrite Hc|by destruct (encoded_new_value c)].
Qed.

(** The changes of an invocation against the footprint. *)
Lemma noted_says X li src prev curr fp ttls keys cs :
  (∀ k a, fp !! k = Some a → answers li prev k = src k) → Forall2 (Noted X li prev curr fp ttls) keys cs →
  Forall2 (λ k c, ∃ o, src k = Ok o ∧ entry_size X o = Ok (old_entry_size_bytes c)) keys cs ∧
  Forall (λ c, read_only c = true → encoded_new_value c = None) cs ∧
  sum (λ c, if read_only c then 1 else 0) cs = Z.of_nat (length (filter (λ k, fp !! k = Some ReadOnly) keys)) ∧
  sum (λ c, if read_only c then 0 else 1) cs = Z.of_nat (length (filter (λ k, fp !! k = Some ReadWrite) keys)).
Proof.
  intros Hsrc Hn. induction Hn as [|k c keys cs (a & o & o' & Ha & Ho & Ho' & Ht & Hc) _ (IH1 & IH2 & IH3 & IH4)]; [done|].
  destruct (entry_change_says _ _ _ _ _ _ _ _ _ Ho Ha (touched_read_only _ _ _ _ _ Ht) Hc) as (s & Hs & _ & Hr & He & _).
  split; [constructor; [exists o; by rewrite <-(Hsrc k a Ha)|done]|].
  split; [constructor; [|done]; rewrite Hr; intros ->%bool_decide_eq_true_1; destruct (encoded_new_value c); [by destruct He|done]|].
  rewrite !filter_cons, Ha. simpl. rewrite IH3, IH4, Hr.
  destruct a; rewrite ?bool_decide_true, ?bool_decide_false by done; simplify_option_eq; simpl; lia.
Qed.

Lemma invoke_ledger W auths {A} (p : prog A) (h : Host Storage) : h_ledger (invoke W auths p h).2 = h_ledger h.
Proof.
  unfold invoke, with_frame. set (h0 := mkHost (h_storage h) _ _ auths _).
  destruct (run_in_frame W p h0) as [Hl _]. by destruct (run W p h0) as [[a|e] h'].
Qed.

(** What recording mode reports of a call that returns. *)
Lemma finish_recording_ok X (key_order : list LedgerKey → list LedgerKey) src seq v (s : Storage) events rr
    (fp := storage_footprint_to_ledger_footprint key_order (footprint s)) :
  finish_recording X key_order src seq (Ok v) s events = Ok rr →
  ∃ bv l n ttls cs evs, let all := add_footprint_only_ledger_changes X key_order s cs in
    write_val X v = Ok bv ∧ encode_snapshot X src (iter_keys key_order (footprint s)) ([], 0) = Ok (l, n) ∧
    get_ledger_changes X key_order s src ttls = Ok cs ∧ encode_contract_events X events = Ok evs ∧
    rr = mkRecordingResult (Ok v) (mkResources fp n (write_bytes_of all)) all (emitted events)
           (foldl add_size (add_size 0 bv) evs).
Proof.
  unfold finish_recording. intros (vsize & (bv & Hbv & [= <-])%result_bind_ok & Hrr)%result_bind_ok.
  apply result_bind_ok in Hrr as (fp' & _ & Hrr). apply result_bind_ok in Hrr as ([l n] & Henc & Hrr).
  apply result_bind_ok in Hrr as ([m ttls] & _ & Hrr). apply result_bind_ok in Hrr as (buf & _ & Hrr).
  apply result_bind_ok in Hrr as (res & _ & Hrr). apply result_bind_ok in Hrr as (cs & Hcs & Hrr).
  apply result_bind_ok in Hrr as (evs & Hevs & [= <-]). by exists bv, l, n, ttls, cs, evs.
Qed.

(** A reported size of the events and the value that is below its limit is exact. *)
Lemma events_reported (bv : bytes) evs n :
  foldl add_size (add_size 0 bv) evs = n → n < u32_max →
  0 <= sum (λ e : bytes, as_u32 (length e)) evs ∧ sum (λ e : bytes, as_u32 (length e)) evs + as_u32 (length bv) = n.
Proof.
  pose proof (as_u32_bounds (length bv)) as Hb. unfold in_u32 in Hb.
  assert (Forall (λ e : bytes, 0 <= as_u32 (length e)) evs) as He by (apply Forall_forall; intros; apply as_u32_bounds).
  pose proof (sum_nonneg _ _ He).
  replace (add_size 0 bv) with (as_u32 (length bv)) by (unfold add_size, u32_saturating_add, clamp; lia).
  unfold add_size. rewrite (saturating_sum (λ e : bytes, as_u32 (length e))) by done. lia.
Qed.

(** What recording mode reports has not run against the limits of its counters. *)
Definition recording_small (seq : Z) (rr : InvokeHostFunctionRecordingModeResult) : Prop :=
  res_read_bytes (resources rr) < u32_max ∧ res_write_bytes (resources rr) < u32_max ∧
  contract_events_and_return_value_size rr < u32_max ∧ Z.of_nat (length (recorded_changes rr)) <= u32_max ∧
  ∀ p, sum (rent_but_growth seq p) (extract_rent_changes (recorded_changes rr)) <= i64_max.

(** What is measured fits its counters when what is reported does. *)
Lemma measured_in_range X li prev curr fp ttls keys cs evs used :
  0 < sequence_number li <= u32_max → Forall2 (Noted X li prev curr fp ttls) keys cs →
  used = mkInvocationResources (ir_instructions used) (ir_mem_bytes used) 0 0 0 0 0 0 0 0 0 →
  sum old_entry_size_bytes cs <= u32_max →
  sum (λ c, match encoded_new_value c with Some v => as_u32 (length v) | None => 0 end) cs <= u32_max →
  0 <= sum (λ e : bytes, as_u32 (length e)) evs <= u32_max → Z.of_nat (length cs) <= u32_max →
  (∀ p, sum (rent_but_growth (sequence_number li) p) (extract_rent_changes cs) <= i64_max) →
  resources_in_range (measured (sequence_number li) cs evs used).
Proof.
  intros Hseq Hnoted Hused Hold Hnew Hev Hlen Hrent.
  pose proof (noted_foldl X li _ _ _ _ Hseq id _ _ used Hnoted) as Hgrows.
  rewrite note_changes_sum, Hused in Hgrows. unfold grows in Hgrows. simpl in Hgrows. destruct_and!.
  pose proof (Hrent true). pose proof (Hrent false).
  pose proof (rent_of_extracted (sequence_number li) Persistent cs) as Hp.
  pose proof (rent_of_extracted (sequence_number li) Temporary cs) as Ht. simpl in Hp, Ht.
  assert (∀ d, 0 <= sum (bumps_of (sequence_number li) d) cs <= u32_max) as Hb.
  { intros d. pose proof (sum_count (bumps_of (sequence_number li) d) cs) as H'.
    specialize (H' ltac:(intros c; unfold bumps_of; case_decide; lia)). lia. }
  pose proof (Hb Persistent). pose proof (Hb Temporary).
  pose proof (sum_count (λ c, if read_only c then 1 else 0) cs ltac:(intros c; simpl; destruct (read_only c); lia)).
  pose proof (sum_count (λ c, if read_only c then 0 else 1) cs ltac:(intros c; simpl; destruct (read_only c); lia)).
  unfold measured, resources_in_range, in_u32. rewrite note_changes_sum, note_events_sum, Hused. simpl. split_and!; lia.
Qed.

(** C16: Metering a contract's invocation measures what recording mode reports for it: as many
    bytes read and written, the entries of its footprint, the same events, and of the rent
    that the recorded changes owe all but the growth of each entry in one ledger.  It does not
    change what the invocation returns.  This is for a fresh metering host at a positive
    ledger that fits a u32, on a live snapshot, for a call whose recording succeeds and
    returns, that shortens no lifetime, and whose recording is small: past the bounds of
    [recording_small] the unchecked additions of the counters would overflow and panic. *)
Theorem metering_matches_recording X key_order W auths cid (p : prog ScVal) acct aes mgr li src seed b rr v
    (body := contract_body W (auths acct mgr) p) (mh := metering_host src li cid b)
    (after := h_storage (invoke W (auths acct mgr) p (mh_host mh)).2)
    (metered := metered_scope X key_order body mh) :
  (∀ l, key_order l ≡ₚ l) → live_snapshot li src → 0 < sequence_number li <= u32_max →
  new_enforcing (Some (Account acct)) aes = Ok mgr →
  invoke_host_function_in_recording_mode X key_order (contract_call W auths) (cid, p) acct aes li src seed = Ok rr →
  invoke_result rr = Ok v →
  (∀ k n', default None (smap after !! k) ≫= snd = Some n' → is_Some (get_key_durability k) ∧
     default (sequence_number li) (snapshot_view src k ≫= snd) <= n' <= u32_max) →
  recording_small (sequence_number li) rr →
  metered.1 = Ok v ∧ ∃ r, get_last_invocation_resources metered.2 = Some r ∧
    ir_read_bytes r = res_read_bytes (resources rr) ∧ ir_write_bytes r = res_write_bytes (resources rr) ∧
    ir_read_entries r = Z.of_nat (length (fp_read_only (res_footprint (resources rr)))) ∧
    ir_write_entries r = Z.of_nat (length (fp_read_write (res_footprint (resources rr)))) ∧
    (∃ bv, write_val X v = Ok bv ∧ ir_contract_events_size_bytes r + as_u32 (length bv) = contract_events_and_return_value_size rr) ∧
    persistent_rent_ledger_bytes r = sum (rent_but_growth (sequence_number li) true) (extract_rent_changes (recorded_changes rr)) ∧
    temporary_rent_ledger_bytes r = sum (rent_but_growth (sequence_number li) false) (extract_rent_changes (recorded_changes rr)).
Proof.
  intros Hperm Hsrc Hseq Hmgr Hrr Hv Hlong (Hs1 & Hs2 & Hs3 & Hs4 & Hs5).
  unfold invoke_host_function_in_recording_mode in Hrr. rewrite Hmgr in Hrr. simpl in Hrr.
  unfold contract_call in Hrr. simpl in Hrr. unfold after in *. clear after. simpl in Hlong.
  destruct (invoke W (auths acct mgr) p _) as [r h] eqn:Hrun in Hrr. rewrite Hrun in Hlong. simpl in Hlong.
  apply result_bind_ok in Hrr as (aes' & _ & Hrr). assert (r = Ok v) as ->.
  { destruct r as [v'|e]; [by apply finish_recording_ok in Hrr as (?&?&?&?&?&?&_&_&_&_&->)|].
    unfold finish_recording in Hrr. repeat (apply result_bind_ok in Hrr as (? & _ & Hrr)). by injection Hrr as <-. }
  apply finish_recording_ok in Hrr as (bv & l & n & ttls & cs & evs & Hbv & Henc & Hcs & Hevs & ->). simpl in *.
  destruct (recorded_noted Hsrc W (auths acct mgr) cid p v h Hrun Hlong X key_order ttls cs Hperm Hcs)
    as (Hcs' & Hnoted & Hanswers & Honly). rewrite Honly in *.
  destruct (noted_says X li src _ _ _ _ _ _ Hanswers Hnoted) as (Hold & Hro & Hreads & Hwrites).
  apply (encode_snapshot_size _ _ _ cs) in Henc; [|simpl; unfold u32_max; lia|done]. simpl in Henc.
  pose proof (write_bytes_sum cs Hro) as Hwb. destruct (events_reported bv evs _ eq_refl Hs3) as [Hev0 Htotal].
  pose proof (as_u32_bounds (length bv)) as [Hb _].
  set (used := mkInvocationResources (as_i64 (total_count (cpu_insns (reset b)))) (as_i64 (total_count (Budget.mem_bytes (reset b))))
    0 0 0 0 0 0 0 0 0).
  assert (resources_in_range (measured (sequence_number li) cs evs used)) as Hrange
    by (eapply measured_in_range; [done|exact Hnoted|done|lia..|done]).
  destruct (recorded_all Hsrc W (auths acct mgr) cid p v h Hrun Hlong) as [_ Hall].
  pose proof (invoke_ledger W (auths acct mgr) p (mkHost (with_recording_footprint src) li cid ∅ [])) as Hli.
  rewrite Hrun in Hli. simpl in Hli. subst li.
  destruct (metered_by_changes X key_order ttls body mh
    (mkMeteredHost h (reset b) (mh_meter (start_invocation mh).2) true) (Ok v) cs evs Hperm) as [Hres Hlast];
    [done| |done|exact Hseq|exact Hcs'|exact Hevs|intros k a Ha; eexists; by apply Hall|exact Hrange|].
  { unfold body, contract_body, mh, start_invocation. simpl. unfold set_events, set_storage. simpl.
    unfold reset_footprint, set_footprint. simpl. unfold with_recording_footprint in Hrun. by rewrite Hrun. }
  split; [exact Hres|]. eexists. split; [exact Hlast|].
  unfold measured. rewrite note_changes_sum, note_events_sum. simpl.
  split; [lia|]. split; [lia|]. split; [done|]. split; [done|]. split; [exists bv; split; [done|lia]|].
  split; apply rent_of_extracted.
Qed.

(** ** The estimate and the fee *)

Lemma foldl_saturating_sum l a : in_fee a → Forall (λ x, 0 <= x) l →
  foldl i64_saturating_add a l = Z.min i64_max (a + sum id l).
Proof.
  intros Ha Hl. revert a Ha. induction Hl as [|x l Hx Hl IH]; intros a Ha; simpl; [unfold in_fee in Ha; lia|].
  pose proof (sum_nonneg id l Hl). rewrite IH by (by apply saturating_add_in_fee). rewrite saturating_add_fee by done.
  change (id x) with x. lia.
Qed.

Definition resources_nonneg (r : InvocationResources) : Prop :=
  Forall (λ n, 0 <= n) [ir_instructions r; ir_read_entries r; ir_write_entries r; ir_read_bytes r; ir_write_bytes r;
    ir_contract_events_size_bytes r; persistent_rent_ledger_bytes r; persistent_entry_rent_bumps r;
    temporary_rent_ledger_bytes r; temporary_entry_rent_bumps r].

(** The estimate is the resource fee of a transaction without a size of its own, without what
    its result costs in history, with the estimated rent. *)
Theorem estimate_agrees (div_ceil : Z → Z → Z) r c persistent_denominator temporary_denominator :
  (∀ a b, 0 < b → a <= b * div_ceil a b < a + b) → resources_nonneg r → fee_config_wf c →
  let e := estimate_fees div_ceil r c persistent_denominator temporary_denominator in
  let fee := compute_transaction_resource_fee div_ceil
    (Fees.mkResources (ir_instructions r) (ir_read_entries r) (ir_write_entries r) (ir_read_bytes r) (ir_write_bytes r)
       (ir_contract_events_size_bytes r) 0) c in
  let result_history := compute_fee_per_increment div_ceil TX_BASE_RESULT_SIZE (fee_per_historical_1kb c) DATA_SIZE_1KB_INCREMENT in
  Z.min i64_max (fe_total e + result_history) =
  Z.min i64_max (fee.1 + fee.2 + persistent_entry_rent e + temporary_entry_rent e).
Proof.
  intros Hdiv Hr Hc. unfold resources_nonneg in Hr. rewrite !Forall_cons in Hr. destruct Hr as (?&?&?&?&?&?&?&?&?&?&_).
  unfold fee_config_wf in Hc. destruct Hc as ([] & [] & [] & [] & [] & [] & [] & []).
  assert (∀ v rate inc, 0 <= v → 0 <= rate → in_fee (compute_fee_per_increment div_ceil v rate inc)) as Hinc
    by (intros; by apply per_increment_fee).
  assert (∀ v, 0 <= v → 0 <= i64_saturating_mul TTL_ENTRY_SIZE v) as Httl by (intros; apply saturating_mul_in_fee; unfold TTL_ENTRY_SIZE; lia).
  assert (0 <= u32_saturating_add (ir_read_entries r) (ir_write_entries r)) as Hre by (unfold u32_saturating_add, clamp; lia).
  assert (compute_fee_per_increment div_ceil 0 (fee_per_transaction_size_1kb c) DATA_SIZE_1KB_INCREMENT = 0) as Hzero.
  { unfold compute_fee_per_increment. rewrite saturating_mul_fee by lia. pose proof (Hdiv (Z.min i64_max (0 * fee_per_transaction_size_1kb c)) (Z.max DATA_SIZE_1KB_INCREMENT 1)) as H'.
    unfold DATA_SIZE_1KB_INCREMENT, i64_max in *. lia. }
  assert (in_fee (compute_fee_per_increment div_ceil (ir_instructions r) (fee_per_instruction_increment c) INSTRUCTIONS_INCREMENT)) as Hi
    by (by apply Hinc).
  cbv zeta. unfold compute_transaction_resource_fee, estimate_fees.
  cbn [fe_total persistent_entry_rent temporary_entry_rent fst snd Fees.instructions Fees.read_entries Fees.write_entries
    Fees.read_bytes Fees.write_bytes Fees.contract_events_size_bytes transaction_size_bytes].
  rewrite Hzero.
  change (u32_saturating_add 0 TX_BASE_RESULT_SIZE) with TX_BASE_RESULT_SIZE.
  pose proof (Hinc TX_BASE_RESULT_SIZE (fee_per_historical_1kb c) DATA_SIZE_1KB_INCREMENT ltac:(done) ltac:(done)) as [Hh _].
  assert (∀ rate n, 0 <= rate → 0 <= n → 0 <= i64_saturating_mul rate n) as Hmul by (intros; by apply saturating_mul_in_fee).
  assert (∀ n d k, 0 <= n → 0 <= k → 0 <= i64_saturating_add
    (compute_fee_per_increment div_ceil n (fee_per_write_1kb c) (i64_saturating_mul DATA_SIZE_1KB_INCREMENT d))
    (i64_saturating_add (i64_saturating_mul (fee_per_write_entry c) k)
       (compute_fee_per_increment div_ceil (i64_saturating_mul TTL_ENTRY_SIZE k) (fee_per_write_1kb c) DATA_SIZE_1KB_INCREMENT))) as Hrent.
  { intros n d k Hn Hk. apply saturating_add_in_fee; [by apply Hinc|]. apply saturating_add_in_fee; [by apply saturating_mul_in_fee|].
    apply Hinc; [by apply Httl|done]. }
  rewrite !foldl_saturating_sum by (first [exact Hi|repeat apply List.Forall_cons; try apply List.Forall_nil;
    first [by apply Hmul|by apply Hrent|by apply Hinc|done]]).
  cbn [sum foldr]. unfold id.
  pose proof (Hrent (persistent_rent_ledger_bytes r) persistent_denominator (persistent_entry_rent_bumps r)) as N1.
  pose proof (Hrent (temporary_rent_ledger_bytes r) temporary_denominator (temporary_entry_rent_bumps r)) as N2.
  pose proof (Hinc (ir_read_bytes r) (fee_per_read_1kb c) DATA_SIZE_1KB_INCREMENT) as N3.
  pose proof (Hinc (ir_write_bytes r) (fee_per_write_1kb c) DATA_SIZE_1KB_INCREMENT) as N4.
  pose proof (Hinc (ir_contract_events_size_bytes r) (fee_per_contract_event_1kb c) DATA_SIZE_1KB_INCREMENT) as N5.
  pose proof (Hmul (fee_per_read_entry c) (u32_saturating_add (ir_read_entries r) (ir_write_entries r))) as N6.
  pose proof (Hmul (fee_per_write_entry c) (ir_write_entries r)) as N7.
  unfold in_fee in *. lia.
Qed.
