(* ===== verification/E2eDemo.v ===== *)
(** Invocations evaluated: a toy encoding of ledger entries, small contracts, and the
    properties of invocations and of their metering at concrete inputs. *)
From S2P Require Import Prelude ScVal Storage Host AuthTree Auth Fees Env Sim.
From S2P Require Import Budget Access Replay E2e E2eThms E2eProps E2eRecord InvocationMeter.
#[local] Open Scope m_scope.

(** * A toy encoding *)

Fixpoint bits_of (p : positive) : bytes :=
  match p with xH => [] | xO p => Byte.x00 :: bits_of p | xI p => Byte.x01 :: bits_of p end.
Definition pos_of : bytes → positive :=
  foldr (λ b p, if Byte.eqb b Byte.x01 then xI p else xO p) xH.
Lemma pos_of_bits p : pos_of (bits_of p) = p.
Proof. induction p as [p IH|p IH|]; simpl; [by rewrite IH..|done]. Qed.

Definition toy_write {A} `{Countable A} (a : A) : Result bytes := Ok (Byte.x01 :: bits_of (encode a)).
Definition toy_read {A} `{Countable A} (b : bytes) : Result A :=
  match b with
  | _ :: b => ok_or (decode (pos_of b)) internal_error
  | [] => Err internal_error
  end.
Lemma toy_read_write {A} `{Countable A} (a : A) b : toy_write a = Ok b → toy_read b = Ok a.
Proof. intros [= <-]. unfold toy_read. by rewrite pos_of_bits, decode_encode. Qed.
Lemma toy_writes {A} `{Countable A} (a : A) : ∃ b, toy_write a = Ok b ∧ b ≠ [] ∧ toy_read b = Ok a.
Proof. eexists. split; [done|]. split; [done|]. by apply toy_read_write. Qed.

(** Records as tuples. *)
Definition signer_code (s : Signer) : (N + N * N) * Z :=
  (match signer_key s with Ed25519 k => inl k | OtherSigner t k => inr (t, k) end, signer_weight s).
Definition signer_of (c : (N + N * N) * Z) : Signer :=
  mkSigner (match c.1 with inl k => Ed25519 k | inr (t, k) => OtherSigner t k end) c.2.
Definition liabilities_code (l : Liabilities) : Z * Z := (buying l, selling l).
Definition liabilities_of (c : Z * Z) : Liabilities := mkLiabilities c.1 c.2.
Definition ext_code (x : AccountEntryExtensionV1) := (liabilities_code (account_liabilities x), account_sponsorship x).
Definition ext_of (c : Z * Z * option (Z * Z)) := mkAccountExt (liabilities_of c.1) c.2.
Definition account_code (a : AccountEntry) :=
  (account_id a, account_balance a, num_sub_entries a, account_flags a, thresholds a, signer_code <$> signers a,
   ext_code <$> account_ext a).
Definition trustline_code (t : TrustLineEntry) :=
  (tl_account t, tl_asset t, tl_balance t, tl_limit t, tl_flags t, liabilities_code <$> tl_liabilities t).
Definition data_code (d : ContractDataEntry) :=
  (cde_contract d, cde_key d, durability_bool (cde_durability d), cde_val d).
Definition entry_code (e : LedgerEntry) :=
  match e with
  | EAccount a => inl (inl (account_code a))
  | ETrustline t => inl (inr (trustline_code t))
  | EContractData d => inr (inl (data_code d))
  | EContractCode h => inr (inr (inl h))
  | EUnsupported u => inr (inr (inr (unsupported_nat u)))
  end.
Definition entry_of c : LedgerEntry :=
  match c with
  | inl (inl (id, b, n, f, th, ss, x)) => EAccount (mkAccountEntry id b n f th (signer_of <$> ss) (ext_of <$> x))
  | inl (inr (a, ass, b, l, f, x)) => ETrustline (mkTrustLine a ass b l f (liabilities_of <$> x))
  | inr (inl (c, k, d, v)) => EContractData (mkContractDataEntry c k (if d : bool then Persistent else Temporary) v)
  | inr (inr (inl h)) => EContractCode h
  | inr (inr (inr u)) => EUnsupported (nth u [Offer; Data; ClaimableBalance; LiquidityPool; ConfigSetting] Ttl)
  end.

Lemma fmap_option_of {A B} (f : A → B) (g : B → A) (o : option A) : (∀ a, g (f a) = a) → g <$> (f <$> o) = o.
Proof. intros H. destruct o; simpl; by rewrite ?H. Qed.
Lemma fmap_list_of {A B} (f : A → B) (g : B → A) (l : list A) : (∀ a, g (f a) = a) → g <$> (f <$> l) = l.
Proof. intros H. rewrite <-list_fmap_compose. rewrite <-(list_fmap_id l) at 2. apply list_fmap_ext. intros i x _. apply H. Qed.

Lemma entry_of_code e : entry_of (entry_code e) = e.
Proof.
  destruct e as [[]|[]|[? ? [] ?]|h|[]]; simpl; try done.
  - rewrite (fmap_list_of signer_code), (fmap_option_of ext_code); [done|by intros [[] []]|by intros [[] ?]].
  - rewrite (fmap_option_of liabilities_code); [done|by intros []].
Qed.

Definition resources_code (r : SorobanResources) :=
  (fp_read_only (res_footprint r), fp_read_write (res_footprint r), res_read_bytes r, res_write_bytes r).
Definition resources_of (c : list LedgerKey * list LedgerKey * Z * Z) : SorobanResources :=
  let '(ro, rw, n, m) := c in mkResources (mkLedgerFootprint ro rw) n m.

Definition toy_xdr : Xdr := {|
  write_key := toy_write;
  write_entry e := toy_write (entry_code e);
  write_ttl t := toy_write (ttl_key_hash t, live_until_ledger_seq t);
  write_val := toy_write;
  write_event e := toy_write (ce_contract e, ce_topics e, ce_data e);
  write_resources r := toy_write (resources_code r);
  write_auth_entry _ := Err internal_error;
  read_entry b := entry_of <$> toy_read b;
  read_ttl b := (λ t, mkTtlEntry t.1 t.2) <$> toy_read b;
  read_resources b := resources_of <$> toy_read b;
  read_auth_entry _ := Err internal_error;
  read_account := toy_read;
  hash_bytes b := N.pos (pos_of b)
|}.

Lemma toy_decodable : decodable toy_xdr toy_read.
Proof.
  split; [intros k b; apply toy_read_write|]. intros e b Hb. simpl in *.
  rewrite (toy_read_write _ _ Hb). simpl. by rewrite entry_of_code.
Qed.
Lemma toy_encodes : Encodes toy_xdr.
Proof.
  split; simpl.
  - intros k. destruct (toy_writes k) as (b & H & _). by exists b.
  - intros e. destruct (toy_writes (entry_code e)) as (b & H & _ & Hr). exists b. split; [done|]. rewrite Hr.
    simpl. by rewrite entry_of_code.
  - intros [h n]. destruct (toy_writes (h, n)) as (b & H & Hne & Hr). exists b. by rewrite Hr.
  - intros v. destruct (toy_writes v) as (b & H & _). by exists b.
  - intros e. destruct (toy_writes (ce_contract e, ce_topics e, ce_data e)) as (b & H & _). by exists b.
  - intros [[ro rw] n m]. destruct (toy_writes (ro, rw, n, m)) as (b & H & _ & Hr). exists b. split; [done|]. by rewrite Hr.
Qed.

(** * A small contract *)

(** Three entries, one of which is counted up, one kept alive and one removed. *)
Definition demo_entry (name : string) (n lifetime : Z) : EntryWithLiveUntil :=
  (EContractData (mkContractDataEntry (Contract demo_self) (ScSymbol name) Persistent (ScU32 n)), Some lifetime).
Definition demo_key (name : string) : LedgerKey := KContractData (Contract demo_self) (ScSymbol name) Persistent.
Definition demo_snapshot : SnapshotSource := λ k,
  if decide (k = demo_key "n") then Ok (Some (demo_entry "n" 1 150))
  else if decide (k = demo_key "cfg") then Ok (Some (demo_entry "cfg" 5 120))
  else if decide (k = demo_key "old") then Ok (Some (demo_entry "old" 7 130))
  else Ok None.

Definition demo_prog : prog ScVal :=
  trigger (OpSet (ScSymbol "n") (ScU32 2)) ;;
  trigger (OpExtendTtl (ScSymbol "cfg") 100 500) ;;
  trigger (OpRemove (ScSymbol "old")) ;;
  publish [ScSymbol "set"] (ScU32 2) ;;
  Ret (ScU32 2).

(** The function name encodes nothing: there is one program. *)
Definition demo_fn (_ : bytes) : Result (Hash * prog ScVal) := Ok (demo_self, demo_prog).
Definition demo_call := contract_call toy (λ _ _, ∅).
Definition demo_seed : bytes := replicate 32 Byte.x00.
Definition got (r : Result bytes) : bytes := match r with Ok b => b | Err _ => [] end.
Definition demo_resources : bytes := got (write_resources toy_xdr
  (mkResources (mkLedgerFootprint [demo_key "cfg"] [demo_key "n"; demo_key "old"]) 0 0)).
Definition demo_entries : list bytes :=
  (λ e : EntryWithLiveUntil, got (write_entry toy_xdr e.1)) <$> [demo_entry "n" 1 150; demo_entry "cfg" 5 120; demo_entry "old" 7 130].
Definition demo_ttls : list bytes := (λ n, got (write_ttl toy_xdr (mkTtlEntry 0%N n))) <$> [150; 120; 130].

Definition demo_invocation : Result InvokeHostFunctionResult :=
  invoke_host_function toy_xdr (λ l, l) demo_fn demo_call [] demo_resources (got (toy_write 9%N)) []
    demo_ledger demo_entries demo_ttls demo_seed.

Lemma demo_invoked : (∃ out, demo_invocation = Ok out) ∧
  (encoded_invoke_result <$> demo_invocation) = Ok (toy_write (ScU32 2)).
Proof.
  assert ((λ o, encoded_invoke_result o) <$> demo_invocation = Ok (toy_write (ScU32 2))) as H by (vm_compute; reflexivity).
  split; [|exact H]. destruct demo_invocation as [out|]; [by exists out|done].
Qed.

Lemma demo_live : live_snapshot demo_ledger demo_snapshot.
Proof.
  intros k. unfold demo_snapshot.
  destruct (decide (k = demo_key "n")) as [->|_]; [|destruct (decide (k = demo_key "cfg")) as [->|_];
    [|destruct (decide (k = demo_key "old")) as [->|_]; [|by exists None]]];
    (eexists; split; [reflexivity|]; split; [done|]; split; [split; intros _; by eexists|];
     intros n [= <-]; simpl; lia).
Qed.

Lemma invocation_commits_witness : ∃ out fp m call,
  demo_invocation = Ok out ∧ encoded_invoke_result out = toy_write (ScU32 2) ∧
  Started toy_xdr (λ l, l) demo_fn [] demo_resources demo_ledger demo_entries demo_ttls fp m call ∧
  ∀ k, fp !! k ≠ Some ReadWrite →
    fst <$> apply_changes toy_xdr toy_read (known m) (ledger_changes out) !! k = fst <$> known m !! k.
Proof.
  destruct demo_invoked as [[out Hout] Henc]. exists out.
  destruct (invocation_commits toy_xdr (λ l, l) toy_read demo_fn toy (λ _ _, ∅) [] demo_resources (got (toy_write 9%N)) []
    demo_ledger demo_entries demo_ttls demo_seed out (λ l, reflexivity l) toy_decodable)
    as (fp & m & call & acct & mgr & Hst & H); [exact Hout|]. exists fp, m, call. rewrite Hout in Henc. injection Henc as Henc.
  split; [exact Hout|]. split; [exact Henc|]. split; [exact Hst|]. intros k Hk. cbv zeta in H.
  destruct (invoke toy _ _ _) as [r h]. rewrite Henc in H. destruct H as (_ & _ & H). exact (proj2 (proj2 (H k)) Hk).
Defined.

Lemma invocation_rent_witness : ∃ out (fp : FootprintMap) m,
  demo_invocation = Ok out ∧
  extract_rent_changes (ledger_changes out) =
    omap (λ k, rent_due toy_xdr k (known m !! k) (apply_changes toy_xdr toy_read (known m) (ledger_changes out) !! k))
      (iter_keys (λ l, l) fp).
Proof.
  destruct demo_invoked as [[out Hout] Henc]. exists out.
  destruct (invocation_rent toy_xdr (λ l, l) toy_read demo_fn toy (λ _ _, ∅) [] demo_resources (got (toy_write 9%N)) []
    demo_ledger demo_entries demo_ttls demo_seed out (got (toy_write (ScU32 2))) (λ l, reflexivity l) toy_decodable)
    as (fp & m & call & _ & H).
  - simpl. lia.
  - exact Hout.
  - rewrite Hout in Henc. by injection Henc.
  - exists fp, m. split; [exact Hout|]. exact (proj1 H).
Defined.

Definition demo_recording : Result InvokeHostFunctionRecordingModeResult :=
  invoke_host_function_in_recording_mode toy_xdr (λ l, l) demo_call (demo_self, demo_prog) 9%N [] demo_ledger
    demo_snapshot demo_seed.
Lemma demo_recorded : invoke_result <$> demo_recording = Ok (Ok (ScU32 2)).
Proof. vm_compute. reflexivity. Qed.
Lemma demo_recording_returns rr : demo_recording = Ok rr → invoke_result rr = Ok (ScU32 2).
Proof. intros Hrr. pose proof demo_recorded as H. rewrite Hrr in H. by injection H. Qed.

Lemma recording_predicts_witness : ∃ rr fp entries read_bytes out,
  demo_recording = Ok rr ∧ invoke_result rr = Ok (ScU32 2) ∧
  build_storage_footprint_from_xdr (res_footprint (resources rr)) = Ok fp ∧
  encode_snapshot toy_xdr demo_snapshot (iter_keys (λ l, l) fp) ([], 0) = Ok (entries, read_bytes) ∧
  invoke_host_function toy_xdr (λ l, l) demo_fn demo_call [] (got (write_resources toy_xdr (resources rr)))
    (got (toy_write 9%N)) [] demo_ledger entries.*1 entries.*2 demo_seed = Ok out ∧
  encoded_invoke_result out = toy_write (ScU32 2) ∧ ledger_changes out = recorded_changes rr ∧
  m_collect (write_event toy_xdr) (contract_events rr) = Ok (encoded_contract_events out).
Proof.
  destruct (new_enforcing (Some (Account 9%N)) []) as [mgr|] eqn:Hmgr; [|done].
  destruct (recording_predicts toy_xdr (λ l, l) demo_fn toy (λ _ _, ∅) demo_self demo_prog 9%N [] mgr demo_ledger
    demo_snapshot demo_seed (λ l, reflexivity l) toy_encodes demo_live) as (rr & fp & es & n & H1 & H2 & H3 & Hrun).
  - intros e He. exfalso. by apply elem_of_nil in He.
  - exact Hmgr.
  - destruct (encodes_resources _ toy_encodes (resources rr)) as (rb & Hrb & Hread).
    assert (read_account toy_xdr (got (toy_write 9%N)) = Ok 9%N) as Hacct by (vm_compute; reflexivity).
    destruct (Hrun [] rb (resources rr) (got (toy_write 9%N)) [] eq_refl Hread eq_refl Hacct eq_refl eq_refl)
      as (out & Hout & H).
    rewrite (demo_recording_returns rr H1) in H. destruct H as (H4 & H5 & H6).
    exists rr, fp, es, n, out. rewrite Hrb. simpl got.
    exact (conj H1 (conj (demo_recording_returns rr H1) (conj H2 (conj H3 (conj Hout (conj (eq_sym H4) (conj H5 H6))))))).
Defined.

(** * Metering *)

Definition metered_demo (src : SnapshotSource) (p : prog ScVal) : Result ScVal * MeteredHost :=
  metered_scope toy_xdr (λ l, l) (contract_body toy ∅ p) (metering_host src demo_ledger demo_self default_budget).

(** An entry as the contracts leave it, with a long life, and a program that removes it and
    stores it again.  It gets a new and shorter life.  Without metering the invocation
    succeeds; with it, measuring panics. *)
Definition kept_alive : SnapshotSource := λ k,
  if decide (k = demo_key "n") then Ok (Some (demo_entry "n" 1 (sequence_number demo_ledger + TTL_EXTEND_TO))) else Ok None.
Definition remaking : prog ScVal :=
  trigger (OpRemove (ScSymbol "n")) ;; trigger (OpSet (ScSymbol "n") (ScU32 3)) ;; Ret (ScU32 3).
Lemma metering_remade_panics :
  (invoke toy ∅ remaking (mh_host (metering_host kept_alive demo_ledger demo_self default_budget))).1 = Ok (ScU32 3) ∧
  (metered_demo kept_alive remaking).1 = Err (EPanic "attempt to subtract with overflow").
Proof. vm_compute. done. Qed.

(** An entry that only grows counts as one whose rent was bumped, though its lifetime stays
    and no entry for it is written. *)
Definition growing : prog ScVal := trigger (OpSet (ScSymbol "n") (ScSymbol "abcdefgh")) ;; Ret ScVoid.
Lemma metering_growth_is_bump :
  persistent_entry_rent_bumps <$> get_last_invocation_resources (metered_demo kept_alive growing).2 = Some 1.
Proof. vm_compute. done. Qed.

(** The condition on lifetimes, decided. *)
Definition lives_kept (li : LedgerInfo) (src : SnapshotSource) (m : StorageMap) : bool :=
  forallb (λ ko, match ko.2 ≫= snd with
    | Some n' => bool_decide (is_Some (get_key_durability ko.1)) &&
        ((default (sequence_number li) (snapshot_view src ko.1 ≫= snd) <=? n') && (n' <=? u32_max))
    | None => true
    end) (map_to_list m).
Lemma lives_kept_ok li src m : lives_kept li src m = true →
  ∀ k n', default None (m !! k) ≫= snd = Some n' → is_Some (get_key_durability k) ∧
    default (sequence_number li) (snapshot_view src k ≫= snd) <= n' <= u32_max.
Proof.
  unfold lives_kept. rewrite forallb_forall. intros H k n' Hn. destruct (m !! k) as [o|] eqn:Hk; [|done]. simpl in Hn.
  apply elem_of_map_to_list, list_elem_of_In in Hk. apply H in Hk. simpl in Hk. rewrite Hn in Hk.
  apply andb_prop in Hk as [Hd Hk]. apply andb_prop in Hk as [H1 H2].
  apply bool_decide_eq_true_1 in Hd. split; [done|]. lia.
Qed.

Lemma metering_matches_recording_witness : ∃ mgr rr v r,
  new_enforcing (Some (Account 9%N)) [] = Ok mgr ∧
  invoke_host_function_in_recording_mode toy_xdr (λ l, l) demo_call (demo_self, demo_prog) 9%N [] demo_ledger
    demo_snapshot demo_seed = Ok rr ∧ invoke_result rr = Ok v ∧
  get_last_invocation_resources (metered_demo demo_snapshot demo_prog).2 = Some r ∧
  ir_write_bytes r = res_write_bytes (resources rr).
Proof.
  destruct (new_enforcing (Some (Account 9%N)) []) as [mgr|] eqn:Hmgr; [|done].
  set (rec := invoke_host_function_in_recording_mode toy_xdr (λ l, l) demo_call (demo_self, demo_prog) 9%N [] demo_ledger
    demo_snapshot demo_seed).
  assert ((λ rr, (invoke_result rr, bool_decide (res_read_bytes (resources rr) < u32_max ∧ res_write_bytes (resources rr) < u32_max ∧
    contract_events_and_return_value_size rr < u32_max ∧ Z.of_nat (length (recorded_changes rr)) <= u32_max ∧
    sum (rent_but_growth 100 true) (extract_rent_changes (recorded_changes rr)) <= i64_max ∧
    sum (rent_but_growth 100 false) (extract_rent_changes (recorded_changes rr)) <= i64_max))) <$> rec = Ok (Ok (ScU32 2), true)) as Hrec
    by (vm_compute; reflexivity).
  destruct rec as [rr|] eqn:Hrr; [|done]. injection Hrec as Hv Hsmall. apply bool_decide_eq_true_1 in Hsmall.
  destruct (metering_matches_recording toy_xdr (λ l, l) toy (λ _ _, ∅) demo_self demo_prog 9%N [] mgr demo_ledger demo_snapshot
    demo_seed default_budget rr (ScU32 2)) as (_ & r & Hr & _ & Hw & _).
  - intros l. reflexivity.
  - exact demo_live.
  - simpl. unfold u32_max. lia.
  - exact Hmgr.
  - exact Hrr.
  - exact Hv.
  - apply lives_kept_ok. vm_compute. reflexivity.
  - destruct Hsmall as (? & ? & ? & ? & ? & ?). split_and!; try assumption. intros []; assumption.
  - exists mgr, rr, (ScU32 2), r. split_and!; [reflexivity|reflexivity|exact Hv|exact Hr|exact Hw].
Defined.
