(* ===== verification/Objects.v ===== *)
(** Host objects: the values contracts refer to by handles.  P/host_object.rs, the
    functions on vectors, maps and bytes of P/host.rs, P/host/validity.rs, and the crossing
    between a contract's code and the host of P/vm/dispatch.rs.

    Values that are not object references ([Small]) come from outside the repository and
    are opaque, but for the [u32]s, booleans and the unit value the functions make and
    take; so is the comparison of values. *)
From S2P Require Import Prelude ScVal Budget BudgetThms Metering Search OrdMap Vector.
#[local] Open Scope m_scope.

Abbreviation bytes := (list Byte.byte).

(** * Values and objects *)

Inductive Tag :=
| VecObject | MapObject | U64Object | I64Object | TimepointObject | DurationObject
| U128Object | I128Object | U256Object | I256Object | BytesObject | StringObject
| SymbolObject | AddressObject.
#[export] Instance Tag_eq_dec : EqDecision Tag.
Proof. solve_decision. Defined.

(** A reference: the type it claims and a [u32]. *)
Record Object := mkObject { get_tag : Tag; get_handle : Z }.

Class SmallVals (Small : Type) := {
  void : Small;
  u32_val : Z → Small;
  bool_val : bool → Small;
  as_u32 : Small → option Z
}.

Inductive Val (Small : Type) := VObject (o : Object) | VSmall (s : Small).
Arguments VObject {Small}. Arguments VSmall {Small}.

Inductive HostObject (Small : Type) :=
| OVec (v : list (Val Small))
| OMap (m : list (Val Small * Val Small))
| OU64 (n : Z) | OI64 (n : Z) | OTimePoint (n : Z) | ODuration (n : Z)
| OU128 (n : Z) | OI128 (n : Z) | OU256 (n : Z) | OI256 (n : Z)
| OBytes (b : bytes) | OString (b : bytes) | OSymbol (b : bytes)
| OAddress (a : ScAddress).
Arguments OVec {Small}. Arguments OMap {Small}. Arguments OU64 {Small}. Arguments OI64 {Small}.
Arguments OTimePoint {Small}. Arguments ODuration {Small}. Arguments OU128 {Small}. Arguments OI128 {Small}.
Arguments OU256 {Small}. Arguments OI256 {Small}. Arguments OBytes {Small}. Arguments OString {Small}.
Arguments OSymbol {Small}. Arguments OAddress {Small}.

(** The tag of a reference to an object, [HostObjectType::Wrapper]. *)
Definition wrapper {Small} (o : HostObject Small) : Tag :=
  match o with
  | OVec _ => VecObject | OMap _ => MapObject | OU64 _ => U64Object | OI64 _ => I64Object
  | OTimePoint _ => TimepointObject | ODuration _ => DurationObject | OU128 _ => U128Object
  | OI128 _ => I128Object | OU256 _ => U256Object | OI256 _ => I256Object | OBytes _ => BytesObject
  | OString _ => StringObject | OSymbol _ => SymbolObject | OAddress _ => AddressObject
  end.

(** The frame of code in the virtual machine: its table of relative references and its
    linear memory, if it has one. *)
Record VmFrame := mkVmFrame {
  relative_objects : list Object;
  memory : option bytes
}.

(** The host: its objects, the running frames, the current one first, [None] for one
    without code in the virtual machine, and the budget. *)
Record ObjHost (Small B : Type) := mkObjHost {
  objects : list (HostObject Small);
  frames : list (option VmFrame);
  budget : B
}.
Arguments mkObjHost {Small B}. Arguments objects {Small B}. Arguments frames {Small B}. Arguments budget {Small B}.

(** ** Handles *)

Definition is_relative_object_handle (handle : Z) : bool := Z.land handle 1 =? 0.
Definition handle_to_index (handle : Z) : nat := Z.to_nat (Z.shiftr handle 1).

(** [u32::checked_shl]: only the number of places is checked. *)
Definition u32_checked_shl (n k : Z) : option Z :=
  if decide (k < 32) then Some (Z.shiftl n k mod 2 ^ 32) else None.

Definition ARITH_OVERFLOW : Error := EHost TValue ArithDomain.
Definition index_to_handle (index : nat) (relative : bool) : Result Z :=
  if decide (Z.of_nat index <= u32_max) then
    match u32_checked_shl (Z.of_nat index) 1 with
    | Some shifted => Ok (if relative then shifted else Z.lor shifted 1)
    | None => Err ARITH_OVERFLOW
    end
  else Err ARITH_OVERFLOW.

(** ** Checks of indices *)

Definition OBJECT_OOB : Error := EHost TObject IndexBounds.
Definition validate_index_lt_bound (index : Z) (bound : nat) : Result unit :=
  if decide (Z.of_nat bound <= index) then Err OBJECT_OOB else Ok tt.
Definition validate_index_le_bound (index : Z) (bound : nat) : Result unit :=
  if decide (Z.of_nat bound < index) then Err OBJECT_OOB else Ok tt.
Definition valid_range_from_start_end_bound (start stop : Z) (bound : nat) : Result (nat * nat) :=
  _ ← validate_index_le_bound start bound;
  _ ← validate_index_le_bound stop bound;
  if decide (stop < start) then Err (EHost TObject InvalidInput) else Ok (Z.to_nat start, Z.to_nat stop).
Definition u32_try_from (n : nat) : Result Z := if decide (Z.of_nat n <= u32_max) then Ok (Z.of_nat n) else Err ARITH_OVERFLOW.
Definition validate_usize_sum_fits_in_u32 (a b : nat) : Result nat :=
  a ← u32_try_from a;
  b ← u32_try_from b;
  match u32_checked_add a b with Some n => Ok (Z.to_nat n) | None => Err ARITH_OVERFLOW end.

Definition usize_to_u32 (u : nat) : Result Z :=
  if decide (Z.of_nat u <= u32_max) then Ok (Z.of_nat u) else Err (EHost TValue ArithDomain).
Definition u8_from_u32val_input (u : Z) : Result Byte.byte :=
  match Byte.of_N (Z.to_N u) with Some b => Ok b | None => Err (EHost TValue ArithDomain) end.
Definition u32_of_byte (b : Byte.byte) : Z := Z.of_N (Byte.to_N b).

(** A match or the place for one, as the virtual machine gets it. *)
Definition u64_from_binary_search_result (res : nat + nat) : Result Z :=
  match res with
  | inl u => v ← usize_to_u32 u; Ok (Z.lor v (Z.shiftl 1 32))
  | inr u => usize_to_u32 u
  end.

Section host.
Context {Small B : Type} `{SmallVals Small} `{AsBudget B}.
#[local] Abbreviation Val := (Val Small) (only parsing).
#[local] Abbreviation HostObject := (HostObject Small) (only parsing).
#[local] Abbreviation Host := (ObjHost Small B) (only parsing).
(** The error of a conversion to [ScBytes] that is too long, and the comparison of
    values, which are not in the repository. *)
Context (xdr_error : Error) (compare : Val → Val → M Host comparison).

Definition put_budget (b : B) (h : Host) : Host := mkObjHost (objects h) (frames h) b.
#[export] Instance ObjHost_as_budget : AsBudget Host := λ ty input, m_zoom budget put_budget (charge ty input).
#[export] Instance Val_size : DeclaredSizeForMetering Val := 8.
#[export] Instance Object_size : DeclaredSizeForMetering Object := 8.
#[export] Instance HostObject_size : DeclaredSizeForMetering HostObject := 48.
#[export] Instance byte_size : DeclaredSizeForMetering Byte.byte := 1.
#[export] Instance ScAddress_size : DeclaredSizeForMetering ScAddress := 33.
#[export] Instance Val_clone : MeteredClone Host Val := shallow_clone.
#[export] Instance byte_clone : MeteredClone Host Byte.byte := shallow_clone.
#[export] Instance ScAddress_clone : MeteredClone Host ScAddress := shallow_clone.

(** ** The object table *)

Definition add_host_object (hot : HostObject) : M Host Object :=
  let* h := m_get in
  let* handle := m_lift (index_to_handle (length (objects h)) false) in
  charge_heap_alloc HostObject 1 ;;;
  m_modify (λ h, mkObjHost (objects h ++ [hot]) (frames h) (budget h)) ;;;
  m_ret (mkObject (wrapper hot) handle).

Definition visit_obj_untyped {U} (obj : Object) (f : HostObject → M Host U) : M Host U :=
  charge VisitObject None ;;;
  let* h := m_get in
  if is_relative_object_handle (get_handle obj) then m_fail (EHost TObject InternalError)
  else match objects h !! handle_to_index (get_handle obj) with
       | Some o => f o
       | None => m_fail (EHost TValue InvalidInput)
       end.

Definition visit_obj {T U} (try_extract : HostObject → option T) (obj : Object) (f : T → M Host U) : M Host U :=
  visit_obj_untyped obj (λ hobj,
    match try_extract hobj with Some hot => f hot | None => m_fail (EHost TObject InternalError) end).

Definition extract_vec (o : HostObject) := match o with OVec v => Some v | _ => None end.
Definition extract_map (o : HostObject) := match o with OMap m => Some m | _ => None end.
Definition extract_bytes (o : HostObject) := match o with OBytes b => Some b | _ => None end.
Definition extract_string (o : HostObject) := match o with OString b => Some b | _ => None end.
Definition extract_symbol (o : HostObject) := match o with OSymbol b => Some b | _ => None end.

Definition check_obj_integrity (obj : Object) : M Host unit :=
  visit_obj_untyped obj (λ hobj,
    if decide (get_tag obj = wrapper hobj) then m_ret tt else m_fail (EHost TValue InvalidInput)).

(** ** Relative references *)

Definition with_current_frame_relative_object_table {U} (f : M (list Object) U) : M Host U := λ h,
  match frames h with
  | Some fr :: rest =>
      let '(r, table) := f (relative_objects fr) in
      (r, mkObjHost (objects h) (Some (mkVmFrame table (memory fr)) :: rest) (budget h))
  | _ => (Err (EHost TContext InternalError), h)
  end.

Definition relative_to_absolute (val : Val) : M Host Val :=
  match val with
  | VObject obj =>
      if is_relative_object_handle (get_handle obj) then
        let* abs_opt := with_current_frame_relative_object_table
          (let* table := m_get in m_ret (table !! handle_to_index (get_handle obj))) in
        match abs_opt with
        | Some abs =>
            if decide (get_tag abs = get_tag obj) then m_ret (VObject abs)
            else m_fail (EHost TValue InvalidInput)
        | None => m_fail (EHost TValue InvalidInput)
        end
      else m_fail (EHost TValue InvalidInput)
  | VSmall _ => m_ret val
  end.

Definition absolute_to_relative (val : Val) : M Host Val :=
  match val with
  | VObject obj =>
      if is_relative_object_handle (get_handle obj) then m_fail (EHost TContext InternalError)
      else
        charge_heap_alloc Object 1 ;;;
        let* index := with_current_frame_relative_object_table
          (let* table := m_get in m_modify (λ t, t ++ [obj]) ;;; m_ret (length table)) in
        let* handle := m_lift (index_to_handle index true) in
        m_ret (VObject (mkObject (get_tag obj) handle))
  | VSmall _ => m_ret val
  end.

(** ** Vectors *)

Definition visit_vec {U} := visit_obj (U:=U) extract_vec.
Definition usize_to_u32val (u : nat) : M Host Val :=
  let* n := m_lift (usize_to_u32 u) in m_ret (VSmall (u32_val n)).
Definition new_vec (p : M Host (list Val)) : M Host Object := let* vnew := p in add_host_object (OVec vnew).

Definition vec_new : M Host Object := add_host_object (OVec []).
Definition vec_put (v : Object) (i : Z) (x : Val) : M Host Object :=
  new_vec (visit_vec v (λ hv,
    m_lift (validate_index_lt_bound i (length hv)) ;;; MeteredVector.set hv (Z.to_nat i) x)).
Definition vec_get (v : Object) (i : Z) : M Host Val :=
  visit_vec v (λ hv, m_lift (validate_index_lt_bound i (length hv)) ;;; MeteredVector.get hv (Z.to_nat i)).
Definition vec_del (v : Object) (i : Z) : M Host Object :=
  new_vec (visit_vec v (λ hv,
    m_lift (validate_index_lt_bound i (length hv)) ;;; MeteredVector.remove hv (Z.to_nat i))).
Definition vec_len (v : Object) : M Host Val :=
  let* len := visit_vec v (λ hv, m_ret (length hv)) in usize_to_u32val len.
Definition vec_push_front (v : Object) (x : Val) : M Host Object :=
  new_vec (visit_vec v (λ hv, MeteredVector.push_front hv x)).
Definition vec_pop_front (v : Object) : M Host Object := new_vec (visit_vec v MeteredVector.pop_front).
Definition vec_push_back (v : Object) (x : Val) : M Host Object :=
  new_vec (visit_vec v (λ hv, MeteredVector.push_back hv x)).
Definition vec_pop_back (v : Object) : M Host Object := new_vec (visit_vec v MeteredVector.pop_back).
Definition vec_front (v : Object) : M Host Val := visit_vec v MeteredVector.front.
Definition vec_back (v : Object) : M Host Val := visit_vec v MeteredVector.back.
Definition vec_insert (v : Object) (i : Z) (x : Val) : M Host Object :=
  new_vec (visit_vec v (λ hv,
    m_lift (validate_index_le_bound i (length hv)) ;;; MeteredVector.insert hv (Z.to_nat i) x)).
Definition vec_append (v1 v2 : Object) : M Host Object :=
  new_vec (visit_vec v1 (λ hv1, visit_vec v2 (λ hv2,
    if decide (u32_max - Z.of_nat (length hv2) < Z.of_nat (length hv1)) then m_fail ARITH_OVERFLOW
    else MeteredVector.append hv1 hv2))).
Definition vec_slice (v : Object) (start stop : Z) : M Host Object :=
  new_vec (visit_vec v (λ hv,
    let* range := m_lift (valid_range_from_start_end_bound start stop (length hv)) in
    MeteredVector.slice hv range.1 range.2)).
Definition index_or_void (r : option nat) : M Host Val :=
  match r with Some u => usize_to_u32val u | None => m_ret (VSmall void) end.
Definition vec_first_index_of (v : Object) (x : Val) : M Host Val :=
  visit_vec v (λ hv, let* r := MeteredVector.first_index_of hv (λ other, compare x other) in index_or_void r).
Definition vec_last_index_of (v : Object) (x : Val) : M Host Val :=
  visit_vec v (λ hv, let* r := MeteredVector.last_index_of hv (λ other, compare x other) in index_or_void r).
Definition vec_binary_search (v : Object) (x : Val) : M Host Z :=
  visit_vec v (λ hv,
    let* res := MeteredVector.binary_search_by hv (λ probe, compare probe x) in
    m_lift (u64_from_binary_search_result res)).

(** ** Maps *)

Definition visit_map {U} := visit_obj (U:=U) extract_map.
Definition MISSING_KEY : Error := EHost TObject MissingValue.

Definition map_new : M Host Object := add_host_object (OMap []).
Definition map_put (m : Object) (k v : Val) : M Host Object :=
  let* mnew := visit_map m (λ hm, OrdMap.insert compare hm k v) in add_host_object (OMap mnew).
Definition map_get (m : Object) (k : Val) : M Host Val :=
  visit_map m (λ hm, let* r := OrdMap.get compare hm k in m_lift (ok_or r MISSING_KEY)).
Definition map_del (m : Object) (k : Val) : M Host Object :=
  let* r := visit_map m (λ hm, OrdMap.remove compare hm k) in
  match r with Some (mnew, _) => add_host_object (OMap mnew) | None => m_fail MISSING_KEY end.
Definition map_len (m : Object) : M Host Val :=
  let* len := visit_map m (λ hm, m_ret (length hm)) in usize_to_u32val len.
Definition map_has (m : Object) (k : Val) : M Host Val :=
  visit_map m (λ hm, let* b := OrdMap.contains_key compare hm k in m_ret (VSmall (bool_val b))).
Definition map_key_by_pos (m : Object) (i : Z) : M Host Val :=
  visit_map m (λ hm, let* r := OrdMap.get_at_index hm (Z.to_nat i) in m_ret r.1).
Definition map_val_by_pos (m : Object) (i : Z) : M Host Val :=
  visit_map m (λ hm, let* r := OrdMap.get_at_index hm (Z.to_nat i) in m_ret r.2).
Definition map_keys (m : Object) : M Host Object :=
  new_vec (visit_map m (λ hm, let* ks := OrdMap.keys hm in MeteredVector.from_exact_iter ks)).
Definition map_values (m : Object) : M Host Object :=
  new_vec (visit_map m (λ hm, let* vs := OrdMap.values hm in MeteredVector.from_exact_iter vs)).

(** ** Bytes *)

Definition visit_bytes {U} := visit_obj (U:=U) extract_bytes.
(** [ScBytes::try_from]. *)
Definition to_scbytes (v : bytes) : Result bytes := if decide (Z.of_nat (length v) <= u32_max) then Ok v else Err xdr_error.
Definition new_bytes (p : M Host bytes) : M Host Object := let* vnew := p in add_host_object (OBytes vnew).

Definition bytes_new : M Host Object := new_bytes (m_lift (to_scbytes [])).
Definition bytes_put (b : Object) (i u : Z) : M Host Object :=
  let* u := m_lift (u8_from_u32val_input u) in
  new_bytes (visit_bytes b (λ hv,
    let* vnew := metered_clone hv in
    if decide (Z.to_nat i < length vnew)%nat then m_lift (to_scbytes (<[Z.to_nat i := u]> vnew)) else m_fail OBJECT_OOB)).
Definition bytes_get (b : Object) (i : Z) : M Host Val :=
  visit_bytes b (λ hv, m_lift ((λ u, VSmall (u32_val (u32_of_byte u))) <$> ok_or (hv !! Z.to_nat i) OBJECT_OOB)).
Definition bytes_del (b : Object) (i : Z) : M Host Object :=
  new_bytes (visit_bytes b (λ hv,
    m_lift (validate_index_lt_bound i (length hv)) ;;;
    let* vnew := metered_clone hv in
    let* n_elts := m_lift (if decide (i <= Z.of_nat (length hv)) then Ok (Z.of_nat (length hv) - i)
                           else Err (EHost TContext InternalError)) in
    charge_shallow_copy Byte.byte n_elts ;;;
    m_lift (to_scbytes (delete (Z.to_nat i) vnew)))).
Definition bytes_len (b : Object) : M Host Val :=
  let* len := visit_bytes b (λ hv, m_ret (length hv)) in usize_to_u32val len.
Definition string_len (b : Object) : M Host Val :=
  let* len := visit_obj extract_string b (λ hv, m_ret (length hv)) in usize_to_u32val len.
Definition symbol_len (b : Object) : M Host Val :=
  let* len := visit_obj extract_symbol b (λ hv, m_ret (length hv)) in usize_to_u32val len.
Definition bytes_push (b : Object) (u : Z) : M Host Object :=
  let* u := m_lift (u8_from_u32val_input u) in
  new_bytes (visit_bytes b (λ hv,
    let* len := m_lift (validate_usize_sum_fits_in_u32 (length hv) 1) in
    let* vnew := with_metered_capacity Byte.byte (Z.of_nat len) in
    m_lift (to_scbytes (vnew ++ hv ++ [u])))).
Definition bytes_pop (b : Object) : M Host Object :=
  new_bytes (visit_bytes b (λ hv,
    let* vnew := metered_clone hv in
    match vnew with [] => m_fail OBJECT_OOB | _ => m_lift (to_scbytes (removelast vnew)) end)).
Definition bytes_front (b : Object) : M Host Val :=
  visit_bytes b (λ hv, m_lift ((λ u, VSmall (u32_val (u32_of_byte u))) <$> ok_or (head hv) OBJECT_OOB)).
Definition bytes_back (b : Object) : M Host Val :=
  visit_bytes b (λ hv, m_lift ((λ u, VSmall (u32_val (u32_of_byte u))) <$> ok_or (last hv) OBJECT_OOB)).
Definition bytes_insert (b : Object) (i u : Z) : M Host Object :=
  let* u := m_lift (u8_from_u32val_input u) in
  new_bytes (visit_bytes b (λ hv,
    m_lift (validate_index_le_bound i (length hv)) ;;;
    let* len := m_lift (validate_usize_sum_fits_in_u32 (length hv) 1) in
    let* vnew := with_metered_capacity Byte.byte (Z.of_nat len) in
    let vnew := vnew ++ hv in
    m_lift (to_scbytes (take (Z.to_nat i) vnew ++ u :: drop (Z.to_nat i) vnew)))).
Definition bytes_append (b1 b2 : Object) : M Host Object :=
  let* vnew := visit_bytes b1 (λ sb1, visit_bytes b2 (λ sb2,
    let* len := m_lift (validate_usize_sum_fits_in_u32 (length sb1) (length sb2)) in
    let* vnew := with_metered_capacity Byte.byte (Z.of_nat len) in
    m_ret (vnew ++ sb1 ++ sb2))) in
  new_bytes (m_lift (to_scbytes vnew)).
Definition bytes_slice (b : Object) (start stop : Z) : M Host Object :=
  let* vnew := visit_bytes b (λ hv,
    let* range := m_lift (valid_range_from_start_end_bound start stop (length hv)) in
    let* s := m_lift (ok_or (slice_get hv range.1 range.2) OBJECT_OOB) in
    charge_bulk_init_cpy (list Byte.byte) Byte.byte (Z.of_nat (length s)) ;;;
    m_ret s) in
  new_bytes (m_lift (to_scbytes vnew)).
End host.
