(* ===== verification/Convert.v ===== *)
(** Host values and the values of the ledger: the conversions of P/host/conversion.rs
    between references to host objects and [ScVal]s, and P/host_object.rs on symbols.

    What a value that is not an object reference stands for, which [ScVal]s are objects, and
    the pieces of wide integers are decided outside of the repository ([SmallScVals],
    [Pieces]). *)
From S2P Require Import Prelude ScVal Budget BudgetThms Metering Search OrdMap Vector Objects.
#[local] Open Scope m_scope.

(** * The values of the ledger *)

(** All of [xdr::ScVal]; what is only passed along is an [N]. *)
Module Xdr.
Inductive ScVal :=
| Bool (b : bool) | Void | Error (e : N) | U32 (n : Z) | I32 (n : Z) | U64 (n : Z) | I64 (n : Z)
| Timepoint (n : Z) | Duration (n : Z) | U128 (hi lo : Z) | I128 (hi lo : Z)
| U256 (hi_hi hi_lo lo_hi lo_lo : Z) | I256 (hi_hi hi_lo lo_hi lo_lo : Z)
| Bytes (b : bytes) | String (b : bytes) | Symbol (b : bytes)
| Vec (v : option (list ScVal)) | Map (m : option (list (ScVal * ScVal)))
| Address (a : ScAddress) | ContractInstance (i : N) | LedgerKeyContractInstance | LedgerKeyNonce (n : N).
End Xdr.

(** [ScValObjRef::classify] and the conversions of small values: a small value, an object,
    or neither. *)
Inductive Classified (Small : Type) := ClassSmall (s : Small) | ClassObject | ClassNone.
Arguments ClassSmall {Small}. Arguments ClassObject {Small}. Arguments ClassNone {Small}.

Class SmallScVals (Small : Type) := {
  small_scval : Small → Xdr.ScVal;
  classify : Xdr.ScVal → Classified Small;
  can_represent_scval : Xdr.ScVal → bool
}.

(** The pieces of 128 and 256 bit integers. *)
Class Pieces := {
  u128_hi : Z → Z; u128_lo : Z → Z; u128_from_pieces : Z → Z → Z;
  i128_hi : Z → Z; i128_lo : Z → Z; i128_from_pieces : Z → Z → Z;
  u256_into_pieces : Z → Z * Z * Z * Z; u256_from_pieces : Z → Z → Z → Z → Z;
  i256_into_pieces : Z → Z * Z * Z * Z; i256_from_pieces : Z → Z → Z → Z → Z
}.

(** * Depth *)

(** The trait [DepthLimiter]. *)
Class DepthLimiter (S : Type) := { enter_level : M S unit; leave_level : M S unit }.
#[export] Instance BudgetImpl_depth : DepthLimiter BudgetImpl := {| enter_level := enter; leave_level := leave |}.

Definition limited_depth {S} `{DepthLimiter S} {A} (f : M S A) : M S A :=
  enter_level ;;;
  λ s, let '(res, s1) := f s in m_bind leave_level (λ _, m_lift res) s1.

(** * Conversions *)

Definition SCSYMBOL_LIMIT : nat := 32.
Definition NO_FUEL : Error := EPanic "out of fuel".
Definition CONVERSION : Error := EHost TValue UnexpectedType.

Section convert.
Context {Small B : Type} `{SmallVals Small, SmallScVals Small, Pieces} `{AsBudget B, DepthLimiter B}.
#[local] Abbreviation Val := (Val Small) (only parsing).
#[local] Abbreviation HostObject := (HostObject Small) (only parsing).
#[local] Abbreviation Host := (ObjHost Small B) (only parsing).
(** The error of a value too long for XDR, the characters of symbols, the comparison of
    values. *)
Context (xdr_error : Error) (validate_byte : Byte.byte → bool) (compare : Val → Val → M Host comparison).

#[export] Instance ObjHost_depth : DepthLimiter Host := {|
  enter_level := m_zoom budget put_budget enter_level;
  leave_level := m_zoom budget put_budget leave_level
|}.
#[export] Instance Xdr_ScVal_size : DeclaredSizeForMetering Xdr.ScVal := 64.
#[export] Instance Xdr_ScMapEntry_size : DeclaredSizeForMetering (Xdr.ScVal * Xdr.ScVal) | 0 := 128.

(** Numbers are copied at the width the source names. *)
Definition copy_sized (size n : Z) : M Host unit := @charge_shallow_copy Host _ Z size n.
Definition iter (m : list (Val * Val)) : M Host (list (Val * Val)) := charge_scan m ;;; m_ret m.
Definition to_vecm {A} (l : list A) : Result (list A) := if decide (Z.of_nat (length l) <= u32_max) then Ok l else Err xdr_error.

Fixpoint m_map {A C} (f : A → M Host C) (l : list A) : M Host (list C) :=
  match l with
  | [] => m_ret []
  | x :: l => let* y := f x in let* ys := m_map f l in m_ret (y :: ys)
  end.

(** ** To the ledger *)
Section from_host.
Context (from_host_val : Val → M Host Xdr.ScVal).

Definition host_map_to_scmap (mm : list (Val * Val)) : M Host (list (Xdr.ScVal * Xdr.ScVal)) :=
  charge_bulk_init_cpy (list (Xdr.ScVal * Xdr.ScVal)) (Xdr.ScVal * Xdr.ScVal) (Z.of_nat (length mm)) ;;;
  let* entries := iter mm in
  let* mv := m_map (λ kv,
    let* key := from_host_val kv.1 in
    let* val := from_host_val kv.2 in
    m_ret (key, val)) entries in
  m_lift (to_vecm mv).

Definition from_host_obj (ob : Object) : M Host Xdr.ScVal :=
  visit_obj_untyped ob (λ ho,
    match ho with
    | OVec vv =>
        charge_bulk_init_cpy (list Xdr.ScVal) Xdr.ScVal (Z.of_nat (length vv)) ;;;
        let* sv := m_map from_host_val vv in
        let* sv := m_lift (to_vecm sv) in
        m_ret (Xdr.Vec (Some sv))
    | OMap mm => let* sm := host_map_to_scmap mm in m_ret (Xdr.Map (Some sm))
    | OU64 u => copy_sized 8 1 ;;; m_ret (Xdr.U64 u)
    | OI64 i => copy_sized 8 1 ;;; m_ret (Xdr.I64 i)
    | OTimePoint tp => copy_sized 8 1 ;;; m_ret (Xdr.Timepoint tp)
    | ODuration d => copy_sized 8 1 ;;; m_ret (Xdr.Duration d)
    | OU128 u => copy_sized 16 1 ;;; m_ret (Xdr.U128 (u128_hi u) (u128_lo u))
    | OI128 i => copy_sized 16 1 ;;; m_ret (Xdr.I128 (i128_hi i) (i128_lo i))
    | OU256 u =>
        copy_sized 16 2 ;;;
        let '(hi_hi, hi_lo, lo_hi, lo_lo) := u256_into_pieces u in m_ret (Xdr.U256 hi_hi hi_lo lo_hi lo_lo)
    | OI256 i =>
        copy_sized 16 2 ;;;
        let '(hi_hi, hi_lo, lo_hi, lo_lo) := i256_into_pieces i in m_ret (Xdr.I256 hi_hi hi_lo lo_hi lo_lo)
    | OBytes b => let* b := metered_clone b in m_ret (Xdr.Bytes b)
    | OString s => let* s := metered_clone s in m_ret (Xdr.String s)
    | OSymbol s => let* s := metered_clone s in m_ret (Xdr.Symbol s)
    | OAddress addr => let* addr := metered_clone addr in m_ret (Xdr.Address addr)
    end).
End from_host.

(** [ScVal::try_from_val] with the object conversion of the host. *)
Fixpoint from_host_val (fuel : nat) (val : Val) : M Host Xdr.ScVal :=
  match fuel with
  | O => m_fail NO_FUEL
  | S fuel =>
      let* scval := limited_depth (match val with
        | VObject ob => from_host_obj (from_host_val fuel) ob
        | VSmall s => m_ret (small_scval s)
        end) in
      if can_represent_scval scval then m_ret scval else m_fail (EHost TValue InternalError)
  end.

(** ** From the ledger *)

Definition symbol_try_from_bytes (b : bytes) : Result bytes :=
  if decide (SCSYMBOL_LIMIT < length b)%nat then Err (EHost TValue InvalidInput)
  else if forallb validate_byte b then Ok b else Err (EHost TValue InvalidInput).

Definition add_val (hot : HostObject) : M Host Val := let* o := add_host_object hot in m_ret (VObject o).

Definition to_host_obj (to_host_val : Xdr.ScVal → M Host Val) (val : Xdr.ScVal) : M Host Val :=
  match val with
  | Xdr.Vec (Some v) =>
      charge_bulk_init_cpy (list Val) Val (Z.of_nat (length v)) ;;;
      let* vv := m_map to_host_val v in
      let* vv := MeteredVector.from_vec vv in
      add_val (OVec vv)
  | Xdr.Map (Some m) =>
      charge_bulk_init_cpy (list (Val * Val)) (Val * Val) (Z.of_nat (length m)) ;;;
      let* mm := m_map (λ pair,
        let* k := to_host_val pair.1 in
        let* v := to_host_val pair.2 in
        m_ret (k, v)) m in
      let* mm := from_map compare mm in
      add_val (OMap mm)
  | Xdr.Vec None | Xdr.Map None => m_fail (EHost TValue InvalidInput)
  | Xdr.U64 u => copy_sized 8 1 ;;; add_val (OU64 u)
  | Xdr.I64 i => copy_sized 8 1 ;;; add_val (OI64 i)
  | Xdr.Timepoint t => copy_sized 8 1 ;;; add_val (OTimePoint t)
  | Xdr.Duration d => copy_sized 8 1 ;;; add_val (ODuration d)
  | Xdr.U128 hi lo => copy_sized 16 1 ;;; add_val (OU128 (u128_from_pieces hi lo))
  | Xdr.I128 hi lo => copy_sized 16 1 ;;; add_val (OI128 (i128_from_pieces hi lo))
  | Xdr.U256 hi_hi hi_lo lo_hi lo_lo => copy_sized 16 2 ;;; add_val (OU256 (u256_from_pieces hi_hi hi_lo lo_hi lo_lo))
  | Xdr.I256 hi_hi hi_lo lo_hi lo_lo => copy_sized 16 2 ;;; add_val (OI256 (i256_from_pieces hi_hi hi_lo lo_hi lo_lo))
  | Xdr.Bytes b => let* b := metered_clone b in add_val (OBytes b)
  | Xdr.String s => let* s := metered_clone s in add_val (OString s)
  | Xdr.Symbol s =>
      let* s := metered_clone s in
      let* s := m_lift (symbol_try_from_bytes s) in
      add_val (OSymbol s)
  | Xdr.Address addr => let* addr := metered_clone addr in add_val (OAddress addr)
  | Xdr.Bool _ | Xdr.Void | Xdr.Error _ | Xdr.U32 _ | Xdr.I32 _ | Xdr.LedgerKeyNonce _ | Xdr.ContractInstance _
  | Xdr.LedgerKeyContractInstance => m_fail (EHost TValue InternalError)
  end.

(** [Val::try_from_val] with the object conversion of the host. *)
Fixpoint to_host_val (v : Xdr.ScVal) : M Host Val :=
  limited_depth (match classify v with
    | ClassSmall s => m_ret (VSmall s)
    | ClassObject => to_host_obj to_host_val v
    | ClassNone => m_fail CONVERSION
    end).

(** For values read from the ledger. *)
Definition to_valid_host_val (v : Xdr.ScVal) : M Host Val :=
  m_map_err (λ e, match e with EHost TBudget _ => e | _ => EHost TValue InternalError end) (to_host_val v).
End convert.
