(* ===== verification/LinMem.v ===== *)
(** Host functions on the linear memory of a contract's code: P/host/mem_helper.rs and the
    functions of P/host.rs on it.  The memory itself is wasmi's ([WasmiMemory]), the layout
    of a value as a 64-bit word that of soroban-env-common ([Payload]). *)
From S2P Require Import Prelude ScVal Budget BudgetThms Metering Search OrdMap Vector Objects Convert.
#[local] Open Scope m_scope.

#[export] Instance byte_eq_dec : EqDecision Byte.byte := Byte.byte_eq_dec.

(** [Memory::read] and [write] of wasmi, on its bytes. *)
Class WasmiMemory := {
  mem_read : bytes → nat → nat → Result bytes;
  mem_write : bytes → nat → bytes → Result bytes
}.
(** [Val::from_payload] and [get_payload]. *)
Class Payload (Small : Type) := {
  from_payload : Z → Val Small;
  get_payload : Val Small → Z
}.
(** The characters of a small symbol. *)
Class SmallSymbols (Small : Type) := small_symbol : Small → option bytes.

(** Words and numbers, least significant byte first. *)
Definition byte_of (n : Z) : Byte.byte := match Byte.of_N (Z.to_N (n mod 256)) with Some b => b | None => Byte.x00 end.
Fixpoint to_le_bytes (k : nat) (n : Z) : bytes :=
  match k with O => [] | S k => byte_of n :: to_le_bytes k (n / 256) end.
Fixpoint from_le_bytes (l : bytes) : Z :=
  match l with [] => 0 | b :: l => u32_of_byte b + 256 * from_le_bytes l end.

Definition u32_checked_mul (a b : Z) : option Z := if decide (a * b <= u32_max) then Some (a * b) else None.
Definition OOB_MEMORY : Error := EHost TWasmVm IndexBounds.
Definition NO_MEMORY : Error := EHost TWasmVm MissingValue.
Definition NO_VM : Error := EHost TWasmVm InternalError.
Definition VAL_SZ : nat := 8.

Section memory.
Context {Small B : Type} `{SmallVals Small, SmallScVals Small, Pieces} `{AsBudget B, DepthLimiter B}.
Context `{WasmiMemory, Payload Small, SmallSymbols Small}.
#[local] Abbreviation Val := (Val Small) (only parsing).
#[local] Abbreviation HostObject := (HostObject Small) (only parsing).
#[local] Abbreviation Host := (ObjHost Small B) (only parsing).
Context (xdr_error : Error) (validate_byte : Byte.byte → bool) (compare : Val → Val → M Host comparison).
(** [check_val_integrity] of soroban-env-common. *)
Context (check_env_arg : Val → M Host unit).

(** The current frame has a virtual machine; the virtual machine has a memory. *)
Definition get_mem_fn_args : M Host unit := λ h,
  match frames h with Some _ :: _ => (Ok tt, h) | _ => (Err NO_VM, h) end.
Definition get_memory : M Host bytes := λ h,
  match frames h with
  | Some fr :: _ => match memory fr with Some m => (Ok m, h) | None => (Err NO_MEMORY, h) end
  | _ => (Err NO_VM, h)
  end.
Definition put_memory (m : bytes) : M Host unit :=
  m_modify (λ h, match frames h with
    | Some fr :: rest => mkObjHost (objects h) (Some (mkVmFrame (relative_objects fr) (Some m)) :: rest) (budget h)
    | _ => h
    end).

Definition metered_vm_write_bytes_to_linear_memory (mem_pos : Z) (buf : bytes) : M Host unit :=
  charge MemCpy (Some (Z.of_nat (length buf))) ;;;
  let* mem := get_memory in
  let* mem := m_lift (mem_write mem (Z.to_nat mem_pos) buf) in
  put_memory mem.
Definition metered_vm_read_bytes_from_linear_memory (mem_pos : Z) (len : nat) : M Host bytes :=
  charge MemCpy (Some (Z.of_nat len)) ;;;
  let* mem := get_memory in
  m_lift (mem_read mem (Z.to_nat mem_pos) len).

(** The range of [len] words from [mem_pos] on, as its end and its length in bytes. *)
Definition word_range (mem_pos : Z) (len : nat) : Result (Z * Z) :=
  len ← usize_to_u32 len;
  byte_len ← ok_or (u32_checked_mul len (Z.of_nat VAL_SZ)) ARITH_OVERFLOW;
  mem_end ← ok_or (u32_checked_add mem_pos byte_len) ARITH_OVERFLOW;
  Ok (mem_end, byte_len).

(** A part of the memory written over. *)
Definition splice (mem : bytes) (pos : nat) (b : bytes) : bytes := take pos mem ++ b ++ drop (pos + length b) mem.

Fixpoint write_words {A} (to_word : A → M Host Z) (pos : nat) (buf : list A) : M Host unit :=
  match buf with
  | [] => m_ret tt
  | src :: buf =>
      let* tmp := to_word src in
      let* mem := get_memory in
      put_memory (splice mem pos (to_le_bytes VAL_SZ tmp)) ;;;
      write_words to_word (pos + VAL_SZ) buf
  end.
Definition metered_vm_write_vals_to_linear_memory {A} (mem_pos : Z) (buf : list A) (to_word : A → M Host Z) : M Host unit :=
  let* range := m_lift (word_range mem_pos (length buf)) in
  let* mem := get_memory in
  if decide (range.1 <= Z.of_nat (length mem)) then
    charge MemCpy (Some range.2) ;;;
    write_words to_word (Z.to_nat mem_pos) buf
  else m_fail OOB_MEMORY.

Fixpoint read_words {A} (from_word : Z → M Host A) (n : nat) (mem : bytes) : M Host (list A) :=
  match n with
  | O => m_ret []
  | S n =>
      let* x := from_word (from_le_bytes (take VAL_SZ mem)) in
      let* xs := read_words from_word n (drop VAL_SZ mem) in
      m_ret (x :: xs)
  end.
Definition metered_vm_read_vals_from_linear_memory {A} (mem_pos : Z) (len : nat) (from_word : Z → M Host A) : M Host (list A) :=
  let* range := m_lift (word_range mem_pos len) in
  let* mem := get_memory in
  if decide (range.1 <= Z.of_nat (length mem)) then
    charge MemCpy (Some range.2) ;;;
    read_words from_word len (drop (Z.to_nat mem_pos) mem)
  else m_fail OOB_MEMORY.

(** Slices in memory, a position and a length each, and what they point to.  The state
    that the callback of the source captures is threaded through. *)
Fixpoint scan_slices {A} (callback : nat → bytes → A → M Host A) (mem_data : bytes) (mem_pos : Z) (i n : nat) (acc : A) : M Host A :=
  match n with
  | O => m_ret acc
  | S n =>
      let* next_pos := m_lift (ok_or (u32_checked_add mem_pos 8) ARITH_OVERFLOW) in
      let* s := m_lift (ok_or (slice_get mem_data (Z.to_nat mem_pos) (Z.to_nat next_pos)) OOB_MEMORY) in
      let slice_ptr := from_le_bytes (take 4 s) in
      let slice_len := from_le_bytes (drop 4 s) in
      let* slice_end := m_lift (ok_or (u32_checked_add slice_ptr slice_len) ARITH_OVERFLOW) in
      let* slice := m_lift (ok_or (slice_get mem_data (Z.to_nat slice_ptr) (Z.to_nat slice_end)) OOB_MEMORY) in
      let* acc := callback i slice acc in
      scan_slices callback mem_data next_pos (S i) n acc
  end.
Definition metered_vm_scan_slices_in_linear_memory {A} (mem_pos : Z) (num_slices : nat)
    (callback : nat → bytes → A → M Host A) (acc : A) : M Host A :=
  let* mem_data := get_memory in
  charge MemCpy (Some (u64_saturating_mul (Z.of_nat num_slices) 8)) ;;;
  scan_slices callback mem_data mem_pos 0 num_slices acc.

(** ** Objects that are slabs of memory: bytes, strings and symbols *)

Record MemHostObjectType := mkMemType {
  try_extract : HostObject → option bytes;
  try_from_bytes : bytes → Result bytes;
  inject : bytes → HostObject
}.
Definition ScBytes_mem : MemHostObjectType := mkMemType extract_bytes (to_scbytes xdr_error) OBytes.
Definition ScString_mem : MemHostObjectType := mkMemType extract_string (to_scbytes xdr_error) OString.
Definition ScSymbol_mem : MemHostObjectType := mkMemType extract_symbol (symbol_try_from_bytes validate_byte) OSymbol.

Definition memobj_visit_and_copy_bytes_out {A} (HOT : MemHostObjectType) (obj : Object) (obj_pos len : Z)
    (copy_bytes_out : bytes → M Host A) : M Host A :=
  visit_obj (try_extract HOT) obj (λ hob,
    let* obj_end := m_lift (ok_or (u32_checked_add obj_pos len) ARITH_OVERFLOW) in
    let* obj_buf := m_lift (ok_or (slice_get hob (Z.to_nat obj_pos) (Z.to_nat obj_end)) OBJECT_OOB) in
    copy_bytes_out obj_buf).
Definition memobj_copy_to_linear_memory (HOT : MemHostObjectType) (obj : Object) (obj_pos lm_pos len : Z) : M Host unit :=
  get_mem_fn_args ;;;
  memobj_visit_and_copy_bytes_out HOT obj obj_pos len (metered_vm_write_bytes_to_linear_memory lm_pos).

Definition memobj_clone_resize_and_copy_bytes_in (HOT : MemHostObjectType) (obj : Object) (obj_pos len : Z)
    (copy_bytes_in : nat → M Host bytes) : M Host Object :=
  let* obj_new := visit_obj (try_extract HOT) obj metered_clone in
  let* obj_end := m_lift (ok_or (u32_checked_add obj_pos len) ARITH_OVERFLOW) in
  let* obj_new :=
    (if decide (length obj_new < Z.to_nat obj_end)%nat then
       charge MemAlloc (Some (obj_end - Z.of_nat (length obj_new))) ;;;
       m_ret (obj_new ++ replicate (Z.to_nat obj_end - length obj_new) Byte.x00)
     else m_ret obj_new) in
  let* obj_buf := m_lift (ok_or (slice_get obj_new (Z.to_nat obj_pos) (Z.to_nat obj_end)) OBJECT_OOB) in
  let* buf := copy_bytes_in (length obj_buf) in
  let* hot := m_lift (try_from_bytes HOT (splice obj_new (Z.to_nat obj_pos) buf)) in
  add_host_object (inject HOT hot).
Definition memobj_copy_from_linear_memory (HOT : MemHostObjectType) (obj : Object) (obj_pos lm_pos len : Z) : M Host Object :=
  get_mem_fn_args ;;;
  memobj_clone_resize_and_copy_bytes_in HOT obj obj_pos len (metered_vm_read_bytes_from_linear_memory lm_pos).

Definition memobj_new_from_linear_memory (HOT : MemHostObjectType) (lm_pos len : Z) : M Host Object :=
  get_mem_fn_args ;;;
  charge MemAlloc (Some len) ;;;
  let* vnew := metered_vm_read_bytes_from_linear_memory lm_pos (Z.to_nat len) in
  let* hot := m_lift (try_from_bytes HOT vnew) in
  add_host_object (inject HOT hot).

(** ** Symbols *)

(** [Symbol::try_from]: a small symbol or a reference to one. *)
Definition symbol_try_from (v : Val) : Result Val :=
  match v with
  | VObject o => if decide (get_tag o = SymbolObject) then Ok v else Err CONVERSION
  | VSmall s => match small_symbol s with Some _ => Ok v | None => Err CONVERSION end
  end.
Definition compare_equal (a b : bytes) : M Host bool :=
  charge MemCmp (Some (Z.of_nat (min (length a) (length b)))) ;;; m_ret (bool_decide (a = b)).
Definition symbol_matches (s : bytes) (sym : Val) : M Host bool :=
  match sym with
  | VSmall ss => match small_symbol ss with Some str => compare_equal str s | None => m_fail CONVERSION end
  | VObject sobj =>
      if decide (get_tag sobj = SymbolObject)
      then visit_obj extract_symbol sobj (λ scsym, compare_equal scsym s) else m_fail CONVERSION
  end.
Definition check_symbol_matches (s : bytes) (sym : Val) : M Host unit :=
  let* b := symbol_matches s sym in
  if b : bool then m_ret tt else m_fail (EHost TValue InvalidInput).

(** ** The host functions *)

Definition charge_words (len : Z) : M Host unit := charge MemCpy (Some (u64_saturating_mul len (Z.of_nat VAL_SZ))).
Definition read_val (word : Z) : M Host Val := relative_to_absolute (from_payload word).
Definition write_val (v : Val) : M Host Z := let* v := absolute_to_relative v in m_ret (get_payload v).
(** Values from memory, made absolute and checked. *)
Definition read_vals (vals_pos len : Z) : M Host (list Val) :=
  charge_bulk_init_cpy (list Val) Val len ;;;
  charge_words len ;;;
  let* vals := metered_vm_read_vals_from_linear_memory vals_pos (Z.to_nat len) read_val in
  m_each check_env_arg vals ;;;
  m_ret vals.

Definition vec_new_from_linear_memory (vals_pos len : Z) : M Host Object :=
  get_mem_fn_args ;;;
  let* vals := read_vals vals_pos len in
  let* vec := MeteredVector.from_vec vals in
  add_host_object (OVec vec).
Definition vec_unpack_to_linear_memory (vec : Object) (vals_pos len : Z) : M Host unit :=
  get_mem_fn_args ;;;
  visit_vec vec (λ vecobj,
    if decide (length vecobj = Z.to_nat len) then
      charge_words len ;;;
      metered_vm_write_vals_to_linear_memory vals_pos vecobj write_val
    else m_fail (EHost TObject UnexpectedSize)).

(** The symbol of a slice, through a value of the ledger. *)
Definition symbol_from_slice (slice : bytes) : M Host Val :=
  charge MemCpy (Some (Z.of_nat (length slice))) ;;;
  let* scsym := m_lift (if decide (length slice <= SCSYMBOL_LIMIT)%nat then Ok slice else Err xdr_error) in
  let* v := to_valid_host_val validate_byte compare (Xdr.Symbol scsym) in
  m_lift (symbol_try_from v).

Definition map_new_from_linear_memory (keys_pos vals_pos len : Z) : M Host Object :=
  get_mem_fn_args ;;;
  charge_bulk_init_cpy (list Val) Val len ;;;
  let* key_syms := metered_vm_scan_slices_in_linear_memory keys_pos (Z.to_nat len) (λ _ slice key_syms,
    let* sym := symbol_from_slice slice in
    m_ret (key_syms ++ [sym])) [] in
  let* vals := read_vals vals_pos len in
  let* map := OrdMap.from_exact_iter compare (zip key_syms vals) in
  add_host_object (OMap map).

Definition map_unpack_to_linear_memory (map : Object) (keys_pos vals_pos len : Z) : M Host unit :=
  get_mem_fn_args ;;;
  visit_map map (λ mapobj,
    if decide (length mapobj = Z.to_nat len) then
      metered_vm_scan_slices_in_linear_memory keys_pos (Z.to_nat len) (λ n slice _,
        let* entry := m_map_err (λ he, match he with EHost TBudget _ => he | _ => OBJECT_OOB end)
                        (get_at_index mapobj n) in
        let* sym := m_lift (symbol_try_from entry.1) in
        check_symbol_matches slice sym) tt ;;;
      charge_words len ;;;
      metered_vm_write_vals_to_linear_memory vals_pos mapobj (λ pair, write_val pair.2)
    else m_fail (EHost TObject UnexpectedSize)).

Definition string_copy_to_linear_memory := memobj_copy_to_linear_memory ScString_mem.
Definition symbol_copy_to_linear_memory := memobj_copy_to_linear_memory ScSymbol_mem.
Definition bytes_copy_to_linear_memory := memobj_copy_to_linear_memory ScBytes_mem.
Definition bytes_copy_from_linear_memory := memobj_copy_from_linear_memory ScBytes_mem.
Definition bytes_new_from_linear_memory := memobj_new_from_linear_memory ScBytes_mem.
Definition string_new_from_linear_memory := memobj_new_from_linear_memory ScString_mem.
Definition symbol_new_from_linear_memory := memobj_new_from_linear_memory ScSymbol_mem.

Definition symbol_index_in_linear_memory (sym : Val) (lm_pos len : Z) : M Host Val :=
  get_mem_fn_args ;;;
  let* found := metered_vm_scan_slices_in_linear_memory lm_pos (Z.to_nat len) (λ i slice found,
    let* matches := symbol_matches slice sym in
    if matches : bool then
      match found with
      | None => let* i := m_lift (usize_to_u32 i) in m_ret (Some i)
      | Some _ => m_ret found
      end
    else m_ret found) None in
  match found with
  | None => m_fail (EHost TValue MissingValue)
  | Some idx => m_ret (VSmall (u32_val idx))
  end.
End memory.
