(* ===== verification/Dispatch.v ===== *)
(** Calls of host functions from a contract's code, P/vm/dispatch.rs: arguments from
    relative references to absolute ones, the function, and its result back; and the
    frames such calls are made in.  Fuel and tracing are left out. *)
From S2P Require Import Prelude ScVal Budget BudgetThms Metering Search OrdMap Vector Objects Convert LinMem.
#[local] Open Scope m_scope.

(** The functions on objects that a contract can import. *)
Inductive HostFn :=
| VecNew | VecPut | VecGet | VecDel | VecLen | VecPushFront | VecPopFront | VecPushBack | VecPopBack
| VecFront | VecBack | VecInsert | VecAppend | VecSlice | VecFirstIndexOf | VecLastIndexOf
| MapNew | MapPut | MapGet | MapDel | MapLen | MapHas | MapKeyByPos | MapValByPos | MapKeys | MapValues
| BytesNew | BytesPut | BytesGet | BytesDel | BytesLen | StringLen | SymbolLen | BytesPush | BytesPop
| BytesFront | BytesBack | BytesInsert | BytesAppend | BytesSlice.

(** The types of their parameters. *)
Inductive Param := PObj (t : Tag) | PVal | PU32.

Definition signature (f : HostFn) : list Param :=
  let v := PObj VecObject in let m := PObj MapObject in let b := PObj BytesObject in
  match f with
  | VecNew | MapNew | BytesNew => []
  | VecPut | VecInsert => [v; PU32; PVal]
  | VecGet | VecDel => [v; PU32]
  | VecLen | VecPopFront | VecPopBack | VecFront | VecBack => [v]
  | VecPushFront | VecPushBack | VecFirstIndexOf | VecLastIndexOf => [v; PVal]
  | VecAppend => [v; v]
  | VecSlice => [v; PU32; PU32]
  | MapPut => [m; PVal; PVal]
  | MapGet | MapDel | MapHas => [m; PVal]
  | MapLen | MapKeys | MapValues => [m]
  | MapKeyByPos | MapValByPos => [m; PU32]
  | BytesPut | BytesInsert => [b; PU32; PU32]
  | BytesGet | BytesDel | BytesPush => [b; PU32]
  | BytesLen | BytesPop | BytesFront | BytesBack => [b]
  | BytesAppend => [b; b]
  | BytesSlice => [b; PU32; PU32]
  | StringLen => [PObj StringObject]
  | SymbolLen => [PObj SymbolObject]
  end.

(** Those on linear memory. *)
Inductive MemFn :=
| VecNewFromLinearMemory | VecUnpackToLinearMemory | MapNewFromLinearMemory | MapUnpackToLinearMemory
| StringCopyToLinearMemory | SymbolCopyToLinearMemory | BytesCopyToLinearMemory | BytesCopyFromLinearMemory
| BytesNewFromLinearMemory | StringNewFromLinearMemory | SymbolNewFromLinearMemory | SymbolIndexInLinearMemory.

Definition mem_signature (f : MemFn) : list Param :=
  match f with
  | VecNewFromLinearMemory | BytesNewFromLinearMemory | StringNewFromLinearMemory | SymbolNewFromLinearMemory => [PU32; PU32]
  | VecUnpackToLinearMemory => [PObj VecObject; PU32; PU32]
  | MapNewFromLinearMemory => [PU32; PU32; PU32]
  | MapUnpackToLinearMemory => [PObj MapObject; PU32; PU32; PU32]
  | StringCopyToLinearMemory => [PObj StringObject; PU32; PU32; PU32]
  | SymbolCopyToLinearMemory => [PObj SymbolObject; PU32; PU32; PU32]
  | BytesCopyToLinearMemory | BytesCopyFromLinearMemory => [PObj BytesObject; PU32; PU32; PU32]
  | SymbolIndexInLinearMemory => [PVal; PU32; PU32]
  end.

Definition MISMATCH : Error := EHost TValue InvalidInput.

Section dispatch.
Context {Small B : Type} `{SmallVals Small, SmallScVals Small, Pieces} `{AsBudget B, DepthLimiter B}.
Context `{WasmiMemory, Payload Small, SmallSymbols Small}.
#[local] Abbreviation Val := (Val Small) (only parsing).
#[local] Abbreviation Host := (ObjHost Small B) (only parsing).
Context (xdr_error : Error) (validate_byte : Byte.byte → bool) (compare : Val → Val → M Host comparison).
(** The check of a value that crosses, of soroban-env-common, which calls back
    [check_obj_integrity]. *)
Context (check_env_arg : Val → M Host unit).

(** A raw value of the code as a parameter of its type. *)
Definition try_marshal_from_value (p : Param) (v : Val) : Result Val :=
  match p, v with
  | PObj t, VObject o => if decide (get_tag o = t) then Ok v else Err MISMATCH
  | PU32, VSmall s => match as_u32 s with Some _ => Ok v | None => Err MISMATCH end
  | PVal, _ => Ok v
  | _, _ => Err MISMATCH
  end.

(** Each argument in turn: marshalled, made absolute, checked. *)
Definition marshal_arg (p : Param) (arg : Val) : M Host Val :=
  let* v := m_lift (try_marshal_from_value p arg) in
  let* v := relative_to_absolute v in
  check_env_arg v ;;;
  m_ret v.
Fixpoint marshal_args (ps : list Param) (args : list Val) : M Host (list Val) :=
  match ps, args with
  | [], [] => m_ret []
  | p :: ps, arg :: args =>
      let* v := marshal_arg p arg in
      let* vs := marshal_args ps args in
      m_ret (v :: vs)
  | _, _ => m_fail MISMATCH
  end.

Definition obj (p : M Host Object) : M Host Val := let* o := p in m_ret (VObject o).
Definition with_u32 {A} (s : Small) (f : Z → M Host A) : M Host A :=
  match as_u32 s with Some n => f n | None => m_fail MISMATCH end.

Definition exec (f : HostFn) (args : list Val) : M Host Val :=
  match f, args with
  | VecNew, [] => obj vec_new
  | VecPut, [VObject v; VSmall i; x] => with_u32 i (λ i, obj (vec_put v i x))
  | VecGet, [VObject v; VSmall i] => with_u32 i (λ i, vec_get v i)
  | VecDel, [VObject v; VSmall i] => with_u32 i (λ i, obj (vec_del v i))
  | VecLen, [VObject v] => vec_len v
  | VecPushFront, [VObject v; x] => obj (vec_push_front v x)
  | VecPopFront, [VObject v] => obj (vec_pop_front v)
  | VecPushBack, [VObject v; x] => obj (vec_push_back v x)
  | VecPopBack, [VObject v] => obj (vec_pop_back v)
  | VecFront, [VObject v] => vec_front v
  | VecBack, [VObject v] => vec_back v
  | VecInsert, [VObject v; VSmall i; x] => with_u32 i (λ i, obj (vec_insert v i x))
  | VecAppend, [VObject v1; VObject v2] => obj (vec_append v1 v2)
  | VecSlice, [VObject v; VSmall i; VSmall j] => with_u32 i (λ i, with_u32 j (λ j, obj (vec_slice v i j)))
  | VecFirstIndexOf, [VObject v; x] => vec_first_index_of compare v x
  | VecLastIndexOf, [VObject v; x] => vec_last_index_of compare v x
  | MapNew, [] => obj map_new
  | MapPut, [VObject m; k; v] => obj (map_put compare m k v)
  | MapGet, [VObject m; k] => map_get compare m k
  | MapDel, [VObject m; k] => obj (map_del compare m k)
  | MapLen, [VObject m] => map_len m
  | MapHas, [VObject m; k] => map_has compare m k
  | MapKeyByPos, [VObject m; VSmall i] => with_u32 i (λ i, map_key_by_pos m i)
  | MapValByPos, [VObject m; VSmall i] => with_u32 i (λ i, map_val_by_pos m i)
  | MapKeys, [VObject m] => obj (map_keys m)
  | MapValues, [VObject m] => obj (map_values m)
  | BytesNew, [] => obj (bytes_new xdr_error)
  | BytesPut, [VObject b; VSmall i; VSmall u] => with_u32 i (λ i, with_u32 u (λ u, obj (bytes_put xdr_error b i u)))
  | BytesGet, [VObject b; VSmall i] => with_u32 i (λ i, bytes_get b i)
  | BytesDel, [VObject b; VSmall i] => with_u32 i (λ i, obj (bytes_del xdr_error b i))
  | BytesLen, [VObject b] => bytes_len b
  | StringLen, [VObject b] => string_len b
  | SymbolLen, [VObject b] => symbol_len b
  | BytesPush, [VObject b; VSmall u] => with_u32 u (λ u, obj (bytes_push xdr_error b u))
  | BytesPop, [VObject b] => obj (bytes_pop xdr_error b)
  | BytesFront, [VObject b] => bytes_front b
  | BytesBack, [VObject b] => bytes_back b
  | BytesInsert, [VObject b; VSmall i; VSmall u] => with_u32 i (λ i, with_u32 u (λ u, obj (bytes_insert xdr_error b i u)))
  | BytesAppend, [VObject b1; VObject b2] => obj (bytes_append xdr_error b1 b2)
  | BytesSlice, [VObject b; VSmall i; VSmall j] => with_u32 i (λ i, with_u32 j (λ j, obj (bytes_slice xdr_error b i j)))
  | _, _ => m_fail MISMATCH
  end.

Definition no_val (p : M Host unit) : M Host Val := p ;;; m_ret (VSmall void).
Definition with_words {A} (args : list Val) (f : list Z → M Host A) : M Host A :=
  match mapM (λ v, match v with VSmall s => as_u32 s | VObject _ => None end) args with
  | Some ns => f ns
  | None => m_fail MISMATCH
  end.
Definition exec_mem (f : MemFn) (args : list Val) : M Host Val :=
  match f, args with
  | VecNewFromLinearMemory, words => with_words words (λ ns, match ns with
      | [vals_pos; len] => obj (vec_new_from_linear_memory check_env_arg vals_pos len) | _ => m_fail MISMATCH end)
  | MapNewFromLinearMemory, words => with_words words (λ ns, match ns with
      | [keys_pos; vals_pos; len] =>
          obj (map_new_from_linear_memory xdr_error validate_byte compare check_env_arg keys_pos vals_pos len)
      | _ => m_fail MISMATCH end)
  | BytesNewFromLinearMemory, words => with_words words (λ ns, match ns with
      | [pos; len] => obj (bytes_new_from_linear_memory xdr_error pos len) | _ => m_fail MISMATCH end)
  | StringNewFromLinearMemory, words => with_words words (λ ns, match ns with
      | [pos; len] => obj (string_new_from_linear_memory xdr_error pos len) | _ => m_fail MISMATCH end)
  | SymbolNewFromLinearMemory, words => with_words words (λ ns, match ns with
      | [pos; len] => obj (symbol_new_from_linear_memory validate_byte pos len) | _ => m_fail MISMATCH end)
  | VecUnpackToLinearMemory, VObject v :: words => with_words words (λ ns, match ns with
      | [vals_pos; len] => no_val (vec_unpack_to_linear_memory v vals_pos len) | _ => m_fail MISMATCH end)
  | MapUnpackToLinearMemory, VObject m :: words => with_words words (λ ns, match ns with
      | [keys_pos; vals_pos; len] => no_val (map_unpack_to_linear_memory m keys_pos vals_pos len) | _ => m_fail MISMATCH end)
  | StringCopyToLinearMemory, VObject s :: words => with_words words (λ ns, match ns with
      | [s_pos; lm_pos; len] => no_val (string_copy_to_linear_memory xdr_error s s_pos lm_pos len) | _ => m_fail MISMATCH end)
  | SymbolCopyToLinearMemory, VObject s :: words => with_words words (λ ns, match ns with
      | [s_pos; lm_pos; len] => no_val (symbol_copy_to_linear_memory validate_byte s s_pos lm_pos len) | _ => m_fail MISMATCH end)
  | BytesCopyToLinearMemory, VObject b :: words => with_words words (λ ns, match ns with
      | [b_pos; lm_pos; len] => no_val (bytes_copy_to_linear_memory xdr_error b b_pos lm_pos len) | _ => m_fail MISMATCH end)
  | BytesCopyFromLinearMemory, VObject b :: words => with_words words (λ ns, match ns with
      | [b_pos; lm_pos; len] => obj (bytes_copy_from_linear_memory xdr_error b b_pos lm_pos len) | _ => m_fail MISMATCH end)
  | SymbolIndexInLinearMemory, sym :: words => with_words words (λ ns, match ns with
      | [lm_pos; len] => let* sym := m_lift (symbol_try_from sym) in symbol_index_in_linear_memory sym lm_pos len
      | _ => m_fail MISMATCH end)
  | _, _ => m_fail MISMATCH
  end.

(** The dispatch function of a host function with parameters [ps]. *)
Definition dispatch_with (ps : list Param) (run : list Val → M Host Val) (args : list Val) : M Host Val :=
  charge DispatchHostFunction None ;;;
  let* abs := marshal_args ps args in
  let* ok := run abs in
  check_env_arg ok ;;;
  absolute_to_relative ok.
Definition dispatch (f : HostFn) : list Val → M Host Val := dispatch_with (signature f) (exec f).
Definition dispatch_mem (f : MemFn) : list Val → M Host Val := dispatch_with (mem_signature f) (exec_mem f).
End dispatch.
