(* ===== verification/ObjCode.v ===== *)
(** Contracts' code and the host objects it uses: what a contract does with a host, as far
    as objects go, and calls of other contracts, P/vm.rs, [call] and [try_call] of
    P/host.rs.  Code is any deterministic program; what frames check and roll back is in
    Frame.v. *)
From S2P Require Import Prelude ScVal Budget BudgetThms Metering Search OrdMap Vector Auth Objects Convert LinMem Dispatch.
#[local] Open Scope m_scope.

(** What code does next: import a function on objects or on linear memory, call another
    contract (address, function and arguments), change its own memory, return, or trap. *)
Inductive Action (Small : Type) :=
| ACall (f : HostFn) (args : list (Val Small))
| AMem (f : MemFn) (args : list (Val Small))
| AStore (mem : bytes)
| AInvoke (try : bool) (args : list (Val Small))
| AReturn (v : Val Small)
| ATrap (e : Error).
Arguments ACall {Small}. Arguments AMem {Small}. Arguments AStore {Small}. Arguments AInvoke {Small}. Arguments AReturn {Small}. Arguments ATrap {Small}.

(** Code decides by the arguments and the answers it got so far, and by its memory. *)
Record Code (Small : Type) := mkCode {
  initial_memory : option bytes;
  next : list (Val Small) → option bytes → Action Small
}.
Arguments mkCode {Small}. Arguments initial_memory {Small}. Arguments next {Small}.

Definition MAX_VM_ARGS : nat := 32.
Definition OUT_OF_FUEL : Error := EHost TBudget ExceededLimit.
Definition TOO_MANY_ARGS : Error := EHost TWasmVm InvalidInput.

(** [wasmi::Value], as far as its size goes. *)
Inductive Value (Small : Type) := RawValue (v : Val Small).

Section code.
Context {Small B : Type} `{SmallVals Small, SmallScVals Small, Pieces} `{AsBudget B, DepthLimiter B}.
Context `{WasmiMemory, Payload Small, SmallSymbols Small}.
#[local] Abbreviation Val := (Val Small) (only parsing).
#[local] Abbreviation Host := (ObjHost Small B) (only parsing).
Context (xdr_error : Error) (validate_byte : Byte.byte → bool) (compare : Val → Val → M Host comparison).
Context (check_env_arg : Val → M Host unit).
(** The code of a contract's function, loaded from storage, and error values. *)
Context (load : Hash → Val → M Host (Code Small)) (error_val : Error → Small).

#[export] Instance Value_size : DeclaredSizeForMetering (Value Small) := 16.

(** [Host::call_args_from_obj] and [contract_id_from_address]. *)
Definition call_args_from_obj (args : Object) : M Host (list Val) := visit_vec args MeteredVector.to_vec.
Definition contract_id_from_scaddress (address : ScAddress) : Result Hash :=
  match address with Account _ => Err (EHost TObject InvalidInput) | Contract id => Ok id end.
Definition extract_address (o : HostObject Small) := match o with OAddress a => Some a | _ => None end.
Definition contract_id_from_address (address : Object) : M Host Hash :=
  visit_obj extract_address address (λ addr,
    let* addr := metered_clone addr in m_lift (contract_id_from_scaddress addr)).

(** The frame of a contract in the virtual machine, as far as objects go. *)
Definition with_vm_frame {A} (mem : option bytes) (f : M Host A) : M Host A := λ h,
  let '(r, h') := f (mkObjHost (objects h) (Some (mkVmFrame [] mem) :: frames h) (budget h)) in
  (r, mkObjHost (objects h') (tail (frames h')) (budget h')).

Fixpoint map_absolute_to_relative (args : list Val) : M Host (list Val) :=
  match args with
  | [] => m_ret []
  | v :: args =>
      let* v := absolute_to_relative v in
      let* vs := map_absolute_to_relative args in
      m_ret (v :: vs)
  end.

Section vm.
Context (exec_code : Code Small → list Val → M Host Val).

Definition metered_func_call (code : Code Small) (inputs : list Val) : M Host Val :=
  charge InvokeVmFunction None ;;;
  if decide (MAX_VM_ARGS < length inputs)%nat then m_fail TOO_MANY_ARGS
  else let* wasm_ret := exec_code code inputs in relative_to_absolute wasm_ret.

Definition invoke_function_raw (code : Code Small) (args : list Val) : M Host Val :=
  charge_bulk_init_cpy (list (Value Small)) (Value Small) (Z.of_nat (length args)) ;;;
  let* wasm_args := map_absolute_to_relative args in
  metered_func_call code wasm_args.

(** [Host::call_contract_fn] from its instance on. *)
Definition call_contract_fn (code : Code Small) (args : list Val) : M Host Val :=
  charge_bulk_init_cpy (list Val) Val (Z.of_nat (length args)) ;;;
  with_vm_frame (initial_memory code) (invoke_function_raw code args).

Definition call (address : Object) (func : Val) (args : Object) : M Host Val :=
  let* argvec := call_args_from_obj args in
  let* id := contract_id_from_address address in
  let* code := load id func in
  call_contract_fn code argvec.

Definition try_call_val (r : Result Val) : Result Val :=
  match r with
  | Ok rv => Ok rv
  | Err e =>
      if is_recoverable e then
        match e with
        | EContract _ | EHost TContract _ => Ok (VSmall (error_val e))
        | _ => Ok (VSmall (error_val (EHost TContext InvalidAction)))
        end
      else Err e
  end.
Definition try_call (address : Object) (func : Val) (args : Object) : M Host Val :=
  let* argvec := call_args_from_obj args in
  let* id := contract_id_from_address address in
  λ h, let '(r, h') := (let* code := load id func in call_contract_fn code argvec) h in (try_call_val r, h').

(** The dispatch functions of the two. *)
Definition dispatch_call (try : bool) : list Val → M Host Val :=
  dispatch_with check_env_arg [PObj AddressObject; PVal; PObj VecObject] (λ abs,
    match abs with
    | [VObject address; func; VObject args] => (if try then try_call else call) address func args
    | _ => m_fail MISMATCH
    end).
End vm.

Definition code_memory : M Host (option bytes) := λ h,
  (Ok (match frames h with Some fr :: _ => memory fr | _ => None end), h).

(** Running code: every answer is added to what it has seen; an error of a function that
    it calls is a trap.  The fuel bounds the steps, nested ones included. *)
Fixpoint exec_code (fuel : nat) (code : Code Small) (seen : list Val) : M Host Val :=
  match fuel with
  | O => m_fail OUT_OF_FUEL
  | S fuel =>
      let* mem := code_memory in
      match next code seen mem with
      | ACall f args =>
          let* v := dispatch xdr_error compare check_env_arg f args in exec_code fuel code (seen ++ [v])
      | AMem f args =>
          let* v := dispatch_mem xdr_error validate_byte compare check_env_arg f args in exec_code fuel code (seen ++ [v])
      | AInvoke try args =>
          let* v := dispatch_call (exec_code fuel) try args in exec_code fuel code (seen ++ [v])
      | AStore mem' => (if mem is Some _ then put_memory mem' else m_fail NO_MEMORY) ;;; exec_code fuel code seen
      | AReturn v => m_ret v
      | ATrap e => m_fail e
      end
  end.
End code.
