(* ===== verification/ObjThms.v ===== *)
(** What the functions on host objects do to the object table: they only read it or add
    one object, built from what their arguments give access to. *)
From S2P Require Import Prelude ScVal Budget BudgetThms Metering Search OrdMap Vector Objects Convert LinMem Dispatch.
#[local] Open Scope m_scope.

(** Charges without an input keep the invariant too. *)
Class MeteredCalls (B : Type) `{AsBudget B} (I : B → Prop) (E : Error → Prop) : Prop :=
  charge_call_returns ty : takes_input ty = false → returns I (charge ty None) (λ _, True) E.

(** What is read as a [u32] is one. *)
Class SmallValsLaws (Small : Type) `{SmallVals Small} : Prop :=
  as_u32_range s n : as_u32 s = Some n → 0 <= n <= u32_max.

(** Levels of recursion: they keep the invariant and fail with an error of [D]. *)
Class LimitsDepth (S : Type) `{DepthLimiter S} (I : S → Prop) (D : Error → Prop) : Prop := {
  enter_returns : returns I enter_level (λ _, True) D;
  leave_returns : returns I leave_level (λ _, True) D
}.

Lemma limited_depth_returns {S} `{DepthLimiter S} (I : S → Prop) (D F : Error → Prop) `{!LimitsDepth S I D} {A}
    (f : M S A) (Q : A → Prop) :
  (∀ e, D e → F e) → returns I f Q F → returns I (limited_depth f) Q F.
Proof.
  intros HD Hf. unfold limited_depth. eapply returns_bind.
  { eapply returns_weaken; [apply enter_returns|intros a Ha; exact Ha|exact HD]. }
  intros _ _ s Hs. destruct (Hf s Hs) as [Hs' Hr]. destruct (f s) as [r s']. simpl in *.
  unfold m_bind. destruct (leave_returns s' Hs') as [Hs2 Hl].
  destruct (leave_level s') as [[[]|e] s2]; simpl in *; [by split|]. split; [done|by apply HD].
Qed.

(** ** Handles *)

Lemma handle_relative n : is_relative_object_handle (2 * n) = true.
Proof.
  unfold is_relative_object_handle. change 1 with (Z.ones 1). rewrite Z.land_ones by lia. apply Z.eqb_eq.
  change (2 ^ 1) with 2. rewrite Z.mul_comm. apply Z_mod_mult.
Qed.
Lemma handle_absolute n : is_relative_object_handle (2 * n + 1) = false.
Proof.
  unfold is_relative_object_handle. change 1 with (Z.ones 1) at 2. rewrite Z.land_ones by lia. apply Z.eqb_neq.
  change (2 ^ 1) with 2. rewrite Z.add_comm, Z.mul_comm, Z_mod_plus_full. done.
Qed.
Lemma shiftr_double n : Z.shiftr (2 * n) 1 = n.
Proof. rewrite Z.shiftr_div_pow2 by lia. change (2 ^ 1) with 2. rewrite Z.mul_comm. by apply Z_div_mult. Qed.
Lemma shiftr_double1 n : Z.shiftr (2 * n + 1) 1 = n.
Proof. rewrite Z.shiftr_div_pow2 by lia. change (2 ^ 1) with 2. rewrite Z.add_comm, Z.mul_comm, Z_div_plus by lia. done. Qed.

Lemma lor_double n : 0 <= n → Z.lor (2 * n) 1 = 2 * n + 1.
Proof. by destruct n. Qed.

Definition HANDLES : Z := 2 ^ 31.

(** Up to 2^31 indices have handles of their own, which lead back to them. *)
Lemma index_to_handle_ok i rel : Z.of_nat i < HANDLES →
  index_to_handle i rel = Ok (2 * Z.of_nat i + if rel then 0 else 1).
Proof.
  intros Hi. unfold index_to_handle, u32_checked_shl, HANDLES in *.
  rewrite decide_True by (unfold u32_max; lia). rewrite decide_True by done.
  rewrite Z.shiftl_mul_pow2 by lia. change (2 ^ 1) with 2. rewrite Z.mod_small by lia.
  rewrite Z.mul_comm. destruct rel; [f_equal; lia|]. f_equal. apply lor_double. lia.
Qed.
Lemma handle_index_ok i rel hd : Z.of_nat i < HANDLES → index_to_handle i rel = Ok hd →
  handle_to_index hd = i ∧ is_relative_object_handle hd = rel.
Proof.
  intros Hi. rewrite index_to_handle_ok by done. intros [= <-]. unfold handle_to_index. destruct rel.
  - rewrite Z.add_0_r, shiftr_double, Nat2Z.id. split; [done|]. apply handle_relative.
  - rewrite shiftr_double1, Nat2Z.id. split; [done|]. apply handle_absolute.
Qed.

(** ** What a reference leads to *)
Section refs.
Context {Small : Type}.
Implicit Types (os : list (HostObject Small)) (o : Object) (v : Val Small).

Definition target os o : option (HostObject Small) :=
  if is_relative_object_handle (get_handle o) then None else os !! handle_to_index (get_handle o).

Definition vals_of (hot : HostObject Small) : list (Val Small) :=
  match hot with OVec v => v | OMap m => m.*1 ++ m.*2 | _ => [] end.

(** What arguments give access to: themselves and what their objects hold. *)
Inductive access os (args : list (Val Small)) : Val Small → Prop :=
| access_small s : access os args (VSmall s)
| access_arg v : v ∈ args → access os args v
| access_held o hot v : VObject o ∈ args → target os o = Some hot → v ∈ vals_of hot → access os args v.

(** The reference to the object added to [os]. *)
Definition new_ref os (hot : HostObject Small) o : Prop :=
  index_to_handle (length os) false = Ok (get_handle o) ∧ get_tag o = wrapper hot.
End refs.

Section effects.
Context {Small B : Type} `{SmallVals Small} `{AsBudget B} (I : B → Prop) (E : Error → Prop).
Context `{!Metered B I E} `{!MeteredCalls B I E}.
#[local] Abbreviation Val := (Val Small) (only parsing).
#[local] Abbreviation HostObject := (HostObject Small) (only parsing).
#[local] Abbreviation Host := (ObjHost Small B) (only parsing).
Implicit Types (os : list HostObject) (fs : list (option VmFrame)).

(** The host with these objects and frames. *)
Definition frozen os fs (h : Host) : Prop := objects h = os ∧ frames h = fs ∧ I (budget h).

Lemma on_budget_returns os fs {A} (p : M B A) (Q : A → Prop) F :
  returns I p Q F → returns (frozen os fs) (m_zoom budget put_budget p) Q F.
Proof.
  intros Hp h (Ho & Hf & Hb). unfold m_zoom. destruct (Hp (budget h) Hb) as [Hb' Hr].
  destruct (p (budget h)) as [r b]. simpl in *. by split.
Qed.
#[export] Instance frozen_metered os fs : Metered Host (frozen os fs) E.
Proof. intros ty x Hty Hx. by apply on_budget_returns, charge_returns. Qed.
#[export] Instance frozen_calls os fs : MeteredCalls Host (frozen os fs) E.
Proof. intros ty Hty. by apply on_budget_returns, charge_call_returns. Qed.
#[export] Instance frozen_val_clone os fs : CloneReturns (frozen os fs) E Val.
Proof. apply shallow_clone_returns. Qed.
#[export] Instance frozen_byte_clone os fs : CloneReturns (frozen os fs) E Byte.byte.
Proof. apply shallow_clone_returns. Qed.

Lemma returns_lift {S A} (J : S → Prop) (r : Result A) (Q : A → Prop) (F : Error → Prop) :
  match r with Ok a => Q a | Err e => F e end → returns J (m_lift r) Q F.
Proof. intros Hr s Hs. split; [done|]. by destruct r. Qed.

(** Looking at an object. *)
Lemma visit_returns os fs {T U} (ex : HostObject → option T) o (f : T → M Host U) (Q : U → Prop) (F : Error → Prop) :
  (∀ e, E e → F e) →
  (∀ hot t, target os o = Some hot → ex hot = Some t → returns (frozen os fs) (f t) Q F) →
  (∀ e, (target os o = None → e = EHost TObject InternalError ∨ e = EHost TValue InvalidInput) →
     (∀ hot, target os o = Some hot → ex hot = None ∧ e = EHost TObject InternalError) → F e) →
  returns (frozen os fs) (visit_obj ex o f) Q F.
Proof.
  intros HE Hf HF. unfold visit_obj, visit_obj_untyped. eapply returns_bind.
  { eapply returns_weaken; [by apply charge_call_returns|intros a Ha; exact Ha|exact HE]. }
  intros _ _ h (Ho & Hfr & Hb). unfold m_bind, m_get. rewrite Ho. unfold target in *.
  assert (frozen os fs h) as Hh by done.
  destruct (is_relative_object_handle (get_handle o)); [split; [done|]; apply HF; [by left|done]|].
  destruct (os !! handle_to_index (get_handle o)) as [hot|]; [|split; [done|]; apply HF; [by right|done]].
  destruct (ex hot) as [t|] eqn:Hex; [by apply (Hf hot t)|]. split; [done|]. apply HF; [done|].
  by intros ? [= <-].
Qed.

(** Adding an object. *)
Definition creates os fs (p : M Host Object) (Q : HostObject → Prop) (F : Error → Prop) : Prop :=
  ∀ h, frozen os fs h →
    match p h with
    | (Ok o, h') => ∃ hot, Q hot ∧ new_ref os hot o ∧ frozen (os ++ [hot]) fs h'
    | (Err e, h') => F e ∧ frozen os fs h'
    end.

Lemma add_creates os fs (hot : HostObject) (Q : HostObject → Prop) (F : Error → Prop) :
  (∀ e, E e → F e) → (index_to_handle (length os) false = Err ARITH_OVERFLOW → F ARITH_OVERFLOW) → Q hot →
  creates os fs (add_host_object hot) Q F.
Proof.
  intros HE HF HQ h Hh. unfold add_host_object, m_bind at 1, m_get. destruct Hh as (Ho & Hf & Hb). rewrite Ho.
  unfold m_bind at 1, m_lift. destruct (index_to_handle (length os) false) as [hd|e] eqn:Hi.
  - assert (frozen os fs h) as Hh by done.
    destruct (charge_heap_alloc_returns (frozen os fs) E HostObject 1 h Hh) as [(Ho' & Hf' & Hb') Hr].
    unfold m_bind at 1. destruct (charge_heap_alloc HostObject 1 h) as [[u|e] h']; simpl in *.
    + exists hot. split; [done|]. split; [done|]. split_and!; simpl; congruence.
    + split; [by apply HE|done].
  - assert (e = ARITH_OVERFLOW) as ->.
    { unfold index_to_handle in Hi. repeat case_match; congruence. }
    split; [by apply HF|done].
Qed.

Lemma bind_creates os fs {T} (p : M Host T) (k : T → M Host Object) (Q : T → Prop) (R : HostObject → Prop) F :
  returns (frozen os fs) p Q F → (∀ x, Q x → creates os fs (k x) R F) → creates os fs (m_bind p k) R F.
Proof.
  intros Hp Hk h Hh. unfold m_bind. destruct (Hp h Hh) as [Hh' Hr].
  destruct (p h) as [[x|e] h']; simpl in *; [by apply Hk|done].
Qed.

(** ** Code that only charges *)

Definition calm os fs {A} (p : M Host A) (Q : A → Prop) : Prop := returns (frozen os fs) p Q (λ _, True).

Lemma calm_of os fs {A} (p : M Host A) (Q R : A → Prop) F :
  returns (frozen os fs) p Q F → (∀ a, Q a → R a) → calm os fs p R.
Proof. intros Hp HQ. by eapply returns_weaken. Qed.
Lemma calm_ret os fs {A} (a : A) (Q : A → Prop) : Q a → calm os fs (m_ret a) Q.
Proof. apply returns_ret. Qed.
Lemma calm_fail os fs {A} e (Q : A → Prop) : calm os fs (m_fail e) Q.
Proof. by apply returns_fail. Qed.
Lemma calm_seq os fs {A C} (p : M Host A) (f : A → M Host C) (Q : A → Prop) (R : C → Prop) :
  calm os fs p Q → (∀ a, Q a → calm os fs (f a) R) → calm os fs (m_bind p f) R.
Proof. apply returns_bind. Qed.
Lemma calm_then os fs {A C} (p : M Host A) (f : A → M Host C) (R : C → Prop) :
  calm os fs p (λ _, True) → (∀ a, calm os fs (f a) R) → calm os fs (m_bind p f) R.
Proof. intros Hp Hf. eapply calm_seq; [exact Hp|]. intros a _. apply Hf. Qed.
Lemma calm_lift os fs {A} (r : Result A) : calm os fs (m_lift r) (λ a, r = Ok a).
Proof. apply returns_lift. by destruct r. Qed.
Lemma calm_charge os fs ty x : takes_input ty = true → 0 <= x → calm os fs (charge ty (Some x)) (λ _, True).
Proof. intros. eapply calm_of; [by apply (charge_returns (B:=Host))|done]. Qed.
Lemma calm_charge_vec os fs (l : list Val) : calm os fs (charge_deep_clone l) (λ _, True).
Proof. eapply calm_of; [apply (charge_vec_returns (frozen os fs) E)|done]. Qed.
Lemma calm_clone_vec os fs (l : list Val) : calm os fs (metered_clone l) (eq l).
Proof. eapply calm_of; [apply (metered_clone_returns (frozen os fs) E)|done]. Qed.
Lemma calm_clone_bytes os fs (l : bytes) : calm os fs (metered_clone l) (eq l).
Proof. eapply calm_of; [apply (metered_clone_returns (frozen os fs) E)|done]. Qed.
Lemma calm_access os fs n : calm os fs (MeteredVector.charge_access (A:=Val) n) (λ _, True).
Proof. apply calm_charge; [done|by apply clamp_bounds]. Qed.
Lemma calm_pairs os fs (l : list (Val * Val)) : calm os fs (charge_deep_clone l) (λ _, True).
Proof. eapply calm_of; [apply (charge_vec_returns (frozen os fs) E)|done]. Qed.
Lemma bulk_returns os fs (Self Item : Type) `{DeclaredSizeForMetering Self, DeclaredSizeForMetering Item} n :
  returns (frozen os fs) (charge_bulk_init_cpy Self Item n) (λ _, True) E.
Proof.
  unfold charge_bulk_init_cpy, charge_shallow_copy, charge_heap_alloc.
  do 2 (eapply returns_bind; [apply (charge_returns (B:=Host)); [done|by apply clamp_bounds]|intros _ _]).
  apply (charge_returns (B:=Host)); [done|by apply clamp_bounds].
Qed.
Lemma calm_bulk os fs (Self Item : Type) `{DeclaredSizeForMetering Self, DeclaredSizeForMetering Item} n :
  calm os fs (charge_bulk_init_cpy Self Item n) (λ _, True).
Proof. eapply calm_of; [apply bulk_returns|done]. Qed.

(** ** Vectors *)

Lemma from_exact_iter_calm os fs (l : list Val) : calm os fs (MeteredVector.from_exact_iter l) (eq l).
Proof.
  unfold MeteredVector.from_exact_iter, MeteredVector.from_vec. case_bool_decide; [apply calm_fail|].
  apply calm_then; [apply calm_charge_vec|intros _]. by apply calm_ret.
Qed.

Implicit Types (hv l : list Val).

(** The elements of a new vector are those of the old ones and [xs]. *)
Definition from_elems (xs : list Val) hv l : Prop := ∀ v, v ∈ l → v ∈ hv ∨ v ∈ xs.

Lemma calm_elems os fs xs hv l : from_elems xs hv l → calm os fs (MeteredVector.from_exact_iter l) (from_elems xs hv).
Proof. intros Hl. eapply calm_of; [apply from_exact_iter_calm|]. by intros ? <-. Qed.

Lemma elem_of_take_in {A} (x : A) n (l : list A) : x ∈ take n l → x ∈ l.
Proof. intros Hx. rewrite <-(take_drop n l). apply elem_of_app. by left. Qed.
Lemma elem_of_drop_in {A} (x : A) n (l : list A) : x ∈ drop n l → x ∈ l.
Proof. intros Hx. rewrite <-(take_drop n l). apply elem_of_app. by right. Qed.

Ltac elems :=
  intros ?; rewrite ?elem_of_app, ?elem_of_cons, ?elem_of_nil;
  naive_solver eauto using elem_of_take_in, elem_of_drop_in.

Lemma vec_run_elems os fs op hv :
  calm os fs (vec_run op hv)
    (from_elems (match op with VSet _ x | VInsert _ x | VPushFront x | VPushBack x => [x] | VAppend l => l | _ => [] end) hv).
Proof.
  assert (∀ x, calm os fs (MeteredVector.push_back hv x) (from_elems [x] hv)) as Hback.
  { intros x. unfold MeteredVector.push_back. case_bool_decide; [apply calm_fail|]. apply calm_elems. elems. }
  assert (∀ x, calm os fs (MeteredVector.push_front hv x) (from_elems [x] hv)) as Hfront.
  { intros x. unfold MeteredVector.push_front. case_bool_decide; [apply calm_fail|]. apply calm_elems. elems. }
  destruct op as [i x|i x|i|x|x| | |l|i j]; simpl; [| | |exact (Hfront x)|exact (Hback x)|..].
  - unfold MeteredVector.set. eapply calm_seq; [apply calm_clone_vec|intros ? <-].
    apply calm_then; [apply calm_access|intros _]. case_decide; [|apply calm_fail]. apply calm_ret.
    intros v [j Hj]%list_elem_of_lookup. apply list_lookup_insert_Some in Hj as [(-> & -> & _)|[_ Hj]].
    + right. by left.
    + left. by eapply list_elem_of_lookup_2.
  - unfold MeteredVector.insert. case_bool_decide; [apply calm_fail|]. case_bool_decide; [apply calm_fail|].
    case_bool_decide; [apply Hback|]. case_bool_decide; [apply Hfront|]. apply calm_elems. elems.
  - unfold MeteredVector.remove. case_bool_decide; [apply calm_fail|].
    apply calm_then; [eapply calm_of; [apply calm_lift|done]|intros skip]. apply calm_elems. elems.
  - unfold MeteredVector.pop_front. case_bool_decide; [apply calm_fail|]. apply calm_elems. elems.
  - unfold MeteredVector.pop_back. case_bool_decide; [apply calm_fail|].
    apply calm_then; [eapply calm_of; [apply calm_lift|done]|intros n]. apply calm_elems. elems.
  - unfold MeteredVector.append. apply calm_then; [eapply calm_of; [apply calm_lift|done]|intros n]. apply calm_elems. elems.
  - unfold MeteredVector.slice, slice_get. case_decide; [|apply calm_fail]. apply calm_elems. elems.
Qed.

Lemma calm_lookup os fs (o : option Val) hv :
  (∀ v, o = Some v → v ∈ hv) → calm os fs (MeteredVector.charge_access (A:=Val) 1 ;;; m_lift (ok_or o VEC_OOB)) (λ v, v ∈ hv).
Proof.
  intros Ho. apply calm_then; [apply calm_access|intros _]. apply returns_lift. destruct o; simpl; [by apply Ho|done].
Qed.
End effects.
