(* ===== verification/ObjEffects.v ===== *)
(** The effect of every function on host objects: the objects stay, and at most one is
    added, holding nothing that the arguments do not give access to. *)
From S2P Require Import Prelude ScVal Budget BudgetThms Metering Search OrdMap Vector Objects Dispatch ObjThms.
#[local] Open Scope m_scope.

Section effects.
Context {Small B : Type} `{SmallVals Small} `{AsBudget B} (I : B → Prop) (E : Error → Prop).
Context `{!Metered B I E} `{!MeteredCalls B I E}.
#[local] Abbreviation Val := (Val Small) (only parsing).
#[local] Abbreviation HostObject := (HostObject Small) (only parsing).
#[local] Abbreviation Host := (ObjHost Small B) (only parsing).
Context (xdr_error : Error) (compare : Val → Val → M Host comparison).
Context (Hcmp : ∀ os fs x y, calm I os fs (compare x y) (λ _, True)).
Implicit Types (os : list HostObject) (fs : list (option VmFrame)) (hv : list Val) (hm : list (Val * Val)).

Lemma calm_weaken os fs {A} (p : M Host A) (Q R : A → Prop) :
  calm I os fs p Q → (∀ a, Q a → R a) → calm I os fs p R.
Proof. intros Hp HQ. by eapply calm_of. Qed.

Lemma calm_visit os fs {T U} (ex : HostObject → option T) o (f : T → M Host U) (Q : U → Prop) :
  (∀ hot t, target os o = Some hot → ex hot = Some t → calm I os fs (f t) Q) →
  calm I os fs (visit_obj ex o f) Q.
Proof. intros Hf. by apply (visit_returns I E). Qed.

(** ** Searches and loops *)

Lemma calm_search os fs {T} (cmp : T → M Host comparison) (l : list T) :
  (∀ x, calm I os fs (cmp x) (λ _, True)) → calm I os fs (fallible_search cmp l) (λ _, True).
Proof.
  intros Hc h Hh. unfold fallible_search.
  assert (frozen I os fs (binary_search_by_pre_rust_182 l (probe cmp) (h, None)).2.1) as Hh'.
  { unfold binary_search_by_pre_rust_182.
    apply (search_loop_invariant l (probe cmp) (λ s, frozen I os fs s.1)); [|done].
    intros x [b [e|]] Hb; simpl in *; [done|]. unfold probe. simpl. destruct (Hc x b Hb) as [Hb' _].
    by destruct (cmp x b) as [[o|e] b']. }
  destruct (binary_search_by_pre_rust_182 l (probe cmp) (h, None)) as [res [b' err]]. simpl in *.
  split; [done|]. by destruct (r ← res; _).
Qed.

Lemma calm_find_equal os fs (f : Val → M Host comparison) l :
  (∀ x, calm I os fs (f x) (λ _, True)) → calm I os fs (MeteredVector.find_equal f l) (λ _, True).
Proof.
  intros Hf. induction l as [|[i x] l IH]; simpl; [by apply calm_ret|].
  eapply calm_seq; [apply Hf|]. intros [] _; [by apply calm_ret|exact IH|exact IH].
Qed.

(** ** Maps *)

(** The entries of a new map are old ones and [xs]. *)
Definition from_entries (xs : list (Val * Val)) hm (l : list (Val * Val)) : Prop := ∀ e, e ∈ l → e ∈ hm ∨ e ∈ xs.

Lemma calm_map_access os fs n : calm I os fs (OrdMap.charge_access (K:=Val) (V:=Val) n) (λ _, True).
Proof. apply (calm_charge I E); [done|by apply clamp_bounds]. Qed.
Lemma calm_map_scan os fs hm : calm I os fs (charge_scan hm) (λ _, True).
Proof. apply calm_map_access. Qed.

Lemma calm_windows os fs hm : calm I os fs (check_windows compare hm) (λ _, True).
Proof.
  induction hm as [|a [|b l] IH]; simpl; [by apply calm_ret..|].
  eapply calm_seq; [apply Hcmp|]. intros [] _; [apply calm_fail|exact IH|apply calm_fail].
Qed.
Lemma calm_from_exact_iter os fs xs hm l :
  from_entries xs hm l → calm I os fs (from_exact_iter compare l) (from_entries xs hm).
Proof.
  intros Hl. unfold from_exact_iter, from_map. case_bool_decide; [apply calm_fail|].
  apply calm_then; [apply (calm_pairs I E)|intros _]. apply calm_then; [apply calm_map_scan|intros _].
  apply calm_then; [apply calm_windows|intros _; by apply calm_ret].
Qed.

Lemma calm_find os fs hm k : calm I os fs (find compare hm k) (λ _, True).
Proof.
  unfold find, charge_binsearch. apply calm_then; [apply (calm_charge I E); [done|by apply clamp_bounds]|].
  intros _. apply calm_search. intros x. apply Hcmp.
Qed.

Ltac pairs :=
  intros ?; rewrite ?elem_of_app, ?elem_of_cons, ?elem_of_nil;
  naive_solver eauto using elem_of_take_in, elem_of_drop_in.

Lemma calm_insert os fs hm k v : calm I os fs (OrdMap.insert compare hm k v) (from_entries [(k, v)] hm).
Proof.
  unfold OrdMap.insert. apply calm_then; [apply calm_map_access|intros _].
  eapply calm_seq; [apply calm_find|]. intros [i|i] _; (case_bool_decide; [apply calm_fail|]);
    apply calm_from_exact_iter; pairs.
Qed.

Lemma calm_remove os fs hm k :
  calm I os fs (OrdMap.remove compare hm k) (λ r, ∀ l x, r = Some (l, x) → from_entries [] hm l).
Proof.
  unfold OrdMap.remove. eapply calm_seq; [apply calm_find|]. intros [i|i] _; [|by apply calm_ret].
  eapply (calm_seq _ _ _ _ _ (from_entries [] hm)).
  { case_bool_decide; apply calm_from_exact_iter; pairs. }
  intros new Hnew. destruct (hm !! i) as [[k' x]|]; [|apply calm_fail].
  eapply calm_then.
  { eapply calm_of; [apply (metered_clone_returns (frozen I os fs) E)|done]. }
  intros y. apply calm_ret. by intros ? ? [= <- <-].
Qed.

Lemma calm_get os fs hm k : calm I os fs (OrdMap.get compare hm k) (λ r, ∀ v, r = Some v → v ∈ hm.*2).
Proof.
  unfold OrdMap.get. eapply calm_seq; [apply calm_find|]. intros [i|i] _; [|by apply calm_ret].
  apply calm_then; [apply calm_map_access|intros _]. destruct (hm !! i) as [[k' x]|] eqn:Hi; [|apply calm_fail].
  apply calm_ret. intros v [= <-]. apply list_elem_of_fmap. exists (k', x). split; [done|].
  by eapply list_elem_of_lookup_2.
Qed.

Lemma calm_at_index os fs hm i : calm I os fs (get_at_index hm i) (λ e, e ∈ hm).
Proof.
  unfold get_at_index. apply calm_then; [apply calm_map_access|intros _]. apply returns_lift.
  destruct (hm !! i) eqn:Hi; simpl; [by eapply list_elem_of_lookup_2|done].
Qed.

(** ** Effects *)

(** With these arguments: no new object and an accessible value, an error, or one new
    object that holds accessible values, and the reference to it. *)
Definition effect os fs (args : list Val) (p : M Host Val) : Prop := ∀ h, frozen I os fs h →
  (frozen I os fs (p h).2 ∧ ∀ v, (p h).1 = Ok v → access os args v) ∨
  (∃ hot, frozen I (os ++ [hot]) fs (p h).2 ∧ (∀ v, v ∈ vals_of hot → access os args v) ∧
     ∃ o, (p h).1 = Ok (VObject o) ∧ new_ref os hot o).

Section rules.
Context (os : list HostObject) (fs : list (option VmFrame)) (args : list Val).

Lemma effect_calm p : calm I os fs p (access os args) → effect os fs args p.
Proof. intros Hp h Hh. left. destruct (Hp h Hh) as [Hh' Hr]. split; [done|]. intros v Hv. by rewrite Hv in Hr. Qed.
Lemma effect_fail e : effect os fs args (m_fail e).
Proof. apply effect_calm, calm_fail. Qed.
Lemma effect_new p :
  creates I os fs p (λ hot, ∀ v, v ∈ vals_of hot → access os args v) (λ _, True) → effect os fs args (obj p).
Proof.
  intros Hp h Hh. specialize (Hp h Hh). unfold obj, m_bind. destruct (p h) as [[o|e] h']; simpl in *.
  - destruct Hp as (hot & Hv & Hr & Hf). right. exists hot. eauto.
  - destruct Hp as [_ Hf]. left. by split.
Qed.
Lemma effect_u32 s (f : Z → M Host Val) : (∀ n, effect os fs args (f n)) → effect os fs args (with_u32 s f).
Proof. intros Hf. unfold with_u32. destruct (as_u32 s); [apply Hf|apply effect_fail]. Qed.

(** A computed object is added. *)
Lemma effect_add {T} (p : M Host T) (mk : T → HostObject) :
  calm I os fs p (λ t, ∀ v, v ∈ vals_of (mk t) → access os args v) →
  effect os fs args (obj (let* t := p in add_host_object (mk t))).
Proof.
  intros Hp. apply effect_new. eapply bind_creates; [exact Hp|]. intros t Ht.
  by apply (add_creates I E).
Qed.
Lemma effect_add_now hot :
  (∀ v, v ∈ vals_of hot → access os args v) → effect os fs args (obj (add_host_object hot)).
Proof. intros Hv. by apply effect_new, (add_creates I E). Qed.

Lemma access_vec v hot hv x :
  VObject v ∈ args → target os v = Some hot → extract_vec hot = Some hv → x ∈ hv → access os args x.
Proof. intros Hv Ht He Hx. destruct hot; simplify_eq/=. by eapply access_held. Qed.
Lemma access_entry m hot hm x :
  VObject m ∈ args → target os m = Some hot → extract_map hot = Some hm → x ∈ hm.*1 ++ hm.*2 → access os args x.
Proof. intros Hv Ht He Hx. destruct hot; simplify_eq/=. by eapply access_held. Qed.

(** A vector made from another's elements and the arguments. *)
Lemma effect_vec v (k : list Val → M Host (list Val)) :
  VObject v ∈ args → (∀ hv, calm I os fs (k hv) (from_elems args hv)) →
  effect os fs args (obj (new_vec (visit_vec v k))).
Proof.
  intros Hv Hk. apply (effect_add _ OVec). apply calm_visit. intros hot hv Ht He.
  eapply calm_weaken; [apply Hk|]. intros l Hl x Hx. destruct (Hl x Hx); [by eapply access_vec|by apply access_arg].
Qed.
Lemma vec_change op hv :
  (∀ x, x ∈ match op with VSet _ x | VInsert _ x | VPushFront x | VPushBack x => [x] | VAppend l => l | _ => [] end → x ∈ args) →
  calm I os fs (vec_run op hv) (from_elems args hv).
Proof.
  intros Hop. eapply calm_weaken; [apply (vec_run_elems I E)|]. intros l Hl x Hx.
  destruct (Hl x Hx); [by left|right; by apply Hop].
Qed.
Lemma effect_vec_change v (check : list Val → M Host unit) op :
  VObject v ∈ args →
  (∀ x, x ∈ match op with VSet _ x | VInsert _ x | VPushFront x | VPushBack x => [x] | VAppend l => l | _ => [] end → x ∈ args) →
  (∀ hv, calm I os fs (check hv) (λ _, True)) →
  effect os fs args (obj (new_vec (visit_vec v (λ hv, check hv ;;; vec_run op hv)))).
Proof.
  intros Hv Hop Hc. apply effect_vec; [done|]. intros hv. apply calm_then; [apply Hc|intros _]. by apply vec_change.
Qed.

Lemma calm_check {A} (r : Result A) : calm I os fs (m_lift r) (λ _, True).
Proof. eapply calm_weaken; [apply calm_lift|done]. Qed.
Lemma calm_small_len n : calm I os fs (usize_to_u32val n) (access os args).
Proof. unfold usize_to_u32val. apply calm_then; [apply calm_check|intros]. apply calm_ret. constructor. Qed.
Lemma calm_index r : calm I os fs (index_or_void r) (access os args).
Proof. destruct r; [apply calm_small_len|]. apply calm_ret. constructor. Qed.

Lemma effect_len {T} (ex : HostObject → option T) (len : T → nat) o :
  effect os fs args (let* n := visit_obj ex o (λ t, m_ret (len t)) in usize_to_u32val n).
Proof.
  apply effect_calm. apply calm_then; [|intros n; apply calm_small_len]. apply calm_visit. intros. by apply calm_ret.
Qed.

(** Reading an element of a vector, an entry of a map. *)
Lemma effect_read v (k : list Val → M Host Val) :
  VObject v ∈ args → (∀ hv, calm I os fs (k hv) (λ x, x ∈ hv)) → effect os fs args (visit_vec v k).
Proof.
  intros Hv Hk. apply effect_calm, calm_visit. intros hot hv Ht He. eapply calm_weaken; [apply Hk|].
  intros x Hx. by eapply access_vec.
Qed.
Lemma effect_lookup v (k : list Val → M Host unit) (f : list Val → option Val) :
  VObject v ∈ args → (∀ hv, calm I os fs (k hv) (λ _, True)) → (∀ hv x, f hv = Some x → x ∈ hv) →
  effect os fs args (visit_vec v (λ hv, k hv ;;; MeteredVector.charge_access (A:=Val) 1 ;;; m_lift (ok_or (f hv) VEC_OOB))).
Proof.
  intros Hv Hk Hf. apply effect_read; [done|]. intros hv. apply calm_then; [apply Hk|intros _].
  apply (calm_lookup I E). apply Hf.
Qed.

Lemma calm_scan hv : calm I os fs (MeteredVector.charge_scan hv) (λ _, True).
Proof. apply (calm_charge I E); [done|by apply clamp_bounds]. Qed.

(** *** Maps *)
Lemma effect_map m {T} (k : list (Val * Val) → M Host T) (mk : T → HostObject) :
  VObject m ∈ args →
  (∀ hm, calm I os fs (k hm) (λ t, ∀ x, x ∈ vals_of (mk t) → x ∈ hm.*1 ++ hm.*2 ∨ x ∈ args)) →
  effect os fs args (obj (let* t := visit_map m k in add_host_object (mk t))).
Proof.
  intros Hv Hk. apply (effect_add _ mk). apply calm_visit. intros hot hm Ht He.
  eapply calm_weaken; [apply Hk|]. intros l Hl x Hx. destruct (Hl x Hx); [by eapply access_entry|by apply access_arg].
Qed.
Lemma entries_vals (xs hm l : list (Val * Val)) x :
  from_entries xs hm l → x ∈ l.*1 ++ l.*2 → x ∈ hm.*1 ++ hm.*2 ∨ x ∈ xs.*1 ++ xs.*2.
Proof.
  intros Hl. rewrite !elem_of_app, !list_elem_of_fmap.
  intros [(e & -> & He)|(e & -> & He)]; destruct (Hl e He); naive_solver.
Qed.
Lemma effect_map_read m (k : list (Val * Val) → M Host Val) :
  VObject m ∈ args → (∀ hm, calm I os fs (k hm) (λ x, x ∈ hm.*1 ++ hm.*2)) → effect os fs args (visit_map m k).
Proof.
  intros Hv Hk. apply effect_calm, calm_visit. intros hot hv Ht He. eapply calm_weaken; [apply Hk|].
  intros x Hx. by eapply access_entry.
Qed.

(** *** Bytes *)
Lemma effect_bytes (p : M Host bytes) : calm I os fs p (λ _, True) → effect os fs args (obj (new_bytes p)).
Proof. intros Hp. apply (effect_add p OBytes). eapply calm_weaken; [exact Hp|]. intros l _ v Hv. by apply elem_of_nil in Hv. Qed.
Lemma effect_lift {A} (r : Result A) (f : A → M Host Object) :
  (∀ a, effect os fs args (obj (f a))) → effect os fs args (obj (let* a := m_lift r in f a)).
Proof.
  intros Hf h Hh. unfold obj, m_bind at 1, m_bind at 1, m_lift. destruct r; [by apply Hf|]. left. by split.
Qed.

(** *** The functions *)
Lemma calm_to_scbytes (l : bytes) : calm I os fs (m_lift (to_scbytes xdr_error l)) (λ _, True).
Proof. apply calm_check. Qed.
Lemma calm_capacity n : calm I os fs (with_metered_capacity Byte.byte n) (λ _, True).
Proof. apply calm_then; [apply (calm_bulk I E)|intros _; by apply calm_ret]. Qed.


Ltac change_of op := first [apply (effect_vec_change _ (λ hv, m_lift _) op); [assumption| |intros; apply calm_check]
                           |apply effect_vec; [assumption|]; intros hv; apply (vec_change op)]; set_solver.

Section vectors.
Context (v : Object) (i : Z) (x : Val) (Hv : VObject v ∈ args).

Lemma vec_put_effect : x ∈ args → effect os fs args (obj (vec_put v i x)).
Proof. intros Hx. change_of (VSet (Z.to_nat i) x). Qed.
Lemma vec_insert_effect : x ∈ args → effect os fs args (obj (vec_insert v i x)).
Proof. intros Hx. change_of (VInsert (Z.to_nat i) x). Qed.
Lemma vec_del_effect : effect os fs args (obj (vec_del v i)).
Proof. change_of (VRemove (A:=Val) (Z.to_nat i)). Qed.
Lemma vec_push_front_effect : x ∈ args → effect os fs args (obj (vec_push_front v x)).
Proof. intros Hx. change_of (VPushFront x). Qed.
Lemma vec_push_back_effect : x ∈ args → effect os fs args (obj (vec_push_back v x)).
Proof. intros Hx. change_of (VPushBack x). Qed.
Lemma vec_pop_front_effect : effect os fs args (obj (vec_pop_front v)).
Proof. change_of (VPopFront (A:=Val)). Qed.
Lemma vec_pop_back_effect : effect os fs args (obj (vec_pop_back v)).
Proof. change_of (VPopBack (A:=Val)). Qed.
Lemma vec_slice_effect j : effect os fs args (obj (vec_slice v i j)).
Proof.
  apply effect_vec; [done|]. intros hv. apply calm_then; [apply calm_check|intros range].
  apply (vec_change (VSlice _ _)). set_solver.
Qed.
Lemma vec_append_effect v2 : VObject v2 ∈ args → effect os fs args (obj (vec_append v v2)).
Proof.
  intros Hv2. apply (effect_add _ OVec). apply calm_visit. intros hot hv1 Ht He. apply calm_visit. intros hot2 hv2 Ht2 He2.
  case_decide; [apply calm_fail|]. eapply calm_weaken; [apply (vec_run_elems I E os fs (VAppend hv2) hv1)|].
  intros l Hl y Hy. destruct (Hl y Hy); [by apply (access_vec v hot hv1)|by apply (access_vec v2 hot2 hv2)].
Qed.
Lemma vec_get_effect : effect os fs args (vec_get v i).
Proof.
  apply (effect_lookup v (λ hv, m_lift (validate_index_lt_bound i (length hv))) (λ hv, hv !! Z.to_nat i));
    [done|intros; apply calm_check|]. intros hv z Hz. by eapply list_elem_of_lookup_2.
Qed.
Lemma vec_front_effect : effect os fs args (vec_front v).
Proof.
  apply effect_read; [done|]. intros hv. apply (calm_lookup I E). intros z. destruct hv; [done|]. intros [= <-]. by left.
Qed.
Lemma vec_back_effect : effect os fs args (vec_back v).
Proof.
  apply effect_read; [done|]. intros hv. apply (calm_lookup I E). intros z Hz. apply last_Some in Hz as [l ->].
  apply elem_of_app. right. by left.
Qed.
Lemma vec_first_index_of_effect : effect os fs args (vec_first_index_of compare v x).
Proof.
  apply effect_calm, calm_visit. intros. apply calm_then; [|apply calm_index].
  apply calm_then; [apply calm_scan|intros _]. by apply calm_find_equal.
Qed.
Lemma vec_last_index_of_effect : effect os fs args (vec_last_index_of compare v x).
Proof.
  apply effect_calm, calm_visit. intros. apply calm_then; [|apply calm_index].
  apply calm_then; [apply calm_scan|intros _]. by apply calm_find_equal.
Qed.
End vectors.

Section maps.
Context (m : Object) (k x : Val) (Hm : VObject m ∈ args).

Lemma map_put_effect : k ∈ args → x ∈ args → effect os fs args (obj (map_put compare m k x)).
Proof.
  intros Hk Hx. apply (effect_map _ _ OMap); [done|]. intros hm. eapply calm_weaken; [apply calm_insert|].
  intros l Hl y Hy. destruct (entries_vals _ _ _ y Hl Hy) as [|Hy']; [by left|right]. simpl in Hy'. set_solver.
Qed.
Lemma map_del_effect : effect os fs args (obj (map_del compare m k)).
Proof.
  apply effect_new. eapply (bind_creates I). 
  { eapply (calm_visit _ _ _ _ _ (λ r, ∀ l y, r = Some (l, y) → ∀ z, z ∈ vals_of (OMap l) → access os args z)).
    intros hot hm Ht He. eapply calm_weaken; [apply calm_remove|]. intros r Hr l y -> z Hz.
    destruct (entries_vals _ _ _ z (Hr l y eq_refl) Hz) as [Hy|Hy]; [by eapply access_entry|by apply elem_of_nil in Hy]. }
  intros [[l y]|] Hr; [|intros h Hh; by split]. apply (add_creates I E); [done|done|]. by eapply Hr.
Qed.
Lemma map_get_effect : effect os fs args (map_get compare m k).
Proof.
  apply effect_map_read; [done|]. intros hm. eapply calm_seq; [apply calm_get|]. intros r Hr.
  apply returns_lift. destruct r; simpl; [|done]. apply elem_of_app. right. by apply Hr.
Qed.
Lemma map_has_effect : effect os fs args (map_has compare m k).
Proof.
  apply effect_calm, calm_visit. intros. apply calm_then; [|intros; apply calm_ret; constructor].
  unfold contains_key. apply calm_then; [apply calm_find|intros; by apply calm_ret].
Qed.
Lemma map_key_by_pos_effect i : effect os fs args (map_key_by_pos m i).
Proof.
  apply effect_map_read; [done|]. intros hm. eapply calm_seq; [apply calm_at_index|]. intros r Hr.
  apply calm_ret. apply elem_of_app. left. by apply list_elem_of_fmap_2.
Qed.
Lemma map_val_by_pos_effect i : effect os fs args (map_val_by_pos m i).
Proof.
  apply effect_map_read; [done|]. intros hm. eapply calm_seq; [apply calm_at_index|]. intros r Hr.
  apply calm_ret. apply elem_of_app. right. by apply list_elem_of_fmap_2.
Qed.
Lemma map_keys_effect : effect os fs args (obj (map_keys m)).
Proof.
  apply (effect_map _ _ OVec); [done|]. intros hm. unfold keys. eapply calm_seq; 
    [apply calm_then; [apply calm_map_scan|intros _; by apply (calm_ret I _ _ _ (λ l, l = hm.*1))]|].
  intros l ->. eapply calm_weaken; [apply (from_exact_iter_calm I E)|]. intros l <- y Hy. left. apply elem_of_app. by left.
Qed.
Lemma map_values_effect : effect os fs args (obj (map_values m)).
Proof.
  apply (effect_map _ _ OVec); [done|]. intros hm. unfold values. eapply calm_seq; 
    [apply calm_then; [apply calm_map_scan|intros _; by apply (calm_ret I _ _ _ (λ l, l = hm.*2))]|].
  intros l ->. eapply calm_weaken; [apply (from_exact_iter_calm I E)|]. intros l <- y Hy. left. apply elem_of_app. by right.
Qed.
End maps.

Section byte_functions.
Context (b : Object) (i u : Z).

Lemma calm_copy n : calm I os fs (charge_shallow_copy Byte.byte n) (λ _, True).
Proof. apply (calm_charge I E); [done|by apply clamp_bounds]. Qed.

(** Code on bytes is made of calm steps. *)
Ltac calm_steps :=
  repeat first
    [ apply (calm_visit _ _ _ _ _ (λ _, True)); intros
    | apply (calm_clone_bytes I E) | apply calm_check | apply calm_copy | apply (calm_bulk I E) | apply calm_capacity
    | apply calm_fail | by apply calm_ret
    | eapply calm_then; [eapply calm_weaken; [|done]; calm_steps|intros]
    | case_decide | case_match ].

Lemma bytes_new_effect : effect os fs args (obj (bytes_new xdr_error)).
Proof. apply effect_bytes. calm_steps. Qed.
Lemma bytes_put_effect : effect os fs args (obj (bytes_put xdr_error b i u)).
Proof. apply effect_lift. intros c. apply effect_bytes. calm_steps. Qed.
Lemma bytes_del_effect : effect os fs args (obj (bytes_del xdr_error b i)).
Proof. apply effect_bytes. calm_steps. Qed.
Lemma bytes_push_effect : effect os fs args (obj (bytes_push xdr_error b u)).
Proof. apply effect_lift. intros c. apply effect_bytes. calm_steps. Qed.
Lemma bytes_pop_effect : effect os fs args (obj (bytes_pop xdr_error b)).
Proof. apply effect_bytes. calm_steps. Qed.
Lemma bytes_insert_effect : effect os fs args (obj (bytes_insert xdr_error b i u)).
Proof. apply effect_lift. intros c. apply effect_bytes. calm_steps. Qed.
Lemma bytes_append_effect b2 : effect os fs args (obj (bytes_append xdr_error b b2)).
Proof.
  apply effect_new. eapply (bind_creates I _ _ _ _ (λ _, True)); [calm_steps|]. intros l _.
  eapply bind_creates; [apply (calm_to_scbytes l)|]. intros l' _. apply (add_creates I E); [done|done|].
  intros y Hy. by apply elem_of_nil in Hy.
Qed.
Lemma bytes_slice_effect : effect os fs args (obj (bytes_slice xdr_error b i u)).
Proof.
  apply effect_new. eapply (bind_creates I _ _ _ _ (λ _, True)); [calm_steps|]. intros l _.
  eapply bind_creates; [apply (calm_to_scbytes l)|]. intros l' _. apply (add_creates I E); [done|done|].
  intros y Hy. by apply elem_of_nil in Hy.
Qed.
(** Reading a byte. *)
Lemma effect_byte (f : bytes → Result Byte.byte) :
  effect os fs args (visit_bytes b (λ l, m_lift ((λ c, VSmall (u32_val (u32_of_byte c))) <$> f l))).
Proof.
  apply effect_calm, calm_visit. intros. apply returns_lift. destruct (f _); simpl; [constructor|done].
Qed.
End byte_functions.
End rules.

Create HintDb effects discriminated.
#[local] Hint Resolve vec_put_effect vec_insert_effect vec_del_effect vec_push_front_effect vec_push_back_effect
  vec_pop_front_effect vec_pop_back_effect vec_slice_effect vec_append_effect vec_get_effect vec_front_effect
  vec_back_effect vec_first_index_of_effect vec_last_index_of_effect map_put_effect map_del_effect map_get_effect
  map_has_effect map_key_by_pos_effect map_val_by_pos_effect map_keys_effect map_values_effect bytes_new_effect
  bytes_put_effect bytes_del_effect bytes_push_effect bytes_pop_effect bytes_insert_effect bytes_append_effect
  bytes_slice_effect effect_fail : effects.
#[local] Hint Extern 1 (_ ∈ _) => set_solver : effects.
#[local] Hint Extern 2 (effect _ _ _ (with_u32 _ _)) => apply effect_u32; intros : effects.
#[local] Hint Extern 2 (effect _ _ _ (obj _)) => apply effect_add_now; intros ? ?%elem_of_nil; done : effects.
#[local] Hint Extern 2 (effect _ _ _ (vec_len _)) => apply (effect_len _ _ _ extract_vec) : effects.
#[local] Hint Extern 2 (effect _ _ _ (map_len _)) => apply (effect_len _ _ _ extract_map) : effects.
#[local] Hint Extern 2 (effect _ _ _ (bytes_len _)) => apply (effect_len _ _ _ extract_bytes) : effects.
#[local] Hint Extern 2 (effect _ _ _ (string_len _)) => apply (effect_len _ _ _ extract_string) : effects.
#[local] Hint Extern 2 (effect _ _ _ (symbol_len _)) => apply (effect_len _ _ _ extract_symbol) : effects.
#[local] Hint Extern 2 (effect _ _ _ (bytes_get _ _)) => apply effect_byte : effects.
#[local] Hint Extern 2 (effect _ _ _ (bytes_front _)) => apply effect_byte : effects.
#[local] Hint Extern 2 (effect _ _ _ (bytes_back _)) => apply effect_byte : effects.

Lemma function_effect os fs f args : effect os fs args (exec xdr_error compare f args).
Proof.
  destruct f; simpl; repeat case_match; subst; eauto with effects.
Qed.
End effects.
