(* ===== verification/ObjSafe.v ===== *)
(** What every run of code keeps of the host's objects.  A [Discipline] says which
    references are good and when an object table is; the judgement [safe], that a
    computation keeps to it, with its rules.  The instances of [Discipline] are the typing
    of objects and the isolation of contracts from each other's objects. *)
From S2P Require Import Prelude ScVal Budget BudgetThms Metering Search OrdMap Vector Objects Convert LinMem Dispatch ObjThms ObjEffects.
#[local] Open Scope m_scope.

(** References good in a table of objects, [ok], and good tables. *)
Class Discipline {Small} (ok : list (HostObject Small) → Object → Prop) (good : list (HostObject Small) → Prop) : Prop := {
  ok_app os l o : ok os o → ok (os ++ l) o;
  ok_held os o hot o' : good os → ok os o → target os o = Some hot → VObject o' ∈ vals_of hot → ok os o';
  ok_new os hot o : good os → Z.of_nat (length os) < HANDLES → new_ref os hot o → ok (os ++ [hot]) o;
  good_add os hot : good os → (∀ o, VObject o ∈ vals_of hot → ok os o) → good (os ++ [hot])
}.

Section safe.
Context {Small B : Type} `{SmallVals Small} `{AsBudget B} (I : B → Prop) (E : Error → Prop).
Context `{!Metered B I E} `{!MeteredCalls B I E}.
#[local] Abbreviation Val := (Val Small) (only parsing).
#[local] Abbreviation HostObject := (HostObject Small) (only parsing).
#[local] Abbreviation Host := (ObjHost Small B) (only parsing).
Context (check_env_arg : Val → M Host unit) (Hcheck : ∀ os fs v, calm I os fs (check_env_arg v) (λ _, True)).
Context (ok : list HostObject → Object → Prop) (good : list HostObject → Prop) `{!Discipline ok good}.
Implicit Types (os : list HostObject) (t : VmFrame) (rest : list (option VmFrame)) (v : Val).

Definition val_ok os v : Prop := ∀ o, v = VObject o → ok os o.
Definition fits os : Prop := Z.of_nat (length os) <= HANDLES.
Definition all_good os t : Prop := good os ∧ Forall (ok os) (relative_objects t).

(** [p], run by code in a frame whose table is [t], leaves the frames below alone and only
    adds objects and references; with no more objects than handles, and under [P], it
    keeps to the discipline. *)
Definition safe (P : Prop) {A} (p : M Host A) (Q : list HostObject → A → Prop) os t rest : Prop :=
  ∀ h, frozen I os (Some t :: rest) h → ∃ l t',
    frozen I (os ++ l) (Some t' :: rest) (p h).2 ∧
    (fits (os ++ l) → P → all_good (os ++ l) t' ∧ match (p h).1 with Ok a => Q (os ++ l) a | Err _ => True end).

Lemma fits_app os l : fits (os ++ l) → fits os.
Proof. unfold fits. rewrite length_app. lia. Qed.

Lemma safe_pre (P P' : Prop) {A} (p : M Host A) Q os t rest : (P → P') → safe P' p Q os t rest → safe P p Q os t rest.
Proof. intros HP Hp h Hh. destruct (Hp h Hh) as (l & t' & Hf & Hr). exists l, t'. auto. Qed.
Lemma safe_post (P : Prop) {A} (p : M Host A) (Q R : list HostObject → A → Prop) os t rest :
  (∀ os a, Q os a → R os a) → safe P p Q os t rest → safe P p R os t rest.
Proof.
  intros HQ Hp h Hh. destruct (Hp h Hh) as (l & t' & Hf & Hr). exists l, t'. split; [done|]. intros Hfit HP.
  destruct (Hr Hfit HP) as [? Hq]. split; [done|]. destruct (p h).1; [by apply HQ|done].
Qed.

Lemma safe_of_calm (P : Prop) {A} (p : M Host A) (Q : A → Prop) (R : list HostObject → A → Prop) os t rest :
  (P → all_good os t) → calm I os (Some t :: rest) p Q → (P → ∀ a, Q a → R os a) → safe P p R os t rest.
Proof.
  intros HP Hp HQ h Hh. destruct (Hp h Hh) as [Hh' Hr]. exists [], t. rewrite app_nil_r. split; [done|].
  intros _ HP'. split; [auto|]. destruct (p h).1; [by apply HQ|done].
Qed.
Lemma safe_fail (P : Prop) {A} e (Q : list HostObject → A → Prop) os t rest :
  (P → all_good os t) → safe P (m_fail e) Q os t rest.
Proof. intros HP. apply (safe_of_calm P _ (λ _, False)); [done|apply calm_fail|done]. Qed.
Lemma safe_ret (P : Prop) {A} (a : A) (Q : list HostObject → A → Prop) os t rest :
  (P → all_good os t) → (P → Q os a) → safe P (m_ret a) Q os t rest.
Proof. intros HP Ha. eapply safe_of_calm; [done|by apply (calm_ret I _ _ a (eq a))|]. by intros ? ? <-; auto. Qed.

Lemma safe_bind (P : Prop) {A C} (p : M Host A) (f : A → M Host C) Q R os t rest :
  safe P p Q os t rest →
  (∀ l t' a, safe (P ∧ all_good (os ++ l) t' ∧ Q (os ++ l) a) (f a) R (os ++ l) t' rest) →
  safe P (m_bind p f) R os t rest.
Proof.
  intros Hp Hf h Hh. unfold m_bind. destruct (Hp h Hh) as (l & t' & Hh' & Hr).
  destruct (p h) as [[a|e] h']; simpl in *; [|by exists l, t'].
  destruct (Hf l t' a h' Hh') as (l2 & t2 & Hh2 & Hr2).
  exists (l ++ l2), t2. rewrite app_assoc. split; [done|]. intros Hfit HP. apply Hr2; [done|].
  by destruct (Hr (fits_app _ _ Hfit) HP).
Qed.
(** After a step that only charges. *)
Lemma safe_then (P : Prop) {A C} (p : M Host A) (f : A → M Host C) (Q : A → Prop) R os t rest :
  (P → all_good os t) → calm I os (Some t :: rest) p Q → (∀ a, Q a → safe P (f a) R os t rest) →
  safe P (m_bind p f) R os t rest.
Proof.
  intros HP Hp Hf h Hh. unfold m_bind. destruct (Hp h Hh) as [Hh' Hr].
  destruct (p h) as [[a|e] h']; simpl in *; [by apply Hf|]. exists [], t. rewrite app_nil_r. split; [done|]. auto.
Qed.

(** ** Crossing between code and the host *)

Lemma val_ok_app os l v : val_ok os v → val_ok (os ++ l) v.
Proof. intros Hv o Ho. by apply ok_app, Hv. Qed.
Lemma all_good_app os hot t :
  all_good os t → (∀ v, v ∈ vals_of hot → val_ok os v) → all_good (os ++ [hot]) t.
Proof.
  intros [Hg Ht] Hv. split; [apply good_add; [done|]; intros o Ho; by apply (Hv _ Ho)|].
  eapply Forall_impl; [exact Ht|]. intros o. apply ok_app.
Qed.
Lemma val_ok_access os args v : good os → Forall (val_ok os) args → access os args v → val_ok os v.
Proof.
  intros Hg Hargs Hv. rewrite Forall_forall in Hargs. destruct Hv as [s|v Hv|o hot v Ho Ht Hv]; [done|by apply Hargs|].
  intros o' ->. eapply ok_held; [done| |done|done]. by apply (Hargs _ Ho).
Qed.

Lemma safe_relative_to_absolute (P : Prop) v os t rest :
  (P → all_good os t) → safe P (relative_to_absolute v) val_ok os t rest.
Proof.
  intros HP. apply (safe_of_calm P _ (λ w, ∀ o, w = VObject o → o ∈ relative_objects t)); [done| |].
  - destruct v as [o|s]; simpl; [|by apply calm_ret]. case_match; [|apply calm_fail].
    eapply (calm_seq I _ _ _ _ (λ r, ∀ o, r = Some o → o ∈ relative_objects t)).
    + intros h (Ho & Hf & Hb). unfold with_current_frame_relative_object_table. rewrite Hf. simpl.
      split; [split_and!; [done|by destruct t|done]|]. intros o'. apply list_elem_of_lookup_2.
    + intros [abs|] Habs; [|apply calm_fail]. case_decide; [|apply calm_fail].
      apply calm_ret. intros o' [= <-]. by apply Habs.
  - intros HP' w Hw o Ho. destruct (HP HP') as [_ Ht]. rewrite Forall_forall in Ht. by apply Ht, Hw.
Qed.

Lemma safe_absolute_to_relative (P : Prop) v os t rest :
  (P → all_good os t) → (P → val_ok os v) → safe P (absolute_to_relative v) (λ _ _, True) os t rest.
Proof.
  intros HP Hv. destruct v as [o|s]; simpl; [|by apply safe_ret]. case_match; [by apply safe_fail|].
  eapply safe_then; [done|eapply calm_of; [apply (charge_heap_alloc_returns (frozen I os _) E)|intros; done]|intros _ _].
  eapply (safe_bind _ _ _ (λ _ _, True)).
  - intros h (Ho & Hf & Hb). unfold with_current_frame_relative_object_table. rewrite Hf. simpl.
    exists [], (mkVmFrame (relative_objects t ++ [o]) (memory t)). rewrite app_nil_r. split; [by split_and!|]. intros _ HP'. split; [|done].
    destruct (HP HP') as [Hg Ht]. split; [done|]. simpl. apply Forall_app_2; [done|]. constructor; [by apply Hv|constructor].
  - intros l t' i. eapply safe_then; [by intros (_ & ? & _)|apply calm_lift|]. intros. apply safe_ret; tauto.
Qed.

Lemma safe_check (P : Prop) {A} v (k : M Host A) Q os t rest :
  (P → all_good os t) → safe P k Q os t rest → safe P (check_env_arg v ;;; k) Q os t rest.
Proof. intros HP Hk. by eapply safe_then; [done|apply Hcheck|intros]. Qed.

Lemma safe_marshal_args (P : Prop) ps args os t rest :
  (P → all_good os t) → safe P (marshal_args check_env_arg ps args) (λ os vs, Forall (val_ok os) vs) os t rest.
Proof.
  revert P args os t. induction ps as [|p ps IH]; intros P [|arg args] os t HP; simpl;
    [by apply safe_ret|by apply safe_fail|by apply safe_fail|].
  eapply (safe_bind _ _ _ val_ok).
  { unfold marshal_arg. eapply safe_then; [done|apply calm_lift|intros v _].
    eapply safe_bind; [by apply safe_relative_to_absolute|]. intros l t' w.
    apply safe_check; [by intros (_ & ? & _)|]. apply safe_ret; [by intros (_ & ? & _)|by intros (_ & _ & ?)]. }
  intros l t' v. eapply safe_bind; [apply IH; tauto|]. intros l2 t2 vs.
  apply safe_ret; [tauto|]. intros ((_ & _ & Hv) & _ & Hvs). constructor; [by apply val_ok_app|done].
Qed.

(** A function with these absolute arguments. *)
Lemma safe_effect (P : Prop) p args os t rest :
  (P → all_good os t) → (P → Forall (val_ok os) args) → effect I os (Some t :: rest) args p → safe P p val_ok os t rest.
Proof.
  intros HP Hargs Hp h Hh. destruct (Hp h Hh) as [[Hh' Hv]|(hot & Hh' & Hv & o & Hr & Hnew)].
  - exists [], t. rewrite app_nil_r. split; [done|]. intros _ HP'. split; [auto|].
    destruct (p h).1 as [v|]; [|done]. eapply val_ok_access; [apply (HP HP')|by apply Hargs|by apply Hv].
  - exists [hot], t. split; [done|]. intros Hfit HP'. destruct (HP HP') as [Hg Ht].
    assert (∀ v, v ∈ vals_of hot → val_ok os v) as Hvals.
    { intros v Hin. eapply val_ok_access; [done|by apply Hargs|by apply Hv]. }
    split; [by apply all_good_app|]. rewrite Hr. intros o' [= <-]. apply ok_new; [done| |done].
    unfold fits in Hfit. rewrite length_app in Hfit. simpl in Hfit. lia.
Qed.


(** ** Looking at objects, adding them, limiting depth *)

Lemma safe_visit (P : Prop) {T A} (ex : HostObject → option T) o (f : T → M Host A) Q os t rest :
  (P → all_good os t) → (P → ok os o) →
  (∀ hot x, ex hot = Some x → (P → ∀ v, v ∈ vals_of hot → val_ok os v) → safe P (f x) Q os t rest) →
  safe P (visit_obj ex o f) Q os t rest.
Proof.
  intros HP Ho Hf. unfold visit_obj, visit_obj_untyped. eapply safe_then; [done| |intros _ _].
  { eapply calm_of; [by apply (charge_call_returns (B:=Host) (I:=frozen I os _) (E:=E))|intros; done]. }
  intros h Hh. unfold m_bind, m_get. pose proof Hh as (Hos & _). rewrite Hos. unfold target in *.
  destruct (is_relative_object_handle (get_handle o)) eqn:Hrel; [exact (safe_fail P _ Q os t rest HP h Hh)|].
  destruct (os !! handle_to_index (get_handle o)) as [hot|] eqn:Ht; [|exact (safe_fail P _ Q os t rest HP h Hh)].
  destruct (ex hot) as [x|] eqn:Hex; [|exact (safe_fail P _ Q os t rest HP h Hh)].
  refine (Hf hot x Hex _ h Hh). intros HP' v Hv o' ->. eapply ok_held; [apply (HP HP')|by apply Ho| |exact Hv].
  unfold target. by rewrite Hrel.
Qed.

Lemma safe_add (P : Prop) hot os t rest :
  (P → all_good os t) → (P → ∀ v, v ∈ vals_of hot → val_ok os v) → safe P (add_host_object hot) ok os t rest.
Proof.
  intros HP Hv h Hh.
  pose proof (add_creates I E os (Some t :: rest) hot (eq hot) (λ _, True)) as Hadd.
  specialize (Hadd ltac:(done) ltac:(done) eq_refl h Hh).
  destruct (add_host_object hot h) as [[o|e] h']; simpl.
  - destruct Hadd as (? & <- & Hnew & Hh'). exists [hot], t. split; [done|]. intros Hfit HP'.
    split; [apply all_good_app; [by apply HP|by apply Hv]|]. apply ok_new; [apply (HP HP')| |done].
    unfold fits in Hfit. rewrite length_app in Hfit. simpl in Hfit. lia.
  - exists [], t. rewrite app_nil_r. split; [apply Hadd|]. auto.
Qed.

Lemma safe_map_err (P : Prop) {A} f (p : M Host A) Q os t rest : safe P p Q os t rest → safe P (m_map_err f p) Q os t rest.
Proof.
  intros Hp h Hh. destruct (Hp h Hh) as (l & t' & Hh' & Hr). exists l, t'. unfold m_map_err.
  by destruct (p h) as [[a|e] h'].
Qed.

Lemma safe_limited_depth `{DepthLimiter B} (D : Error → Prop) `{!LimitsDepth B I D} (P : Prop) {A} (p : M Host A) Q os t rest :
  (P → all_good os t) → safe P p Q os t rest → safe P (limited_depth p) Q os t rest.
Proof.
  intros HP Hp. unfold limited_depth. eapply safe_then; [done| |intros _ _].
  { eapply calm_of; [by apply on_budget_returns, (enter_returns (D:=D))|intros; done]. }
  intros h Hh. destruct (Hp h Hh) as (l & t' & Hh' & Hr). exists l, t'.
  destruct (p h) as [r h1]. simpl in *. unfold m_bind.
  destruct (on_budget_returns I _ _ leave_level (λ _, True) D (leave_returns (D:=D)) h1 Hh') as [Hh2 _].
  change (@leave_level _ ObjHost_depth) with (m_zoom (S:=Host) budget put_budget leave_level).
  destruct (m_zoom _ _ _ h1) as [[[]|e] h2]; simpl in *; [by destruct r|]. split; [done|]. intros Hfit HP'. by destruct (Hr Hfit HP').
Qed.
End safe.
