(* ===== verification/MemSafe.v ===== *)
(** The functions on linear memory keep to every discipline of references ([safe]). *)
From S2P Require Import Prelude ScVal Budget BudgetThms Metering Search OrdMap Vector Objects Convert LinMem Dispatch ObjThms ObjEffects ObjSafe.
#[local] Open Scope m_scope.

Lemma u32_of_byte_range b : 0 <= u32_of_byte b < 256.
Proof. unfold u32_of_byte. pose proof (Byte.to_N_bounded b). lia. Qed.
Lemma from_le_bytes_nonneg l : 0 <= from_le_bytes l.
Proof. induction l as [|b l IH]; simpl; [done|]. pose proof (u32_of_byte_range b). lia. Qed.

Section safe.
Context {Small B : Type} `{SmallVals Small, SmallScVals Small, Pieces} `{AsBudget B, DepthLimiter B}.
Context `{WasmiMemory, Payload Small, SmallSymbols Small}.
Context (I : B → Prop) (E D : Error → Prop).
Context `{!Metered B I E} `{!MeteredCalls B I E} `{!LimitsDepth B I D} `{!SmallValsLaws Small}.
#[local] Abbreviation Val := (Val Small) (only parsing).
#[local] Abbreviation HostObject := (HostObject Small) (only parsing).
#[local] Abbreviation Host := (ObjHost Small B) (only parsing).
Context (xdr_error : Error) (validate_byte : Byte.byte → bool) (compare : Val → Val → M Host comparison).
Context (check_env_arg : Val → M Host unit).
Context (Hcmp : ∀ os fs x y, calm I os fs (compare x y) (λ _, True)).
Context (Hcheck : ∀ os fs v, calm I os fs (check_env_arg v) (λ _, True)).
Context (ok : list HostObject → Object → Prop) (good : list HostObject → Prop) `{!Discipline ok good}.
Implicit Types (os : list HostObject) (t : VmFrame) (rest : list (option VmFrame)) (v : Val).

#[local] Abbreviation safe := (safe I ok good) (only parsing).
#[local] Abbreviation all_good := (all_good ok good) (only parsing).
#[local] Abbreviation val_ok := (val_ok ok) (only parsing).

Ltac pre := tauto.

(** ** The memory *)

Lemma calm_mem_fn_args os t rest : calm I os (Some t :: rest) get_mem_fn_args (λ _, True).
Proof. intros h Hh. unfold get_mem_fn_args. pose proof Hh as (_ & -> & _). by split. Qed.
Lemma calm_get_memory os t rest : calm I os (Some t :: rest) get_memory (λ m, memory t = Some m).
Proof. intros h Hh. unfold get_memory. pose proof Hh as (_ & -> & _). destruct (memory t); by split. Qed.
Lemma safe_put_memory (P : Prop) m os t rest :
  (P → all_good os t) → safe P (put_memory m) (λ _ _, True) os t rest.
Proof.
  intros HP h (Ho & Hf & Hb). exists [], (mkVmFrame (relative_objects t) (Some m)). rewrite app_nil_r.
  unfold put_memory, m_modify. rewrite Hf. split; [done|]. intros _ HP'. by split; [apply (HP HP')|].
Qed.
Lemma calm_mem_charge os fs ty x : takes_input ty = true → 0 <= x → calm I os fs (charge ty (Some x)) (λ _, True).
Proof. apply (calm_charge I E). Qed.

(** Facts about elements that survive new objects. *)
Definition stable {A} (J : list HostObject → A → Prop) : Prop := ∀ os l a, J os a → J (os ++ l) a.
Lemma stable_val_ok : stable (λ os v, val_ok os v).
Proof. intros os l v. by apply (val_ok_app ok good). Qed.
Lemma stable_Forall {A} (J : list HostObject → A → Prop) : stable J → stable (λ os, Forall (J os)).
Proof. intros HJ os l xs Hxs. eapply Forall_impl; [exact Hxs|]. intros x. apply HJ. Qed.

Section loops.
Context {A : Type} (J : list HostObject → A → Prop) (HJ : stable J) (rest : list (option VmFrame)).

Lemma safe_write_words (to_word : A → M Host Z) :
  (∀ (P : Prop) x os t, (P → all_good os t) → (P → J os x) → safe P (to_word x) (λ _ _, True) os t rest) →
  ∀ buf (P : Prop) pos os t, (P → all_good os t) → (P → Forall (J os) buf) →
    safe P (write_words to_word pos buf) (λ _ _, True) os t rest.
Proof.
  intros Hw. induction buf as [|x buf IH]; intros P pos os t HP Hbuf; simpl; [by apply safe_ret|].
  eapply safe_bind; [apply Hw; [done|]; intros HP'; by apply (Forall_inv (Hbuf HP'))|]. intros l t' word.
  eapply safe_then; [pre|apply calm_get_memory|intros m _].
  eapply safe_bind; [apply safe_put_memory; pre|]. intros l2 t2 ?. apply IH; [pre|].
  intros ((HP' & _) & _). apply (stable_Forall J HJ), (stable_Forall J HJ). by apply (Forall_inv_tail (Hbuf HP')).
Qed.

Lemma safe_read_words (from_word : Z → M Host A) :
  (∀ (P : Prop) word os t, (P → all_good os t) → safe P (from_word word) J os t rest) →
  ∀ n (P : Prop) mem os t, (P → all_good os t) → safe P (read_words from_word n mem) (λ os, Forall (J os)) os t rest.
Proof.
  intros Hr. induction n as [|n IH]; intros P mem os t HP; simpl; [by apply safe_ret|].
  eapply safe_bind; [by apply Hr|]. intros l t' x. eapply safe_bind; [apply IH; pre|]. intros l2 t2 xs.
  apply safe_ret; [pre|]. intros ((_ & _ & Hx) & _ & Hxs). constructor; [by apply HJ|done].
Qed.

Lemma safe_scan_slices (callback : nat → bytes → A → M Host A) :
  (∀ (P : Prop) i slice acc os t, (P → all_good os t) → (P → J os acc) → safe P (callback i slice acc) J os t rest) →
  ∀ n (P : Prop) mem_data mem_pos i acc os t, (P → all_good os t) → (P → J os acc) →
    safe P (scan_slices callback mem_data mem_pos i n acc) J os t rest.
Proof.
  intros Hc. induction n as [|n IH]; intros P mem_data mem_pos i acc os t HP Hacc; simpl; [by apply safe_ret|].
  do 4 (eapply safe_then; [done|apply calm_lift|intros ? _]).
  eapply safe_bind; [by apply Hc|]. intros l t' acc'. apply IH; pre.
Qed.
End loops.

(** Charges for memory: their inputs are not negative. *)
Lemma calm_words os fs len : 0 <= len → calm I os fs (charge_words len) (λ _, True).
Proof. intros Hlen. apply calm_mem_charge; [done|]. by apply clamp_bounds. Qed.
Lemma word_range_nonneg mem_pos len range : word_range mem_pos len = Ok range → 0 <= range.2.
Proof.
  unfold word_range, usize_to_u32, u32_checked_mul. case_decide; [|done]. simpl. case_decide; [|done]. simpl.
  destruct (ok_or _ _); [|done]. intros [= <-]. simpl. unfold VAL_SZ. lia.
Qed.

Lemma safe_write_vals {A} (J : list HostObject → A → Prop) (P : Prop) mem_pos buf (to_word : A → M Host Z) os t rest :
  stable J → (P → all_good os t) → (P → Forall (J os) buf) →
  (∀ (P : Prop) x os t, (P → all_good os t) → (P → J os x) → safe P (to_word x) (λ _ _, True) os t rest) →
  safe P (metered_vm_write_vals_to_linear_memory mem_pos buf to_word) (λ _ _, True) os t rest.
Proof.
  intros HJ HP Hbuf Hw. unfold metered_vm_write_vals_to_linear_memory.
  eapply safe_then; [done|apply calm_lift|intros range Hr]. eapply safe_then; [done|apply calm_get_memory|intros m _].
  case_decide; [|by apply safe_fail].
  eapply safe_then; [done|by apply calm_mem_charge, (word_range_nonneg _ _ _ Hr)|intros _ _].
  by apply (safe_write_words J HJ).
Qed.
Lemma safe_read_vals {A} (J : list HostObject → A → Prop) (P : Prop) mem_pos len (from_word : Z → M Host A) os t rest :
  stable J → (P → all_good os t) →
  (∀ (P : Prop) word os t, (P → all_good os t) → safe P (from_word word) J os t rest) →
  safe P (metered_vm_read_vals_from_linear_memory mem_pos len from_word) (λ os, Forall (J os)) os t rest.
Proof.
  intros HJ HP Hr. unfold metered_vm_read_vals_from_linear_memory.
  eapply safe_then; [done|apply calm_lift|intros range Hrange]. eapply safe_then; [done|apply calm_get_memory|intros m _].
  case_decide; [|by apply safe_fail].
  eapply safe_then; [done|by apply calm_mem_charge, (word_range_nonneg _ _ _ Hrange)|intros _ _].
  by apply (safe_read_words J HJ).
Qed.
Lemma safe_scan {A} (J : list HostObject → A → Prop) (P : Prop) mem_pos n (callback : nat → bytes → A → M Host A) acc os t rest :
  (P → all_good os t) → (P → J os acc) →
  (∀ (P : Prop) i slice acc os t, (P → all_good os t) → (P → J os acc) → safe P (callback i slice acc) J os t rest) →
  safe P (metered_vm_scan_slices_in_linear_memory mem_pos n callback acc) J os t rest.
Proof.
  intros HP Hacc Hc. unfold metered_vm_scan_slices_in_linear_memory.
  eapply safe_then; [done|apply calm_get_memory|intros m _].
  eapply safe_then; [done|apply calm_mem_charge; [done|by apply clamp_bounds]|intros _ _].
  by apply (safe_scan_slices J).
Qed.

(** ** Slabs *)

Lemma calm_read_bytes os t rest mem_pos len :
  calm I os (Some t :: rest) (metered_vm_read_bytes_from_linear_memory mem_pos len) (λ _, True).
Proof.
  unfold metered_vm_read_bytes_from_linear_memory. apply calm_then; [apply calm_mem_charge; [done|lia]|intros _].
  eapply calm_seq; [apply calm_get_memory|intros m _]. apply (calm_check I).
Qed.
Lemma safe_write_bytes (P : Prop) mem_pos buf os t rest :
  (P → all_good os t) → safe P (metered_vm_write_bytes_to_linear_memory mem_pos buf) (λ _ _, True) os t rest.
Proof.
  intros HP. unfold metered_vm_write_bytes_to_linear_memory.
  eapply safe_then; [done|apply calm_mem_charge; [done|lia]|intros _ _].
  eapply safe_then; [done|apply calm_get_memory|intros m _]. eapply safe_then; [done|apply calm_lift|intros m' _].
  by apply safe_put_memory.
Qed.

(** What holds bytes holds no references. *)
Definition leaf (HOT : MemHostObjectType) : Prop := ∀ b, vals_of (inject HOT b : HostObject) = [].

Lemma safe_copy_to (P : Prop) HOT o obj_pos lm_pos len os t rest :
  (P → all_good os t) → (P → ok os o) →
  safe P (memobj_copy_to_linear_memory HOT o obj_pos lm_pos len) (λ _ _, True) os t rest.
Proof.
  intros HP Ho. unfold memobj_copy_to_linear_memory, memobj_visit_and_copy_bytes_out.
  eapply safe_then; [done|apply calm_mem_fn_args|intros _ _]. apply (safe_visit I E ok good); [done..|]. intros hot b _ _.
  do 2 (eapply safe_then; [done|apply calm_lift|intros ? _]). by apply safe_write_bytes.
Qed.
Lemma safe_add_leaf (P : Prop) HOT (r : Result bytes) os t rest :
  leaf HOT → (P → all_good os t) → safe P (let* hot := m_lift r in add_host_object (inject HOT hot)) ok os t rest.
Proof.
  intros Hl HP. eapply safe_then; [done|apply calm_lift|intros hot _].
  apply (safe_add I E ok good); [done..|]. intros _ v. rewrite Hl. by intros ?%elem_of_nil.
Qed.
Lemma safe_new_from (P : Prop) HOT lm_pos len os t rest :
  leaf HOT → 0 <= len → (P → all_good os t) →
  safe P (memobj_new_from_linear_memory HOT lm_pos len) ok os t rest.
Proof.
  intros Hl Hlen HP. unfold memobj_new_from_linear_memory.
  eapply safe_then; [done|apply calm_mem_fn_args|intros _ _]. eapply safe_then; [done|by apply calm_mem_charge|intros _ _].
  eapply safe_then; [done|apply calm_read_bytes|intros b _]. by apply safe_add_leaf.
Qed.
Lemma safe_copy_from (P : Prop) HOT o obj_pos lm_pos len os t rest :
  leaf HOT → (P → all_good os t) → safe P (memobj_copy_from_linear_memory HOT o obj_pos lm_pos len) ok os t rest.
Proof.
  intros Hl HP. unfold memobj_copy_from_linear_memory, memobj_clone_resize_and_copy_bytes_in.
  eapply safe_then; [done|apply calm_mem_fn_args|intros _ _].
  eapply (safe_then _ _ _ _ _ _ (λ _, True)); [done|apply (calm_visit I E); intros; eapply calm_of; [apply (calm_clone_bytes I E)|done]|].
  intros b _. eapply safe_then; [done|apply calm_lift|intros stop _].
  eapply (safe_then _ _ _ _ _ _ (λ _, True)); [done| |intros new _].
  { case_decide; [|by apply calm_ret]. apply calm_then; [apply calm_mem_charge; [done|lia]|intros; by apply calm_ret]. }
  eapply safe_then; [done|apply calm_lift|intros ? _].
  eapply safe_then; [done|apply calm_read_bytes|intros ? _]. by apply safe_add_leaf.
Qed.

(** ** Symbols *)

Lemma calm_compare_equal os fs a b : calm I os fs (compare_equal a b) (λ _, True).
Proof. unfold compare_equal. apply calm_then; [apply calm_mem_charge; [done|lia]|intros; by apply calm_ret]. Qed.
Lemma calm_symbol_matches os fs s sym : calm I os fs (symbol_matches s sym) (λ _, True).
Proof.
  unfold symbol_matches. destruct sym as [o|ss].
  - case_decide; [|apply calm_fail]. apply (calm_visit I E). intros. apply calm_compare_equal.
  - case_match; [apply calm_compare_equal|apply calm_fail].
Qed.
Lemma calm_check_symbol os fs s sym : calm I os fs (check_symbol_matches s sym) (λ _, True).
Proof.
  unfold check_symbol_matches. eapply calm_seq; [apply calm_symbol_matches|]. intros [] _; [by apply calm_ret|apply calm_fail].
Qed.
(** Looking up an entry, with its error renamed. *)
Lemma calm_entry os fs (hm : list (Val * Val)) i f : calm I os fs (m_map_err f (get_at_index hm i)) (λ _, True).
Proof. intros h Hh. unfold m_map_err. pose proof (calm_at_index I E os fs hm i h Hh) as [Hh' _]. by destruct (get_at_index hm i h) as [[]]. Qed.
Lemma symbol_try_from_same v w : symbol_try_from v = Ok w → w = v.
Proof. destruct v; simpl; [case_decide|case_match]; by intros [=]. Qed.

Lemma safe_symbol_from_slice (P : Prop) slice os t rest :
  (P → all_good os t) → safe P (symbol_from_slice xdr_error validate_byte compare slice) val_ok os t rest.
Proof.
  intros HP. unfold symbol_from_slice. eapply safe_then; [done|apply calm_mem_charge; [done|lia]|intros _ _].
  eapply safe_then; [done|apply calm_lift|intros s _].
  eapply (safe_bind _ _ _ _ _ _ val_ok).
  - unfold to_valid_host_val. apply safe_map_err. simpl. apply (safe_limited_depth I ok good D); [done|].
    destruct (classify _) as [small| |]; [by apply safe_ret| |by apply safe_fail].
    eapply (safe_then _ _ _ _ _ _ (λ _, True)); [done|eapply calm_of; [apply (calm_clone_bytes I E)|done]|intros b _].
    eapply safe_then; [done|apply calm_lift|intros b' _]. unfold add_val.
    eapply safe_bind; [apply (safe_add I E ok good); [done..|]; intros _ v ?%elem_of_nil; done|].
    intros l t' o. apply safe_ret; [pre|]. intros (_ & _ & Ho) o' [= <-]. done.
  - intros l t' v. eapply safe_of_calm; [pre|apply calm_lift|]. by intros (_ & _ & Hv) w ->%symbol_try_from_same.
Qed.

(** ** Values *)

Lemma safe_write_val (P : Prop) v os t rest :
  (P → all_good os t) → (P → val_ok os v) → safe P (write_val v) (λ _ _, True) os t rest.
Proof.
  intros HP Hv. unfold write_val. eapply safe_bind; [by apply (safe_absolute_to_relative I E)|].
  intros l t' w. apply safe_ret; pre.
Qed.
Lemma calm_each_check os fs vals : calm I os fs (m_each check_env_arg vals) (λ _, True).
Proof. induction vals as [|v vals IH]; simpl; [by apply calm_ret|]. by apply calm_then; [apply Hcheck|intros]. Qed.
Lemma safe_read_host_vals (P : Prop) vals_pos len os t rest :
  0 <= len → (P → all_good os t) → safe P (read_vals check_env_arg vals_pos len) (λ os, Forall (val_ok os)) os t rest.
Proof.
  intros Hlen HP. unfold read_vals. eapply safe_then; [done|apply (calm_bulk I E)|intros _ _].
  eapply safe_then; [done|by apply calm_words|intros _ _].
  eapply safe_bind.
  { apply (safe_read_vals (λ os v, val_ok os v)); [apply stable_val_ok|done|]. intros. by apply (safe_relative_to_absolute I ok good). }
  intros l t' vals. eapply safe_then; [pre|apply calm_each_check|intros _ _]. apply safe_ret; pre.
Qed.

Lemma safe_vec_new (P : Prop) vals_pos len os t rest :
  0 <= len → (P → all_good os t) → safe P (vec_new_from_linear_memory check_env_arg vals_pos len) ok os t rest.
Proof.
  intros Hlen HP. unfold vec_new_from_linear_memory. eapply safe_then; [done|apply calm_mem_fn_args|intros _ _].
  eapply safe_bind; [by apply safe_read_host_vals|]. intros l t' vals.
  eapply (safe_then _ _ _ _ _ _ (eq vals)); [pre| |].
  { unfold MeteredVector.from_vec. case_bool_decide; [apply calm_fail|by apply calm_ret]. }
  intros ? <-. apply (safe_add I E ok good); [pre|]. intros (_ & _ & Hvals) v Hv. rewrite Forall_forall in Hvals. by apply Hvals.
Qed.
Lemma safe_vec_unpack (P : Prop) (v : Object) vals_pos len os t rest :
  0 <= len → (P → all_good os t) → (P → ok os v) →
  safe P (vec_unpack_to_linear_memory v vals_pos len) (λ _ _, True) os t rest.
Proof.
  intros Hlen HP Hv. unfold vec_unpack_to_linear_memory. eapply safe_then; [done|apply calm_mem_fn_args|intros _ _].
  apply (safe_visit I E ok good); [done..|]. intros hot vals Hex Hvals. case_decide; [|by apply safe_fail].
  eapply safe_then; [done|by apply calm_words|intros _ _].
  apply (safe_write_vals (λ os v, val_ok os v)); [apply stable_val_ok|done| |intros; by apply safe_write_val].
  intros HP'. apply Forall_forall. intros x Hx. apply (Hvals HP'). destruct hot; simplify_eq/=. done.
Qed.

Lemma safe_map_new (P : Prop) keys_pos vals_pos len os t rest :
  0 <= len → (P → all_good os t) →
  safe P (map_new_from_linear_memory xdr_error validate_byte compare check_env_arg keys_pos vals_pos len) ok os t rest.
Proof.
  intros Hlen HP. unfold map_new_from_linear_memory. eapply safe_then; [done|apply calm_mem_fn_args|intros _ _].
  eapply safe_then; [done|apply (calm_bulk I E)|intros _ _].
  eapply safe_bind.
  { apply (safe_scan (λ os, Forall (val_ok os))); [done|by constructor|]. intros P' i slice acc os' t' HP' Hacc.
    eapply safe_bind; [by apply safe_symbol_from_slice|]. intros l t2 sym. apply safe_ret; [pre|].
    intros (HP2 & _ & Hsym). apply Forall_app_2; [by apply (stable_Forall _ stable_val_ok), Hacc|by constructor]. }
  intros l t' keys. eapply safe_bind; [apply safe_read_host_vals; [done|pre]|]. intros l2 t2 vals.
  eapply safe_then; [pre| |].
  { apply (calm_from_exact_iter I E compare Hcmp _ _ (zip keys vals) []). intros e He. by right. }
  intros m Hm. apply (safe_add I E ok good); [pre|]. intros ((_ & _ & Hkeys) & _ & Hvals) v Hv.
  apply (entries_vals _ _ _ _ Hm) in Hv. destruct Hv as [Hv|Hv]; [by apply elem_of_nil in Hv|].
  apply elem_of_app in Hv. rewrite Forall_forall in Hvals. apply (stable_Forall _ stable_val_ok _ l2) in Hkeys.
  rewrite Forall_forall in Hkeys.
  destruct Hv as [Hv|Hv]; apply list_elem_of_fmap in Hv as ([k x] & -> & Hv); simpl;
    [apply Hkeys; by eapply elem_of_zip_l|apply Hvals; by eapply elem_of_zip_r].
Qed.
Lemma safe_map_unpack (P : Prop) m keys_pos vals_pos len os t rest :
  0 <= len → (P → all_good os t) → (P → ok os m) →
  safe P (map_unpack_to_linear_memory m keys_pos vals_pos len) (λ _ _, True) os t rest.
Proof.
  intros Hlen HP Hm. unfold map_unpack_to_linear_memory. eapply safe_then; [done|apply calm_mem_fn_args|intros _ _].
  apply (safe_visit I E ok good); [done..|]. intros hot hm Hex Hvals. case_decide; [|by apply safe_fail].
  eapply (safe_bind _ _ _ _ _ _ (λ _ _, True)).
  { apply safe_scan; [done..|]. intros P' i slice [] os' t' HP' _.
    eapply safe_then; [done|apply calm_entry|intros entry _]. eapply safe_then; [done|apply calm_lift|intros sym _].
    eapply (safe_of_calm _ _ _ _ _ (λ _, True)); [done|apply calm_check_symbol|done]. }
  intros l t' ?. eapply safe_then; [pre|by apply calm_words|intros _ _].
  apply (safe_write_vals (λ os kv, val_ok os kv.2)); [intros ?????; by apply stable_val_ok|pre| |intros; by apply safe_write_val].
  intros (HP' & _). apply Forall_forall. intros kv Hkv. apply stable_val_ok, (Hvals HP').
  destruct hot; simplify_eq/=. apply elem_of_app. right. by apply list_elem_of_fmap_2.
Qed.

(** ** The functions, as code imports them *)

Lemma with_words_cases {A} (args : list Val) (f : list Z → M Host A) (R : M Host A → Prop) :
  R (m_fail MISMATCH) →
  (∀ ns, mapM (λ v, match v with VSmall s => as_u32 s | VObject _ => None end) args = Some ns →
     Forall (λ n, 0 <= n <= u32_max) ns → R (f ns)) → R (with_words args f).
Proof.
  intros Hfail Hf. unfold with_words. destruct (mapM _ args) as [ns|] eqn:Hm; [|done]. apply Hf; [done|].
  apply mapM_Some in Hm. clear Hf. induction Hm as [|v n args ns Hn _ IH]; constructor; [|done].
  destruct v as [|s]; [done|]. by apply (as_u32_range s).
Qed.
Lemma safe_obj (P : Prop) (p : M Host Object) os t rest :
  safe P p ok os t rest → safe P (obj p) val_ok os t rest.
Proof. intros Hp. eapply safe_bind; [exact Hp|]. intros l t' o. apply safe_ret; [pre|]. by intros (_ & _ & Ho) o' [= <-]. Qed.
Lemma safe_no_val (P : Prop) (p : M Host unit) os t rest :
  safe P p (λ _ _, True) os t rest → safe P (no_val p) val_ok os t rest.
Proof. intros Hp. eapply safe_bind; [exact Hp|]. intros l t' ?. by apply safe_ret; [pre|]. Qed.

Lemma calm_symbol_index os t rest sym lm_pos len :
  safe (all_good os t) (symbol_index_in_linear_memory sym lm_pos len) val_ok os t rest.
Proof.
  unfold symbol_index_in_linear_memory. eapply safe_then; [pre|apply calm_mem_fn_args|intros _ _].
  eapply (safe_bind _ _ _ _ _ _ (λ _ _, True)).
  - apply safe_scan; [done..|]. intros P i slice found os' t' HP _.
    eapply (safe_of_calm _ _ _ _ _ (λ _, True)); [done| |done].
    eapply calm_seq; [apply calm_symbol_matches|]. intros [] _; [|by apply calm_ret].
    destruct found; [by apply calm_ret|]. eapply calm_seq; [apply (calm_check I)|intros; by apply calm_ret].
  - intros l t' [idx|]; [|apply safe_fail; pre]. by apply safe_ret; [pre|].
Qed.

Lemma safe_exec_mem (P : Prop) f args os t rest :
  (P → all_good os t) → (P → Forall (val_ok os) args) →
  safe P (exec_mem xdr_error validate_byte compare check_env_arg f args) val_ok os t rest.
Proof.
  intros HP Hargs.
  assert (∀ e, safe P (m_fail e) val_ok os t rest) as Hfail by (intros; by apply safe_fail).
  assert (∀ o args', args = VObject o :: args' → P → ok os o) as Hobj.
  { intros o args' -> HP'. by apply (Forall_inv (Hargs HP')). }
  destruct f; simpl; (repeat case_match; subst; try apply Hfail).
  all: apply (with_words_cases _ _ (λ p, safe P p val_ok os t rest)); [apply Hfail|]; intros ns _ Hns;
    repeat (case_match; try apply Hfail); subst; rewrite ?Forall_cons in Hns; destruct_and?.
  all: first [apply safe_obj|apply safe_no_val|idtac].
  all: first [by apply safe_vec_new|by apply safe_map_new|by apply safe_new_from|by apply safe_copy_from
             |apply safe_vec_unpack; by eauto|apply safe_map_unpack; by eauto|apply safe_copy_to; by eauto|idtac].
  eapply safe_then; [done|apply calm_lift|intros sym _]. eapply safe_pre; [exact HP|]. apply calm_symbol_index.
Qed.
End safe.
