(* ===== verification/MemWrites.v ===== *)
(** Where the functions on linear memory write: the judgement [writes] and its rules. *)
From S2P Require Import Prelude ScVal Budget BudgetThms Metering Search OrdMap Vector Objects Convert LinMem Dispatch ObjThms ObjEffects MemSafe.
#[local] Open Scope m_scope.

(** wasmi reads and writes exactly the range, or fails. *)
Class WasmiMemoryLaws `{WasmiMemory} : Prop := {
  mem_read_in m pos len : (pos + len <= length m)%nat → mem_read m pos len = Ok (take len (drop pos m));
  mem_read_out m pos len : (length m < pos + len)%nat → ∃ e, mem_read m pos len = Err e;
  mem_write_in m pos b : (pos + length b <= length m)%nat → mem_write m pos b = Ok (splice m pos b);
  mem_write_out m pos b : (length m < pos + length b)%nat → ∃ e, mem_write m pos b = Err e
}.
Lemma mem_write_ok `{WasmiMemoryLaws} m pos b m' :
  mem_write m pos b = Ok m' → m' = splice m pos b ∧ (pos + length b <= length m)%nat.
Proof.
  destruct (decide (pos + length b <= length m)%nat) as [Hle|Hle].
  - rewrite mem_write_in by done. by intros [= <-].
  - destruct (mem_write_out m pos b) as [e He]; [lia|]. by rewrite He.
Qed.

Lemma length_splice m pos b : (pos + length b <= length m)%nat → length (splice m pos b) = length m.
Proof. intros Hle. unfold splice. rewrite !length_app, length_take, length_drop. lia. Qed.
Lemma lookup_splice_other m pos b i :
  (pos + length b <= length m)%nat → (i < pos ∨ pos + length b <= i)%nat → splice m pos b !! i = m !! i.
Proof.
  intros Hle Hi. unfold splice. destruct (decide (i < pos)%nat).
  - rewrite lookup_app_l by (rewrite length_take; lia). by apply lookup_take_lt.
  - rewrite lookup_app_r by (rewrite length_take; lia). rewrite length_take.
    rewrite lookup_app_r by lia. rewrite lookup_drop. f_equal. lia.
Qed.
Lemma splice_range m pos b : (pos + length b <= length m)%nat → take (length b) (drop pos (splice m pos b)) = b.
Proof.
  intros Hle. unfold splice. rewrite drop_app_length' by (rewrite length_take; lia). by rewrite take_app_length.
Qed.
Lemma length_le_bytes k n : length (to_le_bytes k n) = k.
Proof. revert n. induction k as [|k IH]; intros n; simpl; [done|]. by rewrite IH. Qed.

Section writes.
Context {Small B : Type} `{SmallVals Small, SmallScVals Small, Pieces} `{AsBudget B, DepthLimiter B}.
Context `{WasmiMemory, Payload Small, SmallSymbols Small, !WasmiMemoryLaws}.
Context (I : B → Prop) (E D : Error → Prop).
Context `{!Metered B I E} `{!MeteredCalls B I E} `{!LimitsDepth B I D} `{!SmallValsLaws Small}.
#[local] Abbreviation Val := (Val Small) (only parsing).
#[local] Abbreviation HostObject := (HostObject Small) (only parsing).
#[local] Abbreviation Host := (ObjHost Small B) (only parsing).
Context (xdr_error : Error) (validate_byte : Byte.byte → bool) (compare : Val → Val → M Host comparison).
Context (check_env_arg : Val → M Host unit).
Context (Hcmp : ∀ os fs x y, calm I os fs (compare x y) (λ _, True)).
Context (Hcheck : ∀ os fs v, calm I os fs (check_env_arg v) (λ _, True)).
Implicit Types (os : list HostObject) (t : VmFrame) (rest : list (option VmFrame)) (v : Val) (W : nat → Prop).

(** A memory written to in [W] only. *)
Definition written W (a b : option bytes) : Prop :=
  match a, b with
  | Some m, Some m' => length m' = length m ∧ ∀ i, ¬ W i → m' !! i = m !! i
  | None, None => True
  | _, _ => False
  end.
#[export] Instance written_refl W : Reflexive (written W).
Proof. by intros [m|]; simpl. Qed.
#[export] Instance written_trans W : Transitive (written W).
Proof.
  intros [a|] [b|] [c|]; simpl; try done. intros [Hl Hm] [Hl' Hm']. split; [congruence|]. intros i Hi. by rewrite Hm', Hm.
Qed.

(** [p] writes to the current memory in [W] only and to no other frame's. *)
Definition writes W {A} (p : M Host A) (Q : A → Prop) os t rest : Prop := ∀ h, frozen I os (Some t :: rest) h →
  ∃ os' t', frozen I os' (Some t' :: rest) (p h).2 ∧ written W (memory t) (memory t') ∧
    match (p h).1 with Ok a => Q a | Err _ => True end.

Lemma writes_calm W {A} (p : M Host A) (Q : A → Prop) os t rest : calm I os (Some t :: rest) p Q → writes W p Q os t rest.
Proof. intros Hp h Hh. destruct (Hp h Hh) as [Hh' Hr]. exists os, t. by split_and!. Qed.
Lemma writes_ret W {A} (a : A) (Q : A → Prop) os t rest : Q a → writes W (m_ret a) Q os t rest.
Proof. intros Ha. by apply writes_calm, calm_ret. Qed.
Lemma writes_fail W {A} e (Q : A → Prop) os t rest : writes W (m_fail e) Q os t rest.
Proof. apply writes_calm, calm_fail. Qed.
Lemma writes_bind W {A C} (p : M Host A) (f : A → M Host C) (Q : A → Prop) (R : C → Prop) os t rest :
  writes W p Q os t rest → (∀ a os' t', Q a → written W (memory t) (memory t') → writes W (f a) R os' t' rest) → writes W (m_bind p f) R os t rest.
Proof.
  intros Hp Hf h Hh. unfold m_bind. destruct (Hp h Hh) as (os1 & t1 & Hh1 & Hw1 & Hr).
  destruct (p h) as [[a|e] h']; simpl in *; [|by exists os1, t1].
  destruct (Hf a os1 t1 Hr Hw1 h' Hh1) as (os2 & t2 & Hh2 & Hw2 & Hr2). exists os2, t2. split_and!; [done| |done]. by etrans.
Qed.
(** After a step that leaves the frame as it is. *)
Lemma writes_then W {A C} (p : M Host A) (f : A → M Host C) (Q : A → Prop) (R : C → Prop) os t rest :
  calm I os (Some t :: rest) p Q → (∀ a, Q a → writes W (f a) R os t rest) → writes W (m_bind p f) R os t rest.
Proof.
  intros Hp Hf h Hh. unfold m_bind. destruct (Hp h Hh) as [Hh' Hr].
  destruct (p h) as [[a|e] h']; simpl in *; [by apply Hf|]. by exists os, t.
Qed.
Lemma writes_weaken W {A} (p : M Host A) (Q R : A → Prop) os t rest :
  writes W p Q os t rest → (∀ a, Q a → R a) → writes W p R os t rest.
Proof.
  intros Hp HQ h Hh. destruct (Hp h Hh) as (os' & t' & ? & ? & Hr). exists os', t'. split_and!; [done..|].
  destruct (p h).1; [by apply HQ|done].
Qed.

Lemma writes_splice W pos b m os t rest :
  memory t = Some m → (pos + length b <= length m)%nat → (∀ i, (pos <= i < pos + length b)%nat → W i) →
  writes W (put_memory (splice m pos b)) (λ _, True) os t rest.
Proof.
  intros Hm Hle HW h (Ho & Hf & Hb). exists os, (mkVmFrame (relative_objects t) (Some (splice m pos b))).
  unfold put_memory, m_modify. rewrite Hf. split; [done|]. split; [|done]. rewrite Hm. simpl.
  split; [by apply length_splice|]. intros i Hi. apply lookup_splice_other; [done|].
  destruct (decide (i < pos)%nat); [by left|]. right. destruct (decide (pos + length b <= i)%nat); [done|]. destruct Hi. apply HW. lia.
Qed.

(** ** What leaves memory alone *)

Lemma writes_absolute_to_relative W v os t rest : writes W (absolute_to_relative v) (λ _, True) os t rest.
Proof.
  destruct v as [o|s]; simpl; [|by apply writes_ret]. case_match; [apply writes_fail|].
  eapply writes_then; [eapply calm_of; [apply (charge_heap_alloc_returns (frozen I os _) E)|intros; done]|intros _ _].
  eapply (writes_bind _ _ _ (λ _, True)).
  - intros h (Ho & Hf & Hb). unfold with_current_frame_relative_object_table. rewrite Hf. simpl.
    exists os, (mkVmFrame (relative_objects t ++ [o]) (memory t)). by split_and!.
  - intros i os' t' _ _. eapply writes_then; [apply calm_lift|]. intros. by apply writes_ret.
Qed.
(** Crossing leaves small values alone, and references references. *)
Definition crossed v w : Prop := match v with VSmall s => w = VSmall s | VObject _ => ∃ o, w = VObject o end.
Lemma writes_relative_to_absolute W v os t rest : writes W (relative_to_absolute v) (crossed v) os t rest.
Proof.
  destruct v as [o|s]; simpl; [|by apply writes_ret]. case_match; [|apply writes_fail].
  eapply (writes_bind _ _ _ (λ _, True)).
  - intros h (Ho & Hf & Hb). unfold with_current_frame_relative_object_table. rewrite Hf. simpl. exists os, t.
    by destruct t.
  - intros [abs|] os' t' _ _; [|apply writes_fail]. case_decide; [apply writes_ret; by eexists|apply writes_fail].
Qed.
Lemma writes_add W hot os t rest : writes W (add_host_object hot) (λ _, True) os t rest.
Proof.
  intros h Hh. pose proof (add_creates I E os (Some t :: rest) hot (eq hot) (λ _, True)) as Hadd.
  specialize (Hadd ltac:(done) ltac:(done) eq_refl h Hh).
  destruct (add_host_object hot h) as [[o|e] h']; simpl.
  - destruct Hadd as (? & <- & _ & Hh'). by exists (os ++ [hot]), t.
  - exists os, t. split_and!; [apply Hadd|done|done].
Qed.
Lemma writes_visit W {T A} (ex : HostObject → option T) o (f : T → M Host A) Q os t rest :
  (∀ x, writes W (f x) Q os t rest) → writes W (visit_obj ex o f) Q os t rest.
Proof.
  intros Hf. unfold visit_obj, visit_obj_untyped. eapply writes_then; [|intros _ _].
  { eapply calm_of; [by apply (charge_call_returns (B:=Host) (I:=frozen I os _) (E:=E))|intros; done]. }
  intros h Hh. unfold m_bind, m_get. case_match; [exact (writes_fail W _ Q os t rest h Hh)|].
  destruct (objects h !! _) as [hot|]; [|exact (writes_fail W _ Q os t rest h Hh)].
  destruct (ex hot) as [x|]; [exact (Hf x h Hh)|exact (writes_fail W _ Q os t rest h Hh)].
Qed.

(** ** Loops *)

Definition room t (n : nat) : Prop := ∀ m, memory t = Some m → (n <= length m)%nat.
Lemma written_room W t t' n : written W (memory t) (memory t') → room t n → room t' n.
Proof. intros Hw Hn m' Hm'. rewrite Hm' in Hw. destruct (memory t) as [m|] eqn:Hm; [|done]. destruct Hw as [-> _]. by apply Hn. Qed.

Lemma writes_words W {A} (to_word : A → M Host Z) rest :
  (∀ x os t, writes W (to_word x) (λ _, True) os t rest) →
  ∀ buf pos os t, room t (pos + VAL_SZ * length buf) →
    (∀ i, (pos <= i < pos + VAL_SZ * length buf)%nat → W i) →
    writes W (write_words to_word pos buf) (λ _, True) os t rest.
Proof.
  intros Hw. induction buf as [|x buf IH]; intros pos os t Hr HW; cbn [write_words length] in *; [by apply writes_ret|].
  eapply writes_bind; [apply Hw|]. intros word os1 t1 _ Hw1. apply (written_room _ _ _ _ Hw1) in Hr. clear Hw1.
  eapply writes_then; [apply calm_get_memory|]. intros m Hm. specialize (Hr m Hm) as Hlen. unfold VAL_SZ in *.
  eapply writes_bind; [apply writes_splice; rewrite ?length_le_bytes; [done|lia|intros i Hi; apply HW; lia]|].
  intros _ os2 t2 _ Hw2. apply (written_room _ _ _ _ Hw2) in Hr. apply IH; [intros m2 Hm2; specialize (Hr m2 Hm2); lia|].
  intros i Hi. apply HW. lia.
Qed.
Lemma writes_read_words W {A} (from_word : Z → M Host A) rest :
  (∀ x os t, writes W (from_word x) (λ _, True) os t rest) →
  ∀ n mem os t, writes W (read_words from_word n mem) (λ _, True) os t rest.
Proof.
  intros Hr. induction n as [|n IH]; intros mem os t; simpl; [by apply writes_ret|].
  eapply writes_bind; [apply Hr|]. intros x os1 t1 _ _. eapply writes_bind; [apply IH|]. intros. by apply writes_ret.
Qed.
Lemma writes_scan_slices W {A} (callback : nat → bytes → A → M Host A) rest :
  (∀ i slice acc os t, writes W (callback i slice acc) (λ _, True) os t rest) →
  ∀ n mem_data mem_pos i acc os t, writes W (scan_slices callback mem_data mem_pos i n acc) (λ _, True) os t rest.
Proof.
  intros Hc. induction n as [|n IH]; intros mem_data mem_pos i acc os t; simpl; [by apply writes_ret|].
  do 4 (eapply writes_then; [apply calm_lift|intros ? _]). eapply writes_bind; [apply Hc|]. intros. apply IH.
Qed.

(** [len] words from [mem_pos] on. *)
Definition words_at (mem_pos : Z) (len : nat) (i : nat) : Prop := (Z.to_nat mem_pos <= i < Z.to_nat mem_pos + VAL_SZ * len)%nat.

Lemma word_range_end mem_pos len range : 0 <= mem_pos → word_range mem_pos len = Ok range →
  range.1 = mem_pos + Z.of_nat (VAL_SZ * len) ∧ 0 <= range.2.
Proof.
  intros Hpos Hr. pose proof (word_range_nonneg _ _ _ Hr). revert Hr.
  unfold word_range, usize_to_u32, u32_checked_mul, u32_checked_add. case_decide; [|done]. simpl. case_decide; [|done]. simpl.
  case_decide; [|done]. intros [= <-]. simpl in *. split; [unfold VAL_SZ in *; lia|done].
Qed.
Lemma writes_vals W {A} (to_word : A → M Host Z) mem_pos buf os t rest :
  0 <= mem_pos → (∀ x os t, writes W (to_word x) (λ _, True) os t rest) → (∀ i, words_at mem_pos (length buf) i → W i) →
  writes W (metered_vm_write_vals_to_linear_memory mem_pos buf to_word) (λ _, True) os t rest.
Proof.
  intros Hpos Hw HW. unfold metered_vm_write_vals_to_linear_memory.
  eapply writes_then; [apply calm_lift|]. intros range Hr. destruct (word_range_end _ _ _ Hpos Hr) as [Hend Hnn].
  eapply writes_then; [apply calm_get_memory|intros m Hm]. case_decide; [|apply writes_fail].
  eapply writes_then; [by apply (calm_mem_charge I E)|intros _ _]. apply writes_words; [done| |done].
  intros m' Hm'. rewrite Hm in Hm'. injection Hm' as <-. lia.
Qed.
Lemma writes_read_vals W {A} (from_word : Z → M Host A) mem_pos len os t rest :
  (∀ x os t, writes W (from_word x) (λ _, True) os t rest) →
  writes W (metered_vm_read_vals_from_linear_memory mem_pos len from_word) (λ _, True) os t rest.
Proof.
  intros Hr. unfold metered_vm_read_vals_from_linear_memory.
  eapply writes_then; [apply calm_lift|intros range Hrange]. eapply writes_then; [apply calm_get_memory|intros m _].
  case_decide; [|apply writes_fail]. eapply writes_then; [by apply (calm_mem_charge I E), (word_range_nonneg _ _ _ Hrange)|intros _ _].
  by apply writes_read_words.
Qed.
Lemma writes_scan W {A} mem_pos n (callback : nat → bytes → A → M Host A) acc os t rest :
  (∀ i slice acc os t, writes W (callback i slice acc) (λ _, True) os t rest) →
  writes W (metered_vm_scan_slices_in_linear_memory mem_pos n callback acc) (λ _, True) os t rest.
Proof.
  intros Hc. unfold metered_vm_scan_slices_in_linear_memory. eapply writes_then; [apply calm_get_memory|intros m _].
  eapply writes_then; [apply (calm_mem_charge I E); [done|by apply clamp_bounds]|intros _ _]. by apply writes_scan_slices.
Qed.

(** ** The functions *)

Lemma calm_mem_here W {A} (f : M Host A) Q os t rest :
  writes W f Q os t rest → writes W (get_mem_fn_args ;;; f) Q os t rest.
Proof. intros Hf. eapply writes_then; [apply calm_mem_fn_args|by intros _ _]. Qed.

Lemma writes_copy_to W HOT o obj_pos lm_pos len os t rest :
  0 <= obj_pos → 0 <= len → (∀ i, (Z.to_nat lm_pos <= i < Z.to_nat lm_pos + Z.to_nat len)%nat → W i) →
  writes W (memobj_copy_to_linear_memory HOT o obj_pos lm_pos len) (λ _, True) os t rest.
Proof.
  intros Hpos Hlen HW. apply calm_mem_here. unfold memobj_visit_and_copy_bytes_out. apply writes_visit. intros b.
  eapply writes_then; [apply calm_lift|intros stop Hstop]. eapply writes_then; [apply calm_lift|intros buf Hbuf].
  assert (length buf <= Z.to_nat len)%nat as Hl.
  { unfold u32_checked_add in Hstop. case_decide; [|done]. injection Hstop as <-. unfold slice_get in Hbuf.
    case_decide; [|done]. injection Hbuf as <-. rewrite length_take. lia. }
  unfold metered_vm_write_bytes_to_linear_memory.
  eapply writes_then; [apply (calm_mem_charge I E); [done|lia]|intros _ _].
  eapply writes_then; [apply calm_get_memory|intros m Hm]. eapply writes_then; [apply calm_lift|].
  intros m' [-> Hle]%mem_write_ok. apply writes_splice; [done..|]. intros i Hi. apply HW. lia.
Qed.
Lemma writes_new_from W HOT lm_pos len os t rest :
  0 <= len → writes W (memobj_new_from_linear_memory HOT lm_pos len) (λ _, True) os t rest.
Proof.
  intros Hlen. apply calm_mem_here. eapply writes_then; [by apply (calm_mem_charge I E)|intros _ _].
  eapply writes_then; [apply (calm_read_bytes I E)|intros b _]. eapply writes_then; [apply calm_lift|intros hot _].
  apply writes_add.
Qed.
Lemma writes_copy_from W HOT o obj_pos lm_pos len os t rest :
  writes W (memobj_copy_from_linear_memory HOT o obj_pos lm_pos len) (λ _, True) os t rest.
Proof.
  apply calm_mem_here. unfold memobj_clone_resize_and_copy_bytes_in.
  eapply (writes_then _ _ _ (λ _, True)); [apply (calm_visit I E); intros; eapply calm_of; [apply (calm_clone_bytes I E)|done]|].
  intros b _. eapply writes_then; [apply calm_lift|intros stop _].
  eapply (writes_then _ _ _ (λ _, True)); [|intros new _].
  { case_decide; [|by apply calm_ret]. apply calm_then; [apply (calm_mem_charge I E); [done|lia]|intros; by apply calm_ret]. }
  eapply writes_then; [apply calm_lift|intros ? _]. eapply writes_then; [apply (calm_read_bytes I E)|intros ? _].
  eapply writes_then; [apply calm_lift|intros ? _]. apply writes_add.
Qed.

Lemma writes_symbol_from_slice W slice os t rest :
  writes W (symbol_from_slice xdr_error validate_byte compare slice) (λ _, True) os t rest.
Proof.
  unfold symbol_from_slice. eapply writes_then; [apply (calm_mem_charge I E); [done|lia]|intros _ _].
  eapply writes_then; [apply calm_lift|intros s _]. eapply (writes_bind _ _ _ (λ _, True)).
  - assert (writes W (to_host_val (B:=B) validate_byte compare (Xdr.Symbol s)) (λ _, True) os t rest) as Hw.
    { simpl. unfold limited_depth. eapply writes_then; [|intros _ _].
      { eapply calm_of; [by apply on_budget_returns, (enter_returns (D:=D))|intros; done]. }
      assert (writes W (match classify (Xdr.Symbol s) with
          | ClassSmall small => m_ret (VSmall small)
          | ClassObject => let* s0 := metered_clone s in let* s1 := m_lift (symbol_try_from_bytes validate_byte s0) in add_val (OSymbol s1)
          | ClassNone => m_fail CONVERSION end) (λ _, True) os t rest) as Hin.
      { destruct (classify _); [by apply writes_ret| |apply writes_fail].
        eapply (writes_then _ _ _ (λ _, True)); [eapply calm_of; [apply (calm_clone_bytes I E)|done]|intros b _].
        eapply writes_then; [apply calm_lift|intros b' _]. eapply writes_bind; [apply writes_add|]. intros. by apply writes_ret. }
      intros h Hh. destruct (Hin h Hh) as (os1 & t1 & Hh1 & Hw1 & _). exists os1, t1.
      destruct (_ h) as [r h1]. simpl in Hh1. unfold m_bind.
      destruct (on_budget_returns I _ _ leave_level (λ _, True) D (leave_returns (D:=D)) h1 Hh1) as [Hh2 _].
      change (@leave_level _ ObjHost_depth) with (m_zoom (S:=Host) budget put_budget leave_level).
      destruct (m_zoom _ _ _ h1) as [[[]|e] h2]; simpl in *; [|by split_and!]. split_and!; [by destruct r|done|by destruct r]. }
    intros h Hh. destruct (Hw h Hh) as (os1 & t1 & Hh1 & Hw1 & _). exists os1, t1. unfold to_valid_host_val, m_map_err.
    by destruct (to_host_val _ _ _ h) as [[] h1].
  - intros v os1 t1 _ _. eapply writes_weaken; [apply writes_calm, calm_lift|done].
Qed.

Lemma writes_write_val W v os t rest : writes W (write_val v) (λ _, True) os t rest.
Proof. eapply writes_bind; [apply writes_absolute_to_relative|]. intros. by apply writes_ret. Qed.
Lemma writes_read_host_vals W vals_pos len os t rest :
  0 <= len → writes W (read_vals check_env_arg vals_pos len) (λ _, True) os t rest.
Proof.
  intros Hlen. unfold read_vals. eapply writes_then; [apply (calm_bulk I E)|intros _ _].
  eapply writes_then; [by apply (calm_words I E)|intros _ _].
  eapply writes_bind; [apply writes_read_vals; intros; eapply writes_weaken; [apply writes_relative_to_absolute|done]|]. intros vals os1 t1 _ _.
  eapply writes_then; [by apply (calm_each_check I)|intros _ _]. by apply writes_ret.
Qed.
Lemma writes_vec_new W vals_pos len os t rest :
  0 <= len → writes W (vec_new_from_linear_memory check_env_arg vals_pos len) (λ _, True) os t rest.
Proof.
  intros Hlen. apply calm_mem_here. eapply writes_bind; [by apply writes_read_host_vals|]. intros vals os1 t1 _ _.
  eapply (writes_then _ _ _ (λ _, True)); [|intros; apply writes_add].
  unfold MeteredVector.from_vec. case_bool_decide; [apply calm_fail|by apply calm_ret].
Qed.
Lemma writes_vec_unpack W (v : Object) vals_pos len os t rest :
  0 <= vals_pos → 0 <= len → (∀ i, words_at vals_pos (Z.to_nat len) i → W i) →
  writes W (vec_unpack_to_linear_memory v vals_pos len) (λ _, True) os t rest.
Proof.
  intros Hpos Hlen HW. apply calm_mem_here, writes_visit. intros vals. case_decide as Hl; [|apply writes_fail].
  eapply writes_then; [by apply (calm_words I E)|intros _ _].
  apply writes_vals; [done|intros; apply writes_write_val|by rewrite Hl].
Qed.
Lemma writes_map_new W keys_pos vals_pos len os t rest :
  0 <= len → writes W (map_new_from_linear_memory xdr_error validate_byte compare check_env_arg keys_pos vals_pos len) (λ _, True) os t rest.
Proof.
  intros Hlen. apply calm_mem_here. eapply writes_then; [apply (calm_bulk I E)|intros _ _].
  eapply writes_bind.
  { apply writes_scan. intros. eapply writes_bind; [apply writes_symbol_from_slice|]. intros. by apply writes_ret. }
  intros keys os1 t1 _ _. eapply writes_bind; [by apply writes_read_host_vals|]. intros vals os2 t2 _ _.
  eapply writes_then; [|intros; apply writes_add]. apply (calm_from_exact_iter I E compare Hcmp _ _ (zip keys vals) []). intros e He. by right.
Qed.
Lemma writes_map_unpack W m keys_pos vals_pos len os t rest :
  0 <= vals_pos → 0 <= len → (∀ i, words_at vals_pos (Z.to_nat len) i → W i) →
  writes W (map_unpack_to_linear_memory m keys_pos vals_pos len) (λ _, True) os t rest.
Proof.
  intros Hpos Hlen HW. apply calm_mem_here, writes_visit. intros hm. case_decide as Hl; [|apply writes_fail].
  eapply writes_bind.
  { apply writes_scan. intros i slice [] os' t'. eapply writes_then; [by apply (calm_entry I E)|intros entry _].
    eapply writes_then; [apply calm_lift|intros sym _]. eapply writes_weaken; [by apply writes_calm, (calm_check_symbol I E)|done]. }
  intros ? os1 t1 _ _. eapply writes_then; [by apply (calm_words I E)|intros _ _].
  apply writes_vals; [done|intros; apply writes_write_val|by rewrite Hl].
Qed.
Lemma writes_symbol_index W sym lm_pos len os t rest :
  writes W (symbol_index_in_linear_memory sym lm_pos len) (λ _, True) os t rest.
Proof.
  apply calm_mem_here. eapply writes_bind.
  - apply writes_scan. intros i slice found os' t'. eapply (writes_weaken _ _ (λ _, True)); [|done].
    apply writes_calm. eapply calm_seq; [apply (calm_symbol_matches I E)|]. intros [] _; [|by apply calm_ret].
    destruct found; [by apply calm_ret|]. eapply calm_seq; [apply (calm_check I)|intros; by apply calm_ret].
  - intros [idx|] os1 t1 _ _; [by apply writes_ret|apply writes_fail].
Qed.

(** Where a function may write, by its arguments. *)
Definition write_range (f : MemFn) (args : list Val) (i : nat) : Prop :=
  match f, mapM (λ v, match v with VSmall s => as_u32 s | VObject _ => None end) (tail args) with
  | VecUnpackToLinearMemory, Some [vals_pos; len] | MapUnpackToLinearMemory, Some [_; vals_pos; len] =>
      words_at vals_pos (Z.to_nat len) i
  | (StringCopyToLinearMemory | SymbolCopyToLinearMemory | BytesCopyToLinearMemory), Some [_; lm_pos; len] =>
      (Z.to_nat lm_pos <= i < Z.to_nat lm_pos + Z.to_nat len)%nat
  | _, _ => False
  end.

Lemma writes_obj W (p : M Host Object) os t rest : writes W p (λ _, True) os t rest → writes W (obj p) (λ _, True) os t rest.
Proof. intros Hp. eapply writes_bind; [exact Hp|]. intros. by apply writes_ret. Qed.
Lemma writes_no_val W (p : M Host unit) os t rest : writes W p (λ _, True) os t rest → writes W (no_val p) (λ _, True) os t rest.
Proof. intros Hp. eapply writes_bind; [exact Hp|]. intros. by apply writes_ret. Qed.

Lemma writes_exec_mem f args os t rest :
  writes (write_range f args) (exec_mem xdr_error validate_byte compare check_env_arg f args) (λ _, True) os t rest.
Proof.
  assert (∀ e, writes (write_range f args) (m_fail e : M Host Val) (λ _, True) os t rest) as Hfail by (intros; apply writes_fail).
  destruct f; simpl; (repeat case_match; subst; try apply Hfail).
  all: apply (with_words_cases _ _ (λ p : M Host Val, writes _ p (λ _, True) os t rest)); [apply Hfail|]; intros ns Hm Hns;
    repeat (case_match; try apply Hfail); subst; rewrite ?Forall_cons in Hns; destruct_and?.
  all: first [apply writes_obj|apply writes_no_val|idtac].
  all: first [by apply writes_vec_new|by apply writes_map_new|by apply writes_new_from|by apply writes_copy_from|idtac].
  all: first [apply writes_vec_unpack|apply writes_map_unpack|apply writes_copy_to|idtac];
    try (done || (intros i Hi; unfold write_range; simpl; rewrite Hm; exact Hi)).
  eapply writes_then; [apply calm_lift|intros sym _]. apply writes_symbol_index.
Qed.

Lemma writes_marshal_args W ps args os t rest :
  writes W (marshal_args check_env_arg ps args) (Forall2 crossed args) os t rest.
Proof.
  revert args os t. induction ps as [|p ps IH]; intros [|arg args] os t; simpl;
    [by apply writes_ret|by apply writes_fail|by apply writes_fail|].
  eapply (writes_bind _ _ _ (crossed arg)).
  - unfold marshal_arg. eapply writes_then; [apply calm_lift|]. intros v Hv.
    assert (v = arg) as -> by (unfold try_marshal_from_value in Hv; repeat case_match; simplify_eq; done).
    eapply (writes_bind _ _ _ (crossed arg)); [apply writes_relative_to_absolute|]. intros w os1 t1 Hw _.
    eapply writes_then; [apply Hcheck|intros _ _]. by apply writes_ret.
  - intros v os1 t1 Hv _. eapply writes_bind; [apply IH|]. intros vs os2 t2 Hvs _. apply writes_ret. by constructor.
Qed.
Lemma crossed_words args abs : Forall2 crossed args abs →
  mapM (λ v : Val, match v with VSmall s => as_u32 s | VObject _ => None end) abs =
  mapM (λ v : Val, match v with VSmall s => as_u32 s | VObject _ => None end) args.
Proof.
  induction 1 as [|v w vs ws Hv _ IH]; [done|]. unfold mapM in *. fold (mapM (M:=option) (A:=Val) (B:=Z)) in *.
  destruct v; [destruct Hv as [? ->]|rewrite Hv]; simpl; [done|]. by rewrite IH.
Qed.
Lemma crossed_range f args abs i : Forall2 crossed args abs → write_range f abs i → write_range f args i.
Proof. intros Hc. unfold write_range. rewrite (crossed_words (tail args) (tail abs)); [done|]. by destruct Hc. Qed.

Lemma writes_impl (W W' : nat → Prop) {A} (p : M Host A) (Q : A → Prop) os t rest :
  (∀ i, W i → W' i) → writes W p Q os t rest → writes W' p Q os t rest.
Proof.
  intros HW Hp h Hh. destruct (Hp h Hh) as (os1 & t1 & Hh1 & Hw & Hr). exists os1, t1. split_and!; [done| |done].
  destruct (memory t), (memory t1); try done. destruct Hw as [? Hw]. split; [done|]. intros i Hi. apply Hw. auto.
Qed.
Lemma writes_dispatch_mem f args os t rest :
  writes (write_range f args) (dispatch_mem xdr_error validate_byte compare check_env_arg f args) (λ _, True) os t rest.
Proof.
  unfold dispatch_mem, dispatch_with. eapply writes_then; [|intros _ _].
  { eapply calm_of; [by apply (charge_call_returns (B:=Host) (I:=frozen I os _) (E:=E))|intros; done]. }
  eapply writes_bind; [apply writes_marshal_args|]. intros abs os1 t1 Habs _.
  eapply writes_bind; [eapply writes_impl; [|apply writes_exec_mem]; intros i; by apply crossed_range|].
  intros v os2 t2 _ _. eapply writes_then; [apply Hcheck|intros _ _]. apply writes_absolute_to_relative.
Qed.
End writes.
