(* ===== verification/CodeSafe.v ===== *)
(** Code of any contracts, calling each other, keeps to every discipline of references. *)
From S2P Require Import Prelude ScVal Budget BudgetThms Metering Search OrdMap Vector Auth Objects Convert LinMem Dispatch ObjCode ObjThms ObjEffects ObjSafe MemSafe.
#[local] Open Scope m_scope.

Section safe.
Context {Small B : Type} `{SmallVals Small, SmallScVals Small, Pieces} `{AsBudget B, DepthLimiter B}.
Context `{WasmiMemory, Payload Small, SmallSymbols Small}.
Context (I : B → Prop) (E D : Error → Prop).
Context `{!Metered B I E} `{!MeteredCalls B I E} `{!LimitsDepth B I D} `{!SmallValsLaws Small}.
#[local] Abbreviation Val := (Val Small) (only parsing).
#[local] Abbreviation HostObject := (HostObject Small) (only parsing).
#[local] Abbreviation Host := (ObjHost Small B) (only parsing).
Context (xdr_error : Error) (validate_byte : Byte.byte → bool) (compare : Val → Val → M Host comparison).
Context (check_env_arg : Val → M Host unit).
Context (load : Hash → Val → M Host (Code Small)) (error_val : Error → Small).
Context (Hcmp : ∀ os fs x y, calm I os fs (compare x y) (λ _, True)).
Context (Hcheck : ∀ os fs v, calm I os fs (check_env_arg v) (λ _, True)).
Context (Hload : ∀ os fs id func, calm I os fs (load id func) (λ _, True)).
Context (ok : list HostObject → Object → Prop) (good : list HostObject → Prop) `{!Discipline ok good}.
Implicit Types (os : list HostObject) (t : VmFrame) (rest : list (option VmFrame)) (v : Val).

#[local] Abbreviation safe := (safe I ok good) (only parsing).
#[local] Abbreviation all_good := (all_good ok good) (only parsing).
#[local] Abbreviation val_ok := (val_ok ok) (only parsing).
#[local] Abbreviation code_run := (exec_code xdr_error validate_byte compare check_env_arg load error_val) (only parsing).

Lemma calm_call os fs ty : takes_input ty = false → calm I os fs (charge (B:=Host) ty None) (λ _, True).
Proof. intros Hty. eapply calm_of; [by apply (charge_call_returns (B:=Host) (I:=frozen I os fs) (E:=E))|done]. Qed.

(** A dispatch function is safe if what it runs is, on values that may be used. *)
Lemma safe_dispatch_with (P : Prop) ps run args os t rest :
  (∀ (P : Prop) abs os t, (P → all_good os t) → (P → Forall (val_ok os) abs) → safe P (run abs) val_ok os t rest) →
  (P → all_good os t) → safe P (dispatch_with check_env_arg ps run args) (λ _ _, True) os t rest.
Proof.
  intros Hrun HP. unfold dispatch_with. eapply safe_then; [done|by apply calm_call|intros _ _].
  eapply safe_bind; [by apply (safe_marshal_args I check_env_arg Hcheck)|]. intros l t' abs.
  eapply (safe_bind _ _ _ _ _ _ val_ok); [apply Hrun; tauto|].
  intros l2 t2 v. apply (safe_check I check_env_arg Hcheck); [tauto|]. apply (safe_absolute_to_relative I E); tauto.
Qed.

(** ** Calls of other contracts *)

Lemma safe_frame (P : Prop) mem (f : M Host Val) os t rest :
  (P → all_good os t) → safe P f val_ok os (mkVmFrame [] mem) (Some t :: rest) → safe P (with_vm_frame mem f) val_ok os t rest.
Proof.
  intros HP Hf h (Ho & Hfr & Hb). unfold with_vm_frame.
  destruct (Hf (mkObjHost (objects h) (Some (mkVmFrame [] mem) :: frames h) (budget h))) as (l & t' & (Ho' & Hf' & Hb') & Hr);
    [by split_and!; simpl; rewrite ?Ho, ?Hfr|].
  destruct (f _) as [r h'] eqn:Hrun; simpl in *. exists l, t. split; [by split_and!; simpl; rewrite ?Hf'|].
  intros Hfit HP'. destruct (Hr Hfit HP') as [[Hg _] Hq]. split; [|done]. split; [done|].
  eapply Forall_impl; [apply (HP HP')|]. intros o. apply (ok_app (good := good)).
Qed.

Lemma safe_map_absolute_to_relative (P : Prop) args os t rest :
  (P → all_good os t) → (P → Forall (val_ok os) args) →
  safe P (map_absolute_to_relative args) (λ _ _, True) os t rest.
Proof.
  revert P os t. induction args as [|v args IH]; intros P os t HP Hargs; simpl; [by apply safe_ret|].
  eapply safe_bind; [apply (safe_absolute_to_relative I E); [done|]; intros HP'; by apply (Forall_inv (Hargs HP'))|].
  intros l t' w. eapply safe_bind; [apply IH; [by intros (_ & ? & _)|]|intros; apply safe_ret; tauto].
  intros (HP' & _). eapply Forall_impl; [apply (Forall_inv_tail (Hargs HP'))|]. intros u. apply (val_ok_app ok good).
Qed.

Section calls.
Context (exec : Code Small → list Val → M Host Val).
Context (Hexec : ∀ (P : Prop) code seen os t rest, (P → all_good os t) → safe P (exec code seen) (λ _ _, True) os t rest).

Lemma safe_invoke_function_raw (P : Prop) code args os t rest :
  (P → all_good os t) → (P → Forall (val_ok os) args) →
  safe P (invoke_function_raw exec code args) val_ok os t rest.
Proof.
  intros HP Hargs. unfold invoke_function_raw, metered_func_call.
  eapply safe_then; [done|apply (calm_bulk I E)|intros _ _].
  eapply safe_bind; [by apply safe_map_absolute_to_relative|]. intros l t' wasm_args.
  eapply safe_then; [by intros (_ & ? & _)| |intros _ _].
  { by apply calm_call. }
  case_decide; [apply safe_fail; tauto|].
  eapply safe_bind; [apply Hexec; tauto|]. intros l2 t2 ret. apply (safe_relative_to_absolute I ok good). tauto.
Qed.

Lemma safe_call_contract_fn (P : Prop) code args os t rest :
  (P → all_good os t) → (P → Forall (val_ok os) args) → safe P (call_contract_fn exec code args) val_ok os t rest.
Proof.
  intros HP Hargs. unfold call_contract_fn. eapply safe_then; [done|apply (calm_bulk I E)|intros _ _].
  apply safe_frame; [done|]. apply safe_invoke_function_raw; [|done]. intros HP'. split; [apply (HP HP')|done].
Qed.

Lemma safe_load_call (P : Prop) id func args os t rest :
  (P → all_good os t) → (P → Forall (val_ok os) args) →
  safe P (let* code := load id func in call_contract_fn exec code args) val_ok os t rest.
Proof. intros HP Hargs. eapply safe_then; [done|apply Hload|intros code _]. by apply safe_call_contract_fn. Qed.

(** The elements of the argument vector are reachable. *)
Lemma calm_call_args os fs args :
  calm I os fs (call_args_from_obj args) (λ vs, ∀ v, v ∈ vs → access os [VObject args] v).
Proof.
  unfold call_args_from_obj. apply (calm_visit I E). intros hot hv Ht He.
  eapply calm_weaken; [apply (calm_clone_vec I E)|]. intros vs <- v Hv.
  eapply (access_vec os [VObject args]); [by left|done|done|done].
Qed.
Lemma calm_contract_id os fs address : calm I os fs (contract_id_from_address (B:=B) (Small:=Small) address) (λ _, True).
Proof.
  unfold contract_id_from_address. apply (calm_visit I E). intros hot a Ht He.
  pose proof (shallow_clone_returns (frozen I os fs) E ScAddress) as Hshallow.
  eapply calm_seq; [eapply calm_of; [apply (metered_clone_returns (frozen I os fs) E)|intros; done]|intros].
  apply calm_check.
Qed.

Lemma safe_try (P : Prop) (p : M Host Val) os t rest :
  safe P p val_ok os t rest →
  safe P (λ h, let '(r, h') := p h in (try_call_val error_val r, h')) val_ok os t rest.
Proof.
  intros Hp h Hh. destruct (Hp h Hh) as (l & t' & Hh' & Hr). exists l, t'.
  destruct (p h) as [r h']. simpl in *. split; [done|]. intros Hfit HP. destruct (Hr Hfit HP) as [? Hq].
  split; [done|]. destruct r as [v|e]; simpl; [done|]. by repeat case_match; simplify_eq.
Qed.

Lemma safe_calls (try : bool) (P : Prop) address func args os t rest :
  (P → all_good os t) → (P → ok os args) →
  safe P ((if try then try_call load error_val exec else call load exec) address func args) val_ok os t rest.
Proof.
  intros HP Hargs. destruct try; (eapply safe_then; [done|apply calm_call_args|intros vs Hvs]);
    (eapply safe_then; [done|apply calm_contract_id|intros id _]).
  all: assert (P → Forall (val_ok os) vs) by
    (intros HP'; apply Forall_forall; intros v Hv; eapply (val_ok_access ok good); [apply (HP HP')| |by apply Hvs];
     constructor; [intros ? [= <-]; auto|done]).
  - apply safe_try. by apply safe_load_call.
  - by apply safe_load_call.
Qed.

Lemma safe_dispatch_call try (P : Prop) args os t rest :
  (P → all_good os t) → safe P (dispatch_call check_env_arg load error_val exec try args) (λ _ _, True) os t rest.
Proof.
  apply safe_dispatch_with. clear P os t. intros P abs os t HP Habs.
  assert (∀ e, safe P (m_fail e) val_ok os t rest) as Hfail by (intros; by apply safe_fail).
  destruct abs as [|[a|] [|func [|[vs|] [|] ] ] ]; try apply Hfail.
  apply safe_calls; [done|]. intros HP'. specialize (Habs HP'). rewrite Forall_forall in Habs.
  apply (Habs (VObject vs)); [|done]. right. right. by left.
Qed.
End calls.

(** Code of any contracts keeps to the discipline. *)
Lemma safe_exec_code fuel (P : Prop) code seen os t rest :
  (P → all_good os t) → safe P (code_run fuel code seen) (λ _ _, True) os t rest.
Proof.
  revert P code seen os t rest. induction fuel as [|fuel IH]; intros P code seen os t rest HP; simpl; [by apply safe_fail|].
  eapply (safe_then _ _ _ _ _ _ (λ _, True)); [done|by intros h Hh|intros mem _].
  destruct (next code seen mem) as [f args|f args|m|try args|v|e]; [..|by apply safe_ret|by apply safe_fail].
  - eapply safe_bind; [apply safe_dispatch_with; [|exact HP]|intros l t' v; apply IH; tauto].
    intros P' abs os' t' HP' Habs. eapply safe_effect; [done..|]. by apply (function_effect I E).
  - eapply safe_bind; [apply safe_dispatch_with; [|exact HP]|intros l t' v; apply IH; tauto].
    intros P' abs os' t' HP' Habs. by apply (safe_exec_mem I E D).
  - eapply safe_bind; [destruct mem; [by apply safe_put_memory|by apply safe_fail]|intros l t' ?; apply IH; tauto].
  - eapply safe_bind; [by apply safe_dispatch_call|intros l t' v; apply IH; tauto].
Qed.
End safe.
