(* ===== verification/ObjRefine.v ===== *)
(** The functions on vectors and bytes build what their specification on lists says: an
    object with the new list, or an error if there is none. *)
From S2P Require Import Prelude ScVal Budget BudgetThms Metering Search OrdMap Vector Objects Dispatch ObjThms ObjEffects.
#[local] Open Scope m_scope.

Section refine.
Context {Small B : Type} `{SmallVals Small} `{AsBudget B} (I : B → Prop) (E : Error → Prop).
Context `{!Metered B I E} `{!MeteredCalls B I E}.
#[local] Abbreviation Val := (Val Small) (only parsing).
#[local] Abbreviation HostObject := (HostObject Small) (only parsing).
#[local] Abbreviation Host := (ObjHost Small B) (only parsing).
Context (xdr_error : Error).
Context (os : list HostObject) (fs : list (option VmFrame)).

(** The errors of a function whose specification has no result. *)
Definition no_result (e : Error) : Prop :=
  e = VEC_OOB ∨ e = ARITH_OVERFLOW ∨ e = EHost TObject InvalidInput.

(** [p] adds the object [mk l] for the list [l] that the specification says. *)
Definition adds {A} (mk : list A → HostObject) (spec : option (list A)) (p : M Host Object) : Prop :=
  creates I os fs p (λ hot, ∃ l, spec = Some l ∧ hot = mk l) (λ e, E e ∨ no_result e ∧ spec = None).

(** [p] computes that list. *)
Definition computes {A} (spec : option (list A)) (p : M Host (list A)) : Prop :=
  returns (frozen I os fs) p (λ l, spec = Some l) (λ e, E e ∨ no_result e ∧ spec = None).

Lemma adds_computed {A} (mk : list A → HostObject) spec p : Z.of_nat (length os) < HANDLES →
  computes spec p → adds mk spec (let* l := p in add_host_object (mk l)).
Proof.
  intros Hlen Hp. eapply bind_creates; [exact Hp|]. intros l ->. apply (add_creates I E); [by left| |by eauto].
  by rewrite index_to_handle_ok.
Qed.
Lemma computes_builds (spec : option (list Val)) p : builds (frozen I os fs) E spec p → computes spec p.
Proof.
  intros Hp. eapply returns_weaken; [exact Hp|by intros ? [? _]|]. intros e [He|[-> Hn]]; [by left|].
  right. split; [by left|done].
Qed.
Lemma computes_fail {A} e : no_result e → computes (A:=A) None (m_fail e).
Proof. intros He. apply returns_fail. by right. Qed.
(** A check before. *)
Lemma computes_check {A C} (r : Result C) (spec : option (list A)) (k : C → M Host (list A)) :
  match r with Ok c => computes spec (k c) | Err e => no_result e ∧ spec = None end → computes spec (let* c := m_lift r in k c).
Proof. intros Hr. destruct r as [c|e]; [exact Hr|]. destruct Hr as [He ->]. by apply computes_fail. Qed.
Lemma computes_then {A C} (spec : option (list A)) (p : M Host C) (k : C → M Host (list A)) (Q : C → Prop) :
  returns (frozen I os fs) p Q E → (∀ c, Q c → computes spec (k c)) → computes spec (m_bind p k).
Proof.
  intros Hp Hk. eapply returns_bind; [|exact Hk]. eapply returns_weaken; [exact Hp|intros c Hc; exact Hc|by left].
Qed.
Lemma computes_visit {A T} (ex : HostObject → option T) o hot (t : T) (spec : option (list A)) k :
  target os o = Some hot → ex hot = Some t → computes spec (k t) → computes spec (visit_obj ex o k).
Proof.
  intros Ht Hex Hk. apply (visit_returns I E); [by left| |].
  - intros hot' t' Ht' Hex'. by simplify_eq.
  - intros e _ He. destruct (He hot Ht) as [? _]. congruence.
Qed.

(** ** Vectors *)

Lemma check_lt i n : match validate_index_lt_bound i n with Ok _ => i < Z.of_nat n | Err e => e = VEC_OOB ∧ Z.of_nat n <= i end.
Proof. unfold validate_index_lt_bound. case_decide; [done|lia]. Qed.
Lemma check_le i n : match validate_index_le_bound i n with Ok _ => i <= Z.of_nat n | Err e => e = VEC_OOB ∧ Z.of_nat n < i end.
Proof. unfold validate_index_le_bound. case_decide; [done|lia]. Qed.

(** The function for each operation on the vector [v]; the vector to append is another
    object. *)
Inductive vec_function (v : Object) : vec_op Val → M Host Object → Prop :=
| fn_vec_put i x : 0 <= i → vec_function v (VSet (Z.to_nat i) x) (vec_put v i x)
| fn_vec_insert i x : 0 <= i → vec_function v (VInsert (Z.to_nat i) x) (vec_insert v i x)
| fn_vec_del i : 0 <= i → vec_function v (VRemove (Z.to_nat i)) (vec_del v i)
| fn_vec_push_front x : vec_function v (VPushFront x) (vec_push_front v x)
| fn_vec_push_back x : vec_function v (VPushBack x) (vec_push_back v x)
| fn_vec_pop_front : vec_function v VPopFront (vec_pop_front v)
| fn_vec_pop_back : vec_function v VPopBack (vec_pop_back v)
| fn_vec_append v2 l : target os v2 = Some (OVec l) → vec_function v (VAppend l) (vec_append v v2)
| fn_vec_slice i j : 0 <= i → 0 <= j → vec_function v (VSlice (Z.to_nat i) (Z.to_nat j)) (vec_slice v i j).

(** A checked operation of the host's vectors. *)
Lemma vec_checked op hv {C} (r : Result C) (k : C → M Host (list Val)) :
  vec_fits hv →
  match r with Ok c => k c = vec_run op hv | Err e => no_result e ∧ vec_spec op hv = None end →
  computes (vec_spec op hv) (let* c := m_lift r in k c).
Proof.
  intros Hfit Hr. apply computes_check. destruct r as [c|e]; [|exact Hr]. rewrite Hr.
  by apply computes_builds, (vec_run_builds (frozen I os fs) E).
Qed.

(** The check fails where the specification has no result. *)
Ltac refused := simpl; rewrite decide_False by lia; split; [first [by left|by right; left|by right; right]|done].
Ltac checked H r := pose proof H; destruct r as [|e]; [done|]; destruct_and!; subst; refused.

Lemma vec_function_adds v hv op p : Z.of_nat (length os) < HANDLES →
  target os v = Some (OVec hv) → vec_fits hv → vec_function v op p → adds OVec (vec_spec op hv) p.
Proof.
  intros Hlen Hv Hfit Hp.
  assert (∀ op k, computes (vec_spec op hv) (k hv) → adds OVec (vec_spec op hv) (new_vec (visit_vec v k))) as Hvisit.
  { intros op' k Hk. apply adds_computed; [done|]. by eapply (computes_visit extract_vec v (OVec hv) hv). }
  assert (∀ op, computes (vec_spec op hv) (vec_run op hv)) as Hrun.
  { intros op'. by apply computes_builds, (vec_run_builds (frozen I os fs) E). }
  destruct Hp as [i x Hi|i x Hi|i Hi|x|x| | |v2 l Hv2|i j Hi Hj]; apply Hvisit.
  - apply (vec_checked (VSet _ x)); [done|]. checked (check_lt i (length hv)) (validate_index_lt_bound i (length hv)).
  - apply (vec_checked (VInsert _ x)); [done|]. checked (check_le i (length hv)) (validate_index_le_bound i (length hv)).
  - apply (vec_checked (VRemove _)); [done|]. checked (check_lt i (length hv)) (validate_index_lt_bound i (length hv)).
  - apply (Hrun (VPushFront x)).
  - apply (Hrun (VPushBack x)).
  - apply (Hrun VPopFront).
  - apply (Hrun VPopBack).
  - eapply (computes_visit extract_vec v2 (OVec l) l); [done..|]. case_decide; [|apply (Hrun (VAppend l))].
    simpl. unfold bounded. rewrite decide_False by (rewrite length_app; lia). apply computes_fail. right. by left.
  - eapply (vec_checked (VSlice _ _)); [done|]. unfold valid_range_from_start_end_bound.
    pose proof (check_le i (length hv)) as Hle. pose proof (check_le j (length hv)) as Hle'.
    destruct (validate_index_le_bound i _) as [|e]; [|simpl; destruct Hle as [-> ?]; refused].
    destruct (validate_index_le_bound j _) as [|e]; [|simpl; destruct Hle' as [-> ?]; refused].
    simpl. case_decide; [refused|done].
Qed.

(** ** Bytes *)

Inductive bytes_function (b : Object) : vec_op Byte.byte → M Host Object → Prop :=
| fn_bytes_put i c : 0 <= i → bytes_function b (VSet (Z.to_nat i) c) (bytes_put xdr_error b i (u32_of_byte c))
| fn_bytes_insert i c : 0 <= i → bytes_function b (VInsert (Z.to_nat i) c) (bytes_insert xdr_error b i (u32_of_byte c))
| fn_bytes_del i : 0 <= i → bytes_function b (VRemove (Z.to_nat i)) (bytes_del xdr_error b i)
| fn_bytes_push c : bytes_function b (VPushBack c) (bytes_push xdr_error b (u32_of_byte c))
| fn_bytes_pop : bytes_function b VPopBack (bytes_pop xdr_error b)
| fn_bytes_append b2 l : target os b2 = Some (OBytes l) → bytes_function b (VAppend l) (bytes_append xdr_error b b2)
| fn_bytes_slice i j : 0 <= i → 0 <= j → bytes_function b (VSlice (Z.to_nat i) (Z.to_nat j)) (bytes_slice xdr_error b i j).

Lemma byte_of_u32 c : u8_from_u32val_input (u32_of_byte c) = Ok c.
Proof. unfold u8_from_u32val_input, u32_of_byte. by rewrite N2Z.id, Byte.of_to_N. Qed.

Lemma computes_scbytes (l : bytes) spec : vec_fits l → spec = Some l → computes spec (m_lift (to_scbytes xdr_error l)).
Proof. intros Hl ->. unfold to_scbytes. rewrite decide_True by done. by apply returns_ret. Qed.
Lemma computes_clone (hb : bytes) spec (k : bytes → M Host bytes) :
  computes spec (k hb) → computes spec (let* vnew := metered_clone hb in k vnew).
Proof. intros Hk. eapply computes_then; [apply (metered_clone_returns (frozen I os fs) E)|]. by intros ? <-. Qed.
Lemma computes_charge (spec : option bytes) (n : Z) (k : M Host bytes) :
  computes spec k → computes spec (charge_shallow_copy Byte.byte n ;;; k).
Proof. intros Hk. eapply computes_then; [apply (charge_shallow_copy_returns (frozen I os fs) E)|done]. Qed.
(** A new buffer of the capacity [len]. *)
Lemma computes_capacity (spec : option bytes) len (k : bytes → M Host bytes) :
  computes spec (k []) → computes spec (let* vnew := with_metered_capacity Byte.byte len in k vnew).
Proof.
  intros Hk. eapply (computes_then _ _ _ (eq [])); [|by intros ? <-].
  eapply returns_bind; [apply (bulk_returns I E)|]. intros _ _. by apply returns_ret.
Qed.
Lemma sum_checked n m : Z.of_nat n <= u32_max → Z.of_nat m <= u32_max →
  validate_usize_sum_fits_in_u32 n m = if decide (Z.of_nat (n + m) <= u32_max) then Ok (n + m)%nat else Err ARITH_OVERFLOW.
Proof.
  intros. unfold validate_usize_sum_fits_in_u32, u32_try_from. rewrite !decide_True by done. simpl.
  unfold u32_checked_add. rewrite Nat2Z.inj_add. case_decide; [|done]. f_equal. lia.
Qed.
(** A buffer for [n] bytes more. *)
Lemma computes_sum (hb : bytes) n l (k : nat → M Host bytes) :
  vec_fits hb → Z.of_nat n <= u32_max → length l = (length hb + n)%nat →
  (vec_fits l → ∀ len, computes (Some l) (k len)) →
  computes (bounded l) (let* len := m_lift (validate_usize_sum_fits_in_u32 (length hb) n) in k len).
Proof.
  intros Hb Hn Hlen Hk. apply computes_check. rewrite sum_checked by done. unfold bounded. rewrite Hlen.
  case_decide; [|by split; [right; left|]]. apply Hk. unfold vec_fits. lia.
Qed.
Lemma computes_bytes b (hb : bytes) (spec : option bytes) k :
  target os b = Some (OBytes hb) → computes spec (k hb) → computes spec (visit_bytes b k).
Proof. intros Hb Hk. by eapply (computes_visit extract_bytes b (OBytes hb) hb). Qed.
Lemma length_insert_at {A} (l : list A) n x : (n <= length l)%nat → length (take n l ++ x :: drop n l) = (length l + 1)%nat.
Proof. intros. rewrite length_app, length_take. simpl. rewrite length_drop. lia. Qed.

Section byte_functions.
Context (Hlen : Z.of_nat (length os) < HANDLES) (b : Object) (hb : bytes).
Context (Hb : target os b = Some (OBytes hb)) (Hfit : vec_fits hb).

Lemma adds_bytes spec k : computes spec (k hb) → adds OBytes spec (new_bytes (visit_bytes b k)).
Proof. intros Hk. apply adds_computed; [done|]. by eapply computes_bytes. Qed.
Lemma adds_byte c spec k : adds OBytes spec (k c) →
  adds OBytes spec (let* u := m_lift (u8_from_u32val_input (u32_of_byte c)) in k u).
Proof. by rewrite byte_of_u32. Qed.
Lemma adds_scbytes spec (p : M Host bytes) : computes spec p → (∀ l, spec = Some l → vec_fits l) →
  adds OBytes spec (let* vnew := p in new_bytes (m_lift (to_scbytes xdr_error vnew))).
Proof.
  intros Hp Hl. eapply bind_creates; [exact Hp|]. intros l Hs. apply adds_computed; [done|]. apply computes_scbytes; auto.
Qed.

Lemma bytes_put_adds i c : adds OBytes (vec_spec (VSet (Z.to_nat i) c) hb) (bytes_put xdr_error b i (u32_of_byte c)).
Proof.
  apply adds_byte, adds_bytes, computes_clone. simpl. case_decide; [|by apply computes_fail; left].
  apply computes_scbytes; [|done]. unfold vec_fits. by rewrite length_insert.
Qed.
Lemma bytes_insert_adds i c : 0 <= i →
  adds OBytes (vec_spec (VInsert (Z.to_nat i) c) hb) (bytes_insert xdr_error b i (u32_of_byte c)).
Proof.
  intros Hi. apply adds_byte, adds_bytes, computes_check. pose proof (check_le i (length hb)) as Hc.
  destruct (validate_index_le_bound _ _); [simpl; rewrite decide_True by lia|destruct Hc as [-> Hc]; refused].
  apply computes_sum; [done|done|apply length_insert_at; lia|]. intros Hl len. apply computes_capacity. by apply computes_scbytes.
Qed.
Lemma bytes_del_adds i : 0 <= i → adds OBytes (vec_spec (VRemove (Z.to_nat i)) hb) (bytes_del xdr_error b i).
Proof.
  intros Hi. apply adds_bytes, computes_check. pose proof (check_lt i (length hb)) as Hc.
  destruct (validate_index_lt_bound _ _); [simpl; rewrite decide_True by lia|destruct Hc as [-> Hc]; refused].
  apply computes_clone, computes_check. rewrite decide_True by lia. apply computes_charge, computes_scbytes; [|done].
  unfold vec_fits in *. rewrite delete_take_drop, length_app, length_take, length_drop. lia.
Qed.
Lemma bytes_push_adds c : adds OBytes (vec_spec (VPushBack c) hb) (bytes_push xdr_error b (u32_of_byte c)).
Proof.
  apply adds_byte, adds_bytes. apply computes_sum; [done|done|by rewrite length_app|].
  intros Hl len. apply computes_capacity. by apply computes_scbytes.
Qed.
Lemma bytes_pop_adds : adds OBytes (vec_spec VPopBack hb) (bytes_pop xdr_error b).
Proof.
  apply adds_bytes, computes_clone. simpl. destruct hb as [|c l] eqn:Hhb; [by apply computes_fail; left|].
  apply computes_scbytes; [|done]. unfold vec_fits in *. rewrite removelast_firstn_len, length_take. lia.
Qed.
Lemma bytes_append_adds b2 l : target os b2 = Some (OBytes l) → vec_fits l →
  adds OBytes (vec_spec (VAppend l) hb) (bytes_append xdr_error b b2).
Proof.
  intros Hb2 Hl. apply adds_scbytes; [|simpl; unfold bounded; intros r; case_decide; by intros [= <-]].
  apply (computes_bytes b hb); [done|]. apply (computes_bytes b2 l); [done|]. simpl.
  apply computes_sum; [done|exact Hl|by rewrite length_app|].
  intros Hr len. apply computes_capacity. by apply returns_ret.
Qed.
Lemma bytes_slice_adds i j : 0 <= i → 0 <= j →
  adds OBytes (vec_spec (VSlice (Z.to_nat i) (Z.to_nat j)) hb) (bytes_slice xdr_error b i j).
Proof.
  intros Hi Hj. apply adds_scbytes.
  - apply (computes_bytes b hb); [done|]. apply computes_check. unfold valid_range_from_start_end_bound.
    pose proof (check_le i (length hb)) as Hle. pose proof (check_le j (length hb)) as Hle'.
    destruct (validate_index_le_bound i _) as [|e]; [|simpl; destruct Hle as [-> ?]; refused].
    destruct (validate_index_le_bound j _) as [|e]; [|simpl; destruct Hle' as [-> ?]; refused].
    simpl. case_decide; [refused|]. simpl. unfold slice_get. rewrite decide_True by lia.
    apply computes_check. simpl. eapply computes_then; [apply (bulk_returns I E)|]. intros _ _. by apply returns_ret.
  - simpl. intros l. case_decide; [|done]. intros [= <-]. unfold vec_fits in *. rewrite length_take, length_drop. lia.
Qed.

Lemma bytes_function_adds op p : bytes_function b op p →
  match op with VAppend l => vec_fits l | _ => True end → adds OBytes (vec_spec op hb) p.
Proof.
  intros [] Hop; eauto using bytes_put_adds, bytes_insert_adds, bytes_del_adds, bytes_push_adds, bytes_pop_adds,
    bytes_append_adds, bytes_slice_adds.
Qed.
End byte_functions.
End refine.
