(* ===== verification/ObjProps.v ===== *)
(** What code can do with host objects: the table of objects stays well typed, and a
    contract reaches no objects but those it was given, what they hold, and those made
    since. *)
From S2P Require Import Prelude ScVal Budget BudgetThms Metering Search OrdMap Vector Auth Objects Convert LinMem Dispatch ObjCode ObjThms ObjEffects ObjSafe MemSafe CodeSafe ObjRefine.
#[local] Open Scope m_scope.

Section objects.
Context {Small : Type}.
Implicit Types (os : list (HostObject Small)) (o : Object) (t : list Object).

Lemma target_app os l o hot : target os o = Some hot → target (os ++ l) o = Some hot.
Proof. unfold target. case_match; [done|]. apply lookup_app_l_Some. Qed.
Lemma target_new os hot o : Z.of_nat (length os) < HANDLES → new_ref os hot o →
  target (os ++ [hot]) o = Some hot ∧ handle_to_index (get_handle o) = length os.
Proof.
  intros Hlen [Hi _]. destruct (handle_index_ok _ _ _ Hlen Hi) as [Hidx Hrel]. unfold target. rewrite Hrel, Hidx.
  split; [|done]. by apply list_lookup_middle.
Qed.

(** ** Types *)

(** A reference leads to an object of its type. *)
Definition valid os o : Prop := ∃ hot, target os o = Some hot ∧ get_tag o = wrapper hot.

(** Objects hold valid references to earlier objects: no dangling ones, no cycles. *)
Definition objects_wf os : Prop :=
  ∀ i hot o, os !! i = Some hot → VObject o ∈ vals_of hot → valid (take i os) o.

Lemma valid_app os l o : valid os o → valid (os ++ l) o.
Proof. intros (hot & Ht & Hw). exists hot. split; [by apply target_app|done]. Qed.

#[export] Instance typing : Discipline valid objects_wf.
Proof.
  split.
  - apply valid_app.
  - intros os o hot o' Hg _ Ht Hin. unfold target in Ht. case_match; [done|]. rewrite <-(take_drop (handle_to_index (get_handle o)) os).
    apply valid_app. by eapply Hg.
  - intros os hot o _ Hlen Hnew. exists hot. split; [by apply target_new|]. by destruct Hnew.
  - intros os hot Hg Hv i hot' o Hi Hin.
    apply lookup_app_Some in Hi as [Hi|[Hlen Hi]].
    + rewrite take_app_le by (apply lookup_lt_Some in Hi; lia). by eapply Hg.
    + destruct (i - length os)%nat eqn:Hd; [|done]. injection Hi as <-. rewrite take_app_le, take_ge by lia. by apply Hv.
Qed.

(** ** Reach *)

Inductive reach os (root : Object → Prop) : Object → Prop :=
| reach_root o : root o → reach os root o
| reach_held o hot o' : reach os root o → target os o = Some hot → VObject o' ∈ vals_of hot → reach os root o'.

(** A reference to an object made after those of [os]. *)
Definition since os o : Prop := (length os <= handle_to_index (get_handle o))%nat.

Definition confined os (root : Object → Prop) o : Prop := reach os root o ∨ since os o.

Definition held_confined os0 root os : Prop :=
  ∃ l, os = os0 ++ l ∧ ∀ hot o, hot ∈ l → VObject o ∈ vals_of hot → confined os0 root o.

#[export] Instance isolation os0 root : Discipline (λ _, confined os0 root) (held_confined os0 root).
Proof.
  split.
  - done.
  - intros os o hot o' (l & -> & Hl) Ho Ht Hin. unfold target in Ht. case_match; [done|].
    apply lookup_app_Some in Ht as [Ht|[Hlen Ht]].
    + destruct Ho as [Ho|Ho]; [left|unfold since in Ho; apply lookup_lt_Some in Ht; lia].
      eapply reach_held; [done| |done]. unfold target. by case_match.
    + eapply Hl; [by eapply list_elem_of_lookup_2|done].
  - intros os hot o (l & -> & _) Hlen Hnew. right. unfold since. destruct (target_new _ _ _ Hlen Hnew) as [_ ->].
    rewrite length_app. lia.
  - intros os hot (l & -> & Hl) Hv. exists (l ++ [hot]). split; [by rewrite app_assoc|].
    intros hot' o [Hin|Hin]%elem_of_app; [by apply Hl|]. apply list_elem_of_singleton in Hin as ->. apply Hv.
Qed.

Lemma held_confined_refl os root : held_confined os root os.
Proof. exists []. rewrite app_nil_r. split; [done|]. by intros ? ? ?%elem_of_nil. Qed.

Lemma reach_confined os0 root os t o :
  held_confined os0 root os → Forall (confined os0 root) t → reach os (.∈ t) o → confined os0 root o.
Proof.
  intros Hg Ht. rewrite Forall_forall in Ht.
  induction 1 as [o Ho|o hot o' _ IH Htg Hin]; [by apply Ht|]. by apply (ok_held (Discipline := isolation os0 root) os o hot).
Qed.
End objects.

(** * Code *)
Section code.
Context {Small B : Type} `{SmallVals Small, SmallScVals Small, Pieces} `{AsBudget B, DepthLimiter B}.
Context `{WasmiMemory, Payload Small, SmallSymbols Small}.
Context (I : B → Prop) (E D : Error → Prop).
Context `{!Metered B I E} `{!MeteredCalls B I E} `{!LimitsDepth B I D} `{!SmallValsLaws Small}.
#[local] Abbreviation Val := (Val Small) (only parsing).
#[local] Abbreviation HostObject := (HostObject Small) (only parsing).
#[local] Abbreviation Host := (ObjHost Small B) (only parsing).
Context (xdr_error : Error) (validate_byte : Byte.byte → bool) (compare : Val → Val → M Host comparison).
Context (check_env_arg : Val → M Host unit).
Context (load : Hash → Val → M Host (Code Small)) (error_val : Error → Small).
(** What is not modelled leaves the objects and frames alone. *)
Context (Hcmp : ∀ os fs x y, calm I os fs (compare x y) (λ _, True)).
Context (Hcheck : ∀ os fs v, calm I os fs (check_env_arg v) (λ _, True)).
Context (Hload : ∀ os fs id func, calm I os fs (load id func) (λ _, True)).
Implicit Types (h : Host) (t : VmFrame).

#[local] Abbreviation run := (exec_code xdr_error validate_byte compare check_env_arg load error_val) (only parsing).

(** A host whose objects and tables of references are well typed. *)
Definition host_wf h : Prop :=
  objects_wf (objects h) ∧ ∀ t, Some t ∈ frames h → Forall (valid (objects h)) (relative_objects t).

(** C17: code of any contracts keeps the host's objects well typed.  Whatever of the modelled
    functions it imports ([HostFn] on objects, [MemFn] on linear memory; not those on
    storage, authorization, numbers, cryptography and strings), in whatever order and with
    whatever raw values, forged references included, and whatever contracts it calls:
    afterwards every object still holds only references to earlier objects, of the types
    they claim, and so does every frame's table, as long as there are no more objects than
    the 2^31 handles; past them the typing breaks. *)
Theorem code_keeps_types fuel code seen h t rest :
  frames h = Some t :: rest → I (budget h) → host_wf h →
  let h' := (run fuel code seen h).2 in
  Z.of_nat (length (objects h')) <= HANDLES → host_wf h'.
Proof.
  intros Hf Hb [Hwf Ht] h' Hfit.
  destruct (safe_exec_code I E D xdr_error validate_byte compare check_env_arg load error_val Hcmp Hcheck Hload valid objects_wf
    fuel (all_good valid objects_wf (objects h) t) code seen (objects h) t rest id h) as (l & t' & (Ho & Hf' & _) & Hr);
    [done|]. fold h' in Ho, Hf'.
  destruct Hr as [ [Hg Ht'] _]; [by rewrite Ho in Hfit|split; [done|]; apply Ht; rewrite Hf; by left|].
  unfold host_wf. rewrite Ho, Hf'. split; [done|]. intros t2 [[= ->]|Hin]%elem_of_cons; [done|].
  eapply Forall_impl; [apply Ht; rewrite Hf; by right|]. intros o. apply valid_app.
Qed.

(** C18: a contract reaches only what it was given.  Code only adds objects and leaves the
    tables of the frames below alone, and every object that its table leads to afterwards,
    directly or through other objects, was reachable from its table before or has been made
    since. *)
Theorem code_confined fuel code seen h t rest :
  frames h = Some t :: rest → I (budget h) →
  let h' := (run fuel code seen h).2 in
  Z.of_nat (length (objects h')) <= HANDLES →
  (∃ l, objects h' = objects h ++ l) ∧
  ∃ t', frames h' = Some t' :: rest ∧
    ∀ o, reach (objects h') (.∈ relative_objects t') o →
      reach (objects h) (.∈ relative_objects t) o ∨ (length (objects h) <= handle_to_index (get_handle o))%nat.
Proof.
  intros Hf Hb h' Hfit. pose proof (isolation (objects h) (.∈ relative_objects t)) as Hd.
  destruct (safe_exec_code I E D xdr_error validate_byte compare check_env_arg load error_val Hcmp Hcheck Hload
    (λ _, confined (objects h) (.∈ relative_objects t)) (held_confined (objects h) (.∈ relative_objects t))
    fuel True code seen (objects h) t rest) with h as (l & t' & (Ho & Hf' & _) & Hr); [|done|].
  { intros _. split; [apply held_confined_refl|]. apply Forall_forall. intros o Hin. left. by constructor. }
  fold h' in Ho, Hf'. destruct Hr as [ [Hg Ht'] _]; [by rewrite Ho in Hfit|done|].
  split; [by exists l|]. exists t'. split; [done|]. rewrite Ho. intros o. by apply reach_confined.
Qed.

(** C19: a called contract is isolated from its caller's objects: the objects it makes and
    the value it returns hold only references to what its arguments lead to or to objects
    made during the call, and the caller's table is as before, whatever the callee does and
    whomever it calls in turn. *)
Theorem callee_isolated fuel code args h r h' :
  I (budget h) → call_contract_fn (run fuel) code args h = (r, h') →
  Z.of_nat (length (objects h')) <= HANDLES →
  let known o := reach (objects h) (λ o, VObject o ∈ args) o ∨
                 (length (objects h) <= handle_to_index (get_handle o))%nat in
  frames h' = frames h ∧
  (∃ l, objects h' = objects h ++ l ∧ ∀ hot o, hot ∈ l → VObject o ∈ vals_of hot → known o) ∧
  (∀ o, r = Ok (VObject o) → known o).
Proof.
  intros Hb Hrun Hfit known. pose proof (isolation (objects h) (λ o, VObject o ∈ args)) as Hd.
  unfold call_contract_fn in Hrun. apply m_bind_inv in Hrun as [([] & h1 & Hc & Hrun)|(e & Hc & ->)].
  all: destruct (calm_bulk I E (objects h) (frames h) (list Val) Val (Z.of_nat (length args)) h) as [(Ho1 & Hf1 & Hb1) _];
    [done|]; rewrite Hc in Ho1, Hf1, Hb1; simpl in Ho1, Hf1, Hb1.
  2: { split; [done|]. split; [|done]. exists []. rewrite app_nil_r. split; [done|]. by intros ? ? ?%elem_of_nil. }
  unfold with_vm_frame in Hrun.
  destruct (safe_invoke_function_raw I E xdr_error error_val
    (λ _, confined (objects h) (λ o, VObject o ∈ args)) (held_confined (objects h) (λ o, VObject o ∈ args)) (run fuel))
    with True code args (objects h) (mkVmFrame [] (initial_memory code)) (frames h) (mkObjHost (objects h1) (Some (mkVmFrame [] (initial_memory code)) :: frames h1) (budget h1))
    as (l & t' & (Ho & Hf' & _) & Hr).
  { intros. by apply (safe_exec_code I E D). }
  { intros _. split; [apply held_confined_refl|constructor]. }
  { intros _. apply Forall_forall. intros v Hv o ->. left. by constructor. }
  { split_and!; simpl; congruence. }
  destruct (invoke_function_raw _ _ _ _) as [r' h2]. simpl in *. injection Hrun as <- <-. simpl in *.
  destruct Hr as [ [ (l' & Ho' & Hl') _] Hq]; [by rewrite Ho in Hfit|done|]. split; [by rewrite Hf'|]. split.
  - exists l'. split; [by rewrite Ho|]. exact Hl'.
  - intros o ->. by apply Hq.
Qed.
End code.

(** * References *)
Section references.
Context {Small B : Type} `{AsBudget B}.
Implicit Types (h : ObjHost Small B) (v : Val Small) (t : VmFrame).

Lemma charge_keeps_frames ty x h r h' : charge (B:=ObjHost Small B) ty x h = (r, h') → frames h' = frames h.
Proof. unfold charge, ObjHost_as_budget, m_zoom. destruct (charge _ _ _). by intros [= _ <-]. Qed.

Lemma relative_lookup t rest h v :
  frames h = Some t :: rest →
  relative_to_absolute v h = (match v with
    | VSmall s => Ok v
    | VObject o =>
        if is_relative_object_handle (get_handle o) then
          match relative_objects t !! handle_to_index (get_handle o) with
          | Some abs => if decide (get_tag abs = get_tag o) then Ok (VObject abs) else Err (EHost TValue InvalidInput)
          | None => Err (EHost TValue InvalidInput)
          end
        else Err (EHost TValue InvalidInput)
    end, h).
Proof.
  intros Hf. destruct v as [o|s]; simpl; [|done]. case_match; [|done].
  unfold m_bind, with_current_frame_relative_object_table. rewrite Hf. simpl.
  replace (mkObjHost (objects h) (Some (mkVmFrame (relative_objects t) (memory t)) :: rest) (budget h)) with h by (destruct h, t; simpl in *; by subst).
  destruct (relative_objects t !! _) as [abs|]; [|done]. by case_decide.
Qed.

Lemma handed_out t rest h o v h' : frames h = Some t :: rest → Z.of_nat (length (relative_objects t)) < HANDLES →
  absolute_to_relative (VObject o) h = (Ok v, h') →
  frames h' = Some (mkVmFrame (relative_objects t ++ [o]) (memory t)) :: rest ∧
  ∃ hd, v = VObject (mkObject (get_tag o) hd) ∧ handle_to_index hd = length (relative_objects t) ∧ is_relative_object_handle hd = true ∧
    0 <= hd <= u32_max.
Proof.
  intros Hf Hlen. simpl. case_match; [done|]. intros Hrun.
  apply m_bind_inv in Hrun as [([] & h1 & Hc & Hrun)|(e & _ & ?)]; [|done]. apply charge_keeps_frames in Hc.
  unfold m_bind, with_current_frame_relative_object_table in Hrun. rewrite Hc, Hf in Hrun. simpl in Hrun.
  unfold m_lift in Hrun. destruct (index_to_handle (length (relative_objects t)) true) as [hd|] eqn:Hi; [|done].
  injection Hrun as <- <-. destruct (handle_index_ok _ _ _ Hlen Hi). split; [done|]. exists hd.
  split_and!; [done..| |]; rewrite index_to_handle_ok in Hi by done; injection Hi as <-; unfold HANDLES, u32_max in *; lia.
Qed.
End references.

(** C20: a reference handed to code and taken back is the same reference, those handed out
    before keep their meaning, and code cannot forge any: what it passes to the host is a
    relative reference to an entry of its own frame's table, of the type it claims. *)
Theorem relative_references {Small B} `{AsBudget B} (h : ObjHost Small B) t rest :
  frames h = Some t :: rest → Z.of_nat (length (relative_objects t)) < HANDLES →
  (∀ o v h', absolute_to_relative (VObject o) h = (Ok v, h') →
     relative_to_absolute v h' = (Ok (VObject o), h') ∧
     ∀ w a, relative_to_absolute w h = (Ok a, h) → relative_to_absolute w h' = (Ok a, h')) ∧
  (∀ o a h', relative_to_absolute (VObject o) h = (Ok a, h') →
     h' = h ∧ is_relative_object_handle (get_handle o) = true ∧
     ∃ abs, a = VObject abs ∧ relative_objects t !! handle_to_index (get_handle o) = Some abs ∧ get_tag abs = get_tag o).
Proof.
  intros Hf Hlen. split.
  - intros o v h' Hrun. destruct (handed_out t rest h o v h' Hf Hlen Hrun) as (Hf' & hd & -> & Hidx & Hrel & _).
    split.
    + rewrite (relative_lookup _ _ _ _ Hf'). simpl. rewrite Hrel, Hidx, list_lookup_middle by done. by rewrite decide_True.
    + intros w a. rewrite (relative_lookup _ _ _ _ Hf), (relative_lookup _ _ _ _ Hf'). destruct w as [ow|s]; [|by intros [= <-]].
      destruct (is_relative_object_handle (get_handle ow)); [|done]. destruct (relative_objects t !! _) as [abs|] eqn:Ht; [|done].
      simpl. rewrite (lookup_app_l_Some _ _ _ _ Ht). case_decide; by intros [= <-].
  - intros o a h'. rewrite (relative_lookup _ _ _ _ Hf). destruct (is_relative_object_handle _); [|done].
    destruct (relative_objects t !! _) as [abs|]; [|done]. case_decide; [|done]. intros [= <- <-]. eauto 10.
Qed.

(** C21: the functions on vectors and on bytes build what one specification on lists says:
    each adds one object with the new list and returns the reference to it, or fails with
    nothing changed where the specification has no result or metering refuses. *)
Theorem object_functions_refine {Small B} `{SmallVals Small} `{AsBudget B} (I : B → Prop) (E : Error → Prop)
    `{!Metered B I E} `{!MeteredCalls B I E} xdr_error (os : list (HostObject Small)) fs :
  Z.of_nat (length os) < HANDLES →
  (∀ v hv op p, target os v = Some (OVec hv) → Z.of_nat (length hv) <= u32_max →
     vec_function os v op p → adds I E os fs OVec (vec_spec op hv) p) ∧
  (∀ b hb op p, target os b = Some (OBytes hb) → Z.of_nat (length hb) <= u32_max →
     bytes_function xdr_error os b op p → (∀ l, op = VAppend l → Z.of_nat (length l) <= u32_max) →
     adds I E os fs OBytes (vec_spec op hb) p).
Proof.
  intros Hlen. split.
  - intros v hv op p Hv Hfit Hp. by eapply vec_function_adds.
  - intros b hb op p Hb Hfit Hp Hop. eapply bytes_function_adds; [done..|]. destruct op; try done. by apply Hop.
Qed.

(** Each index below 2^31 has a handle of its own, but the check of the shift does not see
    a lost bit: the handle of 2^31 is that of 0. *)
Theorem handle_bounds :
  (∀ i rel, Z.of_nat i < HANDLES →
     ∃ hd, index_to_handle i rel = Ok hd ∧ handle_to_index hd = i ∧ is_relative_object_handle hd = rel) ∧
  (∀ i rel, Z.of_nat i = HANDLES → index_to_handle i rel = index_to_handle 0 rel) ∧
  (∀ i rel, u32_max < Z.of_nat i → index_to_handle i rel = Err ARITH_OVERFLOW).
Proof.
  split_and!.
  - intros i rel Hi. eexists. split; [by apply index_to_handle_ok|]. eapply handle_index_ok; [done|]. by apply index_to_handle_ok.
  - intros i rel Hi. unfold index_to_handle. by rewrite Hi.
  - intros i rel Hi. unfold index_to_handle. by rewrite decide_False by lia.
Qed.
