(* ===== verification/MemThms.v ===== *)
(** What the functions on linear memory compute: bytes to and from memory, words to and
    from memory.
    The properties: what the host writes where, and what goes out comes back. *)
From S2P Require Import Prelude ScVal Budget BudgetThms Metering Search OrdMap Vector Objects Convert LinMem Dispatch ObjCode ObjThms ObjEffects ObjSafe MemSafe MemWrites ObjRefine ObjProps.
#[local] Open Scope m_scope.

(** ** Words *)

Lemma u32_of_byte_of n : u32_of_byte (byte_of n) = n mod 256.
Proof.
  unfold byte_of, u32_of_byte. pose proof (Z.mod_pos_bound n 256 ltac:(lia)) as Hn.
  destruct (Byte.of_N (Z.to_N (n mod 256))) as [b|] eqn:Hb.
  - apply Byte.to_of_N in Hb. rewrite Hb. lia.
  - apply Byte.of_N_None_iff in Hb. lia.
Qed.
Lemma le_bytes_round_trip k n : 0 <= n < 256 ^ Z.of_nat k → from_le_bytes (to_le_bytes k n) = n.
Proof.
  revert n. induction k as [|k IH]; intros n Hn; cbn [to_le_bytes from_le_bytes]; [change (256 ^ Z.of_nat 0) with 1 in Hn; lia|].
  rewrite u32_of_byte_of, IH; [pose proof (Z.div_mod n 256); lia|].
  rewrite Nat2Z.inj_succ, Z.pow_succ_r in Hn by lia. split; [apply Z.div_pos; lia|]. apply Z.div_lt_upper_bound; lia.
Qed.

Lemma splice_app m pos a b : (pos + length a + length b <= length m)%nat →
  splice (splice m pos a) (pos + length a) b = splice m pos (a ++ b).
Proof.
  intros Hle. apply list_eq. intros i.
  assert (length (splice m pos a) = length m) as Hl by (apply length_splice; lia).
  destruct (decide (i < pos + length a)%nat) as [Hi|Hi].
  - rewrite lookup_splice_other by (rewrite ?Hl; lia). unfold splice. destruct (decide (i < pos)%nat).
    + rewrite !(lookup_app_l (take pos m)) by (rewrite length_take; lia). done.
    + rewrite !(lookup_app_r (take pos m)) by (rewrite length_take; lia). rewrite length_take, <-!app_assoc.
      rewrite !(lookup_app_l a) by lia. done.
  - unfold splice at 1. rewrite lookup_app_r by (rewrite length_take; lia). rewrite length_take, Hl.
    unfold splice at 2. rewrite (lookup_app_r (take pos m)) by (rewrite length_take; lia). rewrite length_take, <-app_assoc.
    rewrite (lookup_app_r a) by lia. replace (i - pos `min` length m - length a)%nat with (i - (pos + length a) `min` length m)%nat by lia.
    destruct (decide (i < pos + length a + length b)%nat).
    + by rewrite !lookup_app_l by lia.
    + rewrite !(lookup_app_r b) by lia. rewrite !lookup_drop. rewrite lookup_splice_other by lia. f_equal.
      rewrite length_app. lia.
Qed.

Section spec.
Context {Small B : Type} `{SmallVals Small, SmallScVals Small, Pieces} `{AsBudget B, DepthLimiter B}.
Context `{WasmiMemory, Payload Small, SmallSymbols Small, !WasmiMemoryLaws}.
Context (I : B → Prop) (E : Error → Prop).
Context `{!Metered B I E} `{!MeteredCalls B I E}.
#[local] Abbreviation Val := (Val Small) (only parsing).
#[local] Abbreviation HostObject := (HostObject Small) (only parsing).
#[local] Abbreviation Host := (ObjHost Small B) (only parsing).
Implicit Types (os : list HostObject) (t : VmFrame) (rest : list (option VmFrame)) (v : Val) (h : Host).

Lemma get_memory_returns os t rest m F : memory t = Some m → returns (frozen I os (Some t :: rest)) get_memory (eq m) F.
Proof. intros Hm h Hh. unfold get_memory. pose proof Hh as (_ & -> & _). by rewrite Hm. Qed.

(** ** Slabs *)

(** Objects that are bytes: what is put in comes out. *)
Definition slab (HOT : MemHostObjectType) : Prop :=
  (∀ b, try_extract HOT (inject HOT b : HostObject) = Some b) ∧ ∀ b b', try_from_bytes (Small:=Small) HOT b = Ok b' → b' = b.

Definition with_memory t m : VmFrame := mkVmFrame (relative_objects t) (Some m).

(** The part of an object from [pos] on, [len] bytes. *)
Definition part (b : bytes) (pos len : Z) : bytes := take (Z.to_nat len) (drop (Z.to_nat pos) b).

Lemma charge_result os t rest ty x h : takes_input ty = true → 0 <= x → frozen I os (Some t :: rest) h →
  match charge ty (Some x) h with
  | (Ok _, h') => frozen I os (Some t :: rest) h'
  | (Err e, h') => frozen I os (Some t :: rest) h' ∧ E e
  end.
Proof.
  intros Hty Hx Hh. pose proof (charge_returns (I:=frozen I os (Some t :: rest)) (E:=E) ty x Hty Hx h Hh) as [Hh' Hr].
  by destruct (charge ty (Some x) h) as [[]].
Qed.

Lemma write_bytes_spec os t rest h m lm_pos buf : frozen I os (Some t :: rest) h → memory t = Some m → 0 <= lm_pos →
  match metered_vm_write_bytes_to_linear_memory lm_pos buf h with
  | (Ok _, h') => (Z.to_nat lm_pos + length buf <= length m)%nat ∧ frozen I os (Some (with_memory t (splice m (Z.to_nat lm_pos) buf)) :: rest) h'
  | (Err e, h') => frozen I os (Some t :: rest) h' ∧ (E e ∨ (length m < Z.to_nat lm_pos + length buf)%nat)
  end.
Proof.
  intros Hh Hm Hpos. unfold metered_vm_write_bytes_to_linear_memory. unfold m_bind at 1.
  pose proof (charge_result os t rest MemCpy (Z.of_nat (length buf)) h eq_refl ltac:(lia) Hh) as Hc.
  destruct (charge _ _ h) as [[[]|e] h1]; [|destruct Hc; auto]. destruct Hc as (Ho & Hf & Hb).
  unfold m_bind, get_memory. rewrite Hf, Hm. unfold m_lift.
  destruct (decide (Z.to_nat lm_pos + length buf <= length m)%nat) as [Hle|Hle].
  - rewrite mem_write_in by done. unfold put_memory, m_modify. rewrite Hf. done.
  - destruct (mem_write_out m (Z.to_nat lm_pos) buf) as [e ->]; [lia|]. split; [done|]. right. lia.
Qed.
Lemma read_bytes_spec os t rest h m lm_pos len : frozen I os (Some t :: rest) h → memory t = Some m → 0 <= lm_pos →
  match metered_vm_read_bytes_from_linear_memory lm_pos len h with
  | (Ok b, h') => (Z.to_nat lm_pos + len <= length m)%nat ∧ b = take len (drop (Z.to_nat lm_pos) m) ∧ frozen I os (Some t :: rest) h'
  | (Err e, h') => frozen I os (Some t :: rest) h' ∧ (E e ∨ (length m < Z.to_nat lm_pos + len)%nat)
  end.
Proof.
  intros Hh Hm Hpos. unfold metered_vm_read_bytes_from_linear_memory. unfold m_bind at 1.
  pose proof (charge_result os t rest MemCpy (Z.of_nat len) h eq_refl ltac:(lia) Hh) as Hc.
  destruct (charge _ _ h) as [[[]|e] h1]; [|destruct Hc; auto]. pose proof Hc as (Ho & Hf & Hb).
  unfold m_bind, get_memory. rewrite Hf, Hm. unfold m_lift.
  destruct (decide (Z.to_nat lm_pos + len <= length m)%nat) as [Hle|Hle].
  - by rewrite mem_read_in.
  - destruct (mem_read_out m (Z.to_nat lm_pos) len) as [e ->]; [lia|]. split; [done|]. right. lia.
Qed.

Lemma visit_case os t rest h {T A} (ex : HostObject → option T) o (f : T → M Host A) hot x (R : Result A * Host → Prop) :
  frozen I os (Some t :: rest) h → target os o = Some hot → ex hot = Some x →
  (∀ e h', frozen I os (Some t :: rest) h' → E e → R (Err e, h')) →
  (∀ h', frozen I os (Some t :: rest) h' → R (f x h')) → R (visit_obj ex o f h).
Proof.
  intros Hh Ht Hex HE Hf. unfold visit_obj, visit_obj_untyped. unfold m_bind at 1.
  pose proof (charge_call_returns (B:=Host) (I:=frozen I os (Some t :: rest)) (E:=E) VisitObject eq_refl h Hh) as [Hh' Hr].
  destruct (charge _ _ h) as [[[]|e] h1]; simpl in *; [|by apply HE]. unfold m_bind, m_get.
  pose proof Hh' as (Ho & _). rewrite Ho. unfold target in Ht. case_match; [done|]. rewrite Ht, Hex. by apply Hf.
Qed.
Lemma mem_here os t rest h : frozen I os (Some t :: rest) h → get_mem_fn_args h = (Ok tt, h).
Proof. intros (_ & Hf & _). unfold get_mem_fn_args. by rewrite Hf. Qed.

(** The bytes of an object that the arguments name. *)
Lemma object_part (b : bytes) obj_pos len : 0 <= obj_pos → 0 <= len → Z.of_nat (length b) <= u32_max →
  match (stop ← ok_or (u32_checked_add obj_pos len) ARITH_OVERFLOW; ok_or (slice_get b (Z.to_nat obj_pos) (Z.to_nat stop)) OBJECT_OOB) with
  | Ok buf => buf = part b obj_pos len ∧ length buf = Z.to_nat len ∧ obj_pos + len <= Z.of_nat (length b)
  | Err e => Z.of_nat (length b) < obj_pos + len
  end.
Proof.
  intros Hpos Hlen Hb. unfold u32_checked_add. case_decide; simpl; [|lia]. unfold slice_get. case_decide; simpl; [|lia].
  replace (Z.to_nat (obj_pos + len) - Z.to_nat obj_pos)%nat with (Z.to_nat len) by lia.
  split_and!; [done| |lia]. rewrite length_take, length_drop. lia.
Qed.

Lemma copy_to_spec HOT o hot b obj_pos lm_pos len os t rest h m :
  frozen I os (Some t :: rest) h → memory t = Some m → target os o = Some hot → try_extract HOT hot = Some b →
  0 <= obj_pos → 0 <= lm_pos → 0 <= len → Z.of_nat (length b) <= u32_max →
  match memobj_copy_to_linear_memory HOT o obj_pos lm_pos len h with
  | (Ok _, h') => obj_pos + len <= Z.of_nat (length b) ∧ (Z.to_nat lm_pos + Z.to_nat len <= length m)%nat ∧
      frozen I os (Some (with_memory t (splice m (Z.to_nat lm_pos) (part b obj_pos len))) :: rest) h'
  | (Err e, h') => frozen I os (Some t :: rest) h' ∧
      (E e ∨ Z.of_nat (length b) < obj_pos + len ∨ (length m < Z.to_nat lm_pos + Z.to_nat len)%nat)
  end.
Proof.
  intros Hh Hm Ht Hex Hpos Hlm Hlen Hb. unfold memobj_copy_to_linear_memory, m_bind at 1. rewrite (mem_here _ _ _ _ Hh).
  unfold memobj_visit_and_copy_bytes_out.
  eapply (visit_case os t rest h _ _ _ _ _ (λ rh, match rh with (Ok _, h') => _ | (Err e, h') => _ end)); [done..| |].
  { intros e h' Hh' He. split; [done|by left]. }
  intros h1 Hh1. pose proof (object_part b obj_pos len Hpos Hlen Hb) as Hp. unfold m_bind, m_lift.
  destruct (ok_or (u32_checked_add obj_pos len) _) as [stop|e]; simpl in Hp; [|split; [done|]; right; by left].
  destruct (ok_or (slice_get b _ _) _) as [buf|e]; [|split; [done|]; right; by left].
  destruct Hp as (-> & Hl & Hle). pose proof (write_bytes_spec os t rest h1 m lm_pos (part b obj_pos len) Hh1 Hm Hlm) as Hw.
  destruct (metered_vm_write_bytes_to_linear_memory _ _ h1) as [[[]|e] h2]; rewrite Hl in Hw.
  - by destruct Hw.
  - destruct Hw as [? [|]]; auto.
Qed.

Lemma add_result os t rest hot h : frozen I os (Some t :: rest) h →
  match add_host_object hot h with
  | (Ok o, h') => new_ref os hot o ∧ frozen I (os ++ [hot]) (Some t :: rest) h'
  | (Err e, h') => frozen I os (Some t :: rest) h' ∧ (E e ∨ e = ARITH_OVERFLOW)
  end.
Proof.
  intros Hh. pose proof (add_creates I E os (Some t :: rest) hot (eq hot) (λ e, E e ∨ e = ARITH_OVERFLOW)) as Hadd.
  specialize (Hadd ltac:(by left) ltac:(by right) eq_refl h Hh).
  destruct (add_host_object hot h) as [[o|e] h']; [|naive_solver]. by destruct Hadd as (? & <- & ? & ?).
Qed.

Lemma new_from_spec HOT lm_pos len os t rest h m :
  frozen I os (Some t :: rest) h → memory t = Some m → 0 <= lm_pos → 0 <= len →
  match memobj_new_from_linear_memory HOT lm_pos len h with
  | (Ok o, h') => (Z.to_nat lm_pos + Z.to_nat len <= length m)%nat ∧ ∃ b, try_from_bytes HOT (part m lm_pos len) = Ok b ∧
      new_ref os (inject HOT b) o ∧ frozen I (os ++ [inject HOT b]) (Some t :: rest) h'
  | (Err e, h') => frozen I os (Some t :: rest) h' ∧
      (E e ∨ e = ARITH_OVERFLOW ∨ (length m < Z.to_nat lm_pos + Z.to_nat len)%nat ∨
       try_from_bytes (Small:=Small) HOT (part m lm_pos len) = Err e)
  end.
Proof.
  intros Hh Hm Hlm Hlen. unfold memobj_new_from_linear_memory, m_bind at 1. rewrite (mem_here _ _ _ _ Hh).
  unfold m_bind at 1. pose proof (charge_result os t rest MemAlloc len h eq_refl Hlen Hh) as Hc.
  destruct (charge _ _ h) as [[[]|e] h1]; [|destruct Hc; auto]. unfold m_bind at 1.
  pose proof (read_bytes_spec os t rest h1 m lm_pos (Z.to_nat len) Hc Hm Hlm) as Hr.
  destruct (metered_vm_read_bytes_from_linear_memory _ _ h1) as [[b|e] h2]; [|destruct Hr as [? []]; auto].
  destruct Hr as (Hle & -> & Hh2). unfold m_bind, m_lift. fold (part m lm_pos len).
  destruct (try_from_bytes HOT (part m lm_pos len)) as [b|e] eqn:Hb; [|auto 6].
  pose proof (add_result os t rest (inject HOT b) h2 Hh2) as Ha.
  destruct (add_host_object _ h2) as [[o|e] h3]; [|destruct Ha as [? []]; auto]. split; [done|]. by exists b.
Qed.
End spec.

(** ** Values as words *)

Definition word_ok {Small} `{Payload Small} (w : Val Small) : Prop :=
  from_payload (get_payload w) = w ∧ 0 <= get_payload w < 2 ^ 64.
(** References, and the small values that fit, are words. *)
Class PayloadLaws (Small : Type) `{Payload Small} (fit : Small → Prop) : Prop := {
  payload_object o : 0 <= get_handle o <= u32_max → word_ok (VObject (Small:=Small) o);
  payload_small s : fit s → word_ok (VSmall s)
}.

Section words.
Context {Small B : Type} `{SmallVals Small, SmallScVals Small, Pieces} `{AsBudget B, DepthLimiter B}.
Context `{WasmiMemory, Payload Small, SmallSymbols Small, !WasmiMemoryLaws}.
Context (I : B → Prop) (E : Error → Prop) (fit : Small → Prop).
Context `{!Metered B I E} `{!MeteredCalls B I E} `{!PayloadLaws Small fit}.
#[local] Abbreviation Val := (Val Small) (only parsing).
#[local] Abbreviation HostObject := (HostObject Small) (only parsing).
#[local] Abbreviation Host := (ObjHost Small B) (only parsing).
Implicit Types (os : list HostObject) (t : VmFrame) (rest : list (option VmFrame)) (v w : Val) (h : Host).

(** What a value of the code stands for, by its frame's table. *)
Definition resolves (table : list Object) w v : Prop :=
  ∀ h t rest, frames h = Some t :: rest → relative_objects t = table → relative_to_absolute w h = (Ok v, h).

Lemma resolves_app table l w v : resolves table w v → resolves (table ++ l) w v.
Proof.
  intros Hw h t rest Hf Ht.
  specialize (Hw (mkObjHost (objects h) (Some (mkVmFrame table None) :: rest) (budget h)) (mkVmFrame table None) rest eq_refl eq_refl).
  rewrite (relative_lookup (mkVmFrame table None) rest) in Hw by done. rewrite (relative_lookup t rest) by done. rewrite Ht.
  simpl in Hw. destruct w as [o|s]; [|by simplify_eq]. destruct (is_relative_object_handle _); [|done].
  destruct (table !! _) as [abs|] eqn:Ha; [|done]. rewrite (lookup_app_l_Some _ _ _ _ Ha). by case_decide; simplify_eq.
Qed.

Lemma hand_out os t rest h v w h' :
  frozen I os (Some t :: rest) h → Z.of_nat (length (relative_objects t)) < HANDLES → (∀ s, v = VSmall s → fit s) →
  absolute_to_relative v h = (Ok w, h') →
  ∃ l, (length l <= 1)%nat ∧ frozen I os (Some (mkVmFrame (relative_objects t ++ l) (memory t)) :: rest) h' ∧
    resolves (relative_objects t ++ l) w v ∧ word_ok w.
Proof.
  intros Hh Hlen Hfit Hrun. destruct v as [o|s].
  - pose proof Hh as (_ & Hf & _). destruct (handed_out t rest h o w h' Hf Hlen Hrun) as (Hf' & hd & -> & Hidx & Hrel & Hhd).
    exists [o]. split; [done|]. split_and!.
    + simpl in Hrun. case_match; [done|]. unfold m_bind at 1 in Hrun.
      destruct (charge_heap_alloc_returns (frozen I os (Some t :: rest)) E Object 1 h Hh) as [Hh1 _].
      destruct (charge_heap_alloc Object 1 h) as [[u|e] h1]; [|done]. destruct Hh1 as (Ho & Hf1 & Hb).
      unfold m_bind, with_current_frame_relative_object_table in Hrun. simpl in Ho, Hf1, Hb. rewrite Hf1 in Hrun. simpl in Hrun.
      unfold m_lift in Hrun. destruct (index_to_handle _ _); [|done]. by injection Hrun as _ <-.
    + intros h2 t2 rest2 Hf2 Ht2. rewrite (relative_lookup t2 rest2) by done. simpl.
      rewrite Hrel, Hidx, Ht2, list_lookup_middle by done. by rewrite decide_True.
    + by apply payload_object.
  - injection Hrun as <- <-. exists []. rewrite app_nil_r. split_and!; [simpl; lia|by destruct t| |by apply payload_small, Hfit].
    by intros h2 t2 rest2 _ _.
Qed.

(** A word in memory for a value. *)
Definition word_for (table : list Object) (n : Z) v : Prop := ∃ w, n = get_payload w ∧ word_ok w ∧ resolves table w v.
Definition word_bytes (ns : list Z) : bytes := concat (to_le_bytes VAL_SZ <$> ns).
Lemma length_word_bytes ns : length (word_bytes ns) = (VAL_SZ * length ns)%nat.
Proof.
  unfold word_bytes. induction ns as [|n ns IH]; [done|]. rewrite fmap_cons. cbn [concat]. rewrite length_app, IH, length_le_bytes.
  simpl length. unfold VAL_SZ. lia.
Qed.

Lemma write_words_spec os rest vals : ∀ pos h t m h',
  frozen I os (Some t :: rest) h → memory t = Some m → (pos + VAL_SZ * length vals <= length m)%nat →
  Z.of_nat (length (relative_objects t) + length vals) <= HANDLES → (∀ s, VSmall s ∈ vals → fit s) →
  write_words write_val pos vals h = (Ok tt, h') →
  ∃ l ns, Forall2 (word_for (relative_objects t ++ l)) ns vals ∧
    frozen I os (Some (mkVmFrame (relative_objects t ++ l) (Some (splice m pos (word_bytes ns)))) :: rest) h'.
Proof.
  induction vals as [|v vals IH]; intros pos h t m h' Hh Hm Hle Hlen Hfit Hrun.
  { injection Hrun as <-. exists [], []. split; [constructor|]. rewrite app_nil_r. unfold splice. simpl.
    rewrite Nat.add_0_r, take_drop. destruct t; simpl in *. by subst. }
  cbn [write_words length] in *. apply m_bind_inv in Hrun as [(n & h1 & Hn & Hrun)|(? & _ & ?)]; [|done].
  unfold write_val in Hn. apply m_bind_inv in Hn as [(w & h1' & Hw & Hn)|(? & _ & ?)]; [|done]. injection Hn as <- <-.
  destruct (hand_out os t rest h v w h1' Hh) as (l & Hl & Hh1 & Hres & Hok); [lia|intros s ->; apply Hfit; by left|done|].
  unfold m_bind at 1 in Hrun. pose proof Hh1 as (Ho1 & Hf1 & Hb1). unfold get_memory in Hrun. rewrite Hf1 in Hrun. simpl in Hrun.
  rewrite Hm in Hrun. unfold m_bind, put_memory, m_modify in Hrun. rewrite Hf1 in Hrun. simpl in Hrun.
  set (m1 := splice m pos (to_le_bytes VAL_SZ (get_payload w))) in *.
  assert (length m1 = length m) as Hm1 by (apply length_splice; rewrite length_le_bytes; unfold VAL_SZ in *; lia).
  destruct (IH (pos + VAL_SZ)%nat (mkObjHost (objects h1') (Some (mkVmFrame (relative_objects t ++ l) (Some m1)) :: rest) (budget h1'))
    (mkVmFrame (relative_objects t ++ l) (Some m1)) m1 h') as (l2 & ns & Hns & Hh2);
    [|done| | | |exact Hrun|].
  { by split_and!. } { rewrite Hm1. unfold VAL_SZ in *. lia. } { simpl. rewrite length_app. lia. }
  { intros s Hs. apply Hfit. by right. }
  exists (l ++ l2), (get_payload w :: ns). simpl in Hns, Hh2. rewrite !app_assoc. split.
  - constructor; [|exact Hns]. exists w. split; [done|]. split; [done|]. by apply resolves_app.
  - replace (splice m pos (word_bytes (get_payload w :: ns))) with (splice m1 (pos + VAL_SZ) (word_bytes ns)); [exact Hh2|].
    unfold m1. replace (pos + VAL_SZ)%nat with (pos + length (to_le_bytes VAL_SZ (get_payload w)))%nat by (by rewrite length_le_bytes).
    rewrite splice_app; [done|]. rewrite length_le_bytes, length_word_bytes. apply Forall2_length in Hns. unfold VAL_SZ in *. lia.
Qed.

Lemma read_words_spec table ns vals mem h t rest :
  Forall2 (word_for table) ns vals → frames h = Some t :: rest → relative_objects t = table →
  read_words read_val (length ns) (word_bytes ns ++ mem) h = (Ok vals, h).
Proof.
  intros Hns Hf Ht. induction Hns as [|n v ns vals (w & -> & [Hw1 Hw2] & Hres) _ IH]; [done|].
  cbn [read_words length]. unfold word_bytes. rewrite fmap_cons. cbn [concat]. fold (word_bytes ns). rewrite <-app_assoc.
  rewrite take_app_length', drop_app_length' by (by rewrite length_le_bytes).
  rewrite le_bytes_round_trip by done. unfold read_val at 1. rewrite Hw1.
  unfold m_bind at 1. rewrite (Hres h t rest Hf Ht). unfold m_bind. by rewrite IH.
Qed.

(** What unpacking leaves in memory. *)
Lemma unpacked (o : Object) vals vals_pos len os t rest h h1 m :
  frozen I os (Some t :: rest) h → memory t = Some m → target os o = Some (OVec vals) →
  Z.of_nat (length (relative_objects t) + length vals) <= HANDLES → (∀ s, VSmall s ∈ vals → fit s) →
  0 <= vals_pos → 0 <= len → vec_unpack_to_linear_memory o vals_pos len h = (Ok tt, h1) →
  ∃ t1 m1 tail ns, length ns = Z.to_nat len ∧ word_range vals_pos (Z.to_nat len) = Ok (vals_pos + 8 * len, 8 * len) ∧
    frozen I os (Some t1 :: rest) h1 ∧ memory t1 = Some m1 ∧ Forall2 (word_for (relative_objects t1)) ns vals ∧
    drop (Z.to_nat vals_pos) m1 = word_bytes ns ++ tail ∧ vals_pos + 8 * len <= Z.of_nat (length m1).
Proof.
  intros Hh Hm Ht Htab Hfit Hpos Hl. unfold vec_unpack_to_linear_memory, m_bind at 1. rewrite (mem_here I _ _ _ _ Hh).
  unfold visit_vec.
  eapply (visit_case I E os t rest h _ _ _ _ _ (λ rh, rh = (Ok tt, h1) → _)); [done..|by intros|]. clear h Hh. intros h Hh.
  case_decide as Hlen; [|done]. intros Hrun.
  apply m_bind_inv in Hrun as [([] & h2 & Hc & Hrun)|(? & _ & ?)]; [|done].
  destruct (calm_words I E os (Some t :: rest) len Hl h Hh) as [Hh2 _]. rewrite Hc in Hh2. simpl in Hh2. clear Hc Hh.
  unfold metered_vm_write_vals_to_linear_memory, m_bind at 1, m_lift in Hrun.
  destruct (word_range vals_pos (length vals)) as [range|] eqn:Hr; [|done].
  assert (range = (vals_pos + 8 * len, 8 * len)) as ->.
  { unfold word_range, usize_to_u32, u32_checked_mul, u32_checked_add in Hr. case_decide; [|done]. simpl in Hr.
    case_decide; [|done]. simpl in Hr. case_decide; [|done]. injection Hr as <-. rewrite Hlen. unfold VAL_SZ. f_equal; lia. }
  unfold m_bind at 1, get_memory in Hrun. pose proof Hh2 as (_ & Hf2 & _). rewrite Hf2, Hm in Hrun. simpl in Hrun.
  case_decide as Hend; [|done]. apply m_bind_inv in Hrun as [([] & h3 & Hc & Hrun)|(? & _ & ?)]; [|done].
  pose proof (charge_result I E os t rest MemCpy (8 * len) h2 eq_refl ltac:(lia) Hh2) as Hh3. rewrite Hc in Hh3.
  assert (Z.to_nat vals_pos + VAL_SZ * length vals <= length m)%nat as Hroom by (unfold VAL_SZ; lia).
  destruct (write_words_spec os rest vals (Z.to_nat vals_pos) h3 t m h1 Hh3 Hm Hroom Htab Hfit Hrun) as (l & ns & Hns & Hh1).
  apply Forall2_length in Hns as Hln.
  eexists _, _, _, ns. split; [lia|]. rewrite <-Hlen. split; [exact Hr|]. split; [exact Hh1|]. split; [done|]. split; [done|].
  split; [unfold splice; rewrite drop_app_length' by (rewrite length_take; lia); done|].
  rewrite length_splice; [done|]. rewrite length_word_bytes. unfold VAL_SZ in *. lia.
Qed.

(** Reading the words back. *)
Lemma packed (F : Error → Prop) (check_env_arg : Val → M Host unit) :
  (∀ os fs v, returns (frozen I os fs) (check_env_arg v) (λ _, True) F) →
  ∀ os t rest m vals_pos len ns vals tail,
  memory t = Some m → 0 <= vals_pos → 0 <= len → length ns = Z.to_nat len →
  word_range vals_pos (Z.to_nat len) = Ok (vals_pos + 8 * len, 8 * len) →
  Forall2 (word_for (relative_objects t)) ns vals → drop (Z.to_nat vals_pos) m = word_bytes ns ++ tail →
  vals_pos + 8 * len <= Z.of_nat (length m) →
  creates I os (Some t :: rest) (vec_new_from_linear_memory check_env_arg vals_pos len) (eq (OVec vals))
    (λ e, E e ∨ F e ∨ e = ARITH_OVERFLOW).
Proof.
  intros Hcheck os t rest m vals_pos len ns vals tail Hm Hpos Hl Hlen Hr Hns Hdrop Hend.
  set (Fx := λ e, E e ∨ F e ∨ e = ARITH_OVERFLOW). set (fz := frozen I os (Some t :: rest)).
  assert (∀ A (p : M Host A) Q, returns fz p Q E → returns fz p Q Fx) as HE.
  { intros A p Q Hp. eapply returns_weaken; [exact Hp|done|by left]. }
  assert (returns fz (read_vals check_env_arg vals_pos len) (eq vals) Fx) as Hread.
  { unfold read_vals. eapply returns_bind; [apply HE, (bulk_returns I E)|intros _ _].
    eapply returns_bind; [apply HE, (charge_returns (B:=Host)); [done|by apply clamp_bounds]|intros _ _].
    eapply (returns_bind _ _ _ _ (eq vals)).
    - unfold metered_vm_read_vals_from_linear_memory. rewrite Hr.
      eapply (returns_bind _ _ _ _ (eq (vals_pos + 8 * len, 8 * len))); [by apply returns_lift|intros _ <-].
      eapply (returns_bind _ _ _ _ (eq m)); [by apply (get_memory_returns I)|intros _ <-].
      rewrite decide_True by done. eapply returns_bind; [apply HE, (charge_returns (B:=Host)); [done|simpl; lia]|intros _ _].
      intros h Hh. rewrite Hdrop, <-Hlen. pose proof Hh as (_ & Hf & _).
      by rewrite (read_words_spec (relative_objects t) ns vals tail h t rest Hns Hf eq_refl).
    - intros _ <-. eapply (returns_bind _ _ _ _ (λ _, True)); [|intros _ _; by apply returns_ret].
      clear -Hcheck. induction vals as [|v vals IH]; simpl; [by apply returns_ret|].
      eapply returns_bind; [|by intros]. eapply returns_weaken; [apply Hcheck|done|]. intros e He. by right; left. }
  unfold vec_new_from_linear_memory. eapply (bind_creates _ _ _ _ _ (λ _, True)).
  { intros h Hh. rewrite (mem_here I _ _ _ _ Hh). by split. }
  intros _ _. eapply bind_creates; [exact Hread|intros _ <-].
  eapply (bind_creates _ _ _ _ _ (eq vals)).
  { unfold MeteredVector.from_vec. rewrite bool_decide_eq_false_2; [by apply returns_ret|].
    apply Forall2_length in Hns. unfold word_range, usize_to_u32 in Hr. case_decide; [|done]. lia. }
  intros _ <-. apply (add_creates I E); [by left|by right; right|done].
Qed.
End words.

(** * Properties *)

Section properties.
Context {Small B : Type} `{SmallVals Small, SmallScVals Small, Pieces} `{AsBudget B, DepthLimiter B}.
Context `{WasmiMemory, Payload Small, SmallSymbols Small, !WasmiMemoryLaws}.
Context (I : B → Prop) (E D F : Error → Prop) (fit : Small → Prop).
Context `{!Metered B I E} `{!MeteredCalls B I E}.
#[local] Abbreviation Val := (Val Small) (only parsing).
#[local] Abbreviation HostObject := (HostObject Small) (only parsing).
#[local] Abbreviation Host := (ObjHost Small B) (only parsing).
Context (xdr_error : Error) (validate_byte : Byte.byte → bool) (compare : Val → Val → M Host comparison).
Context (check_env_arg : Val → M Host unit).
Context (Hcmp : ∀ os fs x y, calm I os fs (compare x y) (λ _, True)).
(** The check of a value reads only, and fails with an error of [F]. *)
Context (Hcheck : ∀ os fs v, returns (frozen I os fs) (check_env_arg v) (λ _, True) F).
Implicit Types (os : list HostObject) (t : VmFrame) (rest : list (option VmFrame)) (v : Val) (h : Host).

(** C22: a host function on linear memory writes nowhere but in the range that its arguments
    name: the current memory keeps its size and every byte outside of that range, and no
    other frame changes, whether the function succeeds or fails, half-way included. *)
Theorem linear_memory_confined `{!LimitsDepth B I D} `{!SmallValsLaws Small} f args h t rest m :
  I (budget h) → frames h = Some t :: rest → memory t = Some m →
  let h' := (dispatch_mem xdr_error validate_byte compare check_env_arg f args h).2 in
  ∃ t' m', frames h' = Some t' :: rest ∧ memory t' = Some m' ∧ length m' = length m ∧
    ∀ i, ¬ write_range f args i → m' !! i = m !! i.
Proof.
  intros Hb Hf Hm h'.
  destruct (writes_dispatch_mem I E D xdr_error validate_byte compare check_env_arg Hcmp
    ltac:(intros; eapply calm_of; [apply Hcheck|done]) f args (objects h) t rest h) as (os' & t' & (_ & Hf' & _) & Hw & _); [done|].
  rewrite Hm in Hw. destruct (memory t') as [m'|] eqn:Hm'; [|done]. destruct Hw. by exists t', m'.
Qed.

(** What an object's bytes are copied to in memory is exactly the named part of them, and a
    new object made from there holds that part; only metering, the range of the memory, the
    range of the object and running out of handles make either fail, and with the memory as
    it was. *)
Theorem slab_memory_round_trip HOT o hot b obj_pos lm_pos len h t rest m :
  slab (Small:=Small) HOT → I (budget h) → frames h = Some t :: rest → memory t = Some m →
  target (objects h) o = Some hot → try_extract HOT hot = Some b → Z.of_nat (length b) <= u32_max →
  Z.of_nat (length (objects h)) < HANDLES → 0 <= obj_pos → 0 <= lm_pos → 0 <= len →
  match memobj_copy_to_linear_memory HOT o obj_pos lm_pos len h with
  | (Ok _, h1) =>
      obj_pos + len <= Z.of_nat (length b) ∧
      frames h1 = Some (with_memory t (splice m (Z.to_nat lm_pos) (part b obj_pos len))) :: rest ∧
      match memobj_new_from_linear_memory HOT lm_pos len h1 with
      | (Ok o', h2) => target (objects h2) o' = Some (inject HOT (part b obj_pos len)) ∧ frames h2 = frames h1
      | (Err e, h2) => frames h2 = frames h1 ∧
          (E e ∨ e = ARITH_OVERFLOW ∨ try_from_bytes (Small:=Small) HOT (part b obj_pos len) = Err e)
      end
  | (Err e, h1) => frames h1 = frames h ∧
      (E e ∨ Z.of_nat (length b) < obj_pos + len ∨ (length m < Z.to_nat lm_pos + Z.to_nat len)%nat)
  end.
Proof.
  intros [_ Hslab] Hb Hf Hm Ht Hex Hlen Hos Hpos Hlm Hl.
  assert (frozen I (objects h) (Some t :: rest) h) as Hh by done.
  pose proof (copy_to_spec I E HOT o hot b obj_pos lm_pos len _ t rest h m Hh Hm Ht Hex Hpos Hlm Hl Hlen) as Hc.
  destruct (memobj_copy_to_linear_memory _ _ _ _ _ h) as [[[]|e] h1]; [|destruct Hc as [(_ & -> & _) ?]; by rewrite Hf].
  destruct Hc as (Hob & Hmem & Hh1). pose proof Hh1 as (Ho1 & Hf1 & _). split; [done|]. split; [done|].
  assert (length (part b obj_pos len) = Z.to_nat len) as Hp by (unfold part; rewrite length_take, length_drop; lia).
  set (m1 := splice m (Z.to_nat lm_pos) (part b obj_pos len)) in *.
  assert (part m1 lm_pos len = part b obj_pos len) as Hback.
  { unfold part at 1, m1. rewrite <-Hp. apply splice_range. lia. }
  pose proof (new_from_spec I E HOT lm_pos len _ (with_memory t m1) rest h1 m1 Hh1 eq_refl Hlm Hl) as Hn. rewrite Hback in Hn.
  assert (length m1 = length m) as Hm1 by (apply length_splice; lia).
  destruct (memobj_new_from_linear_memory _ _ _ h1) as [[o'|e] h2].
  - destruct Hn as (_ & b' & Hb' & Hnew & (Ho2 & Hf2 & _)). apply Hslab in Hb' as ->. rewrite Ho2, Hf2, Hf1. split; [|done].
    by apply target_new.
  - destruct Hn as ((_ & -> & _) & Hn). rewrite Hf1. split; [done|]. destruct Hn as [|[|[|]]]; auto. lia.
Qed.

(** A vector unpacked to linear memory is read back from there as the same vector, objects
    in it included, although what is in memory are references of the code's own: a new
    vector made from the words holds the same values, unless metering or the check of a
    value refuses or the handles run out. *)
Theorem vector_memory_round_trip `{!PayloadLaws Small fit} (o : Object) vals vals_pos len h h1 t rest m :
  I (budget h) → frames h = Some t :: rest → memory t = Some m → target (objects h) o = Some (OVec vals) →
  Z.of_nat (length (relative_objects t) + length vals) <= HANDLES → Z.of_nat (length (objects h)) < HANDLES →
  (∀ s, VSmall s ∈ vals → fit s) → 0 <= vals_pos → 0 <= len →
  vec_unpack_to_linear_memory o vals_pos len h = (Ok tt, h1) →
  match vec_new_from_linear_memory check_env_arg vals_pos len h1 with
  | (Ok o', h2) => target (objects h2) o' = Some (OVec vals)
  | (Err e, _) => E e ∨ F e ∨ e = ARITH_OVERFLOW
  end.
Proof.
  intros Hb Hf Hm Ht Htab Hos Hfit Hpos Hl Hun.
  assert (frozen I (objects h) (Some t :: rest) h) as Hh by done.
  destruct (unpacked I E fit o vals vals_pos len (objects h) t rest h h1 m Hh Hm Ht Htab Hfit Hpos Hl Hun)
    as (t1 & m1 & tail & ns & Hlen & Hend & Hh1 & Hm1 & Hns & Hdrop & Hroom).
  pose proof (packed I E F check_env_arg Hcheck (objects h) t1 rest m1 vals_pos len ns vals tail Hm1 Hpos Hl Hlen Hend Hns Hdrop Hroom h1 Hh1) as Hp.
  destruct (vec_new_from_linear_memory check_env_arg vals_pos len h1) as [[o'|e] h2]; [|by destruct Hp].
  destruct Hp as (hot & -> & Hnew & (-> & _)). by apply target_new.
Qed.
End properties.
