(* ===== verification/ObjDemo.v ===== *)
(** Host objects at work: small values, a comparison and two contracts, for the witnesses
    of the theorems on host objects. *)
From S2P Require Import Prelude ScVal Budget BudgetThms Metering Search OrdMap Vector Auth Objects Convert LinMem Dispatch ObjCode ObjThms ObjEffects ObjSafe ObjRefine ObjProps.
#[local] Open Scope m_scope.

(** ** Budgets charge calls *)

#[export] Instance BudgetImpl_calls : MeteredCalls BudgetImpl budget_wf (λ e, e = EXCEEDED).
Proof.
  intros ty Hty b Hb. unfold charge, BudgetImpl_as_budget, budget_charge.
  destruct (is_in_shadow_mode b) eqn:Hs.
  - destruct (shadow_charge_wf ty 1 None b Hb Hs) as [? Hr]. split; [done|].
    by destruct (bulk_charge ty 1 None b).1; destruct Hr; simplify_eq.
  - pose proof (bulk_charge_ok (ty, 1, None) b Hb Hs) as Hc. simpl in Hc.
    destruct (bulk_charge ty 1 None b) as [r b']. destruct Hc as (? & _ & _ & _ & ->);
      [done|]. split; [done|]. simpl. by case_bool_decide.
Qed.

Definition depth_error (e : Error) : Prop := e = TOO_DEEP ∨ e = EHost TContext InternalError.
Lemma set_depth_wf d b : budget_wf b → budget_wf (set_depth d b).
Proof. by intros [? ? ?]; split. Qed.
#[export] Instance BudgetImpl_limits : LimitsDepth BudgetImpl budget_wf depth_error.
Proof.
  split; intros b Hb; simpl; unfold enter, leave; case_match; simpl; split; try done; try (by apply set_depth_wf).
  - by left.
  - by right.
Qed.

(** ** Values *)

Inductive toy := TVoid | TU32 (n : Z) | TBool (b : bool) | TError (e : Error).
#[export] Instance toy_small : SmallVals toy := {|
  void := TVoid; u32_val := TU32; bool_val := TBool;
  as_u32 s := match s with TU32 n => if decide (0 <= n <= u32_max) then Some n else None | _ => None end
|}.
#[export] Instance toy_small_laws : SmallValsLaws toy.
Proof. intros [] m; simpl; [done| |done..]. case_decide; [|done]. by intros [= <-]. Qed.

(** Small values and the ledger; wide integers. *)
#[export] Instance toy_scvals : SmallScVals toy := {|
  small_scval s := match s with TVoid => Xdr.Void | TU32 n => Xdr.U32 n | TBool b => Xdr.Bool b | TError _ => Xdr.Error 0%N end;
  classify v := match v with
    | Xdr.Void => ClassSmall TVoid | Xdr.U32 n => ClassSmall (TU32 n) | Xdr.Bool b => ClassSmall (TBool b)
    | Xdr.Error _ | Xdr.I32 _ | Xdr.ContractInstance _ | Xdr.LedgerKeyContractInstance | Xdr.LedgerKeyNonce _ => ClassNone
    | _ => ClassObject
    end;
  can_represent_scval v := match v with
    | Xdr.Vec None | Xdr.Map None | Xdr.ContractInstance _ | Xdr.LedgerKeyContractInstance | Xdr.LedgerKeyNonce _ => false
    | _ => true
    end
|}.
#[local] Abbreviation W := (2 ^ 64) (only parsing).
Definition two (hi lo : Z) : Z := hi * W + lo.
Definition four (a b c d : Z) : Z := two (two (two a b) c) d.
Definition in_four (n : Z) : Z * Z * Z * Z := (n / W / W / W, n / W / W mod W, n / W mod W, n mod W).

Lemma two_hi hi lo : 0 <= lo < W → two hi lo / W = hi.
Proof. intros. unfold two. rewrite Z.div_add_l by done. rewrite Z.div_small by done. lia. Qed.
Lemma two_lo hi lo : 0 <= lo < W → two hi lo mod W = lo.
Proof. intros. unfold two. rewrite Z.add_comm, Z_mod_plus_full. by apply Z.mod_small. Qed.
Lemma in_four_four a b c d : 0 <= b < W → 0 <= c < W → 0 <= d < W → in_four (four a b c d) = (a, b, c, d).
Proof. intros. unfold in_four, four. rewrite !two_hi, !two_lo; done. Qed.

#[export] Instance toy_pieces : Pieces := {|
  u128_hi n := n / W; u128_lo n := n mod W; u128_from_pieces := two;
  i128_hi n := n / W; i128_lo n := n mod W; i128_from_pieces := two;
  u256_into_pieces := in_four; u256_from_pieces := four;
  i256_into_pieces := in_four; i256_from_pieces := four
|}.

(** A memory, and words for values: the tag above the handle. *)
Definition TOY_FAULT : Error := EHost TWasmVm IndexBounds.
#[export] Instance toy_memory : WasmiMemory := {|
  mem_read m pos len := if decide (pos + len <= length m)%nat then Ok (take len (drop pos m)) else Err TOY_FAULT;
  mem_write m pos b := if decide (pos + length b <= length m)%nat then Ok (splice m pos b) else Err TOY_FAULT
|}.
#[local] Abbreviation P32 := (2 ^ 32) (only parsing).
Definition tags : list Tag :=
  [VecObject; MapObject; U64Object; I64Object; TimepointObject; DurationObject; U128Object; I128Object; U256Object;
   I256Object; BytesObject; StringObject; SymbolObject; AddressObject].
Definition tag_word (t : Tag) : Z :=
  match t with
  | VecObject => 0 | MapObject => 1 | U64Object => 2 | I64Object => 3 | TimepointObject => 4 | DurationObject => 5
  | U128Object => 6 | I128Object => 7 | U256Object => 8 | I256Object => 9 | BytesObject => 10 | StringObject => 11
  | SymbolObject => 12 | AddressObject => 13
  end.
#[export] Instance toy_payload : Payload toy := {|
  get_payload v := match v with
    | VObject o => (16 + tag_word (get_tag o)) * P32 + get_handle o
    | VSmall (TU32 n) => P32 + n
    | VSmall (TBool b) => if b then 2 else 1
    | VSmall _ => 0
    end;
  from_payload w :=
    if decide (w / P32 = 0) then VSmall (if decide (w mod P32 = 0) then TVoid else TBool (w mod P32 =? 2))
    else if decide (w / P32 = 1) then VSmall (TU32 (w mod P32))
    else match tags !! Z.to_nat (w / P32 - 16) with
         | Some t => VObject (mkObject t (w mod P32))
         | None => VSmall TVoid
         end
|}.
#[export] Instance toy_symbols : SmallSymbols toy := λ _, None.

#[local] Abbreviation Host := (ObjHost toy BudgetImpl) (only parsing).

Definition toy_compare (x y : Val toy) : M Host comparison :=
  charge MemCmp (Some 8) ;;;
  m_ret (match x, y with VSmall (TU32 a), VSmall (TU32 b) => a ?= b | _, _ => Gt end).
Definition toy_char (b : Byte.byte) : bool := true.
Definition toy_check (v : Val toy) : M Host unit :=
  match v with VObject o => check_obj_integrity o | VSmall _ => m_ret tt end.

(** The callee adds a [u32] to the vector it is given, tries to forge a reference and
    returns the vector; the caller makes a vector, calls it and returns the answer. *)
Definition callee : Code toy := mkCode None (λ seen _,
  match seen with
  | [v] => ACall VecPushBack [v; VSmall (TU32 7)]
  | [_; w] => AReturn w
  | _ => ATrap (EContract 1)
  end).
Definition forger : Code toy := mkCode None (λ seen _,
  match seen with
  | [_] => ACall VecLen [VObject (mkObject VecObject 1)]
  | _ => ATrap (EContract 1)
  end).
Definition caller : Code toy := mkCode None (λ seen _,
  match seen with
  | [address; _] => ACall VecNew []
  | [address; _; v] => ACall VecPushBack [v; v]
  | [address; _; v; vs] => AInvoke false [address; VSmall (TU32 0); vs]
  | [address; _; v; vs; w] => AInvoke true [address; VSmall (TU32 1); vs]
  | [address; _; v; vs; w; _] => AReturn w
  | _ => ATrap (EContract 2)
  end).
Definition toy_load (id : Hash) (func : Val toy) : M Host (Code toy) :=
  m_ret (match func with VSmall (TU32 0) => callee | _ => forger end).

Definition toy_table : list Object := [mkObject AddressObject 1; mkObject VecObject 3].
Definition toy_host : Host :=
  mkObjHost [OAddress (Contract 5%N); OVec [VSmall (TU32 3)]; OVec [VObject (mkObject VecObject 3)]]
    [Some (mkVmFrame toy_table None)] default_budget.
Definition toy_args : list (Val toy) := [VObject (mkObject AddressObject 0); VObject (mkObject VecObject 2)].
#[local] Abbreviation toy_exec := (exec_code TOO_DEEP toy_char toy_compare toy_check toy_load TError) (only parsing).
#[local] Abbreviation toy_run := (toy_exec 12 caller toy_args toy_host) (only parsing).

Example toy_run_result :
  toy_run.1 = Ok (VObject (mkObject VecObject 8)) ∧
  frames toy_run.2 = [Some (mkVmFrame (toy_table ++ [mkObject VecObject 7; mkObject VecObject 9; mkObject VecObject 11]) None)] ∧
  objects toy_run.2 = objects toy_host ++
    [OVec []; OVec [VObject (mkObject VecObject 7)]; OVec [VSmall (TU32 7)] ].
Proof. vm_compute. done. Qed.

(** ** The parameters leave objects alone *)

#[local] Abbreviation E := (λ e, e = EXCEEDED) (only parsing).
Lemma toy_compare_calm os fs x y : calm budget_wf os fs (toy_compare x y) (λ _, True).
Proof.
  apply calm_then; [|intros; by apply calm_ret]. by apply (calm_charge budget_wf E).
Qed.
Lemma toy_check_calm os fs v : calm budget_wf os fs (toy_check v) (λ _, True).
Proof.
  destruct v as [o|s]; simpl; [|by apply calm_ret]. unfold check_obj_integrity, visit_obj_untyped.
  apply calm_then.
  { eapply calm_of; [by apply (charge_call_returns (B:=Host) (I:=frozen budget_wf os fs) (E:=E))|done]. }
  intros _. eapply calm_seq; [intros h Hh; split; [exact Hh|by instantiate (1 := λ _, True)]|].
  intros h _. case_match; [apply calm_fail|]. case_match; [|apply calm_fail]. case_decide; [by apply calm_ret|apply calm_fail].
Qed.
Lemma toy_load_calm os fs id func : calm budget_wf os fs (toy_load id func) (λ _, True).
Proof. by apply calm_ret. Qed.

Lemma toy_wf : host_wf toy_host.
Proof.
  split.
  - intros [|[|[|i] ] ] hot o Hi Hin; simplify_eq/=; [by apply elem_of_nil in Hin|..].
    + by apply list_elem_of_singleton in Hin.
    + apply list_elem_of_singleton in Hin. simplify_eq. eexists. by split.
  - intros t Ht. apply list_elem_of_singleton in Ht. simplify_eq. repeat constructor; eexists; by split.
Qed.
Lemma toy_budget_wf : budget_wf (budget toy_host).
Proof. apply default_budget_wf. Qed.

(** ** Witnesses *)

Lemma toy_objects : objects toy_run.2 = objects toy_host ++ [OVec []; OVec [VObject (mkObject VecObject 7)]; OVec [VSmall (TU32 7)] ].
Proof. apply toy_run_result. Qed.
Lemma toy_fits : Z.of_nat (length (objects toy_run.2)) <= HANDLES.
Proof. by rewrite toy_objects. Qed.

Lemma code_keeps_types_witness : host_wf toy_run.2.
Proof.
  refine (code_keeps_types budget_wf E depth_error TOO_DEEP toy_char toy_compare toy_check toy_load TError toy_compare_calm toy_check_calm toy_load_calm
    12 caller toy_args toy_host (mkVmFrame toy_table None) [] eq_refl toy_budget_wf toy_wf toy_fits).
Defined.

(** The object that the caller was not given stays out of reach. *)
Lemma code_confined_witness : ∃ t', frames toy_run.2 = [Some t'] ∧ ¬ reach (objects toy_run.2) (.∈ relative_objects t') (mkObject VecObject 5).
Proof.
  destruct (code_confined budget_wf E depth_error TOO_DEEP toy_char toy_compare toy_check toy_load TError toy_compare_calm toy_check_calm toy_load_calm
    12 caller toy_args toy_host (mkVmFrame toy_table None) [] eq_refl toy_budget_wf toy_fits) as [_ (t' & Ht & Hr)].
  exists t'. split; [exact Ht|]. intros Hreach. destruct (Hr _ Hreach) as [Hin|Hlen]; [|vm_compute in Hlen; lia].
  remember (mkObject VecObject 5) as o eqn:Ho. clear Ht Hr Hreach. assert (o = mkObject VecObject 5 → False); [|auto]. clear Ho.
  induction Hin as [o Hin|o hot o' Hin IH Ht Hv]; intros ->; [by apply list_elem_of_In in Hin as [|[|[] ] ]|].
  unfold target in Ht. case_match; [done|]. simpl in Ht. destruct (handle_to_index (get_handle o)) as [|[|[|] ] ]; simplify_eq/=.
  - by apply elem_of_nil in Hv.
  - by apply list_elem_of_singleton in Hv.
  - apply list_elem_of_singleton in Hv. by simplify_eq.
Defined.

Lemma callee_result :
  let out := call_contract_fn (toy_exec 5) callee [VObject (mkObject VecObject 3)] toy_host in
  out.1 = Ok (VObject (mkObject VecObject 7)) ∧ length (objects out.2) = 4%nat.
Proof. split; vm_compute; reflexivity. Qed.

Lemma callee_isolated_witness :
  ∃ h', call_contract_fn (toy_exec 5) callee [VObject (mkObject VecObject 3)] toy_host = (Ok (VObject (mkObject VecObject 7)), h') ∧
    frames h' = frames toy_host ∧ ∃ l, objects h' = objects toy_host ++ l.
Proof.
  pose proof callee_result as Hv.
  destruct (call_contract_fn (toy_exec 5) callee [VObject (mkObject VecObject 3)] toy_host) as [r h'] eqn:Hrun.
  destruct Hv as [Hr Hlen]. cbn [fst snd] in Hr, Hlen.
  exists h'. split; [by rewrite Hr|].
  destruct (callee_isolated budget_wf E depth_error TOO_DEEP toy_char toy_compare toy_check toy_load TError toy_compare_calm toy_check_calm toy_load_calm
    5 callee [VObject (mkObject VecObject 3)] toy_host _ h' toy_budget_wf Hrun) as (Hf & (l & Hl & _) & _); [by rewrite Hlen|].
  split; [exact Hf|]. by exists l.
Defined.

Lemma relative_references_witness :
  ∃ h', absolute_to_relative (VObject (mkObject VecObject 5)) toy_host = (Ok (VObject (mkObject VecObject 4)), h') ∧
    relative_to_absolute (VObject (mkObject VecObject 4)) h' = (Ok (VObject (mkObject VecObject 5)), h').
Proof.
  eexists. split; [vm_compute; reflexivity|].
  apply (relative_references toy_host (mkVmFrame toy_table None) []); [done|done|vm_compute; reflexivity].
Defined.

Lemma object_functions_refine_witness :
  adds budget_wf E (objects toy_host) [] OVec (Some [VSmall (TU32 3); VSmall (TU32 9)])
    (vec_push_back (mkObject VecObject 3) (VSmall (TU32 9))).
Proof.
  destruct (object_functions_refine budget_wf E TOO_DEEP (objects toy_host) []) as [Hv _]; [done|].
  by apply (Hv (mkObject VecObject 3) [VSmall (TU32 3)] (VPushBack (VSmall (TU32 9)))); [| |constructor].
Defined.
