(* ===== verification/ConvertThms.v ===== *)
(** What the conversions do: a value of the host denotes a value of the ledger, conversion
    to the ledger computes it, and conversion from the ledger adds objects that denote what
    was converted.
    The properties: conversion to the ledger's values always ends, and undoes conversion from them. *)
From S2P Require Import Prelude ScVal Budget BudgetThms Metering Search OrdMap Vector Objects Convert Dispatch ObjCode ObjThms ObjEffects ObjSafe ObjRefine ObjProps.
#[local] Open Scope m_scope.

(** What the code outside of the repository promises. *)
Definition object_scval (v : Xdr.ScVal) : Prop :=
  match v with
  | Xdr.Vec (Some _) | Xdr.Map (Some _) | Xdr.U64 _ | Xdr.I64 _ | Xdr.Timepoint _ | Xdr.Duration _ | Xdr.U128 _ _
  | Xdr.I128 _ _ | Xdr.U256 _ _ _ _ | Xdr.I256 _ _ _ _ | Xdr.Bytes _ | Xdr.String _ | Xdr.Symbol _ | Xdr.Address _ => True
  | _ => False
  end.
Class SmallScValsLaws (Small : Type) `{SmallScVals Small} : Prop := {
  classify_small v s : classify v = ClassSmall s → small_scval s = v;
  represent_small s : can_represent_scval (small_scval s) = true;
  represent_object v : object_scval v → can_represent_scval v = true
}.
Class PiecesLaws `{Pieces} : Prop := {
  u128_pieces hi lo : in_u64 hi → in_u64 lo → u128_hi (u128_from_pieces hi lo) = hi ∧ u128_lo (u128_from_pieces hi lo) = lo;
  i128_pieces hi lo : in_i64 hi → in_u64 lo → i128_hi (i128_from_pieces hi lo) = hi ∧ i128_lo (i128_from_pieces hi lo) = lo;
  u256_pieces a b c d : in_u64 a → in_u64 b → in_u64 c → in_u64 d → u256_into_pieces (u256_from_pieces a b c d) = (a, b, c, d);
  i256_pieces a b c d : in_i64 a → in_u64 b → in_u64 c → in_u64 d → i256_into_pieces (i256_from_pieces a b c d) = (a, b, c, d)
}.

(** Pieces in range. *)
Fixpoint in_range (v : Xdr.ScVal) : Prop :=
  match v with
  | Xdr.U128 hi lo => in_u64 hi ∧ in_u64 lo
  | Xdr.I128 hi lo => in_i64 hi ∧ in_u64 lo
  | Xdr.U256 a b c d => in_u64 a ∧ in_u64 b ∧ in_u64 c ∧ in_u64 d
  | Xdr.I256 a b c d => in_i64 a ∧ in_u64 b ∧ in_u64 c ∧ in_u64 d
  | Xdr.Vec (Some l) => foldr (λ v P, in_range v ∧ P) True l
  | Xdr.Map (Some m) => foldr (λ kv P, in_range kv.1 ∧ in_range kv.2 ∧ P) True m
  | _ => True
  end.

Section scval_ind.
Context (P : Xdr.ScVal → Prop).
Context (Hvec : ∀ l, Forall P l → P (Xdr.Vec (Some l))).
Context (Hmap : ∀ m, Forall (λ kv, P kv.1 ∧ P kv.2) m → P (Xdr.Map (Some m))).
Context (Hrest : ∀ v, match v with Xdr.Vec (Some _) | Xdr.Map (Some _) => False | _ => True end → P v).

Lemma scval_ind v : P v.
Proof.
  revert v. fix IH 1. intros v. destruct v as [| | | | | | | | | | | | | | | |[l|]|[m|]| | | |]; try (apply Hrest; exact I).
  - apply Hvec. induction l as [|v l IHl]; constructor; [apply IH|apply IHl].
  - apply Hmap. induction m as [|[k v] m IHm]; constructor; [split; apply IH|apply IHm].
Qed.
End scval_ind.

(** * Denotation *)
Section denote.
Context {Small : Type} `{SmallScVals Small, Pieces}.
Implicit Types (os : list (HostObject Small)) (v : Val Small).

Definition denote_obj (denote : Val Small → option Xdr.ScVal) (hot : HostObject Small) : option Xdr.ScVal :=
  match hot with
  | OVec l => sl ← mapM denote l; Some (Xdr.Vec (Some sl))
  | OMap m => sm ← mapM (λ kv, k ← denote kv.1; v ← denote kv.2; Some (k, v)) m; Some (Xdr.Map (Some sm))
  | OU64 n => Some (Xdr.U64 n) | OI64 n => Some (Xdr.I64 n)
  | OTimePoint n => Some (Xdr.Timepoint n) | ODuration n => Some (Xdr.Duration n)
  | OU128 n => Some (Xdr.U128 (u128_hi n) (u128_lo n)) | OI128 n => Some (Xdr.I128 (i128_hi n) (i128_lo n))
  | OU256 n => let '(a, b, c, d) := u256_into_pieces n in Some (Xdr.U256 a b c d)
  | OI256 n => let '(a, b, c, d) := i256_into_pieces n in Some (Xdr.I256 a b c d)
  | OBytes b => Some (Xdr.Bytes b) | OString b => Some (Xdr.String b) | OSymbol b => Some (Xdr.Symbol b)
  | OAddress a => Some (Xdr.Address a)
  end.

(** The value that [v] stands for, through [n] levels of objects at most. *)
Fixpoint denote (n : nat) os v : option Xdr.ScVal :=
  match n with
  | O => None
  | S n =>
      match v with
      | VSmall s => Some (small_scval s)
      | VObject o => hot ← target os o; denote_obj (denote n os) hot
      end
  end.

Lemma mapM_mono {A C} (f g : A → option C) l k :
  (∀ x y, x ∈ l → f x = Some y → g x = Some y) → mapM f l = Some k → mapM g l = Some k.
Proof.
  rewrite !mapM_Some. intros Hfg Hl. revert Hfg. induction Hl as [|x y l k Hx _ IH]; intros Hfg; constructor.
  - apply Hfg; [by left|done].
  - apply IH. intros x' y' Hin. apply Hfg. by right.
Qed.

Lemma denote_obj_mono f g hot sv :
  (∀ v s, f v = Some s → g v = Some s) → denote_obj f hot = Some sv → denote_obj g hot = Some sv.
Proof.
  intros Hfg. destruct hot as [l|m| | | | | | | | | | | |]; simpl; try done.
  - intros (sl & Hl & Hs)%bind_Some. rewrite (mapM_mono f g l sl) by (eauto || done). exact Hs.
  - intros (sm & Hm & Hs)%bind_Some. erewrite mapM_mono; [exact Hs| |exact Hm].
    intros [k v] y _. intros (ks & Hk & (vs & Hv & Hy)%bind_Some)%bind_Some. simpl in *.
    by rewrite (Hfg _ _ Hk); simpl; rewrite (Hfg _ _ Hv).
Qed.

Lemma denote_mono n m os l v sv : (n <= m)%nat → denote n os v = Some sv → denote m (os ++ l) v = Some sv.
Proof.
  revert m v sv. induction n as [|n IH]; intros [|m] v sv Hnm; simpl; try done; [lia|].
  destruct v as [o|s]; [|done]. intros (hot & Ht & Hd)%bind_Some. rewrite (target_app _ _ _ _ Ht). simpl.
  eapply denote_obj_mono; [|exact Hd]. intros v s. apply IH. lia.
Qed.
Lemma denoted_object g hot sv : denote_obj g hot = Some sv → object_scval sv.
Proof.
  destruct hot as [l|m|n|n|n|n|n|n|n|n|b|b|b|a]; simpl; try (by intros [= <-]).
  - by intros (? & _ & [= <-])%bind_Some.
  - by intros (? & _ & [= <-])%bind_Some.
  - destruct (u256_into_pieces n) as [[[??]?]?]. by intros [= <-].
  - destruct (i256_into_pieces n) as [[[??]?]?]. by intros [= <-].
Qed.

(** References to the first [n] objects. *)
Definition among os (n : nat) v : Prop := ∀ o, v = VObject o → valid os o ∧ (handle_to_index (get_handle o) < n)%nat.

Lemma target_index os o hot : target os o = Some hot → os !! handle_to_index (get_handle o) = Some hot.
Proof. unfold target. by case_match. Qed.
Lemma valid_among os i o : valid (take i os) o → among os i (VObject o).
Proof.
  intros (hot & Ht & Hw) o' [= <-]. unfold target in Ht. case_match eqn:Hr; [done|].
  apply lookup_take_Some in Ht as [Ht Hlt]. split; [|done]. exists hot. unfold target. by rewrite Hr.
Qed.

Lemma denote_obj_total (g : Val Small → option Xdr.ScVal) hot : (∀ v, v ∈ vals_of hot → is_Some (g v)) → is_Some (denote_obj g hot).
Proof.
  intros Hg. destruct hot as [l|m|n|n|n|n|n|n|n|n|b|b|b|a]; simpl in *; try done.
  - destruct (mapM_is_Some_2 g l) as [sl ->]; [|done]. by apply Forall_forall.
  - destruct (mapM_is_Some_2 (λ kv : Val Small * Val Small, k ← g kv.1; v ← g kv.2; Some (k, v)) m) as [sm ->]; [|done].
    apply Forall_forall. intros [k v] Hkv. simpl.
    destruct (Hg k) as [ks ->]; [apply elem_of_app; left; apply list_elem_of_fmap; by exists (k, v)|].
    destruct (Hg v) as [vs ->]; [apply elem_of_app; right; apply list_elem_of_fmap; by exists (k, v)|]. done.
  - by destruct (u256_into_pieces n) as [[[??]?]?].
  - by destruct (i256_into_pieces n) as [[[??]?]?].
Qed.
(** Objects are acyclic, so values denote. *)
Lemma denote_total os fuel n v : objects_wf os → among os n v → (n < fuel)%nat → is_Some (denote fuel os v).
Proof.
  intros Hwf. revert n v. induction fuel as [|fuel IH]; intros n v Hv Hn; [lia|]. simpl.
  destruct v as [o|s]; [|done]. destruct (Hv o eq_refl) as [(hot & Ht & _) Hidx]. rewrite Ht. simpl.
  apply denote_obj_total. intros v Hin. apply (IH (handle_to_index (get_handle o))); [|lia].
  destruct v as [o'|]; [|by intros ?]. apply valid_among. eapply Hwf; [by apply target_index|done].
Qed.

End denote.

(** * Conversion to the ledger *)
Section from_host.
Context {Small B : Type} `{SmallVals Small, SmallScVals Small, !SmallScValsLaws Small} `{Pieces}.
Context `{AsBudget B, DepthLimiter B} (I : B → Prop) (E D : Error → Prop).
Context `{!Metered B I E} `{!MeteredCalls B I E} `{!LimitsDepth B I D}.
#[local] Abbreviation Val := (Val Small) (only parsing).
#[local] Abbreviation HostObject := (HostObject Small) (only parsing).
#[local] Abbreviation Host := (ObjHost Small B) (only parsing).
Context (xdr_error : Error) (fine : Error → Prop).
(** Errors of metering, of depth and of values too long are fine. *)
Context (HE : ∀ e, E e → fine e) (HD : ∀ e, D e → fine e) (Hxdr : fine xdr_error).
Context (os : list HostObject) (fs : list (option VmFrame)).

#[local] Abbreviation fz := (frozen I os fs) (only parsing).

#[export] Instance frozen_depth : LimitsDepth Host fz D.
Proof. split; apply on_budget_returns; [apply enter_returns|apply leave_returns]. Qed.

Lemma fine_of {A} (p : M Host A) (Q R : A → Prop) : returns fz p Q E → (∀ a, Q a → R a) → returns fz p R fine.
Proof. intros Hp HQ. by eapply returns_weaken. Qed.
Lemma fine_then {A C} (p : M Host A) (f : A → M Host C) Q R :
  returns fz p Q E → (∀ a, Q a → returns fz (f a) R fine) → returns fz (m_bind p f) R fine.
Proof. intros Hp Hf. eapply returns_bind; [by eapply fine_of|exact Hf]. Qed.

Lemma fine_copy size n (sv : Xdr.ScVal) : returns fz (copy_sized size n ;;; m_ret sv) (eq sv) fine.
Proof.
  eapply fine_then; [apply (charge_shallow_copy_returns fz E)|]. intros _ _. by apply returns_ret.
Qed.
Lemma fine_vecm {A} (l : list A) : returns fz (m_lift (to_vecm xdr_error l)) (eq l) fine.
Proof. apply returns_lift. unfold to_vecm. by case_decide. Qed.

Lemma m_map_returns {A C} (f : A → M Host C) (g : A → option C) l :
  (∀ x, x ∈ l → returns fz (f x) (λ y, g x = Some y) fine) →
  returns fz (m_map f l) (λ ys, mapM g l = Some ys) fine.
Proof.
  intros Hf. apply (returns_mono fz fine _ (λ ys, Forall2 (λ x y, g x = Some y) l ys)); [|intros; by apply mapM_Some].
  induction l as [|x l IH]; simpl; [by apply returns_ret|].
  eapply returns_bind; [apply Hf; by left|]. intros y Hy.
  eapply returns_bind; [apply IH; intros x' Hx; apply Hf; by right|]. intros ys Hys.
  apply returns_ret. by constructor.
Qed.

Lemma visit_untyped_returns {A} o hot (f : HostObject → M Host A) Q :
  target os o = Some hot → returns fz (f hot) Q fine → returns fz (visit_obj_untyped o f) Q fine.
Proof.
  intros Ht Hf. unfold visit_obj_untyped. eapply fine_then; [by apply (charge_call_returns (B:=Host))|].
  intros _ _ h Hh. unfold m_bind, m_get. destruct Hh as (Ho & ? & ?) eqn:Hhe. rewrite Ho.
  unfold target in Ht. case_match; [done|]. rewrite Ht. by apply Hf.
Qed.

Lemma from_host_obj_returns (rec : Val → M Host Xdr.ScVal) (g : Val → option Xdr.ScVal) o hot :
  target os o = Some hot →
  (∀ v, v ∈ vals_of hot → returns fz (rec v) (λ sv, g v = Some sv) fine) →
  returns fz (from_host_obj xdr_error rec o) (λ sv, denote_obj g hot = Some sv) fine.
Proof.
  intros Ht Hrec. eapply visit_untyped_returns; [exact Ht|].
  destruct hot as [l|m|n|n|n|n|n|n|n|n|b|b|b|a]; simpl in *.
  3-8: (eapply returns_mono; [apply fine_copy|]; by intros ? <-).
  - eapply fine_then; [apply (bulk_returns I E)|]. intros _ _. eapply returns_bind; [by apply m_map_returns|]. intros sl Hsl.
    eapply returns_bind; [apply fine_vecm|]. intros ? <-. apply returns_ret. rewrite Hsl. done.
  - eapply (returns_bind _ _ _ _ (λ sm, mapM (λ kv, k ← g kv.1; v ← g kv.2; Some (k, v)) m = Some sm));
      [|intros sm Hsm; apply returns_ret; by rewrite Hsm].
    eapply fine_then; [apply (bulk_returns I E)|]. intros _ _. eapply (returns_bind _ _ _ _ (eq m)).
    { eapply fine_then; [by apply (charge_returns (B:=Host)); [|apply clamp_bounds]|]. intros _ _. by apply returns_ret. }
    intros ? <-. eapply returns_bind; [apply (m_map_returns _ (λ kv, k ← g kv.1; v ← g kv.2; Some (k, v)))|
      intros sm Hsm; eapply returns_mono; [apply fine_vecm|by intros ? <-] ].
    intros [k v] Hkv. simpl. eapply returns_bind; [apply Hrec|intros ks Hk].
    { apply elem_of_app. left. apply list_elem_of_fmap. by exists (k, v). }
    eapply returns_bind; [apply Hrec|intros vs Hv].
    { apply elem_of_app. right. apply list_elem_of_fmap. by exists (k, v). }
    apply returns_ret. by rewrite Hk; simpl; rewrite Hv.
  - eapply fine_then; [apply (charge_shallow_copy_returns fz E)|]. intros _ _.
    destruct (u256_into_pieces n) as [[[??]?]?]. by apply returns_ret.
  - eapply fine_then; [apply (charge_shallow_copy_returns fz E)|]. intros _ _.
    destruct (i256_into_pieces n) as [[[??]?]?]. by apply returns_ret.
  - eapply fine_then; [apply (metered_clone_returns fz E)|]. intros ? <-. by apply returns_ret.
  - eapply fine_then; [apply (metered_clone_returns fz E)|]. intros ? <-. by apply returns_ret.
  - eapply fine_then; [apply (metered_clone_returns fz E)|]. intros ? <-. by apply returns_ret.
  - pose proof (shallow_clone_returns fz E ScAddress) as Hs.
    eapply fine_then; [apply (metered_clone_returns fz E)|]. intros ? <-. by apply returns_ret.
Qed.

(** With one unit of fuel for each object, conversion gives what the value denotes, or ends
    with an error of metering, depth or length. *)
Lemma from_host_val_returns fuel n v : objects_wf os → among os n v → (n < fuel)%nat →
  returns fz (from_host_val xdr_error fuel v) (λ sv, denote fuel os v = Some sv) fine.
Proof.
  intros Hwf. revert n v. induction fuel as [|fuel IH]; intros n v Hv Hn; [lia|]. simpl.
  eapply (returns_bind _ _ _ _ (λ sv, denote (S fuel) os v = Some sv ∧ can_represent_scval sv = true)).
  - apply (limited_depth_returns fz D fine); [exact HD|]. destruct v as [o|s].
    + destruct (Hv o eq_refl) as [(hot & Ht & _) Hidx].
      eapply returns_mono; [apply (from_host_obj_returns _ (denote fuel os)); [exact Ht|]|].
      * intros v Hin. apply (IH (handle_to_index (get_handle o))); [|lia]. destruct v as [o'|]; [|by intros ?].
        apply valid_among. eapply Hwf; [by apply target_index|done].
      * intros sv Hsv. simpl. rewrite Ht. split; [exact Hsv|]. exact (represent_object _ (denoted_object _ _ _ Hsv)).
    + apply returns_ret. split; [done|]. apply represent_small.
  - intros sv [Hd ->]. by apply returns_ret.
Qed.
End from_host.

(** * Conversion from the ledger *)
Section to_host.
Context {Small B : Type} `{SmallVals Small, SmallScVals Small, !SmallScValsLaws Small} `{Pieces, !PiecesLaws}.
Context `{AsBudget B, DepthLimiter B} (I : B → Prop) (E D : Error → Prop).
Context `{!Metered B I E} `{!MeteredCalls B I E} `{!LimitsDepth B I D}.
#[local] Abbreviation Val := (Val Small) (only parsing).
#[local] Abbreviation HostObject := (HostObject Small) (only parsing).
#[local] Abbreviation Host := (ObjHost Small B) (only parsing).
Context (validate_byte : Byte.byte → bool) (compare : Val → Val → M Host comparison).
Context (Hcmp : ∀ os fs x y, calm I os fs (compare x y) (λ _, True)).
Context (fs : list (option VmFrame)).
Implicit Types (os : list HostObject).

(** [p] only adds objects; with no more than there are handles, and under [P], they are
    well typed. *)
Definition grows (P : Prop) {A} (p : M Host A) (Q : list HostObject → A → Prop) os : Prop :=
  ∀ h, frozen I os fs h → ∃ l, frozen I (os ++ l) fs (p h).2 ∧
    (fits (os ++ l) → P → objects_wf (os ++ l) ∧ match (p h).1 with Ok a => Q (os ++ l) a | Err _ => True end).

Lemma grows_pre (P P' : Prop) {A} (p : M Host A) Q os : (P → P') → grows P' p Q os → grows P p Q os.
Proof. intros HP Hp h Hh. destruct (Hp h Hh) as (l & Hf & Hr). exists l. auto. Qed.
Lemma grows_calm (P : Prop) {A} (p : M Host A) (Q : A → Prop) (R : list HostObject → A → Prop) os :
  (P → objects_wf os) → calm I os fs p Q → (P → ∀ a, Q a → R os a) → grows P p R os.
Proof.
  intros HP Hp HQ h Hh. destruct (Hp h Hh) as [Hh' Hr]. exists []. rewrite app_nil_r. split; [done|].
  intros _ HP'. split; [auto|]. destruct (p h).1; [by apply HQ|done].
Qed.
Lemma grows_ret (P : Prop) {A} (a : A) (Q : list HostObject → A → Prop) os :
  (P → objects_wf os) → (P → Q os a) → grows P (m_ret a) Q os.
Proof. intros HP Ha. eapply grows_calm; [done|by apply (calm_ret I _ _ a (eq a))|]. by intros ? ? <-; auto. Qed.
Lemma grows_fail (P : Prop) {A} e (Q : list HostObject → A → Prop) os : (P → objects_wf os) → grows P (m_fail e) Q os.
Proof. intros HP. apply (grows_calm _ _ (λ _, False)); [done|apply calm_fail|done]. Qed.

Lemma grows_then (P : Prop) {A C} (p : M Host A) (f : A → M Host C) (Q : A → Prop) R os :
  (P → objects_wf os) → calm I os fs p Q → (∀ a, Q a → grows P (f a) R os) → grows P (m_bind p f) R os.
Proof.
  intros HP Hp Hf h Hh. unfold m_bind. destruct (Hp h Hh) as [Hh' Hr].
  destruct (p h) as [[a|e] h']; simpl in *; [by apply Hf|]. exists []. rewrite app_nil_r. split; [done|]. auto.
Qed.
Lemma grows_bind (P : Prop) {A C} (p : M Host A) (f : A → M Host C) Q R os :
  grows P p Q os →
  (∀ l a, grows (P ∧ objects_wf (os ++ l) ∧ Q (os ++ l) a) (f a) R (os ++ l)) → grows P (m_bind p f) R os.
Proof.
  intros Hp Hf h Hh. unfold m_bind. destruct (Hp h Hh) as (l & Hh' & Hr).
  destruct (p h) as [[a|e] h']; simpl in *; [|by exists l].
  destruct (Hf l a h' Hh') as (l2 & Hh2 & Hr2). exists (l ++ l2). rewrite app_assoc. split; [done|].
  intros Hfit HP. apply Hr2; [done|]. by destruct (Hr (fits_app _ _ Hfit) HP).
Qed.

(** ** What is made denotes what it is made from *)

Definition denotes (v : Xdr.ScVal) os (val : Val) : Prop :=
  (∀ o, val = VObject o → valid os o) ∧ ∃ n, denote n os val = Some v.

Lemma denotes_app v os l val : denotes v os val → denotes v (os ++ l) val.
Proof. intros [Hv [n Hn]]. split; [intros o Ho; apply valid_app; auto|]. exists n. by apply (denote_mono n n). Qed.

(** A new object. *)
Lemma grows_add (P : Prop) hot v os :
  (P → objects_wf os) → (P → ∀ o, VObject o ∈ vals_of hot → valid os o) →
  (P → ∃ n, denote_obj (denote n os) hot = Some v) → grows P (add_val hot) (denotes v) os.
Proof.
  intros HP Hvals Hd h Hh. unfold add_val.
  pose proof (add_creates I E os fs hot (eq hot) (λ _, True) ltac:(done) ltac:(done) eq_refl h Hh) as Ha.
  unfold m_bind. destruct (add_host_object hot h) as [[o|e] h'].
  - destruct Ha as (hot' & <- & Hnew & Hh'). exists [hot]. split; [exact Hh'|]. intros Hfit HP'.
    assert (Z.of_nat (length os) < HANDLES) as Hlen.
    { unfold fits in Hfit. rewrite length_app in Hfit. simpl in Hfit. lia. }
    split; [by apply (good_add (Discipline := typing)); auto|]. simpl. split.
    + intros o' [= <-]. by apply (ok_new (Discipline := typing)); auto.
    + destruct (Hd HP') as [n Hn]. exists (S n). simpl. destruct (target_new _ _ _ Hlen Hnew) as [-> _]. simpl.
      eapply denote_obj_mono; [|exact Hn]. intros. by eapply denote_mono.
  - destruct Ha as [_ Hh']. exists []. rewrite app_nil_r. split; [exact Hh'|]. intros _ HP'. split; [by apply HP|done].
Qed.

Lemma grows_m_map (P : Prop) {A C} (f : A → M Host C) (Q : A → list HostObject → C → Prop) l os :
  (P → objects_wf os) →
  (∀ x os l c, Q x os c → Q x (os ++ l) c) →
  (∀ (P' : Prop) x os, x ∈ l → (P' → objects_wf os) → grows P' (f x) (Q x) os) →
  grows P (m_map f l) (λ os cs, Forall2 (λ x c, Q x os c) l cs) os.
Proof.
  intros HP HQ. revert P os HP. induction l as [|x l IH]; intros P os HP Hf; simpl; [by apply grows_ret|].
  eapply (grows_bind _ _ _ (Q x)); [apply Hf; [by left|done]|]. intros l1 c.
  eapply grows_bind; [apply IH; [by intros (_ & ? & _)|]; intros; apply Hf; [by right|done]|].
  intros l2 cs. apply grows_ret; [tauto|]. intros ((_ & _ & Hc) & _ & Hcs). constructor; [by apply HQ|done].
Qed.

Lemma grows_limited (P : Prop) {A} (p : M Host A) Q os :
  (P → objects_wf os) → grows P p Q os → grows P (limited_depth p) Q os.
Proof.
  intros HP Hp. unfold limited_depth. eapply grows_then; [done| |].
  { eapply (calm_of I os fs); [apply (enter_returns (I:=frozen I os fs) (D:=D))|intros a Ha; exact Ha]. }
  intros _ _ h Hh. destruct (Hp h Hh) as (l & Hh' & Hr). exists l. destruct (p h) as [r h']. cbn [fst snd] in *.
  destruct (leave_returns (I:=frozen I (os ++ l) fs) (D:=D) h' Hh') as [Hh2 _]. unfold m_bind.
  destruct (leave_level h') as [[[]|e] h2]; simpl in *; (split; [done|]); [exact Hr|].
  intros Hfit HP'. by destruct (Hr Hfit HP').
Qed.

Lemma Forall2_fuel {A C} (R : nat → A → C → Prop) l k :
  (∀ n m a c, (n <= m)%nat → R n a c → R m a c) → Forall2 (λ a c, ∃ n, R n a c) l k → ∃ n, Forall2 (R n) l k.
Proof.
  intros HR. induction 1 as [|a c l k [n Hn] _ [m Hm]]; [by exists 0%nat|]. exists (n `max` m)%nat.
  constructor; [by apply (HR n); [lia|]|]. eapply Forall2_impl; [exact Hm|]. intros a' c'. apply HR. lia.
Qed.
Lemma denote_more n m os (val : Val) sv : (n <= m)%nat → denote n os val = Some sv → denote m os val = Some sv.
Proof. intros Hnm Hn. rewrite <-(app_nil_r os). by eapply denote_mono. Qed.

Lemma Forall2_in_r {A C} (R : A → C → Prop) l k c : Forall2 R l k → c ∈ k → ∃ a, R a c.
Proof. intros Hl [i Hi]%list_elem_of_lookup. destruct (Forall2_lookup_r _ _ _ _ _ Hl Hi) as (a & _ & Ha). eauto. Qed.

(** The elements of a vector, the entries of a map. *)
Lemma denotes_vec os svs (vals : list Val) : Forall2 (λ sv val, denotes sv os val) svs vals →
  (∀ o, VObject o ∈ vals_of (OVec vals) → valid os o) ∧ ∃ n, denote_obj (denote n os) (OVec vals) = Some (Xdr.Vec (Some svs)).
Proof.
  intros Hl. split.
  - intros o Hin. destruct (Forall2_in_r _ _ _ _ Hl Hin) as (sv & Hv & _). by apply Hv.
  - destruct (Forall2_fuel (λ n val sv, denote n os val = Some sv) vals svs) as [n Hn].
    { intros *. apply denote_more. }
    { apply Forall2_flip. eapply Forall2_impl; [exact Hl|]. by intros ? ? [_ ?]. }
    exists n. apply mapM_Some in Hn. simpl. by rewrite Hn.
Qed.
Lemma denotes_map os m (mm : list (Val * Val)) : Forall2 (λ kv c, denotes kv.1 os c.1 ∧ denotes kv.2 os c.2) m mm →
  (∀ o, VObject o ∈ vals_of (OMap mm) → valid os o) ∧ ∃ n, denote_obj (denote n os) (OMap mm) = Some (Xdr.Map (Some m)).
Proof.
  intros Hl. split.
  - intros o [Hin|Hin]%elem_of_app; apply list_elem_of_fmap in Hin as (c & Hc & Hin);
      destruct (Forall2_in_r _ _ _ _ Hl Hin) as (kv & [H1' _] & [H2' _]); auto.
  - destruct (Forall2_fuel (λ n c kv, (k ← denote n os c.1; v ← denote n os c.2; Some (k, v)) = Some kv) mm m) as [n Hn].
    { intros n n' c kv Hnn (k & Hk & (v & Hv & Hkv)%bind_Some)%bind_Some.
      by rewrite (denote_more _ _ _ _ _ Hnn Hk); simpl; rewrite (denote_more _ _ _ _ _ Hnn Hv). }
    { apply Forall2_flip. eapply Forall2_impl; [exact Hl|]. intros [k v] c [[_ [n1 Hk] ] [_ [n2 Hv] ] ]. exists (n1 `max` n2)%nat.
      rewrite (denote_more n1 (n1 `max` n2) _ _ _ ltac:(lia) Hk). simpl.
      by rewrite (denote_more n2 (n1 `max` n2) _ _ _ ltac:(lia) Hv). }
    exists n. apply mapM_Some in Hn. simpl. by rewrite Hn.
Qed.

Lemma calm_from_map os (mm : list (Val * Val)) : calm I os fs (from_map compare mm) (eq mm).
Proof.
  unfold from_map. case_bool_decide; [apply calm_fail|]. apply calm_then; [apply (calm_map_scan I E)|intros _].
  apply calm_then; [by apply calm_windows|intros _; by apply calm_ret].
Qed.
Lemma calm_from_vec os (vv : list Val) : calm I os fs (MeteredVector.from_vec vv) (eq vv).
Proof. unfold MeteredVector.from_vec. case_bool_decide; [apply calm_fail|by apply calm_ret]. Qed.
Lemma calm_copy_sized os size n : calm I os fs (copy_sized size n) (λ _, True).
Proof. eapply calm_of; [apply (charge_shallow_copy_returns (frozen I os fs) E)|intros; done]. Qed.

(** An object that holds no values. *)
Lemma grows_add_leaf (P : Prop) hot v os :
  (P → objects_wf os) → vals_of hot = [] → denote_obj (λ _, None) hot = Some v → grows P (add_val hot) (denotes v) os.
Proof.
  intros HP Hvals Hd. apply grows_add; [done|rewrite Hvals; by intros _ ? ?%elem_of_nil|].
  intros _. exists 0%nat. eapply denote_obj_mono; [|exact Hd]. done.
Qed.
Lemma grows_copied (P : Prop) size n hot v os :
  (P → objects_wf os) → vals_of hot = [] → denote_obj (λ _, None) hot = Some v →
  grows P (copy_sized size n ;;; add_val hot) (denotes v) os.
Proof. intros. eapply grows_then; [done|apply calm_copy_sized|intros _ _]. by apply grows_add_leaf. Qed.
Lemma grows_cloned (P : Prop) {A} `{DeclaredSizeForMetering A, MeteredClone Host A} (a : A) (f : A → M Host Val) v os :
  (∀ os fs, CloneReturns (frozen I os fs) E A) → (P → objects_wf os) →
  grows P (f a) (denotes v) os → grows P (let* a := metered_clone a in f a) (denotes v) os.
Proof.
  intros Hc HP Hf. eapply (grows_then _ _ _ (eq a)); [done| |by intros ? <-].
  eapply calm_of; [apply (metered_clone_returns (frozen I os fs) E)|intros; done].
Qed.

(** The value made from [v] is valid and denotes [v]. *)
Definition converts (v : Xdr.ScVal) : Prop := ∀ (P : Prop) os,
  (P → objects_wf os) → grows P (to_host_val validate_byte compare v) (denotes v) os.

Lemma converts_vec l (P : Prop) os : Forall converts l → (P → objects_wf os) →
  grows P (to_host_obj validate_byte compare (to_host_val validate_byte compare) (Xdr.Vec (Some l))) (denotes (Xdr.Vec (Some l))) os.
Proof.
  intros Hl HP. simpl. rewrite Forall_forall in Hl. eapply grows_then; [done|apply (calm_bulk I E)|intros _ _].
  eapply grows_bind; [apply (grows_m_map _ _ (λ x os c, denotes x os c)); [done|intros *; apply denotes_app|]|].
  { intros P' x os' Hx HP'. by apply Hl. }
  intros l1 vals. eapply grows_then; [tauto|apply calm_from_vec|intros ? <-].
  apply grows_add; [tauto| |]; intros (_ & _ & Hvals); apply (denotes_vec _ _ _ Hvals).
Qed.
Lemma converts_map m (P : Prop) os : Forall (λ kv, converts kv.1 ∧ converts kv.2) m → (P → objects_wf os) →
  grows P (to_host_obj validate_byte compare (to_host_val validate_byte compare) (Xdr.Map (Some m))) (denotes (Xdr.Map (Some m))) os.
Proof.
  intros Hm HP. simpl. rewrite Forall_forall in Hm. eapply grows_then; [done|apply (calm_bulk I E)|intros _ _].
  eapply grows_bind; [apply (grows_m_map _ _ (λ kv os c, denotes kv.1 os c.1 ∧ denotes kv.2 os c.2)); [done| |]|].
  { intros kv os' l' c [? ?]. by split; apply denotes_app. }
  { intros P' kv os' Hkv HP'. destruct (Hm _ Hkv) as [Hk Hv].
    eapply grows_bind; [by apply Hk|]. intros l1 k. eapply grows_bind; [apply Hv; tauto|]. intros l2 v.
    apply grows_ret; [tauto|]. intros ((_ & _ & Hdk) & _ & Hdv). split; [by apply denotes_app|done]. }
  intros l1 mm. eapply grows_then; [tauto|apply calm_from_map|intros ? <-].
  apply grows_add; [tauto| |]; intros (_ & _ & Hmm); apply (denotes_map _ _ _ Hmm).
Qed.

Lemma to_host_val_unfold v : to_host_val validate_byte compare v =
  limited_depth (match classify v with
    | ClassSmall s => m_ret (VSmall s)
    | ClassObject => to_host_obj validate_byte compare (to_host_val validate_byte compare) v
    | ClassNone => m_fail CONVERSION
    end).
Proof. by destruct v. Qed.

Lemma converts_step v :
  (∀ (P : Prop) os, (P → objects_wf os) → grows P (to_host_obj validate_byte compare (to_host_val validate_byte compare) v) (denotes v) os) →
  converts v.
Proof.
  intros Hobj P os HP. rewrite to_host_val_unfold. apply grows_limited; [done|].
  destruct (classify v) as [s| |] eqn:Hc; [|by apply Hobj|by apply grows_fail].
  apply grows_ret; [done|]. intros _. split; [done|]. exists 1%nat. simpl. f_equal. by apply classify_small.
Qed.

Lemma in_range_vec l : in_range (Xdr.Vec (Some l)) → Forall in_range l.
Proof. simpl. induction l as [|v l IH]; simpl; [constructor|]. intros [??]. constructor; auto. Qed.
Lemma in_range_map m : in_range (Xdr.Map (Some m)) → Forall (λ kv, in_range kv.1 ∧ in_range kv.2) m.
Proof. simpl. induction m as [|kv m IH]; simpl; [constructor|]. intros (? & ? & ?). constructor; auto. Qed.

Lemma to_host_val_converts v : in_range v → converts v.
Proof.
  induction v as [l IH|m IH|v Hrest] using scval_ind; intros Hr; apply converts_step; intros P os HP.
  - apply converts_vec; [|done]. apply in_range_vec in Hr. rewrite Forall_forall in *. auto.
  - apply converts_map; [|done]. apply in_range_map in Hr. rewrite Forall_forall in *.
    intros kv Hkv. destruct (IH kv Hkv), (Hr kv Hkv). auto.
  - destruct v as [| | | | |n|n|n|n|hi lo|hi lo|a b c d|a b c d|b|b|b|[]|[]|a| | |]; try done; simpl in *;
      try (by apply grows_fail); try (by apply grows_copied).
    + destruct Hr. apply grows_copied; [done..|]. simpl. by destruct (u128_pieces hi lo) as [-> ->].
    + destruct Hr. apply grows_copied; [done..|]. simpl. by destruct (i128_pieces hi lo) as [-> ->].
    + destruct_and!. apply grows_copied; [done..|]. simpl. by rewrite u256_pieces.
    + destruct_and!. apply grows_copied; [done..|]. simpl. by rewrite i256_pieces.
    + apply grows_cloned; [intros; apply _|done|by apply grows_add_leaf].
    + apply grows_cloned; [intros; apply _|done|by apply grows_add_leaf].
    + apply grows_cloned; [intros; apply _|done|]. eapply grows_then; [done|apply calm_lift|].
      intros s Hs. unfold symbol_try_from_bytes in Hs. repeat case_match; simplify_eq. by apply grows_add_leaf.
    + apply grows_cloned; [intros; apply shallow_clone_returns|done|by apply grows_add_leaf].
Qed.
End to_host.

(** * Properties *)

Section convert.
Context {Small B : Type} `{SmallVals Small, SmallScVals Small, !SmallScValsLaws Small} `{Pieces, !PiecesLaws}.
Context `{AsBudget B, DepthLimiter B} (I : B → Prop) (E D : Error → Prop).
Context `{!Metered B I E} `{!MeteredCalls B I E} `{!LimitsDepth B I D}.
#[local] Abbreviation Val := (Val Small) (only parsing).
#[local] Abbreviation Host := (ObjHost Small B) (only parsing).
Context (xdr_error : Error) (validate_byte : Byte.byte → bool) (compare : Val → Val → M Host comparison).
Context (Hcmp : ∀ os fs x y, calm I os fs (compare x y) (λ _, True)).
Implicit Types (h : Host) (val : Val) (v : Xdr.ScVal).

(** The errors a conversion may end with: of metering, of depth, of length. *)
Definition conversion_error (e : Error) : Prop := E e ∨ D e ∨ e = xdr_error.

Lemma valid_among_all os val : (∀ o, val = VObject o → valid os o) → among os (length os) val.
Proof.
  intros Hval o Ho. destruct (Hval o Ho) as (hot & Ht & Hw). split; [by exists hot|].
  apply target_index in Ht. by apply lookup_lt_Some in Ht.
Qed.
Lemma denote_det n m os val v v' : denote n os val = Some v → denote m os val = Some v' → v = v'.
Proof.
  intros Hn Hm. apply (denote_more n (n `max` m)) in Hn; [|lia]. apply (denote_more m (n `max` m)) in Hm; [|lia]. congruence.
Qed.

Lemma from_host_val_ends h val fuel :
  I (budget h) → objects_wf (objects h) → (∀ o, val = VObject o → valid (objects h) o) →
  (length (objects h) < fuel)%nat →
  let '(r, h') := from_host_val xdr_error fuel val h in
  frozen I (objects h) (frames h) h' ∧
  match r with Ok v => denote fuel (objects h) val = Some v | Err e => conversion_error e end.
Proof.
  intros Hb Hwf Hval Hfuel.
  pose proof (valid_among_all _ _ Hval) as Hamong.
  destruct (from_host_val_returns I E D xdr_error conversion_error) with (objects h) (frames h) fuel (length (objects h)) val h
    as [Hh' Hr]; [by left|by right; left|by right; right|done|done|done|done|].
  by destruct (from_host_val _ _ _ h).
Qed.

(** C24: converting a value of the host to one of the ledger always ends: on a well-typed
    host, fuel for each object is enough for the whole graph of objects behind the value,
    more of it makes no difference to what the value stands for, and the only errors are of
    metering, of depth and of length; nothing but the budget changes. *)
Theorem conversion_ends h val fuel :
  I (budget h) → objects_wf (objects h) → (∀ o, val = VObject o → valid (objects h) o) →
  (length (objects h) < fuel)%nat →
  let '(r, h') := from_host_val xdr_error fuel val h in
  objects h' = objects h ∧ frames h' = frames h ∧
  match r with
  | Ok v => ∀ n, (length (objects h) < n)%nat → denote n (objects h) val = Some v
  | Err e => conversion_error e
  end.
Proof.
  intros Hb Hwf Hval Hfuel. pose proof (from_host_val_ends h val fuel Hb Hwf Hval Hfuel) as Hends.
  destruct (from_host_val xdr_error fuel val h) as [r h']. destruct Hends as [(Ho & Hf & _) Hr].
  split_and!; [done..|]. destruct r as [v|e]; [|done]. intros n Hn.
  destruct (denote_total (objects h) n (length (objects h)) val) as [v' Hv']; [done|by apply valid_among_all|done|].
  rewrite Hv'. f_equal. apply (denote_det _ _ _ _ _ _ Hv' Hr).
Qed.

(** C23: a value of the ledger made into one of the host and back is itself: the conversion
    only adds objects, well typed ones, and whatever happens to the host afterwards, as
    long as its objects stay, converting the result back gives the value again or ends with
    an error of metering, depth or length. *)
Theorem ledger_value_round_trip h h' v val :
  I (budget h) → objects_wf (objects h) → in_range v →
  to_host_val validate_byte compare v h = (Ok val, h') → Z.of_nat (length (objects h')) <= HANDLES →
  objects_wf (objects h') ∧ frames h' = frames h ∧ (∃ l, objects h' = objects h ++ l) ∧
  ∀ h2 l fuel, objects h2 = objects h' ++ l → objects_wf (objects h2) → I (budget h2) →
    (length (objects h2) < fuel)%nat →
    match (from_host_val xdr_error fuel val h2).1 with Ok v' => v' = v | Err e => conversion_error e end.
Proof.
  intros Hb Hwf Hr Hrun Hfit.
  destruct (to_host_val_converts I E D validate_byte compare Hcmp (frames h) v Hr (objects_wf (objects h)) (objects h) id h)
    as (l & (Ho & Hf & _) & Hpost); [done|]. rewrite Hrun in Ho, Hf, Hpost. simpl in *.
  destruct Hpost as [Hwf' Hd]; [by rewrite Ho in Hfit|done|]. rewrite <-Ho in Hwf', Hd.
  split_and!; [done|done|by exists l|]. intros h2 l2 fuel Ho2 Hwf2 Hb2 Hfuel.
  destruct (denotes_app v (objects h') l2 val Hd) as [Hvalid [n Hn]]. rewrite <-Ho2 in Hvalid, Hn.
  pose proof (from_host_val_ends h2 val fuel Hb2 Hwf2 Hvalid Hfuel) as Hends.
  destruct (from_host_val xdr_error fuel val h2) as [[v'|e] h3]; destruct Hends as [_ Hres]; simpl; [|done].
  apply (denote_det _ _ _ _ _ _ Hres Hn).
Qed.
End convert.
