(* ===== verification/Compare.v ===== *)
(** Comparison of host values and of ledger values: P/host/comparison.rs, the comparisons of
    P/host/metered_vector.rs, P/host/metered_map.rs and P/host_object.rs, and [obj_cmp] of
    P/host.rs.

    The comparison of vectors and pairs element by element, and of values that are not
    objects, is generic code of soroban-env-common ([Compares], [ValCompare]); the order of
    types and of opaque ledger values is that of the XDR library ([ScValOrders]). *)
From S2P Require Import Prelude ScVal Budget BudgetThms Metering Search OrdMap Vector Objects Convert LinMem.
#[local] Open Scope m_scope.

(** * The order of ledger values *)

(** Element by element, a prefix first. *)
Fixpoint lex {A} (ord : A → A → comparison) (l k : list A) : comparison :=
  match l, k with
  | [], [] => Eq
  | [], _ :: _ => Lt
  | _ :: _, [] => Gt
  | x :: l, y :: k => match ord x y with Eq => lex ord l k | o => o end
  end.
Definition then_cmp (o1 o2 : comparison) : comparison := match o1 with Eq => o2 | _ => o1 end.
Definition pair_cmp {A C} (f : A → A → comparison) (g : C → C → comparison) (p q : A * C) : comparison :=
  then_cmp (f p.1 q.1) (g p.2 q.2).

Definition byte_cmp (a b : Byte.byte) : comparison := u32_of_byte a ?= u32_of_byte b.
Definition bytes_cmp : bytes → bytes → comparison := lex byte_cmp.
Definition bool_cmp (a b : bool) : comparison := match a, b with false, true => Lt | true, false => Gt | _, _ => Eq end.

(** [discriminant] and [Ord] of XDR types. *)
Class ScValOrders := {
  discriminant : Xdr.ScVal → Z;
  error_ord : N → N → comparison;
  nonce_ord : N → N → comparison;
  instance_ord : N → N → comparison;
  address_ord : ScAddress → ScAddress → comparison
}.

Section order.
Context `{ScValOrders}.

(** Parts of wide integers, most significant first, as [Ord] derives it. *)
Definition parts2 (a b c d : Z) : comparison := then_cmp (a ?= c) (b ?= d).
Definition parts4 (a1 a2 a3 a4 b1 b2 b3 b4 : Z) : comparison := then_cmp (parts2 a1 a2 b1 b2) (parts2 a3 a4 b3 b4).

Fixpoint scval_cmp (a b : Xdr.ScVal) : comparison :=
  match a, b with
  | Xdr.Vec x, Xdr.Vec y =>
      match x, y with
      | Some l, Some k => lex scval_cmp l k
      | None, None => Eq | None, Some _ => Lt | Some _, None => Gt
      end
  | Xdr.Map x, Xdr.Map y =>
      match x, y with
      | Some l, Some k => lex (λ p q, then_cmp (scval_cmp p.1 q.1) (scval_cmp p.2 q.2)) l k
      | None, None => Eq | None, Some _ => Lt | Some _, None => Gt
      end
  | Xdr.Bytes x, Xdr.Bytes y | Xdr.String x, Xdr.String y | Xdr.Symbol x, Xdr.Symbol y => bytes_cmp x y
  | Xdr.ContractInstance x, Xdr.ContractInstance y => instance_ord x y
  | Xdr.Void, Xdr.Void | Xdr.LedgerKeyContractInstance, Xdr.LedgerKeyContractInstance => Eq
  | Xdr.Bool x, Xdr.Bool y => bool_cmp x y
  | Xdr.Error x, Xdr.Error y => error_ord x y
  | Xdr.U32 x, Xdr.U32 y | Xdr.I32 x, Xdr.I32 y | Xdr.U64 x, Xdr.U64 y | Xdr.I64 x, Xdr.I64 y
  | Xdr.Timepoint x, Xdr.Timepoint y | Xdr.Duration x, Xdr.Duration y => x ?= y
  | Xdr.U128 a b, Xdr.U128 c d | Xdr.I128 a b, Xdr.I128 c d => parts2 a b c d
  | Xdr.U256 a1 a2 a3 a4, Xdr.U256 b1 b2 b3 b4 | Xdr.I256 a1 a2 a3 a4, Xdr.I256 b1 b2 b3 b4 => parts4 a1 a2 a3 a4 b1 b2 b3 b4
  | Xdr.Address x, Xdr.Address y => address_ord x y
  | Xdr.LedgerKeyNonce x, Xdr.LedgerKeyNonce y => nonce_ord x y
  | _, _ => discriminant a ?= discriminant b
  end.
End order.

(** * What soroban-env-common does *)

(** [Compare<Vec<T>>] and [Compare<(T, U)>] in any context. *)
Class Compares := {
  compare_vec {S A} : (A → A → M S comparison) → list A → list A → M S comparison;
  compare_pair {S A C} : (A → A → M S comparison) → (C → C → M S comparison) → A * C → A * C → M S comparison
}.
(** [Compare<Val>], by [obj_cmp] where objects take part; the type of a value among those of
    the ledger; the number of a small value of the type of some object. *)
Class ValCompare (Small : Type) := {
  compare_val {S} : (Val Small → Val Small → M S Z) → Val Small → Val Small → M S comparison;
  get_scval_type : Tag → Z;
  small_scval_type : Small → Z;
  small_number : Tag → Small → option Z
}.

(** * Comparisons in the code *)

(** Bytes, in any context that can be charged. *)
Definition compare_bytes {S} `{AsBudget S} (a b : bytes) : M S comparison :=
  charge MemCmp (Some (Z.of_nat (min (length a) (length b)))) ;;; m_ret (bytes_cmp a b).

(** ** Ledger values, in a budget *)
Section scval.
Context {B : Type} `{AsBudget B, DepthLimiter B} `{ScValOrders, Compares}.
Context (compare_instance : N → N → M B comparison).

Definition compare_entry (rec : Xdr.ScVal → Xdr.ScVal → M B comparison) (a b : Xdr.ScVal * Xdr.ScVal) : M B comparison :=
  let* o := rec a.1 b.1 in
  match o with
  | Eq => rec a.2 b.2
  | cmp => m_ret cmp
  end.

Definition compare_scval_with (rec : Xdr.ScVal → Xdr.ScVal → M B comparison) (a b : Xdr.ScVal) : M B comparison :=
  limited_depth (match a, b with
    | Xdr.Vec (Some a), Xdr.Vec (Some b) => compare_vec rec a b
    | Xdr.Map (Some a), Xdr.Map (Some b) => compare_vec (compare_entry rec) a b
    | Xdr.Vec None, _ | _, Xdr.Vec None | Xdr.Map None, _ | _, Xdr.Map None => m_fail (EHost TValue InvalidInput)
    | Xdr.Bytes a, Xdr.Bytes b | Xdr.String a, Xdr.String b | Xdr.Symbol a, Xdr.Symbol b => compare_bytes a b
    | Xdr.ContractInstance a, Xdr.ContractInstance b => compare_instance a b
    | Xdr.Void, Xdr.Void | Xdr.LedgerKeyContractInstance, Xdr.LedgerKeyContractInstance => m_ret Eq
    | Xdr.Bool a, Xdr.Bool b => compare_fixed_size 1 bool_cmp a b
    | Xdr.Error a, Xdr.Error b => compare_fixed_size 8 error_ord a b
    | Xdr.U32 a, Xdr.U32 b | Xdr.I32 a, Xdr.I32 b => compare_fixed_size 4 Z.compare a b
    | Xdr.U64 a, Xdr.U64 b | Xdr.I64 a, Xdr.I64 b
    | Xdr.Timepoint a, Xdr.Timepoint b | Xdr.Duration a, Xdr.Duration b => compare_fixed_size 8 Z.compare a b
    | Xdr.U128 a1 a2, Xdr.U128 b1 b2 | Xdr.I128 a1 a2, Xdr.I128 b1 b2 =>
        compare_fixed_size 16 (pair_cmp Z.compare Z.compare) (a1, a2) (b1, b2)
    | Xdr.U256 a1 a2 a3 a4, Xdr.U256 b1 b2 b3 b4 | Xdr.I256 a1 a2 a3 a4, Xdr.I256 b1 b2 b3 b4 =>
        compare_fixed_size 32 (pair_cmp (pair_cmp Z.compare Z.compare) (pair_cmp Z.compare Z.compare))
          ((a1, a2), (a3, a4)) ((b1, b2), (b3, b4))
    | Xdr.Address a, Xdr.Address b => compare_fixed_size 33 address_ord a b
    | Xdr.LedgerKeyNonce a, Xdr.LedgerKeyNonce b => compare_fixed_size 33 nonce_ord a b
    | _, _ => m_ret (discriminant a ?= discriminant b)
    end).

Fixpoint compare_scval (fuel : nat) (a b : Xdr.ScVal) : M B comparison :=
  match fuel with
  | O => m_fail NO_FUEL
  | S fuel => compare_scval_with (compare_scval fuel) a b
  end.
End scval.

(** ** Host objects *)

Definition host_obj_discriminant {Small} (ho : HostObject Small) : Z :=
  match ho with
  | OU64 _ => 0 | OI64 _ => 1 | OTimePoint _ => 2 | ODuration _ => 3 | OU128 _ => 4 | OI128 _ => 5
  | OU256 _ => 6 | OI256 _ => 7 | OBytes _ => 8 | OString _ => 9 | OSymbol _ => 10 | OVec _ => 11
  | OMap _ => 12 | OAddress _ => 13
  end.

Section objects.
Context {Small B : Type} `{SmallVals Small, SmallScVals Small, SmallSymbols Small} `{AsBudget B, DepthLimiter B}.
Context `{ScValOrders, Compares, ValCompare Small}.
#[local] Abbreviation Val := (Val Small) (only parsing).
#[local] Abbreviation HostObject := (HostObject Small) (only parsing).
#[local] Abbreviation Host := (ObjHost Small B) (only parsing).

Definition try_compare_to_small (ho : HostObject) (rv : Small) : M Host (option comparison) :=
  let number t size u :=
    match small_number t rv with
    | Some small => let* o := compare_fixed_size size Z.compare u small in m_ret (Some o)
    | None => m_ret None
    end in
  match ho with
  | OU64 u => number U64Object 8 u
  | OI64 i => number I64Object 8 i
  | OTimePoint tp => number TimepointObject 8 tp
  | ODuration d => number DurationObject 8 d
  | OU128 u => number U128Object 16 u
  | OI128 i => number I128Object 16 i
  | OU256 u => number U256Object 32 u
  | OI256 i => number I256Object 32 i
  | OSymbol s =>
      match small_symbol rv with
      | Some rhs => let* o := compare_bytes s rhs in m_ret (Some o)
      | None => m_ret None
      end
  | OVec _ | OMap _ | OBytes _ | OString _ | OAddress _ => m_ret None
  end.

Section rec.
Context (compare : Val → Val → M Host comparison).

(** [Compare<MeteredVector>] and [Compare<MeteredOrdMap>]. *)
Definition compare_host_vec (a b : list Val) : M Host comparison :=
  charge MemCpy (Some (u64_saturating_mul (DECLARED_SIZE Val) (Z.of_nat (min (length a) (length b))))) ;;;
  compare_vec compare a b.
Definition compare_host_map (a b : list (Val * Val)) : M Host comparison :=
  charge MemCpy (Some (u64_saturating_mul (DECLARED_SIZE (Val * Val)) (Z.of_nat (min (length a) (length b))))) ;;;
  compare_vec (compare_pair compare compare) a b.

Definition compare_host_object (a b : HostObject) : M Host comparison :=
  limited_depth (match a, b with
    | OU64 a, OU64 b | OI64 a, OI64 b | OTimePoint a, OTimePoint b | ODuration a, ODuration b => compare_fixed_size 8 Z.compare a b
    | OU128 a, OU128 b | OI128 a, OI128 b => compare_fixed_size 16 Z.compare a b
    | OU256 a, OU256 b | OI256 a, OI256 b => compare_fixed_size 32 Z.compare a b
    | OVec a, OVec b => compare_host_vec a b
    | OMap a, OMap b => compare_host_map a b
    | OBytes a, OBytes b | OString a, OString b | OSymbol a, OSymbol b => compare_bytes a b
    | OAddress a, OAddress b => compare_fixed_size 33 address_ord a b
    | _, _ => m_ret (host_obj_discriminant a ?= host_obj_discriminant b)
    end).

Definition sign (o : comparison) : Z := match o with Lt => -1 | Eq => 0 | Gt => 1 end.
Definition flip_ordering (o : option comparison) : option comparison :=
  match o with Some Lt => Some Gt | Some Gt => Some Lt | other => other end.
Definition scval_type (v : Val) : Z := match v with VObject o => get_scval_type (get_tag o) | VSmall s => small_scval_type s end.

Definition obj_cmp (a b : Val) : M Host Z :=
  let* res := match a, b with
    | VObject a, VObject b =>
        visit_obj_untyped a (λ ao, visit_obj_untyped b (λ bo, let* o := compare_host_object ao bo in m_ret (Some o)))
    | VObject a, VSmall b => visit_obj_untyped a (λ aobj, try_compare_to_small aobj b)
    | VSmall a, VObject b => visit_obj_untyped b (λ bobj, let* ord := try_compare_to_small bobj a in m_ret (flip_ordering ord))
    | VSmall _, VSmall _ => m_fail (EHost TValue UnexpectedType)
    end in
  match res with
  | Some res => m_ret (sign res)
  | None =>
      if decide (scval_type a = scval_type b) then m_fail (EHost TValue InternalError)
      else m_ret (sign (scval_type a ?= scval_type b))
  end.
End rec.

(** [Compare<Val>] of the host. *)
Fixpoint compare_host_val (fuel : nat) (a b : Val) : M Host comparison :=
  match fuel with
  | O => m_fail NO_FUEL
  | S fuel => compare_val (obj_cmp (compare_host_val fuel)) a b
  end.
End objects.
