(* ===== verification/CompareThms.v ===== *)
(** What the comparisons compute: the order of ledger values, which is total; for host
    values, the order of what they stand for.
    The properties: the comparison of host values agrees with that of the ledger values they
    stand for, and is a total preorder. *)
From S2P Require Import Prelude ScVal Budget BudgetThms Metering Search OrdMap Vector Objects Convert LinMem Dispatch ObjCode ObjThms ObjEffects ObjSafe ObjRefine ObjProps ConvertThms Compare.
#[local] Open Scope m_scope.

(** * Total orders *)

Section lex.
Context {A : Type} (ord : A → A → comparison).

Lemma lex_eq l k : (∀ x y, x ∈ l → ord x y = Eq ↔ x = y) → lex ord l k = Eq ↔ l = k.
Proof.
  revert k. induction l as [|x l IH]; intros [|y k] Heq; simpl; try done.
  assert (lex ord l k = Eq ↔ l = k) as IHk by (apply IH; intros; apply Heq; by right).
  pose proof (Heq x y ltac:(by left)) as Hxy. destruct (ord x y).
  - rewrite IHk. assert (x = y) as -> by by apply Hxy. split; [by intros ->|by intros [= ->]].
  - split; [done|]. intros [= -> ->]. by apply Hxy.
  - split; [done|]. intros [= -> ->]. by apply Hxy.
Qed.
Lemma lex_flip l k : (∀ x y, x ∈ l → ord y x = CompOpp (ord x y)) → lex ord k l = CompOpp (lex ord l k).
Proof.
  revert k. induction l as [|x l IH]; intros [|y k] Hf; simpl; try done.
  rewrite (Hf x y) by (by left). rewrite IH by (intros; apply Hf; by right). by destruct (ord x y).
Qed.
Lemma lex_trans l k j :
  (∀ x y, ord x y = Eq ↔ x = y) → (∀ x y z, x ∈ l → ord x y = Lt → ord y z = Lt → ord x z = Lt) →
  lex ord l k = Lt → lex ord k j = Lt → lex ord l j = Lt.
Proof.
  intros Heq. revert k j. induction l as [|x l IH]; intros [|y k] [|z j] Ht; simpl; try done.
  assert (∀ k j, lex ord l k = Lt → lex ord k j = Lt → lex ord l j = Lt) as IHl.
  { intros k' j'. apply IH. intros x' y' z' Hx. apply Ht. by right. }
  destruct (ord x y) eqn:Hxy; [|intros _|done].
  - apply Heq in Hxy as ->. destruct (ord y z); [apply IHl|done|done].
  - destruct (ord y z) eqn:Hyz; [|intros _|done].
    + apply Heq in Hyz as ->. by rewrite Hxy.
    + by rewrite (Ht x y z) by (done || by left).
Qed.
#[export] Instance lex_total `{!TotalOrder ord} : TotalOrder (lex ord).
Proof.
  split; intros.
  - apply lex_eq. intros. apply ord_eq.
  - apply lex_flip. intros. apply ord_flip.
  - eapply lex_trans; [apply ord_eq|by intros; eapply ord_trans|done|done].
Qed.

Lemma lex_fmap {C} (f : C → A) l k : lex ord (f <$> l) (f <$> k) = lex (λ x y, ord (f x) (f y)) l k.
Proof. revert k. induction l as [|x l IH]; intros [|y k]; simpl; try done. by rewrite IH. Qed.
Lemma lex_ext (ord' : A → A → comparison) l k :
  (∀ x y, x ∈ l → y ∈ k → ord x y = ord' x y) → lex ord l k = lex ord' l k.
Proof.
  revert k. induction l as [|x l IH]; intros [|y k] Ho; simpl; try done.
  rewrite (Ho x y) by (by left). destruct (ord' x y); [|done..]. apply IH. intros. apply Ho; by right.
Qed.
End lex.

#[export] Instance pair_total {A C} (f : A → A → comparison) (g : C → C → comparison) `{!TotalOrder f, !TotalOrder g} :
  TotalOrder (pair_cmp f g).
Proof.
  unfold pair_cmp, then_cmp. split.
  - intros [x1 y1] [x2 y2]; simpl. destruct (f x1 x2) eqn:Hx.
    + apply ord_eq in Hx as ->. rewrite ord_eq. split; [by intros ->|by intros [= ->]].
    + split; [done|]. intros [= -> ->]. by rewrite (proj2 (ord_eq x2 x2) eq_refl) in Hx.
    + split; [done|]. intros [= -> ->]. by rewrite (proj2 (ord_eq x2 x2) eq_refl) in Hx.
  - intros [x1 y1] [x2 y2]; simpl. rewrite (ord_flip (ord := f) x1 x2), (ord_flip (ord := g) y1 y2). by destruct (f x1 x2).
  - intros [x1 y1] [x2 y2] [x3 y3]; simpl. destruct (f x1 x2) eqn:H12; [|intros _|done].
    + apply ord_eq in H12 as ->. destruct (f x2 x3); [apply ord_trans|done|done].
    + destruct (f x2 x3) eqn:H23; [|intros _|done].
      * apply ord_eq in H23 as ->. by rewrite H12.
      * by rewrite (ord_trans _ _ _ H12 H23).
Qed.

#[export] Instance byte_total : TotalOrder byte_cmp.
Proof.
  unfold byte_cmp. split.
  - intros a b. rewrite Z.compare_eq_iff. split; [|by intros ->]. unfold u32_of_byte. intros Hab%N2Z.inj.
    assert (Byte.of_N (Byte.to_N a) = Byte.of_N (Byte.to_N b)) as Hof by (by rewrite Hab). rewrite !Byte.of_to_N in Hof. by simplify_eq.
  - intros a b. apply ord_flip.
  - intros a b c. apply ord_trans.
Qed.
#[export] Instance bytes_total : TotalOrder bytes_cmp := lex_total byte_cmp.
#[export] Instance bool_total : TotalOrder bool_cmp.
Proof. split; [by intros [] []|by intros [] []|by intros [] [] []]. Qed.

(** ** Ledger values *)

(** The types in the order of Stellar-contract.x. *)
Definition scv_type (v : Xdr.ScVal) : Z :=
  match v with
  | Xdr.Bool _ => 0 | Xdr.Void => 1 | Xdr.Error _ => 2 | Xdr.U32 _ => 3 | Xdr.I32 _ => 4 | Xdr.U64 _ => 5
  | Xdr.I64 _ => 6 | Xdr.Timepoint _ => 7 | Xdr.Duration _ => 8 | Xdr.U128 _ _ => 9 | Xdr.I128 _ _ => 10
  | Xdr.U256 _ _ _ _ => 11 | Xdr.I256 _ _ _ _ => 12 | Xdr.Bytes _ => 13 | Xdr.String _ => 14 | Xdr.Symbol _ => 15
  | Xdr.Vec _ => 16 | Xdr.Map _ => 17 | Xdr.Address _ => 18 | Xdr.ContractInstance _ => 19
  | Xdr.LedgerKeyContractInstance => 20 | Xdr.LedgerKeyNonce _ => 21
  end.
Class ScValOrdersLaws `{ScValOrders} : Prop := {
  discriminant_type v : discriminant v = scv_type v;
  error_total :: TotalOrder error_ord;
  nonce_total :: TotalOrder nonce_ord;
  instance_total :: TotalOrder instance_ord;
  address_total :: TotalOrder address_ord
}.

Section order.
Context `{ScValOrdersLaws}.

Lemma scval_cmp_types a b : scv_type a ≠ scv_type b → scval_cmp a b = (scv_type a ?= scv_type b).
Proof. intros Hne. rewrite <-!discriminant_type in *. destruct a, b; first [done|by destruct Hne; rewrite !discriminant_type]. Qed.
Lemma scval_cmp_lt a b : scval_cmp a b = Lt → scv_type a <= scv_type b.
Proof.
  destruct (decide (scv_type a = scv_type b)) as [->|Hne]; [done|]. rewrite scval_cmp_types by done. rewrite Z.compare_lt_iff. lia.
Qed.

Lemma entry_cmp_pair (p q : Xdr.ScVal * Xdr.ScVal) : then_cmp (scval_cmp p.1 q.1) (scval_cmp p.2 q.2) = pair_cmp scval_cmp scval_cmp p q.
Proof. done. Qed.
Lemma parts2_pair a b c d : parts2 a b c d = pair_cmp Z.compare Z.compare (a, b) (c, d).
Proof. done. Qed.
Lemma parts4_pair a1 a2 a3 a4 b1 b2 b3 b4 :
  parts4 a1 a2 a3 a4 b1 b2 b3 b4 =
  pair_cmp (pair_cmp Z.compare Z.compare) (pair_cmp Z.compare Z.compare) ((a1, a2), (a3, a4)) ((b1, b2), (b3, b4)).
Proof. done. Qed.

Ltac by_type T N := match goal with |- context [scval_cmp ?a ?b] => destruct (decide (scv_type b = scv_type a)) as [T|N] end.

(** Values of different types differ; values of one type are compared by their contents. *)
Lemma scval_cmp_eq a b : scval_cmp a b = Eq ↔ a = b.
Proof.
  revert b. induction a as [l IH|m IH|a Hrest] using scval_ind; intros b;
    (by_type Ht Hne;
      [|rewrite scval_cmp_types by (by apply not_eq_sym); rewrite Z.compare_eq_iff; split; [by intros ?; destruct Hne|by intros <-] ]).
  - destruct b as [| | | | | | | | | | | | | | | |[k|]|[k|]| | | |]; try discriminate Ht; [|done]. cbn [scval_cmp].
    rewrite lex_eq; [split; [by intros ->|by intros [= ->] ]|]. intros x y Hx. rewrite Forall_forall in IH. by apply IH.
  - destruct b as [| | | | | | | | | | | | | | | |[k|]|[k|]| | | |]; try discriminate Ht; [|done]. cbn [scval_cmp].
    rewrite lex_eq; [split; [by intros ->|by intros [= ->] ]|]. intros [x1 x2] [y1 y2] Hx. rewrite Forall_forall in IH.
    destruct (IH _ Hx) as [IH1 IH2]. simpl in *. unfold then_cmp. specialize (IH1 y1). specialize (IH2 y2).
    destruct (scval_cmp x1 y1) eqn:H1.
    + rewrite IH2. assert (x1 = y1) as -> by by apply IH1. split; [by intros ->|by intros [= ->] ].
    + split; [done|]. intros [= -> ->]. by apply IH1.
    + split; [done|]. intros [= -> ->]. by apply IH1.
  - destruct a as [| | | | | | | | | | | | | | | |[?|]|[?|]| | | |]; try done; destruct b as [| | | | | | | | | | | | | | | |[?|]|[?|]| | | |]; try discriminate Ht; cbn [scval_cmp];
      rewrite ?parts2_pair, ?parts4_pair, ?ord_eq; try done; split; congruence.
Qed.
Lemma scval_cmp_flip a b : scval_cmp b a = CompOpp (scval_cmp a b).
Proof.
  revert b. induction a as [l IH|m IH|a Hrest] using scval_ind; intros b;
    (by_type Ht Hne;
      [|rewrite !scval_cmp_types by (done || by apply not_eq_sym); apply Z.compare_antisym]).
  - destruct b as [| | | | | | | | | | | | | | | |[k|]|[k|]| | | |]; try discriminate Ht; [|done]. cbn [scval_cmp].
    apply lex_flip. intros x y Hx. rewrite Forall_forall in IH. by apply IH.
  - destruct b as [| | | | | | | | | | | | | | | |[k|]|[k|]| | | |]; try discriminate Ht; [|done]. cbn [scval_cmp].
    apply lex_flip. intros [x1 x2] [y1 y2] Hx. rewrite Forall_forall in IH. destruct (IH _ Hx) as [IH1 IH2]. simpl in *.
    rewrite IH1, IH2. unfold then_cmp. by destruct (scval_cmp x1 y1).
  - destruct a, b; try discriminate Ht; cbn [scval_cmp]; rewrite ?parts2_pair, ?parts4_pair; try apply ord_flip; by repeat case_match.
Qed.
Lemma scval_cmp_trans a b c : scval_cmp a b = Lt → scval_cmp b c = Lt → scval_cmp a c = Lt.
Proof.
  revert b c. induction a as [l IH|m IH|a Hrest] using scval_ind; intros b c Hab Hbc;
    pose proof (scval_cmp_lt _ _ Hab) as Tab; pose proof (scval_cmp_lt _ _ Hbc) as Tbc;
    (by_type Tac Hne;
      [assert (scv_type b = scv_type c) as Tb by lia|rewrite scval_cmp_types by (by apply not_eq_sym); apply Z.compare_lt_iff; lia]).
  - destruct c as [| | | | | | | | | | | | | | | |[j|]|[j|]| | | |]; try discriminate Tac;
      destruct b as [| | | | | | | | | | | | | | | |[k|]|[k|]| | | |]; try discriminate Tb; try done. cbn [scval_cmp] in *.
    eapply lex_trans; [apply scval_cmp_eq| |exact Hab|exact Hbc]. intros x y z Hx. rewrite Forall_forall in IH. by apply IH.
  - destruct c as [| | | | | | | | | | | | | | | |[j|]|[j|]| | | |]; try discriminate Tac;
      destruct b as [| | | | | | | | | | | | | | | |[k|]|[k|]| | | |]; try discriminate Tb; try done. cbn [scval_cmp] in *.
    eapply lex_trans; [| |exact Hab|exact Hbc].
    + intros [x1 x2] [y1 y2]. simpl. unfold then_cmp. pose proof (scval_cmp_eq x1 y1) as He. destruct (scval_cmp x1 y1).
      * rewrite scval_cmp_eq. assert (x1 = y1) as -> by by apply He. split; [by intros ->|by intros [= ->] ].
      * split; [done|]. intros [= -> ->]. by apply He.
      * split; [done|]. intros [= -> ->]. by apply He.
    + intros [x1 x2] [y1 y2] [z1 z2] Hx. rewrite Forall_forall in IH. destruct (IH _ Hx) as [IH1 IH2]. simpl in *. unfold then_cmp.
      destruct (scval_cmp x1 y1) eqn:Hxy; [|intros _|done].
      * apply scval_cmp_eq in Hxy as ->. destruct (scval_cmp y1 z1); [apply IH2|done|done].
      * destruct (scval_cmp y1 z1) eqn:Hyz; [|intros _|done].
        -- apply scval_cmp_eq in Hyz as ->. by rewrite Hxy.
        -- by rewrite (IH1 _ _ Hxy Hyz).
  - destruct a, c; try discriminate Tac; destruct b; try discriminate Tb; cbn [scval_cmp] in *; rewrite ?parts2_pair, ?parts4_pair in *;
      first [by eapply ord_trans|by repeat case_match].
Qed.
#[export] Instance scval_total : TotalOrder scval_cmp.
Proof. split; [apply scval_cmp_eq|apply scval_cmp_flip|apply scval_cmp_trans]. Qed.
End order.

(** * The comparisons *)

(** What the code outside of the repository promises: vectors and pairs are compared by
    their elements. *)
Class ComparesLaws `{Compares} : Prop := {
  compare_vec_returns {S A} (J : S → Prop) (F : Error → Prop) (f : A → A → M S comparison) (ord : A → A → comparison) l k :
    (∀ x y, x ∈ l → y ∈ k → returns J (f x y) (λ o, o = ord x y) F) →
    returns J (compare_vec f l k) (λ o, o = lex ord l k) F;
  compare_pair_returns {S A C} (J : S → Prop) (F : Error → Prop) (f : A → A → M S comparison) (g : C → C → M S comparison)
      ford gord p q :
    returns J (f p.1 q.1) (λ o, o = ford p.1 q.1) F → returns J (g p.2 q.2) (λ o, o = gord p.2 q.2) F →
    returns J (compare_pair f g p q) (λ o, o = pair_cmp ford gord p q) F
}.

Section basic.
Context {S : Type} `{AsBudget S} (J : S → Prop) (E F : Error → Prop) `{!Metered S J E} (HE : ∀ e, E e → F e).

Lemma compare_fixed_returns {A} size (ord : A → A → comparison) a b :
  0 <= size → returns J (compare_fixed_size size ord a b) (λ o, o = ord a b) F.
Proof.
  intros Hs. unfold compare_fixed_size. eapply returns_bind; [|intros _ _; by apply returns_ret].
  eapply returns_weaken; [by apply charge_returns|done|exact HE].
Qed.
Lemma compare_bytes_returns a b : returns J (compare_bytes a b) (λ o, o = bytes_cmp a b) F.
Proof.
  unfold compare_bytes. eapply returns_bind; [|intros _ _; by apply returns_ret].
  eapply returns_weaken; [apply charge_returns; [done|lia]|done|exact HE].
Qed.
End basic.

(** ** Of ledger values *)

(** Levels of a value, and values without the absent vectors and maps of XDR. *)
Fixpoint height (v : Xdr.ScVal) : nat :=
  match v with
  | Xdr.Vec (Some l) => S (foldr (λ v n, max (height v) n) O l)
  | Xdr.Map (Some m) => S (foldr (λ kv n, max (max (height kv.1) (height kv.2)) n) O m)
  | _ => 1
  end.
Fixpoint proper (v : Xdr.ScVal) : Prop :=
  match v with
  | Xdr.Vec (Some l) => foldr (λ v P, proper v ∧ P) True l
  | Xdr.Map (Some m) => foldr (λ kv P, proper kv.1 ∧ proper kv.2 ∧ P) True m
  | Xdr.Vec None | Xdr.Map None => False
  | _ => True
  end.
Lemma height_elem l v n : v ∈ l → (foldr (λ v n, max (height v) n) O l <= n)%nat → (height v <= n)%nat.
Proof. induction 1 as [|? ? ? _ IH]; simpl; [lia|]. intros ?. apply IH. lia. Qed.
Lemma height_entry m kv n : kv ∈ m → (foldr (λ kv n, max (max (height kv.1) (height kv.2)) n) O m <= n)%nat →
  (height kv.1 <= n ∧ height kv.2 <= n)%nat.
Proof. induction 1 as [|? ? ? _ IH]; simpl; [lia|]. intros ?. apply IH. lia. Qed.
Lemma proper_elem l v : v ∈ l → foldr (λ v P, proper v ∧ P) True l → proper v.
Proof. induction 1; simpl; naive_solver. Qed.
Lemma proper_entry m kv : kv ∈ m → foldr (λ kv P, proper kv.1 ∧ proper kv.2 ∧ P) True m → proper kv.1 ∧ proper kv.2.
Proof. induction 1; simpl; naive_solver. Qed.

Section scval.
Context {B : Type} `{AsBudget B, DepthLimiter B} `{ScValOrders, Compares} `{!ScValOrdersLaws, !ComparesLaws}.
Context (I : B → Prop) (E D F : Error → Prop) `{!Metered B I E, !LimitsDepth B I D}.
Context (HE : ∀ e, E e → F e) (HD : ∀ e, D e → F e).
Context (compare_instance : N → N → M B comparison).
Context (Hinst : ∀ a b, returns I (compare_instance a b) (λ o, o = instance_ord a b) F).

Lemma compare_scval_returns fuel a b :
  (height a <= fuel)%nat → proper a → proper b →
  returns I (compare_scval compare_instance fuel a b) (λ o, o = scval_cmp a b) F.
Proof.
  revert a b. induction fuel as [|fuel IH]; intros a b Hh Ha Hb; simpl.
  { destruct a as [| | | | | | | | | | | | | | | |[?|]|[?|]| | | |]; simpl in Hh; lia. }
  apply (limited_depth_returns I D F); [exact HD|].
  destruct a as [| | | | | | | | | | | | | | | |[l|]|[m|]| | | |]; try done;
    destruct b as [| | | | | | | | | | | | | | | |[k|]|[j|]| | | |]; try done; cbn [scval_cmp];
    try (by apply returns_ret); try apply Hinst;
    try (refine (compare_fixed_returns I E F HE _ _ _ _ _); done); try apply (compare_bytes_returns I E F HE).
  - apply compare_vec_returns. intros x y Hx Hy. simpl in Hh. apply IH; [eapply height_elem; [done|lia]| |]; by eapply proper_elem.
  - apply (compare_vec_returns I F _ (λ p q, then_cmp (scval_cmp p.1 q.1) (scval_cmp p.2 q.2))). intros [x1 x2] [y1 y2] Hx Hy.
    simpl in Hh. destruct (height_entry m _ fuel Hx) as [Hk1 Hk2]; [lia|]. destruct (proper_entry _ _ Hx Ha), (proper_entry _ _ Hy Hb).
    unfold compare_entry, then_cmp. eapply returns_bind; [by apply IH|]. intros o ->. simpl in *.
    destruct (scval_cmp x1 y1); [by apply IH|by apply returns_ret|by apply returns_ret].
Qed.
End scval.

(** ** Of host values *)

(** Numbers in the range of their type. *)
Definition in_width {Small} (hot : HostObject Small) : Prop :=
  match hot with
  | OU128 n => 0 <= n < 2 ^ 128 | OI128 n => - 2 ^ 127 <= n < 2 ^ 127
  | OU256 n => 0 <= n < 2 ^ 256 | OI256 n => - 2 ^ 255 <= n < 2 ^ 255
  | _ => True
  end.
(** The pieces of a number, most significant first, order it. *)
Class PiecesOrder `{Pieces} : Prop := {
  u128_order a b : 0 <= a < 2 ^ 128 → 0 <= b < 2 ^ 128 → (a ?= b) = parts2 (u128_hi a) (u128_lo a) (u128_hi b) (u128_lo b);
  i128_order a b : - 2 ^ 127 <= a < 2 ^ 127 → - 2 ^ 127 <= b < 2 ^ 127 →
    (a ?= b) = parts2 (i128_hi a) (i128_lo a) (i128_hi b) (i128_lo b);
  u256_order a b : 0 <= a < 2 ^ 256 → 0 <= b < 2 ^ 256 →
    (a ?= b) = let '(a1, a2, a3, a4) := u256_into_pieces a in let '(b1, b2, b3, b4) := u256_into_pieces b in
               parts4 a1 a2 a3 a4 b1 b2 b3 b4;
  i256_order a b : - 2 ^ 255 <= a < 2 ^ 255 → - 2 ^ 255 <= b < 2 ^ 255 →
    (a ?= b) = let '(a1, a2, a3, a4) := i256_into_pieces a in let '(b1, b2, b3, b4) := i256_into_pieces b in
               parts4 a1 a2 a3 a4 b1 b2 b3 b4
}.

(** The objects of the types that have small numbers. *)
Definition number_object {Small} (t : Tag) : option (Z → HostObject Small) :=
  match t with
  | U64Object => Some OU64 | I64Object => Some OI64 | TimepointObject => Some OTimePoint | DurationObject => Some ODuration
  | U128Object => Some OU128 | I128Object => Some OI128 | U256Object => Some OU256 | I256Object => Some OI256
  | _ => None
  end.

(** Values: by [obj_cmp] if one is an object, else by what they stand for; types are those
    of the ledger's values; a small number stands for what an object with it stands for. *)
Class ValCompareLaws (Small : Type) `{SmallScVals Small, Pieces, SmallSymbols Small, ScValOrders, ValCompare Small} : Prop := {
  compare_val_returns {S} (J : S → Prop) (F : Error → Prop) (oc : Val Small → Val Small → M S Z) ord a b :
    (a = b → ord a b = Eq) → (∀ s t, ord (VSmall s) (VSmall t) = scval_cmp (small_scval s) (small_scval t)) →
    ((∃ o, a = VObject o) ∨ (∃ o, b = VObject o) → returns J (oc a b) (λ z, z = sign (ord a b)) F) →
    returns J (compare_val oc a b) (λ o, o = ord a b) F;
  object_type (hot : HostObject Small) g sv : denote_obj g hot = Some sv → get_scval_type (wrapper hot) = discriminant sv;
  small_type s : small_scval_type s = discriminant (small_scval s);
  small_plain s : match small_scval s with Xdr.Vec _ | Xdr.Map _ | Xdr.Bytes _ | Xdr.String _ | Xdr.Address _ => False | _ => True end;
  small_number_some t s n : small_number t s = Some n →
    ∃ mk, number_object (Small:=Small) t = Some mk ∧ in_width (mk n) ∧ denote_obj (λ _, None) (mk n) = Some (small_scval s);
  small_number_none t s (mk : Z → HostObject Small) :
    number_object t = Some mk → small_number t s = None → get_scval_type t ≠ small_scval_type s;
  small_symbol_some s b : small_symbol s = Some b → small_scval s = Xdr.Symbol b;
  small_symbol_none s : small_symbol s = None → get_scval_type SymbolObject ≠ small_scval_type s
}.

Section host.
Context {Small B : Type} `{SmallVals Small, SmallScVals Small, Pieces, SmallSymbols Small} `{AsBudget B, DepthLimiter B}.
Context `{ScValOrders, Compares, ValCompare Small}.
Context `{!ScValOrdersLaws, !ComparesLaws, !PiecesOrder, !ValCompareLaws Small}.
Context (I : B → Prop) (E D : Error → Prop) `{!Metered B I E, !MeteredCalls B I E, !LimitsDepth B I D}.
#[local] Abbreviation Val := (Val Small) (only parsing).
#[local] Abbreviation HostObject := (HostObject Small) (only parsing).
#[local] Abbreviation Host := (ObjHost Small B) (only parsing).
Context (fine : Error → Prop) (HE : ∀ e, E e → fine e) (HD : ∀ e, D e → fine e).
Context (os : list HostObject) (fs : list (option VmFrame)).
#[local] Abbreviation fz := (frozen I os fs) (only parsing).

(** Numbers of one type are ordered as what they stand for. *)
Lemma number_order t (mk : Z → HostObject) a b g sa sb :
  number_object t = Some mk → in_width (mk a) → in_width (mk b) →
  denote_obj g (mk a) = Some sa → denote_obj g (mk b) = Some sb → scval_cmp sa sb = (a ?= b).
Proof.
  destruct t; try done; intros [= <-]; cbn [in_width denote_obj]; intros Ha Hb; try (intros [= <-] [= <-]; cbn [scval_cmp]).
  1-4: done.
  - by rewrite (u128_order a b).
  - by rewrite (i128_order a b).
  - rewrite (u256_order a b) by done. destruct (u256_into_pieces a) as [[[??]?]?], (u256_into_pieces b) as [[[??]?]?]. by intros [= <-] [= <-].
  - rewrite (i256_order a b) by done. destruct (i256_into_pieces a) as [[[??]?]?], (i256_into_pieces b) as [[[??]?]?]. by intros [= <-] [= <-].
Qed.
Lemma number_denotes t (mk : Z → HostObject) n g sv :
  number_object t = Some mk → denote_obj (λ _, None) (mk n) = Some sv → denote_obj g (mk n) = Some sv.
Proof. by destruct t; intros [= <-]. Qed.
Lemma number_wrapper t (mk : Z → HostObject) n : number_object t = Some mk → wrapper (mk n) = t.
Proof. by destruct t; intros [= <-]. Qed.

(** An object and a small value: their order, or nothing if their types differ. *)
Lemma try_compare_returns hot s g sv :
  in_width hot → denote_obj g hot = Some sv →
  returns fz (try_compare_to_small hot s)
    (λ r, match r with
          | Some o => o = scval_cmp sv (small_scval s)
          | None => discriminant sv ≠ discriminant (small_scval s)
          end) fine.
Proof.
  intros Hw Hd.
  assert (∀ t mk size n, number_object t = Some mk → hot = mk n → 0 <= size →
    returns fz (match small_number t s with
      | Some small => let* o := compare_fixed_size size Z.compare n small in m_ret (Some o)
      | None => m_ret None end)
      (λ r, match r with Some o => o = scval_cmp sv (small_scval s) | None => discriminant sv ≠ discriminant (small_scval s) end) fine) as Hnum.
  { intros t mk size n Hmk -> Hs. destruct (small_number t s) as [small|] eqn:Hsm.
    - eapply returns_bind; [by apply (compare_fixed_returns fz E fine HE)|]. intros o ->. apply returns_ret.
      destruct (small_number_some _ _ _ Hsm) as (mk' & Hmk' & Hw' & Hd'). rewrite Hmk in Hmk'. injection Hmk' as <-.
      symmetry. eapply number_order; [done|done|done|exact Hd|by eapply number_denotes].
    - apply returns_ret. rewrite <-(object_type (mk n) g sv Hd), <-small_type, (number_wrapper t) by done. by eapply small_number_none. }
  assert (match small_scval s with Xdr.Vec _ | Xdr.Map _ | Xdr.Bytes _ | Xdr.String _ | Xdr.Address _ => False | _ => True end) as Hplain
    by apply small_plain.
  destruct hot as [l|m|n|n|n|n|n|n|n|n|b|b|b|a]; cbn [try_compare_to_small]; try (by eapply Hnum).
  all: try (apply returns_ret; simpl in Hd; rewrite !discriminant_type;
    first [apply bind_Some in Hd as (? & _ & [= <-])|injection Hd as <-]; by destruct (small_scval s)).
  injection Hd as <-. destruct (small_symbol s) as [rhs|] eqn:Hs.
  - eapply returns_bind; [apply (compare_bytes_returns fz E fine HE)|]. intros o ->. apply returns_ret. by rewrite (small_symbol_some _ _ Hs).
  - apply returns_ret. rewrite <-small_type. rewrite <-(object_type (OSymbol b) (λ _, None) (Xdr.Symbol b) eq_refl). by apply small_symbol_none.
Qed.

(** The order of object types is that of the ledger's types. *)
Lemma denoted_discriminant (hot : HostObject) g sv : denote_obj g hot = Some sv → scv_type sv = host_obj_discriminant hot + 5.
Proof.
  destruct hot; simpl; try (by intros [= <-]).
  - by intros (? & _ & [= <-])%bind_Some.
  - by intros (? & _ & [= <-])%bind_Some.
  - destruct (u256_into_pieces n) as [[[??]?]?]. by intros [= <-].
  - destruct (i256_into_pieces n) as [[[??]?]?]. by intros [= <-].
Qed.

Definition value_of (g : Val → option Xdr.ScVal) (v : Val) : Xdr.ScVal := default Xdr.Void (g v).
Lemma mapM_value_of g (l : list Val) sl : mapM g l = Some sl → sl = value_of g <$> l.
Proof. intros Hl%mapM_Some. induction Hl as [|x y l k Hx _ IH]; [done|]. rewrite fmap_cons, <-IH. unfold value_of. by rewrite Hx. Qed.
Lemma mapM_entry_of g (m : list (Val * Val)) sm :
  mapM (λ kv, k ← g kv.1; v ← g kv.2; Some (k, v)) m = Some sm → sm = (λ kv, (value_of g kv.1, value_of g kv.2)) <$> m.
Proof.
  intros Hl%mapM_Some. induction Hl as [|x y l k Hx _ IH]; [done|]. rewrite fmap_cons, <-IH. unfold value_of.
  apply bind_Some in Hx as (sk & Hk & (sv & Hv & [= <-])%bind_Some). by rewrite Hk, Hv.
Qed.

(** What an object holds stands for something if the object does. *)
Lemma denoted_parts g (hot : HostObject) sv x : denote_obj g hot = Some sv → x ∈ vals_of hot → ∃ sx, g x = Some sx.
Proof.
  destruct hot as [l|m| | | | | | | | | | | |]; simpl; try (intros _ ?%elem_of_nil; done).
  - intros (sl & Hl%mapM_Some & _)%bind_Some Hx. apply list_elem_of_lookup in Hx as [i Hi].
    destruct (Forall2_lookup_l _ _ _ _ _ Hl Hi) as (y & _ & Hy). by exists y.
  - intros (sm & Hm%mapM_Some & _)%bind_Some Hx.
    assert (∃ kv, kv ∈ m ∧ (x = kv.1 ∨ x = kv.2)) as (kv & Hkv & Hx').
    { apply elem_of_app in Hx as [Hx|Hx]; apply list_elem_of_fmap in Hx as (kv & -> & Hkv); eauto. }
    apply list_elem_of_lookup in Hkv as [i Hi]. destruct (Forall2_lookup_l _ _ _ _ _ Hm Hi) as (y & _ & Hy).
    apply bind_Some in Hy as (sk & Hk & (sv' & Hv & _)%bind_Some). destruct Hx' as [->| ->]; eauto.
Qed.

Definition compares (g : Val → option Xdr.ScVal) (p : M Host comparison) x y : Prop :=
  returns fz p (λ o, o = scval_cmp (value_of g x) (value_of g y)) fine.

Lemma compare_host_object_returns rec g (a b : HostObject) va vb :
  (∀ x y, x ∈ vals_of a → y ∈ vals_of b → compares g (rec x y) x y) →
  in_width a → in_width b → denote_obj g a = Some va → denote_obj g b = Some vb →
  returns fz (compare_host_object rec a b) (λ o, o = scval_cmp va vb) fine.
Proof.
  intros Hrec Ha Hb Hda Hdb. apply (limited_depth_returns fz D fine); [exact HD|].
  destruct (decide (host_obj_discriminant a = host_obj_discriminant b)) as [Heq|Hne].
  2: { pose proof (denoted_discriminant _ _ _ Hda) as Hta. pose proof (denoted_discriminant _ _ _ Hdb) as Htb.
    assert (scval_cmp va vb = (host_obj_discriminant a ?= host_obj_discriminant b)) as Hcmp.
    { rewrite scval_cmp_types by lia. rewrite Hta, Htb, !(Z.add_comm _ 5). apply Z.add_compare_mono_l. }
    destruct a, b; try (by destruct Hne); by apply returns_ret. }
  assert (∀ size n m t mk, number_object t = Some mk → a = mk n → b = mk m → 0 <= size →
    returns fz (compare_fixed_size size Z.compare n m) (λ o, o = scval_cmp va vb) fine) as Hnum.
  { intros size n m t mk Ht -> -> Hs. rewrite (number_order t mk n m g va vb) by done. by apply (compare_fixed_returns fz E fine HE). }
  assert (∀ charged, 0 <= charged → returns fz (charge (B:=Host) MemCpy (Some charged)) (λ _, True) fine) as Hcharge.
  { intros c Hc. eapply returns_weaken; [by apply (charge_returns (B:=Host))|done|exact HE]. }
  destruct a as [l|m|n|n|n|n|n|n|n|n|x|x|x|x]; destruct b as [k|j|n'|n'|n'|n'|n'|n'|n'|n'|y|y|y|y]; try discriminate Heq.
  3: by eapply (Hnum 8 n n' U64Object). 3: by eapply (Hnum 8 n n' I64Object). 3: by eapply (Hnum 8 n n' TimepointObject).
  3: by eapply (Hnum 8 n n' DurationObject). 3: by eapply (Hnum 16 n n' U128Object). 3: by eapply (Hnum 16 n n' I128Object).
  3: by eapply (Hnum 32 n n' U256Object). 3: by eapply (Hnum 32 n n' I256Object).
  - simpl in Hda, Hdb. apply bind_Some in Hda as (sl & Hl & [= <-]). apply bind_Some in Hdb as (sk & Hk & [= <-]). cbn [scval_cmp].
    rewrite (mapM_value_of _ _ _ Hl), (mapM_value_of _ _ _ Hk), lex_fmap.
    eapply returns_bind; [by apply Hcharge, clamp_bounds|intros _ _].
    apply (compare_vec_returns fz fine _ (λ x y, scval_cmp (value_of g x) (value_of g y))). intros x y Hx Hy. by apply Hrec.
  - simpl in Hda, Hdb. apply bind_Some in Hda as (sl & Hl & [= <-]). apply bind_Some in Hdb as (sk & Hk & [= <-]). cbn [scval_cmp].
    rewrite (mapM_entry_of _ _ _ Hl), (mapM_entry_of _ _ _ Hk), lex_fmap.
    eapply returns_bind; [by apply Hcharge, clamp_bounds|intros _ _].
    apply (compare_vec_returns fz fine _ (λ p q, then_cmp (scval_cmp (value_of g p.1) (value_of g q.1))
      (scval_cmp (value_of g p.2) (value_of g q.2)))).
    intros p q Hp Hq.
    apply (compare_pair_returns fz fine _ _ (λ x y, scval_cmp (value_of g x) (value_of g y)) (λ x y, scval_cmp (value_of g x) (value_of g y)));
      apply Hrec; simpl; apply elem_of_app; (left + right); by apply list_elem_of_fmap_2.
  - injection Hda as <-. injection Hdb as <-. by apply (compare_bytes_returns fz E fine HE).
  - injection Hda as <-. injection Hdb as <-. by apply (compare_bytes_returns fz E fine HE).
  - injection Hda as <-. injection Hdb as <-. by apply (compare_bytes_returns fz E fine HE).
  - injection Hda as <-. injection Hdb as <-. cbn [scval_cmp]. by apply (compare_fixed_returns fz E fine HE).
Qed.

(** [obj_cmp], where an object takes part. *)
Lemma obj_cmp_returns rec g a b va vb :
  Forall in_width os → (∀ o, a = VObject o → valid os o) → (∀ o, b = VObject o → valid os o) →
  (∃ o, a = VObject o) ∨ (∃ o, b = VObject o) →
  (∀ v sv, v = a ∧ sv = va ∨ v = b ∧ sv = vb →
     match v with VObject o => ∃ hot, target os o = Some hot ∧ denote_obj g hot = Some sv | VSmall s => sv = small_scval s end) →
  (∀ hot hot' x y, x ∈ vals_of hot → y ∈ vals_of hot' → (∃ o, a = VObject o ∧ target os o = Some hot) →
     (∃ o, b = VObject o ∧ target os o = Some hot') → compares g (rec x y) x y) →
  returns fz (obj_cmp rec a b) (λ z, z = sign (scval_cmp va vb)) fine.
Proof.
  intros Hwidth Hva Hvb Hobj Hden Hrec.
  assert (∀ o hot, target os o = Some hot → in_width hot) as Hw.
  { intros o hot Ht. rewrite Forall_forall in Hwidth. apply Hwidth. unfold target in Ht. case_match; [done|].
    by eapply list_elem_of_lookup_2. }
  pose proof (Hden a va ltac:(by left)) as Ha. pose proof (Hden b vb ltac:(by right)) as Hb. unfold obj_cmp.
  assert (∀ o hot sv, valid os o → target os o = Some hot → denote_obj g hot = Some sv → get_scval_type (get_tag o) = discriminant sv) as Htag.
  { intros o hot sv (hot' & Ht' & Hwr) Ht Hd. rewrite Ht in Ht'. injection Ht' as <-. rewrite Hwr. by eapply object_type. }
  eapply (returns_bind _ _ _ _ (λ r, match r with Some o => o = scval_cmp va vb | None =>
    scval_type a = discriminant va ∧ scval_type b = discriminant vb ∧ discriminant va ≠ discriminant vb end)).
  - destruct a as [oa|sa], b as [ob|sb]; [| | |by destruct Hobj as [ [? ?]|[? ?] ] ].
    + destruct Ha as (ha & Hta & Hda), Hb as (hb & Htb & Hdb).
      eapply (visit_untyped_returns I E fine HE os fs oa ha); [done|]. eapply (visit_untyped_returns I E fine HE os fs ob hb); [done|].
      eapply returns_bind; [|intros o Ho; apply returns_ret; exact Ho].
      eapply compare_host_object_returns; [|by eapply Hw|by eapply Hw|done|done]. intros x y Hx Hy. eapply Hrec; eauto.
    + destruct Ha as (ha & Hta & Hda). subst vb.
      eapply (visit_untyped_returns I E fine HE os fs oa ha); [done|]. eapply returns_mono; [by eapply try_compare_returns; [eapply Hw|]|].
      intros [o|]; [done|]. intros Hne. split_and!; [eapply Htag; eauto|apply small_type|done].
    + destruct Hb as (hb & Htb & Hdb). subst va.
      eapply (visit_untyped_returns I E fine HE os fs ob hb); [done|].
      eapply returns_bind; [by eapply try_compare_returns; [eapply Hw|]|]. intros [o|] Ho; apply returns_ret; simpl.
      * rewrite (ord_flip vb (small_scval sa)), <-Ho. by destruct o.
      * split_and!; [apply small_type|eapply Htag; eauto|by apply not_eq_sym].
  - intros [o|] Hr; [by apply returns_ret; subst|]. destruct Hr as (-> & -> & Hne). rewrite decide_False by done.
    apply returns_ret. rewrite !discriminant_type in *. by rewrite scval_cmp_types.
Qed.

(** The host compares values by what they stand for. *)
Lemma compare_host_val_returns n fuel a b va vb :
  objects_wf os → Forall in_width os → (n <= fuel)%nat →
  (∀ o, a = VObject o → valid os o) → (∀ o, b = VObject o → valid os o) →
  denote n os a = Some va → denote n os b = Some vb →
  returns fz (compare_host_val fuel a b) (λ o, o = scval_cmp va vb) fine.
Proof.
  intros Hwf Hwidth. revert fuel a b va vb. induction n as [|n IH]; intros fuel a b va vb Hfuel Hva Hvb Ha Hb; [done|].
  destruct fuel as [|fuel]; [lia|]. cbn [compare_host_val].
  assert (∀ v sv, denote (S n) os v = Some sv → value_of (denote (S n) os) v = sv) as Hval.
  { intros v sv Hv. unfold value_of. by rewrite Hv. }
  rewrite <-(Hval a va Ha), <-(Hval b vb Hb).
  apply (compare_val_returns fz fine _ (λ x y, scval_cmp (value_of (denote (S n) os) x) (value_of (denote (S n) os) y)) a b).
  - intros ->. by apply ord_eq.
  - done.
  - intros Hobj. rewrite (Hval a va Ha), (Hval b vb Hb). apply (obj_cmp_returns _ (denote n os)); [done..| |].
    + intros v sv [ [-> ->]|[-> ->] ]; [destruct a as [o|s]|destruct b as [o|s] ]; simpl in Ha, Hb; try (by simplify_eq);
        [apply bind_Some in Ha as (hot & ? & ?)|apply bind_Some in Hb as (hot & ? & ?)]; by exists hot.
    + intros ha hb x y Hx Hy (oa & -> & Hta) (ob & -> & Htb). simpl in Ha, Hb. rewrite Hta in Ha. rewrite Htb in Hb. simpl in Ha, Hb.
      destruct (denoted_parts _ _ _ x Ha Hx) as [sx Hsx]. destruct (denoted_parts _ _ _ y Hb Hy) as [sy Hsy].
      unfold compares, value_of. rewrite Hsx, Hsy. apply IH; [lia| | |done|done].
      * intros o ->. eapply (ok_held (Discipline := typing)); [done|by apply Hva|exact Hta|done].
      * intros o ->. eapply (ok_held (Discipline := typing)); [done|by apply Hvb|exact Htb|done].
Qed.
End host.

(** * Properties *)

Section properties.
Context {Small B : Type} `{SmallVals Small, SmallScVals Small, !SmallScValsLaws Small, Pieces, SmallSymbols Small}.
Context `{AsBudget B, DepthLimiter B} `{ScValOrders, Compares, ValCompare Small}.
Context `{!ScValOrdersLaws, !ComparesLaws, !PiecesOrder, !ValCompareLaws Small}.
Context (I : B → Prop) (E D : Error → Prop) `{!Metered B I E, !MeteredCalls B I E, !LimitsDepth B I D}.
#[local] Abbreviation Val := (Val Small) (only parsing).
#[local] Abbreviation Host := (ObjHost Small B) (only parsing).
Context (compare_instance : N → N → M B comparison).
(** Errors of metering and of depth. *)
Definition comparison_error (e : Error) : Prop := E e ∨ D e.
Context (Hinst : ∀ a b, returns I (compare_instance a b) (λ o, o = instance_ord a b) comparison_error).
Implicit Types (h : Host) (a b : Val) (os : list (HostObject Small)).

Lemma height_foldr l n : (∀ v, v ∈ l → (height v <= n)%nat) → (foldr (λ v n, max (height v) n) O l <= n)%nat.
Proof. induction l as [|v l IH]; intros Hl; simpl; [lia|]. pose proof (Hl v ltac:(by left)). assert (∀ v, v ∈ l → (height v <= n)%nat) as Hl' by (intros; apply Hl; by right). specialize (IH Hl'). lia. Qed.
Lemma height_foldr_entries m n : (∀ kv, kv ∈ m → (height kv.1 <= n ∧ height kv.2 <= n)%nat) →
  (foldr (λ kv n, max (max (height kv.1) (height kv.2)) n) O m <= n)%nat.
Proof. induction m as [|kv m IH]; intros Hm; simpl; [lia|]. pose proof (Hm kv ltac:(by left)). assert (∀ kv, kv ∈ m → (height kv.1 <= n ∧ height kv.2 <= n)%nat) as Hm' by (intros; apply Hm; by right). specialize (IH Hm'). lia. Qed.
Lemma proper_foldr l : (∀ v, v ∈ l → proper v) → foldr (λ v P, proper v ∧ P) True l.
Proof. induction l as [|v l IH]; intros Hl; simpl; [done|]. split; [apply Hl; by left|]. apply IH. intros. apply Hl. by right. Qed.
Lemma proper_foldr_entries m : (∀ kv, kv ∈ m → proper kv.1 ∧ proper kv.2) → foldr (λ kv P, proper kv.1 ∧ proper kv.2 ∧ P) True m.
Proof. induction m as [|v l IH]; intros Hl; simpl; [done|]. destruct (Hl v); [by left|]. split_and!; [done..|]. apply IH. intros. apply Hl. by right. Qed.

(** What a value stands for is no deeper than the objects behind it. *)
Lemma denoted_shape n os a va : denote n os a = Some va → (height va <= n)%nat ∧ proper va.
Proof.
  revert a va. induction n as [|n IH]; intros a va; simpl; [done|]. destruct a as [o|s].
  - intros (hot & _ & Hd)%bind_Some. destruct hot as [l|m|k|k|k|k|k|k|k|k|x|x|x|x]; simpl in Hd.
    1: { apply bind_Some in Hd as (sl & Hl%mapM_Some & [= <-]).
      assert (∀ v, v ∈ sl → (height v <= n)%nat ∧ proper v) as Hin.
      { intros v [i Hi]%list_elem_of_lookup. destruct (Forall2_lookup_r _ _ _ _ _ Hl Hi) as (x & _ & Hx). by eapply IH. }
      simpl. split; [|apply proper_foldr; intros; by apply Hin]. apply le_n_S, height_foldr. intros. by apply Hin. }
    1: { apply bind_Some in Hd as (sm & Hm%mapM_Some & [= <-]).
      assert (∀ kv, kv ∈ sm → (height kv.1 <= n ∧ height kv.2 <= n)%nat ∧ proper kv.1 ∧ proper kv.2) as Hin.
      { intros kv [i Hi]%list_elem_of_lookup. destruct (Forall2_lookup_r _ _ _ _ _ Hm Hi) as (x & _ & Hx).
        apply bind_Some in Hx as (sk & Hk & (sv & Hv & [= <-])%bind_Some). apply IH in Hk, Hv. naive_solver. }
      simpl. split; [|apply proper_foldr_entries; intros; by apply Hin]. apply le_n_S, height_foldr_entries. intros. by apply Hin. }
    all: try (destruct (u256_into_pieces k) as [[[??]?]?] || destruct (i256_into_pieces k) as [[[??]?]?] || idtac);
      try (injection Hd as <-; simpl; split; [lia|done]).
    by destruct (i256_into_pieces k) as [[[??]?]?]; injection Hd as <-; simpl; split; [lia|].
  - intros [= <-]. pose proof (small_plain s) as Hs. destruct (small_scval s); try done; simpl; split; (lia || done).
Qed.

(** A valid value stands for one of the ledger. *)
Lemma valid_stands os n a : objects_wf os → (∀ o, a = VObject o → valid os o) → (length os < n)%nat → ∃ va, denote n os a = Some va.
Proof. intros Hwf Hva Hn. eapply (denote_total os n (length os) a); [done|by apply valid_among_all|done]. Qed.
Lemma compare_stands h a b va vb n :
  I (budget h) → objects_wf (objects h) → Forall in_width (objects h) →
  (∀ o, a = VObject o → valid (objects h) o) → (∀ o, b = VObject o → valid (objects h) o) →
  denote n (objects h) a = Some va → denote n (objects h) b = Some vb →
  let '(r, h') := compare_host_val n a b h in
  objects h' = objects h ∧ frames h' = frames h ∧
  match r with Ok o => o = scval_cmp va vb | Err e => comparison_error e end.
Proof.
  intros Hb Hwf Hw Hva Hvb Ha Hb'.
  destruct (compare_host_val_returns I E D comparison_error ltac:(by left) ltac:(by right) (objects h) (frames h) n n a b va vb
    Hwf Hw (le_n n) Hva Hvb Ha Hb' h) as [Hh' Hr]; [done|].
  destruct (compare_host_val n a b h) as [r h']. by destruct Hh' as (Ho & Hf & _).
Qed.

(** C25: the host compares values by what they stand for.  On a well-typed host any two values,
    small or objects of any types and depth, stand for values of the ledger; comparing them
    leaves objects and frames alone and gives the order of those, as does comparing the
    ledger values themselves in a budget; the only errors are of metering and depth. *)
Theorem host_comparison_agrees h a b n :
  I (budget h) → objects_wf (objects h) → Forall in_width (objects h) →
  (∀ o, a = VObject o → valid (objects h) o) → (∀ o, b = VObject o → valid (objects h) o) →
  (length (objects h) < n)%nat →
  ∃ va vb, denote n (objects h) a = Some va ∧ denote n (objects h) b = Some vb ∧
    (let '(r, h') := compare_host_val n a b h in
     objects h' = objects h ∧ frames h' = frames h ∧
     match r with Ok o => o = scval_cmp va vb | Err e => comparison_error e end) ∧
    ∀ budget, I budget →
      match (compare_scval compare_instance n va vb budget).1 with
      | Ok o => o = scval_cmp va vb
      | Err e => comparison_error e
      end.
Proof.
  intros Hb Hwf Hw Hva Hvb Hn.
  destruct (valid_stands (objects h) n a) as [va Ha]; [done..|]. destruct (valid_stands (objects h) n b) as [vb Hb']; [done..|].
  exists va, vb. split; [done|]. split; [done|]. split; [by apply compare_stands|].
  intros bud Hbud. destruct (denoted_shape _ _ _ _ Ha) as [Hha Hpa]. destruct (denoted_shape _ _ _ _ Hb') as [_ Hpb].
  destruct (compare_scval_returns I E D comparison_error ltac:(by left) ltac:(by right) compare_instance Hinst n va vb Hha Hpa Hpb bud Hbud)
    as [_ Hr]. by destruct (compare_scval compare_instance n va vb bud).1.
Qed.

(** The comparison of two values gives an order, on some host with these objects. *)
Definition gives os n a b (o : comparison) : Prop := ∃ h, I (budget h) ∧ objects h = os ∧ (compare_host_val n a b h).1 = Ok o.
Lemma gives_order os n a b va vb o :
  objects_wf os → Forall in_width os → (∀ x, a = VObject x → valid os x) → (∀ x, b = VObject x → valid os x) →
  denote n os a = Some va → denote n os b = Some vb → gives os n a b o → o = scval_cmp va vb.
Proof.
  intros Hwf Hw Hva Hvb Ha Hb (h & Hi & <- & Hr). pose proof (compare_stands h a b va vb n Hi Hwf Hw Hva Hvb Ha Hb) as Hc.
  destruct (compare_host_val n a b h) as [r h']. simpl in Hr. subst r. by destruct Hc as (_ & _ & ?).
Qed.

(** The comparison of host values is a total preorder.  It gives Eq exactly on values
    that stand for the same ledger value, in one object or in several; comparing the other
    way round gives the opposite; and it is transitive.  Neither the budget nor anything
    else of the host but its objects can change an answer. *)
Theorem host_comparison_ordered os n a b c :
  objects_wf os → Forall in_width os → (length os < n)%nat →
  (∀ x, a = VObject x → valid os x) → (∀ x, b = VObject x → valid os x) → (∀ x, c = VObject x → valid os x) →
  (∀ o, gives os n a b o → o = Eq ↔ denote n os a = denote n os b) ∧
  (∀ o o', gives os n a b o → gives os n a b o' → o = o') ∧
  (∀ o o', gives os n a b o → gives os n b a o' → o' = CompOpp o) ∧
  (∀ o, gives os n a b Lt → gives os n b c Lt → gives os n a c o → o = Lt).
Proof.
  intros Hwf Hw Hn Hva Hvb Hvc. destruct (valid_stands os n a) as [va Ha]; [done..|].
  destruct (valid_stands os n b) as [vb Hb]; [done..|]. destruct (valid_stands os n c) as [vc Hc]; [done..|].
  assert (∀ x y vx vy o, (∀ z, x = VObject z → valid os z) → (∀ z, y = VObject z → valid os z) →
    denote n os x = Some vx → denote n os y = Some vy → gives os n x y o → o = scval_cmp vx vy) as Hg
    by (intros x y vx vy o Hvx Hvy Hx Hy Hxy; exact (gives_order os n x y vx vy o Hwf Hw Hvx Hvy Hx Hy Hxy)). clear Hwf Hw Hn.
  split_and!.
  - intros o ->%(Hg _ _ va vb); [|done..]. rewrite Ha, Hb, scval_cmp_eq. split; congruence.
  - intros o o' ->%(Hg _ _ va vb) ->%(Hg _ _ va vb); done.
  - intros o o' ->%(Hg _ _ va vb) ->%(Hg _ _ vb va); [|done..]. apply scval_cmp_flip.
  - intros o Hab%(Hg _ _ va vb) Hbc%(Hg _ _ vb vc) ->%(Hg _ _ va vc); [|done..]. by eapply scval_cmp_trans.
Qed.
End properties.
