(* ===== verification/Numbers.v ===== *)
(** The host functions on numbers: the "int" module of P/host.rs with the macros of
    P/host/num.rs and the fixed-length bytes of P/host/conversion.rs.

    The arithmetic itself is that of the ethnum library ([Ethnum]); which numbers are small
    values, and how a value is taken for a number or made from one through the functions of
    the host, is decided in soroban-env-common ([NumConversions]).
    The properties: arithmetic on 256-bit integers is exact or an error, and numbers are
    read back as they were made. *)
From Stdlib Require Zquot.
From S2P Require Import Prelude ScVal Budget BudgetThms Metering Search OrdMap Vector Objects Convert LinMem Dispatch ObjCode ObjThms ObjEffects ObjSafe ObjRefine ObjProps ConvertThms Compare CompareThms.
#[local] Open Scope m_scope.

(** * What comes from outside of the repository *)

Inductive Int256 := U256 | I256.
Inductive Method := checked_add | checked_sub | checked_mul | checked_div | checked_rem_euclid.
Inductive MethodU32 := checked_pow | checked_shl | checked_shr.

(** The integers of ethnum. *)
Class Ethnum := {
  checked (num : Int256) : Method → Z → Z → option Z;
  checked_u32 (num : Int256) : MethodU32 → Z → Z → option Z;
  to_be_bytes (num : Int256) : Z → bytes;
  from_be_bytes (num : Int256) : bytes → Z
}.

(** [TryFromVal] between numbers and values, by the functions of the environment on the
    pieces of objects. *)
Class NumConversions (Small : Type) := {
  num_from_val {S} (num : Int256) (hi_hi hi_lo lo_hi lo_lo : Object → M S Z) : Val Small → M S Z;
  num_small (num : Int256) : Z → option Small;
  val_from_num {S} (num : Int256) (from_pieces : Z → Z → Z → Z → M S Object) : Z → M S (Val Small)
}.

Definition valty (num : Int256) : Tag := match num with U256 => U256Object | I256 => I256Object end.

Section numbers.
Context {Small B : Type} `{SmallVals Small, SmallScVals Small, Pieces, SmallSymbols Small, ValCompare Small}.
Context `{Ethnum, NumConversions Small} `{AsBudget B}.
#[local] Abbreviation Val := (Val Small) (only parsing).
#[local] Abbreviation HostObject := (HostObject Small) (only parsing).
#[local] Abbreviation Host := (ObjHost Small B) (only parsing).
Context (xdr_error : Error).

(** ** Objects and words *)

Definition extract_u64 (o : HostObject) := match o with OU64 n => Some n | _ => None end.
Definition extract_i64 (o : HostObject) := match o with OI64 n => Some n | _ => None end.
Definition extract_timepoint (o : HostObject) := match o with OTimePoint n => Some n | _ => None end.
Definition extract_duration (o : HostObject) := match o with ODuration n => Some n | _ => None end.
Definition extract_u128 (o : HostObject) := match o with OU128 n => Some n | _ => None end.
Definition extract_i128 (o : HostObject) := match o with OI128 n => Some n | _ => None end.
Definition extract_u256 (o : HostObject) := match o with OU256 n => Some n | _ => None end.
Definition extract_i256 (o : HostObject) := match o with OI256 n => Some n | _ => None end.

Definition impl_wrapping_obj_from_num (hot : Z → HostObject) (u : Z) : M Host Object := add_host_object (hot u).
Definition impl_wrapping_obj_to_num (extract : HostObject → option Z) (obj : Object) : M Host Z :=
  visit_obj extract obj (λ t, copy_sized 8 1 ;;; m_ret t).

Definition obj_from_u64 : Z → M Host Object := impl_wrapping_obj_from_num OU64.
Definition obj_to_u64 : Object → M Host Z := impl_wrapping_obj_to_num extract_u64.
Definition obj_from_i64 : Z → M Host Object := impl_wrapping_obj_from_num OI64.
Definition obj_to_i64 : Object → M Host Z := impl_wrapping_obj_to_num extract_i64.
Definition timepoint_obj_from_u64 : Z → M Host Object := impl_wrapping_obj_from_num OTimePoint.
Definition timepoint_obj_to_u64 : Object → M Host Z := impl_wrapping_obj_to_num extract_timepoint.
Definition duration_obj_from_u64 : Z → M Host Object := impl_wrapping_obj_from_num ODuration.
Definition duration_obj_to_u64 : Object → M Host Z := impl_wrapping_obj_to_num extract_duration.

(** ** 128 bits *)

Definition obj_from_u128_pieces (hi lo : Z) : M Host Object := add_host_object (OU128 (u128_from_pieces hi lo)).
Definition obj_to_u128_lo64 (obj : Object) : M Host Z := visit_obj extract_u128 obj (λ u, m_ret (u128_lo u)).
Definition obj_to_u128_hi64 (obj : Object) : M Host Z := visit_obj extract_u128 obj (λ u, m_ret (u128_hi u)).
Definition obj_from_i128_pieces (hi lo : Z) : M Host Object := add_host_object (OI128 (i128_from_pieces hi lo)).
Definition obj_to_i128_lo64 (obj : Object) : M Host Z := visit_obj extract_i128 obj (λ i, m_ret (i128_lo i)).
Definition obj_to_i128_hi64 (obj : Object) : M Host Z := visit_obj extract_i128 obj (λ i, m_ret (i128_hi i)).

(** ** 256 bits *)

Definition obj_from_u256_pieces (hi_hi hi_lo lo_hi lo_lo : Z) : M Host Object :=
  add_host_object (OU256 (u256_from_pieces hi_hi hi_lo lo_hi lo_lo)).
Definition obj_to_u256_hi_hi (obj : Object) : M Host Z :=
  visit_obj extract_u256 obj (λ u, let '(hi_hi, _, _, _) := u256_into_pieces u in m_ret hi_hi).
Definition obj_to_u256_hi_lo (obj : Object) : M Host Z :=
  visit_obj extract_u256 obj (λ u, let '(_, hi_lo, _, _) := u256_into_pieces u in m_ret hi_lo).
Definition obj_to_u256_lo_hi (obj : Object) : M Host Z :=
  visit_obj extract_u256 obj (λ u, let '(_, _, lo_hi, _) := u256_into_pieces u in m_ret lo_hi).
Definition obj_to_u256_lo_lo (obj : Object) : M Host Z :=
  visit_obj extract_u256 obj (λ u, let '(_, _, _, lo_lo) := u256_into_pieces u in m_ret lo_lo).
Definition obj_from_i256_pieces (hi_hi hi_lo lo_hi lo_lo : Z) : M Host Object :=
  add_host_object (OI256 (i256_from_pieces hi_hi hi_lo lo_hi lo_lo)).
Definition obj_to_i256_hi_hi (obj : Object) : M Host Z :=
  visit_obj extract_i256 obj (λ i, let '(hi_hi, _, _, _) := i256_into_pieces i in m_ret hi_hi).
Definition obj_to_i256_hi_lo (obj : Object) : M Host Z :=
  visit_obj extract_i256 obj (λ i, let '(_, hi_lo, _, _) := i256_into_pieces i in m_ret hi_lo).
Definition obj_to_i256_lo_hi (obj : Object) : M Host Z :=
  visit_obj extract_i256 obj (λ i, let '(_, _, lo_hi, _) := i256_into_pieces i in m_ret lo_hi).
Definition obj_to_i256_lo_lo (obj : Object) : M Host Z :=
  visit_obj extract_i256 obj (λ i, let '(_, _, _, lo_lo) := i256_into_pieces i in m_ret lo_lo).

(** The conversions, with the functions they call. *)
Definition try_into_num (num : Int256) : Val → M Host Z :=
  match num with
  | U256 => num_from_val U256 obj_to_u256_hi_hi obj_to_u256_hi_lo obj_to_u256_lo_hi obj_to_u256_lo_lo
  | I256 => num_from_val I256 obj_to_i256_hi_hi obj_to_i256_hi_lo obj_to_i256_lo_hi obj_to_i256_lo_lo
  end.
Definition try_into_val (num : Int256) : Z → M Host Val :=
  match num with
  | U256 => val_from_num U256 obj_from_u256_pieces
  | I256 => val_from_num I256 obj_from_i256_pieces
  end.

(** *** Bytes *)

Definition fixed_length_bytes_from_slice (N : nat) (bytes_arr : bytes) : M Host bytes :=
  if decide (length bytes_arr = N) then charge MemCpy (Some (Z.of_nat N)) ;;; m_ret bytes_arr
  else m_fail (EHost TObject UnexpectedSize).
Definition metered_slice_to_vec (s : bytes) : M Host bytes :=
  charge_bulk_init_cpy bytes Byte.byte (Z.of_nat (length s)) ;;; m_ret s.
Definition scbytes_from_slice (s : bytes) : M Host bytes := let* v := metered_slice_to_vec s in m_lift (to_scbytes xdr_error v).

Definition u256_val_from_be_bytes (b : Object) : M Host Val :=
  let* num := visit_obj extract_bytes b (λ b,
    let* arr := fixed_length_bytes_from_slice 32 b in m_ret (from_be_bytes U256 arr)) in
  try_into_val U256 num.
Definition i256_val_from_be_bytes (b : Object) : M Host Val :=
  let* num := visit_obj extract_bytes b (λ b,
    let* arr := fixed_length_bytes_from_slice 32 b in m_ret (from_be_bytes I256 arr)) in
  m_map_err (λ _, CONVERSION) (try_into_val I256 num).

(** A value of the type is a small number or a reference to an object of it. *)
Definition u256_val_to_be_bytes (val : Val) : M Host Object :=
  match val with
  | VSmall s =>
      let* so := m_lift (ok_or (small_number U256Object s) CONVERSION) in
      let* scb := scbytes_from_slice (to_be_bytes U256 so) in
      add_host_object (OBytes scb)
  | VObject obj =>
      let* scb := visit_obj extract_u256 obj (λ u, scbytes_from_slice (to_be_bytes U256 u)) in
      add_host_object (OBytes scb)
  end.
Definition i256_val_to_be_bytes (val : Val) : M Host Object :=
  match val with
  | VSmall s =>
      let* so := m_lift (ok_or (small_number I256Object s) CONVERSION) in
      let* scb := scbytes_from_slice (to_be_bytes I256 so) in
      add_host_object (OBytes scb)
  | VObject obj =>
      let* scb := visit_obj extract_i256 obj (λ i, scbytes_from_slice (to_be_bytes I256 i)) in
      add_host_object (OBytes scb)
  end.

(** *** Arithmetic *)

Definition OVERFLOW : Error := EHost TObject ArithDomain.
Definition impl_bignum_host_fns (method : Method) (num : Int256) (cost : ContractCostType) (lhs_val rhs_val : Val) : M Host Val :=
  charge cost None ;;;
  let* lhs := try_into_num num lhs_val in
  let* rhs := try_into_num num rhs_val in
  let* res := m_lift (ok_or (checked num method lhs rhs) OVERFLOW) in
  try_into_val num res.
Definition impl_bignum_host_fns_rhs_u32 (method : MethodU32) (num : Int256) (cost : ContractCostType) (lhs_val : Val) (rhs : Z) :
    M Host Val :=
  charge cost None ;;;
  let* lhs := try_into_num num lhs_val in
  let* res := m_lift (ok_or (checked_u32 num method lhs rhs) OVERFLOW) in
  try_into_val num res.

Definition u256_add := impl_bignum_host_fns checked_add U256 Int256AddSub.
Definition u256_sub := impl_bignum_host_fns checked_sub U256 Int256AddSub.
Definition u256_mul := impl_bignum_host_fns checked_mul U256 Int256Mul.
Definition u256_div := impl_bignum_host_fns checked_div U256 Int256Div.
Definition u256_rem_euclid := impl_bignum_host_fns checked_rem_euclid U256 Int256Div.
Definition u256_pow := impl_bignum_host_fns_rhs_u32 checked_pow U256 Int256Pow.
Definition u256_shl := impl_bignum_host_fns_rhs_u32 checked_shl U256 Int256Shift.
Definition u256_shr := impl_bignum_host_fns_rhs_u32 checked_shr U256 Int256Shift.
Definition i256_add := impl_bignum_host_fns checked_add I256 Int256AddSub.
Definition i256_sub := impl_bignum_host_fns checked_sub I256 Int256AddSub.
Definition i256_mul := impl_bignum_host_fns checked_mul I256 Int256Mul.
Definition i256_div := impl_bignum_host_fns checked_div I256 Int256Div.
Definition i256_rem_euclid := impl_bignum_host_fns checked_rem_euclid I256 Int256Div.
Definition i256_pow := impl_bignum_host_fns_rhs_u32 checked_pow I256 Int256Pow.
Definition i256_shl := impl_bignum_host_fns_rhs_u32 checked_shl I256 Int256Shift.
Definition i256_shr := impl_bignum_host_fns_rhs_u32 checked_shr I256 Int256Shift.
End numbers.

(** ** The functions together *)

Inductive Call (Small : Type) :=
| CallVal (method : Method) (lhs rhs : Val Small)
| CallU32 (method : MethodU32) (lhs : Val Small) (rhs : Z).
Arguments CallVal {Small}. Arguments CallU32 {Small}.

Section calls.
Context {Small B : Type} `{SmallVals Small, SmallScVals Small, Pieces, SmallSymbols Small, ValCompare Small}.
Context `{Ethnum, NumConversions Small} `{AsBudget B}.
#[local] Abbreviation Host := (ObjHost Small B) (only parsing).

Definition run_call (num : Int256) (c : Call Small) : M Host (Val Small) :=
  match num, c with
  | U256, CallVal checked_add lhs rhs => u256_add lhs rhs
  | U256, CallVal checked_sub lhs rhs => u256_sub lhs rhs
  | U256, CallVal checked_mul lhs rhs => u256_mul lhs rhs
  | U256, CallVal checked_div lhs rhs => u256_div lhs rhs
  | U256, CallVal checked_rem_euclid lhs rhs => u256_rem_euclid lhs rhs
  | U256, CallU32 checked_pow lhs rhs => u256_pow lhs rhs
  | U256, CallU32 checked_shl lhs rhs => u256_shl lhs rhs
  | U256, CallU32 checked_shr lhs rhs => u256_shr lhs rhs
  | I256, CallVal checked_add lhs rhs => i256_add lhs rhs
  | I256, CallVal checked_sub lhs rhs => i256_sub lhs rhs
  | I256, CallVal checked_mul lhs rhs => i256_mul lhs rhs
  | I256, CallVal checked_div lhs rhs => i256_div lhs rhs
  | I256, CallVal checked_rem_euclid lhs rhs => i256_rem_euclid lhs rhs
  | I256, CallU32 checked_pow lhs rhs => i256_pow lhs rhs
  | I256, CallU32 checked_shl lhs rhs => i256_shl lhs rhs
  | I256, CallU32 checked_shr lhs rhs => i256_shr lhs rhs
  end.

Definition val_from_be_bytes (num : Int256) : Object → M Host (Val Small) :=
  match num with U256 => u256_val_from_be_bytes | I256 => i256_val_from_be_bytes end.
Definition val_to_be_bytes (xdr_error : Error) (num : Int256) : Val Small → M Host Object :=
  match num with U256 => u256_val_to_be_bytes xdr_error | I256 => i256_val_to_be_bytes xdr_error end.

(** What numbers are made of, and how they are made and read. *)
Inductive Source :=
| FromU64 (u : Z) | FromI64 (i : Z) | FromTimepoint (u : Z) | FromDuration (u : Z)
| FromU128 (hi lo : Z) | FromI128 (hi lo : Z)
| FromU256 (hi_hi hi_lo lo_hi lo_lo : Z) | FromI256 (hi_hi hi_lo lo_hi lo_lo : Z).
Definition source_ok (s : Source) : Prop :=
  match s with
  | FromU64 _ | FromI64 _ | FromTimepoint _ | FromDuration _ => True
  | FromU128 hi lo => in_u64 hi ∧ in_u64 lo
  | FromI128 hi lo => in_i64 hi ∧ in_u64 lo
  | FromU256 a b c d => in_u64 a ∧ in_u64 b ∧ in_u64 c ∧ in_u64 d
  | FromI256 a b c d => in_i64 a ∧ in_u64 b ∧ in_u64 c ∧ in_u64 d
  end.
Definition make (s : Source) : M Host Object :=
  match s with
  | FromU64 u => obj_from_u64 u
  | FromI64 i => obj_from_i64 i
  | FromTimepoint u => timepoint_obj_from_u64 u
  | FromDuration u => duration_obj_from_u64 u
  | FromU128 hi lo => obj_from_u128_pieces hi lo
  | FromI128 hi lo => obj_from_i128_pieces hi lo
  | FromU256 a b c d => obj_from_u256_pieces a b c d
  | FromI256 a b c d => obj_from_i256_pieces a b c d
  end.
Definition readers (s : Source) : list ((Object → M Host Z) * Z) :=
  match s with
  | FromU64 u => [(obj_to_u64, u)]
  | FromI64 i => [(obj_to_i64, i)]
  | FromTimepoint u => [(timepoint_obj_to_u64, u)]
  | FromDuration u => [(duration_obj_to_u64, u)]
  | FromU128 hi lo => [(obj_to_u128_hi64, hi); (obj_to_u128_lo64, lo)]
  | FromI128 hi lo => [(obj_to_i128_hi64, hi); (obj_to_i128_lo64, lo)]
  | FromU256 a b c d =>
      [(obj_to_u256_hi_hi, a); (obj_to_u256_hi_lo, b); (obj_to_u256_lo_hi, c); (obj_to_u256_lo_lo, d)]
  | FromI256 a b c d =>
      [(obj_to_i256_hi_hi, a); (obj_to_i256_hi_lo, b); (obj_to_i256_lo_hi, c); (obj_to_i256_lo_lo, d)]
  end.
End calls.

(** * What is promised outside of the repository *)

Definition in_int (num : Int256) (n : Z) : Prop :=
  match num with U256 => 0 <= n < 2 ^ 256 | I256 => - 2 ^ 255 <= n < 2 ^ 255 end.
#[export] Instance in_int_dec num n : Decision (in_int num n).
Proof. destruct num; apply _. Defined.
Definition fit (num : Int256) (n : Z) : option Z := if decide (in_int num n) then Some n else None.
Definition wrap (num : Int256) (n : Z) : Z :=
  match num with U256 => n mod 2 ^ 256 | I256 => (n + 2 ^ 255) mod 2 ^ 256 - 2 ^ 255 end.

(** Methods fail on overflow and division by zero; shifts do so by the width or more, and
    lose the bits shifted out. *)
Class EthnumLaws `{Ethnum} : Prop := {
  add_law num x y : in_int num x → in_int num y → checked num checked_add x y = fit num (x + y);
  sub_law num x y : in_int num x → in_int num y → checked num checked_sub x y = fit num (x - y);
  mul_law num x y : in_int num x → in_int num y → checked num checked_mul x y = fit num (x * y);
  div_zero num x : checked num checked_div x 0 = None;
  div_law num x y : in_int num x → in_int num y → y ≠ 0 → checked num checked_div x y = fit num (x ÷ y);
  rem_zero num x : checked num checked_rem_euclid x 0 = None;
  rem_law num x y : in_int num x → in_int num y → y ≠ 0 →
    checked num checked_rem_euclid x y = (_ ← fit num (x ÷ y); Some (x mod Z.abs y));
  pow_law num x k : in_int num x → in_u32 k → checked_u32 num checked_pow x k = fit num (x ^ k);
  shl_law num x k : in_int num x → in_u32 k →
    checked_u32 num checked_shl x k = if decide (k < 256) then Some (wrap num (Z.shiftl x k)) else None;
  shr_law num x k : in_int num x → in_u32 k →
    checked_u32 num checked_shr x k = if decide (k < 256) then Some (Z.shiftr x k) else None;
  be_bytes_length num n : length (to_be_bytes num n) = 32%nat;
  be_bytes_law num n : in_int num n → from_be_bytes num (to_be_bytes num n) = n
}.

Definition into_pieces `{Pieces} (num : Int256) : Z → Z * Z * Z * Z := match num with U256 => u256_into_pieces | I256 => i256_into_pieces end.
Definition from_pieces `{Pieces} (num : Int256) : Z → Z → Z → Z → Z := match num with U256 => u256_from_pieces | I256 => i256_from_pieces end.
Class PiecesWhole `{Pieces} : Prop :=
  pieces_whole num n : in_int num n → let '(a, b, c, d) := into_pieces num n in from_pieces num a b c d = n.

(** A small number is taken for what it is and an object for what its parts make up; a
    number without a place among small values becomes an object of its pieces. *)
Class NumConversionsLaws (Small : Type) `{Pieces, SmallSymbols Small, ValCompare Small, NumConversions Small} : Prop := {
  num_from_small {S} num f1 f2 f3 f4 s n (st : S) :
    small_number (valty num) s = Some n → num_from_val num f1 f2 f3 f4 (VSmall s) st = (Ok n, st);
  num_from_object {S} (J : S → Prop) (F : Error → Prop) num f1 f2 f3 f4 o a b c d :
    get_tag o = valty num →
    returns J (f1 o) (eq a) F → returns J (f2 o) (eq b) F → returns J (f3 o) (eq c) F → returns J (f4 o) (eq d) F →
    returns J (num_from_val (Small:=Small) num f1 f2 f3 f4 (VObject o)) (eq (from_pieces num a b c d)) (λ e, F e ∨ e = CONVERSION);
  num_small_number num n s : num_small num n = Some s → small_number (valty num) s = Some n;
  val_from_small {S} num mk n s (st : S) : num_small num n = Some s → val_from_num num mk n st = (Ok (VSmall s), st);
  val_from_object {S} num mk n (st : S) : num_small (Small:=Small) num n = None →
    match (let '(a, b, c, d) := into_pieces num n in mk a b c d) st with
    | (Ok o, st') => val_from_num (Small:=Small) num mk n st = (Ok (VObject o), st')
    | (Err e, st') => ∃ e', val_from_num (Small:=Small) num mk n st = (Err e', st') ∧ (e' = e ∨ e' = CONVERSION)
    end
}.

(** * Exact arithmetic *)

(** [n] is the result of [method] on [x] and [y]: the quotient is rounded towards zero, and
    the remainder is not negative, of a quotient that is an integer of the type too. *)
Definition exact (num : Int256) (method : Method) (x y n : Z) : Prop :=
  in_int num n ∧
  match method with
  | checked_add => n = x + y
  | checked_sub => n = x - y
  | checked_mul => n = x * y
  | checked_div => ∃ r, x = y * n + r ∧ Z.abs r < Z.abs y ∧ 0 <= r * x
  | checked_rem_euclid => ∃ q, in_int num q ∧ x = y * q + n ∧ 0 <= n < Z.abs y
  end.
(** Left shifts keep the low 256 bits: bits shifted out are dropped, and are no overflow.
    Right shifts round down. *)
Definition exact_u32 (num : Int256) (method : MethodU32) (x k n : Z) : Prop :=
  in_int num n ∧
  match method with
  | checked_pow => n = x ^ k
  | checked_shl => k < 256 ∧ ∃ q, x * 2 ^ k = n + q * 2 ^ 256
  | checked_shr => k < 256 ∧ n * 2 ^ k <= x < (n + 1) * 2 ^ k
  end.

(** What an optional result says of a relation. *)
Definition decides (r : option Z) (P : Z → Prop) : Prop :=
  match r with Some n => P n ∧ ∀ m, P m → m = n | None => ∀ n, ¬ P n end.

Lemma decides_iff r (P Q : Z → Prop) : (∀ n, Q n ↔ P n) → decides r P → decides r Q.
Proof. intros HPQ. destruct r as [n|]; simpl; [|intros HP m ?%HPQ; by eapply HP]. intros [HP Hu]. split; [by apply HPQ|]. intros m ?%HPQ. auto. Qed.
Lemma fit_decides num v (Q : Z → Prop) : (∀ n, Q n ↔ n = v) → decides (fit num v) (λ n, in_int num n ∧ Q n).
Proof.
  intros HQ. unfold fit. case_decide as Hv; simpl.
  - split; [split; [done|by apply HQ]|]. intros m [_ Hm]. by apply HQ.
  - intros n [Hn ->%HQ]. done.
Qed.

Lemma quot_iff x y n : y ≠ 0 → (∃ r, x = y * n + r ∧ Z.abs r < Z.abs y ∧ 0 <= r * x) ↔ n = x ÷ y.
Proof.
  intros Hy. split.
  - intros (r & Hx & Hr & Hs). apply (Zquot.Zquot_unique_full _ _ _ r); [|done]. apply Zquot.Remainder_equiv. by split.
  - intros ->. exists (Z.rem x y). split; [apply Z.quot_rem'|]. split; [by apply Z.rem_bound_abs|]. by apply Z.rem_sign_mul.
Qed.

(** Euclidean and truncated quotients are integers of the type together. *)
Lemma quotients_in num x y q n : in_int num x → in_int num y → x = y * q + n → 0 <= n < Z.abs y →
  in_int num q ↔ in_int num (x ÷ y).
Proof.
  intros Hx Hy Hq Hn.
  assert (0 <= n * x → q = x ÷ y) as Heq.
  { intros Hs. apply quot_iff; [lia|]. exists n. split; [done|]. lia. }
  destruct num; simpl in Hx, Hy; [by rewrite Heq by nia|].
  destruct (decide (Z.abs y = 1)) as [H1|H1]; [by rewrite Heq by nia|].
  assert (∃ r, x = y * (x ÷ y) + r ∧ Z.abs r < Z.abs y ∧ 0 <= r * x) as (r & Hr & Hb & Hs) by (apply quot_iff; [lia|done]).
  revert Hr. generalize (x ÷ y). intros t Hr. simpl. split; intros _; split; nia.
Qed.

Section exact.
Context `{EthnumLaws}.

Lemma checked_decides num method x y : in_int num x → in_int num y → decides (checked num method x y) (exact num method x y).
Proof.
  intros Hx Hy. destruct method; simpl.
  - rewrite add_law by done. by apply fit_decides.
  - rewrite sub_law by done. by apply fit_decides.
  - rewrite mul_law by done. by apply fit_decides.
  - destruct (decide (y = 0)) as [->|Hy0].
    + rewrite div_zero. intros n (_ & r & _ & Hr & _). lia.
    + rewrite div_law by done. apply fit_decides. intros n. by apply quot_iff.
  - destruct (decide (y = 0)) as [->|Hy0].
    { rewrite rem_zero. intros n (_ & q & _ & _ & Hr). lia. }
    rewrite rem_law by done. unfold fit.
    pose proof (Z.mod_pos_bound x (Z.abs y) ltac:(lia)) as Hb.
    assert (x = y * (Z.sgn y * (x / Z.abs y)) + x mod Z.abs y) as Hdiv.
    { rewrite Z.mul_assoc, Z.sgn_abs. apply Z.div_mod. lia. }
    pose proof (quotients_in num x y _ _ Hx Hy Hdiv Hb) as Hin.
    case_decide as Ht; simpl.
    + split.
      * split; [|by exists (Z.sgn y * (x / Z.abs y)); rewrite Hin]. destruct num; simpl in *; lia.
      * intros m (_ & q & _ & Hq & Hm). rewrite Hq. destruct (Z.abs_or_opp_abs y) as [Ha|Ha]; rewrite Ha at 1.
        { rewrite Z.mul_comm, Z.add_comm, Z_mod_plus_full. by rewrite Z.mod_small. }
        replace (- Z.abs y * q + m) with (m + (- q) * Z.abs y) by lia. rewrite Z_mod_plus_full. by rewrite Z.mod_small.
    + intros n (_ & q & Hqi & Hq & Hn). apply Ht. by apply (quotients_in num x y q n).
Qed.
Lemma same_modulo num n m q : in_int num n → in_int num m → n = m + q * 2 ^ 256 → n = m.
Proof. intros Hn Hm Hq. assert (q = 0) as -> by (destruct num; simpl in *; lia). lia. Qed.

Lemma checked_u32_decides num method x k : in_int num x → in_u32 k →
  decides (checked_u32 num method x k) (exact_u32 num method x k).
Proof.
  intros Hx Hk. assert (0 <= k) as Hk0 by apply Hk. destruct method; simpl.
  - rewrite pow_law by done. by apply fit_decides.
  - rewrite shl_law by done. case_decide as H256; [|by intros n (_ & ? & _)]. rewrite Z.shiftl_mul_pow2 by done.
    unfold decides, exact_u32.
    generalize (x * 2 ^ k). intros v. assert (in_int num (wrap num v) ∧ ∃ q, v = wrap num v + q * 2 ^ 256) as [Hw [q Hq] ].
    { destruct num; simpl.
      - split; [by apply Z.mod_pos_bound|]. exists (v / 2 ^ 256). pose proof (Z.div_mod v (2 ^ 256) ltac:(done)). lia.
      - pose proof (Z.mod_pos_bound (v + 2 ^ 255) (2 ^ 256) ltac:(done)). split; [lia|].
        exists ((v + 2 ^ 255) / 2 ^ 256). pose proof (Z.div_mod (v + 2 ^ 255) (2 ^ 256) ltac:(done)). lia. }
    split; [split; [done|]; split; [done|]; by exists q|]. intros m (Hm & _ & q' & Hq').
    apply (same_modulo num m (wrap num v) (q - q')); [done..|lia].
  - rewrite shr_law by done. case_decide as H256; [|by intros n (_ & ? & _)]. rewrite Z.shiftr_div_pow2 by done.
    unfold decides, exact_u32.
    assert (0 < 2 ^ k) as Hp by (by apply Z.pow_pos_nonneg). pose proof (Z.div_mod x (2 ^ k) ltac:(lia)) as Hd.
    pose proof (Z.mod_pos_bound x (2 ^ k) Hp) as Hb. split.
    + split; [|split; [done|nia] ]. destruct num; simpl in *; nia.
    + intros m (_ & _ & Hm). apply (Z.div_unique_pos _ _ _ (x - 2 ^ k * m)); nia.
Qed.
End exact.

(** * The functions on a host *)

(** The number that a value of the type is. *)
Definition extract_int {Small} (num : Int256) : HostObject Small → option Z := match num with U256 => extract_u256 | I256 => extract_i256 end.
Definition int_object {Small} (num : Int256) : Z → HostObject Small := match num with U256 => OU256 | I256 => OI256 end.
Definition number {Small} `{SmallScVals Small, Pieces, SmallSymbols Small, ValCompare Small} (os : list (HostObject Small)) (num : Int256) (v : Val Small) : option Z :=
  match v with
  | VSmall s => small_number (valty num) s
  | VObject o => if decide (get_tag o = valty num) then target os o ≫= extract_int num else None
  end.

Section host.
Context {Small B : Type} `{SmallVals Small, SmallScVals Small, Pieces, SmallSymbols Small} `{ScValOrders, ValCompare Small}.
Context `{Ethnum, NumConversions Small} `{AsBudget B}.
Context `{!ValCompareLaws Small, !PiecesLaws, !PiecesWhole, !EthnumLaws, !NumConversionsLaws Small}.
Context (I : B → Prop) (E : Error → Prop) `{!Metered B I E, !MeteredCalls B I E}.
#[local] Abbreviation Val := (Val Small) (only parsing).
#[local] Abbreviation HostObject := (HostObject Small) (only parsing).
#[local] Abbreviation Host := (ObjHost Small B) (only parsing).
Implicit Types (h : Host) (os : list HostObject) (fs : list (option VmFrame)).
#[local] Abbreviation fz := (frozen I) (only parsing).

(** The errors of a conversion of a number. *)
Definition number_error (e : Error) : Prop := E e ∨ e = CONVERSION.

Lemma number_in_int os num v n : Forall in_width os → number os num v = Some n → in_int num n.
Proof.
  intros Hos. destruct v as [o|s]; simpl.
  - case_decide; [|done]. unfold target. case_match; [done|]. intros (hot & Hhot & Hn)%bind_Some.
    rewrite Forall_forall in Hos. specialize (Hos hot). destruct num, hot; simplify_eq/=;
      (apply Hos; by eapply list_elem_of_lookup_2).
  - intros Hs. destruct (small_number_some _ _ _ Hs) as (mk & Hmk & Hw & _). destruct num; by injection Hmk as <-.
Qed.

(** A part of an object. *)
Lemma read_returns os fs {T U} (ex : HostObject → option T) (f : T → M Host U) o hot t u :
  target os o = Some hot → ex hot = Some t → f t = m_ret u → returns (fz os fs) (visit_obj ex o f) (eq u) E.
Proof.
  intros Ht Hex Hf. apply (visit_returns I E); [done| |].
  - intros hot' t' Ht' Hex'. simplify_eq. rewrite Hf. by apply returns_ret.
  - intros e _ He. destruct (He hot Ht). congruence.
Qed.
Lemma copied_returns os fs ex o hot t : target os o = Some hot → ex hot = Some t →
  returns (fz os fs) (impl_wrapping_obj_to_num ex o) (eq t) E.
Proof.
  intros Ht Hex. apply (visit_returns I E); [done| |].
  - intros hot' t' Ht' Hex'. simplify_eq. eapply returns_bind; [apply (charge_shallow_copy_returns (fz os fs) E)|].
    intros _ _. by apply returns_ret.
  - intros e _ He. destruct (He hot Ht). congruence.
Qed.

Lemma try_into_num_returns os fs num v n : Forall in_width os → number os num v = Some n →
  returns (fz os fs) (try_into_num num v) (eq n) number_error.
Proof.
  intros Hos Hn. pose proof (number_in_int _ _ _ _ Hos Hn) as Hin. destruct v as [o|s].
  - simpl in Hn. case_decide as Htag; [|done]. apply bind_Some in Hn as (hot & Ht & Hex).
    pose proof (pieces_whole num n Hin) as Hwhole. destruct (into_pieces num n) as [ [ [a b] c] d] eqn:Hp. rewrite <-Hwhole.
    destruct num; apply (num_from_object (fz os fs) E _ _ _ _ _ o a b c d); try done;
      (eapply read_returns; [exact Ht|exact Hex|]; cbn [into_pieces] in Hp; by rewrite Hp).
  - simpl in Hn. intros h Hh. destruct num; simpl in *; by rewrite (num_from_small _ _ _ _ _ s n).
Qed.

(** A number made into a value: it takes the place of at most one object. *)
Definition makes num (n : Z) os fs (out : Result Val * Host) : Prop :=
  match out with
  | (Ok v, h') => ∃ l, (l = [] ∨ l = [int_object num n]) ∧ fz (os ++ l) fs h' ∧ number (os ++ l) num v = Some n
  | (Err e, h') => fz os fs h' ∧ number_error e
  end.

Lemma try_into_val_makes num n os fs h : in_int num n → Z.of_nat (length os) < HANDLES → fz os fs h →
  makes num n os fs (try_into_val num n h).
Proof.
  intros Hin Hlen Hh. destruct (num_small (Small:=Small) num n) as [s|] eqn:Hs.
  - pose proof (num_small_number _ _ _ Hs) as Hsn.
    assert (try_into_val num n h = (Ok (VSmall s), h)) as -> by (destruct num; by apply val_from_small).
    exists []. rewrite app_nil_r. split; [by left|]. by split.
  - pose proof (pieces_whole num n Hin) as Hwhole.
    set (mk := match num with U256 => obj_from_u256_pieces (Small:=Small) (B:=B) | I256 => obj_from_i256_pieces end).
    assert (try_into_val num n h = val_from_num num mk n h) as -> by (by destruct num).
    pose proof (val_from_object num mk n h Hs) as Hv. destruct (into_pieces num n) as [ [ [a b] c] d] eqn:Hp.
    assert (mk a b c d = add_host_object (int_object num n)) as Hmk by (rewrite <-Hwhole; by destruct num).
    rewrite Hmk in Hv.
    pose proof (add_creates I E os fs (int_object num n) (eq (int_object num n)) number_error ltac:(by left)) as Hadd.
    specialize (Hadd ltac:(by rewrite index_to_handle_ok) eq_refl h Hh).
    destruct (add_host_object (int_object num n) h) as [ [o|e] h'].
    + rewrite Hv. destruct Hadd as (hot & <- & Hnew & Hh'). exists [int_object num n]. split; [by right|]. split; [done|].
      destruct (target_new os _ o Hlen Hnew) as [Ht _]. simpl. rewrite Ht. destruct Hnew as [_ ->]. by destruct num.
    + destruct Hv as (e' & -> & He'). destruct Hadd as [Herr Hh']. split; [done|]. destruct He' as [->| ->]; [done|by right].
Qed.
(** A computation of what [P] says: an error of metering or conversion apart, a value of the
    one number with [P], or an overflow when there is none. *)
Definition computes (P : Z → Prop) num os fs (out : Result Val * Host) : Prop :=
  match out with
  | (Ok v, h') => ∃ n, P n ∧ (∀ m, P m → m = n) ∧ makes num n os fs (Ok v, h')
  | (Err e, h') => fz os fs h' ∧ (number_error e ∨ e = OVERFLOW ∧ ∀ n, ¬ P n)
  end.

Lemma computes_bind {A} P num os fs (p : M Host A) f (Q : A → Prop) : returns (fz os fs) p Q number_error →
  (∀ a, Q a → ∀ h, fz os fs h → computes P num os fs (f a h)) → ∀ h, fz os fs h → computes P num os fs (m_bind p f h).
Proof.
  intros Hp Hf h Hh. unfold m_bind. destruct (Hp h Hh) as [Hh' Hr].
  destruct (p h) as [ [a|e] h']; simpl in *; [by apply Hf|]. split; [done|by left].
Qed.
Lemma computes_decided P num os fs r : decides r P → (∀ n, P n → in_int num n) → Z.of_nat (length os) < HANDLES →
  ∀ h, fz os fs h → computes P num os fs ((let* res := m_lift (ok_or r OVERFLOW) in try_into_val num res) h).
Proof.
  intros Hd Hin Hlen h Hh. unfold m_bind, m_lift. destruct r as [n|]; simpl in *; [|split; [done|by right] ].
  destruct Hd as [Hn Hu]. pose proof (try_into_val_makes num n os fs h (Hin n Hn) Hlen Hh) as Hm.
  destruct (try_into_val num n h) as [ [v|e] h']; simpl in *; [by exists n|]. destruct Hm as [? ?]. split; [done|by left].
Qed.
Lemma charged os fs cost : takes_input cost = false → returns (fz os fs) (charge (B:=Host) cost None) (λ _, True) number_error.
Proof. intros Hc. eapply returns_weaken; [by apply (charge_call_returns (B:=Host))|done|by left]. Qed.

(** The operands of a call are numbers of the type, and [n] is its result. *)
Definition typed_call os num (c : Call Small) : Prop :=
  match c with
  | CallVal _ lhs rhs => is_Some (number os num lhs) ∧ is_Some (number os num rhs)
  | CallU32 _ lhs k => is_Some (number os num lhs) ∧ in_u32 k
  end.
Definition call_result os num (c : Call Small) (n : Z) : Prop :=
  match c with
  | CallVal method lhs rhs => ∃ x y, number os num lhs = Some x ∧ number os num rhs = Some y ∧ exact num method x y n
  | CallU32 method lhs k => ∃ x, number os num lhs = Some x ∧ exact_u32 num method x k n
  end.

Lemma run_call_computes num c os fs h :
  Forall in_width os → Z.of_nat (length os) < HANDLES → typed_call os num c → fz os fs h →
  computes (call_result os num c) num os fs (run_call num c h).
Proof.
  intros Hos Hlen Hc Hh. destruct c as [method lhs rhs|method lhs k]; destruct Hc as [ [x Hx] Hr].
  - destruct Hr as [y Hy]. pose proof (number_in_int _ _ _ _ Hos Hx) as Hxi. pose proof (number_in_int _ _ _ _ Hos Hy) as Hyi.
    assert (∀ n, call_result os num (CallVal method lhs rhs) n ↔ exact num method x y n) as Hiff.
    { intros n. split; [intros (x' & y' & Hx' & Hy' & He); congruence|by exists x, y]. }
    pose proof (checked_decides num method x y Hxi Hyi) as Hd.
    assert (∃ cost, takes_input cost = false ∧ run_call num (CallVal method lhs rhs) = impl_bignum_host_fns method num cost lhs rhs)
      as (cost & Hcost & ->) by (destruct num, method; eexists; (split; [|reflexivity]); done).
    unfold impl_bignum_host_fns. revert h Hh. eapply computes_bind; [by apply charged|intros _ _].
    eapply computes_bind; [by eapply try_into_num_returns|intros ? <-].
    eapply computes_bind; [by eapply try_into_num_returns|intros ? <-]. apply computes_decided; [|by intros n [? _]%Hiff|done].
    by eapply decides_iff.
  - pose proof (number_in_int _ _ _ _ Hos Hx) as Hxi.
    assert (∀ n, call_result os num (CallU32 method lhs k) n ↔ exact_u32 num method x k n) as Hiff.
    { intros n. split; [intros (x' & Hx' & He); congruence|by exists x]. }
    pose proof (checked_u32_decides num method x k Hxi Hr) as Hd.
    assert (∃ cost, takes_input cost = false ∧ run_call num (CallU32 method lhs k) = impl_bignum_host_fns_rhs_u32 method num cost lhs k)
      as (cost & Hcost & ->) by (destruct num, method; eexists; (split; [|reflexivity]); done).
    unfold impl_bignum_host_fns_rhs_u32. revert h Hh. eapply computes_bind; [by apply charged|intros _ _].
    eapply computes_bind; [by eapply try_into_num_returns|intros ? <-]. apply computes_decided; [|by intros n [? _]%Hiff|done].
    by eapply decides_iff.
Qed.

(** * Properties *)

(** C26: arithmetic on 256-bit integers, given what ethnum documents of its checked methods
    ([EthnumLaws]).  Of two values of the type, small or objects, each of the sixteen
    functions gives a value of the only number that is the sum, difference, product,
    quotient rounded towards zero, non-negative remainder or power of theirs, the low 256
    bits of one shifted left (read as signed if the type is) or one shifted right rounded
    down, in a new object at most.  The error of an overflow is given exactly if there is
    no such integer in the range of the type, as for division by zero, or, for a remainder,
    if the quotient is out of range; a shift fails so
    exactly if it is by 256 or more, and a left shift drops high bits without an error.
    All other errors are of metering or conversion.  Nothing else changes but the budget. *)
Theorem int256_arithmetic_exact h num (c : Call Small) :
  I (budget h) → Forall in_width (objects h) → Z.of_nat (length (objects h)) < HANDLES → typed_call (objects h) num c →
  let '(r, h') := run_call num c h in
  frames h' = frames h ∧ ∃ l, objects h' = objects h ++ l ∧
  match r with
  | Ok v => ∃ n, call_result (objects h) num c n ∧ (∀ m, call_result (objects h) num c m → m = n) ∧
      number (objects h') num v = Some n ∧ (l = [] ∨ l = [int_object num n])
  | Err e => l = [] ∧ (number_error e ∨ e = OVERFLOW ∧ ∀ n, ¬ call_result (objects h) num c n)
  end.
Proof.
  intros Hb Hw Hlen Hc.
  pose proof (run_call_computes num c (objects h) (frames h) h Hw Hlen Hc ltac:(done)) as Hr.
  destruct (run_call num c h) as [ [v|e] h'].
  - destruct Hr as (n & Hn & Hu & l & Hl & (Ho & Hf & _) & Hv). split; [done|]. exists l. split; [done|].
    exists n. rewrite Ho. by split_and!.
  - destruct Hr as ((Ho & Hf & _) & He). split; [done|]. exists []. by rewrite app_nil_r.
Qed.

(** What was made stays where it is. *)
Lemma creates_target h (p : M Host Object) hot o h' h2 l :
  creates I (objects h) (frames h) p (eq hot) (λ _, True) → I (budget h) → Z.of_nat (length (objects h)) < HANDLES →
  p h = (Ok o, h') → objects h2 = objects h' ++ l → target (objects h2) o = Some hot.
Proof.
  intros Hp Hb Hlen Hr Hh2. specialize (Hp h ltac:(done)). rewrite Hr in Hp. destruct Hp as (hot' & <- & Hnew & (Ho & _)).
  rewrite Hh2, Ho. apply target_app. by destruct (target_new (objects h) hot o Hlen Hnew).
Qed.
Lemma adds os fs hot : creates I os fs (add_host_object hot) (eq hot) (λ _, True).
Proof. by apply (add_creates I E). Qed.

(** C27: numbers are read as they were made: of 64 bits as they are, of 128 and 256 bits piece
    by piece, signed or not, times and durations; also after the host has made more
    objects.  Reading changes nothing but the budget, and fails only when metering does. *)
Theorem numbers_round_trip h s o h' h2 l :
  I (budget h) → Z.of_nat (length (objects h)) < HANDLES → source_ok s → make s h = (Ok o, h') →
  objects h2 = objects h' ++ l → I (budget h2) →
  Forall (λ rd, let '(r, h3) := rd.1 o h2 in objects h3 = objects h2 ∧ frames h3 = frames h2 ∧
    match r with Ok n => n = rd.2 | Err e => E e end) (readers s).
Proof.
  intros Hb Hlen Hs Hm Hh2 Hb2.
  assert (∀ hot, creates I (objects h) (frames h) (make s) (eq hot) (λ _, True) → target (objects h2) o = Some hot) as Ht
    by (intros hot Hhot; by eapply creates_target).
  assert (∀ (p : M Host Z) n, returns (fz (objects h2) (frames h2)) p (eq n) E →
    let '(r, h3) := p h2 in objects h3 = objects h2 ∧ frames h3 = frames h2 ∧ match r with Ok m => m = n | Err e => E e end) as Hread.
  { intros p n Hp. destruct (Hp h2 ltac:(done)) as [(Ho & Hf & _) Hr]. destruct (p h2) as [ [m|e] h3]; by split_and!. }
  destruct s; simpl in Hs, Ht; try (destruct_and!); repeat constructor; simpl; apply Hread;
    first [by eapply copied_returns; [apply Ht, adds|]|eapply read_returns; [apply Ht, adds|reflexivity|] ].
  all: try by rewrite ?u256_pieces, ?i256_pieces.
  all: first [by destruct (u128_pieces hi lo) as [-> _]|by destruct (u128_pieces hi lo) as [_ ->]
    |by destruct (i128_pieces hi lo) as [-> _]|by destruct (i128_pieces hi lo) as [_ ->] ].
Qed.

(** The bytes of an integer: 32 of them, the most significant first. *)
Lemma fixed_length_returns os fs (b : bytes) : length b = 32%nat → returns (fz os fs) (fixed_length_bytes_from_slice 32 b) (eq b) E.
Proof.
  intros Hlen. unfold fixed_length_bytes_from_slice. rewrite decide_True by done.
  eapply returns_bind; [by apply (charge_returns (B:=Host))|intros _ _]. by apply returns_ret.
Qed.
Lemma from_be_bytes_makes num os fs o n h : in_int num n → Z.of_nat (length os) < HANDLES →
  target os o = Some (OBytes (to_be_bytes num n)) → fz os fs h → makes num n os fs (val_from_be_bytes num o h).
Proof.
  intros Hn Hlen Ht Hh.
  assert (returns (fz os fs) (visit_obj extract_bytes o (λ b, let* arr := fixed_length_bytes_from_slice 32 b in m_ret (from_be_bytes num arr)))
    (eq n) number_error) as Hread.
  { apply (visit_returns I E); [by left| |intros e _ He; by destruct (He _ Ht)].
    intros hot b Ht' Hex. simplify_eq/=. eapply returns_bind.
    { eapply returns_weaken; [apply fixed_length_returns, be_bytes_length|intros ? Hb; exact Hb|by left]. }
    intros ? <-. apply returns_ret. symmetry. by apply be_bytes_law. }
  assert (∀ k, (∀ n h, makes num n os fs (try_into_val num n h) → makes num n os fs (k n h)) →
    makes num n os fs (m_bind (visit_obj extract_bytes o (λ b, let* arr := fixed_length_bytes_from_slice 32 b in m_ret (from_be_bytes num arr))) k h)) as Hk.
  { intros k Hk. unfold m_bind at 1. destruct (Hread h Hh) as [Hh' Hr]. destruct (visit_obj _ _ _ h) as [ [m|e] h'']; simpl in *; [|done].
    subst m. by apply Hk, try_into_val_makes. }
  destruct num; apply Hk; [done|]. intros m h1 Hm. unfold m_map_err. destruct (try_into_val I256 m h1) as [ [v|e] h'']; [exact Hm|].
  destruct Hm as [? _]. split; [done|by right].
Qed.
Lemma to_be_bytes_creates xdr_error os fs num v n : number os num v = Some n →
  creates I os fs (val_to_be_bytes xdr_error num v) (eq (OBytes (to_be_bytes num n))) (λ _, True).
Proof.
  intros Hn. assert (∀ b, returns (fz os fs) (scbytes_from_slice xdr_error b) (eq b) (λ _, True)) as Hslice.
  { intros b. unfold scbytes_from_slice, metered_slice_to_vec. apply (calm_seq I _ _ _ _ (eq b)).
    - apply calm_then; [apply (calm_bulk I E)|intros _; by apply calm_ret].
    - intros ? <-. apply returns_lift. unfold to_scbytes. by case_decide. }
  assert (∀ p : M Host bytes, returns (fz os fs) p (eq (to_be_bytes num n)) (λ _, True) →
    creates I os fs (let* scb := p in add_host_object (OBytes scb)) (eq (OBytes (to_be_bytes num n))) (λ _, True)) as Hadd.
  { intros p Hp. eapply bind_creates; [exact Hp|]. intros ? <-. apply adds. }
  destruct v as [o|s]; simpl in Hn.
  - case_decide; [|done]. apply bind_Some in Hn as (hot & Ht & Hex).
    destruct num; simpl in Hex; apply Hadd; (apply (visit_returns I E); [done| |done]; intros hot' t Ht' Hex'; simplify_eq; apply Hslice).
  - assert (∀ h, val_to_be_bytes xdr_error num (VSmall s) h = (let* scb := scbytes_from_slice xdr_error (to_be_bytes num n) in
      add_host_object (OBytes scb)) h) as Heq by (intros h; destruct num; simpl in *; unfold m_bind at 1, m_lift; by rewrite Hn).
    intros h Hh. rewrite Heq. apply Hadd; [apply Hslice|done].
Qed.

(** The bytes of an integer, small or an object, are bytes of the same integer, also after
    the host has made more objects. *)
Theorem number_bytes_round_trip xdr_error h num v n o h' h2 l :
  I (budget h) → Forall in_width (objects h) → Z.of_nat (length (objects h2)) < HANDLES → number (objects h) num v = Some n →
  val_to_be_bytes xdr_error num v h = (Ok o, h') → objects h2 = objects h' ++ l → I (budget h2) →
  let '(r, h3) := val_from_be_bytes num o h2 in
  match r with Ok v' => number (objects h3) num v' = Some n | Err e => number_error e end.
Proof.
  intros Hb Hw Hlen Hn Hto Hh2 Hb2. pose proof (number_in_int _ _ _ _ Hw Hn) as Hin.
  assert (Z.of_nat (length (objects h)) < HANDLES) as Hlen1.
  { pose proof (to_be_bytes_creates xdr_error (objects h) (frames h) num v n Hn h ltac:(done)) as Hc. rewrite Hto in Hc.
    destruct Hc as (hot & _ & _ & (Ho & _)). rewrite Hh2, Ho, !length_app in Hlen. lia. }
  pose proof (creates_target h _ _ o h' h2 l (to_be_bytes_creates xdr_error _ _ num v n Hn) Hb Hlen1 Hto Hh2) as Ht.
  pose proof (from_be_bytes_makes num (objects h2) (frames h2) o n h2 Hin Hlen Ht ltac:(done)) as Hm.
  destruct (val_from_be_bytes num o h2) as [ [v'|e] h3]; simpl in Hm; [|by destruct Hm].
  by destruct Hm as (l3 & _ & (-> & _) & Hv).
Qed.
End host.
