(* ===== verification/HostDemo.v ===== *)
(** Linear memory, conversions and comparisons on a concrete host, for the witnesses. *)
From S2P Require Import Prelude ScVal Budget BudgetThms Metering Search OrdMap Vector Objects Convert LinMem Dispatch ObjCode ObjThms ObjEffects ObjSafe MemSafe MemWrites ObjRefine ObjProps MemThms ObjDemo ConvertThms Compare CompareThms Numbers.
#[local] Open Scope m_scope.

(** * Linear memory *)

#[export] Instance toy_memory_laws : WasmiMemoryLaws.
Proof.
  split; intros; simpl; [by rewrite decide_True|rewrite decide_False by lia; by eexists|
    by rewrite decide_True|rewrite decide_False by lia; by eexists].
Qed.

#[local] Abbreviation P32 := (2 ^ 32) (only parsing).
Definition toy_fit (s : toy) : Prop :=
  match s with TU32 n => 0 <= n <= u32_max | TError _ => False | _ => True end.
Lemma div_word a b : 0 <= b < P32 → (a * P32 + b) / P32 = a ∧ (a * P32 + b) mod P32 = b.
Proof.
  intros Hb. rewrite Z.div_add_l by done. rewrite (Z.div_small b) by done. split; [lia|].
  rewrite Z.add_comm, Z_mod_plus_full. by apply Z.mod_small.
Qed.
#[export] Instance toy_payload_laws : PayloadLaws toy toy_fit.
Proof.
  split.
  - intros [t hd] Hhd. simpl in Hhd. unfold word_ok, from_payload, get_payload, toy_payload. cbn [get_tag get_handle].
    destruct (div_word (16 + tag_word t) hd) as [-> ->]; [unfold u32_max in Hhd; lia|].
    split; [|unfold u32_max in Hhd; destruct t; simpl; lia]. by destruct t.
  - intros [|n|b|e] Hs; simpl in Hs; [by vm_compute| |by destruct b; vm_compute|done].
    unfold word_ok, from_payload, get_payload, toy_payload. replace (P32 + n) with (1 * P32 + n) by lia.
    destruct (div_word 1 n) as [-> ->]; [unfold u32_max in Hs; lia|]. split; [done|]. unfold u32_max in Hs. lia.
Qed.

#[local] Abbreviation Host := (ObjHost toy BudgetImpl) (only parsing).
#[local] Abbreviation E := (λ e, e = EXCEEDED) (only parsing).

Definition check_error (e : Error) : Prop := e = EXCEEDED ∨ e = EHost TObject InternalError ∨ e = EHost TValue InvalidInput.
Lemma toy_check_returns os fs v : returns (frozen budget_wf os fs) (toy_check v) (λ _, True) check_error.
Proof.
  destruct v as [o|s]; simpl; [|by apply returns_ret]. unfold check_obj_integrity, visit_obj_untyped.
  eapply returns_bind.
  { eapply returns_weaken; [by apply (charge_call_returns (B:=Host) (I:=frozen budget_wf os fs) (E:=E))|done|by left]. }
  intros _ _. eapply returns_bind; [intros h Hh; split; [exact Hh|by instantiate (1 := λ _, True)]|].
  intros h _. case_match; [apply returns_fail; by right; left|]. case_match; [|apply returns_fail; by right; right].
  case_decide; [by apply returns_ret|apply returns_fail; by right; right].
Qed.

(** Bytes and a vector that holds them; 64 bytes of memory. *)
Definition mem_bytes : bytes := [Byte.x0a; Byte.x0b; Byte.x0c; Byte.x0d].
Definition mem_vals : list (Val toy) := [VSmall (TU32 7); VObject (mkObject BytesObject 1); VSmall (TBool true)].
Definition mem_frame : VmFrame := mkVmFrame [mkObject BytesObject 1] (Some (replicate 64 Byte.x00)).
Definition mem_host : Host := mkObjHost [OBytes mem_bytes; OVec mem_vals] [Some mem_frame] default_budget.

#[local] Abbreviation mem_call := (dispatch_mem TOO_DEEP toy_char toy_compare toy_check BytesCopyToLinearMemory
  [VObject (mkObject BytesObject 0); VSmall (TU32 1); VSmall (TU32 10); VSmall (TU32 2)] mem_host) (only parsing).
Lemma mem_call_result : mem_call.1 = Ok (VSmall TVoid) ∧
  match frames mem_call.2 with
  | [Some t] => memory t = Some (replicate 10 Byte.x00 ++ [Byte.x0b; Byte.x0c] ++ replicate 52 Byte.x00)
  | _ => False
  end.
Proof. split; vm_compute; reflexivity. Qed.

Lemma linear_memory_confined_witness : ∃ t' m', frames mem_call.2 = [Some t'] ∧ memory t' = Some m' ∧ length m' = 64%nat ∧
  m' !! 12%nat = Some Byte.x00.
Proof.
  destruct (linear_memory_confined budget_wf E depth_error check_error TOO_DEEP toy_char toy_compare toy_check toy_compare_calm
    toy_check_returns BytesCopyToLinearMemory
    [VObject (mkObject BytesObject 0); VSmall (TU32 1); VSmall (TU32 10); VSmall (TU32 2)] mem_host mem_frame [] (replicate 64 Byte.x00)
    default_budget_wf eq_refl eq_refl) as (t' & m' & Hf & Hm & Hl & Hsame).
  exists t', m'. split; [exact Hf|]. split; [exact Hm|]. split; [exact Hl|]. rewrite Hsame; [reflexivity|].
  unfold write_range. simpl. lia.
Defined.

Lemma toy_slab : slab (Small:=toy) (ScBytes_mem TOO_DEEP).
Proof. split; [done|]. intros b b'. simpl. unfold to_scbytes. case_decide; [|done]. by intros [= <-]. Qed.

#[local] Abbreviation copied := (memobj_copy_to_linear_memory (ScBytes_mem TOO_DEEP) (mkObject BytesObject 1) 1 10 3 mem_host) (only parsing).
#[local] Abbreviation made h := (memobj_new_from_linear_memory (ScBytes_mem TOO_DEEP) 10 3 h) (only parsing).
Lemma made_result : copied.1 = Ok tt ∧ (made copied.2).1 = Ok (mkObject BytesObject 5).
Proof. split; vm_compute; reflexivity. Qed.

Lemma slab_memory_round_trip_witness :
  ∃ o' h2, made copied.2 = (Ok o', h2) ∧ target (objects h2) o' = Some (OBytes [Byte.x0b; Byte.x0c; Byte.x0d]).
Proof.
  pose proof made_result as [Hc Hm].
  pose proof (slab_memory_round_trip budget_wf E (ScBytes_mem TOO_DEEP) (mkObject BytesObject 1) (OBytes mem_bytes) mem_bytes
    1 10 3 mem_host mem_frame [] (replicate 64 Byte.x00) toy_slab default_budget_wf eq_refl eq_refl eq_refl eq_refl
    ltac:(vm_compute; discriminate) ltac:(vm_compute; reflexivity) ltac:(lia) ltac:(lia) ltac:(lia)) as Hr.
  destruct copied as [r h1]. cbn [fst snd] in Hc, Hm. subst r. destruct Hr as (_ & _ & Hr).
  cbn [snd]. destruct (made h1) as [r h2]. cbn [fst] in Hm. subst r. exists (mkObject BytesObject 5), h2. split; [reflexivity|]. apply Hr.
Defined.

#[local] Abbreviation unpack := (vec_unpack_to_linear_memory (mkObject VecObject 3) 8 3 mem_host) (only parsing).
#[local] Abbreviation packed_again h := (vec_new_from_linear_memory toy_check 8 3 h) (only parsing).
Lemma unpack_result : unpack.1 = Ok tt ∧ (packed_again unpack.2).1 = Ok (mkObject VecObject 5).
Proof. split; vm_compute; reflexivity. Qed.

Lemma vector_memory_round_trip_witness :
  ∃ o' h2, packed_again unpack.2 = (Ok o', h2) ∧ target (objects h2) o' = Some (OVec mem_vals).
Proof.
  pose proof unpack_result as [Hu Hp]. destruct unpack as [r h1] eqn:Hrun. cbn [fst snd] in Hu, Hp. subst r.
  pose proof (vector_memory_round_trip budget_wf E check_error toy_fit toy_check toy_check_returns (mkObject VecObject 3) mem_vals 8 3
    mem_host h1 mem_frame [] (replicate 64 Byte.x00) default_budget_wf eq_refl eq_refl eq_refl ltac:(vm_compute; discriminate)
    ltac:(vm_compute; reflexivity)) as Hr.
  assert (∀ s, VSmall s ∈ mem_vals → toy_fit s) as Hfit.
  { clear. intros s. unfold mem_vals. rewrite !elem_of_cons, elem_of_nil. intros [ [= ->]|[?|[ [= ->]|?] ] ]; try done. }
  specialize (Hr Hfit ltac:(lia) ltac:(lia) Hrun). clear Hrun Hfit. cbn [snd].
  destruct (packed_again h1) as [r h2]. cbn [fst] in Hp. subst r. exists (mkObject VecObject 5), h2. split; [reflexivity|exact Hr].
Defined.

(** * Conversions *)

#[local] Abbreviation W := (2 ^ 64) (only parsing).
#[export] Instance toy_pieces_laws : PiecesLaws.
Proof.
  assert (∀ n, in_u64 n → 0 <= n < W) as Hu by (unfold in_u64, u64_max; lia).
  split; intros; simpl; [split; [by apply two_hi, Hu|by apply two_lo, Hu]..|by apply in_four_four; apply Hu|by apply in_four_four; apply Hu].
Qed.

#[export] Instance toy_scvals_laws : SmallScValsLaws toy.
Proof.
  split.
  - by intros [] s; simpl; intros [= <-].
  - by intros [].
  - by intros [| | | | | | | | | | | | | | | |[]|[]| | | |].
Qed.

Definition toy_value : Xdr.ScVal :=
  Xdr.Map (Some [(Xdr.U32 1, Xdr.Vec (Some [Xdr.U64 5; Xdr.I128 (-1) 3; Xdr.Void])); (Xdr.U32 2, Xdr.Symbol [Byte.x61])]).

#[local] Abbreviation toy_to := (to_host_val (B:=BudgetImpl) toy_char toy_compare toy_value toy_host) (only parsing).
Lemma toy_to_result : toy_to.1 = Ok (VObject (mkObject MapObject 15)) ∧ length (objects toy_to.2) = 8%nat.
Proof. split; vm_compute; reflexivity. Qed.


(** What was made converts back, also on a host that has made more objects since. *)
Lemma ledger_value_round_trip_witness : ∃ h', toy_to = (Ok (VObject (mkObject MapObject 15)), h') ∧
  let h2 := mkObjHost (objects h' ++ [OVec [] ]) (frames h') default_budget in
  match (from_host_val TOO_DEEP 10 (VObject (mkObject MapObject 15)) h2).1 with
  | Ok v => v = toy_value
  | Err e => conversion_error E depth_error TOO_DEEP e
  end.
Proof.
  pose proof toy_to_result as Hres. destruct toy_to as [r h'] eqn:Hrun. destruct Hres as [Hr Hlen].
  cbn [fst snd] in Hr, Hlen. subst r. exists h'. split; [done|].
  destruct (ledger_value_round_trip budget_wf E depth_error TOO_DEEP toy_char toy_compare toy_compare_calm toy_host h' toy_value
    (VObject (mkObject MapObject 15))) as (Hwf & _ & _ & Hback);
    [apply toy_budget_wf|apply toy_wf| |exact Hrun|by rewrite Hlen|].
  { unfold toy_value, in_i64, in_u64. simpl. repeat split; vm_compute; discriminate. }
  assert (objects_wf (objects h' ++ [OVec [] ])) as Hwf2.
  { clear -Hwf. apply (good_add (Discipline := typing)); [exact Hwf|]. by intros o Ho%elem_of_nil. }
  clear Hrun. apply (Hback (mkObjHost (objects h' ++ [OVec [] ]) (frames h') default_budget) [OVec [] ] 10%nat); cbn [objects budget];
    [reflexivity|exact Hwf2|apply default_budget_wf|rewrite length_app, Hlen; simpl; lia].
Defined.

Lemma conversion_ends_witness :
  let '(r, h') := from_host_val TOO_DEEP 4 (VObject (mkObject VecObject 5)) toy_host in
  r = Ok (Xdr.Vec (Some [Xdr.Vec (Some [Xdr.U32 3])])) ∧ objects h' = objects toy_host.
Proof.
  assert ((from_host_val TOO_DEEP 4 (VObject (mkObject VecObject 5)) toy_host).1 = Ok (Xdr.Vec (Some [Xdr.Vec (Some [Xdr.U32 3])])))
    as Hr by (vm_compute; reflexivity).
  pose proof (conversion_ends budget_wf E depth_error TOO_DEEP toy_host (VObject (mkObject VecObject 5)) 4 toy_budget_wf (proj1 toy_wf)) as Hends.
  destruct (from_host_val TOO_DEEP 4 (VObject (mkObject VecObject 5)) toy_host) as [r h'].
  split; [exact Hr|]. apply Hends; [|simpl; lia]. intros o [= <-]. eexists. by split.
Defined.

(** * Comparisons *)

Lemma then_cmp_assoc a b c : then_cmp (then_cmp a b) c = then_cmp a (then_cmp b c).
Proof. by destruct a. Qed.
Lemma compare_pieces a b : (a ?= b) = then_cmp (a / W ?= b / W) (a mod W ?= b mod W).
Proof.
  pose proof (Z.div_mod a W ltac:(done)). pose proof (Z.div_mod b W ltac:(done)).
  pose proof (Z.mod_pos_bound a W ltac:(done)). pose proof (Z.mod_pos_bound b W ltac:(done)).
  destruct (Z.compare_spec (a / W) (b / W)) as [Heq|Hlt|Hgt]; simpl.
  - destruct (Z.compare_spec (a mod W) (b mod W)); [apply Z.compare_eq_iff|apply Z.compare_lt_iff|apply Z.compare_gt_iff]; lia.
  - apply Z.compare_lt_iff. nia.
  - apply Z.compare_gt_iff. nia.
Qed.
Lemma compare_four a b :
  (a ?= b) = let '(a1, a2, a3, a4) := in_four a in let '(b1, b2, b3, b4) := in_four b in parts4 a1 a2 a3 a4 b1 b2 b3 b4.
Proof.
  unfold in_four, parts4, parts2. rewrite (compare_pieces a b), (compare_pieces (a / W) (b / W)), (compare_pieces (a / W / W) (b / W / W)).
  by rewrite !then_cmp_assoc.
Qed.
#[export] Instance toy_pieces_order : PiecesOrder.
Proof. split; intros; (apply compare_pieces || apply compare_four). Qed.

(** Accounts before contracts, each by its key. *)
Definition toy_address_ord (a b : ScAddress) : comparison :=
  match a, b with
  | Account x, Account y => (x ?= y)%N
  | Contract x, Contract y => (x ?= y)%N
  | Account _, Contract _ => Lt
  | Contract _, Account _ => Gt
  end.
#[export] Instance toy_address_total : TotalOrder toy_address_ord.
Proof.
  split.
  - intros [x|x] [y|y]; simpl; rewrite ?N.compare_eq_iff; split; congruence.
  - intros [x|x] [y|y]; simpl; first [apply N.compare_antisym|done].
  - intros [x|x] [y|y] [z|z]; simpl; try done; rewrite !N.compare_lt_iff; lia.
Qed.
#[export] Instance toy_orders : ScValOrders := {|
  discriminant := scv_type; error_ord := N.compare; nonce_ord := N.compare; instance_ord := N.compare; address_ord := toy_address_ord
|}.
#[export] Instance toy_orders_laws : ScValOrdersLaws.
Proof. split; [done|apply _..]. Qed.

(** Element by element. *)
Definition toy_compare_pair {S A C} (f : A → A → M S comparison) (g : C → C → M S comparison) (p q : A * C) : M S comparison :=
  let* o := f p.1 q.1 in match o with Eq => g p.2 q.2 | o => m_ret o end.
Fixpoint toy_compare_vec {S A} (f : A → A → M S comparison) (l k : list A) : M S comparison :=
  match l, k with
  | [], [] => m_ret Eq
  | [], _ :: _ => m_ret Lt
  | _ :: _, [] => m_ret Gt
  | x :: l, y :: k => let* o := f x y in match o with Eq => toy_compare_vec f l k | o => m_ret o end
  end.
#[export] Instance toy_compares : Compares := {| compare_vec := @toy_compare_vec; compare_pair := @toy_compare_pair |}.
#[export] Instance toy_compares_laws : ComparesLaws.
Proof.
  split.
  - intros S A J F f ord l. induction l as [|x l IH]; intros [|y k] Hf; simpl; try by apply returns_ret.
    eapply returns_bind; [apply Hf; by left|]. intros o ->.
    destruct (ord x y); [|by apply returns_ret..]. apply IH. intros. apply Hf; by right.
  - intros S A C J F f g ford gord p q Hp Hq. eapply returns_bind; [exact Hp|]. intros o ->.
    unfold pair_cmp. destruct (ford p.1 q.1); simpl; [exact Hq|by apply returns_ret..].
Qed.

(** No small numbers but [u32], which no object has. *)
#[export] Instance toy_val_compare : ValCompare toy := {|
  compare_val S oc a b :=
    match a, b with
    | VSmall s, VSmall t => m_ret (scval_cmp (small_scval s) (small_scval t))
    | _, _ => let* z := oc a b in m_ret (z ?= 0)
    end;
  get_scval_type t :=
    match t with
    | U64Object => 5 | I64Object => 6 | TimepointObject => 7 | DurationObject => 8 | U128Object => 9 | I128Object => 10
    | U256Object => 11 | I256Object => 12 | BytesObject => 13 | StringObject => 14 | SymbolObject => 15 | VecObject => 16
    | MapObject => 17 | AddressObject => 18
    end;
  small_scval_type s := scv_type (small_scval s);
  small_number _ _ := None
|}.
Lemma sign_compare o : (sign o ?= 0) = o.
Proof. by destruct o. Qed.
#[export] Instance toy_val_compare_laws : ValCompareLaws toy.
Proof.
  split.
  - intros S J F oc ord a b _ Hsmall Hoc. destruct a as [o|s], b as [o'|t]; simpl.
    4: { apply returns_ret. by rewrite Hsmall. }
    all: eapply returns_bind; [apply Hoc; by eauto|]; intros z ->; apply returns_ret; by rewrite sign_compare.
  - intros [l|m|n|n|n|n|n|n|n|n|b|b|b|a] g sv; simpl; intros Hd; try (by injection Hd as <-);
      by apply bind_Some in Hd as (? & _ & [= <-]).
  - done.
  - by intros [].
  - done.
  - intros t [] mk; destruct t; done.
  - done.
  - by intros [].
Qed.

#[local] Abbreviation older := (VObject (mkObject VecObject 3)) (only parsing).
#[local] Abbreviation nested := (VObject (mkObject VecObject 5)) (only parsing).
Definition toy_instance (a b : N) : M BudgetImpl comparison := compare_fixed_size 64 N.compare a b.
Lemma toy_instance_returns a b : returns budget_wf (toy_instance a b) (λ o, o = instance_ord a b) (comparison_error E depth_error).
Proof. apply (compare_fixed_returns budget_wf E (comparison_error E depth_error) ltac:(by left)). lia. Qed.

Example toy_comparison : (compare_host_val 4 older nested toy_host).1 = Ok Lt.
Proof. vm_compute. done. Qed.

(** [ [3] ] and [ [ [3] ] ]: numbers come before vectors. *)
Lemma host_comparison_agrees_witness : ∃ va vb, denote 4 (objects toy_host) older = Some va ∧ denote 4 (objects toy_host) nested = Some vb ∧
  scval_cmp va vb = Lt ∧ match (compare_scval toy_instance 4 va vb (budget toy_host)).1 with Ok o => o = Lt | Err e => comparison_error E depth_error e end.
Proof.
  destruct (host_comparison_agrees budget_wf E depth_error toy_instance toy_instance_returns toy_host older nested 4)
    as (va & vb & Ha & Hb & Hhost & Hscval).
  { apply toy_budget_wf. } { apply toy_wf. } { repeat constructor. }
  { intros o [= <-]. eexists. by split. } { intros o [= <-]. eexists. by split. } { simpl. lia. }
  pose proof toy_comparison as Hres. destruct (compare_host_val 4 older nested toy_host) as [r h'].
  cbn [fst] in Hres. subst r. destruct Hhost as (_ & _ & Ho).
  exists va, vb. split_and!; [done|done|done|]. specialize (Hscval _ toy_budget_wf). by destruct (compare_scval toy_instance 4 va vb (budget toy_host)).1 as [o|e]; [rewrite Hscval|].
Defined.

(** Two vectors that hold the same. *)
#[local] Abbreviation twice := [OVec [VSmall (TU32 3)]; OVec [VSmall (TU32 3)]; OVec [VSmall (TU32 4)] ] (only parsing).
#[local] Abbreviation twice_host := (mkObjHost twice [] default_budget) (only parsing).
#[local] Abbreviation vec k := (VObject (mkObject VecObject (2 * k + 1)) : Val toy) (only parsing).
Lemma twice_gives a b o : (compare_host_val 4 a b twice_host).1 = Ok o → gives (B:=BudgetImpl) budget_wf twice 4 a b o.
Proof. intros Hr. exists twice_host. split; [apply default_budget_wf|]. by split. Qed.
Lemma twice_valid k : (k < 3)%nat → ∀ x, vec (Z.of_nat k) = VObject x → valid twice x.
Proof. intros Hk x [= <-]. destruct k as [|[|[|k] ] ]; [..|lia]; eexists; by split. Qed.
Lemma twice_wf : objects_wf twice.
Proof.
  intros [|[|[|i] ] ] hot o Hi Hin; simplify_eq/=; apply list_elem_of_singleton in Hin; done.
Qed.

Lemma host_comparison_ordered_witness :
  denote 4 twice (vec 0) = denote 4 twice (vec 1) ∧ ∀ o, gives (B:=BudgetImpl) budget_wf twice 4 (vec 2) (vec 0) o → o = Gt.
Proof.
  destruct (host_comparison_ordered budget_wf E depth_error twice 4 (vec 0) (vec 1) (vec 2)) as (Heq & _);
    [exact twice_wf|by repeat constructor|simpl; lia|apply (twice_valid 0); lia|apply (twice_valid 1); lia|apply (twice_valid 2); lia|].
  destruct (host_comparison_ordered budget_wf E depth_error twice 4 (vec 0) (vec 2) (vec 0)) as (_ & _ & Hflip & _);
    [exact twice_wf|by repeat constructor|simpl; lia|apply (twice_valid 0); lia|apply (twice_valid 2); lia|apply (twice_valid 0); lia|].
  split.
  - apply (Heq Eq); [|done]. apply twice_gives. vm_compute. reflexivity.
  - intros o Ho. apply (Hflip Lt); [|exact Ho]. apply twice_gives. vm_compute. reflexivity.
Defined.

(** * Numbers *)

(** Exact arithmetic, and bytes from those of linear memory. *)
#[export] Instance toy_ethnum : Ethnum := {|
  checked num method x y :=
    match method with
    | checked_add => fit num (x + y)
    | checked_sub => fit num (x - y)
    | checked_mul => fit num (x * y)
    | checked_div => if decide (y = 0) then None else fit num (x ÷ y)
    | checked_rem_euclid => if decide (y = 0) then None else _ ← fit num (x ÷ y); Some (x mod Z.abs y)
    end;
  checked_u32 num method x k :=
    match method with
    | checked_pow => fit num (x ^ k)
    | checked_shl => if decide (k < 256) then Some (wrap num (Z.shiftl x k)) else None
    | checked_shr => if decide (k < 256) then Some (Z.shiftr x k) else None
    end;
  to_be_bytes num n := rev (to_le_bytes 32 (n mod 2 ^ 256));
  from_be_bytes num b := wrap num (from_le_bytes (rev b))
|}.
#[export] Instance toy_ethnum_laws : EthnumLaws.
Proof.
  split; intros; cbn [checked checked_u32 to_be_bytes from_be_bytes toy_ethnum]; try done; try (by rewrite decide_False).
  rewrite rev_involutive, le_bytes_round_trip by (by apply Z.mod_pos_bound).
  destruct num; cbn [wrap in_int] in *; [by rewrite Z.mod_mod, Z.mod_small|].
  rewrite Zplus_mod_idemp_l, Z.mod_small; lia.
Qed.
#[export] Instance toy_pieces_whole : PiecesWhole.
Proof.
  intros num n _. assert (four (n / W / W / W) (n / W / W mod W) (n / W mod W) (n mod W) = n) as Hn
    by (unfold four, two; rewrite !(Z.mul_comm _ W), <-!Z.div_mod; done).
  by destruct num.
Qed.

(** No 256-bit integer is small. *)
#[export] Instance toy_conversions : NumConversions toy := {|
  num_from_val S num f1 f2 f3 f4 v :=
    match v with
    | VObject o =>
        let* a := f1 o in let* b := f2 o in let* c := f3 o in let* d := f4 o in m_ret (from_pieces num a b c d)
    | VSmall _ => m_fail CONVERSION
    end;
  num_small _ _ := None;
  val_from_num S num mk n := let '(a, b, c, d) := into_pieces num n in let* o := mk a b c d in m_ret (VObject o)
|}.
#[export] Instance toy_conversions_laws : NumConversionsLaws toy.
Proof.
  split; try done.
  - intros S J F num f1 f2 f3 f4 o a b c d _ H1 H2 H3 H4. simpl.
    assert (∀ (p : M S Z) n (k : Z → M S Z) (Q : Z → Prop), returns J p (eq n) F →
      returns J (k n) Q (λ e, F e ∨ e = CONVERSION) → returns J (m_bind p k) Q (λ e, F e ∨ e = CONVERSION)) as Hb.
    { intros p n k Q Hp Hk. apply (returns_bind _ _ _ _ (eq n)); [|by intros ? <-].
      eapply returns_weaken; [exact Hp|done|by left]. }
    do 4 (eapply Hb; [eassumption|]). by apply returns_ret.
  - intros S num mk n st _. simpl. destruct (into_pieces num n) as [ [ [a b] c] d]. unfold m_bind.
    destruct (mk a b c d st) as [ [o|e] st']; [done|]. exists e. by split; [|left].
Qed.

#[local] Abbreviation min_host := (mkObjHost [OI256 (- 2 ^ 255); OI256 (-1); OI256 (-7); OI256 2] [] default_budget : Host) (only parsing).
#[local] Abbreviation int k := (VObject (mkObject I256Object (2 * k + 1)) : Val toy) (only parsing).

(** The least integer by -1 overflows; the remainder of -7 by 2 is 1. *)
Lemma int256_arithmetic_exact_witness :
  (∀ n, ¬ call_result (objects min_host) I256 (CallVal checked_div (int 0) (int 1)) n) ∧
  ∃ v, (run_call I256 (CallVal checked_rem_euclid (int 2) (int 3)) min_host).1 = Ok v ∧
    number (objects (run_call I256 (CallVal checked_rem_euclid (int 2) (int 3)) min_host).2) I256 v = Some 1.
Proof.
  assert (Forall in_width (objects min_host)) as Hw by (simpl; repeat constructor; simpl; lia).
  split.
  - assert ((run_call I256 (CallVal checked_div (int 0) (int 1)) min_host).1 = Err OVERFLOW) as Hr by (vm_compute; reflexivity).
    pose proof (int256_arithmetic_exact budget_wf E min_host I256 (CallVal checked_div (int 0) (int 1)) default_budget_wf Hw
      ltac:(vm_compute; reflexivity) ltac:(split; by eexists)) as Hc.
    destruct (run_call I256 (CallVal checked_div (int 0) (int 1)) min_host) as [r h']. cbn [fst] in Hr. subst r.
    destruct Hc as (_ & l & _ & _ & [ [He|He]|[_ Hn] ]); [done..|exact Hn].
  - assert (∃ v, (run_call I256 (CallVal checked_rem_euclid (int 2) (int 3)) min_host).1 = Ok v) as [v Hr] by (eexists; vm_compute; reflexivity).
    pose proof (int256_arithmetic_exact budget_wf E min_host I256 (CallVal checked_rem_euclid (int 2) (int 3)) default_budget_wf Hw
      ltac:(vm_compute; reflexivity) ltac:(split; by eexists)) as Hc.
    destruct (run_call I256 (CallVal checked_rem_euclid (int 2) (int 3)) min_host) as [r h']. cbn [fst snd] in *. subst r.
    exists v. split; [done|]. destruct Hc as (_ & l & _ & n & _ & Hu & Hv & _). rewrite Hv. f_equal. symmetry. apply Hu.
    exists (-7), 2. split; [reflexivity|]. split; [reflexivity|]. split; [simpl; lia|]. exists (-4). simpl. lia.
Defined.

(** The pieces of a 256-bit integer, read after another object has been made. *)
#[local] Abbreviation pieces_made := (make (Small:=toy) (FromI256 (-1) 2 3 4) min_host) (only parsing).
Lemma numbers_round_trip_witness : ∃ o h', pieces_made = (Ok o, h') ∧
  match (obj_to_i256_lo_hi o (mkObjHost (objects h' ++ [OVec [] ]) [] default_budget : Host)).1 with Ok n => n = 3 | Err e => E e end.
Proof.
  assert (pieces_made.1 = Ok (mkObject I256Object 9)) as Hr by (vm_compute; reflexivity).
  destruct pieces_made as [r h'] eqn:Hm. cbn [fst] in Hr. subst r. exists (mkObject I256Object 9), h'. split; [done|].
  pose proof (numbers_round_trip budget_wf E min_host (FromI256 (-1) 2 3 4) (mkObject I256Object 9) h'
    (mkObjHost (objects h' ++ [OVec [] ]) [] default_budget) [OVec [] ] default_budget_wf ltac:(vm_compute; reflexivity)
    ltac:(unfold source_ok, in_i64, in_u64; repeat split; vm_compute; discriminate) Hm eq_refl default_budget_wf) as Hall.
  clear Hm. apply Forall_cons in Hall as [_ Hall]. apply Forall_cons in Hall as [_ Hall]. apply Forall_cons in Hall as [Hlo _].
  simpl in Hlo. destruct (obj_to_i256_lo_hi _ _) as [r h3]. by destruct Hlo as (_ & _ & ?).
Defined.

Lemma number_bytes_round_trip_witness :
  ∃ o h', val_to_be_bytes TOO_DEEP I256 (int 2) min_host = (Ok o, h') ∧
    match (val_from_be_bytes I256 o (mkObjHost (objects h') [] default_budget : Host)) with
    | (Ok v, h3) => number (objects h3) I256 v = Some (-7)
    | (Err e, _) => number_error E e
    end.
Proof.
  assert ((val_to_be_bytes TOO_DEEP I256 (int 2) min_host).1 = Ok (mkObject BytesObject 9)) as Hr by (vm_compute; reflexivity).
  assert (length (objects (val_to_be_bytes TOO_DEEP I256 (int 2) min_host).2) = 5%nat) as Hl by (vm_compute; reflexivity).
  assert (Forall in_width (objects min_host)) as Hw by (simpl; repeat constructor; simpl; lia).
  destruct (val_to_be_bytes TOO_DEEP I256 (int 2) min_host) as [r h'] eqn:Hm. cbn [fst snd] in Hr, Hl. subst r.
  exists (mkObject BytesObject 9), h'. split; [done|].
  pose proof (number_bytes_round_trip budget_wf E TOO_DEEP min_host I256 (int 2) (-7) (mkObject BytesObject 9) h'
    (mkObjHost (objects h') [] default_budget) [] default_budget_wf Hw ltac:(cbn [objects]; rewrite Hl; vm_compute; reflexivity)
    eq_refl Hm ltac:(simpl; by rewrite app_nil_r) default_budget_wf) as Hb.
  clear Hm. by destruct (val_from_be_bytes I256 _ _) as [r h3].
Defined.
